(* ===== verification/_CoqProject ===== *)
-Q . S2P
Prelude.v
Slice.v
Coding.v
Words.v
Bitmap.v
LfBitset.v
LfBitset64.v
Murmur.v
Doubles.v
BloomFilter.v
Bloom.v
Claims.v
RteRing.v
RteRingMp.v
MpmcRing.v
SpscRing.v
Locks.v
LruTable.v
LruCache.v
Arrays.v
BTree.v
BTreeDelete.v
SkipList.v
Arena.v
Cache.v
Trie.v
CasTable.v
StringUtil.v
ExtHash.v
Ae.v
Coroutine.v
ThreadPool.v
WaitGroup.v
Disk.v
SimpleDb.v
SimpleDbProofs.v
PageCache.v
SimpleKv.v
XxHash.v
Xxh3.v
Slab.v
SlabList.v
SlabPages.v
SlabChunks.v
SlabAlloc.v
SlabFree.v
SlabHeap.v
