(* ===== verification/Prelude.v ===== *)
(** * Verification of the [util] collection of C and C++ utilities

    The repository is a collection of mostly independent components under [src/cpp-util]
    and [src/c-util], with a few programs built on them under [src/app].  Each file of this development
    models one component, or a part of a large one: data as the code has it (structs as
    records, enums and tagged unions as inductive types, arrays as lists, heaps and hash maps
    as finite maps), and one definition per function or handler.  The comment in front of a
    definition names the lines it translates.

    ** Conventions

    - A [w]-bit unsigned integer is a [Z], and each operation that can leave its range is
      followed by [uwrap w] ([u32], [u64], ...); signed conversions use [swrap], and [int_res] is the
      result of an [int] operation whose overflow is undefined.
    - A result of type [option] is [None] where the C++ code fails an assertion or has
      undefined behaviour: an access outside of an array, through a null or freed pointer, a
      shift by the width of the type, a division by zero, the use of an invalid iterator.
      That an operation returns [Some] is thus a safety statement.
    - Code with atomic operations is a step function of a thread; a system is a list of
      program points next to the shared memory, and its executions are the sequences of
      steps in any order ([reach], [steps]).  Compare-and-swap may fail spuriously where the
      code uses the weak form.
    - Loops are structural where the number of iterations is known ([for_up], [for_down] of
      Arrays).  Other loops have fuel; the fuel is computed from the input, and each theorem
      states that the result is there, so that the fuel suffices.
    - What is not part of the repository is a parameter: [log] and [ceil] (Doubles), [malloc]
      (class [Malloc] of Arena), [rand] and the comparator of the skip list (class
      [Comparator]), the mutex under a striped lock (class [RwLock] of Locks), the hash function
      of CasTable (any function; Xxh3 models the one of the code), the kernel and the callbacks
      of an event loop (classes [Kernel] and [Handlers] of Ae), RocksDB under SimpleKV (class
      [RocksDB] of SimpleKv).  Their laws are
      classes or named hypotheses, and every theorem with such a hypothesis is applied to
      an instance.

    ** The files

    - Prelude: machine integers, bit-level reasoning, arrays, shared lemmas.
    - Slice, Coding (slice.h, coding.h): slices; fixed-width, varint and length-prefixed
      codecs.  Round trips, agreement of the two varint encoders, safety of the decoder
      on arbitrary bytes.
    - Words, Bitmap, LfBitset, LfBitset64 (bitmap.h): [Bitmap] refines the set of its free
      positions; the lock-free bitset hands out each bit to one thread at a time under every
      schedule, finds a free bit when there is one, and its bulk operations are exact.
    - Murmur (murmur2.h, murmur3.h): the hash functions read inside of the key and do not
      map two keys that differ in one block to the same value.
    - Doubles, BloomFilter, Bloom (bloomfilter.h, bloom.h): no false negatives, for both
      filters; what [Init] accepts.
    - RteRing (rte_ring.h, rte_ring.c): the single-producer and single-consumer
      operations refine a bounded queue on every branch.  RteRingMp: concurrent producers and
      consumers on the same ring; Claims: claimed index ranges and their bookkeeping.
    - MpmcRing, SpscRing (lockfreeQueue.h): both queues are first-in first-out under every
      interleaving.
    - Locks (lock.h): the word of the reader-writer spin lock counts its holders, [RWLock]
      excludes and loses no wake-up, stripes are independent.  The striped lock is verified
      against the interface [RwLock], which both locks implement.
    - LruTable, LruCache (lrucache.h): the chained hash table with its resizing, then the
      cache over a heap of entries.  The contract is an abstract cache (items, recency,
      references of clients); the theorems state refinement and what an insertion evicts.
    - Arrays, BTree, BTreeDelete (app/simpleBtree): loops over arrays; the B-tree, its
      insertion and search, and its deletion.  The tree refines a multiset of keys and its
      height is logarithmic.
    - SkipList (skiplist.h): levels as filtered views of one sorted list; insertion with its
      fast path, all searches and the iterator refine the sorted list.
    - Arena (arena.h): regions given out are disjoint, inside of the arena's blocks, and
      aligned where asked for.
    - Cache (cache/*.hh): the cache over the interface [CachePolicy], two policies that
      discharge it, and the LRU cache built on standard containers.
    - Trie (trie.h): the trie refines a finite map and lists its keys in order.
    - CasTable (cas_hashtable.h): insertions with compare-and-swap and lookups of any number
      of threads are linearizable.
    - StringUtil (string_util.h): trimming, [replace] and [split] with [strtok_r] compute what
      they are meant to, and terminate.
    - ExtHash (extendible_hashing.h): a map as long as no bucket overflows; splitting loses keys.
    - Ae (c-util/ae.cc): the event loop and epoll agree on what is watched, whatever functions of
      the loop the callbacks call (epoll may refuse a change); how long a round waits; that a round of
      time events returns and calls the due ones, each once, when callbacks are one-shot and the clock does not go back.
    - Coroutine (c-util/coroutine.c): the schedule refines a map of states, and a coroutine is
      resumed with the registers and the stack it yielded with.  The size of the shared stack
      is arbitrary.
    - ThreadPool (threadpool.h): every task that was enqueued runs once, in any schedule, and no
      wake-up is lost.  WaitGroup (waitgroup.h): waiting returns only after the last [Done]; the
      wake-up can be lost.
    - Disk (disk_manager.cc): a file of pages behind a stream; pages that were written are read back.
    - SimpleDb (app/simpleDB): the B-tree over pages of a buffer pool, with its layout in memory
      and its file.  SimpleDbProofs: the layout of nodes, well-formed pages through any history of
      insertions, searches, flushes and reopenings after a flush, and recovery of a flushed database.
      Histories with deletions, or with a closing that no flush precedes, do break it, as examples show.
    - PageCache (page_cache.h): the composition of LruCache and Disk.
    - SimpleKv (app/simpleKV): what requests handled one after the other answer, with a store that
      may fail, and that they refine a map when it does not; requests of several threads as steps.
    - XxHash, Xxh3 (xxhash.h): XXH32 and XXH64, as one call and as streams; XXH3_64bits for every
      length.  Streams agree with one call, the SSE2 code agrees with the scalar code (both
      instances of the class [Vector]), keys of up to eight bytes do not collide.
    - Slab (c-util/slab.c) is the model of the slab allocator.  SlabList: its circular
      lists of descriptors.  SlabPages: a layout of the pages into free runs, runs of a client
      and pages of chunks; taking and returning runs.  SlabChunks: the bitmaps.  SlabAlloc and
      SlabFree: [ngx_slab_alloc] and [ngx_slab_free] on every kind of page.  SlabHeap: what the
      clients see, for all sequences of calls.

    ** What the theorems show

    The theorems numbered C1 to C40 are the properties of the components.  Refinement
    theorems (Bitmap, rings, caches, B-tree, skip list, trie, coroutines, SimpleKV) relate every operation to an abstract
    state and cover sequences of operations from the constructor on.  Theorems on concurrent
    code quantify over all schedules.  A few theorems state faults of the code: a bulk reset
    at the end of a bitset, rings of size zero, enqueues of zero objects, filters with an
    error rate close to one, the deletion of a key that is not in a B-tree, keys lost by
    extendible hashing, the argument that [split] destroys, time events that are late, that
    repeat at once or that delete themselves, wake-ups that a wait group loses, keys that SimpleDB
    puts into the wrong child, writes that the page cache drops, requests of SimpleKV that
    are too long, that undo a deletion or whose reply the client waits for in vain, a failed read
    after which a disk manager drops writes, a descriptor that can not be watched again after epoll
    refused its removal, a failed PUT whose value is visible all the same.

    ** Bounds

    Bounds in the theorems are those of the code's integer types: fewer than 2^32 objects
    between two steps of a call of rte_ring (indices wrap), fewer than 2^64 - 1 threads on the
    reader-writer lock, fewer than 2^31 lists in the hash table, slices shorter than 2^32, arena requests below 2^63 (above,
    [padding + bytes] can wrap).  The B-tree operations take a fuel above the height of the
    tree, the theorems one above the number of operations; a search of the skip list
    makes at most one step per node and one per level.  The loops of the slab allocator over
    a list of descriptors have one unit of fuel per descriptor; its pool is page-aligned and
    ends below 2^63.  The counter of keys of a B-tree is an [int]: insertions are defined below 2^31 - 1 keys.
    A [Bitmap] has at most 2^32 - 64 bits; above, its constructor accesses memory behind its array.  Files of SimpleDB are smaller than 2 GiB (offsets are [int]), its operations
    take a fuel above the height of the tree.  Inputs of xxHash are shorter than 2^63 bytes.  A round of time events is shown to return
    with any fuel from some bound on, which depends on what its callbacks add.  Points in
    time are not wrapped: [long] has 64 bits.

    ** Not modelled

    - Memory orders: an atomic access takes effect at once for all threads.
    - Printing, logging, timers, random numbers, sockets (epoller, the set-up of SimpleKV),
      shared memory, what machine contexts hold: their behaviour is that of the operating system.
    - The lock-free thread pool and condvar.h, thin layers over a queue and a condition
      variable; histogram, statistics in floating point for printing.
    - lfu_cache_policy.hh and smart_ptr.h do not compile.
    - Of xxhash.h: streams of XXH3, the 128-bit hashes, generated secrets, the other vector variants.
    - Vendored headers (concurrentqueue, cuckoomap, ska_hashtable, unordered_dense_map, doctest)
      and the programs under [src/example], which try out libraries. *)

From stdpp Require Export prelude gmap list strings numbers sorting.
From Stdlib Require Export ZArith Lia.
#[global] Open Scope Z_scope.

(** ** Machine integers

    A [w]-bit unsigned integer is a [Z] in [[0, 2^w)]; every C operation that
    can leave the range is followed by one of these reductions. *)

Definition uwrap (w z : Z) : Z := z mod 2 ^ w.
Abbreviation u8 := (uwrap 8).
Abbreviation u16 := (uwrap 16).
Abbreviation u32 := (uwrap 32).
Abbreviation u64 := (uwrap 64).

(** Conversion to a signed [w]-bit integer (two's complement). *)
Definition swrap (w z : Z) : Z :=
  let r := z mod 2 ^ w in if r <? 2 ^ (w - 1) then r else r - 2 ^ w.
Abbreviation s8 := (swrap 8).
Abbreviation s32 := (swrap 32).
Abbreviation s64 := (swrap 64).

Definition uint_ok (w z : Z) : Prop := 0 ≤ z < 2 ^ w.

(** The result of an operation on C [int]s: leaving the range is undefined behaviour. *)
Definition int_res (z : Z) : option Z := if (- 2 ^ 31 <=? z) && (z <? 2 ^ 31) then Some z else None.

Lemma int_res_some z : - 2 ^ 31 ≤ z < 2 ^ 31 → int_res z = Some z.
Proof.
  intros Hz. unfold int_res. rewrite (proj2 (Z.leb_le _ _)), (proj2 (Z.ltb_lt _ _)) by lia. done.
Qed.

(** Bitwise complement of a [w]-bit unsigned integer. *)
Definition unot (w z : Z) : Z := Z.lxor z (Z.ones w).

(** Shifts of a [w]-bit unsigned integer (the shift amount is below [w]). *)
Definition ushl (w z n : Z) : Z := uwrap w (z ≪ n).
Definition rotl (w x r : Z) : Z := Z.lor (ushl w x r) (x ≫ (w - r)).

(** ** Arrays

    A C array is the list of its cells; reading or writing outside of it is
    undefined behaviour, which the models make visible as [None]. *)

Definition aget {A} (l : list A) (i : Z) : option A :=
  if 0 <=? i then l !! Z.to_nat i else None.
Definition aset {A} (l : list A) (i : Z) (x : A) : option (list A) :=
  if (0 <=? i) && (i <? Z.of_nat (length l)) then Some (<[Z.to_nat i := x]> l)
  else None.

(** The state that an execution starts from, in normal form. *)
Ltac norm_start :=
  match goal with |- ?R ?a ?b =>
    let a' := eval vm_compute in a in
    replace a with a' by (vm_compute; reflexivity) end.

(** Reducing a bind whose first computation has a result, and nothing else. *)
Ltac bind_simpl := cbn [mbind option_bind].

Create HintDb util discriminated.
Create Rewrite HintDb bits.

(** ** Bit-level reasoning

    [bits] proves an equation between expressions built from shifts, masks and
    reductions by comparing bit [i] of both sides for an arbitrary [i]. *)

Lemma testbit_uwrap w z i :
  0 ≤ w → Z.testbit (uwrap w z) i = (i <? w) && Z.testbit z i.
Proof. intros Hw. apply Z.testbit_mod_pow2. lia. Qed.

Lemma testbit_unot w z i :
  0 ≤ w → 0 ≤ i → Z.testbit (unot w z) i = xorb (Z.testbit z i) (i <? w).
Proof.
  intros Hw Hi. unfold unot. rewrite Z.lxor_spec, Z.testbit_ones by lia.
  by rewrite (proj2 (Z.leb_le 0 i)) by lia.
Qed.

Lemma testbit_small z w i : 0 ≤ z < 2 ^ w → w ≤ i → Z.testbit z i = false.
Proof.
  intros [H0 H1] Hi. destruct (decide (z = 0)) as [->|Hz]; [apply Z.testbit_0_l|].
  apply Z.bits_above_log2; [done|]. apply Z.log2_lt_pow2; [lia|].
  eapply Z.lt_le_trans; [done|]. destruct (decide (0 ≤ w)).
  - apply Z.pow_le_mono_r; lia.
  - rewrite (Z.pow_neg_r 2 w) in H1 by lia. lia.
Qed.

Lemma testbit_pow2 n i : 0 ≤ n → Z.testbit (2 ^ n) i = (n =? i).
Proof. apply Z.pow2_bits_eqb. Qed.

Lemma testbit_shiftr z n i : 0 ≤ i → Z.testbit (z ≫ n) i = Z.testbit z (i + n).
Proof. apply Z.shiftr_spec. Qed.

Lemma testbit_shiftl z n i : 0 ≤ i → Z.testbit (z ≪ n) i = Z.testbit z (i - n).
Proof. apply Z.shiftl_spec. Qed.

#[export] Hint Rewrite Z.lor_spec Z.land_spec Z.lxor_spec Z.ldiff_spec
  Z.testbit_0_l : bits.
#[export] Hint Rewrite testbit_uwrap testbit_unot Z.testbit_ones Z.testbit_mod_pow2
  testbit_pow2 testbit_shiftr testbit_shiftl Z.lnot_spec using lia : bits.

Ltac bool_cases :=
  repeat match goal with
  | |- context [?a <? ?b] => destruct (Z.ltb_spec a b)
  | |- context [?a <=? ?b] => destruct (Z.leb_spec a b)
  | |- context [?a =? ?b] => destruct (Z.eqb_spec a b)
  end; try lia.

Ltac bool_simpl :=
  rewrite ?andb_true_l, ?andb_true_r, ?andb_false_l, ?andb_false_r,
    ?orb_false_l, ?orb_false_r, ?orb_true_l, ?orb_true_r,
    ?xorb_false_l, ?xorb_false_r, ?xorb_true_l, ?xorb_true_r.

(** Bits outside of the range of a value are zero. *)
Ltac testbit_zero :=
  repeat match goal with
  | |- context [Z.testbit ?z ?e] => rewrite (Z.testbit_neg_r z e) by lia
  | H : 0 ≤ ?z < 2 ^ ?w |- context [Z.testbit ?z ?e] =>
      rewrite (testbit_small z w e H) by lia
  end.

Ltac testbit_done :=
  first [ done
        | match goal with |- Z.testbit _ ?a = Z.testbit _ ?b =>
            replace a with b by lia; done end
        | congruence ].

Ltac bits_solve :=
  repeat (progress (autorewrite with bits; bool_cases; bool_simpl; testbit_zero;
    bool_simpl; rewrite ?Z.sub_add, ?Z.add_simpl_r));
  try testbit_done.

Ltac bits :=
  apply Z.bits_inj'; intros ?i ?Hi; bits_solve.

(** ** Range facts *)

Lemma pow2_pos w : 0 ≤ w → 0 < 2 ^ w.
Proof. intros. apply Z.pow_pos_nonneg; lia. Qed.

Lemma uwrap_range w z : 0 ≤ w → 0 ≤ uwrap w z < 2 ^ w.
Proof. intros. apply Z.mod_pos_bound, pow2_pos. lia. Qed.

Lemma uwrap_small w z : 0 ≤ z < 2 ^ w → uwrap w z = z.
Proof. apply Z.mod_small. Qed.

Lemma swrap_small w z : 0 < w → - 2 ^ (w - 1) ≤ z < 2 ^ (w - 1) → swrap w z = z.
Proof.
  intros Hw Hz. unfold swrap.
  assert (H2 : 2 ^ w = 2 * 2 ^ (w - 1)).
  { replace w with (1 + (w - 1)) at 1 by lia. by rewrite Z.pow_add_r by lia. }
  destruct (Z.leb_spec 0 z).
  - rewrite Z.mod_small by lia. by rewrite (proj2 (Z.ltb_lt _ _)) by lia.
  - assert (z mod 2 ^ w = z + 2 ^ w) as ->.
    { rewrite <-(Z.mod_small (z + 2 ^ w) (2 ^ w)) by lia.
      replace (z + 2 ^ w) with (z + 1 * 2 ^ w) by lia. by rewrite Z.mod_add by lia. }
    rewrite (proj2 (Z.ltb_ge _ _)) by lia. lia.
Qed.

Lemma uwrap_idemp w z : uwrap w (uwrap w z) = uwrap w z.
Proof. apply Zmod_mod. Qed.

Lemma lor_range w a b : 0 ≤ w →
  0 ≤ a < 2 ^ w → 0 ≤ b < 2 ^ w → 0 ≤ Z.lor a b < 2 ^ w.
Proof.
  intros Hw Ha Hb. split; [apply Z.lor_nonneg; lia|].
  assert (Z.lor a b = uwrap w (Z.lor a b)) as ->; [|by apply uwrap_range].
  apply Z.bits_inj'; intros i Hi. rewrite testbit_uwrap by lia.
  destruct (Z.ltb_spec i w); [done|]. rewrite Z.lor_spec.
  by rewrite !(testbit_small _ w) by lia.
Qed.

Lemma land_range_l w a b : 0 ≤ w → 0 ≤ a < 2 ^ w → 0 ≤ Z.land a b < 2 ^ w.
Proof.
  intros Hw Ha. split; [apply Z.land_nonneg; lia|].
  assert (Z.land a b = uwrap w (Z.land a b)) as ->; [|by apply uwrap_range].
  apply Z.bits_inj'; intros i Hi. rewrite testbit_uwrap by lia.
  destruct (Z.ltb_spec i w); [done|]. rewrite Z.land_spec.
  by rewrite !(testbit_small a w) by lia.
Qed.

Lemma lxor_range w a b : 0 ≤ w →
  0 ≤ a < 2 ^ w → 0 ≤ b < 2 ^ w → 0 ≤ Z.lxor a b < 2 ^ w.
Proof.
  intros Hw Ha Hb. split; [apply Z.lxor_nonneg; lia|].
  assert (Z.lxor a b = uwrap w (Z.lxor a b)) as ->; [|by apply uwrap_range].
  apply Z.bits_inj'; intros i Hi. rewrite testbit_uwrap by lia.
  destruct (Z.ltb_spec i w); [done|]. rewrite Z.lxor_spec.
  by rewrite !(testbit_small _ w) by lia.
Qed.

Lemma shiftr_range w a n : 0 ≤ n → 0 ≤ a < 2 ^ w → 0 ≤ a ≫ n < 2 ^ w.
Proof.
  intros Hn Ha. rewrite Z.shiftr_div_pow2 by lia.
  pose proof (pow2_pos n Hn). split; [apply Z.div_pos; lia|].
  apply Z.div_lt_upper_bound; [lia|]. nia.
Qed.

#[export] Hint Resolve uwrap_range lor_range land_range_l lxor_range shiftr_range : util.

(** ** Array facts *)

Section arrays.
Context {A : Type}.
Implicit Types (l : list A) (x : A) (i j : Z).

Lemma aget_Some l i x :
  aget l i = Some x → 0 ≤ i < Z.of_nat (length l) ∧ l !! Z.to_nat i = Some x.
Proof.
  unfold aget. destruct (Z.leb_spec 0 i); [|done]. intros Hl.
  pose proof (lookup_lt_Some _ _ _ Hl). split; [lia|done].
Qed.

Lemma aget_is_Some l i : 0 ≤ i < Z.of_nat (length l) → is_Some (aget l i).
Proof.
  intros Hi. unfold aget. rewrite (proj2 (Z.leb_le 0 i)) by lia.
  apply lookup_lt_is_Some. lia.
Qed.

Lemma aget_nat l (n : nat) : aget l (Z.of_nat n) = l !! n.
Proof. unfold aget. rewrite (proj2 (Z.leb_le _ _)) by lia. by rewrite Nat2Z.id. Qed.

Lemma aset_Some l i x :
  0 ≤ i < Z.of_nat (length l) → aset l i x = Some (<[Z.to_nat i := x]> l).
Proof.
  intros [H1 H2]. unfold aset.
  by rewrite (proj2 (Z.leb_le _ _)), (proj2 (Z.ltb_lt _ _)) by lia.
Qed.

Lemma aset_inv l i x l' :
  aset l i x = Some l' → 0 ≤ i < Z.of_nat (length l) ∧ l' = <[Z.to_nat i := x]> l.
Proof.
  unfold aset. destruct (Z.leb_spec 0 i), (Z.ltb_spec i (Z.of_nat (length l)));
    simpl; intros; simplify_eq; auto.
Qed.

Lemma aset_length l i x l' : aset l i x = Some l' → length l' = length l.
Proof. intros [_ ->]%aset_inv. apply length_insert. Qed.

Lemma aget_aset l i x l' j :
  aset l i x = Some l' → aget l' j = if decide (i = j) then Some x else aget l j.
Proof.
  intros [Hi ->]%aset_inv. unfold aget. destruct (Z.leb_spec 0 j).
  - destruct (decide (i = j)) as [->|Hij].
    + apply list_lookup_insert_eq. lia.
    + apply list_lookup_insert_ne. lia.
  - destruct (decide (i = j)); [lia|done].
Qed.
End arrays.

(** ** find-first-set

    [ffsl x] is one plus the index of the least significant set bit of the
    64-bit word [x], and zero when no bit is set. *)

Fixpoint pos_ffs (p : positive) : Z :=
  match p with
  | xO q => 1 + pos_ffs q
  | _ => 1
  end.
Definition ffsl (x : Z) : Z :=
  match x with Zpos p => pos_ffs p | _ => 0 end.

Lemma pos_ffs_pos p : 1 ≤ pos_ffs p.
Proof. induction p; simpl; lia. Qed.

Lemma pos_ffs_set p : Z.testbit (Zpos p) (pos_ffs p - 1) = true.
Proof.
  induction p as [p IH|p IH|]; simpl pos_ffs; [done| |done].
  pose proof (pos_ffs_pos p). rewrite Pos2Z.inj_xO.
  replace (1 + pos_ffs p - 1) with (Z.succ (pos_ffs p - 1)) by lia.
  by rewrite Z.testbit_even_succ by lia.
Qed.

Lemma pos_ffs_below p i : 0 ≤ i < pos_ffs p - 1 → Z.testbit (Zpos p) i = false.
Proof.
  revert i. induction p as [p IH|p IH|]; simpl pos_ffs; intros i Hi; [lia| |lia].
  rewrite Pos2Z.inj_xO. destruct (decide (i = 0)) as [->|]; [by rewrite Z.testbit_even_0|].
  replace i with (Z.succ (i - 1)) by lia. rewrite Z.testbit_even_succ by lia.
  apply IH. lia.
Qed.

Lemma ffsl_zero x : 0 ≤ x → ffsl x = 0 ↔ x = 0.
Proof.
  intros Hx. destruct x as [|p|p]; [done| |lia]. simpl.
  pose proof (pos_ffs_pos p). split; lia.
Qed.

Lemma ffsl_spec x : 0 < x →
  1 ≤ ffsl x ∧ Z.testbit x (ffsl x - 1) = true ∧
  (∀ i, 0 ≤ i < ffsl x - 1 → Z.testbit x i = false).
Proof.
  intros Hx. destruct x as [|p|p]; [lia| |lia]. simpl.
  split_and!; [apply pos_ffs_pos|apply pos_ffs_set|apply pos_ffs_below].
Qed.

Lemma ffsl_le w x : 0 < x < 2 ^ w → ffsl x ≤ w.
Proof.
  intros Hx. destruct (ffsl_spec x) as (H1 & H2 & _); [lia|].
  destruct (Z.leb_spec (ffsl x) w); [done|].
  rewrite (testbit_small x w) in H2 by lia. done.
Qed.

(** ** Words *)

Lemma unot_range w x : 0 ≤ w → 0 ≤ x < 2 ^ w → 0 ≤ unot w x < 2 ^ w.
Proof.
  intros Hw Hx. apply lxor_range; [done..|]. rewrite Z.ones_equiv.
  pose proof (pow2_pos w Hw). lia.
Qed.
#[export] Hint Resolve unot_range : util.

Lemma unot_zero w x : 0 ≤ w → 0 ≤ x < 2 ^ w →
  unot w x = 0 ↔ ∀ i, 0 ≤ i < w → Z.testbit x i = true.
Proof.
  intros Hw Hx. split.
  - intros H i Hi. apply (f_equal (λ z, Z.testbit z i)) in H.
    rewrite testbit_unot, Z.testbit_0_l in H by lia.
    rewrite (proj2 (Z.ltb_lt _ _)) in H by lia. by destruct (Z.testbit x i).
  - intros H. apply Z.bits_inj'; intros i Hi. rewrite testbit_unot, Z.testbit_0_l by lia.
    destruct (Z.ltb_spec i w); [by rewrite H|]. by rewrite (testbit_small x w) by lia.
Qed.

(** A word masked with a single bit is zero iff that bit is clear. *)
Lemma land_pow2_zero x i : 0 ≤ i → (Z.land x (1 ≪ i) =? 0) = negb (Z.testbit x i).
Proof.
  intros Hi. rewrite Z.shiftl_1_l. destruct (Z.testbit x i) eqn:E; simpl.
  - apply Z.eqb_neq. intros H. apply (f_equal (λ z, Z.testbit z i)) in H.
    rewrite Z.land_spec, testbit_pow2, Z.eqb_refl, E, Z.testbit_0_l in H by lia. done.
  - apply Z.eqb_eq. apply Z.bits_inj'; intros j Hj.
    rewrite Z.land_spec, testbit_pow2, Z.testbit_0_l by lia.
    destruct (Z.eqb_spec i j) as [->|]; [by rewrite E|by rewrite andb_false_r].
Qed.

Lemma testbit_set x i j : 0 ≤ i → 0 ≤ j →
  Z.testbit (Z.lor x (1 ≪ i)) j = Z.testbit x j || (i =? j).
Proof. intros. rewrite Z.shiftl_1_l. by rewrite Z.lor_spec, testbit_pow2 by lia. Qed.

Lemma testbit_clear w x i j : 0 ≤ i → 0 ≤ j → 0 ≤ w → 0 ≤ x < 2 ^ w →
  Z.testbit (Z.land x (unot w (1 ≪ i))) j = Z.testbit x j && negb (i =? j).
Proof.
  intros. rewrite Z.land_spec, testbit_unot, Z.shiftl_1_l, testbit_pow2 by lia.
  destruct (Z.ltb_spec j w); [by rewrite xorb_true_r|].
  by rewrite (testbit_small x w j) by lia.
Qed.

Lemma pow2_lt w i : 0 ≤ i < w → 0 ≤ 1 ≪ i < 2 ^ w.
Proof.
  intros Hi. rewrite Z.shiftl_1_l. pose proof (pow2_pos i ltac:(lia)).
  split; [lia|]. apply Z.pow_lt_mono_r; lia.
Qed.
