(* ===== verification/Slice.v ===== *)
(** * Slices (src/cpp-util/slice.h)

    A [Slice] is a pointer and a length; the model is the list of the bytes it
    refers to.  Bytes are [unsigned char] values, which is how [memcmp] and the
    codecs read them.  [assert] failures are [None]. *)

From S2P Require Import Prelude.

Definition byte_ok (b : Z) : Prop := 0 ≤ b < 256.
Definition bytes_ok (l : list Z) : Prop := Forall byte_ok l.

Ltac inv_all_bytes H :=
  unfold bytes_ok in H;
  repeat match type of H with
  | Forall _ (_ :: _) =>
      let Hb := fresh "Hb" in apply Forall_cons in H as [Hb H]; unfold byte_ok in Hb;
      change 256 with (2 ^ 8) in Hb
  end.

(** src/cpp-util/slice.h:83-84, [Slice members]. The bytes of
    [[data_, data_ + size_)]. *)
Definition Slice : Type := list Z.

(** src/cpp-util/slice.h:12, [Slice::Slice()]. *)
Definition Slice_empty : Slice := [].

(** src/cpp-util/slice.h:31, [Slice::size]. *)
Definition size (s : Slice) : Z := Z.of_nat (length s).

(** src/cpp-util/slice.h:34, [Slice::empty]. *)
Definition empty (s : Slice) : bool := size s =? 0.

(** src/cpp-util/slice.h:38-41, [Slice::operator[]]. *)
Definition slice_get (s : Slice) (n : Z) : option Z :=
  if n <? size s then aget s n else None.

(** src/cpp-util/slice.h:44-47, [Slice::clear]. *)
Definition clear (s : Slice) : Slice := [].

(** src/cpp-util/slice.h:50-54, [Slice::remove_prefix]. *)
Definition remove_prefix (s : Slice) (n : Z) : option Slice :=
  if n <=? size s then Some (drop (Z.to_nat n) s) else None.

(** src/cpp-util/slice.h:57, [Slice::ToString]. *)
Definition ToString (s : Slice) : list Z := s.

(** [memcmp] over the first [n] bytes: the sign of the first difference. *)
Fixpoint memcmp (a b : list Z) (n : nat) : Z :=
  match n, a, b with
  | S n', x :: a', y :: b' =>
      if x =? y then memcmp a' b' n' else if x <? y then -1 else 1
  | _, _, _ => 0
  end.

(** src/cpp-util/slice.h:62-64, [Slice::starts_with]. *)
Definition starts_with (s x : Slice) : bool :=
  (size x <=? size s) && (memcmp s x (length x) =? 0).

(** src/cpp-util/slice.h:70-80, [Slice::compare]. *)
Definition compare (s b : Slice) : Z :=
  let min_len := if size s <? size b then length s else length b in
  let r := memcmp s b min_len in
  if r =? 0 then
    if size s <? size b then -1
    else if size b <? size s then 1 else r
  else r.

(** src/cpp-util/slice.h:87-90, [operator==]. *)
Definition slice_eqb (x y : Slice) : bool :=
  (size x =? size y) && (memcmp x y (length x) =? 0).

(** src/cpp-util/slice.h:92, [operator!=]. *)
Definition slice_neqb (x y : Slice) : bool := negb (slice_eqb x y).

Lemma memcmp_self a n : memcmp a a n = 0.
Proof. revert n; induction a as [|x a IH]; intros [|n]; simpl; auto. by rewrite Z.eqb_refl. Qed.

Lemma memcmp_app a r : memcmp (a ++ r) a (length a) = 0.
Proof. induction a as [|x a IH]; [by destruct r|]. simpl. by rewrite Z.eqb_refl. Qed.

Lemma memcmp_zero a b n :
  (n ≤ length a)%nat → (n ≤ length b)%nat → memcmp a b n = 0 → take n a = take n b.
Proof.
  revert b n; induction a as [|x a IH]; intros [|y b] [|n]; simpl; try lia; auto.
  destruct (Z.eqb_spec x y) as [->|]; [|destruct (x <? y); lia].
  intros. f_equal. apply IH; lia.
Qed.

Lemma slice_eqb_eq x y : slice_eqb x y = true ↔ x = y.
Proof.
  unfold slice_eqb, size. rewrite andb_true_iff, !Z.eqb_eq. split.
  - intros [Hl Hm]. apply Nat2Z.inj in Hl. apply memcmp_zero in Hm; [|lia..].
    rewrite firstn_all in Hm. rewrite Hm, Hl. by rewrite firstn_all.
  - intros ->. by rewrite memcmp_self.
Qed.

Lemma slice_neqb_neq x y : slice_neqb x y = true ↔ x ≠ y.
Proof. unfold slice_neqb. rewrite negb_true_iff, <-not_true_iff_false. by rewrite slice_eqb_eq. Qed.

Lemma starts_with_app s x : starts_with s x = true ↔ ∃ r, s = x ++ r.
Proof.
  unfold starts_with, size. rewrite andb_true_iff, Z.leb_le, Z.eqb_eq. split.
  - intros [Hl Hm]. exists (drop (length x) s). apply memcmp_zero in Hm; [|lia..].
    rewrite firstn_all in Hm. rewrite <-Hm at 1. by rewrite take_drop.
  - intros [r ->]. rewrite length_app. split; [lia|]. apply memcmp_app.
Qed.

Lemma memcmp_antisym a b n : memcmp b a n = - memcmp a b n.
Proof.
  revert b n; induction a as [|x a IH]; intros [|y b] [|n]; simpl; auto.
  rewrite (Z.eqb_sym y x). destruct (Z.eqb_spec x y); [auto|].
  destruct (Z.ltb_spec x y), (Z.ltb_spec y x); lia.
Qed.

(** Byte-wise lexicographic order on the contents. *)
Inductive bytes_lt : list Z → list Z → Prop :=
  | blt_nil y b : bytes_lt [] (y :: b)
  | blt_head x y a b : x < y → bytes_lt (x :: a) (y :: b)
  | blt_tail x a b : bytes_lt a b → bytes_lt (x :: a) (x :: b).
#[export] Hint Constructors bytes_lt : util.

Lemma compare_cons x a b : compare (x :: a) (x :: b) = compare a b.
Proof.
  unfold compare, size; simpl length. rewrite !Nat2Z.inj_succ.
  assert ((Z.succ (Z.of_nat (length a)) <? Z.succ (Z.of_nat (length b))) =
          (Z.of_nat (length a) <? Z.of_nat (length b))) as -> by
    (destruct (Z.ltb_spec (Z.of_nat (length a)) (Z.of_nat (length b))),
       (Z.ltb_spec (Z.succ (Z.of_nat (length a))) (Z.succ (Z.of_nat (length b)))); lia).
  assert ((Z.succ (Z.of_nat (length b)) <? Z.succ (Z.of_nat (length a))) =
          (Z.of_nat (length b) <? Z.of_nat (length a))) as -> by
    (destruct (Z.ltb_spec (Z.of_nat (length b)) (Z.of_nat (length a))),
       (Z.ltb_spec (Z.succ (Z.of_nat (length b))) (Z.succ (Z.of_nat (length a)))); lia).
  assert (memcmp (x :: a) (x :: b)
      (if Z.of_nat (length a) <? Z.of_nat (length b) then S (length a) else S (length b)) =
    memcmp a b
      (if Z.of_nat (length a) <? Z.of_nat (length b) then length a else length b)) as ->; [|done].
  destruct (_ <? _); simpl; by rewrite Z.eqb_refl.
Qed.

Lemma compare_head x y a b :
  x ≠ y → compare (x :: a) (y :: b) = if x <? y then -1 else 1.
Proof.
  intros Hne. unfold compare.
  assert (memcmp (x :: a) (y :: b)
    (if size (x :: a) <? size (y :: b) then length (x :: a) else length (y :: b)) =
    if x <? y then -1 else 1) as ->.
  { destruct (_ <? _); simpl; rewrite (proj2 (Z.eqb_neq x y)) by done; done. }
  by destruct (x <? y).
Qed.

(** [Slice::compare] decides the lexicographic order of the contents: negative
    iff smaller, zero iff equal, positive iff greater. *)
Lemma compare_spec s b :
  (compare s b < 0 ↔ bytes_lt s b) ∧ (compare s b = 0 ↔ s = b) ∧
  (compare s b > 0 ↔ bytes_lt b s).
Proof.
  revert b; induction s as [|x s IH]; intros [|y b].
  - split_and!; split; try done; inversion 1.
  - assert (compare [] (y :: b) = -1) as ->.
    { reflexivity. }
    split_and!; split; auto with util; try lia; try done; inversion 1.
  - assert (compare (x :: s) [] = 1) as ->.
    { reflexivity. }
    split_and!; split; auto with util; try lia; try done; inversion 1.
  - destruct (decide (x = y)) as [->|Hne].
    + rewrite compare_cons. destruct (IH b) as (H1 & H2 & H3). rewrite H1, H2, H3.
      split_and!; split; intros Hx; auto with util; try (by simplify_eq);
        inversion Hx; subst; auto; lia.
    + rewrite compare_head by done.
      destruct (Z.ltb_spec x y); split_and!; split; intros Hx; auto with util;
        try lia; try (by simplify_eq); try (inversion Hx; subst; lia).
      apply blt_head. lia.
Qed.
