(* ===== verification/Coding.v ===== *)
(** * Fixed-width and variable-length integer codecs (src/cpp-util/coding.h)

    Encoders write into a buffer and return the address past the last byte; the
    model returns the list of the bytes written.  Decoders take a pointer and a
    limit; the model takes the bytes of [[p, limit)] and returns the value with
    the bytes that follow it, [None] standing for the null pointer.  A [Slice]
    parameter that is updated in place is returned. *)

From S2P Require Import Prelude Slice.

(** ** Fixed-length numbers *)

(** src/cpp-util/coding.h:50-58, [EncodeFixed32]. *)
Definition EncodeFixed32 (value : Z) : list Z :=
  [u8 value; u8 (value ≫ 8); u8 (value ≫ 16); u8 (value ≫ 24)].

(** src/cpp-util/coding.h:60-72, [EncodeFixed64]. *)
Definition EncodeFixed64 (value : Z) : list Z :=
  [u8 value; u8 (value ≫ 8); u8 (value ≫ 16); u8 (value ≫ 24);
   u8 (value ≫ 32); u8 (value ≫ 40); u8 (value ≫ 48); u8 (value ≫ 56)].

(** src/cpp-util/coding.h:76-84, [DecodeFixed32]. No bounds check in the code:
    fewer than four readable bytes is undefined. *)
Definition DecodeFixed32 (ptr : list Z) : option Z :=
  match ptr with
  | b0 :: b1 :: b2 :: b3 :: _ =>
      Some (Z.lor (Z.lor (Z.lor b0 (ushl 32 b1 8)) (ushl 32 b2 16)) (ushl 32 b3 24))
  | _ => None
  end.

(** src/cpp-util/coding.h:86-98, [DecodeFixed64]. *)
Definition DecodeFixed64 (ptr : list Z) : option Z :=
  match ptr with
  | b0 :: b1 :: b2 :: b3 :: b4 :: b5 :: b6 :: b7 :: _ =>
      Some (Z.lor (Z.lor (Z.lor (Z.lor (Z.lor (Z.lor (Z.lor b0
        (ushl 64 b1 8)) (ushl 64 b2 16)) (ushl 64 b3 24)) (ushl 64 b4 32))
        (ushl 64 b5 40)) (ushl 64 b6 48)) (ushl 64 b7 56))
  | _ => None
  end.

(** src/cpp-util/coding.h:115-119, [PutFixed32]. *)
Definition PutFixed32 (dst : list Z) (value : Z) : list Z := dst ++ EncodeFixed32 value.

(** src/cpp-util/coding.h:121-125, [PutFixed64]. *)
Definition PutFixed64 (dst : list Z) (value : Z) : list Z := dst ++ EncodeFixed64 value.

(** ** Varints: encoding *)

(** src/cpp-util/coding.h:130, [B]. *)
Definition B : Z := 128.

(** src/cpp-util/coding.h:127-153, [EncodeVarint32]. *)
Definition EncodeVarint32 (v : Z) : list Z :=
  if v <? 1 ≪ 7 then [u8 v]
  else if v <? 1 ≪ 14 then [u8 (Z.lor v B); u8 (v ≫ 7)]
  else if v <? 1 ≪ 21 then
    [u8 (Z.lor v B); u8 (Z.lor (v ≫ 7) B); u8 (v ≫ 14)]
  else if v <? 1 ≪ 28 then
    [u8 (Z.lor v B); u8 (Z.lor (v ≫ 7) B); u8 (Z.lor (v ≫ 14) B); u8 (v ≫ 21)]
  else
    [u8 (Z.lor v B); u8 (Z.lor (v ≫ 7) B); u8 (Z.lor (v ≫ 14) B);
     u8 (Z.lor (v ≫ 21) B); u8 (v ≫ 28)].

(** src/cpp-util/coding.h:155-159, [PutVarint32]. *)
Definition PutVarint32 (dst : list Z) (v : Z) : list Z := dst ++ EncodeVarint32 v.

(** src/cpp-util/coding.h:161-170, [EncodeVarint64]. [space] bytes are available
    at [dst]; writing more is an overflow of the caller's buffer. *)
Fixpoint EncodeVarint64 (space : nat) (v : Z) : option (list Z) :=
  match space with
  | O => None
  | S space' =>
      if B <=? v then
        rest ← EncodeVarint64 space' (v ≫ 7);
        Some (u8 (Z.lor v B) :: rest)
      else Some [u8 v]
  end.

(** src/cpp-util/coding.h:172-176, [PutVarint64]. The buffer holds ten bytes. *)
Definition PutVarint64 (dst : list Z) (v : Z) : option (list Z) :=
  buf ← EncodeVarint64 10 v; Some (dst ++ buf).

(** src/cpp-util/coding.h:178-181, [PutLengthPrefixedSlice]. The [size_t] length
    is converted to [uint32_t]. *)
Definition PutLengthPrefixedSlice (dst : list Z) (value : Slice) : list Z :=
  PutVarint32 dst (u32 (size value)) ++ value.

(** src/cpp-util/coding.h:183-190, [VarintLength]. [fuel] bounds the loop. *)
Fixpoint VarintLength_loop (fuel : nat) (v len : Z) : option Z :=
  match fuel with
  | O => None
  | S fuel' =>
      if 128 <=? v then VarintLength_loop fuel' (v ≫ 7) (len + 1) else Some len
  end.
Definition VarintLength (v : Z) : option Z := VarintLength_loop 64 v 1.

(** ** Varints: decoding *)

(** src/cpp-util/coding.h:192-208, [GetVarint32PtrFallback]. *)
Fixpoint GetVarint32PtrFallback (p : list Z) (shift result : Z) : option (Z * list Z) :=
  if shift <=? 28 then
    match p with
    | [] => None
    | byte :: p' =>
        if negb (Z.land byte 128 =? 0) then
          GetVarint32PtrFallback p' (shift + 7)
            (Z.lor result (ushl 32 (Z.land byte 127) shift))
        else Some (Z.lor result (ushl 32 byte shift), p')
    end
  else None.

(** src/cpp-util/coding.h:103-113, [GetVarint32Ptr]. *)
Definition GetVarint32Ptr (p : list Z) : option (Z * list Z) :=
  match p with
  | result :: p' =>
      if Z.land result 128 =? 0 then Some (result, p')
      else GetVarint32PtrFallback p 0 0
  | [] => GetVarint32PtrFallback p 0 0
  end.

(** src/cpp-util/coding.h:210-220, [GetVarint32]. Result: success, value, input. *)
Definition GetVarint32 (input : Slice) : option Z * Slice :=
  match GetVarint32Ptr input with
  | None => (None, input)
  | Some (value, q) => (Some value, q)
  end.

(** src/cpp-util/coding.h:222-237, [GetVarint64Ptr]. *)
Fixpoint GetVarint64Ptr (p : list Z) (shift result : Z) : option (Z * list Z) :=
  if shift <=? 63 then
    match p with
    | [] => None
    | byte :: p' =>
        if negb (Z.land byte 128 =? 0) then
          GetVarint64Ptr p' (shift + 7)
            (Z.lor result (ushl 64 (Z.land byte 127) shift))
        else Some (Z.lor result (ushl 64 byte shift), p')
    end
  else None.

(** src/cpp-util/coding.h:239-249, [GetVarint64]. *)
Definition GetVarint64 (input : Slice) : option Z * Slice :=
  match GetVarint64Ptr input 0 0 with
  | None => (None, input)
  | Some (value, q) => (Some value, q)
  end.

(** src/cpp-util/coding.h:251-260, [GetLengthPrefixedSlice]. The input stays
    advanced past the length when the payload is too short. *)
Definition GetLengthPrefixedSlice (input : Slice) : option Slice * Slice :=
  match GetVarint32 input with
  | (Some len, input') =>
      if len <=? size input' then
        (Some (take (Z.to_nat len) input'), drop (Z.to_nat len) input')
      else (None, input')
  | (None, input') => (None, input')
  end.

(** ** Fixed codecs *)

Lemma decode_encode32 v rest :
  0 ≤ v < 2 ^ 32 → DecodeFixed32 (EncodeFixed32 v ++ rest) = Some v.
Proof. intros Hv. simpl. f_equal. unfold ushl. bits. Qed.

Lemma decode_encode64 v rest :
  0 ≤ v < 2 ^ 64 → DecodeFixed64 (EncodeFixed64 v ++ rest) = Some v.
Proof. intros Hv. simpl. f_equal. unfold ushl. bits. Qed.

Lemma encode_decode32 b0 b1 b2 b3 v :
  bytes_ok [b0; b1; b2; b3] → DecodeFixed32 [b0; b1; b2; b3] = Some v →
  EncodeFixed32 v = [b0; b1; b2; b3].
Proof.
  intros Hb [= <-]. unfold EncodeFixed32, ushl. inv_all_bytes Hb.
  repeat f_equal; bits.
Qed.

(** ** Varints: the two decoders share one loop *)

Fixpoint varint_loop (w maxs : Z) (p : list Z) (shift result : Z) : option (Z * list Z) :=
  if shift <=? maxs then
    match p with
    | [] => None
    | byte :: p' =>
        if negb (Z.land byte 128 =? 0) then
          varint_loop w maxs p' (shift + 7)
            (Z.lor result (ushl w (Z.land byte 127) shift))
        else Some (Z.lor result (ushl w byte shift), p')
    end
  else None.

Lemma GetVarint32PtrFallback_loop p s r :
  GetVarint32PtrFallback p s r = varint_loop 32 28 p s r.
Proof.
  revert s r. induction p as [|b p IH]; intros s r; simpl; [done|].
  destruct (s <=? 28); [|done]. destruct (negb _); [apply IH|done].
Qed.

Lemma GetVarint64Ptr_loop p s r : GetVarint64Ptr p s r = varint_loop 64 63 p s r.
Proof.
  revert s r. induction p as [|b p IH]; intros s r; simpl; [done|].
  destruct (s <=? 63); [|done]. destruct (negb _); [apply IH|done].
Qed.

(** The fast path of [GetVarint32Ptr] is the first turn of the loop. *)
Lemma GetVarint32Ptr_loop p :
  bytes_ok (take 1 p) → GetVarint32Ptr p = varint_loop 32 28 p 0 0.
Proof.
  intros Hp. unfold GetVarint32Ptr. destruct p as [|b p]; [done|]. simpl in Hp.
  rewrite GetVarint32PtrFallback_loop. simpl.
  destruct (Z.land b 128 =? 0) eqn:E; [|done]. simpl.
  apply Forall_cons in Hp as [Hb _]. unfold byte_ok in Hb.
  unfold ushl. rewrite Z.shiftl_0_r, uwrap_small by lia. done.
Qed.

Lemma cont_byte v : 0 ≤ v →
  negb (Z.land (u8 (Z.lor v B)) 128 =? 0) = true ∧
  Z.land (u8 (Z.lor v B)) 127 = Z.land v 127.
Proof.
  intros Hv. change 127 with (Z.ones 7). change 128 with (2 ^ 7).
  unfold B. change 128 with (2 ^ 7). split.
  - apply negb_true_iff, Z.eqb_neq. intros H.
    apply (f_equal (λ z, Z.testbit z 7)) in H. revert H. bits_solve.
  - bits.
Qed.

Lemma last_byte v : 0 ≤ v < 128 →
  negb (Z.land (u8 v) 128 =? 0) = false ∧ u8 v = v.
Proof.
  intros Hv. rewrite uwrap_small by lia. split; [|done].
  apply negb_false_iff, Z.eqb_eq. change 128 with (2 ^ 7) in *. bits.
Qed.

Lemma varint_loop_encode w maxs n v buf shift result rest :
  0 ≤ w → EncodeVarint64 n v = Some buf → 0 ≤ v → 0 ≤ shift → v * 2 ^ shift < 2 ^ w →
  shift + 7 * (Z.of_nat (length buf) - 1) ≤ maxs →
  varint_loop w maxs (buf ++ rest) shift result = Some (Z.lor result (v ≪ shift), rest).
Proof.
  intros Hw. revert v buf shift result.
  induction n as [|n IH]; intros v buf shift result He Hv Hs Hw' Hm; [done|].
  simpl in He. destruct (Z.leb_spec B v) as [Hb|Hb]; unfold B in Hb.
  - destruct (EncodeVarint64 n (v ≫ 7)) as [buf'|] eqn:E; [|done].
    simplify_eq/=. destruct (cont_byte v Hv) as [H1 H2].
    rewrite (proj2 (Z.leb_le _ _)) by lia. rewrite H1, H2.
    assert (Hv7 : v ≫ 7 = v / 128) by (by rewrite Z.shiftr_div_pow2 by lia).
    pose proof (pow2_pos shift Hs).
    rewrite (IH (v ≫ 7) buf'); [|done| | |rewrite Hv7, Z.pow_add_r by lia|lia].
    + f_equal. f_equal. change 127 with (Z.ones 7). rewrite <-Z.lor_assoc. f_equal.
      assert (0 ≤ v ≪ shift < 2 ^ w) as Hvs.
      { rewrite Z.shiftl_mul_pow2 by lia. lia. }
      apply Z.bits_inj'; intros i Hi. unfold ushl.
      destruct (Z.ltb_spec i w); [bits_solve|].
      rewrite (testbit_small (v ≪ shift) w i) by lia.
      rewrite Z.lor_spec, testbit_uwrap by lia. rewrite (proj2 (Z.ltb_ge _ _)) by lia.
      simpl andb. simpl orb. rewrite Z.shiftl_spec by lia.
      destruct (decide (i < shift + 7)); [by rewrite Z.testbit_neg_r by lia|].
      rewrite Z.shiftr_spec by lia. replace (i - (shift + 7) + 7) with (i - shift) by lia.
      rewrite <-Z.shiftl_spec by lia. by apply (testbit_small _ w).
    + rewrite Hv7. apply Z.div_pos; lia.
    + lia.
    + assert (128 * (v / 128) ≤ v) by (apply Z.mul_div_le; lia). nia.
  - simplify_eq/=. destruct (last_byte v) as [H1 H2]; [lia|].
    rewrite (proj2 (Z.leb_le _ _)) by lia. rewrite H1, H2. unfold ushl.
    rewrite uwrap_small; [done|]. rewrite Z.shiftl_mul_pow2 by lia.
    pose proof (pow2_pos shift Hs). nia.
Qed.

Lemma EncodeVarint64_total n v :
  0 ≤ v < 2 ^ (7 * Z.of_nat n) → (0 < n)%nat →
  ∃ buf, EncodeVarint64 n v = Some buf ∧ (0 < length buf ≤ n)%nat ∧ bytes_ok buf.
Proof.
  revert v. induction n as [|n IH]; intros v Hv Hn; [lia|].
  simpl. destruct (Z.leb_spec B v) as [Hb|Hb]; unfold B in Hb.
  - assert (Hn' : (0 < n)%nat) by (destruct n; [simpl in Hv; lia|lia]).
    assert (Hv7 : v ≫ 7 = v / 128) by (by rewrite Z.shiftr_div_pow2 by lia).
    destruct (IH (v ≫ 7)) as (buf & -> & Hl & Hok); [|done|].
    { rewrite Hv7. split; [apply Z.div_pos; lia|]. apply Z.div_lt_upper_bound; [lia|].
      replace (7 * Z.of_nat (S n)) with (7 + 7 * Z.of_nat n) in Hv by lia.
      rewrite Z.pow_add_r in Hv by lia. lia. }
    eexists. split; [done|]. simpl. split; [lia|]. constructor; [|done].
    by apply (uwrap_range 8).
  - eexists. split; [done|]. simpl. split; [lia|]. repeat constructor;
    apply (uwrap_range 8); lia.
Qed.

Lemma VarintLength_loop_encode n v buf fuel len :
  EncodeVarint64 n v = Some buf → (length buf ≤ fuel)%nat →
  VarintLength_loop fuel v len = Some (len + Z.of_nat (length buf) - 1).
Proof.
  revert v buf fuel len. induction n as [|n IH]; intros v buf fuel len He Hf; [done|].
  simpl in He. unfold B in He. destruct (Z.leb_spec 128 v) as [Hb|Hb].
  - destruct (EncodeVarint64 n (v ≫ 7)) as [buf'|] eqn:E; [|done]. simplify_eq/=.
    destruct fuel as [|fuel]; [simpl in Hf; lia|]. simpl in Hf |- *.
    rewrite (proj2 (Z.leb_le _ _)) by lia.
    rewrite (IH _ buf') by (done || lia). f_equal. lia.
  - simplify_eq/=. destruct fuel as [|fuel]; [simpl in Hf; lia|]. simpl.
    rewrite (proj2 (Z.leb_gt _ _)) by lia. f_equal. lia.
Qed.

Lemma EncodeVarint64_step n v :
  EncodeVarint64 (S n) v =
    if B <=? v then rest ← EncodeVarint64 n (v ≫ 7); Some (u8 (Z.lor v B) :: rest)
    else Some [u8 v].
Proof. done. Qed.

(** The unrolled 32-bit encoder computes what the loop computes. *)
Lemma EncodeVarint32_loop v :
  0 ≤ v < 2 ^ 32 → EncodeVarint64 5 v = Some (EncodeVarint32 v).
Proof.
  intros Hv. unfold EncodeVarint32.
  assert (Hge : ∀ k, 0 ≤ k → (128 <=? v ≫ k) = (2 ^ (k + 7) <=? v)).
  { intros k Hk. rewrite Z.shiftr_div_pow2, Z.pow_add_r by lia.
    pose proof (pow2_pos k Hk). pose proof (Z.div_mod v (2 ^ k) ltac:(lia)).
    pose proof (Z.mod_pos_bound v (2 ^ k) ltac:(lia)). bool_cases; nia. }
  assert (Hss : ∀ a b, 0 ≤ b → (v ≫ a) ≫ b = v ≫ (a + b)).
  { intros. by apply Z.shiftr_shiftr. }
  repeat (rewrite EncodeVarint64_step; rewrite ?Hss by lia). unfold B.
  change (7 + 7 + 7 + 7) with 28. change (7 + 7 + 7) with 21. change (7 + 7) with 14.
  rewrite !Hge by lia. change (1 ≪ 7) with (2 ^ 7). change (1 ≪ 14) with (2 ^ 14).
  change (1 ≪ 21) with (2 ^ 21). change (1 ≪ 28) with (2 ^ 28).
  bool_cases; done.
Qed.

Lemma EncodeVarint32_ok v :
  0 ≤ v < 2 ^ 32 → (0 < length (EncodeVarint32 v) ≤ 5)%nat ∧ bytes_ok (EncodeVarint32 v).
Proof.
  intros Hv. destruct (EncodeVarint64_total 5 v) as (buf & He & Hl & Hok); [simpl; lia|lia|].
  rewrite EncodeVarint32_loop in He by done. by simplify_eq.
Qed.

Lemma GetVarint32_encode v rest :
  0 ≤ v < 2 ^ 32 → GetVarint32 (EncodeVarint32 v ++ rest) = (Some v, rest).
Proof.
  intros Hv. destruct (EncodeVarint32_ok v Hv) as [Hl Hok].
  unfold GetVarint32. rewrite GetVarint32Ptr_loop.
  - rewrite (varint_loop_encode 32 28 5 v (EncodeVarint32 v)); rewrite ?EncodeVarint32_loop;
      try (done || lia).
  - destruct (EncodeVarint32 v) as [|b l]; [simpl in Hl; lia|]. simpl.
    apply Forall_cons in Hok as [Hb _]. by constructor.
Qed.

(** ** Main results *)

(** The fixed-width codecs are inverse to each other: what
    [PutFixed32] or [PutFixed64] appends to a string is read back by the decoder
    at that offset, whatever follows, and any four bytes are re-encoded to
    themselves (little-endian layout, no information lost in the shifts). *)
Theorem fixed_roundtrip dst rest :
  (∀ v, 0 ≤ v < 2 ^ 32 →
     DecodeFixed32 (drop (length dst) (PutFixed32 dst v ++ rest)) = Some v) ∧
  (∀ v, 0 ≤ v < 2 ^ 64 →
     DecodeFixed64 (drop (length dst) (PutFixed64 dst v ++ rest)) = Some v) ∧
  (∀ b0 b1 b2 b3 v, bytes_ok [b0; b1; b2; b3] →
     DecodeFixed32 [b0; b1; b2; b3] = Some v → EncodeFixed32 v = [b0; b1; b2; b3]).
Proof.
  unfold PutFixed32, PutFixed64. split_and!.
  - intros v Hv. rewrite <-app_assoc, drop_app_length. by apply decode_encode32.
  - intros v Hv. rewrite <-app_assoc, drop_app_length. by apply decode_encode64.
  - intros ?????. apply encode_decode32.
Qed.

(** C35 [roundtrip]. For every 64-bit value, [PutVarint64] stays within its
    ten-byte buffer, writes exactly [VarintLength] bytes, and [GetVarint64]
    recovers the value and leaves the input right after it. *)
Theorem varint64_roundtrip dst v rest :
  0 ≤ v < 2 ^ 64 →
  ∃ buf, PutVarint64 dst v = Some (dst ++ buf) ∧ (1 ≤ length buf ≤ 10)%nat ∧
    VarintLength v = Some (Z.of_nat (length buf)) ∧
    GetVarint64 (buf ++ rest) = (Some v, rest).
Proof.
  intros Hv. destruct (EncodeVarint64_total 10 v) as (buf & He & Hl & _); [simpl; lia|lia|].
  exists buf. unfold PutVarint64, VarintLength, GetVarint64.
  rewrite He. split_and!; [done|lia..| |].
  - rewrite (VarintLength_loop_encode 10 v buf) by (done || lia). f_equal. lia.
  - rewrite GetVarint64Ptr_loop, (varint_loop_encode 64 63 10 v buf); try (done || lia).
Qed.

(** On 32-bit values the unrolled [EncodeVarint32] writes the
    same bytes as the loop of [EncodeVarint64], fits its five-byte buffer, and
    [GetVarint32] (fast path and fallback) inverts it. *)
Theorem varint32_matches_varint64 v rest :
  0 ≤ v < 2 ^ 32 →
  EncodeVarint64 5 v = Some (EncodeVarint32 v) ∧
  (1 ≤ length (EncodeVarint32 v) ≤ 5)%nat ∧
  GetVarint32 (EncodeVarint32 v ++ rest) = (Some v, rest) ∧
  GetVarint64 (EncodeVarint32 v ++ rest) = (Some v, rest).
Proof.
  intros Hv. pose proof (EncodeVarint32_ok v Hv) as [Hl _].
  split_and!; [by apply EncodeVarint32_loop|lia|lia|by apply GetVarint32_encode|].
  unfold GetVarint64.
  rewrite GetVarint64Ptr_loop, (varint_loop_encode 64 63 5 v (EncodeVarint32 v));
    rewrite ?EncodeVarint32_loop; try (done || lia).
Qed.

(** A slice shorter than 4 GiB written by
    [PutLengthPrefixedSlice] is returned unchanged by [GetLengthPrefixedSlice],
    and the input is left right after it; several slices can be read back in a
    row. *)
Theorem length_prefixed_roundtrip dst s rest :
  size s < 2 ^ 32 →
  GetLengthPrefixedSlice (drop (length dst) (PutLengthPrefixedSlice dst s ++ rest)) =
    (Some s, rest).
Proof.
  intros Hs. unfold PutLengthPrefixedSlice, PutVarint32.
  rewrite <-!app_assoc, drop_app_length. unfold GetLengthPrefixedSlice, size in *.
  rewrite uwrap_small by lia. rewrite GetVarint32_encode by lia. unfold size.
  rewrite length_app, (proj2 (Z.leb_le _ _)) by lia.
  by rewrite Nat2Z.id, take_app_length, drop_app_length.
Qed.

(** Decoding looks at five bytes at most. *)
Lemma varint_loop_fail w maxs p shift result :
  0 ≤ shift → varint_loop w maxs p shift result = None →
  ∀ k b, (Z.of_nat k * 7 + shift ≤ maxs) → p !! k = Some b → Z.land b 128 ≠ 0.
Proof.
  revert shift result. induction p as [|c p IH]; intros shift result Hs He k b Hk Hb;
    [done|]. simpl in He. rewrite (proj2 (Z.leb_le _ _)) in He by lia.
  destruct (Z.eqb_spec (Z.land c 128) 0) as [Hc|Hc]; simpl in He; [done|].
  destruct k as [|k]; simpl in Hb; [by simplify_eq|].
  eapply IH; [|exact He| |exact Hb]; lia.
Qed.

Lemma varint_loop_consumes w maxs p shift result v q :
  0 ≤ w → 0 ≤ shift → bytes_ok p → 0 ≤ result < 2 ^ w →
  varint_loop w maxs p shift result = Some (v, q) →
  ∃ used, p = used ++ q ∧ (1 ≤ length used)%nat ∧
    7 * (Z.of_nat (length used) - 1) + shift ≤ maxs ∧ 0 ≤ v < 2 ^ w.
Proof.
  intros Hw. revert shift result.
  induction p as [|c p IH]; intros shift result Hs Hok Hr He; simpl in He.
  { by destruct (shift <=? maxs). }
  destruct (Z.leb_spec shift maxs); [|done]. apply Forall_cons in Hok as [Hc Hok].
  destruct (negb _).
  - destruct (IH (shift + 7) (Z.lor result (ushl w (Z.land c 127) shift)))
      as (u & -> & Hu & Hm & Hv); [lia|done| |done|].
    { apply lor_range; [done..|]. by apply uwrap_range. }
    exists (c :: u). simpl. split_and!; try done; lia.
  - simplify_eq. exists [c]. simpl.
    assert (0 ≤ Z.lor result (ushl w c shift) < 2 ^ w).
    { apply lor_range; [done..|]. by apply uwrap_range. }
    split_and!; try done; lia.
Qed.

(** On arbitrary bytes [GetVarint32] is safe: it either fails, leaves
    the input untouched and none of the first five bytes ends a varint, or it
    returns a 32-bit value and drops between one and five bytes. *)
Theorem GetVarint32_safe input :
  bytes_ok input →
  match GetVarint32 input with
  | (None, input') =>
      input' = input ∧
      ∀ k b, (k < 5)%nat → input !! k = Some b → Z.land b 128 ≠ 0
  | (Some v, input') =>
      0 ≤ v < 2 ^ 32 ∧ ∃ used, input = used ++ input' ∧ (1 ≤ length used ≤ 5)%nat
  end.
Proof.
  intros Hok. unfold GetVarint32. rewrite GetVarint32Ptr_loop by by apply Forall_take.
  destruct (varint_loop 32 28 input 0 0) as [[v q]|] eqn:E.
  - apply varint_loop_consumes in E as (u & -> & Hu & Hm & Hv); [|lia|lia|done|lia].
    split; [done|]. exists u. split; [done|lia].
  - split; [done|]. intros k b Hk Hb.
    eapply varint_loop_fail; [|exact E| |exact Hb]; lia.
Qed.

Lemma varint64_roundtrip_witness :
  ∃ buf, PutVarint64 [] 300 = Some ([] ++ buf) ∧ (1 ≤ length buf ≤ 10)%nat ∧
    VarintLength 300 = Some (Z.of_nat (length buf)) ∧
    GetVarint64 (buf ++ [7]) = (Some 300, [7]).
Proof. apply (varint64_roundtrip [] 300 [7]). lia. Defined.

Lemma varint32_matches_varint64_witness :
  EncodeVarint64 5 70000 = Some (EncodeVarint32 70000) ∧
  (1 ≤ length (EncodeVarint32 70000) ≤ 5)%nat ∧
  GetVarint32 (EncodeVarint32 70000 ++ [1; 2]) = (Some 70000, [1; 2]) ∧
  GetVarint64 (EncodeVarint32 70000 ++ [1; 2]) = (Some 70000, [1; 2]).
Proof. apply (varint32_matches_varint64 70000 [1; 2]). lia. Defined.

Lemma length_prefixed_roundtrip_witness :
  GetLengthPrefixedSlice (drop 1 (PutLengthPrefixedSlice [9] [1; 2; 3] ++ [4])) =
    (Some [1; 2; 3], [4]).
Proof. apply (length_prefixed_roundtrip [9] [1; 2; 3] [4]). reflexivity. Defined.

Lemma GetVarint32_safe_witness :
  bytes_ok [172; 2; 5] ∧ 0 ≤ 300 < 2 ^ 32 ∧
  ∃ used, [172; 2; 5] = used ++ [5] ∧ (1 ≤ length used ≤ 5)%nat.
Proof.
  assert (H : bytes_ok [172; 2; 5]) by (repeat constructor; lia).
  split; [exact H|]. exact (GetVarint32_safe [172; 2; 5] H).
Defined.

Lemma fixed_roundtrip_witness :
  DecodeFixed32 (drop 1 (PutFixed32 [9] 70000 ++ [1])) = Some 70000 ∧
  DecodeFixed64 (drop 1 (PutFixed64 [9] 70000 ++ [1])) = Some 70000 ∧
  EncodeFixed32 67305985 = [1; 2; 3; 4].
Proof.
  destruct (fixed_roundtrip [9] [1]) as (H1 & H2 & H3).
  split; [apply H1; lia|split; [apply H2; lia|]].
  apply H3; [repeat constructor; lia|reflexivity].
Defined.
