(* ===== verification/Words.v ===== *)
(** * Arrays of 64-bit words read as bit vectors

    Shared by the bitmap components: position [i] is bit [i mod 64] of word
    [i / 64]. *)

From S2P Require Import Prelude.

(** Bit [i] of the word array, for any position inside the array. *)
Definition word_bit (data : list Z) (i : Z) : option bool :=
  w ← aget data (i / 64); Some (Z.testbit w (i mod 64)).

(** Writing one word changes exactly the bits of that word. *)
Lemma word_bit_aset data n w data' i :
  aset data n w = Some data' →
  word_bit data' i =
    if decide (n = i / 64) then Some (Z.testbit w (i mod 64)) else word_bit data i.
Proof.
  intros H. unfold word_bit. rewrite (aget_aset _ _ _ _ _ H). by destruct (decide _).
Qed.

Lemma same_word_bit i j : i / 64 = j / 64 → i mod 64 = j mod 64 → i = j.
Proof. intros H1 H2. rewrite (Z.div_mod i 64), (Z.div_mod j 64) by lia. lia. Qed.

Lemma mod64_range i : 0 ≤ i mod 64 < 64.
Proof. apply Z.mod_pos_bound. lia. Qed.

Lemma word_bit_head w ws k : 0 ≤ k < 64 → word_bit (w :: ws) k = Some (Z.testbit w k).
Proof.
  intros Hk. unfold word_bit. rewrite Z.div_small, Z.mod_small by lia. done.
Qed.

Lemma word_bit_tail w ws k : 64 ≤ k → word_bit (w :: ws) k = word_bit ws (k - 64).
Proof.
  intros Hk. unfold word_bit.
  assert (k / 64 = (k - 64) / 64 + 1) as ->.
  { rewrite <-Z.div_add by lia. f_equal. lia. }
  assert (k mod 64 = (k - 64) mod 64) as ->.
  { rewrite <-(Z.mod_add (k - 64) 1) by lia. f_equal. lia. }
  assert (0 ≤ (k - 64) / 64) by (apply Z.div_pos; lia).
  unfold aget. rewrite !(proj2 (Z.leb_le _ _)) by lia.
  by rewrite Z2Nat.inj_add, Nat.add_1_r by lia.
Qed.

(** Positions of the word [q]. *)
Lemma word_positions q i : 64 * q ≤ i < 64 * q + 64 → i / 64 = q ∧ i mod 64 = i - 64 * q.
Proof.
  intros Hi. assert (i / 64 = q) as <-.
  { symmetry. apply (Z.div_unique _ _ _ (i - 64 * q)); lia. }
  pose proof (Z.div_mod i 64 ltac:(lia)). split; [done|lia].
Qed.

Lemma word_of_position i :
  64 * (i / 64) ≤ i < 64 * (i / 64) + 64 ∧ i mod 64 = i - 64 * (i / 64).
Proof. pose proof (Z.div_mod i 64 ltac:(lia)). pose proof (mod64_range i). lia. Qed.

Lemma zero_words n i :
  0 ≤ i < 64 * n → word_bit (replicate (Z.to_nat n) 0) i = Some false.
Proof.
  intros Hi. unfold word_bit, aget.
  assert (i / 64 < n) by (apply Z.div_lt_upper_bound; lia).
  assert (0 ≤ i / 64) by (apply Z.div_pos; lia).
  rewrite (proj2 (Z.leb_le _ _)) by lia. rewrite lookup_replicate_2 by lia.
  simpl. by rewrite Z.testbit_0_l.
Qed.
