(* ===== verification/Bitmap.v ===== *)
(** * The plain bitmap (src/cpp-util/bitmap.h, class [Bitmap])

    The object is a header with a flexible array of 64-bit words.  [NewBitmap]
    marks the bits past [bits_] of the last word as used, so that the scans need
    no special case.  The specification is the set of free positions. *)

From S2P Require Import Prelude Words.

(** src/cpp-util/bitmap.h:66-68, [Bitmap members]. *)
Record Bitmap := mkBitmap { bits_ : Z; n64_ : Z; data_ : list Z }.

(** src/cpp-util/bitmap.h:71-82, [NewBitmap]. [malloc] is taken to succeed; a
    write outside of the allocated words is [None]. *)
Definition NewBitmap (bits : Z) : option Bitmap :=
  let n64 := u32 (bits + 63) / 64 in
  let rest := bits mod 64 in
  let data := replicate (Z.to_nat n64) 0 in
  data' ← (if negb (rest =? 0)
           then aset data (u32 (n64 - 1)) (Z.lxor (Z.ones 64) (u64 (1 ≪ rest) - 1))
           else Some data);
  Some (mkBitmap bits n64 data').

(** src/cpp-util/bitmap.h:19-26, [Bitmap::Full]. *)
Fixpoint Full_loop (data : list Z) : bool :=
  match data with
  | [] => true
  | w :: data' => if negb (unot 64 w =? 0) then false else Full_loop data'
  end.
Definition Full (b : Bitmap) : bool := Full_loop (data_ b).

(** src/cpp-util/bitmap.h:29-38, [Bitmap::FirstFreePos]. *)
Fixpoint FirstFreePos_loop (i : Z) (data : list Z) : Z :=
  match data with
  | [] => -1
  | w :: data' =>
      let ffp := ffsl (unot 64 w) - 1 in
      if negb (ffp =? -1) then s32 (u32 (u32 (i * 64) + ffp))
      else FirstFreePos_loop (u32 (i + 1)) data'
  end.
Definition FirstFreePos (b : Bitmap) : Z := FirstFreePos_loop 0 (data_ b).

(** src/cpp-util/bitmap.h:40-45, [Bitmap::Test]. [None] is the failed [assert]. *)
Definition Test (b : Bitmap) (index : Z) : option bool :=
  if index <? bits_ b then
    w ← aget (data_ b) (index / 64);
    Some (negb (Z.land w (1 ≪ (index mod 64)) =? 0))
  else None.

(** src/cpp-util/bitmap.h:47-52, [Bitmap::Reset]. *)
Definition Reset (b : Bitmap) (index : Z) : option Bitmap :=
  if index <? bits_ b then
    w ← aget (data_ b) (index / 64);
    data' ← aset (data_ b) (index / 64) (Z.land w (unot 64 (1 ≪ (index mod 64))));
    Some (mkBitmap (bits_ b) (n64_ b) data')
  else None.

(** src/cpp-util/bitmap.h:53-62, [Bitmap::Set]. *)
Definition Set_ (b : Bitmap) (index : Z) : option (bool * Bitmap) :=
  if index <? bits_ b then
    w ← aget (data_ b) (index / 64);
    if negb (Z.land w (1 ≪ (index mod 64)) =? 0) then Some (false, b)
    else
      data' ← aset (data_ b) (index / 64) (Z.lor w (1 ≪ (index mod 64)));
      Some (true, mkBitmap (bits_ b) (n64_ b) data')
  else None.

(** ** Specification *)

(** Well-formed bitmaps: the array covers [bits_], the words are 64-bit, and the
    padding of the last word is marked used. *)
Record bitmap_wf (b : Bitmap) : Prop := {
  wf_bits : 0 ≤ bits_ b ≤ 2 ^ 32 - 64;
  wf_n64 : n64_ b = (bits_ b + 63) / 64;
  wf_len : Z.of_nat (length (data_ b)) = n64_ b;
  wf_words : Forall (λ w, 0 ≤ w < 2 ^ 64) (data_ b);
  wf_pad : ∀ i, bits_ b ≤ i < 64 * n64_ b → word_bit (data_ b) i = Some true
}.

(** The set of free positions, as a predicate. *)
Definition free (b : Bitmap) (i : Z) : Prop :=
  0 ≤ i < bits_ b ∧ word_bit (data_ b) i = Some false.

Section bitmap.
Implicit Types (b : Bitmap) (i j w : Z).

Lemma wf_cover b i : bitmap_wf b → 0 ≤ i < bits_ b →
  ∃ w, aget (data_ b) (i / 64) = Some w ∧ 0 ≤ w < 2 ^ 64 ∧
       0 ≤ i / 64 < Z.of_nat (length (data_ b)).
Proof.
  intros Hb Hi. destruct Hb as [H1 H2 H3 H4 _].
  assert (0 ≤ i / 64 < Z.of_nat (length (data_ b))) as Hr.
  { split; [apply Z.div_pos; lia|]. rewrite H3, H2. apply Z.div_lt_upper_bound; [lia|].
    pose proof (Z.div_mod (bits_ b + 63) 64 ltac:(lia)).
    pose proof (Z.mod_pos_bound (bits_ b + 63) 64 ltac:(lia)). lia. }
  destruct (aget_is_Some (data_ b) (i / 64) Hr) as [w Hw]. exists w. split; [done|split; [|done]].
  apply aget_Some in Hw as [_ Hw]. apply (Forall_lookup_1 _ _ _ _ H4 Hw).
Qed.

Lemma word_bit_Some b i : bitmap_wf b → 0 ≤ i < 64 * n64_ b →
  ∃ x, word_bit (data_ b) i = Some x.
Proof.
  intros Hb Hi. unfold word_bit.
  destruct (aget_is_Some (data_ b) (i / 64)) as [w ->]; [|by eexists].
  rewrite (wf_len _ Hb). split; [apply Z.div_pos; lia|apply Z.div_lt_upper_bound; lia].
Qed.

Lemma wf_bits_le b : bitmap_wf b → bits_ b ≤ 64 * n64_ b.
Proof.
  intros Hb. rewrite (wf_n64 _ Hb).
  pose proof (Z.div_mod (bits_ b + 63) 64 ltac:(lia)).
  pose proof (Z.mod_pos_bound (bits_ b + 63) 64 ltac:(lia)). lia.
Qed.

Lemma Test_spec b i : bitmap_wf b → 0 ≤ i < bits_ b → Test b i = word_bit (data_ b) i.
Proof.
  intros Hb Hi. unfold Test, word_bit. rewrite (proj2 (Z.ltb_lt _ _)) by lia.
  destruct (wf_cover b i Hb Hi) as (w & -> & _). simpl.
  rewrite land_pow2_zero by (pose proof (Z.mod_pos_bound i 64 ltac:(lia)); lia).
  by rewrite negb_involutive.
Qed.

(** Replacing one word of a well-formed bitmap by one that keeps the padding. *)
Lemma wf_aset b n w data' :
  bitmap_wf b → aset (data_ b) n w = Some data' → 0 ≤ w < 2 ^ 64 →
  (∀ i, bits_ b ≤ i < 64 * n64_ b → n = i / 64 → Z.testbit w (i mod 64) = true) →
  bitmap_wf (mkBitmap (bits_ b) (n64_ b) data').
Proof.
  intros Hb Ha Hw Hp. pose proof (aset_length _ _ _ _ Ha) as Hl.
  pose proof Hb as [H1 H2 H3 H4 H5]. split; simpl; try done.
  - by rewrite Hl.
  - apply aset_inv in Ha as [_ ->]. by apply Forall_insert.
  - intros i Hi. rewrite (word_bit_aset _ _ _ _ _ Ha). destruct (decide (n = i / 64)).
    + f_equal. by apply Hp.
    + by apply H5.
Qed.

Lemma Set_effect b i : bitmap_wf b → 0 ≤ i < bits_ b →
  ∃ r b', Set_ b i = Some (r, b') ∧ bitmap_wf b' ∧ bits_ b' = bits_ b ∧
    (r = true ↔ free b i) ∧ (∀ j, free b' j ↔ free b j ∧ j ≠ i).
Proof.
  intros Hb Hi. pose proof (mod64_range i) as Hm. unfold Set_.
  rewrite (proj2 (Z.ltb_lt _ _)) by lia.
  destruct (wf_cover b i Hb Hi) as (w & Hw & Hwr & Hr). rewrite Hw. simpl.
  rewrite land_pow2_zero by lia. rewrite negb_involutive.
  assert (Hfree : free b i ↔ Z.testbit w (i mod 64) = false).
  { unfold free, word_bit. rewrite Hw. simpl. split; [naive_solver|].
    intros ->. done. }
  destruct (Z.testbit w (i mod 64)) eqn:Hbit.
  - eexists false, b. split; [done|]. split; [done|]. split; [done|]. split.
    + rewrite Hfree. done.
    + intros j. split; [|tauto]. intros Hj. split; [done|]. intros ->.
      by apply Hfree in Hj.
  - rewrite aset_Some by lia. simpl.
    pose proof (aset_Some (data_ b) (i / 64) (Z.lor w (1 ≪ (i mod 64))) Hr) as Ha.
    eexists true, _. split; [done|]. split; [|split; [done|split; [tauto|]]].
    + apply (wf_aset b _ _ _ Hb Ha).
      * apply lor_range; [lia|done|]. by apply pow2_lt.
      * intros j Hj Hij. pose proof (wf_pad _ Hb j Hj) as Hp. unfold word_bit in Hp.
        rewrite <-Hij, Hw in Hp. simplify_eq/=. pose proof (mod64_range j).
        rewrite testbit_set by lia. by destruct (Z.testbit w (j mod 64)).
    + intros j. unfold free. simpl. rewrite (word_bit_aset _ _ _ _ _ Ha).
      destruct (decide (i / 64 = j / 64)) as [He|Hne].
      * pose proof (mod64_range j). rewrite testbit_set by lia.
        unfold word_bit. rewrite <-He, Hw. simpl.
        destruct (Z.eqb_spec (i mod 64) (j mod 64)) as [He'|Hne'].
        -- rewrite (same_word_bit i j) by done. rewrite orb_true_r. naive_solver.
        -- rewrite orb_false_r. assert (j ≠ i) by (by intros ->). tauto.
      * assert (j ≠ i) by (by intros ->). tauto.
Qed.

Lemma Reset_effect b i : bitmap_wf b → 0 ≤ i < bits_ b →
  ∃ b', Reset b i = Some b' ∧ bitmap_wf b' ∧ bits_ b' = bits_ b ∧
    (∀ j, free b' j ↔ free b j ∨ j = i).
Proof.
  intros Hb Hi. pose proof (mod64_range i) as Hm. unfold Reset.
  rewrite (proj2 (Z.ltb_lt _ _)) by lia.
  destruct (wf_cover b i Hb Hi) as (w & Hw & Hwr & Hr). rewrite Hw. simpl.
  rewrite aset_Some by lia. simpl.
  pose proof (aset_Some (data_ b) (i / 64)
    (Z.land w (unot 64 (1 ≪ (i mod 64)))) Hr) as Ha.
  eexists. split; [done|]. split; [|split; [done|]].
  - apply (wf_aset b _ _ _ Hb Ha); [by apply land_range_l|].
    intros j Hj Hij. pose proof (wf_pad _ Hb j Hj) as Hp. unfold word_bit in Hp.
    rewrite <-Hij, Hw in Hp. simplify_eq/=. pose proof (mod64_range j).
    rewrite testbit_clear by lia. rewrite Hp. simpl.
    apply negb_true_iff, Z.eqb_neq. intros He. apply (same_word_bit i j Hij) in He. lia.
  - intros j. unfold free. simpl. rewrite (word_bit_aset _ _ _ _ _ Ha).
    destruct (decide (i / 64 = j / 64)) as [He|Hne].
    + pose proof (mod64_range j). rewrite testbit_clear by lia.
      unfold word_bit. rewrite <-He, Hw. simpl.
      destruct (Z.eqb_spec (i mod 64) (j mod 64)) as [He'|Hne'].
      * rewrite (same_word_bit i j) by done. rewrite andb_false_r.
        rewrite (same_word_bit i j) in Hi by done. naive_solver.
      * rewrite andb_true_r. assert (j ≠ i) by (by intros ->). tauto.
    + assert (j ≠ i) by (by intros ->). tauto.
Qed.

(** ** The scans *)

Lemma scan_spec i ws :
  Forall (λ w, 0 ≤ w < 2 ^ 64) ws → 0 ≤ i → 64 * (i + Z.of_nat (length ws)) ≤ 2 ^ 31 →
  (FirstFreePos_loop i ws = -1 ∧ Full_loop ws = true ∧
   ∀ k, 0 ≤ k < 64 * Z.of_nat (length ws) → word_bit ws k = Some true) ∨
  (∃ k, FirstFreePos_loop i ws = 64 * i + k ∧ Full_loop ws = false ∧
   0 ≤ k < 64 * Z.of_nat (length ws) ∧ word_bit ws k = Some false ∧
   ∀ m, 0 ≤ m < k → word_bit ws m = Some true).
Proof.
  revert i. induction ws as [|w ws IH]; intros i Hw Hi Hl; simpl in Hl |- *.
  { left. split_and!; [done..|]. intros. lia. }
  apply Forall_cons in Hw as [Hw Hws].
  pose proof (unot_range 64 w ltac:(lia) Hw) as Hn.
  destruct (decide (unot 64 w = 0)) as [Hz|Hz].
  - rewrite Hz. simpl. rewrite unot_zero in Hz by lia.
    rewrite (uwrap_small 32 (i + 1)) by lia.
    destruct (IH (i + 1) Hws) as [(H1 & H2 & H3)|(k & H1 & H2 & H3 & H4 & H5)]; [lia..| |].
    + left. split_and!; [done..|]. intros k Hk. destruct (decide (k < 64)).
      * rewrite word_bit_head by lia. by rewrite Hz by lia.
      * rewrite word_bit_tail by lia. apply H3. lia.
    + right. exists (k + 64). rewrite H1, H2. split; [lia|]. split; [done|].
      split; [lia|]. rewrite word_bit_tail by lia. split; [by rewrite Z.add_simpl_r|].
      intros m Hm. destruct (decide (m < 64)).
      * rewrite word_bit_head by lia. by rewrite Hz by lia.
      * rewrite word_bit_tail by lia. apply H5. lia.
  - right. destruct (ffsl_spec (unot 64 w)) as (H1 & H2 & H3); [lia|].
    pose proof (ffsl_le 64 (unot 64 w) ltac:(lia)).
    rewrite (proj2 (Z.eqb_neq (unot 64 w) 0) Hz). simpl.
    rewrite (proj2 (Z.eqb_neq (ffsl _ - 1) (-1))) by lia. simpl.
    exists (ffsl (unot 64 w) - 1). split; [|split; [done|split; [lia|split]]].
    + rewrite (uwrap_small 32 (i * 64)) by lia.
      rewrite uwrap_small by lia. rewrite swrap_small by lia. lia.
    + rewrite word_bit_head by lia. f_equal. rewrite testbit_unot in H2 by lia.
      rewrite (proj2 (Z.ltb_lt _ _)) in H2 by lia. by destruct (Z.testbit w _).
    + intros m Hm. rewrite word_bit_head by lia. f_equal. specialize (H3 m Hm).
      rewrite testbit_unot in H3 by lia.
      rewrite (proj2 (Z.ltb_lt _ _)) in H3 by lia. by destruct (Z.testbit w _).
Qed.

(** The number of words, with and without a partial last word. *)
Lemma words_for bits :
  0 ≤ bits →
  (bits + 63) / 64 = bits / 64 + (if decide (bits mod 64 = 0) then 0 else 1).
Proof.
  intros Hb. pose proof (mod64_range bits). pose proof (Z.div_mod bits 64 ltac:(lia)).
  symmetry. apply (Z.div_unique _ _ _
    (if decide (bits mod 64 = 0) then 63 else bits mod 64 - 1)).
  - left. destruct (decide _); lia.
  - destruct (decide _); lia.
Qed.

(** The word stored last when [rest] bits of it are in use. *)
Lemma pad_word rest :
  0 ≤ rest < 64 →
  let w := Z.lxor (Z.ones 64) (u64 (1 ≪ rest) - 1) in
  0 ≤ w < 2 ^ 64 ∧ ∀ k, 0 ≤ k < 64 → Z.testbit w k = (rest <=? k).
Proof.
  intros Hr. pose proof (pow2_lt 64 rest Hr). rewrite uwrap_small by done.
  rewrite Z.shiftl_1_l, Z.sub_1_r, <-Z.ones_equiv in *. split.
  - apply lxor_range; [lia|rewrite Z.ones_equiv; lia|].
    rewrite Z.ones_equiv. pose proof (pow2_pos rest ltac:(lia)). lia.
  - intros k Hk. rewrite Z.lxor_spec, !Z.testbit_ones by lia. by bool_cases.
Qed.

Lemma NewBitmap_wf bits :
  0 ≤ bits ≤ 2 ^ 32 - 64 →
  ∃ b, NewBitmap bits = Some b ∧ bitmap_wf b ∧ bits_ b = bits ∧
    (∀ i, free b i ↔ 0 ≤ i < bits).
Proof.
  intros Hbits. unfold NewBitmap. rewrite (uwrap_small 32 (bits + 63)) by lia.
  pose proof (words_for bits ltac:(lia)) as Hn. pose proof (mod64_range bits) as Hm.
  pose proof (Z.div_mod bits 64 ltac:(lia)) as Hdm.
  assert (Hn0 : 0 ≤ bits / 64) by (apply Z.div_pos; lia).
  destruct (Z.eqb_spec (bits mod 64) 0) as [Hr|Hr]; simpl.
  - rewrite decide_True in Hn by done. eexists. split; [done|].
    split; [split; simpl; try done|split; [done|]].
    + rewrite length_replicate. lia.
    + apply Forall_replicate. lia.
    + intros. lia.
    + intros i. unfold free. simpl. split; [tauto|]. intros Hi. split; [done|].
      apply zero_words. lia.
  - rewrite decide_False in Hn by done.
    assert (Hlast : (bits + 63) / 64 - 1 = bits / 64) by lia.
    rewrite Hlast, (uwrap_small 32 (bits / 64)) by lia.
    destruct (pad_word (bits mod 64) Hm) as [Hwr Hwb].
    assert (Hrange : 0 ≤ bits / 64 <
      Z.of_nat (length (replicate (Z.to_nat ((bits + 63) / 64)) 0))).
    { rewrite length_replicate. lia. }
    pose proof (aset_Some _ _ (Z.lxor (Z.ones 64) (u64 (1 ≪ (bits mod 64)) - 1)) Hrange)
      as Ha. rewrite Ha. simpl. eexists. split; [done|].
    split; [split; simpl; try done|split; [done|]].
    + rewrite length_insert, length_replicate. lia.
    + apply Forall_insert; [|done]. apply Forall_replicate. lia.
    + intros i Hi. rewrite (word_bit_aset _ _ _ _ _ Ha).
      destruct (word_positions (bits / 64) i) as [-> ->]; [lia|].
      rewrite decide_True by done. rewrite Hwb by lia. f_equal. apply Z.leb_le. lia.
    + intros i. unfold free. simpl. split; [tauto|]. intros Hi. split; [done|].
      rewrite (word_bit_aset _ _ _ _ _ Ha).
      destruct (decide (bits / 64 = i / 64)) as [He|]; [|apply zero_words; lia].
      destruct (word_of_position i) as [Hp ->]. rewrite <-He in *. rewrite Hwb by lia. f_equal. apply Z.leb_gt. lia.
Qed.

(** The number of words wraps to 0, and the padding goes to word [2^32 - 1] of none. *)
Lemma NewBitmap_wraps bits : 2 ^ 32 - 64 < bits < 2 ^ 32 → NewBitmap bits = None.
Proof.
  intros Hb. unfold NewBitmap.
  assert (u32 (bits + 63) / 64 = 0) as ->.
  { unfold uwrap. replace (bits + 63) with (bits + 63 - 2 ^ 32 + 1 * 2 ^ 32) by lia.
    rewrite Z.mod_add, Z.mod_small by lia. apply Z.div_small. lia. }
  assert (bits mod 64 ≠ 0).
  { pose proof (Z.div_mod bits 64 ltac:(lia)). pose proof (mod64_range bits). lia. }
  by rewrite (proj2 (Z.eqb_neq _ _)).
Qed.
End bitmap.

(** ** Main results *)

(** C14 [refinement]. A bitmap refines the set of its free positions: [NewBitmap] of at most
    [2^32 - 64] bits makes every position below [bits] free and establishes the invariant, and of the
    other [uint32_t] values of [bits] it writes outside of the array, since the number of words wraps
    to 0. [Set] takes one position out and reports whether it was free, [Reset] puts one back, [Test]
    tells whether it is in use; they keep the invariant, never touch another position and never run
    outside of the array. *)
Theorem bitmap_refines_free_set :
  (∀ bits, 0 ≤ bits < 2 ^ 32 →
     if bits <=? 2 ^ 32 - 64 then
       ∃ b, NewBitmap bits = Some b ∧ bitmap_wf b ∧ bits_ b = bits ∧ (∀ i, free b i ↔ 0 ≤ i < bits)
     else NewBitmap bits = None) ∧
  (∀ b i, bitmap_wf b → 0 ≤ i < bits_ b →
     (∃ r b', Set_ b i = Some (r, b') ∧ bitmap_wf b' ∧ bits_ b' = bits_ b ∧
        (r = true ↔ free b i) ∧ (∀ j, free b' j ↔ free b j ∧ j ≠ i)) ∧
     (∃ b', Reset b i = Some b' ∧ bitmap_wf b' ∧ bits_ b' = bits_ b ∧
        (∀ j, free b' j ↔ free b j ∨ j = i)) ∧
     (∃ r, Test b i = Some r ∧ (r = false ↔ free b i))).
Proof.
  split.
  { intros bits Hb. destruct (Z.leb_spec bits (2 ^ 32 - 64)); [apply NewBitmap_wf|apply NewBitmap_wraps]; lia. }
  intros b i Hb Hi.
  split; [by apply Set_effect|split; [by apply Reset_effect|]].
  rewrite Test_spec by done. pose proof (wf_bits_le b Hb).
  destruct (word_bit_Some b i Hb) as [x Hx]; [lia|]. exists x. split; [done|].
  unfold free. rewrite Hx. split; [by intros ->|]. by intros [_ [= ->]].
Qed.

(** Of at most [2^31] bits, [FirstFreePos], whose result is an [int], returns the least free
    position, or -1 when there is none, and [Full] holds exactly in the latter case; the padding
    bits are never returned. *)
Theorem FirstFreePos_least b :
  bitmap_wf b → bits_ b ≤ 2 ^ 31 →
  (FirstFreePos b = -1 ∧ Full b = true ∧ (∀ i, ¬ free b i)) ∨
  (free b (FirstFreePos b) ∧ Full b = false ∧
   (∀ i, free b i → FirstFreePos b ≤ i)).
Proof.
  intros Hb Hbits. pose proof Hb as [H1 H2 H3 H4 H5]. pose proof (wf_bits_le b Hb) as Hle.
  assert (Hmax : 64 * n64_ b ≤ 2 ^ 31).
  { rewrite H2. assert ((bits_ b + 63) / 64 ≤ 2 ^ 25); [|lia].
    apply Z.lt_succ_r. apply Z.div_lt_upper_bound; lia. }
  unfold FirstFreePos, Full.
  destruct (scan_spec 0 (data_ b)) as [(E & F & Hall)|(k & E & F & Hk & Hf & Hlow)];
    [done|lia|lia| |].
  - left. split; [done|split; [done|]]. intros i [Hi Hi'].
    rewrite Hall in Hi' by lia. done.
  - right. rewrite E. rewrite Z.mul_0_r, Z.add_0_l.
    assert (Hkb : k < bits_ b).
    { destruct (Z.ltb_spec k (bits_ b)); [done|]. rewrite H5 in Hf by lia. done. }
    split; [split; [lia|done]|split; [done|]]. intros i [Hi Hi'].
    destruct (Z.leb_spec k i); [done|]. rewrite Hlow in Hi' by lia. done.
Qed.

Lemma bitmap_refines_free_set_witness :
  ∃ b, NewBitmap 70 = Some b ∧ bitmap_wf b ∧ bits_ b = 70 ∧ (∀ i, free b i ↔ 0 ≤ i < 70).
Proof. exact (proj1 bitmap_refines_free_set 70 ltac:(lia)). Defined.

Lemma FirstFreePos_least_witness :
  let b := mkBitmap 2 1 [Z.ones 64 - 2] in
  bitmap_wf b ∧ FirstFreePos b = 1 ∧ free b 1.
Proof.
  assert (Hb : bitmap_wf (mkBitmap 2 1 [Z.ones 64 - 2])).
  { split; [vm_compute; split; discriminate|reflexivity|reflexivity| |].
    - repeat constructor; vm_compute; congruence.
    - intros i Hi. cbv [bits_ n64_ data_] in *. rewrite word_bit_head by lia. f_equal.
      change (Z.ones 64 - 2) with (Z.lxor (Z.ones 64) (2 ^ 1)).
      rewrite Z.lxor_spec, Z.testbit_ones, testbit_pow2 by lia. by bool_cases. }
  split; [exact Hb|].
  destruct (FirstFreePos_least _ Hb ltac:(simpl; lia)) as [(_ & H & _)|(H & _ & _)]; [discriminate H|].
  split; [reflexivity|exact H].
Defined.
