(* ===== verification/LfBitset.v ===== *)
(** * The lock-free bitset (src/cpp-util/bitmap.h, class [lfbitset_base])

    The words are shared between threads.  [set], [reset] and [flip] are single
    atomic read-modify-write instructions; [ffs_and_set] is a loop around a weak
    compare-and-swap, modelled step by step so that threads can interleave
    between its loads and its CAS, and a CAS can fail spuriously.  Accesses
    outside of [bitword] are [None]. *)

From S2P Require Import Prelude Words.

(** src/cpp-util/bitmap.h:91-95, [lfbitset_base members]. *)
Record lfbitset_base := mkLf {
  widx : Z; Nbits : Z; align_N : Z; bitword : list Z }.

Definition with_words (b : lfbitset_base) (ws : list Z) : lfbitset_base :=
  mkLf (widx b) (Nbits b) (align_N b) ws.

(** src/cpp-util/bitmap.h:98-109, [lfbitset_base::lfbitset_base]. *)
Definition lf_new (N : Z) : lfbitset_base :=
  let n := u64 (N + 63) / 64 in mkLf 0 N n (replicate (Z.to_nat n) 0).

(** src/cpp-util/bitmap.h:114, [lfbitset_base::capacity]. *)
Definition capacity (b : lfbitset_base) : Z := Nbits b.

(** src/cpp-util/bitmap.h:115-119, [lfbitset_base::reset()]. *)
Definition reset_all (b : lfbitset_base) : lfbitset_base :=
  with_words b (replicate (Z.to_nat (align_N b)) 0).

(** src/cpp-util/bitmap.h:120-126, [lfbitset_base::none]. *)
Fixpoint none_loop (ws : list Z) : bool :=
  match ws with
  | [] => true
  | w :: ws' => if negb (w =? 0) then false else none_loop ws'
  end.
Definition none (b : lfbitset_base) : bool := none_loop (bitword b).

(** src/cpp-util/bitmap.h:127-133, [lfbitset_base::any]. *)
Fixpoint any_loop (ws : list Z) : bool :=
  match ws with
  | [] => false
  | w :: ws' => if negb (w =? 0) then true else any_loop ws'
  end.
Definition any (b : lfbitset_base) : bool := any_loop (bitword b).

(** src/cpp-util/bitmap.h:134-145, [lfbitset_base::nany]. With no word at all the
    loop bound [align_N - 1] wraps and the first access is out of range. *)
Fixpoint nany_loop (ws : list Z) (tail : Z) : option bool :=
  match ws with
  | [] => None
  | [w] =>
      Some (if tail =? 0 then negb (unot 64 w =? 0) else negb (w =? u64 (1 ≪ tail - 1)))
  | w :: ws' => if negb (unot 64 w =? 0) then Some true else nany_loop ws' tail
  end.
Definition nany (b : lfbitset_base) : option bool := nany_loop (bitword b) (Nbits b mod 64).

(** src/cpp-util/bitmap.h:146-157, [lfbitset_base::all]. *)
Fixpoint all_loop (ws : list Z) (tail : Z) : option bool :=
  match ws with
  | [] => None
  | [w] => Some (if tail =? 0 then unot 64 w =? 0 else w =? u64 (1 ≪ tail - 1))
  | w :: ws' => if negb (unot 64 w =? 0) then Some false else all_loop ws' tail
  end.
Definition all (b : lfbitset_base) : option bool := all_loop (bitword b) (Nbits b mod 64).

(** src/cpp-util/bitmap.h:158-160, [lfbitset_base::test]. *)
Definition test (b : lfbitset_base) (i : Z) : option bool :=
  w ← aget (bitword b) (i / 64); Some (negb (Z.land w (1 ≪ (i mod 64)) =? 0)).

(** One atomic read-modify-write of a word, returning the old value's bit. *)
Definition fetch_op (f : Z → Z → Z) (b : lfbitset_base) (i : Z) :
    option (bool * lfbitset_base) :=
  pre ← aget (bitword b) (i / 64);
  ws ← aset (bitword b) (i / 64) (f pre (1 ≪ (i mod 64)));
  Some (negb (Z.land pre (1 ≪ (i mod 64)) =? 0), with_words b ws).

(** src/cpp-util/bitmap.h:161-166, [lfbitset_base::set]. *)
Definition set_bit (b : lfbitset_base) (i : Z) := fetch_op Z.lor b i.

(** src/cpp-util/bitmap.h:167-172, [lfbitset_base::reset(i)]. *)
Definition reset_bit (b : lfbitset_base) (i : Z) :=
  fetch_op (λ pre m, Z.land pre (unot 64 m)) b i.

(** src/cpp-util/bitmap.h:173-178, [lfbitset_base::flip]. *)
Definition flip_bit (b : lfbitset_base) (i : Z) := fetch_op Z.lxor b i.

(** ** [ffs_and_set]: program points

    [FStart] before the call, [FLoad i w] at the test of the outer loop with the
    word index [w], [FTry i w v] inside the inner loop with the value [v] last
    observed in that word, [FTaken w r] between the successful CAS and the store to
    [widx], [FRet r] after the return. *)
Inductive ffs_pc :=
  | FStart
  | FLoad (i w : Z)
  | FTry (i w v : Z)
  | FTaken (w r : Z)
  | FRet (r : Z).

(** The result that says that no bit is free ([return -1] as [uint64_t]). *)
Definition no_bit : Z := 2 ^ 64 - 1.

(** src/cpp-util/bitmap.h:179-198, [lfbitset_base::ffs_and_set]. One atomic step;
    [spurious] says that a weak CAS executed in this step fails although the word
    has the expected value. *)
Definition ffs_step (spurious : bool) (b : lfbitset_base) (pc : ffs_pc) :
    option (lfbitset_base * ffs_pc) :=
  match pc with
  | FStart => Some (b, FLoad 0 (widx b mod align_N b))
  | FLoad i w =>
      if i <? align_N b then
        v ← aget (bitword b) w; Some (b, FTry i w v)
      else Some (b, FRet no_bit)
  | FTry i w v =>
      let idx := ffsl (unot 64 v) in
      if (idx =? 0) || (Nbits b <? w * 64 + idx) then
        Some (b, FLoad (i + 1) ((w + 1) mod align_N b))
      else
        cur ← aget (bitword b) w;
        if (cur =? v) && negb spurious then
          ws ← aset (bitword b) w (Z.lor v (1 ≪ (idx - 1)));
          Some (with_words b ws, FTaken w (w * 64 + idx - 1))
        else Some (b, FTry i w cur)
  | FTaken w r => Some (mkLf (u64 (w + 8)) (Nbits b) (align_N b) (bitword b), FRet r)
  | FRet r => Some (b, FRet r)
  end.

(** src/cpp-util/bitmap.h:179-198, [lfbitset_base::ffs_and_set]. The call executed without interference. *)
Fixpoint ffs_run (fuel : nat) (b : lfbitset_base) (pc : ffs_pc) : option (lfbitset_base * Z) :=
  match fuel with
  | O => None
  | S fuel' =>
      '(b', pc') ← ffs_step false b pc;
      match pc' with FRet r => Some (b', r) | _ => ffs_run fuel' b' pc' end
  end.
Definition ffs_and_set (b : lfbitset_base) : option (lfbitset_base * Z) :=
  ffs_run (2 * Z.to_nat (align_N b) + 3) b FStart.

(** src/cpp-util/bitmap.h:201-228, [lfbitset_base::reset_bulk]. *)
Fixpoint zero_words_from (ws : list Z) (m : Z) (count : nat) : option (list Z) :=
  match count with
  | O => Some ws
  | S count' => ws' ← aset ws m 0; zero_words_from ws' (m + 1) count'
  end.
Definition and_word (ws : list Z) (k mask : Z) : option (list Z) :=
  w ← aget ws k; aset ws k (Z.land w mask).
Definition reset_bulk (b : lfbitset_base) (i n : Z) : option lfbitset_base :=
  let s := i / 64 in
  let e := (i + n) / 64 in
  ws ← (if s =? e then
          if (i mod 64 =? 0) && (n =? 64) then aset (bitword b) s 0
          else and_word (bitword b) s
                 (unot 64 (ushl 64 (u64 (1 ≪ n) - 1) (i mod 64)))
        else
          let h := 64 - i mod 64 in
          ws1 ← (if h =? 64 then aset (bitword b) s 0
                 else and_word (bitword b) s
                        (unot 64 (ushl 64 (u64 (1 ≪ h) - 1) (i mod 64))));
          ws2 ← zero_words_from ws1 (s + 1) (Z.to_nat (e - (s + 1)));
          let t := (i + n) mod 64 in
          if t =? 64 then aset ws2 e 0
          else and_word ws2 e (unot 64 (u64 (1 ≪ t) - 1)));
  Some (with_words b ws).

(** ** Invariant *)

Record lf_wf (b : lfbitset_base) : Prop := {
  lf_N : 0 < Nbits b < 2 ^ 63;
  lf_align : align_N b = (Nbits b + 63) / 64;
  lf_len : Z.of_nat (length (bitword b)) = align_N b;
  lf_words : Forall (λ w, 0 ≤ w < 2 ^ 64) (bitword b)
}.

Section lfbitset.
Implicit Types (b : lfbitset_base) (i j w : Z).

Lemma lf_align_bounds b : lf_wf b → 0 < align_N b ∧ Nbits b ≤ 64 * align_N b < Nbits b + 64.
Proof.
  intros [H1 H2 _ _]. rewrite H2.
  pose proof (Z.div_mod (Nbits b + 63) 64 ltac:(lia)).
  pose proof (mod64_range (Nbits b + 63)). lia.
Qed.

Lemma lf_word b w : lf_wf b → 0 ≤ w < align_N b →
  ∃ v, aget (bitword b) w = Some v ∧ 0 ≤ v < 2 ^ 64.
Proof.
  intros Hb Hw. destruct (aget_is_Some (bitword b) w) as [v Hv]; [by rewrite (lf_len b Hb)|].
  exists v. split; [done|]. apply aget_Some in Hv as [_ Hv].
  apply (Forall_lookup_1 _ _ _ _ (lf_words b Hb) Hv).
Qed.

Lemma lf_div b i : lf_wf b → 0 ≤ i < 64 * align_N b → 0 ≤ i / 64 < align_N b.
Proof. intros _ Hi. split; [apply Z.div_pos; lia|apply Z.div_lt_upper_bound; lia]. Qed.

Lemma lf_wf_aset b n v ws k :
  lf_wf b → aset (bitword b) n v = Some ws → 0 ≤ v < 2 ^ 64 →
  lf_wf (mkLf k (Nbits b) (align_N b) ws).
Proof.
  intros [H1 H2 H3 H4] Ha Hv. pose proof (aset_length _ _ _ _ Ha) as Hl.
  split; simpl; try done.
  - by rewrite Hl.
  - apply aset_inv in Ha as [_ ->]. by apply Forall_insert.
Qed.

Lemma lf_new_wf N : 0 < N < 2 ^ 63 →
  lf_wf (lf_new N) ∧ ∀ i, 0 ≤ i < N → word_bit (bitword (lf_new N)) i = Some false.
Proof.
  intros HN. unfold lf_new. rewrite uwrap_small by lia.
  assert (0 ≤ (N + 63) / 64) by (apply Z.div_pos; lia). split.
  - split; simpl; try done.
    + rewrite length_replicate. lia.
    + apply Forall_replicate. lia.
  - intros i Hi. simpl. apply zero_words.
    pose proof (Z.div_mod (N + 63) 64 ltac:(lia)). pose proof (mod64_range (N + 63)). lia.
Qed.

(** A read-modify-write that acts on one bit. *)
Lemma fetch_op_effect f g b i :
  lf_wf b → 0 ≤ i < 64 * align_N b →
  (∀ w m, 0 ≤ w < 2 ^ 64 → 0 ≤ m < 64 →
     0 ≤ f w (1 ≪ m) < 2 ^ 64 ∧
     ∀ k, 0 ≤ k < 64 →
       Z.testbit (f w (1 ≪ m)) k = if m =? k then g (Z.testbit w k) else Z.testbit w k) →
  ∃ r b', fetch_op f b i = Some (r, b') ∧ lf_wf b' ∧ Nbits b' = Nbits b ∧
    widx b' = widx b ∧ word_bit (bitword b) i = Some r ∧
    word_bit (bitword b') i = Some (g r) ∧
    (∀ j, j ≠ i → word_bit (bitword b') j = word_bit (bitword b) j).
Proof.
  intros Hb Hi Hf. pose proof (mod64_range i) as Hm. unfold fetch_op.
  pose proof (lf_div b i Hb Hi) as Hd. destruct (lf_word b _ Hb Hd) as (w & Hw & Hwr).
  rewrite Hw. simpl. destruct (Hf w (i mod 64) Hwr Hm) as [Hr Hbit].
  assert (Hd' : 0 ≤ i / 64 < Z.of_nat (length (bitword b))) by (by rewrite (lf_len b Hb)).
  pose proof (aset_Some (bitword b) (i / 64) (f w (1 ≪ (i mod 64))) Hd') as Ha.
  rewrite Ha. simpl. eexists _, _. split; [done|].
  rewrite land_pow2_zero, negb_involutive by lia.
  split; [by apply (lf_wf_aset b _ _ _ _ Hb Ha)|]. split; [done|]. split; [done|].
  split; [unfold word_bit; by rewrite Hw|]. simpl. split.
  - rewrite (word_bit_aset _ _ _ _ _ Ha), decide_True by done. f_equal.
    rewrite Hbit by lia. by rewrite Z.eqb_refl.
  - intros j Hj. rewrite (word_bit_aset _ _ _ _ _ Ha).
    destruct (decide (i / 64 = j / 64)) as [He|]; [|done].
    pose proof (mod64_range j). rewrite Hbit by lia. unfold word_bit. rewrite <-He, Hw.
    simpl. destruct (Z.eqb_spec (i mod 64) (j mod 64)) as [He'|]; [|done].
    by rewrite (same_word_bit i j He He') in Hj.
Qed.

Lemma test_word_bit b i : test b i = word_bit (bitword b) i.
Proof.
  unfold test, word_bit. destruct (aget (bitword b) (i / 64)); [|done].
  simpl. rewrite land_pow2_zero by (pose proof (mod64_range i); lia).
  by rewrite negb_involutive.
Qed.
End lfbitset.

(** [set], [reset] and [flip] of the lock-free bitset are
    single-bit updates: each returns the previous value of the bit, stores
    respectively true, false and its negation there, and leaves every other bit,
    the capacity and the scan position unchanged. *)
Theorem lf_bit_updates b i :
  lf_wf b → 0 ≤ i < 64 * align_N b →
  Forall (λ '(op, g), ∃ r b', op b i = Some (r, b') ∧ lf_wf b' ∧ Nbits b' = Nbits b ∧
      widx b' = widx b ∧ test b i = Some r ∧ test b' i = Some (g r) ∧
      (∀ j, j ≠ i → word_bit (bitword b') j = word_bit (bitword b) j))
    [(set_bit, λ _, true); (reset_bit, λ _, false); (flip_bit, negb)].
Proof.
  intros Hb Hi.
  assert (Hgen : ∀ f g, (∀ w m, 0 ≤ w < 2 ^ 64 → 0 ≤ m < 64 →
     0 ≤ f w (1 ≪ m) < 2 ^ 64 ∧ ∀ k, 0 ≤ k < 64 →
       Z.testbit (f w (1 ≪ m)) k = if m =? k then g (Z.testbit w k) else Z.testbit w k) →
     ∃ r b', fetch_op f b i = Some (r, b') ∧ lf_wf b' ∧ Nbits b' = Nbits b ∧
      widx b' = widx b ∧ test b i = Some r ∧ test b' i = Some (g r) ∧
      (∀ j, j ≠ i → word_bit (bitword b') j = word_bit (bitword b) j)).
  { intros f g Hf. destruct (fetch_op_effect f g b i Hb Hi Hf) as (r & b' & H).
    exists r, b'. by rewrite !test_word_bit. }
  repeat constructor; apply Hgen; intros w m Hw Hm; pose proof (pow2_lt 64 m Hm).
  - split; [by apply lor_range|]. intros k Hk. rewrite testbit_set by lia.
    by destruct (Z.eqb_spec m k), (Z.testbit w k).
  - split; [by apply land_range_l|]. intros k Hk. rewrite testbit_clear by lia.
    by destruct (Z.eqb_spec m k), (Z.testbit w k).
  - split; [by apply lxor_range|]. intros k Hk.
    rewrite Z.lxor_spec, Z.shiftl_1_l, testbit_pow2 by lia.
    by destruct (Z.eqb_spec m k), (Z.testbit w k).
Qed.

Lemma lf_bit_updates_witness :
  ∃ r b', reset_bit (lf_new 70) 65 = Some (r, b') ∧ test b' 65 = Some false.
Proof.
  pose proof (lf_bit_updates (lf_new 70) 65
    (proj1 (lf_new_wf 70 ltac:(lia))) ltac:(vm_compute; intuition discriminate)) as H.
  rewrite Forall_cons, Forall_cons in H. destruct H as (_ & (r & b' & H1 & _ & _ & _ & _ & H2 & _) & _).
  by exists r, b'.
Defined.

(** ** Threads sharing a bitset

    Every thread repeatedly calls [ffs_and_set] and later gives the bit back with
    [reset].  A schedule is an arbitrary sequence of atomic steps. *)

Record lf_sys := mkSys { shared : lfbitset_base; pcs : list ffs_pc }.

Inductive lf_event :=
  | Run (t : nat) (spurious : bool)
  | Release (t : nat).

Definition lf_exec (s : lf_sys) (e : lf_event) : option lf_sys :=
  match e with
  | Run t spurious =>
      match pcs s !! t with
      | Some pc =>
          '(b, pc') ← ffs_step spurious (shared s) pc;
          Some (mkSys b (<[t := pc']> (pcs s)))
      | None => Some s
      end
  | Release t =>
      match pcs s !! t with
      | Some (FRet r) =>
          if r =? no_bit then Some (mkSys (shared s) (<[t := FStart]> (pcs s)))
          else
            '(_, b) ← reset_bit (shared s) r;
            Some (mkSys b (<[t := FStart]> (pcs s)))
      | _ => Some s
      end
  end.

Fixpoint lf_execs (s : lf_sys) (es : list lf_event) : option lf_sys :=
  match es with
  | [] => Some s
  | e :: es' => s' ← lf_exec s e; lf_execs s' es'
  end.

(** The bit that a thread owns: from its successful CAS until it gives it back. *)
Definition owned (pc : ffs_pc) : option Z :=
  match pc with
  | FTaken _ r => Some r
  | FRet r => if r =? no_bit then None else Some r
  | _ => None
  end.
Definition holds (s : lf_sys) (t : nat) (r : Z) : Prop := pcs s !! t ≫= owned = Some r.

Definition pc_ok (b : lfbitset_base) (pc : ffs_pc) : Prop :=
  match pc with
  | FLoad _ w => 0 ≤ w < align_N b
  | FTry _ w v => 0 ≤ w < align_N b ∧ 0 ≤ v < 2 ^ 64
  | FTaken w r => 0 ≤ r < Nbits b
  | _ => True
  end.

Record sys_inv (s : lf_sys) : Prop := {
  si_wf : lf_wf (shared s);
  si_pc : ∀ t pc, pcs s !! t = Some pc → pc_ok (shared s) pc;
  si_held : ∀ t r, holds s t r →
    0 ≤ r < Nbits (shared s) ∧ word_bit (bitword (shared s)) r = Some true;
  si_excl : ∀ t1 t2 r, holds s t1 r → holds s t2 r → t1 = t2
}.

(** The bit found by [ffsl] is clear in the observed word and setting it changes
    only that bit. *)
Lemma ffs_bit v idx :
  0 ≤ v < 2 ^ 64 → idx = ffsl (unot 64 v) → idx ≠ 0 →
  1 ≤ idx ≤ 64 ∧ Z.testbit v (idx - 1) = false ∧
  (∀ k, 0 ≤ k < idx - 1 → Z.testbit v k = true) ∧ 0 ≤ Z.lor v (1 ≪ (idx - 1)) < 2 ^ 64.
Proof.
  intros Hv -> Hne. pose proof (unot_range 64 v ltac:(lia) Hv) as Hn.
  assert (unot 64 v ≠ 0) by (rewrite <-ffsl_zero by lia; done).
  destruct (ffsl_spec (unot 64 v)) as (H1 & H2 & H3); [lia|].
  pose proof (ffsl_le 64 (unot 64 v) ltac:(lia)) as H4.
  split; [lia|]. split; [|split].
  - rewrite testbit_unot, (proj2 (Z.ltb_lt _ _)) in H2 by lia. by destruct (Z.testbit v _).
  - intros k Hk. specialize (H3 k Hk).
    rewrite testbit_unot, (proj2 (Z.ltb_lt _ _)) in H3 by lia. by destruct (Z.testbit v _).
  - apply lor_range; [lia|done|]. apply pow2_lt. lia.
Qed.

(** What one step of [ffs_and_set] does: nothing to the words, or it takes one
    free bit within the capacity and returns it. *)
Definition ffs_effect (b : lfbitset_base) (pc : ffs_pc) (b' : lfbitset_base) (pc' : ffs_pc)
    : Prop :=
  lf_wf b' ∧ Nbits b' = Nbits b ∧ align_N b' = align_N b ∧ pc_ok b' pc' ∧
  ((bitword b' = bitword b ∧ owned pc' = owned pc) ∨
   (∃ r, owned pc' = Some r ∧ 0 ≤ r < Nbits b ∧
      word_bit (bitword b) r = Some false ∧
      word_bit (bitword b') r = Some true ∧
      ∀ j, j ≠ r → word_bit (bitword b') j = word_bit (bitword b) j)).

Lemma ffs_effect_idle b pc pc' :
  lf_wf b → pc_ok b pc' → owned pc' = owned pc →
  ffs_effect b pc b pc'.
Proof. unfold ffs_effect. tauto. Qed.

Lemma ffs_effect_take b pc w v idx l :
  lf_wf b → 0 ≤ w < align_N b → aget (bitword b) w = Some v →
  1 ≤ idx ≤ 64 → Z.testbit v (idx - 1) = false → w * 64 + idx ≤ Nbits b →
  0 ≤ Z.lor v (1 ≪ (idx - 1)) < 2 ^ 64 →
  aset (bitword b) w (Z.lor v (1 ≪ (idx - 1))) = Some l →
  ffs_effect b pc (with_words b l) (FTaken w (w * 64 + idx - 1)).
Proof.
  intros Hb Hw Hcur Hi Hbit HN Hr Ha.
  destruct (word_positions w (w * 64 + idx - 1)) as [Hq Hm]; [lia|].
  replace (w * 64 + idx - 1 - 64 * w) with (idx - 1) in Hm by lia.
  split; [by apply (lf_wf_aset b _ _ _ _ Hb Ha)|]. split; [done|]. split; [done|].
  pose proof (lf_N b Hb). split; [simpl; lia|]. right. exists (w * 64 + idx - 1).
  split; [done|]. split; [lia|]. simpl. split; [|split].
  - unfold word_bit. rewrite Hq, Hm, Hcur. simpl. by rewrite Hbit.
  - rewrite (word_bit_aset _ _ _ _ _ Ha), Hq, decide_True, Hm by done.
    rewrite testbit_set by lia. by rewrite Z.eqb_refl, orb_true_r.
  - intros j Hj. rewrite (word_bit_aset _ _ _ _ _ Ha).
    destruct (decide (w = j / 64)) as [He|]; [|done].
    pose proof (word_of_position j). rewrite testbit_set by lia.
    unfold word_bit. rewrite <-He, Hcur. simpl.
    rewrite (proj2 (Z.eqb_neq _ _)), orb_false_r by lia. done.
Qed.

Lemma ffs_step_effect sp b pc :
  lf_wf b → pc_ok b pc →
  ∃ b' pc', ffs_step sp b pc = Some (b', pc') ∧ ffs_effect b pc b' pc'.
Proof.
  intros Hb Hpc. pose proof (lf_align_bounds b Hb) as [Hal Hab].
  destruct pc as [|i w|i w v|w r|r]; simpl.
  - eexists _, _. split; [done|]. apply ffs_effect_idle; [done| |done].
    by apply Z.mod_pos_bound.
  - destruct (Z.ltb_spec i (align_N b)).
    + destruct (lf_word b w Hb Hpc) as (v & -> & Hv). simpl.
      eexists _, _. split; [done|]. by apply ffs_effect_idle.
    + eexists _, _. split; [done|]. by apply ffs_effect_idle.
  - destruct Hpc as [Hw Hv].
    destruct ((ffsl (unot 64 v) =? 0) || (Nbits b <? w * 64 + ffsl (unot 64 v))) eqn:E.
    { eexists _, _. split; [done|]. apply ffs_effect_idle; [done| |done].
      by apply Z.mod_pos_bound. }
    apply orb_false_iff in E as [E1%Z.eqb_neq E2%Z.ltb_ge].
    destruct (lf_word b w Hb Hw) as (cur & Hcur & Hcr). rewrite Hcur. simpl.
    destruct ((cur =? v) && negb sp) eqn:E3.
    2: { eexists _, _. split; [done|]. by apply ffs_effect_idle. }
    apply andb_true_iff in E3 as [->%Z.eqb_eq _].
    destruct (ffs_bit v _ Hv eq_refl E1) as (Hi & Hbit & _ & Hr).
    pose proof (aset_Some (bitword b) w (Z.lor v (1 ≪ (ffsl (unot 64 v) - 1)))) as Ha.
    rewrite (lf_len b Hb) in Ha. specialize (Ha Hw). rewrite Ha. simpl.
    eexists _, _. split; [done|]. by eapply ffs_effect_take.
  - eexists _, _. split; [done|]. split; [by destruct Hb|]. do 3 (split; [done|]).
    left. split; [done|]. simpl in *. destruct (Z.eqb_spec r no_bit); [|done].
    pose proof (lf_N b Hb). unfold no_bit in *. lia.
  - eexists _, _. split; [done|]. by apply ffs_effect_idle.
Qed.

Lemma pc_ok_same b b' pc :
  Nbits b' = Nbits b → align_N b' = align_N b → pc_ok b pc → pc_ok b' pc.
Proof. intros HN Ha. destruct pc; simpl; rewrite ?HN, ?Ha; done. Qed.

Lemma holds_insert s b t pc t' r :
  (t < length (pcs s))%nat →
  holds (mkSys b (<[t := pc]> (pcs s))) t' r ↔
    if decide (t = t') then owned pc = Some r else holds s t' r.
Proof.
  intros Ht. unfold holds. simpl. destruct (decide (t = t')) as [<-|Hne].
  - by rewrite list_lookup_insert_eq.
  - by rewrite list_lookup_insert_ne.
Qed.

(** Thread [t] moves to [pc] while the bits change by taking at most one bit,
    which becomes the one [t] owns, or by clearing the one it owned. *)
Lemma sys_inv_update s b t pc :
  sys_inv s → (t < length (pcs s))%nat → lf_wf b → Nbits b = Nbits (shared s) →
  align_N b = align_N (shared s) → pc_ok b pc →
  (∀ r, owned pc = Some r → 0 ≤ r < Nbits b ∧ word_bit (bitword b) r = Some true ∧
     ∀ t', t' ≠ t → ¬ holds s t' r) →
  (∀ t' r, t' ≠ t → holds s t' r → word_bit (bitword b) r = Some true) →
  sys_inv (mkSys b (<[t := pc]> (pcs s))).
Proof.
  intros [Hwf Hpc Hheld Hex] Ht Hb HN Ha Hok Hown Hother. split; simpl.
  - done.
  - intros t' pc'. destruct (decide (t = t')) as [<-|Hne].
    + rewrite list_lookup_insert_eq by done. by intros [= <-].
    + rewrite list_lookup_insert_ne by done. intros H.
      apply (pc_ok_same (shared s)); [done..|]. by apply (Hpc t').
  - intros t' r. rewrite holds_insert by done. case_decide as Hc; [naive_solver|].
    intros Hr. split; [rewrite HN; by apply (Hheld t')|]. by apply (Hother t' r).
  - intros t1 t2 r. rewrite !holds_insert by done.
    destruct (decide (t = t1)) as [<-|H1], (decide (t = t2)) as [<-|H2]; intros Ha1 Ha2.
    + done.
    + by destruct (proj2 (proj2 (Hown r Ha1)) t2 (not_eq_sym H2)).
    + by destruct (proj2 (proj2 (Hown r Ha2)) t1 (not_eq_sym H1)).
    + by apply (Hex t1 t2 r).
Qed.

Lemma lf_run_inv s t sp :
  sys_inv s →
  ∃ s', lf_exec s (Run t sp) = Some s' ∧ Nbits (shared s') = Nbits (shared s) ∧ sys_inv s'.
Proof.
  intros Hs. simpl. destruct (pcs s !! t) as [pc|] eqn:Et; [|by exists s].
  pose proof (lookup_lt_Some _ _ _ Et) as Hlt.
  pose proof (si_pc s Hs t pc Et) as Hpc.
  destruct (ffs_step_effect sp (shared s) pc (si_wf s Hs) Hpc)
    as (b' & pc' & -> & Hb & HN & Ha & Hpc' & Heff). simpl.
  eexists. split; [done|]. split; [done|]. apply sys_inv_update; [done..| |].
  - intros r Hr. destruct Heff as [[Hw Ho]|(r' & Ho & Hr' & Hfree & Htaken & _)].
    + assert (Ht : holds s t r) by (unfold holds; rewrite Et; simpl; congruence).
      destruct (si_held s Hs t r Ht). rewrite HN, Hw. split; [done|]. split; [done|].
      intros t' Hne Ht'. by destruct Hne, (si_excl s Hs t' t r).
    + assert (r' = r) as -> by congruence. rewrite HN. split; [done|]. split; [done|].
      intros t' _ Ht'. destruct (si_held s Hs t' r Ht') as [_ ?]. congruence.
  - intros t' r Hne Ht'. destruct (si_held s Hs t' r Ht') as [_ Hset].
    destruct Heff as [[-> _]|(r' & _ & _ & Hfree & _ & Hsame)]; [done|].
    rewrite Hsame; [done|]. congruence.
Qed.

Lemma reset_bit_effect b i :
  lf_wf b → 0 ≤ i < Nbits b →
  ∃ r b', reset_bit b i = Some (r, b') ∧ lf_wf b' ∧ Nbits b' = Nbits b ∧
    (∀ j, j ≠ i → word_bit (bitword b') j = word_bit (bitword b) j).
Proof.
  intros Hb Hi. pose proof (lf_align_bounds b Hb).
  destruct (fetch_op_effect (λ pre m, Z.land pre (unot 64 m)) (λ _, false) b i Hb)
    as (r & b' & H1 & H2 & H3 & _ & _ & _ & H4); [lia| |by exists r, b'].
  intros w m Hw Hm. pose proof (pow2_lt 64 m Hm). split; [by apply land_range_l|].
  intros k Hk. rewrite testbit_clear by lia.
  by destruct (Z.eqb_spec m k), (Z.testbit w k).
Qed.

Lemma lf_release_inv s t :
  sys_inv s →
  ∃ s', lf_exec s (Release t) = Some s' ∧ Nbits (shared s') = Nbits (shared s) ∧ sys_inv s'.
Proof.
  intros Hs. simpl. destruct (pcs s !! t) as [[| | | |r]|] eqn:Et; try by exists s.
  pose proof (lookup_lt_Some _ _ _ Et) as Hlt.
  destruct (Z.eqb_spec r no_bit) as [Hr|Hr].
  { eexists. split; [done|]. split; [done|]. apply sys_inv_update; try done; [by apply si_wf|].
    intros t' r' _ Ht'. by apply (si_held s Hs t'). }
  assert (Ht : holds s t r).
  { unfold holds. rewrite Et. simpl. by rewrite (proj2 (Z.eqb_neq r no_bit)). }
  destruct (si_held s Hs t r Ht) as [Hrange _].
  destruct (reset_bit_effect _ r (si_wf s Hs) Hrange) as (o & b' & -> & Hb & HN & Hsame).
  simpl. eexists. split; [done|]. split; [done|]. apply sys_inv_update; try done.
  - rewrite (lf_align b' Hb), HN. symmetry. apply lf_align, si_wf, Hs.
  - intros t' r' Hne Ht'. rewrite Hsame; [by apply (si_held s Hs t')|].
    intros ->. by destruct Hne, (si_excl s Hs t' t r).
Qed.

Lemma lf_execs_inv es s :
  sys_inv s →
  ∃ s', lf_execs s es = Some s' ∧ Nbits (shared s') = Nbits (shared s) ∧ sys_inv s'.
Proof.
  revert s. induction es as [|e es IH]; intros s Hs; [by exists s|].
  assert (∃ s', lf_exec s e = Some s' ∧ Nbits (shared s') = Nbits (shared s) ∧ sys_inv s')
    as (s' & Hs' & HN & Hinv)
    by (destruct e; [by apply lf_run_inv|by apply lf_release_inv]).
  cbn -[lf_exec]. rewrite Hs', <-HN. by apply IH.
Qed.

Lemma lf_start_inv N n : 0 < N < 2 ^ 63 → sys_inv (mkSys (lf_new N) (replicate n FStart)).
Proof.
  intros HN.
  assert (Hno : ∀ t r, ¬ holds (mkSys (lf_new N) (replicate n FStart)) t r).
  { intros t r. unfold holds. simpl. destruct (replicate n FStart !! t) eqn:E; [|done].
    by apply lookup_replicate in E as [-> _]. }
  split; simpl.
  - by apply lf_new_wf.
  - intros t pc H. by apply lookup_replicate in H as [-> _].
  - intros t r H. by destruct (Hno t r).
  - intros t1 t2 r H. by destruct (Hno t1 r).
Qed.

(** C15 [safety]. Threads that share a lock-free bitset never own the same bit:
    under every schedule of the loads, the (possibly spuriously failing) CAS
    instructions of [ffs_and_set] and the releases through [reset], the execution
    stays within the word array, every bit handed out is below the capacity and
    set in the bitset while it is owned, and two threads that own the same bit are
    the same thread. *)
Theorem ffs_and_set_exclusive N n es :
  0 < N < 2 ^ 63 →
  ∃ s, lf_execs (mkSys (lf_new N) (replicate n FStart)) es = Some s ∧
    (∀ t r, holds s t r → 0 ≤ r < N ∧ test (shared s) r = Some true) ∧
    (∀ t1 t2 r, holds s t1 r → holds s t2 r → t1 = t2).
Proof.
  intros HN. destruct (lf_execs_inv es _ (lf_start_inv N n HN)) as (s & Hs & Hcap & Hinv).
  exists s. split; [done|]. simpl in Hcap. split; [|apply (si_excl s Hinv)].
  intros t r Hr. rewrite test_word_bit, <-Hcap. by apply (si_held s Hinv t r).
Qed.

(** Three threads, two of which take a bit. *)
Lemma ffs_and_set_exclusive_witness :
  ∃ s, lf_execs (mkSys (lf_new 70) (replicate 3 FStart))
         [Run 0 false; Run 1 false; Run 0 false; Run 1 false; Run 1 false; Run 0 false;
          Run 0 false; Run 2 false] = Some s ∧
    holds s 0 1 ∧ holds s 1 0 ∧ test (shared s) 1 = Some true.
Proof.
  destruct (ffs_and_set_exclusive 70 3
    [Run 0 false; Run 1 false; Run 0 false; Run 1 false; Run 1 false; Run 0 false;
     Run 0 false; Run 2 false]) as (s & Hs & Hheld & _); [lia|].
  exists s. split; [exact Hs|]. vm_compute in Hs. injection Hs as <-.
  split; [reflexivity|]. split; [reflexivity|]. apply (Hheld 0%nat 1). reflexivity.
Defined.

(** ** Sequential behaviour of [ffs_and_set] *)

Definition word_full (b : lfbitset_base) (w : Z) : Prop :=
  ∀ j, 0 ≤ j < Nbits b → j / 64 = w → word_bit (bitword b) j = Some true.

(** A word whose lowest clear bit is past the capacity, or that has none, is full. *)
Lemma word_full_no_ffs b w v :
  lf_wf b → aget (bitword b) w = Some v → 0 ≤ v < 2 ^ 64 → 0 ≤ w →
  ffsl (unot 64 v) = 0 ∨ Nbits b < w * 64 + ffsl (unot 64 v) → word_full b w.
Proof.
  intros Hb Hv Hr Hw Hno j Hj Hjw. pose proof (mod64_range j). pose proof (word_of_position j).
  unfold word_bit. rewrite Hjw, Hv. simpl. f_equal.
  destruct (decide (ffsl (unot 64 v) = 0)) as [Hz|Hnz].
  - pose proof (unot_range 64 v ltac:(lia) Hr).
    rewrite ffsl_zero in Hz by lia. rewrite unot_zero in Hz by lia. by apply Hz.
  - destruct (ffs_bit v _ Hr eq_refl Hnz) as (_ & _ & Hall & _). apply Hall. lia.
Qed.

(** The bit [r] was free and has been taken, nothing else changed. *)
Definition bit_taken (b b' : lfbitset_base) (r : Z) : Prop :=
  0 ≤ r < Nbits b ∧ word_bit (bitword b) r = Some false ∧
  word_bit (bitword b') r = Some true ∧
  (∀ j, j ≠ r → word_bit (bitword b') j = word_bit (bitword b) j) ∧
  lf_wf b' ∧ Nbits b' = Nbits b.

(** One word of the scan: it is full and the scan goes on, or a bit is taken. *)
Lemma ffs_scan_word b i w fuel :
  lf_wf b → 0 ≤ w < align_N b → i < align_N b →
  (word_full b w ∧
   ffs_run (S (S (S fuel))) b (FLoad i w) =
     ffs_run (S fuel) b (FLoad (i + 1) ((w + 1) mod align_N b)))
  ∨ ∃ b' r, ffs_run (S (S (S fuel))) b (FLoad i w) = Some (b', r) ∧ bit_taken b b' r.
Proof.
  intros Hb Hw Hi. destruct (lf_word b w Hb Hw) as (v & Hv & Hr).
  assert (Hld : ffs_step false b (FLoad i w) = Some (b, FTry i w v)).
  { simpl. by rewrite (proj2 (Z.ltb_lt _ _) Hi), Hv. }
  destruct ((ffsl (unot 64 v) =? 0) || (Nbits b <? w * 64 + ffsl (unot 64 v))) eqn:E.
  - left. split.
    + apply (word_full_no_ffs b w v); [done..|lia|].
      by apply orb_true_iff in E as [?%Z.eqb_eq|?%Z.ltb_lt]; auto.
    + cbn -[ffs_step]. rewrite Hld. cbn. by rewrite E.
  - right. cbn -[ffs_step]. rewrite Hld. cbn -[Z.shiftl]. rewrite E, Hv. cbn -[Z.shiftl].
    rewrite Z.eqb_refl. cbn -[Z.shiftl].
    apply orb_false_iff in E as [E1%Z.eqb_neq E2%Z.ltb_ge].
    destruct (ffs_bit v _ Hr eq_refl E1) as (Hix & Hbit & _ & Hr').
    pose proof (aset_Some (bitword b) w (Z.lor v (1 ≪ (ffsl (unot 64 v) - 1)))) as Ha.
    rewrite (lf_len b Hb) in Ha. specialize (Ha Hw). rewrite Ha. cbn.
    destruct (ffs_effect_take b FStart w v _ _ Hb Hw Hv Hix Hbit E2 Hr' Ha)
      as (H1 & H2 & H3 & _ & [[_ Ho]|(r & [= <-] & H4 & H5 & H6 & H7)]); [done|].
    eexists _, _. split; [done|]. repeat (split; [done|]). split; [by destruct H1|done].
Qed.

Lemma ffs_scan b w0 n fuel i :
  lf_wf b → align_N b - i = Z.of_nat n → 0 ≤ i → 0 ≤ w0 →
  (2 * n + 2 ≤ fuel)%nat →
  (∀ k, 0 ≤ k < i → word_full b ((w0 + k) mod align_N b)) →
  ∃ b' r, ffs_run fuel b (FLoad i ((w0 + i) mod align_N b)) = Some (b', r) ∧
    ((r = no_bit ∧ b' = b ∧ ∀ k, 0 ≤ k < align_N b → word_full b ((w0 + k) mod align_N b)) ∨
     bit_taken b b' r).
Proof.
  intros Hb. pose proof (lf_align_bounds b Hb) as [Hal _].
  revert i fuel. induction n as [|n IH]; intros i fuel Hn Hi Hw0 Hf Hfull.
  - destruct fuel as [|fuel]; [lia|]. simpl.
    rewrite (proj2 (Z.ltb_ge _ _)) by lia. eexists _, _. split; [done|]. left.
    split; [done|]. split; [done|]. intros k Hk. apply Hfull. lia.
  - destruct fuel as [|[|[|fuel]]]; [lia..|].
    destruct (ffs_scan_word b i ((w0 + i) mod align_N b) fuel) as [[Hw Heq]|(b' & r & H)];
      [done|by apply Z.mod_pos_bound|lia| |].
    + rewrite Heq, Z.add_mod_idemp_l, <-Z.add_assoc by lia.
      apply IH; [lia..|]. intros k Hk. destruct (decide (k = i)) as [->|]; [done|].
      apply Hfull. lia.
    + exists b', r. split; [apply H|right; apply H].
Qed.

(** Every word index is visited by the circular scan. *)
Lemma scan_covers a w0 q : 0 < a → 0 ≤ q < a → ∃ k, 0 ≤ k < a ∧ (w0 + k) mod a = q.
Proof.
  intros Ha Hq. exists ((q - w0) mod a). split; [by apply Z.mod_pos_bound|].
  rewrite Z.add_mod_idemp_r by lia. replace (w0 + (q - w0)) with q by lia.
  by apply Z.mod_small.
Qed.

(** Without interference [ffs_and_set] terminates (the scan needs
    at most two steps per word) and is complete: it returns -1 and changes nothing
    exactly when every bit below the capacity is set, and otherwise it sets one bit
    that was clear, below the capacity, and returns its position. *)
Theorem ffs_and_set_complete b :
  lf_wf b → 0 ≤ widx b →
  ∃ b' r, ffs_and_set b = Some (b', r) ∧
    if decide (r = no_bit)
    then b' = b ∧ ∀ j, 0 ≤ j < Nbits b → test b j = Some true
    else bit_taken b b' r.
Proof.
  intros Hb Hw. pose proof (lf_align_bounds b Hb) as [Hal Hbnd].
  destruct (ffs_scan b (widx b) (Z.to_nat (align_N b)) (2 * Z.to_nat (align_N b) + 2) 0)
    as (b' & r & Hrun & Hres); [done|lia..|].
  exists b', r. split.
  - unfold ffs_and_set.
    replace (2 * Z.to_nat (align_N b) + 3)%nat
      with (S (2 * Z.to_nat (align_N b) + 2))%nat by lia.
    rewrite Z.add_0_r in Hrun. exact Hrun.
  - destruct Hres as [(-> & -> & Hfull)|Htaken].
    + rewrite decide_True by done. split; [done|]. intros j Hj.
      destruct (scan_covers (align_N b) (widx b) (j / 64)) as (k & Hk & Hkq);
        [lia|apply (lf_div b j Hb); lia|].
      rewrite test_word_bit. by apply (Hfull k).
    + rewrite decide_False; [done|]. intros ->. destruct Htaken as [? _].
      pose proof (lf_N b Hb). unfold no_bit in *. lia.
Qed.

Lemma ffs_and_set_complete_witness :
  ∃ b' r, ffs_and_set (lf_new 70) = Some (b', r) ∧ r = 0 ∧ bit_taken (lf_new 70) b' 0.
Proof.
  destruct (ffs_and_set_complete (lf_new 70) (proj1 (lf_new_wf 70 ltac:(lia))))
    as (b' & r & H1 & H2); [by vm_compute|].
  exists b', r. split; [exact H1|]. vm_compute in H1. injection H1 as <- <-.
  split; [reflexivity|]. exact H2.
Defined.

(** ** [reset_bulk] *)

Lemma range_mask n s k :
  0 ≤ n → 0 ≤ s → n < 64 → 0 ≤ k < 64 →
  Z.testbit (unot 64 (ushl 64 (u64 (1 ≪ n) - 1) s)) k = negb ((s <=? k) && (k <? s + n)).
Proof.
  intros Hn Hs Hns Hk. pose proof (pow2_lt 64 n ltac:(lia)) as Hp.
  rewrite (uwrap_small 64 (1 ≪ n)) by exact Hp.
  rewrite Z.shiftl_1_l, Z.sub_1_r, <-Z.ones_equiv.
  rewrite testbit_unot by lia. unfold ushl. rewrite testbit_uwrap by lia.
  rewrite (proj2 (Z.ltb_lt k 64)), xorb_true_r, andb_true_l by lia. f_equal.
  rewrite Z.shiftl_spec by lia. destruct (Z.leb_spec s k), (Z.ltb_spec k (s + n)); simpl.
  - apply Z.ones_spec_low. lia.
  - apply Z.ones_spec_high. lia.
  - apply Z.testbit_neg_r. lia.
  - apply Z.testbit_neg_r. lia.
Qed.

(** [ws'] is [ws] with exactly the bits of [lo, hi) cleared. *)
Definition clears (ws ws' : list Z) (lo hi : Z) : Prop :=
  length ws' = length ws ∧
  ∀ j, word_bit ws' j = (if decide (lo ≤ j < hi) then λ _, false else id) <$> word_bit ws j.

Lemma clears_trans ws1 ws2 ws3 lo mid hi :
  lo ≤ mid ≤ hi → clears ws1 ws2 lo mid → clears ws2 ws3 mid hi → clears ws1 ws3 lo hi.
Proof.
  intros Hm [Hl1 H1] [Hl2 H2]. split; [congruence|]. intros j. rewrite H2, H1.
  destruct (word_bit ws1 j); [|done]. simpl. f_equal.
  repeat case_decide; (done || lia).
Qed.

(** An update of one word that clears the bits of [lo, hi) in it. *)
Lemma word_clears ws k w v lo hi :
  aget ws k = Some w → 64 * k ≤ lo → hi ≤ 64 * k + 64 →
  (∀ m, 0 ≤ m < 64 → Z.testbit v m =
     if decide (lo ≤ 64 * k + m < hi) then false else Z.testbit w m) →
  ∃ ws', aset ws k v = Some ws' ∧ clears ws ws' lo hi.
Proof.
  intros Hw Hlo Hhi Hv. destruct (aget_Some _ _ _ Hw) as [Hk _].
  pose proof (aset_Some ws k v Hk) as Ha. eexists. split; [done|].
  split; [by apply (aset_length _ _ _ _ Ha)|]. intros j.
  rewrite (word_bit_aset _ _ _ _ _ Ha). pose proof (word_of_position j) as [Hp Hm].
  destruct (decide (k = j / 64)) as [->|Hne].
  - unfold word_bit. rewrite Hw. simpl. rewrite Hv by lia.
    replace (64 * (j / 64) + j mod 64) with j by lia. by case_decide.
  - rewrite decide_False by lia. by destruct (word_bit ws j).
Qed.

Lemma and_word_clears ws k mask lo hi :
  0 ≤ k < Z.of_nat (length ws) → 64 * k ≤ lo → hi ≤ 64 * k + 64 →
  (∀ m, 0 ≤ m < 64 → Z.testbit mask m = negb ((lo - 64 * k <=? m) && (m <? hi - 64 * k))) →
  ∃ ws', and_word ws k mask = Some ws' ∧ clears ws ws' lo hi.
Proof.
  intros Hk Hlo Hhi Hm. destruct (aget_is_Some ws k Hk) as [w Hw].
  unfold and_word. rewrite Hw. simpl. eapply word_clears; [done..|].
  intros m Hm'. rewrite Z.land_spec, Hm by done.
  destruct (Z.leb_spec (lo - 64 * k) m), (Z.ltb_spec m (hi - 64 * k)); simpl;
    case_decide; try lia; by rewrite ?andb_true_r, ?andb_false_r.
Qed.

Lemma zero_word_clears ws k :
  0 ≤ k < Z.of_nat (length ws) →
  ∃ ws', aset ws k 0 = Some ws' ∧ clears ws ws' (64 * k) (64 * k + 64).
Proof.
  intros Hk. destruct (aget_is_Some ws k Hk) as [w Hw].
  eapply word_clears; [done|lia..|]. intros m Hm. rewrite decide_True by lia.
  apply Z.testbit_0_l.
Qed.

Lemma zero_words_clears count ws m :
  0 ≤ m → m + Z.of_nat count ≤ Z.of_nat (length ws) →
  ∃ ws', zero_words_from ws m count = Some ws' ∧
    clears ws ws' (64 * m) (64 * (m + Z.of_nat count)).
Proof.
  revert ws m. induction count as [|count IH]; intros ws m Hm Hlen.
  - exists ws. split; [done|]. split; [done|]. intros j.
    rewrite decide_False by lia. by destruct (word_bit ws j).
  - destruct (zero_word_clears ws m) as (ws1 & H1 & Hc1); [lia|].
    destruct (IH ws1 (m + 1)) as (ws2 & H2 & Hc2); [lia| |].
    { destruct Hc1 as [-> _]. lia. }
    exists ws2. simpl. rewrite H1. split; [done|].
    replace (64 * (m + Z.of_nat (S count))) with (64 * (m + 1 + Z.of_nat count)) by lia.
    apply (clears_trans ws ws1 ws2 (64 * m) (64 * (m + 1))); [lia| |done].
    by replace (64 * (m + 1)) with (64 * m + 64) by lia.
Qed.

(** The first word of a range that spans several words. *)
Lemma reset_bulk_head ws i :
  0 ≤ i → i / 64 < Z.of_nat (length ws) →
  ∃ ws', (if 64 - i mod 64 =? 64 then aset ws (i / 64) 0
          else and_word ws (i / 64)
                 (unot 64 (ushl 64 (u64 (1 ≪ (64 - i mod 64)) - 1) (i mod 64)))) = Some ws' ∧
    clears ws ws' i (64 * (i / 64 + 1)).
Proof.
  intros Hi Hlen. pose proof (word_of_position i) as [Hp Hm].
  assert (0 ≤ i / 64) by (apply Z.div_pos; lia).
  destruct (Z.eqb_spec (64 - i mod 64) 64).
  - replace (64 * (i / 64 + 1)) with (64 * (i / 64) + 64) by lia.
    destruct (zero_word_clears ws (i / 64)) as (ws' & H1 & H2); [lia|]. exists ws'.
    split; [done|]. by replace (64 * (i / 64)) with i in H2 at 1 by lia.
  - apply and_word_clears; [lia..|]. intros m Hm'. rewrite range_mask by lia.
    f_equal. f_equal; f_equal; lia.
Qed.

(** [reset_bulk(i, n)] clears exactly the bits [i .. i+n-1] and no
    other, when the word of position [i + n] exists. *)
Theorem reset_bulk_exact b i n :
  lf_wf b → 0 ≤ i → 0 ≤ n → (i + n) / 64 < align_N b →
  ∃ b', reset_bulk b i n = Some b' ∧ Nbits b' = Nbits b ∧
    clears (bitword b) (bitword b') i (i + n).
Proof.
  intros Hb Hi Hn He. rewrite <-(lf_len b Hb) in He. unfold reset_bulk.
  pose proof (word_of_position i) as [Hpi Hmi].
  pose proof (word_of_position (i + n)) as [Hpe Hme].
  assert (0 ≤ i / 64) by (apply Z.div_pos; lia).
  assert (i / 64 ≤ (i + n) / 64) by (apply Z.div_le_mono; lia).
  destruct (Z.eqb_spec (i / 64) ((i + n) / 64)) as [Heq|Hne].
  - assert (n < 64) by lia. rewrite (proj2 (Z.eqb_neq n 64)), andb_false_r by lia.
    destruct (and_word_clears (bitword b) (i / 64)
      (unot 64 (ushl 64 (u64 (1 ≪ n) - 1) (i mod 64))) i (i + n)) as (ws & -> & Hc);
      [lia..| |by exists (with_words b ws)].
    intros m Hm. rewrite range_mask by lia. f_equal. f_equal; f_equal; lia.
  - destruct (reset_bulk_head (bitword b) i) as (ws1 & -> & Hc1); [lia..|]. simpl.
    destruct (zero_words_clears (Z.to_nat ((i + n) / 64 - (i / 64 + 1))) ws1 (i / 64 + 1))
      as (ws2 & -> & Hc2); [lia|destruct Hc1 as [-> _]; lia|]. simpl.
    rewrite (proj2 (Z.eqb_neq ((i + n) mod 64) 64)) by lia.
    rewrite Z2Nat.id in Hc2 by lia.
    replace (i / 64 + 1 + ((i + n) / 64 - (i / 64 + 1))) with ((i + n) / 64) in Hc2 by lia.
    destruct (and_word_clears ws2 ((i + n) / 64) (unot 64 (u64 (1 ≪ ((i + n) mod 64)) - 1))
      (64 * ((i + n) / 64)) (i + n)) as (ws3 & -> & Hc3);
      [destruct Hc1 as [? _], Hc2 as [? _]; lia|lia..| |].
    + intros m Hm. pose proof (range_mask ((i + n) mod 64) 0 m) as Hr.
      unfold ushl in Hr. rewrite Z.shiftl_0_r, (uwrap_small 64 (_ - 1)) in Hr.
      * rewrite Hr by lia. f_equal. f_equal; f_equal; lia.
      * pose proof (pow2_lt 64 ((i + n) mod 64) ltac:(lia)).
        rewrite uwrap_small by done. rewrite Z.shiftl_1_l in *.
        pose proof (Z.pow_pos_nonneg 2 ((i + n) mod 64)). lia.
    + exists (with_words b ws3). split; [done|]. split; [done|].
      eapply clears_trans; [|exact Hc1|eapply clears_trans; [|exact Hc2|exact Hc3]]; lia.
Qed.

Lemma reset_bulk_exact_witness :
  ∃ b', reset_bulk (reset_all (lf_new 200)) 60 80 = Some b' ∧
    clears (bitword (lf_new 200)) (bitword b') 60 140.
Proof.
  destruct (reset_bulk_exact (lf_new 200) 60 80) as (b' & H & _ & Hc);
    [by apply lf_new_wf|lia..|vm_compute; reflexivity|].
  exists b'. split; [exact H|exact Hc].
Defined.

(** A bulk reset of a range that crosses a word boundary and ends
    exactly at the end of the word array reads and writes the word behind the
    array: such a call, although every bit of the range exists, is out of bounds. *)
Theorem reset_bulk_end_out_of_bounds b i n :
  lf_wf b → 0 ≤ i → 0 < n → i + n = 64 * align_N b → reset_bulk b i n = None.
Proof.
  intros Hb Hi Hn He. pose proof (word_of_position i) as [Hpi Hmi].
  assert (0 ≤ i / 64) by (apply Z.div_pos; lia).
  assert (Hq : (i + n) / 64 = align_N b) by (rewrite He, Z.mul_comm; apply Z.div_mul; lia).
  unfold reset_bulk. rewrite Hq, (proj2 (Z.eqb_neq (i / 64) _)) by lia.
  pose proof (lf_len b Hb) as Hlen.
  destruct (reset_bulk_head (bitword b) i) as (ws1 & -> & Hl1 & _); [lia..|]. simpl.
  destruct (zero_words_clears (Z.to_nat (align_N b - (i / 64 + 1))) ws1 (i / 64 + 1))
    as (ws2 & -> & Hl2 & _); [lia..|]. simpl.
  assert ((i + n) mod 64 = 0) as -> by (rewrite He, Z.mul_comm; apply Z.mod_mul; lia).
  simpl. unfold and_word, aget. rewrite (proj2 (Z.leb_le _ _)) by lia.
  rewrite lookup_ge_None_2 by lia. done.
Qed.

Lemma reset_bulk_end_out_of_bounds_witness : reset_bulk (lf_new 64) 0 64 = None.
Proof.
  apply reset_bulk_end_out_of_bounds; [by apply lf_new_wf|lia..|reflexivity].
Defined.
