(* ===== verification/LfBitset64.v ===== *)
(** * The one-word lock-free bitset (src/cpp-util/bitmap.h, class [lfbitset<64>])

    The specialisation of the lock-free bitset for 64 bits keeps one word and
    adds the allocation of [n] consecutive bits.  Both allocation loops are
    modelled step by step, as in [LfBitset].

    [ffs_and_set_bulk] can shift a word by 64, which C++ leaves undefined (x86
    shifts by 0); [over_shift w] is the value of that expression.  The theorems
    hold for every such function. *)

From S2P Require Import Prelude.

Section lfbitset64.
Variable over_shift : Z → Z.

(** src/cpp-util/bitmap.h:249, [lfbitset<64>::lfbitset]. *)
Definition lf64_new : Z := 0.

(** src/cpp-util/bitmap.h:253, [lfbitset<64>::reset()]. *)
Definition lf64_reset_all (bitword : Z) : Z := 0.

(** src/cpp-util/bitmap.h:254, [lfbitset<64>::none]. *)
Definition lf64_none (bitword : Z) : bool := bitword =? 0.

(** src/cpp-util/bitmap.h:255, [lfbitset<64>::any]. *)
Definition lf64_any (bitword : Z) : bool := negb (bitword =? 0).

(** src/cpp-util/bitmap.h:256, [lfbitset<64>::nany]. *)
Definition lf64_nany (bitword : Z) : bool := negb (unot 64 bitword =? 0).

(** src/cpp-util/bitmap.h:257, [lfbitset<64>::all]. *)
Definition lf64_all (bitword : Z) : bool := unot 64 bitword =? 0.

(** src/cpp-util/bitmap.h:258, [lfbitset<64>::test]. *)
Definition lf64_test (bitword i : Z) : bool := negb (Z.land bitword (1 ≪ i) =? 0).

(** src/cpp-util/bitmap.h:259-264, [lfbitset<64>::set]. *)
Definition lf64_set (bitword i : Z) : bool * Z :=
  (negb (Z.land bitword (1 ≪ i) =? 0), Z.lor bitword (1 ≪ i)).

(** src/cpp-util/bitmap.h:265-270, [lfbitset<64>::reset(i)]. *)
Definition lf64_reset (bitword i : Z) : bool * Z :=
  (negb (Z.land bitword (1 ≪ i) =? 0), Z.land bitword (unot 64 (1 ≪ i))).

(** src/cpp-util/bitmap.h:271-276, [lfbitset<64>::flip]. *)
Definition lf64_flip (bitword i : Z) : bool * Z :=
  (negb (Z.land bitword (1 ≪ i) =? 0), Z.lxor bitword (1 ≪ i)).

(** src/cpp-util/bitmap.h:321-327, [lfbitset<64>::reset_bulk]. *)
Definition lf64_reset_bulk (bitword i n : Z) : Z :=
  if (i =? 0) && (n =? 64) then 0
  else Z.land bitword (unot 64 (ushl 64 (u64 (1 ≪ n) - 1) i)).

(** The result that says that there are not enough free bits. *)
Definition no_bits : Z := 2 ^ 64 - 1.

(** A right shift of a 64-bit word by any amount. *)
Definition shr64 (w k : Z) : Z := if k <? 64 then w ≫ k else over_shift w.

(** Program points of a call [ffs_and_set_bulk(n)]: before and at it; in the loop of
    [ffs_and_set] with the observed word; in the loop of the bulk search with its
    position and the observed word; after the return. *)
Inductive bulk_pc :=
  | BIdle
  | BStart (n : Z)
  | BOne (w : Z)
  | BMany (n idx w : Z)
  | BRet (n r : Z).

(** The result of a weak compare-and-swap of the word: the new value of the
    bitset and whether it succeeded. *)
Definition cas_word (spurious : bool) (bitword expected desired : Z) : Z * bool :=
  if (bitword =? expected) && negb spurious then (desired, true) else (bitword, false).

(** src/cpp-util/bitmap.h:277-293, [lfbitset<64>::ffs_and_set]. One iteration of its loop. *)
Definition ffs_and_set_iter (spurious : bool) (bitword w : Z) : Z * bulk_pc :=
  let idx := ffsl (unot 64 w) in
  if idx =? 0 then (bitword, BRet 1 no_bits)
  else
    let '(bitword', ok) := cas_word spurious bitword w (Z.lor w (1 ≪ (idx - 1))) in
    if ok then (bitword', BRet 1 (idx - 1)) else (bitword', BOne bitword').

(** src/cpp-util/bitmap.h:297-319, [lfbitset<64>::ffs_and_set_bulk]. One iteration of its loop.
    For [n = 63] the source computes [(1L << 63) - 1] in [long], which overflows; the value here is the one of
    wrap-around, as in [reset_bulk], which uses [1UL]. *)
Definition bulk_iter (spurious : bool) (bitword n idx w : Z) : Z * bulk_pc :=
  let mask := if n =? 64 then Z.ones 64 else u64 (1 ≪ n) - 1 in
  if idx <=? 64 - n then
    let first_0 := ffsl (unot 64 w ≫ idx) in
    if first_0 =? 0 then (bitword, BRet n no_bits)
    else
      let first_1_after_0 := ffsl (shr64 w (idx + first_0)) in
      if negb (first_1_after_0 =? 0) && (first_1_after_0 <? n) then
        (bitword, BMany n (idx + (first_0 + first_1_after_0)) w)
      else if 64 - n <? idx + first_0 - 1 then (bitword, BRet n no_bits)
      else
        let '(bitword', ok) :=
          cas_word spurious bitword w (Z.lor w (ushl 64 mask (idx + first_0 - 1))) in
        if ok then (bitword', BRet n (idx + first_0 - 1)) else (bitword', BMany n 0 bitword')
  else (bitword, BRet n no_bits).

(** src/cpp-util/bitmap.h:297-300, [lfbitset<64>::ffs_and_set_bulk]. A step of a call: the dispatch on
    [n] with the first load of the word, then the iterations of the loops. *)
Definition bulk_step (spurious : bool) (bitword : Z) (pc : bulk_pc) : Z * bulk_pc :=
  match pc with
  | BIdle => (bitword, BIdle)
  | BStart n => (bitword, if n =? 1 then BOne bitword else BMany n 0 bitword)
  | BOne w => ffs_and_set_iter spurious bitword w
  | BMany n idx w => bulk_iter spurious bitword n idx w
  | BRet n r => (bitword, BRet n r)
  end.

(** src/cpp-util/bitmap.h:297-319, [lfbitset<64>::ffs_and_set_bulk]. A call without interference. *)
Fixpoint bulk_run (fuel : nat) (bitword : Z) (pc : bulk_pc) : option (Z * Z) :=
  match fuel with
  | O => None
  | S fuel' =>
      match bulk_step false bitword pc with
      | (bitword', BRet _ r) => Some (bitword', r)
      | (bitword', pc') => bulk_run fuel' bitword' pc'
      end
  end.
Definition ffs_and_set_bulk (bitword n : Z) : option (Z * Z) := bulk_run 67 bitword (BStart n).

(** ** Runs of clear bits *)

Definition word_ok (w : Z) : Prop := 0 ≤ w < 2 ^ 64.

Definition clear_run (w r n : Z) : Prop :=
  0 ≤ r ∧ r + n ≤ 64 ∧ ∀ j, r ≤ j < r + n → Z.testbit w j = false.

(** [w'] is [w] with the bits [r .. r+n-1] set. *)
Definition takes (w w' r n : Z) : Prop :=
  word_ok w' ∧
  ∀ j, 0 ≤ j < 64 → Z.testbit w' j = Z.testbit w j || ((r <=? j) && (j <? r + n)).

(** No run of [n] clear bits starts below [k]. *)
Definition no_run_below (w n k : Z) : Prop := ∀ r, r < k → ¬ clear_run w r n.

Lemma ffsl_from x k :
  0 ≤ x → 0 ≤ k →
  (ffsl (x ≫ k) = 0 ∧ ∀ j, k ≤ j → Z.testbit x j = false) ∨
  (1 ≤ ffsl (x ≫ k) ∧ Z.testbit x (k + ffsl (x ≫ k) - 1) = true ∧
   ∀ j, k ≤ j < k + ffsl (x ≫ k) - 1 → Z.testbit x j = false).
Proof.
  intros Hx Hk. assert (Hs : 0 ≤ x ≫ k) by (by apply Z.shiftr_nonneg).
  assert (Hb : ∀ j, k ≤ j → Z.testbit x j = Z.testbit (x ≫ k) (j - k)).
  { intros j Hj. rewrite Z.shiftr_spec by lia. f_equal. lia. }
  destruct (decide (x ≫ k = 0)) as [Hz|Hnz].
  - left. split; [by rewrite Hz|]. intros j Hj. rewrite Hb, Hz by lia. apply Z.testbit_0_l.
  - right. destruct (ffsl_spec (x ≫ k)) as (H1 & H2 & H3); [lia|]. split; [done|]. split.
    + rewrite Hb by lia. rewrite <-H2. f_equal. lia.
    + intros j Hj. rewrite Hb by lia. apply H3. lia.
Qed.

Lemma first_clear w idx :
  word_ok w → 0 ≤ idx →
  let f := ffsl (unot 64 w ≫ idx) in
  (f = 0 ∧ ∀ j, idx ≤ j < 64 → Z.testbit w j = true) ∨
  (1 ≤ f ∧ idx + f ≤ 64 ∧ Z.testbit w (idx + f - 1) = false ∧
   ∀ j, idx ≤ j < idx + f - 1 → Z.testbit w j = true).
Proof.
  intros Hw Hi f. pose proof (unot_range 64 w ltac:(lia) Hw) as Hn.
  assert (Hbit : ∀ j, 0 ≤ j < 64 → Z.testbit w j = negb (Z.testbit (unot 64 w) j)).
  { intros j Hj. rewrite testbit_unot by lia. rewrite (proj2 (Z.ltb_lt _ _)) by lia.
    by destruct (Z.testbit w j). }
  destruct (ffsl_from (unot 64 w) idx) as [[H1 H2]|(H1 & H2 & H3)]; [lia..| |].
  - left. split; [done|]. intros j Hj. rewrite Hbit, H2 by lia. done.
  - right. fold f in H1, H2, H3. assert (idx + f ≤ 64).
    { destruct (Z.leb_spec (idx + f) 64); [done|].
      rewrite (testbit_small (unot 64 w) 64) in H2 by lia. done. }
    split; [done|]. split; [done|]. split.
    + rewrite Hbit, H2 by lia. done.
    + intros j Hj. rewrite Hbit, H3 by lia. done.
Qed.

Lemma mask_bits n r j :
  0 ≤ r → 1 ≤ n ≤ 64 → 0 ≤ j < 64 →
  Z.testbit (ushl 64 (if n =? 64 then Z.ones 64 else u64 (1 ≪ n) - 1) r) j =
    (r <=? j) && (j <? r + n).
Proof.
  intros Hr Hn Hj.
  assert ((if n =? 64 then Z.ones 64 else u64 (1 ≪ n) - 1) = Z.ones n) as ->.
  { destruct (Z.eqb_spec n 64) as [->|]; [done|].
    rewrite uwrap_small by (apply pow2_lt; lia).
    by rewrite Z.shiftl_1_l, Z.sub_1_r, <-Z.ones_equiv. }
  unfold ushl. rewrite testbit_uwrap, (proj2 (Z.ltb_lt j 64)), andb_true_l by lia.
  rewrite Z.shiftl_spec by lia. destruct (Z.leb_spec r j), (Z.ltb_spec j (r + n)); simpl.
  - apply Z.ones_spec_low. lia.
  - apply Z.ones_spec_high. lia.
  - apply Z.testbit_neg_r. lia.
  - apply Z.testbit_neg_r. lia.
Qed.

Lemma takes_mask w r n :
  word_ok w → 0 ≤ r → 1 ≤ n ≤ 64 →
  takes w (Z.lor w (ushl 64 (if n =? 64 then Z.ones 64 else u64 (1 ≪ n) - 1) r)) r n.
Proof.
  intros Hw Hr Hn. split.
  - apply lor_range; [lia|done|]. apply uwrap_range. lia.
  - intros j Hj. by rewrite Z.lor_spec, mask_bits by lia.
Qed.

Lemma takes_bit w r : word_ok w → 0 ≤ r < 64 → takes w (Z.lor w (1 ≪ r)) r 1.
Proof.
  intros Hw Hr. split; [apply lor_range; [lia|done|by apply pow2_lt]|].
  intros j Hj. rewrite testbit_set by lia. f_equal. bool_cases; done.
Qed.

(** What one step of the bulk search does: it gives up because the observed word
    has no run; or moves past positions where no run starts; or starts again with
    the current word after a failed CAS; or takes a run. *)
Inductive bulk_effect (sp : bool) (bw n idx w : Z) : Z * bulk_pc → Prop :=
  | BE_none : (∀ r, ¬ clear_run w r n) → bulk_effect sp bw n idx w (bw, BRet n no_bits)
  | BE_next idx' : idx ≤ 64 - n → idx < idx' → no_run_below w n idx' →
      bulk_effect sp bw n idx w (bw, BMany n idx' w)
  | BE_retry : sp = true ∨ bw ≠ w → bulk_effect sp bw n idx w (bw, BMany n 0 bw)
  | BE_take r bw' : bw = w → clear_run w r n → takes w bw' r n →
      bulk_effect sp bw n idx w (bw', BRet n r).

(** A set bit at [j] rules out the runs that contain it. *)
Lemma run_avoids w r n j : clear_run w r n → Z.testbit w j = true → r ≤ j < r + n → False.
Proof. intros (_ & _ & H) Hj Hr. by rewrite H in Hj. Qed.

Lemma no_run_extend w n k k' :
  no_run_below w n k →
  (∀ r, k ≤ r < k' → clear_run w r n → ∃ j, r ≤ j < r + n ∧ Z.testbit w j = true) →
  no_run_below w n k'.
Proof.
  intros H1 H2 r Hr Hc. destruct (Z.ltb_spec r k); [by apply (H1 r)|].
  destruct (H2 r) as (j & Hj & Ht); [lia|done|]. by apply (run_avoids w r n j).
Qed.

Lemma bulk_iter_effect sp bw n idx w :
  word_ok w → 2 ≤ n ≤ 64 → 0 ≤ idx → no_run_below w n idx →
  bulk_effect sp bw n idx w (bulk_iter sp bw n idx w).
Proof.
  intros Hw Hn Hi Hno. unfold bulk_iter.
  destruct (Z.leb_spec idx (64 - n)) as [Hle|Hgt].
  2: { apply BE_none. intros r Hr. apply (Hno r); [|done]. destruct Hr. lia. }
  destruct (first_clear w idx Hw Hi) as [[-> Hall]|(Hf & Hf64 & Hclr & Hset)].
  { apply BE_none. intros r Hr. destruct (Z.ltb_spec r idx); [by apply (Hno r)|].
    apply (run_avoids w r n r Hr); [apply Hall; destruct Hr; lia|lia]. }
  set (f0 := ffsl (unot 64 w ≫ idx)) in *. rewrite (proj2 (Z.eqb_neq f0 0)) by lia.
  assert (Hskip : no_run_below w n (idx + f0 - 1)).
  { apply (no_run_extend w n idx); [done|]. intros r Hr _. exists r.
    split; [lia|apply Hset; lia]. }
  set (f1 := ffsl (shr64 w (idx + f0))).
  assert (Hf1 : idx + f0 < 64 →
    (f1 = 0 ∧ ∀ j, idx + f0 ≤ j → Z.testbit w j = false) ∨
    (1 ≤ f1 ∧ Z.testbit w (idx + f0 + f1 - 1) = true ∧
     ∀ j, idx + f0 ≤ j < idx + f0 + f1 - 1 → Z.testbit w j = false)).
  { intros Hlt. unfold f1, shr64. rewrite (proj2 (Z.ltb_lt _ _) Hlt).
    apply ffsl_from; [apply Hw|lia]. }
  destruct (negb (f1 =? 0) && (f1 <? n)) eqn:E1.
  - apply andb_true_iff in E1 as [H1%negb_true_iff%Z.eqb_neq H2%Z.ltb_lt].
    assert (Hf1pos : 1 ≤ f1).
    { unfold f1, ffsl in *. destruct (shr64 w (idx + f0)); [done| |done].
      apply pos_ffs_pos. }
    apply BE_next; [done|lia|]. apply (no_run_extend w n (idx + f0 - 1)); [done|].
    intros r Hr (Hr0 & Hr64 & _). destruct Hf1 as [[? _]|(_ & Hs & _)]; [lia..|].
    exists (idx + f0 + f1 - 1). split; [lia|done].
  - destruct (Z.ltb_spec (64 - n) (idx + f0 - 1)) as [Hbig|Hfit].
    { apply BE_none. intros r Hr. apply (Hskip r); [|done]. destruct Hr. lia. }
    unfold cas_word. destruct ((bw =? w) && negb sp) eqn:Ec.
    + apply andb_true_iff in Ec as [->%Z.eqb_eq _]. apply BE_take; [done| |].
      2: { apply takes_mask; [done|lia..]. }
      split; [lia|]. split; [lia|]. intros j Hj.
      destruct (Z.eqb_spec j (idx + f0 - 1)) as [->|]; [done|].
      destruct Hf1 as [[_ H]|(H1 & _ & H)]; [lia|apply H; lia|].
      apply H. apply andb_false_iff in E1 as [E1%negb_false_iff%Z.eqb_eq|E1%Z.ltb_ge]; lia.
    + apply BE_retry. apply andb_false_iff in Ec as [?%Z.eqb_neq|?%negb_false_iff]; auto.
Qed.

Lemma ffs_iter_effect sp bw w :
  word_ok w →
  (ffs_and_set_iter sp bw w = (bw, BRet 1 no_bits) ∧ ∀ r, ¬ clear_run w r 1) ∨
  (ffs_and_set_iter sp bw w = (bw, BOne bw) ∧ (sp = true ∨ bw ≠ w)) ∨
  (∃ r bw', ffs_and_set_iter sp bw w = (bw', BRet 1 r) ∧ bw = w ∧
     clear_run w r 1 ∧ takes w bw' r 1).
Proof.
  intros Hw. unfold ffs_and_set_iter.
  pose proof (first_clear w 0 Hw ltac:(lia)) as Hf. rewrite Z.shiftr_0_r in Hf.
  destruct Hf as [[-> Hall]|(Hf & Hf64 & Hclr & Hset)].
  { left. split; [done|]. intros r Hr. apply (run_avoids w r 1 r Hr); [|lia].
    destruct Hr. apply Hall. lia. }
  rewrite (proj2 (Z.eqb_neq _ 0)) by lia. unfold cas_word.
  destruct ((bw =? w) && negb sp) eqn:Ec.
  - apply andb_true_iff in Ec as [->%Z.eqb_eq _]. right; right.
    eexists _, _. split; [done|]. split; [done|]. split.
    + split; [lia|]. split; [lia|]. intros j Hj. by replace j with (0 + ffsl (unot 64 w) - 1) by lia.
    + apply takes_bit; [done|lia].
  - right; left. split; [done|].
    apply andb_false_iff in Ec as [?%Z.eqb_neq|?%negb_false_iff]; auto.
Qed.

(** ** Sequential behaviour *)

(** The outcome of an allocation of [n] bits. *)
Definition bulk_result (w n w' r : Z) : Prop :=
  (r = no_bits ∧ w' = w ∧ ∀ r', ¬ clear_run w r' n) ∨ (clear_run w r n ∧ takes w w' r n).

Lemma bulk_run_S fuel w pc :
  bulk_run (S fuel) w pc =
    match bulk_step false w pc with
    | (w', BRet _ r) => Some (w', r)
    | (w', pc') => bulk_run fuel w' pc'
    end.
Proof. done. Qed.

Lemma bulk_run_many fuel w n idx :
  word_ok w → 2 ≤ n ≤ 64 → 0 ≤ idx → no_run_below w n idx →
  65 - n - idx < Z.of_nat fuel → (0 < fuel)%nat →
  ∃ w' r, bulk_run fuel w (BMany n idx w) = Some (w', r) ∧ bulk_result w n w' r.
Proof.
  intros Hw Hn. revert idx. induction fuel as [|fuel IH]; intros idx Hi Hno Hf Hpos; [lia|].
  simpl. destruct (bulk_iter_effect false w n idx w Hw Hn Hi Hno)
    as [Hnone|idx' Hle Hlt Hno'|[?|?]|r bw' _ Hc Ht]; [| |done..|].
  - eexists _, _. split; [done|]. by left.
  - apply IH; [lia|done|lia..].
  - eexists _, _. split; [done|]. by right.
Qed.

(** [ffs_and_set_bulk(n)] of the 64-bit set terminates, and it is
    sound and complete for every [n] from 1 to 64: it returns -1 without a change
    exactly when no [n] consecutive bits are clear, and otherwise returns the start
    of [n] consecutive clear bits, which it sets, and no other bit changes.  The
    value of the shift by 64 that the search can execute does not matter. *)
Theorem ffs_and_set_bulk_complete w n :
  word_ok w → 1 ≤ n ≤ 64 →
  ∃ w' r, ffs_and_set_bulk w n = Some (w', r) ∧ bulk_result w n w' r.
Proof.
  intros Hw Hn. unfold ffs_and_set_bulk. rewrite bulk_run_S. cbn [bulk_step].
  destruct (Z.eqb_spec n 1) as [->|Hne].
  - rewrite bulk_run_S. cbn [bulk_step].
    destruct (ffs_iter_effect false w w Hw) as [[-> H]|[[_ [?|?]]|(r & w' & -> & _ & H)]];
      [|done..|]; eexists _, _; (split; [done|]); [by left|by right].
  - apply bulk_run_many; [done|lia..| |lia|lia]. intros r Hr [? _]. lia.
Qed.

(** ** Threads sharing the set *)

Record bulk_sys := mkBulk { word : Z; callers : list bulk_pc }.

Inductive bulk_event :=
  | BCall (t : nat) (n : Z)
  | BRun (t : nat) (spurious : bool)
  | BRelease (t : nat).

Definition bulk_exec (s : bulk_sys) (e : bulk_event) : bulk_sys :=
  match e with
  | BCall t n =>
      match callers s !! t with
      | Some BIdle => mkBulk (word s) (<[t := BStart n]> (callers s))
      | _ => s
      end
  | BRun t spurious =>
      match callers s !! t with
      | Some pc =>
          let '(w, pc') := bulk_step spurious (word s) pc in
          mkBulk w (<[t := pc']> (callers s))
      | None => s
      end
  | BRelease t =>
      match callers s !! t with
      | Some (BRet n r) =>
          mkBulk (if r =? no_bits then word s else lf64_reset_bulk (word s) r n)
            (<[t := BIdle]> (callers s))
      | _ => s
      end
  end.

(** A caller asks for 1 to 64 bits. *)
Definition event_ok (e : bulk_event) : Prop :=
  match e with BCall _ n => 1 ≤ n ≤ 64 | _ => True end.

(** Bit [j] is in the range that caller [t] was given and has not returned. *)
Definition bulk_owns (pc : bulk_pc) (j : Z) : Prop :=
  match pc with BRet n r => r ≠ no_bits ∧ r ≤ j < r + n | _ => False end.
Definition owns (s : bulk_sys) (t : nat) (j : Z) : Prop :=
  ∃ pc, callers s !! t = Some pc ∧ bulk_owns pc j.

Definition bulk_pc_ok (pc : bulk_pc) : Prop :=
  match pc with
  | BIdle => True
  | BStart n => 1 ≤ n ≤ 64
  | BOne w => word_ok w
  | BMany n idx w => 2 ≤ n ≤ 64 ∧ 0 ≤ idx ∧ word_ok w ∧ no_run_below w n idx
  | BRet n r => 1 ≤ n ≤ 64 ∧ (r = no_bits ∨ 0 ≤ r ∧ r + n ≤ 64)
  end.

Record bulk_inv (s : bulk_sys) : Prop := {
  bi_word : word_ok (word s);
  bi_pc : ∀ t pc, callers s !! t = Some pc → bulk_pc_ok pc;
  bi_set : ∀ t j, owns s t j → Z.testbit (word s) j = true;
  bi_excl : ∀ t1 t2 j, owns s t1 j → owns s t2 j → t1 = t2
}.

Lemma owns_range pc j : bulk_pc_ok pc → bulk_owns pc j → 0 ≤ j < 64.
Proof. destruct pc; simpl; try done. lia. Qed.

(** A step leaves the word and the owned bits alone, or takes bits that were
    clear and keeps the others. *)
Definition step_effect (w : Z) (pc : bulk_pc) (w' : Z) (pc' : bulk_pc) : Prop :=
  word_ok w' ∧ bulk_pc_ok pc' ∧
  ((w' = w ∧ ∀ j, bulk_owns pc' j → bulk_owns pc j) ∨
   ((∀ j, bulk_owns pc' j → Z.testbit w j = false ∧ Z.testbit w' j = true) ∧
    (∀ j, 0 ≤ j < 64 → Z.testbit w j = true → Z.testbit w' j = true))).

Lemma step_effect_idle w pc pc' :
  word_ok w → bulk_pc_ok pc' → (∀ j, bulk_owns pc' j → bulk_owns pc j) →
  step_effect w pc w pc'.
Proof. intros. split; [done|]. split; [done|]. by left. Qed.

Lemma step_effect_none w pc n : word_ok w → 1 ≤ n ≤ 64 → step_effect w pc w (BRet n no_bits).
Proof.
  intros Hw Hn. apply step_effect_idle; [done|simpl; auto|]. by intros j [? _].
Qed.

Lemma step_effect_take w pc n r w' :
  clear_run w r n → takes w w' r n → 1 ≤ n ≤ 64 → step_effect w pc w' (BRet n r).
Proof.
  intros (Hr & Hrn & Hclr) [Hw' Hbits] Hn. split; [done|]. split; [simpl; auto|]. right. split.
  - intros j [_ Hj]. split; [by apply Hclr|]. rewrite Hbits by lia.
    rewrite (proj2 (Z.leb_le _ _)), (proj2 (Z.ltb_lt _ _)) by lia. apply orb_true_r.
  - intros j Hj Hset. by rewrite Hbits, Hset by lia.
Qed.

Lemma no_run_below_0 w n : no_run_below w n 0.
Proof. intros r Hr [? _]. lia. Qed.

Lemma bulk_step_effect sp w pc :
  word_ok w → bulk_pc_ok pc →
  step_effect w pc (bulk_step sp w pc).1 (bulk_step sp w pc).2.
Proof.
  intros Hw Hpc. destruct pc as [|n|w0|n idx w0|n r]; simpl.
  - by apply step_effect_idle.
  - simpl in Hpc. apply step_effect_idle; [done| |by destruct (n =? 1)].
    destruct (Z.eqb_spec n 1); simpl; [done|]. repeat split; try lia; [apply Hw..|].
    apply no_run_below_0.
  - destruct (ffs_iter_effect sp w w0 Hpc)
      as [[-> _]|[[-> _]|(r & w' & -> & -> & Hc & Ht)]]; simpl.
    + by apply step_effect_none.
    + by apply step_effect_idle.
    + by apply step_effect_take.
  - destruct Hpc as (Hn & Hi & Hw0 & Hno).
    destruct (bulk_iter_effect sp w n idx w0 Hw0 Hn Hi Hno)
      as [Hnone|idx' Hle Hlt Hno'|_|r bw' -> Hc Ht]; simpl.
    + apply step_effect_none; [done|lia].
    + apply step_effect_idle; [done| |done]. simpl. auto with lia.
    + apply step_effect_idle; [done| |done]. simpl. auto using no_run_below_0 with lia.
    + apply step_effect_take; [done..|lia].
  - by apply step_effect_idle.
Qed.

Lemma owns_insert s w t pc t' j :
  (t < length (callers s))%nat →
  owns (mkBulk w (<[t := pc]> (callers s))) t' j ↔
    if decide (t = t') then bulk_owns pc j else owns s t' j.
Proof.
  intros Ht. unfold owns. simpl. destruct (decide (t = t')) as [<-|Hne].
  - rewrite list_lookup_insert_eq by done. split; [by intros (? & [= <-] & ?)|eauto].
  - by rewrite list_lookup_insert_ne.
Qed.

Lemma bulk_inv_update s w t pc :
  bulk_inv s → (t < length (callers s))%nat → word_ok w → bulk_pc_ok pc →
  (∀ j, bulk_owns pc j → Z.testbit w j = true ∧ ∀ t', t' ≠ t → ¬ owns s t' j) →
  (∀ t' j, t' ≠ t → owns s t' j → Z.testbit w j = true) →
  bulk_inv (mkBulk w (<[t := pc]> (callers s))).
Proof.
  intros [Hwf Hpc Hset Hex] Ht Hw Hok Hown Hother. split; simpl.
  - done.
  - intros t' pc'. destruct (decide (t = t')) as [<-|Hne].
    + rewrite list_lookup_insert_eq by done. by intros [= <-].
    + rewrite list_lookup_insert_ne by done. apply Hpc.
  - intros t' j. rewrite owns_insert by done. case_decide; [intros [? _]%Hown; done|].
    intros. by apply (Hother t').
  - intros t1 t2 j. rewrite !owns_insert by done.
    destruct (decide (t = t1)) as [<-|H1], (decide (t = t2)) as [<-|H2]; intros Ha1 Ha2.
    + done.
    + by destruct (proj2 (Hown j Ha1) t2 (not_eq_sym H2)).
    + by destruct (proj2 (Hown j Ha2) t1 (not_eq_sym H1)).
    + by apply (Hex t1 t2 j).
Qed.

Lemma bulk_run_inv s t sp : bulk_inv s → bulk_inv (bulk_exec s (BRun t sp)).
Proof.
  intros Hs. simpl. destruct (callers s !! t) as [pc|] eqn:Et; [|done].
  pose proof (lookup_lt_Some _ _ _ Et) as Hlt.
  pose proof (bi_pc s Hs t pc Et) as Hpc.
  pose proof (bulk_step_effect sp (word s) pc (bi_word s Hs) Hpc) as (Hw & Hpc' & Heff).
  destruct (bulk_step sp (word s) pc) as [w pc']; simpl in *.
  apply bulk_inv_update; [done..| |].
  - intros j Hj. destruct Heff as [[-> Ho]|[Ho _]].
    + assert (owns s t j) by (exists pc; eauto). split; [by apply (bi_set s Hs t)|].
      intros t' Hne Ht'. by destruct Hne, (bi_excl s Hs t' t j).
    + destruct (Ho j Hj) as [Hf Ht]. split; [done|]. intros t' _ Ht'.
      apply (bi_set s Hs) in Ht'. congruence.
  - intros t' j Hne Ht'. pose proof (bi_set s Hs t' j Ht') as Hset.
    destruct Heff as [[-> _]|[_ Hkeep]]; [done|]. apply Hkeep; [|done].
    destruct Ht' as (pc2 & Hpc2 & Hown). apply (owns_range pc2); [by apply (bi_pc s Hs t')|done].
Qed.

Lemma lf64_reset_bulk_bits w r n j :
  word_ok w → 0 ≤ r → 1 ≤ n → r + n ≤ 64 → 0 ≤ j < 64 →
  Z.testbit (lf64_reset_bulk w r n) j = Z.testbit w j && negb ((r <=? j) && (j <? r + n)).
Proof.
  intros Hw Hr Hn Hrn Hj. unfold lf64_reset_bulk.
  destruct ((r =? 0) && (n =? 64)) eqn:E.
  - apply andb_true_iff in E as [->%Z.eqb_eq ->%Z.eqb_eq]. rewrite Z.testbit_0_l.
    rewrite (proj2 (Z.leb_le _ _)), (proj2 (Z.ltb_lt _ _)) by lia. by rewrite andb_false_r.
  - assert (n ≠ 64) by (intros ->; apply andb_false_iff in E as [?%Z.eqb_neq|?]; [lia|done]).
    rewrite Z.land_spec, testbit_unot, (proj2 (Z.ltb_lt j 64)), xorb_true_r by lia.
    do 2 f_equal. pose proof (mask_bits n r j) as Hm.
    rewrite (proj2 (Z.eqb_neq n 64)) in Hm by done. apply Hm; lia.
Qed.

Lemma lf64_reset_bulk_ok w r n : word_ok w → word_ok (lf64_reset_bulk w r n).
Proof.
  intros Hw. unfold lf64_reset_bulk. destruct (_ && _); [done|]. by apply land_range_l.
Qed.

Lemma bulk_release_inv s t : bulk_inv s → bulk_inv (bulk_exec s (BRelease t)).
Proof.
  intros Hs. simpl. destruct (callers s !! t) as [[| | | |n r]|] eqn:Et; try done.
  pose proof (lookup_lt_Some _ _ _ Et) as Hlt.
  pose proof (bi_word s Hs) as Hw. pose proof (bi_pc s Hs t _ Et) as [Hn Hr].
  apply bulk_inv_update; try done.
  - destruct (r =? no_bits); [done|]. by apply lf64_reset_bulk_ok.
  - intros t' j Hne Ht'. pose proof (bi_set s Hs t' j Ht') as Hset.
    destruct (Z.eqb_spec r no_bits) as [|Hno]; [done|]. destruct Hr as [?|[Hr0 Hr64]]; [done|].
    destruct Ht' as (pc2 & Hpc2 & Hown).
    pose proof (owns_range pc2 j (bi_pc s Hs t' pc2 Hpc2) Hown).
    rewrite lf64_reset_bulk_bits, Hset by (done || lia). simpl.
    destruct ((r <=? j) && (j <? r + n)) eqn:E; [|done].
    apply andb_true_iff in E as [?%Z.leb_le ?%Z.ltb_lt].
    destruct Hne. apply (bi_excl s Hs t' t j); eexists; split; [done..| |]; [done|].
    by split.
Qed.

Lemma bulk_call_inv s t n :
  1 ≤ n ≤ 64 → bulk_inv s → bulk_inv (bulk_exec s (BCall t n)).
Proof.
  intros Hn Hs. simpl. destruct (callers s !! t) as [[| | | |]|] eqn:Et; try done.
  apply bulk_inv_update; try done.
  - by apply (lookup_lt_Some _ _ _ Et).
  - apply (bi_word s Hs).
  - intros t' j _. apply (bi_set s Hs).
Qed.

Lemma bulk_execs_inv es s :
  Forall event_ok es → bulk_inv s → bulk_inv (foldl bulk_exec s es).
Proof.
  intros Hes. revert s. induction Hes as [|e es He _ IH]; intros s Hs; [done|].
  cbn [foldl]. apply IH. destruct e;
    [by apply bulk_call_inv|by apply bulk_run_inv|by apply bulk_release_inv].
Qed.

Lemma bulk_start_inv n : bulk_inv (mkBulk lf64_new (replicate n BIdle)).
Proof.
  assert (Hno : ∀ t j, ¬ owns (mkBulk lf64_new (replicate n BIdle)) t j).
  { intros t j (pc & H & Ho). by apply lookup_replicate in H as [-> _]. }
  split; simpl; [done|..].
  - intros t pc H. by apply lookup_replicate in H as [-> _].
  - intros t j H. by destruct (Hno t j).
  - intros t1 t2 j H. by destruct (Hno t1 j).
Qed.

(** C16 [safety]. Threads that allocate ranges of bits of one shared 64-bit set
    (and return them with [reset_bulk]) never own a bit in common: under every
    interleaving of the iterations of the allocation loops, with arbitrary spurious
    CAS failures, a bit of a range that was handed out is set and belongs to one
    caller only. *)
Theorem bulk_exclusive n es :
  Forall event_ok es →
  let s := foldl bulk_exec (mkBulk lf64_new (replicate n BIdle)) es in
  (∀ t j, owns s t j → 0 ≤ j < 64 ∧ lf64_test (word s) j = true) ∧
  (∀ t1 t2 j, owns s t1 j → owns s t2 j → t1 = t2).
Proof.
  intros Hes s. pose proof (bulk_execs_inv es _ Hes (bulk_start_inv n)) as Hs. fold s in Hs.
  split; [|apply (bi_excl s Hs)]. intros t j Ho.
  assert (Hr : 0 ≤ j < 64).
  { destruct Ho as (pc & Hpc & Ho). apply (owns_range pc j); [|done]. by apply (bi_pc s Hs t). }
  split; [done|]. unfold lf64_test. rewrite land_pow2_zero by lia.
  rewrite negb_involutive. by apply (bi_set s Hs t).
Qed.
End lfbitset64.

Lemma ffs_and_set_bulk_complete_witness :
  ∃ w' r, ffs_and_set_bulk id (Z.ones 63) 2 = Some (w', r) ∧ r = no_bits ∧
    bulk_result (Z.ones 63) 2 w' r.
Proof.
  destruct (ffs_and_set_bulk_complete id (Z.ones 63) 2) as (w' & r & H1 & H2);
    [by vm_compute|lia|].
  exists w', r. split; [exact H1|]. split; [|exact H2].
  vm_compute in H1. injection H1 as _ <-. reflexivity.
Defined.

Lemma bulk_exclusive_witness :
  let s := foldl (bulk_exec id) (mkBulk lf64_new (replicate 2 BIdle))
    [BCall 0 3; BCall 1 2; BRun 0 false; BRun 1 false; BRun 1 false; BRun 0 false;
     BRun 0 false] in
  owns s 0 4 ∧ owns s 1 1 ∧ lf64_test (word s) 4 = true.
Proof.
  split; [eexists; split; [reflexivity|by vm_compute]|].
  split; [eexists; split; [reflexivity|by vm_compute]|].
  apply (bulk_exclusive id 2
    [BCall 0 3; BCall 1 2; BRun 0 false; BRun 1 false; BRun 1 false; BRun 0 false;
     BRun 0 false]) with (t := 0%nat).
  - repeat constructor; simpl; lia.
  - eexists. split; [reflexivity|by vm_compute].
Defined.
