(* ===== verification/Murmur.v ===== *)
(** * The Murmur hashes (src/cpp-util/murmur2.h and src/cpp-util/murmur3.h)

    The four hash functions over a byte array.  [None] is a read outside of the
    array.  Multi-byte loads are little-endian, as on the platforms the code is
    written for, and the length passed to the MurmurHash3 functions is not negative.  The theorems show that every function is defined exactly on the
    bytes it is given, and that no two keys of the same length that differ in one
    block have the same hash. *)

From Stdlib Require Import Znumtheory.
From S2P Require Import Prelude Slice.

(** src/cpp-util/murmur3.h:41, [getblock]. A load of [n] bytes at offset [off]. *)
Fixpoint getblock (n : nat) (data : list Z) (off : Z) : option Z :=
  match n with
  | O => Some 0
  | S n' => b ← aget data off; r ← getblock n' data (off + 1); Some (b + 256 * r)
  end.

(** ** MurmurHash2 *)

Definition m2_m : Z := 0x5bd1e995.

(** src/cpp-util/murmur2.h:14-26, [Hash]. The loop over the 4-byte blocks; it
    returns the hash state, the position and the rest of [len]. *)
Definition m2_step (h k : Z) : Z :=
  let k := u32 (k * m2_m) in
  let k := Z.lxor k (k ≫ 24) in
  let k := u32 (k * m2_m) in
  Z.lxor (u32 (h * m2_m)) k.
Fixpoint Hash_loop (fuel : nat) (data : list Z) (off len h : Z) : option (Z * Z * Z) :=
  if 4 <=? len then
    match fuel with
    | O => None
    | S fuel' =>
        k ← getblock 4 data off;
        Hash_loop fuel' data (off + 4) (len - 4) (m2_step h k)
    end
  else Some (h, off, len).

(** src/cpp-util/murmur2.h:32-34, [Hash]. The final mix. *)
Definition m2_final (h : Z) : Z :=
  let h := Z.lxor h (h ≫ 13) in
  let h := u32 (h * m2_m) in
  Z.lxor h (h ≫ 15).

(** One case of a [switch] with fall-through on the number [r] of tail bytes:
    [k ^= tail[idx] << sh] when [idx < r]. *)
Definition tail_byte (w : Z) (data : list Z) (base r idx sh k : Z) : option Z :=
  if idx <? r then b ← aget data (base + idx); Some (Z.lxor k (uwrap w (b ≪ sh)))
  else Some k.

(** src/cpp-util/murmur2.h:6-37, [Hash]. *)
Definition Hash (data : list Z) (len seed : Z) : option Z :=
  '(h, off, len) ← Hash_loop (Z.to_nat (len / 4)) data 0 len (Z.lxor seed (u32 len));
  h ← tail_byte 32 data off len 2 16 h;
  h ← tail_byte 32 data off len 1 8 h;
  h ← tail_byte 32 data off len 0 0 h;
  let h := if 1 <=? len then u32 (h * m2_m) else h in
  Some (m2_final h).

(** ** MurmurHash3 *)

(** src/cpp-util/murmur3.h:23-26, [rotl32]. *)
Definition rotl32 (x r : Z) : Z := rotl 32 x r.

(** src/cpp-util/murmur3.h:28-31, [rotl64]. *)
Definition rotl64 (x r : Z) : Z := rotl 64 x r.

(** src/cpp-util/murmur3.h:43-52, [fmix32]. *)
Definition fmix32 (h : Z) : Z :=
  let h := Z.lxor h (h ≫ 16) in
  let h := u32 (h * 0x85ebca6b) in
  let h := Z.lxor h (h ≫ 13) in
  let h := u32 (h * 0xc2b2ae35) in
  Z.lxor h (h ≫ 16).

(** src/cpp-util/murmur3.h:55-64, [fmix64]. *)
Definition fmix64 (k : Z) : Z :=
  let k := Z.lxor k (k ≫ 33) in
  let k := u64 (k * 0xff51afd7ed558ccd) in
  let k := Z.lxor k (k ≫ 33) in
  let k := u64 (k * 0xc4ceb9fe1a85ec53) in
  Z.lxor k (k ≫ 33).

(** The statement sequence [k *= a; k = ROTL(k, r); k *= b] on [w]-bit words. *)
Definition scramble (w a r b k : Z) : Z := uwrap w (rotl w (uwrap w (k * a)) r * b).

(** src/cpp-util/murmur3.h:75-76, [MurmurHash3_x86_32]. *)
Definition c1_32 : Z := 0xcc9e2d51.
Definition c2_32 : Z := 0x1b873593.

(** src/cpp-util/murmur3.h:81-92, [MurmurHash3_x86_32]. The loop [for(i = -nblocks; i; i++)];
    [blocks] is the offset of the pointer of that name. *)
Definition x86_32_step (h1 k1 : Z) : Z :=
  let h1 := Z.lxor h1 (scramble 32 c1_32 15 c2_32 k1) in
  let h1 := rotl32 h1 13 in
  u32 (u32 (h1 * 5) + 0xe6546b64).
Fixpoint x86_32_loop (fuel : nat) (data : list Z) (blocks i h1 : Z) : option Z :=
  if i =? 0 then Some h1
  else
    match fuel with
    | O => None
    | S fuel' =>
        k1 ← getblock 4 data (blocks + 4 * i);
        x86_32_loop fuel' data blocks (i + 1) (x86_32_step h1 k1)
    end.

(** src/cpp-util/murmur3.h:67-113, [MurmurHash3_x86_32]. *)
Definition MurmurHash3_x86_32 (data : list Z) (len seed : Z) : option Z :=
  let nblocks := len / 4 in
  h1 ← x86_32_loop (Z.to_nat nblocks) data (nblocks * 4) (- nblocks) seed;
  let tail := nblocks * 4 in
  let r := Z.land len 3 in
  k1 ← tail_byte 32 data tail r 2 16 0;
  k1 ← tail_byte 32 data tail r 1 8 k1;
  k1 ← tail_byte 32 data tail r 0 0 k1;
  let h1 := if 1 <=? r then Z.lxor h1 (scramble 32 c1_32 15 c2_32 k1) else h1 in
  Some (fmix32 (Z.lxor h1 (u32 len))).

(** The four words of the state of the 128-bit hash. *)
Definition st128 : Type := Z * Z * Z * Z.

(** src/cpp-util/murmur3.h:128-131, [MurmurHash3_x86_128]. *)
Definition c1_128 : Z := 0x239b961b.
Definition c2_128 : Z := 0xab0e9789.
Definition c3_128 : Z := 0x38b34ae5.
Definition c4_128 : Z := 0xa1e38b93.

(** The statement sequence [h ^= k; h = ROTL(h, r); h += x; h = h*5 + c]. *)
Definition mix (w r c h k x : Z) : Z :=
  uwrap w (uwrap w (uwrap w (rotl w (Z.lxor h k) r + x) * 5) + c).

(** src/cpp-util/murmur3.h:135-157, [MurmurHash3_x86_128]. *)
Definition x86_128_step (h : st128) (k : st128) : st128 :=
  let '(h1, h2, h3, h4) := h in
  let '(k1, k2, k3, k4) := k in
  let h1 := mix 32 19 0x561ccd1b h1 (scramble 32 c1_128 15 c2_128 k1) h2 in
  let h2 := mix 32 17 0x0bcaa747 h2 (scramble 32 c2_128 16 c3_128 k2) h3 in
  let h3 := mix 32 15 0x96cd1c35 h3 (scramble 32 c3_128 17 c4_128 k3) h4 in
  let h4 := mix 32 13 0x32ac3b17 h4 (scramble 32 c4_128 18 c1_128 k4) h1 in
  (h1, h2, h3, h4).
Fixpoint x86_128_loop (fuel : nat) (data : list Z) (blocks i : Z) (h : st128) : option st128 :=
  if i =? 0 then Some h
  else
    match fuel with
    | O => None
    | S fuel' =>
        k1 ← getblock 4 data (blocks + 4 * (i * 4 + 0));
        k2 ← getblock 4 data (blocks + 4 * (i * 4 + 1));
        k3 ← getblock 4 data (blocks + 4 * (i * 4 + 2));
        k4 ← getblock 4 data (blocks + 4 * (i * 4 + 3));
        x86_128_loop fuel' data blocks (i + 1) (x86_128_step h (k1, k2, k3, k4))
    end.

(** src/cpp-util/murmur3.h:159-187, [MurmurHash3_x86_128]. The tail: the [switch] on
    [len & 15] with its fall-through. *)
Definition x86_128_tail (data : list Z) (tail r : Z) (h : st128) : option st128 :=
  let '(h1, h2, h3, h4) := h in
  k4 ← tail_byte 32 data tail r 14 16 0;
  k4 ← tail_byte 32 data tail r 13 8 k4;
  k4 ← tail_byte 32 data tail r 12 0 k4;
  let h4 := if 13 <=? r then Z.lxor h4 (scramble 32 c4_128 18 c1_128 k4) else h4 in
  k3 ← tail_byte 32 data tail r 11 24 0;
  k3 ← tail_byte 32 data tail r 10 16 k3;
  k3 ← tail_byte 32 data tail r 9 8 k3;
  k3 ← tail_byte 32 data tail r 8 0 k3;
  let h3 := if 9 <=? r then Z.lxor h3 (scramble 32 c3_128 17 c4_128 k3) else h3 in
  k2 ← tail_byte 32 data tail r 7 24 0;
  k2 ← tail_byte 32 data tail r 6 16 k2;
  k2 ← tail_byte 32 data tail r 5 8 k2;
  k2 ← tail_byte 32 data tail r 4 0 k2;
  let h2 := if 5 <=? r then Z.lxor h2 (scramble 32 c2_128 16 c3_128 k2) else h2 in
  k1 ← tail_byte 32 data tail r 3 24 0;
  k1 ← tail_byte 32 data tail r 2 16 k1;
  k1 ← tail_byte 32 data tail r 1 8 k1;
  k1 ← tail_byte 32 data tail r 0 0 k1;
  let h1 := if 1 <=? r then Z.lxor h1 (scramble 32 c1_128 15 c2_128 k1) else h1 in
  Some (h1, h2, h3, h4).

(** src/cpp-util/murmur3.h:191-192, [MurmurHash3_x86_128]. *)
Definition x86_128_cross (h : st128) : st128 :=
  let '(h1, h2, h3, h4) := h in
  let h1 := u32 (h1 + h2) in
  let h1 := u32 (h1 + h3) in
  let h1 := u32 (h1 + h4) in
  (h1, u32 (h2 + h1), u32 (h3 + h1), u32 (h4 + h1)).

(** src/cpp-util/murmur3.h:189-200, [MurmurHash3_x86_128]. *)
Definition x86_128_final (len : Z) (h : st128) : st128 :=
  let '(h1, h2, h3, h4) := h in
  let l := u32 len in
  let '(h1, h2, h3, h4) :=
    x86_128_cross (Z.lxor h1 l, Z.lxor h2 l, Z.lxor h3 l, Z.lxor h4 l) in
  x86_128_cross (fmix32 h1, fmix32 h2, fmix32 h3, fmix32 h4).

(** src/cpp-util/murmur3.h:116-206, [MurmurHash3_x86_128]. The four words written to [out]. *)
Definition MurmurHash3_x86_128 (data : list Z) (len seed : Z) : option st128 :=
  let nblocks := len / 16 in
  h ← x86_128_loop (Z.to_nat nblocks) data (nblocks * 16) (- nblocks) (seed, seed, seed, seed);
  h ← x86_128_tail data (nblocks * 16) (Z.land len 15) h;
  Some (x86_128_final len h).

(** src/cpp-util/murmur3.h:219-220, [MurmurHash3_x64_128]. *)
Definition c1_64 : Z := 0x87c37b91114253d5.
Definition c2_64 : Z := 0x4cf5ad432745937f.

(** src/cpp-util/murmur3.h:224-236, [MurmurHash3_x64_128]. *)
Definition x64_128_step (h : Z * Z) (k : Z * Z) : Z * Z :=
  let '(h1, h2) := h in
  let '(k1, k2) := k in
  let h1 := mix 64 27 0x52dce729 h1 (scramble 64 c1_64 31 c2_64 k1) h2 in
  let h2 := mix 64 31 0x38495ab5 h2 (scramble 64 c2_64 33 c1_64 k2) h1 in
  (h1, h2).
Fixpoint x64_128_loop (fuel : nat) (data : list Z) (nblocks i : Z) (h : Z * Z) :
    option (Z * Z) :=
  if i <? nblocks then
    match fuel with
    | O => None
    | S fuel' =>
        k1 ← getblock 8 data (8 * (i * 2 + 0));
        k2 ← getblock 8 data (8 * (i * 2 + 1));
        x64_128_loop fuel' data nblocks (i + 1) (x64_128_step h (k1, k2))
    end
  else Some h.

(** src/cpp-util/murmur3.h:238-263, [MurmurHash3_x64_128]. *)
Definition x64_128_tail (data : list Z) (tail r : Z) (h : Z * Z) : option (Z * Z) :=
  let '(h1, h2) := h in
  k2 ← tail_byte 64 data tail r 14 48 0;
  k2 ← tail_byte 64 data tail r 13 40 k2;
  k2 ← tail_byte 64 data tail r 12 32 k2;
  k2 ← tail_byte 64 data tail r 11 24 k2;
  k2 ← tail_byte 64 data tail r 10 16 k2;
  k2 ← tail_byte 64 data tail r 9 8 k2;
  k2 ← tail_byte 64 data tail r 8 0 k2;
  let h2 := if 9 <=? r then Z.lxor h2 (scramble 64 c2_64 33 c1_64 k2) else h2 in
  k1 ← tail_byte 64 data tail r 7 56 0;
  k1 ← tail_byte 64 data tail r 6 48 k1;
  k1 ← tail_byte 64 data tail r 5 40 k1;
  k1 ← tail_byte 64 data tail r 4 32 k1;
  k1 ← tail_byte 64 data tail r 3 24 k1;
  k1 ← tail_byte 64 data tail r 2 16 k1;
  k1 ← tail_byte 64 data tail r 1 8 k1;
  k1 ← tail_byte 64 data tail r 0 0 k1;
  let h1 := if 1 <=? r then Z.lxor h1 (scramble 64 c1_64 31 c2_64 k1) else h1 in
  Some (h1, h2).

(** src/cpp-util/murmur3.h:265-274, [MurmurHash3_x64_128]. *)
Definition x64_128_final (len : Z) (h : Z * Z) : Z * Z :=
  let '(h1, h2) := h in
  let h1 := Z.lxor h1 (u64 len) in
  let h2 := Z.lxor h2 (u64 len) in
  let h1 := u64 (h1 + h2) in
  let h2 := u64 (h2 + h1) in
  let h1 := fmix64 h1 in
  let h2 := fmix64 h2 in
  let h1 := u64 (h1 + h2) in
  let h2 := u64 (h2 + h1) in
  (h1, h2).

(** src/cpp-util/murmur3.h:209-278, [MurmurHash3_x64_128]. *)
Definition MurmurHash3_x64_128 (data : list Z) (len seed : Z) : option (Z * Z) :=
  let nblocks := len / 16 in
  h ← x64_128_loop (Z.to_nat nblocks) data nblocks 0 (seed, seed);
  h ← x64_128_tail data (nblocks * 16) (Z.land len 15) h;
  Some (x64_128_final len h).

(** ** Mixing functions are injective *)

Definition inj_on (w : Z) (f : Z → Z) : Prop :=
  ∀ x y, uint_ok w x → uint_ok w y → f x = f y → x = y.

Lemma xorshift_inj w r : 0 < r → inj_on w (λ x, Z.lxor x (x ≫ r)).
Proof.
  intros Hr x y Hx Hy H. apply Z.lxor_eq.
  assert (Hd : Z.lxor x y = Z.lxor x y ≫ r).
  { apply Z.bits_inj'. intros i Hi. apply (f_equal (λ z, Z.testbit z i)) in H.
    rewrite !Z.lxor_spec, !Z.shiftr_spec in H by lia.
    rewrite Z.shiftr_spec, !Z.lxor_spec by lia.
    by destruct (Z.testbit x i), (Z.testbit y i), (Z.testbit x (i + r)), (Z.testbit y (i + r)). }
  assert (0 ≤ Z.lxor x y) by (apply Z.lxor_nonneg; unfold uint_ok in *; lia).
  destruct (decide (Z.lxor x y = 0)) as [|Hne]; [done|].
  rewrite Z.shiftr_div_pow2 in Hd by lia.
  pose proof (Z.div_lt (Z.lxor x y) (2 ^ r) ltac:(lia)) as Hlt.
  pose proof (Z.pow_gt_1 2 r ltac:(lia)). lia.
Qed.

Lemma xorshift_ok w r x : 0 ≤ w → 0 ≤ r → uint_ok w x → uint_ok w (Z.lxor x (x ≫ r)).
Proof. intros. apply lxor_range; [done..|]. by apply shiftr_range. Qed.

(** Multiplication by an odd constant. *)
Lemma mul_inj w m : 0 ≤ w → Z.odd m = true → inj_on w (λ x, uwrap w (x * m)).
Proof.
  intros Hw Hm x y Hx Hy H. unfold uwrap, uint_ok in *.
  assert (Hdiv : (2 ^ w | m * (x - y))).
  { apply Z.mod_divide; [lia|]. replace (m * (x - y)) with (x * m - y * m) by ring.
    by rewrite Zminus_mod, H, Z.sub_diag. }
  apply Z.gauss in Hdiv.
  - destruct Hdiv as [q Hq]. assert (q = 0) by nia. lia.
  - apply Z.coprime_pow_l; [done|]. unfold Z.coprime.
    rewrite (Z.div2_odd m), Hm, Z.add_comm, Z.mul_comm.
    by rewrite Z.gcd_add_mult_diag_r.
Qed.

Lemma testbit_rotl w x r i :
  0 < r < w → uint_ok w x → 0 ≤ i < w →
  Z.testbit (rotl w x r) i = Z.testbit x (if r <=? i then i - r else i + w - r).
Proof.
  intros Hr Hx Hi. unfold rotl, ushl. rewrite Z.lor_spec, testbit_uwrap by lia.
  rewrite (proj2 (Z.ltb_lt i w)), andb_true_l, Z.shiftl_spec, Z.shiftr_spec by lia.
  destruct (Z.leb_spec r i).
  - rewrite (testbit_small x w (i + (w - r))), orb_false_r by (done || lia). done.
  - rewrite Z.testbit_neg_r, orb_false_l by lia. f_equal. lia.
Qed.

Lemma rotl_inj w r : 0 < r < w → inj_on w (λ x, rotl w x r).
Proof.
  intros Hr x y Hx Hy H. apply Z.bits_inj'. intros i Hi.
  destruct (Z.ltb_spec i w).
  2: { by rewrite (testbit_small x w), (testbit_small y w) by (done || lia). }
  set (j := if i + r <? w then i + r else i + r - w).
  apply (f_equal (λ z, Z.testbit z j)) in H.
  rewrite !testbit_rotl in H by (try done; unfold j; bool_cases).
  assert ((if r <=? j then j - r else j + w - r) = i) as Hj by (unfold j; bool_cases).
  by rewrite Hj in H.
Qed.

Lemma rotl_ok w r x : 0 ≤ r ≤ w → uint_ok w x → uint_ok w (rotl w x r).
Proof.
  intros Hr Hx. apply lor_range; [lia|apply uwrap_range; lia|by apply shiftr_range; [lia|]].
Qed.

Lemma lxor_inj_l k x y : Z.lxor x k = Z.lxor y k → x = y.
Proof.
  intros H. rewrite <-(Z.lxor_0_r x), <-(Z.lxor_0_r y), <-(Z.lxor_nilpotent k).
  by rewrite <-!Z.lxor_assoc, H.
Qed.

Lemma lxor_inj_r k x y : Z.lxor k x = Z.lxor k y → x = y.
Proof. rewrite !(Z.lxor_comm k). apply lxor_inj_l. Qed.

Lemma add_inj w c : inj_on w (λ x, uwrap w (x + c)).
Proof.
  intros x y Hx Hy H. unfold uwrap, uint_ok in *.
  assert (Hz : ∀ z, 0 ≤ z < 2 ^ w → ((z + c) mod 2 ^ w - c) mod 2 ^ w = z).
  { intros z Hz. rewrite Zminus_mod_idemp_l. replace (z + c - c) with z by lia.
    by apply Z.mod_small. }
  by rewrite <-(Hz x Hx), <-(Hz y Hy), H.
Qed.

Lemma uwrap_ok w x : 0 ≤ w → uint_ok w (uwrap w x).
Proof. apply uwrap_range. Qed.

Lemma lxor_ok w x y : 0 ≤ w → uint_ok w x → uint_ok w y → uint_ok w (Z.lxor x y).
Proof. apply lxor_range. Qed.

Create HintDb mix.
#[export] Hint Resolve xorshift_ok rotl_ok uwrap_ok lxor_ok : mix.
#[export] Hint Extern 1 (_ ≤ _) => lia : mix.
#[export] Hint Extern 1 (_ < _) => lia : mix.
#[export] Hint Extern 1 (_ ≤ _ ∧ _) => lia : mix.

(** ** Finalisers *)

Lemma fmix32_inj : inj_on 32 fmix32.
Proof.
  intros x y Hx Hy H. unfold fmix32 in H.
  apply (xorshift_inj 32 16) in H; [|lia|auto with mix..].
  apply (mul_inj 32) in H; [|done..|auto with mix|auto with mix].
  apply (xorshift_inj 32 13) in H; [|lia|auto with mix..].
  apply (mul_inj 32) in H; [|done..|auto with mix|auto with mix].
  apply (xorshift_inj 32 16) in H; [done|lia|auto with mix..].
Qed.

Lemma fmix32_ok x : uint_ok 32 x → uint_ok 32 (fmix32 x).
Proof. intros. unfold fmix32. auto with mix. Qed.

Lemma fmix64_inj : inj_on 64 fmix64.
Proof.
  intros x y Hx Hy H. unfold fmix64 in H.
  apply (xorshift_inj 64 33) in H; [|lia|auto with mix..].
  apply (mul_inj 64) in H; [|done..|auto with mix|auto with mix].
  apply (xorshift_inj 64 33) in H; [|lia|auto with mix..].
  apply (mul_inj 64) in H; [|done..|auto with mix|auto with mix].
  apply (xorshift_inj 64 33) in H; [done|lia|auto with mix..].
Qed.

Lemma fmix64_ok x : uint_ok 64 x → uint_ok 64 (fmix64 x).
Proof. intros. unfold fmix64. auto with mix. Qed.

Section width.
Context (w : Z) (Hw : 0 < w).

Lemma scramble_inj a r b :
  Z.odd a = true → Z.odd b = true → 0 < r < w → inj_on w (scramble w a r b).
Proof.
  intros Ha Hb Hr x y Hx Hy H. unfold scramble in H.
  apply (mul_inj w) in H; [|lia|done|auto with mix..].
  apply (rotl_inj w r) in H; [|done|auto with mix..].
  apply (mul_inj w) in H; [done|lia|done..].
Qed.

Lemma scramble_ok a r b x : uint_ok w (scramble w a r b x).
Proof. unfold scramble. auto with mix. Qed.

Lemma mix_ok r c h k x : uint_ok w (mix w r c h k x).
Proof. unfold mix. auto with mix. Qed.

(** [mix] determines [h ^ k]. *)
Lemma mix_inj r c h h' k k' x :
  0 < r < w → uint_ok w h → uint_ok w h' → uint_ok w k → uint_ok w k' →
  mix w r c h k x = mix w r c h' k' x → Z.lxor h k = Z.lxor h' k'.
Proof.
  intros Hr ? ? ? ? H. unfold mix in H.
  apply (add_inj w) in H; [|auto with mix..].
  apply (mul_inj w) in H; [|lia|done|auto with mix..].
  apply (add_inj w) in H; [|auto 8 with mix..].
  apply (rotl_inj w r) in H; [done|done|auto with mix..].
Qed.
End width.
#[export] Hint Resolve fmix32_ok fmix64_ok scramble_ok mix_ok : mix.

(** ** Hashes as folds over blocks *)

(** The value of a little-endian byte sequence. *)
Definition le_val (bs : list Z) : Z := foldr (λ b acc, b + 256 * acc) 0 bs.

Lemma getblock_app pre b post :
  getblock (length b) (pre ++ b ++ post) (Z.of_nat (length pre)) = Some (le_val b).
Proof.
  revert pre. induction b as [|x b IH]; intros pre; [done|]. cbn [length getblock].
  rewrite aget_nat, lookup_app_r, Nat.sub_diag by lia. simpl.
  specialize (IH (pre ++ [x])). rewrite length_app, <-app_assoc in IH. simpl in IH.
  rewrite Nat2Z.inj_add in IH. change (Z.of_nat 1) with 1 in IH. by rewrite IH.
Qed.

Lemma le_val_range b : bytes_ok b → 0 ≤ le_val b < 256 ^ Z.of_nat (length b).
Proof.
  induction 1 as [|x b Hx Hb IH]; [simpl; lia|]. unfold byte_ok in Hx. simpl.
  rewrite Nat2Z.inj_succ, Z.pow_succ_r by lia. lia.
Qed.

Lemma le_val_inj b b' :
  bytes_ok b → bytes_ok b' → length b = length b' → le_val b = le_val b' → b = b'.
Proof.
  intros Hb. revert b'. induction Hb as [|x b Hx Hb IH]; intros [|x' b'] Hb' Hl H; try done.
  apply Forall_cons in Hb' as [Hx' Hb']. unfold byte_ok in *. simpl in H.
  assert (x = x' ∧ le_val b = le_val b') as [-> Hv] by lia.
  f_equal. apply IH; [done| |done]. by injection Hl.
Qed.

Lemma tail_byte_app w pre t r idx sh k :
  0 ≤ idx →
  tail_byte w (pre ++ t) (Z.of_nat (length pre)) r idx sh k = tail_byte w t 0 r idx sh k.
Proof.
  intros Hi. unfold tail_byte. destruct (idx <? r); [|done].
  unfold aget. rewrite !(proj2 (Z.leb_le _ _)) by lia.
  rewrite lookup_app_r by lia. by replace (Z.to_nat (Z.of_nat (length pre) + idx) - length pre)%nat
    with (Z.to_nat (0 + idx)) by lia.
Qed.

(** Both sides read the same tail byte. *)
Ltac same_tail :=
  repeat match goal with
  | |- tail_byte ?w (?pre ++ ?t) _ ?r ?idx ?sh ?k ≫= _ = _ =>
      rewrite (tail_byte_app w pre t r idx sh k) by lia;
      destruct (tail_byte w t 0 r idx sh k); cbn [mbind option_bind]; [|done]
  end; try done.

(** A tail byte is xored into the accumulator. *)
Lemma tail_byte_shape w t r idx sh :
  0 ≤ w → 0 ≤ idx → r ≤ Z.of_nat (length t) →
  ∃ x, uint_ok w x ∧ ∀ k, tail_byte w t 0 r idx sh k = Some (Z.lxor k x).
Proof.
  intros Hw Hi Hr. unfold tail_byte. destruct (Z.ltb_spec idx r).
  - destruct (aget_is_Some t (0 + idx)) as [b ->]; [lia|]. simpl.
    exists (uwrap w (b ≪ sh)). auto with mix.
  - exists 0. split; [split; [done|apply pow2_pos; lia]|]. intros k. by rewrite Z.lxor_0_r.
Qed.

Ltac tail_bytes :=
  repeat match goal with
  | |- context [tail_byte ?w ?t 0 ?r ?idx ?sh] =>
      let x := fresh "x" in let Hx := fresh "Hx" in let E := fresh "E" in
      destruct (tail_byte_shape w t r idx sh) as (x & Hx & E); [lia..|];
      setoid_rewrite E; clear E; cbn [mbind option_bind]
  end.

(** What the four functions have in common: an initial state, a step per block, and
    a final mix that reads the tail of the key; all of them injective in the state. *)
Class BlockHash {St Out : Type} (B : nat) (hash : list Z → Z → Z → option Out) := {
  bh_ok : St → Prop;
  bh_init : Z → Z → St;
  bh_step : St → list Z → St;
  bh_fin : Z → list Z → St → option Out;
  bh_hash bs t seed :
    Forall (λ b, length b = B) bs → (length t < B)%nat →
    let len := Z.of_nat (length (concat bs ++ t)) in
    hash (concat bs ++ t) len seed = bh_fin len t (foldl bh_step (bh_init len seed) bs);
  bh_init_ok len seed : uint_ok 32 seed → bh_ok (bh_init len seed);
  bh_step_ok h b : bh_ok h → length b = B → bytes_ok b → bh_ok (bh_step h b);
  bh_step_state h h' b :
    bh_ok h → bh_ok h' → length b = B → bytes_ok b → bh_step h b = bh_step h' b → h = h';
  bh_step_block h b b' :
    bh_ok h → length b = B → length b' = B → bytes_ok b → bytes_ok b' →
    bh_step h b = bh_step h b' → b = b';
  bh_fin_total t h len :
    bh_ok h → (length t < B)%nat → len mod Z.of_nat B = Z.of_nat (length t) →
    is_Some (bh_fin len t h);
  bh_fin_inj t h h' len :
    bh_ok h → bh_ok h' → (length t < B)%nat → len mod Z.of_nat B = Z.of_nat (length t) →
    bh_fin len t h = bh_fin len t h' → h = h'
}.

Section blockhash.
Context {St Out : Type} (B : nat) (hash : list Z → Z → Z → option Out).
Context `{!BlockHash (St:=St) B hash}.

Definition block (b : list Z) : Prop := length b = B ∧ bytes_ok b.

Lemma bh_fold_ok h bs : bh_ok h → Forall block bs → bh_ok (foldl bh_step h bs).
Proof.
  intros Hh Hbs. revert h Hh. induction Hbs as [|b bs [Hl Hb] _ IH]; intros h Hh; [done|].
  simpl. apply IH. by apply bh_step_ok.
Qed.

Lemma bh_fold_inj h h' bs :
  bh_ok h → bh_ok h' → Forall block bs → foldl bh_step h bs = foldl bh_step h' bs → h = h'.
Proof.
  intros Hh Hh' Hbs. revert h h' Hh Hh'.
  induction Hbs as [|b bs [Hl Hb] _ IH]; intros h h' Hh Hh' H; [done|].
  simpl in H. apply IH in H; [|by apply bh_step_ok..]. by apply bh_step_state in H.
Qed.

Lemma concat_blocks_length (bs : list (list Z)) :
  Forall (λ b, length b = B) bs → length (concat bs) = (length bs * B)%nat.
Proof. induction 1 as [|b bs Hb _ IH]; [done|]. simpl. rewrite length_app. lia. Qed.

Lemma blocks_len_mod (bs : list (list Z)) (t : list Z) :
  Forall (λ b, length b = B) bs → (length t < B)%nat →
  Z.of_nat (length (concat bs ++ t)) mod Z.of_nat B = Z.of_nat (length t).
Proof.
  intros Hbs Ht. rewrite length_app, (concat_blocks_length bs Hbs).
  rewrite Nat2Z.inj_add, Nat2Z.inj_mul, Z.add_comm, Z.mod_add by lia.
  apply Z.mod_small. lia.
Qed.

Lemma blocks_lengths bs : Forall block bs → Forall (λ b, length b = B) bs.
Proof. intros H. eapply Forall_impl; [exact H|]. by intros b [? _]. Qed.

(** A key whose bytes can be read has a hash: no read is out of bounds. *)
Lemma blockhash_total bs t seed :
  Forall block bs → (length t < B)%nat → uint_ok 32 seed →
  is_Some (hash (concat bs ++ t) (Z.of_nat (length (concat bs ++ t))) seed).
Proof.
  intros Hbs Ht Hs. pose proof (blocks_lengths bs Hbs). rewrite bh_hash by done.
  apply bh_fin_total; [|done|by apply blocks_len_mod]. apply bh_fold_ok; [|done].
  by apply bh_init_ok.
Qed.

(** Keys that differ in one block have different hashes. *)
Lemma blockhash_one_block bs1 b b' bs2 t seed :
  Forall block bs1 → block b → block b' → Forall block bs2 → (length t < B)%nat →
  uint_ok 32 seed →
  let key x := concat (bs1 ++ x :: bs2) ++ t in
  hash (key b) (Z.of_nat (length (key b))) seed = hash (key b') (Z.of_nat (length (key b'))) seed →
  b = b'.
Proof.
  intros H1 Hb Hb' H2 Ht Hs key.
  assert (Hall : ∀ x, block x → Forall block (bs1 ++ x :: bs2))
    by (intros; apply Forall_app; auto).
  pose proof (blocks_lengths _ (Hall b Hb)) as Hlb.
  pose proof (blocks_lengths _ (Hall b' Hb')) as Hlb'.
  assert (Hlen : length (key b) = length (key b')).
  { unfold key. rewrite !length_app, !concat_blocks_length by done. rewrite !length_app. done. }
  unfold key in *. rewrite !bh_hash by done. rewrite Hlen.
  set (len := Z.of_nat (length (concat (bs1 ++ b' :: bs2) ++ t))). intros H.
  assert (Hi : bh_ok (bh_init len seed)) by (by apply bh_init_ok).
  assert (Hp : bh_ok (foldl bh_step (bh_init len seed) bs1)) by (by apply bh_fold_ok).
  apply bh_fin_inj in H; [|by apply bh_fold_ok; auto..|done|by apply blocks_len_mod].
  rewrite !foldl_app in H. simpl in H. destruct Hb as [Hb1 Hb2], Hb' as [Hb1' Hb2'].
  apply bh_fold_inj in H; [|by apply bh_step_ok..|done].
  by apply bh_step_block in H.
Qed.
End blockhash.

(** The offset of a block or of the tail inside a key. *)
Lemma concat_off {B : nat} (bs : list (list Z)) :
  Forall (λ b, length b = B) bs → Z.of_nat (length bs) * Z.of_nat B = Z.of_nat (length (concat bs)).
Proof. intros H. rewrite (concat_blocks_length B bs H). lia. Qed.

Lemma nblocks_eq {B : nat} (bs : list (list Z)) (t : list Z) :
  Forall (λ b, length b = B) bs → (length t < B)%nat →
  Z.of_nat (length (concat bs ++ t)) / Z.of_nat B = Z.of_nat (length bs).
Proof.
  intros Hbs Ht. rewrite length_app, (concat_blocks_length B bs Hbs).
  rewrite Nat2Z.inj_add, Nat2Z.inj_mul, Z.add_comm, Z.div_add by lia.
  rewrite Z.div_small by lia. lia.
Qed.

(** A load inside a block. *)
Lemma getblock_in n pre b post off :
  (off + n ≤ length b)%nat →
  getblock n (pre ++ b ++ post) (Z.of_nat (length pre) + Z.of_nat off) =
    Some (le_val (take n (drop off b))).
Proof.
  intros Hn.
  replace (pre ++ b ++ post)
    with ((pre ++ take off b) ++ take n (drop off b) ++ (drop n (drop off b) ++ post)).
  2: { rewrite <-(take_drop off b) at 4. rewrite <-(take_drop n (drop off b)) at 3.
       by rewrite <-!app_assoc. }
  assert (Hl : length (take n (drop off b)) = n) by (rewrite length_take, length_drop; lia).
  pose proof (getblock_app (pre ++ take off b) (take n (drop off b))
    (drop n (drop off b) ++ post)) as H.
  rewrite Hl, length_app, length_take_le, Nat2Z.inj_add in H by lia. exact H.
Qed.

(** The words of a block. *)
Definition word_at (n : nat) (off : nat) (b : list Z) : Z := le_val (take n (drop off b)).

Lemma word_at_ok n off b :
  bytes_ok b → (off + n ≤ length b)%nat → uint_ok (8 * Z.of_nat n) (word_at n off b).
Proof.
  intros Hb Hn. pose proof (le_val_range (take n (drop off b))) as Hr.
  rewrite length_take_le in Hr by (rewrite length_drop; lia).
  unfold uint_ok, word_at. rewrite Z.pow_mul_r by lia. apply Hr.
  by apply Forall_take, Forall_drop.
Qed.

Lemma word_at_inj n off b b' :
  bytes_ok b → bytes_ok b' → length b = length b' → word_at n off b = word_at n off b' →
  take n (drop off b) = take n (drop off b').
Proof.
  intros Hb Hb' Hl H. apply le_val_inj in H; [done|by apply Forall_take, Forall_drop..|].
  by rewrite !length_take, !length_drop, Hl.
Qed.

(** Every key is a sequence of blocks and a tail. *)
Lemma split_blocks B key :
  (0 < B)%nat → bytes_ok key →
  ∃ bs t, key = concat bs ++ t ∧ Forall (block B) bs ∧ (length t < B)%nat.
Proof.
  intros HB. induction key as [key IH] using (induction_ltof1 _ (@length Z)). intros Hk.
  destruct (decide (length key < B)%nat) as [Hlt|Hge].
  - by exists [], key.
  - destruct (IH (drop B key)) as (bs & t & E & Hbs & Ht).
    + unfold ltof. rewrite length_drop. lia.
    + by apply Forall_drop.
    + exists (take B key :: bs), t. split; [|split; [|done]].
      * cbn [concat]. by rewrite <-app_assoc, <-E, take_drop.
      * constructor; [|done]. split; [rewrite length_take; lia|by apply Forall_take].
Qed.

(** *** MurmurHash2 *)

Lemma Hash_loop_fold bs pre t h :
  Forall (λ b, length b = 4%nat) bs → (length t < 4)%nat →
  Hash_loop (length bs) (pre ++ concat bs ++ t) (Z.of_nat (length pre))
    (Z.of_nat (length (concat bs ++ t))) h =
  Some (foldl (λ h b, m2_step h (word_at 4 0 b)) h bs,
    Z.of_nat (length (pre ++ concat bs)), Z.of_nat (length t)).
Proof.
  intros Hbs Ht. revert pre h. induction Hbs as [|b bs Hb Hbs IH]; intros pre h.
  - simpl. rewrite app_nil_r. rewrite (proj2 (Z.leb_gt 4 _)) by lia. done.
  - cbn [length Hash_loop concat].
    rewrite (proj2 (Z.leb_le 4 _)) by (rewrite !length_app, Hb; lia).
    rewrite <-app_assoc.
    pose proof (getblock_in 4 pre b (concat bs ++ t) 0) as Hg. rewrite Z.add_0_r in Hg.
    rewrite Hg by lia. cbn [mbind option_bind foldl].
    specialize (IH (pre ++ b) (m2_step h (word_at 4 0 b))).
    rewrite <-!app_assoc, length_app, Hb, Nat2Z.inj_add in IH.
    change (Z.of_nat 4) with 4 in IH.
    replace (Z.of_nat (length (b ++ concat bs ++ t)) - 4)
      with (Z.of_nat (length (concat bs ++ t))) by (rewrite (length_app b), Hb; lia).
    exact IH.
Qed.

(** *** MurmurHash3_x86_32 *)

Lemma x86_32_loop_fold bs pre t blocks h :
  Forall (λ b, length b = 4%nat) bs →
  blocks = Z.of_nat (length pre) + 4 * Z.of_nat (length bs) →
  x86_32_loop (length bs) (pre ++ concat bs ++ t) blocks (- Z.of_nat (length bs)) h =
    Some (foldl (λ h b, x86_32_step h (word_at 4 0 b)) h bs).
Proof.
  intros Hbs. revert pre h. induction Hbs as [|b bs Hb Hbs IH]; intros pre h Hbl; [done|].
  cbn [length x86_32_loop concat]. rewrite (proj2 (Z.eqb_neq _ 0)) by lia. cbn [length] in Hbl.
  replace (blocks + 4 * - Z.of_nat (S (length bs)))
    with (Z.of_nat (length pre) + Z.of_nat 0) by lia.
  rewrite <-app_assoc, getblock_in by lia. cbn [mbind option_bind foldl].
  replace (- Z.of_nat (S (length bs)) + 1) with (- Z.of_nat (length bs)) by lia.
  specialize (IH (pre ++ b)). rewrite <-app_assoc in IH. apply IH.
  rewrite length_app, Hb. lia.
Qed.

(** *** MurmurHash3_x86_128 *)

Definition words4 (b : list Z) : st128 :=
  (word_at 4 0 b, word_at 4 4 b, word_at 4 8 b, word_at 4 12 b).

Lemma x86_128_loop_fold bs pre t blocks h :
  Forall (λ b, length b = 16%nat) bs →
  blocks = Z.of_nat (length pre) + 16 * Z.of_nat (length bs) →
  x86_128_loop (length bs) (pre ++ concat bs ++ t) blocks (- Z.of_nat (length bs)) h =
    Some (foldl (λ h b, x86_128_step h (words4 b)) h bs).
Proof.
  intros Hbs. revert pre h. induction Hbs as [|b bs Hb Hbs IH]; intros pre h Hbl; [done|].
  cbn [length x86_128_loop concat]. rewrite (proj2 (Z.eqb_neq _ 0)) by lia.
  cbn [length] in Hbl. rewrite <-app_assoc.
  assert (Hoff : ∀ (j : nat) z, z = Z.of_nat j → (j < 4)%nat →
    getblock 4 (pre ++ b ++ concat bs ++ t)
      (blocks + 4 * (- Z.of_nat (S (length bs)) * 4 + z)) =
    Some (word_at 4 (4 * j) b)).
  { intros j z -> Hj. unfold word_at. rewrite <-(getblock_in 4 pre b (concat bs ++ t)) by lia. f_equal. lia. }
  rewrite (Hoff 0%nat 0), (Hoff 1%nat 1), (Hoff 2%nat 2), (Hoff 3%nat 3) by lia.
  cbn [mbind option_bind foldl].
  replace (- Z.of_nat (S (length bs)) + 1) with (- Z.of_nat (length bs)) by lia.
  specialize (IH (pre ++ b)). rewrite <-app_assoc in IH. apply IH.
  rewrite length_app, Hb. lia.
Qed.

(** *** MurmurHash3_x64_128 *)

Definition words2 (b : list Z) : Z * Z := (word_at 8 0 b, word_at 8 8 b).

Lemma x64_128_loop_fold bs pre t nblocks i h :
  Forall (λ b, length b = 16%nat) bs →
  nblocks = i + Z.of_nat (length bs) → Z.of_nat (length pre) = 16 * i →
  x64_128_loop (length bs) (pre ++ concat bs ++ t) nblocks i h =
    Some (foldl (λ h b, x64_128_step h (words2 b)) h bs).
Proof.
  intros Hbs. revert pre i h. induction Hbs as [|b bs Hb Hbs IH]; intros pre i h Hn Hi.
  - cbn in *. by rewrite (proj2 (Z.ltb_ge _ _)) by lia.
  - cbn [length x64_128_loop concat] in *. rewrite (proj2 (Z.ltb_lt i _)) by lia.
    rewrite <-app_assoc.
    assert (Hoff : ∀ (j : nat) z, z = Z.of_nat j → (j < 2)%nat →
      getblock 8 (pre ++ b ++ concat bs ++ t) (8 * (i * 2 + z)) =
      Some (word_at 8 (8 * j) b)).
    { intros j z -> Hj. unfold word_at. rewrite <-(getblock_in 8 pre b (concat bs ++ t)) by lia. f_equal. lia. }
    rewrite (Hoff 0%nat 0), (Hoff 1%nat 1) by lia. cbn [mbind option_bind foldl].
    specialize (IH (pre ++ b) (i + 1)). rewrite <-app_assoc in IH. apply IH; [lia|].
    rewrite length_app, Hb. lia.
Qed.

(** ** The instances *)

Lemma tail_length_land (len : Z) (t : list Z) (k : Z) :
  0 ≤ k → len mod 2 ^ k = Z.of_nat (length t) → Z.land len (Z.ones k) = Z.of_nat (length t).
Proof. intros Hk H. by rewrite Z.land_ones. Qed.

Definition m2_fin (t : list Z) (h : Z) : option Z :=
  let len := Z.of_nat (length t) in
  h ← tail_byte 32 t 0 len 2 16 h;
  h ← tail_byte 32 t 0 len 1 8 h;
  h ← tail_byte 32 t 0 len 0 0 h;
  let h := if 1 <=? len then u32 (h * m2_m) else h in
  Some (m2_final h).

Lemma m2_final_inj : inj_on 32 m2_final.
Proof.
  intros x y Hx Hy H. unfold m2_final in H.
  apply (xorshift_inj 32 15) in H; [|lia|auto with mix..].
  apply (mul_inj 32) in H; [|done..|auto with mix|auto with mix].
  apply (xorshift_inj 32 13) in H; [done|lia|auto with mix..].
Qed.

Lemma m2_fin_shape t :
  ∃ x, uint_ok 32 x ∧ ∀ h, m2_fin t h = Some (m2_final
    (if 1 <=? Z.of_nat (length t) then u32 (Z.lxor h x * m2_m) else Z.lxor h x)).
Proof.
  unfold m2_fin. tail_bytes. exists (Z.lxor x (Z.lxor x0 x1)).
  split; [auto with mix|]. intros h. by rewrite !Z.lxor_assoc.
Qed.

Lemma m2_step_ok h k : uint_ok 32 (m2_step h k).
Proof. unfold m2_step. auto with mix. Qed.

Lemma m2_step_inj h h' k k' :
  uint_ok 32 h → uint_ok 32 h' → uint_ok 32 k → uint_ok 32 k' →
  m2_step h k = m2_step h' k' → (k = k' → h = h') ∧ (h = h' → k = k').
Proof.
  intros Hh Hh' Hk Hk' H. unfold m2_step in H. split; intros ->.
  - apply lxor_inj_l in H. by apply (mul_inj 32) in H.
  - apply lxor_inj_r in H. apply (mul_inj 32) in H; [|done..|auto with mix|auto with mix].
    apply (xorshift_inj 32 24) in H; [|lia|auto with mix..]. by apply (mul_inj 32) in H.
Qed.

Lemma one_word_block n b b' :
  length b = n → length b' = n → bytes_ok b → bytes_ok b' →
  word_at n 0 b = word_at n 0 b' → b = b'.
Proof.
  intros Hl Hl' Hb Hb' H. apply word_at_inj in H; [|done..|congruence].
  by rewrite !drop_0, !take_ge in H by lia.
Qed.

#[export] Instance Hash_blocks : BlockHash (St:=Z) 4 Hash.
Proof.
  refine {|
    bh_ok := uint_ok 32;
    bh_init len seed := Z.lxor seed (u32 len);
    bh_step h b := m2_step h (word_at 4 0 b);
    bh_fin _ t h := m2_fin t h |}.
  - intros bs t seed Hbs Ht len. unfold Hash, len.
    pose proof (nblocks_eq (B:=4) bs t Hbs Ht) as Hn. change (Z.of_nat 4) with 4 in Hn.
    rewrite Hn, Nat2Z.id. pose proof (Hash_loop_fold bs [] t) as Hl. cbn [app length] in Hl.
    change (Z.of_nat 0) with 0 in Hl. rewrite Hl by done. cbn [mbind option_bind].
    unfold m2_fin. same_tail.
  - intros len seed Hs. auto with mix.
  - intros. apply m2_step_ok.
  - intros h h' b Hh Hh' Hl Hb H. pose proof (word_at_ok 4 0 b Hb ltac:(lia)).
    by eapply (m2_step_inj h h' (word_at 4 0 b)).
  - intros h b b' Hh Hl Hl' Hb Hb' H.
    pose proof (word_at_ok 4 0 b Hb ltac:(lia)). pose proof (word_at_ok 4 0 b' Hb' ltac:(lia)).
    apply (one_word_block 4); [done..|]. by eapply (m2_step_inj h h).
  - intros t h len _ _ _. destruct (m2_fin_shape t) as (x & _ & ->). by eexists.
  - intros t h h' len Hh Hh' _ _. destruct (m2_fin_shape t) as (x & Hx & E). rewrite !E.
    intros [= H]. destruct (1 <=? Z.of_nat (length t)).
    + apply m2_final_inj in H; [|auto with mix..].
      apply (mul_inj 32) in H; [|done..|auto with mix|auto with mix]. by apply lxor_inj_l in H.
    + apply m2_final_inj in H; [|auto with mix..]. by apply lxor_inj_l in H.
Defined.

Definition x86_32_fin (len : Z) (t : list Z) (h1 : Z) : option Z :=
  let r := Z.of_nat (length t) in
  k1 ← tail_byte 32 t 0 r 2 16 0;
  k1 ← tail_byte 32 t 0 r 1 8 k1;
  k1 ← tail_byte 32 t 0 r 0 0 k1;
  let h1 := if 1 <=? r then Z.lxor h1 (scramble 32 c1_32 15 c2_32 k1) else h1 in
  Some (fmix32 (Z.lxor h1 (u32 len))).

(** A conditional xor is a xor. *)
Lemma cond_lxor (c : bool) h x : (if c then Z.lxor h x else h) = Z.lxor h (if c then x else 0).
Proof. destruct c; [done|by rewrite Z.lxor_0_r]. Qed.

Lemma cond_ok (c : bool) w x : 0 ≤ w → uint_ok w x → uint_ok w (if c then x else 0).
Proof. intros Hw Hx. destruct c; [done|]. split; [done|by apply pow2_pos]. Qed.
#[export] Hint Extern 2 (uint_ok _ (if _ then _ else 0)) => apply cond_ok : mix.

Lemma x86_32_fin_shape len t :
  ∃ x, uint_ok 32 x ∧ ∀ h, x86_32_fin len t h = Some (fmix32 (Z.lxor h x)).
Proof.
  unfold x86_32_fin. tail_bytes.
  setoid_rewrite cond_lxor. setoid_rewrite Z.lxor_assoc. eexists. split; [|done].
  auto with mix.
Qed.

Lemma x86_32_step_ok h k : uint_ok 32 (x86_32_step h k).
Proof. unfold x86_32_step. auto with mix. Qed.

Lemma x86_32_step_inj h h' k k' :
  uint_ok 32 h → uint_ok 32 h' → uint_ok 32 k → uint_ok 32 k' →
  x86_32_step h k = x86_32_step h' k' → (k = k' → h = h') ∧ (h = h' → k = k').
Proof.
  intros Hh Hh' Hk Hk' H. unfold x86_32_step, rotl32 in H.
  apply (add_inj 32) in H; [|auto with mix..].
  apply (mul_inj 32) in H; [|done..|auto with mix|auto with mix].
  apply (rotl_inj 32 13) in H; [|lia|auto with mix..]. split; intros ->.
  - by apply lxor_inj_l in H.
  - apply lxor_inj_r in H. by apply scramble_inj in H.
Qed.

#[export] Instance x86_32_blocks : BlockHash (St:=Z) 4 MurmurHash3_x86_32.
Proof.
  refine {|
    bh_ok := uint_ok 32;
    bh_init len seed := seed;
    bh_step h b := x86_32_step h (word_at 4 0 b);
    bh_fin len t h := x86_32_fin len t h |}.
  - intros bs t seed Hbs Ht len. unfold MurmurHash3_x86_32.
    pose proof (nblocks_eq (B:=4) bs t Hbs Ht) as Hn. change (Z.of_nat 4) with 4 in Hn.
    pose proof (blocks_len_mod 4 bs t Hbs Ht) as Hm.
    fold len in Hn, Hm. rewrite Hn, Nat2Z.id.
    pose proof (x86_32_loop_fold bs [] t (Z.of_nat (length bs) * 4)) as Hl.
    cbn [app length] in Hl. rewrite Hl by (done || lia). cbn [mbind option_bind].
    change 3 with (Z.ones 2). rewrite (tail_length_land len t 2) by (done || lia).
    change 4 with (Z.of_nat 4). rewrite (concat_off bs Hbs).
    unfold x86_32_fin. same_tail.
  - done.
  - intros. apply x86_32_step_ok.
  - intros h h' b Hh Hh' Hl Hb H. pose proof (word_at_ok 4 0 b Hb ltac:(lia)).
    by eapply (x86_32_step_inj h h' (word_at 4 0 b)).
  - intros h b b' Hh Hl Hl' Hb Hb' H.
    pose proof (word_at_ok 4 0 b Hb ltac:(lia)). pose proof (word_at_ok 4 0 b' Hb' ltac:(lia)).
    apply (one_word_block 4); [done..|]. by eapply (x86_32_step_inj h h).
  - intros t h len _ _ _. destruct (x86_32_fin_shape len t) as (x & _ & ->). by eexists.
  - intros t h h' len Hh Hh' _ _. destruct (x86_32_fin_shape len t) as (x & Hx & E).
    rewrite !E. intros [= H]. apply fmix32_inj in H; [|auto with mix..].
    by apply lxor_inj_l in H.
Defined.

Definition st_ok (h : st128) : Prop :=
  let '(h1, h2, h3, h4) := h in
  uint_ok 32 h1 ∧ uint_ok 32 h2 ∧ uint_ok 32 h3 ∧ uint_ok 32 h4.

Definition st_lxor (h x : st128) : st128 :=
  let '(h1, h2, h3, h4) := h in
  let '(x1, x2, x3, x4) := x in
  (Z.lxor h1 x1, Z.lxor h2 x2, Z.lxor h3 x3, Z.lxor h4 x4).

Lemma st_lxor_ok h x : st_ok h → st_ok x → st_ok (st_lxor h x).
Proof.
  destruct h as [[[]]], x as [[[]]]. intros (? & ? & ? & ?) (? & ? & ? & ?).
  repeat split_and?; simpl; auto with mix.
Qed.

Lemma st_lxor_inj h h' x : st_lxor h x = st_lxor h' x → h = h'.
Proof.
  destruct h as [[[]]], h' as [[[]]], x as [[[]]]. simpl.
  intros [= ->%lxor_inj_l ->%lxor_inj_l ->%lxor_inj_l ->%lxor_inj_l]. done.
Qed.

Lemma x86_128_tail_shape t :
  ∃ x, st_ok x ∧ ∀ h, x86_128_tail t 0 (Z.of_nat (length t)) h = Some (st_lxor h x).
Proof.
  cut (∃ x, st_ok x ∧ ∀ h1 h2 h3 h4,
    x86_128_tail t 0 (Z.of_nat (length t)) (h1, h2, h3, h4) = Some (st_lxor (h1, h2, h3, h4) x)).
  { intros (x & Hx & H). exists x. split; [done|]. by intros [[[]]]. }
  unfold x86_128_tail. tail_bytes.
  eexists (_, _, _, _). split; [|intros; rewrite !cond_lxor; done].
  split_and!; auto with mix.
Qed.

Lemma x86_128_tail_app pre t r h :
  x86_128_tail (pre ++ t) (Z.of_nat (length pre)) r h = x86_128_tail t 0 r h.
Proof. destruct h as [[[h1 h2] h3] h4]. unfold x86_128_tail. same_tail. Qed.

Lemma x86_128_step_ok h k : st_ok (x86_128_step h k).
Proof.
  destruct h as [[[]]], k as [[[]]]. unfold x86_128_step, st_ok. split_and!; auto with mix.
Qed.

(** The four equations of one step, undone from the last to the first. *)
Lemma x86_128_step_inj h h' k k' :
  st_ok h → st_ok h' → st_ok k → st_ok k' →
  x86_128_step h k = x86_128_step h' k' → (k = k' → h = h') ∧ (h = h' → k = k').
Proof.
  destruct h as [[[h1 h2] h3] h4], h' as [[[h1' h2'] h3'] h4'].
  destruct k as [[[k1 k2] k3] k4], k' as [[[k1' k2'] k3'] k4']. unfold x86_128_step.
  intros (? & ? & ? & ?) (? & ? & ? & ?) (? & ? & ? & ?) (? & ? & ? & ?) [= E1 E2 E3 E4].
  split; intros [= -> -> -> ->].
  - rewrite E1 in E4. apply mix_inj in E4; [|auto with mix..]. apply lxor_inj_l in E4 as ->.
    apply mix_inj in E3; [|auto with mix..]. apply lxor_inj_l in E3 as ->.
    apply mix_inj in E2; [|auto with mix..]. apply lxor_inj_l in E2 as ->.
    apply mix_inj in E1; [|auto with mix..]. by apply lxor_inj_l in E1 as ->.
  - rewrite E1 in E4.
    apply mix_inj in E1; [|auto with mix..]. apply lxor_inj_r, scramble_inj in E1; [|done..].
    apply mix_inj in E2; [|auto with mix..]. apply lxor_inj_r, scramble_inj in E2; [|done..].
    apply mix_inj in E3; [|auto with mix..]. apply lxor_inj_r, scramble_inj in E3; [|done..].
    apply mix_inj in E4; [|auto with mix..]. apply lxor_inj_r, scramble_inj in E4; [|done..].
    congruence.
Qed.

Lemma x86_128_cross_ok h : st_ok (x86_128_cross h).
Proof. destruct h as [[[]]]. unfold x86_128_cross, st_ok. split_and!; auto with mix. Qed.

Lemma x86_128_cross_inj h h' :
  st_ok h → st_ok h' → x86_128_cross h = x86_128_cross h' → h = h'.
Proof.
  destruct h as [[[h1 h2] h3] h4], h' as [[[h1' h2'] h3'] h4']. unfold x86_128_cross.
  intros (? & ? & ? & ?) (? & ? & ? & ?) [= E1 E2 E3 E4]. rewrite E1 in E2, E3, E4.
  apply (add_inj 32) in E2 as ->, E3 as ->, E4 as ->; [|done..].
  do 2 (apply (add_inj 32) in E1; [|auto with mix..]). by apply (add_inj 32) in E1 as ->.
Qed.

Lemma fmix_st_inj h h' :
  st_ok h → st_ok h' →
  (let '(a, b, c, d) := h in (fmix32 a, fmix32 b, fmix32 c, fmix32 d)) =
  (let '(a, b, c, d) := h' in (fmix32 a, fmix32 b, fmix32 c, fmix32 d)) → h = h'.
Proof.
  destruct h as [[[]]], h' as [[[]]]. intros (? & ? & ? & ?) (? & ? & ? & ?).
  intros [= E1 E2 E3 E4]. by apply fmix32_inj in E1 as ->, E2 as ->, E3 as ->, E4 as ->.
Qed.

Lemma x86_128_final_inj len h h' :
  st_ok h → st_ok h' → x86_128_final len h = x86_128_final len h' → h = h'.
Proof.
  intros Hh Hh' H. apply (st_lxor_inj h h' (u32 len, u32 len, u32 len, u32 len)).
  assert (Hl : st_ok (u32 len, u32 len, u32 len, u32 len)) by (split_and!; auto with mix).
  pose proof (st_lxor_ok h _ Hh Hl) as Hx. pose proof (st_lxor_ok h' _ Hh' Hl) as Hx'.
  destruct h as [[[h1 h2] h3] h4], h' as [[[h1' h2'] h3'] h4'].
  unfold x86_128_final, st_lxor in *. apply x86_128_cross_inj; [done..|].
  pose proof (x86_128_cross_ok (Z.lxor h1 (u32 len), Z.lxor h2 (u32 len), Z.lxor h3 (u32 len),
    Z.lxor h4 (u32 len))) as Hc.
  pose proof (x86_128_cross_ok (Z.lxor h1' (u32 len), Z.lxor h2' (u32 len), Z.lxor h3' (u32 len),
    Z.lxor h4' (u32 len))) as Hc'.
  destruct (x86_128_cross (Z.lxor h1 _, _, _, _)) as [[[a b] c] d].
  destruct (x86_128_cross (Z.lxor h1' _, _, _, _)) as [[[a' b'] c'] d'].
  apply fmix_st_inj; [done..|]. destruct Hc as (? & ? & ? & ?), Hc' as (? & ? & ? & ?).
  apply x86_128_cross_inj in H; [done|split_and!; auto with mix..].
Qed.

Lemma words4_ok b : length b = 16%nat → bytes_ok b → st_ok (words4 b).
Proof.
  intros Hl Hb. unfold words4, st_ok.
  split_and!; (apply (word_at_ok 4); [done|lia]).
Qed.

(** The chunks of a block determine it. *)
Lemma take_drop_eq (b b' : list Z) n :
  take n b = take n b' → drop n b = drop n b' → b = b'.
Proof. intros E1 E2. by rewrite <-(take_drop n b), E1, E2, take_drop. Qed.

Lemma words4_inj b b' :
  length b = 16%nat → length b' = 16%nat → bytes_ok b → bytes_ok b' →
  words4 b = words4 b' → b = b'.
Proof.
  intros Hl Hl' Hb Hb' [= E1 E2 E3 E4].
  apply word_at_inj in E1, E2, E3, E4; try (done || congruence).
  rewrite !drop_0 in E1. apply (take_drop_eq _ _ 4); [done|].
  apply (take_drop_eq _ _ 4); [done|]. rewrite !drop_drop. apply (take_drop_eq _ _ 4); [done|].
  rewrite !drop_drop. cbn [Nat.add]. rewrite !take_ge in E4 by (rewrite length_drop; lia). done.
Qed.

#[export] Instance x86_128_blocks : BlockHash (St:=st128) 16 MurmurHash3_x86_128.
Proof.
  refine {|
    bh_ok := st_ok;
    bh_init len seed := (seed, seed, seed, seed);
    bh_step h b := x86_128_step h (words4 b);
    bh_fin len t h :=
      h ← x86_128_tail t 0 (Z.of_nat (length t)) h; Some (x86_128_final len h) |}.
  - intros bs t seed Hbs Ht len. unfold MurmurHash3_x86_128.
    pose proof (nblocks_eq (B:=16) bs t Hbs Ht) as Hn. change (Z.of_nat 16) with 16 in Hn.
    pose proof (blocks_len_mod 16 bs t Hbs Ht) as Hm.
    fold len in Hn, Hm. rewrite Hn, Nat2Z.id.
    pose proof (x86_128_loop_fold bs [] t (Z.of_nat (length bs) * 16)) as Hl.
    cbn [app length] in Hl. rewrite Hl by (done || lia). cbn [mbind option_bind].
    change 15 with (Z.ones 4). rewrite (tail_length_land len t 4) by (done || lia).
    change 16 with (Z.of_nat 16). by rewrite (concat_off bs Hbs), x86_128_tail_app.
  - intros len seed Hs. unfold st_ok. tauto.
  - intros. apply x86_128_step_ok.
  - intros h h' b Hh Hh' Hl Hb H. pose proof (words4_ok b Hl Hb).
    by eapply (x86_128_step_inj h h' (words4 b)).
  - intros h b b' Hh Hl Hl' Hb Hb' H.
    pose proof (words4_ok b Hl Hb). pose proof (words4_ok b' Hl' Hb').
    apply words4_inj; [done..|]. by eapply (x86_128_step_inj h h).
  - intros t h len _ _ _. destruct (x86_128_tail_shape t) as (x & _ & ->). by eexists.
  - intros t h h' len Hh Hh' _ _. destruct (x86_128_tail_shape t) as (x & Hx & E).
    rewrite !E. cbn [mbind option_bind]. intros [= H].
    apply x86_128_final_inj in H; [|by apply st_lxor_ok..]. by apply st_lxor_inj in H.
Defined.

(** *** MurmurHash3_x64_128 *)

Definition pr_ok (h : Z * Z) : Prop := uint_ok 64 h.1 ∧ uint_ok 64 h.2.

Lemma x64_128_tail_shape t :
  ∃ x1 x2, uint_ok 64 x1 ∧ uint_ok 64 x2 ∧ ∀ h1 h2,
    x64_128_tail t 0 (Z.of_nat (length t)) (h1, h2) = Some (Z.lxor h1 x1, Z.lxor h2 x2).
Proof.
  unfold x64_128_tail. tail_bytes.
  eexists _, _. split; [|split; [|intros; rewrite !cond_lxor; done]]; auto with mix.
Qed.

Lemma x64_128_tail_app pre t r h :
  x64_128_tail (pre ++ t) (Z.of_nat (length pre)) r h = x64_128_tail t 0 r h.
Proof. destruct h as [h1 h2]. unfold x64_128_tail. same_tail. Qed.

Lemma x64_128_step_inj h h' k k' :
  pr_ok h → pr_ok h' → pr_ok k → pr_ok k' →
  x64_128_step h k = x64_128_step h' k' → (k = k' → h = h') ∧ (h = h' → k = k').
Proof.
  destruct h as [h1 h2], h' as [h1' h2'], k as [k1 k2], k' as [k1' k2'].
  intros (? & ?) (? & ?) (? & ?) (? & ?). unfold x64_128_step. simpl in *.
  intros [= E1 E2]. rewrite E1 in E2. split; intros [= -> ->].
  - apply mix_inj in E2; [|auto with mix..]. apply lxor_inj_l in E2 as ->.
    apply mix_inj in E1; [|auto with mix..]. by apply lxor_inj_l in E1 as ->.
  - apply mix_inj in E1; [|auto with mix..]. apply lxor_inj_r, scramble_inj in E1; [|done..].
    apply mix_inj in E2; [|auto with mix..]. apply lxor_inj_r, scramble_inj in E2; [|done..].
    congruence.
Qed.

Lemma x64_128_final_inj len h h' :
  pr_ok h → pr_ok h' → x64_128_final len h = x64_128_final len h' → h = h'.
Proof.
  destruct h as [h1 h2], h' as [h1' h2']. intros (? & ?) (? & ?). simpl in *.
  unfold x64_128_final. intros [= E1 E2]. rewrite E1 in E2.
  apply (add_inj 64) in E2; [|auto with mix..]. rewrite E2 in E1.
  apply (add_inj 64) in E1; [|auto with mix..].
  apply fmix64_inj in E1, E2; [|auto with mix..]. rewrite E1 in E2.
  apply (add_inj 64) in E2; [|auto with mix..]. rewrite E2 in E1.
  apply (add_inj 64) in E1; [|auto with mix..].
  by apply lxor_inj_l in E1 as ->, E2 as ->.
Qed.

Lemma words2_ok b : length b = 16%nat → bytes_ok b → pr_ok (words2 b).
Proof. intros Hl Hb. split; (apply (word_at_ok 8); [done|lia]). Qed.

Lemma words2_inj b b' :
  length b = 16%nat → length b' = 16%nat → bytes_ok b → bytes_ok b' →
  words2 b = words2 b' → b = b'.
Proof.
  intros Hl Hl' Hb Hb' [= E1 E2].
  apply word_at_inj in E1, E2; try (done || congruence).
  rewrite !drop_0 in E1. apply (take_drop_eq _ _ 8); [done|].
  rewrite !take_ge in E2 by (rewrite length_drop; lia). done.
Qed.

#[export] Instance x64_128_blocks : BlockHash (St:=Z*Z) 16 MurmurHash3_x64_128.
Proof.
  refine {|
    bh_ok := pr_ok;
    bh_init len seed := (seed, seed);
    bh_step h b := x64_128_step h (words2 b);
    bh_fin len t h :=
      h ← x64_128_tail t 0 (Z.of_nat (length t)) h; Some (x64_128_final len h) |}.
  - intros bs t seed Hbs Ht len. unfold MurmurHash3_x64_128.
    pose proof (nblocks_eq (B:=16) bs t Hbs Ht) as Hn. change (Z.of_nat 16) with 16 in Hn.
    pose proof (blocks_len_mod 16 bs t Hbs Ht) as Hm.
    fold len in Hn, Hm. rewrite Hn, Nat2Z.id.
    pose proof (x64_128_loop_fold bs [] t (Z.of_nat (length bs)) 0) as Hl.
    cbn [app length] in Hl. rewrite Hl by (done || lia). cbn [mbind option_bind].
    change 15 with (Z.ones 4). rewrite (tail_length_land len t 4) by (done || lia).
    change 16 with (Z.of_nat 16). by rewrite (concat_off bs Hbs), x64_128_tail_app.
  - intros len seed Hs. unfold pr_ok, uint_ok in *. simpl. lia.
  - intros [] b Hh Hl Hb. unfold x64_128_step, pr_ok. simpl. auto with mix.
  - intros h h' b Hh Hh' Hl Hb H. pose proof (words2_ok b Hl Hb).
    by eapply (x64_128_step_inj h h' (words2 b)).
  - intros h b b' Hh Hl Hl' Hb Hb' H.
    pose proof (words2_ok b Hl Hb). pose proof (words2_ok b' Hl' Hb').
    apply words2_inj; [done..|]. by eapply (x64_128_step_inj h h).
  - intros t [h1 h2] len _ _ _. destruct (x64_128_tail_shape t) as (x1 & x2 & _ & _ & ->).
    by eexists.
  - intros t [h1 h2] [h1' h2'] len [??] [??] _ _.
    destruct (x64_128_tail_shape t) as (x1 & x2 & ? & ? & E).
    rewrite !E. cbn [mbind option_bind]. intros Hf. apply (inj Some) in Hf.
    apply x64_128_final_inj in Hf; [|split; simpl in *; auto with mix..].
    by injection Hf as ->%lxor_inj_l ->%lxor_inj_l.
Defined.

Lemma m2_final_ok h : uint_ok 32 h → uint_ok 32 (m2_final h).
Proof. intros. unfold m2_final. auto with mix. Qed.

Lemma Hash_total key seed :
  bytes_ok key → uint_ok 32 seed →
  ∃ h, Hash key (Z.of_nat (length key)) seed = Some h ∧ uint_ok 32 h.
Proof.
  intros Hk Hs. destruct (split_blocks 4 key) as (bs & t & -> & Hbs & Ht); [lia|done|].
  rewrite (bh_hash (hash:=Hash)) by (done || by apply blocks_lengths).
  pose proof (bh_fold_ok 4 Hash _ bs
    (bh_init_ok (Z.of_nat (length (concat bs ++ t))) seed Hs) Hbs) as Hh.
  simpl in *. destruct (m2_fin_shape t) as (x & Hx & ->). eexists. split; [done|].
  apply m2_final_ok. destruct (1 <=? _); auto with mix.
Qed.

(** Each Murmur function, given a key with its length and any 32-bit
    seed, produces a hash: no load of a block or of a tail byte is outside of the
    key, whatever its length. *)
Theorem murmur_reads_in_bounds key seed :
  bytes_ok key → uint_ok 32 seed →
  let len := Z.of_nat (length key) in
  is_Some (Hash key len seed) ∧ is_Some (MurmurHash3_x86_32 key len seed) ∧
  is_Some (MurmurHash3_x86_128 key len seed) ∧ is_Some (MurmurHash3_x64_128 key len seed).
Proof.
  intros Hk Hs len.
  destruct (split_blocks 4 key) as (bs4 & t4 & E4 & H4 & Ht4); [lia|done|].
  destruct (split_blocks 16 key) as (bs16 & t16 & E16 & H16 & Ht16); [lia|done|].
  subst len. split_and!.
  - rewrite E4. by apply (blockhash_total 4 Hash).
  - rewrite E4. by apply (blockhash_total 4 MurmurHash3_x86_32).
  - rewrite E16. by apply (blockhash_total 16 MurmurHash3_x86_128).
  - rewrite E16. by apply (blockhash_total 16 MurmurHash3_x64_128).
Qed.

Lemma murmur_reads_in_bounds_witness :
  is_Some (Hash [104; 101; 108; 108; 111] 5 5381) ∧
  is_Some (MurmurHash3_x64_128 [104; 101; 108; 108; 111] 5 5381).
Proof.
  destruct (murmur_reads_in_bounds [104; 101; 108; 108; 111] 5381) as (H1 & _ & _ & H2).
  - repeat constructor; done.
  - done.
  - split; [exact H1|exact H2].
Defined.

(** Keys of equal length that differ in exactly one block (an
    aligned group of 4 bytes for the 32-bit functions, of 16 bytes for the 128-bit
    ones) never have the same hash under the same seed.  In particular the 32-bit
    functions are injective on 4-byte keys and the 128-bit ones on 16-byte keys. *)
Theorem murmur_one_block_no_collision seed :
  uint_ok 32 seed →
  let distinct {Out} B (hash : list Z → Z → Z → option Out) :=
    ∀ bs1 b b' bs2 t,
      Forall (block B) bs1 → block B b → block B b' → Forall (block B) bs2 →
      (length t < B)%nat → b ≠ b' →
      let key x := concat (bs1 ++ x :: bs2) ++ t in
      hash (key b) (Z.of_nat (length (key b))) seed ≠
      hash (key b') (Z.of_nat (length (key b'))) seed in
  distinct 4%nat Hash ∧ distinct 4%nat MurmurHash3_x86_32 ∧
  distinct 16%nat MurmurHash3_x86_128 ∧ distinct 16%nat MurmurHash3_x64_128.
Proof.
  intros Hs distinct.
  split_and!; intros bs1 b b' bs2 t H1 Hb Hb' H2 Ht Hne key E; destruct Hne.
  - by apply (blockhash_one_block 4 Hash bs1 b b' bs2 t seed).
  - by apply (blockhash_one_block 4 MurmurHash3_x86_32 bs1 b b' bs2 t seed).
  - by apply (blockhash_one_block 16 MurmurHash3_x86_128 bs1 b b' bs2 t seed).
  - by apply (blockhash_one_block 16 MurmurHash3_x64_128 bs1 b b' bs2 t seed).
Qed.

Lemma murmur_one_block_no_collision_witness :
  Hash [1; 2; 3; 4; 9] 5 5381 ≠ Hash [1; 2; 3; 5; 9] 5 5381.
Proof.
  apply (proj1 (murmur_one_block_no_collision 5381 ltac:(done)))
    with (bs1 := []) (b := [1; 2; 3; 4]) (b' := [1; 2; 3; 5]) (bs2 := []) (t := [9]);
    try done; try (split; [done|repeat constructor; done]). simpl. lia.
Defined.
