(* ===== verification/Doubles.v ===== *)
(** * IEEE double precision

    The [double] arithmetic of the sources, as the executable specification of
    binary floating point of the standard library (53 bits of precision, maximal
    exponent 1024, rounding to nearest even). *)

From Stdlib Require Export SpecFloat.
From S2P Require Import Prelude.

Definition double : Type := spec_float.

Definition dbl_of_Z (z : Z) : double := binary_normalize 53 1024 z 0 false.
Definition dmul : double → double → double := SFmul 53 1024.
Definition ddiv : double → double → double := SFdiv 53 1024.
Definition dopp : double → double := SFopp.

(** The conversion to an integer type truncates toward zero; it is undefined for
    infinities and NaN. *)
Definition dtrunc (d : double) : option Z :=
  match d with
  | S754_zero _ => Some 0
  | S754_finite s m e =>
      let a := if 0 <=? e then Zpos m * 2 ^ e else Zpos m / 2 ^ (- e) in
      Some (if s then - a else a)
  | _ => None
  end.
