(* ===== verification/BloomFilter.v ===== *)
(** * The immutable bloom filter (src/cpp-util/bloomfilter.h)

    A filter is a byte array whose last byte is the number of probes.  [None] is
    an access outside of the array. *)

From S2P Require Import Prelude Slice Murmur Doubles.

(** ** Bits of a byte array *)

(** [array[pos / 8] |= 1 << (pos % 8)] *)
Definition set_pos (array : list Z) (pos : Z) : option (list Z) :=
  b ← aget array (pos / 8); aset array (pos / 8) (Z.lor b (1 ≪ (pos mod 8))).

(** [array[pos / 8] & (1 << (pos % 8))], as a truth value. *)
Definition test_pos (array : list Z) (pos : Z) : option bool :=
  b ← aget array (pos / 8); Some (negb (Z.land b (1 ≪ (pos mod 8)) =? 0)).

(** ** The filter *)

(** src/cpp-util/bloomfilter.h:15-17, [BloomHash]. The length is passed as an [int]. *)
Definition BloomHash (key : Slice) : option Z := Hash key (s32 (size key)) 0xbc9f1d34.

(** src/cpp-util/bloomfilter.h:114-117, [BloomFilter members]. *)
Record BloomFilter := mkBF { bits_per_key_ : Z; k_ : Z }.

(** src/cpp-util/bloomfilter.h:22-29, [BloomFilter::BloomFilter]. The literal 0.69 is the double
    6214967485771284 * 2^-53. *)
Definition d069 : double := S754_finite false 6214967485771284 (-53).
Definition BloomFilter_new (bits_per_key : Z) : option BloomFilter :=
  k ← dtrunc (dmul (dbl_of_Z bits_per_key) d069);
  let k := if k <? 1 then 1 else k in
  let k := if 30 <? k then 30 else k in
  Some (mkBF (u64 bits_per_key) k).

(** src/cpp-util/bloomfilter.h:53, [BloomFilter::CreateFilter]. *)
Definition delta (h : Z) : Z := Z.lor (h ≫ 17) (ushl 32 h 15).

(** src/cpp-util/bloomfilter.h:55-59, [BloomFilter::CreateFilter]. The probe loop; [j] counts the
    remaining probes. *)
Fixpoint set_probes (j : nat) (array : list Z) (bits h d : Z) : option (list Z) :=
  match j with
  | O => Some array
  | S j' =>
      let bitpos := h mod bits in
      array ← set_pos array bitpos;
      set_probes j' array bits (u32 (h + d)) d
  end.

(** src/cpp-util/bloomfilter.h:48-60, [BloomFilter::CreateFilter]. *)
Fixpoint add_keys (keys : list Slice) (k : nat) (array : list Z) (bits : Z) : option (list Z) :=
  match keys with
  | [] => Some array
  | key :: keys' =>
      h ← BloomHash key;
      array ← set_probes k array bits h (delta h);
      add_keys keys' k array bits
  end.

(** src/cpp-util/bloomfilter.h:31-61, [BloomFilter::CreateFilter]. The new value of [dst]. *)
Definition CreateFilter (f : BloomFilter) (keys : list Slice) (dst : list Z) : option (list Z) :=
  let n := Z.of_nat (length keys) in
  let bits := u64 (n * bits_per_key_ f) in
  let bits := if bits <? 64 then 64 else bits in
  let bytes := u64 (bits + 7) / 8 in
  let bits := u64 (bytes * 8) in
  array ← add_keys keys (Z.to_nat (k_ f)) (replicate (Z.to_nat bytes) 0 ++ [u8 (k_ f)]) bits;
  Some (dst ++ array).

(** src/cpp-util/bloomfilter.h:71, [BloomFilter::SetKey]. A [char] (signed) read as a [size_t]. *)
Definition size_of_char (b : Z) : Z := u64 (s8 b).

(** src/cpp-util/bloomfilter.h:63-84, [BloomFilter::SetKey]. *)
Definition SetKey (key : Slice) (bloom_filter : list Z) : option (list Z) :=
  let len := size bloom_filter in
  if len <? 2 then Some bloom_filter
  else
    let bits := (len - 1) * 8 in
    b ← aget bloom_filter (len - 1);
    let k := size_of_char b in
    if 30 <? k then Some bloom_filter
    else
      h ← BloomHash key;
      set_probes (Z.to_nat k) bloom_filter bits h (delta h).

(** src/cpp-util/bloomfilter.h:105-111, [BloomFilter::KeyMayMatch]. *)
Fixpoint test_probes (j : nat) (array : list Z) (bits h d : Z) : option bool :=
  match j with
  | O => Some true
  | S j' =>
      let bitpos := h mod bits in
      t ← test_pos array bitpos;
      if negb t then Some false else test_probes j' array bits (u32 (h + d)) d
  end.

(** src/cpp-util/bloomfilter.h:86-112, [BloomFilter::KeyMayMatch]. *)
Definition KeyMayMatch (key : Slice) (bloom_filter : list Z) : option bool :=
  let len := size bloom_filter in
  if len <? 2 then Some false
  else
    let bits := (len - 1) * 8 in
    b ← aget bloom_filter (len - 1);
    let k := size_of_char b in
    if 30 <? k then Some true
    else
      h ← BloomHash key;
      test_probes (Z.to_nat k) bloom_filter bits h (delta h).

(** ** Facts about the bits *)

(** [a'] has every bit that [a] has, and the same length. *)
Definition bits_le (a a' : list Z) : Prop :=
  length a' = length a ∧ ∀ pos, test_pos a pos = Some true → test_pos a' pos = Some true.

#[export] Instance bits_le_preorder : PreOrder bits_le.
Proof.
  split; [by split|]. intros a b c [H1 H2] [H3 H4]. split; [congruence|auto].
Qed.

Lemma mod8_range i : 0 ≤ i mod 8 < 8.
Proof. apply Z.mod_pos_bound. lia. Qed.

Lemma test_pos_bit array pos :
  test_pos array pos = b ← aget array (pos / 8); Some (Z.testbit b (pos mod 8)).
Proof.
  unfold test_pos. destruct (aget array (pos / 8)); [|done]. simpl. pose proof (mod8_range pos).
  by rewrite land_pow2_zero, negb_involutive by lia.
Qed.

Lemma test_pos_total array pos :
  0 ≤ pos < 8 * Z.of_nat (length array) → is_Some (test_pos array pos).
Proof.
  intros Hp. rewrite test_pos_bit. destruct (aget_is_Some array (pos / 8)) as [b ->]; [|by eexists].
  split; [apply Z.div_pos; lia|apply Z.div_lt_upper_bound; lia].
Qed.

Lemma set_pos_spec array pos :
  0 ≤ pos < 8 * Z.of_nat (length array) →
  ∃ array', set_pos array pos = Some array' ∧ bits_le array array' ∧
    test_pos array' pos = Some true ∧
    (∀ i, i ≠ pos / 8 → aget array' i = aget array i).
Proof.
  intros Hp. unfold set_pos.
  assert (Hd : 0 ≤ pos / 8 < Z.of_nat (length array))
    by (split; [apply Z.div_pos; lia|apply Z.div_lt_upper_bound; lia]).
  destruct (aget_is_Some array (pos / 8) Hd) as [b Hb]. rewrite Hb. simpl.
  pose proof (aset_Some array (pos / 8) (Z.lor b (1 ≪ (pos mod 8))) Hd) as Ha.
  rewrite Ha. eexists. split; [done|]. pose proof (mod8_range pos).
  assert (Hget : ∀ i, aget (<[Z.to_nat (pos / 8):=Z.lor b (1 ≪ (pos mod 8))]> array) i =
    if decide (pos / 8 = i) then Some (Z.lor b (1 ≪ (pos mod 8))) else aget array i)
    by (intros; apply (aget_aset _ _ _ _ _ Ha)).
  split; [split; [apply (aset_length _ _ _ _ Ha)|]|split].
  - intros p. rewrite !test_pos_bit, Hget. destruct (decide (pos / 8 = p / 8)) as [He|]; [|done].
    rewrite <-He, Hb. simpl. intros [= Ht]. pose proof (mod8_range p).
    rewrite testbit_set by lia. by rewrite Ht.
  - rewrite test_pos_bit, Hget, decide_True by done. simpl.
    rewrite testbit_set by lia. by rewrite Z.eqb_refl, orb_true_r.
  - intros i Hi. by rewrite Hget, decide_False by done.
Qed.

(** ** Probes *)

Lemma test_probes_mono j a a' bits h d :
  bits_le a a' → test_probes j a bits h d = Some true → test_probes j a' bits h d = Some true.
Proof.
  intros [Hl Hle]. revert h. induction j as [|j IH]; intros h; [done|]. simpl.
  destruct (test_pos a (h mod bits)) as [[]|] eqn:E; simpl; try done.
  rewrite (Hle _ E). simpl. apply IH.
Qed.

(** Setting the probes of a hash succeeds, makes its test succeed, keeps every set
    bit and does not touch the bytes behind the bits. *)
Lemma set_probes_spec j array bits h d :
  0 < bits ≤ 8 * Z.of_nat (length array) →
  ∃ array', set_probes j array bits h d = Some array' ∧ bits_le array array' ∧
    test_probes j array' bits h d = Some true ∧
    (∀ i, bits ≤ 8 * i → aget array' i = aget array i).
Proof.
  revert array h. induction j as [|j IH]; intros array h Hb; [by exists array|].
  pose proof (Z.mod_pos_bound h bits ltac:(lia)) as Hm.
  destruct (set_pos_spec array (h mod bits)) as (a1 & H1 & Hle1 & Ht1 & Ho1); [lia|].
  destruct (IH a1 (u32 (h + d))) as (a2 & H2 & Hle2 & Ht2 & Ho2);
    [destruct Hle1 as [-> _]; lia|].
  exists a2. simpl. rewrite H1. split; [exact H2|]. split; [by transitivity a1|]. split.
  - rewrite (proj2 Hle2 _ Ht1). exact Ht2.
  - intros i Hi. rewrite Ho2, Ho1 by (done || (assert (h mod bits / 8 < i)
      by (apply Z.div_lt_upper_bound; lia); lia)). done.
Qed.

(** Keys that the hash accepts: byte strings whose length fits an [int]. *)
Definition key_ok (key : Slice) : Prop := bytes_ok key ∧ size key < 2 ^ 31.

Lemma BloomHash_total key : key_ok key → ∃ h, BloomHash key = Some h ∧ uint_ok 32 h.
Proof.
  intros [Hk Hs]. unfold BloomHash, size in *. rewrite swrap_small by lia.
  by apply Hash_total.
Qed.

Lemma add_keys_spec keys k array bits :
  Forall key_ok keys → 0 < bits ≤ 8 * Z.of_nat (length array) →
  ∃ array', add_keys keys k array bits = Some array' ∧ bits_le array array' ∧
    (∀ i, bits ≤ 8 * i → aget array' i = aget array i) ∧
    (∀ key h, key ∈ keys → BloomHash key = Some h →
       test_probes k array' bits h (delta h) = Some true).
Proof.
  intros Hk. revert array. induction Hk as [|key keys Hkey _ IH]; intros array Hb.
  { exists array. split; [done|]. split; [done|]. split; [done|]. intros. set_solver. }
  destruct (BloomHash_total key Hkey) as (h & Hh & _). simpl. rewrite Hh. simpl.
  destruct (set_probes_spec k array bits h (delta h) Hb) as (a1 & -> & Hle1 & Ht1 & Ho1).
  simpl. destruct (IH a1) as (a2 & -> & Hle2 & Ho2 & Ht2); [destruct Hle1 as [-> _]; lia|].
  exists a2. split; [done|]. split; [by transitivity a1|]. split.
  - intros i Hi. by rewrite Ho2, Ho1.
  - intros key' h' [->|Hin]%elem_of_cons Hh'; [|by apply (Ht2 key')].
    assert (h' = h) as -> by congruence. by apply (test_probes_mono _ a1).
Qed.

Lemma size_of_char_small k : 0 ≤ k ≤ 30 → size_of_char (u8 k) = k.
Proof.
  intros Hk. unfold size_of_char. rewrite (uwrap_small 8) by lia.
  rewrite swrap_small by lia. by rewrite uwrap_small by lia.
Qed.

Lemma new_k bpk f : BloomFilter_new bpk = Some f → 1 ≤ k_ f ≤ 30 ∧ bits_per_key_ f = u64 bpk.
Proof.
  unfold BloomFilter_new. destruct (dtrunc _) as [k|]; [|done]. simpl. intros [= <-]. simpl.
  split; [|done]. bool_cases; lia.
Qed.

(** C39 [functional]. No false negatives: the filter that [CreateFilter] appends to
    [dst] is written within its bounds, leaves the previous content of [dst] as it
    was, and [KeyMayMatch] answers true on it for every key it was created from. *)
Theorem CreateFilter_no_false_negatives bpk f keys dst :
  BloomFilter_new bpk = Some f → Forall key_ok keys →
  0 ≤ bpk < 2 ^ 31 → Z.of_nat (length keys) < 2 ^ 31 →
  ∃ filter, CreateFilter f keys dst = Some (dst ++ filter) ∧
    ∀ key, key ∈ keys → KeyMayMatch key filter = Some true.
Proof.
  intros Hnew Hkeys Hbpk Hsize.
  pose proof (new_k bpk f Hnew) as [Hk Hb]. unfold CreateFilter.
  set (bits0 := if _ <? 64 then 64 else _).
  assert (H0 : 64 ≤ bits0 < 2 ^ 63).
  { unfold bits0. rewrite Hb, (uwrap_small 64 bpk), uwrap_small by nia. bool_cases; nia. }
  rewrite (uwrap_small 64 (bits0 + 7)) by lia.
  set (bytes := (bits0 + 7) / 8).
  assert (Hbytes : 8 ≤ bytes < 2 ^ 61)
    by (split; [apply Z.div_le_lower_bound|apply Z.div_lt_upper_bound]; lia).
  rewrite (uwrap_small 64 (bytes * 8)) by lia.
  assert (Hlen : length (replicate (Z.to_nat bytes) 0 ++ [u8 (k_ f)]) = S (Z.to_nat bytes))
    by (rewrite length_app, length_replicate; simpl; lia).
  destruct (add_keys_spec keys (Z.to_nat (k_ f)) (replicate (Z.to_nat bytes) 0 ++ [u8 (k_ f)])
    (bytes * 8) Hkeys) as (filter & -> & [Hl _] & Ho & Ht); [rewrite Hlen; lia|].
  exists filter. split; [done|]. intros key Hin. rewrite Hlen in Hl.
  unfold KeyMayMatch, size. rewrite Hl, (proj2 (Z.ltb_ge _ 2)) by lia.
  replace (Z.of_nat (S (Z.to_nat bytes)) - 1) with bytes by lia.
  assert (Hlast : aget filter bytes = Some (u8 (k_ f))).
  { rewrite Ho by lia. rewrite <-(Z2Nat.id bytes) at 2 by lia.
    by rewrite aget_nat, lookup_app_r, length_replicate, Nat.sub_diag
      by (rewrite length_replicate; lia). }
  rewrite Hlast. cbn [mbind option_bind]. rewrite size_of_char_small by lia.
  rewrite (proj2 (Z.ltb_ge 30 _)) by lia.
  destruct (BloomHash_total key) as (h & Hh & _); [by apply (Forall_forall key_ok keys)|].
  rewrite Hh. cbn [mbind option_bind]. by apply (Ht key).
Qed.

Lemma CreateFilter_no_false_negatives_witness :
  ∃ filter, CreateFilter (mkBF 10 6) [[97]; [98; 99]] [7] = Some ([7] ++ filter) ∧
    KeyMayMatch [98; 99] filter = Some true.
Proof.
  destruct (CreateFilter_no_false_negatives 10 (mkBF 10 6) [[97]; [98; 99]] [7])
    as (filter & H1 & H2).
  - by vm_compute.
  - repeat constructor; done.
  - lia.
  - simpl. lia.
  - exists filter. split; [exact H1|]. apply H2. right. left.
Defined.

(** [SetKey] on a filter adds the key and forgets nothing: it stays
    within the array, the key matches afterwards, and so does every key that matched
    before. *)
Theorem SetKey_matches key filter :
  key_ok key → 2 ≤ size filter →
  ∃ filter', SetKey key filter = Some filter' ∧ size filter' = size filter ∧
    KeyMayMatch key filter' = Some true ∧
    ∀ key', KeyMayMatch key' filter = Some true → KeyMayMatch key' filter' = Some true.
Proof.
  intros Hkey Hs. unfold SetKey, KeyMayMatch. rewrite (proj2 (Z.ltb_ge _ _) Hs).
  destruct (aget_is_Some filter (size filter - 1)) as [b Hb]; [unfold size in *; lia|].
  rewrite Hb. cbn [mbind option_bind]. destruct (30 <? size_of_char b) eqn:E.
  { exists filter. split; [done|]. rewrite (proj2 (Z.ltb_ge _ _) Hs), Hb. simpl. by rewrite E. }
  destruct (BloomHash_total key Hkey) as (h & Hh & _). rewrite Hh. cbn [mbind option_bind].
  destruct (set_probes_spec (Z.to_nat (size_of_char b)) filter ((size filter - 1) * 8) h (delta h))
    as (f' & -> & Hle & Ht & Ho); [unfold size in *; lia|].
  assert (Hsz : size f' = size filter) by (unfold size; by rewrite (proj1 Hle)).
  exists f'. split; [done|]. split; [done|].
  rewrite Hsz, (proj2 (Z.ltb_ge _ _) Hs), Ho, Hb by lia. cbn [mbind option_bind].
  rewrite E. split; [exact Ht|]. intros key'. destruct (BloomHash key') as [h'|]; [|done].
  simpl. by apply test_probes_mono.
Qed.

Lemma SetKey_matches_witness :
  ∃ filter', SetKey [97] [0; 0; 6] = Some filter' ∧ KeyMayMatch [97] filter' = Some true.
Proof.
  destruct (SetKey_matches [97] [0; 0; 6]) as (f' & H1 & _ & H2 & _).
  - split; [repeat constructor; done|done].
  - done.
  - exists f'. split; [exact H1|exact H2].
Defined.
