(* ===== verification/Bloom.v ===== *)
(** * The growable-key bloom filter (src/cpp-util/bloom.h)

    [None] is undefined behaviour: an access outside of the data, a conversion of a
    double that does not fit, or a division by zero. *)

From S2P Require Import Prelude Slice Murmur Doubles BloomFilter.

(** src/cpp-util/bloom.h:24-29, [BloomStatus]. *)
Definition ERROR : Z := -1.
Definition OK : Z := 0.
Definition kNotExist : Z := 0.
Definition kMayExist : Z := 1.

(** src/cpp-util/bloom.h:30-38, [Bloom]. *)
Record Bloom := mkBloom {
  entries_ : Z; error_rate_ : double; total_bits_ : Z; total_bytes_ : Z;
  hashes_ : Z; bpe_ : double; data_ : list Z }.

(** src/cpp-util/bloom.h:43-47, [Bloom::Reset]. *)
Definition Reset (b : Bloom) : Bloom :=
  mkBloom (entries_ b) (error_rate_ b) (total_bits_ b) (total_bytes_ b) (hashes_ b) (bpe_ b)
    (replicate (Z.to_nat (total_bytes_ b)) 0).

(** A conversion of a double to an unsigned type of [w] bits. *)
Definition dbl_to_uint (w : Z) (d : double) : option Z :=
  z ← dtrunc d; if (0 <=? z) && (z <? 2 ^ w) then Some z else None.

Section init.
(** The mathematical library. *)
Variables (log ceil : double → double).

(** src/cpp-util/bloom.h:50-77, [Bloom::Init]. The status, and the filter when it is set up;
    [calloc_ok] says whether the allocation succeeds. *)
Definition denom : double := S754_finite false 8655072057804167 (-54).
Definition ln2 : double := S754_finite false 6243314768165356 (-53).
Definition Init (exp_entries : Z) (error_rate : double) (calloc_ok : bool) :
    option (Z * option Bloom) :=
  if (exp_entries <? 1000) || SFleb error_rate (dbl_of_Z 0) || SFleb (dbl_of_Z 1) error_rate
  then Some (ERROR, None)
  else
    let bpe := ddiv (dopp (log error_rate)) denom in
    let totalbits := dmul (dbl_of_Z exp_entries) bpe in
    total_bits ← dbl_to_uint 64 totalbits;
    let total_bytes :=
      if negb (total_bits mod 8 =? 0) then total_bits / 8 + 1 else total_bits / 8 in
    hashes ← dbl_to_uint 8 (ceil (dmul ln2 bpe));
    if negb calloc_ok then Some (ERROR, None)
    else Some (OK, Some (mkBloom exp_entries error_rate total_bits total_bytes hashes bpe
                           (replicate (Z.to_nat total_bytes) 0))).
End init.

(** src/cpp-util/bloom.h:5-23, [test_bit_set_bit]. The result and the new buffer. *)
Definition test_bit_set_bit (buf : list Z) (bitno : Z) (is_set : bool) : option (bool * list Z) :=
  let byte := bitno ≫ 3 in
  c ← aget buf byte;
  let mask := u8 (1 ≪ (bitno mod 8)) in
  if negb (Z.land c mask =? 0) then Some (true, buf)
  else if is_set then buf' ← aset buf byte (Z.lor c mask); Some (false, buf')
  else Some (false, buf).

(** src/cpp-util/bloom.h:86-104, [Bloom::CheckAdd]. The loop from [i] with [count] iterations
    left; it returns the status and the data. *)
Fixpoint CheckAdd_loop (count : nat) (total_bits a b i hits hashes : Z) (add : bool)
    (data : list Z) : option (Z * list Z) :=
  match count with
  | O => Some (if hits =? hashes then kMayExist else OK, data)
  | S count' =>
      if total_bits =? 0 then None
      else
        let x := u64 (a + u64 (b * i)) mod total_bits in
        res ← test_bit_set_bit data x add;
        let '(hit, data) := res : bool * list Z in
        if hit then CheckAdd_loop count' total_bits a b (i + 1) (u8 (hits + 1)) hashes add data
        else if negb add then Some (kNotExist, data)
        else CheckAdd_loop count' total_bits a b (i + 1) hits hashes add data
  end.

(** src/cpp-util/bloom.h:78-105, [Bloom::CheckAdd]. *)
Definition CheckAdd (f : Bloom) (buffer : list Z) (add : bool) : option (Z * Bloom) :=
  let len := Z.of_nat (length buffer) in
  a ← Hash buffer len 0x9747b28c;
  b ← Hash buffer len a;
  '(r, data) ← CheckAdd_loop (Z.to_nat (hashes_ f)) (total_bits_ f) a b 0 0 (hashes_ f) add
    (data_ f);
  Some (r, mkBloom (entries_ f) (error_rate_ f) (total_bits_ f) (total_bytes_ f) (hashes_ f)
             (bpe_ f) data).

(** src/cpp-util/bloom.h:106-108, [Bloom::Add]. *)
Definition Add (f : Bloom) (buffer : list Z) : option (Z * Bloom) := CheckAdd f buffer true.

(** src/cpp-util/bloom.h:109-111, [Bloom::Check]. *)
Definition Check_ (f : Bloom) (buffer : list Z) : option (Z * Bloom) := CheckAdd f buffer false.

(** ** Correctness *)

Record bloom_wf (f : Bloom) : Prop := {
  bw_bits : 0 < total_bits_ f ≤ 8 * Z.of_nat (length (data_ f));
  bw_hashes : 0 ≤ hashes_ f < 256
}.

(** The position of probe [i]. *)
Definition probe (total_bits a b i : Z) : Z := u64 (a + u64 (b * i)) mod total_bits.

Lemma test_bit_set_bit_add buf x :
  0 ≤ x < 8 * Z.of_nat (length buf) →
  ∃ hit buf', test_bit_set_bit buf x true = Some (hit, buf') ∧ bits_le buf buf' ∧
    test_pos buf' x = Some true.
Proof.
  intros Hx. unfold test_bit_set_bit. rewrite Z.shiftr_div_pow2 by lia. change (2 ^ 3) with 8.
  pose proof (mod8_range x). rewrite (uwrap_small 8 (1 ≪ _)) by (apply pow2_lt; lia).
  destruct (set_pos_spec buf x Hx) as (buf' & Hset & Hle & Ht & _).
  unfold set_pos in Hset. destruct (aget buf (x / 8)) as [c|] eqn:Ec; [|done].
  cbn [mbind option_bind] in *. destruct (negb (Z.land c (1 ≪ (x mod 8)) =? 0)) eqn:E.
  - exists true, buf. split; [done|]. split; [done|]. unfold test_pos. by rewrite Ec; simpl; rewrite E.
  - exists false, buf'. by rewrite Hset.
Qed.

Lemma test_bit_set_bit_check buf x t :
  test_pos buf x = Some t → test_bit_set_bit buf x false = Some (t, buf).
Proof.
  unfold test_pos, test_bit_set_bit. rewrite Z.shiftr_div_pow2 by lia. change (2 ^ 3) with 8.
  pose proof (mod8_range x). rewrite (uwrap_small 8 (1 ≪ _)) by (apply pow2_lt; lia).
  destruct (aget buf (x / 8)) as [c|]; [|done]. simpl. intros [= <-]. by destruct (negb _).
Qed.

Lemma add_loop_spec count total a b i hits hashes data :
  0 < total ≤ 8 * Z.of_nat (length data) →
  ∃ r data', CheckAdd_loop count total a b i hits hashes true data = Some (r, data') ∧
    bits_le data data' ∧
    ∀ j, i ≤ j < i + Z.of_nat count → test_pos data' (probe total a b j) = Some true.
Proof.
  revert i hits data. induction count as [|count IH]; intros i hits data Ht.
  { eexists _, data. split; [done|]. split; [done|]. lia. }
  pose proof (Z.mod_pos_bound (u64 (a + u64 (b * i))) total ltac:(lia)) as Hp.
  destruct (test_bit_set_bit_add data (probe total a b i)) as (hit & d1 & H1 & Hle1 & Hset);
    [unfold probe; lia|].
  assert (Hrest : ∀ hits', ∃ r data',
    CheckAdd_loop count total a b (i + 1) hits' hashes true d1 = Some (r, data') ∧
    bits_le data data' ∧
    ∀ j, i ≤ j < i + Z.of_nat (S count) → test_pos data' (probe total a b j) = Some true).
  { intros hits'. destruct (IH (i + 1) hits' d1) as (r & d2 & H2 & Hle2 & Hall);
      [destruct Hle1 as [-> _]; lia|].
    exists r, d2. split; [done|]. split; [by transitivity d1|]. intros j Hj.
    destruct (decide (j = i)) as [->|]; [by apply Hle2|]. apply Hall. lia. }
  cbn [CheckAdd_loop]. rewrite (proj2 (Z.eqb_neq total 0)) by lia.
  fold (probe total a b i). rewrite H1. cbn [mbind option_bind negb]. destruct hit; apply Hrest.
Qed.

(** A check reports a hit exactly when every probe is set. *)
Lemma check_loop_spec count total a b i hashes data :
  0 < total ≤ 8 * Z.of_nat (length data) → 0 ≤ i → hashes = i + Z.of_nat count → hashes < 256 →
  ∃ r, CheckAdd_loop count total a b i i hashes false data = Some (r, data) ∧
    (r = kMayExist ↔
     ∀ j, i ≤ j < i + Z.of_nat count → test_pos data (probe total a b j) = Some true).
Proof.
  intros Ht. revert i. induction count as [|count IH]; intros i Hi Hh H256.
  { simpl. rewrite (proj2 (Z.eqb_eq i hashes)) by lia. exists kMayExist. split; [done|].
    split; [lia|done]. }
  cbn [CheckAdd_loop]. rewrite (proj2 (Z.eqb_neq total 0)) by lia. fold (probe total a b i).
  pose proof (Z.mod_pos_bound (u64 (a + u64 (b * i))) total ltac:(lia)) as Hp.
  destruct (test_pos_total data (probe total a b i)) as [t Hpos]; [unfold probe; lia|].
  rewrite (test_bit_set_bit_check _ _ _ Hpos). cbn [mbind option_bind negb]. destruct t.
  - rewrite uwrap_small by lia. destruct (IH (i + 1)) as (r & -> & Hr); [lia..|].
    exists r. split; [done|]. rewrite Hr. split; intros H j Hj; [|apply H; lia].
    destruct (decide (j = i)) as [->|]; [done|]. apply H. lia.
  - exists kNotExist. split; [done|]. split; [done|]. intros H. specialize (H i).
    rewrite Hpos in H. by assert (Some false = Some true) by (apply H; lia).
Qed.

Lemma dbl_to_uint_range w d z : dbl_to_uint w d = Some z → 0 ≤ z < 2 ^ w.
Proof.
  unfold dbl_to_uint. destruct (dtrunc d) as [x|]; [|done]. cbn [mbind option_bind].
  destruct (Z.leb_spec 0 x), (Z.ltb_spec x (2 ^ w)); simpl; try done. by intros [= <-].
Qed.

Lemma hashes_total buffer :
  bytes_ok buffer →
  ∃ a b, Hash buffer (Z.of_nat (length buffer)) 0x9747b28c = Some a ∧
    Hash buffer (Z.of_nat (length buffer)) a = Some b.
Proof.
  intros Hb. destruct (Hash_total buffer 0x9747b28c Hb) as (a & Ha & Hok); [done|].
  destruct (Hash_total buffer a Hb Hok) as (b & Hb' & _). by exists a, b.
Qed.

Lemma Check_spec f buffer a b :
  bloom_wf f →
  Hash buffer (Z.of_nat (length buffer)) 0x9747b28c = Some a →
  Hash buffer (Z.of_nat (length buffer)) a = Some b →
  ∃ r, Check_ f buffer = Some (r, f) ∧
    (r = kMayExist ↔ ∀ j, 0 ≤ j < hashes_ f →
       test_pos (data_ f) (probe (total_bits_ f) a b j) = Some true).
Proof.
  intros [Hbits Hh] Ha Hb. unfold Check_, CheckAdd. rewrite Ha. cbn [mbind option_bind].
  rewrite Hb. cbn [mbind option_bind].
  destruct (check_loop_spec (Z.to_nat (hashes_ f)) (total_bits_ f) a b 0 (hashes_ f) (data_ f))
    as (r & -> & Hr); [done|lia..|].
  exists r. split; [by destruct f|]. rewrite Hr, Z2Nat.id by lia. done.
Qed.

(** No false negatives under insertion: on a filter with at least
    one bit, [Add] of a key stays within the data, afterwards [Check] of that key
    answers kMayExist, and every key for which [Check] answered kMayExist before
    still gets that answer. [Check] never changes the filter. *)
Theorem Add_then_Check f buffer :
  bloom_wf f → bytes_ok buffer →
  ∃ r f', Add f buffer = Some (r, f') ∧ bloom_wf f' ∧
    Check_ f' buffer = Some (kMayExist, f') ∧
    ∀ other, bytes_ok other → Check_ f other = Some (kMayExist, f) →
      Check_ f' other = Some (kMayExist, f').
Proof.
  intros Hf Hbuf. destruct (hashes_total buffer Hbuf) as (a & b & Ha & Hb).
  unfold Add, CheckAdd at 1. rewrite Ha. cbn [mbind option_bind]. rewrite Hb.
  cbn [mbind option_bind]. destruct Hf as [Hbits Hh].
  destruct (add_loop_spec (Z.to_nat (hashes_ f)) (total_bits_ f) a b 0 0 (hashes_ f) (data_ f)
    Hbits) as (r & data' & -> & Hle & Hset). cbn [mbind option_bind].
  eexists r, _. split; [done|]. set (f' := mkBloom _ _ _ _ _ _ data').
  assert (Hf' : bloom_wf f') by (split; simpl; rewrite ?(proj1 Hle); done).
  split; [done|]. split.
  - destruct (Check_spec f' buffer a b Hf' Ha Hb) as (r' & -> & Hr'). do 2 f_equal.
    apply Hr'. intros j Hj. apply Hset. simpl in Hj. lia.
  - intros other Ho Hc. destruct (hashes_total other Ho) as (a' & b' & Ha' & Hb').
    destruct (Check_spec f other a' b' (Build_bloom_wf f Hbits Hh) Ha' Hb') as (r1 & E1 & H1).
    destruct (Check_spec f' other a' b' Hf' Ha' Hb') as (r2 & -> & H2). do 2 f_equal.
    apply H2. intros j Hj. apply Hle. rewrite Hc in E1. injection E1 as <-. by apply H1.
Qed.

Lemma Add_then_Check_witness :
  ∃ r f', Add (mkBloom 1000 (dbl_of_Z 0) 20 3 2 (dbl_of_Z 0) [0; 0; 0]) [97] = Some (r, f') ∧
    Check_ f' [97] = Some (kMayExist, f').
Proof.
  destruct (Add_then_Check (mkBloom 1000 (dbl_of_Z 0) 20 3 2 (dbl_of_Z 0) [0; 0; 0]) [97])
    as (r & f' & H1 & _ & H2 & _).
  - split; simpl; lia.
  - repeat constructor; done.
  - exists r, f'. split; [exact H1|exact H2].
Defined.

(** What [Init] guarantees, for every behaviour of the mathematical
    library: it rejects fewer than 1000 entries and error rates outside of (0, 1);
    a filter it sets up is well formed when its number of bits is not zero; but an
    error rate close to 1 makes that number zero, and then, unless the number of
    hashes is zero too, both [Add] and [Check] of every key divide by zero. *)
Theorem Init_spec log ceil n rate calloc_ok :
  (n < 1000 → Init log ceil n rate calloc_ok = Some (ERROR, None)) ∧
  (SFleb rate (dbl_of_Z 0) = true ∨ SFleb (dbl_of_Z 1) rate = true →
     Init log ceil n rate calloc_ok = Some (ERROR, None)) ∧
  (∀ s f, Init log ceil n rate calloc_ok = Some (s, Some f) →
     s = OK ∧ calloc_ok = true ∧
     (total_bits_ f ≠ 0 → bloom_wf f) ∧
     (total_bits_ f = 0 → hashes_ f ≠ 0 → ∀ buffer add, CheckAdd f buffer add = None)).
Proof.
  unfold Init. split; [|split].
  - intros Hn. by rewrite (proj2 (Z.ltb_lt n 1000)).
  - intros [->| ->]; by rewrite ?orb_true_r.
  - intros s f. destruct (_ || _); [done|].
    destruct (dbl_to_uint 64 _) as [bits|] eqn:Eb; [|done]. cbn [mbind option_bind].
    destruct (dbl_to_uint 8 _) as [hashes|] eqn:Eh; [|done]. cbn [mbind option_bind].
    apply dbl_to_uint_range in Eb, Eh. destruct calloc_ok; [|done]. intros [= <- <-]. simpl.
    split; [done|]. split; [done|]. split.
    + intros Hne. split; simpl; [|lia]. rewrite length_replicate.
      pose proof (Z.div_mod bits 8 ltac:(lia)). pose proof (mod8_range bits).
      assert (0 ≤ bits / 8) by (apply Z.div_pos; lia).
      destruct (Z.eqb_spec (bits mod 8) 0); simpl; lia.
    + intros Hz Hh buffer add. unfold CheckAdd. simpl. destruct (Hash buffer _ _) as [a|]; [|done].
      simpl. destruct (Hash buffer _ a) as [b|]; [|done]. simpl.
      destruct (Z.to_nat hashes) as [|c] eqn:Ec; [lia|]. simpl. by rewrite Hz.
Qed.

(** An error rate for which the logarithm is -2^-20. *)
Lemma Init_spec_witness :
  ∃ f, Init (λ _, S754_finite true 4503599627370496 (-72)) (λ _, dbl_of_Z 1) 1000
         (S754_finite false 4503595332403200 (-52)) true = Some (OK, Some f) ∧
    total_bits_ f = 0 ∧ CheckAdd f [97] true = None.
Proof.
  eexists. split; [vm_compute; reflexivity|]. split; [reflexivity|].
  refine (proj2 (proj2 (proj2 (proj2 (proj2 (Init_spec
    (λ _, S754_finite true 4503599627370496 (-72)) (λ _, dbl_of_Z 1) 1000
    (S754_finite false 4503595332403200 (-52)) true)) OK _ _))) _ _ [97] true);
    [vm_compute; reflexivity|reflexivity|done].
Defined.
