(* ===== verification/Claims.v ===== *)
(** * Claims of positions in a shared sequence

    Concurrent operations on a queue claim ranges of positions.  This file states
    that the claims tile the positions handed out so far, which the ring components
    maintain step by step. *)

From S2P Require Import Prelude.

(** The claims are non-empty, disjoint, and cover the positions below [hi]. *)
Record tiles (cl : nat → option (Z * Z)) (hi : Z) : Prop := {
  tl_range : ∀ t a n, cl t = Some (a, n) → 0 ≤ a ∧ 1 ≤ n ∧ a + n ≤ hi;
  tl_disj : ∀ t1 t2 a1 n1 a2 n2, t1 ≠ t2 → cl t1 = Some (a1, n1) → cl t2 = Some (a2, n2) →
    a1 + n1 ≤ a2 ∨ a2 + n2 ≤ a1;
  tl_cover : ∀ p, 0 ≤ p < hi → ∃ t a n, cl t = Some (a, n) ∧ a ≤ p < a + n
}.

Lemma tiles_ext cl cl' hi : (∀ t, cl' t = cl t) → tiles cl hi → tiles cl' hi.
Proof.
  intros He [H1 H2 H3]. split; setoid_rewrite He; [exact H1|exact H2|exact H3].
Qed.

Lemma tiles_none cl : (∀ t, cl t = None) → tiles cl 0.
Proof.
  intros H. split; [intros t a n|intros t1 t2 a1 n1 a2 n2 _|lia]; by rewrite H.
Qed.

Lemma tiles_add cl cl' hi t n :
  tiles cl hi → 0 ≤ hi → 1 ≤ n → cl t = None → cl' t = Some (hi, n) →
  (∀ t', t' ≠ t → cl' t' = cl t') → tiles cl' (hi + n).
Proof.
  intros [H1 H2 H3] Hhi Hn Ht Ht' Ho. split.
  - intros t' a m Hm. destruct (decide (t' = t)) as [->|Hne].
    + rewrite Ht' in Hm. injection Hm as <- <-. lia.
    + rewrite Ho in Hm by done. destruct (H1 _ _ _ Hm). lia.
  - intros t1 t2 a1 n1 a2 n2 Hne Hc1 Hc2.
    destruct (decide (t1 = t)) as [->|Hn1], (decide (t2 = t)) as [->|Hn2]; [done|..].
    + rewrite Ht' in Hc1. injection Hc1 as <- <-. rewrite Ho in Hc2 by done.
      destruct (H1 _ _ _ Hc2). lia.
    + rewrite Ht' in Hc2. injection Hc2 as <- <-. rewrite Ho in Hc1 by done.
      destruct (H1 _ _ _ Hc1). lia.
    + rewrite Ho in Hc1, Hc2 by done. by apply (H2 t1 t2).
  - intros p Hp. destruct (Z.ltb_spec p hi).
    + destruct (H3 p) as (t' & a & m & Hc & Hr); [lia|]. exists t', a, m. split; [|done].
      rewrite Ho; [done|]. by intros ->; congruence.
    + exists t, hi, n. split; [done|lia].
Qed.

(** A claim that keeps its owner and its range, or that was not there. *)
Lemma tiles_same cl cl' hi t :
  tiles cl hi → cl' t = cl t → (∀ t', t' ≠ t → cl' t' = cl t') → tiles cl' hi.
Proof.
  intros Ht H1 H2. apply (tiles_ext cl); [|done]. intros t'.
  destruct (decide (t' = t)) as [->|]; auto.
Qed.

(** Claims of the same position have the same owner. *)
Lemma tiles_owner cl hi t1 t2 a n1 n2 :
  tiles cl hi → cl t1 = Some (a, n1) → cl t2 = Some (a, n2) → t1 = t2.
Proof.
  intros Ht H1 H2. destruct (decide (t1 = t2)) as [|Hne]; [done|].
  pose proof (tl_range _ _ Ht _ _ _ H1). pose proof (tl_range _ _ Ht _ _ _ H2).
  destruct (tl_disj _ _ Ht _ _ _ _ _ _ Hne H1 H2); lia.
Qed.
