(* ===== verification/RteRing.v ===== *)
(** * The DPDK-style ring (src/cpp-util/rte_ring.h and src/cpp-util/rte_ring.c)

    Indexes are 32-bit counters that are masked when the array is accessed.  This
    file models the ring used by one thread at a time: creation, the copy loops of
    the two macros, the single-producer and single-consumer operations and the
    status functions, and shows that the ring is a bounded FIFO queue.  The
    multi-producer and multi-consumer operations are in [RteRingMp].  [None] is an
    access outside of the ring or of the object table.

    The macro [ENQUEUE_PTRS] is modelled as it reads without the line comment in
    its body, which ends the macro early. *)

From S2P Require Import Prelude.

(** src/cpp-util/rte_ring.h:110-113, [rte_ring_queue_behavior]. *)
Inductive rte_ring_queue_behavior :=
  | RTE_RING_QUEUE_FIXED
  | RTE_RING_QUEUE_VARIABLE.

(** src/cpp-util/rte_ring.h:128-157, [rte_ring]. *)
Record prod := mkProd {
  watermark : Z; sp_enqueue : bool; prod_size : Z; prod_mask : Z; prod_head : Z; prod_tail : Z }.
Record cons := mkCons {
  sc_dequeue : bool; cons_size : Z; cons_mask : Z; cons_head : Z; cons_tail : Z }.
Record rte_ring := mkRing { flags : Z; r_prod : prod; r_cons : cons; ring : list Z }.

(** src/cpp-util/rte_ring.h:162-165, [RING_F_SP_ENQ]. *)
Definition RING_F_SP_ENQ : Z := 0x0001.
Definition RING_F_SC_DEQ : Z := 0x0002.
Definition RTE_RING_QUOT_EXCEED : Z := 1 ≪ 31.
Definition RTE_RING_SZ_MASK : Z := 0x0fffffff.

(** The error numbers of the platform. *)
Definition ENOENT : Z := 2.
Definition EINVAL : Z := 22.
Definition ENOBUFS : Z := 105.
Definition EDQUOT : Z := 122.

(** Field updates. *)
Definition set_prod (r : rte_ring) (head tail : Z) : rte_ring :=
  let p := r_prod r in
  mkRing (flags r)
    (mkProd (watermark p) (sp_enqueue p) (prod_size p) (prod_mask p) head tail)
    (r_cons r) (ring r).
Definition set_cons (r : rte_ring) (head tail : Z) : rte_ring :=
  let c := r_cons r in
  mkRing (flags r) (r_prod r)
    (mkCons (sc_dequeue c) (cons_size c) (cons_mask c) head tail) (ring r).
Definition set_slots (r : rte_ring) (l : list Z) : rte_ring :=
  mkRing (flags r) (r_prod r) (r_cons r) l.

(** src/cpp-util/rte_ring.c:11, [POWEROF2]. *)
Definition POWEROF2 (x : Z) : bool := Z.land (u32 (x - 1)) x =? 0.

(** src/cpp-util/rte_ring.c:14-47, [rte_ring_create]. [malloc] is the memory for the slots, if
    the allocation succeeds; the result is the ring or the error number. *)
Definition rte_ring_create (count fl : Z) (malloc : option (list Z)) : rte_ring + Z :=
  if negb (POWEROF2 count) || (RTE_RING_SZ_MASK <? count) then inr EINVAL
  else
    match malloc with
    | Some slots =>
        inl (mkRing fl
               (mkProd count (negb (Z.land fl RING_F_SP_ENQ =? 0)) count (u32 (count - 1)) 0 0)
               (mkCons (negb (Z.land fl RING_F_SC_DEQ =? 0)) count (u32 (count - 1)) 0 0) slots)
    | None => inr ENOBUFS
    end.

(** src/cpp-util/rte_ring.c:53-65, [rte_ring_set_water_mark]. *)
Definition rte_ring_set_water_mark (r : rte_ring) (count : Z) : Z * rte_ring :=
  let p := r_prod r in
  if prod_size p <=? count then (- EINVAL, r)
  else
    let count := if count =? 0 then prod_size p else count in
    (0, mkRing (flags r)
          (mkProd count (sp_enqueue p) (prod_size p) (prod_mask p) (prod_head p) (prod_tail p))
          (r_cons r) (ring r)).

(** ** The copy loops *)

(** One assignment [dst[di] = src[si]]. *)
Definition copy1 (src : list Z) (si : Z) (dst : list Z) (di : Z) : option (list Z) :=
  v ← aget src si; aset dst di v.

(** The unrolled loop [for (i = 0; i < lim; i += 4, idx += 4)]; it returns the
    destination and both indexes. *)
Fixpoint copy4_loop (fuel : nat) (lim : Z) (src : list Z) (si : Z) (dst : list Z) (di i : Z) :
    option (list Z * Z * Z) :=
  if i <? lim then
    match fuel with
    | O => None
    | S fuel' =>
        dst ← copy1 src si dst di;
        dst ← copy1 src (si + 1) dst (di + 1);
        dst ← copy1 src (si + 2) dst (di + 2);
        dst ← copy1 src (si + 3) dst (di + 3);
        copy4_loop fuel' lim src (si + 4) dst (di + 4) (i + 4)
    end
  else Some (dst, si, di).

(** One case of the [switch (n & 0x3)] with fall-through: [dst[di++] = src[si++]]. *)
Definition copy_case (c : bool) (src : list Z) (s : list Z * Z * Z) :
    option (list Z * Z * Z) :=
  let '(dst, si, di) := s in
  if c then dst ← copy1 src si dst di; Some (dst, si + 1, di + 1) else Some s.

(** The simple loops: while [c < lim], where [c] advances with both indexes. *)
Fixpoint copy_loop (fuel : nat) (c lim : Z) (src : list Z) (si : Z) (dst : list Z) (di : Z) :
    option (list Z * Z * Z) :=
  if c <? lim then
    match fuel with
    | O => None
    | S fuel' =>
        dst ← copy1 src si dst di;
        copy_loop fuel' (c + 1) lim src (si + 1) dst (di + 1)
    end
  else Some (dst, si, di).

(** src/cpp-util/rte_ring.h:238-260, [ENQUEUE_PTRS]. The line comment of line 243, which ends the macro
    as it is written (the header does not compile), is left out. *)
Definition ENQUEUE_PTRS (r : rte_ring) (obj_table : list Z) (prod_head mask n : Z) :
    option (list Z) :=
  let size := prod_size (r_prod r) in
  let idx := Z.land prod_head mask in
  if u32 (idx + n) <? size then
    s ← copy4_loop (Z.to_nat n) (Z.land n (unot 32 0x3)) obj_table 0 (ring r) idx 0;
    s ← copy_case (3 <=? Z.land n 0x3) obj_table s;
    s ← copy_case (2 <=? Z.land n 0x3) obj_table s;
    s ← copy_case (1 <=? Z.land n 0x3) obj_table s;
    let '(slots, _, _) := s : list Z * Z * Z in Some slots
  else
    s ← copy_loop (Z.to_nat size) idx size obj_table 0 (ring r) idx;
    let '(slots, i, _) := s : list Z * Z * Z in
    s ← copy_loop (Z.to_nat n) i n obj_table i slots 0;
    let '(slots, _, _) := s : list Z * Z * Z in Some slots.

(** src/cpp-util/rte_ring.h:265-286, [DEQUEUE_PTRS]. *)
Definition DEQUEUE_PTRS (r : rte_ring) (obj_table : list Z) (cons_head mask n : Z) :
    option (list Z) :=
  let idx := Z.land cons_head mask in
  let size := cons_size (r_cons r) in
  if u32 (idx + n) <? size then
    s ← copy4_loop (Z.to_nat n) (Z.land n (unot 32 0x3)) (ring r) idx obj_table 0 0;
    s ← copy_case (3 <=? Z.land n 0x3) (ring r) s;
    s ← copy_case (2 <=? Z.land n 0x3) (ring r) s;
    s ← copy_case (1 <=? Z.land n 0x3) (ring r) s;
    let '(table, _, _) := s : list Z * Z * Z in Some table
  else
    s ← copy_loop (Z.to_nat size) idx size (ring r) idx obj_table 0;
    let '(table, _, i) := s : list Z * Z * Z in
    s ← copy_loop (Z.to_nat n) i n (ring r) 0 table i;
    let '(table, _, _) := s : list Z * Z * Z in Some table.

(** ** Single producer and single consumer *)

(** src/cpp-util/rte_ring.h:338-354, [__rte_ring_mp_do_enqueue]. The room check, shared with the
    single-producer operation: the number of objects to enqueue, or the value to return. *)
Definition enqueue_room (behavior : rte_ring_queue_behavior) (n free_entries : Z) : Z + Z :=
  if free_entries <? n then
    match behavior with
    | RTE_RING_QUEUE_FIXED => inr (- ENOBUFS)
    | RTE_RING_QUEUE_VARIABLE => if free_entries =? 0 then inr 0 else inl free_entries
    end
  else inl n.

(** src/cpp-util/rte_ring.h:365-372, [__rte_ring_mp_do_enqueue]. The value returned after the
    copy, shared with the single-producer operation. *)
Definition enqueue_ret (behavior : rte_ring_queue_behavior) (r : rte_ring)
    (mask free_entries n : Z) : Z :=
  if watermark (r_prod r) <? u32 (u32 (mask + 1) - free_entries + n) then
    match behavior with
    | RTE_RING_QUEUE_FIXED => - EDQUOT
    | RTE_RING_QUEUE_VARIABLE => s32 (Z.lor n RTE_RING_QUOT_EXCEED)
    end
  else
    match behavior with
    | RTE_RING_QUEUE_FIXED => 0
    | RTE_RING_QUEUE_VARIABLE => s32 n
    end.

(** src/cpp-util/rte_ring.h:406-457, [__rte_ring_sp_do_enqueue]. *)
Definition __rte_ring_sp_do_enqueue (r : rte_ring) (obj_table : list Z) (n : Z)
    (behavior : rte_ring_queue_behavior) : option (Z * rte_ring) :=
  let mask := prod_mask (r_prod r) in
  let prod_head := prod_head (r_prod r) in
  let cons_tail := cons_tail (r_cons r) in
  let free_entries := u32 (mask + cons_tail - prod_head) in
  match enqueue_room behavior n free_entries with
  | inr ret => Some (ret, r)
  | inl n =>
      let prod_next := u32 (prod_head + n) in
      let r := set_prod r prod_next (prod_tail (r_prod r)) in
      slots ← ENQUEUE_PTRS r obj_table prod_head mask n;
      let r := set_slots r slots in
      let ret := enqueue_ret behavior r mask free_entries n in
      Some (ret, set_prod r prod_next prod_next)
  end.

(** src/cpp-util/rte_ring.h:509-521, [__rte_ring_mc_do_dequeue]. The check of the number of
    entries, shared with the single-consumer operation. *)
Definition dequeue_room (behavior : rte_ring_queue_behavior) (n entries : Z) : Z + Z :=
  if entries <? n then
    match behavior with
    | RTE_RING_QUEUE_FIXED => inr (- ENOENT)
    | RTE_RING_QUEUE_VARIABLE => if entries =? 0 then inr 0 else inl entries
    end
  else inl n.

(** src/cpp-util/rte_ring.h:546, [__rte_ring_mc_do_dequeue]. *)
Definition dequeue_ret (behavior : rte_ring_queue_behavior) (n : Z) : Z :=
  match behavior with RTE_RING_QUEUE_FIXED => 0 | RTE_RING_QUEUE_VARIABLE => s32 n end.

(** src/cpp-util/rte_ring.h:572-611, [__rte_ring_sc_do_dequeue]. The result, the object table
    and the ring. *)
Definition __rte_ring_sc_do_dequeue (r : rte_ring) (obj_table : list Z) (n : Z)
    (behavior : rte_ring_queue_behavior) : option (Z * list Z * rte_ring) :=
  let mask := prod_mask (r_prod r) in
  let cons_head := cons_head (r_cons r) in
  let prod_tail := prod_tail (r_prod r) in
  let entries := u32 (prod_tail - cons_head) in
  match dequeue_room behavior n entries with
  | inr ret => Some (ret, obj_table, r)
  | inl n =>
      let cons_next := u32 (cons_head + n) in
      let r := set_cons r cons_next (cons_tail (r_cons r)) in
      table ← DEQUEUE_PTRS r obj_table cons_head mask n;
      Some (dequeue_ret behavior n, table, set_cons r cons_next cons_next)
  end.

(** src/cpp-util/rte_ring.h:653-658, [rte_ring_sp_enqueue_bulk]. *)
Definition rte_ring_sp_enqueue_bulk (r : rte_ring) (obj_table : list Z) (n : Z) :=
  __rte_ring_sp_do_enqueue r obj_table n RTE_RING_QUEUE_FIXED.

(** src/cpp-util/rte_ring.h:724-728, [rte_ring_sp_enqueue]. *)
Definition rte_ring_sp_enqueue (r : rte_ring) (obj : Z) := rte_ring_sp_enqueue_bulk r [obj] 1.

(** src/cpp-util/rte_ring.h:1008-1013, [rte_ring_sp_enqueue_burst]. *)
Definition rte_ring_sp_enqueue_burst (r : rte_ring) (obj_table : list Z) (n : Z) :=
  __rte_ring_sp_do_enqueue r obj_table n RTE_RING_QUEUE_VARIABLE.

(** src/cpp-util/rte_ring.h:794-798, [rte_ring_sc_dequeue_bulk]. *)
Definition rte_ring_sc_dequeue_bulk (r : rte_ring) (obj_table : list Z) (n : Z) :=
  __rte_ring_sc_do_dequeue r obj_table n RTE_RING_QUEUE_FIXED.

(** src/cpp-util/rte_ring.h:860-864, [rte_ring_sc_dequeue]. *)
Definition rte_ring_sc_dequeue (r : rte_ring) (obj_p : list Z) :=
  rte_ring_sc_dequeue_bulk r obj_p 1.

(** src/cpp-util/rte_ring.h:1078-1082, [rte_ring_sc_dequeue_burst]. *)
Definition rte_ring_sc_dequeue_burst (r : rte_ring) (obj_table : list Z) (n : Z) :=
  __rte_ring_sc_do_dequeue r obj_table n RTE_RING_QUEUE_VARIABLE.

(** src/cpp-util/rte_ring.h:900-906, [rte_ring_full]. *)
Definition rte_ring_full (r : rte_ring) : bool :=
  Z.land (u32 (cons_tail (r_cons r) - prod_tail (r_prod r) - 1)) (prod_mask (r_prod r)) =? 0.

(** src/cpp-util/rte_ring.h:917-923, [rte_ring_empty]. *)
Definition rte_ring_empty (r : rte_ring) : bool :=
  cons_tail (r_cons r) =? prod_tail (r_prod r).

(** src/cpp-util/rte_ring.h:933-939, [rte_ring_count]. *)
Definition rte_ring_count (r : rte_ring) : Z :=
  Z.land (u32 (prod_tail (r_prod r) - cons_tail (r_cons r))) (prod_mask (r_prod r)).

(** src/cpp-util/rte_ring.h:949-955, [rte_ring_free_count]. *)
Definition rte_ring_free_count (r : rte_ring) : Z :=
  Z.land (u32 (cons_tail (r_cons r) - prod_tail (r_prod r) - 1)) (prod_mask (r_prod r)).

(** ** The copy loops are element-wise copies *)

Fixpoint copy_n (count : nat) (src : list Z) (si : Z) (dst : list Z) (di : Z) :
    option (list Z) :=
  match count with
  | O => Some dst
  | S count' => dst ← copy1 src si dst di; copy_n count' src (si + 1) dst (di + 1)
  end.

Lemma copy_n_app a b src si dst di :
  copy_n (a + b) src si dst di =
    dst ← copy_n a src si dst di; copy_n b src (si + Z.of_nat a) dst (di + Z.of_nat a).
Proof.
  revert si dst di. induction a as [|a IH]; intros si dst di.
  { cbn. by rewrite !Z.add_0_r. }
  cbn [copy_n Nat.add]. destruct (copy1 src si dst di) as [d|]; [|done]. cbn [mbind option_bind].
  rewrite IH. by rewrite !Nat2Z.inj_succ, <-!Z.add_1_l, !Z.add_assoc.
Qed.

Lemma copy_loop_copy_n (k fuel : nat) c lim src si dst di :
  lim - c = Z.of_nat k → (k ≤ fuel)%nat →
  copy_loop fuel c lim src si dst di =
    d ← copy_n k src si dst di; Some (d, si + Z.of_nat k, di + Z.of_nat k).
Proof.
  revert fuel c si dst di. induction k as [|k IH]; intros fuel c si dst di Hk Hf.
  - destruct fuel; cbn; rewrite (proj2 (Z.ltb_ge _ _)) by lia; by rewrite !Z.add_0_r.
  - destruct fuel as [|fuel]; [lia|]. cbn [copy_loop copy_n].
    rewrite (proj2 (Z.ltb_lt _ _)) by lia. destruct (copy1 src si dst di) as [d|]; [|done].
    cbn [mbind option_bind]. rewrite (IH fuel) by lia.
    by rewrite !Nat2Z.inj_succ, <-!Z.add_1_l, !Z.add_assoc.
Qed.

Lemma copy4_loop_copy_n (k fuel : nat) lim src si dst di i :
  lim - i = 4 * Z.of_nat k → (k ≤ fuel)%nat →
  copy4_loop fuel lim src si dst di i =
    d ← copy_n (4 * k) src si dst di; Some (d, si + 4 * Z.of_nat k, di + 4 * Z.of_nat k).
Proof.
  revert fuel i si dst di. induction k as [|k IH]; intros fuel i si dst di Hk Hf.
  - destruct fuel; cbn; rewrite (proj2 (Z.ltb_ge _ _)) by lia; by rewrite !Z.add_0_r.
  - destruct fuel as [|fuel]; [lia|]. replace (4 * S k)%nat with (4 + 4 * k)%nat by lia.
    rewrite copy_n_app. cbn [copy4_loop copy_n].
    rewrite (proj2 (Z.ltb_lt _ _)) by lia.
    replace (si + 1 + 1 + 1) with (si + 3) by lia. replace (di + 1 + 1 + 1) with (di + 3) by lia.
    replace (si + 1 + 1) with (si + 2) by lia. replace (di + 1 + 1) with (di + 2) by lia.
    destruct (copy1 src si dst di) as [d1|]; [|done]. cbn [mbind option_bind].
    destruct (copy1 src (si + 1) d1 _) as [d2|]; [|done]. cbn [mbind option_bind].
    destruct (copy1 src (si + 2) d2 _) as [d3|]; [|done]. cbn [mbind option_bind].
    destruct (copy1 src (si + 3) d3 _) as [d4|]; [|done]. cbn [mbind option_bind].
    change (Z.of_nat 4) with 4. rewrite (IH fuel) by lia.
    by rewrite !Nat2Z.inj_succ, <-!Z.add_1_l, !Z.mul_add_distr_l, !Z.mul_1_r, !Z.add_assoc.
Qed.

(** The unrolled loop with its [switch] copies [n] elements. *)
Lemma unrolled_copy n src si dst di :
  0 ≤ n < 2 ^ 32 →
  (s ← copy4_loop (Z.to_nat n) (Z.land n (unot 32 0x3)) src si dst di 0;
   s ← copy_case (3 <=? Z.land n 0x3) src s;
   s ← copy_case (2 <=? Z.land n 0x3) src s;
   s ← copy_case (1 <=? Z.land n 0x3) src s;
   let '(d, _, _) := s : list Z * Z * Z in Some d) = copy_n (Z.to_nat n) src si dst di.
Proof.
  intros Hn. assert (Z.land n 0x3 = n mod 4) as -> by apply (Z.land_ones n 2 ltac:(lia)).
  assert (Hlim : Z.land n (unot 32 0x3) = 4 * (n / 4)).
  { change 0x3 with (Z.ones 2). change 4 with (2 ^ 2). rewrite <-Z.shiftr_div_pow2, Z.mul_comm, <-Z.shiftl_mul_pow2 by lia.
    bits. }
  rewrite Hlim. assert (0 ≤ n / 4) by (apply Z.div_pos; lia).
  pose proof (Z.div_mod n 4 ltac:(lia)) as Hdm. pose proof (Z.mod_pos_bound n 4 ltac:(lia)).
  rewrite (copy4_loop_copy_n (Z.to_nat (n / 4))) by lia.
  replace (Z.to_nat n) with (4 * Z.to_nat (n / 4) + Z.to_nat (n mod 4))%nat by lia.
  rewrite copy_n_app. destruct (copy_n (4 * Z.to_nat (n / 4)) src si dst di) as [d|]; [|done].
  cbn [mbind option_bind].
  replace (si + 4 * Z.of_nat (Z.to_nat (n / 4))) with (si + Z.of_nat (4 * Z.to_nat (n / 4))) by lia.
  replace (di + 4 * Z.of_nat (Z.to_nat (n / 4))) with (di + Z.of_nat (4 * Z.to_nat (n / 4))) by lia.
  set (s := si + _). set (t := di + _).
  assert (n mod 4 = 0 ∨ n mod 4 = 1 ∨ n mod 4 = 2 ∨ n mod 4 = 3) as [->|[->|[->| ->]]] by lia;
    [change (Z.to_nat 0) with 0%nat|change (Z.to_nat 1) with 1%nat
    |change (Z.to_nat 2) with 2%nat|change (Z.to_nat 3) with 3%nat];
    cbn; repeat (destruct (copy1 _ _ _ _) as [?|]; [|done]; cbn); done.
Qed.

Lemma copy_n_spec count src si dst di :
  0 ≤ si → si + Z.of_nat count ≤ Z.of_nat (length src) →
  0 ≤ di → di + Z.of_nat count ≤ Z.of_nat (length dst) →
  ∃ dst', copy_n count src si dst di = Some dst' ∧ length dst' = length dst ∧
    ∀ j, aget dst' j =
      if decide (di ≤ j < di + Z.of_nat count) then aget src (si + (j - di)) else aget dst j.
Proof.
  revert si dst di. induction count as [|count IH]; intros si dst di H1 H2 H3 H4.
  { exists dst. split; [done|]. split; [done|]. intros j. by rewrite decide_False by lia. }
  destruct (aget_is_Some src si) as [v Hv]; [lia|].
  pose proof (aset_Some dst di v ltac:(lia)) as Ha.
  destruct (IH (si + 1) (<[Z.to_nat di := v]> dst) (di + 1)) as (d' & Hd & Hl & Hj);
    [rewrite ?length_insert; lia..|].
  exists d'. cbn [copy_n]. unfold copy1. rewrite Hv. cbn [mbind option_bind]. rewrite Ha.
  split; [exact Hd|]. split; [by rewrite Hl, length_insert|]. intros j. rewrite Hj.
  rewrite (aget_aset _ _ _ _ j Ha).
  destruct (decide (di + 1 ≤ j < di + 1 + Z.of_nat count)), (decide (di = j)),
    (decide (di ≤ j < di + Z.of_nat (S count))); try lia; try done.
  - f_equal. lia.
  - rewrite <-Hv. f_equal. lia.
Qed.

(** ** Well-formed rings *)

(** The geometry that [rte_ring_create] sets up: the size is a power of two. *)
Record ring_wf (k : Z) (r : rte_ring) : Prop := {
  rw_k : 0 ≤ k < 28;
  rw_psize : prod_size (r_prod r) = 2 ^ k;
  rw_csize : cons_size (r_cons r) = 2 ^ k;
  rw_mask : prod_mask (r_prod r) = 2 ^ k - 1;
  rw_len : Z.of_nat (length (ring r)) = 2 ^ k
}.

Lemma size_bound k : 0 ≤ k < 28 → 0 < 2 ^ k ≤ 2 ^ 27.
Proof. intros Hk. split; [apply pow2_pos; lia|apply Z.pow_le_mono_r; lia]. Qed.

Lemma land_mask k x : 0 ≤ k → Z.land x (2 ^ k - 1) = x mod 2 ^ k.
Proof. intros Hk. by rewrite Z.sub_1_r, <-Z.ones_equiv, Z.land_ones. Qed.

Lemma u32_mod_size k x : 0 ≤ k < 28 → u32 x mod 2 ^ k = x mod 2 ^ k.
Proof.
  intros Hk. unfold uwrap. replace (2 ^ 32) with (2 ^ k * 2 ^ (32 - k)).
  - rewrite Z.rem_mul_r by (try apply pow2_pos; lia || (apply Z.pow_nonzero; lia)).
    rewrite Z.mul_comm, Z.mod_add by (apply Z.pow_nonzero; lia). apply Z.mod_mod.
    apply Z.pow_nonzero; lia.
  - rewrite <-Z.pow_add_r by lia. f_equal. lia.
Qed.

(** The index [j] of the ring as an offset from [base]. *)
Lemma mod_offset size base j : 0 < size → 0 ≤ j < size →
  base mod size ≤ j → (j - base) mod size = j - base mod size.
Proof.
  intros Hs Hj Hb. rewrite <-Zminus_mod_idemp_r. apply Z.mod_small.
  pose proof (Z.mod_pos_bound base size Hs). lia.
Qed.

Lemma mod_offset_wrap size base j : 0 < size → 0 ≤ j < size →
  j < base mod size → (j - base) mod size = j - base mod size + size.
Proof.
  intros Hs Hj Hb. rewrite <-Zminus_mod_idemp_r.
  pose proof (Z.mod_pos_bound base size Hs).
  symmetry. apply (Z.mod_unique _ _ (-1)); lia.
Qed.

(** [ENQUEUE_PTRS] writes object [i] to slot [(head + i) mod size]. *)
Lemma ENQUEUE_PTRS_spec k r objs head n :
  ring_wf k r → 0 ≤ n ≤ 2 ^ k → n ≤ Z.of_nat (length objs) →
  ∃ slots, ENQUEUE_PTRS r objs head (2 ^ k - 1) n = Some slots ∧
    length slots = length (ring r) ∧
    ∀ j, 0 ≤ j < 2 ^ k → aget slots j =
      if decide ((j - head) mod 2 ^ k < n) then aget objs ((j - head) mod 2 ^ k)
      else aget (ring r) j.
Proof.
  intros [Hk Hp _ _ Hlen] Hn Ho. pose proof (size_bound k Hk) as Hs. unfold ENQUEUE_PTRS.
  rewrite Hp, land_mask by lia. set (size := 2 ^ k) in *. set (idx := head mod size).
  assert (Hi : 0 ≤ idx < size) by (apply Z.mod_pos_bound; lia).
  rewrite uwrap_small by lia. destruct (Z.ltb_spec (idx + n) size).
  - rewrite unrolled_copy by lia.
    destruct (copy_n_spec (Z.to_nat n) objs 0 (ring r) idx) as (d & -> & Hl & Hj); [lia..|].
    exists d. split; [done|]. split; [done|]. intros j Hj'. rewrite Hj.
    destruct (Z.leb_spec idx j).
    + rewrite (mod_offset size head j) by (done || lia). fold idx. simpl.
      destruct (decide _), (decide _); (done || lia).
    + rewrite (mod_offset_wrap size head j) by (done || lia). fold idx.
      rewrite !decide_False by lia. done.
  - rewrite (copy_loop_copy_n (Z.to_nat (size - idx))) by lia.
    destruct (copy_n_spec (Z.to_nat (size - idx)) objs 0 (ring r) idx)
      as (d & -> & Hl & Hj); [lia..|]. cbn [mbind option_bind].
    rewrite (copy_loop_copy_n (Z.to_nat (n - (size - idx)))) by lia.
    destruct (copy_n_spec (Z.to_nat (n - (size - idx))) objs
      (0 + Z.of_nat (Z.to_nat (size - idx))) d 0) as (d' & -> & Hl' & Hj'); [lia..|].
    exists d'. split; [done|]. split; [congruence|]. intros j Hj0. rewrite Hj', Hj.
    destruct (Z.leb_spec idx j).
    + rewrite (mod_offset size head j) by (done || lia). fold idx.
      rewrite (decide_False (P := 0 ≤ j < _)) by lia. rewrite !decide_True by lia. done.
    + rewrite (mod_offset_wrap size head j) by (done || lia). fold idx.
      rewrite (decide_False (P := idx ≤ j < _)) by lia.
      destruct (decide _), (decide _); try lia; [|done]. f_equal. lia.
Qed.

(** [DEQUEUE_PTRS] reads object [i] from slot [(head + i) mod size]. *)
Lemma DEQUEUE_PTRS_spec k r table head n :
  ring_wf k r → 0 ≤ n ≤ 2 ^ k → n ≤ Z.of_nat (length table) →
  ∃ table', DEQUEUE_PTRS r table head (2 ^ k - 1) n = Some table' ∧
    length table' = length table ∧
    ∀ i, aget table' i =
      if decide (0 ≤ i < n) then aget (ring r) ((head + i) mod 2 ^ k) else aget table i.
Proof.
  intros [Hk _ Hc _ Hlen] Hn Ho. pose proof (size_bound k Hk) as Hs. unfold DEQUEUE_PTRS.
  rewrite Hc, land_mask by lia. set (size := 2 ^ k) in *. set (idx := head mod size).
  assert (Hi : 0 ≤ idx < size) by (apply Z.mod_pos_bound; lia).
  assert (Hadd : ∀ i, 0 ≤ i < n → (head + i) mod size =
    if decide (i < size - idx) then idx + i else idx + i - size).
  { intros i Hi'. rewrite <-Z.add_mod_idemp_l by lia. fold idx. case_decide.
    - apply Z.mod_small. lia.
    - symmetry. apply (Z.mod_unique _ _ 1); lia. }
  rewrite uwrap_small by lia. destruct (Z.ltb_spec (idx + n) size).
  - rewrite unrolled_copy by lia.
    destruct (copy_n_spec (Z.to_nat n) (ring r) idx table 0) as (d & -> & Hl & Hj); [lia..|].
    exists d. split; [done|]. split; [done|]. intros i. rewrite Hj.
    destruct (decide (0 ≤ i < n)).
    + rewrite decide_True, Hadd, decide_True by lia. f_equal. lia.
    + by rewrite decide_False by lia.
  - rewrite (copy_loop_copy_n (Z.to_nat (size - idx))) by lia.
    destruct (copy_n_spec (Z.to_nat (size - idx)) (ring r) idx table 0)
      as (d & -> & Hl & Hj); [lia..|]. cbn [mbind option_bind].
    rewrite (copy_loop_copy_n (Z.to_nat (n - (size - idx)))) by lia.
    destruct (copy_n_spec (Z.to_nat (n - (size - idx))) (ring r) 0 d
      (0 + Z.of_nat (Z.to_nat (size - idx)))) as (d' & -> & Hl' & Hj'); [lia..|].
    exists d'. split; [done|]. split; [congruence|]. intros i. rewrite Hj', Hj.
    destruct (decide (0 ≤ i < n)).
    + rewrite Hadd by lia. destruct (decide (i < size - idx)).
      * rewrite decide_False, decide_True by lia. f_equal. lia.
      * rewrite decide_True by lia. f_equal. lia.
    + by rewrite !decide_False by lia.
Qed.

(** ** The ring as a bounded queue *)

(** [r], when no operation is in progress, holds the objects [q], oldest first. *)
Record ring_rep (k : Z) (r : rte_ring) (q : list Z) : Prop := {
  rr_wf : ring_wf k r;
  rr_prod : prod_head (r_prod r) = prod_tail (r_prod r);
  rr_cons : cons_head (r_cons r) = cons_tail (r_cons r);
  rr_ptail : uint_ok 32 (prod_tail (r_prod r));
  rr_ctail : uint_ok 32 (cons_tail (r_cons r));
  rr_count : u32 (prod_tail (r_prod r) - cons_tail (r_cons r)) = Z.of_nat (length q);
  rr_cap : Z.of_nat (length q) < 2 ^ k;
  rr_items : ∀ i x, q !! i = Some x →
    aget (ring r) ((cons_tail (r_cons r) + Z.of_nat i) mod 2 ^ k) = Some x
}.

(** What the enqueue and dequeue operations do to a queue of capacity [cap] with a
    high water mark [wm]: the value returned and the queue. The answers say when the objects
    enqueued reach the water mark: a fixed enqueue answers [-EDQUOT], a variable one sets the
    sign bit of the number of objects. *)
Definition queue_enqueue (cap wm : Z) (q objs : list Z) (n : Z)
    (behavior : rte_ring_queue_behavior) : Z * list Z :=
  let used := Z.of_nat (length q) in
  let push m :=
    (if wm <=? used + m then
       match behavior with RTE_RING_QUEUE_FIXED => - EDQUOT | _ => m - 2 ^ 31 end
     else match behavior with RTE_RING_QUEUE_FIXED => 0 | _ => m end,
     q ++ take (Z.to_nat m) objs) in
  if cap - used <? n then
    match behavior with
    | RTE_RING_QUEUE_FIXED => (- ENOBUFS, q)
    | RTE_RING_QUEUE_VARIABLE => if cap - used =? 0 then (0, q) else push (cap - used)
    end
  else push n.

Definition queue_dequeue (q : list Z) (n : Z) (behavior : rte_ring_queue_behavior) :
    Z * list Z * list Z :=
  let used := Z.of_nat (length q) in
  let pop m :=
    (match behavior with RTE_RING_QUEUE_FIXED => 0 | _ => m end,
     take (Z.to_nat m) q, drop (Z.to_nat m) q) in
  if used <? n then
    match behavior with
    | RTE_RING_QUEUE_FIXED => (- ENOENT, [], q)
    | RTE_RING_QUEUE_VARIABLE => if used =? 0 then (0, [], q) else pop used
    end
  else pop n.

Lemma u32_eq_mod a b : uint_ok 32 a → a = u32 b → (b - a) mod 2 ^ 32 = 0.
Proof. intros Ha ->. unfold uwrap. by rewrite Zminus_mod_idemp_r, Z.sub_diag. Qed.

(** The tail of the producer is [length q] positions behind the one of the consumer. *)
Lemma rep_ptail k r q :
  ring_rep k r q →
  prod_tail (r_prod r) = u32 (cons_tail (r_cons r) + Z.of_nat (length q)).
Proof.
  intros H. rewrite <-(rr_count k r q H). unfold uwrap.
  rewrite Z.add_mod_idemp_r by lia. rewrite Zplus_minus. symmetry.
  apply Z.mod_small, (rr_ptail k r q H).
Qed.

(** Appending objects behind the queue. *)
Lemma rep_push k r q objs n slots :
  ring_rep k r q → 0 ≤ n → n + Z.of_nat (length q) < 2 ^ k → n ≤ Z.of_nat (length objs) →
  length slots = length (ring r) →
  (∀ j, 0 ≤ j < 2 ^ k → aget slots j =
      if decide ((j - prod_head (r_prod r)) mod 2 ^ k < n)
      then aget objs ((j - prod_head (r_prod r)) mod 2 ^ k) else aget (ring r) j) →
  let next := u32 (prod_head (r_prod r) + n) in
  ring_rep k (set_prod (set_slots r slots) next next) (q ++ take (Z.to_nat n) objs).
Proof.
  intros Hrep Hn Hcap Hobjs Hlen Hslots next. pose proof (rep_ptail k r q Hrep) as Hpt.
  destruct Hrep as [Hwf Hp Hc Hpr Hcr Hcount Hq Hitems]. pose proof Hwf as [Hk Hps Hcs Hm Hl].
  pose proof (size_bound k Hk) as Hs. rewrite Hp in *.
  assert (Hlq : Z.of_nat (length (q ++ take (Z.to_nat n) objs)) = Z.of_nat (length q) + n)
    by (rewrite length_app, length_take; lia).
  assert (Hoff : ∀ m, 0 ≤ m → (cons_tail (r_cons r) + m - prod_tail (r_prod r)) mod 2 ^ k =
    (m - Z.of_nat (length q)) mod 2 ^ k).
  { intros m _. rewrite <-Zminus_mod_idemp_r, Hpt, (u32_mod_size k), Zminus_mod_idemp_r by lia.
    f_equal. lia. }
  split; simpl; try done.
  - by split; simpl; try done; rewrite Hlen.
  - apply uwrap_range. lia.
  - unfold next. rewrite Hp. unfold uwrap. rewrite Zminus_mod_idemp_l, Hlq.
    replace (prod_tail (r_prod r) + n - cons_tail (r_cons r))
      with (prod_tail (r_prod r) - cons_tail (r_cons r) + n) by lia.
    rewrite <-Z.add_mod_idemp_l by lia. fold (u32 (prod_tail (r_prod r) - cons_tail (r_cons r))).
    rewrite Hcount. apply Z.mod_small. lia.
  - lia.
  - intros i x Hx. pose proof (lookup_lt_Some _ _ _ Hx) as Hi.
    rewrite Hslots by (apply Z.mod_pos_bound; lia).
    rewrite Zminus_mod_idemp_l, Hoff by lia. destruct (decide (i < length q)%nat) as [Hlt|Hge].
    + rewrite lookup_app_l in Hx by done.
      assert ((Z.of_nat i - Z.of_nat (length q)) mod 2 ^ k =
        Z.of_nat i - Z.of_nat (length q) + 2 ^ k) as ->
        by (symmetry; apply (Z.mod_unique _ _ (-1)); lia).
      rewrite decide_False by lia. by apply Hitems.
    + rewrite Z.mod_small by lia. rewrite decide_True by lia.
      rewrite lookup_app_r in Hx by lia. apply lookup_take_Some in Hx as [Hx _].
      rewrite <-Hx, <-aget_nat. f_equal. lia.
Qed.

(** Removing objects from the front of the queue. *)
Lemma rep_pop k r q n :
  ring_rep k r q → 0 ≤ n ≤ Z.of_nat (length q) →
  let next := u32 (cons_head (r_cons r) + n) in
  ring_rep k (set_cons r next next) (drop (Z.to_nat n) q).
Proof.
  intros Hrep Hn next. destruct Hrep as [Hwf Hp Hc Hpr Hcr Hcount Hq Hitems].
  pose proof Hwf as [Hk Hps Hcs Hm Hl]. pose proof (size_bound k Hk) as Hs.
  split; simpl; try done.
  - apply uwrap_range. lia.
  - unfold next, uwrap in *. rewrite Hc, Zminus_mod_idemp_r, length_drop, Z.sub_add_distr.
    rewrite <-Zminus_mod_idemp_l, Hcount. rewrite Z.mod_small by lia. lia.
  - rewrite length_drop. lia.
  - intros i x Hx. rewrite lookup_drop in Hx. unfold next. rewrite Hc.
    rewrite <-Z.add_mod_idemp_l, (u32_mod_size k), Z.add_mod_idemp_l by lia.
    rewrite <-(Hitems _ _ Hx). f_equal. f_equal. lia.
Qed.

(** The number of free entries that the producer computes. *)
Lemma rep_free k r q :
  ring_rep k r q →
  u32 (prod_mask (r_prod r) + cons_tail (r_cons r) - prod_head (r_prod r)) =
    2 ^ k - 1 - Z.of_nat (length q).
Proof.
  intros [[Hk _ _ Hm _] Hp _ _ _ Hcount Hq _]. pose proof (size_bound k Hk).
  rewrite Hm, Hp. unfold uwrap in *.
  replace (2 ^ k - 1 + cons_tail (r_cons r) - prod_tail (r_prod r))
    with (2 ^ k - 1 - (prod_tail (r_prod r) - cons_tail (r_cons r))) by lia.
  rewrite <-Zminus_mod_idemp_r, Hcount. apply Z.mod_small. lia.
Qed.

(** The value returned after [n] objects were copied. *)
Lemma enqueue_ret_spec k r q behavior n slots head :
  ring_rep k r q → 0 ≤ n → n + Z.of_nat (length q) < 2 ^ k →
  enqueue_ret behavior (set_slots (set_prod r head (prod_tail (r_prod r))) slots)
    (prod_mask (r_prod r)) (2 ^ k - 1 - Z.of_nat (length q)) n =
  (if watermark (r_prod r) <=? Z.of_nat (length q) + n then
     match behavior with RTE_RING_QUEUE_FIXED => - EDQUOT | _ => n - 2 ^ 31 end
   else match behavior with RTE_RING_QUEUE_FIXED => 0 | _ => n end).
Proof.
  intros [[Hk _ _ Hm _] _ _ _ _ _ _ _] Hn Hcap. pose proof (size_bound k Hk).
  unfold enqueue_ret. simpl. rewrite Hm.
  rewrite (uwrap_small 32 (2 ^ k - 1 + 1)) by lia. rewrite uwrap_small by lia.
  replace (2 ^ k - 1 + 1 - (2 ^ k - 1 - Z.of_nat (length q)) + n)
    with (Z.succ (Z.of_nat (length q) + n)) by lia.
  replace (watermark (r_prod r) <? Z.succ (Z.of_nat (length q) + n))
    with (watermark (r_prod r) <=? Z.of_nat (length q) + n)
    by (destruct (Z.leb_spec (watermark (r_prod r)) (Z.of_nat (length q) + n)), (Z.ltb_spec (watermark (r_prod r)) (Z.succ (Z.of_nat (length q) + n))); done || lia).
  destruct (_ <=? _), behavior; try done; [|by apply swrap_small; lia].
  rewrite <-Z.add_nocarry_lor.
  - unfold swrap, RTE_RING_QUOT_EXCEED. rewrite Z.shiftl_1_l.
    change (32 - 1) with 31.
    rewrite Z.mod_small by lia. rewrite (proj2 (Z.ltb_ge _ _)) by lia. lia.
  - apply Z.bits_inj'. intros i Hi. unfold RTE_RING_QUOT_EXCEED.
    rewrite Z.land_spec, Z.shiftl_1_l, testbit_pow2, Z.testbit_0_l by lia.
    destruct (Z.eqb_spec 31 i) as [<-|]; [|apply andb_false_r].
    rewrite (testbit_small n 31) by lia. done.
Qed.

(** Copying [m] objects in and publishing them. *)
Lemma rep_enqueue k r q objs m :
  ring_rep k r q → 0 ≤ m → m + Z.of_nat (length q) < 2 ^ k → m ≤ Z.of_nat (length objs) →
  let next := u32 (prod_head (r_prod r) + m) in
  let r1 := set_prod r next (prod_tail (r_prod r)) in
  ∃ slots, ENQUEUE_PTRS r1 objs (prod_head (r_prod r)) (prod_mask (r_prod r)) m = Some slots ∧
    ring_rep k (set_prod (set_slots r1 slots) next next) (q ++ take (Z.to_nat m) objs).
Proof.
  intros Hrep Hm1 Hm2 Hm3 next r1. pose proof (rr_wf k r q Hrep) as Hwf.
  assert (Hwf1 : ring_wf k r1) by (destruct Hwf; by split).
  rewrite (rw_mask k r Hwf).
  destruct (ENQUEUE_PTRS_spec k r1 objs (prod_head (r_prod r)) m Hwf1)
    as (slots & -> & Hl & Hj); [lia..|].
  exists slots. split; [done|].
  exact (rep_push k r q objs m slots Hrep Hm1 Hm2 Hm3 Hl Hj).
Qed.

(** C12 [refinement]. The single-producer enqueue implements the abstract bounded
    queue of capacity [size - 1] on every branch: the result codes of the fixed and
    of the variable behaviour, full queues included, the objects accepted are appended
    in order, and no access leaves the ring or the object table, also when the 32-bit
    indexes and the slots wrap around. The answer for the high water mark comes as soon as
    the objects in the ring reach it, not only when they exceed it as the documentation
    says; a burst that reaches it answers the number of objects with the sign bit set. The macro
    [ENQUEUE_PTRS] is taken with the line comment inside of it, which ends the macro, left out. *)
Theorem sp_enqueue_refines_queue k r q objs n behavior :
  ring_rep k r q → 0 ≤ n ≤ Z.of_nat (length objs) →
  ∃ ret r' q', __rte_ring_sp_do_enqueue r objs n behavior = Some (ret, r') ∧
    queue_enqueue (2 ^ k - 1) (watermark (r_prod r)) q objs n behavior = (ret, q') ∧
    ring_rep k r' q' ∧ watermark (r_prod r') = watermark (r_prod r).
Proof.
  intros Hrep Hn. unfold __rte_ring_sp_do_enqueue, queue_enqueue.
  rewrite (rep_free k r q Hrep). pose proof (rr_cap k r q Hrep) as Hcap.
  unfold enqueue_room. destruct (Z.ltb_spec (2 ^ k - 1 - Z.of_nat (length q)) n) as [Hfull|Hroom].
  - destruct behavior; [by eexists _, r, q|].
    destruct (Z.eqb_spec (2 ^ k - 1 - Z.of_nat (length q)) 0); [by eexists _, r, q|].
    destruct (rep_enqueue k r q objs (2 ^ k - 1 - Z.of_nat (length q)))
      as (slots & -> & Hr'); [done|lia..|].
    cbn [mbind option_bind]. eexists _, _, _. split; [done|].
    rewrite (enqueue_ret_spec k r q) by (done || lia). done.
  - destruct (rep_enqueue k r q objs n) as (slots & -> & Hr'); [done|lia..|].
    cbn [mbind option_bind]. eexists _, _, _. split; [done|].
    rewrite (enqueue_ret_spec k r q) by (done || lia). done.
Qed.

(** A ring of four slots whose indexes are about to wrap, holding one object. *)
Definition ring_example : rte_ring :=
  mkRing 0 (mkProd 4 true 4 3 (2 ^ 32 - 1) (2 ^ 32 - 1)) (mkCons true 4 3 (2 ^ 32 - 2) (2 ^ 32 - 2))
    [10; 11; 12; 13].

Lemma ring_example_rep : ring_rep 2 ring_example [12].
Proof.
  split; try done. intros [|[|i]] x Hx; [|done..]. injection Hx as <-. reflexivity.
Qed.

Lemma sp_enqueue_refines_queue_witness :
  ∃ ret r' q', __rte_ring_sp_do_enqueue ring_example [7; 8] 2 RTE_RING_QUEUE_FIXED
      = Some (ret, r') ∧ ret = 0 ∧ q' = [12; 7; 8] ∧ ring_rep 2 r' q'.
Proof.
  destruct (sp_enqueue_refines_queue 2 ring_example [12] [7; 8] 2 RTE_RING_QUEUE_FIXED)
    as (ret & r' & q' & H1 & H2 & H3 & _); [apply ring_example_rep|simpl; lia|].
  exists ret, r', q'. split; [exact H1|]. vm_compute in H2. injection H2 as <- <-. done.
Defined.

Lemma list_aget_ext (l1 l2 : list Z) :
  (∀ i : nat, aget l1 (Z.of_nat i) = aget l2 (Z.of_nat i)) → l1 = l2.
Proof. intros H. apply list_eq. intros i. by rewrite <-!aget_nat. Qed.

(** Copying [m] objects out and releasing their slots. *)
Lemma rep_dequeue k r q table m :
  ring_rep k r q → 0 ≤ m ≤ Z.of_nat (length q) → m ≤ Z.of_nat (length table) →
  let next := u32 (cons_tail (r_cons r) + m) in
  let r1 := set_cons r next (cons_tail (r_cons r)) in
  DEQUEUE_PTRS r1 table (cons_tail (r_cons r)) (prod_mask (r_prod r)) m =
    Some (take (Z.to_nat m) q ++ drop (length (take (Z.to_nat m) q)) table) ∧
  ring_rep k (set_cons r1 next next) (drop (Z.to_nat m) q) ∧ s32 m = m.
Proof.
  intros Hrep Hm1 Hm2 next r1. pose proof (rr_wf k r q Hrep) as Hwf.
  pose proof (rr_cap k r q Hrep). pose proof (size_bound k (rw_k k r Hwf)) as Hs.
  assert (Hwf1 : ring_wf k r1) by (destruct Hwf; by split).
  rewrite (rw_mask k r Hwf).
  destruct (DEQUEUE_PTRS_spec k r1 table (cons_tail (r_cons r)) m Hwf1)
    as (t & -> & Hl & Hj); [lia..|].
  split; [|split; [|apply swrap_small; lia]].
  - f_equal. apply list_aget_ext. intros i. rewrite Hj.
    rewrite (length_take_le q) by lia. rewrite !aget_nat. destruct (decide (0 ≤ Z.of_nat i < m)).
    + destruct (lookup_lt_is_Some_2 q i) as [x Hx]; [lia|].
      rewrite lookup_app_l by (rewrite length_take; lia).
      rewrite lookup_take_lt, Hx by lia. by apply (rr_items k r q Hrep).
    + rewrite lookup_app_r by (rewrite length_take; lia).
      rewrite length_take_le, lookup_drop by lia. f_equal. lia.
  - pose proof (rep_pop k r q m Hrep Hm1) as Hp. rewrite (rr_cons k r q Hrep) in Hp. exact Hp.
Qed.

(** C13 [refinement]. The single-consumer dequeue implements the abstract queue on
    every branch: it removes the oldest objects, puts them in order at the front of
    the object table, whose rest stays as it was, and reports the queue being too
    short as the behaviour demands. *)
Theorem sc_dequeue_refines_queue k r q table n behavior :
  ring_rep k r q → 0 ≤ n ≤ Z.of_nat (length table) →
  ∃ ret got r' q', queue_dequeue q n behavior = (ret, got, q') ∧
    __rte_ring_sc_do_dequeue r table n behavior =
      Some (ret, got ++ drop (length got) table, r') ∧
    ring_rep k r' q' ∧ watermark (r_prod r') = watermark (r_prod r).
Proof.
  intros Hrep Hn. unfold __rte_ring_sc_do_dequeue, queue_dequeue.
  rewrite (rr_cons k r q Hrep), (rr_count k r q Hrep).
  unfold dequeue_room. destruct (Z.ltb_spec (Z.of_nat (length q)) n) as [Hshort|Hok].
  - destruct behavior; [by eexists _, [], r, q|].
    destruct (Z.eqb_spec (Z.of_nat (length q)) 0); [by eexists _, [], r, q|].
    destruct (rep_dequeue k r q table (Z.of_nat (length q)) Hrep) as (-> & Hr' & Hs32); [lia..|].
    eexists _, _, _, _. split; [done|]. simpl. by rewrite Hs32.
  - destruct (rep_dequeue k r q table n Hrep) as (-> & Hr' & Hs32); [lia..|].
    eexists _, _, _, _. split; [done|]. split; [|done].
    destruct behavior; simpl; by rewrite ?Hs32.
Qed.

Lemma sc_dequeue_refines_queue_witness :
  ∃ got r' q', __rte_ring_sc_do_dequeue ring_example [0; 0] 2 RTE_RING_QUEUE_VARIABLE
      = Some (1, got ++ [0], r') ∧ got = [12] ∧ ring_rep 2 r' q'.
Proof.
  destruct (sc_dequeue_refines_queue 2 ring_example [12] [0; 0] 2 RTE_RING_QUEUE_VARIABLE)
    as (ret & got & r' & q' & H1 & H2 & H3 & _); [apply ring_example_rep|simpl; lia|].
  exists got, r', q'. vm_compute in H1. injection H1 as <- <- <-.
  split; [exact H2|]. split; [done|exact H3].
Defined.

(** ** Creation and status *)

Lemma POWEROF2_pow2 k : 0 ≤ k < 28 → POWEROF2 (2 ^ k) = true.
Proof.
  intros Hk. pose proof (size_bound k Hk). unfold POWEROF2.
  rewrite uwrap_small, Z.land_comm, land_mask by lia.
  rewrite Z.mod_same by (apply Z.pow_nonzero; lia). done.
Qed.

(** A ring created with a power of two below 2^28 is the empty
    queue; the status functions of a ring that holds a queue report its emptiness,
    its number of objects, the room that is left and fullness exactly. *)
Theorem ring_create_and_status k fl slots :
  0 ≤ k < 28 → Z.of_nat (length slots) = 2 ^ k →
  (∃ r, rte_ring_create (2 ^ k) fl (Some slots) = inl r ∧ ring_rep k r []) ∧
  ∀ r q, ring_rep k r q →
    (rte_ring_empty r = true ↔ q = []) ∧
    rte_ring_count r = Z.of_nat (length q) ∧
    rte_ring_free_count r = 2 ^ k - 1 - Z.of_nat (length q) ∧
    (rte_ring_full r = true ↔ Z.of_nat (length q) = 2 ^ k - 1).
Proof.
  intros Hk Hl. pose proof (size_bound k Hk) as Hs. split.
  - unfold rte_ring_create. rewrite POWEROF2_pow2 by done.
    unfold RTE_RING_SZ_MASK. rewrite (proj2 (Z.ltb_ge _ _)) by lia. simpl. eexists.
    split; [done|]. rewrite uwrap_small by lia. split; simpl; try done; lia.
  - intros r q Hrep. pose proof (rep_free k r q Hrep) as Hfree.
    pose proof (rr_prod k r q Hrep) as Hp. destruct Hrep as [[_ _ _ Hm _] _ _ Hpt Hct Hcount Hcap _].
    unfold rte_ring_empty, rte_ring_count, rte_ring_free_count, rte_ring_full.
    rewrite Hm, Hp, Hcount in *. rewrite !land_mask by lia.
    assert (Hf : u32 (cons_tail (r_cons r) - prod_tail (r_prod r) - 1) mod 2 ^ k =
      2 ^ k - 1 - Z.of_nat (length q)).
    { rewrite u32_mod_size by lia. rewrite <-(Z.mod_small (2 ^ k - 1 - _) (2 ^ k)) by lia.
      rewrite <-Hfree, u32_mod_size by lia. rewrite <-(Z.mod_add _ 1) by lia. f_equal. lia. }
    rewrite Hf, Z.mod_small by lia. split; [|split; [done|split; [done|]]].
    + rewrite Z.eqb_eq. split.
      * intros E. rewrite E, Z.sub_diag in Hcount. simpl in Hcount.
        apply length_zero_iff_nil. change (u32 0) with 0 in Hcount. lia.
      * intros ->. unfold uint_ok, uwrap in *. simpl in Hcount.
        rewrite Z.mod_eq in Hcount by lia. nia.
    + rewrite Z.eqb_eq. lia.
Qed.

Lemma ring_create_and_status_witness :
  ∃ r, rte_ring_create 4 0 (Some [0; 0; 0; 0]) = inl r ∧ rte_ring_empty r = true.
Proof.
  destruct (ring_create_and_status 2 0 [0; 0; 0; 0]) as [(r & H1 & H2) H3]; [lia|done|].
  exists r. split; [exact H1|]. apply (H3 r [] H2). done.
Defined.

(** A ring of size zero is accepted by [rte_ring_create], because
    [POWEROF2(0)] holds, and reports 2^32 - 1 free entries: the first enqueue writes
    outside of its empty array. *)
Theorem ring_create_zero_out_of_bounds fl obj behavior :
  ∃ r, rte_ring_create 0 fl (Some []) = inl r ∧
    __rte_ring_sp_do_enqueue r [obj] 1 behavior = None.
Proof. eexists. split; [reflexivity|]. by destruct behavior. Qed.
