(* ===== verification/RteRingMp.v ===== *)
(** * The ring shared by many producers and consumers (src/cpp-util/rte_ring.h)

    [__rte_ring_mp_do_enqueue] and [__rte_ring_mc_do_dequeue] as sequences of
    atomic steps: the loads of the two indexes, the compare-and-set of the head,
    one step per slot that is copied, the wait for earlier operations and the store
    of the tail.  A system is a ring with any number of such calls in progress; a
    schedule is any sequence of their steps.  The theorems show that a call that
    runs alone does what the single-producer and single-consumer operations do, and
    that under every schedule the objects leave the ring in the order in which they
    entered it, none lost and none twice. *)

From S2P Require Import Prelude Claims RteRing.

(** ** The calls *)

Record pcall := mkP { p_objs : list Z; p_n : Z; p_behavior : rte_ring_queue_behavior }.
Record ccall := mkC { c_table : list Z; c_n : Z; c_behavior : rte_ring_queue_behavior }.

(** Program points of an enqueue: at the load of the producer head; at the load of
    the consumer tail; at the compare-and-set; at the copy of object [i]; waiting
    for the tail; at the store of the tail; returned, with the number of objects
    that were put in. *)
Inductive ppc :=
  | PLoad
  | PLoadTail (head : Z)
  | PCas (head free n : Z)
  | PCopy (head free n i : Z)
  | PWait (head n ret : Z)
  | PPublish (head n ret : Z)
  | PRet (n ret : Z).

(** Program points of a dequeue; they carry the object table once it is written. *)
Inductive cpc :=
  | CLoad
  | CLoadTail (head : Z)
  | CCas (head n : Z)
  | CCopy (head n i : Z) (table : list Z)
  | CWait (head n : Z) (table : list Z)
  | CPublish (head n : Z) (table : list Z)
  | CRet (n ret : Z) (table : list Z).

(** src/cpp-util/rte_ring.h:313-382, [__rte_ring_mp_do_enqueue]. One atomic step. *)
Definition mp_step (c : pcall) (r : rte_ring) (pc : ppc) : option (rte_ring * ppc) :=
  let mask := prod_mask (r_prod r) in
  match pc with
  | PLoad => Some (r, PLoadTail (prod_head (r_prod r)))
  | PLoadTail head =>
      let free_entries := u32 (mask + cons_tail (r_cons r) - head) in
      match enqueue_room (p_behavior c) (p_n c) free_entries with
      | inr ret => Some (r, PRet 0 ret)
      | inl n => Some (r, PCas head free_entries n)
      end
  | PCas head free n =>
      if prod_head (r_prod r) =? head then
        Some (set_prod r (u32 (head + n)) (prod_tail (r_prod r)), PCopy head free n 0)
      else Some (r, PLoad)
  | PCopy head free n i =>
      if i <? n then
        v ← aget (p_objs c) i;
        slots ← aset (ring r) (Z.land (head + i) mask) v;
        Some (set_slots r slots, PCopy head free n (i + 1))
      else Some (r, PWait head n (enqueue_ret (p_behavior c) r mask free n))
  | PWait head n ret =>
      if negb (prod_tail (r_prod r) =? head) then Some (r, PWait head n ret)
      else Some (r, PPublish head n ret)
  | PPublish head n ret =>
      Some (set_prod r (prod_head (r_prod r)) (u32 (head + n)), PRet n ret)
  | PRet n ret => Some (r, PRet n ret)
  end.

(** src/cpp-util/rte_ring.h:486-547, [__rte_ring_mc_do_dequeue]. One atomic step. *)
Definition mc_step (c : ccall) (r : rte_ring) (pc : cpc) : option (rte_ring * cpc) :=
  let mask := prod_mask (r_prod r) in
  match pc with
  | CLoad => Some (r, CLoadTail (cons_head (r_cons r)))
  | CLoadTail head =>
      let entries := u32 (prod_tail (r_prod r) - head) in
      match dequeue_room (c_behavior c) (c_n c) entries with
      | inr ret => Some (r, CRet 0 ret (c_table c))
      | inl n => Some (r, CCas head n)
      end
  | CCas head n =>
      if cons_head (r_cons r) =? head then
        Some (set_cons r (u32 (head + n)) (cons_tail (r_cons r)), CCopy head n 0 (c_table c))
      else Some (r, CLoad)
  | CCopy head n i table =>
      if i <? n then
        v ← aget (ring r) (Z.land (head + i) mask);
        table ← aset table i v;
        Some (r, CCopy head n (i + 1) table)
      else Some (r, CWait head n table)
  | CWait head n table =>
      if negb (cons_tail (r_cons r) =? head) then Some (r, CWait head n table)
      else Some (r, CPublish head n table)
  | CPublish head n table =>
      Some (set_cons r (cons_head (r_cons r)) (u32 (head + n)),
            CRet n (dequeue_ret (c_behavior c) n) table)
  | CRet n ret table => Some (r, CRet n ret table)
  end.

(** A call that runs alone. *)
Fixpoint mp_run (fuel : nat) (c : pcall) (r : rte_ring) (pc : ppc) : option (Z * rte_ring) :=
  match pc with
  | PRet _ ret => Some (ret, r)
  | _ =>
      match fuel with
      | O => None
      | S fuel' => '(r', pc') ← mp_step c r pc; mp_run fuel' c r' pc'
      end
  end.
Fixpoint mc_run (fuel : nat) (c : ccall) (r : rte_ring) (pc : cpc) :
    option (Z * list Z * rte_ring) :=
  match pc with
  | CRet _ ret table => Some (ret, table, r)
  | _ =>
      match fuel with
      | O => None
      | S fuel' => '(r', pc') ← mc_step c r pc; mc_run fuel' c r' pc'
      end
  end.

(** src/cpp-util/rte_ring.h:313-382, [__rte_ring_mp_do_enqueue]. The whole call. *)
Definition __rte_ring_mp_do_enqueue (r : rte_ring) (obj_table : list Z) (n : Z)
    (behavior : rte_ring_queue_behavior) : option (Z * rte_ring) :=
  mp_run (Z.to_nat n + 6) (mkP obj_table n behavior) r PLoad.

(** src/cpp-util/rte_ring.h:486-547, [__rte_ring_mc_do_dequeue]. The whole call. *)
Definition __rte_ring_mc_do_dequeue (r : rte_ring) (obj_table : list Z) (n : Z)
    (behavior : rte_ring_queue_behavior) : option (Z * list Z * rte_ring) :=
  mc_run (Z.to_nat n + 6) (mkC obj_table n behavior) r CLoad.

(** src/cpp-util/rte_ring.h:631-636, [rte_ring_mp_enqueue_bulk]. *)
Definition rte_ring_mp_enqueue_bulk (r : rte_ring) (obj_table : list Z) (n : Z) :=
  __rte_ring_mp_do_enqueue r obj_table n RTE_RING_QUEUE_FIXED.

(** src/cpp-util/rte_ring.h:679-687, [rte_ring_enqueue_bulk]. *)
Definition rte_ring_enqueue_bulk (r : rte_ring) (obj_table : list Z) (n : Z) :=
  if sp_enqueue (r_prod r) then rte_ring_sp_enqueue_bulk r obj_table n
  else rte_ring_mp_enqueue_bulk r obj_table n.

(** src/cpp-util/rte_ring.h:705-709, [rte_ring_mp_enqueue]. *)
Definition rte_ring_mp_enqueue (r : rte_ring) (obj : Z) := rte_ring_mp_enqueue_bulk r [obj] 1.

(** src/cpp-util/rte_ring.h:747-754, [rte_ring_enqueue]. *)
Definition rte_ring_enqueue (r : rte_ring) (obj : Z) :=
  if sp_enqueue (r_prod r) then rte_ring_sp_enqueue r obj else rte_ring_mp_enqueue r obj.

(** src/cpp-util/rte_ring.h:773-777, [rte_ring_mc_dequeue_bulk]. *)
Definition rte_ring_mc_dequeue_bulk (r : rte_ring) (obj_table : list Z) (n : Z) :=
  __rte_ring_mc_do_dequeue r obj_table n RTE_RING_QUEUE_FIXED.

(** src/cpp-util/rte_ring.h:818-825, [rte_ring_dequeue_bulk]. *)
Definition rte_ring_dequeue_bulk (r : rte_ring) (obj_table : list Z) (n : Z) :=
  if sc_dequeue (r_cons r) then rte_ring_sc_dequeue_bulk r obj_table n
  else rte_ring_mc_dequeue_bulk r obj_table n.

(** src/cpp-util/rte_ring.h:842-846, [rte_ring_mc_dequeue]. *)
Definition rte_ring_mc_dequeue (r : rte_ring) (obj_p : list Z) :=
  rte_ring_mc_dequeue_bulk r obj_p 1.

(** src/cpp-util/rte_ring.h:882-889, [rte_ring_dequeue]. *)
Definition rte_ring_dequeue (r : rte_ring) (obj_p : list Z) :=
  if sc_dequeue (r_cons r) then rte_ring_sc_dequeue r obj_p else rte_ring_mc_dequeue r obj_p.

(** src/cpp-util/rte_ring.h:989-994, [rte_ring_mp_enqueue_burst]. *)
Definition rte_ring_mp_enqueue_burst (r : rte_ring) (obj_table : list Z) (n : Z) :=
  __rte_ring_mp_do_enqueue r obj_table n RTE_RING_QUEUE_VARIABLE.

(** src/cpp-util/rte_ring.h:1031-1039, [rte_ring_enqueue_burst]. *)
Definition rte_ring_enqueue_burst (r : rte_ring) (obj_table : list Z) (n : Z) :=
  if sp_enqueue (r_prod r) then rte_ring_sp_enqueue_burst r obj_table n
  else rte_ring_mp_enqueue_burst r obj_table n.

(** src/cpp-util/rte_ring.h:1058-1062, [rte_ring_mc_dequeue_burst]. *)
Definition rte_ring_mc_dequeue_burst (r : rte_ring) (obj_table : list Z) (n : Z) :=
  __rte_ring_mc_do_dequeue r obj_table n RTE_RING_QUEUE_VARIABLE.

(** src/cpp-util/rte_ring.h:1100-1107, [rte_ring_dequeue_burst]. *)
Definition rte_ring_dequeue_burst (r : rte_ring) (obj_table : list Z) (n : Z) :=
  if sc_dequeue (r_cons r) then rte_ring_sc_dequeue_burst r obj_table n
  else rte_ring_mc_dequeue_burst r obj_table n.

(** ** A call that runs alone *)

Lemma slot_index k head i j :
  0 ≤ k → 0 ≤ j < 2 ^ k → 0 ≤ i < 2 ^ k →
  Z.land (head + i) (2 ^ k - 1) = j ↔ (j - head) mod 2 ^ k = i.
Proof.
  intros Hk Hj Hi. pose proof (pow2_pos k Hk). rewrite land_mask by done. split.
  - intros <-. rewrite Zminus_mod_idemp_l. replace (head + i - head) with i by lia.
    by apply Z.mod_small.
  - intros <-. rewrite Z.add_mod_idemp_r by lia. replace (head + (j - head)) with j by lia.
    by apply Z.mod_small.
Qed.

Lemma set_slots_same r : set_slots r (ring r) = r.
Proof. by destruct r. Qed.

(** The copy steps of an enqueue write the slots that [ENQUEUE_PTRS] writes. *)
Lemma mp_copy_alone k c r head free n i m fuel :
  ring_wf k r → 0 ≤ i → n ≤ 2 ^ k → n ≤ Z.of_nat (length (p_objs c)) → n - i = Z.of_nat m →
  ∃ slots, length slots = length (ring r) ∧
    (∀ j, 0 ≤ j < 2 ^ k → aget slots j =
       if decide (i ≤ (j - head) mod 2 ^ k < n) then aget (p_objs c) ((j - head) mod 2 ^ k)
       else aget (ring r) j) ∧
    mp_run (m + fuel) c r (PCopy head free n i) =
      mp_run fuel c (set_slots r slots) (PCopy head free n n).
Proof.
  intros Hwf Hi Hn Ho. revert r i Hwf Hi. induction m as [|m IH]; intros r i Hwf Hi Hm.
  { exists (ring r). split; [done|]. split.
    - intros j Hj. by rewrite decide_False by lia.
    - rewrite set_slots_same. by replace n with i by lia. }
  pose proof Hwf as [Hk _ _ Hmask Hlen]. pose proof (size_bound k Hk) as Hs.
  destruct (aget_is_Some (p_objs c) i) as [v Hv]; [lia|].
  assert (Hx : 0 ≤ Z.land (head + i) (2 ^ k - 1) < Z.of_nat (length (ring r)))
    by (rewrite land_mask, Hlen by lia; apply Z.mod_pos_bound; lia).
  pose proof (aset_Some (ring r) _ v Hx) as Ha.
  set (l1 := <[_:=v]> (ring r)) in Ha.
  assert (Hwf1 : ring_wf k (set_slots r l1)).
  { destruct Hwf. split; try done. simpl. by rewrite (aset_length _ _ _ _ Ha). }
  destruct (IH (set_slots r l1) (i + 1) Hwf1) as (slots & Hl & Hj & Hrun); [lia..|].
  exists slots. simpl in Hl. rewrite (aset_length _ _ _ _ Ha) in Hl. split; [done|]. split.
  - intros j Hj'. rewrite Hj by done. simpl. rewrite (aget_aset _ _ _ _ j Ha).
    pose proof (slot_index k head i j ltac:(lia) Hj' ltac:(lia)) as Hsi.
    destruct (decide (Z.land (head + i) (2 ^ k - 1) = j)) as [He|He].
    + apply Hsi in He. rewrite He, decide_False, decide_True by lia. by rewrite Hv.
    + rewrite Hsi in He. destruct (decide _), (decide _); try done; lia.
  - change (S m + fuel)%nat with (S (m + fuel)). cbn [mp_run]. unfold mp_step at 1.
    rewrite (proj2 (Z.ltb_lt i n)), Hv by lia. cbn [mbind option_bind].
    rewrite Hmask, Ha. cbn [mbind option_bind]. exact Hrun.
Qed.

(** From the copy to the return. *)
Lemma mp_finish_alone k c r head free n slots fuel :
  ring_wf k r → 0 ≤ n ≤ 2 ^ k → n ≤ Z.of_nat (length (p_objs c)) →
  prod_tail (r_prod r) = head →
  ENQUEUE_PTRS r (p_objs c) head (prod_mask (r_prod r)) n = Some slots →
  (3 ≤ fuel)%nat →
  mp_run (Z.to_nat n + fuel) c r (PCopy head free n 0) =
    Some (enqueue_ret (p_behavior c) (set_slots r slots) (prod_mask (r_prod r)) free n,
          set_prod (set_slots r slots) (prod_head (r_prod r)) (u32 (head + n))).
Proof.
  intros Hwf Hn Ho Ht Henq Hfuel. pose proof Hwf as [Hk _ _ Hmask Hlen].
  destruct (mp_copy_alone k c r head free n 0 (Z.to_nat n) fuel Hwf)
    as (l & Hl & Hj & ->); [lia..|].
  rewrite Hmask in Henq.
  destruct (ENQUEUE_PTRS_spec k r (p_objs c) head n Hwf Hn Ho) as (s & Hs & Hsl & Hsj).
  assert (s = slots) as -> by congruence. pose proof (size_bound k Hk).
  assert (l = slots) as ->.
  { apply list_eq_same_length with (n := length (ring r)); [done..|].
    intros i x y Hi Hx Hy. rewrite <-aget_nat in Hx, Hy. rewrite Hj, Hsj in * by lia.
    pose proof (Z.mod_pos_bound (Z.of_nat i - head) (2 ^ k) ltac:(lia)).
    destruct (decide _), (decide _); try lia; congruence. }
  destruct fuel as [|[|[|fuel]]]; [lia..|]. cbn [mp_run mp_step].
  rewrite Z.ltb_irrefl. cbn [mbind option_bind mp_run mp_step]. simpl.
  rewrite Ht, Z.eqb_refl. simpl. by destruct fuel.
Qed.

(** On a ring that no other call uses, the multi-producer enqueue
    returns (its compare-and-set and its wait succeed at once) and does exactly what
    the single-producer enqueue does. *)
Theorem mp_enqueue_alone_is_sp k r q objs n behavior :
  ring_rep k r q → 0 ≤ n ≤ Z.of_nat (length objs) →
  __rte_ring_mp_do_enqueue r objs n behavior = __rte_ring_sp_do_enqueue r objs n behavior.
Proof.
  intros Hrep Hn. unfold __rte_ring_mp_do_enqueue, __rte_ring_sp_do_enqueue.
  pose proof (rep_free k r q Hrep) as Hfree. pose proof (rr_wf k r q Hrep) as Hwf.
  pose proof (rr_cap k r q Hrep) as Hcap.
  replace (Z.to_nat n + 6)%nat with (S (S (S (Z.to_nat n + 3)))) by lia.
  cbn [mp_run mp_step mbind option_bind p_behavior p_n]. rewrite Hfree.
  destruct (enqueue_room behavior n _) as [m|ret] eqn:Er; [|done].
  assert (Hm : 0 ≤ m ≤ n ∧ m ≤ 2 ^ k - 1 - Z.of_nat (length q)).
  { unfold enqueue_room in Er.
    destruct (Z.ltb_spec (2 ^ k - 1 - Z.of_nat (length q)) n), behavior; try done.
    - destruct (_ =? 0); [done|]. injection Er as <-. lia.
    - injection Er as <-. lia.
    - injection Er as <-. lia. }
  cbn [mp_run mp_step mbind option_bind]. rewrite Z.eqb_refl. cbn [mbind option_bind].
  set (r1 := set_prod r (u32 (prod_head (r_prod r) + m)) (prod_tail (r_prod r))).
  assert (Hwf1 : ring_wf k r1) by (destruct Hwf; by split).
  destruct (ENQUEUE_PTRS_spec k r1 objs (prod_head (r_prod r)) m Hwf1) as (slots & Hs & _ & _);
    [lia..|].
  rewrite <-(rw_mask k r Hwf) in Hs. rewrite Hs. cbn [mbind option_bind].
  replace (Z.to_nat n + 3)%nat with (Z.to_nat m + (3 + (Z.to_nat n - Z.to_nat m)))%nat by lia.
  rewrite (mp_finish_alone k _ r1 _ _ m slots); [done|done|lia|simpl; lia| |exact Hs|lia].
  simpl. symmetry. apply (rr_prod k r q Hrep).
Qed.

Lemma mp_enqueue_alone_is_sp_witness :
  __rte_ring_mp_do_enqueue ring_example [7; 8] 2 RTE_RING_QUEUE_FIXED =
  __rte_ring_sp_do_enqueue ring_example [7; 8] 2 RTE_RING_QUEUE_FIXED.
Proof.
  apply (mp_enqueue_alone_is_sp 2 ring_example [12]); [apply ring_example_rep|simpl; lia].
Defined.

(** ** Concurrent calls *)

Record ring_sys := mkSys { sr : rte_ring; prods : list (pcall * ppc); conss : list (ccall * cpc) }.

(** Producer [t] or consumer [t] executes its next step. *)
Inductive ring_event :=
  | EP (t : nat)
  | EC (t : nat).

Definition sys_step (s : ring_sys) (e : ring_event) : option ring_sys :=
  match e with
  | EP t =>
      match prods s !! t with
      | Some (c, pc) =>
          '(r, pc') ← mp_step c (sr s) pc; Some (mkSys r (<[t := (c, pc')]> (prods s)) (conss s))
      | None => Some s
      end
  | EC t =>
      match conss s !! t with
      | Some (c, pc) =>
          '(r, pc') ← mc_step c (sr s) pc; Some (mkSys r (prods s) (<[t := (c, pc')]> (conss s)))
      | None => Some s
      end
  end.

(** *** History variables

    [h_log] is the sequence of all objects put in, in the order of the successful
    compare-and-sets of the producers; the other fields count positions in it: the
    producer tail and the consumer head and tail without wrap-around, and for each
    call the head that it loaded last. *)
Record history := mkHist {
  h_log : list Z; h_pt : Z; h_ch : Z; h_ct : Z; h_ps : list Z; h_cs : list Z }.

Definition h_ph (h : history) : Z := Z.of_nat (length (h_log h)).

Definition hist_step (s : ring_sys) (e : ring_event) (h : history) : history :=
  match e with
  | EP t =>
      match prods s !! t with
      | Some (c, PLoad) =>
          mkHist (h_log h) (h_pt h) (h_ch h) (h_ct h) (<[t := h_ph h]> (h_ps h)) (h_cs h)
      | Some (c, PCas head free n) =>
          if prod_head (r_prod (sr s)) =? head then
            mkHist (h_log h ++ take (Z.to_nat n) (p_objs c)) (h_pt h) (h_ch h) (h_ct h)
              (h_ps h) (h_cs h)
          else h
      | Some (c, PPublish head n ret) =>
          mkHist (h_log h) (h_pt h + n) (h_ch h) (h_ct h) (h_ps h) (h_cs h)
      | _ => h
      end
  | EC t =>
      match conss s !! t with
      | Some (c, CLoad) =>
          mkHist (h_log h) (h_pt h) (h_ch h) (h_ct h) (h_ps h) (<[t := h_ch h]> (h_cs h))
      | Some (c, CCas head n) =>
          if cons_head (r_cons (sr s)) =? head then
            mkHist (h_log h) (h_pt h) (h_ch h + n) (h_ct h) (h_ps h) (h_cs h)
          else h
      | Some (c, CPublish head n table) =>
          mkHist (h_log h) (h_pt h) (h_ch h) (h_ct h + n) (h_ps h) (h_cs h)
      | _ => h
      end
  end.

(** Between the load of a head and the compare-and-set with it, fewer than 2^32
    objects pass: otherwise the 32-bit index could return to its old value. *)
Definition no_overrun (s : ring_sys) (h : history) (e : ring_event) : Prop :=
  match e with
  | EP t =>
      match prods s !! t with
      | Some (_, PCas _ _ _) => ∀ a, h_ps h !! t = Some a → h_ph h - a < 2 ^ 32
      | _ => True
      end
  | EC t =>
      match conss s !! t with
      | Some (_, CCas _ _) => ∀ a, h_cs h !! t = Some a → h_ch h - a < 2 ^ 32
      | _ => True
      end
  end.

(** The calls of a system: at least one object each, and tables that are large
    enough. *)
Definition pcall_ok (c : pcall) : Prop := 1 ≤ p_n c ≤ Z.of_nat (length (p_objs c)).
Definition ccall_ok (c : ccall) : Prop := 1 ≤ c_n c ≤ Z.of_nat (length (c_table c)).

(** The states that a new ring of [2 ^ k] slots and the given calls can reach. *)
Inductive reach (k : Z) (ps : list pcall) (cs : list ccall) : ring_sys → history → Prop :=
  | reach_start fl slots r :
      0 ≤ k < 28 → Z.of_nat (length slots) = 2 ^ k →
      rte_ring_create (2 ^ k) fl (Some slots) = inl r →
      reach k ps cs
        (mkSys r ((λ c, (c, PLoad)) <$> ps) ((λ c, (c, CLoad)) <$> cs))
        (mkHist [] 0 0 0 (replicate (length ps) 0) (replicate (length cs) 0))
  | reach_step s h e s' :
      reach k ps cs s h → no_overrun s h e → sys_step s e = Some s' →
      reach k ps cs s' (hist_step s e h).

(** *** Claims

    A successful compare-and-set claims the positions [a .. a+n-1] of the log. *)

Definition pclaim_n (pc : ppc) : option Z :=
  match pc with
  | PCopy _ _ n _ | PWait _ n _ | PPublish _ n _ => Some n
  | PRet n _ => if n =? 0 then None else Some n
  | _ => None
  end.
Definition cclaim_n (pc : cpc) : option Z :=
  match pc with
  | CCopy _ n _ _ | CWait _ n _ | CPublish _ n _ => Some n
  | CRet n _ _ => if n =? 0 then None else Some n
  | _ => None
  end.
Definition pclaim (s : ring_sys) (h : history) (t : nat) : option (Z * Z) :=
  '(c, pc) ← prods s !! t; a ← h_ps h !! t; n ← pclaim_n pc; Some (a, n).
Definition cclaim (s : ring_sys) (h : history) (t : nat) : option (Z * Z) :=
  '(c, pc) ← conss s !! t; a ← h_cs h !! t; n ← cclaim_n pc; Some (a, n).

(** *** The invariant *)

Definition slot_has (k : Z) (slots log : list Z) (p : Z) : Prop :=
  aget slots (p mod 2 ^ k) = aget log p.

(** The log holds the first [n] objects of the call from position [a]. *)
Definition put (h : history) (c : pcall) (a n : Z) : Prop :=
  1 ≤ n ≤ Z.of_nat (length (p_objs c)) ∧ 0 ≤ a ∧ a + n ≤ h_ph h ∧
  ∀ j, 0 ≤ j < n → aget (h_log h) (a + j) = aget (p_objs c) j.

Definition prod_ok (k : Z) (slots : list Z) (h : history) (c : pcall) (pc : ppc) (a : Z) : Prop :=
  match pc with
  | PLoad => True
  | PLoadTail head => head = u32 a ∧ 0 ≤ a ≤ h_ph h
  | PCas head free n => head = u32 a ∧ 0 ≤ a ≤ h_ph h ∧
      1 ≤ n ≤ Z.of_nat (length (p_objs c)) ∧ (a = h_ph h → a + n ≤ h_ct h + 2 ^ k - 1)
  | PCopy head free n i => head = u32 a ∧ h_pt h ≤ a ∧ put h c a n ∧ 0 ≤ i ≤ n ∧
      ∀ p, a ≤ p < a + i → slot_has k slots (h_log h) p
  | PWait head n ret => head = u32 a ∧ h_pt h ≤ a ∧ put h c a n ∧
      ∀ p, a ≤ p < a + n → slot_has k slots (h_log h) p
  | PPublish head n ret => head = u32 a ∧ a = h_pt h ∧ put h c a n ∧
      ∀ p, a ≤ p < a + n → slot_has k slots (h_log h) p
  | PRet n ret => n = 0 ∨ put h c a n
  end.

(** The table holds the objects of the positions [a .. a+i-1] of the log. *)
Definition got (h : history) (c : ccall) (table : list Z) (a n i : Z) : Prop :=
  1 ≤ n ≤ Z.of_nat (length (c_table c)) ∧ 0 ≤ a ∧ a + n ≤ h_ch h ∧ 0 ≤ i ≤ n ∧
  length table = length (c_table c) ∧
  ∀ j, 0 ≤ j < i → aget table j = aget (h_log h) (a + j).

Definition cons_ok (h : history) (c : ccall) (pc : cpc) (a : Z) : Prop :=
  match pc with
  | CLoad => True
  | CLoadTail head => head = u32 a ∧ 0 ≤ a ≤ h_ch h
  | CCas head n => head = u32 a ∧ 0 ≤ a ≤ h_ch h ∧
      1 ≤ n ≤ Z.of_nat (length (c_table c)) ∧ (a = h_ch h → a + n ≤ h_pt h)
  | CCopy head n i table => head = u32 a ∧ h_ct h ≤ a ∧ got h c table a n i
  | CWait head n table => head = u32 a ∧ h_ct h ≤ a ∧ got h c table a n n
  | CPublish head n table => head = u32 a ∧ a = h_ct h ∧ got h c table a n n
  | CRet n ret table => n = 0 ∨ got h c table a n n
  end.

(** The ring agrees with the history. *)
Record shared_ok (k : Z) (r : rte_ring) (h : history) : Prop := {
  so_wf : ring_wf k r;
  so_ph : prod_head (r_prod r) = u32 (h_ph h);
  so_pt : prod_tail (r_prod r) = u32 (h_pt h);
  so_ch : cons_head (r_cons r) = u32 (h_ch h);
  so_ct : cons_tail (r_cons r) = u32 (h_ct h);
  so_order : 0 ≤ h_ct h ≤ h_ch h ∧ h_ch h ≤ h_pt h ≤ h_ph h ∧ h_ph h < h_ct h + 2 ^ k;
  so_slots : ∀ p, h_ct h ≤ p < h_pt h → slot_has k (ring r) (h_log h) p
}.

Record sys_ok (k : Z) (s : ring_sys) (h : history) : Prop := {
  sk_shared : shared_ok k (sr s) h;
  sk_plen : length (h_ps h) = length (prods s);
  sk_clen : length (h_cs h) = length (conss s);
  sk_pcall : ∀ t c pc, prods s !! t = Some (c, pc) → pcall_ok c;
  sk_ccall : ∀ t c pc, conss s !! t = Some (c, pc) → ccall_ok c;
  sk_prod : ∀ t c pc a, prods s !! t = Some (c, pc) → h_ps h !! t = Some a →
    prod_ok k (ring (sr s)) h c pc a;
  sk_cons : ∀ t c pc a, conss s !! t = Some (c, pc) → h_cs h !! t = Some a → cons_ok h c pc a;
  sk_ptiles : tiles (pclaim s h) (h_ph h);
  sk_ctiles : tiles (cclaim s h) (h_ch h)
}.

(** *** How steps of other calls affect a call *)

(** The history only grows. *)
Record hist_le (h h' : history) : Prop := {
  hl_log : h_log h `prefix_of` h_log h';
  hl_pt : h_pt h ≤ h_pt h';
  hl_ch : h_ch h ≤ h_ch h';
  hl_ct : h_ct h ≤ h_ct h'
}.

Lemma prefix_aget (l l' : list Z) p :
  l `prefix_of` l' → p < Z.of_nat (length l) → aget l' p = aget l p.
Proof.
  intros [x ->] Hp. unfold aget. destruct (Z.leb_spec 0 p); [|done].
  apply lookup_app_l. lia.
Qed.

Lemma prefix_ph h h' : h_log h `prefix_of` h_log h' → h_ph h ≤ h_ph h'.
Proof. intros H%prefix_length. unfold h_ph. lia. Qed.

Lemma put_mono h h' c a n : h_log h `prefix_of` h_log h' → put h c a n → put h' c a n.
Proof.
  intros Hp (H1 & H2 & H3 & H4). pose proof (prefix_ph h h' Hp).
  split; [done|]. split; [done|]. split; [lia|]. intros j Hj.
  rewrite (prefix_aget (h_log h) (h_log h')) by (done || (unfold h_ph in *; lia)). by apply H4.
Qed.

(** A producer's assertion survives when its own slots are left alone and the tail
    does not pass its claim. *)
Lemma prod_ok_mono k slots slots' h h' c pc a :
  hist_le h h' → prod_ok k slots h c pc a →
  (∀ n, pclaim_n pc = Some n → h_pt h ≤ a →
     h_pt h' ≤ a ∧ (a = h_pt h → h_pt h' = h_pt h)) →
  (∀ n p, pclaim_n pc = Some n → h_pt h ≤ a → a ≤ p < a + n →
     aget slots' (p mod 2 ^ k) = aget slots (p mod 2 ^ k)) →
  prod_ok k slots' h' c pc a.
Proof.
  intros [Hlog Hpt Hch Hct] Hok Htail Hslots. pose proof (prefix_ph h h' Hlog) as Hph.
  assert (Hsl : ∀ n i, pclaim_n pc = Some n → h_pt h ≤ a → put h c a n → i ≤ n →
    (∀ p, a ≤ p < a + i → slot_has k slots (h_log h) p) →
    ∀ p, a ≤ p < a + i → slot_has k slots' (h_log h') p).
  { intros n i Hn Ha (_ & _ & Hb & _) Hi Hold p Hp. unfold slot_has.
    rewrite (Hslots n p) by (done || lia).
    rewrite (prefix_aget (h_log h) (h_log h')) by (done || (unfold h_ph in *; lia)). by apply Hold. }
  destruct pc as [|head|head free n|head free n i|head n ret|head n ret|n ret]; simpl in *.
  - done.
  - lia.
  - destruct Hok as (? & ? & ? & Hroom). split_and!; lia.
  - destruct Hok as (? & Ha & Hput & Hi & Hold). split; [done|].
    split; [by apply (Htail n)|]. split; [by apply (put_mono h)|]. split; [done|].
    by apply (Hsl n); try done; lia.
  - destruct Hok as (? & Ha & Hput & Hold). split; [done|].
    split; [by apply (Htail n)|]. split; [by apply (put_mono h)|]. by apply (Hsl n).
  - destruct Hok as (? & Ha & Hput & Hold). split; [done|].
    split; [symmetry; rewrite Ha; apply (Htail n); lia || done|].
    split; [by apply (put_mono h)|]. apply (Hsl n); [done|lia|done..].
  - destruct Hok as [|Hput]; [by left|]. right. by apply (put_mono h).
Qed.

Lemma got_mono h h' c table a n i :
  hist_le h h' → h_ch h ≤ h_ph h → got h c table a n i → got h' c table a n i.
Proof.
  intros [Hlog _ Hch _] Hle (H1 & H2 & H3 & H4 & H5 & H6).
  split_and!; try done; try lia. intros j Hj.
  rewrite (prefix_aget (h_log h) (h_log h')) by (done || (unfold h_ph in *; lia)). by apply H6.
Qed.

Lemma cons_ok_mono h h' c pc a :
  hist_le h h' → h_ch h ≤ h_ph h → cons_ok h c pc a →
  (∀ n, cclaim_n pc = Some n → h_ct h ≤ a →
     h_ct h' ≤ a ∧ (a = h_ct h → h_ct h' = h_ct h)) →
  cons_ok h' c pc a.
Proof.
  intros Hle Hph Hok Htail. pose proof Hle as [Hlog Hpt Hch Hct].
  destruct pc as [|head|head n|head n i table|head n table|head n table|n ret table]; simpl in *.
  - done.
  - lia.
  - destruct Hok as (? & ? & ? & Hroom). split_and!; try lia.
  - destruct Hok as (? & Ha & Hgot). split; [done|].
    split; [by apply (Htail n)|]. by apply (got_mono h).
  - destruct Hok as (? & Ha & Hgot). split; [done|].
    split; [by apply (Htail n)|]. by apply (got_mono h).
  - destruct Hok as (? & Ha & Hgot). split; [done|].
    split; [symmetry; rewrite Ha; apply (Htail n); lia || done|]. by apply (got_mono h).
  - destruct Hok as [|Hgot]; [by left|]. right. by apply (got_mono h).
Qed.

(** *** Producer steps *)

Lemma pclaim_insert s h r h' t c pc a :
  (t < length (prods s))%nat → (t < length (h_ps h))%nat → h_ps h' = <[t := a]> (h_ps h) →
  ∀ t2, pclaim (mkSys r (<[t := (c, pc)]> (prods s)) (conss s)) h' t2 =
    if decide (t2 = t) then n ← pclaim_n pc; Some (a, n) else pclaim s h t2.
Proof.
  intros Ht Hh Hps t2. unfold pclaim. simpl. rewrite Hps.
  destruct (decide (t2 = t)) as [->|Hne].
  - by rewrite !list_lookup_insert_eq by done.
  - by rewrite !list_lookup_insert_ne by done.
Qed.

(** A step of producer [t] that changes the ring to [r'] and the history to [h']. *)
Lemma sys_ok_prod k s h t c pc a pc' a' r' h' :
  sys_ok k s h → prods s !! t = Some (c, pc) → h_ps h !! t = Some a →
  shared_ok k r' h' → hist_le h h' → h_ps h' = <[t := a']> (h_ps h) →
  h_cs h' = h_cs h → h_ch h' = h_ch h → h_ct h' = h_ct h →
  prod_ok k (ring r') h' c pc' a' →
  (∀ t2 c2 pc2 a2 n2, t2 ≠ t → prods s !! t2 = Some (c2, pc2) → h_ps h !! t2 = Some a2 →
     pclaim_n pc2 = Some n2 → h_pt h ≤ a2 →
     h_pt h' ≤ a2 ∧ (a2 = h_pt h → h_pt h' = h_pt h) ∧
     ∀ p, a2 ≤ p < a2 + n2 → aget (ring r') (p mod 2 ^ k) = aget (ring (sr s)) (p mod 2 ^ k)) →
  tiles (λ t2, if decide (t2 = t) then n ← pclaim_n pc'; Some (a', n) else pclaim s h t2)
    (h_ph h') →
  sys_ok k (mkSys r' (<[t := (c, pc')]> (prods s)) (conss s)) h'.
Proof.
  intros [Hsh Hpl Hcl Hpc Hcc Hpo Hco Hpt Hct] Ht Ha Hsh' Hle Hps Hcs Hch Hctl Hok Hoth Htiles.
  pose proof (lookup_lt_Some _ _ _ Ht) as Hlt. pose proof (lookup_lt_Some _ _ _ Ha) as Hlt'.
  split; simpl; try done.
  - by rewrite Hps, !length_insert.
  - by rewrite Hcs.
  - intros t2 c2 pc2. destruct (decide (t = t2)) as [<-|Hne].
    + rewrite list_lookup_insert_eq by done. intros [= <- <-]. by apply (Hpc t c pc).
    + rewrite list_lookup_insert_ne by done. apply Hpc.
  - intros t2 c2 pc2 a2. rewrite Hps. destruct (decide (t = t2)) as [<-|Hne].
    + rewrite !list_lookup_insert_eq by done. by intros [= <- <-] [= <-].
    + rewrite !list_lookup_insert_ne by done. intros H1 H2.
      apply (prod_ok_mono k (ring (sr s)) (ring r') h h'); [done|by apply (Hpo t2)|..].
      * intros n Hn Hp. destruct (Hoth t2 c2 pc2 a2 n) as (? & ? & _); auto.
      * intros n p Hn Hp. destruct (Hoth t2 c2 pc2 a2 n) as (_ & _ & ?); auto.
  - intros t2 c2 pc2 a2 H1 H2. rewrite Hcs in H2.
    apply (cons_ok_mono h h'); [done| |by apply (Hco t2)|].
    + destruct (so_order k (sr s) h Hsh). lia.
    + intros n _ Hn. by rewrite Hctl.
  - eapply tiles_ext; [|exact Htiles]. by apply pclaim_insert.
  - rewrite Hch. eapply tiles_ext; [|exact Hct]. intros t2. unfold cclaim. simpl. by rewrite Hcs.
Qed.

Lemma pclaim_lookup s h t c pc a :
  prods s !! t = Some (c, pc) → h_ps h !! t = Some a →
  pclaim s h t = n ← pclaim_n pc; Some (a, n).
Proof. intros Ht Ha. unfold pclaim. by rewrite Ht; simpl; rewrite Ha. Qed.

(** The history after a step that changes only the position loaded by a producer. *)
Definition with_ps (h : history) (ps : list Z) : history :=
  mkHist (h_log h) (h_pt h) (h_ch h) (h_ct h) ps (h_cs h).

Lemma with_ps_same h t a : h_ps h !! t = Some a → with_ps h (<[t := a]> (h_ps h)) = h.
Proof. intros Ha. unfold with_ps. rewrite list_insert_id by done. by destruct h. Qed.

(** A step of a producer that leaves the ring as it is and claims nothing. *)
Lemma sys_ok_prod_idle k s h t c pc a pc' a' :
  sys_ok k s h → prods s !! t = Some (c, pc) → h_ps h !! t = Some a →
  prod_ok k (ring (sr s)) h c pc' a' →
  (n ← pclaim_n pc'; Some (a', n)) = (n ← pclaim_n pc; Some (a, n)) →
  sys_ok k (mkSys (sr s) (<[t := (c, pc')]> (prods s)) (conss s))
    (with_ps h (<[t := a']> (h_ps h))).
Proof.
  intros Hs Ht Ha Hok Hcl. pose proof (sk_shared k s h Hs) as Hsh.
  eapply sys_ok_prod with (h := h); try done.
  - by destruct Hsh.
  - eapply tiles_ext; [|apply (sk_ptiles k s h Hs)]. intros t2. simpl.
    destruct (decide (t2 = t)) as [->|]; [|done]. by rewrite Hcl, (pclaim_lookup s h t c pc a).
Qed.

Lemma u32_inj a b : 0 ≤ b - a < 2 ^ 32 → u32 a = u32 b → a = b.
Proof.
  intros Hab H. unfold uwrap in H. assert (Hd : (b - a) mod 2 ^ 32 = 0).
  { by rewrite Zminus_mod, H, Z.sub_diag. }
  rewrite Z.mod_small in Hd by done. lia.
Qed.

(** Different positions of a window of the size of the ring have different slots. *)
Lemma slot_distinct k p q : 0 ≤ k → p ≠ q → - 2 ^ k < p - q < 2 ^ k → p mod 2 ^ k ≠ q mod 2 ^ k.
Proof.
  intros Hk Hne Hd E. pose proof (pow2_pos k Hk).
  assert (Hz : (p - q) mod 2 ^ k = 0) by (by rewrite Zminus_mod, E, Z.sub_diag).
  apply Z.mod_divide in Hz as [z Hz]; [|lia]. generalize dependent (2 ^ k). intros K Hd E HK Hz.
  assert (z = 0) by nia. lia.
Qed.

Lemma enqueue_room_bounds behavior n free m :
  enqueue_room behavior n free = inl m → 1 ≤ n → 0 ≤ free → 1 ≤ m ≤ n ∧ m ≤ free.
Proof.
  unfold enqueue_room. intros H Hn Hf. destruct (Z.ltb_spec free n), behavior; try done.
  - destruct (Z.eqb_spec free 0); [done|]. injection H as <-. lia.
  - injection H as <-. lia.
  - injection H as <-. lia.
Qed.

Lemma prod_load_tail_ok k s h t c head a :
  sys_ok k s h → prods s !! t = Some (c, PLoadTail head) → h_ps h !! t = Some a →
  ∃ s', sys_step s (EP t) = Some s' ∧ sys_ok k s' h.
Proof.
  intros Hs Ht Ha. simpl. rewrite Ht. simpl.
  pose proof (sk_prod k s h Hs t _ _ a Ht Ha) as [-> Hr]. pose proof (sk_pcall k s h Hs _ _ _ Ht) as Hc.
  pose proof (sk_shared k s h Hs) as Hsh.
  set (free := u32 _). assert (0 ≤ free < 2 ^ 32) by (apply uwrap_range; lia).
  destruct (enqueue_room (p_behavior c) (p_n c) free) as [m|ret] eqn:Er; simpl;
    eexists; (split; [done|]); rewrite <-(with_ps_same h t a Ha); eapply sys_ok_prod_idle; try done.
  - apply enqueue_room_bounds in Er as [Hm Hmf]; [|destruct Hc; lia|lia]. unfold pcall_ok in Hc.
    simpl. split_and!; try done; try lia. intros ->.
    destruct (so_wf k _ _ Hsh) as [Hk _ _ Hmask _]. pose proof (size_bound k Hk).
    destruct (so_order k _ _ Hsh) as (? & ? & ?).
    assert (free = 2 ^ k - 1 + h_ct h - h_ph h) as Hfree; [|lia].
    unfold free. rewrite Hmask, (so_ct k _ _ Hsh). unfold uwrap.
    rewrite Zminus_mod_idemp_r, <-Zminus_mod_idemp_l, Z.add_mod_idemp_r, Zminus_mod_idemp_l by lia.
    apply Z.mod_small. lia.
  - by left.
Qed.

Lemma prod_cas_ok k s h t c head free n a :
  sys_ok k s h → prods s !! t = Some (c, PCas head free n) → h_ps h !! t = Some a →
  h_ph h - a < 2 ^ 32 →
  ∃ s', sys_step s (EP t) = Some s' ∧ sys_ok k s' (hist_step s (EP t) h).
Proof.
  intros Hs Ht Ha Hover. simpl. rewrite Ht. simpl.
  pose proof (sk_prod k s h Hs t _ _ a Ht Ha) as (-> & Hr & Hn & Hroom).
  pose proof (sk_shared k s h Hs) as Hsh. pose proof (so_order k _ _ Hsh) as (Ho1 & Ho2 & Ho3).
  destruct (Z.eqb_spec (prod_head (r_prod (sr s))) (u32 a)) as [He|He]; simpl;
    eexists; (split; [done|]).
  2: { rewrite <-(with_ps_same h t a Ha). eapply sys_ok_prod_idle; try done. }
  rewrite (so_ph k _ _ Hsh) in He. symmetry in He. apply u32_inj in He as ->; [|lia].
  specialize (Hroom eq_refl).
  set (h' := mkHist (h_log h ++ take (Z.to_nat n) (p_objs c)) _ _ _ _ _).
  assert (Hph : h_ph h' = h_ph h + n)
    by (unfold h_ph; simpl; rewrite length_app, length_take; lia).
  assert (Hpre : h_log h `prefix_of` h_log h') by (by apply prefix_app_r).
  eapply sys_ok_prod with (h := h) (a' := h_ph h); try done.
  - destruct Hsh as [Hwf H1 H2 H3 H4 H5 H6]. split; simpl; try done.
    + by destruct Hwf.
    + rewrite Hph. unfold uwrap. by rewrite Z.add_mod_idemp_l.
    + rewrite Hph. lia.
    + intros p Hp. transitivity (aget (h_log h) p); [by apply H6|]. symmetry.
      apply (prefix_aget (h_log h) (h_log h') p Hpre). unfold h_ph in *. lia.
  - simpl. by rewrite list_insert_id.
  - simpl. split; [done|]. split; [lia|]. split; [|split; [lia|lia]].
    unfold put. rewrite Hph. split_and!; try lia. intros j Hj.
    unfold aget. rewrite !(proj2 (Z.leb_le _ _)) by (unfold h_ph; lia). simpl.
    rewrite lookup_app_r by (unfold h_ph; lia). rewrite lookup_take_lt by (unfold h_ph; lia).
    f_equal. unfold h_ph. lia.
  - rewrite Hph.
    apply (tiles_add (pclaim s h) _ (h_ph h) t n (sk_ptiles k s h Hs)); [lia..| | |].
    + by rewrite (pclaim_lookup s h t _ _ _ Ht Ha).
    + by rewrite decide_True by done.
    + intros t' Hne. by rewrite decide_False.
Qed.

Lemma slot_of_position k a i :
  0 ≤ k < 28 → Z.land (u32 a + i) (2 ^ k - 1) = (a + i) mod 2 ^ k.
Proof.
  intros Hk. pose proof (size_bound k Hk).
  by rewrite land_mask, <-Z.add_mod_idemp_l, u32_mod_size, Z.add_mod_idemp_l by lia.
Qed.

Lemma prod_copy_ok k s h t c head free n i a :
  sys_ok k s h → prods s !! t = Some (c, PCopy head free n i) → h_ps h !! t = Some a →
  ∃ s', sys_step s (EP t) = Some s' ∧ sys_ok k s' h.
Proof.
  intros Hs Ht Ha. simpl. rewrite Ht. simpl.
  pose proof (sk_prod k s h Hs t _ _ a Ht Ha) as (-> & Hp & Hput & Hi & Hw).
  pose proof Hput as (Hn & Ha0 & Han & Hobj).
  pose proof (sk_shared k s h Hs) as Hsh. pose proof (so_order k _ _ Hsh) as (Ho1 & Ho2 & Ho3).
  destruct (so_wf k _ _ Hsh) as [Hk Hps Hcs Hmask Hlen]. pose proof (size_bound k Hk) as HK.
  destruct (Z.ltb_spec i n).
  2: { eexists. split; [done|]. rewrite <-(with_ps_same h t a Ha).
       eapply sys_ok_prod_idle; try done. simpl. replace i with n in Hw by lia. done. }
  destruct (aget_is_Some (p_objs c) i) as [v Hv]; [lia|]. rewrite Hv, Hmask. cbn [mbind option_bind].
  rewrite (slot_of_position k a i Hk).
  pose proof (Z.mod_pos_bound (a + i) (2 ^ k) ltac:(lia)) as Hx.
  pose proof (aset_Some (ring (sr s)) _ v ltac:(rewrite Hlen; exact Hx)) as Haset.
  rewrite Haset. set (l := <[_ := v]> _) in *. cbn [mbind option_bind].
  eexists. split; [done|].
  assert (Hother : ∀ p, p ≠ a + i → h_ct h ≤ p < h_ph h →
    aget l (p mod 2 ^ k) = aget (ring (sr s)) (p mod 2 ^ k)).
  { intros p Hne Hr. rewrite (aget_aset _ _ _ _ _ Haset), decide_False; [done|].
    apply slot_distinct; lia. }
  eapply sys_ok_prod with (h := h) (a' := a); try done.
  - destruct Hsh as [Hwf H1 H2 H3 H4 H5 H6]. split; simpl; try done.
    + destruct Hwf. split; try done. simpl. by rewrite (aset_length _ _ _ _ Haset).
    + intros p Hpp. unfold slot_has. rewrite Hother by lia. by apply H6.
  - by rewrite list_insert_id.
  - simpl. split; [done|]. split; [done|]. split; [done|]. split; [lia|]. intros p Hpp.
    unfold slot_has. destruct (decide (p = a + i)) as [->|Hne].
    + rewrite (aget_aset _ _ _ _ _ Haset), decide_True by done. by rewrite Hobj, Hv by lia.
    + rewrite Hother by lia. apply Hw. lia.
  - intros t2 c2 pc2 a2 n2 Hne Ht2 Ha2 Hn2 Hpt. split; [done|]. split; [done|].
    pose proof (pclaim_lookup s h t _ _ _ Ht Ha) as Hc1.
    pose proof (pclaim_lookup s h t2 _ _ _ Ht2 Ha2) as Hc2. rewrite Hn2 in Hc2. simpl in Hc1, Hc2.
    pose proof (tl_disj _ _ (sk_ptiles k s h Hs) _ _ _ _ _ _ Hne Hc2 Hc1).
    pose proof (tl_range _ _ (sk_ptiles k s h Hs) _ _ _ Hc2).
    intros p Hpp. apply Hother; lia.
  - eapply tiles_ext; [|apply (sk_ptiles k s h Hs)]. intros t2. simpl.
    destruct (decide (t2 = t)) as [->|]; [|done]. by rewrite (pclaim_lookup s h t _ _ _ Ht Ha).
Qed.

Lemma prod_wait_ok k s h t c head n ret a :
  sys_ok k s h → prods s !! t = Some (c, PWait head n ret) → h_ps h !! t = Some a →
  ∃ s', sys_step s (EP t) = Some s' ∧ sys_ok k s' h.
Proof.
  intros Hs Ht Ha. simpl. rewrite Ht. simpl.
  pose proof (sk_prod k s h Hs t _ _ a Ht Ha) as (-> & Hp & Hput & Hw).
  pose proof (sk_shared k s h Hs) as Hsh. pose proof (so_order k _ _ Hsh) as (Ho1 & Ho2 & Ho3).
  pose proof (size_bound k (rw_k k _ (so_wf k _ _ Hsh))).
  destruct (Z.eqb_spec (prod_tail (r_prod (sr s))) (u32 a)) as [He|He]; simpl;
    eexists; (split; [done|]); rewrite <-(with_ps_same h t a Ha); eapply sys_ok_prod_idle; try done.
  rewrite (so_pt k _ _ Hsh) in He. destruct Hput as (? & ? & ? & ?).
  apply u32_inj in He; [|lia]. split; done.
Qed.

Lemma prod_publish_ok k s h t c head n ret a :
  sys_ok k s h → prods s !! t = Some (c, PPublish head n ret) → h_ps h !! t = Some a →
  ∃ s', sys_step s (EP t) = Some s' ∧ sys_ok k s' (hist_step s (EP t) h).
Proof.
  intros Hs Ht Ha. simpl. rewrite Ht. simpl. eexists. split; [done|].
  pose proof (sk_prod k s h Hs t _ _ a Ht Ha) as (-> & -> & Hput & Hw).
  pose proof Hput as (Hn & Ha0 & Han & Hobj).
  pose proof (sk_shared k s h Hs) as Hsh. pose proof (so_order k _ _ Hsh) as (Ho1 & Ho2 & Ho3).
  assert (n ≠ 0) as Hn0 by lia. apply Z.eqb_neq in Hn0.
  eapply sys_ok_prod with (h := h) (a' := h_pt h); try done.
  - destruct Hsh as [Hwf H1 H2 H3 H4 H5 H6]. split; simpl; try done.
    + by destruct Hwf.
    + unfold uwrap. by rewrite Z.add_mod_idemp_l.
    + unfold h_ph in *. simpl. lia.
    + intros p Hpp. destruct (Z.ltb_spec p (h_pt h)); [apply H6; lia|]. apply Hw. lia.
  - split; simpl; try done. lia.
  - simpl. by rewrite list_insert_id.
  - by right.
  - intros t2 c2 pc2 a2 n2 Hne Ht2 Ha2 Hn2 Hpt. simpl.
    pose proof (pclaim_lookup s h t _ _ _ Ht Ha) as Hc1.
    pose proof (pclaim_lookup s h t2 _ _ _ Ht2 Ha2) as Hc2. rewrite Hn2 in Hc2. simpl in Hc1, Hc2.
    pose proof (tl_disj _ _ (sk_ptiles k s h Hs) _ _ _ _ _ _ Hne Hc2 Hc1).
    pose proof (tl_range _ _ (sk_ptiles k s h Hs) _ _ _ Hc2). split; [lia|]. split; [lia|done].
  - eapply tiles_ext; [|apply (sk_ptiles k s h Hs)]. intros t2. simpl.
    destruct (decide (t2 = t)) as [->|]; [|done]. rewrite Hn0.
    by rewrite (pclaim_lookup s h t _ _ _ Ht Ha).
Qed.

Lemma prod_step_ok k s h t :
  sys_ok k s h → no_overrun s h (EP t) →
  ∃ s', sys_step s (EP t) = Some s' ∧ sys_ok k s' (hist_step s (EP t) h).
Proof.
  intros Hs Hover. destruct (prods s !! t) as [[c pc]|] eqn:Ht.
  2: { exists s. simpl. by rewrite Ht. }
  destruct (lookup_lt_is_Some_2 (h_ps h) t) as [a Ha].
  { rewrite (sk_plen k s h Hs). by apply lookup_lt_Some in Ht. }
  destruct pc as [|head|head free n|head free n i|head n ret|head n ret|n ret].
  - simpl. rewrite Ht. simpl. eexists. split; [done|].
    apply (sys_ok_prod_idle k s h t c PLoad a _ (h_ph h)); try done.
    pose proof (sk_shared k s h Hs) as Hsh. simpl. rewrite (so_ph k _ _ Hsh).
    unfold h_ph. lia.
  - destruct (prod_load_tail_ok k s h t c head a Hs Ht Ha) as (s' & -> & Hs').
    exists s'. split; [done|]. simpl. by rewrite Ht.
  - eapply prod_cas_ok; try done. simpl in Hover. rewrite Ht in Hover. by apply Hover.
  - destruct (prod_copy_ok k s h t c head free n i a Hs Ht Ha) as (s' & -> & Hs').
    exists s'. split; [done|]. simpl. by rewrite Ht.
  - destruct (prod_wait_ok k s h t c head n ret a Hs Ht Ha) as (s' & -> & Hs').
    exists s'. split; [done|]. simpl. by rewrite Ht.
  - by eapply prod_publish_ok.
  - simpl. rewrite Ht. simpl. eexists. split; [done|]. rewrite <-(with_ps_same h t a Ha).
    eapply sys_ok_prod_idle; try done. by apply (sk_prod k s h Hs t).
Qed.

(** *** Consumer steps *)

Lemma cclaim_insert s h r h' t c pc a :
  (t < length (conss s))%nat → (t < length (h_cs h))%nat → h_cs h' = <[t := a]> (h_cs h) →
  ∀ t2, cclaim (mkSys r (prods s) (<[t := (c, pc)]> (conss s))) h' t2 =
    if decide (t2 = t) then n ← cclaim_n pc; Some (a, n) else cclaim s h t2.
Proof.
  intros Ht Hh Hcs t2. unfold cclaim. simpl. rewrite Hcs.
  destruct (decide (t2 = t)) as [->|Hne].
  - by rewrite !list_lookup_insert_eq by done.
  - by rewrite !list_lookup_insert_ne by done.
Qed.

Lemma cclaim_lookup s h t c pc a :
  conss s !! t = Some (c, pc) → h_cs h !! t = Some a →
  cclaim s h t = n ← cclaim_n pc; Some (a, n).
Proof. intros Ht Ha. unfold cclaim. by rewrite Ht; simpl; rewrite Ha. Qed.

(** A step of consumer [t]; it never changes the slots nor the producer's side. *)
Lemma sys_ok_cons k s h t c pc a pc' a' r' h' :
  sys_ok k s h → conss s !! t = Some (c, pc) → h_cs h !! t = Some a →
  shared_ok k r' h' → hist_le h h' → ring r' = ring (sr s) → h_log h' = h_log h →
  h_pt h' = h_pt h → h_ps h' = h_ps h → h_cs h' = <[t := a']> (h_cs h) →
  cons_ok h' c pc' a' →
  (∀ t2 c2 pc2 a2 n2, t2 ≠ t → conss s !! t2 = Some (c2, pc2) → h_cs h !! t2 = Some a2 →
     cclaim_n pc2 = Some n2 → h_ct h ≤ a2 →
     h_ct h' ≤ a2 ∧ (a2 = h_ct h → h_ct h' = h_ct h)) →
  tiles (λ t2, if decide (t2 = t) then n ← cclaim_n pc'; Some (a', n) else cclaim s h t2)
    (h_ch h') →
  sys_ok k (mkSys r' (prods s) (<[t := (c, pc')]> (conss s))) h'.
Proof.
  intros [Hsh Hpl Hcl Hpc Hcc Hpo Hco Hpt Hct] Ht Ha Hsh' Hle Hring Hlog Hptl Hps Hcs Hok Hoth Htiles.
  pose proof (lookup_lt_Some _ _ _ Ht) as Hlt. pose proof (lookup_lt_Some _ _ _ Ha) as Hlt'.
  split; simpl; try done.
  - by rewrite Hps.
  - by rewrite Hcs, !length_insert.
  - intros t2 c2 pc2. destruct (decide (t = t2)) as [<-|Hne].
    + rewrite list_lookup_insert_eq by done. intros [= <- <-]. by apply (Hcc t c pc).
    + rewrite list_lookup_insert_ne by done. apply Hcc.
  - intros t2 c2 pc2 a2 H1 H2. rewrite Hps in H2. rewrite Hring.
    apply (prod_ok_mono k (ring (sr s)) (ring (sr s)) h h'); [done|by apply (Hpo t2)| |done].
    intros n _ Hn. by rewrite Hptl.
  - intros t2 c2 pc2 a2. rewrite Hcs. destruct (decide (t = t2)) as [<-|Hne].
    + rewrite !list_lookup_insert_eq by done. by intros [= <- <-] [= <-].
    + rewrite !list_lookup_insert_ne by done. intros H1 H2.
      apply (cons_ok_mono h h'); [done| |by apply (Hco t2)|].
      * destruct (so_order k (sr s) h Hsh). lia.
      * intros n Hn Hp. by apply (Hoth t2 c2 pc2 a2 n).
  - unfold h_ph. rewrite Hlog. eapply tiles_ext; [|exact Hpt]. intros t2. unfold pclaim. simpl.
    by rewrite Hps.
  - eapply tiles_ext; [|exact Htiles]. by apply cclaim_insert.
Qed.

Definition with_cs (h : history) (cs : list Z) : history :=
  mkHist (h_log h) (h_pt h) (h_ch h) (h_ct h) (h_ps h) cs.

Lemma with_cs_same h t a : h_cs h !! t = Some a → with_cs h (<[t := a]> (h_cs h)) = h.
Proof. intros Ha. unfold with_cs. rewrite list_insert_id by done. by destruct h. Qed.

Lemma sys_ok_cons_idle k s h t c pc a pc' a' :
  sys_ok k s h → conss s !! t = Some (c, pc) → h_cs h !! t = Some a →
  cons_ok h c pc' a' →
  (n ← cclaim_n pc'; Some (a', n)) = (n ← cclaim_n pc; Some (a, n)) →
  sys_ok k (mkSys (sr s) (prods s) (<[t := (c, pc')]> (conss s)))
    (with_cs h (<[t := a']> (h_cs h))).
Proof.
  intros Hs Ht Ha Hok Hcl. pose proof (sk_shared k s h Hs) as Hsh.
  eapply sys_ok_cons with (h := h); try done.
  - by destruct Hsh.
  - eapply tiles_ext; [|apply (sk_ctiles k s h Hs)]. intros t2. simpl.
    destruct (decide (t2 = t)) as [->|]; [|done]. by rewrite Hcl, (cclaim_lookup s h t c pc a).
Qed.

Lemma dequeue_room_bounds behavior n entries m :
  dequeue_room behavior n entries = inl m → 1 ≤ n → 0 ≤ entries → 1 ≤ m ≤ n ∧ m ≤ entries.
Proof.
  unfold dequeue_room. intros H Hn Hf. destruct (Z.ltb_spec entries n), behavior; try done.
  - destruct (Z.eqb_spec entries 0); [done|]. injection H as <-. lia.
  - injection H as <-. lia.
  - injection H as <-. lia.
Qed.

Lemma cons_load_tail_ok k s h t c head a :
  sys_ok k s h → conss s !! t = Some (c, CLoadTail head) → h_cs h !! t = Some a →
  ∃ s', sys_step s (EC t) = Some s' ∧ sys_ok k s' h.
Proof.
  intros Hs Ht Ha. simpl. rewrite Ht. simpl.
  pose proof (sk_cons k s h Hs t _ _ a Ht Ha) as [-> Hr]. pose proof (sk_ccall k s h Hs _ _ _ Ht) as Hc.
  pose proof (sk_shared k s h Hs) as Hsh.
  set (entries := u32 _). assert (0 ≤ entries < 2 ^ 32) by (apply uwrap_range; lia).
  destruct (dequeue_room (c_behavior c) (c_n c) entries) as [m|ret] eqn:Er; simpl;
    eexists; (split; [done|]); rewrite <-(with_cs_same h t a Ha); eapply sys_ok_cons_idle; try done.
  - apply dequeue_room_bounds in Er as [Hm Hmf]; [|destruct Hc; lia|lia]. unfold ccall_ok in Hc.
    simpl. split_and!; try done; try lia. intros ->.
    pose proof (size_bound k (rw_k k _ (so_wf k _ _ Hsh))).
    destruct (so_order k _ _ Hsh) as (? & ? & ?).
    assert (entries = h_pt h - h_ch h) as He; [|lia].
    unfold entries. rewrite (so_pt k _ _ Hsh). unfold uwrap.
    rewrite Zminus_mod_idemp_r, Zminus_mod_idemp_l. apply Z.mod_small. lia.
  - by left.
Qed.

Lemma cons_cas_ok k s h t c head n a :
  sys_ok k s h → conss s !! t = Some (c, CCas head n) → h_cs h !! t = Some a →
  h_ch h - a < 2 ^ 32 →
  ∃ s', sys_step s (EC t) = Some s' ∧ sys_ok k s' (hist_step s (EC t) h).
Proof.
  intros Hs Ht Ha Hover. simpl. rewrite Ht. simpl.
  pose proof (sk_cons k s h Hs t _ _ a Ht Ha) as (-> & Hr & Hn & Hroom).
  pose proof (sk_shared k s h Hs) as Hsh. pose proof (so_order k _ _ Hsh) as (Ho1 & Ho2 & Ho3).
  destruct (Z.eqb_spec (cons_head (r_cons (sr s))) (u32 a)) as [He|He]; simpl;
    eexists; (split; [done|]).
  2: { rewrite <-(with_cs_same h t a Ha). eapply sys_ok_cons_idle; try done. }
  rewrite (so_ch k _ _ Hsh) in He. symmetry in He. apply u32_inj in He as ->; [|lia].
  specialize (Hroom eq_refl).
  eapply sys_ok_cons with (h := h) (a' := h_ch h); try done.
  - destruct Hsh as [Hwf H1 H2 H3 H4 H5 H6]. split; simpl; try done.
    + by destruct Hwf.
    + unfold uwrap. by rewrite Z.add_mod_idemp_l.
    + unfold h_ph in *. simpl. lia.
  - split; simpl; try done. lia.
  - simpl. by rewrite list_insert_id.
  - simpl. split; [done|]. split; [lia|]. unfold got. simpl. split_and!; try done; lia.
  - simpl. apply (tiles_add (cclaim s h) _ (h_ch h) t n (sk_ctiles k s h Hs)); [lia..| | |].
    + by rewrite (cclaim_lookup s h t _ _ _ Ht Ha).
    + by rewrite decide_True by done.
    + intros t' Hne. by rewrite decide_False.
Qed.

Lemma cons_copy_ok k s h t c head n i table a :
  sys_ok k s h → conss s !! t = Some (c, CCopy head n i table) → h_cs h !! t = Some a →
  ∃ s', sys_step s (EC t) = Some s' ∧ sys_ok k s' h.
Proof.
  intros Hs Ht Ha. simpl. rewrite Ht. simpl.
  pose proof (sk_cons k s h Hs t _ _ a Ht Ha) as (-> & Hct & Hgot).
  pose proof Hgot as (Hn & Ha0 & Han & Hi & Hlen & Hj).
  pose proof (sk_shared k s h Hs) as Hsh. pose proof (so_order k _ _ Hsh) as (Ho1 & Ho2 & Ho3).
  destruct (so_wf k _ _ Hsh) as [Hk Hps Hcs Hmask Hrl].
  destruct (Z.ltb_spec i n).
  2: { eexists. split; [done|]. rewrite <-(with_cs_same h t a Ha).
       eapply sys_ok_cons_idle; try done. simpl. by replace i with n in Hgot by lia. }
  destruct (aget_is_Some (h_log h) (a + i)) as [v Hv]; [unfold h_ph in *; lia|].
  pose proof (so_slots k _ _ Hsh (a + i) ltac:(lia)) as Hslot. unfold slot_has in Hslot.
  rewrite Hmask, (slot_of_position k a i Hk), Hslot, Hv. cbn [mbind option_bind].
  pose proof (aset_Some table i v ltac:(lia)) as Haset. rewrite Haset. cbn [mbind option_bind].
  eexists. split; [done|]. rewrite <-(with_cs_same h t a Ha).
  eapply sys_ok_cons_idle; try done. simpl. split; [done|]. split; [done|].
  unfold got. rewrite (aset_length _ _ _ _ Haset). split_and!; try done; try lia.
  intros j Hj'. rewrite (aget_aset _ _ _ _ j Haset).
  destruct (decide (i = j)) as [<-|]; [done|]. apply Hj. lia.
Qed.

Lemma cons_wait_ok k s h t c head n table a :
  sys_ok k s h → conss s !! t = Some (c, CWait head n table) → h_cs h !! t = Some a →
  ∃ s', sys_step s (EC t) = Some s' ∧ sys_ok k s' h.
Proof.
  intros Hs Ht Ha. simpl. rewrite Ht. simpl.
  pose proof (sk_cons k s h Hs t _ _ a Ht Ha) as (-> & Hp & Hgot).
  pose proof (sk_shared k s h Hs) as Hsh. pose proof (so_order k _ _ Hsh) as (Ho1 & Ho2 & Ho3).
  pose proof (size_bound k (rw_k k _ (so_wf k _ _ Hsh))).
  destruct (Z.eqb_spec (cons_tail (r_cons (sr s))) (u32 a)) as [He|He]; simpl;
    eexists; (split; [done|]); rewrite <-(with_cs_same h t a Ha); eapply sys_ok_cons_idle; try done.
  rewrite (so_ct k _ _ Hsh) in He. destruct Hgot as (? & ? & ? & ?).
  apply u32_inj in He; [|lia]. split; done.
Qed.

Lemma cons_publish_ok k s h t c head n table a :
  sys_ok k s h → conss s !! t = Some (c, CPublish head n table) → h_cs h !! t = Some a →
  ∃ s', sys_step s (EC t) = Some s' ∧ sys_ok k s' (hist_step s (EC t) h).
Proof.
  intros Hs Ht Ha. simpl. rewrite Ht. simpl. eexists. split; [done|].
  pose proof (sk_cons k s h Hs t _ _ a Ht Ha) as (-> & -> & Hgot).
  pose proof Hgot as (Hn & Ha0 & Han & _).
  pose proof (sk_shared k s h Hs) as Hsh. pose proof (so_order k _ _ Hsh) as (Ho1 & Ho2 & Ho3).
  assert (n ≠ 0) as Hn0 by lia. apply Z.eqb_neq in Hn0.
  eapply sys_ok_cons with (h := h) (a' := h_ct h); try done.
  - destruct Hsh as [Hwf H1 H2 H3 H4 H5 H6]. split; simpl; try done.
    + by destruct Hwf.
    + unfold uwrap. by rewrite Z.add_mod_idemp_l.
    + unfold h_ph in *. simpl. lia.
    + intros p Hpp. apply H6. lia.
  - split; simpl; try done. lia.
  - simpl. by rewrite list_insert_id.
  - by right.
  - intros t2 c2 pc2 a2 n2 Hne Ht2 Ha2 Hn2 Hpt. simpl.
    pose proof (cclaim_lookup s h t _ _ _ Ht Ha) as Hc1.
    pose proof (cclaim_lookup s h t2 _ _ _ Ht2 Ha2) as Hc2. rewrite Hn2 in Hc2. simpl in Hc1, Hc2.
    pose proof (tl_disj _ _ (sk_ctiles k s h Hs) _ _ _ _ _ _ Hne Hc2 Hc1).
    pose proof (tl_range _ _ (sk_ctiles k s h Hs) _ _ _ Hc2). split; lia.
  - eapply tiles_ext; [|apply (sk_ctiles k s h Hs)]. intros t2. simpl.
    destruct (decide (t2 = t)) as [->|]; [|done]. rewrite Hn0.
    by rewrite (cclaim_lookup s h t _ _ _ Ht Ha).
Qed.

Lemma cons_step_ok k s h t :
  sys_ok k s h → no_overrun s h (EC t) →
  ∃ s', sys_step s (EC t) = Some s' ∧ sys_ok k s' (hist_step s (EC t) h).
Proof.
  intros Hs Hover. destruct (conss s !! t) as [[c pc]|] eqn:Ht.
  2: { exists s. simpl. by rewrite Ht. }
  destruct (lookup_lt_is_Some_2 (h_cs h) t) as [a Ha].
  { rewrite (sk_clen k s h Hs). by apply lookup_lt_Some in Ht. }
  pose proof (sk_shared k s h Hs) as Hsh.
  destruct pc as [|head|head n|head n i table|head n table|head n table|n ret table].
  - simpl. rewrite Ht. simpl. eexists. split; [done|].
    apply (sys_ok_cons_idle k s h t c CLoad a _ (h_ch h)); try done.
    simpl. rewrite (so_ch k _ _ Hsh). destruct (so_order k _ _ Hsh). split; [done|lia].
  - destruct (cons_load_tail_ok k s h t c head a Hs Ht Ha) as (s' & -> & Hs').
    exists s'. split; [done|]. simpl. by rewrite Ht.
  - eapply cons_cas_ok; try done. simpl in Hover. rewrite Ht in Hover. by apply Hover.
  - destruct (cons_copy_ok k s h t c head n i table a Hs Ht Ha) as (s' & -> & Hs').
    exists s'. split; [done|]. simpl. by rewrite Ht.
  - destruct (cons_wait_ok k s h t c head n table a Hs Ht Ha) as (s' & -> & Hs').
    exists s'. split; [done|]. simpl. by rewrite Ht.
  - by eapply cons_publish_ok.
  - simpl. rewrite Ht. simpl. eexists. split; [done|]. rewrite <-(with_cs_same h t a Ha).
    eapply sys_ok_cons_idle; try done. by apply (sk_cons k s h Hs t).
Qed.

(** *** Schedules *)

Definition no_overrun_b (s : ring_sys) (h : history) (e : ring_event) : bool :=
  match e with
  | EP t =>
      match prods s !! t, h_ps h !! t with
      | Some (_, PCas _ _ _), Some a => h_ph h - a <? 2 ^ 32
      | _, _ => true
      end
  | EC t =>
      match conss s !! t, h_cs h !! t with
      | Some (_, CCas _ _), Some a => h_ch h - a <? 2 ^ 32
      | _, _ => true
      end
  end.

(** A schedule, stopped where a call would be overtaken. *)
Fixpoint sys_exec (s : ring_sys) (h : history) (es : list ring_event) :
    option (ring_sys * history) :=
  match es with
  | [] => Some (s, h)
  | e :: es' =>
      if no_overrun_b s h e then s' ← sys_step s e; sys_exec s' (hist_step s e h) es' else None
  end.

Lemma no_overrun_b_true s h e : no_overrun_b s h e = true → no_overrun s h e.
Proof.
  destruct e as [t|t]; simpl.
  - destruct (prods s !! t) as [[c []]|]; try done. intros H a Ha. rewrite Ha in H. by apply Z.ltb_lt.
  - destruct (conss s !! t) as [[c []]|]; try done. intros H a Ha. rewrite Ha in H. by apply Z.ltb_lt.
Qed.

Lemma sys_exec_reach k ps cs es s h s' h' :
  reach k ps cs s h → sys_exec s h es = Some (s', h') → reach k ps cs s' h'.
Proof.
  revert s h. induction es as [|e es IH]; intros s h Hr; simpl.
  { by intros [= <- <-]. }
  destruct (no_overrun_b s h e) eqn:Eo; [|done]. apply no_overrun_b_true in Eo.
  destruct (sys_step s e) as [s1|] eqn:Es; [|done]. simpl. apply IH.
  by apply reach_step.
Qed.

(** *** All reachable states *)

Lemma start_sys_ok k ps cs fl slots r :
  0 ≤ k < 28 → Z.of_nat (length slots) = 2 ^ k →
  rte_ring_create (2 ^ k) fl (Some slots) = inl r →
  Forall pcall_ok ps → Forall ccall_ok cs →
  sys_ok k (mkSys r ((λ c, (c, PLoad)) <$> ps) ((λ c, (c, CLoad)) <$> cs))
    (mkHist [] 0 0 0 (replicate (length ps) 0) (replicate (length cs) 0)).
Proof.
  intros Hk Hl Hr Hps Hcs. pose proof (size_bound k Hk) as HK.
  unfold rte_ring_create in Hr. rewrite POWEROF2_pow2 in Hr by done.
  unfold RTE_RING_SZ_MASK in Hr. rewrite (proj2 (Z.ltb_ge _ _)) in Hr by lia.
  simpl in Hr. injection Hr as <-.
  assert (Hpc : ∀ t c pc, ((λ c, (c, PLoad)) <$> ps) !! t = Some (c, pc) →
    pc = PLoad ∧ ps !! t = Some c).
  { intros t c pc H. apply list_lookup_fmap_Some in H as (c' & [= -> ->] & ?). done. }
  assert (Hcc : ∀ t c pc, ((λ c, (c, CLoad)) <$> cs) !! t = Some (c, pc) →
    pc = CLoad ∧ cs !! t = Some c).
  { intros t c pc H. apply list_lookup_fmap_Some in H as (c' & [= -> ->] & ?). done. }
  split; simpl.
  - rewrite uwrap_small by lia. split; simpl; try done; [|lia].
    unfold h_ph. simpl. lia.
  - by rewrite length_replicate, length_fmap.
  - by rewrite length_replicate, length_fmap.
  - intros t c pc [_ H]%Hpc. by eapply Forall_lookup_1 in Hps.
  - intros t c pc [_ H]%Hcc. by eapply Forall_lookup_1 in Hcs.
  - by intros t c pc a [-> _]%Hpc _.
  - by intros t c pc a [-> _]%Hcc _.
  - apply tiles_none. intros t. unfold pclaim. simpl. rewrite list_lookup_fmap.
    destruct (ps !! t); [|done]. simpl. by destruct (replicate _ _ !! t).
  - apply tiles_none. intros t. unfold cclaim. simpl. rewrite list_lookup_fmap.
    destruct (cs !! t); [|done]. simpl. by destruct (replicate _ _ !! t).
Qed.

Lemma reach_sys_ok k ps cs s h :
  Forall pcall_ok ps → Forall ccall_ok cs → reach k ps cs s h → sys_ok k s h.
Proof.
  intros Hps Hcs. induction 1 as [fl slots r Hk Hl Hr|s h e s' _ IH Hover Hstep].
  - by apply (start_sys_ok k ps cs fl slots).
  - destruct e as [t|t].
    + destruct (prod_step_ok k s h t IH Hover) as (s2 & Hs2 & Hok). congruence.
    + destruct (cons_step_ok k s h t IH Hover) as (s2 & Hs2 & Hok). congruence.
Qed.

(** The objects that a dequeue has copied, and its table. *)
Definition copied (pc : cpc) : option (Z * list Z) :=
  match pc with
  | CCopy _ _ i table => Some (i, table)
  | CWait _ n table | CPublish _ n table | CRet n _ table => Some (n, table)
  | _ => None
  end.

(** C6 [safety]. Concurrent producers and consumers: in every state that a new ring
    and any set of calls (of at least one object each) can reach, under every
    schedule in which no call is overtaken by 2^32 objects between its last load of a
    head and its compare-and-set with it (calls may start, wait and return after any
    number of objects),
    - the next step of every call stays within the ring and the tables;
    - the claims of the enqueues cover the log of all objects put in exactly once,
      each with the call's objects in their order;
    - the claims of the dequeues cover, exactly once, a prefix of the published part
      of the log, and what a dequeue has copied so far are the objects of its claim.
    Hence objects come out in the order in which they were put in, none is lost and
    none is delivered twice, and at most [size - 1] are in the ring. *)
Theorem ring_fifo_concurrent k ps cs s h :
  Forall pcall_ok ps → Forall ccall_ok cs → reach k ps cs s h →
  (∀ e, no_overrun s h e → is_Some (sys_step s e)) ∧
  tiles (pclaim s h) (h_ph h) ∧
  (∀ t c pc a n, prods s !! t = Some (c, pc) → pclaim s h t = Some (a, n) →
     ∀ j, 0 ≤ j < n → aget (h_log h) (a + j) = aget (p_objs c) j) ∧
  tiles (cclaim s h) (h_ch h) ∧
  (∀ t c pc i table a n, conss s !! t = Some (c, pc) → copied pc = Some (i, table) →
     cclaim s h t = Some (a, n) →
     ∀ j, 0 ≤ j < i → aget table j = aget (h_log h) (a + j)) ∧
  h_ct h ≤ h_ch h ≤ h_pt h ∧ h_pt h ≤ h_ph h ≤ h_ct h + (2 ^ k - 1).
Proof.
  intros Hps Hcs Hr. pose proof (reach_sys_ok k ps cs s h Hps Hcs Hr) as Hs.
  split; [|split; [apply (sk_ptiles k s h Hs)|split; [|split; [apply (sk_ctiles k s h Hs)|split]]]].
  - intros [t|t] Ho.
    + destruct (prod_step_ok k s h t Hs Ho) as (s' & -> & _). by eexists.
    + destruct (cons_step_ok k s h t Hs Ho) as (s' & -> & _). by eexists.
  - intros t c pc a n Ht Hc. unfold pclaim in Hc. rewrite Ht in Hc. simpl in Hc.
    destruct (h_ps h !! t) as [a'|] eqn:Ha; [|done]. simpl in Hc.
    destruct (pclaim_n pc) as [n'|] eqn:Hn; [|done]. simpl in Hc. injection Hc as -> ->.
    pose proof (sk_prod k s h Hs t c pc a Ht Ha) as Hok.
    destruct pc; simpl in *; try done.
    + injection Hn as ->. apply Hok.
    + injection Hn as ->. apply Hok.
    + injection Hn as ->. apply Hok.
    + destruct (n0 =? 0) eqn:E; [done|]. injection Hn as ->.
      destruct Hok as [->|Hok]; [done|]. apply Hok.
  - intros t c pc i table a n Ht Hcp Hc. unfold cclaim in Hc. rewrite Ht in Hc. simpl in Hc.
    destruct (h_cs h !! t) as [a'|] eqn:Ha; [|done]. simpl in Hc.
    destruct (cclaim_n pc) as [n'|] eqn:Hn; [|done]. simpl in Hc. injection Hc as -> ->.
    pose proof (sk_cons k s h Hs t c pc a Ht Ha) as Hok.
    destruct pc as [| | |head m i' tb|head m tb|head m tb|m ret tb]; simpl in *; simplify_eq; try apply Hok.
    destruct Hok as [->|Hok]; [done|]. apply Hok.
  - destruct (so_order k _ _ (sk_shared k s h Hs)). lia.
Qed.

(** Two producers and a consumer of a ring of four slots: the second producer takes
    its positions first, the first one copies first. *)
Definition example_ps : list pcall :=
  [mkP [7] 1 RTE_RING_QUEUE_FIXED; mkP [8; 9] 2 RTE_RING_QUEUE_FIXED].
Definition example_cs : list ccall := [mkC [0; 0; 0] 3 RTE_RING_QUEUE_FIXED].
Definition example_events : list ring_event :=
  [EP 0; EP 1; EP 0; EP 1; EP 1; EP 0; EP 0; EP 0; EP 0; EP 0; EP 0; EP 0;
   EP 1; EP 1; EP 1; EP 1; EP 1; EP 0; EP 0;
   EC 0; EC 0; EC 0; EC 0; EC 0; EC 0; EC 0; EC 0; EC 0].

Lemma ring_fifo_concurrent_witness :
  ∃ s h table, reach 2 example_ps example_cs s h ∧ h_log h = [8; 9; 7] ∧
    conss s !! 0%nat = Some (mkC [0; 0; 0] 3 RTE_RING_QUEUE_FIXED, CRet 3 0 table) ∧
    aget table 1 = Some 9.
Proof.
  destruct (rte_ring_create (2 ^ 2) 0 (Some [0; 0; 0; 0])) as [r|] eqn:Er; [|done].
  pose proof (reach_start 2 example_ps example_cs 0 [0; 0; 0; 0] r ltac:(lia) eq_refl Er) as Hr0.
  destruct (sys_exec
    (mkSys r ((λ c, (c, PLoad)) <$> example_ps) ((λ c, (c, CLoad)) <$> example_cs))
    (mkHist [] 0 0 0 (replicate (length example_ps) 0) (replicate (length example_cs) 0))
    example_events) as [[s h]|] eqn:Ex.
  2: { vm_compute in Er. injection Er as <-. vm_compute in Ex. discriminate. }
  pose proof (sys_exec_reach _ _ _ _ _ _ _ _ Hr0 Ex) as Hr.
  vm_compute in Er. injection Er as <-. vm_compute in Ex. injection Ex as <- <-.
  eexists _, _, _. split; [exact Hr|]. split; [reflexivity|]. split; [reflexivity|].
  assert (Hps : Forall pcall_ok example_ps) by (repeat constructor; done).
  assert (Hcs : Forall ccall_ok example_cs) by (repeat constructor; done).
  destruct (ring_fifo_concurrent 2 example_ps example_cs _ _ Hps Hcs Hr)
    as (_ & _ & _ & _ & Hgot & _).
  rewrite (Hgot 0%nat _ _ 3 _ 0 3 eq_refl eq_refl eq_refl 1 ltac:(lia)). reflexivity.
Defined.

(** A multi-producer enqueue of zero objects can wait forever: it
    claims the empty range at the head, a later enqueue of one object claims the same
    position and publishes its tail, and from then on the first call's wait for the
    tail to reach its head never succeeds, however often it runs. *)
Theorem mp_enqueue_zero_waits_forever :
  ∃ s h ret head, 
    reach 2 [mkP [] 0 RTE_RING_QUEUE_FIXED; mkP [7] 1 RTE_RING_QUEUE_FIXED] [] s h ∧
    prods s !! 1%nat = Some (mkP [7] 1 RTE_RING_QUEUE_FIXED, PRet 1 0) ∧
    ∀ m, Nat.iter m (λ o, s ← o; sys_step s (EP 0)) (Some s) = Some s ∧
      prods s !! 0%nat = Some (mkP [] 0 RTE_RING_QUEUE_FIXED, PWait head 0 ret).
Proof.
  set (ps := [mkP [] 0 RTE_RING_QUEUE_FIXED; mkP [7] 1 RTE_RING_QUEUE_FIXED]).
  destruct (rte_ring_create (2 ^ 2) 0 (Some [0; 0; 0; 0])) as [r|] eqn:Er; [|done].
  pose proof (reach_start 2 ps [] 0 [0; 0; 0; 0] r ltac:(lia) eq_refl Er) as Hr0.
  destruct (sys_exec (mkSys r ((λ c, (c, PLoad)) <$> ps) [])
    (mkHist [] 0 0 0 (replicate (length ps) 0) [])
    [EP 0; EP 0; EP 0; EP 1; EP 1; EP 1; EP 1; EP 1; EP 1; EP 1; EP 0]) as [[s h]|] eqn:Ex.
  2: { vm_compute in Er. injection Er as <-. vm_compute in Ex. discriminate. }
  pose proof (sys_exec_reach _ _ _ _ _ _ _ _ Hr0 Ex) as Hr.
  vm_compute in Er. injection Er as <-. vm_compute in Ex. injection Ex as <- <-.
  eexists _, _, _, _. split; [exact Hr|]. split; [reflexivity|]. intros m.
  split; [|reflexivity]. induction m as [|m IH]; [done|]. rewrite Nat.iter_succ, IH. reflexivity.
Qed.
