(* ===== verification/MpmcRing.v ===== *)
(** * The bounded multi-producer multi-consumer ring
      (src/cpp-util/lockfreeQueue.h, class [mpmc::Ring])

    Every slot has a turn counter: an even value [2 r] says that the slot waits for
    the producer of round [r], an odd value [2 r + 1] that it holds the element of
    round [r].  The operations are modelled as sequences of their atomic steps; a
    schedule interleaves any number of calls.  Counters wrap at 2^64; the theorems
    are about schedules with fewer than 2^62 operations.

    The storage of a slot is [None] while it holds no element; taking an element out
    of an empty storage is undefined behaviour ([None] of a step). *)

From S2P Require Import Prelude Claims.

(** src/cpp-util/lockfreeQueue.h:44-70, [mpmc::Slot]. *)
Record Slot := mkSlot { turn_ : Z; storage : option Z }.

(** src/cpp-util/lockfreeQueue.h:226-232, [mpmc::Ring members]. *)
Record Ring := mkRing { capacity_ : Z; slots_ : list Slot; head_ : Z; tail_ : Z }.

(** src/cpp-util/lockfreeQueue.h:78-96, [mpmc::Ring::Ring]. [alloc_ok] says whether the allocation
    of [capacity + 1] slots succeeds with the alignment asked for; otherwise, and for
    a capacity of zero, the constructor throws. *)
Definition Ring_new (capacity : Z) (alloc_ok : bool) : option Ring :=
  if capacity <? 1 then None
  else if negb alloc_ok then None
  else Some (mkRing capacity (replicate (Z.to_nat capacity) (mkSlot 0 None)) 0 0).

(** src/cpp-util/lockfreeQueue.h:222, [mpmc::Ring::idx]. *)
Definition idx (r : Ring) (i : Z) : Z := i mod capacity_ r.

(** src/cpp-util/lockfreeQueue.h:224, [mpmc::Ring::turn]. *)
Definition turn (r : Ring) (i : Z) : Z := i / capacity_ r.

(** src/cpp-util/lockfreeQueue.h:55-59, [mpmc::Slot::construct]. *)
Definition construct (s : Slot) (v : Z) : Slot := mkSlot (turn_ s) (Some v).

(** src/cpp-util/lockfreeQueue.h:61-64, [mpmc::Slot::destroy]. *)
Definition destroy (s : Slot) : option Slot :=
  _ ← storage s; Some (mkSlot (turn_ s) None).

(** src/cpp-util/lockfreeQueue.h:66, [mpmc::Slot::move]. *)
Definition move (s : Slot) : option Z := storage s.

Definition with_slots (r : Ring) (l : list Slot) : Ring := mkRing (capacity_ r) l (head_ r) (tail_ r).
Definition with_head (r : Ring) (h : Z) : Ring := mkRing (capacity_ r) (slots_ r) h (tail_ r).
Definition with_tail (r : Ring) (t : Z) : Ring := mkRing (capacity_ r) (slots_ r) (head_ r) t.

(** Update of the slot of position [i]. *)
Definition upd_slot (r : Ring) (i : Z) (f : Slot → option Slot) : option Ring :=
  s ← aget (slots_ r) (idx r i);
  s' ← f s;
  l ← aset (slots_ r) (idx r i) s';
  Some (with_slots r l).

(** ** Pushing

    Program points of [emplace] ([E]) and [try_emplace] ([T]); both end in the
    construction of the element and the store of the turn.  [ERet] carries the
    position of the element, if one was pushed. *)
Inductive epc :=
  | EFetch (v : Z)
  | EWait (head v : Z)
  | TLoad (v : Z)
  | TCheck (head v : Z)
  | TCas (head v : Z)
  | TReload (head v : Z)
  | EConstruct (head v : Z)
  | EStore (head v : Z)
  | ERet (result : option Z) (v : Z).

(** src/cpp-util/lockfreeQueue.h:110-147, [mpmc::Ring::emplace and mpmc::Ring::try_emplace]. *)
Definition push_step (r : Ring) (pc : epc) : option (Ring * epc) :=
  match pc with
  | EFetch v => Some (with_head r (u64 (head_ r + 1)), EWait (head_ r) v)
  | EWait head v =>
      s ← aget (slots_ r) (idx r head);
      Some (r, if u64 (turn r head * 2) =? turn_ s then EConstruct head v else EWait head v)
  | TLoad v => Some (r, TCheck (head_ r) v)
  | TCheck head v =>
      s ← aget (slots_ r) (idx r head);
      Some (r, if u64 (turn r head * 2) =? turn_ s then TCas head v else TReload head v)
  | TCas head v =>
      if head_ r =? head then Some (with_head r (u64 (head + 1)), EConstruct head v)
      else Some (r, TCheck (head_ r) v)
  | TReload prevHead v =>
      Some (r, if head_ r =? prevHead then ERet None v else TCheck (head_ r) v)
  | EConstruct head v =>
      r ← upd_slot r head (λ s, Some (construct s v)); Some (r, EStore head v)
  | EStore head v =>
      r ← upd_slot r head (λ s, Some (mkSlot (u64 (turn r head * 2 + 1)) (storage s)));
      Some (r, ERet (Some head) v)
  | ERet res v => Some (r, ERet res v)
  end.

(** src/cpp-util/lockfreeQueue.h:149-160, [mpmc::Ring::push]. *)
Definition push (v : Z) : epc := EFetch v.

(** src/cpp-util/lockfreeQueue.h:162-173, [mpmc::Ring::try_push]. *)
Definition try_push (v : Z) : epc := TLoad v.

(** ** Popping *)

Inductive dpc :=
  | DFetch
  | DWait (tail : Z)
  | YLoad
  | YCheck (tail : Z)
  | YCas (tail : Z)
  | YReload (tail : Z)
  | DMove (tail : Z)
  | DDestroy (tail v : Z)
  | DStore (tail v : Z)
  | DRet (result : option (Z * Z)).

(** src/cpp-util/lockfreeQueue.h:175-212, [mpmc::Ring::pop and mpmc::Ring::try_pop]. *)
Definition pop_step (r : Ring) (pc : dpc) : option (Ring * dpc) :=
  match pc with
  | DFetch => Some (with_tail r (u64 (tail_ r + 1)), DWait (tail_ r))
  | DWait tail =>
      s ← aget (slots_ r) (idx r tail);
      Some (r, if u64 (turn r tail * 2 + 1) =? turn_ s then DMove tail else DWait tail)
  | YLoad => Some (r, YCheck (tail_ r))
  | YCheck tail =>
      s ← aget (slots_ r) (idx r tail);
      Some (r, if u64 (turn r tail * 2 + 1) =? turn_ s then YCas tail else YReload tail)
  | YCas tail =>
      if tail_ r =? tail then Some (with_tail r (u64 (tail + 1)), DMove tail)
      else Some (r, YCheck (tail_ r))
  | YReload prevTail =>
      Some (r, if tail_ r =? prevTail then DRet None else YCheck (tail_ r))
  | DMove tail =>
      s ← aget (slots_ r) (idx r tail); v ← move s; Some (r, DDestroy tail v)
  | DDestroy tail v => r ← upd_slot r tail destroy; Some (r, DStore tail v)
  | DStore tail v =>
      r ← upd_slot r tail (λ s, Some (mkSlot (u64 (turn r tail * 2 + 2)) (storage s)));
      Some (r, DRet (Some (tail, v)))
  | DRet res => Some (r, DRet res)
  end.

(** src/cpp-util/lockfreeQueue.h:213-217, [mpmc::Ring::size]. *)
Definition size (r : Ring) : Z := s64 (head_ r - tail_ r).

(** src/cpp-util/lockfreeQueue.h:219, [mpmc::Ring::empty]. *)
Definition empty (r : Ring) : bool := size r <=? 0.

(** ** Systems of calls *)

Record sys := mkSys { sring : Ring; pushers : list epc; poppers : list dpc }.

Inductive event :=
  | Push (t : nat)
  | Pop (t : nat).

Definition step (s : sys) (e : event) : option sys :=
  match e with
  | Push t =>
      match pushers s !! t with
      | Some pc =>
          '(r, pc') ← push_step (sring s) pc; Some (mkSys r (<[t := pc']> (pushers s)) (poppers s))
      | None => Some s
      end
  | Pop t =>
      match poppers s !! t with
      | Some pc =>
          '(r, pc') ← pop_step (sring s) pc; Some (mkSys r (pushers s) (<[t := pc']> (poppers s)))
      | None => Some s
      end
  end.

(** The elements in the order of the positions they were given. *)
Definition log_step (s : sys) (e : event) (log : list Z) : list Z :=
  match e with
  | Push t =>
      match pushers s !! t with
      | Some (EFetch v) => log ++ [v]
      | Some (TCas head v) => if head_ (sring s) =? head then log ++ [v] else log
      | _ => log
      end
  | Pop _ => log
  end.

(** A call that has not begun. *)
Definition epc_start (pc : epc) : Prop := ∃ v, pc = push v ∨ pc = try_push v.
Definition dpc_start (pc : dpc) : Prop := pc = DFetch ∨ pc = YLoad.

Inductive reach (cap : Z) (es : list epc) (ds : list dpc) : sys → list Z → Prop :=
  | reach_start r :
      Ring_new cap true = Some r → Forall epc_start es → Forall dpc_start ds →
      reach cap es ds (mkSys r es ds) []
  | reach_step s log e s' :
      reach cap es ds s log → head_ (sring s) < 2 ^ 62 → tail_ (sring s) < 2 ^ 62 →
      step s e = Some s' → reach cap es ds s' (log_step s e log).

(** The position that a push or a pop was given. *)
Definition eticket (pc : epc) : option Z :=
  match pc with
  | EWait h _ | EConstruct h _ | EStore h _ => Some h
  | ERet res _ => res
  | _ => None
  end.
Definition dticket (pc : dpc) : option Z :=
  match pc with
  | DWait t | DMove t | DDestroy t _ | DStore t _ => Some t
  | DRet res => fst <$> res
  | _ => None
  end.

(** ** The invariant *)

Definition eclaim (es : list epc) (t : nat) : option (Z * Z) :=
  pc ← es !! t; i ← eticket pc; Some (i, 1).
Definition dclaim (ds : list dpc) (t : nat) : option (Z * Z) :=
  pc ← ds !! t; i ← dticket pc; Some (i, 1).

(** The slot of position [i] has the turn [T] and the storage [st]. *)
Definition slot_is (r : Ring) (i T : Z) (st : option Z) : Prop :=
  aget (slots_ r) (idx r i) = Some (mkSlot T st).

(** What holds of a push at each of its program points. *)
Definition epc_ok (r : Ring) (log : list Z) (pc : epc) : Prop :=
  match pc with
  | EFetch _ | TLoad _ | ERet None _ => True
  | EWait h v | ERet (Some h) v => aget log h = Some v
  | TCheck h v | TReload h v => 0 ≤ h ≤ head_ r
  | TCas h v => 0 ≤ h ≤ head_ r ∧ (h = head_ r → ∃ st, slot_is r h (turn r h * 2) st)
  | EConstruct h v => aget log h = Some v ∧ slot_is r h (turn r h * 2) None
  | EStore h v => aget log h = Some v ∧ slot_is r h (turn r h * 2) (Some v)
  end.

Definition dpc_ok (r : Ring) (log : list Z) (pc : dpc) : Prop :=
  match pc with
  | DFetch | YLoad | DRet None => True
  | DWait t => 0 ≤ t < tail_ r
  | YCheck t | YReload t => 0 ≤ t ≤ tail_ r
  | YCas t => 0 ≤ t ≤ tail_ r ∧ (t = tail_ r → ∃ st, slot_is r t (turn r t * 2 + 1) st)
  | DMove t => 0 ≤ t < tail_ r ∧ ∃ v, aget log t = Some v ∧ slot_is r t (turn r t * 2 + 1) (Some v)
  | DDestroy t v =>
      0 ≤ t < tail_ r ∧ aget log t = Some v ∧ slot_is r t (turn r t * 2 + 1) (Some v)
  | DStore t v => 0 ≤ t < tail_ r ∧ aget log t = Some v ∧ slot_is r t (turn r t * 2 + 1) None
  | DRet (Some (t, v)) => 0 ≤ t < tail_ r ∧ aget log t = Some v
  end.

(** A slot with an even turn is empty, unless its producer is about to store the
    turn; one with an odd turn holds the element of its position, unless the
    consumer of that position is about to store the turn. *)
Definition slot_ok (r : Ring) (es : list epc) (ds : list dpc) (log : list Z) (i : Z) : Prop :=
  (∀ st, slot_is r i (turn r i * 2) st →
     st = None ∨ ∃ t v, es !! t = Some (EStore i v)) ∧
  (∀ st, slot_is r i (turn r i * 2 + 1) st →
     ∃ v, aget log i = Some v ∧ (st = Some v ∨ ∃ t w, ds !! t = Some (DStore i w))).

Record mp_ok (s : sys) (log : list Z) : Prop := {
  mo_cap : 0 < capacity_ (sring s);
  mo_len : Z.of_nat (length (slots_ (sring s))) = capacity_ (sring s);
  mo_head : head_ (sring s) = Z.of_nat (length log);
  mo_headb : head_ (sring s) ≤ 2 ^ 62;
  mo_tail : 0 ≤ tail_ (sring s) ≤ 2 ^ 62;
  mo_push : ∀ t pc, pushers s !! t = Some pc → epc_ok (sring s) log pc;
  mo_pop : ∀ t pc, poppers s !! t = Some pc → dpc_ok (sring s) log pc;
  mo_slots : ∀ i, 0 ≤ i → slot_ok (sring s) (pushers s) (poppers s) log i;
  mo_etiles : tiles (eclaim (pushers s)) (head_ (sring s));
  mo_dtiles : tiles (dclaim (poppers s)) (tail_ (sring s))
}.

(** Positions with the same slot and the same round are equal. *)
Lemma position_eq r i j : 0 < capacity_ r → idx r i = idx r j → turn r i = turn r j → i = j.
Proof.
  unfold idx, turn. intros Hc H1 H2.
  rewrite (Z.div_mod i (capacity_ r)), (Z.div_mod j (capacity_ r)) by lia. congruence.
Qed.

Lemma idx_range r i : 0 < capacity_ r → 0 ≤ idx r i < capacity_ r.
Proof. intros. by apply Z.mod_pos_bound. Qed.

Lemma turn_small r i : 0 < capacity_ r → 0 ≤ i ≤ 2 ^ 62 → 0 ≤ turn r i ≤ 2 ^ 62.
Proof.
  intros Hc Hi. unfold turn. split; [apply Z.div_pos; lia|].
  transitivity i; [|lia]. apply Z.div_le_upper_bound; nia.
Qed.

(** An update of the slot of position [i]. *)
Lemma upd_slot_spec r i f T st s' :
  slot_is r i T st → f (mkSlot T st) = Some s' →
  ∃ r', upd_slot r i f = Some r' ∧ capacity_ r' = capacity_ r ∧ head_ r' = head_ r ∧
    tail_ r' = tail_ r ∧ length (slots_ r') = length (slots_ r) ∧
    ∀ j, aget (slots_ r') (idx r j) =
      if decide (idx r i = idx r j) then Some s' else aget (slots_ r) (idx r j).
Proof.
  intros Hs Hf. unfold upd_slot. rewrite Hs. cbn [mbind option_bind]. rewrite Hf.
  cbn [mbind option_bind]. destruct (aget_Some _ _ _ Hs) as [Hr _].
  pose proof (aset_Some (slots_ r) (idx r i) s' Hr) as Ha. rewrite Ha. cbn [mbind option_bind].
  eexists. split; [done|]. split; [done|]. split; [done|]. split; [done|].
  split; [by apply (aset_length _ _ _ _ Ha)|]. intros j. apply (aget_aset _ _ _ _ _ Ha).
Qed.

(** ** Changes of one slot *)

(** [r'] is [r] with the slot of position [i] changed from [(T, st)] to [(T', st')]. *)
Record slot_upd (r r' : Ring) (i T : Z) (st : option Z) (T' : Z) (st' : option Z) : Prop := {
  su_cap : capacity_ r' = capacity_ r;
  su_head : head_ r' = head_ r;
  su_tail : tail_ r' = tail_ r;
  su_len : length (slots_ r') = length (slots_ r);
  su_old : slot_is r i T st;
  su_new : ∀ j, aget (slots_ r') (idx r j) =
    if decide (idx r i = idx r j) then Some (mkSlot T' st') else aget (slots_ r) (idx r j)
}.

Lemma upd_slot_upd r i f T st T' st' :
  slot_is r i T st → f (mkSlot T st) = Some (mkSlot T' st') →
  ∃ r', upd_slot r i f = Some r' ∧ slot_upd r r' i T st T' st'.
Proof.
  intros Hs Hf. destruct (upd_slot_spec r i f T st _ Hs Hf) as (r' & H1 & H2 & H3 & H4 & H5 & H6).
  exists r'. by split.
Qed.

Section slot_update.
Context (r r' : Ring) (i T : Z) (st : option Z) (T' : Z) (st' : option Z).
Context (Hcap : 0 < capacity_ r) (Hupd : slot_upd r r' i T st T' st').

Lemma su_idx j : idx r' j = idx r j.
Proof. unfold idx. by rewrite (su_cap _ _ _ _ _ _ _ Hupd). Qed.

Lemma su_turn j : turn r' j = turn r j.
Proof. unfold turn. by rewrite (su_cap _ _ _ _ _ _ _ Hupd). Qed.

(** The new slot of a position: the changed one, or the old one. *)
Lemma su_slot j T2 st2 :
  slot_is r' j T2 st2 ↔
    (idx r i = idx r j ∧ T2 = T' ∧ st2 = st') ∨ (idx r i ≠ idx r j ∧ slot_is r j T2 st2).
Proof.
  unfold slot_is. rewrite su_idx, (su_new _ _ _ _ _ _ _ Hupd). case_decide as Hd.
  - split; [intros [= -> ->]; by left|]. intros [(_ & -> & ->)|[? _]]; done.
  - split; [by right|]. intros [(? & _)|[_ ?]]; done.
Qed.

Lemma slot_is_fun j T1 st1 T2 st2 : slot_is r j T1 st1 → slot_is r j T2 st2 → T1 = T2 ∧ st1 = st2.
Proof. unfold slot_is. intros -> [= -> ->]. done. Qed.

(** Facts about another position, or about the other phase of the same position,
    survive a change of the slot in phase [c] of position [i]. *)
Lemma su_other c j b st2 :
  T = turn r i * 2 + c → 0 ≤ c < 2 → 0 ≤ b < 2 → ¬ (j = i ∧ b = c) →
  slot_is r j (turn r j * 2 + b) st2 → slot_is r' j (turn r' j * 2 + b) st2.
Proof.
  intros HT Hc Hb Hne Hs. rewrite su_turn. apply su_slot. right. split; [|done].
  intros He. destruct Hne.
  assert (Hs' : slot_is r j T st)
    by (pose proof (su_old _ _ _ _ _ _ _ Hupd) as H; unfold slot_is in *; by rewrite <-He).
  destruct (slot_is_fun j _ _ _ _ Hs Hs') as [HT2 _].
  assert (turn r j = turn r i ∧ b = c) as [Ht ->] by lia. split; [|done].
  symmetry. by apply (position_eq r).
Qed.

(** Conversely. *)
Lemma su_inv c' j b st2 :
  T' = turn r i * 2 + c' → 0 ≤ c' < 2 → 0 ≤ b < 2 → ¬ (j = i ∧ b = c') →
  slot_is r' j (turn r' j * 2 + b) st2 → slot_is r j (turn r j * 2 + b) st2.
Proof.
  intros HT Hc Hb Hne Hs. rewrite su_turn in Hs. apply su_slot in Hs as [(He & HT2 & _)|[_ Hs]].
  - destruct Hne. assert (turn r j = turn r i ∧ b = c') as [Ht ->] by lia. split; [|done].
    symmetry. by apply (position_eq r).
  - done.
Qed.
End slot_update.

(** Steps of a push that neither take a position nor change a slot. *)
Lemma push_idle s log t pc pc' :
  mp_ok s log → pushers s !! t = Some pc → eticket pc' = eticket pc →
  (∀ i v, pc ≠ EStore i v) → epc_ok (sring s) log pc' →
  mp_ok (mkSys (sring s) (<[t := pc']> (pushers s)) (poppers s)) log.
Proof.
  intros [H1 H2 H3 H4 H5 H6 H7 H8 H9 H10] Ht Hticket Hns Hok.
  pose proof (lookup_lt_Some _ _ _ Ht) as Hlt. split; simpl; try done.
  - intros t2 pc2. destruct (decide (t = t2)) as [<-|].
    + rewrite list_lookup_insert_eq by done. by intros [= <-].
    + rewrite list_lookup_insert_ne by done. apply H6.
  - intros i Hi. destruct (H8 i Hi) as [He Ho]. split; [|done].
    intros st Hst. destruct (He st Hst) as [|(t2 & v & Ht2)]; [by left|]. right.
    exists t2, v. rewrite list_lookup_insert_ne; [done|]. intros <-. rewrite Ht in Ht2.
    injection Ht2 as ->. by destruct (Hns i v).
  - apply (tiles_same (eclaim (pushers s)) _ _ t H9).
    + unfold eclaim. rewrite list_lookup_insert_eq, Ht by done. simpl. by rewrite Hticket.
    + intros t' Hne. unfold eclaim. by rewrite list_lookup_insert_ne by done.
Qed.

Lemma aget_snoc (log : list Z) v i :
  aget (log ++ [v]) i = if decide (i = Z.of_nat (length log)) then Some v else aget log i.
Proof.
  unfold aget. case_decide as Hd.
  - subst i. rewrite (proj2 (Z.leb_le _ _)) by lia. rewrite Nat2Z.id.
    by rewrite lookup_app_r, Nat.sub_diag by lia.
  - destruct (Z.leb_spec 0 i); [|done]. destruct (decide (i < Z.of_nat (length log))).
    + apply lookup_app_l. lia.
    + rewrite !lookup_ge_None_2; [done|lia|]. rewrite length_app. simpl. lia.
Qed.

Lemma aget_snoc_old (log : list Z) v i x : aget log i = Some x → aget (log ++ [v]) i = Some x.
Proof.
  intros H. rewrite aget_snoc. destruct (aget_Some _ _ _ H). by rewrite decide_False by lia.
Qed.

(** A push takes the next position. *)
Lemma push_take s log t pc pc' v :
  mp_ok s log → pushers s !! t = Some pc → eticket pc = None →
  eticket pc' = Some (head_ (sring s)) → head_ (sring s) < 2 ^ 62 →
  epc_ok (with_head (sring s) (head_ (sring s) + 1)) (log ++ [v]) pc' →
  mp_ok (mkSys (with_head (sring s) (head_ (sring s) + 1)) (<[t := pc']> (pushers s)) (poppers s))
    (log ++ [v]).
Proof.
  intros [H1 H2 H3 H4 H5 H6 H7 H8 H9 H10] Ht Hnone Htake Hb Hok.
  pose proof (lookup_lt_Some _ _ _ Ht) as Hlt. split; simpl; try done.
  - rewrite length_app. simpl. lia.
  - lia.
  - intros t2 pc2. destruct (decide (t = t2)) as [<-|].
    + rewrite list_lookup_insert_eq by done. by intros [= <-].
    + rewrite list_lookup_insert_ne by done. intros Ht2%H6.
      destruct pc2 as [w|h w|w|h w|h w|h w|h w|h w|[h|] w]; simpl in *;
        try done; try lia; auto using aget_snoc_old.
      * destruct Ht2. auto using aget_snoc_old.
      * destruct Ht2. auto using aget_snoc_old.
  - intros t2 pc2 Ht2%H7.
    destruct pc2 as [| | | | | |h|h w|h w|[[h w]|]]; simpl in *; try done.
    + destruct Ht2 as (? & x & ? & ?). split; [done|]. exists x. auto using aget_snoc_old.
    + destruct Ht2 as (? & ? & ?). auto using aget_snoc_old.
    + destruct Ht2 as (? & ? & ?). auto using aget_snoc_old.
    + destruct Ht2 as (? & ?). auto using aget_snoc_old.
  - intros i Hi. destruct (H8 i Hi) as [He Ho]. split.
    + intros st Hst. destruct (He st Hst) as [|(t2 & w & Ht2)]; [by left|]. right.
      exists t2, w. rewrite list_lookup_insert_ne; [done|]. intros <-. rewrite Ht in Ht2.
      by injection Ht2 as ->.
    + intros st Hst. destruct (Ho st Hst) as (w & Hw & ?). exists w. auto using aget_snoc_old.
  - apply (tiles_add (eclaim (pushers s)) _ _ t 1 H9); try lia.
    + unfold eclaim. rewrite Ht. simpl. by rewrite Hnone.
    + unfold eclaim. rewrite list_lookup_insert_eq by done. simpl. by rewrite Htake.
    + intros t' Hne. unfold eclaim. by rewrite list_lookup_insert_ne by done.
Qed.

(** The assertions of calls that do not own the changed phase of a slot. *)
Section stable.
Context (r r' : Ring) (i c : Z) (st : option Z) (T' : Z) (st' : option Z) (log : list Z).
Context (Hcap : 0 < capacity_ r) (Hc : 0 ≤ c < 2).
Context (Hupd : slot_upd r r' i (turn r i * 2 + c) st T' st').

Lemma phase_stable j b st2 :
  0 ≤ b < 2 → ¬ (j = i ∧ b = c) → slot_is r j (turn r j * 2 + b) st2 →
  slot_is r' j (turn r' j * 2 + b) st2.
Proof. intros. by eapply (su_other _ _ _ _ _ _ _ Hcap Hupd c). Qed.

Lemma even_stable j st2 :
  ¬ (j = i ∧ c = 0) → slot_is r j (turn r j * 2) st2 → slot_is r' j (turn r' j * 2) st2.
Proof. intros Hne. pose proof (phase_stable j 0 st2) as H. rewrite !Z.add_0_r in H. apply H; lia. Qed.

Lemma epc_ok_stable pc :
  (c = 0 → eticket pc ≠ Some i ∧ i < head_ r) → epc_ok r log pc → epc_ok r' log pc.
Proof.
  intros Hown Hp. pose proof (su_head _ _ _ _ _ _ _ Hupd) as Hh.
  destruct pc as [w|h w|w|h w|h w|h w|h w|h w|[h|] w]; simpl in *; rewrite ?Hh; try done.
  - destruct Hp as [Hr Hp]. split; [done|]. intros E. destruct (Hp E) as [st2 Hst].
    exists st2. apply even_stable; [|done]. intros [-> H0]. destruct (Hown H0). lia.
  - destruct Hp as [? Hp]. split; [done|]. apply even_stable; [|done].
    intros [-> H0]. by destruct (Hown H0).
  - destruct Hp as [? Hp]. split; [done|]. apply even_stable; [|done].
    intros [-> H0]. by destruct (Hown H0).
Qed.

Lemma dpc_ok_stable pc :
  (c = 1 → dticket pc ≠ Some i ∧ i < tail_ r) → dpc_ok r log pc → dpc_ok r' log pc.
Proof.
  intros Hown Hp. pose proof (su_tail _ _ _ _ _ _ _ Hupd) as Ht.
  assert (Hodd : ∀ j st2, (c = 1 → j ≠ i) → slot_is r j (turn r j * 2 + 1) st2 →
    slot_is r' j (turn r' j * 2 + 1) st2).
  { intros j st2 Hj. apply phase_stable; [lia|]. intros [-> <-]. by apply Hj. }
  destruct pc as [| | | | | |h|h w|h w|[[h w]|]]; simpl in *; rewrite ?Ht; try done.
  - destruct Hp as [? Hp]. split; [done|]. intros E. destruct (Hp E) as [st2 ?]. exists st2.
    apply Hodd; [|done]. intros Hc1. destruct (Hown Hc1). lia.
  - destruct Hp as (? & x & ? & ?). split; [done|]. exists x. split; [done|]. apply Hodd; [|done].
    intros Hc1 ->. by destruct (Hown Hc1).
  - destruct Hp as (? & ? & ?). split; [done|]. split; [done|]. apply Hodd; [|done].
    intros Hc1 ->. by destruct (Hown Hc1).
  - destruct Hp as (? & ? & ?). split; [done|]. split; [done|]. apply Hodd; [|done].
    intros Hc1 ->. by destruct (Hown Hc1).
Qed.
End stable.

(** A call owns its position. *)
Lemma eticket_owner s log t pc i :
  mp_ok s log → pushers s !! t = Some pc → eticket pc = Some i →
  0 ≤ i < head_ (sring s) ∧
  ∀ t2 pc2, pushers s !! t2 = Some pc2 → eticket pc2 = Some i → t2 = t.
Proof.
  intros Hs Ht Hi. pose proof (mo_etiles s log Hs) as Htl.
  assert (Hc : eclaim (pushers s) t = Some (i, 1)) by (unfold eclaim; rewrite Ht; simpl; by rewrite Hi).
  split; [pose proof (tl_range _ _ Htl _ _ _ Hc); lia|]. intros t2 pc2 Ht2 Hi2.
  apply (tiles_owner _ _ _ _ i 1 1 Htl); [|done]. unfold eclaim. rewrite Ht2. simpl. by rewrite Hi2.
Qed.

Lemma dticket_owner s log t pc i :
  mp_ok s log → poppers s !! t = Some pc → dticket pc = Some i →
  0 ≤ i < tail_ (sring s) ∧
  ∀ t2 pc2, poppers s !! t2 = Some pc2 → dticket pc2 = Some i → t2 = t.
Proof.
  intros Hs Ht Hi. pose proof (mo_dtiles s log Hs) as Htl.
  assert (Hc : dclaim (poppers s) t = Some (i, 1)) by (unfold dclaim; rewrite Ht; simpl; by rewrite Hi).
  split; [pose proof (tl_range _ _ Htl _ _ _ Hc); lia|]. intros t2 pc2 Ht2 Hi2.
  apply (tiles_owner _ _ _ _ i 1 1 Htl); [|done]. unfold dclaim. rewrite Ht2. simpl. by rewrite Hi2.
Qed.

(** A push changes the slot of its position: the invariant but for the slots. *)
Lemma push_slot s log t pc pc' i st T' st' r' :
  mp_ok s log → pushers s !! t = Some pc → eticket pc = Some i → eticket pc' = Some i →
  slot_upd (sring s) r' i (turn (sring s) i * 2) st T' st' → epc_ok r' log pc' →
  (∀ j, 0 ≤ j → slot_ok r' (<[t := pc']> (pushers s)) (poppers s) log j) →
  mp_ok (mkSys r' (<[t := pc']> (pushers s)) (poppers s)) log.
Proof.
  intros Hs Ht Hi Hi' Hu Hok Hslots. pose proof Hs as [H1 H2 H3 H4 H5 H6 H7 _ H9 H10].
  pose proof (lookup_lt_Some _ _ _ Ht) as Hlt.
  destruct (eticket_owner s log t pc i Hs Ht Hi) as [Hir Hmine].
  rewrite <-(Z.add_0_r (turn (sring s) i * 2)) in Hu.
  split; simpl; rewrite ?(su_cap _ _ _ _ _ _ _ Hu), ?(su_len _ _ _ _ _ _ _ Hu),
    ?(su_head _ _ _ _ _ _ _ Hu), ?(su_tail _ _ _ _ _ _ _ Hu); try done.
  - intros t2 pc2. destruct (decide (t = t2)) as [<-|Hne].
    + rewrite list_lookup_insert_eq by done. by intros [= <-].
    + rewrite list_lookup_insert_ne by done. intros Ht2.
      eapply (epc_ok_stable _ _ _ 0 _ _ _ _ H1 ltac:(lia) Hu); [|by apply (H6 t2)].
      intros _. split; [|lia]. intros E. by destruct Hne, (Hmine t2 pc2).
  - intros t2 pc2 Ht2. eapply (dpc_ok_stable _ _ _ 0 _ _ _ _ H1 ltac:(lia) Hu); [done|].
    by apply (H7 t2).
  - apply (tiles_same (eclaim (pushers s)) _ _ t H9).
    + unfold eclaim. rewrite list_lookup_insert_eq, Ht by done. simpl. by rewrite Hi, Hi'.
    + intros t' Hne. unfold eclaim. by rewrite list_lookup_insert_ne by done.
Qed.

(** The element is constructed. *)
Lemma push_construct s log t h v :
  mp_ok s log → pushers s !! t = Some (EConstruct h v) →
  ∃ r', upd_slot (sring s) h (λ sl, Some (construct sl v)) = Some r' ∧
    mp_ok (mkSys r' (<[t := EStore h v]> (pushers s)) (poppers s)) log.
Proof.
  intros Hs Ht. pose proof Hs as [H1 _ _ _ _ H6 _ H8 _ _].
  destruct (H6 _ _ Ht) as [Hlog Hslot].
  destruct (upd_slot_upd (sring s) h (λ sl, Some (construct sl v)) _ _ _ _ Hslot eq_refl)
    as (r' & -> & Hu). exists r'. split; [done|].
  pose proof (lookup_lt_Some _ _ _ Ht) as Hlt. simpl in Hu. pose proof Hu as Hu0.
  rewrite <-(Z.add_0_r (turn (sring s) h * 2)) in Hu.
  eapply (push_slot s log t _ _ h); try done.
  - simpl. split; [done|]. rewrite (su_turn _ _ _ _ _ _ _ Hu0).
    apply (su_slot _ _ _ _ _ _ _ Hu0). by left.
  - intros j Hj. destruct (H8 j Hj) as [He Ho]. split; intros st2 Hst2.
    + destruct (decide (j = h)) as [->|Hne].
      { right. exists t, v. by rewrite list_lookup_insert_eq. }
      pose proof (su_inv _ _ _ _ _ _ _ H1 Hu 0 j 0 st2) as Hinv. rewrite !Z.add_0_r in Hinv.
      destruct (He st2) as [|(t2 & w & Ht2)]; [apply Hinv; try done; lia|by left|].
      right. exists t2, w. rewrite list_lookup_insert_ne; [done|]. intros <-. congruence.
    + apply Ho. eapply (su_inv _ _ _ _ _ _ _ H1 Hu 0); try done; lia.
Qed.

(** The turn of the element is stored. *)
Lemma push_store s log t h v :
  mp_ok s log → pushers s !! t = Some (EStore h v) →
  ∃ r', upd_slot (sring s) h
      (λ sl, Some (mkSlot (u64 (turn (sring s) h * 2 + 1)) (storage sl))) = Some r' ∧
    mp_ok (mkSys r' (<[t := ERet (Some h) v]> (pushers s)) (poppers s)) log.
Proof.
  intros Hs Ht. pose proof Hs as [H1 _ _ Hb _ H6 _ H8 _ _].
  destruct (H6 _ _ Ht) as [Hlog Hslot].
  destruct (eticket_owner s log t _ h Hs Ht eq_refl) as [Hir _].
  pose proof (turn_small (sring s) h H1 ltac:(lia)) as Htn.
  rewrite uwrap_small by lia.
  destruct (upd_slot_upd (sring s) h (λ sl, Some (mkSlot (turn (sring s) h * 2 + 1) (storage sl)))
    _ _ _ _ Hslot eq_refl) as (r' & -> & Hu). exists r'. split; [done|].
  pose proof (lookup_lt_Some _ _ _ Ht) as Hlt. simpl in Hu.
  eapply (push_slot s log t _ _ h); try done.
  intros j Hj. destruct (H8 j Hj) as [He Ho]. split; intros st2 Hst2.
  - pose proof (su_inv _ _ _ _ _ _ _ H1 Hu 1 j 0 st2) as Hinv. rewrite !Z.add_0_r in Hinv.
    destruct (He st2) as [|(t2 & w & Ht2)]; [apply Hinv; try done; lia|by left|].
    destruct (decide (j = h)) as [->|Hji].
    { rewrite (su_turn _ _ _ _ _ _ _ Hu) in Hst2.
      apply (su_slot _ _ _ _ _ _ _ Hu) in Hst2 as [(_ & ? & _)|[? _]]; [lia|done]. }
    right. exists t2, w. rewrite list_lookup_insert_ne; [done|]. intros <-. congruence.
  - destruct (decide (j = h)) as [->|Hji].
    { rewrite (su_turn _ _ _ _ _ _ _ Hu) in Hst2.
      apply (su_slot _ _ _ _ _ _ _ Hu) in Hst2 as [(_ & _ & ->)|[? _]]; [|done]. eauto. }
    apply Ho. eapply (su_inv _ _ _ _ _ _ _ H1 Hu 1); try done; lia.
Qed.

(** All steps of a push. *)
Lemma push_step_ok s log t :
  mp_ok s log → head_ (sring s) < 2 ^ 62 →
  ∃ s', step s (Push t) = Some s' ∧ mp_ok s' (log_step s (Push t) log).
Proof.
  intros Hs Hb. simpl. destruct (pushers s !! t) as [pc|] eqn:Ht; [|by exists s].
  pose proof Hs as [H1 H2 H3 H4 H5 H6 H7 H8 H9 H10]. pose proof (H6 t pc Ht) as Hpc.
  assert (Hslot : ∀ i, ∃ T st, slot_is (sring s) i T st).
  { intros i. destruct (aget_is_Some (slots_ (sring s)) (idx (sring s) i)) as [[T st] Hx].
    - rewrite H2. by apply idx_range.
    - exists T, st. exact Hx. }
  assert (Hturn : ∀ i, 0 ≤ i ≤ head_ (sring s) →
    u64 (turn (sring s) i * 2) = turn (sring s) i * 2).
  { intros i Hi. pose proof (turn_small (sring s) i H1 ltac:(lia)). apply uwrap_small. lia. }
  assert (Hfree : ∀ i st, 0 ≤ i → slot_is (sring s) i (turn (sring s) i * 2) st →
    (∀ t2 v, pushers s !! t2 ≠ Some (EStore i v)) → st = None).
  { intros i st Hi Hst Hno. destruct (H8 i Hi) as [He _].
    destruct (He st Hst) as [|(t2 & v & Ht2)]; [done|]. by destruct (Hno t2 v). }
  destruct pc as [v|h v|v|h v|h v|h v|h v|h v|res v]; cbn [push_step].
  - cbn [mbind option_bind]. rewrite uwrap_small by lia. eexists. split; [done|].
    apply (push_take s log t _ _ v Hs Ht); try done. simpl. rewrite aget_snoc.
    by rewrite decide_True.
  - destruct (Hslot h) as (T & st & Hst). rewrite Hst. cbn [mbind option_bind].
    destruct (eticket_owner s log t _ h Hs Ht eq_refl) as [Hr Hmine].
    rewrite Hturn by lia. simpl. destruct (Z.eqb_spec (turn (sring s) h * 2) T) as [<-|Hne];
      eexists; (split; [done|]); eapply push_idle; try done.
    simpl. split; [done|]. rewrite (Hfree h st) in Hst; [done|lia|done|].
    intros t2 w Ht2. assert (t2 = t) as -> by (by apply (Hmine t2 _ Ht2)). congruence.
  - cbn [mbind option_bind]. eexists. split; [done|]. eapply push_idle; try done. simpl. lia.
  - destruct (Hslot h) as (T & st & Hst). rewrite Hst. cbn [mbind option_bind]. simpl in Hpc.
    rewrite Hturn by lia. simpl. destruct (Z.eqb_spec (turn (sring s) h * 2) T) as [<-|Hne];
      eexists; (split; [done|]); eapply push_idle; try done.
    simpl. split; [done|]. eauto.
  - simpl in Hpc. destruct Hpc as [Hr Hsl].
    destruct (Z.eqb_spec (head_ (sring s)) h) as [<-|Hne]; cbn [mbind option_bind];
      eexists; (split; [done|]).
    + rewrite uwrap_small by lia. apply (push_take s log t _ _ v Hs Ht); try done.
      destruct Hsl as [st Hst]; [done|]. simpl. rewrite aget_snoc, decide_True by done.
      split; [done|]. rewrite (Hfree (head_ (sring s)) st) in Hst; [done|lia|done|].
      intros t2 w Ht2. destruct (eticket_owner s log t2 _ _ Hs Ht2 eq_refl). lia.
    + eapply push_idle; try done. simpl. lia.
  - cbn [mbind option_bind]. eexists. split; [done|]. eapply push_idle; try done.
    + by destruct (_ =? _).
    + simpl in Hpc. destruct (_ =? _); simpl; [done|lia].
  - destruct (push_construct s log t h v Hs Ht) as (r' & -> & Hok). by eexists.
  - destruct (push_store s log t h v Hs Ht) as (r' & -> & Hok). by eexists.
  - cbn [mbind option_bind]. eexists. split; [done|]. by eapply push_idle.
Qed.

(** ** Steps of a pop *)

Lemma pop_idle s log t pc pc' :
  mp_ok s log → poppers s !! t = Some pc → dticket pc' = dticket pc →
  (∀ i v, pc ≠ DStore i v) → dpc_ok (sring s) log pc' →
  mp_ok (mkSys (sring s) (pushers s) (<[t := pc']> (poppers s))) log.
Proof.
  intros [H1 H2 H3 H4 H5 H6 H7 H8 H9 H10] Ht Hticket Hns Hok.
  pose proof (lookup_lt_Some _ _ _ Ht) as Hlt. split; simpl; try done.
  - intros t2 pc2. destruct (decide (t = t2)) as [<-|].
    + rewrite list_lookup_insert_eq by done. by intros [= <-].
    + rewrite list_lookup_insert_ne by done. apply H7.
  - intros i Hi. destruct (H8 i Hi) as [He Ho]. split; [done|].
    intros st Hst. destruct (Ho st Hst) as (v & Hv & [|(t2 & w & Ht2)]); [by eauto|].
    exists v. split; [done|]. right. exists t2, w. rewrite list_lookup_insert_ne; [done|].
    intros <-. rewrite Ht in Ht2. injection Ht2 as ->. by destruct (Hns i w).
  - apply (tiles_same (dclaim (poppers s)) _ _ t H10).
    + unfold dclaim. rewrite list_lookup_insert_eq, Ht by done. simpl. by rewrite Hticket.
    + intros t' Hne. unfold dclaim. by rewrite list_lookup_insert_ne by done.
Qed.

(** A pop takes the next position. *)
Lemma pop_take s log t pc pc' :
  mp_ok s log → poppers s !! t = Some pc → dticket pc = None →
  dticket pc' = Some (tail_ (sring s)) → tail_ (sring s) < 2 ^ 62 →
  dpc_ok (with_tail (sring s) (tail_ (sring s) + 1)) log pc' →
  mp_ok (mkSys (with_tail (sring s) (tail_ (sring s) + 1)) (pushers s) (<[t := pc']> (poppers s)))
    log.
Proof.
  intros [H1 H2 H3 H4 H5 H6 H7 H8 H9 H10] Ht Hnone Htake Hb Hok.
  pose proof (lookup_lt_Some _ _ _ Ht) as Hlt. split; simpl; try done.
  - lia.
  - intros t2 pc2. destruct (decide (t = t2)) as [<-|].
    + rewrite list_lookup_insert_eq by done. by intros [= <-].
    + rewrite list_lookup_insert_ne by done. intros Ht2%H7.
      destruct pc2 as [| | | | | |h|h w|h w|[[h w]|]]; simpl in *; try done; try lia.
      * destruct Ht2 as (? & x & ? & ?). split; [lia|eauto].
      * destruct Ht2 as (? & ? & ?). split; [lia|done].
      * destruct Ht2 as (? & ? & ?). split; [lia|done].
      * destruct Ht2 as (? & ?). split; [lia|done].
  - intros i Hi. destruct (H8 i Hi) as [He Ho]. split; [done|].
    intros st Hst. destruct (Ho st Hst) as (v & Hv & [|(t2 & w & Ht2)]); [by eauto|].
    exists v. split; [done|]. right. exists t2, w. rewrite list_lookup_insert_ne; [done|].
    intros <-. rewrite Ht in Ht2. by injection Ht2 as ->.
  - apply (tiles_add (dclaim (poppers s)) _ _ t 1 H10); try lia.
    + unfold dclaim. rewrite Ht. simpl. by rewrite Hnone.
    + unfold dclaim. rewrite list_lookup_insert_eq by done. simpl. by rewrite Htake.
    + intros t' Hne. unfold dclaim. by rewrite list_lookup_insert_ne by done.
Qed.

Lemma pop_slot s log t pc pc' i st T' st' r' :
  mp_ok s log → poppers s !! t = Some pc → dticket pc = Some i → dticket pc' = Some i →
  slot_upd (sring s) r' i (turn (sring s) i * 2 + 1) st T' st' → dpc_ok r' log pc' →
  (∀ j, 0 ≤ j → slot_ok r' (pushers s) (<[t := pc']> (poppers s)) log j) →
  mp_ok (mkSys r' (pushers s) (<[t := pc']> (poppers s))) log.
Proof.
  intros Hs Ht Hi Hi' Hu Hok Hslots. pose proof Hs as [H1 H2 H3 H4 H5 H6 H7 _ H9 H10].
  pose proof (lookup_lt_Some _ _ _ Ht) as Hlt.
  destruct (dticket_owner s log t pc i Hs Ht Hi) as [Hir Hmine].
  split; simpl; rewrite ?(su_cap _ _ _ _ _ _ _ Hu), ?(su_len _ _ _ _ _ _ _ Hu),
    ?(su_head _ _ _ _ _ _ _ Hu), ?(su_tail _ _ _ _ _ _ _ Hu); try done.
  - intros t2 pc2 Ht2. eapply (epc_ok_stable _ _ _ 1 _ _ _ _ H1 ltac:(lia) Hu); [done|].
    by apply (H6 t2).
  - intros t2 pc2. destruct (decide (t = t2)) as [<-|Hne].
    + rewrite list_lookup_insert_eq by done. by intros [= <-].
    + rewrite list_lookup_insert_ne by done. intros Ht2.
      eapply (dpc_ok_stable _ _ _ 1 _ _ _ _ H1 ltac:(lia) Hu); [|by apply (H7 t2)].
      intros _. split; [|lia]. intros E. by destruct Hne, (Hmine t2 pc2).
  - apply (tiles_same (dclaim (poppers s)) _ _ t H10).
    + unfold dclaim. rewrite list_lookup_insert_eq, Ht by done. simpl. by rewrite Hi, Hi'.
    + intros t' Hne. unfold dclaim. by rewrite list_lookup_insert_ne by done.
Qed.

(** The element that was taken out is destroyed. *)
Lemma pop_destroy s log t h v :
  mp_ok s log → poppers s !! t = Some (DDestroy h v) →
  ∃ r', upd_slot (sring s) h destroy = Some r' ∧
    mp_ok (mkSys r' (pushers s) (<[t := DStore h v]> (poppers s))) log.
Proof.
  intros Hs Ht. pose proof Hs as [H1 _ _ _ _ _ H7 H8 _ _].
  destruct (H7 _ _ Ht) as (Hr & Hlog & Hslot).
  destruct (upd_slot_upd (sring s) h destroy _ _ _ _ Hslot eq_refl) as (r' & -> & Hu).
  exists r'. split; [done|]. pose proof (lookup_lt_Some _ _ _ Ht) as Hlt. simpl in Hu.
  eapply (pop_slot s log t _ _ h); try done.
  - simpl. rewrite (su_tail _ _ _ _ _ _ _ Hu), (su_turn _ _ _ _ _ _ _ Hu).
    split; [done|]. split; [done|]. apply (su_slot _ _ _ _ _ _ _ Hu). by left.
  - intros j Hj. destruct (H8 j Hj) as [He Ho]. split; intros st2 Hst2.
    + apply He. pose proof (su_inv _ _ _ _ _ _ _ H1 Hu 1 j 0 st2) as Hinv.
      rewrite !Z.add_0_r in Hinv. apply Hinv; try done; lia.
    + destruct (decide (j = h)) as [->|Hne].
      { exists v. split; [done|]. right. exists t, v. by rewrite list_lookup_insert_eq. }
      destruct (Ho st2) as (w & Hw & [|(t2 & w2 & Ht2)]); [|by eauto|].
      { eapply (su_inv _ _ _ _ _ _ _ H1 Hu 1); try done; lia. }
      exists w. split; [done|]. right. exists t2, w2. rewrite list_lookup_insert_ne; [done|].
      intros <-. congruence.
Qed.

(** The slot is handed to the producer of the next round. *)
Lemma pop_store s log t h v :
  mp_ok s log → poppers s !! t = Some (DStore h v) →
  ∃ r', upd_slot (sring s) h
      (λ sl, Some (mkSlot (u64 (turn (sring s) h * 2 + 2)) (storage sl))) = Some r' ∧
    mp_ok (mkSys r' (pushers s) (<[t := DRet (Some (h, v))]> (poppers s))) log.
Proof.
  intros Hs Ht. pose proof Hs as [H1 _ _ _ Hb _ H7 H8 _ _].
  destruct (H7 _ _ Ht) as (Hr & Hlog & Hslot).
  pose proof (turn_small (sring s) h H1 ltac:(lia)) as Htn.
  rewrite uwrap_small by lia.
  destruct (upd_slot_upd (sring s) h (λ sl, Some (mkSlot (turn (sring s) h * 2 + 2) (storage sl)))
    _ _ _ _ Hslot eq_refl) as (r' & -> & Hu). exists r'. split; [done|].
  pose proof (lookup_lt_Some _ _ _ Ht) as Hlt. simpl in Hu.
  eapply (pop_slot s log t _ _ h); try done.
  - simpl. by rewrite (su_tail _ _ _ _ _ _ _ Hu).
  - intros j Hj. destruct (H8 j Hj) as [He Ho].
    split; intros st2 Hst2; rewrite (su_turn _ _ _ _ _ _ _ Hu) in Hst2;
      apply (su_slot _ _ _ _ _ _ _ Hu) in Hst2 as [(_ & HT & ->)|[Hni Hst2]].
    + by left.
    + by apply He.
    + lia.
    + destruct (Ho st2 Hst2) as (w & Hw & [|(t2 & w2 & Ht2)]); [by eauto|].
      exists w. split; [done|]. right. exists t2, w2. rewrite list_lookup_insert_ne; [done|].
      intros <-. rewrite Ht in Ht2. injection Ht2 as -> ->. done.
Qed.

(** All steps of a pop. *)
Lemma pop_step_ok s log t :
  mp_ok s log → tail_ (sring s) < 2 ^ 62 →
  ∃ s', step s (Pop t) = Some s' ∧ mp_ok s' (log_step s (Pop t) log).
Proof.
  intros Hs Hb. simpl. destruct (poppers s !! t) as [pc|] eqn:Ht; [|by exists s].
  pose proof Hs as [H1 H2 H3 H4 H5 H6 H7 H8 H9 H10]. pose proof (H7 t pc Ht) as Hpc.
  assert (Hslot : ∀ i, ∃ T st, slot_is (sring s) i T st).
  { intros i. destruct (aget_is_Some (slots_ (sring s)) (idx (sring s) i)) as [[T st] Hx].
    - rewrite H2. by apply idx_range.
    - exists T, st. exact Hx. }
  assert (Hturn : ∀ i, 0 ≤ i ≤ tail_ (sring s) →
    u64 (turn (sring s) i * 2 + 1) = turn (sring s) i * 2 + 1).
  { intros i Hi. pose proof (turn_small (sring s) i H1 ltac:(lia)). apply uwrap_small. lia. }
  assert (Hfull : ∀ i st, 0 ≤ i → slot_is (sring s) i (turn (sring s) i * 2 + 1) st →
    (∀ t2 v, poppers s !! t2 ≠ Some (DStore i v)) → ∃ v, aget log i = Some v ∧ st = Some v).
  { intros i st Hi Hst Hno. destruct (H8 i Hi) as [_ Ho].
    destruct (Ho st Hst) as (v & Hv & [|(t2 & w & Ht2)]); [by eauto|]. by destruct (Hno t2 w). }
  destruct pc as [|h| |h|h|h|h|h v|h v|res]; cbn [pop_step].
  - cbn [mbind option_bind]. rewrite uwrap_small by lia. eexists. split; [done|].
    apply (pop_take s log t _ _ Hs Ht); try done. simpl. lia.
  - destruct (Hslot h) as (T & st & Hst). rewrite Hst. cbn [mbind option_bind].
    destruct (dticket_owner s log t _ h Hs Ht eq_refl) as [Hr Hmine].
    rewrite Hturn by lia. simpl. destruct (Z.eqb_spec (turn (sring s) h * 2 + 1) T) as [<-|Hne];
      eexists; (split; [done|]); eapply pop_idle; try done.
    simpl. split; [done|]. destruct (Hfull h st) as (v & Hv & ->); [lia|done| |by eauto].
    intros t2 w Ht2. assert (t2 = t) as -> by (by apply (Hmine t2 _ Ht2)). congruence.
  - cbn [mbind option_bind]. eexists. split; [done|]. eapply pop_idle; try done. simpl. lia.
  - destruct (Hslot h) as (T & st & Hst). rewrite Hst. cbn [mbind option_bind]. simpl in Hpc.
    rewrite Hturn by lia. simpl. destruct (Z.eqb_spec (turn (sring s) h * 2 + 1) T) as [<-|Hne];
      eexists; (split; [done|]); eapply pop_idle; try done.
    simpl. split; [done|]. eauto.
  - simpl in Hpc. destruct Hpc as [Hr Hsl].
    destruct (Z.eqb_spec (tail_ (sring s)) h) as [<-|Hne]; cbn [mbind option_bind];
      eexists; (split; [done|]).
    + rewrite uwrap_small by lia. apply (pop_take s log t _ _ Hs Ht); try done.
      destruct Hsl as [st Hst]; [done|]. simpl. split; [lia|].
      destruct (Hfull (tail_ (sring s)) st) as (v & Hv & ->); [lia|done| |by eauto].
      intros t2 w Ht2. destruct (dticket_owner s log t2 _ _ Hs Ht2 eq_refl). lia.
    + eapply pop_idle; try done. simpl. lia.
  - cbn [mbind option_bind]. eexists. split; [done|]. eapply pop_idle; try done.
    + by destruct (_ =? _).
    + simpl in Hpc. destruct (_ =? _); simpl; [done|lia].
  - simpl in Hpc. destruct Hpc as (Hr & v & Hv & Hst). rewrite Hst. cbn [mbind option_bind move storage].
    eexists. split; [done|]. eapply pop_idle; try done.
  - destruct (pop_destroy s log t h v Hs Ht) as (r' & -> & Hok). by eexists.
  - destruct (pop_store s log t h v Hs Ht) as (r' & -> & Hok). by eexists.
  - cbn [mbind option_bind]. eexists. split; [done|]. by eapply pop_idle.
Qed.

(** ** All reachable states *)

Lemma start_mp_ok cap r es ds :
  Ring_new cap true = Some r → Forall epc_start es → Forall dpc_start ds →
  mp_ok (mkSys r es ds) [].
Proof.
  unfold Ring_new. destruct (Z.ltb_spec cap 1); [done|]. intros [= <-] Hes Hds. simpl in *.
  assert (Hnew : ∀ i T st, slot_is (mkRing cap (replicate (Z.to_nat cap) (mkSlot 0 None)) 0 0) i T st →
    T = 0 ∧ st = None).
  { intros i T st Hs. apply aget_Some in Hs as [_ Hs]. by apply lookup_replicate in Hs as [[= -> ->] _]. }
  assert (He : ∀ t pc, es !! t = Some pc → ∃ v, pc = EFetch v ∨ pc = TLoad v).
  { intros t pc Ht. apply (Forall_lookup_1 _ _ _ _ Hes Ht). }
  assert (Hd : ∀ t pc, ds !! t = Some pc → pc = DFetch ∨ pc = YLoad).
  { intros t pc Ht. apply (Forall_lookup_1 _ _ _ _ Hds Ht). }
  split; simpl; try done; try lia.
  - rewrite length_replicate. lia.
  - by intros t pc Ht; destruct (He t pc Ht) as (v & [->| ->]).
  - by intros t pc Ht; destruct (Hd t pc Ht) as [->| ->].
  - intros i Hi. split; intros st Hst; apply Hnew in Hst as [HT Hst]; [by left|].
    unfold turn in HT. simpl in HT. pose proof (Z.div_pos i cap). lia.
  - apply tiles_none. intros t. unfold eclaim. destruct (es !! t) as [pc|] eqn:Ht; [|done].
    by destruct (He t pc Ht) as (v & [->| ->]).
  - apply tiles_none. intros t. unfold dclaim. destruct (ds !! t) as [pc|] eqn:Ht; [|done].
    by destruct (Hd t pc Ht) as [->| ->].
Qed.

Lemma reach_mp_ok cap es ds s log : reach cap es ds s log → mp_ok s log.
Proof.
  induction 1 as [r Hr Hes Hds|s log [t|t] s' _ IH Hh Ht Hstep].
  - by apply (start_mp_ok cap).
  - destruct (push_step_ok s log t IH Hh) as (s2 & Hs2 & Hok). congruence.
  - destruct (pop_step_ok s log t IH Ht) as (s2 & Hs2 & Hok). congruence.
Qed.

(** C7 [safety]. The MPMC ring is a FIFO queue under every interleaving of blocking
    and non-blocking pushes and pops: no step reads an empty storage or leaves the
    slot array; the positions 0, 1, 2, ... are handed out to the pushes exactly once
    each, and to the pops exactly once each; a push that has returned put its element
    at its position, and a pop that has returned delivers the element that was pushed
    at its position.  So the n-th pop gets the n-th element, none is lost and none is
    delivered twice. *)
Theorem mpmc_fifo cap es ds s log :
  reach cap es ds s log →
  (∀ e, head_ (sring s) < 2 ^ 62 → tail_ (sring s) < 2 ^ 62 → is_Some (step s e)) ∧
  head_ (sring s) = Z.of_nat (length log) ∧
  tiles (eclaim (pushers s)) (head_ (sring s)) ∧
  tiles (dclaim (poppers s)) (tail_ (sring s)) ∧
  (∀ t h v, pushers s !! t = Some (ERet (Some h) v) → aget log h = Some v) ∧
  (∀ t h v, poppers s !! t = Some (DRet (Some (h, v))) → aget log h = Some v).
Proof.
  intros Hr. pose proof (reach_mp_ok _ _ _ _ _ Hr) as Hs.
  split; [|split; [apply (mo_head s log Hs)|split; [apply (mo_etiles s log Hs)|
    split; [apply (mo_dtiles s log Hs)|split]]]].
  - intros [t|t] Hh Ht.
    + destruct (push_step_ok s log t Hs Hh) as (s' & -> & _). by eexists.
    + destruct (pop_step_ok s log t Hs Ht) as (s' & -> & _). by eexists.
  - intros t h v Ht. apply (mo_push s log Hs t _ Ht).
  - intros t h v Ht. apply (mo_pop s log Hs t _ Ht).
Qed.

(** A schedule. *)
Fixpoint exec (s : sys) (log : list Z) (es : list event) : option (sys * list Z) :=
  match es with
  | [] => Some (s, log)
  | e :: es' =>
      if (head_ (sring s) <? 2 ^ 62) && (tail_ (sring s) <? 2 ^ 62)
      then s' ← step s e; exec s' (log_step s e log) es' else None
  end.

Lemma exec_reach cap ps ds es s log s' log' :
  reach cap ps ds s log → exec s log es = Some (s', log') → reach cap ps ds s' log'.
Proof.
  revert s log. induction es as [|e es IH]; intros s log Hr; simpl.
  { by intros [= <- <-]. }
  destruct (Z.ltb_spec (head_ (sring s)) (2 ^ 62)), (Z.ltb_spec (tail_ (sring s)) (2 ^ 62));
    try done. simpl.
  destruct (step s e) as [s1|] eqn:Es; [|done]. simpl. apply IH. by apply reach_step.
Qed.

(** A pop waits for the second of two pushes that overtake each other. *)
Lemma mpmc_fifo_witness :
  ∃ s log, reach 2 [push 7; try_push 8] [DFetch; YLoad] s log ∧ log = [7; 8] ∧
    poppers s !! 1%nat = Some (DRet (Some (1, 8))) ∧ aget log 1 = Some 8.
Proof.
  destruct (Ring_new 2 true) as [r|] eqn:Er; [|done].
  assert (Hr0 : reach 2 [push 7; try_push 8] [DFetch; YLoad]
    (mkSys r [push 7; try_push 8] [DFetch; YLoad]) []).
  { apply reach_start; [exact Er| |].
    - apply Forall_cons; split; [by exists 7; left|]. apply Forall_singleton. by exists 8; right.
    - apply Forall_cons; split; [by left|]. apply Forall_singleton. by right. }
  destruct (exec (mkSys r [push 7; try_push 8] [DFetch; YLoad]) []
    [Push 0; Push 1; Pop 0; Push 1; Push 1; Pop 0; Push 1; Push 1; Pop 1; Pop 1; Pop 1; Pop 1;
     Pop 1; Pop 1]) as [[s log]|] eqn:Ex.
  2: { vm_compute in Er. injection Er as <-. vm_compute in Ex. discriminate. }
  pose proof (exec_reach _ _ _ _ _ _ _ _ Hr0 Ex) as Hr.
  vm_compute in Er. injection Er as <-. vm_compute in Ex. injection Ex as <- <-.
  eexists _, _. split; [exact Hr|]. split; [reflexivity|]. split; [reflexivity|].
  apply (mpmc_fifo _ _ _ _ _ Hr) with (t := 1%nat). reflexivity.
Defined.
