(* ===== verification/SpscRing.v ===== *)
(** * The single-producer single-consumer ring
      (src/cpp-util/lockfreeQueue.h, class [SPSCRing])

    One thread calls [emplace] and [try_emplace], another one [front] and [pop].
    Each side keeps a cached copy of the other side's index and refreshes it only
    when the ring looks full, respectively empty.  The operations are sequences of
    atomic steps that interleave in any order.  [None] is a failed assertion, an
    access outside of the slots or to a slot without an element. *)

From S2P Require Import Prelude.

Section spsc.
(** [kPadding] depends on the size of the element type; it is at least 1. *)
Context (kPadding : Z).

(** src/cpp-util/lockfreeQueue.h:359-366, [SPSCRing members]. *)
Record SPSCRing := mkSpsc {
  capacity_ : Z; slots_ : list (option Z); writeIdx_ : Z; readIdxCache_ : Z;
  readIdx_ : Z; writeIdxCache_ : Z }.

(** src/cpp-util/lockfreeQueue.h:238-251, [SPSCRing::SPSCRing]. *)
Definition SIZE_MAX : Z := 2 ^ 64 - 1.
Definition SPSCRing_new (capacity : Z) : SPSCRing :=
  let c := if capacity <? 1 then 1 else capacity in
  let c := u64 (c + 1) in
  let c := if SIZE_MAX - 2 * kPadding <? c then SIZE_MAX - 2 * kPadding else c in
  mkSpsc c (replicate (Z.to_nat (c + 2 * kPadding)) None) 0 0 0 0.

Definition with_w (q : SPSCRing) (w : Z) : SPSCRing :=
  mkSpsc (capacity_ q) (slots_ q) w (readIdxCache_ q) (readIdx_ q) (writeIdxCache_ q).
Definition with_rc (q : SPSCRing) (rc : Z) : SPSCRing :=
  mkSpsc (capacity_ q) (slots_ q) (writeIdx_ q) rc (readIdx_ q) (writeIdxCache_ q).
Definition with_r (q : SPSCRing) (r : Z) : SPSCRing :=
  mkSpsc (capacity_ q) (slots_ q) (writeIdx_ q) (readIdxCache_ q) r (writeIdxCache_ q).
Definition with_wc (q : SPSCRing) (wc : Z) : SPSCRing :=
  mkSpsc (capacity_ q) (slots_ q) (writeIdx_ q) (readIdxCache_ q) (readIdx_ q) wc.
Definition with_slots (q : SPSCRing) (l : list (option Z)) : SPSCRing :=
  mkSpsc (capacity_ q) l (writeIdx_ q) (readIdxCache_ q) (readIdx_ q) (writeIdxCache_ q).

(** The index after [i]. *)
Definition next_idx (q : SPSCRing) (i : Z) : Z :=
  let n := u64 (i + 1) in if n =? capacity_ q then 0 else n.

(** ** The producer *)

(** Program points: no call in progress, with the result of the last one; the first
    comparison with the cached index; the refresh of the cache ([blocking] tells
    [emplace], which repeats it, from [try_emplace]); the construction; the store. *)
Inductive ppc :=
  | PIdle (result : bool)
  | PStart (blocking : bool) (v : Z)
  | PReload (blocking : bool) (writeIdx nextWriteIdx v : Z)
  | PConstruct (writeIdx nextWriteIdx v : Z)
  | PStore (nextWriteIdx : Z).

(** src/cpp-util/lockfreeQueue.h:264-294, [SPSCRing::emplace and SPSCRing::try_emplace]. *)
Definition producer_step (q : SPSCRing) (pc : ppc) : option (SPSCRing * ppc) :=
  match pc with
  | PIdle res => Some (q, PIdle res)
  | PStart blocking v =>
      let writeIdx := writeIdx_ q in
      let nextWriteIdx := next_idx q writeIdx in
      Some (q, if nextWriteIdx =? readIdxCache_ q then PReload blocking writeIdx nextWriteIdx v
               else PConstruct writeIdx nextWriteIdx v)
  | PReload blocking writeIdx nextWriteIdx v =>
      let q := with_rc q (readIdx_ q) in
      Some (q, if nextWriteIdx =? readIdxCache_ q then
                 if blocking then PReload blocking writeIdx nextWriteIdx v else PIdle false
               else PConstruct writeIdx nextWriteIdx v)
  | PConstruct writeIdx nextWriteIdx v =>
      l ← aset (slots_ q) (writeIdx + kPadding) (Some v);
      Some (with_slots q l, PStore nextWriteIdx)
  | PStore nextWriteIdx => Some (with_w q nextWriteIdx, PIdle true)
  end.

(** src/cpp-util/lockfreeQueue.h:296-304, [SPSCRing::push]. *)
Definition push (v : Z) : ppc := PStart true v.

(** src/cpp-util/lockfreeQueue.h:306-314, [SPSCRing::try_push]. *)
Definition try_push (v : Z) : ppc := PStart false v.

(** ** The consumer *)

(** Program points: no call in progress, with the element that the last [front]
    pointed at, if it has not been popped; inside [front]; inside [pop]. *)
Inductive cpc :=
  | CIdle (front : option Z)
  | FStart
  | FReload (readIdx : Z)
  | FRead (readIdx : Z)
  | OStart
  | ODestroy (readIdx : Z)
  | OStore (readIdx : Z).

(** src/cpp-util/lockfreeQueue.h:316-336, [SPSCRing::front and SPSCRing::pop]. After [front] returned a
    pointer the element is read through it ([FRead]). *)
Definition consumer_step (q : SPSCRing) (pc : cpc) : option (SPSCRing * cpc) :=
  match pc with
  | CIdle f => Some (q, CIdle f)
  | FStart =>
      let readIdx := readIdx_ q in
      Some (q, if readIdx =? writeIdxCache_ q then FReload readIdx else FRead readIdx)
  | FReload readIdx =>
      let q := with_wc q (writeIdx_ q) in
      Some (q, if writeIdxCache_ q =? readIdx then CIdle None else FRead readIdx)
  | FRead readIdx =>
      s ← aget (slots_ q) (readIdx + kPadding); v ← s; Some (q, CIdle (Some v))
  | OStart =>
      let readIdx := readIdx_ q in
      if writeIdx_ q =? readIdx then None else Some (q, ODestroy readIdx)
  | ODestroy readIdx =>
      s ← aget (slots_ q) (readIdx + kPadding);
      _ ← s;
      l ← aset (slots_ q) (readIdx + kPadding) None;
      Some (with_slots q l, OStore readIdx)
  | OStore readIdx => Some (with_r q (next_idx q readIdx), CIdle None)
  end.

(** src/cpp-util/lockfreeQueue.h:338-345, [SPSCRing::size]. *)
Definition size (q : SPSCRing) : Z :=
  let diff := s64 (writeIdx_ q - readIdx_ q) in
  u64 (if diff <? 0 then diff + capacity_ q else diff).

(** src/cpp-util/lockfreeQueue.h:347-350, [SPSCRing::empty]. *)
Definition empty (q : SPSCRing) : bool := writeIdx_ q =? readIdx_ q.

(** src/cpp-util/lockfreeQueue.h:352, [SPSCRing::capacity]. *)
Definition capacity (q : SPSCRing) : Z := u64 (capacity_ q - 1).

(** ** The two threads *)

Record sys := mkSys { ring : SPSCRing; prod : ppc; cons : cpc }.

(** A call of the producer or the consumer begins when none is in progress (a [pop]
    only after a [front] that returned an element), or a thread takes a step. *)
Inductive event :=
  | CallPush (blocking : bool) (v : Z)
  | StepProducer
  | CallFront
  | CallPop
  | StepConsumer.

Definition step (s : sys) (e : event) : option sys :=
  match e with
  | CallPush b v =>
      match prod s with
      | PIdle _ => Some (mkSys (ring s) (if b then push v else try_push v) (cons s))
      | _ => Some s
      end
  | StepProducer =>
      '(q, pc) ← producer_step (ring s) (prod s); Some (mkSys q pc (cons s))
  | CallFront =>
      match cons s with CIdle _ => Some (mkSys (ring s) (prod s) FStart) | _ => Some s end
  | CallPop =>
      match cons s with
      | CIdle (Some _) => Some (mkSys (ring s) (prod s) OStart)
      | _ => Some s
      end
  | StepConsumer =>
      '(q, pc) ← consumer_step (ring s) (cons s); Some (mkSys q (prod s) pc)
  end.

(** The elements pushed so far, and the number of those that were popped. *)
Record hist := mkHist { h_log : list Z; h_popped : Z }.

Definition hist_step (s : sys) (e : event) (h : hist) : hist :=
  match e with
  | StepProducer =>
      match prod s with
      | PConstruct _ _ v => mkHist (h_log h ++ [v]) (h_popped h)
      | _ => h
      end
  | StepConsumer =>
      match cons s with
      | OStore _ => mkHist (h_log h) (h_popped h + 1)
      | _ => h
      end
  | _ => h
  end.

Inductive reach (cap : Z) : sys → hist → Prop :=
  | reach_start : reach cap (mkSys (SPSCRing_new cap) (PIdle true) (CIdle None)) (mkHist [] 0)
  | reach_step s h e s' :
      reach cap s h → step s e = Some s' → reach cap s' (hist_step s e h).

(** ** The invariant

    [W] elements have been published, [R] of them popped; [rc] and [wc] are the
    values that the cached indexes stand for. *)

Definition in_store (pc : ppc) : bool := match pc with PStore _ => true | _ => false end.
Definition in_ostore (pc : cpc) : bool := match pc with OStore _ => true | _ => false end.

Definition slot_has (q : SPSCRing) (h : hist) (i : Z) : Prop :=
  ∃ v, aget (h_log h) i = Some v ∧
    aget (slots_ q) (i mod capacity_ q + kPadding) = Some (Some v).

Definition prod_ok (q : SPSCRing) (pc : ppc) (W rc : Z) : Prop :=
  match pc with
  | PIdle _ | PStart _ _ => True
  | PReload _ w n _ => w = W mod capacity_ q ∧ n = (W + 1) mod capacity_ q
  | PConstruct w n _ =>
      w = W mod capacity_ q ∧ n = (W + 1) mod capacity_ q ∧ W + 1 < rc + capacity_ q
  | PStore n => n = (W + 1) mod capacity_ q ∧ W + 1 < rc + capacity_ q
  end.

Definition cons_ok (q : SPSCRing) (h : hist) (pc : cpc) (R wc : Z) : Prop :=
  match pc with
  | CIdle None | FStart => True
  | CIdle (Some v) => R < wc ∧ aget (h_log h) R = Some v
  | FReload r => r = R mod capacity_ q
  | FRead r | ODestroy r | OStore r => r = R mod capacity_ q ∧ R < wc
  | OStart => R < wc
  end.

Record spsc_ok (s : sys) (h : hist) (W rc wc : Z) : Prop := {
  so_cap : 2 ≤ capacity_ (ring s) < 2 ^ 64;
  so_len : Z.of_nat (length (slots_ (ring s))) = capacity_ (ring s) + 2 * kPadding;
  so_W : Z.of_nat (length (h_log h)) = W + (if in_store (prod s) then 1 else 0);
  so_write : writeIdx_ (ring s) = W mod capacity_ (ring s);
  so_read : readIdx_ (ring s) = h_popped h mod capacity_ (ring s);
  so_rcache : readIdxCache_ (ring s) = rc mod capacity_ (ring s);
  so_wcache : writeIdxCache_ (ring s) = wc mod capacity_ (ring s);
  so_order : 0 ≤ rc ≤ h_popped h ∧ h_popped h ≤ wc ≤ W ∧ W < rc + capacity_ (ring s);
  so_slots : ∀ i, h_popped h + (if in_ostore (cons s) then 1 else 0) ≤ i <
    W + (if in_store (prod s) then 1 else 0) → slot_has (ring s) h i;
  so_prod : prod_ok (ring s) (prod s) W rc;
  so_cons : cons_ok (ring s) h (cons s) (h_popped h) wc
}.

Lemma mod_distinct c i j : 0 < c → i ≠ j → - c < i - j < c → i mod c ≠ j mod c.
Proof.
  intros Hc Hne Hd E. assert (Hz : (i - j) mod c = 0) by (by rewrite Zminus_mod, E, Z.sub_diag).
  apply Z.mod_divide in Hz as [z Hz]; [|lia]. assert (z = 0) by nia. lia.
Qed.

Lemma mod_same c i j : 0 < c → 0 ≤ j - i ≤ c → (i mod c = j mod c ↔ i = j ∨ j = i + c).
Proof.
  intros Hc Hd. split.
  - intros E. destruct (decide (i = j)); [by left|]. right.
    destruct (decide (j - i < c)); [|lia]. exfalso. by apply (mod_distinct c i j); try lia.
  - intros [->| ->]; [done|]. rewrite <-(Z.mul_1_l c) at 2. symmetry. apply Z.mod_add. lia.
Qed.

Lemma next_idx_mod q x :
  2 ≤ capacity_ q < 2 ^ 64 → next_idx q (x mod capacity_ q) = (x + 1) mod capacity_ q.
Proof.
  intros Hc. pose proof (Z.mod_pos_bound x (capacity_ q) ltac:(lia)) as Hm. unfold next_idx.
  rewrite (uwrap_small 64) by lia. rewrite <-(Z.add_mod_idemp_l x) by lia.
  destruct (Z.eqb_spec (x mod capacity_ q + 1) (capacity_ q)) as [E|].
  - rewrite E. by rewrite Z.mod_same by lia.
  - rewrite (Z.mod_small (_ + 1)) by lia. done.
Qed.

Context (Hpad : 1 ≤ kPadding).

Lemma slot_in_range q x :
  2 ≤ capacity_ q → Z.of_nat (length (slots_ q)) = capacity_ q + 2 * kPadding →
  0 ≤ x mod capacity_ q + kPadding < Z.of_nat (length (slots_ q)).
Proof. intros Hc Hl. pose proof (Z.mod_pos_bound x (capacity_ q) ltac:(lia)). lia. Qed.

Lemma aget_app_l {A} (l k : list A) i x : aget l i = Some x → aget (l ++ k) i = Some x.
Proof.
  unfold aget. destruct (0 <=? i); [|done]. apply lookup_app_l_Some.
Qed.

Lemma aget_app_last {A} (l : list A) x : aget (l ++ [x]) (Z.of_nat (length l)) = Some x.
Proof. rewrite aget_nat. by apply list_lookup_middle. Qed.

(** Writing one slot keeps the elements at other positions less than a turn away. *)
Lemma slot_has_aset q h x o l i :
  2 ≤ capacity_ q → aset (slots_ q) (x mod capacity_ q + kPadding) o = Some l →
  i ≠ x → - capacity_ q < i - x < capacity_ q → slot_has q h i → slot_has (with_slots q l) h i.
Proof.
  intros Hc Hl Hne Hd (v & Hv & Hs). exists v. split; [done|]. simpl.
  rewrite (aget_aset _ _ _ _ _ Hl). case_decide as E; [|done].
  exfalso. apply (mod_distinct (capacity_ q) i x); lia.
Qed.

Definition good (s : sys) (h : hist) : Prop := ∃ W rc wc, spsc_ok s h W rc wc.

Lemma producer_good s h : good s h →
  ∃ s', step s StepProducer = Some s' ∧ good s' (hist_step s StepProducer h).
Proof.
  intros (W & rc & wc & [Hcap Hlen HW Hw Hr Hrc Hwc Ho Hs Hp Hc]).
  destruct s as [q pc cc]. simpl in *. destruct pc as [res|b v|b w n v|w n v|n]; simpl in *.
  - eexists. split; [done|]. by exists W, rc, wc.
  - eexists. split; [done|]. exists W, rc, wc.
    rewrite Hw, next_idx_mod, Hrc by done.
    destruct (Z.eqb_spec ((W + 1) mod capacity_ q) (rc mod capacity_ q)) as [E|E];
      split; simpl; try done.
    split_and!; [done..|]. assert (W + 1 ≠ rc + capacity_ q); [|lia].
    intros EW. apply E. symmetry. apply mod_same; lia.
  - eexists. split; [done|]. exists W, (h_popped h), wc. destruct Hp as [-> ->]. rewrite Hr.
    destruct (Z.eqb_spec ((W + 1) mod capacity_ q) (h_popped h mod capacity_ q)) as [E|E];
      [destruct b|]; split; simpl; try done; try lia.
    split_and!; [done..|]. assert (W + 1 ≠ h_popped h + capacity_ q); [|lia].
    intros EW. apply E. symmetry. apply mod_same; lia.
  - destruct Hp as (-> & -> & Hroom).
    pose proof (aset_Some (slots_ q) (W mod capacity_ q + kPadding) (Some v)
      (slot_in_range q W ltac:(lia) Hlen)) as Hl.
    revert Hl. generalize (<[Z.to_nat (W mod capacity_ q + kPadding) := Some v]> (slots_ q)).
    intros l Hl. rewrite Hl. simpl.
    eexists. split; [done|]. exists W, rc, wc.
    split; simpl; try done; rewrite ?(aset_length _ _ _ _ Hl), ?length_app; simpl; try lia.
    + intros i Hi. destruct (decide (i = W)) as [->|].
      * exists v. simpl. replace W with (Z.of_nat (length (h_log h))) at 1 by lia.
        rewrite aget_app_last, (aget_aset _ _ _ _ _ Hl). by case_decide.
      * apply (slot_has_aset _ _ W (Some v)); [lia|done..|destruct (in_ostore cc); lia|].
        destruct (Hs i) as (u & Hu & Hsu); [lia|]. exists u. split; [|done]. by apply aget_app_l.
    + destruct cc as [[u|]| | | | | |]; simpl in *; try done.
      split; [lia|]. apply aget_app_l, Hc.
  - destruct Hp as [-> Hroom]. eexists. split; [done|]. exists (W + 1), rc, wc.
    split; simpl; try done; try lia. intros i Hi. apply Hs. lia.
Qed.

Lemma consumer_good s h : good s h →
  ∃ s', step s StepConsumer = Some s' ∧ good s' (hist_step s StepConsumer h).
Proof.
  intros (W & rc & wc & [Hcap Hlen HW Hw Hr Hrc Hwc Ho Hs Hp Hc]).
  destruct s as [q pc cc]. simpl in *. destruct cc as [f| |r|r| |r|r]; simpl in *.
  - eexists. split; [done|]. by exists W, rc, wc.
  - eexists. split; [done|]. exists W, rc, wc. rewrite Hr, Hwc.
    destruct (Z.eqb_spec (h_popped h mod capacity_ q) (wc mod capacity_ q)) as [E|E];
      split; simpl; try done.
    split; [done|]. assert (h_popped h ≠ wc); [congruence|lia].
  - subst r. eexists. split; [done|]. exists W, rc, W. rewrite Hw.
    destruct (Z.eqb_spec (W mod capacity_ q) (h_popped h mod capacity_ q)) as [E|E];
      split; simpl; try done; try lia.
    split; [done|]. assert (h_popped h ≠ W); [congruence|lia].
  - destruct Hc as [-> Hlt]. destruct (Hs (h_popped h)) as (v & Hv & Hsv); [destruct (in_store pc); lia|].
    rewrite Hsv. simpl. eexists. split; [done|]. by exists W, rc, wc.
  - rewrite Hw, Hr. destruct (Z.eqb_spec (W mod capacity_ q) (h_popped h mod capacity_ q)) as [E|E].
    + exfalso. symmetry in E. apply mod_same in E; lia.
    + simpl. eexists. split; [done|]. by exists W, rc, wc.
  - destruct Hc as [-> Hlt]. destruct (Hs (h_popped h)) as (v & Hv & Hsv); [destruct (in_store pc); lia|].
    rewrite Hsv. simpl.
    pose proof (aset_Some (slots_ q) (h_popped h mod capacity_ q + kPadding) None
      (slot_in_range q (h_popped h) ltac:(lia) Hlen)) as Hl.
    revert Hl. generalize (<[Z.to_nat (h_popped h mod capacity_ q + kPadding) := None]> (slots_ q)).
    intros l Hl. rewrite Hl. simpl. eexists. split; [done|]. exists W, rc, wc.
    split; simpl; try done; rewrite ?(aset_length _ _ _ _ Hl); simpl; try lia.
    intros i Hi. assert (W + 1 < rc + capacity_ q ∨ in_store pc = false)
      by (destruct pc; simpl in *; auto; lia).
    apply (slot_has_aset _ _ (h_popped h) None); [lia|done|lia| |apply Hs; lia].
    destruct (in_store pc); intuition lia.
  - destruct Hc as [-> Hlt]. rewrite next_idx_mod by done. eexists. split; [done|].
    exists W, rc, wc. split; simpl; try done; try lia. intros i Hi. apply Hs. lia.
Qed.

Lemma step_good s h e : good s h → ∃ s', step s e = Some s' ∧ good s' (hist_step s e h).
Proof.
  intros Hg. destruct e as [b v| | | |].
  2: by apply producer_good.
  4: by apply consumer_good.
  all: destruct Hg as (W & rc & wc & [Hcap Hlen HW Hw Hr Hrc Hwc Ho Hs Hp Hc]);
    destruct s as [q pc cc]; simpl in *.
  - destruct pc; (eexists; split; [done|]; exists W, rc, wc); [destruct b|..]; done.
  - destruct cc; (eexists; split; [done|]; exists W, rc, wc); done.
  - destruct cc as [[u|]| | | | | |]; (eexists; split; [done|]; exists W, rc, wc); try done.
    split; simpl; try done. apply Hc.
Qed.

Lemma SPSCRing_new_eq cap : 1 ≤ cap → cap + 2 * kPadding < SIZE_MAX →
  SPSCRing_new cap =
    mkSpsc (cap + 1) (replicate (Z.to_nat (cap + 1 + 2 * kPadding)) None) 0 0 0 0.
Proof.
  intros Hc Hm. unfold SPSCRing_new, SIZE_MAX in *.
  destruct (Z.ltb_spec cap 1); [lia|]. rewrite (uwrap_small 64) by lia.
  destruct (Z.ltb_spec (2 ^ 64 - 1 - 2 * kPadding) (cap + 1)); [lia|done].
Qed.

Lemma start_good cap : 1 ≤ cap → cap + 2 * kPadding < SIZE_MAX →
  good (mkSys (SPSCRing_new cap) (PIdle true) (CIdle None)) (mkHist [] 0).
Proof.
  intros Hc Hm. exists 0, 0, 0. rewrite SPSCRing_new_eq by done. unfold SIZE_MAX in *.
  split; simpl; rewrite ?length_replicate, ?Zmod_0_l; try done; lia.
Qed.

Lemma reach_good cap s h : 1 ≤ cap → cap + 2 * kPadding < SIZE_MAX →
  reach cap s h → good s h ∧ capacity_ (ring s) = cap + 1.
Proof.
  intros Hc Hm. induction 1 as [|s h e s' Hr [IH IHc] Hs].
  - split; [by apply start_good|]. by rewrite SPSCRing_new_eq.
  - destruct (step_good s h e IH) as (s2 & E & Hg). rewrite Hs in E. simplify_eq.
    split; [done|]. rewrite <-IHc. destruct s as [q pc cc].
    destruct e as [b v| | | |]; simpl in Hs; [destruct pc|destruct pc|destruct cc|destruct cc as [[]| | | | | |]|destruct cc];
      repeat (simplify_option_eq; try done; case_match).
Qed.

(** The number of elements that the producer has made visible. *)
Definition published (s : sys) (h : hist) : Z :=
  Z.of_nat (length (h_log h)) - (if in_store (prod s) then 1 else 0).

Lemma size_published s h : good s h → capacity_ (ring s) < 2 ^ 63 →
  size (ring s) = published s h - h_popped h.
Proof.
  intros (W & rc & wc & [Hcap Hlen HW Hw Hr Hrc Hwc Ho Hs Hp Hc]) Hm.
  unfold published, size. rewrite Hw, Hr.
  pose proof (Z.mod_pos_bound W (capacity_ (ring s)) ltac:(lia)).
  pose proof (Z.mod_pos_bound (h_popped h) (capacity_ (ring s)) ltac:(lia)).
  assert (E : (W - h_popped h) mod capacity_ (ring s) = W - h_popped h) by (apply Z.mod_small; lia).
  rewrite Zminus_mod in E. rewrite (swrap_small 64) by lia.
  replace (Z.of_nat _ - _ - _) with (W - h_popped h) by lia.
  set (d := W mod _ - _) in *. destruct (Z.ltb_spec d 0).
  - rewrite <-E, <-(Z.mod_add d 1), Z.mul_1_l, Z.mod_small by lia. apply (uwrap_small 64). lia.
  - rewrite Z.mod_small in E by lia. rewrite E. apply (uwrap_small 64). lia.
Qed.

Lemma reload_full s h w n v : good s h → prod s = PReload false w n v →
  (prod <$> step s StepProducer = Some (PIdle false) ↔
     published s h = h_popped h + (capacity_ (ring s) - 1)).
Proof.
  intros (W & rc & wc & [Hcap Hlen HW Hw Hr Hrc Hwc Ho Hs Hp Hc]) E.
  destruct s as [q pc cc]. simpl in *. subst pc. simpl in *. unfold published. simpl.
  destruct Hp as [-> ->]. rewrite Hr.
  destruct (Z.eqb_spec ((W + 1) mod capacity_ q) (h_popped h mod capacity_ q)) as [E|E].
  - symmetry in E. apply mod_same in E; [|lia..]. split; [lia|done].
  - split; [done|]. intros EW. destruct E. symmetry. apply mod_same; lia.
Qed.

Lemma reload_empty s h r : good s h → cons s = FReload r →
  (cons <$> step s StepConsumer = Some (CIdle None) ↔ published s h = h_popped h).
Proof.
  intros (W & rc & wc & [Hcap Hlen HW Hw Hr Hrc Hwc Ho Hs Hp Hc]) E.
  destruct s as [q pc cc]. simpl in *. subst cc. simpl in *. unfold published. simpl.
  subst r. rewrite Hw.
  destruct (Z.eqb_spec (W mod capacity_ q) (h_popped h mod capacity_ q)) as [E|E].
  - symmetry in E. apply mod_same in E; [|lia..]. split; [lia|done].
  - split; [done|]. intros EW. destruct E. f_equal. lia.
Qed.

(** C8 [safety]. For every interleaving of one producer and one consumer on a ring
    for [cap] elements: no step fails an assertion, leaves the slots or touches a slot
    without an element; the element that [front] yields is the oldest one that was not
    popped, so that elements come out in the order of their pushes; at most [cap]
    elements are held, [size] counts them, [try_push] fails exactly when [cap] are
    held and [front] yields none exactly when none is. *)
Theorem spsc_fifo cap s h :
  1 ≤ cap → cap + 2 * kPadding < 2 ^ 63 → reach cap s h →
  (∀ e, is_Some (step s e)) ∧
  (∀ v, cons s = CIdle (Some v) → h_log h !! Z.to_nat (h_popped h) = Some v) ∧
  capacity (ring s) = cap ∧
  0 ≤ h_popped h ≤ published s h ∧ published s h ≤ h_popped h + cap ∧
  size (ring s) = published s h - h_popped h ∧
  (∀ w n v, prod s = PReload false w n v →
     (prod <$> step s StepProducer = Some (PIdle false) ↔ published s h = h_popped h + cap)) ∧
  (∀ r, cons s = FReload r →
     (cons <$> step s StepConsumer = Some (CIdle None) ↔ published s h = h_popped h)).
Proof.
  intros Hc Hm Hr. destruct (reach_good cap s h) as [Hg Hcap]; [done|unfold SIZE_MAX; lia|done|].
  split_and!.
  - intros e. destruct (step_good s h e Hg) as (s' & -> & _). done.
  - intros v E. destruct Hg as (W & rc & wc & Hok). pose proof (so_cons _ _ _ _ _ Hok) as Hco.
    rewrite E in Hco. destruct Hco as [_ Hv]. by apply aget_Some in Hv as [_ Hv].
  - unfold capacity. rewrite Hcap, (uwrap_small 64) by lia. lia.
  - destruct Hg as (W & rc & wc & []). lia.
  - destruct Hg as (W & rc & wc & []). unfold published. lia.
  - destruct Hg as (W & rc & wc & []). unfold published. lia.
  - apply size_published; [done|lia].
  - intros w n v E. rewrite (reload_full _ _ _ _ _ Hg E), Hcap. f_equiv. lia.
  - intros r E. by apply (reload_empty _ _ r).
Qed.
End spsc.

Fixpoint spsc_exec (kPadding : Z) (es : list event) (s : sys) (h : hist) : option (sys * hist) :=
  match es with
  | [] => Some (s, h)
  | e :: es => s' ← step kPadding s e; spsc_exec kPadding es s' (hist_step s e h)
  end.

Lemma spsc_exec_reach kPadding cap es s h s' h' :
  reach kPadding cap s h → spsc_exec kPadding es s h = Some (s', h') → reach kPadding cap s' h'.
Proof.
  revert s h. induction es as [|e es IH]; intros s h Hr Hx; simpl in Hx; [by simplify_eq|].
  destruct (step kPadding s e) as [s2|] eqn:E; [|done]. simpl in Hx.
  eapply IH, Hx. by eapply reach_step.
Qed.

(** A ring for one element: it is pushed, a second push finds the ring full, the
    consumer looks at the element. *)
Definition spsc_demo : list event :=
  [CallPush true 7; StepProducer; StepProducer; StepProducer; CallFront; StepConsumer;
   StepConsumer; StepConsumer; CallPush false 8; StepProducer].

Lemma spsc_fifo_witness :
  ∃ s h, reach 16 1 s h ∧ cons s = CIdle (Some 7) ∧ size (ring s) = 1 ∧
    prod <$> step 16 s StepProducer = Some (PIdle false) ∧
    h_log h !! Z.to_nat (h_popped h) = Some 7.
Proof.
  destruct (spsc_exec 16 spsc_demo (mkSys (SPSCRing_new 16 1) (PIdle true) (CIdle None))
    (mkHist [] 0)) as [[s h]|] eqn:E; [|vm_compute in E; discriminate].
  assert (Hr : reach 16 1 s h) by (eapply spsc_exec_reach, E; constructor).
  exists s, h. pose proof (spsc_fifo 16 ltac:(lia) 1 s h ltac:(lia) ltac:(lia) Hr) as (_ & Hf & _).
  vm_compute in E. injection E as <- <-. split; [exact Hr|].
  split; [reflexivity|]. split; [vm_compute; reflexivity|]. split; [vm_compute; reflexivity|].
  exact (Hf 7 eq_refl).
Defined.
