(* ===== verification/Locks.v ===== *)
(** * Locks (src/cpp-util/lock.h)

    [SpinMutex], [RWLock] and [CASRWLock] as step machines on the lock and the
    program points of all its threads, with the interface that they share
    ([RwLock], and [RwLockLaws] for mutual exclusion), and [Striped], which is
    verified against the interface only. *)

From S2P Require Import Prelude.

(** ** What a lock promises *)

(** How a thread holds a lock. *)
Inductive mode := Free | Shared | Exclusive.

(** Two threads may hold a lock at once only when both share it. *)
Definition compatible (a b : mode) : Prop :=
  match a, b with Free, _ | _, Free | Shared, Shared => True | _, _ => False end.

(** A lock with state [L], program points [PC] of its threads and the events [E] of
    a schedule, which begin a call or let a thread take a step. *)
Class RwLock (L PC E : Type) := {
  l_new : L;
  l_idle : PC;
  l_step : L → list PC → E → L * list PC;
  l_mode : PC → mode
}.

Inductive l_reach `{RwLock L PC E} (n : nat) : L → list PC → Prop :=
  | l_reach_new : l_reach n l_new (replicate n l_idle)
  | l_reach_step l pcs e l' pcs' :
      l_reach n l pcs → l_step l pcs e = (l', pcs') → l_reach n l' pcs'.

(** Mutual exclusion, for fewer than [l_max] threads. *)
Class RwLockLaws (L PC E : Type) `{RwLock L PC E} := {
  l_max : Z;
  l_exclusive : ∀ n l pcs, Z.of_nat n < l_max → l_reach n l pcs →
    ∀ t u p q, t ≠ u → pcs !! t = Some p → pcs !! u = Some q →
      compatible (l_mode p) (l_mode q)
}.

(** ** Counting threads *)

Definition b2z (b : bool) : Z := if b then 1 else 0.

Fixpoint cnt {A} (f : A → bool) (l : list A) : Z :=
  match l with [] => 0 | x :: l => b2z (f x) + cnt f l end.

Section cnt.
Context {A : Type} (f : A → bool).

Lemma b2z_range b : 0 ≤ b2z b ≤ 1.
Proof. destruct b; simpl; lia. Qed.

Lemma cnt_range l : 0 ≤ cnt f l ≤ Z.of_nat (length l).
Proof.
  induction l as [|x l IH]; simpl; [lia|]. pose proof (b2z_range (f x)). lia.
Qed.

Lemma cnt_insert l t x y :
  l !! t = Some x → cnt f (<[t:=y]> l) = cnt f l - b2z (f x) + b2z (f y).
Proof.
  revert t. induction l as [|z l IH]; intros [|t] E; simplify_eq/=; [lia|].
  rewrite (IH t E). lia.
Qed.

Lemma cnt_replicate n x : f x = false → cnt f (replicate n x) = 0.
Proof. intros E. induction n as [|n IH]; simpl; [done|]. by rewrite E, IH. Qed.

Lemma cnt_elem l t x : l !! t = Some x → f x = true → 1 ≤ cnt f l.
Proof.
  revert t. induction l as [|z l IH]; intros [|t] E Hx; simplify_eq/=.
  - rewrite Hx. simpl. pose proof (cnt_range l). lia.
  - pose proof (IH t E Hx). pose proof (b2z_range (f z)). lia.
Qed.

Lemma cnt_two l t u x y : t ≠ u → l !! t = Some x → l !! u = Some y →
  f x = true → f y = true → 2 ≤ cnt f l.
Proof.
  revert t u. induction l as [|z l IH]; intros [|t] [|u] Hne Ht Hu Hx Hy; simplify_eq/=.
  - rewrite Hx. simpl. pose proof (cnt_elem l u y Hu Hy). lia.
  - rewrite Hy. simpl. pose proof (cnt_elem l t x Ht Hx). lia.
  - pose proof (IH t u ltac:(congruence) Ht Hu Hx Hy). pose proof (b2z_range (f z)). lia.
Qed.

Lemma cnt_zero l : (∀ t x, l !! t = Some x → f x = false) → cnt f l = 0.
Proof.
  induction l as [|z l IH]; intros Hl; simpl; [done|].
  rewrite (Hl O z eq_refl), IH; [done|]. intros t x E. exact (Hl (S t) x E).
Qed.
End cnt.

(** A step of thread [t], which sees the lock and its own program point. *)
Definition thread_step {L PC} (f : L → PC → L * PC) (l : L) (pcs : list PC) (t : nat) :
    L * list PC :=
  match pcs !! t with
  | Some pc => let '(l', pc') := f l pc in (l', <[t:=pc']> pcs)
  | None => (l, pcs)
  end.

(** ** SpinMutex *)

(** Program points. The number is the spin count [n] of the inner loop before the
    attempt, 0 for the attempt at the head of the outer loop. *)
Inductive spin_pc :=
  | SIdle | STryTest | STryCas | STest (n : Z) | SCas (n : Z) | SHeld | SUnlock.

(** src/cpp-util/lock.h:21-36, [SpinMutex::lock (spin schedule)]. The spin count after a failed
    attempt: [n <<= 1] up to [kSpin], then the outer loop again. *)
Definition kSpin : Z := 2048.
Definition spin_next (w n : Z) : Z :=
  let n := if n =? 0 then 1 else uwrap w (n ≪ 1) in if n <? kSpin then n else 0.

(** src/cpp-util/lock.h:13-44, [SpinMutex]. One atomic access of a thread; the lock is the word
    [lock_]. *)
Definition spin_step (lock_ : Z) (pc : spin_pc) : Z * spin_pc :=
  match pc with
  | SIdle => (lock_, SIdle)
  | STryTest => (lock_, if lock_ =? 0 then STryCas else SIdle)
  | STryCas => if lock_ =? 0 then (1, SHeld) else (lock_, SIdle)
  | STest n => (lock_, if lock_ =? 0 then SCas n else STest (spin_next 32 n))
  | SCas n => if lock_ =? 0 then (1, SHeld) else (lock_, STest (spin_next 32 n))
  | SHeld => (lock_, SHeld)
  | SUnlock => (0, SIdle)
  end.

Inductive spin_event := SpinTry (t : nat) | SpinLock (t : nat) | SpinUnlock (t : nat) | SpinStep (t : nat).

Definition spin_sys_step (l : Z) (pcs : list spin_pc) (e : spin_event) : Z * list spin_pc :=
  match e with
  | SpinTry t => thread_step (λ l pc, (l, if pc is SIdle then STryTest else pc)) l pcs t
  | SpinLock t => thread_step (λ l pc, (l, if pc is SIdle then STest 0 else pc)) l pcs t
  | SpinUnlock t => thread_step (λ l pc, (l, if pc is SHeld then SUnlock else pc)) l pcs t
  | SpinStep t => thread_step spin_step l pcs t
  end.

Definition spin_mode (pc : spin_pc) : mode :=
  match pc with SHeld | SUnlock => Exclusive | _ => Free end.

#[export] Instance SpinMutex : RwLock Z spin_pc spin_event :=
  {| l_new := 0; l_idle := SIdle; l_step := spin_sys_step; l_mode := spin_mode |}.

(** ** CASRWLock *)

(** Program points; [old] is the local [old_readers]. A call of [Unlock] records the
    mode in which its thread holds the lock. *)
Inductive cas_pc :=
  | CIdle | CRTest (n : Z) | CRCas (n old : Z) | CShared
  | CWTest (n : Z) | CWCas (n : Z) | CExcl
  | CUnlock (held : mode) | CUStore | CULoop (held : mode) | CUCas (held : mode) (old : Z).

Definition WLOCK : Z := 2 ^ 64 - 1.

(** src/cpp-util/lock.h:154-212, [CASRWLock]. One atomic access of a thread; the lock is the word
    [lock]. *)
Definition cas_step (lock : Z) (pc : cas_pc) : Z * cas_pc :=
  match pc with
  | CIdle => (lock, CIdle)
  | CRTest n => (lock, if lock =? WLOCK then CRTest (spin_next 64 n) else CRCas n lock)
  | CRCas n old => if lock =? old then (u64 (old + 1), CShared) else (lock, CRTest (spin_next 64 n))
  | CShared => (lock, CShared)
  | CWTest n => (lock, if lock =? 0 then CWCas n else CWTest (spin_next 64 n))
  | CWCas n => if lock =? 0 then (WLOCK, CExcl) else (lock, CWTest (spin_next 64 n))
  | CExcl => (lock, CExcl)
  | CUnlock m => (lock, if lock =? WLOCK then CUStore else CULoop m)
  | CUStore => (0, CIdle)
  | CULoop m => (lock, CUCas m lock)
  | CUCas m old => if lock =? old then (u64 (old - 1), CIdle) else (lock, CULoop m)
  end.

Inductive cas_event := CasR (t : nat) | CasW (t : nat) | CasUnlock (t : nat) | CasStep (t : nat).

Definition cas_mode (pc : cas_pc) : mode :=
  match pc with
  | CShared => Shared
  | CExcl | CUStore => Exclusive
  | CUnlock m | CULoop m | CUCas m _ => m
  | _ => Free
  end.

Definition cas_sys_step (l : Z) (pcs : list cas_pc) (e : cas_event) : Z * list cas_pc :=
  match e with
  | CasR t => thread_step (λ l pc, (l, if pc is CIdle then CRTest 0 else pc)) l pcs t
  | CasW t => thread_step (λ l pc, (l, if pc is CIdle then CWTest 0 else pc)) l pcs t
  | CasUnlock t =>
      thread_step (λ l pc, (l, match pc with CShared | CExcl => CUnlock (cas_mode pc) | _ => pc end))
        l pcs t
  | CasStep t => thread_step cas_step l pcs t
  end.

#[export] Instance CASRWLock : RwLock Z cas_pc cas_event :=
  {| l_new := 0; l_idle := CIdle; l_step := cas_sys_step; l_mode := cas_mode |}.

(** ** Mutual exclusion of the two *)

Definition is_excl (m : mode) : bool := match m with Exclusive => true | _ => false end.
Definition is_shared (m : mode) : bool := match m with Shared => true | _ => false end.

(** The numbers of threads that hold the lock exclusively and shared. *)
Definition writers {PC} (m : PC → mode) (pcs : list PC) : Z := cnt (is_excl ∘ m) pcs.
Definition readers {PC} (m : PC → mode) (pcs : list PC) : Z := cnt (is_shared ∘ m) pcs.

Lemma counts_exclusive {PC} (m : PC → mode) pcs t u p q :
  writers m pcs ≤ 1 → (writers m pcs = 0 ∨ readers m pcs = 0) →
  t ≠ u → pcs !! t = Some p → pcs !! u = Some q → compatible (m p) (m q).
Proof.
  unfold writers, readers. intros Hw Hr Hne Ht Hu.
  pose proof (cnt_two (is_excl ∘ m) pcs t u p q Hne Ht Hu) as H2.
  pose proof (cnt_elem (is_excl ∘ m) pcs t p Ht) as Hp1.
  pose proof (cnt_elem (is_excl ∘ m) pcs u q Hu) as Hq1.
  pose proof (cnt_elem (is_shared ∘ m) pcs t p Ht) as Hp2.
  pose proof (cnt_elem (is_shared ∘ m) pcs u q Hu) as Hq2.
  unfold compose in *.
  destruct (m p), (m q); simpl in *; try done; repeat match goal with
    | H : true = true → _ |- _ => specialize (H eq_refl)
    end; lia.
Qed.

Lemma thread_step_inv {L PC} (f : L → PC → L * PC) l pcs t l' pcs' :
  thread_step f l pcs t = (l', pcs') →
  (l' = l ∧ pcs' = pcs) ∨
  ∃ pc pc', pcs !! t = Some pc ∧ f l pc = (l', pc') ∧ pcs' = <[t:=pc']> pcs.
Proof.
  unfold thread_step. destruct (pcs !! t) as [pc|] eqn:E; [|intros; left; by simplify_eq].
  destruct (f l pc) as [l2 pc'] eqn:F. intros. simplify_eq. right. by exists pc, pc'.
Qed.

Lemma mode_insert {PC} (m : PC → mode) pcs t pc pc' : pcs !! t = Some pc →
  writers m (<[t:=pc']> pcs) = writers m pcs - b2z (is_excl (m pc)) + b2z (is_excl (m pc')) ∧
  readers m (<[t:=pc']> pcs) = readers m pcs - b2z (is_shared (m pc)) + b2z (is_shared (m pc')).
Proof.
  intros E. split.
  - exact (cnt_insert (is_excl ∘ m) pcs t pc pc' E).
  - exact (cnt_insert (is_shared ∘ m) pcs t pc pc' E).
Qed.

(** The word of a spin lock is the number of its holders, at most one. *)
Definition spin_inv (l : Z) (pcs : list spin_pc) : Prop :=
  writers spin_mode pcs = l ∧ (l = 0 ∨ l = 1) ∧ readers spin_mode pcs = 0.

Lemma spin_thread_inv l pcs f t l' pcs' :
  (∀ pc l' pc', f l pc = (l', pc') → (l = 0 ∨ l = 1) → (is_excl (spin_mode pc) = true → l = 1) →
     l' - l = b2z (is_excl (spin_mode pc')) - b2z (is_excl (spin_mode pc)) ∧ (l' = 0 ∨ l' = 1)) →
  spin_inv l pcs → thread_step f l pcs t = (l', pcs') → spin_inv l' pcs'.
Proof.
  intros Hf (Hw & Hl & Hr) [[-> ->]|(pc & pc' & E & F & ->)]%thread_step_inv; [done|].
  destruct (mode_insert spin_mode pcs t pc pc' E) as [E1 E2].
  destruct (Hf _ _ _ F Hl) as [Hd Hl'].
  { intros Hx. pose proof (cnt_elem (is_excl ∘ spin_mode) pcs t pc E Hx).
    unfold writers in Hw. lia. }
  split_and!; [lia|done|]. rewrite E2, Hr. by destruct pc, pc'.
Qed.

Lemma spin_sys_inv l pcs e l' pcs' :
  spin_inv l pcs → spin_sys_step l pcs e = (l', pcs') → spin_inv l' pcs'.
Proof.
  intros Hi. destruct e as [t|t|t|t]; apply spin_thread_inv; try done;
    intros pc l2 pc' F Hl Hx; destruct pc; simpl in *; simplify_eq/=;
    repeat case_match; simplify_eq/=; lia.
Qed.

#[export] Program Instance SpinMutex_laws : RwLockLaws Z spin_pc spin_event :=
  {| l_max := 2 ^ 64 |}.
Next Obligation.
  intros n l pcs _ Hr.
  assert (Hi : spin_inv l pcs).
  { induction Hr as [|l pcs e l' pcs' _ IH Hs]; [|by eapply spin_sys_inv].
    unfold spin_inv, writers, readers. simpl. rewrite !cnt_replicate by done. auto. }
  destruct Hi as (Hw & Hl & Hr0). intros. eapply (counts_exclusive spin_mode pcs); eauto. lia.
Qed.

(** The word of a [CASRWLock] is [WLOCK] while one thread holds it exclusively and
    the number of sharing threads otherwise; an [Unlock] in its loop is a reader's. *)
Definition cas_pc_ok (pc : cas_pc) : Prop :=
  match pc with
  | CRCas _ old => old ≠ WLOCK
  | CUnlock m => m ≠ Free
  | CULoop m | CUCas m _ => m = Shared
  | _ => True
  end.

Definition cas_inv (l : Z) (pcs : list cas_pc) : Prop :=
  ((l = WLOCK ∧ writers cas_mode pcs = 1 ∧ readers cas_mode pcs = 0) ∨
   (l = readers cas_mode pcs ∧ writers cas_mode pcs = 0)) ∧
  Forall cas_pc_ok pcs.

Lemma cas_word l pcs t pc : Z.of_nat (length pcs) < WLOCK → cas_inv l pcs → pcs !! t = Some pc →
  cas_pc_ok pc ∧ (cas_mode pc = Exclusive → l = WLOCK) ∧
  (cas_mode pc = Shared → l ≠ WLOCK ∧ 1 ≤ l) ∧ 0 ≤ l ≤ WLOCK.
Proof.
  intros Hn [Hw Hf] E. pose proof (cnt_elem (is_excl ∘ cas_mode) pcs t pc E) as He.
  pose proof (cnt_elem (is_shared ∘ cas_mode) pcs t pc E) as Hs.
  pose proof (cnt_range (is_shared ∘ cas_mode) pcs).
  unfold writers, readers, compose, WLOCK in *.
  split_and!; [by eapply Forall_lookup in Hf|intros M; rewrite M in *..|lia|lia].
  - specialize (He eq_refl). lia.
  - specialize (Hs eq_refl). lia.
Qed.

Lemma cas_thread_inv l pcs f t l' pcs' :
  Z.of_nat (length pcs) < WLOCK →
  (∀ pc l' pc', pcs !! t = Some pc → cas_pc_ok pc → f l pc = (l', pc') →
     cas_pc_ok pc' ∧
     (l' = l ∧ cas_mode pc' = cas_mode pc ∨
      l' = l + 1 ∧ l ≠ WLOCK ∧ cas_mode pc = Free ∧ cas_mode pc' = Shared ∨
      l' = l - 1 ∧ cas_mode pc = Shared ∧ cas_mode pc' = Free ∨
      l = 0 ∧ l' = WLOCK ∧ cas_mode pc = Free ∧ cas_mode pc' = Exclusive ∨
      l' = 0 ∧ cas_mode pc = Exclusive ∧ cas_mode pc' = Free)) →
  cas_inv l pcs → thread_step f l pcs t = (l', pcs') → cas_inv l' pcs'.
Proof.
  intros Hn Hf Hi [[-> ->]|(pc & pc' & E & F & ->)]%thread_step_inv; [done|].
  destruct (cas_word l pcs t pc Hn Hi E) as (Hok & Hx & Hs & Hl). destruct Hi as [Hw Hall].
  destruct (Hf pc l' pc' E Hok F) as [Hok' Hcase].
  destruct (mode_insert cas_mode pcs t pc pc' E) as [E1 E2].
  pose proof (cnt_range (is_shared ∘ cas_mode) (<[t:=pc']> pcs)) as Hrange.
  rewrite length_insert in Hrange. unfold cas_inv. rewrite E1, E2.
  split; [|by apply Forall_insert]. change (cnt _ _) with (readers cas_mode (<[t:=pc']> pcs)) in Hrange.
  rewrite E2 in Hrange. unfold WLOCK in *.
  destruct Hcase as [(-> & ->)|[(-> & ? & M & M')|[(-> & M & M')|[(-> & -> & M & M')|(-> & M & M')]]]];
    rewrite ?M, ?M' in *; simpl in *; try specialize (Hx eq_refl); try specialize (Hs eq_refl); lia.
Qed.

Lemma cas_step_cases l pcs t pc l' pc' :
  Z.of_nat (length pcs) < WLOCK → cas_inv l pcs → pcs !! t = Some pc →
  cas_step l pc = (l', pc') →
  cas_pc_ok pc' ∧
  (l' = l ∧ cas_mode pc' = cas_mode pc ∨
   l' = l + 1 ∧ l ≠ WLOCK ∧ cas_mode pc = Free ∧ cas_mode pc' = Shared ∨
   l' = l - 1 ∧ cas_mode pc = Shared ∧ cas_mode pc' = Free ∨
   l = 0 ∧ l' = WLOCK ∧ cas_mode pc = Free ∧ cas_mode pc' = Exclusive ∨
   l' = 0 ∧ cas_mode pc = Exclusive ∧ cas_mode pc' = Free).
Proof.
  intros Hn Hi E F. destruct (cas_word l pcs t pc Hn Hi E) as (Hok & Hx & Hs & Hl).
  assert (u64 (l + 1) = l + 1 ∨ l = WLOCK).
  { destruct (decide (l = WLOCK)); [by right|left]. apply (uwrap_small 64). unfold WLOCK in *. lia. }
  assert (1 ≤ l → u64 (l - 1) = l - 1).
  { intros. apply (uwrap_small 64). unfold WLOCK in *. lia. }
  destruct pc as [|n|n old| |n|n| |m| |m|m old]; simpl in *;
    try (destruct (Z.eqb_spec l 0)); try (destruct (Z.eqb_spec l WLOCK));
    try (destruct (Z.eqb_spec l old)); simplify_eq/=; auto 10; try destruct m; naive_solver lia.
Qed.

Lemma cas_sys_inv l pcs e l' pcs' : Z.of_nat (length pcs) < WLOCK →
  cas_inv l pcs → cas_sys_step l pcs e = (l', pcs') → cas_inv l' pcs'.
Proof.
  intros Hn Hi. destruct e as [t|t|t|t]; apply cas_thread_inv; try done;
    intros pc l2 pc' E Hok F; [simplify_eq; destruct pc; simpl; auto; split; auto; done..|].
  by eapply cas_step_cases.
Qed.

Lemma cas_reach_inv n l pcs : Z.of_nat n < WLOCK →
  l_reach n l pcs → cas_inv l pcs ∧ length pcs = n.
Proof.
  intros Hn. induction 1 as [|l pcs e l' pcs' _ [IH IHl] Hs]; simpl in *.
  - unfold cas_inv, writers, readers. rewrite !cnt_replicate, length_replicate by done.
    split; [|done]. split; [auto|]. by apply Forall_replicate.
  - split; [by eapply cas_sys_inv; [rewrite IHl| |]|]. rewrite <-IHl.
    destruct e as [t|t|t|t]; simpl in Hs;
      (apply thread_step_inv in Hs as [[-> ->]|(? & ? & _ & _ & ->)]; [done|apply length_insert]).
Qed.

#[export] Program Instance CASRWLock_laws : RwLockLaws Z cas_pc cas_event :=
  {| l_max := WLOCK |}.
Next Obligation.
  intros n l pcs Hn Hr. destruct (cas_reach_inv n l pcs Hn Hr) as [[Hw _] _].
  intros. eapply (counts_exclusive cas_mode pcs); eauto; lia.
Qed.

(** ** RWLock

    Every access to the members is made under [mutex_], so that a step is a whole
    critical section: from the acquisition of the mutex to its release or to the next
    [wait].  A thread in [wait] carries whether it has been notified; it may also wake
    up unnotified. *)

(** src/cpp-util/lock.h:143-148, [RWLock members]. *)
Record rw := mkRw { reader_count_ : Z; writer_entered_ : bool }.

(** Idle; waiting for [reader_] in [RLock] and in [WLock]; waiting for [writer_];
    holding the lock. *)
Inductive rw_pc :=
  | RwIdle | RWaitR (notified : bool) | WWaitR (notified : bool) | WWaitW (notified : bool)
  | RHeld | WHeld.

(** [notify_one] and [notify_all] on the waiters for which [w] yields the notified
    program point; [pick] is the choice of the implementation. *)
Definition notify_all (w : rw_pc → option rw_pc) (pcs : list rw_pc) : list rw_pc :=
  (λ pc, default pc (w pc)) <$> pcs.
Definition notify_one (w : rw_pc → option rw_pc) (pick : nat) (pcs : list rw_pc) : list rw_pc :=
  match pcs !! pick ≫= w with
  | Some pc' => <[pick:=pc']> pcs
  | None =>
      match list_find (λ pc, is_Some (w pc)) pcs with
      | Some (t, pc) => <[t:=default pc (w pc)]> pcs
      | None => pcs
      end
  end.
Definition on_reader (pc : rw_pc) : option rw_pc :=
  match pc with
  | RWaitR false => Some (RWaitR true)
  | WWaitR false => Some (WWaitR true)
  | _ => None
  end.
Definition on_writer (pc : rw_pc) : option rw_pc :=
  match pc with WWaitW false => Some (WWaitW true) | _ => None end.

(** src/cpp-util/lock.h:92-104, [RWLock::WLock]. The section up to the end or to a [wait], from the
    start or from a wake-up in the first loop, and from a wake-up in the second one. *)
Definition WLock_second (l : rw) : rw * rw_pc :=
  (l, if 0 <? reader_count_ l then WWaitW false else WHeld).
Definition WLock (l : rw) : rw * rw_pc :=
  if writer_entered_ l then (l, WWaitR false) else WLock_second (mkRw (reader_count_ l) true).

(** src/cpp-util/lock.h:106-113, [RWLock::WUnlock]. *)
Definition WUnlock (l : rw) (pcs : list rw_pc) : rw * list rw_pc :=
  (mkRw (reader_count_ l) false, notify_all on_reader pcs).

(** src/cpp-util/lock.h:83, [RWLock::MAX_READERS]. *)
Definition MAX_READERS : Z := 2 ^ 32 - 1.

(** src/cpp-util/lock.h:115-124, [RWLock::RLock]. *)
Definition RLock (l : rw) : rw * rw_pc :=
  if writer_entered_ l || (reader_count_ l =? MAX_READERS) then (l, RWaitR false)
  else (mkRw (u32 (reader_count_ l + 1)) (writer_entered_ l), RHeld).

(** src/cpp-util/lock.h:126-141, [RWLock::RUnlock]. *)
Definition RUnlock (l : rw) (pcs : list rw_pc) (pick : nat) : rw * list rw_pc :=
  let c := u32 (reader_count_ l - 1) in
  let l := mkRw c (writer_entered_ l) in
  if writer_entered_ l then
    (l, if c =? 0 then notify_one on_writer pick pcs else pcs)
  else
    (l, if c =? MAX_READERS - 1 then notify_one on_reader pick pcs else pcs).

(** A thread without a call in progress calls [RLock] or [WLock], a holder releases
    the lock, or a waiter returns from [wait]. *)
Inductive rw_event := CallR (t : nat) | CallW (t : nat) | Release (t pick : nat) | Wake (t : nat).

Definition rw_sys_step (l : rw) (pcs : list rw_pc) (e : rw_event) : rw * list rw_pc :=
  match e with
  | CallR t => thread_step (λ l pc, if pc is RwIdle then RLock l else (l, pc)) l pcs t
  | CallW t => thread_step (λ l pc, if pc is RwIdle then WLock l else (l, pc)) l pcs t
  | Wake t =>
      thread_step (λ l pc, match pc with
        | RWaitR _ => RLock l
        | WWaitR _ => WLock l
        | WWaitW _ => WLock_second l
        | _ => (l, pc)
        end) l pcs t
  | Release t pick =>
      match pcs !! t with
      | Some WHeld => WUnlock l (<[t:=RwIdle]> pcs)
      | Some RHeld => RUnlock l (<[t:=RwIdle]> pcs) pick
      | _ => (l, pcs)
      end
  end.

Definition rw_mode (pc : rw_pc) : mode :=
  match pc with RHeld => Shared | WHeld => Exclusive | _ => Free end.

#[export] Instance RWLock : RwLock rw rw_pc rw_event :=
  {| l_new := mkRw 0 false; l_idle := RwIdle; l_step := rw_sys_step; l_mode := rw_mode |}.

(** The threads that have set [writer_entered_] and not yet reset it. *)
Definition entered (pc : rw_pc) : bool := match pc with WWaitW _ | WHeld => true | _ => false end.

Record rw_inv (l : rw) (pcs : list rw_pc) : Prop := {
  ri_readers : readers rw_mode pcs = reader_count_ l;
  ri_entered : cnt entered pcs = b2z (writer_entered_ l);
  ri_writers : 1 ≤ writers rw_mode pcs → reader_count_ l = 0;
  ri_sleepW : ∀ t, pcs !! t = Some (WWaitW false) → 0 < reader_count_ l;
  ri_sleepR : ∀ t pc pc', pcs !! t = Some pc → on_reader pc = Some pc' → writer_entered_ l = true
}.

Lemma cnt_Forall2 {A} (f : A → bool) l k :
  Forall2 (λ a b, f a = f b) l k → cnt f l = cnt f k.
Proof. induction 1 as [|a b l k E _ IH]; simpl; [done|]. by rewrite E, IH. Qed.

Lemma cnt_le {A} (f g : A → bool) l : (∀ x, f x = true → g x = true) → cnt f l ≤ cnt g l.
Proof.
  intros Hfg. induction l as [|x l IH]; simpl; [done|]. specialize (Hfg x).
  destruct (f x); [rewrite Hfg by done; simpl; lia|]. pose proof (b2z_range (g x)). simpl. lia.
Qed.

Lemma writers_entered pcs : writers rw_mode pcs ≤ cnt entered pcs.
Proof. apply cnt_le. by intros []. Qed.

(** A notification sets the flags of waiters of one condition variable. *)
Definition notified_from (w : rw_pc → option rw_pc) (a b : rw_pc) : Prop := b = a ∨ w a = Some b.

Lemma notify_all_from w pcs : Forall2 (notified_from w) pcs (notify_all w pcs).
Proof.
  unfold notify_all. induction pcs as [|pc pcs IH]; simpl; constructor; [|done].
  unfold notified_from. destruct (w pc); simpl; auto.
Qed.

Lemma insert_from w pcs t pc pc' : pcs !! t = Some pc → w pc = Some pc' →
  Forall2 (notified_from w) pcs (<[t:=pc']> pcs).
Proof.
  revert t. induction pcs as [|q pcs IH]; intros [|t] E Hw; simplify_eq/=; constructor; eauto.
  - by right.
  - clear. induction pcs; constructor; [by left|done].
  - by left.
Qed.

(** Either somebody waiting is notified, or nobody waits. *)
Lemma notify_one_spec w pick pcs :
  (∃ t pc pc', pcs !! t = Some pc ∧ w pc = Some pc' ∧ notify_one w pick pcs = <[t:=pc']> pcs) ∨
  (notify_one w pick pcs = pcs ∧ ∀ t pc, pcs !! t = Some pc → w pc = None).
Proof.
  unfold notify_one. destruct (pcs !! pick) as [pc|] eqn:E; simpl;
    [destruct (w pc) as [pc'|] eqn:F; [left; eauto 6|]|].
  all: destruct (list_find (λ pc, is_Some (w pc)) pcs) as [[t q]|] eqn:G;
    [apply list_find_Some in G as (Ht & [q' Hq] & _); rewrite Hq; left; eauto 6|].
  all: right; split; [done|]; apply list_find_None in G; intros t q Hq;
    rewrite Forall_lookup in G; specialize (G t q Hq); destruct (w q); [destruct G; eauto|done].
Qed.

Lemma notify_one_from w pick pcs : Forall2 (notified_from w) pcs (notify_one w pick pcs).
Proof.
  destruct (notify_one_spec w pick pcs) as [(t & pc & pc' & E & F & ->)|[-> _]].
  - by eapply insert_from.
  - clear. induction pcs; constructor; [by left|done].
Qed.

(** Notifications change neither the holders nor the entered writer, and who sleeps
    afterwards slept before. *)
Lemma notified_counts w pcs pcs' : w = on_reader ∨ w = on_writer →
  Forall2 (notified_from w) pcs pcs' →
  readers rw_mode pcs' = readers rw_mode pcs ∧ writers rw_mode pcs' = writers rw_mode pcs ∧
  cnt entered pcs' = cnt entered pcs.
Proof.
  intros Hw Hf. unfold readers, writers. split_and!; symmetry; apply cnt_Forall2;
    (eapply Forall2_impl; [exact Hf|]); intros a b [->|E]; try done;
    destruct Hw as [-> | ->], a as [|[]|[]|[]| |]; simpl in E; by simplify_eq.
Qed.

Lemma notified_sleepers w pcs pcs' t pc : w = on_reader ∨ w = on_writer →
  Forall2 (notified_from w) pcs pcs' → pcs' !! t = Some pc →
  (pc = WWaitW false ∨ is_Some (on_reader pc)) → pcs !! t = Some pc.
Proof.
  intros Hw Hf E Hs. destruct (Forall2_lookup_r _ _ _ _ _ Hf E) as (a & Ha & [->|Hn]); [done|].
  exfalso. destruct Hw as [-> | ->], a as [|[]|[]|[]| |]; simpl in Hn; simplify_eq;
    by destruct Hs as [Hs|[? Hs]].
Qed.

Lemma rw_insert l pcs t pc l' pc' :
  rw_inv l pcs → pcs !! t = Some pc →
  reader_count_ l' = reader_count_ l - b2z (is_shared (rw_mode pc)) + b2z (is_shared (rw_mode pc')) →
  b2z (writer_entered_ l') = b2z (writer_entered_ l) - b2z (entered pc) + b2z (entered pc') →
  reader_count_ l ≤ reader_count_ l' → (writer_entered_ l = true → writer_entered_ l' = true) →
  (1 ≤ writers rw_mode pcs ∨ pc' = WHeld → reader_count_ l' = 0) →
  (pc' = WWaitW false → 0 < reader_count_ l') →
  (is_Some (on_reader pc') → writer_entered_ l' = true) →
  rw_inv l' (<[t:=pc']> pcs).
Proof.
  intros [Hr He Hw HsW HsR] E Hc Hb Hle Hmon Hz HW HR.
  destruct (mode_insert rw_mode pcs t pc pc' E) as [E1 E2]. split.
  - lia.
  - rewrite (cnt_insert _ _ _ _ _ E). lia.
  - rewrite E1. pose proof (b2z_range (is_excl (rw_mode pc))). intros Hx.
    apply Hz. destruct (decide (1 ≤ writers rw_mode pcs)); [by left|right].
    destruct pc'; simpl in Hx; try done; lia.
  - intros u [(-> & Hpc & _)|[_ Hu]]%list_lookup_insert_Some; [by apply HW|].
    apply HsW in Hu. lia.
  - intros u q q' [(-> & <- & _)|[_ Hu]]%list_lookup_insert_Some Hq; [apply HR; eauto|].
    eapply Hmon, HsR; eauto.
Qed.

Lemma rw_lock_inv l pcs t pc : rw_inv l pcs → pcs !! t = Some pc →
  Z.of_nat (length pcs) < MAX_READERS →
  (pc = RwIdle ∨ (∃ b, pc = RWaitR b) ∨ (∃ b, pc = WWaitR b) →
   (∀ l' pc', RLock l = (l', pc') → rw_inv l' (<[t:=pc']> pcs)) ∧
   (∀ l' pc', WLock l = (l', pc') → rw_inv l' (<[t:=pc']> pcs))) ∧
  ((∃ b, pc = WWaitW b) →
   ∀ l' pc', WLock_second l = (l', pc') → rw_inv l' (<[t:=pc']> pcs)).
Proof.
  intros Hi E Hn. pose proof Hi as [Hr He Hw HsW HsR].
  pose proof (cnt_range (is_shared ∘ rw_mode) pcs) as Hrange.
  change (cnt _ _) with (readers rw_mode pcs) in Hrange.
  pose proof (writers_entered pcs) as Hwe. split.
  - intros Hpc. assert (is_shared (rw_mode pc) = false ∧ entered pc = false) as [Es Ee]
      by (destruct Hpc as [->|[[b ->]|[b ->]]]; done). split.
    + intros l' pc'. unfold RLock. destruct (writer_entered_ l) eqn:W; simpl.
      * intros. simplify_eq. apply (rw_insert l' pcs t pc); rewrite ?W, ?Es, ?Ee; simpl; try done; try lia.
        intros [?|?]; [auto|done].
      * destruct (Z.eqb_spec (reader_count_ l) MAX_READERS); [lia|]. intros. simplify_eq.
        unfold MAX_READERS in *. simpl in He.
        apply (rw_insert l pcs t pc); rewrite ?W, ?Es, ?Ee; simpl; try done;
          rewrite ?(uwrap_small 32) by lia; try done; try lia.
        intros [?|?]; [lia|done].
    + intros l' pc'. unfold WLock, WLock_second. destruct (writer_entered_ l) eqn:W; simpl.
      * intros. simplify_eq. apply (rw_insert l' pcs t pc); rewrite ?W, ?Es, ?Ee; simpl; try done; try lia.
        intros [?|?]; [auto|done].
      * intros. simpl in He. destruct (Z.ltb_spec 0 (reader_count_ l)); simplify_eq;
          apply (rw_insert l pcs t pc); rewrite ?W, ?Es, ?Ee; simpl; try done; try lia;
          intros []; try done; lia.
  - intros [b ->] l' pc'. unfold WLock_second.
    pose proof (cnt_elem entered pcs t _ E eq_refl).
    destruct (writer_entered_ l) eqn:W; simpl in He; [|lia].
    intros. destruct (Z.ltb_spec 0 (reader_count_ l)); simplify_eq;
      apply (rw_insert l' pcs t (WWaitW b)); rewrite ?W; simpl; try done; try lia;
      intros []; try done; auto; lia.
Qed.

Lemma rw_notify w l pcs pcs' : w = on_reader ∨ w = on_writer →
  Forall2 (notified_from w) pcs pcs' →
  readers rw_mode pcs = reader_count_ l → cnt entered pcs = b2z (writer_entered_ l) →
  (1 ≤ writers rw_mode pcs → reader_count_ l = 0) →
  (∀ t, pcs' !! t = Some (WWaitW false) → 0 < reader_count_ l) →
  (∀ t pc, pcs' !! t = Some pc → is_Some (on_reader pc) → writer_entered_ l = true) →
  rw_inv l pcs'.
Proof.
  intros Hw Hf Hr He Hx HsW HsR. destruct (notified_counts w pcs pcs' Hw Hf) as (E1 & E2 & E3).
  split; rewrite ?E1, ?E2, ?E3; eauto.
Qed.

Lemma notified_refl w pcs : Forall2 (notified_from w) pcs pcs.
Proof. induction pcs; constructor; [by left|done]. Qed.

Lemma WUnlock_inv l pcs t l' pcs' : rw_inv l pcs → pcs !! t = Some WHeld →
  WUnlock l (<[t:=RwIdle]> pcs) = (l', pcs') → rw_inv l' pcs'.
Proof.
  intros [Hr He Hw HsW HsR] E. unfold WUnlock. intros. simplify_eq.
  destruct (mode_insert rw_mode pcs t _ RwIdle E) as [E1 E2]. simpl in E1, E2.
  pose proof (cnt_insert entered pcs t _ RwIdle E) as E3. simpl in E3.
  pose proof (cnt_elem entered pcs t _ E eq_refl).
  destruct (writer_entered_ l) eqn:W; simpl in He; [|lia].
  pose proof (notify_all_from on_reader (<[t:=RwIdle]> pcs)) as Hf.
  eapply rw_notify; [by left|exact Hf|simpl..].
  - lia.
  - lia.
  - intros. apply Hw. lia.
  - intros u Hu. apply (notified_sleepers on_reader _ _ _ _ (or_introl eq_refl) Hf) in Hu; [|by left].
    apply list_lookup_insert_Some in Hu as [(-> & [=] & _)|[Hne Hu]].
    pose proof (cnt_two entered pcs t u _ _ Hne E Hu eq_refl eq_refl). lia.
  - intros u pc Hu Hs. unfold notify_all in Hu. rewrite list_lookup_fmap in Hu.
    destruct (<[t:=RwIdle]> pcs !! u) as [q|]; [|done]. simplify_eq/=.
    destruct q as [|[]|[]|[]| |]; simpl in Hs; by destruct Hs.
Qed.

Lemma RUnlock_inv l pcs t pick l' pcs' : Z.of_nat (length pcs) < MAX_READERS →
  rw_inv l pcs → pcs !! t = Some RHeld →
  RUnlock l (<[t:=RwIdle]> pcs) pick = (l', pcs') → rw_inv l' pcs'.
Proof.
  intros Hn [Hr He Hw HsW HsR] E. unfold RUnlock, MAX_READERS in *.
  destruct (mode_insert rw_mode pcs t _ RwIdle E) as [E1 E2]. simpl in E1, E2.
  pose proof (cnt_insert entered pcs t _ RwIdle E) as E3. simpl in E3.
  pose proof (cnt_elem (is_shared ∘ rw_mode) pcs t _ E eq_refl) as Hpos.
  pose proof (cnt_range (is_shared ∘ rw_mode) pcs) as Hrange.
  change (cnt (is_shared ∘ rw_mode) pcs) with (readers rw_mode pcs) in *.
  rewrite (uwrap_small 32) by lia. set (pcs1 := <[t:=RwIdle]> pcs) in *.
  assert (Hold : ∀ u q, pcs1 !! u = Some q → q ≠ RwIdle → pcs !! u = Some q).
  { intros u q [(-> & <- & _)|[_ Hu]]%list_lookup_insert_Some ?; done. }
  assert (HR1 : ∀ u q, pcs1 !! u = Some q → is_Some (on_reader q) → writer_entered_ l = true).
  { intros u q Hu [q' Hq]. eapply HsR, Hq. apply Hold; [done|]. by intros ->. }
  destruct (writer_entered_ l) eqn:W; simpl in *; intros ?; simplify_eq.
  - destruct (Z.eqb_spec (reader_count_ l - 1) 0) as [Hz|Hz].
    + pose proof (notify_one_from on_writer pick pcs1) as Hf.
      eapply rw_notify; [by right|exact Hf|simpl; try lia..|done].
      intros u Hu. exfalso.
      pose proof (notified_sleepers on_writer _ _ _ _ (or_intror eq_refl) Hf Hu (or_introl eq_refl)) as Hu1.
      destruct (notify_one_spec on_writer pick pcs1) as [(v & q & q' & Hv & Hq & EQ)|[_ Hnone]];
        [|by specialize (Hnone _ _ Hu1)].
      rewrite EQ in Hu. assert (q = WWaitW false) as -> by (by destruct q as [|[]|[]|[]| |]).
      simpl in Hq. simplify_eq.
      apply list_lookup_insert_Some in Hu as [(_ & [=] & _)|[Hne Hu]].
      pose proof (cnt_two entered pcs1 v u _ _ Hne Hv Hu eq_refl eq_refl). lia.
    + eapply (rw_notify on_writer _ pcs1); [by right|apply notified_refl|simpl; try lia..|done].
  - assert (Hf : Forall2 (notified_from on_reader) pcs1
      (if reader_count_ l - 1 =? 2 ^ 32 - 1 - 1 then notify_one on_reader pick pcs1 else pcs1)).
    { case_match; [apply notify_one_from|apply notified_refl]. }
    eapply rw_notify; [by left|exact Hf|simpl; try lia..|].
    + intros u Hu. apply (notified_sleepers on_reader _ _ _ _ (or_introl eq_refl) Hf) in Hu; [|by left].
      pose proof (cnt_elem entered _ _ _ Hu eq_refl). lia.
    + intros u q Hu Hs. eapply (HR1 u q); [|done].
      eapply (notified_sleepers on_reader); [by left|exact Hf|exact Hu|by right].
Qed.

Lemma rw_sys_inv l pcs e l' pcs' : Z.of_nat (length pcs) < MAX_READERS →
  rw_inv l pcs → rw_sys_step l pcs e = (l', pcs') → rw_inv l' pcs' ∧ length pcs' = length pcs.
Proof.
  intros Hn Hi. destruct e as [t|t|t pick|t].
  1, 2, 4: intros [[-> ->]|(pc & pc' & E & F & ->)]%thread_step_inv; [done|];
    rewrite length_insert; split; [|done];
    destruct (rw_lock_inv l pcs t pc Hi E Hn) as [Hl Hs].
  - destruct pc; simpl in F; try (simplify_eq; by rewrite list_insert_id).
    destruct Hl as [HR _]; [by left|]. by apply HR.
  - destruct pc; simpl in F; try (simplify_eq; by rewrite list_insert_id).
    destruct Hl as [_ HW]; [by left|]. by apply HW.
  - destruct pc; simpl in F; try (simplify_eq; by rewrite list_insert_id).
    + destruct Hl as [HR _]; [eauto|]. by apply HR.
    + destruct Hl as [_ HW]; [eauto|]. by apply HW.
    + apply Hs; eauto.
  - simpl. destruct (pcs !! t) as [[|b|b|b| |]|] eqn:E; try (intros; by simplify_eq).
    + intros Hu. split; [by eapply RUnlock_inv|]. unfold RUnlock in Hu.
      repeat case_match; simplify_eq;
        rewrite <-?(Forall2_length _ _ _ (notify_one_from _ _ _)); apply length_insert.
    + intros Hu. split; [by eapply WUnlock_inv|]. unfold WUnlock, notify_all in Hu. simplify_eq.
      by rewrite length_fmap, length_insert.
Qed.

Lemma rw_reach_inv n l pcs : Z.of_nat n < MAX_READERS →
  l_reach n l pcs → rw_inv l pcs ∧ length pcs = n.
Proof.
  intros Hn. induction 1 as [|l pcs e l' pcs' _ [IH IHl] Hs]; simpl in *.
  - rewrite length_replicate. split; [|done].
    split; unfold readers, writers; rewrite ?cnt_replicate; try done.
    + by intros t [[=] _]%lookup_replicate.
    + by intros t pc pc' [-> _]%lookup_replicate.
  - edestruct (rw_sys_inv l pcs e) as [H1 H2]; [rewrite IHl; done|done|done|].
    split; [done|]. by rewrite H2.
Qed.

Lemma rw_counts l pcs : rw_inv l pcs →
  writers rw_mode pcs ≤ 1 ∧ (writers rw_mode pcs = 0 ∨ readers rw_mode pcs = 0).
Proof.
  intros [Hr He Hw _ _]. pose proof (writers_entered pcs). pose proof (b2z_range (writer_entered_ l)).
  pose proof (cnt_range (is_excl ∘ rw_mode) pcs). unfold writers in *. lia.
Qed.

#[export] Program Instance RWLock_laws : RwLockLaws rw rw_pc rw_event :=
  {| l_max := MAX_READERS |}.
Next Obligation.
  intros n l pcs Hn Hr. destruct (rw_reach_inv n l pcs Hn Hr) as [Hi _].
  destruct (rw_counts l pcs Hi). intros. by eapply (counts_exclusive rw_mode pcs).
Qed.

Definition asleep (pc : rw_pc) : bool :=
  match pc with RWaitR false | WWaitR false | WWaitW false => true | _ => false end.
Definition runnable (pc : rw_pc) : bool :=
  match pc with RWaitR true | WWaitR true | WWaitW true | RHeld | WHeld => true | _ => false end.

Lemma cnt_pos {A} (f : A → bool) l : 1 ≤ cnt f l → ∃ t x, l !! t = Some x ∧ f x = true.
Proof.
  induction l as [|x l IH]; simpl; [lia|]. destruct (f x) eqn:E; simpl.
  - intros _. by exists O, x.
  - intros Hc. destruct IH as (t & y & ? & ?); [lia|]. by exists (S t), y.
Qed.

Lemma rw_sleep_reason l pcs t pc : rw_inv l pcs → pcs !! t = Some pc → asleep pc = true →
  ∃ u q, pcs !! u = Some q ∧ runnable q = true.
Proof.
  intros [Hr He Hw HsW HsR] E Ha.
  assert (Hrd : 0 < reader_count_ l → ∃ u q, pcs !! u = Some q ∧ runnable q = true).
  { intros Hc. destruct (cnt_pos (is_shared ∘ rw_mode) pcs) as (u & q & Hu & Hq).
    - unfold readers in Hr. lia.
    - exists u, q. split; [done|]. by destruct q. }
  destruct pc as [|[]|[]|[]| |]; try done; [..|by apply Hrd, (HsW t)].
  all: assert (Hen : writer_entered_ l = true) by (by eapply HsR); rewrite Hen in He;
    (destruct (cnt_pos entered pcs) as (u & q & Hu & Hq); [simpl in He; lia|]);
    destruct q as [| | |[]| |]; try done; [eauto| |eauto]; by apply Hrd, (HsW u).
Qed.

(** C18 [invariant]. The word of a [CASRWLock] used by fewer than 2^64 - 1 threads, in
    every interleaving of their atomic accesses: it is [WLOCK] exactly while one thread
    holds the lock for writing, and then nobody reads; otherwise it is the number of
    readers. [Unlock] therefore releases in the mode in which its caller holds. *)
Theorem casrw_word_counts n l pcs :
  Z.of_nat n < WLOCK → l_reach (E:=cas_event) n l pcs →
  (l = WLOCK ∧ writers cas_mode pcs = 1 ∧ readers cas_mode pcs = 0 ∨
   l = readers cas_mode pcs ∧ l < WLOCK ∧ writers cas_mode pcs = 0) ∧
  (∀ t m old, pcs !! t = Some (CULoop m) ∨ pcs !! t = Some (CUCas m old) → m = Shared).
Proof.
  intros Hn Hr. destruct (cas_reach_inv n l pcs Hn Hr) as [[Hw Hf] Hlen]. split.
  - pose proof (cnt_range (is_shared ∘ cas_mode) pcs). unfold readers in *. lia.
  - intros t m old [E|E]; exact (Forall_lookup_1 _ _ _ _ Hf E).
Qed.

Fixpoint l_exec `{RwLock L PC E} (es : list E) (l : L) (pcs : list PC) : L * list PC :=
  match es with [] => (l, pcs) | e :: es => let '(l', pcs') := l_step l pcs e in l_exec es l' pcs' end.

Lemma l_exec_reach `{RwLock L PC E} n es l pcs l' pcs' :
  l_reach n l pcs → l_exec es l pcs = (l', pcs') → l_reach n l' pcs'.
Proof.
  revert l pcs. induction es as [|e es IH]; simpl; intros l pcs Hr Hx; [by simplify_eq|].
  destruct (l_step l pcs e) as [l2 pcs2] eqn:Es. eapply IH; [|exact Hx]. by eapply l_reach_step.
Qed.

(** Two readers get in, one of them is about to leave. *)
Lemma casrw_word_counts_witness :
  ∃ l pcs, l_reach (E:=cas_event) 2 l pcs ∧ l = 2 ∧ pcs !! 1%nat = Some (CUCas Shared 2) ∧
    writers cas_mode pcs = 0.
Proof.
  destruct (l_exec (E:=cas_event) [CasR 0; CasR 1; CasStep 0; CasStep 0; CasStep 1; CasStep 1;
    CasUnlock 1; CasStep 1; CasStep 1] 0 [CIdle; CIdle]) as [l pcs] eqn:X.
  assert (Hr : l_reach (E:=cas_event) 2 l pcs).
  { eapply l_exec_reach, X. exact (l_reach_new (E:=cas_event) 2). }
  exists l, pcs. pose proof (casrw_word_counts 2 l pcs ltac:(reflexivity) Hr) as [[(El & _)|Hc] _];
    vm_compute in X; injection X as <- <-; [discriminate El|].
  split; [exact Hr|]. split; [reflexivity|]. split; [reflexivity|]. apply Hc.
Defined.

Lemma rw_preference l pcs e l' pcs' : Z.of_nat (length pcs) < MAX_READERS →
  rw_inv l pcs → writer_entered_ l = true → rw_sys_step l pcs e = (l', pcs') →
  reader_count_ l' ≤ reader_count_ l.
Proof.
  intros Hn Hi He.
  destruct e as [t|t|t pick|t]; simpl; [..|destruct (pcs !! t) as [[|b|b|b| |]|] eqn:E|].
  1, 2, 10: intros [[-> ->]|(pc & pc' & _ & F & _)]%thread_step_inv; [done|];
    unfold RLock, WLock, WLock_second in F; rewrite He in F; destruct pc; simpl in F; by simplify_eq.
  all: try (unfold WUnlock; intros; by simplify_eq/=).
  unfold RUnlock. rewrite He. intros. simplify_eq/=.
  pose proof (cnt_elem (is_shared ∘ rw_mode) pcs t _ E eq_refl) as Hpos.
  pose proof (cnt_range (is_shared ∘ rw_mode) pcs). destruct Hi as [Hrd _ _ _ _].
  unfold readers in Hrd. unfold MAX_READERS in Hn. rewrite (uwrap_small 32) by lia. lia.
Qed.

(** C17 [safety]. [RWLock] with fewer than [MAX_READERS] threads, for every order of
    calls, releases, notification choices and wake-ups, spurious ones included: a
    writer excludes readers and other writers; [reader_count_] counts the readers; no
    wake-up is lost, in that whenever a thread sleeps un-notified some other thread
    holds the lock or has been notified; and while a writer has entered no further
    reader gets in (writer preference). *)
Theorem rwlock_correct n l pcs :
  Z.of_nat n < MAX_READERS → l_reach (E:=rw_event) n l pcs →
  writers rw_mode pcs ≤ 1 ∧ (writers rw_mode pcs = 0 ∨ readers rw_mode pcs = 0) ∧
  reader_count_ l = readers rw_mode pcs ∧
  (∀ t pc, pcs !! t = Some pc → asleep pc = true →
     ∃ u q, pcs !! u = Some q ∧ runnable q = true) ∧
  (writer_entered_ l = true → ∀ e l' pcs', rw_sys_step l pcs e = (l', pcs') →
     reader_count_ l' ≤ reader_count_ l).
Proof.
  intros Hn Hr. destruct (rw_reach_inv n l pcs Hn Hr) as [Hi Hlen].
  destruct (rw_counts l pcs Hi) as [H1 H2]. split_and!; [done|done|by destruct Hi|..].
  - intros t pc. by apply (rw_sleep_reason l).
  - intros He e l' pcs' Hs. eapply rw_preference; [rewrite Hlen|..]; done.
Qed.

(** A writer waits for a reader, another reader waits for the writer, the first reader
    leaves and thereby notifies the writer. *)
Lemma rwlock_correct_witness :
  ∃ l pcs, l_reach (E:=rw_event) 3 l pcs ∧ pcs = [RwIdle; WWaitW true; RWaitR false] ∧
    reader_count_ l = 0 ∧ ∃ u q, pcs !! u = Some q ∧ runnable q = true.
Proof.
  destruct (l_exec (E:=rw_event) [CallR 0; CallW 1; CallR 2; Wake 2; Release 0 0]
    (mkRw 0 false) [RwIdle; RwIdle; RwIdle]) as [l pcs] eqn:X.
  assert (Hr : l_reach (E:=rw_event) 3 l pcs).
  { eapply l_exec_reach, X. exact (l_reach_new (E:=rw_event) 3). }
  exists l, pcs. pose proof (rwlock_correct 3 l pcs ltac:(reflexivity) Hr) as (_ & _ & _ & Hs & _).
  vm_compute in X; injection X as <- <-.
  split; [exact Hr|]. split; [reflexivity|]. split; [reflexivity|].
  exact (Hs 2%nat (RWaitR false) eq_refl eq_refl).
Defined.

(** ** Striped

    A table of locks of one kind, each with the program points of all the threads.
    [hash_func] is the hash given to the constructor. *)

Section striped.
Context {P L PC E : Type} `{RwLockLaws L PC E} (hash_func : P → Z).

(** src/cpp-util/lock.h:254-257, [Striped members]. *)
Record Striped := mkStriped { stripes_ : Z; locks_ : list (L * list PC) }.

(** src/cpp-util/lock.h:228-236, [Striped::Striped]. *)
Definition Striped_new (threads : nat) (stripes : Z) : Striped :=
  mkStriped stripes (replicate (Z.to_nat stripes) (l_new, replicate threads l_idle)).

(** src/cpp-util/lock.h:248-252, [Striped::get]. The index of the lock; none when the division by
    zero is undefined. *)
Definition get (s : Striped) (key : P) : option nat :=
  if stripes_ s =? 0 then None else Some (Z.to_nat (hash_func key mod stripes_ s)).

(** A thread takes a step at the lock of a key. *)
Definition striped_step (s : Striped) (key : P) (e : E) : option Striped :=
  i ← get s key; lk ← locks_ s !! i;
  Some (mkStriped (stripes_ s) (<[i := l_step lk.1 lk.2 e]> (locks_ s))).

Inductive striped_reach (threads : nat) (stripes : Z) : Striped → Prop :=
  | striped_new : striped_reach threads stripes (Striped_new threads stripes)
  | striped_next s key e s' :
      striped_reach threads stripes s → striped_step s key e = Some s' →
      striped_reach threads stripes s'.

(** The mode in which thread [t] holds the lock of [key]. *)
Definition holds (s : Striped) (key : P) (t : nat) : mode :=
  default Free (i ← get s key; lk ← locks_ s !! i; l_mode <$> lk.2 !! t).

Lemma striped_reach_ok threads stripes s : striped_reach threads stripes s →
  stripes_ s = stripes ∧ length (locks_ s) = Z.to_nat stripes ∧
  Forall (λ lk, l_reach threads lk.1 lk.2) (locks_ s).
Proof.
  induction 1 as [|s key e s' _ (IHs & IHl & IHf) Hs].
  - simpl. rewrite length_replicate. split_and!; [done..|].
    apply Forall_replicate. simpl. constructor.
  - unfold striped_step in Hs. destruct (get s key) as [i|]; [|done]. simpl in Hs.
    destruct (locks_ s !! i) as [[l pcs]|] eqn:Ei; [|done]. simplify_eq/=.
    rewrite length_insert. split_and!; [done..|]. apply Forall_insert; [done|].
    destruct (l_step l pcs e) as [l' pcs'] eqn:Es. simpl.
    apply (l_reach_step _ l pcs e); [|done].
    exact (Forall_lookup_1 _ _ _ _ IHf Ei).
Qed.

(** A striped lock made of any lock that satisfies the interface, with at
    least one stripe: every key has a lock, at a valid index, that depends on its hash
    only; a step at a key is possible and leaves the locks of keys on other stripes as
    they are; and two threads never hold the locks of keys with the same stripe, in
    particular of the same key, in incompatible modes. *)
Theorem striped_exclusive threads stripes s :
  0 < stripes → Z.of_nat threads < l_max → (∀ k, 0 ≤ hash_func k < 2 ^ 64) →
  striped_reach threads stripes s →
  ∀ k, ∃ i, get s k = Some i ∧ Z.of_nat i < stripes ∧
    (∀ e, ∃ s', striped_step s k e = Some s' ∧
       ∀ k' t, get s k' ≠ get s k → holds s' k' t = holds s k' t) ∧
    (∀ k' t u, get s k' = get s k → t ≠ u → compatible (holds s k t) (holds s k' u)).
Proof.
  intros Hst Hth Hh Hr k. destruct (striped_reach_ok _ _ _ Hr) as (Es & El & Hf).
  pose proof (Z.mod_pos_bound (hash_func k) stripes Hst) as Hm.
  exists (Z.to_nat (hash_func k mod stripes)).
  assert (Hg : get s k = Some (Z.to_nat (hash_func k mod stripes))).
  { unfold get. rewrite Es. destruct (Z.eqb_spec stripes 0); [lia|done]. }
  destruct (lookup_lt_is_Some_2 (locks_ s) (Z.to_nat (hash_func k mod stripes))) as [[l pcs] Hi];
    [lia|].
  split; [done|]. split; [lia|]. split.
  - intros e. eexists. unfold striped_step. rewrite Hg. simpl. rewrite Hi. split; [done|].
    intros k' t Hne. unfold holds, get in *. simpl. destruct (stripes_ s =? 0); [done|]. simpl.
    rewrite list_lookup_insert_ne by congruence. done.
  - intros k' t u E' Hne. unfold holds. rewrite E', Hg. simpl. rewrite Hi. simpl.
    pose proof (Forall_lookup_1 _ _ _ _ Hf Hi) as Hlr. simpl in Hlr.
    destruct (pcs !! t) as [p|] eqn:Ep, (pcs !! u) as [q|] eqn:Eq; simpl; try done.
    + by eapply (l_exclusive threads l pcs).
    + by destruct (l_mode p).
Qed.
End striped.

(** Two stripes of spin locks, two threads: thread 0 holds key 5 and thread 1 key 8. *)
Lemma striped_exclusive_witness :
  ∃ s : Striped (L:=Z) (PC:=spin_pc),
    striped_reach (λ k : Z, k mod 2 ^ 64) 2 2 s ∧
    holds (λ k : Z, k mod 2 ^ 64) s 5 0 = Exclusive ∧
    holds (λ k : Z, k mod 2 ^ 64) s 8 1 = Exclusive ∧
    ∀ u, u ≠ 0%nat → compatible Exclusive (holds (λ k : Z, k mod 2 ^ 64) s 5 u).
Proof.
  set (h := λ k : Z, k mod 2 ^ 64).
  destruct (s ← striped_step h (Striped_new 2 2) 5 (SpinLock 0); s ← striped_step h s 8 (SpinTry 1);
    s ← striped_step h s 5 (SpinStep 0); s ← striped_step h s 8 (SpinStep 1);
    s ← striped_step h s 5 (SpinStep 0); striped_step h s 8 (SpinStep 1)) as [s|] eqn:X;
    [|vm_compute in X; discriminate].
  assert (Hr : striped_reach h 2 2 s).
  { repeat match type of X with (?m ≫= _) = Some _ =>
      let F := fresh "F" in destruct m eqn:F; [simpl in X|discriminate X] end.
    repeat (eapply striped_next; [|eassumption]). constructor. }
  exists s.
  pose proof (@striped_exclusive Z Z spin_pc spin_event _ SpinMutex_laws h 2 2 s ltac:(lia) ltac:(reflexivity)
    ltac:(intros k; apply Z.mod_pos_bound; lia) Hr 5) as (i & _ & _ & _ & Hc).
  assert (E5 : holds h s 5 0 = Exclusive) by (vm_compute in X; injection X as <-; vm_compute; reflexivity).
  assert (E8 : holds h s 8 1 = Exclusive) by (vm_compute in X; injection X as <-; vm_compute; reflexivity).
  split; [exact Hr|]. split; [exact E5|]. split; [exact E8|].
  intros u Hu. rewrite <-E5. apply (Hc 5 0%nat u eq_refl). congruence.
Defined.
