(* ===== verification/LruTable.v ===== *)
(** * The entries and the hash table of the LRU cache
      (src/cpp-util/lrucache.h, [LRUEntry] and [HashTable])

    Entries live in a heap that maps addresses to entries; 0 is the null pointer.
    The hash table chains entries through their [next_hash] members.  A dereference
    of an address that is not allocated and a failed assertion are [None]. *)

From S2P Require Import Prelude Slice.

Abbreviation ptr := Z.
Abbreviation nullptr := 0.

(** src/cpp-util/lrucache.h:25-42, [LRUEntry]. *)
Record LRUEntry := mkEntry {
  value : Z; next_hash : ptr; next : ptr; prev : ptr;
  refs : Z; hash : Z; in_cache : bool; key_data : Slice }.
Definition key (this : ptr) (e : LRUEntry) : option Slice :=
  if next e =? this then None else Some (key_data e).

Abbreviation heap := (gmap Z LRUEntry).

Definition set_next_hash (p : ptr) (e : LRUEntry) : LRUEntry :=
  mkEntry (value e) p (next e) (prev e) (refs e) (hash e) (in_cache e) (key_data e).

(** [e->field = ...] *)
Definition update (h : heap) (a : ptr) (f : LRUEntry → LRUEntry) : option heap :=
  e ← h !! a; Some (<[a := f e]> h).

(** src/cpp-util/lrucache.h:88-91, [HashTable members]. *)
Record HashTable := mkTable { length_ : Z; elems_ : Z; list_ : list ptr }.

(** The places that hold a pointer of the table ([LRUEntry **]). *)
Inductive place := Slot (i : Z) | NextHash (a : ptr).

Definition deref (h : heap) (t : HashTable) (p : place) : option ptr :=
  match p with
  | Slot i => aget (list_ t) i
  | NextHash a => next_hash <$> h !! a
  end.
Definition assign (h : heap) (t : HashTable) (p : place) (x : ptr) : option (heap * HashTable) :=
  match p with
  | Slot i => l ← aset (list_ t) i x; Some (h, mkTable (length_ t) (elems_ t) l)
  | NextHash a => h ← update h a (set_next_hash x); Some (h, t)
  end.

(** src/cpp-util/lrucache.h:93-101, [HashTable::FindPointer]. The fuel of the loop is the length of
    the longest possible chain. *)
Fixpoint FindPointer_loop (fuel : nat) (h : heap) (t : HashTable) (k : Slice) (hs : Z)
    (p : place) : option place :=
  match fuel with
  | O => None
  | S fuel =>
      a ← deref h t p;
      if a =? nullptr then Some p else
      e ← h !! a;
      if negb (hash e =? hs) then FindPointer_loop fuel h t k hs (NextHash a) else
      k' ← key a e;
      if slice_neqb k k' then FindPointer_loop fuel h t k hs (NextHash a) else Some p
  end.
Definition FindPointer (h : heap) (t : HashTable) (k : Slice) (hs : Z) : option place :=
  FindPointer_loop (S (Z.to_nat (elems_ t))) h t k hs (Slot (Z.land hs (u32 (length_ t - 1)))).

(** src/cpp-util/lrucache.h:50-53, [HashTable::Lookup]. *)
Definition Lookup (h : heap) (t : HashTable) (k : Slice) (hs : Z) : option ptr :=
  p ← FindPointer h t k hs; deref h t p.

(** src/cpp-util/lrucache.h:105-110, [HashTable::Resize (new length)]. *)
Fixpoint grow (fuel : nat) (elems new_length : Z) : option Z :=
  match fuel with
  | O => None
  | S fuel =>
      if new_length <? elems then grow fuel elems (ushl 32 new_length 1) else Some new_length
  end.

(** src/cpp-util/lrucache.h:113-129, [HashTable::Resize (migration)]. The entries of one bucket, then
    all the buckets. *)
Fixpoint move_bucket (fuel : nat) (h : heap) (new_list : list ptr) (new_length : Z) (a : ptr)
    (count : Z) : option (heap * list ptr * Z) :=
  match fuel with
  | O => None
  | S fuel =>
      if a =? nullptr then Some (h, new_list, count) else
      e ← h !! a;
      let i := Z.land (hash e) (u32 (new_length - 1)) in
      p ← aget new_list i;
      h ← update h a (set_next_hash p);
      new_list ← aset new_list i a;
      move_bucket fuel h new_list new_length (next_hash e) (u32 (count + 1))
  end.
Fixpoint move_all (fuel : nat) (h : heap) (buckets : list ptr) (new_list : list ptr)
    (new_length count : Z) : option (heap * list ptr * Z) :=
  match buckets with
  | [] => Some (h, new_list, count)
  | a :: buckets =>
      res ← move_bucket fuel h new_list new_length a count;
      let '(h, new_list, count) := res : heap * list ptr * Z in
      move_all fuel h buckets new_list new_length count
  end.

(** src/cpp-util/lrucache.h:103-134, [HashTable::Resize]. *)
Definition Resize (h : heap) (t : HashTable) : option (heap * HashTable) :=
  new_length ← grow 33 (elems_ t) 4;
  res ← move_all (S (Z.to_nat (elems_ t))) h (take (Z.to_nat (length_ t)) (list_ t))
    (replicate (Z.to_nat new_length) nullptr) new_length 0;
  let '(h, new_list, count) := res : heap * list ptr * Z in
  if elems_ t =? count then Some (h, mkTable new_length (elems_ t) new_list) else None.

(** src/cpp-util/lrucache.h:47, [HashTable::HashTable]. *)
Definition HashTable_new : option (heap * HashTable) := Resize ∅ (mkTable 0 0 []).

(** src/cpp-util/lrucache.h:55-72, [HashTable::Insert]. *)
Definition Insert (h : heap) (t : HashTable) (a : ptr) : option (ptr * heap * HashTable) :=
  e ← h !! a;
  k ← key a e;
  p ← FindPointer h t k (hash e);
  old ← deref h t p;
  nh ← (if old =? nullptr then Some nullptr else next_hash <$> h !! old);
  h ← update h a (set_next_hash nh);
  res ← assign h t p a;
  let '(h, t) := res : heap * HashTable in
  if old =? nullptr then
    let t := mkTable (length_ t) (u32 (elems_ t + 1)) (list_ t) in
    if length_ t <? elems_ t then
      res ← Resize h t; let '(h, t) := res : heap * HashTable in Some (old, h, t)
    else Some (old, h, t)
  else Some (old, h, t).

(** src/cpp-util/lrucache.h:74-84, [HashTable::Remove]. *)
Definition Remove (h : heap) (t : HashTable) (k : Slice) (hs : Z) :
    option (ptr * heap * HashTable) :=
  p ← FindPointer h t k hs;
  result ← deref h t p;
  if result =? nullptr then Some (result, h, t) else
  nh ← next_hash <$> h !! result;
  res ← assign h t p nh;
  let '(h, t) := res : heap * HashTable in
  Some (result, h, mkTable (length_ t) (u32 (elems_ t - 1)) (list_ t)).

(** src/cpp-util/lrucache.h:86, [HashTable::Size]. *)
Definition Size (t : HashTable) : Z := elems_ t.

(** ** Chains *)

Definition fld {A} (g : LRUEntry → A) (h : heap) (a : ptr) : option A := g <$> h !! a.

(** The pointers reached from [p] through [next_hash]. *)
Fixpoint chain (h : heap) (p : ptr) (l : list ptr) : Prop :=
  match l with
  | [] => p = nullptr
  | a :: l => p = a ∧ a ≠ nullptr ∧ ∃ q, fld next_hash h a = Some q ∧ chain h q l
  end.

(** Key and hash of an entry, and the heap without the [next_hash] members. *)
Definition info (h : heap) (a : ptr) : option (Slice * Z) :=
  e ← h !! a; k ← key a e; Some (k, hash e).
Definition strip (h : heap) : heap := set_next_hash nullptr <$> h.

Lemma info_strip h a : info (strip h) a = info h a.
Proof. unfold info, strip. rewrite lookup_fmap. by destruct (h !! a). Qed.

Lemma strip_info h h' a : strip h' = strip h → info h' a = info h a.
Proof. intros E. by rewrite <-info_strip, E, info_strip. Qed.

Lemma update_spec h a f e : h !! a = Some e → update h a f = Some (<[a := f e]> h).
Proof. intros E. unfold update. by rewrite E. Qed.

Lemma strip_update h a e x : h !! a = Some e → strip (<[a := set_next_hash x e]> h) = strip h.
Proof.
  intros E. unfold strip. rewrite fmap_insert. apply insert_id. by rewrite lookup_fmap, E.
Qed.

Lemma fld_update_ne {A} (g : LRUEntry → A) h a e b : a ≠ b → fld g (<[a:=e]> h) b = fld g h b.
Proof. intros. unfold fld. by rewrite lookup_insert_ne. Qed.

Lemma chain_frame h h' p l :
  (∀ a, a ∈ l → fld next_hash h' a = fld next_hash h a) → chain h p l → chain h' p l.
Proof.
  revert p. induction l as [|a l IH]; intros p Hf; simpl; [done|].
  intros (-> & Hn & q & Hq & Hc). split_and!; [done..|]. exists q.
  rewrite Hf by set_solver. split; [done|]. apply IH; set_solver.
Qed.

Lemma chain_update h p l a e x : a ∉ l → chain h p l → chain (<[a := set_next_hash x e]> h) p l.
Proof.
  intros Ha. apply chain_frame. intros b Hb. apply fld_update_ne. set_solver.
Qed.

(** Redirecting the last pointer of a prefix of a chain. *)
Lemma chain_redirect h p b1 a b2 e x c :
  chain h p (b1 ++ a :: b2) → h !! a = Some e → a ∉ b1 → a ∉ c → chain h x c →
  chain (<[a := set_next_hash x e]> h) p (b1 ++ a :: c).
Proof.
  intros Hc He Hb1 Hcc Hx. revert p Hc Hb1.
  induction b1 as [|y b1 IH]; simpl; intros p (-> & Hn & q & Hq & Hc) Hb1.
  - split_and!; [done..|]. exists x. split; [by unfold fld; rewrite lookup_insert_eq|].
    by apply chain_update.
  - split_and!; [done..|]. exists q. rewrite fld_update_ne by set_solver.
    split; [done|]. apply IH; set_solver.
Qed.

Lemma chain_suffix h p b1 a b2 :
  chain h p (b1 ++ a :: b2) → ∃ q, fld next_hash h a = Some q ∧ chain h q b2.
Proof.
  revert p. induction b1 as [|y b1 IH]; simpl; intros p (-> & Hn & q & Hq & Hc); [eauto|].
  by eapply IH.
Qed.

Lemma chain_nonnull h p b1 a b2 : chain h p (b1 ++ a :: b2) → a ≠ nullptr.
Proof. revert p. induction b1; simpl; intros p (? & ? & q & ? & ?); eauto. Qed.

Lemma chain_head h p l : chain h p l → p = default nullptr (head l).
Proof. destruct l; simpl; [done|]. by intros [-> _]. Qed.

(** ** Searching a bucket *)

Definition matches (h : heap) (k : Slice) (hs : Z) (a : ptr) : Prop := info h a = Some (k, hs).

(** The place that holds the pointer behind the prefix [b] of a chain from [p]. *)
Definition place_after (p : place) (b : list ptr) : place :=
  match last b with None => p | Some a => NextHash a end.

Lemma place_after_cons p a b : place_after p (a :: b) = place_after (NextHash a) b.
Proof. unfold place_after. rewrite last_cons. by destruct (last b). Qed.

Lemma find_loop_spec h t k hs b fuel p q :
  deref h t p = Some q → chain h q b → (∀ a, a ∈ b → is_Some (info h a)) → (length b < fuel)%nat →
  ∃ b1 b2, b = b1 ++ b2 ∧ FindPointer_loop fuel h t k hs p = Some (place_after p b1) ∧
    deref h t (place_after p b1) = Some (default nullptr (head b2)) ∧
    (∀ a, a ∈ b1 → ¬ matches h k hs a) ∧ (∀ a, head b2 = Some a → matches h k hs a).
Proof.
  revert fuel p q. induction b as [|a b IH]; intros [|fuel] p q Hp Hc Hi Hf; simpl in *; try lia.
  - subst q. exists [], []. rewrite Hp. simpl. split_and!; try done. set_solver.
  - destruct Hc as (-> & Hn & q' & Hq' & Hc). rewrite Hp. simpl.
    rewrite (proj2 (Z.eqb_neq a 0)) by done.
    destruct (Hi a) as [[k' hs'] Hia]; [set_solver|].
    assert (Hrec : ¬ matches h k hs a → ∃ b1 b2, a :: b = b1 ++ b2 ∧
      FindPointer_loop fuel h t k hs (NextHash a) = Some (place_after p b1) ∧
      deref h t (place_after p b1) = Some (default nullptr (head b2)) ∧
      (∀ x, x ∈ b1 → ¬ matches h k hs x) ∧ (∀ x, head b2 = Some x → matches h k hs x)).
    { intros Hm. destruct (IH fuel (NextHash a) q') as (b1 & b2 & -> & E & D & M1 & M2);
        [done|done|set_solver|lia|].
      exists (a :: b1), b2. rewrite place_after_cons. split_and!; try done; set_solver. }
    assert (Hsel : matches h k hs a → ∃ b1 b2, a :: b = b1 ++ b2 ∧
      Some p = Some (place_after p b1) ∧
      deref h t (place_after p b1) = Some (default nullptr (head b2)) ∧
      (∀ x, x ∈ b1 → ¬ matches h k hs x) ∧ (∀ x, head b2 = Some x → matches h k hs x)).
    { intros Hm. exists [], (a :: b). split_and!; try done; [set_solver|]. intros x [=]. by subst. }
    unfold matches in *. rewrite Hia in *. unfold info in Hia.
    destruct (h !! a) as [e|]; [|done]. simpl in Hia |- *.
    destruct (key a e) as [k2|]; simpl in Hia; simplify_eq. simpl.
    destruct (Z.eqb_spec (hash e) hs) as [E|E]; simpl; [|apply Hrec; congruence].
    destruct (slice_neqb k k') eqn:Ek.
    + apply slice_neqb_neq in Ek. apply Hrec. congruence.
    + apply Hsel. f_equal. f_equal; [|done]. symmetry. apply slice_eqb_eq.
      by apply negb_false_iff in Ek.
Qed.

(** ** The table *)

(** Every entry is in the bucket of its hash. *)
Definition placed (h : heap) (len : Z) (bs : list (list ptr)) : Prop :=
  ∀ i b a, bs !! i = Some b → a ∈ b →
    ∃ k hs, info h a = Some (k, hs) ∧ Z.land hs (len - 1) = Z.of_nat i.

Record table_ok (h : heap) (t : HashTable) (bs : list (list ptr)) : Prop := {
  to_len : ∃ k, 2 ≤ k ≤ 31 ∧ length_ t = 2 ^ k;
  to_list : Z.of_nat (length (list_ t)) = length_ t;
  to_elems : elems_ t = Z.of_nat (length (concat bs)) ∧ elems_ t ≤ 2 ^ 31;
  to_chains : Forall2 (chain h) (list_ t) bs;
  to_nodup : NoDup (concat bs);
  to_placed : placed h (length_ t) bs
}.

(** The table holds exactly the entries [l], in any order. *)
Definition table_has (h : heap) (t : HashTable) (l : list ptr) : Prop :=
  ∃ bs, table_ok h t bs ∧ concat bs ≡ₚ l.

Lemma bucket_split {A} (bs : list (list A)) i b :
  bs !! i = Some b → ∃ l1 l2, concat bs = l1 ++ b ++ l2 ∧
    ∀ c, concat (<[i:=c]> bs) = l1 ++ c ++ l2.
Proof.
  revert i. induction bs as [|x bs IH]; intros [|i] E; simplify_eq/=.
  - by exists [], (concat bs).
  - destruct (IH i E) as (l1 & l2 & E1 & E2). exists (x ++ l1), l2.
    rewrite E1, <-(assoc_L (++)). split; [done|]. intros c. by rewrite E2, <-(assoc_L (++)).
Qed.

Lemma elem_of_buckets {A} (bs : list (list A)) x :
  x ∈ concat bs ↔ ∃ i b, bs !! i = Some b ∧ x ∈ b.
Proof.
  induction bs as [|c bs IH]; simpl; [set_solver|]. rewrite elem_of_app, IH. split.
  - intros [Hx|(i & b & Hb & Hx)]; [by exists O, c|by exists (S i), b].
  - intros ([|i] & b & Hb & Hx); simplify_eq/=; [by left|right; eauto].
Qed.

Lemma mask_bucket (hs k : Z) : 0 ≤ k → 0 ≤ Z.land hs (2 ^ k - 1) < 2 ^ k.
Proof.
  intros Hk. replace (2 ^ k - 1) with (Z.ones k) by (rewrite Z.ones_equiv; lia).
  rewrite Z.land_ones by done. apply Z.mod_pos_bound. by apply pow2_pos.
Qed.

(** Where a search ends: in the bucket of the hash, at the entry with the key or at
    the end when there is none. *)
Lemma FindPointer_spec h t bs k hs : table_ok h t bs →
  ∃ i b1 b2, bs !! i = Some (b1 ++ b2) ∧ Z.land hs (length_ t - 1) = Z.of_nat i ∧
    FindPointer h t k hs = Some (place_after (Slot (Z.of_nat i)) b1) ∧
    deref h t (place_after (Slot (Z.of_nat i)) b1) = Some (default nullptr (head b2)) ∧
    (∀ a, head b2 = Some a → matches h k hs a) ∧
    (b2 = [] → ∀ a, a ∈ concat bs → ¬ matches h k hs a).
Proof.
  intros [(n & Hn & El) Hlen [He _] Hch Hnd Hpl].
  pose proof (mask_bucket hs n ltac:(lia)) as Hm. rewrite <-El in Hm.
  pose proof (Z.pow_le_mono_r 2 n 31 ltac:(lia) ltac:(lia)).
  set (i := Z.to_nat (Z.land hs (length_ t - 1))).
  assert (Hi : Z.land hs (length_ t - 1) = Z.of_nat i) by lia.
  destruct (lookup_lt_is_Some_2 (list_ t) i) as [q Hq]; [lia|].
  destruct (Forall2_lookup_l _ _ _ _ _ Hch Hq) as (b & Hb & Hc).
  destruct (bucket_split bs i b Hb) as (l1 & l2 & Econ & _).
  destruct (find_loop_spec h t k hs b (S (Z.to_nat (elems_ t))) (Slot (Z.of_nat i)) q)
    as (b1 & b2 & -> & EF & ED & M1 & M2).
  { simpl. by rewrite aget_nat. }
  { done. }
  { intros a Ha. destruct (Hpl i b a Hb Ha) as (k' & hs' & -> & _). done. }
  { rewrite He, Nat2Z.id, Econ, !length_app. lia. }
  exists i, b1, b2. split_and!; try done.
  - unfold FindPointer. rewrite (uwrap_small 32) by lia. by rewrite Hi.
  - intros -> a (j & b' & Hj & Ha)%elem_of_buckets Hmatch.
    destruct (Hpl j b' a Hj Ha) as (k' & hs' & Hinfo & Hmask).
    unfold matches in Hmatch. rewrite Hinfo in Hmatch. simplify_eq.
    assert (j = i) as -> by lia. rewrite Hb in Hj. simplify_eq.
    apply (M1 a); [by rewrite app_nil_r in Ha|done].
Qed.

Lemma bucket_disjoint {A} (bs : list (list A)) i j b c x :
  NoDup (concat bs) → bs !! i = Some b → bs !! j = Some c → x ∈ b → x ∈ c → i = j.
Proof.
  revert i j. induction bs as [|d bs IH]; intros i j Hnd Hi Hj Hb Hc; [done|].
  simpl in Hnd. apply NoDup_app in Hnd as (_ & Hd & Hnd).
  destruct i as [|i], j as [|j]; simplify_eq/=; [done|..].
  - exfalso. apply (Hd x Hb), elem_of_buckets. eauto.
  - exfalso. apply (Hd x Hc), elem_of_buckets. eauto.
  - f_equal. by apply IH.
Qed.

Lemma bucket_nodup {A} (bs : list (list A)) i b : NoDup (concat bs) → bs !! i = Some b → NoDup b.
Proof.
  intros Hnd Hi. destruct (bucket_split bs i b Hi) as (l1 & l2 & E & _). rewrite E in Hnd.
  apply NoDup_app in Hnd as (_ & _ & Hnd). by apply NoDup_app in Hnd as (Hnd & _ & _).
Qed.

(** Storing [x] at the place behind [b1]: the bucket becomes [b1] followed by the
    chain that starts at [x]. *)
Lemma assign_spec h t bs i b1 b2 x c :
  Forall2 (chain h) (list_ t) bs → bs !! i = Some (b1 ++ b2) → NoDup (concat bs) →
  chain h x c → (∀ a, a ∈ b1 → a ∉ c) →
  ∃ h' l', assign h t (place_after (Slot (Z.of_nat i)) b1) x =
      Some (h', mkTable (length_ t) (elems_ t) l') ∧ length l' = length (list_ t) ∧
    Forall2 (chain h') l' (<[i := b1 ++ c]> bs) ∧ strip h' = strip h.
Proof.
  intros Hch Hb Hnd Hx Hdis. destruct (Forall2_lookup_r _ _ _ _ _ Hch Hb) as (p & Hp & Hc).
  pose proof (lookup_lt_Some _ _ _ Hp) as Hlt.
  destruct b1 as [|a b0 _] using rev_ind.
  - simpl. rewrite (aset_Some (list_ t) (Z.of_nat i) x) by lia. simpl. rewrite Nat2Z.id.
    do 2 eexists. split; [done|]. rewrite length_insert.
    split_and!; [done| |done]. by apply Forall2_insert.
  - unfold place_after. rewrite last_snoc. simpl. rewrite <-(assoc_L (++)) in Hc, Hb.
    pose proof (chain_suffix _ _ _ _ _ Hc) as (q & Hq & _). unfold fld in Hq.
    destruct (h !! a) as [e|] eqn:He; [|done].
    rewrite (update_spec _ _ _ _ He). simpl. destruct t as [len el li]; simpl in *.
    do 2 eexists. split; [done|]. split; [done|]. split; [|by apply strip_update].
    pose proof (bucket_nodup _ _ _ Hnd Hb) as Hndb.
    apply NoDup_app in Hndb as (_ & Ha0 & _).
    apply Forall2_lookup. intros j. destruct (decide (i = j)) as [<-|Hne].
    + rewrite Hp, list_lookup_insert_eq by (by apply lookup_lt_Some in Hb).
      constructor. rewrite <-(assoc_L (++)). eapply chain_redirect; [done|done| |set_solver|done].
      intros Hin. apply (Ha0 a Hin). set_solver.
    + rewrite list_lookup_insert_ne by done. apply Forall2_lookup with (i:=j) in Hch as Hj.
      destruct (bs !! j) as [b'|] eqn:Ej; inversion Hj as [y z Hyz|]; simplify_eq; [|constructor].
      constructor. apply chain_update; [|done]. intros Hin. apply Hne.
      eapply (bucket_disjoint bs); [done|exact Hb|exact Ej| |exact Hin]. set_solver.
Qed.

Lemma placed_strip h h' len bs : strip h' = strip h → placed h len bs → placed h' len bs.
Proof.
  intros E Hp i b a Hi Ha. rewrite (strip_info _ _ _ E). by apply (Hp i b a).
Qed.

Lemma placed_insert h len bs i b :
  placed h len bs → (∀ a, a ∈ b → ∃ k hs, info h a = Some (k, hs) ∧ Z.land hs (len - 1) = Z.of_nat i) →
  placed h len (<[i := b]> bs).
Proof.
  intros Hp Hb j c a [(<- & <- & _)|[_ Hj]]%list_lookup_insert_Some Ha; [by apply Hb|].
  by apply (Hp j c a).
Qed.

Lemma Lookup_spec h t l k hs : table_has h t l →
  ∃ a, Lookup h t k hs = Some a ∧
    (a ∈ l ∧ a ≠ nullptr ∧ matches h k hs a ∨ a = nullptr ∧ ∀ x, x ∈ l → ¬ matches h k hs x).
Proof.
  intros (bs & Ht & Hl). destruct (FindPointer_spec h t bs k hs Ht)
    as (i & b1 & b2 & Hb & _ & EF & ED & M1 & M2).
  exists (default nullptr (head b2)). unfold Lookup. rewrite EF. split; [done|].
  destruct b2 as [|a b2]; simpl in *.
  - right. split; [done|]. intros x Hx. apply M2; [done|]. by rewrite Hl.
  - left. split_and!; [..|by apply M1].
    + rewrite <-Hl. apply elem_of_buckets. exists i, (b1 ++ a :: b2). split; [done|]. set_solver.
    + destruct Ht as [_ _ _ Hch _ _]. destruct (Forall2_lookup_r _ _ _ _ _ Hch Hb) as (p & _ & Hc).
      by eapply chain_nonnull.
Qed.

(** A new head segment [c] for the tail [b2] of bucket [i]. *)
Lemma table_ok_replace h t bs i b1 b2 c h' l' el :
  table_ok h t bs → bs !! i = Some (b1 ++ b2) → length l' = length (list_ t) →
  Forall2 (chain h') l' (<[i := b1 ++ c]> bs) → strip h' = strip h →
  NoDup (concat (<[i := b1 ++ c]> bs)) →
  (∀ a, a ∈ c → ∃ k hs, info h a = Some (k, hs) ∧ Z.land hs (length_ t - 1) = Z.of_nat i) →
  el = Z.of_nat (length (concat (<[i := b1 ++ c]> bs))) → el ≤ 2 ^ 31 →
  table_ok h' (mkTable (length_ t) el l') (<[i := b1 ++ c]> bs).
Proof.
  intros [Hlen Hl He Hch Hnd Hpl] Hb Hll Hch' Hs Hnd' Hc Hel Hmax.
  split; simpl; try done; [by rewrite Hll|].
  apply (placed_strip h h'); [done|]. apply placed_insert; [done|].
  intros a [Ha|Ha]%elem_of_app; [|by apply Hc]. apply (Hpl i (b1 ++ b2)); [done|set_solver].
Qed.

Lemma Remove_spec h t l k hs : table_has h t l →
  ∃ a h' t', Remove h t k hs = Some (a, h', t') ∧ strip h' = strip h ∧
    (a = nullptr ∧ (∀ x, x ∈ l → ¬ matches h k hs x) ∧ table_has h' t' l ∨
     a ∈ l ∧ a ≠ nullptr ∧ matches h k hs a ∧ ∃ l', l ≡ₚ a :: l' ∧ table_has h' t' l').
Proof.
  intros (bs & Ht & Hl). destruct (FindPointer_spec h t bs k hs Ht)
    as (i & b1 & b2 & Hb & _ & EF & ED & M1 & M2).
  unfold Remove. rewrite EF. simpl. rewrite ED. simpl.
  pose proof Ht as [_ _ [He Hmax] Hch Hnd Hpl].
  destruct (Forall2_lookup_r _ _ _ _ _ Hch Hb) as (p & _ & Hc).
  destruct b2 as [|a b2]; simpl.
  - do 3 eexists. split; [done|]. split; [done|]. left. split_and!; [done| |by exists bs].
    intros x Hx. apply M2; [done|]. by rewrite Hl.
  - pose proof (chain_nonnull _ _ _ _ _ Hc) as Hn0.
    rewrite (proj2 (Z.eqb_neq a 0)) by done.
    destruct (chain_suffix _ _ _ _ _ Hc) as (q & Hq & Hc2). unfold fld in Hq. rewrite Hq. simpl.
    pose proof (bucket_nodup _ _ _ Hnd Hb) as Hndb. apply NoDup_app in Hndb as (_ & Hdis & _).
    destruct (assign_spec h t bs i b1 (a :: b2) q b2 Hch Hb Hnd Hc2) as (h' & l' & EA & Hll & Hch' & Hs).
    { set_solver. }
    rewrite EA. simpl. do 3 eexists. split; [done|]. split; [done|]. right.
    destruct (bucket_split bs i _ Hb) as (l1 & l2 & E1 & E2).
    assert (Hperm : concat bs ≡ₚ a :: concat (<[i:=b1 ++ b2]> bs)).
    { rewrite E1, E2. simpl. solve_Permutation. }
    split_and!; [|done|by apply M1|].
    + rewrite <-Hl, Hperm. set_solver.
    + exists (concat (<[i:=b1 ++ b2]> bs)). split; [by rewrite <-Hl|].
      exists (<[i:=b1 ++ b2]> bs). split; [|done].
      apply Permutation_length in Hperm as Hlenp. simpl in Hlenp.
      assert (NoDup (concat (<[i:=b1 ++ b2]> bs))) by (rewrite Hperm in Hnd; by apply NoDup_cons in Hnd as [_ ?]).
      rewrite (uwrap_small 32) by lia.
      eapply table_ok_replace; try done; try lia.
      intros x Hx. apply (Hpl i (b1 ++ a :: b2)); [done|set_solver].
Qed.

(** ** Resizing *)

Lemma grow_spec fuel elems j : 2 ≤ j ≤ 31 → elems ≤ 2 ^ 31 → 32 - j ≤ Z.of_nat fuel →
  ∃ k, grow fuel elems (2 ^ j) = Some (2 ^ k) ∧ 2 ≤ k ≤ 31 ∧ elems ≤ 2 ^ k.
Proof.
  revert j. induction fuel as [|fuel IH]; intros j Hj He Hf; [lia|]. simpl.
  destruct (Z.ltb_spec (2 ^ j) elems); [|eauto with lia].
  assert (j < 31) by (destruct (decide (j = 31)) as [->|]; lia).
  unfold ushl. rewrite Z.shiftl_mul_pow2, <-Z.pow_add_r by lia.
  rewrite (uwrap_small 32); [apply IH; lia|].
  pose proof (Z.pow_lt_mono_r 2 (j + 1) 32). pose proof (pow2_pos (j + 1)). lia.
Qed.

(** The state of a migration: the chains of the new table hold [nb], the rest of the
    old ones is untouched. *)
Definition same_next (h h' : heap) (l : list ptr) : Prop :=
  ∀ a, a ∉ l → fld next_hash h' a = fld next_hash h a.

Lemma move_step h nl nb k a e (b : list ptr) :
  2 ≤ k ≤ 31 → Z.of_nat (length nl) = 2 ^ k → Forall2 (chain h) nl nb → placed h (2 ^ k) nb →
  h !! a = Some e → is_Some (info h a) → a ≠ nullptr → NoDup (a :: b ++ concat nb) →
  ∃ i p nl' h' nb', Z.land (hash e) (u32 (2 ^ k - 1)) = i ∧ aget nl i = Some p ∧
    update h a (set_next_hash p) = Some h' ∧ aset nl i a = Some nl' ∧
    length nl' = length nl ∧ Forall2 (chain h') nl' nb' ∧ placed h' (2 ^ k) nb' ∧
    strip h' = strip h ∧ same_next h h' [a] ∧ concat nb' ≡ₚ a :: concat nb.
Proof.
  intros Hk Hlen Hch Hpl He Hi Ha0 Hnd.
  pose proof (Z.pow_le_mono_r 2 k 31 ltac:(lia) ltac:(lia)). pose proof (pow2_pos k ltac:(lia)).
  rewrite (uwrap_small 32) by lia. pose proof (mask_bucket (hash e) k ltac:(lia)) as Hm.
  set (i := Z.to_nat (Z.land (hash e) (2 ^ k - 1))).
  assert (Ei : Z.land (hash e) (2 ^ k - 1) = Z.of_nat i) by lia. rewrite Ei in *.
  destruct (lookup_lt_is_Some_2 nl i) as [p Hp]; [lia|].
  destruct (Forall2_lookup_l _ _ _ _ _ Hch Hp) as (b' & Hb' & Hc).
  exists (Z.of_nat i), p. do 2 eexists. exists (<[i := a :: b']> nb).
  rewrite aget_nat, (update_spec _ _ _ _ He), aset_Some by lia. rewrite Nat2Z.id, length_insert.
  destruct (bucket_split nb i b' Hb') as (l1 & l2 & E1 & E2).
  assert (Hin : ∀ j c, nb !! j = Some c → a ∉ c).
  { intros j c Hj Hac. apply NoDup_cons in Hnd as [Hnot _]. apply Hnot.
    rewrite elem_of_app, elem_of_buckets. eauto 6. }
  split_and!; try done.
  - apply Forall2_insert.
    + apply Forall2_same_length_lookup. split; [by apply Forall2_length in Hch|].
      intros j x y Hx Hy. apply chain_update; [by eapply Hin|]. by eapply Forall2_lookup_lr.
    + simpl. split_and!; [done..|]. exists p.
      split; [by unfold fld; rewrite lookup_insert_eq|]. apply chain_update; [by eapply Hin|done].
  - apply (placed_strip h); [by apply strip_update|]. apply placed_insert; [done|].
    intros x [->|Hx]%elem_of_cons; [|by apply (Hpl i b')].
    destruct Hi as [[k' hs'] Hi]. exists k', hs'. split; [done|]. unfold info in Hi. rewrite He in Hi.
    simpl in Hi. by destruct (key a e); simplify_eq/=.
  - by apply strip_update.
  - intros x Hx. apply fld_update_ne. set_solver.
  - rewrite E2, E1. simpl. solve_Permutation.
Qed.

Lemma move_bucket_spec b fuel h nl nb k a count :
  2 ≤ k ≤ 31 → Z.of_nat (length nl) = 2 ^ k → Forall2 (chain h) nl nb → placed h (2 ^ k) nb →
  chain h a b → (∀ x, x ∈ b → is_Some (info h x)) → NoDup (b ++ concat nb) →
  (length b < fuel)%nat → 0 ≤ count → count + Z.of_nat (length b) < 2 ^ 32 →
  ∃ h' nl' nb', move_bucket fuel h nl (2 ^ k) a count =
      Some (h', nl', count + Z.of_nat (length b)) ∧
    length nl' = length nl ∧ Forall2 (chain h') nl' nb' ∧ placed h' (2 ^ k) nb' ∧
    strip h' = strip h ∧ same_next h h' b ∧ concat nb' ≡ₚ b ++ concat nb.
Proof.
  revert fuel h nl nb a count.
  induction b as [|x b IH]; intros [|fuel] h nl nb a count Hk Hlen Hch Hpl Hc Hi Hnd Hf Hc0 Hcm;
    simpl in *; try lia.
  - subst a. exists h, nl, nb. rewrite Z.add_0_r. by split_and!.
  - destruct Hc as (-> & Hx0 & q & Hq & Hc). rewrite (proj2 (Z.eqb_neq x 0)) by done.
    unfold fld in Hq. destruct (h !! x) as [e|] eqn:He; [|done]. simpl in Hq |- *. simplify_eq.
    destruct (move_step h nl nb k x e b) as
      (i & p & nl1 & h1 & nb1 & -> & EP & EU & ES & L1 & C1 & P1 & S1 & N1 & Perm1);
      try done; [apply Hi; set_solver|].
    rewrite EP. simpl. rewrite EU. simpl. rewrite ES. simpl. rewrite (uwrap_small 32) by lia.
    assert (x ∉ b) by (apply NoDup_cons in Hnd as [Hnot _]; set_solver).
    destruct (IH fuel h1 nl1 nb1 (next_hash e) (count + 1)) as
      (h2 & nl2 & nb2 & E2 & L2 & C2 & P2 & S2' & N2 & Perm2); try done; try lia.
    + eapply chain_frame, Hc. intros y Hy. apply N1. set_solver.
    + intros y Hy. rewrite (strip_info _ _ _ S1). apply Hi. set_solver.
    + rewrite Perm1, <-Permutation_middle. done.
    + exists h2, nl2, nb2. rewrite E2. split_and!; try done.
      * f_equal. f_equal. lia.
      * lia.
      * by rewrite S2'.
      * intros y Hy. rewrite N2, N1 by set_solver. done.
      * rewrite Perm2, Perm1. solve_Permutation.
Qed.

Lemma move_all_spec old bs fuel h nl nb k count :
  2 ≤ k ≤ 31 → Z.of_nat (length nl) = 2 ^ k → Forall2 (chain h) nl nb → placed h (2 ^ k) nb →
  Forall2 (chain h) old bs → (∀ x, x ∈ concat bs → is_Some (info h x)) →
  NoDup (concat bs ++ concat nb) → (length (concat bs) < fuel)%nat → 0 ≤ count →
  count + Z.of_nat (length (concat bs)) < 2 ^ 32 →
  ∃ h' nl' nb', move_all fuel h old nl (2 ^ k) count =
      Some (h', nl', count + Z.of_nat (length (concat bs))) ∧
    length nl' = length nl ∧ Forall2 (chain h') nl' nb' ∧ placed h' (2 ^ k) nb' ∧
    strip h' = strip h ∧ concat nb' ≡ₚ concat bs ++ concat nb.
Proof.
  intros Hk. revert bs h nl nb count.
  induction old as [|a old IH]; intros bs h nl nb count Hlen Hch Hpl Hold Hi Hnd Hf Hc0 Hcm;
    apply Forall2_cons_inv_l in Hold as Hx || apply Forall2_nil_inv_l in Hold as Hx.
  - subst bs. exists h, nl, nb. simpl. rewrite Z.add_0_r. by split_and!.
  - destruct Hx as (b & bs' & Hb & Hbs & ->). simpl in *. rewrite length_app in *.
    rewrite <-(assoc_L (++)) in Hnd.
    pose proof Hnd as (Hndb & Hdis & Hnd2)%NoDup_app.
    destruct (move_bucket_spec b fuel h nl nb k a count) as
      (h1 & nl1 & nb1 & -> & L1 & C1 & P1 & S1 & N1 & Perm1); try done; try lia.
    + intros x Hx. apply Hi. set_solver.
    + apply NoDup_app in Hnd2 as (_ & _ & ?). apply NoDup_app. split_and!; set_solver.
    + destruct (IH bs' h1 nl1 nb1 (count + Z.of_nat (length b))) as
        (h2 & nl2 & nb2 & E2 & L2 & C2 & P2 & S2' & Perm2); try done; try lia.
      * apply Forall2_same_length_lookup. split; [by apply Forall2_length in Hbs|].
        intros j x y Hx Hy. apply (chain_frame h); [|by eapply Forall2_lookup_lr].
        intros z Hz. apply N1. intros Hzb. apply (Hdis z Hzb), elem_of_app. left.
        apply elem_of_buckets. eauto.
      * intros x Hx. rewrite (strip_info _ _ _ S1). apply Hi. set_solver.
      * rewrite Perm1. rewrite <-(Permutation_app_swap_app b). done.
      * exists h2, nl2, nb2. simpl. rewrite E2. split_and!; try done.
        -- f_equal. f_equal. lia.
        -- lia.
        -- by rewrite S2'.
        -- rewrite Perm2, Perm1. solve_Permutation.
Qed.

Lemma chains_empty h n : Forall2 (chain h) (replicate n nullptr) (replicate n []).
Proof. apply Forall2_replicate. done. Qed.

Lemma concat_replicate_nil {A} n : concat (replicate n ([] : list A)) = [].
Proof. induction n; done. Qed.

Lemma Resize_spec h t bs l : Z.of_nat (length (list_ t)) = length_ t →
  Forall2 (chain h) (list_ t) bs → NoDup (concat bs) →
  (∀ x, x ∈ concat bs → is_Some (info h x)) →
  elems_ t = Z.of_nat (length (concat bs)) → elems_ t ≤ 2 ^ 31 → concat bs ≡ₚ l →
  ∃ h' t', Resize h t = Some (h', t') ∧ table_has h' t' l ∧ strip h' = strip h ∧
    elems_ t ≤ length_ t'.
Proof.
  intros Hlen Hch Hnd Hi He Hmax Hl. unfold Resize.
  destruct (grow_spec 33 (elems_ t) 2) as (k & EG & Hk & Hge); [lia..|].
  change (2 ^ 2) with 4 in EG. rewrite EG. simpl.
  rewrite take_ge by lia. pose proof (pow2_pos k ltac:(lia)).
  destruct (move_all_spec (list_ t) bs (S (Z.to_nat (elems_ t))) h
    (replicate (Z.to_nat (2 ^ k)) nullptr) (replicate (Z.to_nat (2 ^ k)) []) k 0) as
    (h' & nl' & nb' & EM & L' & C' & P' & S' & Perm'); try done; try lia.
  - rewrite length_replicate. lia.
  - apply chains_empty.
  - intros i b a [-> _]%lookup_replicate. intros Ha. by apply not_elem_of_nil in Ha.
  - by rewrite concat_replicate_nil, app_nil_r.
  - simpl in EM. rewrite EM. simpl. rewrite He, Z.eqb_refl.
    rewrite concat_replicate_nil, app_nil_r in Perm'. rewrite length_replicate in L'.
    do 2 eexists. split; [done|]. split; [|simpl; split; [done|lia]].
    exists nb'. split; [|by rewrite Perm'].
    split; simpl; try done; [by exists k|lia| |by rewrite Perm'].
    rewrite (Permutation_length Perm'). lia.
Qed.

Lemma table_ok_resize h t bs l : table_ok h t bs → concat bs ≡ₚ l →
  ∃ h' t', Resize h t = Some (h', t') ∧ table_has h' t' l ∧ strip h' = strip h.
Proof.
  intros [_ Hlist [He Hmax] Hch Hnd Hpl] Hl.
  destruct (Resize_spec h t bs l) as (h' & t' & ? & ? & ? & _); eauto.
  intros x (j & b & Hj & Hx)%elem_of_buckets. destruct (Hpl j b x Hj Hx) as (k & hs & -> & _). done.
Qed.

Lemma HashTable_new_spec : ∃ t, HashTable_new = Some (∅, t) ∧ table_has ∅ t [].
Proof.
  eexists. split; [reflexivity|]. exists [[]; []; []; []]. split; [|done].
  split; simpl; try done; [by exists 2|by repeat constructor|constructor|].
  intros [|[|[|[|i]]]] b a; simpl; intros; simplify_eq; set_solver.
Qed.

(** Linking the fresh entry [a] in front of the chain [c], behind [b1]. *)
Lemma link_spec h t bs i b1 b2 q c a e :
  Forall2 (chain h) (list_ t) bs → bs !! i = Some (b1 ++ b2) → NoDup (concat bs) →
  chain h q c → c ⊆ b2 → a ∉ concat bs → a ≠ nullptr → h !! a = Some e →
  ∃ h1 h' l', update h a (set_next_hash q) = Some h1 ∧
    assign h1 t (place_after (Slot (Z.of_nat i)) b1) a =
      Some (h', mkTable (length_ t) (elems_ t) l') ∧ length l' = length (list_ t) ∧
    Forall2 (chain h') l' (<[i := b1 ++ a :: c]> bs) ∧ strip h' = strip h.
Proof.
  intros Hch Hb Hnd Hq Hsub Ha Ha0 He.
  assert (Hin : ∀ j b, bs !! j = Some b → a ∉ b).
  { intros j b Hj Hab. apply Ha, elem_of_buckets. eauto. }
  pose proof (Hin i _ Hb) as Hai.
  pose proof (bucket_nodup _ _ _ Hnd Hb) as Hndb. apply NoDup_app in Hndb as (_ & Hdis & _).
  eexists. rewrite (update_spec _ _ _ _ He).
  destruct (assign_spec (<[a := set_next_hash q e]> h) t bs i b1 b2 a (a :: c)) as
    (h' & l' & EA & Hll & Hch' & Hs); try done.
  - apply Forall2_same_length_lookup. split; [by apply Forall2_length in Hch|].
    intros j x y Hx Hy. apply chain_update; [by eapply Hin|]. by eapply Forall2_lookup_lr.
  - simpl. split_and!; [done..|]. exists q. split; [by unfold fld; rewrite lookup_insert_eq|].
    apply chain_update; [set_solver|done].
  - intros x Hx. specialize (Hdis x Hx). set_solver.
  - exists h', l'. split_and!; try done. rewrite Hs. by apply strip_update.
Qed.

(** Inserting a fresh entry: it takes the place of the entry with its key, or goes to
    the end of its bucket; in the latter case the table may be resized. *)
Lemma Insert_spec h t l a k hs : table_has h t l → a ∉ l → a ≠ nullptr → info h a = Some (k, hs) →
  Z.of_nat (length l) < 2 ^ 31 →
  ∃ old h' t', Insert h t a = Some (old, h', t') ∧ strip h' = strip h ∧
    (old = nullptr ∧ (∀ x, x ∈ l → ¬ matches h k hs x) ∧ table_has h' t' (a :: l) ∨
     old ∈ l ∧ old ≠ nullptr ∧ matches h k hs old ∧
       ∃ l', l ≡ₚ old :: l' ∧ table_has h' t' (a :: l')).
Proof.
  intros (bs & Ht & Hl) Hal Ha0 Hinfo Hsmall. unfold Insert.
  pose proof Hinfo as Hinfo2. unfold info in Hinfo2. destruct (h !! a) as [e|] eqn:He; [|done].
  simpl in Hinfo2 |- *. destruct (key a e) as [k2|]; simplify_eq/=.
  destruct (FindPointer_spec h t bs k (hash e) Ht) as (i & b1 & b2 & Hb & Hmask & EF & ED & M1 & M2).
  rewrite EF. simpl. rewrite ED. simpl.
  pose proof Ht as [_ Hlist [Hel Hmax] Hch Hnd Hpl]. rewrite <-Hl in Hal.
  destruct (Forall2_lookup_r _ _ _ _ _ Hch Hb) as (p & _ & Hc).
  destruct (bucket_split bs i _ Hb) as (l1 & l2 & E1 & E2).
  pose proof (Permutation_length Hl) as Hll.
  destruct b2 as [|old b2]; simpl.
  - destruct (link_spec h t bs i b1 [] nullptr [] a e) as (h1 & h' & l' & EU & EA & Hll' & Hch' & Hs);
      try done.
    rewrite EU. simpl. rewrite EA. simpl. rewrite (uwrap_small 32) by lia.
    assert (Hperm : concat (<[i:=b1 ++ [a]]> bs) ≡ₚ a :: concat bs)
      by (rewrite E1, E2, app_nil_r; solve_Permutation).
    pose proof (Permutation_length Hperm) as Hlp. simpl in Hlp.
    assert (Hnd' : NoDup (concat (<[i:=b1 ++ [a]]> bs))) by (rewrite Hperm; by constructor).
    assert (Ht' : table_ok h' (mkTable (length_ t) (elems_ t + 1) l') (<[i:=b1 ++ [a]]> bs)).
    { eapply table_ok_replace; try done; try lia. intros x ->%list_elem_of_singleton. eauto. }
    assert (Hnone : ∀ x, x ∈ l → ¬ matches h k (hash e) x)
      by (intros x Hx; apply M2; [done|]; by rewrite Hl).
    destruct (Z.ltb_spec (length_ t) (elems_ t + 1)).
    + destruct (table_ok_resize _ _ _ (a :: l) Ht') as (h2 & t2 & ER & HT2 & Hs2);
        [by rewrite Hperm, Hl|].
      rewrite ER. simpl. do 3 eexists. split; [done|]. split; [by rewrite Hs2|]. by left.
    + do 3 eexists. split; [done|]. split; [done|]. left. split_and!; [done..|].
      exists (<[i:=b1 ++ [a]]> bs). split; [done|]. by rewrite Hperm, Hl.
  - destruct (chain_suffix _ _ _ _ _ Hc) as (q & Hq & Hc2).
    pose proof (chain_nonnull _ _ _ _ _ Hc) as Hn0.
    rewrite (proj2 (Z.eqb_neq old 0)) by done. unfold fld in Hq. rewrite Hq. simpl.
    destruct (link_spec h t bs i b1 (old :: b2) q b2 a e) as (h1 & h' & l' & EU & EA & Hll' & Hch' & Hs);
      try done; [set_solver|].
    rewrite EU. simpl. rewrite EA. simpl. do 3 eexists. split; [done|]. split; [done|]. right.
    assert (Hperm : concat bs ≡ₚ old :: l1 ++ b1 ++ b2 ++ l2) by (rewrite E1; solve_Permutation).
    assert (Hperm2 : concat (<[i:=b1 ++ a :: b2]> bs) ≡ₚ a :: l1 ++ b1 ++ b2 ++ l2)
      by (rewrite E2; solve_Permutation).
    split_and!; [rewrite <-Hl, Hperm; set_solver|done|by apply M1|].
    exists (l1 ++ b1 ++ b2 ++ l2). split; [by rewrite <-Hl|].
    exists (<[i:=b1 ++ a :: b2]> bs). split; [|done].
    rewrite Hperm in Hnd. apply NoDup_cons in Hnd as [_ Hnd].
    pose proof (Permutation_length Hperm) as Hlp. pose proof (Permutation_length Hperm2) as Hlp2.
    simpl in Hlp, Hlp2. eapply table_ok_replace; try done; try lia.
    + rewrite Hperm2. constructor; [|done]. intros Hin. apply Hal. rewrite Hperm. set_solver.
    + intros x [->|Hx]%elem_of_cons; [eauto|]. apply (Hpl i (b1 ++ old :: b2)); [done|set_solver].
Qed.
