(* ===== verification/LruCache.v ===== *)
(** * The LRU cache (src/cpp-util/lrucache.h, [LRUCache] and [ShardedLRUCache])

    The cache keeps its entries in one of two circular doubly linked lists: [lru_]
    for those that only the cache refers to, [in_use_] for those that clients hold.
    The members [lru_] and [in_use_] are nodes of the heap at fixed addresses.  Calls
    of [deleter_] are recorded.  [None] is a failed assertion or an access to memory
    that is not allocated. *)

From S2P Require Import Prelude Slice Murmur LruTable.

(** The addresses of the two list heads. *)
Definition lru_ : ptr := 1.
Definition in_use_ : ptr := 2.

Definition set_next (p : ptr) (e : LRUEntry) : LRUEntry :=
  mkEntry (value e) (next_hash e) p (prev e) (refs e) (hash e) (in_cache e) (key_data e).
Definition set_prev (p : ptr) (e : LRUEntry) : LRUEntry :=
  mkEntry (value e) (next_hash e) (next e) p (refs e) (hash e) (in_cache e) (key_data e).
Definition set_refs (n : Z) (e : LRUEntry) : LRUEntry :=
  mkEntry (value e) (next_hash e) (next e) (prev e) n (hash e) (in_cache e) (key_data e).
Definition set_in_cache (b : bool) (e : LRUEntry) : LRUEntry :=
  mkEntry (value e) (next_hash e) (next e) (prev e) (refs e) (hash e) b (key_data e).

(** src/cpp-util/lrucache.h:165-177, [LRUCache members]. *)
Record LRUCache := mkCache {
  capacity_ : Z; usage_ : Z; hp : heap; table_ : HashTable; deleted : list (Slice * Z) }.

Definition with_heap (c : LRUCache) (h : heap) : LRUCache :=
  mkCache (capacity_ c) (usage_ c) h (table_ c) (deleted c).
Definition with_table (c : LRUCache) (h : heap) (t : HashTable) : LRUCache :=
  mkCache (capacity_ c) (usage_ c) h t (deleted c).
Definition with_usage (c : LRUCache) (n : Z) : LRUCache :=
  mkCache (capacity_ c) n (hp c) (table_ c) (deleted c).

(** src/cpp-util/lrucache.h:179-186, [LRUCache::LRUCache]. Members without an initializer are zero. *)
Definition LRUCache_new : option LRUCache :=
  res ← HashTable_new;
  let '(h, t) := res : heap * HashTable in
  let head (a : ptr) := mkEntry 0 0 a a 0 0 false [] in
  Some (mkCache 0 0 (<[lru_ := head lru_]> (<[in_use_ := head in_use_]> h)) t []).

(** src/cpp-util/lrucache.h:143, [LRUCache::SetCapacity]. *)
Definition SetCapacity (c : LRUCache) (capacity : Z) : LRUCache :=
  mkCache capacity (usage_ c) (hp c) (table_ c) (deleted c).

(** src/cpp-util/lrucache.h:231-235, [LRUCache::LRU_Remove]. *)
Definition LRU_Remove (h : heap) (a : ptr) : option heap :=
  e ← h !! a;
  h ← update h (next e) (set_prev (prev e));
  e ← h !! a;
  update h (prev e) (set_next (next e)).

(** src/cpp-util/lrucache.h:237-244, [LRUCache::LRU_Append]. *)
Definition LRU_Append (h : heap) (list a : ptr) : option heap :=
  h ← update h a (set_next list);
  l ← h !! list;
  h ← update h a (set_prev (prev l));
  e ← h !! a;
  h ← update h (prev e) (set_next a);
  e ← h !! a;
  update h (next e) (set_prev a).

(** src/cpp-util/lrucache.h:203-211, [LRUCache::Ref]. *)
Definition Ref (h : heap) (a : ptr) : option heap :=
  e ← h !! a;
  h ← (if (refs e =? 1) && in_cache e then
         h ← LRU_Remove h a; LRU_Append h in_use_ a
       else Some h);
  e ← h !! a;
  update h a (set_refs (u32 (refs e + 1))).

(** src/cpp-util/lrucache.h:213-229, [LRUCache::Unref]. *)
Definition Unref (c : LRUCache) (a : ptr) : option LRUCache :=
  e ← hp c !! a;
  if negb (0 <? refs e) then None else
  h ← update (hp c) a (set_refs (u32 (refs e - 1)));
  e ← h !! a;
  if refs e =? 0 then
    if in_cache e then None else
    k ← key a e;
    Some (mkCache (capacity_ c) (usage_ c) (delete a h) (table_ c)
      (deleted c ++ [(k, value e)]))
  else if in_cache e && (refs e =? 1) then
    h ← LRU_Remove h a; h ← LRU_Append h lru_ a; Some (with_heap c h)
  else Some (with_heap c h).

(** src/cpp-util/lrucache.h:246-254, [LRUCache::Lookup]. *)
Definition Lookup (c : LRUCache) (k : Slice) (hs : Z) : option (ptr * LRUCache) :=
  a ← LruTable.Lookup (hp c) (table_ c) k hs;
  if a =? nullptr then Some (a, c) else h ← Ref (hp c) a; Some (a, with_heap c h).

(** src/cpp-util/lrucache.h:256-260, [LRUCache::Release]. *)
Definition Release (c : LRUCache) (handle : ptr) : option LRUCache := Unref c handle.

(** src/cpp-util/lrucache.h:302-313, [LRUCache::FinishErase]. *)
Definition FinishErase (c : LRUCache) (a : ptr) : option (bool * LRUCache) :=
  if a =? nullptr then Some (false, c) else
  e ← hp c !! a;
  if negb (in_cache e) then None else
  h ← LRU_Remove (hp c) a;
  h ← update h a (set_in_cache false);
  c ← Unref (with_usage (with_heap c h) (u64 (usage_ c - 1))) a;
  Some (true, c).

(** src/cpp-util/lrucache.h:287-295, [LRUCache::Insert (eviction)], and the body of the loop of
    [Prune], which is the same: the oldest entry of [lru_] goes. *)
Definition evict_oldest (c : LRUCache) : option LRUCache :=
  hd ← hp c !! lru_;
  let oldest := next hd in
  e ← hp c !! oldest;
  if negb (refs e =? 1) then None else
  k ← key oldest e;
  res ← LruTable.Remove (hp c) (table_ c) k (hash e);
  let '(r, h, t) := res : ptr * heap * HashTable in
  res ← FinishErase (with_table c h t) r;
  let '(erased, c) := res : bool * LRUCache in
  if erased then Some c else None.
Fixpoint evict_loop (fuel : nat) (over : LRUCache → bool) (c : LRUCache) : option LRUCache :=
  match fuel with
  | O => None
  | S fuel =>
      hd ← hp c !! lru_;
      if over c && negb (next hd =? lru_) then c ← evict_oldest c; evict_loop fuel over c
      else Some c
  end.

(** src/cpp-util/lrucache.h:263-297, [LRUCache::Insert]. [a] is the address that [malloc] returns
    and [junk] what its memory holds. *)
Definition Insert (junk : LRUEntry) (c : LRUCache) (k : Slice) (hs v : Z) (a : ptr) :
    option (ptr * LRUCache) :=
  if a =? nullptr then None else
  let e := mkEntry v (next_hash junk) (next junk) (prev junk) 1 hs false k in
  let h := <[a := e]> (hp c) in
  if negb (0 <? capacity_ c) then None else
  h ← update h a (set_refs 2);
  h ← update h a (set_in_cache true);
  h ← LRU_Append h in_use_ a;
  let c := with_usage (with_heap c h) (u64 (usage_ c + 1)) in
  res ← LruTable.Insert (hp c) (table_ c) a;
  let '(old, h, t) := res : ptr * heap * HashTable in
  res ← FinishErase (with_table c h t) old;
  let '(_, c) := res : bool * LRUCache in
  c ← evict_loop (S (Z.to_nat (usage_ c))) (λ c, capacity_ c <? usage_ c) c;
  Some (a, c).

(** src/cpp-util/lrucache.h:315-319, [LRUCache::Erase]. *)
Definition Erase (c : LRUCache) (k : Slice) (hs : Z) : option LRUCache :=
  res ← LruTable.Remove (hp c) (table_ c) k hs;
  let '(a, h, t) := res : ptr * heap * HashTable in
  res ← FinishErase (with_table c h t) a;
  let '(_, c) := res : bool * LRUCache in
  Some c.

(** src/cpp-util/lrucache.h:321-333, [LRUCache::Prune]. *)
Definition Prune (c : LRUCache) : option LRUCache :=
  evict_loop (S (Z.to_nat (usage_ c))) (λ _, true) c.

(** src/cpp-util/lrucache.h:152-156, [LRUCache::TotalElem]. *)
Definition TotalElem (c : LRUCache) : Z := usage_ c.

(** src/cpp-util/lrucache.h:188-201, [LRUCache::~LRUCache]. *)
Fixpoint destroy_loop (fuel : nat) (c : LRUCache) (a : ptr) : option LRUCache :=
  match fuel with
  | O => None
  | S fuel =>
      if a =? lru_ then Some c else
      e ← hp c !! a;
      if negb (in_cache e) then None else
      h ← update (hp c) a (set_in_cache false);
      if negb (refs e =? 1) then None else
      c' ← Unref (with_heap c h) a;
      destroy_loop fuel c' (next e)
  end.
Definition LRUCache_destroy (c : LRUCache) : option LRUCache :=
  u ← hp c !! in_use_;
  if negb (next u =? in_use_) then None else
  l ← hp c !! lru_;
  destroy_loop (S (Z.to_nat (usage_ c))) c (next l).

(** ** The sharded cache *)

(** src/cpp-util/lrucache.h:335-336, [kNumShardBits and kNumShards]. *)
Definition kNumShardBits : Z := 4.
Definition kNumShards : Z := 1 ≪ kNumShardBits.

(** src/cpp-util/lrucache.h:343-346, [ShardedLRUCache::HashSlice]. *)
Definition HashSlice (s : Slice) : option Z := Hash s (size s) 5381.

(** src/cpp-util/lrucache.h:348, [ShardedLRUCache::Shard]. *)
Definition Shard (hs : Z) : Z := hs ≫ (32 - kNumShardBits).

(** src/cpp-util/lrucache.h:351-359, [ShardedLRUCache::ShardedLRUCache]. *)
Definition Sharded_new (capacity : Z) : option (list LRUCache) :=
  c ← LRUCache_new;
  let per_shard := u64 (capacity + (kNumShards - 1)) / kNumShards in
  Some (replicate (Z.to_nat kNumShards) (SetCapacity c per_shard)).

(** src/cpp-util/lrucache.h:362-366, [ShardedLRUCache::Insert]. *)
Definition sharded_Insert (junk : LRUEntry) (s : list LRUCache) (k : Slice) (v : Z) (a : ptr) :
    option (ptr * list LRUCache) :=
  hs ← HashSlice k; c ← aget s (Shard hs);
  res ← Insert junk c k hs v a;
  let '(r, c) := res : ptr * LRUCache in
  s ← aset s (Shard hs) c; Some (r, s).

(** src/cpp-util/lrucache.h:367-371, [ShardedLRUCache::Lookup]. *)
Definition sharded_Lookup (s : list LRUCache) (k : Slice) : option (ptr * list LRUCache) :=
  hs ← HashSlice k; c ← aget s (Shard hs);
  res ← Lookup c k hs;
  let '(r, c) := res : ptr * LRUCache in
  s ← aset s (Shard hs) c; Some (r, s).

(** src/cpp-util/lrucache.h:372-376, [ShardedLRUCache::Release]. The handle is an entry of the shard
    [i]; its hash selects the shard again. *)
Definition sharded_Release (s : list LRUCache) (i : Z) (handle : ptr) : option (list LRUCache) :=
  c ← aget s i; e ← hp c !! handle;
  c ← aget s (Shard (hash e));
  c ← Release c handle;
  aset s (Shard (hash e)) c.

(** src/cpp-util/lrucache.h:377-381, [ShardedLRUCache::Erase]. *)
Definition sharded_Erase (s : list LRUCache) (k : Slice) : option (list LRUCache) :=
  hs ← HashSlice k; c ← aget s (Shard hs);
  c ← Erase c k hs; aset s (Shard hs) c.

(** src/cpp-util/lrucache.h:382-388, [ShardedLRUCache::Prune]. *)
Definition sharded_Prune (s : list LRUCache) : option (list LRUCache) := mapM Prune s.

(** src/cpp-util/lrucache.h:389-397, [ShardedLRUCache::TotalElem]. *)
Definition sharded_TotalElem (s : list LRUCache) : Z :=
  foldl (λ total c, u64 (total + TotalElem c)) 0 s.

(** ** Circular lists *)

(** Consecutive elements of [c] point at each other. *)
Definition linked (h : heap) (a b : ptr) : Prop :=
  fld next h a = Some b ∧ fld prev h b = Some a.
Fixpoint links (h : heap) (c : list ptr) : Prop :=
  match c with
  | a :: ((b :: _) as c') => linked h a b ∧ links h c'
  | _ => True
  end.

(** The circular list with head [s] and elements [l]. *)
Definition dll (h : heap) (s : ptr) (l : list ptr) : Prop :=
  links h (s :: l ++ [s]) ∧ NoDup (s :: l).

Lemma links_app h c1 a c2 : links h (c1 ++ a :: c2) ↔ links h (c1 ++ [a]) ∧ links h (a :: c2).
Proof.
  induction c1 as [|x c1 IH]; simpl; [tauto|].
  destruct c1 as [|y c1]; simpl in *; [tauto|]. rewrite IH. tauto.
Qed.

Lemma links_frame h h' c : links h c →
  (∀ x, x ∈ removelast c → fld next h' x = fld next h x) →
  (∀ x, x ∈ tail c → fld prev h' x = fld prev h x) → links h' c.
Proof.
  induction c as [|a [|b c] IH]; [done..|]. intros [[Hn Hp] Hl] Fn Fp.
  split; [split|].
  - rewrite Fn; [done|]. simpl. set_solver.
  - rewrite Fp; [done|]. simpl. set_solver.
  - apply IH; [done|..].
    + intros x Hx. apply Fn. change (removelast (a :: b :: c)) with (a :: removelast (b :: c)). set_solver.
    + intros x Hx. apply Fp. simpl in *. set_solver.
Qed.

(** What an operation on the links of the nodes [l] leaves alone. *)
Definition unlink (e : LRUEntry) : LRUEntry := set_next nullptr (set_prev nullptr e).
Definition frame (h h' : heap) (l : list ptr) : Prop :=
  unlink <$> h' = unlink <$> h ∧ ∀ a, a ∉ l → h' !! a = h !! a.

Lemma frame_lookup h h' l a e : frame h h' l → h !! a = Some e →
  ∃ e', h' !! a = Some e' ∧ unlink e' = unlink e.
Proof.
  intros [Hu _] Ha. apply (f_equal (.!! a)) in Hu. rewrite !lookup_fmap, Ha in Hu.
  destruct (h' !! a) as [e'|]; [|done]. exists e'. split; [done|]. by apply (inj Some) in Hu.
Qed.

Lemma frame_update h a e f l : h !! a = Some e → unlink (f e) = unlink e → a ∈ l →
  frame h (<[a := f e]> h) l.
Proof.
  intros Ha Hf Hl. split.
  - rewrite fmap_insert, Hf. apply insert_id. by rewrite lookup_fmap, Ha.
  - intros b Hb. apply lookup_insert_ne. set_solver.
Qed.

Lemma frame_trans h1 h2 h3 l : frame h1 h2 l → frame h2 h3 l → frame h1 h3 l.
Proof. intros [E1 F1] [E2 F2]. split; [congruence|]. intros a Ha. by rewrite F2, F1. Qed.

Lemma dll_frame h h' s l k : dll h s l → frame h h' k → (∀ a, a ∈ s :: l → a ∉ k) → dll h' s l.
Proof.
  intros [Hl Hnd] [_ Hf] Hd. split; [|done].
  assert (Hin : ∀ x, x ∈ s :: l ++ [s] → h' !! x = h !! x) by (intros x Hx; apply Hf, Hd; set_solver).
  eapply links_frame; [done|..]; intros x Hx; unfold fld; rewrite Hin; try done.
  - change (s :: l ++ [s]) with ((s :: l) ++ [s]) in Hx. rewrite removelast_last in Hx. set_solver.
  - simpl in Hx. set_solver.
Qed.

Lemma fld_update_eq {A} (g : LRUEntry → A) h a e : fld g (<[a:=e]> h) a = Some (g e).
Proof. unfold fld. by rewrite lookup_insert_eq. Qed.

Lemma fld_update_same {A} (g : LRUEntry → A) h a e e' b :
  h !! a = Some e → g e' = g e → fld g (<[a:=e']> h) b = fld g h b.
Proof.
  intros Ha Hg. destruct (decide (a = b)) as [<-|Hne]; [|by apply fld_update_ne].
  rewrite fld_update_eq, Hg. unfold fld. by rewrite Ha.
Qed.

Lemma fld_Some {A} (g : LRUEntry → A) h a x : fld g h a = Some x → ∃ e, h !! a = Some e ∧ g e = x.
Proof. unfold fld. destruct (h !! a) as [e|]; simpl; intros; simplify_eq. eauto. Qed.

Lemma split_around (s e : ptr) l1 l2 : ∃ c0 p n c3,
  s :: l1 = c0 ++ [p] ∧ l2 ++ [s] = n :: c3 ∧
  s :: (l1 ++ e :: l2) ++ [s] = c0 ++ p :: e :: n :: c3 ∧
  s :: (l1 ++ l2) ++ [s] = c0 ++ p :: n :: c3.
Proof.
  destruct (exists_last (l := s :: l1)) as (c0 & p & E1); [done|].
  assert (∃ n c3, l2 ++ [s] = n :: c3) as (n & c3 & E2) by (destruct l2; simpl; eauto).
  exists c0, p, n, c3. split_and!; [done..| |]; rewrite <-!(assoc_L (++)); simpl.
  - change (s :: l1 ++ e :: l2 ++ [s]) with ((s :: l1) ++ e :: l2 ++ [s]).
    by rewrite E1, E2, <-(assoc_L (++)).
  - change (s :: l1 ++ l2 ++ [s]) with ((s :: l1) ++ l2 ++ [s]).
    by rewrite E1, E2, <-(assoc_L (++)).
Qed.

(** Making [p] and [n] neighbours. *)
Lemma relink h p n ep en : h !! p = Some ep → h !! n = Some en →
  ∃ ep1 h', <[n := set_prev p en]> h !! p = Some ep1 ∧
    h' = <[p := set_next n ep1]> (<[n := set_prev p en]> h) ∧ linked h' p n ∧
    (∀ x, x ≠ p → fld next h' x = fld next h x) ∧ (∀ x, x ≠ n → fld prev h' x = fld prev h x) ∧
    (∀ l, p ∈ l → n ∈ l → frame h h' l).
Proof.
  intros Hp Hn. set (h1 := <[n := set_prev p en]> h).
  assert (is_Some (h1 !! p)) as [ep1 Hep1].
  { unfold h1. destruct (decide (n = p)) as [->|];
      [rewrite lookup_insert_eq|rewrite lookup_insert_ne, Hp by done]; eauto. }
  exists ep1. eexists. split_and!; [done..| | | |].
  - split; [apply fld_update_eq|]. rewrite (fld_update_same prev h1 _ ep1) by done.
    apply fld_update_eq.
  - intros x Hx. rewrite fld_update_ne by done. by apply (fld_update_same next h _ en).
  - intros x Hx. rewrite (fld_update_same prev h1 _ ep1) by done. by apply fld_update_ne.
  - intros l Hpl Hnl. apply (frame_trans _ h1); by apply frame_update.
Qed.

Lemma LRU_Remove_spec h s l1 e l2 : dll h s (l1 ++ e :: l2) →
  ∃ h', LRU_Remove h e = Some h' ∧ dll h' s (l1 ++ l2) ∧ frame h h' (s :: l1 ++ l2).
Proof.
  intros [Hl Hnd]. destruct (split_around s e l1 l2) as (c0 & p & n & c3 & E1 & E2 & Ec & Ec').
  rewrite Ec in Hl. apply links_app in Hl as [Hl0 [[Hpe Hep] [[Hen Hne] Hl3]]].
  assert (Hp : p ∈ s :: l1) by (rewrite E1; set_solver).
  assert (Hn : n ∈ l2 ++ [s]) by (rewrite E2; set_solver).
  rewrite <-Permutation_middle, Permutation_swap in Hnd. apply NoDup_cons in Hnd as [He Hnd].
  apply fld_Some in Hen as (ee & Hee & <-). unfold fld in Hep. rewrite Hee in Hep. simplify_eq/=.
  apply fld_Some in Hne as (en & Hen & _). apply fld_Some in Hpe as (ep & Hep & _).
  unfold LRU_Remove. rewrite Hee. simpl. rewrite (update_spec _ _ _ _ Hen). simpl.
  rewrite lookup_insert_ne, Hee by set_solver. simpl.
  destruct (relink h (prev ee) (next ee) ep en Hep Hen) as (ep1 & h' & Hep1 & Eh' & Hlk & Fn & Fp & Hf).
  rewrite (update_spec _ _ _ _ Hep1), <-Eh'. exists h'. split; [done|].
  split; [split; [|done]|apply Hf; set_solver].
  rewrite Ec'. apply links_app. pose proof Hnd as [Hs1 Hnd2]%NoDup_cons.
  apply NoDup_app in Hnd2 as (Hndl1 & Hd12 & Hndl2). split; [|split; [done|]].
  - eapply links_frame; [exact Hl0|..].
    + rewrite removelast_last. intros x Hx. apply Fn. intros ->.
      assert (Hnd3 : NoDup (c0 ++ [prev ee])) by (rewrite <-E1; constructor; [set_solver|done]).
      apply NoDup_app in Hnd3 as (_ & Hd & _). apply (Hd (prev ee)); set_solver.
    + rewrite <-E1. simpl. intros x Hx. apply Fp. intros ->. apply elem_of_app in Hn as [Hn|Hn]; set_solver.
  - eapply links_frame; [exact Hl3|..].
    + rewrite <-E2, removelast_last. intros x Hx. apply Fn. intros ->.
      apply elem_of_cons in Hp as [Hp|Hp]; [|by eapply Hd12]. apply Hs1. rewrite <-Hp. set_solver.
    + simpl. intros x Hx. apply Fp. intros ->.
      assert (Hnd4 : NoDup (next ee :: c3)) by (rewrite <-E2, <-Permutation_cons_append; constructor; [set_solver|done]).
      apply NoDup_cons in Hnd4 as [? _]. done.
Qed.

Lemma LRU_Append_spec h s l e : dll h s l → e ∉ s :: l → is_Some (h !! e) →
  ∃ h', LRU_Append h s e = Some h' ∧ dll h' s (l ++ [e]) ∧ frame h h' (s :: l ++ [e]).
Proof.
  intros [Hl Hnd] He [ee Hee]. destruct (exists_last (l := s :: l)) as (c0 & p & E1); [done|].
  assert (Hp : p ∈ s :: l) by (rewrite E1; set_solver).
  change (s :: l ++ [s]) with ((s :: l) ++ [s]) in Hl. rewrite E1, <-(assoc_L (++)) in Hl. simpl in Hl.
  apply links_app in Hl as [Hl0 [[Hps Hsp] _]].
  apply fld_Some in Hsp as (es & Hes & <-). apply fld_Some in Hps as (ep & Hep & _).
  assert (e ≠ s) by set_solver. assert (e ≠ prev es) by set_solver.
  unfold LRU_Append. rewrite (update_spec _ _ _ _ Hee). simpl.
  rewrite lookup_insert_ne, Hes by done. simpl.
  erewrite update_spec by apply lookup_insert_eq. simpl. rewrite insert_insert_eq, lookup_insert_eq. simpl.
  set (e1 := set_prev (prev es) (set_next s ee)). set (h1 := <[e := e1]> h).
  assert (h1 !! prev es = Some ep) as Hep1 by (unfold h1; by rewrite lookup_insert_ne).
  assert (h1 !! e = Some e1) as He1 by apply lookup_insert_eq.
  rewrite (update_spec _ _ _ _ Hep1). simpl. rewrite lookup_insert_ne, He1 by done. simpl.
  set (h2 := <[prev es := set_next e ep]> h1).
  assert (is_Some (h2 !! s)) as [es2 Hes2].
  { unfold h2, h1. destruct (decide (prev es = s)) as [->|]; [rewrite lookup_insert_eq; eauto|].
    rewrite !lookup_insert_ne, Hes by done. eauto. }
  rewrite (update_spec _ _ _ _ Hes2). set (h3 := <[s := set_prev e es2]> h2).
  assert (Fn : ∀ x, fld next h3 x = fld next h2 x) by (intros x; by apply (fld_update_same next h2 _ es2)).
  assert (Fp : ∀ x, x ≠ s → fld prev h3 x = fld prev h1 x).
  { intros x Hx. unfold h3. rewrite fld_update_ne by done. by apply (fld_update_same prev h1 _ ep). }
  exists h3. split; [done|]. split; [split|].
  - change (s :: (l ++ [e]) ++ [s]) with ((s :: l ++ [e]) ++ [s]).
    change (s :: l ++ [e]) with ((s :: l) ++ [e]). rewrite E1, <-!(assoc_L (++)). simpl.
    apply links_app. split; [|split; [|split; [|done]]].
    + eapply links_frame; [exact Hl0|..].
      * rewrite removelast_last. intros x Hx. rewrite Fn. unfold h2, h1.
        rewrite fld_update_ne, fld_update_ne; [done|..].
        { intros <-. apply He. rewrite E1. set_solver. }
        intros <-. rewrite E1 in Hnd.
        apply NoDup_app in Hnd as (_ & Hd & _). apply (Hd (prev es)); set_solver.
      * rewrite <-E1. simpl. intros x Hx. apply NoDup_cons in Hnd as [Hs _].
        rewrite Fp by set_solver. apply fld_update_ne. set_solver.
    + split; [rewrite Fn; exact (fld_update_eq next h1 _ (set_next e ep))|].
      rewrite Fp by done. exact (fld_update_eq prev h e e1).
    + split; [|exact (fld_update_eq prev h2 s (set_prev e es2))]. rewrite Fn. unfold h2.
      rewrite fld_update_ne by done. exact (fld_update_eq next h e e1).
  - rewrite <-Permutation_cons_append, Permutation_swap. by constructor.
  - apply (frame_trans _ h1).
    { apply (frame_update h e ee (λ x, set_prev (prev es) (set_next s x))); [done..|set_solver]. }
    apply (frame_trans _ h2); apply frame_update; try done; set_solver.
Qed.

(** ** The contract

    Entries are known by their address.  The cache holds them in two lists, those no
    client holds with the oldest first, and those with handles; entries in neither
    list have been erased while clients still hold them. *)

Record item := mkItem { i_key : Slice; i_hash : Z; i_value : Z; i_handles : Z }.
Record acache := mkA {
  a_cap : Z; a_lru : list ptr; a_used : list ptr; a_items : gmap Z item;
  a_deleted : list (Slice * Z) }.

Definition a_usage (A : acache) : Z := Z.of_nat (length (a_lru A ++ a_used A)).
Definition a_id (A : acache) (a : ptr) : option (Slice * Z) :=
  (λ it, (i_key it, i_hash it)) <$> a_items A !! a.

(** The cached entry with a key, null if there is none. *)
Definition a_find (A : acache) (k : Slice) (hs : Z) : ptr :=
  default nullptr (head (filter (λ a, a_id A a = Some (k, hs)) (a_lru A ++ a_used A))).

Definition rm (a : ptr) (l : list ptr) : list ptr := filter (λ x, x ≠ a) l.
Definition add_handles (n : Z) (it : item) : item :=
  mkItem (i_key it) (i_hash it) (i_value it) (i_handles it + n).

(** One more handle: an entry that nobody held comes in use. *)
Definition a_ref (A : acache) (a : ptr) : acache :=
  let items := alter (add_handles 1) a (a_items A) in
  if bool_decide (a ∈ a_lru A)
  then mkA (a_cap A) (rm a (a_lru A)) (a_used A ++ [a]) items (a_deleted A)
  else mkA (a_cap A) (a_lru A) (a_used A) items (a_deleted A).

(** The deleter gets the entry and its memory is freed. *)
Definition a_free (A : acache) (a : ptr) : acache :=
  mkA (a_cap A) (a_lru A) (a_used A) (delete a (a_items A))
    (a_deleted A ++ default [] ((λ it, [(i_key it, i_value it)]) <$> a_items A !! a)).

(** One handle less: the last one makes a cached entry the youngest that may be
    evicted, and frees an erased one. *)
Definition a_unref (A : acache) (a : ptr) : acache :=
  let A := mkA (a_cap A) (a_lru A) (a_used A) (alter (add_handles (-1)) a (a_items A)) (a_deleted A) in
  if bool_decide (i_handles <$> a_items A !! a = Some 0) then
    if bool_decide (a ∈ a_used A)
    then mkA (a_cap A) (a_lru A ++ [a]) (rm a (a_used A)) (a_items A) (a_deleted A)
    else a_free A a
  else A.

(** A cached entry leaves the cache. *)
Definition a_erase (A : acache) (a : ptr) : acache :=
  if bool_decide (a ∈ a_lru A)
  then a_free (mkA (a_cap A) (rm a (a_lru A)) (a_used A) (a_items A) (a_deleted A)) a
  else mkA (a_cap A) (a_lru A) (rm a (a_used A)) (a_items A) (a_deleted A).

(** The [n] oldest entries that nobody holds leave. *)
Definition a_evict (n : nat) (A : acache) : acache := foldl a_erase A (take n (a_lru A)).

(** A new entry, held by its creator, replaces the one with the same key; then the
    oldest entries leave as long as the cache is over its capacity. *)
Definition a_insert (A : acache) (k : Slice) (hs v : Z) (a : ptr) : acache :=
  let old := a_find A k hs in
  let A := mkA (a_cap A) (a_lru A) (a_used A ++ [a]) (<[a := mkItem k hs v 1]> (a_items A))
    (a_deleted A) in
  let A := if old =? nullptr then A else a_erase A old in
  a_evict (Z.to_nat (a_usage A - a_cap A)) A.

(** ** How a cache implements it *)

(** The two lists of the heap; no entry is its own successor. *)
Definition no_self (h : heap) : Prop :=
  ∀ a e, h !! a = Some e → a ≠ lru_ → a ≠ in_use_ → next e ≠ a.
Record lists (h : heap) (L U : list ptr) : Prop := {
  ls_lru : dll h lru_ L;
  ls_used : dll h in_use_ U;
  ls_nodup : NoDup (lru_ :: in_use_ :: L ++ U);
  ls_self : no_self h
}.

(** An entry without its links, and the one that an item stands for. *)
Definition core (e : LRUEntry) : LRUEntry := set_next_hash nullptr (unlink e).
Definition item_entry (A : acache) (a : ptr) (it : item) : LRUEntry :=
  let cached := bool_decide (a ∈ a_lru A ++ a_used A) in
  mkEntry (i_value it) nullptr nullptr nullptr (i_handles it + if cached then 1 else 0)
    (i_hash it) cached (i_key it).

Definition same_item (A : acache) (h : heap) (a : ptr) : Prop :=
  a ≠ lru_ → a ≠ in_use_ → core <$> h !! a = item_entry A a <$> a_items A !! a.

(** [T] are the entries of the table, which differ from those of the lists while an
    operation is in progress. *)
Record rep_with (T : list ptr) (c : LRUCache) (A : acache) : Prop := {
  r_cap : capacity_ c = a_cap A;
  r_usage : usage_ c = a_usage A;
  r_deleted : deleted c = a_deleted A;
  r_lists : lists (hp c) (a_lru A) (a_used A);
  r_same : ∀ a, same_item A (hp c) a;
  r_table : table_has (hp c) (table_ c) T;
  r_sub : ∀ a, a ∈ T → a ∈ a_lru A ++ a_used A;
  r_handles : ∀ a it, a_items A !! a = Some it →
    a ≠ nullptr ∧ a ≠ lru_ ∧ a ≠ in_use_ ∧ 0 ≤ i_handles it < 2 ^ 32 - 1 ∧
    (i_handles it = 0 ↔ a ∈ a_lru A);
  r_listed : ∀ a, a ∈ a_lru A ++ a_used A → is_Some (a_items A !! a);
  r_keys : ∀ a b, a ∈ T → b ∈ T → a_id A a = a_id A b → a = b
}.

Definition rep (c : LRUCache) (A : acache) : Prop := rep_with (a_lru A ++ a_used A) c A.

Lemma rm_notin a l : a ∉ l → rm a l = l.
Proof.
  intros Ha. unfold rm. induction l as [|x l IH]; [done|].
  rewrite filter_cons_True by set_solver. f_equal. apply IH. set_solver.
Qed.

Lemma rm_split a l1 l2 : a ∉ l1 → a ∉ l2 → rm a (l1 ++ a :: l2) = l1 ++ l2.
Proof.
  intros H1 H2. unfold rm. rewrite filter_app, filter_cons_False by (intros Hx; by destruct Hx).
  fold (rm a l1) (rm a l2). by rewrite !rm_notin.
Qed.

Lemma elem_of_rm x a l : x ∈ rm a l ↔ x ∈ l ∧ x ≠ a.
Proof. unfold rm. rewrite list_elem_of_filter. tauto. Qed.

Lemma NoDup_mid {A} (l1 : list A) a l2 : NoDup (l1 ++ a :: l2) → (a ∉ l1) ∧ (a ∉ l2).
Proof.
  rewrite <-Permutation_middle. intros [Hn _]%NoDup_cons. set_solver.
Qed.

Lemma rm_perm a l : NoDup l → a ∈ l → l ≡ₚ a :: rm a l.
Proof.
  intros Hnd (l1 & l2 & ->)%list_elem_of_split. destruct (NoDup_mid _ _ _ Hnd).
  rewrite rm_split by done. by rewrite Permutation_middle.
Qed.

Lemma dll_no_self h s l x e : dll h s l → x ∈ l → h !! x = Some e → next e ≠ x.
Proof.
  intros [Hl Hnd] (l1 & l2 & ->)%list_elem_of_split Hx Hnx.
  destruct (split_around s x l1 l2) as (c0 & p & n & c3 & _ & E2 & Ec & _).
  rewrite Ec in Hl. apply links_app in Hl as [_ [_ [[Hn _] _]]].
  unfold fld in Hn. rewrite Hx in Hn. simpl in Hn. apply (inj Some) in Hn.
  apply NoDup_cons in Hnd as [Hs Hnd]. destruct (NoDup_mid _ _ _ Hnd) as [_ H2].
  assert (n ∈ l2 ++ [s]) as Hin by (rewrite E2; set_solver).
  rewrite <-Hn, Hnx in Hin. set_solver.
Qed.

Lemma dll_alloc h s l x : dll h s l → x ∈ s :: l → is_Some (h !! x).
Proof.
  intros [Hl _] Hx. assert (∃ l1 l2, s :: l = l1 ++ x :: l2) as (l1 & l2 & E).
  { by apply list_elem_of_split. }
  change (s :: l ++ [s]) with ((s :: l) ++ [s]) in Hl. rewrite E, <-(assoc_L (++)) in Hl. simpl in Hl.
  apply links_app in Hl as [_ Hl]. destruct l2; destruct Hl as [[Hn _] _];
    apply fld_Some in Hn as (e & -> & _); done.
Qed.

(** One of the lists is relinked. *)
Lemma lists_relinked h h' s l o m :
  frame h h' (s :: l) → dll h' s l → (s = lru_ ∨ s = in_use_) →
  (∀ x e, x ∉ s :: l → h !! x = Some e → x ≠ lru_ → x ≠ in_use_ → next e ≠ x) → dll h o m →
  (∀ x, x ∈ o :: m → x ∉ s :: l) → dll h' o m ∧ no_self h'.
Proof.
  intros Hf Hd Hs Hself Hdo Hdis. split; [by eapply dll_frame|].
  intros x e Hx H1 H2. destruct (decide (x ∈ s :: l)) as [Hin|Hin].
  - apply elem_of_cons in Hin as [->|Hin]; [tauto|].
    exact (dll_no_self _ _ _ _ _ Hd Hin Hx).
  - destruct Hf as [_ Hf]. rewrite Hf in Hx by done. by apply Hself.
Qed.

Lemma lists_remove h L U a : lists h L U → a ∈ L ++ U →
  ∃ h', LRU_Remove h a = Some h' ∧ lists h' (rm a L) (rm a U) ∧
    unlink <$> h' = unlink <$> h ∧ h' !! a = h !! a.
Proof.
  intros [HL HU Hnd Hself] Ha. pose proof Hnd as [Hs1 [Hs2 Hnd2]%NoDup_cons]%NoDup_cons.
  apply NoDup_app in Hnd2 as (HndL & Hd & HndU).
  assert (Hnd' : NoDup (lru_ :: in_use_ :: rm a L ++ rm a U)).
  { unfold rm. rewrite <-filter_app. constructor; [|constructor].
    - rewrite elem_of_cons, list_elem_of_filter. set_solver.
    - rewrite list_elem_of_filter. set_solver.
    - apply NoDup_filter. by apply NoDup_app. }
  apply elem_of_app in Ha as [Ha|Ha]; pose proof Ha as (l1 & l2 & ->)%list_elem_of_split.
  - destruct (NoDup_mid _ _ _ HndL) as [Hl1 Hl2].
    destruct (LRU_Remove_spec h lru_ l1 a l2 HL) as (h' & E & Hd' & Hf).
    exists h'. rewrite rm_split in * by done. rewrite (rm_notin a U) in * by set_solver.
    destruct (lists_relinked h h' lru_ (l1 ++ l2) in_use_ U) as [HU' Hself']; auto; [set_solver|].
    split_and!; [done|by split|by destruct Hf|]. apply Hf. set_solver.
  - destruct (NoDup_mid _ _ _ HndU) as [Hl1 Hl2].
    destruct (LRU_Remove_spec h in_use_ l1 a l2 HU) as (h' & E & Hd' & Hf).
    exists h'. rewrite rm_split in * by done. rewrite (rm_notin a L) in * by set_solver.
    destruct (lists_relinked h h' in_use_ (l1 ++ l2) lru_ L) as [HL' Hself']; auto; [set_solver|].
    split_and!; [done|by split|by destruct Hf|]. apply Hf. set_solver.
Qed.

Lemma lists_append h L U a : lists h L U → a ∉ lru_ :: in_use_ :: L ++ U → is_Some (h !! a) →
  (∃ h', LRU_Append h in_use_ a = Some h' ∧ lists h' L (U ++ [a]) ∧ unlink <$> h' = unlink <$> h) ∧
  (∃ h', LRU_Append h lru_ a = Some h' ∧ lists h' (L ++ [a]) U ∧ unlink <$> h' = unlink <$> h).
Proof.
  intros [HL HU Hnd Hself] Ha Hs. pose proof Hnd as [Hs1 [Hs2 Hnd2]%NoDup_cons]%NoDup_cons.
  apply NoDup_app in Hnd2 as (HndL & Hd & HndU).
  assert (Hnd1 : NoDup (lru_ :: in_use_ :: L ++ U ++ [a])).
  { assert (lru_ :: in_use_ :: L ++ U ++ [a] ≡ₚ a :: lru_ :: in_use_ :: L ++ U) as ->
      by solve_Permutation. by constructor. }
  split.
  - destruct (LRU_Append_spec h in_use_ U a HU) as (h' & E & Hd' & Hf); [set_solver|done|].
    destruct (lists_relinked h h' in_use_ (U ++ [a]) lru_ L) as [HL' Hself']; auto; [set_solver|].
    exists h'. split_and!; [done|by split|by destruct Hf].
  - destruct (LRU_Append_spec h lru_ L a HL) as (h' & E & Hd' & Hf); [set_solver|done|].
    destruct (lists_relinked h h' lru_ (L ++ [a]) in_use_ U) as [HU' Hself']; auto; [set_solver|].
    exists h'. split_and!; [done| |by destruct Hf]. split; [done..| |done].
    by rewrite <-(assoc_L (++)), (Permutation_app_comm [a] U).
Qed.

(** Writing a member other than the links, and freeing an entry outside of the lists. *)
Lemma lists_set h L U a e f : lists h L U → h !! a = Some e →
  (∀ e, next (f e) = next e ∧ prev (f e) = prev e) → lists (<[a := f e]> h) L U.
Proof.
  intros [HL HU Hnd Hself] Ha Hf. destruct (Hf e) as [Hn Hp].
  assert (Hdll : ∀ s l, dll h s l → dll (<[a := f e]> h) s l).
  { intros s l [Hl Hd]. split; [|done]. eapply links_frame; [exact Hl|..]; intros x _;
      by apply (fld_update_same _ h a e). }
  split; auto. intros x ex [[<- <-]|[_ Hx]]%lookup_insert_Some H1 H2;
    [rewrite Hn; by apply Hself|by apply Hself].
Qed.

Lemma lists_delete h L U a : lists h L U → a ∉ lru_ :: in_use_ :: L ++ U → lists (delete a h) L U.
Proof.
  intros [HL HU Hnd Hself] Ha.
  assert (Hdll : ∀ s l, dll h s l → a ∉ s :: l → dll (delete a h) s l).
  { intros s l [Hl Hd] Hal. split; [|done].
    assert (Hfld : ∀ (g : LRUEntry → ptr) x, x ∈ s :: l → fld g (delete a h) x = fld g h x).
    { intros g x Hx. unfold fld. rewrite lookup_delete_ne; [done|]. by intros ->. }
    eapply links_frame; [exact Hl|..]; intros x Hx; apply Hfld.
    - change (s :: l ++ [s]) with ((s :: l) ++ [s]) in Hx. by rewrite removelast_last in Hx.
    - simpl in Hx. set_solver. }
  split; auto; [apply Hdll; [done|set_solver]..|].
  intros x ex [_ Hx]%lookup_delete_Some. by apply Hself.
Qed.

(** A list of the table is kept when keys, hashes and [next_hash] are. *)
Definition tview (e : LRUEntry) : ptr * Z * Slice := (next_hash e, hash e, key_data e).

Lemma table_frame h h' t T : table_has h t T → no_self h' →
  (∀ a, a ∈ T → a ≠ lru_ ∧ a ≠ in_use_ ∧ tview <$> h' !! a = tview <$> h !! a) → table_has h' t T.
Proof.
  intros (bs & Ht & Hl) Hs' Hv. exists bs. split; [|done].
  destruct Ht as [Hlen Hlist He Hch Hnd Hpl].
  assert (Hin : ∀ i b a, bs !! i = Some b → a ∈ b → a ∈ T).
  { intros i b a Hi Ha. rewrite <-Hl. apply elem_of_buckets. eauto. }
  split; try done.
  - apply Forall2_same_length_lookup. split; [by apply Forall2_length in Hch|].
    intros i p b Hi Hb. apply (chain_frame h); [|by eapply Forall2_lookup_lr].
    intros a Ha. destruct (Hv a (Hin _ _ _ Hb Ha)) as (_ & _ & E). unfold fld, tview in *.
    destruct (h' !! a), (h !! a); simplify_eq/=; congruence.
  - intros i b a Hb Ha. destruct (Hpl i b a Hb Ha) as (k & hs & Hi & Hm). exists k, hs. split; [|done].
    destruct (Hv a (Hin _ _ _ Hb Ha)) as (H1 & H2 & E). rewrite <-Hi. unfold info, tview, key in *.
    destruct (h' !! a) as [e'|] eqn:E', (h !! a) as [e|] eqn:E0; simplify_eq/=.
    rewrite (proj2 (Z.eqb_neq _ _)) by (by apply (Hs' a)).
    destruct (next e =? a); simplify_eq/=. congruence.
Qed.

(** ** Ingredients of the refinement *)

Definition listed (A : acache) : list ptr := a_lru A ++ a_used A.

Lemma item_entry_ext A A' a it : (a ∈ listed A' ↔ a ∈ listed A) →
  item_entry A' a it = item_entry A a it.
Proof. intros E. unfold item_entry. by rewrite (bool_decide_ext _ _ E). Qed.

Lemma unlink_views (h h' : heap) a : unlink <$> h' = unlink <$> h →
  core <$> h' !! a = core <$> h !! a ∧ tview <$> h' !! a = tview <$> h !! a.
Proof.
  intros E. apply (f_equal (.!! a)) in E. rewrite !lookup_fmap in E.
  destruct (h' !! a) as [e'|], (h !! a) as [e|]; try done. simpl in *. apply (inj Some) in E.
  unfold core, tview. rewrite E. split; [done|]. destruct e, e'. unfold unlink in E. simpl in *.
  by simplify_eq.
Qed.

Lemma strip_views h h' a : strip h' = strip h →
  core <$> h' !! a = core <$> h !! a ∧ (∀ e', h' !! a = Some e' →
    ∃ e, h !! a = Some e ∧ next e' = next e ∧ prev e' = prev e) ∧
  fld next h' a = fld next h a ∧ fld prev h' a = fld prev h a.
Proof.
  intros E. apply (f_equal (.!! a)) in E. unfold strip in E. rewrite !lookup_fmap in E. unfold fld.
  destruct (h' !! a) as [e'|], (h !! a) as [e|]; try done. simpl in *. apply (inj Some) in E.
  destruct e, e'. unfold set_next_hash in E. simpl in *. injection E; intros; subst.
  split; [done|]. split; [|done]. intros e' [= <-]. simpl. eauto.
Qed.

Lemma lists_strip h h' L U : strip h' = strip h → lists h L U → lists h' L U.
Proof.
  intros E [HL HU Hnd Hself].
  assert (Hdll : ∀ s l, dll h s l → dll h' s l).
  { intros s l [Hl Hd]. split; [|done].
    eapply links_frame; [exact Hl|..]; intros x _; by apply (strip_views h h' x E). }
  split; auto. intros a e' Ha H1 H2. destruct (strip_views h h' a E) as (_ & Hv & _).
  destruct (Hv e' Ha) as (e & He & -> & _). by apply Hself.
Qed.

Lemma a_find_hit A k hs a : (∀ x, x ∈ listed A → a_id A x = a_id A a → x = a) → a ∈ listed A →
  a_id A a = Some (k, hs) → a_find A k hs = a.
Proof.
  intros Hu Ha Hid. unfold a_find. fold (listed A).
  assert (Hf : a ∈ filter (λ a, a_id A a = Some (k, hs)) (listed A)) by (by apply list_elem_of_filter).
  destruct (filter _ (listed A)) as [|b l] eqn:E; [by apply elem_of_nil in Hf|]. simpl.
  assert (Hb : b ∈ filter (λ a, a_id A a = Some (k, hs)) (listed A)) by (rewrite E; set_solver).
  apply list_elem_of_filter in Hb as [Hb1 Hb2]. apply Hu; [done|]. by rewrite Hid.
Qed.

Lemma a_find_miss A k hs : (∀ a, a ∈ listed A → a_id A a ≠ Some (k, hs)) → a_find A k hs = nullptr.
Proof.
  intros Hn. unfold a_find. fold (listed A).
  destruct (filter _ (listed A)) as [|b l] eqn:E; [done|].
  assert (Hb : b ∈ filter (λ a, a_id A a = Some (k, hs)) (listed A)) by (rewrite E; set_solver).
  apply list_elem_of_filter in Hb as [Hb1 Hb2]. by destruct (Hn b).
Qed.

Section reps.
Context (T : list ptr) (c : LRUCache) (A : acache) (Hrep : rep_with T c A).

(** The entry of an item. *)
Lemma rep_entry a it : a_items A !! a = Some it →
  ∃ e, hp c !! a = Some e ∧ core e = item_entry A a it ∧ next e ≠ a ∧
    value e = i_value it ∧ hash e = i_hash it ∧ key_data e = i_key it ∧
    in_cache e = bool_decide (a ∈ listed A) ∧
    refs e = i_handles it + (if bool_decide (a ∈ listed A) then 1 else 0).
Proof.
  intros Hit. destruct (r_handles _ _ _ Hrep a it Hit) as (_ & H1 & H2 & _).
  pose proof (r_same _ _ _ Hrep a H1 H2) as Hs. rewrite Hit in Hs.
  destruct (hp c !! a) as [e|] eqn:He; [|done]. simpl in Hs. apply (inj Some) in Hs.
  exists e. split_and!; [done|done|by apply (ls_self _ _ _ (r_lists _ _ _ Hrep))|..];
    unfold core, item_entry, listed in *; injection Hs; auto.
Qed.

(** Matching in the table is having the key and the hash. *)
Lemma rep_matches a it k hs : a_items A !! a = Some it →
  matches (hp c) k hs a ↔ a_id A a = Some (k, hs).
Proof.
  intros Hit. destruct (rep_entry a it Hit) as (e & He & _ & Hn & _ & Hh & Hk & _).
  unfold matches, info, key, a_id. rewrite He, Hit. simpl. rewrite (proj2 (Z.eqb_neq _ _)) by done.
  simpl. rewrite Hh, Hk. done.
Qed.

Lemma rep_nodup : NoDup (listed A).
Proof.
  pose proof (ls_nodup _ _ _ (r_lists _ _ _ Hrep)) as H.
  by apply NoDup_cons in H as [_ [_ H]%NoDup_cons].
Qed.

Lemma rep_not_null a : a ∈ listed A → a ≠ nullptr ∧ a ≠ lru_ ∧ a ≠ in_use_.
Proof.
  intros Ha. destruct (r_listed _ _ _ Hrep a Ha) as [it Hit].
  destruct (r_handles _ _ _ Hrep a it Hit) as (? & ? & ? & _). done.
Qed.

Lemma rep_disjoint a : a ∈ a_lru A → a ∉ a_used A.
Proof. pose proof rep_nodup as H. unfold listed in H. apply NoDup_app in H as (_ & H & _). apply H. Qed.
End reps.

(** The table operations change the representation of the table only. *)
Lemma rep_retable T T' c A h' t' : rep_with T c A → strip h' = strip (hp c) →
  table_has h' t' T' → (∀ a, a ∈ T' → a ∈ listed A) →
  (∀ a b, a ∈ T' → b ∈ T' → a_id A a = a_id A b → a = b) → rep_with T' (with_table c h' t') A.
Proof.
  intros [] Hs Ht Hsub Hk. split; simpl; try done.
  - by eapply lists_strip.
  - intros a H1 H2. destruct (strip_views _ _ a Hs) as [-> _]. by apply r_same0.
Qed.

(** One item changes: its counters and the list it is in. *)
Lemma rep_step T c A h' L' U' u a it it' e' :
  let A' := mkA (a_cap A) L' U' (<[a := it']> (a_items A)) (a_deleted A) in
  rep_with T c A → a_items A !! a = Some it → lists h' L' U' →
  (∀ x, x ≠ a → core <$> h' !! x = core <$> hp c !! x) →
  (∀ x, x ∈ T → tview <$> h' !! x = tview <$> hp c !! x) →
  h' !! a = Some e' → core e' = item_entry A' a it' →
  i_key it' = i_key it → i_hash it' = i_hash it →
  0 ≤ i_handles it' < 2 ^ 32 - 1 → (i_handles it' = 0 ↔ a ∈ L') →
  (∀ x, x ≠ a → x ∈ L' ↔ x ∈ a_lru A) → (∀ x, x ≠ a → x ∈ L' ++ U' ↔ x ∈ listed A) →
  (a ∈ L' ++ U' → a ∈ listed A) → u = a_usage A' → (∀ x, x ∈ T → x ∈ L' ++ U') →
  rep_with T (mkCache (capacity_ c) u h' (table_ c) (deleted c)) A'.
Proof.
  intros A' Hr Hit Hls Hcore Htv Ha He' Hk Hh Hn Hz HL HLU HaLU Hu Hsub.
  assert (Hin : ∀ x, x ∈ listed A' → x ∈ listed A).
  { intros x Hx. destruct (decide (x = a)) as [->|]; [by apply HaLU|by apply HLU]. }
  assert (Hid : ∀ x, a_id A' x = a_id A x).
  { intros x. unfold a_id, A'. simpl. destruct (decide (x = a)) as [->|].
    - rewrite lookup_insert_eq, Hit. simpl. by rewrite Hk, Hh.
    - by rewrite lookup_insert_ne. }
  pose proof Hr as []. split; simpl; try done.
  - intros x H1 H2. simpl. destruct (decide (x = a)) as [->|Hne].
    + rewrite lookup_insert_eq, Ha. simpl. by rewrite He'.
    + rewrite lookup_insert_ne, Hcore, r_same0 by done.
      destruct (a_items A !! x) as [ix|]; [|done]. simpl. f_equal. symmetry. by apply item_entry_ext, HLU.
  - apply (table_frame (hp c)); [done|apply Hls|]. intros x Hx.
    destruct (rep_not_null T c A Hr x (r_sub0 x Hx)) as (_ & ? & ?). auto.
  - intros x ix [[<- <-]|[Hne Hx]]%lookup_insert_Some.
    + destruct (r_handles0 a it Hit) as (? & ? & ? & _). done.
    + rewrite HL by done. by apply r_handles0.
  - intros x Hx. destruct (decide (x = a)) as [->|]; [rewrite lookup_insert_eq; eauto|].
    rewrite lookup_insert_ne by done. by apply r_listed0, Hin.
  - intros x y Hx Hy. rewrite !Hid. by apply r_keys0.
Qed.

(** An item without handles goes. *)
Lemma cache_rep_free T c A a it h' L' U' u :
  let A1 := mkA (a_cap A) L' U' (a_items A) (a_deleted A) in
  rep_with T c A → a_items A !! a = Some it → lists h' L' U' →
  (∀ x, x ≠ a → core <$> h' !! x = core <$> hp c !! x) →
  (∀ x, x ∈ T → tview <$> h' !! x = tview <$> hp c !! x) → h' !! a = None →
  (∀ x, x ≠ a → x ∈ L' ↔ x ∈ a_lru A) → (∀ x, x ∈ L' ++ U' ↔ x ∈ listed A ∧ x ≠ a) → a ∉ T →
  u = a_usage A1 →
  rep_with T (mkCache (capacity_ c) u h' (table_ c) (deleted c ++ [(i_key it, i_value it)]))
    (a_free A1 a).
Proof.
  intros A1 Hr Hit Hls Hcore Htv Ha HL HLU HaT Hu. pose proof Hr as [].
  assert (Hid : ∀ x, x ≠ a → a_id (a_free A1 a) x = a_id A x).
  { intros x Hx. unfold a_id. simpl. by rewrite lookup_delete_ne. }
  split; simpl; try done.
  - rewrite Hit. simpl. by rewrite r_deleted0.
  - intros x H1 H2. simpl. destruct (decide (x = a)) as [->|].
    + by rewrite Ha, lookup_delete_eq.
    + rewrite lookup_delete_ne, Hcore, r_same0 by done.
      destruct (a_items A !! x) as [ix|]; [|done]. simpl. f_equal. symmetry.
      apply item_entry_ext. unfold listed at 1. simpl. rewrite HLU. tauto.
  - apply (table_frame (hp c)); [done|apply Hls|]. intros x Hx.
    destruct (rep_not_null T c A Hr x (r_sub0 x Hx)) as (_ & ? & ?). auto.
  - intros x Hx. apply HLU. split; [by apply r_sub0|congruence].
  - intros x ix [Hne Hx]%lookup_delete_Some. rewrite HL by done. by apply r_handles0.
  - intros x [Hx Hne]%HLU. rewrite lookup_delete_ne by done. by apply r_listed0.
  - intros x y Hx Hy. rewrite !Hid by congruence. by apply r_keys0.
Qed.

Lemma alter_as_insert (m : gmap Z item) a it f : m !! a = Some it → alter f a m = <[a := f it]> m.
Proof.
  intros Ha. apply map_eq. intros x. destruct (decide (x = a)) as [->|].
  - by rewrite lookup_alter_eq, lookup_insert_eq, Ha.
  - by rewrite lookup_alter_ne, lookup_insert_ne.
Qed.

Lemma core_set_refs e n : core (set_refs n e) =
  mkEntry (value e) 0 0 0 n (hash e) (in_cache e) (key_data e).
Proof. done. Qed.

Lemma views_insert_ne (h h' : heap) a e x : unlink <$> h' = unlink <$> h → x ≠ a →
  core <$> <[a := e]> h' !! x = core <$> h !! x ∧ tview <$> <[a := e]> h' !! x = tview <$> h !! x.
Proof. intros Hu Hx. rewrite lookup_insert_ne by done. by apply unlink_views. Qed.

Lemma unlink_lookup (h h' : heap) a e : unlink <$> h' = unlink <$> h → h !! a = Some e →
  ∃ e', h' !! a = Some e' ∧ core e' = core e ∧ tview e' = tview e.
Proof.
  intros Hu Ha. destruct (unlink_views _ _ a Hu) as [E1 E2]. rewrite Ha in E1, E2.
  destruct (h' !! a) as [e'|]; [|done]. simpl in *. exists e'. split; [done|].
  by apply (inj Some) in E1, E2.
Qed.

Lemma core_fields e e' : core e' = core e → refs e' = refs e ∧ in_cache e' = in_cache e ∧
  value e' = value e ∧ hash e' = hash e ∧ key_data e' = key_data e.
Proof. destruct e, e'. unfold core, unlink. simpl. intros E. by injection E. Qed.

(** Moving an entry between the lists. *)
Lemma lists_move h L U a : lists h L U →
  (a ∈ L → ∃ h', (h1 ← LRU_Remove h a; LRU_Append h1 in_use_ a) = Some h' ∧
     lists h' (rm a L) (U ++ [a]) ∧ unlink <$> h' = unlink <$> h) ∧
  (a ∈ U → ∃ h', (h1 ← LRU_Remove h a; LRU_Append h1 lru_ a) = Some h' ∧
     lists h' (L ++ [a]) (rm a U) ∧ unlink <$> h' = unlink <$> h).
Proof.
  intros Hls. pose proof Hls as [HL HU Hnd _].
  pose proof Hnd as [Hs1 [Hs2 Hnd2]%NoDup_cons]%NoDup_cons. apply NoDup_app in Hnd2 as (_ & Hd & _).
  assert (Hstep : a ∈ L ++ U → ∃ h1, LRU_Remove h a = Some h1 ∧ lists h1 (rm a L) (rm a U) ∧
    unlink <$> h1 = unlink <$> h ∧ (a ∉ lru_ :: in_use_ :: rm a L ++ rm a U) ∧ is_Some (h1 !! a)).
  { intros Ha. destruct (lists_remove h L U a Hls Ha) as (h1 & E & Hls1 & Hu & Hsame).
    exists h1. split_and!; [done..| |].
    - rewrite !elem_of_cons, elem_of_app, !elem_of_rm. set_solver.
    - rewrite Hsame. apply elem_of_app in Ha as [Ha|Ha]; [apply (dll_alloc _ _ _ _ HL)|apply (dll_alloc _ _ _ _ HU)];
        set_solver. }
  split; intros Ha; (destruct Hstep as (h1 & -> & Hls1 & Hu1 & Hn & Hs); [set_solver|]);
    destruct (lists_append h1 _ _ a Hls1 Hn Hs) as [(h2 & E2 & Hls2 & Hu2) (h3 & E3 & Hls3 & Hu3)];
    simpl.
  - exists h2. rewrite (rm_notin a U) in Hls2 by set_solver. split_and!; [done..|congruence].
  - exists h3. rewrite (rm_notin a L) in Hls3 by set_solver. split_and!; [done..|congruence].
Qed.

Lemma elem_of_moved a L U x : a ∈ L → x ∈ rm a L ++ U ++ [a] ↔ x ∈ L ++ U.
Proof.
  intros Ha. rewrite !elem_of_app, elem_of_rm, list_elem_of_singleton.
  destruct (decide (x = a)) as [->|]; tauto.
Qed.

Lemma length_rm a l : NoDup l → a ∈ l → Z.of_nat (length (rm a l)) = Z.of_nat (length l) - 1.
Proof. intros Hnd Ha. pose proof (Permutation_length (rm_perm a l Hnd Ha)). simpl in *. lia. Qed.

(** The first half of [Ref]: an entry that nobody holds moves to [in_use_]. *)
Lemma ref_move T c A a it e : rep_with T c A → a_items A !! a = Some it → a ∈ listed A →
  hp c !! a = Some e →
  ∃ h2, (if (refs e =? 1) && in_cache e then h ← LRU_Remove (hp c) a; LRU_Append h in_use_ a
         else Some (hp c)) = Some h2 ∧
    lists h2 (a_lru (a_ref A a)) (a_used (a_ref A a)) ∧ unlink <$> h2 = unlink <$> hp c.
Proof.
  intros Hr Hit Ha He. pose proof Hr as [_ _ _ Hls _ _ _ Hhand _ _].
  destruct (rep_entry T c A Hr a it Hit) as (e2 & He2 & _ & _ & _ & _ & _ & Hin & Hrefs).
  rewrite bool_decide_eq_true_2 in Hin, Hrefs by done. simplify_eq.
  destruct (Hhand a it Hit) as (_ & _ & _ & Hrange & Hz).
  unfold a_ref. rewrite Hin, Hrefs, andb_true_r. case_bool_decide as HaL; simpl.
  - rewrite (proj2 (Z.eqb_eq _ 1)) by (rewrite (proj2 Hz HaL); done).
    by apply lists_move.
  - rewrite (proj2 (Z.eqb_neq _ 1)) by (intros E; apply HaL, Hz; lia). by exists (hp c).
Qed.

Lemma a_ref_shape T c A a it : rep_with T c A → a_items A !! a = Some it → a ∈ listed A →
  ∃ L' U', a_ref A a = mkA (a_cap A) L' U' (<[a := add_handles 1 it]> (a_items A)) (a_deleted A) ∧
    (a ∉ L') ∧ (∀ x, x ≠ a → x ∈ L' ↔ x ∈ a_lru A) ∧ (∀ x, x ∈ L' ++ U' ↔ x ∈ listed A) ∧
    length (L' ++ U') = length (listed A).
Proof.
  intros Hr Hit Ha. pose proof (rep_nodup T c A Hr) as Hnd. unfold listed in *.
  pose proof Hnd as (HndL & Hdis & HndU)%NoDup_app.
  unfold a_ref. rewrite (alter_as_insert _ _ it) by done. case_bool_decide as HaL.
  - do 2 eexists. split; [done|]. split_and!.
    + rewrite elem_of_rm. tauto.
    + intros x Hx. rewrite elem_of_rm. tauto.
    + intros x. by apply elem_of_moved.
    + rewrite (rm_perm a (a_lru A)) at 2 by done. simpl. rewrite !length_app. simpl. lia.
  - by exists (a_lru A), (a_used A).
Qed.

Lemma Ref_spec T c A a it : rep_with T c A → a_items A !! a = Some it → a ∈ listed A →
  i_handles it + 1 < 2 ^ 32 - 1 →
  ∃ h', Ref (hp c) a = Some h' ∧ rep_with T (with_heap c h') (a_ref A a).
Proof.
  intros Hr Hit Ha Hmax.
  destruct (rep_entry T c A Hr a it Hit) as (e & He & _ & _ & Hv & Hh & Hk & Hin & Hrefs).
  rewrite bool_decide_eq_true_2 in Hin, Hrefs by done.
  destruct (r_handles _ _ _ Hr a it Hit) as (_ & _ & _ & Hrange & _).
  destruct (ref_move T c A a it e Hr Hit Ha He) as (h2 & E2 & Hls2 & Hu2).
  destruct (a_ref_shape T c A a it Hr Hit Ha) as (L' & U' & EA & HnL & HL & HLU & Hlen).
  rewrite EA in *. simpl in Hls2.
  destruct (unlink_lookup _ _ a e Hu2 He) as (e2 & He2 & Hc2 & Ht2).
  apply core_fields in Hc2 as (Hr2 & Hi2 & Hv2 & Hh2 & Hk2).
  exists (<[a := set_refs (refs e + 1) e2]> h2). split.
  { unfold Ref. rewrite He. simpl. rewrite E2. simpl. rewrite He2. simpl.
    rewrite (update_spec _ _ _ _ He2), Hr2. rewrite (uwrap_small 32) by lia. done. }
  apply (rep_step T c A _ L' U' (usage_ c) a it _ (set_refs (refs e + 1) e2)); simpl; try done.
  - by apply (lists_set h2 L' U' a e2 (set_refs (refs e + 1))).
  - intros x Hx. by apply views_insert_ne.
  - intros x _. destruct (decide (x = a)) as [->|]; [|by apply views_insert_ne].
    rewrite lookup_insert_eq, He. simpl. f_equal. done.
  - apply lookup_insert_eq.
  - rewrite core_set_refs, Hv2, Hh2, Hk2, Hi2, Hv, Hh, Hk, Hin, Hrefs. unfold item_entry. simpl.
    rewrite bool_decide_eq_true_2 by (by apply HLU). done.
  - lia.
  - split; [lia|done].
  - rewrite (r_usage _ _ _ Hr). unfold a_usage. simpl. unfold listed in Hlen. lia.
  - intros x Hx. apply HLU. by apply (r_sub _ _ _ Hr).
Qed.

(** The count of [Unref], then its three outcomes. *)
Lemma Unref_unfold c a e : hp c !! a = Some e → 0 < refs e < 2 ^ 32 → next e ≠ a →
  Unref c a =
    (let h := <[a := set_refs (refs e - 1) e]> (hp c) in
     if refs e - 1 =? 0 then
       if in_cache e then None else
       Some (mkCache (capacity_ c) (usage_ c) (delete a h) (table_ c)
         (deleted c ++ [(key_data e, value e)]))
     else if in_cache e && (refs e - 1 =? 1) then
       h ← (h ← LRU_Remove h a; LRU_Append h lru_ a); Some (with_heap c h)
     else Some (with_heap c h)).
Proof.
  intros He Hr Hn. unfold Unref. rewrite He. simpl.
  rewrite (proj2 (Z.ltb_lt 0 (refs e))) by lia. simpl.
  rewrite (update_spec _ _ _ _ He), (uwrap_small 32) by lia. simpl.
  rewrite lookup_insert_eq. simpl. unfold key. simpl. rewrite (proj2 (Z.eqb_neq (next e) a)) by done.
  destruct (refs e - 1 =? 0); [by destruct (in_cache e)|].
  destruct (in_cache e && (refs e - 1 =? 1)); [|done]. by destruct (LRU_Remove _ a).
Qed.

(** A cached or erased entry with one handle more or less, which stays where it is. *)
Lemma rep_count T c A a it e n : rep_with T c A → a_items A !! a = Some it → hp c !! a = Some e →
  0 < i_handles it + n < 2 ^ 32 - 1 → a ∉ a_lru A →
  rep_with T (with_heap c (<[a := set_refs (refs e + n) e]> (hp c)))
    (mkA (a_cap A) (a_lru A) (a_used A) (<[a := add_handles n it]> (a_items A)) (a_deleted A)).
Proof.
  intros Hr Hit He Hn HaL.
  destruct (rep_entry T c A Hr a it Hit) as (e2 & He2 & _ & _ & Hv & Hh & Hk & Hin & Hrefs).
  simplify_eq.
  apply (rep_step T c A _ _ _ (usage_ c) a it _ (set_refs (refs e + n) e)); simpl; try done.
  - apply (lists_set (hp c) _ _ a e (set_refs (refs e + n))); [apply Hr|done..].
  - intros x Hx. by apply views_insert_ne.
  - intros x _. destruct (decide (x = a)) as [->|]; [|by apply views_insert_ne].
    by rewrite lookup_insert_eq, He.
  - apply lookup_insert_eq.
  - rewrite core_set_refs, Hv, Hh, Hk, Hin, Hrefs. unfold item_entry, listed. simpl. f_equal. lia.
  - lia.
  - split; [lia|done].
  - apply Hr.
  - apply Hr.
Qed.

(** The last handle of a cached entry: it becomes the youngest of [lru_]. *)
Lemma rep_park T c A a it e : rep_with T c A → a_items A !! a = Some it → hp c !! a = Some e →
  i_handles it = 1 → a ∈ a_used A →
  ∃ h2, (h ← LRU_Remove (<[a := set_refs 1 e]> (hp c)) a; LRU_Append h lru_ a) = Some h2 ∧
    rep_with T (with_heap c h2)
      (mkA (a_cap A) (a_lru A ++ [a]) (rm a (a_used A)) (<[a := add_handles (-1) it]> (a_items A))
        (a_deleted A)).
Proof.
  intros Hr Hit He Hn HaU.
  destruct (rep_entry T c A Hr a it Hit) as (e2 & He2 & _ & _ & Hv & Hh & Hk & Hin & _).
  assert (Ha : a ∈ listed A) by (unfold listed; set_solver).
  rewrite bool_decide_eq_true_2 in Hin by done. simplify_eq.
  pose proof (rep_nodup T c A Hr) as (HndL & Hdis & HndU)%NoDup_app.
  assert (Hls1 : lists (<[a := set_refs 1 e]> (hp c)) (a_lru A) (a_used A))
    by (apply (lists_set (hp c) _ _ a e (set_refs 1)); [apply Hr|done..]).
  destruct (proj2 (lists_move _ _ _ a Hls1) HaU) as (h2 & E2 & Hls2 & Hu2).
  destruct (unlink_lookup _ _ a _ Hu2 (lookup_insert_eq _ _ _)) as (e2 & He2' & Hc2 & Ht2).
  assert (Hmv : ∀ x, x ∈ (a_lru A ++ [a]) ++ rm a (a_used A) ↔ x ∈ listed A).
  { intros x. unfold listed. rewrite !elem_of_app, elem_of_rm, list_elem_of_singleton.
    destruct (decide (x = a)) as [->|]; tauto. }
  exists h2. split; [done|].
  apply (rep_step T c A h2 _ _ (usage_ c) a it _ e2); simpl; try done.
  - intros x Hx. destruct (unlink_views _ _ x Hu2) as [-> _]. by rewrite lookup_insert_ne.
  - intros x _. destruct (unlink_views _ _ x Hu2) as [_ ->].
    destruct (decide (x = a)) as [->|]; [by rewrite lookup_insert_eq, He|by rewrite lookup_insert_ne].
  - rewrite Hc2, core_set_refs, Hv, Hh, Hk, Hin. unfold item_entry. simpl.
    rewrite bool_decide_eq_true_2 by (by apply Hmv). rewrite Hn. done.
  - lia.
  - split; [set_solver|lia].
  - intros x Hx. rewrite elem_of_app, list_elem_of_singleton. tauto.
  - rewrite (r_usage _ _ _ Hr). unfold a_usage. simpl. rewrite !length_app. simpl.
    pose proof (length_rm a _ HndU HaU). lia.
  - intros x Hx. apply Hmv. by apply (r_sub _ _ _ Hr).
Qed.

Lemma rep_perm T T' c A : rep_with T c A → T ≡ₚ T' → rep_with T' c A.
Proof.
  intros [] HT. split; try done.
  - destruct r_table0 as (bs & Ht & Hp). exists bs. split; [done|]. by rewrite Hp.
  - intros a Ha. rewrite <-HT in Ha. by apply r_sub0.
  - intros a b. rewrite <-HT. apply r_keys0.
Qed.

(** An erased entry that nobody holds any more is freed. *)
Lemma rep_drop T c A a it e : rep_with T c A → a_items A !! a = Some it → hp c !! a = Some e →
  a ∉ listed A →
  rep_with T (mkCache (capacity_ c) (usage_ c) (delete a (hp c)) (table_ c)
    (deleted c ++ [(i_key it, i_value it)])) (a_free A a).
Proof.
  intros Hr Hit He Ha. destruct (r_handles _ _ _ Hr a it Hit) as (_ & H1 & H2 & _).
  assert (Hne : ∀ x, x ∈ T → x ≠ a) by (intros x Hx ->; apply Ha; by apply (r_sub _ _ _ Hr)).
  pose proof (cache_rep_free T c A a it (delete a (hp c)) (a_lru A) (a_used A) (usage_ c)) as Hf.
  destruct A as [cap L U items del]. simpl in *. apply Hf; try done.
  - apply lists_delete; [apply Hr|]. unfold listed in Ha. simpl in Ha. set_solver.
  - intros x Hx. by rewrite lookup_delete_ne.
  - intros x Hx. rewrite lookup_delete_ne; [done|]. specialize (Hne x Hx). congruence.
  - apply lookup_delete_eq.
  - intros x. split; [|tauto]. intros Hx. split; [done|]. intros ->. by apply Ha.
  - intros HaT. by apply (Hne a).
  - apply Hr.
Qed.

Lemma Release_spec c A a it : rep c A → a_items A !! a = Some it → 0 < i_handles it →
  ∃ c', Release c a = Some c' ∧ rep c' (a_unref A a).
Proof.
  intros Hr Hit Hpos.
  destruct (rep_entry _ c A Hr a it Hit) as (e & He & _ & Hself & Hv & Hh & Hk & Hin & Hrefs).
  destruct (r_handles _ _ _ Hr a it Hit) as (_ & H1 & H2 & Hrange & Hz).
  assert (HaL : a ∉ a_lru A) by (intros HaL; apply Hz in HaL; lia).
  assert (Hlist : a ∈ listed A ↔ a ∈ a_used A) by (unfold listed; set_solver).
  unfold Release. rewrite (Unref_unfold c a e) by (done || case_bool_decide; lia). simpl.
  unfold a_unref. simpl. rewrite (alter_as_insert _ _ it), lookup_insert_eq by done. simpl.
  rewrite (bool_decide_ext _ _ Hlist) in Hin, Hrefs. rewrite Hin.
  destruct (decide (i_handles it = 1)) as [E1|E1].
  - rewrite (bool_decide_eq_true_2 (Some _ = _)) by (f_equal; lia).
    case_bool_decide as HaU; rewrite Hrefs, E1; simpl.
    + destruct (rep_park _ c A a it e Hr Hit He E1 HaU) as (h2 & E2 & Hr2).
      change (1 + 1 - 1) with 1. rewrite E2. simpl. eexists. split; [done|].
      eapply rep_perm; [exact Hr2|]. simpl. rewrite <-(assoc_L (++)). simpl.
      pose proof (rep_nodup _ c A Hr) as (_ & _ & HndU)%NoDup_app. by rewrite <-(rm_perm a (a_used A)).
    + rewrite Hk, Hv, delete_insert_eq. eexists. split; [done|].
      unfold a_free. simpl. rewrite lookup_insert_eq, delete_insert_eq. simpl.
      pose proof (rep_drop _ c A a it e Hr Hit He ltac:(by rewrite Hlist)) as Hd.
      unfold a_free in Hd. by rewrite Hit in Hd.
  - rewrite (bool_decide_eq_false_2 (Some _ = _)) by (intros [=]; lia).
    rewrite (proj2 (Z.eqb_neq _ 0)) by (case_bool_decide; lia).
    pose proof (rep_count _ c A a it e (-1) Hr Hit He ltac:(lia) HaL) as Hc.
    replace (refs e + -1) with (refs e - 1) in Hc by lia.
    case_bool_decide; simpl; [rewrite (proj2 (Z.eqb_neq _ 1)) by lia|]; eauto.
Qed.

Lemma elem_of_erased a L U x : NoDup (L ++ U) →
  (x ∈ rm a L ++ rm a U ↔ x ∈ L ++ U ∧ x ≠ a).
Proof. intros _. rewrite !elem_of_app, !elem_of_rm. tauto. Qed.

Lemma a_erase_usage A a : NoDup (listed A) → a ∈ listed A →
  Z.of_nat (length (rm a (a_lru A) ++ rm a (a_used A))) = a_usage A - 1.
Proof.
  intros Hnd Ha. unfold a_usage, listed in *. unfold rm. rewrite <-filter_app. by apply length_rm.
Qed.

Lemma FinishErase_spec T c A a : rep_with T c A → a ∈ listed A → a ∉ T → a_usage A < 2 ^ 64 →
  ∃ c', FinishErase c a = Some (true, c') ∧ rep_with T c' (a_erase A a).
Proof.
  intros Hr Ha HaT Hmax. destruct (r_listed _ _ _ Hr a Ha) as [it Hit].
  destruct (rep_entry T c A Hr a it Hit) as (e & He & _ & Hself & Hv & Hh & Hk & Hin & Hrefs).
  rewrite bool_decide_eq_true_2 in Hin, Hrefs by done.
  destruct (r_handles _ _ _ Hr a it Hit) as (H0 & H1 & H2 & Hrange & Hz).
  pose proof (rep_nodup T c A Hr) as Hnd. pose proof (a_erase_usage A a Hnd Ha) as Hus.
  pose proof Hnd as (HndL & Hdis & HndU)%NoDup_app.
  destruct (lists_remove (hp c) _ _ a (r_lists _ _ _ Hr) Ha) as (h1 & E1 & Hls1 & Hu1 & Hsame).
  rewrite He in Hsame. unfold FinishErase. rewrite (proj2 (Z.eqb_neq a 0)) by done.
  rewrite He. simpl. rewrite Hin. simpl. rewrite E1. simpl. rewrite (update_spec _ _ _ _ Hsame). simpl.
  rewrite (r_usage _ _ _ Hr), (uwrap_small 64) by lia.
  rewrite (Unref_unfold _ a (set_in_cache false e));
    [|apply lookup_insert_eq|simpl; lia|done]. simpl. rewrite insert_insert_eq.
  assert (Hmove : ∀ x, x ∈ rm a (a_lru A) ++ rm a (a_used A) ↔ x ∈ listed A ∧ x ≠ a)
    by (intros x; by apply elem_of_erased).
  assert (Hother : ∀ x, x ≠ a → core <$> h1 !! x = core <$> hp c !! x ∧
    tview <$> h1 !! x = tview <$> hp c !! x) by (intros x _; by apply unlink_views).
  unfold a_erase. case_bool_decide as HaL.
  - rewrite (rm_notin a (a_used A)) in * by (by apply Hdis).
    rewrite Hrefs, (proj2 Hz HaL). simpl. rewrite delete_insert_eq, Hk, Hv.
    eexists. split; [done|]. apply cache_rep_free; try done.
    + apply lists_delete; [done|]. rewrite !elem_of_cons, Hmove. tauto.
    + intros x Hx. rewrite lookup_delete_ne by done. by apply Hother.
    + intros x Hx. rewrite lookup_delete_ne by congruence. by apply unlink_views.
    + apply lookup_delete_eq.
    + intros x Hx. rewrite elem_of_rm. tauto.
  - rewrite (rm_notin a (a_lru A)) in * by done.
    assert (i_handles it ≠ 0) by tauto. rewrite (proj2 (Z.eqb_neq _ 0)) by lia.
    eexists. split; [done|]. rewrite <-(insert_id (a_items A) a it) by done.
    unfold with_heap, with_usage. simpl.
    apply (rep_step T c A _ _ _ _ a it it (set_refs (refs e - 1) (set_in_cache false e)));
      simpl; try done.
    + apply (lists_set h1 _ _ a e (λ e, set_refs (refs e - 1) (set_in_cache false e))); done.
    + intros x Hx. rewrite lookup_insert_ne by done. by apply Hother.
    + intros x Hx. rewrite lookup_insert_ne by congruence. by apply unlink_views.
    + apply lookup_insert_eq.
    + unfold item_entry, core, unlink. simpl. rewrite bool_decide_eq_false_2 by (rewrite Hmove; tauto).
      unfold set_next_hash, set_next, set_prev, set_refs, set_in_cache. simpl.
      rewrite Hv, Hh, Hk, Hrefs. f_equal. lia.
    + intros x Hx. rewrite Hmove. tauto.
    + intros x Hx. apply Hmove. split; [by apply (r_sub _ _ _ Hr)|congruence].
Qed.

(** ** The operations refine the contract *)

Lemma rep_small c A : rep c A → a_usage A ≤ 2 ^ 31.
Proof.
  intros Hr. destruct (r_table _ _ _ Hr) as (bs & Ht & Hp). destruct (to_elems _ _ _ Ht) as [He Hm].
  unfold a_usage. rewrite <-(Permutation_length Hp). lia.
Qed.

(** The outcome of a table search is that of [a_find]. *)
Lemma rep_search c A k hs a : rep c A →
  (a ∈ listed A ∧ a ≠ nullptr ∧ matches (hp c) k hs a ∨
   a = nullptr ∧ ∀ x, x ∈ listed A → ¬ matches (hp c) k hs x) → a = a_find A k hs.
Proof.
  intros Hr [(Ha & _ & Hm)|[-> Hn]].
  - destruct (r_listed _ _ _ Hr a Ha) as [it Hit].
    symmetry. apply a_find_hit; [|done|by apply (rep_matches _ c A Hr a it)].
    intros x Hx. by apply (r_keys _ _ _ Hr).
  - symmetry. apply a_find_miss. intros x Hx Hid. destruct (r_listed _ _ _ Hr x Hx) as [it Hit].
    apply (Hn x Hx). by apply (rep_matches _ c A Hr x it).
Qed.

Lemma Lookup_refines c A k hs : rep c A →
  (∀ a it, a_items A !! a = Some it → i_handles it + 1 < 2 ^ 32 - 1) →
  ∃ c', Lookup c k hs = Some (a_find A k hs, c') ∧
    rep c' (if a_find A k hs =? nullptr then A else a_ref A (a_find A k hs)).
Proof.
  intros Hr Hmax. destruct (LruTable.Lookup_spec _ _ _ k hs (r_table _ _ _ Hr)) as (a & E & Hcase).
  pose proof (rep_search c A k hs a Hr Hcase) as Ea. unfold Lookup. rewrite E, <-Ea. simpl.
  destruct Hcase as [(Ha & Hn & _)|[-> _]]; [|by exists c].
  rewrite (proj2 (Z.eqb_neq a 0)) by done. destruct (r_listed _ _ _ Hr a Ha) as [it Hit].
  destruct (Ref_spec _ c A a it Hr Hit Ha (Hmax a it Hit)) as (h' & -> & Hr'). simpl.
  eexists. split; [done|]. eapply rep_perm; [exact Hr'|].
  unfold a_ref. case_bool_decide as HaL; simpl; [|done].
  pose proof (rep_nodup _ c A Hr) as (HndL & _ & _)%NoDup_app.
  rewrite (rm_perm a (a_lru A)) at 1 by done. simpl. solve_Permutation.
Qed.

Lemma erase_perm A a : NoDup (listed A) → a ∈ listed A → listed A ≡ₚ a :: listed (a_erase A a).
Proof.
  intros Hnd Ha. pose proof Hnd as (HndL & Hdis & HndU)%NoDup_app. unfold listed, a_erase in *.
  case_bool_decide as HaL; simpl.
  - by rewrite (rm_perm a (a_lru A)) at 1 by done.
  - rewrite (rm_perm a (a_used A)) at 1; [solve_Permutation|done|set_solver].
Qed.

(** Taking an entry out of the table and finishing its erasure. *)
Lemma erase_refines c A k hs : rep c A →
  ∃ r h t, LruTable.Remove (hp c) (table_ c) k hs = Some (r, h, t) ∧ r = a_find A k hs ∧
    ∃ c', FinishErase (with_table c h t) r = Some (negb (r =? nullptr), c') ∧
      rep c' (if r =? nullptr then A else a_erase A r).
Proof.
  intros Hr. pose proof (rep_small c A Hr) as Hsm.
  destruct (LruTable.Remove_spec _ _ _ k hs (r_table _ _ _ Hr)) as (r & h & t & E & Hs & Hcase).
  exists r, h, t. split; [done|]. split.
  { apply (rep_search c A k hs r Hr). destruct Hcase as [(-> & ? & _)|(? & ? & ? & _)]; auto. }
  destruct Hcase as [(-> & _ & Ht)|(Ha & Hn & _ & T' & HT & Ht)].
  - exists (with_table c h t). split; [done|]. simpl. eapply rep_retable; try done. apply Hr.
  - rewrite (proj2 (Z.eqb_neq r 0)) by done. simpl.
    pose proof (rep_nodup _ c A Hr) as Hnd. fold (listed A) in *.
    pose proof (erase_perm A r Hnd Ha) as Hp. rewrite HT in Hp. apply (inj (cons r)) in Hp.
    assert (HrT : r ∉ T') by (rewrite HT in Hnd; by apply NoDup_cons in Hnd as [? _]).
    destruct (FinishErase_spec T' (with_table c h t) A r) as (c' & E' & Hr'); try done; [|lia|].
    + assert (Hsub : ∀ x, x ∈ T' → x ∈ listed A) by (intros x Hx; rewrite HT; set_solver).
      eapply rep_retable; [done..|]. intros x y Hx Hy. apply (r_keys _ _ _ Hr); by apply Hsub.
    + exists c'. split; [done|]. by eapply rep_perm.
Qed.

Lemma Erase_refines c A k hs : rep c A →
  ∃ c', Erase c k hs = Some c' ∧
    rep c' (if a_find A k hs =? nullptr then A else a_erase A (a_find A k hs)).
Proof.
  intros Hr. destruct (erase_refines c A k hs Hr) as (r & h & t & E & -> & c' & E' & Hr').
  exists c'. split; [|done]. unfold Erase. rewrite E. simpl. by rewrite E'.
Qed.

Lemma rep_lru_head c A : rep c A → ∃ hd, hp c !! lru_ = Some hd ∧
  next hd = default lru_ (head (a_lru A)).
Proof.
  intros Hr. destruct (ls_lru _ _ _ (r_lists _ _ _ Hr)) as [Hl _].
  destruct (a_lru A) as [|a l]; simpl in Hl; destruct Hl as [[Hn _] _];
    apply fld_Some in Hn as (hd & ? & ?); eauto.
Qed.

Lemma evict_oldest_refines c A a l : rep c A → a_lru A = a :: l →
  ∃ c', evict_oldest c = Some c' ∧ rep c' (a_erase A a).
Proof.
  intros Hr EL. destruct (rep_lru_head c A Hr) as (hd & Hhd & Hnx). rewrite EL in Hnx. simpl in Hnx.
  assert (HaL : a ∈ a_lru A) by (rewrite EL; set_solver).
  assert (Ha : a ∈ listed A) by (unfold listed; set_solver).
  destruct (r_listed _ _ _ Hr a Ha) as [it Hit].
  destruct (rep_entry _ c A Hr a it Hit) as (e & He & _ & Hself & Hv & Hh & Hk & Hin & Hrefs).
  destruct (r_handles _ _ _ Hr a it Hit) as (Hn & _ & _ & _ & Hz).
  rewrite bool_decide_eq_true_2, (proj2 Hz HaL) in Hrefs by done.
  unfold evict_oldest. rewrite Hhd. simpl. rewrite Hnx, He. simpl. rewrite Hrefs. simpl.
  unfold key. rewrite (proj2 (Z.eqb_neq (next e) a)) by done. simpl.
  destruct (erase_refines c A (key_data e) (hash e) Hr) as (r & h & t & E & Er & c' & E' & Hr').
  rewrite E. simpl. rewrite E'. simpl.
  rewrite (a_find_hit A _ _ a) in Er;
    [|intros x Hx; by apply (r_keys _ _ _ Hr)|done|unfold a_id; rewrite Hit; simpl; congruence].
  subst r. rewrite (proj2 (Z.eqb_neq a 0)) in * by done. simpl. eauto.
Qed.

Lemma a_erase_oldest A a l : NoDup (listed A) → a_lru A = a :: l →
  a_lru (a_erase A a) = l ∧ a_used (a_erase A a) = a_used A ∧ a_cap (a_erase A a) = a_cap A.
Proof.
  intros Hnd EL. unfold a_erase, listed in *. rewrite EL in *. apply NoDup_cons in Hnd as [Hn _].
  rewrite bool_decide_eq_true_2 by set_solver. simpl. split_and!; [|done..].
  unfold rm. rewrite filter_cons_False by tauto. fold (rm a l). apply rm_notin. set_solver.
Qed.

(** A loop that evicts while [over] holds stops after [n] evictions, or when nothing
    can be evicted any more. *)
Lemma evict_loop_refines over (n : acache → Z) l fuel c A :
  (∀ c A, rep c A → a_lru A ≠ [] → over c = (0 <? n A)) →
  (∀ A a l, NoDup (listed A) → a_lru A = a :: l → n (a_erase A a) = n A - 1) →
  rep c A → a_lru A = l → (length l < fuel)%nat →
  ∃ c', evict_loop fuel over c = Some c' ∧ rep c' (a_evict (Z.to_nat (n A)) A).
Proof.
  intros Hover Hn. revert fuel c A.
  induction l as [|a l IH]; intros [|fuel] c A Hr EL Hf; simpl in Hf; try lia;
    destruct (rep_lru_head c A Hr) as (hd & Hhd & Hnx); rewrite EL in Hnx; simpl in *;
    rewrite Hhd; simpl; rewrite Hnx.
  - rewrite Z.eqb_refl, andb_false_r. exists c. split; [done|]. unfold a_evict. by rewrite EL, take_nil.
  - assert (Ha : a ∈ listed A) by (unfold listed; rewrite EL; set_solver).
    destruct (rep_not_null _ c A Hr a Ha) as (_ & Hne & _).
    rewrite (proj2 (Z.eqb_neq a lru_)), andb_true_r by done.
    rewrite (Hover c A Hr) by (by rewrite EL). destruct (Z.ltb_spec 0 (n A)).
    + destruct (evict_oldest_refines c A a l Hr EL) as (c1 & -> & Hr1). simpl.
      pose proof (rep_nodup _ c A Hr) as Hnd.
      destruct (a_erase_oldest A a l Hnd EL) as (EL1 & _ & _).
      destruct (IH fuel c1 (a_erase A a) Hr1 EL1 ltac:(lia)) as (c' & -> & Hr'). exists c'.
      split; [done|]. rewrite (Hn A a l Hnd EL) in Hr'. unfold a_evict in *. rewrite EL1 in Hr'.
      rewrite EL. replace (Z.to_nat (n A)) with (S (Z.to_nat (n A - 1))) by lia. done.
    + exists c. split; [done|]. unfold a_evict. by replace (Z.to_nat (n A)) with 0%nat by lia.
Qed.

Lemma Prune_refines c A : rep c A →
  ∃ c', Prune c = Some c' ∧ rep c' (a_evict (length (a_lru A)) A).
Proof.
  intros Hr. unfold Prune. rewrite <-(Nat2Z.id (length (a_lru A))).
  apply (evict_loop_refines _ (λ A, Z.of_nat (length (a_lru A))) (a_lru A)); try done.
  - intros c1 A1 _ Hne. symmetry. apply Z.ltb_lt. destruct (a_lru A1); [done|simpl; lia].
  - intros A1 a l Hnd EL. destruct (a_erase_oldest A1 a l Hnd EL) as (-> & _). rewrite EL. simpl. lia.
  - rewrite (r_usage _ _ _ Hr). unfold a_usage. rewrite length_app. lia.
Qed.

Lemma a_usage_evict A a l : NoDup (listed A) → a_lru A = a :: l →
  a_usage (a_erase A a) - a_cap (a_erase A a) = a_usage A - a_cap A - 1.
Proof.
  intros Hnd EL. destruct (a_erase_oldest A a l Hnd EL) as (E1 & E2 & E3).
  unfold a_usage. rewrite E1, E2, E3, EL, !length_app. simpl. lia.
Qed.


Definition a_add (A : acache) (k : Slice) (hs v : Z) (a : ptr) : acache :=
  mkA (a_cap A) (a_lru A) (a_used A ++ [a]) (<[a := mkItem k hs v 1]> (a_items A)) (a_deleted A).

Lemma rep_fresh c A a : rep c A → hp c !! a = None →
  a ≠ lru_ ∧ a ≠ in_use_ ∧ a_items A !! a = None ∧ (a ∉ listed A).
Proof.
  intros [] Hfresh.
  assert (Hs : a ≠ lru_ ∧ a ≠ in_use_).
  { split; intros ->; [destruct (dll_alloc _ _ _ lru_ (ls_lru _ _ _ r_lists0))|
      destruct (dll_alloc _ _ _ in_use_ (ls_used _ _ _ r_lists0))]; (set_solver || congruence). }
  assert (Hitem : a_items A !! a = None).
  { pose proof (r_same0 a (proj1 Hs) (proj2 Hs)) as E. rewrite Hfresh in E. by destruct (a_items A !! a). }
  split_and!; try apply Hs; [done|]. intros Ha. destruct (r_listed0 a Ha). congruence.
Qed.

Lemma add_lists c A a e : rep c A → hp c !! a = None →
  ∃ h, LRU_Append (<[a := e]> (hp c)) in_use_ a = Some h ∧
    lists h (a_lru A) (a_used A ++ [a]) ∧ unlink <$> h = unlink <$> <[a := e]> (hp c).
Proof.
  intros Hr Hfresh. destruct (rep_fresh c A a Hr Hfresh) as (H1 & H2 & _ & Hnot).
  destruct (r_lists _ _ _ Hr) as [HL HU Hnd Hself]. unfold listed in Hnot.
  assert (Hdll : ∀ s l, dll (hp c) s l → a ∉ s :: l → dll (<[a := e]> (hp c)) s l).
  { intros s l [Hl Hd] Has. split; [|done]. eapply links_frame; [exact Hl|..]; intros x Hx;
      apply fld_update_ne; intros <-; apply Has.
    - change (s :: l ++ [s]) with ((s :: l) ++ [s]) in Hx. by rewrite removelast_last in Hx.
    - simpl in Hx. set_solver. }
  destruct (LRU_Append_spec (<[a := e]> (hp c)) in_use_ (a_used A) a) as (h & EA & Hd & Hf);
    [apply Hdll; [done|set_solver]|set_solver|rewrite lookup_insert_eq; eauto|].
  destruct (lists_relinked (<[a := e]> (hp c)) h in_use_ (a_used A ++ [a]) lru_ (a_lru A)) as [HL' Hself'];
    [done|done|by right| |apply Hdll; [done|set_solver]|..].
  { intros x ex Hx. rewrite lookup_insert_ne by set_solver. apply Hself. }
  { pose proof Hnd as [Hn1 [Hn2 Hnd2]%NoDup_cons]%NoDup_cons. apply NoDup_app in Hnd2 as (_ & Hdis & _).
    intros x. rewrite !elem_of_cons, elem_of_app, list_elem_of_singleton. set_solver. }
  exists h. destruct Hf as [Hu _]. split_and!; [done| |done]. split; [done..| |done].
  assert (lru_ :: in_use_ :: a_lru A ++ a_used A ++ [a] ≡ₚ a :: lru_ :: in_use_ :: a_lru A ++ a_used A)
    as -> by solve_Permutation. constructor; [set_solver|done].
Qed.

(** The new entry, in the list of the entries in use but not yet in the table. *)
Lemma add_link junk c A k hs v a : rep c A → hp c !! a = None → a ≠ nullptr →
  let e := mkEntry v (next_hash junk) (next junk) (prev junk) 2 hs true k in
  ∃ h, LRU_Append (<[a := e]> (hp c)) in_use_ a = Some h ∧
    rep_with (listed A) (with_usage (with_heap c h) (u64 (usage_ c + 1))) (a_add A k hs v a).
Proof.
  intros Hr Hfresh Hnull e. pose proof (rep_small c A Hr) as Hsm.
  destruct (rep_fresh c A a Hr Hfresh) as (H1 & H2 & Hitem & Hnot).
  destruct (add_lists c A a e Hr Hfresh) as (h & EA & Hls & Hu). exists h. split; [done|].
  assert (Hv : ∀ x, x ≠ a → core <$> h !! x = core <$> hp c !! x ∧ tview <$> h !! x = tview <$> hp c !! x).
  { intros x Hx. destruct (unlink_views _ _ x Hu) as [-> ->]. by rewrite lookup_insert_ne. }
  assert (Hid : ∀ x, x ≠ a → a_id (a_add A k hs v a) x = a_id A x).
  { intros x Hx. unfold a_id. simpl. by rewrite lookup_insert_ne. }
  assert (Hin : ∀ x, x ≠ a → x ∈ listed (a_add A k hs v a) ↔ x ∈ listed A)
    by (intros x Hx; unfold listed; simpl; set_solver).
  assert (Hne : ∀ x, x ∈ listed A → x ≠ a) by (by intros x Hx ->).
  pose proof Hr as []. split; simpl; try done.
  - unfold a_usage in *. simpl. rewrite (uwrap_small 64); rewrite ?length_app in *; simpl; lia.
  - intros x Hx1 Hx2. simpl. destruct (decide (x = a)) as [->|Hx].
    + rewrite lookup_insert_eq. destruct (unlink_views _ _ a Hu) as [-> _]. rewrite lookup_insert_eq.
      simpl. f_equal. unfold item_entry. simpl. rewrite bool_decide_eq_true_2 by set_solver. done.
    + rewrite lookup_insert_ne, (proj1 (Hv x Hx)), r_same0 by done.
      destruct (a_items A !! x) as [ix|]; [|done]. simpl. f_equal. symmetry. by apply item_entry_ext, Hin.
  - apply (table_frame (hp c)); [done|apply Hls|]. intros x Hx.
    destruct (rep_not_null _ c A Hr x Hx) as (_ & ? & ?). split_and!; [done..|]. by apply Hv, Hne.
  - intros x Hx. unfold listed in Hx. set_solver.
  - intros x ix [[<- <-]|[Hx Hi]]%lookup_insert_Some; [|by apply r_handles0].
    split_and!; simpl; try done. split; [lia|]. intros Ha. destruct Hnot. unfold listed. set_solver.
  - intros x Hx. destruct (decide (x = a)) as [->|]; [rewrite lookup_insert_eq; eauto|].
    rewrite lookup_insert_ne by done. apply r_listed0, Hin; done.
  - intros x y Hx Hy. rewrite !Hid by (by apply Hne). by apply r_keys0.
Qed.

(** The new key is the only one of its kind. *)
Lemma add_keys A k hs v a T' :
  (∀ x y, x ∈ T' → y ∈ T' → a_id (a_add A k hs v a) x = a_id (a_add A k hs v a) y → x = y) →
  (∀ x, x ∈ T' → x ≠ a ∧ a_id A x ≠ Some (k, hs)) →
  ∀ x y, x ∈ a :: T' → y ∈ a :: T' → a_id (a_add A k hs v a) x = a_id (a_add A k hs v a) y → x = y.
Proof.
  intros HK Hne.
  assert (Ha : a_id (a_add A k hs v a) a = Some (k, hs)) by (unfold a_id; simpl; by rewrite lookup_insert_eq).
  assert (Hx : ∀ x, x ∈ T' → a_id (a_add A k hs v a) x ≠ Some (k, hs)).
  { intros x Hx. destruct (Hne x Hx) as [Hxa Hi]. unfold a_id in *. simpl. by rewrite lookup_insert_ne. }
  intros x y [->|Hx1]%elem_of_cons [->|Hy1]%elem_of_cons E; [done|..].
  - destruct (Hx y Hy1). congruence.
  - destruct (Hx x Hx1). congruence.
  - by apply HK.
Qed.

(** Putting the new entry into the table and erasing the one it replaces. *)
Lemma add_table c1 A k hs v a : rep_with (listed A) c1 (a_add A k hs v a) → NoDup (listed A) →
  (∀ x, x ∈ listed A → is_Some (a_items A !! x)) → a ∉ listed A → a_usage A < 2 ^ 31 →
  let old := a_find A k hs in
  ∃ h t, LruTable.Insert (hp c1) (table_ c1) a = Some (old, h, t) ∧
    ∃ c2, FinishErase (with_table c1 h t) old = Some (negb (old =? nullptr), c2) ∧
      rep c2 (if old =? nullptr then a_add A k hs v a else a_erase (a_add A k hs v a) old).
Proof.
  intros Hr Hnd Hitems Hnot Hsm. set (A1 := a_add A k hs v a) in *.
  assert (Hla : a ∈ listed A1) by (unfold listed; simpl; set_solver).
  assert (Hperm : listed A1 ≡ₚ a :: listed A) by (unfold listed; simpl; solve_Permutation).
  assert (Hid : ∀ x, x ∈ listed A → a_id A1 x = a_id A x).
  { intros x Hx. unfold a_id. simpl. rewrite lookup_insert_ne; [done|]. by intros <-. }
  assert (Hida : a_id A1 a = Some (k, hs)) by (unfold a_id; simpl; by rewrite lookup_insert_eq).
  assert (Hm : ∀ x, x ∈ listed A1 → matches (hp c1) k hs x ↔ a_id A1 x = Some (k, hs)).
  { intros x Hx. destruct (r_listed _ _ _ Hr x Hx) as [it Hit]. by apply (rep_matches _ c1 A1 Hr x it). }
  assert (Hsub : ∀ x, x ∈ listed A → x ∈ listed A1) by (intros x Hx; rewrite Hperm; set_solver).
  assert (HidA : ∀ x, x ∈ listed A → matches (hp c1) k hs x ↔ a_id A x = Some (k, hs)).
  { intros x Hx. by rewrite Hm, Hid by auto. }
  destruct (rep_not_null _ c1 A1 Hr a Hla) as (Hnull & _).
  destruct (LruTable.Insert_spec _ _ _ a k hs (r_table _ _ _ Hr)) as (old & h & t & E & Hs & Hcase);
    [done|done|by apply Hm|done|].
  assert (old = a_find A k hs) as <-.
  { destruct Hcase as [(-> & Hn & _)|(Ho & _ & Hmo & _)]; symmetry.
    - apply a_find_miss. intros x Hx Hi. apply (Hn x Hx). by apply HidA.
    - apply a_find_hit; [|done|by apply HidA]. intros x Hx Hi.
      apply (r_keys _ _ _ Hr); [done..|]. by rewrite !Hid. }
  exists h, t. split; [done|]. destruct Hcase as [(-> & Hn & Ht)|(Ho & Hn & Hmo & T' & HT & Ht)].
  - exists (with_table c1 h t). split; [done|]. simpl. apply (rep_perm (a :: listed A)); [|done].
    eapply rep_retable; try done; [intros x; by rewrite Hperm|].
    apply (add_keys A k hs v a); [apply Hr|]. intros x Hx. split; [by intros ->|].
    intros Hi. apply (Hn x Hx). by apply HidA.
  - rewrite (proj2 (Z.eqb_neq old 0)) by done. simpl.
    assert (HsubT : ∀ x, x ∈ T' → x ∈ listed A) by (intros x Hx; rewrite HT; set_solver).
    assert (HoT : old ∉ T') by (rewrite HT in Hnd; by apply NoDup_cons in Hnd as [? _]).
    destruct (FinishErase_spec (a :: T') (with_table c1 h t) A1 old) as (c2 & E2 & Hr2).
    + eapply rep_retable; try done; [intros x; rewrite Hperm, HT; set_solver|].
      apply (add_keys A k hs v a); [intros x y Hx Hy; apply (r_keys _ _ _ Hr); by apply HsubT|].
      intros x Hx. split; [intros ->; by apply Hnot, HsubT|]. intros Hi. apply HoT.
      assert (old = x) as ->; [|done]. apply HidA in Hmo; [|done].
      apply (r_keys _ _ _ Hr); [done|by apply HsubT|]. rewrite !Hid by auto. congruence.
    + by apply Hsub.
    + intros [->|]%elem_of_cons; done.
    + unfold a_usage, A1, listed in *. simpl. rewrite !length_app in *. simpl. lia.
    + exists c2. split; [done|]. eapply rep_perm; [exact Hr2|]. fold (listed (a_erase A1 old)).
      apply (inj (cons old)). rewrite <-(erase_perm A1 old); [|by apply (rep_nodup _ _ _ Hr)|by apply Hsub].
      rewrite Hperm, HT. apply Permutation_swap.
Qed.

#[local] Arguments evict_loop : simpl never.

Lemma Insert_refines junk c A k hs v a : rep c A → 0 < a_cap A → hp c !! a = None → a ≠ nullptr →
  a_usage A < 2 ^ 31 →
  ∃ c', Insert junk c k hs v a = Some (a, c') ∧ rep c' (a_insert A k hs v a).
Proof.
  intros Hr Hcap Hfresh Hnull Hsm. unfold Insert, a_insert. fold (a_add A k hs v a).
  rewrite (proj2 (Z.eqb_neq a 0)) by done. rewrite (r_cap _ _ _ Hr), (proj2 (Z.ltb_lt 0 _)) by done. simpl.
  erewrite update_spec by apply lookup_insert_eq. simpl. rewrite insert_insert_eq.
  erewrite update_spec by apply lookup_insert_eq. simpl. rewrite insert_insert_eq.
  destruct (add_link junk c A k hs v a Hr Hfresh Hnull) as (h & EA & Hr1).
  change (set_in_cache true _) with (mkEntry v (next_hash junk) (next junk) (prev junk) 2 hs true k).
  rewrite EA. simpl.
  destruct (rep_fresh c A a Hr Hfresh) as (_ & _ & _ & Hnot).
  destruct (add_table _ A k hs v a Hr1) as (h' & t' & E1 & c2 & E2 & Hr2);
    [by apply (rep_nodup _ _ _ Hr)|apply Hr|done|done|].
  simpl in E1. rewrite E1. unfold mbind, option_bind. rewrite E2.
  set (A2 := if a_find A k hs =? nullptr then _ else _) in *.
  destruct (evict_loop_refines (λ c, capacity_ c <? usage_ c) (λ A, a_usage A - a_cap A) (a_lru A2)
    (S (Z.to_nat (usage_ c2))) c2 A2) as (c3 & E3 & Hr3); [..|rewrite E3; by exists c3]; try done.
  - intros c4 A4 Hr4 _. rewrite (r_cap _ _ _ Hr4), (r_usage _ _ _ Hr4).
    destruct (Z.ltb_spec (a_cap A4) (a_usage A4)); symmetry; [apply Z.ltb_lt|apply Z.ltb_ge]; lia.
  - intros A4 x l Hnd EL. by eapply a_usage_evict.
  - rewrite (r_usage _ _ _ Hr2). unfold a_usage. rewrite length_app. lia.
Qed.

(** ** Client runs *)

(** The calls of a client; the address of an insertion is what [malloc] returns. *)
Inductive op :=
  | OpInsert (k : Slice) (hs v : Z) (a : ptr) | OpLookup (k : Slice) (hs : Z)
  | OpRelease (a : ptr) | OpErase (k : Slice) (hs : Z) | OpPrune.

Definition run_op (junk : LRUEntry) (c : LRUCache) (o : op) : option (ptr * LRUCache) :=
  match o with
  | OpInsert k hs v a => Insert junk c k hs v a
  | OpLookup k hs => Lookup c k hs
  | OpRelease a => c' ← Release c a; Some (nullptr, c')
  | OpErase k hs => c' ← Erase c k hs; Some (nullptr, c')
  | OpPrune => c' ← Prune c; Some (nullptr, c')
  end.

Definition spec_op (A : acache) (o : op) : ptr * acache :=
  match o with
  | OpInsert k hs v a => (a, a_insert A k hs v a)
  | OpLookup k hs =>
      let a := a_find A k hs in (a, if a =? nullptr then A else a_ref A a)
  | OpRelease a => (nullptr, a_unref A a)
  | OpErase k hs =>
      let a := a_find A k hs in (nullptr, if a =? nullptr then A else a_erase A a)
  | OpPrune => (nullptr, a_evict (length (a_lru A)) A)
  end.

(** What is asked of clients and of the allocator: [malloc] yields memory that is not in
    use, only handles that a client has are released, and no counter overflows. *)
Definition op_ok (A : acache) (o : op) : Prop :=
  match o with
  | OpInsert _ _ _ a => a ≠ nullptr ∧ a ≠ lru_ ∧ a ≠ in_use_ ∧ a_items A !! a = None ∧
      0 < a_cap A ∧ a_usage A < 2 ^ 31
  | OpLookup _ _ => map_Forall (λ _ it, i_handles it + 1 < 2 ^ 32 - 1) (a_items A)
  | OpRelease a => 0 < from_option i_handles 0 (a_items A !! a)
  | OpErase _ _ | OpPrune => True
  end.

Fixpoint run_ops (junk : LRUEntry) (c : LRUCache) (os : list op) : option (list ptr * LRUCache) :=
  match os with
  | [] => Some ([], c)
  | o :: os =>
      res ← run_op junk c o;
      let '(r, c) := res : ptr * LRUCache in
      res ← run_ops junk c os;
      let '(rs, c) := res : list ptr * LRUCache in Some (r :: rs, c)
  end.
Fixpoint spec_ops (A : acache) (os : list op) : list ptr * acache :=
  match os with
  | [] => ([], A)
  | o :: os => let '(r, A) := spec_op A o in let '(rs, A) := spec_ops A os in (r :: rs, A)
  end.
Fixpoint ops_ok (A : acache) (os : list op) : Prop :=
  match os with [] => True | o :: os => op_ok A o ∧ ops_ok (spec_op A o).2 os end.

#[export] Instance op_ok_dec A o : Decision (op_ok A o).
Proof. destruct o; simpl; apply _. Defined.
#[export] Instance ops_ok_dec A os : Decision (ops_ok A os).
Proof. revert A. induction os; intros A; simpl; apply _. Defined.

Lemma rep_alloc c A a : rep c A → a ≠ lru_ → a ≠ in_use_ → a_items A !! a = None → hp c !! a = None.
Proof.
  intros Hr H1 H2 Hn. pose proof (r_same _ _ _ Hr a H1 H2) as E. rewrite Hn in E.
  by destruct (hp c !! a).
Qed.

Lemma run_op_refines junk c A o : rep c A → op_ok A o →
  ∃ c', run_op junk c o = Some ((spec_op A o).1, c') ∧ rep c' (spec_op A o).2.
Proof.
  intros Hr Hok. destruct o as [k hs v a|k hs|a|k hs|]; simpl in *.
  - destruct Hok as (? & ? & ? & ? & ? & ?). apply Insert_refines; try done. by apply (rep_alloc c A).
  - by apply Lookup_refines.
  - destruct (a_items A !! a) as [it|] eqn:Hit; [|done]. rename Hok into Hpos. destruct (Release_spec c A a it Hr Hit Hpos) as (c' & -> & ?).
    by exists c'.
  - destruct (Erase_refines c A k hs Hr) as (c' & -> & ?). by exists c'.
  - destruct (Prune_refines c A Hr) as (c' & -> & ?). by exists c'.
Qed.

Definition a_new (cap : Z) : acache := mkA cap [] [] ∅ [].

Lemma new_rep cap : ∃ c, LRUCache_new = Some c ∧ rep (SetCapacity c cap) (a_new cap).
Proof.
  destruct HashTable_new_spec as (t & Et & Ht). unfold LRUCache_new. rewrite Et. simpl.
  eexists. split; [done|]. split; simpl; try done.
  - split.
    + split; [|apply NoDup_singleton]. split; [|done]. split; reflexivity.
    + split; [|apply NoDup_singleton]. split; [|done]. split; reflexivity.
    + by repeat constructor; set_solver.
    + intros a e [[<- <-]|[_ [[<- <-]|[_ Ha]]%lookup_insert_Some]]%lookup_insert_Some; done.
  - intros a H1 H2. simpl. rewrite !lookup_insert_ne by done. done.
  - destruct Ht as (bs & [? ? ? Hch ? ?] & Hp). exists bs. split; [|done].
    apply Permutation_nil_r in Hp. assert (Hno : ∀ i b a, bs !! i = Some b → a ∉ b).
    { intros i b a Hi Ha. assert (a ∈ concat bs) as Hc by (apply elem_of_buckets; eauto).
      rewrite Hp in Hc. set_solver. }
    split; try done.
    + apply Forall2_same_length_lookup. split; [by apply Forall2_length in Hch|].
      intros i p b Hi Hb. apply (chain_frame ∅); [|by eapply Forall2_lookup_lr].
      intros a Ha. by destruct (Hno i b a Hb).
    + intros i b a Hb Ha. by destruct (Hno i b a Hb).
  - set_solver.
  - intros a b Ha. set_solver.
Qed.

Lemma run_ops_refines junk os c A : rep c A → ops_ok A os →
  ∃ c', run_ops junk c os = Some ((spec_ops A os).1, c') ∧ rep c' (spec_ops A os).2.
Proof.
  revert c A. induction os as [|o os IH]; intros c A Hr Hok; simpl in *; [by exists c|].
  destruct Hok as [Ho Hos]. destruct (run_op_refines junk c A o Hr Ho) as (c1 & -> & Hr1).
  destruct (spec_op A o) as [r A1]. simpl in *.
  destruct (IH c1 A1 Hr1 Hos) as (c' & -> & Hr'). destruct (spec_ops A1 os) as [rs A2]. simpl in *.
  by exists c'.
Qed.

(** ** Consequences *)

Lemma evict_facts n A : NoDup (listed A) →
  a_lru (a_evict n A) = drop n (a_lru A) ∧ a_used (a_evict n A) = a_used A ∧
  a_cap (a_evict n A) = a_cap A ∧
  ∀ x, x ∉ take n (a_lru A) → a_items (a_evict n A) !! x = a_items A !! x.
Proof.
  revert A. induction n as [|n IH]; intros A Hnd; [by unfold a_evict; rewrite !take_0|].
  destruct (a_lru A) as [|a l] eqn:EL; [unfold a_evict; by rewrite EL|].
  destruct (a_erase_oldest A a l Hnd EL) as (E1 & E2 & E3).
  replace (a_evict (S n) A) with (a_evict n (a_erase A a)) by (unfold a_evict; by rewrite E1, EL).
  destruct (IH (a_erase A a)) as (F1 & F2 & F3 & F4).
  { unfold listed in *. rewrite E1, E2. rewrite EL in Hnd. by apply NoDup_cons in Hnd as [_ ?]. }
  rewrite F1, F2, F3, E1, E2, E3. split_and!; try done. intros x Hx. simpl in Hx.
  rewrite F4 by (rewrite E1; set_solver). unfold a_erase.
  rewrite bool_decide_eq_true_2 by (rewrite EL; set_solver). simpl. apply lookup_delete_ne. set_solver.
Qed.

Definition kv (h : heap) (a : ptr) : list (Slice * Z) :=
  default [] ((λ e, [(key_data e, value e)]) <$> h !! a).

(** The entries that the destructor walks over from [q]. *)
Fixpoint walk (h : heap) (q : ptr) (l : list ptr) : Prop :=
  match l with
  | [] => q = lru_
  | x :: l => q = x ∧ x ≠ lru_ ∧ ∃ e, h !! x = Some e ∧ in_cache e = true ∧ refs e = 1 ∧
      next e ≠ x ∧ walk h (next e) l
  end.

Lemma walk_frame h h' q l : (∀ x, x ∈ l → h' !! x = h !! x) → walk h q l → walk h' q l.
Proof.
  revert q. induction l as [|x l IH]; intros q Hf; simpl; [done|].
  intros (-> & Hx & e & He & Hi & Hr & Hn & Hw). split_and!; [done..|]. exists e.
  rewrite Hf by set_solver. split_and!; [done..|]. apply IH; [|done]. intros y Hy. apply Hf. set_solver.
Qed.

Lemma destroy_walk l fuel c q : NoDup l → (length l < fuel)%nat → walk (hp c) q l →
  ∃ c', destroy_loop fuel c q = Some c' ∧ deleted c' = deleted c ++ concat (kv (hp c) <$> l).
Proof.
  revert fuel c q. induction l as [|a l IH]; intros [|fuel] c q Hnd Hf Hw; simpl in *; try lia.
  - subst q. rewrite Z.eqb_refl. exists c. by rewrite app_nil_r.
  - destruct Hw as (-> & Hx & e & He & Hin & Hrefs & Hself & Hw). apply NoDup_cons in Hnd as [Hal Hnd].
    rewrite (proj2 (Z.eqb_neq a lru_)) by done. rewrite He. simpl. rewrite Hin. simpl.
    rewrite (update_spec _ _ _ _ He). simpl. rewrite Hrefs. simpl.
    rewrite (Unref_unfold _ a (set_in_cache false e)); [|apply lookup_insert_eq|simpl; lia|done].
    simpl. rewrite Hrefs. simpl. rewrite insert_insert_eq, delete_insert_eq.
    set (c1 := mkCache _ _ _ _ _).
    assert (Hframe : ∀ x, x ∈ l → hp c1 !! x = hp c !! x).
    { intros x Hxl. apply lookup_delete_ne. by intros ->. }
    destruct (IH fuel c1 (next e)) as (c' & -> & Hd); [done|lia|by eapply walk_frame|].
    exists c'. split; [done|]. rewrite Hd. simpl. rewrite <-(assoc_L (++)). f_equal. unfold kv at 2. rewrite He. simpl.
    f_equal. f_equal. apply list_fmap_ext. intros i x Hi. unfold kv.
    rewrite lookup_delete_ne; [done|]. intros ->. apply Hal. by eapply list_elem_of_lookup_2.
Qed.

Lemma links_walk h l p : links h (p :: l ++ [lru_]) →
  (∀ x, x ∈ l → x ≠ lru_ ∧ ∃ e, h !! x = Some e ∧ in_cache e = true ∧ refs e = 1 ∧ next e ≠ x) →
  ∃ hd, h !! p = Some hd ∧ walk h (next hd) l.
Proof.
  revert p. induction l as [|x l IH]; intros p Hl Hent; simpl in Hl; destruct Hl as [[Hn Hp] Hl];
    apply fld_Some in Hn as (ep & Hep & Hnx); exists ep; (split; [done|]); simpl; [done|].
  destruct (Hent x) as (Hx & e & He & Hin & Hrefs & Hself); [set_solver|].
  destruct (IH x Hl) as (e2 & He2 & Hw); [intros y Hy; apply Hent; set_solver|].
  simplify_eq. split_and!; [done..|]. eauto 10.
Qed.

Lemma rep_walk c A : rep c A → ∃ hd, hp c !! lru_ = Some hd ∧ walk (hp c) (next hd) (a_lru A).
Proof.
  intros Hr. destruct (ls_lru _ _ _ (r_lists _ _ _ Hr)) as [Hl _].
  assert (Hent : ∀ x, x ∈ a_lru A → x ≠ lru_ ∧ ∃ e, hp c !! x = Some e ∧ in_cache e = true ∧
    refs e = 1 ∧ next e ≠ x).
  { intros x Hx. assert (Hxl : x ∈ listed A) by (unfold listed; set_solver).
    destruct (r_listed _ _ _ Hr x Hxl) as [it Hit].
    destruct (r_handles _ _ _ Hr x it Hit) as (_ & ? & _ & _ & Hz). split; [done|].
    destruct (rep_entry _ c A Hr x it Hit) as (e & He & _ & Hself & _ & _ & _ & Hin & Hrefs).
    rewrite bool_decide_eq_true_2 in Hin, Hrefs by done. rewrite (proj2 Hz Hx) in Hrefs. eauto. }
  by apply links_walk.
Qed.

Lemma destroy_spec c A : rep c A → a_used A = [] →
  ∃ c', LRUCache_destroy c = Some c' ∧
    deleted c' = a_deleted A ++ concat (kv (hp c) <$> a_lru A).
Proof.
  intros Hr HU. destruct (ls_used _ _ _ (r_lists _ _ _ Hr)) as [Hl _]. rewrite HU in Hl.
  destruct Hl as [[Hn _] _]. apply fld_Some in Hn as (u & Hu & Hnu).
  destruct (rep_walk c A Hr) as (hd & Hhd & Hw). unfold LRUCache_destroy.
  rewrite Hu. simpl. rewrite Hnu, Z.eqb_refl. simpl. rewrite Hhd. simpl.
  rewrite <-(r_deleted _ _ _ Hr).
  apply (destroy_walk (a_lru A) (S (Z.to_nat (usage_ c))) c (next hd)); [|rewrite (r_usage _ _ _ Hr)|done].
  - pose proof (rep_nodup _ c A Hr) as (? & _ & _)%NoDup_app. done.
  - unfold a_usage. rewrite length_app. lia.
Qed.

(** C1 [refinement]. The cache implements its contract: from a new cache, every sequence
    of calls by well-behaved clients runs without a failed assertion or an access to
    memory that is not allocated, returns the handles that the contract returns and
    counts its entries; the deleter has been called exactly for the entries that the
    contract frees, in that order; the allocated memory is exactly that of the entries of
    the contract, with their keys, values and reference counts; and when no handle is
    left the destructor hands all the rest to the deleter. *)
Theorem lru_cache_refines junk cap os : ops_ok (a_new cap) os →
  ∃ c0 c, LRUCache_new = Some c0 ∧
    run_ops junk (SetCapacity c0 cap) os = Some ((spec_ops (a_new cap) os).1, c) ∧
    let A := (spec_ops (a_new cap) os).2 in
    TotalElem c = a_usage A ∧ deleted c = a_deleted A ∧
    (∀ a, a ≠ lru_ → a ≠ in_use_ → core <$> hp c !! a = item_entry A a <$> a_items A !! a) ∧
    (a_used A = [] → ∃ c', LRUCache_destroy c = Some c' ∧
       deleted c' = a_deleted A ++ concat (kv (hp c) <$> a_lru A)).
Proof.
  intros Hok. destruct (new_rep cap) as (c0 & E0 & Hr0).
  destruct (run_ops_refines junk os _ _ Hr0 Hok) as (c & E & Hr). exists c0, c.
  split; [done|]. split; [done|]. intros A.
  split; [apply Hr|]. split; [apply Hr|]. split; [apply (r_same _ _ _ Hr)|]. by apply destroy_spec.
Qed.

(** Two entries go into a cache for one: the first is evicted once it is released. *)
Lemma lru_cache_refines_witness : ∃ c0 c,
  LRUCache_new = Some c0 ∧
  run_ops (mkEntry 0 0 0 0 0 0 false []) (SetCapacity c0 1)
    [OpInsert [1] 7 10 100; OpRelease 100; OpInsert [2] 9 20 200; OpLookup [1] 7; OpLookup [2] 9] =
    Some ([100; 0; 200; 0; 200], c) ∧ TotalElem c = 1 ∧ deleted c = [([1], 10)].
Proof.
  set (os := [OpInsert [1] 7 10 100; OpRelease 100; OpInsert [2] 9 20 200; OpLookup [1] 7;
    OpLookup [2] 9]).
  assert (Hok : ops_ok (a_new 1) os) by (apply (bool_decide_unpack _); vm_compute; exact I).
  destruct (lru_cache_refines (mkEntry 0 0 0 0 0 0 false []) 1 os Hok)
    as (c0 & c & E0 & E & Ht & Hd & _).
  assert (E1 : (spec_ops (a_new 1) os).1 = [100; 0; 200; 0; 200]) by (vm_compute; reflexivity).
  assert (E2 : a_usage (spec_ops (a_new 1) os).2 = 1) by (vm_compute; reflexivity).
  assert (E3 : a_deleted (spec_ops (a_new 1) os).2 = [([1], 10)]) by (vm_compute; reflexivity).
  rewrite E1 in E. rewrite E2 in Ht. rewrite E3 in Hd. exists c0, c. split_and!; assumption.
Defined.

(** The state before the evictions of [a_insert]. *)
Lemma replace_facts A k hs v a : NoDup (listed A) → a ∉ listed A → a_items A !! a = None →
  nullptr ∉ listed A → a ≠ nullptr →
  (∀ x it, a_items A !! x = Some it → i_handles it = 0 ↔ x ∈ a_lru A) →
  let old := a_find A k hs in
  let A2 := if old =? nullptr then a_add A k hs v a else a_erase (a_add A k hs v a) old in
  a_lru A2 = rm old (a_lru A) ∧ a_used A2 = rm old (a_used A) ++ [a] ∧ NoDup (listed A2) ∧
  a_items A2 !! a = Some (mkItem k hs v 1) ∧
  ∀ x it, a_items A !! x = Some it → 0 < i_handles it → a_items A2 !! x = Some it.
Proof.
  intros Hnd Hnot Hitem Hnull Ha0 Hz old A2.
  assert (Hold : old = nullptr ∨ old ∈ listed A).
  { unfold old, a_find. fold (listed A). destruct (filter _ (listed A)) as [|b l] eqn:F; [by left|right].
    assert (Hb : b ∈ filter (λ a, a_id A a = Some (k, hs)) (listed A)) by (rewrite F; set_solver).
    by apply list_elem_of_filter in Hb as [_ Hb]. }
  clearbody old.
  assert (Hoa : old ≠ a) by (intros ->; destruct Hold; [done|done]).
  assert (Hlists : a_lru A2 = rm old (a_lru A) ∧ a_used A2 = rm old (a_used A) ++ [a]).
  { pose proof Hnd as (_ & Hdis & _)%NoDup_app. unfold A2, listed in *.
    destruct (Z.eqb_spec old nullptr) as [E0|Hn]; [rewrite E0; by rewrite !rm_notin by set_solver|].
    unfold a_erase. simpl. case_bool_decide as HL; simpl.
    - by rewrite (rm_notin old (a_used A)) by (by apply Hdis).
    - rewrite (rm_notin old (a_lru A)) by done. split; [done|]. unfold rm. rewrite filter_app.
      f_equal. by rewrite filter_cons_True, filter_nil. }
  destruct Hlists as [E1 E2]. split_and!; [done|done|..].
  - unfold listed in *. rewrite E1, E2, (assoc_L (++)), <-Permutation_cons_append.
    unfold rm. rewrite <-filter_app. constructor; [|by apply NoDup_filter].
    rewrite list_elem_of_filter. tauto.
  - unfold A2. destruct (old =? nullptr); [apply lookup_insert_eq|]. unfold a_erase. simpl.
    case_bool_decide; simpl; [rewrite lookup_delete_ne by done|]; apply lookup_insert_eq.
  - intros x it Hx Hpos. assert (x ≠ a) by congruence. unfold A2.
    destruct (old =? nullptr); [simpl; by rewrite lookup_insert_ne|]. unfold a_erase. simpl.
    case_bool_decide as HL; simpl; [|by rewrite lookup_insert_ne].
    rewrite lookup_delete_ne; [by rewrite lookup_insert_ne|]. intros ->.
    apply (Hz x it Hx) in HL. lia.
Qed.

(** What an insertion does to the other entries: afterwards the key is
    found at the new entry; the cache is within its capacity unless every cached entry is
    held by a client; the entries that leave are the entry with the same key and then the
    least recently released ones, oldest first; and no entry that a client holds is
    touched. *)
Theorem lru_insert_evicts junk c A k hs v a : rep c A → op_ok A (OpInsert k hs v a) →
  ∃ c' A', Insert junk c k hs v a = Some (a, c') ∧ rep c' A' ∧ a_find A' k hs = a ∧
    (TotalElem c' ≤ capacity_ c' ∨ a_lru A' = []) ∧
    (∃ n, a_lru A' = drop n (rm (a_find A k hs) (a_lru A))) ∧
    (∀ x it, a_items A !! x = Some it → 0 < i_handles it → a_items A' !! x = Some it).
Proof.
  intros Hr (H0 & H1 & H2 & Hitem & Hcap & Hsm). pose proof (rep_alloc c A a Hr H1 H2 Hitem) as Hfresh.
  destruct (Insert_refines junk c A k hs v a Hr Hcap Hfresh H0 Hsm) as (c' & E & Hr').
  exists c', (a_insert A k hs v a). split; [done|]. split; [done|].
  destruct (rep_fresh c A a Hr Hfresh) as (_ & _ & _ & Hnot).
  destruct (replace_facts A k hs v a) as (E1 & E2 & Hnd2 & Hi2 & Hkeep);
    [by apply (rep_nodup _ _ _ Hr)|done|done| |done| |].
  { intros Hn. by destruct (rep_not_null _ c A Hr _ Hn) as [? _]. }
  { intros x it Hx. by destruct (r_handles _ _ _ Hr x it Hx) as (_ & _ & _ & _ & ?). }
  unfold a_insert in *. fold (a_add A k hs v a) in *.
  set (A2 := if a_find A k hs =? nullptr then _ else _) in *.
  destruct (evict_facts (Z.to_nat (a_usage A2 - a_cap A2)) A2 Hnd2) as (F1 & F2 & F3 & F4).
  assert (Ha2 : a ∉ take (Z.to_nat (a_usage A2 - a_cap A2)) (a_lru A2)).
  { intros Ha%elem_of_take. destruct Ha as (i & Hi & _). apply list_elem_of_lookup_2 in Hi.
    rewrite E1 in Hi. apply elem_of_rm in Hi as [Hi _]. apply Hnot. unfold listed. set_solver. }
  split_and!.
  - apply a_find_hit; [intros x Hx; apply (r_keys _ _ _ Hr'); [done|]| |].
    1, 2: unfold listed; rewrite F2, E2; set_solver.
    unfold a_id. by rewrite (F4 a Ha2), Hi2.
  - unfold TotalElem. rewrite (r_usage _ _ _ Hr'), (r_cap _ _ _ Hr'), F1, F3. unfold a_usage at 1.
    rewrite F1, F2, length_app, length_drop. unfold a_usage. rewrite length_app.
    destruct (decide (a_usage A2 - a_cap A2 ≤ Z.of_nat (length (a_lru A2)))) as [Hle|Hgt];
      unfold a_usage in *; rewrite length_app in *; [left; lia|right; apply drop_ge; lia].
  - eexists. by rewrite F1, E1.
  - intros x it Hx Hpos. rewrite F4; [by apply Hkeep|]. intros Hin%elem_of_take.
    destruct Hin as (i & Hi & _). apply list_elem_of_lookup_2 in Hi. rewrite E1 in Hi.
    apply elem_of_rm in Hi as [Hi _]. destruct (r_handles _ _ _ Hr x it Hx) as (_ & _ & _ & _ & Hz).
    apply Hz in Hi. lia.
Qed.

(** A full cache whose only entry has been released: the insertion evicts it. *)
Lemma lru_insert_evicts_witness :
  ∃ c A, rep c A ∧ a_lru A = [100] ∧ a_usage A = a_cap A ∧
    ∃ c' A', Insert (mkEntry 0 0 0 0 0 0 false []) c [2] 9 20 200 = Some (200, c') ∧
      rep c' A' ∧ a_find A' [2] 9 = 200.
Proof.
  set (os := [OpInsert [1] 7 10 100; OpRelease 100]).
  destruct (new_rep 1) as (c0 & _ & Hr0).
  destruct (run_ops_refines (mkEntry 0 0 0 0 0 0 false []) os _ _ Hr0) as (c & _ & Hr).
  { apply (bool_decide_unpack _). vm_compute. exact I. }
  exists c, (spec_ops (a_new 1) os).2. split; [exact Hr|].
  split; [vm_compute; reflexivity|]. split; [vm_compute; reflexivity|].
  destruct (lru_insert_evicts (mkEntry 0 0 0 0 0 0 false []) c _ [2] 9 20 200 Hr)
    as (c' & A' & E & Hr' & Hf & _).
  { apply (bool_decide_unpack _). vm_compute. exact I. }
  exists c', A'. split_and!; assumption.
Defined.
