(* ===== verification/Arrays.v ===== *)
(** * Loops over arrays

    [for] loops with a known number of iterations, and what the loops that copy or
    shift a part of an array do. *)

From S2P Require Import Prelude.

(** [for (; n iterations; i++) s = f(i, s)], and the same counting down. *)
Fixpoint for_up {S} (n : nat) (i : Z) (f : Z → S → option S) (s : S) : option S :=
  match n with O => Some s | S n => s ← f i s; for_up n (i + 1) f s end.
Fixpoint for_down {S} (n : nat) (i : Z) (f : Z → S → option S) (s : S) : option S :=
  match n with O => Some s | S n => s ← f i s; for_down n (i - 1) f s end.

(** [a[i] = b[i + d]], [a[i + 1] = a[i]], [a[i - 1] = a[i]] and [a[i] = a[i - 1]]. *)
Definition copy_from {A} (b : list A) (d : Z) (i : Z) (a : list A) : option (list A) :=
  x ← aget b (i + d); aset a i x.
Definition move_up {A} (i : Z) (a : list A) : option (list A) := x ← aget a i; aset a (i + 1) x.
Definition move_down {A} (i : Z) (a : list A) : option (list A) := x ← aget a i; aset a (i - 1) x.

Definition pull_up {A} (i : Z) (a : list A) : option (list A) := x ← aget a (i - 1); aset a i x.

Section loops.
Context {A : Type}.
Implicit Types (a b l : list A).

Lemma aget_app_at l1 x l2 i : i = Z.of_nat (length l1) → aget (l1 ++ x :: l2) i = Some x.
Proof. intros ->. rewrite aget_nat. by apply list_lookup_middle. Qed.

Lemma aset_app_at l1 x l2 i y : i = Z.of_nat (length l1) →
  aset (l1 ++ x :: l2) i y = Some (l1 ++ y :: l2).
Proof.
  intros ->. rewrite aset_Some by (rewrite length_app; simpl; lia).
  by rewrite Nat2Z.id, insert_app_r_alt, Nat.sub_diag by done.
Qed.

Lemma aget_app_next l1 w x l2 i : i = Z.of_nat (length l1) + 1 →
  aget (l1 ++ w :: x :: l2) i = Some x.
Proof.
  intros Hi. change (l1 ++ w :: x :: l2) with (l1 ++ [w] ++ x :: l2). rewrite (assoc_L (++)).
  apply aget_app_at. rewrite length_app. simpl. lia.
Qed.

Lemma aset_app_next l1 w x l2 i y : i = Z.of_nat (length l1) + 1 →
  aset (l1 ++ w :: x :: l2) i y = Some (l1 ++ w :: y :: l2).
Proof.
  intros Hi. change (l1 ++ w :: x :: l2) with (l1 ++ [w] ++ x :: l2). rewrite (assoc_L (++)).
  rewrite aset_app_at by (rewrite length_app; simpl; lia). by rewrite <-(assoc_L (++)).
Qed.

Lemma copy_from_at b1 x b2 a1 y a2 d i : i = Z.of_nat (length a1) → i + d = Z.of_nat (length b1) →
  copy_from (b1 ++ x :: b2) d i (a1 ++ y :: a2) = Some (a1 ++ x :: a2).
Proof. intros Hi Hd. unfold copy_from. rewrite aget_app_at by done. by apply aset_app_at. Qed.

Lemma move_up_at a1 x y a2 i : i = Z.of_nat (length a1) →
  move_up i (a1 ++ x :: y :: a2) = Some (a1 ++ x :: x :: a2).
Proof.
  intros Hi. unfold move_up. rewrite aget_app_at by done. simpl. apply aset_app_next. lia.
Qed.

Lemma move_down_at a1 x y a2 i : i = Z.of_nat (length a1) + 1 →
  move_down i (a1 ++ y :: x :: a2) = Some (a1 ++ x :: x :: a2).
Proof.
  intros Hi. unfold move_down. rewrite aget_app_next by done. simpl. apply aset_app_at. lia.
Qed.

(** Copying a block: [b = b1 ++ m ++ b2] into [a = a1 ++ o ++ a2]. *)
Lemma copy_block m b1 b2 a1 o a2 d i : i = Z.of_nat (length a1) →
  i + d = Z.of_nat (length b1) → length o = length m →
  for_up (length m) i (copy_from (b1 ++ m ++ b2) d) (a1 ++ o ++ a2) = Some (a1 ++ m ++ a2).
Proof.
  revert b1 a1 o i. induction m as [|x m IH]; intros b1 a1 o i Hi Hd Ho; destruct o as [|y o]; try done.
  simpl. rewrite copy_from_at by done. simpl.
  specialize (IH (b1 ++ [x]) (a1 ++ [x]) o (i + 1)).
  rewrite <-!(assoc_L (++)) in IH. simpl in IH. apply IH; rewrite ?length_app; simpl in *; lia.
Qed.

(** Moving the block [m] one place up, over [y]. *)
Lemma move_up_block m a1 y a2 i : i = Z.of_nat (length (a1 ++ m)) - 1 →
  ∃ z, for_down (length m) i move_up (a1 ++ m ++ y :: a2) = Some (a1 ++ z :: m ++ a2).
Proof.
  revert y a2 i. induction m as [|x m IH] using rev_ind; intros y a2 i Hi; [by exists y|].
  rewrite !length_app in *. simpl in *. rewrite Nat.add_1_r. simpl.
  rewrite <-!(assoc_L (++)). simpl. rewrite (assoc_L (++) a1 m).
  rewrite move_up_at by (rewrite length_app; lia). simpl. rewrite <-(assoc_L (++) a1 m).
  destruct (IH x (x :: a2) (i - 1)) as [z Hz]; [lia|]. exists z. by rewrite Hz.
Qed.

Lemma for_down_pull_up n i a : for_down n i pull_up a = for_down n (i - 1) move_up a.
Proof.
  revert i a. induction n as [|n IH]; intros i a; [done|]. simpl.
  assert (pull_up i a = move_up (i - 1) a) as ->
    by (unfold pull_up, move_up; by replace (i - 1 + 1) with i by lia).
  destruct (move_up (i - 1) a); simpl; [apply IH|done].
Qed.

(** Moving the block [m] one place down, over [y]. *)
Lemma move_down_block m a1 y a2 i : i = Z.of_nat (length a1) + 1 →
  ∃ z, for_up (length m) i move_down (a1 ++ y :: m ++ a2) = Some (a1 ++ m ++ z :: a2).
Proof.
  revert a1 y i. induction m as [|x m IH]; intros a1 y i Hi; [by exists y|].
  simpl. rewrite move_down_at by done. simpl.
  destruct (IH (a1 ++ [x]) x (i + 1)) as [z Hz]; [rewrite length_app; simpl; lia|].
  exists z. rewrite <-!(assoc_L (++)) in Hz. simpl in Hz. by rewrite Hz.
Qed.
End loops.

(** A loop over two arrays at once. *)
Lemma for_up_pair {S T} (f : Z → S → option S) (g : Z → T → option T) n i s t :
  for_up n i (λ j st, let '(s, t) := st : S * T in s ← f j s; t ← g j t; Some (s, t)) (s, t) =
    (s ← for_up n i f s; t ← for_up n i g t; Some (s, t)).
Proof.
  revert i s t. induction n as [|n IH]; intros i s t; [done|]. simpl.
  destruct (f i s) as [s'|]; simpl; [|done]. destruct (g i t) as [t'|]; simpl; [by rewrite IH|].
  by destruct (for_up n (i + 1) f s').
Qed.

Lemma for_up_copy_next {A} n i (a : list A) :
  for_up n i (λ j q, copy_from q 1 j q) a = for_up n (i + 1) move_down a.
Proof.
  revert i a. induction n as [|n IH]; intros i a; [done|]. simpl.
  assert (copy_from a 1 i a = move_down (i + 1) a) as ->
    by (unfold copy_from, move_down; by replace (i + 1 - 1) with i by lia).
  destruct (move_down (i + 1) a); simpl; [apply IH|done].
Qed.
