(* ===== verification/BTree.v ===== *)
(** * The in-memory B-tree (src/app/simpleBtree/btree.h and btree.cc)

    A node is a value with its arrays of keys and children; every node is referred to
    by one child slot (or by [roots]), so that an update through a pointer is written
    back to that slot.  The null pointer in [p] is [None].  [malloc] succeeds.  [None]
    as a result is an access outside of an array or through a null or freed pointer.
    [M] is the degree ([#define M 2]). *)

From S2P Require Import Prelude Arrays.

(** src/app/simpleBtree/btree.h:10-16, [btree_node]. *)
Inductive btree_node :=
  Node (k : list Z) (p : list (option btree_node)) (key_num : Z) (is_leaf : bool).
Definition k (n : btree_node) : list Z := let 'Node k _ _ _ := n in k.
Definition p (n : btree_node) : list (option btree_node) := let 'Node _ p _ _ := n in p.
Definition key_num (n : btree_node) : Z := let 'Node _ _ x _ := n in x.
Definition is_leaf (n : btree_node) : bool := let 'Node _ _ _ b := n in b.

(** [x->p[i]], dereferenced, and the node behind it replaced. *)
Definition child (n : btree_node) (i : Z) : option btree_node := c ← aget (p n) i; c.
Definition set_child (n : btree_node) (i : Z) (c : btree_node) : option btree_node :=
  q ← aset (p n) i (Some c); Some (Node (k n) q (key_num n) (is_leaf n)).
Definition set_key (n : btree_node) (i : Z) (x : Z) : option btree_node :=
  l ← aset (k n) i x; Some (Node l (p n) (key_num n) (is_leaf n)).

Section btree.
Context (M : Z).

(** src/app/simpleBtree/btree.cc:7-20, [BTree::btree_node_new]. *)
Definition btree_node_new : btree_node :=
  Node (replicate (Z.to_nat (2 * M - 1)) 0) (replicate (Z.to_nat (2 * M)) None) 0 true.

(** src/app/simpleBtree/btree.cc:22-65, [BTree::btree_split_child]. The child is [parent->p[pos]]. *)
Definition btree_split_child (parent : btree_node) (pos : Z) : option btree_node :=
  c ← child parent pos;
  let nw := btree_node_new in
  nk ← for_up (Z.to_nat (M - 1)) 0 (copy_from (k c) M) (k nw);
  np ← (if is_leaf c then Some (p nw) else for_up (Z.to_nat M) 0 (copy_from (p c) M) (p nw));
  let new_child := Node nk np (M - 1) (is_leaf c) in
  let c := Node (k c) (p c) (M - 1) (is_leaf c) in
  q ← for_down (Z.to_nat (key_num parent - pos)) (key_num parent) move_up (p parent);
  q ← aset q (pos + 1) (Some new_child);
  q ← aset q pos (Some c);
  l ← for_down (Z.to_nat (key_num parent - pos)) (key_num parent - 1) move_up (k parent);
  x ← aget (k c) (M - 1);
  l ← aset l pos x;
  Some (Node l q (key_num parent + 1) (is_leaf parent)).

(** src/app/simpleBtree/btree.cc:73-78, [BTree::btree_insert_nonfull (leaf loop)]. *)
Fixpoint leaf_shift (pos : nat) (l : list Z) (target : Z) : option (list Z * nat) :=
  match pos with
  | O => Some (l, O)
  | S q =>
      x ← aget l (Z.of_nat q);
      if target <? x then l ← aset l (Z.of_nat pos) x; leaf_shift q l target
      else Some (l, pos)
  end.

(** src/app/simpleBtree/btree.cc:86-91, [BTree::btree_insert_nonfull (search loop)]. *)
Fixpoint descend (pos : nat) (l : list Z) (target : Z) : option nat :=
  match pos with
  | O => Some O
  | S q => x ← aget l (Z.of_nat q); if target <? x then descend q l target else Some pos
  end.

(** src/app/simpleBtree/btree.cc:68-105, [BTree::btree_insert_nonfull]. *)
Fixpoint btree_insert_nonfull (fuel : nat) (node : btree_node) (target : Z) : option btree_node :=
  match fuel with
  | O => None
  | S fuel =>
      if is_leaf node then
        res ← leaf_shift (Z.to_nat (key_num node)) (k node) target;
        let '(l, pos) := res : list Z * nat in
        l ← aset l (Z.of_nat pos) target;
        Some (Node l (p node) (key_num node + 1) true)
      else
        pos ← descend (Z.to_nat (key_num node)) (k node) target;
        let pos := Z.of_nat pos in
        c ← child node pos;
        res ← (if 2 * M - 1 =? key_num c then
                 node ← btree_split_child node pos;
                 x ← aget (k node) pos;
                 Some (node, if x <? target then pos + 1 else pos)
               else Some (node, pos));
        let '(node, pos) := res : btree_node * Z in
        c ← child node pos;
        c ← btree_insert_nonfull fuel c target;
        set_child node pos c
  end.

(** src/app/simpleBtree/btree.cc:107-134, [BTree::btree_insert]. *)
Definition btree_insert (fuel : nat) (root : btree_node) (target : Z) : option btree_node :=
  if 2 * M - 1 =? key_num root then
    let node := btree_node_new in
    node ← set_child (Node (k node) (p node) (key_num node) false) 0 root;
    node ← btree_split_child node 0;
    btree_insert_nonfull fuel node target
  else btree_insert_nonfull fuel root target.

(** src/app/simpleBtree/btree.cc:137-165, [BTree::btree_merge_child]. [y] and [z] are the children at
    [pos] and [pos + 1]; [z] is freed. *)
Definition btree_merge_child (root : btree_node) (pos : Z) : option btree_node :=
  y ← child root pos;
  z ← child root (pos + 1);
  yk ← for_up (Z.to_nat (M - 1)) M (copy_from (k z) (- M)) (k y);
  x ← aget (k root) pos;
  yk ← aset yk (M - 1) x;
  yp ← (if is_leaf z then Some (p y) else for_up (Z.to_nat M) M (copy_from (p z) (- M)) (p y));
  let y := Node yk yp (2 * M - 1) (is_leaf y) in
  root ← set_child root pos y;
  res ← for_up (Z.to_nat (key_num root - (pos + 1))) (pos + 1)
    (λ j s, let '(l, q) := s : list Z * list (option btree_node) in
      l ← move_down j l; q ← copy_from q 1 j q; Some (l, q)) (k root, p root);
  let '(l, q) := res : list Z * list (option btree_node) in
  Some (Node l q (key_num root - 1) (is_leaf root)).

(** src/app/simpleBtree/btree.cc:318-326, [BTree::btree_search_predecessor]. *)
Fixpoint btree_search_predecessor (fuel : nat) (y : btree_node) : option Z :=
  match fuel with
  | O => None
  | S fuel =>
      if is_leaf y then aget (k y) (key_num y - 1)
      else y ← child y (key_num y); btree_search_predecessor fuel y
  end.

(** src/app/simpleBtree/btree.cc:329-337, [BTree::btree_search_successor]. *)
Fixpoint btree_search_successor (fuel : nat) (z : btree_node) : option Z :=
  match fuel with
  | O => None
  | S fuel =>
      if is_leaf z then aget (k z) 0 else z ← child z 0; btree_search_successor fuel z
  end.

(** src/app/simpleBtree/btree.cc:340-361, [BTree::btree_shift_to_right_child]. [y] and [z] are the
    children at [pos] and [pos + 1]. *)
Definition btree_shift_to_right_child (root : btree_node) (pos : Z) : option btree_node :=
  y ← child root pos;
  z ← child root (pos + 1);
  let zn := key_num z + 1 in
  zk ← for_down (Z.to_nat (zn - 1)) (zn - 1) pull_up (k z);
  x ← aget (k root) pos;
  zk ← aset zk 0 x;
  up ← aget (k y) (key_num y - 1);
  root ← set_key root pos up;
  zp ← (if is_leaf z then Some (p z) else
          q ← for_down (Z.to_nat zn) zn pull_up (p z);
          c ← aget (p y) (key_num y);
          aset q 0 c);
  root ← set_child root pos (Node (k y) (p y) (key_num y - 1) (is_leaf y));
  set_child root (pos + 1) (Node zk zp zn (is_leaf z)).

(** src/app/simpleBtree/btree.cc:364-386, [BTree::btree_shift_to_left_child]. *)
Definition btree_shift_to_left_child (root : btree_node) (pos : Z) : option btree_node :=
  y ← child root pos;
  z ← child root (pos + 1);
  let yn := key_num y + 1 in
  x ← aget (k root) pos;
  yk ← aset (k y) (yn - 1) x;
  up ← aget (k z) 0;
  root ← set_key root pos up;
  zk ← for_up (Z.to_nat (key_num z - 1)) 1 move_down (k z);
  res ← (if is_leaf z then Some (p y, p z) else
           c ← aget (p z) 0;
           yp ← aset (p y) yn c;
           zp ← for_up (Z.to_nat (key_num z)) 1 move_down (p z);
           Some (yp, zp));
  let '(yp, zp) := res : list (option btree_node) * list (option btree_node) in
  root ← set_child root pos (Node yk yp yn (is_leaf y));
  set_child root (pos + 1) (Node zk zp (key_num z - 1) (is_leaf z)).

(** src/app/simpleBtree/btree.cc:182-208, [BTree::btree_delete]. [rec] is [btree_delete_nonone]; the
    first result tells that [root] itself was freed, the last one that a key was
    removed (and [btree_node_num] decremented), else a message is printed. *)
Definition btree_delete (rec : btree_node → Z → option (btree_node * bool)) (root : btree_node)
    (target : Z) : option (bool * btree_node * bool) :=
  res ← (if 1 =? key_num root then
           match mjoin (aget (p root) 0), mjoin (aget (p root) 1) with
           | Some y, Some z => Some ((M - 1 =? key_num y) && (M - 1 =? key_num z))
           | _, _ => Some false
           end
         else Some false);
  if res : bool then
    root ← btree_merge_child root 0;
    y ← child root 0;
    res ← rec y target;
    let '(y, removed) := res : btree_node * bool in Some (true, y, removed)
  else
    res ← rec root target;
    let '(root, removed) := res : btree_node * bool in Some (false, root, removed).

(** src/app/simpleBtree/btree.cc:216-218, [BTree::btree_delete_nonone (search loop)], here and for
    branch nodes. *)
Fixpoint first_ge (fuel : nat) (i : Z) (n : Z) (l : list Z) (target : Z) : option Z :=
  match fuel with
  | O => None
  | S fuel =>
      if i <? n then x ← aget l i; if x <? target then first_ge fuel (i + 1) n l target else Some i
      else Some i
  end.

(** src/app/simpleBtree/btree.cc:213-233, [BTree::btree_delete_nonone (leaf)]. *)
Definition delete_leaf (root : btree_node) (target : Z) : option (btree_node * bool) :=
  i ← first_ge (S (length (k root))) 0 (key_num root) (k root) target;
  x ← aget (k root) i;
  if target =? x then
    l ← for_up (Z.to_nat (2 * M - 1 - (i + 1))) (i + 1) move_down (k root);
    Some (Node l (p root) (key_num root - 1) (is_leaf root), true)
  else Some (root, false).

(** src/app/simpleBtree/btree.cc:271-306, [BTree::btree_delete_nonone (not in this node)]. The
    child to go on with has at least [M] keys afterwards. *)
Definition refill_child (root : btree_node) (i : Z) : option (btree_node * Z) :=
  y ← child root i;
  if negb (key_num y =? M - 1) then Some (root, i) else
  left_rich ← (if 0 <? i then c ← child root (i - 1); Some (M - 1 <? key_num c) else Some false);
  if left_rich : bool then
    root ← btree_shift_to_right_child root (i - 1); Some (root, i)
  else
    right_rich ← (if i <? key_num root then c ← child root (i + 1); Some (M - 1 <? key_num c)
                  else Some false);
    if right_rich : bool then root ← btree_shift_to_left_child root i; Some (root, i)
    else if 0 <? i then root ← btree_merge_child root (i - 1); Some (root, i - 1)
    else root ← btree_merge_child root i; Some (root, i).

(** src/app/simpleBtree/btree.cc:211-315, [BTree::btree_delete_nonone]. *)
Fixpoint btree_delete_nonone (fuel : nat) (root : btree_node) (target : Z) :
    option (btree_node * bool) :=
  match fuel with
  | O => None
  | S fuel =>
      if is_leaf root then delete_leaf root target else
      i ← first_ge (S (length (k root))) 0 (key_num root) (k root) target;
      here ← (if i <? key_num root then x ← aget (k root) i; Some (target =? x) else Some false);
      if here : bool then
        y ← child root i;
        z ← child root (i + 1);
        if M - 1 <? key_num y then
          pre ← btree_search_predecessor fuel y;
          root ← set_key root i pre;
          res ← btree_delete_nonone fuel y pre;
          let '(y, removed) := res : btree_node * bool in
          root ← set_child root i y; Some (root, removed)
        else if M - 1 <? key_num z then
          next ← btree_search_successor fuel z;
          root ← set_key root i next;
          res ← btree_delete_nonone fuel z next;
          let '(z, removed) := res : btree_node * bool in
          root ← set_child root (i + 1) z; Some (root, removed)
        else
          root ← btree_merge_child root i;
          y ← child root i;
          res ← btree_delete (btree_delete_nonone fuel) y target;
          let '(freed, y, removed) := res : bool * btree_node * bool in
          if freed then None else root ← set_child root i y; Some (root, removed)
      else
        res ← refill_child root i;
        let '(root, i) := res : btree_node * Z in
        y ← child root i;
        res ← btree_delete_nonone fuel y target;
        let '(y, removed) := res : btree_node * bool in
        root ← set_child root i y; Some (root, removed)
  end.

(** ** The tree *)

(** src/app/simpleBtree/btree.h:20-23, [BTree members]. The fuel of the operations bounds the depth of
    the tree. The counter is an [int]: it counts the keys of the tree, although its comment says that it
    counts nodes. *)
Record BTree := mkTree { roots : btree_node; btree_node_num : Z }.

(** src/app/simpleBtree/btree.cc:419-423, [BTree::BTree]. *)
Definition BTree_new : BTree := mkTree btree_node_new 0.

(** src/app/simpleBtree/btree.h:78-81, [BTree::insert]. *)
Definition insert (fuel : nat) (t : BTree) (target : Z) : option BTree :=
  r ← btree_insert fuel (roots t) target;
  num ← int_res (btree_node_num t + 1);
  Some (mkTree r num).

(** src/app/simpleBtree/btree.h:88-91, [BTree::del]. *)
Definition del (fuel : nat) (t : BTree) (target : Z) : option BTree :=
  res ← btree_delete (btree_delete_nonone fuel) (roots t) target;
  let '(_, r, removed) := res : bool * btree_node * bool in
  num ← (if removed then int_res (btree_node_num t - 1) else Some (btree_node_num t));
  Some (mkTree r num).

(** src/app/simpleBtree/btree.h:105-106, [BTree::find (search loop)]. *)
Fixpoint last_le (fuel : nat) (i n : Z) (l : list Z) (key : Z) : option Z :=
  match fuel with
  | O => None
  | S fuel =>
      if i <? n then x ← aget l i; if x <=? key then last_le fuel (i + 1) n l key else Some i
      else Some i
  end.

(** src/app/simpleBtree/btree.h:98-112, [BTree::find]. *)
Fixpoint find_from (fuel : nat) (q : option btree_node) (key : Z) : option bool :=
  match q with
  | None => Some false
  | Some n =>
      match fuel with
      | O => None
      | S fuel =>
          x ← aget (k n) 0;
          if key <? x then q ← aget (p n) 0; find_from fuel q key
          else
            i ← last_le (S (length (k n))) 0 (key_num n) (k n) key;
            hit ← (if 0 <? i then x ← aget (k n) (i - 1); Some (x =? key) else Some false);
            if hit : bool then Some true else q ← aget (p n) i; find_from fuel q key
      end
  end.
Definition find (fuel : nat) (t : BTree) (key : Z) : option bool := find_from fuel (Some (roots t)) key.

(** ** Trees and the list of their keys *)

(** The keys of the subtrees [ls] with the keys [ks] between them. *)
Definition post (ks : list Z) (ls : list (list Z)) : list Z := concat (zip_with cons ks ls).
Definition pre (ls : list (list Z)) (ks : list Z) : list Z :=
  concat (zip_with (λ l x, l ++ [x]) ls ks).
Definition inter (ls : list (list Z)) (ks : list Z) : list Z :=
  match ls with [] => [] | l :: ls => l ++ post ks ls end.

Definition len {A} (l : list A) : Z := Z.of_nat (length l).

(** A branch node with keys [ks] and children [cs]; what is behind them in the arrays
    is left over from earlier operations. *)
Definition branch (n : btree_node) (ks : list Z) (cs : list btree_node) : Prop :=
  ∃ kr pr, n = Node (ks ++ kr) ((Some <$> cs) ++ pr) (len ks) false ∧
    len (ks ++ kr) = 2 * M - 1 ∧ len ((Some <$> cs) ++ pr) = 2 * M ∧ length cs = S (length ks).

(** [n] is a tree of height [h] with the keys [l], in order. Below the root every node
    has at least [M - 1] keys. *)
Fixpoint tree (h : nat) (n : btree_node) (l : list Z) : Prop :=
  match h with
  | O => ∃ kr, n = Node (l ++ kr) (replicate (Z.to_nat (2 * M)) None) (len l) true ∧
      len (l ++ kr) = 2 * M - 1
  | S h => ∃ ks cs ls, branch n ks cs ∧ ks ≠ [] ∧
      Forall2 (λ c lc, tree h c lc ∧ M - 1 ≤ key_num c) cs ls ∧ l = inter ls ks
  end.

Lemma len_app {A} (l1 l2 : list A) : len (l1 ++ l2) = len l1 + len l2.
Proof. unfold len. rewrite length_app. lia. Qed.

Lemma len_cons {A} (x : A) l : len (x :: l) = len l + 1.
Proof. unfold len. simpl. lia. Qed.

Lemma len_nonneg {A} (l : list A) : 0 ≤ len l.
Proof. unfold len. lia. Qed.

Lemma len_fmap {A B} (f : A → B) l : len (f <$> l) = len l.
Proof. unfold len. by rewrite length_fmap. Qed.

Lemma post_app ks1 ks2 ls1 ls2 : length ks1 = length ls1 →
  post (ks1 ++ ks2) (ls1 ++ ls2) = post ks1 ls1 ++ post ks2 ls2.
Proof. intros Hl. unfold post. by rewrite zip_with_app, concat_app. Qed.

(** Sorted lists of keys, and adding a key to one. *)
Definition srt (l : list Z) : Prop := StronglySorted Z.le l.

Lemma srt_app l1 l2 : srt (l1 ++ l2) ↔ srt l1 ∧ srt l2 ∧ ∀ a b, a ∈ l1 → b ∈ l2 → a ≤ b.
Proof.
  unfold srt. induction l1 as [|x l1 IH]; simpl.
  - split; [|tauto]. intros H. split_and!; [constructor|done|set_solver].
  - split.
    + intros [H Hx]%StronglySorted_inv. apply IH in H as (H1 & H2 & H3).
      apply Forall_app in Hx as [Hx1 Hx2]. split_and!; [by constructor|done|].
      intros a b [->|Ha]%elem_of_cons Hb; [by eapply Forall_forall in Hx2|by apply H3].
    + intros (H1 & H2 & H3). apply StronglySorted_inv in H1 as [H1 Hx]. constructor.
      * apply IH. split_and!; [done..|]. intros a b Ha. apply H3. set_solver.
      * apply Forall_app. split; [done|]. apply Forall_forall. intros b. apply H3. set_solver.
Qed.

Lemma srt_cons x l : srt (x :: l) ↔ srt l ∧ ∀ b, b ∈ l → x ≤ b.
Proof.
  change (x :: l) with ([x] ++ l). rewrite srt_app. split.
  - intros (_ & H1 & H2). split; [done|]. intros b. apply H2. set_solver.
  - intros [H1 H2]. split_and!; [by repeat constructor|done|]. intros a b ->%list_elem_of_singleton. apply H2.
Qed.

(** The keys before and behind a child lie on the two sides of a key that belongs there. *)
Lemma pre_le ls ks x : length ls = length ks → srt (pre ls ks) → (∀ e, last ks = Some e → e ≤ x) →
  ∀ a, a ∈ pre ls ks → a ≤ x.
Proof.
  intros Hl. destruct ks as [|e ks _] using rev_ind; [destruct ls; [|done]; set_solver|].
  rewrite length_app in Hl. simpl in Hl. destruct (exists_last (l := ls)) as (ls' & l & ->); [by destruct ls; simpl in *; [lia|]|].
  rewrite length_app in Hl. simpl in Hl. unfold pre. rewrite zip_with_app, concat_app by lia. simpl.
  rewrite app_nil_r, (assoc_L (++)). intros (_ & _ & Hs)%srt_app He a Ha. rewrite last_snoc in He.
  specialize (He e eq_refl). apply elem_of_app in Ha as [Ha| ->%list_elem_of_singleton]; [|done].
  pose proof (Hs a e Ha ltac:(set_solver)). lia.
Qed.

Lemma post_ge ks ls x : length ls = length ks → srt (post ks ls) → (∀ e, head ks = Some e → x ≤ e) →
  ∀ b, b ∈ post ks ls → x ≤ b.
Proof.
  intros Hl. destruct ks as [|e ks]; [destruct ls; set_solver|]. destruct ls as [|l ls]; [done|].
  unfold post. simpl. intros [_ Hs]%srt_cons He b [->|Hb]%elem_of_cons; [by apply He|].
  specialize (He e eq_refl). specialize (Hs b Hb). lia.
Qed.

Lemma srt_last l e y : srt l → last l = Some e → y ∈ l → y ≤ e.
Proof.
  intros Hs He Hy. apply last_Some in He as [l' ->]. apply srt_app in Hs as (_ & _ & Hs).
  apply elem_of_app in Hy as [Hy|Hy%list_elem_of_singleton]; [|lia]. apply Hs; [done|left].
Qed.

Lemma srt_head l e y : srt l → head l = Some e → y ∈ l → e ≤ y.
Proof.
  intros Hs He Hy. destruct l as [|e' l]; simplify_eq/=. apply srt_cons in Hs as [_ Hs].
  apply elem_of_cons in Hy as [->|Hy]; [lia|auto].
Qed.

(** The list with a key put in at its place. *)
Definition inserted (x : Z) (l l' : list Z) : Prop := ∃ l1 l2, l = l1 ++ l2 ∧ l' = l1 ++ x :: l2 ∧
  (∀ a, a ∈ l1 → a ≤ x) ∧ (∀ b, b ∈ l2 → x ≤ b).

Lemma inserted_in x u l l' v : inserted x l l' → (∀ a, a ∈ u → a ≤ x) → (∀ b, b ∈ v → x ≤ b) →
  inserted x (u ++ l ++ v) (u ++ l' ++ v).
Proof.
  intros (l1 & l2 & -> & -> & H1 & H2) Hu Hv. exists (u ++ l1), (l2 ++ v).
  rewrite <-!(assoc_L (++)). split_and!; try done.
  - intros a [Ha|Ha]%elem_of_app; auto.
  - intros a [Ha|Ha]%elem_of_app; auto.
Qed.

Lemma inserted_srt x l l' : inserted x l l' → srt l → srt l'.
Proof.
  intros (l1 & l2 & -> & -> & Ha & Hb) (H1 & H2 & H3)%srt_app. apply srt_app.
  split; [done|]. split; [by apply srt_cons|].
  intros a b Hin [->|Hin']%elem_of_cons; auto.
Qed.

Lemma inserted_perm x l l' : inserted x l l' → l' ≡ₚ x :: l.
Proof. intros (l1 & l2 & -> & -> & _). by rewrite Permutation_middle. Qed.

Context (HM : 2 ≤ M).

(** The keys around the child at a position. *)
Lemma inter_at ls1 l ls2 ks1 ks2 : length ls1 = length ks1 →
  inter (ls1 ++ l :: ls2) (ks1 ++ ks2) = pre ls1 ks1 ++ l ++ post ks2 ls2.
Proof.
  revert ks1. induction ls1 as [|l1 ls1 IH]; intros [|x ks1] Hl; simplify_eq/=; [done|].
  unfold pre. simpl. rewrite <-!(assoc_L (++)). f_equal. simpl. unfold post at 1. simpl.
  specialize (IH ks1 Hl). destruct ls1 as [|l1' ls1]; simpl in *.
  - destruct ks1; [|done]. done.
  - destruct ks1 as [|x' ks1]; [done|]. simpl in *. unfold pre, post in *. simpl in *.
    rewrite <-!(assoc_L (++)) in *. simpl in *. by rewrite IH.
Qed.

Lemma inter_two ls1 l1 x l2 ls2 ks1 ks2 : length ls1 = length ks1 →
  inter (ls1 ++ l1 :: l2 :: ls2) (ks1 ++ x :: ks2) = pre ls1 ks1 ++ (l1 ++ x :: l2) ++ post ks2 ls2.
Proof. intros Hl. rewrite inter_at by done. unfold post. simpl. by rewrite <-(assoc_L (++)). Qed.

Lemma inter_split la lb a x b : length la = S (length a) → lb ≠ [] →
  inter (la ++ lb) (a ++ x :: b) = inter la a ++ x :: inter lb b.
Proof.
  intros Hl Hb. destruct (exists_last (l := la)) as (la' & l & ->); [by destruct la|].
  rewrite length_app in Hl. simpl in Hl. destruct lb as [|l' lb]; [done|].
  rewrite <-(assoc_L (++)). simpl. rewrite inter_two by lia. rewrite <-(app_nil_r a) at 2.
  rewrite inter_at by lia. change (post [] []) with (@nil Z). by rewrite app_nil_r, <-!(assoc_L (++)).
Qed.

Lemma cut {A} (l : list A) n : 0 ≤ n ≤ len l → ∃ l1 l2, l = l1 ++ l2 ∧ len l1 = n.
Proof.
  intros Hn. exists (take (Z.to_nat n) l), (drop (Z.to_nat n) l). rewrite take_drop. split; [done|].
  unfold len in *. rewrite length_take. lia.
Qed.

Lemma cut_at {A} (l : list A) n : 0 ≤ n < len l → ∃ l1 x l2, l = l1 ++ x :: l2 ∧ len l1 = n.
Proof.
  intros Hn. destruct (cut l n) as (l1 & [|x l2] & -> & Hl); [lia| |by exists l1, x, l2].
  rewrite app_nil_r in Hn. lia.
Qed.

Lemma len_replicate {A} n (x : A) : 0 ≤ n → len (replicate (Z.to_nat n) x) = n.
Proof. intros. unfold len. rewrite length_replicate. lia. Qed.

Lemma to_nat_len {A} (l : list A) n : len l = n → Z.to_nat n = length l.
Proof. unfold len. lia. Qed.

(** Copying the last [n] cells of an array to the front of a new one. *)
Lemma copy_tail {A} (a b : list A) d n (z : A) : len a = d → len b = n → n ≤ d →
  for_up (Z.to_nat n) 0 (copy_from (a ++ b) d) (replicate (Z.to_nat (n + d)) z) =
    Some (b ++ replicate (Z.to_nat d) z).
Proof.
  intros Ha Hb Hn. pose proof (len_nonneg b). rewrite (to_nat_len b n Hb).
  replace (Z.to_nat (n + d)) with (length b + Z.to_nat d)%nat by (unfold len in *; lia).
  rewrite replicate_add.
  pose proof (copy_block b a [] [] (replicate (length b) z) (replicate (Z.to_nat d) z) d 0) as Hc.
  rewrite app_nil_r in Hc. apply Hc; [done|unfold len in Ha; lia|by rewrite length_replicate].
Qed.

Lemma no_rest {A} (l r : list A) n : len (l ++ r) = n → len l = n → r = [].
Proof. rewrite len_app. destruct r; [done|]. rewrite len_cons. pose proof (len_nonneg r). lia. Qed.

(** The keys of a full node: the half that stays, the middle one, the half that moves. *)
Lemma halves ks : len ks = 2 * M - 1 → ∃ a x b, ks = a ++ x :: b ∧ len a = M - 1 ∧
  len b = M - 1 ∧ aget ks (M - 1) = Some x ∧
  for_up (Z.to_nat (M - 1)) 0 (copy_from ks M) (k btree_node_new) = Some (b ++ replicate (Z.to_nat M) 0).
Proof.
  intros Hks. destruct (cut_at ks (M - 1)) as (a & x & b & -> & Ha); [lia|].
  rewrite len_app, len_cons in Hks. exists a, x, b. split_and!; [done|done|lia| |].
  - apply aget_app_at. unfold len in Ha. lia.
  - change (x :: b) with ([x] ++ b). rewrite (assoc_L (++)). simpl.
    replace (2 * M - 1) with (M - 1 + M) by lia.
    apply copy_tail; [rewrite len_app; unfold len at 2; simpl; lia|lia|lia].
Qed.

(** The two halves of a full node. *)
Definition splits (h : nat) (c : btree_node) (lc : list Z) : Prop := ∃ nk np l1 x l2,
  for_up (Z.to_nat (M - 1)) 0 (copy_from (k c) M) (k btree_node_new) = Some nk ∧
  (if is_leaf c then Some (p btree_node_new)
   else for_up (Z.to_nat M) 0 (copy_from (p c) M) (p btree_node_new)) = Some np ∧
  aget (k c) (M - 1) = Some x ∧ lc = l1 ++ x :: l2 ∧
  tree h (Node (k c) (p c) (M - 1) (is_leaf c)) l1 ∧ tree h (Node nk np (M - 1) (is_leaf c)) l2.

Lemma split_leaf c lc : tree 0 c lc → key_num c = 2 * M - 1 → splits 0 c lc.
Proof.
  intros (kr & -> & Hlen) Hn. simpl in Hn. rewrite (no_rest _ _ _ Hlen Hn), app_nil_r in *.
  destruct (halves lc Hn) as (a & x & b & -> & Ha & Hb & Hx & Hc).
  exists (b ++ replicate (Z.to_nat M) 0). do 4 eexists. split; [exact Hc|]. simpl. split_and!; try done.
  - exists (x :: b). rewrite Ha. split; [done|]. rewrite len_app, len_cons. lia.
  - exists (replicate (Z.to_nat M) 0). rewrite Hb. split; [done|]. rewrite len_app, len_replicate; lia.
Qed.

Lemma split_branch h c lc : tree (S h) c lc → key_num c = 2 * M - 1 → splits (S h) c lc.
Proof.
  intros (ks & cs & ls & (kr & pr & -> & Hlk & Hlp & Hcs) & Hne & Hall & ->) Hn. simpl in Hn.
  rewrite (no_rest _ _ _ Hlk Hn), app_nil_r in *.
  rewrite (no_rest _ _ _ Hlp) in * by (rewrite len_fmap; unfold len in *; lia). rewrite app_nil_r in *.
  destruct (halves ks Hn) as (a & x & b & -> & Ha & Hb & Hx & Hc).
  destruct (cut cs M) as (ca & cb & -> & Hca); [unfold len in *; lia|].
  apply Forall2_app_inv_l in Hall as (la & lb & Hla & Hlb & ->).
  pose proof (Forall2_length _ _ _ Hla) as Hla'. pose proof (Forall2_length _ _ _ Hlb) as Hlb'.
  rewrite !length_app in Hcs. simpl in Hcs.
  exists (b ++ replicate (Z.to_nat M) 0), ((Some <$> cb) ++ replicate (Z.to_nat M) None).
  do 3 eexists. split; [exact Hc|]. simpl. split_and!; try done.
  - rewrite fmap_app. replace (2 * M) with (M + M) by lia.
    apply copy_tail; rewrite ?len_fmap; unfold len in *; lia.
  - apply inter_split; [unfold len in *; lia|]. destruct lb; [simpl in *; unfold len in *; lia|done].
  - exists a, ca, la. split_and!; try done; [|intros ->; unfold len in Ha; simpl in Ha; lia].
    exists (x :: b), (Some <$> cb). rewrite Ha, fmap_app. split; [done|].
    rewrite !len_app, !len_fmap, len_cons. unfold len in *. lia.
  - exists b, cb, lb. split_and!; try done; [|intros ->; unfold len in Hb; simpl in Hb; lia].
    exists (replicate (Z.to_nat M) 0), (replicate (Z.to_nat M) None). rewrite Hb. split; [done|].
    rewrite !len_app, !len_fmap, !len_replicate by lia. unfold len in *. lia.
Qed.

Lemma split_node h c lc : tree h c lc → key_num c = 2 * M - 1 → splits h c lc.
Proof. destruct h; [apply split_leaf|apply split_branch]. Qed.

(** ** A branch node seen at one child *)

Definition sub (h : nat) (c : btree_node) (lc : list Z) : Prop := tree h c lc ∧ M - 1 ≤ key_num c.

Lemma child_at n ks cs1 c cs2 i : branch n ks (cs1 ++ c :: cs2) → i = len cs1 → child n i = Some c.
Proof.
  intros (kr & pr & -> & _) ->. unfold child. simpl. rewrite fmap_app, <-(assoc_L (++)). simpl.
  rewrite aget_app_at; [done|]. by rewrite length_fmap.
Qed.

Lemma set_child_at n ks cs1 c cs2 c' i : branch n ks (cs1 ++ c :: cs2) → i = len cs1 →
  ∃ n', set_child n i c' = Some n' ∧ branch n' ks (cs1 ++ c' :: cs2) ∧ k n' = k n ∧
    key_num n' = key_num n.
Proof.
  intros (kr & pr & -> & Hk & Hp & Hc) ->. unfold set_child. simpl. rewrite fmap_app in *.
  rewrite <-(assoc_L (++)) in *. simpl in *. rewrite aset_app_at by (by rewrite length_fmap). simpl.
  eexists. split; [done|]. split; [|done]. exists kr, pr. rewrite fmap_app, <-(assoc_L (++)). simpl.
  split_and!; [done..| |].
  - rewrite len_app, len_cons in *. done.
  - rewrite length_app in *. done.
Qed.

Lemma branch_num n ks cs : branch n ks cs → key_num n = len ks ∧ is_leaf n = false.
Proof. by intros (kr & pr & -> & _). Qed.

(** Splitting the full child at [pos]. *)
Lemma split_child_spec h n ks1 ks2 cs1 c cs2 lc :
  branch n (ks1 ++ ks2) (cs1 ++ c :: cs2) → length cs1 = length ks1 → len (ks1 ++ ks2) < 2 * M - 1 →
  tree h c lc → key_num c = 2 * M - 1 →
  ∃ n' c1 c2 l1 x l2, btree_split_child n (len ks1) = Some n' ∧
    branch n' (ks1 ++ x :: ks2) (cs1 ++ c1 :: c2 :: cs2) ∧ lc = l1 ++ x :: l2 ∧
    sub h c1 l1 ∧ sub h c2 l2 ∧ aget (k n') (len ks1) = Some x ∧
    key_num c1 = M - 1 ∧ key_num c2 = M - 1.
Proof.
  intros Hb Hcs1 Hlt Ht Hfull. destruct (split_node h c lc Ht Hfull) as
    (nk & np & l1 & x & l2 & Enk & Enp & Ex & Elc & Ht1 & Ht2).
  set (c1 := Node (k c) (p c) (M - 1) (is_leaf c)). set (c2 := Node nk np (M - 1) (is_leaf c)).
  assert (Hpos : len ks1 = len cs1) by (unfold len; lia).
  unfold btree_split_child. rewrite (child_at n _ cs1 c cs2 _ Hb Hpos). bind_simpl.
  rewrite Enk. bind_simpl. rewrite Enp. simpl.
  destruct Hb as (kr & pr & -> & Hk & Hp & Hc). simpl. rewrite !length_app in Hc. simpl in Hc.
  rewrite !fmap_app, !fmap_cons, <-!(assoc_L (++)) in *. cbn [app] in *.
  destruct kr as [|ky kr]; [rewrite app_nil_r in Hk; lia|].
  destruct pr as [|py pr].
  { rewrite app_nil_r, len_app, len_cons, !len_fmap in Hp. rewrite len_app in Hlt. unfold len in *. lia. }
  replace (Z.to_nat (len (ks1 ++ ks2) - len ks1)) with (length ks2) by (rewrite len_app; unfold len; lia).
  assert (Hmp : ∃ z, for_down (length ks2) (len (ks1 ++ ks2)) move_up
    ((Some <$> cs1) ++ Some c :: (Some <$> cs2) ++ py :: pr) =
    Some ((Some <$> cs1) ++ Some c :: z :: (Some <$> cs2) ++ pr)).
  { destruct (move_up_block (Some <$> cs2) ((Some <$> cs1) ++ [Some c]) py pr (len (ks1 ++ ks2))) as [z Hz].
    - rewrite !length_app, !length_fmap. rewrite len_app. unfold len. simpl. lia.
    - exists z. rewrite length_fmap in Hz. replace (length ks2) with (length cs2) by lia.
      rewrite <-!(assoc_L (++)) in Hz. exact Hz. }
  destruct Hmp as [z ->]. bind_simpl.
  rewrite aset_app_next by (rewrite length_fmap; unfold len; lia). bind_simpl.
  rewrite aset_app_at by (rewrite length_fmap; unfold len; lia). bind_simpl.
  destruct (move_up_block ks2 ks1 ky kr (len (ks1 ++ ks2) - 1)) as [z2 Hz2]; [done|].
  rewrite Hz2. bind_simpl. rewrite Ex. bind_simpl. rewrite aset_app_at by done. bind_simpl.
  exists (Node (ks1 ++ x :: ks2 ++ kr) ((Some <$> cs1) ++ Some c1 :: Some c2 :: (Some <$> cs2) ++ pr)
    (len (ks1 ++ ks2) + 1) false), c1, c2, l1, x, l2.
  split_and!; try done; [|by split..|simpl; by apply aget_app_at].
  exists kr, pr. rewrite fmap_app, !fmap_cons, <-!(assoc_L (++)). cbn [app].
  split; [f_equal; rewrite !len_app, len_cons; lia|]. rewrite !length_app. simpl.
  rewrite !len_app, !len_cons, !len_app, ?len_cons, ?len_app in *. unfold len in *. lia.
Qed.

(** ** Insertion *)

Lemma leaf_shift_spec ls y r x : ∃ a b z, ls = a ++ b ∧
  leaf_shift (length ls) (ls ++ y :: r) x = Some (a ++ z :: b ++ r, length a) ∧
  Forall (Z.lt x) b ∧ ∀ e, last a = Some e → e ≤ x.
Proof.
  revert y r. induction ls as [|e ls IH] using rev_ind; intros y r; [by exists [], [], y|].
  rewrite length_app, Nat.add_1_r, <-(assoc_L (++)). cbn [leaf_shift app]. rewrite aget_app_at by done.
  bind_simpl. destruct (Z.ltb_spec x e).
  - rewrite aset_app_next by lia. bind_simpl.
    destruct (IH e (e :: r)) as (a & b & z & -> & -> & Hb & Ha). exists a, (b ++ [e]), z.
    rewrite <-!(assoc_L (++)). split_and!; try done. apply Forall_app. by repeat constructor.
  - exists (ls ++ [e]), [], y. rewrite app_nil_r, <-(assoc_L (++)), length_app, Nat.add_1_r.
    split_and!; try done. intros e'. rewrite last_snoc. intros [= <-]. done.
Qed.

Lemma descend_spec ls r x : ∃ a b, ls = a ++ b ∧
  descend (length ls) (ls ++ r) x = Some (length a) ∧
  Forall (Z.lt x) b ∧ ∀ e, last a = Some e → e ≤ x.
Proof.
  revert r. induction ls as [|e ls IH] using rev_ind; intros r; [by exists [], []|].
  rewrite length_app, Nat.add_1_r, <-(assoc_L (++)). cbn [descend app]. rewrite aget_app_at by done.
  bind_simpl. destruct (Z.ltb_spec x e).
  - destruct (IH (e :: r)) as (a & b & -> & -> & Hb & Ha). exists a, (b ++ [e]).
    rewrite <-!(assoc_L (++)). split_and!; try done. apply Forall_app. by repeat constructor.
  - exists (ls ++ [e]), []. rewrite app_nil_r, length_app, Nat.add_1_r.
    split_and!; try done. intros e'. rewrite last_snoc. intros [= <-]. done.
Qed.

Lemma insert_leaf fuel n l x : tree 0 n l → key_num n < 2 * M - 1 → srt l →
  ∃ n' l', btree_insert_nonfull (S fuel) n x = Some n' ∧ tree 0 n' l' ∧ inserted x l l' ∧
    key_num n ≤ key_num n'.
Proof.
  intros (kr & -> & Hlen) Hlt Hs. cbn [btree_insert_nonfull is_leaf key_num k p] in *.
  destruct kr as [|y kr]; [rewrite app_nil_r in Hlen; lia|].
  replace (Z.to_nat (len l)) with (length l) by (unfold len; lia).
  destruct (leaf_shift_spec l y kr x) as (a & b & z & -> & -> & Hb & Ha). bind_simpl.
  rewrite aset_app_at by done. bind_simpl. eexists. exists (a ++ x :: b). split; [done|]. split_and!.
  - exists kr. rewrite <-(assoc_L (++)). cbn [app]. rewrite !len_app, !len_cons, ?len_app in *.
    split; [f_equal|]; lia.
  - exists a, b. split_and!; try done.
    + intros e He. destruct (exists_last (l := a)) as (a' & w & ->); [intros ->; by apply elem_of_nil in He|].
      rewrite last_snoc in Ha. specialize (Ha w eq_refl). apply srt_app in Hs as ((_ & _ & Hs)%srt_app & _ & _).
      apply elem_of_app in He as [He| ->%list_elem_of_singleton]; [|done].
      pose proof (Hs e w He ltac:(set_solver)). lia.
    + intros e He. rewrite Forall_forall in Hb. specialize (Hb e He). lia.
  - simpl. lia.
Qed.

(** A branch node around the child behind the keys [ks1]. *)
Record focus (h : nat) (n : btree_node) (ks1 ks2 : list Z) (cs1 : list btree_node) (c : btree_node)
    (cs2 : list btree_node) (ls1 : list (list Z)) (lc : list Z) (ls2 : list (list Z)) : Prop := {
  fo_branch : branch n (ks1 ++ ks2) (cs1 ++ c :: cs2);
  fo_ne : ks1 ++ ks2 ≠ [];
  fo_left : Forall2 (sub h) cs1 ls1;
  fo_mid : sub h c lc;
  fo_right : Forall2 (sub h) cs2 ls2;
  fo_len : length cs1 = length ks1
}.

Section focus.
Context (h : nat) (n : btree_node) (ks1 ks2 : list Z) (cs1 : list btree_node) (c : btree_node)
  (cs2 : list btree_node) (ls1 : list (list Z)) (lc : list Z) (ls2 : list (list Z)).
Context (Hf : focus h n ks1 ks2 cs1 c cs2 ls1 lc ls2).

Lemma focus_lens : length ls1 = length ks1 ∧ length ls2 = length ks2 ∧ length cs2 = length ks2 ∧
  len cs1 = len ks1.
Proof.
  destruct Hf as [(kr & pr & _ & _ & _ & Hc) _ H1 _ H2 Hl].
  apply Forall2_length in H1, H2. rewrite !length_app in Hc. simpl in Hc. unfold len. lia.
Qed.

Lemma focus_tree : tree (S h) n (pre ls1 ks1 ++ lc ++ post ks2 ls2).
Proof.
  destruct focus_lens as (Hl1 & _). destruct Hf as [Hb Hne H1 Hm H2 Hl].
  exists (ks1 ++ ks2), (cs1 ++ c :: cs2), (ls1 ++ lc :: ls2). split_and!; try done.
  - apply Forall2_app; [done|]. by constructor.
  - by rewrite inter_at.
Qed.

Lemma focus_child : child n (len ks1) = Some c.
Proof.
  destruct focus_lens as (_ & _ & _ & Hl). destruct Hf as [Hb _ _ _ _ _]. by eapply child_at.
Qed.

Lemma focus_set c' lc' : sub h c' lc' →
  ∃ n', set_child n (len ks1) c' = Some n' ∧ focus h n' ks1 ks2 cs1 c' cs2 ls1 lc' ls2 ∧
    key_num n' = key_num n.
Proof.
  intros Hc'. destruct focus_lens as (_ & _ & _ & Hl). destruct Hf as [Hb Hne H1 Hm H2 Hlen].
  destruct (set_child_at n _ cs1 c cs2 c' (len ks1) Hb) as (n' & E & Hb' & _ & Hn); [done|].
  exists n'. by split_and!.
Qed.

(** Both sides are on their side of a key that the search leads here. *)
Lemma focus_sides x : srt (pre ls1 ks1 ++ lc ++ post ks2 ls2) →
  (∀ e, last ks1 = Some e → e ≤ x) → Forall (Z.le x) ks2 →
  srt lc ∧ (∀ a, a ∈ pre ls1 ks1 → a ≤ x) ∧ (∀ b, b ∈ post ks2 ls2 → x ≤ b).
Proof.
  intros (Hs1 & (Hs2 & Hs3 & _)%srt_app & _)%srt_app Hk1 Hk2. destruct focus_lens as (Hl1 & Hl2 & _).
  split_and!; [done|by apply pre_le|]. apply post_ge; [done..|].
  intros e He. destruct ks2; [done|]. simpl in He. simplify_eq. by apply Forall_cons in Hk2 as [? _].
Qed.
End focus.

Lemma focus_at h n l ks1 ks2 : (∃ cs ls, branch n (ks1 ++ ks2) cs ∧ ks1 ++ ks2 ≠ [] ∧
    Forall2 (sub h) cs ls ∧ l = inter ls (ks1 ++ ks2)) →
  ∃ cs1 c cs2 ls1 lc ls2, focus h n ks1 ks2 cs1 c cs2 ls1 lc ls2 ∧
    l = pre ls1 ks1 ++ lc ++ post ks2 ls2.
Proof.
  intros (cs & ls & Hb & Hne & Hall & ->). pose proof Hb as (kr & pr & _ & _ & _ & Hc).
  rewrite length_app in Hc.
  destruct (cut_at cs (len ks1)) as (cs1 & c & cs2 & -> & Hl); [unfold len; lia|].
  apply Forall2_app_inv_l in Hall as (ls1 & lr & H1 & H2 & ->).
  apply Forall2_cons_inv_l in H2 as (lc & ls2 & Hm & H2 & ->).
  pose proof (Forall2_length _ _ _ H1). exists cs1, c, cs2, ls1, lc, ls2. split.
  - split; try done. unfold len in Hl. lia.
  - apply inter_at. unfold len in Hl. lia.
Qed.

(** Going on at the child of a focus. *)
Lemma insert_below h fuel n ks1 ks2 cs1 c cs2 ls1 lc ls2 x n0 :
  (∀ c lc, tree h c lc → key_num c < 2 * M - 1 → srt lc →
     ∃ c' lc', btree_insert_nonfull fuel c x = Some c' ∧ tree h c' lc' ∧ inserted x lc lc' ∧
       key_num c ≤ key_num c') →
  focus h n ks1 ks2 cs1 c cs2 ls1 lc ls2 → key_num c < 2 * M - 1 →
  srt (pre ls1 ks1 ++ lc ++ post ks2 ls2) →
  (∀ e, last ks1 = Some e → e ≤ x) → Forall (Z.le x) ks2 → n0 ≤ key_num n →
  ∃ n' l', (c ← child n (len ks1); c ← btree_insert_nonfull fuel c x; set_child n (len ks1) c) = Some n' ∧
    tree (S h) n' l' ∧ inserted x (pre ls1 ks1 ++ lc ++ post ks2 ls2) l' ∧ n0 ≤ key_num n'.
Proof.
  intros IH Hf Hlt Hs Hk1 Hk2 Hn0.
  destruct (focus_sides _ _ _ _ _ _ _ _ _ _ Hf x Hs Hk1 Hk2) as (Hsc & Ha & Hb).
  rewrite (focus_child _ _ _ _ _ _ _ _ _ _ Hf). bind_simpl.
  destruct (fo_mid _ _ _ _ _ _ _ _ _ _ Hf) as [Htc Hmin].
  destruct (IH c lc Htc Hlt Hsc) as (c' & lc' & -> & Htc' & Hins & Hle). bind_simpl.
  destruct (focus_set _ _ _ _ _ _ _ _ _ _ Hf c' lc') as (n' & -> & Hf' & En); [split; [done|lia]|].
  exists n'. eexists. split; [done|]. split; [by eapply focus_tree|]. split; [by apply inserted_in|lia].
Qed.

Lemma tree_num h n l : tree h n l → 0 ≤ key_num n ≤ 2 * M - 1.
Proof.
  destruct h.
  - intros (kr & -> & Hlen). rewrite len_app in Hlen. simpl. unfold len in *. lia.
  - intros (ks & cs & ls & Hb & _). rewrite (proj1 (branch_num _ _ _ Hb)).
    destruct Hb as (kr & pr & _ & Hlen & _). rewrite len_app in Hlen. unfold len in *. lia.
Qed.

(** A split moves the middle key of the child up. *)
Lemma focus_split h n ks1 ks2 cs1 c cs2 ls1 lc ls2 :
  focus h n ks1 ks2 cs1 c cs2 ls1 lc ls2 → len (ks1 ++ ks2) < 2 * M - 1 → key_num c = 2 * M - 1 →
  ∃ n' c1 c2 l1 y l2, btree_split_child n (len ks1) = Some n' ∧ lc = l1 ++ y :: l2 ∧
    aget (k n') (len ks1) = Some y ∧ key_num n' = key_num n + 1 ∧
    key_num c1 = M - 1 ∧ key_num c2 = M - 1 ∧
    focus h n' ks1 (y :: ks2) cs1 c1 (c2 :: cs2) ls1 l1 (l2 :: ls2) ∧
    focus h n' (ks1 ++ [y]) ks2 (cs1 ++ [c1]) c2 cs2 (ls1 ++ [l1]) l2 ls2.
Proof.
  intros [Hb Hne H1 [Hm _] H2 Hl] Hlt Hfull.
  destruct (split_child_spec h n ks1 ks2 cs1 c cs2 lc Hb Hl Hlt Hm Hfull) as
    (n' & c1 & c2 & l1 & y & l2 & E & Hb' & -> & Hc1 & Hc2 & Hy & N1 & N2).
  exists n', c1, c2, l1, y, l2. split_and!; try done.
  - rewrite (proj1 (branch_num _ _ _ Hb)), (proj1 (branch_num _ _ _ Hb')), !len_app, len_cons. lia.
  - split; try done; [by destruct ks1|by constructor].
  - split; try done.
    + by rewrite <-!(assoc_L (++)).
    + by destruct ks1.
    + apply Forall2_app; [done|]. by constructor.
    + rewrite !length_app. simpl. lia.
Qed.

Lemma pre_snoc ls l ks x : length ls = length ks → pre (ls ++ [l]) (ks ++ [x]) = pre ls ks ++ l ++ [x].
Proof.
  intros Hl. unfold pre. rewrite zip_with_app by done. rewrite concat_app. simpl. by rewrite app_nil_r.
Qed.

Lemma post_cons x ks l ls : post (x :: ks) (l :: ls) = x :: l ++ post ks ls.
Proof. done. Qed.

Lemma insert_nonfull_spec h fuel n l x : (h < fuel)%nat → tree h n l → key_num n < 2 * M - 1 → srt l →
  ∃ n' l', btree_insert_nonfull fuel n x = Some n' ∧ tree h n' l' ∧ inserted x l l' ∧
    key_num n ≤ key_num n'.
Proof.
  revert fuel n l. induction h as [|h IH]; intros [|fuel] n l Hfuel Ht Hlt Hs; [lia| |lia|].
  { by apply insert_leaf. }
  destruct Ht as (ks & cs & ls & Hb & Hne & Hall & Hl). pose proof Hb as (kr & pr & En & _).
  cbn [btree_insert_nonfull]. rewrite (proj2 (branch_num _ _ _ Hb)), (proj1 (branch_num _ _ _ Hb)).
  rewrite (proj1 (branch_num _ _ _ Hb)) in Hlt.
  replace (Z.to_nat (len ks)) with (length ks) by (unfold len; lia).
  replace (k n) with (ks ++ kr) by (by subst n).
  destruct (descend_spec ks kr x) as (ks1 & ks2 & -> & -> & Hk2 & Hk1). bind_simpl. fold (len ks1).
  destruct (focus_at h n l ks1 ks2) as (cs1 & c & cs2 & ls1 & lc & ls2 & Hf & ->); [by eexists _, _|].
  pose proof (proj1 (branch_num _ _ _ Hb)) as En'.
  assert (Hk2' : Forall (Z.le x) ks2) by (eapply Forall_impl; [exact Hk2|simpl; lia]).
  assert (Hrec : ∀ c lc, tree h c lc → key_num c < 2 * M - 1 → srt lc →
     ∃ c' lc', btree_insert_nonfull fuel c x = Some c' ∧ tree h c' lc' ∧ inserted x lc lc' ∧
       key_num c ≤ key_num c') by (intros; apply IH; by try lia).
  rewrite (focus_child _ _ _ _ _ _ _ _ _ _ Hf). bind_simpl.
  destruct (Z.eqb_spec (2 * M - 1) (key_num c)) as [Hfull|Hnf].
  2: { bind_simpl. pose proof (fo_mid _ _ _ _ _ _ _ _ _ _ Hf) as [[_ Hc]%tree_num _].
       eapply insert_below; try done; lia. }
  destruct (focus_split _ _ _ _ _ _ _ _ _ _ Hf) as
    (n1 & c1 & c2 & l1 & y & l2 & -> & -> & Hy & Hn1 & N1 & N2 & Hf1 & Hf2); [done|done|].
  bind_simpl. rewrite Hy. bind_simpl. pose proof (focus_lens _ _ _ _ _ _ _ _ _ _ Hf) as (Hl1 & _).
  destruct (Z.ltb_spec y x); bind_simpl.
  - assert (Hpos : len ks1 + 1 = len (ks1 ++ [y])) by (rewrite len_app, len_cons; done).
    rewrite Hpos.
    replace (pre ls1 ks1 ++ (l1 ++ y :: l2) ++ post ks2 ls2) with
      (pre (ls1 ++ [l1]) (ks1 ++ [y]) ++ l2 ++ post ks2 ls2) in *
      by (rewrite pre_snoc, <-!(assoc_L (++)) by done; done).
    eapply insert_below; try done; [lia| |lia]. intros e. rewrite last_snoc. intros [= <-]. lia.
  - replace (pre ls1 ks1 ++ (l1 ++ y :: l2) ++ post ks2 ls2) with
      (pre ls1 ks1 ++ l1 ++ post (y :: ks2) (l2 :: ls2)) in *
      by (rewrite post_cons, <-!(assoc_L (++)); done).
    eapply insert_below; try done; [lia|by constructor|lia].
Qed.

(** The new root above a full one. *)
Lemma new_root_branch root : ∃ n, set_child (Node (k btree_node_new) (p btree_node_new)
  (key_num btree_node_new) false) 0 root = Some n ∧ branch n [] [root].
Proof.
  unfold btree_node_new. cbn [k p key_num]. unfold set_child. cbn [k p key_num is_leaf].
  replace (Z.to_nat (2 * M)) with (S (Z.to_nat (2 * M - 1))) by lia. cbn [replicate].
  pose proof (aset_app_at [] None (replicate (Z.to_nat (2 * M - 1)) None) 0 (Some root)) as E.
  cbn [app] in E. rewrite E by done. bind_simpl. eexists. split; [done|].
  exists (replicate (Z.to_nat (2 * M - 1)) 0), (replicate (Z.to_nat (2 * M - 1)) None).
  cbn [app fmap list_fmap]. rewrite len_cons, !len_replicate by lia. split_and!; try done; lia.
Qed.

Lemma btree_insert_spec h fuel n l x : (S h < fuel)%nat → tree h n l → srt l →
  ∃ h' n' l', btree_insert fuel n x = Some n' ∧ tree h' n' l' ∧ inserted x l l' ∧ (h ≤ h' ≤ S h)%nat.
Proof.
  intros Hfuel Ht Hs. unfold btree_insert. destruct (Z.eqb_spec (2 * M - 1) (key_num n)) as [Hfull|Hnf].
  2: { pose proof (tree_num _ _ _ Ht).
       destruct (insert_nonfull_spec h fuel n l x) as (n' & l' & -> & Ht' & Hins & _);
         [lia|done|lia|done|]. exists h, n', l'. split_and!; try done; lia. }
  destruct (new_root_branch n) as (r & -> & Hb). bind_simpl.
  destruct (split_child_spec h r [] [] [] n [] l Hb) as
    (n' & c1 & c2 & l1 & y & l2 & E & Hb' & -> & Hc1 & Hc2 & _); try done; try (unfold len; simpl; lia).
  change (len []) with 0 in E. rewrite E. bind_simpl.
  assert (Ht' : tree (S h) n' (l1 ++ y :: l2)).
  { exists [y], [c1; c2], [l1; l2]. split_and!; try done.
    - repeat (apply Forall2_cons; split; [done|]). by apply Forall2_nil.
    - cbn [inter]. rewrite post_cons. change (post [] []) with (@nil Z). by rewrite app_nil_r. }
  destruct (insert_nonfull_spec (S h) fuel n' (l1 ++ y :: l2) x) as (n'' & l'' & -> & Ht'' & Hins & _);
    [lia|done| |done|].
  { rewrite (proj1 (branch_num _ _ _ Hb')). change (len ([] ++ [y])) with 1. lia. }
  exists (S h), n'', l''. split_and!; try done; lia.
Qed.

(** ** Searching *)

Lemma last_le_spec ks1 ks2 r x fuel : (length ks2 < fuel)%nat → ∃ a b, ks2 = a ++ b ∧
  last_le fuel (len ks1) (len (ks1 ++ ks2)) (ks1 ++ ks2 ++ r) x = Some (len (ks1 ++ a)) ∧
  Forall (λ e, e ≤ x) a ∧ ∀ e, head b = Some e → x < e.
Proof.
  revert ks1 fuel. induction ks2 as [|e ks2 IH]; intros ks1 [|fuel] Hfuel; simpl in Hfuel; [lia| |lia|].
  { exists [], []. cbn [last_le]. rewrite !app_nil_r, Z.ltb_irrefl. by split_and!. }
  cbn [last_le]. rewrite (proj2 (Z.ltb_lt _ _)) by (rewrite len_app, len_cons; pose proof (len_nonneg ks2); lia).
  cbn [app]. rewrite aget_app_at by done. bind_simpl. destruct (Z.leb_spec e x).
  - destruct (IH (ks1 ++ [e]) fuel) as (a & b & -> & E & Ha & Hb); [lia|].
    exists (e :: a), b. rewrite <-!(assoc_L (++)) in E. cbn [app] in E.
    replace (len ks1 + 1) with (len (ks1 ++ [e])) by (rewrite len_app, len_cons; done).
    rewrite <-!(assoc_L (++)), E. split_and!; try done. by constructor.
  - exists [], (e :: ks2). rewrite app_nil_r. split_and!; try done. by intros ? [= <-].
Qed.

(** The position at which a search leaves a node, whatever it goes on with. *)
Lemma find_pos ks kr x (K : Z → option bool) : 0 < len (ks ++ kr) → ∃ a b, ks = a ++ b ∧
  (∀ e, last a = Some e → e ≤ x) ∧ (∀ e, head b = Some e → x < e) ∧
  (y ← aget (ks ++ kr) 0;
   if x <? y then K 0
   else
     i ← last_le (S (length (ks ++ kr))) 0 (len ks) (ks ++ kr) x;
     hit ← (if 0 <? i then y ← aget (ks ++ kr) (i - 1); Some (y =? x) else Some false);
     if hit : bool then Some true else K i) =
  if bool_decide (last a = Some x) then Some true else K (len a).
Proof.
  intros Hlen. destruct (ks ++ kr) as [|y0 r0] eqn:E; [done|].
  pose proof (aget_app_at [] y0 r0 0 eq_refl) as E0. cbn [app] in E0. rewrite E0, <-E. bind_simpl.
  destruct (Z.ltb_spec x y0) as [Hlt|Hge].
  - exists [], ks. split_and!; try done.
    intros e He. destruct ks as [|e' ks]; [done|]. cbn [app] in E. simpl in He. congruence.
  - destruct (last_le_spec [] ks kr x (S (length (ks ++ kr)))) as (a & b & -> & El & Ha & Hb);
      [rewrite length_app; lia|].
    cbn [app] in El. change (len []) with 0 in El. rewrite El. bind_simpl. exists a, b.
    split; [done|]. split; [rewrite Forall_forall in Ha; intros e He; by apply Ha, last_Some_elem_of|].
    split; [done|]. destruct a as [|e a _] using rev_ind; [done|].
    rewrite last_snoc, len_app, len_cons. change (len []) with 0. pose proof (len_nonneg a).
    rewrite (proj2 (Z.ltb_lt _ _)) by lia. rewrite <-!(assoc_L (++)). cbn [app].
    rewrite aget_app_at by (unfold len; lia). bind_simpl.
    destruct (Z.eqb_spec e x); case_bool_decide; congruence.
Qed.

Lemma find_leaf n l x fuel : tree 0 n l → srt l →
  find_from (S fuel) (Some n) x = Some (bool_decide (x ∈ l)).
Proof.
  intros (kr & -> & Hlen) Hs. cbn [find_from k p key_num].
  destruct (find_pos l kr x (λ i, q ← aget (replicate (Z.to_nat (2 * M)) None) i; find_from fuel q x))
    as (a & b & -> & Ha & Hb & E); [lia|].
  rewrite E. apply srt_app in Hs as (Hsa & Hsb & _). case_bool_decide as Hx.
  - rewrite bool_decide_eq_true_2; [done|]. apply elem_of_app. left. by apply last_Some_elem_of.
  - rewrite len_app, len_app in Hlen. pose proof (len_nonneg b). pose proof (len_nonneg kr).
    unfold len at 1. rewrite aget_nat, lookup_replicate_2 by (unfold len in *; lia). bind_simpl.
    replace (find_from fuel None x) with (Some false) by (by destruct fuel).
    rewrite bool_decide_eq_false_2; [done|]. intros [Hin|Hin]%elem_of_app.
    + destruct (last a) as [e|] eqn:El; [|by apply last_None in El; subst; apply not_elem_of_nil in Hin].
      pose proof (srt_last a e x Hsa El Hin). specialize (Ha e eq_refl). by replace e with x in Hx by lia.
    + destruct (head b) as [e|] eqn:Eh; [|by destruct b; [apply not_elem_of_nil in Hin|]].
      pose proof (srt_head b e x Hsb Eh Hin). specialize (Hb e eq_refl). lia.
Qed.

Lemma find_from_spec h n l x fuel : (h < fuel)%nat → tree h n l → srt l →
  find_from fuel (Some n) x = Some (bool_decide (x ∈ l)).
Proof.
  revert n l fuel. induction h as [|h IH]; intros n l [|fuel] Hfuel Ht Hs; [lia| |lia|].
  { by apply find_leaf. }
  destruct Ht as (ks & cs & ls & Hb & Hne & Hall & Hl). pose proof Hb as (kr & pr & En & Hk & _).
  cbn [find_from]. rewrite (proj1 (branch_num _ _ _ Hb)). replace (k n) with (ks ++ kr) by (by subst n).
  destruct (find_pos ks kr x (λ i, q ← aget (p n) i; find_from fuel q x))
    as (ks1 & ks2 & -> & Ha & Hh & ->); [lia|].
  destruct (focus_at h n l ks1 ks2) as (cs1 & c & cs2 & ls1 & lc & ls2 & Hf & ->); [by eexists _, _|].
  pose proof (focus_lens _ _ _ _ _ _ _ _ _ _ Hf) as (Hl1 & Hl2 & _).
  pose proof (focus_child _ _ _ _ _ _ _ _ _ _ Hf) as Hc. unfold child in Hc.
  case_bool_decide as Hx.
  - rewrite bool_decide_eq_true_2; [done|]. apply elem_of_app. left. apply last_Some in Hx as [ks ->].
    destruct ls1 as [|ll ls1 _] using rev_ind; [rewrite length_app in Hl1; simpl in Hl1; lia|].
    rewrite !length_app in Hl1. simpl in Hl1. rewrite pre_snoc by lia.
    apply elem_of_app. right. apply elem_of_app. right. by left.
  - destruct (aget (p n) (len ks1)) as [[c'|]|]; simplify_eq/=.
    apply srt_app in Hs as (Hs1 & (Hs2 & Hs3 & _)%srt_app & _).
    destruct (fo_mid _ _ _ _ _ _ _ _ _ _ Hf) as [Htc _].
    rewrite (IH c lc fuel) by (done || lia). f_equal. apply bool_decide_ext.
    split; [intros Hin; apply elem_of_app; right; apply elem_of_app; by left|].
    intros [Hin|[Hin|Hin]%elem_of_app]%elem_of_app; [|done|].
    + pose proof (pre_le ls1 ks1 (x - 1) Hl1 Hs1) as Hle. enough (x ≤ x - 1) by lia. apply Hle; [|done].
      intros e He. specialize (Ha e He). enough (e ≠ x) by lia. by intros ->.
    + pose proof (post_ge ks2 ls2 (x + 1) Hl2 Hs3) as Hge. enough (x + 1 ≤ x) by lia. apply Hge; [|done].
      intros e He. specialize (Hh e He). lia.
Qed.

Lemma tree_new : tree 0 btree_node_new [].
Proof. exists (replicate (Z.to_nat (2 * M - 1)) 0). cbn [app]. by rewrite len_replicate by lia. Qed.

End btree.
