(* ===== verification/BTreeDelete.v ===== *)
(** * Deletion from the B-tree (src/app/simpleBtree/btree.cc)

    What the operations that move keys between the nodes of a tree do to the list of its
    keys, the deletion of a key that is present, and the tree as a multiset of keys. *)

From stdpp Require Import gmultiset.
From S2P Require Import Prelude Arrays BTree.

Section delete.
Context (M : Z) (HM : 2 ≤ M).
#[local] Abbreviation tree := (tree M).
#[local] Abbreviation sub := (sub M).
#[local] Abbreviation branch := (branch M).
#[local] Abbreviation focus := (focus M).

(** ** Two neighbouring children *)

(** Joining two nodes with the least number of keys around the key [x]. *)
Definition joins (h : nat) (y : btree_node) (x : Z) (z : btree_node) (l : list Z) : Prop := ∃ yk yp yk',
  for_up (Z.to_nat (M - 1)) M (copy_from (k z) (- M)) (k y) = Some yk' ∧
  aset yk' (M - 1) x = Some yk ∧
  (if is_leaf z then Some (p y) else for_up (Z.to_nat M) M (copy_from (p z) (- M)) (p y)) = Some yp ∧
  tree h (Node yk yp (2 * M - 1) (is_leaf y)) l.

(** The keys of both nodes end up in the first one. *)
Lemma join_keys (ky kr kz kr' : list Z) x : len ky = M - 1 → len (ky ++ kr) = 2 * M - 1 →
  len kz = M - 1 → ∃ yk', for_up (Z.to_nat (M - 1)) M (copy_from (kz ++ kr') (- M)) (ky ++ kr) = Some yk' ∧
    aset yk' (M - 1) x = Some (ky ++ x :: kz).
Proof.
  intros Hy Hyr Hz. rewrite len_app in Hyr. destruct kr as [|w kr]; [unfold len in *; simpl in *; lia|].
  rewrite len_cons in Hyr. rewrite (to_nat_len kz (M - 1) Hz).
  pose proof (copy_block kz [] kr' (ky ++ [w]) kr [] (- M) M) as E. rewrite !app_nil_r in E.
  rewrite <-!(assoc_L (++)) in E. cbn [app] in E. rewrite E; cycle 1.
  { rewrite length_app. unfold len in *. simpl. lia. }
  { simpl. lia. }
  { unfold len in *. lia. }
  eexists. split; [done|]. apply aset_app_at. unfold len in *. lia.
Qed.

Lemma join_leaf y x z ly lz : tree 0 y ly → tree 0 z lz → key_num y = M - 1 → key_num z = M - 1 →
  joins 0 y x z (ly ++ x :: lz).
Proof.
  intros (kr & -> & Hy) (kr' & -> & Hz) Ny Nz. cbn [key_num] in *.
  destruct (join_keys ly kr lz kr' x Ny Hy Nz) as (yk' & E1 & E2).
  eexists _, _, yk'. cbn [k p is_leaf key_num]. split; [exact E1|]. split; [exact E2|]. split; [done|].
  exists []. rewrite app_nil_r, len_app, len_cons. split; [f_equal|]; lia.
Qed.

Lemma join_branch h y x z ly lz : tree (S h) y ly → tree (S h) z lz → key_num y = M - 1 →
  key_num z = M - 1 → joins (S h) y x z (ly ++ x :: lz).
Proof.
  intros (ky & cy & lly & (kr & pr & -> & Hyk & Hyp & Hyc) & Hney & Hally & ->)
    (kz & cz & llz & (kr' & pr' & -> & Hzk & Hzp & Hzc) & Hnez & Hallz & ->) Ny Nz. cbn [key_num] in *.
  destruct (join_keys ky kr kz kr' x Ny Hyk Nz) as (yk' & E1 & E2).
  eexists _, ((Some <$> cy) ++ (Some <$> cz)), yk'. cbn [k p is_leaf key_num].
  split; [exact E1|]. split; [exact E2|]. split.
  - pose proof (copy_block (Some <$> cz) [] pr' (Some <$> cy) pr [] (- M) M) as E.
    rewrite !app_nil_r, !length_fmap in E. cbn [app] in E.
    replace (Z.to_nat M) with (length cz) by (unfold len in *; lia).
    rewrite len_app, len_fmap in Hyp. apply E; rewrite ?length_fmap; unfold len in *; simpl; lia.
  - exists (ky ++ x :: kz), (cy ++ cz), (lly ++ llz). split_and!.
    + exists [], []. rewrite !app_nil_r, fmap_app, !len_app, !len_fmap, len_cons, !length_app. simpl.
      unfold len in *. split; [f_equal; lia|lia].
    + by destruct ky.
    + by apply Forall2_app.
    + symmetry. apply Forall2_length in Hally, Hallz. apply inter_split; [lia|].
      destruct llz; [simpl in *; lia|done].
Qed.

Lemma join_nodes h y x z ly lz : tree h y ly → tree h z lz → key_num y = M - 1 → key_num z = M - 1 →
  joins h y x z (ly ++ x :: lz).
Proof. destruct h; [apply join_leaf|apply join_branch]. Qed.

(** What moves along with a key at the end of a node: the child behind it, with its keys. *)
Definition hang (h : nat) (q : option btree_node) (l : list Z) : Prop :=
  match h with O => l = [] | S h => ∃ c, q = Some c ∧ sub h c l end.

Lemma tree_leaf h n l : tree h n l → is_leaf n = bool_decide (h = 0%nat).
Proof. destruct h; [by intros (kr & -> & _)|]. by intros (ks & cs & ls & (kr & pr & -> & _) & _). Qed.

Lemma take_last h y ly : tree h y ly → M ≤ key_num y → ∃ u ly' q ll,
  aget (k y) (key_num y - 1) = Some u ∧ (is_leaf y = false → aget (p y) (key_num y) = Some q) ∧
  tree h (Node (k y) (p y) (key_num y - 1) (is_leaf y)) ly' ∧ ly = ly' ++ u :: ll ∧ hang h q ll.
Proof.
  intros Ht Hn. destruct h as [|h].
  - destruct Ht as (kr & -> & Hlen). cbn [k p key_num is_leaf] in *.
    destruct ly as [|u ly _] using rev_ind; [unfold len in Hn; simpl in Hn; lia|].
    exists u, ly, None, []. replace (len (ly ++ [u])) with (len ly + 1) in * by (by rewrite len_app).
    rewrite <-(assoc_L (++)) in *. cbn [app] in *.
    split_and!; try done; [apply aget_app_at; unfold len; lia|].
    exists (u :: kr). split; [f_equal; lia|done].
  - destruct Ht as (ks & cs & ls & (kr & pr & -> & Hk & Hp & Hc) & Hne & Hall & ->).
    cbn [k p key_num is_leaf] in *.
    destruct ks as [|u ks _] using rev_ind; [done|]. destruct cs as [|c cs _] using rev_ind; [done|].
    apply Forall2_app_inv_l in Hall as (ls' & lr & Hall & (ll & lr' & Hll & ->%Forall2_nil_inv_l & ->)%Forall2_cons_inv_l & ->).
    rewrite !length_app in Hc. simpl in Hc. pose proof (Forall2_length _ _ _ Hall) as Hl.
    replace (len (ks ++ [u])) with (len ks + 1) in * by (by rewrite len_app).
    exists u, (inter ls' ks), (Some c), ll. rewrite !fmap_app, <-!(assoc_L (++)) in *. cbn [app fmap list_fmap] in *.
    split_and!.
    + apply aget_app_at. unfold len. lia.
    + intros _. apply aget_app_at. rewrite length_fmap. unfold len. lia.
    + exists ks, cs, ls'. split_and!; try done; [|intros ->; unfold len in Hn; simpl in Hn; lia].
      exists (u :: kr), (Some c :: pr). split_and!; try done; [f_equal; lia|lia].
    + rewrite inter_split by (done || lia). f_equal. f_equal. cbn [inter]. apply app_nil_r.
    + by exists c.
Qed.

Lemma put_last h y ly x q ll : tree h y ly → key_num y < 2 * M - 1 → hang h q ll → ∃ yk yp,
  aset (k y) (key_num y) x = Some yk ∧
  (if is_leaf y then Some (p y) else aset (p y) (key_num y + 1) q) = Some yp ∧
  tree h (Node yk yp (key_num y + 1) (is_leaf y)) (ly ++ x :: ll).
Proof.
  intros Ht Hn Hq. destruct h as [|h].
  - destruct Ht as (kr & -> & Hlen). cbn [k p key_num is_leaf] in *. simpl in Hq. subst ll.
    destruct kr as [|w kr]; [rewrite app_nil_r in Hlen; lia|].
    rewrite aset_app_at by done. do 2 eexists. split; [done|]. split; [done|].
    exists kr. rewrite <-(assoc_L (++)). cbn [app]. rewrite !len_app, !len_cons in *.
    change (len []) with 0. split; [f_equal|]; lia.
  - destruct Ht as (ks & cs & ls & (kr & pr & -> & Hk & Hp & Hc) & Hne & Hall & ->).
    destruct Hq as (c & -> & Hc'). cbn [k p key_num is_leaf] in *.
    destruct kr as [|w kr]; [rewrite app_nil_r in Hk; lia|].
    destruct pr as [|w' pr]; [rewrite app_nil_r, len_fmap in Hp; unfold len in *; lia|].
    rewrite aset_app_at by done. rewrite aset_app_at by (rewrite length_fmap; unfold len; lia).
    do 2 eexists. split; [done|]. split; [done|].
    exists (ks ++ [x]), (cs ++ [c]), (ls ++ [ll]). pose proof (Forall2_length _ _ _ Hall) as Hl. split_and!.
    + exists kr, pr. rewrite fmap_app, <-!(assoc_L (++)). cbn [app fmap list_fmap].
      rewrite !len_app, !len_cons, ?len_fmap, !length_app in *. change (len []) with 0. simpl.
      split; [f_equal|]; lia.
    + by destruct ks.
    + apply Forall2_app; [done|]. by constructor.
    + rewrite inter_split by (done || lia). cbn [inter]. by rewrite app_nil_r.
Qed.

(** The loop that moves the first [n] cells of an array one place up. *)
Lemma pull_up_front {A} (a : list A) n y b : len a = n → ∃ z,
  for_down (Z.to_nat n) n pull_up (a ++ y :: b) = Some (z :: a ++ b).
Proof.
  intros Ha. rewrite (to_nat_len a n Ha), for_down_pull_up.
  destruct (move_up_block a [] y b (n - 1)) as [z E]; [unfold len in Ha; simpl; lia|]. by exists z.
Qed.

(** The loop that moves all but the first of the first [n] cells one place down. *)
Lemma move_down_front {A} x (a b : list A) n : len a = n → ∃ z,
  for_up (Z.to_nat n) 1 move_down (x :: a ++ b) = Some (a ++ z :: b).
Proof.
  intros Ha. rewrite (to_nat_len a n Ha).
  destruct (move_down_block a [] x b 1) as [z E]; [done|]. by exists z.
Qed.

Lemma aset_first {A} (z : A) l x : aset (z :: l) 0 x = Some (x :: l).
Proof. apply (aset_app_at [] z l 0 x). done. Qed.

Lemma aget_first {A} (x : A) l : aget (x :: l) 0 = Some x.
Proof. apply (aget_app_at [] x l 0). done. Qed.

Lemma put_first h z lz x q ll : tree h z lz → key_num z < 2 * M - 1 → hang h q ll → ∃ zk' zk zp,
  for_down (Z.to_nat (key_num z)) (key_num z) pull_up (k z) = Some zk' ∧ aset zk' 0 x = Some zk ∧
  (if is_leaf z then Some (p z)
   else q' ← for_down (Z.to_nat (key_num z + 1)) (key_num z + 1) pull_up (p z); aset q' 0 q) = Some zp ∧
  tree h (Node zk zp (key_num z + 1) (is_leaf z)) (ll ++ x :: lz).
Proof.
  intros Ht Hn Hq. destruct h as [|h].
  - destruct Ht as (kr & -> & Hlen). cbn [k p key_num is_leaf] in *. simpl in Hq. subst ll.
    destruct kr as [|w kr]; [rewrite app_nil_r in Hlen; lia|].
    destruct (pull_up_front lz (len lz) w kr) as [z' E]; [done|]. rewrite E.
    do 3 eexists. split; [done|]. rewrite aset_first. split; [done|]. split; [done|].
    exists kr. cbn [app]. rewrite len_cons, len_app, ?len_cons in *. rewrite len_app. split; [f_equal|]; lia.
  - destruct Ht as (ks & cs & ls & (kr & pr & -> & Hk & Hp & Hc) & Hne & Hall & ->).
    destruct Hq as (c & -> & Hc'). cbn [k p key_num is_leaf] in *.
    destruct kr as [|w kr]; [rewrite app_nil_r in Hk; lia|].
    destruct pr as [|w' pr]; [rewrite app_nil_r, len_fmap in Hp; unfold len in *; lia|].
    destruct (pull_up_front ks (len ks) w kr) as [z' E]; [done|]. rewrite E.
    destruct (pull_up_front (Some <$> cs) (len ks + 1) w' pr) as [z2 E2];
      [rewrite len_fmap; unfold len; lia|].
    rewrite E2. do 3 eexists. split; [done|]. rewrite aset_first. split; [done|]. bind_simpl.
    rewrite aset_first. split; [done|].
    exists (x :: ks), (c :: cs), (ll :: ls). pose proof (Forall2_length _ _ _ Hall) as Hl. split_and!; try done.
    + exists kr, pr. cbn [app fmap list_fmap]. rewrite !len_cons, !len_app, !len_cons in *.
      change (list_fmap _ _ Some cs) with (Some <$> cs). rewrite ?len_fmap in *. simpl.
      split; [f_equal|]; lia.
    + by constructor.
    + destruct ls; [simpl in *; lia|done].
Qed.

Lemma take_first h z lz : tree h z lz → M ≤ key_num z → ∃ u ll lz' q zk zp,
  aget (k z) 0 = Some u ∧ for_up (Z.to_nat (key_num z - 1)) 1 move_down (k z) = Some zk ∧
  (if is_leaf z then zp = p z
   else aget (p z) 0 = Some q ∧ for_up (Z.to_nat (key_num z)) 1 move_down (p z) = Some zp) ∧
  tree h (Node zk zp (key_num z - 1) (is_leaf z)) lz' ∧ lz = ll ++ u :: lz' ∧ hang h q ll.
Proof.
  intros Ht Hn. destruct h as [|h].
  - destruct Ht as (kr & -> & Hlen). cbn [k p key_num is_leaf] in *.
    destruct lz as [|u lz]; [unfold len in Hn; simpl in Hn; lia|].
    destruct (move_down_front u lz kr (len (u :: lz) - 1)) as [z' E]; [rewrite len_cons; lia|].
    cbn [app]. exists u, [], lz, None. do 2 eexists. rewrite E, aget_first. split_and!; try done.
    exists (z' :: kr). rewrite len_app, !len_cons in *. rewrite ?len_app, ?len_cons. split; [f_equal|]; lia.
  - destruct Ht as (ks & cs & ls & (kr & pr & -> & Hk & Hp & Hc) & Hne & Hall & ->).
    cbn [k p key_num is_leaf] in *. destruct ks as [|u ks]; [done|]. destruct cs as [|c cs]; [done|].
    apply Forall2_cons_inv_l in Hall as (ll & ls' & Hll & Hall & ->).
    destruct (move_down_front u ks kr (len (u :: ks) - 1)) as [z' E]; [rewrite len_cons; lia|].
    destruct (move_down_front (Some c) (Some <$> cs) pr (len (u :: ks))) as [z2 E2];
      [rewrite len_fmap; unfold len; simpl in *; lia|].
    cbn [app fmap list_fmap] in *. change (list_fmap _ _ Some cs) with (Some <$> cs) in *.
    exists u, ll, (inter ls' ks), (Some c). do 2 eexists. rewrite E, E2, !aget_first.
    split_and!; try done; [| |by exists c].
    + exists ks, cs, ls'. split_and!; try done; [|intros ->; unfold len in Hn; simpl in Hn; lia].
      exists (z' :: kr), (z2 :: pr).
      rewrite !len_cons, !len_app, ?len_cons, ?len_fmap in *. rewrite ?len_fmap. simpl in Hc.
      split; [f_equal|]; lia.
    + destruct ls' as [|l1 ls']; [|done]. apply Forall2_length in Hall. simpl in *. lia.
Qed.

(** ** The parent of two children *)

Lemma key_at n ks1 x ks2 cs : branch n (ks1 ++ x :: ks2) cs → aget (k n) (len ks1) = Some x.
Proof.
  intros (kr & pr & -> & _). cbn [k]. rewrite <-(assoc_L (++)). cbn [app]. by apply aget_app_at.
Qed.

Lemma set_key_at n ks1 x ks2 cs u : branch n (ks1 ++ x :: ks2) cs →
  ∃ n', set_key n (len ks1) u = Some n' ∧ branch n' (ks1 ++ u :: ks2) cs ∧ key_num n' = key_num n.
Proof.
  intros (kr & pr & -> & Hk & Hp & Hc). unfold set_key. cbn [k p key_num is_leaf].
  rewrite <-(assoc_L (++)) in *. cbn [app] in *. rewrite aset_app_at by done. bind_simpl.
  eexists. split; [done|]. split; [|done]. exists kr, pr. rewrite <-(assoc_L (++)). cbn [app].
  split_and!; [f_equal| |done|].
  - by rewrite !len_app, !len_cons.
  - by rewrite !len_app, !len_cons in *.
  - by rewrite !length_app in *.
Qed.

Lemma focus_next h n ks1 x ks2 cs1 y z cs2 ls1 ly lz ls2 :
  focus h n ks1 (x :: ks2) cs1 y (z :: cs2) ls1 ly (lz :: ls2) ↔
  focus h n (ks1 ++ [x]) ks2 (cs1 ++ [y]) z cs2 (ls1 ++ [ly]) lz ls2 ∧ length cs1 = length ls1.
Proof.
  split.
  - intros [Hb Hne H1 Hm H2 Hl]. pose proof (Forall2_length _ _ _ H1). inversion H2; subst. split; [|done].
    split; try done.
    + by rewrite <-!(assoc_L (++)).
    + by destruct ks1.
    + apply Forall2_app; [done|]. by constructor.
    + rewrite !length_app. simpl. lia.
  - intros [[Hb Hne H1 Hm H2 Hl] Hlen]. apply Forall2_app_inv in H1 as [H1 H3]; [|done].
    rewrite <-!(assoc_L (++)) in Hb. inversion H3; subst. split; try done.
    + by destruct ks1.
    + by constructor.
    + rewrite !length_app in Hl. simpl in Hl. lia.
Qed.

Section pair.
Context (h : nat) (n : btree_node) (ks1 : list Z) (x : Z) (ks2 : list Z) (cs1 : list btree_node)
  (y z : btree_node) (cs2 : list btree_node) (ls1 : list (list Z)) (ly lz : list Z) (ls2 : list (list Z)).
Context (Hf : focus h n ks1 (x :: ks2) cs1 y (z :: cs2) ls1 ly (lz :: ls2)).

Lemma pair_children : child n (len ks1) = Some y ∧ child n (len ks1 + 1) = Some z ∧
  aget (k n) (len ks1) = Some x.
Proof.
  pose proof (proj1 (focus_next _ _ _ _ _ _ _ _ _ _ _ _ _) Hf) as [Hz _]. split_and!.
  - by eapply focus_child.
  - apply focus_child in Hz. by rewrite len_app in Hz.
  - by eapply key_at, fo_branch.
Qed.

(** Both children and the key between them replaced. *)
Lemma pair_set u y' z' ly' lz' : sub h y' ly' → sub h z' lz' →
  ∃ n1 n2 n', set_key n (len ks1) u = Some n1 ∧ set_child n1 (len ks1) y' = Some n2 ∧
    set_child n2 (len ks1 + 1) z' = Some n' ∧ key_num n' = key_num n ∧
    focus h n' ks1 (u :: ks2) cs1 y' (z' :: cs2) ls1 ly' (lz' :: ls2).
Proof.
  intros Hy Hz. destruct Hf as [Hb Hne H1 Hm H2 Hl]. assert (Hpos : len ks1 = len cs1) by (unfold len; lia).
  destruct (set_key_at n ks1 x ks2 _ u Hb) as (n1 & E1 & Hb1 & N1).
  destruct (set_child_at M n1 _ cs1 y _ y' (len ks1) Hb1 Hpos) as (n2 & E2 & Hb2 & _ & N2).
  replace (cs1 ++ y' :: z :: cs2) with ((cs1 ++ [y']) ++ z :: cs2) in Hb2 by (by rewrite <-(assoc_L (++))).
  destruct (set_child_at M n2 _ (cs1 ++ [y']) z _ z' (len ks1 + 1) Hb2) as (n3 & E3 & Hb3 & _ & N3);
    [rewrite Hpos, len_app; done|].
  rewrite <-(assoc_L (++)) in Hb3. exists n1, n2, n3. split_and!; try done; [lia|].
  apply Forall2_cons in H2 as [_ H2]. split; try done; [by destruct ks1|by constructor].
Qed.

Lemma shift_right_spec : M ≤ key_num y → key_num z < 2 * M - 1 →
  ∃ n' u y' z' ly' lz', btree_shift_to_right_child n (len ks1) = Some n' ∧
    focus h n' ks1 (u :: ks2) cs1 y' (z' :: cs2) ls1 ly' (lz' :: ls2) ∧
    ly ++ x :: lz = ly' ++ u :: lz' ∧ key_num n' = key_num n ∧ key_num z' = key_num z + 1 ∧ lz ⊆ lz'.
Proof.
  intros Hy Hz. destruct pair_children as (Ey & Ez & Ex).
  destruct (fo_mid _ _ _ _ _ _ _ _ _ _ _ Hf) as [Hty Hny].
  pose proof (fo_right _ _ _ _ _ _ _ _ _ _ _ Hf) as H2. apply Forall2_cons in H2 as [[Htz Hnz] _].
  destruct (take_last h y ly Hty Hy) as (u & ly' & q & ll & Eu & Eq & Hty' & Ely & Hq).
  destruct (put_first h z lz x q ll Htz Hz Hq) as (zk' & zk & zp & E1 & E2 & E3 & Htz').
  edestruct (pair_set u) as (n1 & n2 & n' & S1 & S2 & S3 & Nn & Hf');
    [split; [exact Hty'|simpl; lia]|split; [exact Htz'|simpl; lia]|].
  exists n', u. do 4 eexists. split; [|split; [exact Hf'|]].
  - unfold btree_shift_to_right_child. rewrite Ey. bind_simpl. rewrite Ez. bind_simpl.
    replace (key_num z + 1 - 1) with (key_num z) by lia. rewrite E1. bind_simpl. rewrite Ex. bind_simpl.
    rewrite E2. bind_simpl. rewrite Eu. bind_simpl. rewrite S1. bind_simpl.
    assert (is_leaf y = is_leaf z) as El by (by rewrite (tree_leaf _ _ _ Hty), (tree_leaf _ _ _ Htz)).
    rewrite El in *. destruct (is_leaf z); bind_simpl.
    + simplify_eq. rewrite S2. bind_simpl. exact S3.
    + destruct (for_down _ _ pull_up (p z)); [|done]. bind_simpl. rewrite Eq by done. bind_simpl.
      cbn [mbind option_bind] in E3. rewrite E3. bind_simpl. rewrite S2. bind_simpl. exact S3.
  - split_and!; [by rewrite Ely, <-!(assoc_L (++))|done|done|].
    intros a Ha. apply elem_of_app. right. by right.
Qed.

Lemma shift_left_spec : key_num y < 2 * M - 1 → M ≤ key_num z →
  ∃ n' u y' z' ly' lz', btree_shift_to_left_child n (len ks1) = Some n' ∧
    focus h n' ks1 (u :: ks2) cs1 y' (z' :: cs2) ls1 ly' (lz' :: ls2) ∧
    ly ++ x :: lz = ly' ++ u :: lz' ∧ key_num n' = key_num n ∧ key_num y' = key_num y + 1 ∧ ly ⊆ ly'.
Proof.
  intros Hy Hz. destruct pair_children as (Ey & Ez & Ex).
  destruct (fo_mid _ _ _ _ _ _ _ _ _ _ _ Hf) as [Hty Hny].
  pose proof (fo_right _ _ _ _ _ _ _ _ _ _ _ Hf) as H2. apply Forall2_cons in H2 as [[Htz Hnz] _].
  destruct (take_first h z lz Htz Hz) as (u & ll & lz' & q & zk & zp & Eu & E1 & E2 & Htz' & Elz & Hq).
  destruct (put_last h y ly x q ll Hty Hy Hq) as (yk & yp & F1 & F2 & Hty').
  edestruct (pair_set u) as (n1 & n2 & n' & S1 & S2 & S3 & Nn & Hf');
    [split; [exact Hty'|simpl; lia]|split; [exact Htz'|simpl; lia]|].
  exists n', u. do 4 eexists. split; [|split; [exact Hf'|]].
  - unfold btree_shift_to_left_child. rewrite Ey. bind_simpl. rewrite Ez. bind_simpl. rewrite Ex. bind_simpl.
    replace (key_num y + 1 - 1) with (key_num y) by lia. rewrite F1. bind_simpl. rewrite Eu. bind_simpl.
    rewrite S1. bind_simpl. rewrite E1. bind_simpl.
    assert (is_leaf y = is_leaf z) as El by (by rewrite (tree_leaf _ _ _ Hty), (tree_leaf _ _ _ Htz)).
    rewrite El in *. destruct (is_leaf z).
    + simplify_eq. bind_simpl. rewrite S2. bind_simpl. exact S3.
    + destruct E2 as [-> ->]. bind_simpl. rewrite F2. bind_simpl. rewrite S2. bind_simpl. exact S3.
  - split_and!; [by rewrite Elz, <-!(assoc_L (++))|done|done|].
    intros a Ha. apply elem_of_app. by left.
Qed.

Lemma merge_spec : key_num y = M - 1 → key_num z = M - 1 →
  ∃ n' y', btree_merge_child M n (len ks1) = Some n' ∧ branch n' (ks1 ++ ks2) (cs1 ++ y' :: cs2) ∧
    tree h y' (ly ++ x :: lz) ∧ key_num y' = 2 * M - 1 ∧ key_num n' = key_num n - 1.
Proof.
  intros Hy Hz. destruct pair_children as (Ey & Ez & Ex).
  destruct (fo_mid _ _ _ _ _ _ _ _ _ _ _ Hf) as [Hty Hny].
  pose proof (fo_right _ _ _ _ _ _ _ _ _ _ _ Hf) as H2. apply Forall2_cons in H2 as [[Htz Hnz] _].
  destruct (join_nodes h y x z ly lz Hty Htz Hy Hz) as (yk & yp & yk' & E1 & E2 & E3 & Ht').
  set (y' := Node yk yp (2 * M - 1) (is_leaf y)) in *.
  destruct (focus_lens _ _ _ _ _ _ _ _ _ _ _ Hf) as (_ & _ & Hcs & Hpos). symmetry in Hpos. simpl in Hcs.
  destruct (set_child_at M n _ cs1 y _ y' (len ks1) (fo_branch _ _ _ _ _ _ _ _ _ _ _ Hf) Hpos)
    as (n1 & S1 & (kr & pr & -> & Hk & Hp & Hc) & _ & N1).
  unfold btree_merge_child. rewrite Ey. bind_simpl. rewrite Ez. bind_simpl. rewrite E1. bind_simpl.
  rewrite Ex. bind_simpl. rewrite E2. bind_simpl. rewrite E3. bind_simpl. fold y'. rewrite S1. bind_simpl.
  cbn [k p key_num is_leaf] in *. rewrite for_up_pair, for_up_copy_next.
  replace (Z.to_nat (len (ks1 ++ x :: ks2) - (len ks1 + 1))) with (length ks2)
    by (rewrite len_app, len_cons; unfold len; lia).
  rewrite fmap_app, !fmap_cons, <-!(assoc_L (++)) in *. cbn [app] in *.
  destruct (move_down_block ks2 ks1 x kr (len ks1 + 1)) as [w ->]; [done|]. bind_simpl.
  destruct (move_down_block (Some <$> cs2) ((Some <$> cs1) ++ [Some y']) (Some z) pr (len ks1 + 1 + 1)) as [w' Ew].
  { rewrite length_app, length_fmap, Hpos. unfold len. simpl. lia. }
  rewrite length_fmap, <-!(assoc_L (++)) in Ew. cbn [app] in Ew. replace (length ks2) with (length cs2) by lia.
  rewrite Ew. bind_simpl. eexists _, y'. split; [done|]. split; [|split_and!; try done; cbn [key_num]; lia].
  exists (w :: kr), (w' :: pr). rewrite fmap_app, fmap_cons, <-!(assoc_L (++)). cbn [app].
  rewrite ?len_app, ?len_cons, ?len_app, ?len_cons, ?length_app in *. simpl in *.
  split; [f_equal; lia|lia].
Qed.
End pair.

(** ** Removing a key that is present *)

Definition removed (x : Z) (l l' : list Z) : Prop := srt l' ∧ l ≡ₚ x :: l'.

Lemma srt_unique l1 l2 : srt l1 → srt l2 → l1 ≡ₚ l2 → l1 = l2.
Proof. apply StronglySorted_unique. intros a b. lia. Qed.

Lemma removed_mid l1 x l2 : srt (l1 ++ x :: l2) → removed x (l1 ++ x :: l2) (l1 ++ l2).
Proof.
  intros (H1 & (H2 & H3)%srt_cons & H4)%srt_app. split; [|by rewrite Permutation_middle].
  apply srt_app. split_and!; try done. intros a b Ha Hb. apply H4; [done|by right].
Qed.

Lemma removed_in x u l l' v : srt (u ++ l ++ v) → removed x l l' →
  removed x (u ++ l ++ v) (u ++ l' ++ v).
Proof.
  intros (H1 & (_ & H3 & H4)%srt_app & H5)%srt_app [Hs Hp]. split.
  - assert (∀ a, a ∈ l' → a ∈ l) as Hin by (intros a Ha; rewrite Hp; by right).
    apply srt_app. split; [done|]. split.
    + apply srt_app. split; [done|]. split; auto.
    + intros a b Ha [Hb|Hb]%elem_of_app; apply H5; auto; apply elem_of_app; auto.
  - rewrite Hp. symmetry. apply Permutation_middle.
Qed.

Lemma removed_last u l l' : srt l → last l = Some u → removed u l l' → l = l' ++ [u].
Proof.
  intros Hs [l0 ->]%last_Some [Hs' Hp]. f_equal. apply srt_app in Hs as (Hs0 & _ & _).
  apply srt_unique; [done..|]. rewrite Permutation_app_comm in Hp. cbn [app] in Hp.
  by apply Permutation_cons_inv in Hp.
Qed.

Lemma removed_first u l l' : srt l → head l = Some u → removed u l l' → l = u :: l'.
Proof.
  intros Hs Hh [Hs' Hp]. destruct l as [|e l]; [done|]. simpl in Hh. simplify_eq. f_equal.
  apply srt_cons in Hs as [Hs _]. apply srt_unique; [done..|]. by apply Permutation_cons_inv in Hp.
Qed.

Lemma first_ge_spec ks1 ks2 r x fuel : (length ks2 < fuel)%nat → ∃ a b, ks2 = a ++ b ∧
  first_ge fuel (len ks1) (len (ks1 ++ ks2)) (ks1 ++ ks2 ++ r) x = Some (len (ks1 ++ a)) ∧
  Forall (λ e, e < x) a ∧ ∀ e, head b = Some e → x ≤ e.
Proof.
  revert ks1 fuel. induction ks2 as [|e ks2 IH]; intros ks1 [|fuel] Hfuel; simpl in Hfuel; [lia| |lia|].
  { exists [], []. cbn [first_ge]. rewrite !app_nil_r, Z.ltb_irrefl. by split_and!. }
  cbn [first_ge]. rewrite (proj2 (Z.ltb_lt _ _)) by (rewrite len_app, len_cons; pose proof (len_nonneg ks2); lia).
  cbn [app]. rewrite aget_app_at by done. bind_simpl. destruct (Z.ltb_spec e x).
  - destruct (IH (ks1 ++ [e]) fuel) as (a & b & -> & E & Ha & Hb); [lia|].
    exists (e :: a), b. rewrite <-!(assoc_L (++)) in E. cbn [app] in E.
    replace (len ks1 + 1) with (len (ks1 ++ [e])) by (rewrite len_app, len_cons; done).
    rewrite <-!(assoc_L (++)), E. split_and!; try done. by constructor.
  - exists [], (e :: ks2). rewrite app_nil_r. split_and!; try done. by intros ? [= <-].
Qed.

Lemma node_first_ge ks kr x : ∃ a b, ks = a ++ b ∧
  first_ge (S (length (ks ++ kr))) 0 (len ks) (ks ++ kr) x = Some (len a) ∧
  Forall (λ e, e < x) a ∧ ∀ e, head b = Some e → x ≤ e.
Proof. apply (first_ge_spec [] ks kr x). rewrite length_app. lia. Qed.

Lemma delete_leaf_spec n l x : tree 0 n l → srt l → x ∈ l →
  ∃ n' l', delete_leaf M n x = Some (n', true) ∧ tree 0 n' l' ∧ removed x l l' ∧
    key_num n - 1 ≤ key_num n'.
Proof.
  intros (kr & -> & Hlen) Hs Hx. unfold delete_leaf. cbn [k p key_num is_leaf].
  destruct (node_first_ge l kr x) as (a & b & -> & -> & Ha & Hb). bind_simpl.
  assert (∃ b', b = x :: b') as [b' ->].
  { apply elem_of_app in Hx as [Hx|Hx]; [rewrite Forall_forall in Ha; specialize (Ha x Hx); simpl in Ha; lia|].
    apply srt_app in Hs as (_ & Hs & _). destruct b as [|e b]; [by apply not_elem_of_nil in Hx|].
    pose proof (srt_head _ e x Hs eq_refl Hx). specialize (Hb e eq_refl).
    exists b. f_equal. lia. }
  rewrite <-(assoc_L (++)) in *. cbn [app] in *. rewrite aget_app_at by done. bind_simpl. rewrite Z.eqb_refl.
  rewrite len_app, len_cons in Hlen.
  replace (Z.to_nat (2 * M - 1 - (len a + 1))) with (length (b' ++ kr)) by (unfold len in *; lia).
  destruct (move_down_block (b' ++ kr) a x [] (len a + 1)) as [w Ew]; [done|].
  rewrite app_nil_r in Ew. rewrite Ew. bind_simpl. eexists _, (a ++ b'). split; [done|]. split_and!.
  - exists (kr ++ [w]). rewrite <-!(assoc_L (++)). split; [f_equal|].
    + rewrite !len_app, len_cons. lia.
    + rewrite !len_app, len_cons in *. change (len []) with 0. lia.
  - by apply removed_mid.
  - cbn [key_num]. lia.
Qed.

(** The keys next to a key of a branch node. *)
Lemma predecessor_spec h fuel y ly : (h < fuel)%nat → tree h y ly → 1 ≤ key_num y →
  ∃ u, btree_search_predecessor fuel y = Some u ∧ last ly = Some u.
Proof.
  revert fuel y ly. induction h as [|h IH]; intros [|fuel] y ly Hfuel Ht Hn; [lia| |lia|].
  - destruct Ht as (kr & -> & _). cbn [btree_search_predecessor is_leaf k key_num] in *.
    destruct ly as [|u ly _] using rev_ind; [done|]. exists u. rewrite last_snoc. split; [|done].
    rewrite <-(assoc_L (++)), len_app, len_cons. apply aget_app_at. unfold len. simpl. lia.
  - pose proof (tree_leaf _ _ _ Ht) as El. destruct Ht as (ks & cs & ls & Hb & Hne & Hall & ->).
    destruct (focus_at M h y (inter ls ks) ks []) as (cs1 & c & cs2 & ls1 & lc & ls2 & Hf & ->).
    { exists cs, ls. by rewrite app_nil_r. }
    cbn [btree_search_predecessor]. rewrite El, (proj1 (branch_num _ _ _ _ Hb)). simpl.
    rewrite (focus_child _ _ _ _ _ _ _ _ _ _ _ Hf). bind_simpl.
    destruct (fo_mid _ _ _ _ _ _ _ _ _ _ _ Hf) as [Htc Hnc].
    destruct (IH fuel c lc) as (u & -> & Hu); [lia|done|lia|]. exists u. split; [done|].
    destruct (focus_lens _ _ _ _ _ _ _ _ _ _ _ Hf) as (_ & Hl & _). destruct ls2; [|done].
    change (post [] []) with (@nil Z). rewrite app_nil_r. apply last_Some in Hu as [l' ->].
    by rewrite (assoc_L (++)), last_snoc.
Qed.

Lemma successor_spec h fuel z lz : (h < fuel)%nat → tree h z lz → 1 ≤ key_num z →
  ∃ u, btree_search_successor fuel z = Some u ∧ head lz = Some u.
Proof.
  revert fuel z lz. induction h as [|h IH]; intros [|fuel] z lz Hfuel Ht Hn; [lia| |lia|].
  - destruct Ht as (kr & -> & _). cbn [btree_search_successor is_leaf k key_num] in *.
    destruct lz as [|u lz]; [done|]. exists u. cbn [app]. by rewrite aget_first.
  - pose proof (tree_leaf _ _ _ Ht) as El. destruct Ht as (ks & cs & ls & Hb & Hne & Hall & ->).
    destruct (focus_at M h z (inter ls ks) [] ks) as (cs1 & c & cs2 & ls1 & lc & ls2 & Hf & ->).
    { by exists cs, ls. }
    cbn [btree_search_successor]. rewrite El. simpl.
    pose proof (focus_child _ _ _ _ _ _ _ _ _ _ _ Hf) as Hc. change (len []) with 0 in Hc.
    rewrite Hc. bind_simpl. destruct (fo_mid _ _ _ _ _ _ _ _ _ _ _ Hf) as [Htc Hnc].
    destruct (IH fuel c lc) as (u & -> & Hu); [lia|done|lia|]. exists u. split; [done|].
    destruct (focus_lens _ _ _ _ _ _ _ _ _ _ _ Hf) as (Hl & _). destruct ls1; [|done].
    change (pre [] []) with (@nil Z). destruct lc; [done|]. done.
Qed.

(** A branch node that does not lose its last key. *)
Definition safe (n : btree_node) : Prop := is_leaf n = true ∨ 2 ≤ key_num n ∨
  ∃ y z, child n 0 = Some y ∧ child n 1 = Some z ∧ (M ≤ key_num y ∨ M ≤ key_num z).

Lemma merge_focus h n ks1 x ks2 cs1 y z cs2 ls1 ly lz ls2 :
  focus h n ks1 (x :: ks2) cs1 y (z :: cs2) ls1 ly (lz :: ls2) → safe n →
  key_num y = M - 1 → key_num z = M - 1 →
  ∃ n' y', btree_merge_child M n (len ks1) = Some n' ∧ key_num y' = 2 * M - 1 ∧
    key_num n' = key_num n - 1 ∧ focus h n' ks1 ks2 cs1 y' cs2 ls1 (ly ++ x :: lz) ls2.
Proof.
  intros Hf Hsafe Hy Hz. destruct (merge_spec _ _ _ _ _ _ _ _ _ _ _ _ _ Hf Hy Hz) as
    (n' & y' & E & Hb' & Ht' & Ny' & Nn').
  exists n', y'. split_and!; try done. destruct (pair_children _ _ _ _ _ _ _ _ _ _ _ _ _ Hf) as (Ey & Ez & _).
  destruct Hf as [Hb Hne H1 Hm H2 Hl]. apply Forall2_cons in H2 as [_ H2]. split; try done; [|split; [done|lia]].
  intros [-> ->]%app_nil. pose proof (branch_num _ _ _ _ Hb) as [Nn Lf].
  destruct Hsafe as [Hlf|[H|(y0 & z0 & Ey0 & Ez0 & H)]]; [congruence| |].
  - rewrite Nn in H. unfold len in H. simpl in H. lia.
  - change (len []) with 0 in Ey, Ez. change (0 + 1) with 1 in Ez. rewrite Ey in Ey0. rewrite Ez in Ez0.
    simplify_eq. lia.
Qed.

(** Making sure that the child to go on with has a key to spare. *)
Definition refilled (h : nat) (n n' : btree_node) (i : Z) (lc l : list Z) : Prop :=
  ∃ ks1 ks2 cs1 c cs2 ls1 lc' ls2, focus h n' ks1 ks2 cs1 c cs2 ls1 lc' ls2 ∧ i = len ks1 ∧
    M ≤ key_num c ∧ lc ⊆ lc' ∧ l = pre ls1 ks1 ++ lc' ++ post ks2 ls2 ∧
    key_num n - 1 ≤ key_num n'.

Lemma pair_left ls1 ly x lz ls2 ks1 ks2 :
  pre ls1 ks1 ++ ly ++ post (x :: ks2) (lz :: ls2) = pre ls1 ks1 ++ (ly ++ x :: lz) ++ post ks2 ls2.
Proof. rewrite post_cons, <-!(assoc_L (++)). done. Qed.

Lemma pair_right ls1 ly x lz ls2 ks1 ks2 : length ls1 = length ks1 →
  pre (ls1 ++ [ly]) (ks1 ++ [x]) ++ lz ++ post ks2 ls2 = pre ls1 ks1 ++ (ly ++ x :: lz) ++ post ks2 ls2.
Proof. intros Hl. rewrite pre_snoc by done. rewrite <-!(assoc_L (++)). done. Qed.

Lemma focus_prev h n ks1 ks2 cs1 z cs2 ls1 lz ls2 : focus h n ks1 ks2 cs1 z cs2 ls1 lz ls2 → 0 < len ks1 →
  ∃ ks x cs y ls ly, ks1 = ks ++ [x] ∧ ls1 = ls ++ [ly] ∧ length ls = length ks ∧
    focus h n ks (x :: ks2) cs y (z :: cs2) ls ly (lz :: ls2).
Proof.
  intros Hf Hlen. destruct (focus_lens _ _ _ _ _ _ _ _ _ _ _ Hf) as (Hl1 & _).
  pose proof (fo_len _ _ _ _ _ _ _ _ _ _ _ Hf) as Hl.
  destruct ks1 as [|x ks _] using rev_ind; [done|]. rewrite length_app in *. simpl in *.
  destruct cs1 as [|y cs _] using rev_ind; [simpl in Hl; lia|].
  destruct ls1 as [|ly ls _] using rev_ind; [simpl in Hl1; lia|].
  rewrite length_app in *. simpl in *. exists ks, x, cs, y, ls, ly. split_and!; try done; [lia|].
  apply focus_next. split; [done|lia].
Qed.

Lemma focus_succ h n ks1 ks2 cs1 y cs2 ls1 ly ls2 : focus h n ks1 ks2 cs1 y cs2 ls1 ly ls2 → 0 < len ks2 →
  ∃ x ks z cs lz ls, ks2 = x :: ks ∧ cs2 = z :: cs ∧ ls2 = lz :: ls.
Proof.
  intros Hf Hlen. destruct (focus_lens _ _ _ _ _ _ _ _ _ _ _ Hf) as (_ & Hl2 & Hc2 & _).
  destruct ks2 as [|x ks]; [done|]. destruct cs2 as [|z cs]; [done|]. destruct ls2 as [|lz ls]; [done|].
  by exists x, ks, z, cs, lz, ls.
Qed.

Section refill.
Context (h : nat) (n : btree_node) (ks1 : list Z) (x : Z) (ks2 : list Z) (cs1 : list btree_node)
  (y z : btree_node) (cs2 : list btree_node) (ls1 : list (list Z)) (ly lz : list Z) (ls2 : list (list Z)).
Context (Hf : focus h n ks1 (x :: ks2) cs1 y (z :: cs2) ls1 ly (lz :: ls2)).
#[local] Abbreviation keys := (pre ls1 ks1 ++ (ly ++ x :: lz) ++ post ks2 ls2).

Lemma refill_from_left : M ≤ key_num y → key_num z = M - 1 →
  ∃ n', btree_shift_to_right_child n (len ks1) = Some n' ∧ refilled h n n' (len ks1 + 1) lz keys.
Proof.
  intros Hy Hz. destruct (shift_right_spec _ _ _ _ _ _ _ _ _ _ _ _ _ Hf Hy) as
    (n' & u & y' & z' & ly' & lz' & E & Hf' & El & Nn & Nz & Hsub); [lia|].
  exists n'. split; [done|]. pose proof Hf' as [Hf'' Hlen]%focus_next. do 8 eexists. split; [exact Hf''|].
  rewrite len_app. split_and!; [done|lia|done| |lia].
  rewrite El, pair_right; [done|]. by destruct (focus_lens _ _ _ _ _ _ _ _ _ _ _ Hf').
Qed.

Lemma refill_from_right : key_num y = M - 1 → M ≤ key_num z →
  ∃ n', btree_shift_to_left_child n (len ks1) = Some n' ∧ refilled h n n' (len ks1) ly keys.
Proof.
  intros Hy Hz. destruct (shift_left_spec _ _ _ _ _ _ _ _ _ _ _ _ _ Hf) as
    (n' & u & y' & z' & ly' & lz' & E & Hf' & El & Nn & Ny & Hsub); [lia|lia|].
  exists n'. split; [done|]. do 8 eexists. split; [exact Hf'|]. split_and!; [done|lia|done| |lia].
  by rewrite El, pair_left.
Qed.

Lemma refill_merge : safe n → key_num y = M - 1 → key_num z = M - 1 →
  ∃ n', btree_merge_child M n (len ks1) = Some n' ∧ refilled h n n' (len ks1) ly keys ∧
    refilled h n n' (len ks1) lz keys.
Proof.
  intros Hsafe Hy Hz. destruct (merge_focus _ _ _ _ _ _ _ _ _ _ _ _ _ Hf Hsafe Hy Hz) as
    (n' & y' & E & Ny & Nn & Hf').
  exists n'. split; [done|].
  split; (do 8 eexists; split; [exact Hf'|]; split_and!; [done|lia| |done|lia]).
  - intros a Ha. apply elem_of_app. by left.
  - intros a Ha. apply elem_of_app. right. by right.
Qed.
End refill.

(** The neighbour on the right. *)
Lemma refill_right_side h n ks1 ks2 cs1 c cs2 ls1 lc ls2 :
  focus h n ks1 ks2 cs1 c cs2 ls1 lc ls2 → safe n → key_num c = M - 1 →
  let l := pre ls1 ks1 ++ lc ++ post ks2 ls2 in
  ∃ r : bool, (if len ks1 <? key_num n then c ← child n (len ks1 + 1); Some (M - 1 <? key_num c)
    else Some false) = Some r ∧
  if r then ∃ n', btree_shift_to_left_child n (len ks1) = Some n' ∧ refilled h n n' (len ks1) lc l
  else 0 < len ks2 → ∃ n', btree_merge_child M n (len ks1) = Some n' ∧ refilled h n n' (len ks1) lc l.
Proof.
  intros Hf Hsafe Hpoor. cbv zeta.
  rewrite (proj1 (branch_num _ _ _ _ (fo_branch _ _ _ _ _ _ _ _ _ _ _ Hf))), len_app.
  pose proof (len_nonneg ks2). destruct (Z.ltb_spec (len ks1) (len ks1 + len ks2)).
  2: { exists false. split; [done|lia]. }
  destruct (focus_succ _ _ _ _ _ _ _ _ _ _ Hf) as (x & ks & z & cs & lz & ls & -> & -> & ->); [lia|].
  destruct (pair_children _ _ _ _ _ _ _ _ _ _ _ _ _ Hf) as (_ & -> & _). bind_simpl.
  pose proof (fo_right _ _ _ _ _ _ _ _ _ _ _ Hf) as [[_ Hnz] _]%Forall2_cons.
  rewrite pair_left. eexists. split; [done|]. destruct (Z.ltb_spec (M - 1) (key_num z)).
  - eapply refill_from_right; [done..|lia].
  - intros _. destruct (refill_merge _ _ _ _ _ _ _ _ _ _ _ _ _ Hf) as (n' & E & R & _); [done..|lia|].
    by exists n'.
Qed.

Lemma refill_spec h n ks1 ks2 cs1 c cs2 ls1 lc ls2 : focus h n ks1 ks2 cs1 c cs2 ls1 lc ls2 → safe n →
  ∃ n' i, refill_child M n (len ks1) = Some (n', i) ∧
    refilled h n n' i lc (pre ls1 ks1 ++ lc ++ post ks2 ls2).
Proof.
  intros Hf Hsafe. unfold refill_child. rewrite (focus_child _ _ _ _ _ _ _ _ _ _ _ Hf). bind_simpl.
  pose proof (fo_mid _ _ _ _ _ _ _ _ _ _ _ Hf) as [_ Hnc].
  destruct (Z.eqb_spec (key_num c) (M - 1)) as [Hpoor|Hrich]; simpl.
  2: { do 2 eexists. split; [done|]. do 8 eexists. split; [exact Hf|]. split_and!; [done|lia|done|done|lia]. }
  destruct (refill_right_side _ _ _ _ _ _ _ _ _ _ Hf Hsafe Hpoor) as (r & Er & Hr). destruct (Z.ltb_spec 0 (len ks1)) as [Hpos|Hpos]; bind_simpl.
  - destruct (focus_prev _ _ _ _ _ _ _ _ _ _ Hf Hpos) as (ks & x & cs & y & ls & ly & -> & -> & Hlen & Hf').
    replace (len (ks ++ [x]) - 1) with (len ks) in * by (rewrite len_app, len_cons; change (len []) with 0; lia).
    destruct (pair_children _ _ _ _ _ _ _ _ _ _ _ _ _ Hf') as (-> & _ & _). bind_simpl.
    pose proof (fo_mid _ _ _ _ _ _ _ _ _ _ _ Hf') as [_ Hny].
    rewrite pair_right in * by done. destruct (Z.ltb_spec (M - 1) (key_num y)).
    + destruct (refill_from_left _ _ _ _ _ _ _ _ _ _ _ _ _ Hf') as (n' & -> & R); [lia|done|].
      bind_simpl. do 2 eexists. split; [done|]. by rewrite len_app.
    + rewrite Er. bind_simpl. destruct r.
      * destruct Hr as (n' & -> & R). bind_simpl. by do 2 eexists.
      * destruct (refill_merge _ _ _ _ _ _ _ _ _ _ _ _ _ Hf') as (n' & -> & _ & R); [done|lia|done|].
        bind_simpl. by do 2 eexists.
  - rewrite Er. bind_simpl. destruct r.
    + destruct Hr as (n' & -> & R). bind_simpl. by do 2 eexists.
    + destruct Hr as (n' & -> & R); [|bind_simpl; by do 2 eexists].
      pose proof (fo_ne _ _ _ _ _ _ _ _ _ _ _ Hf) as Hne. destruct ks1; [|rewrite len_cons in Hpos; pose proof (len_nonneg ks1); lia].
      destruct ks2; [done|]. rewrite len_cons. pose proof (len_nonneg ks2). lia.
Qed.

(** ** Deletion *)

Definition deletes (h fuel : nat) : Prop := ∀ n l x, tree h n l → safe n → srt l → x ∈ l →
  ∃ n' l', btree_delete_nonone M fuel n x = Some (n', true) ∧ tree h n' l' ∧ removed x l l' ∧
    key_num n - 1 ≤ key_num n'.

Lemma rich_safe n : M ≤ key_num n → safe n.
Proof. intros Hn. right. left. lia. Qed.

(** Going on at a child with a key to spare. *)
Lemma delete_below h fuel n ks1 ks2 cs1 c cs2 ls1 lc ls2 x :
  deletes h fuel → focus h n ks1 ks2 cs1 c cs2 ls1 lc ls2 → M ≤ key_num c → srt lc → x ∈ lc →
  ∃ c' n' lc', btree_delete_nonone M fuel c x = Some (c', true) ∧
    set_child n (len ks1) c' = Some n' ∧ focus h n' ks1 ks2 cs1 c' cs2 ls1 lc' ls2 ∧
    removed x lc lc' ∧ key_num n' = key_num n.
Proof.
  intros IH Hf Hn Hs Hx. destruct (fo_mid _ _ _ _ _ _ _ _ _ _ _ Hf) as [Htc _].
  destruct (IH c lc x Htc (rich_safe c Hn) Hs Hx) as (c' & lc' & E & Ht' & R & Nc).
  destruct (focus_set _ _ _ _ _ _ _ _ _ _ _ Hf c' lc') as (n' & Es & Hf' & Nn); [split; [done|lia]|].
  by exists c', n', lc'.
Qed.

Lemma focus_set_key h n ks1 x ks2 cs1 c cs2 ls1 lc ls2 u :
  focus h n ks1 (x :: ks2) cs1 c cs2 ls1 lc ls2 →
  ∃ n', set_key n (len ks1) u = Some n' ∧ focus h n' ks1 (u :: ks2) cs1 c cs2 ls1 lc ls2 ∧
    key_num n' = key_num n.
Proof.
  intros [Hb Hne H1 Hm H2 Hl]. destruct (set_key_at n ks1 x ks2 _ u Hb) as (n' & E & Hb' & N).
  exists n'. split_and!; try done. split; try done. by destruct ks1.
Qed.

(** The key is in this node: its predecessor or successor takes its place, or its two
    children are joined around it. *)
Section here.
Context (h fuel : nat) (n : btree_node) (ks1 : list Z) (x : Z) (ks2 : list Z) (cs1 : list btree_node)
  (y z : btree_node) (cs2 : list btree_node) (ls1 : list (list Z)) (ly lz : list Z) (ls2 : list (list Z)).
Context (Hf : focus h n ks1 (x :: ks2) cs1 y (z :: cs2) ls1 ly (lz :: ls2)).
Context (IH : deletes h fuel) (Hfuel : (h < fuel)%nat).
#[local] Abbreviation keys := (pre ls1 ks1 ++ (ly ++ x :: lz) ++ post ks2 ls2).
Context (Hs : srt keys).

Lemma here_sorted : srt ly ∧ srt lz ∧ srt (ly ++ x :: lz).
Proof.
  apply srt_app in Hs as (_ & (Hm & _ & _)%srt_app & _). pose proof Hm as (H1 & (H2 & _)%srt_cons & _)%srt_app.
  done.
Qed.

Lemma here_removed l' : l' = pre ls1 ks1 ++ (ly ++ lz) ++ post ks2 ls2 → removed x keys l'.
Proof. intros ->. apply removed_in; [done|]. by apply removed_mid, here_sorted. Qed.

Lemma delete_here_pred : M ≤ key_num y → ∃ u n1 y' n' l', btree_search_predecessor fuel y = Some u ∧
  set_key n (len ks1) u = Some n1 ∧ btree_delete_nonone M fuel y u = Some (y', true) ∧
  set_child n1 (len ks1) y' = Some n' ∧ tree (S h) n' l' ∧ removed x keys l' ∧ key_num n' = key_num n.
Proof.
  intros Hy. destruct (fo_mid _ _ _ _ _ _ _ _ _ _ _ Hf) as [Hty _]. destruct here_sorted as (Hsy & _).
  destruct (predecessor_spec h fuel y ly Hfuel Hty) as (u & E1 & Hu); [lia|].
  destruct (focus_set_key _ _ _ _ _ _ _ _ _ _ _ u Hf) as (n1 & E2 & Hf1 & N1).
  destruct (delete_below _ _ _ _ _ _ _ _ _ _ _ u IH Hf1 Hy Hsy) as (y' & n' & ly' & E3 & E4 & Hf2 & R & N2);
    [by apply last_Some_elem_of|].
  exists u, n1, y', n'. eexists. split_and!; try done; [by eapply focus_tree| |lia].
  apply here_removed. rewrite pair_left. rewrite (removed_last u ly ly' Hsy Hu R). by rewrite <-!(assoc_L (++)).
Qed.

Lemma delete_here_succ : M ≤ key_num z → ∃ u n1 z' n' l', btree_search_successor fuel z = Some u ∧
  set_key n (len ks1) u = Some n1 ∧ btree_delete_nonone M fuel z u = Some (z', true) ∧
  set_child n1 (len ks1 + 1) z' = Some n' ∧ tree (S h) n' l' ∧ removed x keys l' ∧ key_num n' = key_num n.
Proof.
  intros Hz. pose proof (fo_right _ _ _ _ _ _ _ _ _ _ _ Hf) as [[Htz _] _]%Forall2_cons.
  destruct here_sorted as (_ & Hsz & _).
  destruct (successor_spec h fuel z lz Hfuel Htz) as (u & E1 & Hu); [lia|].
  destruct (focus_set_key _ _ _ _ _ _ _ _ _ _ _ u Hf) as (n1 & E2 & Hf1 & N1).
  pose proof Hf1 as [Hf1' Hlen]%focus_next.
  destruct (delete_below _ _ _ _ _ _ _ _ _ _ _ u IH Hf1' Hz Hsz) as (z' & n' & lz' & E3 & E4 & Hf2 & R & N2);
    [by apply head_Some_elem_of|].
  rewrite len_app in E4. exists u, n1, z', n'. eexists. split_and!; try done; [by eapply focus_tree| |lia].
  apply here_removed. rewrite pair_right by (by destruct (focus_lens _ _ _ _ _ _ _ _ _ _ _ Hf)).
  by rewrite (removed_first u lz lz' Hsz Hu R).
Qed.

Lemma delete_here_merge : safe n → key_num y = M - 1 → key_num z = M - 1 →
  ∃ n1 c y' n' l', btree_merge_child M n (len ks1) = Some n1 ∧ child n1 (len ks1) = Some c ∧
    btree_delete M (btree_delete_nonone M fuel) c x = Some (false, y', true) ∧
    set_child n1 (len ks1) y' = Some n' ∧ tree (S h) n' l' ∧ removed x keys l' ∧
    key_num n - 1 = key_num n'.
Proof.
  intros Hsafe Hy Hz. destruct (merge_focus _ _ _ _ _ _ _ _ _ _ _ _ _ Hf Hsafe Hy Hz) as
    (n1 & c & E1 & Nc & N1 & Hf1).
  destruct (delete_below _ _ _ _ _ _ _ _ _ _ _ x IH Hf1) as (y' & n' & l' & E3 & E4 & Hf2 & R & N2);
    [lia|apply here_sorted|apply elem_of_app; right; by left|].
  exists n1, c, y', n'. eexists. split_and!; try done; [by eapply focus_child| |by eapply focus_tree| |lia].
  - unfold btree_delete. rewrite (proj2 (Z.eqb_neq _ _)) by lia. bind_simpl. rewrite E3. done.
  - by apply removed_in.
Qed.
End here.

(** The key is not in this node, so it is below the child between its neighbours. *)
Lemma not_here h n ks1 ks2 cs1 c cs2 ls1 lc ls2 x : focus h n ks1 ks2 cs1 c cs2 ls1 lc ls2 →
  srt (pre ls1 ks1 ++ lc ++ post ks2 ls2) → Forall (λ e, e < x) ks1 →
  (∀ e, head ks2 = Some e → x < e) → x ∈ pre ls1 ks1 ++ lc ++ post ks2 ls2 → x ∈ lc ∧ srt lc.
Proof.
  intros Hf (Hs1 & (Hs2 & Hs3 & _)%srt_app & _)%srt_app Ha Hh Hx. split; [|done].
  destruct (focus_lens _ _ _ _ _ _ _ _ _ _ _ Hf) as (Hl1 & Hl2 & _).
  apply elem_of_app in Hx as [Hin|[Hin|Hin]%elem_of_app]; [|done|].
  - enough (x ≤ x - 1) by lia. apply (pre_le ls1 ks1 (x - 1) Hl1 Hs1); [|done].
    intros e He%last_Some_elem_of. rewrite Forall_forall in Ha. specialize (Ha e He). simpl in Ha. lia.
  - enough (x + 1 ≤ x) by lia. apply (post_ge ks2 ls2 (x + 1) Hl2 Hs3); [|done].
    intros e He. specialize (Hh e He). lia.
Qed.

(** [x] is below the child at [len ks1]. *)
Lemma delete_not_here h fuel n ks1 ks2 cs1 c cs2 ls1 lc ls2 x : deletes h fuel →
  focus h n ks1 ks2 cs1 c cs2 ls1 lc ls2 → safe n → x ∈ lc →
  let l := pre ls1 ks1 ++ lc ++ post ks2 ls2 in srt l →
  ∃ n1 i c' y' n' l', refill_child M n (len ks1) = Some (n1, i) ∧ child n1 i = Some c' ∧
    btree_delete_nonone M fuel c' x = Some (y', true) ∧ set_child n1 i y' = Some n' ∧
    tree (S h) n' l' ∧ removed x l l' ∧ key_num n - 1 ≤ key_num n'.
Proof.
  intros IH Hf Hsafe Hx l Hs. destruct (refill_spec _ _ _ _ _ _ _ _ _ _ Hf Hsafe) as
    (n1 & i & E1 & ks1' & ks2' & cs1' & c' & cs2' & ls1' & lc' & ls2' & Hf' & -> & Hc' & Hsub & El & N1).
  fold l in El. rewrite El in *. pose proof Hs as (_ & (Hs' & _)%srt_app & _)%srt_app.
  destruct (delete_below _ _ _ _ _ _ _ _ _ _ _ x IH Hf' Hc' Hs') as (y' & n' & lc2 & E3 & E4 & Hf2 & R & N2);
    [by apply Hsub|].
  exists n1, (len ks1'), c', y', n'. eexists. split_and!; try done;
    [by eapply focus_child|by eapply focus_tree|by apply removed_in|lia].
Qed.

Lemma here_test n ks1 ks2 cs x : branch n (ks1 ++ ks2) cs →
  (if len ks1 <? key_num n then y ← aget (k n) (len ks1); Some (x =? y) else Some false) =
    Some (bool_decide (head ks2 = Some x)).
Proof.
  intros Hb. rewrite (proj1 (branch_num _ _ _ _ Hb)). rewrite len_app. destruct ks2 as [|e ks2].
  - by rewrite (proj2 (Z.ltb_ge _ _)) by (unfold len; simpl; lia).
  - rewrite len_cons. pose proof (len_nonneg ks2). rewrite (proj2 (Z.ltb_lt _ _)) by lia.
    rewrite (key_at _ _ _ _ _ Hb). bind_simpl. f_equal. simpl.
    destruct (Z.eqb_spec x e); case_bool_decide; congruence.
Qed.

Lemma delete_nonone_spec h fuel : (h < fuel)%nat → deletes h fuel.
Proof.
  revert fuel. induction h as [|h IHh]; intros [|fuel] Hfuel n l x Ht Hsafe Hs Hx; [lia| |lia|].
  { pose proof (tree_leaf _ _ _ Ht) as El. cbn [btree_delete_nonone]. rewrite El. by apply delete_leaf_spec. }
  assert (IH : deletes h fuel) by (apply IHh; lia). clear IHh. apply Nat.succ_lt_mono in Hfuel.
  destruct Ht as (ks & cs & ls & Hb & Hne & Hall & Hl).
  pose proof Hb as (kr & pr & En & _). pose proof (branch_num _ _ _ _ Hb) as [Nn Lf].
  cbn [btree_delete_nonone]. rewrite Lf, Nn. replace (k n) with (ks ++ kr) by (by subst n).
  destruct (node_first_ge ks kr x) as (ks1 & ks2 & -> & -> & Ha & Hh). bind_simpl.
  destruct (focus_at M h n l ks1 ks2) as (cs1 & c & cs2 & ls1 & lc & ls2 & Hf & ->); [by eexists _, _|].
  rewrite <-Nn. replace ((ks1 ++ ks2) ++ kr) with (k n) by (by subst n).
  rewrite (here_test n ks1 ks2 cs x Hb). bind_simpl. case_bool_decide as Hhere.
  - destruct ks2 as [|x' ks2]; [done|]. simpl in Hhere. simplify_eq.
    destruct (focus_succ _ _ _ _ _ _ _ _ _ _ Hf) as (? & ? & z & cs2' & lz & ls2' & ? & -> & ->);
      [rewrite len_cons; pose proof (len_nonneg ks2); lia|]. simplify_eq.
    destruct (pair_children _ _ _ _ _ _ _ _ _ _ _ _ _ Hf) as (-> & -> & _). bind_simpl.
    pose proof (fo_mid _ _ _ _ _ _ _ _ _ _ _ Hf) as [_ Hny].
    pose proof (fo_right _ _ _ _ _ _ _ _ _ _ _ Hf) as [[_ Hnz] _]%Forall2_cons.
    rewrite pair_left in *. destruct (Z.ltb_spec (M - 1) (key_num c)); [|destruct (Z.ltb_spec (M - 1) (key_num z))].
    + destruct (delete_here_pred h fuel _ _ _ _ _ _ _ _ _ _ _ _ Hf IH Hfuel Hs) as
        (u & n1 & y' & n' & l' & -> & E & E2 & E3 & Ht' & R & N); [lia|].
      bind_simpl. rewrite E. bind_simpl. rewrite E2. bind_simpl. rewrite E3. bind_simpl.
      exists n', l'. split_and!; try done; lia.
    + destruct (delete_here_succ h fuel _ _ _ _ _ _ _ _ _ _ _ _ Hf IH Hfuel Hs) as
        (u & n1 & y' & n' & l' & -> & E & E2 & E3 & Ht' & R & N); [lia|].
      bind_simpl. rewrite E. bind_simpl. rewrite E2. bind_simpl. rewrite E3. bind_simpl.
      exists n', l'. split_and!; try done; lia.
    + destruct (delete_here_merge h fuel _ _ _ _ _ _ _ _ _ _ _ _ Hf IH Hfuel Hs Hsafe) as
        (n1 & c' & y' & n' & l' & -> & E & E2 & E3 & Ht' & R & N); [lia|lia|].
      bind_simpl. rewrite E. bind_simpl. rewrite E2. bind_simpl. rewrite E3. bind_simpl.
      exists n', l'. split_and!; try done; lia.
  - destruct (not_here _ _ _ _ _ _ _ _ _ _ x Hf Hs Ha) as [Hxc _]; [|done|].
    { intros e He. specialize (Hh e He). enough (e ≠ x) by lia. congruence. }
    destruct (delete_not_here _ fuel _ _ _ _ _ _ _ _ _ x IH Hf Hsafe Hxc Hs) as
      (n1 & i & c' & y' & n' & l' & -> & E & E2 & E3 & Ht' & R & N).
    bind_simpl. rewrite E. bind_simpl. rewrite E2. bind_simpl. rewrite E3. bind_simpl.
    exists n', l'. split_and!; try done; lia.
Qed.

(** The test for a root that is to be replaced by its two children, joined. *)
Definition both_poor (n : btree_node) : option bool :=
  if 1 =? key_num n then
    match mjoin (aget (p n) 0), mjoin (aget (p n) 1) with
    | Some y, Some z => Some ((M - 1 =? key_num y) && (M - 1 =? key_num z))
    | _, _ => Some false
    end
  else Some false.

Lemma both_poor_leaf n l : tree 0 n l → both_poor n = Some false.
Proof.
  intros (kr & -> & _). unfold both_poor. cbn [p key_num]. destruct (1 =? len l); [|done].
  replace (Z.to_nat (2 * M)) with (S (Z.to_nat (2 * M - 1))) by lia. cbn [replicate]. by rewrite aget_first.
Qed.

Lemma both_poor_branch h n l : tree (S h) n l → ∃ b, both_poor n = Some b ∧
  if b : bool then ∃ n1 y1, btree_merge_child M n 0 = Some n1 ∧ child n1 0 = Some y1 ∧ tree h y1 l ∧
    M ≤ key_num y1
  else safe n.
Proof.
  intros (ks & cs & ls & Hb & Hne & Hall & ->). unfold both_poor.
  rewrite (proj1 (branch_num _ _ _ _ Hb)). destruct ks as [|x ks]; [done|].
  destruct (focus_at M h n (inter ls (x :: ks)) [] (x :: ks)) as (cs1 & y & cs2 & ls1 & ly & ls2 & Hf & El).
  { by exists cs, ls. }
  destruct (focus_succ _ _ _ _ _ _ _ _ _ _ Hf) as (? & ? & z & cs2' & lz & ls2' & ? & -> & ->);
    [rewrite len_cons; pose proof (len_nonneg ks); lia|]. simplify_eq. rewrite El.
  destruct (pair_children _ _ _ _ _ _ _ _ _ _ _ _ _ Hf) as (Ey & Ez & _). change (len []) with 0 in *.
  change (0 + 1) with 1 in Ez. rewrite pair_left.
  destruct (Z.eqb_spec 1 (len (x0 :: x1))) as [H1|H1]; rewrite len_cons in H1; pose proof (len_nonneg x1).
  2: { exists false. split; [done|]. right. left. rewrite (proj1 (branch_num _ _ _ _ Hb)), len_cons. lia. }
  unfold child in Ey, Ez. unfold mjoin, option_join.
  assert (aget (p n) 0 = Some (Some y)) as Ey' by (by destruct (aget (p n) 0) as [[]|]; simplify_eq/=).
  assert (aget (p n) 1 = Some (Some z)) as Ez' by (by destruct (aget (p n) 1) as [[]|]; simplify_eq/=).
  rewrite Ey', Ez'. eexists. split; [done|].
  pose proof (fo_mid _ _ _ _ _ _ _ _ _ _ _ Hf) as [_ Hny].
  pose proof (fo_right _ _ _ _ _ _ _ _ _ _ _ Hf) as [[_ Hnz] _]%Forall2_cons.
  destruct (Z.eqb_spec (M - 1) (key_num y)), (Z.eqb_spec (M - 1) (key_num z)); simpl;
    try (right; right; exists y, z; unfold child; rewrite Ey', Ez'; split_and!; [done..|lia]).
  destruct (merge_spec _ _ _ _ _ _ _ _ _ _ _ _ _ Hf) as (n1 & y1 & E & Hb1 & Ht1 & N1 & _); [done..|].
  destruct x1; [|unfold len in H1; simpl in H1; lia].
  destruct (focus_lens _ _ _ _ _ _ _ _ _ _ _ Hf) as (Hl1 & Hl2 & _ & Hc).
  destruct ls1; [|done]. destruct ls2'; [|done]. destruct cs1; [|unfold len in Hc; simpl in Hc; lia].
  exists n1, y1. split_and!; [done| |by rewrite app_nil_r|lia]. by eapply (child_at M n1 _ []).
Qed.

(** [btree_delete] at the root; the root is replaced when its two children are joined. *)
Lemma btree_delete_spec h fuel n l x : (h < fuel)%nat → tree h n l → srt l → x ∈ l →
  ∃ freed h' n' l', btree_delete M (btree_delete_nonone M fuel) n x = Some (freed, n', true) ∧
    tree h' n' l' ∧ removed x l l' ∧ (h' ≤ h)%nat.
Proof.
  intros Hfuel Ht Hs Hx. unfold btree_delete. fold (both_poor n).
  assert (safe n → both_poor n = Some false → ∃ freed h' n' l',
    (res ← both_poor n; if res : bool then root ← btree_merge_child M n 0; y ← child root 0;
       res ← btree_delete_nonone M fuel y x; let '(y, removed) := res : btree_node * bool in Some (true, y, removed)
     else res ← btree_delete_nonone M fuel n x; let '(root, removed) := res : btree_node * bool in Some (false, root, removed))
     = Some (freed, n', true) ∧ tree h' n' l' ∧ removed x l l' ∧ (h' ≤ h)%nat) as Hkeep.
  { intros Hsafe ->. bind_simpl.
    destruct (delete_nonone_spec h fuel Hfuel n l x Ht Hsafe Hs Hx) as (n' & l' & -> & Ht' & R & _).
    bind_simpl. by exists false, h, n', l'. }
  destruct h as [|h].
  { apply Hkeep; [left; by rewrite (tree_leaf _ _ _ Ht)|by eapply both_poor_leaf]. }
  destruct (both_poor_branch h n l Ht) as ([] & Eb & Hb); [|by apply Hkeep]. clear Hkeep. rewrite Eb. bind_simpl.
  destruct Hb as (n1 & y1 & -> & E & Ht1 & Hn1). bind_simpl. rewrite E. bind_simpl.
  destruct (delete_nonone_spec h fuel ltac:(lia) y1 l x Ht1 (rich_safe _ Hn1) Hs Hx) as (n' & l' & -> & Ht' & R & _).
  bind_simpl. exists true, h, n', l'. split_and!; try done; lia.
Qed.

(** ** Size and height *)

Lemma len_inter_ge B ks ls : Forall (λ l, B ≤ len l + 1) ls → length ls = S (length ks) →
  B * (len ks + 1) ≤ len (inter ls ks) + 1.
Proof.
  revert ls. induction ks as [|x ks IH]; intros ls Hall Hl.
  - destruct ls as [|l [|]]; [done| |done]. apply Forall_cons in Hall as [H _]. cbn [inter].
    change (post [] []) with (@nil Z). rewrite app_nil_r. change (len []) with 0. lia.
  - destruct ls as [|l [|l' ls]]; [done|done|]. apply Forall_cons in Hall as [H Hall].
    specialize (IH (l' :: ls) Hall). cbn [inter] in *. rewrite post_cons, len_app, !len_cons.
    specialize (IH ltac:(simpl in *; lia)). lia.
Qed.

Lemma sub_size h c lc : sub h c lc → M ^ Z.of_nat (S h) ≤ len lc + 1.
Proof.
  revert c lc. induction h as [|h IH]; intros c lc [Ht Hn].
  - destruct Ht as (kr & -> & _). cbn [key_num] in Hn. change (Z.of_nat 1) with 1. lia.
  - destruct Ht as (ks & cs & ls & Hb & Hne & Hall & ->). rewrite (proj1 (branch_num _ _ _ _ Hb)) in Hn.
    destruct Hb as (kr & pr & _ & _ & _ & Hc). pose proof (Forall2_length _ _ _ Hall).
    assert (Forall (λ l, M ^ Z.of_nat (S h) ≤ len l + 1) ls) as Hls.
    { apply Forall_forall. intros l [i Hi]%list_elem_of_lookup.
      destruct (Forall2_lookup_r _ _ _ _ _ Hall Hi) as (c' & _ & Hc'). by apply (IH c'). }
    pose proof (len_inter_ge _ ks ls Hls ltac:(lia)).
    rewrite (Nat2Z.inj_succ (S h)), Z.pow_succ_r by lia.
    assert (0 < M ^ Z.of_nat (S h)) by (apply Z.pow_pos_nonneg; lia). nia.
Qed.

(** A branch root has at least two children. *)
Lemma tree_size h n l : tree (S h) n l → 2 * M ^ Z.of_nat (S h) ≤ len l + 1.
Proof.
  intros (ks & cs & ls & Hb & Hne & Hall & ->). destruct Hb as (kr & pr & _ & _ & _ & Hc).
  pose proof (Forall2_length _ _ _ Hall).
  assert (Forall (λ l, M ^ Z.of_nat (S h) ≤ len l + 1) ls) as Hls.
  { apply Forall_forall. intros l [i Hi]%list_elem_of_lookup.
    destruct (Forall2_lookup_r _ _ _ _ _ Hall Hi) as (c' & _ & Hc'). by apply (sub_size h c'). }
  pose proof (len_inter_ge _ ks ls Hls ltac:(lia)).
  destruct ks as [|x ks]; [done|]. rewrite len_cons in *. pose proof (len_nonneg ks).
  assert (0 < M ^ Z.of_nat (S h)) by (apply Z.pow_pos_nonneg; lia). nia.
Qed.

Lemma tree_height h n l : tree h n l → (h ≤ length l)%nat.
Proof.
  destruct h as [|h]; [lia|]. intros Ht%tree_size.
  pose proof (Z.pow_gt_lin_r M (Z.of_nat (S h)) ltac:(lia) ltac:(lia)). unfold len in Ht. lia.
Qed.

(** ** The tree as a multiset of keys *)

Record represents (t : BTree) (h : nat) (X : gmultiset Z) : Prop := {
  rp_tree : ∃ l, tree h (roots t) l ∧ srt l ∧ elements X ≡ₚ l;
  rp_num : btree_node_num t = Z.of_nat (size X)
}.

Lemma represents_height t h X : represents t h X → (h ≤ size X)%nat.
Proof.
  intros [(l & Ht & _ & Hl) _]. apply tree_height in Ht. unfold size, gmultiset_size. simpl. by rewrite Hl.
Qed.

Lemma represents_new : represents (BTree_new M) 0 ∅.
Proof. split; [|done]. exists []. split; [by apply tree_new|]. by split; [constructor|]. Qed.

Lemma represents_find t h X x fuel : represents t h X → (h < fuel)%nat →
  find fuel t x = Some (bool_decide (x ∈ X)).
Proof.
  intros [(l & Ht & Hs & Hl) _] Hfuel. unfold find. rewrite (find_from_spec M HM h _ l) by done.
  f_equal. apply bool_decide_ext. by rewrite <-Hl, gmultiset_elem_of_elements.
Qed.

Lemma represents_insert t h X x fuel : represents t h X → (S h < fuel)%nat →
  Z.of_nat (size X) < 2 ^ 31 - 1 →
  ∃ t' h', insert M fuel t x = Some t' ∧ represents t' h' ({[+ x +]} ⊎ X).
Proof.
  intros [(l & Ht & Hs & Hl) Hn] Hfuel Hmax.
  destruct (btree_insert_spec M HM h fuel _ l x Hfuel Ht Hs) as (h' & n' & l' & E & Ht' & Hins & _).
  unfold insert. rewrite E. bind_simpl. rewrite int_res_some by lia. bind_simpl. eexists _, h'. split; [done|]. split.
  - exists l'. split; [done|]. split; [by eapply inserted_srt|].
    rewrite gmultiset_elements_disj_union, gmultiset_elements_singleton, Hl. symmetry. by apply inserted_perm.
  - cbn [btree_node_num]. rewrite gmultiset_size_disj_union, gmultiset_size_singleton. lia.
Qed.

Lemma represents_del t h X x fuel : represents t h X → (h < fuel)%nat → x ∈ X →
  Z.of_nat (size X) < 2 ^ 31 →
  ∃ t' h', del M fuel t x = Some t' ∧ represents t' h' (X ∖ {[+ x +]}).
Proof.
  intros [(l & Ht & Hs & Hl) Hn] Hfuel Hx Hmax.
  assert (x ∈ l) as Hxl by (by rewrite <-Hl, gmultiset_elem_of_elements).
  destruct (btree_delete_spec h fuel _ l x Hfuel Ht Hs Hxl) as (fr & h' & n' & l' & E & Ht' & [Hs' Hp] & _).
  unfold del. rewrite E. bind_simpl. rewrite int_res_some by lia. bind_simpl. eexists _, h'. split; [done|].
  assert (X = {[+ x +]} ⊎ X ∖ {[+ x +]}) as HX by multiset_solver. split.
  - exists l'. split; [done|]. split; [done|].
    rewrite HX, gmultiset_elements_disj_union, gmultiset_elements_singleton, Hp in Hl.
    cbn [app] in Hl. by apply Permutation_cons_inv in Hl.
  - cbn [btree_node_num]. rewrite Hn. rewrite HX at 1.
    rewrite gmultiset_size_disj_union, gmultiset_size_singleton. lia.
Qed.
End delete.

(** Programs over a tree, and what they do to a multiset of keys: a multiset takes at most [2^31 - 1]
    keys, the largest [int], and only keys that are there are removed. *)
Inductive tree_op := OpInsert (x : Z) | OpDel (x : Z) | OpFind (x : Z).

Definition tree_step (M : Z) (fuel : nat) (t : BTree) (o : tree_op) : option (BTree * list bool) :=
  match o with
  | OpInsert x => t ← insert M fuel t x; Some (t, [])
  | OpDel x => t ← del M fuel t x; Some (t, [])
  | OpFind x => b ← find fuel t x; Some (t, [b])
  end.

Definition set_step (X : gmultiset Z) (o : tree_op) : option (gmultiset Z * list bool) :=
  match o with
  | OpInsert x => if decide (Z.of_nat (size X) < 2 ^ 31 - 1) then Some ({[+ x +]} ⊎ X, []) else None
  | OpDel x => if decide (x ∈ X) then Some (X ∖ {[+ x +]}, []) else None
  | OpFind x => Some (X, [bool_decide (x ∈ X)])
  end.

Fixpoint run {S O} (f : S → tree_op → option (S * list O)) (s : S) (ops : list tree_op) :
    option (S * list O) :=
  match ops with
  | [] => Some (s, [])
  | o :: ops => '(s, r) ← f s o; '(s, rs) ← run f s ops; Some (s, r ++ rs)
  end.

Lemma step_refines M fuel t h X o X' r : 2 ≤ M → represents M t h X → (S (size X) < fuel)%nat →
  Z.of_nat (size X) < 2 ^ 31 → set_step X o = Some (X', r) → ∃ t' h', tree_step M fuel t o = Some (t', r) ∧
    represents M t' h' X' ∧ (size X' ≤ S (size X))%nat ∧ Z.of_nat (size X') < 2 ^ 31.
Proof.
  intros HM Hr Hfuel Hmax E. pose proof (represents_height M HM _ _ _ Hr) as Hh. destruct o as [x|x|x]; simpl in *.
  - case_decide; [|done].
    destruct (represents_insert M HM t h X x fuel Hr) as (t' & h' & -> & Hr'); [lia..|]. simplify_eq.
    exists t', h'. rewrite gmultiset_size_disj_union, gmultiset_size_singleton. split_and!; [done|done|lia..].
  - case_decide as Hx; [|done]. simplify_eq.
    destruct (represents_del M HM t h X x fuel Hr) as (t' & h' & -> & Hr'); [lia|done|lia|].
    assert (X ∖ {[+ x +]} ⊆ X) as Hsub%gmultiset_subseteq_size by multiset_solver.
    exists t', h'. split_and!; [done|done|lia..].
  - simplify_eq. rewrite (represents_find M HM t h X' x fuel Hr) by lia. exists t, h. split_and!; [done|done|lia..].
Qed.

Lemma run_refines M fuel t h X ops X' rs : 2 ≤ M → represents M t h X →
  (size X + length ops < fuel)%nat → Z.of_nat (size X) < 2 ^ 31 → run set_step X ops = Some (X', rs) →
  ∃ t' h', run (tree_step M fuel) t ops = Some (t', rs) ∧ represents M t' h' X'.
Proof.
  intros HM. revert t h X rs. induction ops as [|o ops IH]; intros t h X rs Hr Hfuel Hmax E; simpl in *.
  { simplify_eq. by exists t, h. }
  destruct (set_step X o) as [[X1 r]|] eqn:E1; [|done]. simpl in E.
  destruct (run set_step X1 ops) as [[X2 rs']|] eqn:E2; [|done]. simpl in E. simplify_eq.
  destruct (step_refines M fuel t h X o X1 r HM Hr) as (t1 & h1 & -> & Hr1 & Hsz & Hmax1); [lia..|done|]. simpl.
  destruct (IH t1 h1 X1 rs' Hr1) as (t2 & h2 & -> & Hr2); [lia..|done|]. simpl. by exists t2, h2.
Qed.

(** C2 [refinement]. A B-tree of any degree [M] of at least 2 behaves as a multiset of keys: every
    sequence of [insert], [find] and [del] of keys that are present, from the empty tree and with never
    more than [2^31 - 1] keys in it, runs through (no access outside of a node's arrays, no null pointer,
    no overflow of the counter), [find] answers whether the key is in the multiset, the counter
    [btree_node_num], an [int], is the number of keys (not of nodes, as its comment says), and the
    resulting tree is balanced and ordered. *)
Theorem btree_refines_multiset M fuel ops X rs : 2 ≤ M → (length ops < fuel)%nat →
  run set_step ∅ ops = Some (X, rs) →
  ∃ t h, run (tree_step M fuel) (BTree_new M) ops = Some (t, rs) ∧ represents M t h X ∧
    btree_node_num t = Z.of_nat (size X).
Proof.
  intros HM Hfuel E. destruct (run_refines M fuel (BTree_new M) 0 ∅ ops X rs) as (t & h & Et & Hr);
    [done|by apply represents_new|done|done|done|].
  exists t, h. split_and!; [done|done|]. by apply rp_num in Hr.
Qed.

Definition sample : list tree_op :=
  (OpInsert <$> [5; 1; 9; 3; 7; 2; 8; 4; 6; 5]) ++ (OpDel <$> [5; 9; 1]) ++ (OpFind <$> [5; 9; 4]).

Lemma btree_refines_multiset_witness : ∃ X t h,
  run (tree_step 2 17) (BTree_new 2) sample = Some (t, [true; false; true]) ∧ represents 2 t h X ∧
  btree_node_num t = Z.of_nat (size X).
Proof.
  exists (list_to_set_disj [5; 3; 7; 2; 8; 4; 6]).
  apply (btree_refines_multiset 2 17 sample); [lia|simpl; lia|]. vm_compute. done.
Defined.

Lemma represents_size M t h X : 2 ≤ M → represents M t h X → (0 < h)%nat →
  2 * M ^ Z.of_nat h - 1 ≤ Z.of_nat (size X).
Proof.
  intros HM [(l & Ht & _ & Hl) _] Hh. destruct h as [|h]; [lia|]. apply tree_size in Ht; [|done].
  unfold size, gmultiset_size. simpl. rewrite Hl. unfold len in Ht. lia.
Qed.

(** C38 [bounds]. The height of the tree is logarithmic in the number of its keys: when a sequence
    of [insert], [find] and [del] of present keys, with never more than [2^31 - 1] keys, leads to the
    multiset [X] of keys, the tree stands for [X] with a height [h], [h > 0] implies that [X] has at least
    [2 * M ^ h - 1] keys, and [find] comes back with the right answer after at most [h + 1] nodes. *)
Theorem btree_height_bound M fuel ops X rs : 2 ≤ M → (length ops < fuel)%nat →
  run set_step ∅ ops = Some (X, rs) →
  ∃ t h, run (tree_step M fuel) (BTree_new M) ops = Some (t, rs) ∧
    represents M t h X ∧ ((0 < h)%nat → 2 * M ^ Z.of_nat h - 1 ≤ Z.of_nat (size X)) ∧
    ∀ x, find (S h) t x = Some (bool_decide (x ∈ X)).
Proof.
  intros HM Hfuel E. destruct (run_refines M fuel (BTree_new M) 0 ∅ ops X rs) as (t & h & Et & Hr);
    [done|by apply represents_new|done|done|done|].
  exists t, h. split_and!; [done|done|by eapply represents_size|].
  intros x. eapply represents_find; [done..|lia].
Qed.

Lemma btree_height_bound_witness : ∃ (X : gmultiset Z) t h,
  run (tree_step 2 17) (BTree_new 2) sample = Some (t, [true; false; true]) ∧
  represents 2 t h X ∧ ((0 < h)%nat → 2 * 2 ^ Z.of_nat h - 1 ≤ Z.of_nat (size X)) ∧
  ∀ x, find (S h) t x = Some (bool_decide (x ∈ X)).
Proof.
  exists (list_to_set_disj [5; 3; 7; 2; 8; 4; 6]).
  apply (btree_height_bound 2 17 sample); [lia|simpl; lia|]. vm_compute. done.
Defined.

(** Deleting a key that is not in the tree can remove another one: the search in a leaf
    reads the cell behind the last key, where the deleted key still is, so that the second deletion
    of 3 loses the key 2. In an empty tree, deleting 0 makes the number of keys negative. *)
Theorem btree_del_absent_key :
  snd <$> run (tree_step 2 9) (BTree_new 2)
    ((OpInsert <$> [1; 2; 3]) ++ [OpDel 3; OpFind 2; OpDel 3; OpFind 2]) = Some [true; false] ∧
  btree_node_num <$> del 2 9 (BTree_new 2) 0 = Some (-1).
Proof. split; vm_compute; reflexivity. Qed.
