(* ===== verification/SkipList.v ===== *)
(** * The skip list (src/cpp-util/skiplist.h)

    Nodes live in a list that [malloc] extends; a pointer is an index into it, the null
    pointer is [None], [head_] is the first node.  There is no operation that frees a node.
    A failing [assert], and an access outside of an array or through the null pointer, is
    [None].  The values of [rand()] that an insertion uses are an argument.  The comparator
    is the template parameter [Cmp]. *)

From S2P Require Import Prelude Arrays.

(** What [Cmp] promises: a three-way comparison by a total preorder. *)
Class Comparator (K : Type) := compare_ : K → K → Z.
Class ComparatorLaws (K : Type) `{Comparator K} := {
  compare_flip a b : compare_ a b < 0 ↔ 0 < compare_ b a;
  compare_trans a b c : compare_ a b ≤ 0 → compare_ b c ≤ 0 → compare_ a c ≤ 0
}.

Section skiplist.
Context {K : Type} `{Comparator K}.

(** src/cpp-util/skiplist.h:221-249, [SkipList::Node]. *)
Record Node := mkNode { key : K; next_ : list (option nat) }.
Definition Next (h : list Node) (x : nat) (n : Z) : option (option nat) :=
  nd ← h !! x; aget (next_ nd) n.
Definition SetNext (h : list Node) (x : nat) (n : Z) (next : option nat) : option (list Node) :=
  nd ← h !! x; a ← aset (next_ nd) n next; Some (<[x := mkNode (key nd) a]> h).

(** src/cpp-util/skiplist.h:118-121, [SkipList::NewNode]. The cells of [next_] are written before
    they are read. *)
Definition NewNode (h : list Node) (k : K) (height : Z) : list Node * nat :=
  (h ++ [mkNode k (replicate (Z.to_nat height) None)], length h).

(** src/cpp-util/skiplist.h:106-116, [SkipList members]. *)
Record SkipList := mkSkipList {
  kMaxHeight_ : Z;
  kBranching_ : Z;
  kScaledInverseBranching_ : Z;
  nodes : list Node;
  max_height_ : Z;
  prev_ : list nat;
  prev_height_ : Z
}.
Definition head_ : nat := 0.

(** src/cpp-util/skiplist.h:16-32, [SkipList::SkipList]. [zero] is [K(0)]; [2147483647L / 0] is
    undefined. *)
Definition SkipList_new (zero : K) (max_height branching_factor : Z) : option SkipList :=
  let kMaxHeight := u16 max_height in
  let kBranching := u16 branching_factor in
  if kBranching =? 0 then None else
  let kScaled := u32 (2147483647 / kBranching) in
  if negb ((0 <? max_height) && (kMaxHeight =? u32 max_height)) then None else
  if negb ((0 <? branching_factor) && (kBranching =? u32 branching_factor)) then None else
  if negb (0 <? kScaled) then None else
  let '(h, hd) := NewNode [] zero max_height in
  res ← for_up (Z.to_nat kMaxHeight) 0
    (λ i hp, let '(h, prev) := hp : list Node * list nat in
      h ← SetNext h hd i None; prev ← aset prev i hd; Some (h, prev))
    (h, replicate (Z.to_nat kMaxHeight) hd);
  let '(h, prev) := res : list Node * list nat in
  Some (mkSkipList kMaxHeight kBranching kScaled h 1 prev 1).

(** src/cpp-util/skiplist.h:123-129, [SkipList::RandomHeight]. [r n] is the value of the call of
    [rand()] number [n]; [n] calls of the loop are left before [kMaxHeight_] is reached. *)
Fixpoint climb (s : SkipList) (r : nat → Z) (n : nat) (height : Z) : Z :=
  match n with
  | O => height
  | S n =>
      if (height <? kMaxHeight_ s) && (u32 (r (Z.to_nat (height - 1))) <? kScaledInverseBranching_ s)
      then climb s r n (height + 1) else height
  end.
Definition RandomHeight (s : SkipList) (r : nat → Z) : option Z :=
  let height := climb s r (Z.to_nat (kMaxHeight_ s)) 1 in
  if (0 <? height) && (height <? kMaxHeight_ s) then Some height else None.

(** src/cpp-util/skiplist.h:130-142, [SkipList::KeyIsAfterNode, Equal, LessThan]. *)
Definition KeyIsAfterNode (h : list Node) (k : K) (n : option nat) : option bool :=
  match n with None => Some false | Some n => nd ← h !! n; Some (compare_ (key nd) k <? 0) end.
Definition Equal (a b : K) : bool := compare_ a b =? 0.
Definition LessThan (a b : K) : bool := compare_ a b <? 0.

(** src/cpp-util/skiplist.h:155-158, [the assertions of the search loops]. The lists are sorted, and the
    search has not overshot. *)
Definition search_asserts (h : list Node) (k : K) (x : nat) (next : option nat) : option bool :=
  if bool_decide (x = head_) then Some true else
  sorted ← match next with
           | None => Some true
           | Some n => nd ← h !! n; KeyIsAfterNode h (key nd) (Some x)
           end;
  before ← KeyIsAfterNode h k (Some x);
  Some (sorted && before).

(** src/cpp-util/skiplist.h:146-169, [SkipList::FindGreaterOrEqual]. *)
Fixpoint FindGreaterOrEqual_from (fuel : nat) (h : list Node) (k : K) (x : nat) (level : Z)
    (last_bigger : option nat) : option (option nat) :=
  match fuel with
  | O => None
  | S fuel =>
      next ← Next h x level;
      ok ← search_asserts h k x next;
      if negb ok then None else
      cmp ← match next with
            | None => Some 1
            | Some n => if bool_decide (next = last_bigger) then Some 1
                        else nd ← h !! n; Some (compare_ (key nd) k)
            end;
      if (cmp =? 0) || ((0 <? cmp) && (level =? 0)) then Some next
      else if cmp <? 0 then
        match next with
        | Some n => FindGreaterOrEqual_from fuel h k n level last_bigger
        | None => None
        end
      else FindGreaterOrEqual_from fuel h k x (level - 1) next
  end.

(** src/cpp-util/skiplist.h:173-199, [SkipList::FindLessThan]. *)
Fixpoint FindLessThan_from (fuel : nat) (h : list Node) (k : K) (prev : option (list nat)) (x : nat)
    (level : Z) (last_not_after : option nat) : option (nat * option (list nat)) :=
  match fuel with
  | O => None
  | S fuel =>
      next ← Next h x level;
      ok ← search_asserts h k x next;
      if negb ok then None else
      after ← (if bool_decide (next = last_not_after) then Some false else KeyIsAfterNode h k next);
      match after, next with
      | true, Some n => FindLessThan_from fuel h k prev n level last_not_after
      | _, _ =>
          prev ← match prev with None => Some None | Some a => a ← aset a level x; Some (Some a) end;
          if level =? 0 then Some (x, prev)
          else FindLessThan_from fuel h k prev x (level - 1) next
      end
  end.

(** src/cpp-util/skiplist.h:201-217, [SkipList::FindLast]. *)
Fixpoint FindLast_from (fuel : nat) (h : list Node) (x : nat) (level : Z) : option nat :=
  match fuel with
  | O => None
  | S fuel =>
      next ← Next h x level;
      match next with
      | None => if level =? 0 then Some x else FindLast_from fuel h x (level - 1)
      | Some n => FindLast_from fuel h n level
      end
  end.

(** src/cpp-util/skiplist.h:82-103, [SkipList::EstimateCount]. *)
Fixpoint EstimateCount_from (fuel : nat) (h : list Node) (branching : Z) (k : K) (x : nat) (level : Z)
    (count : Z) : option Z :=
  match fuel with
  | O => None
  | S fuel =>
      ok ← (if bool_decide (x = head_) then Some true else KeyIsAfterNode h k (Some x));
      if negb ok then None else
      next ← Next h x level;
      after ← KeyIsAfterNode h k next;
      match after, next with
      | true, Some n => EstimateCount_from fuel h branching k n level (u64 (count + 1))
      | _, _ =>
          if level =? 0 then Some count
          else EstimateCount_from fuel h branching k x (level - 1) (u64 (count * branching))
      end
  end.

(** A search makes at most one step per node and one per level. *)
Definition steps (s : SkipList) : nat := length (nodes s) + Z.to_nat (max_height_ s).
Definition FindGreaterOrEqual (s : SkipList) (k : K) : option (option nat) :=
  FindGreaterOrEqual_from (steps s) (nodes s) k head_ (max_height_ s - 1) None.
Definition FindLessThan (s : SkipList) (k : K) (prev : option (list nat)) :
    option (nat * option (list nat)) :=
  FindLessThan_from (steps s) (nodes s) k prev head_ (max_height_ s - 1) None.
Definition FindLast (s : SkipList) : option nat :=
  FindLast_from (steps s) (nodes s) head_ (max_height_ s - 1).
Definition EstimateCount (s : SkipList) (k : K) : option Z :=
  EstimateCount_from (steps s) (nodes s) (kBranching_ s) k head_ (max_height_ s - 1) 0.

(** src/cpp-util/skiplist.h:73-80, [SkipList::Contains]. *)
Definition Contains (s : SkipList) (k : K) : option bool :=
  x ← FindGreaterOrEqual s k;
  match x with None => Some false | Some n => nd ← nodes s !! n; Some (Equal k (key nd)) end.

(** src/cpp-util/skiplist.h:37-53, [SkipList::Insert (finding the predecessors)]. *)
Definition find_prev (s : SkipList) (k : K) : option (list nat) :=
  p0 ← aget (prev_ s) 0;
  n0 ← Next (nodes s) p0 0;
  after_next ← KeyIsAfterNode (nodes s) k n0;
  fast ← (if after_next : bool then Some false
          else if bool_decide (p0 = head_) then Some true
          else KeyIsAfterNode (nodes s) k (Some p0));
  prev ← (if fast : bool then
            if negb (bool_decide (p0 ≠ head_) || ((prev_height_ s =? 1) && (max_height_ s =? 1)))
            then None
            else for_up (Z.to_nat (prev_height_ s - 1)) 1
              (λ i prev, p0 ← aget prev 0; aset prev i p0) (prev_ s)
          else
            res ← FindLessThan s k (Some (prev_ s)); res.2);
  p0 ← aget prev 0;
  n0 ← Next (nodes s) p0 0;
  match n0 with
  | None => Some prev
  | Some n => nd ← nodes s !! n; if Equal k (key nd) then None else Some prev
  end.

(** src/cpp-util/skiplist.h:64-68, [SkipList::Insert (linking the node)]. *)
Definition link (prev : list nat) (x : nat) (i : Z) (h : list Node) : option (list Node) :=
  p ← aget prev i;
  n ← Next h p i;
  h ← SetNext h x i n;
  SetNext h p i (Some x).

(** src/cpp-util/skiplist.h:37-71, [SkipList::Insert]. *)
Definition Insert (s : SkipList) (r : nat → Z) (k : K) : option SkipList :=
  prev ← find_prev s k;
  height ← RandomHeight s r;
  res ← (if max_height_ s <? height then
           prev ← for_up (Z.to_nat (height - max_height_ s)) (max_height_ s)
             (λ i prev, aset prev i head_) prev;
           Some (prev, height)
         else Some (prev, max_height_ s));
  let '(prev, max_height) := res : list nat * Z in
  let '(h, x) := NewNode (nodes s) k height in
  h ← for_up (Z.to_nat height) 0 (link prev x) h;
  prev ← aset prev 0 x;
  Some (mkSkipList (kMaxHeight_ s) (kBranching_ s) (kScaledInverseBranching_ s) h max_height prev height).

(** src/cpp-util/skiplist.h:251-318, [SkipList::Iterator]. An iterator is its [node_]; [key], [Next] and
    [Prev] assert that it is valid. *)
Definition Valid (node_ : option nat) : bool := bool_decide (node_ ≠ None).
Definition iter_key (s : SkipList) (node_ : option nat) : option K :=
  n ← node_; key <$> nodes s !! n.
Definition iter_Next (s : SkipList) (node_ : option nat) : option (option nat) :=
  n ← node_; Next (nodes s) n 0.
Definition not_head (x : nat) : option nat := if bool_decide (x = head_) then None else Some x.
Definition iter_Prev (s : SkipList) (node_ : option nat) : option (option nat) :=
  k ← iter_key s node_; res ← FindLessThan s k None; Some (not_head res.1).
Definition Seek (s : SkipList) (target : K) : option (option nat) := FindGreaterOrEqual s target.
Definition SeekToFirst (s : SkipList) : option (option nat) := Next (nodes s) head_ 0.
Definition SeekToLast (s : SkipList) : option (option nat) := x ← FindLast s; Some (not_head x).
Fixpoint back_to (fuel : nat) (s : SkipList) (target : K) (node_ : option nat) : option (option nat) :=
  match fuel with
  | O => None
  | S fuel =>
      if Valid node_ then
        k ← iter_key s node_;
        if LessThan target k then node_ ← iter_Prev s node_; back_to fuel s target node_
        else Some node_
      else Some node_
  end.
Definition SeekForPrev (s : SkipList) (target : K) : option (option nat) :=
  node_ ← Seek s target;
  node_ ← (if Valid node_ then Some node_ else SeekToLast s);
  back_to (S (length (nodes s))) s target node_.

(** ** The levels of the list

    An entry is a node as the list sees it: where it is, its key and its height. The level
    [i] consists of the entries that are higher than [i]. *)
Record ent := Ent { eid : nat; ekey : K; eht : Z }.
Definition level (i : Z) (L : list ent) : list ent := filter (λ e, i < eht e) L.

(** The heap holds the entry, and its cell [i] points to the first entry of [l] (which goes
    on in the same way). *)
Definition holds (h : list Node) (e : ent) : Prop :=
  ∃ nd, h !! eid e = Some nd ∧ key nd = ekey e ∧ Z.of_nat (length (next_ nd)) = eht e.
Definition first (l : list ent) : option nat := eid <$> head l.
Fixpoint chain (h : list Node) (i : Z) (x : ent) (l : list ent) : Prop :=
  Next h (eid x) i = Some (first l) ∧ match l with [] => True | y :: l => chain h i y l end.

Definition lt_key (a b : ent) : Prop := compare_ (ekey a) (ekey b) < 0.

Lemma level_app i l1 l2 : level i (l1 ++ l2) = level i l1 ++ level i l2.
Proof. apply filter_app. Qed.

Lemma level_cons i e l : i < eht e → level i (e :: l) = e :: level i l.
Proof. intros He. unfold level. by rewrite filter_cons_True. Qed.

Lemma level_skip i e l : ¬ i < eht e → level i (e :: l) = level i l.
Proof. intros He. unfold level. by rewrite filter_cons_False. Qed.

Lemma elem_of_level i e l : e ∈ level i l ↔ i < eht e ∧ e ∈ l.
Proof. unfold level. by rewrite list_elem_of_filter. Qed.

Lemma level_0 l : (∀ e, e ∈ l → 1 ≤ eht e) → level 0 l = l.
Proof.
  induction l as [|e l IH]; intros Hl; [done|]. rewrite level_cons, IH; [done| |].
  - intros e' He'. apply Hl. by right.
  - specialize (Hl e ltac:(by left)). lia.
Qed.

Lemma level_nil i l : (∀ e, e ∈ l → eht e ≤ i) → level i l = [].
Proof.
  induction l as [|e l IH]; intros Hl; [done|]. rewrite level_skip; [|specialize (Hl e ltac:(by left)); lia].
  apply IH. intros e' He'. apply Hl. by right.
Qed.

(** The first entry of a level, with what is below it in front. *)
Lemma level_first i l y r : level i l = y :: r →
  ∃ l1 l2, l = l1 ++ y :: l2 ∧ level i l1 = [] ∧ i < eht y ∧ level i l2 = r.
Proof.
  induction l as [|e l IH]; [done|]. destruct (decide (i < eht e)).
  - rewrite level_cons by done. intros [= -> <-]. by exists [], l.
  - rewrite level_skip by done. intros (l1 & l2 & -> & H1 & Hy & H2)%IH. exists (e :: l1), l2.
    by rewrite level_skip.
Qed.

Lemma nodup_level i l : NoDup (eid <$> l) → NoDup (eid <$> level i l).
Proof.
  induction l as [|e l IH]; [done|]. rewrite fmap_cons. intros [He Hl]%NoDup_cons.
  destruct (decide (i < eht e)); [rewrite level_cons by done|rewrite level_skip by done; auto].
  rewrite fmap_cons. apply NoDup_cons. split; [|auto].
  intros (e' & Ee & [_ He']%elem_of_level)%list_elem_of_fmap. apply He. rewrite Ee. by apply list_elem_of_fmap_2.
Qed.

Lemma chain_next h i x l : chain h i x l → Next h (eid x) i = Some (first l).
Proof. by destruct l as [|y l]; intros []. Qed.

Lemma chain_app h i x l1 y l2 : chain h i x (l1 ++ y :: l2) → chain h i y l2.
Proof. revert x. induction l1 as [|z l1 IH]; intros x; simpl; [by intros []|]. intros [_ Hc]. by eapply IH. Qed.

(** ** Searching

    The entries [L = A ++ B] are sorted; the keys of [A] are before the key that is searched
    for, the keys of [B] are not. *)

(** The last entry of [l], or the head of the list. *)
Definition last_or (hd : ent) (l : list ent) : ent := default hd (last l).

Section search.
Context (Hlaws : ComparatorLaws K).
Context (h : list Node) (hd : ent) (top : Z).

Record wf_levels (L : list ent) : Prop := {
  wl_head : eid hd = head_ ∧ top ≤ eht hd;
  wl_holds : ∀ e, e ∈ hd :: L → holds h e;
  wl_nodup : NoDup (eid <$> hd :: L);
  wl_sorted : StronglySorted lt_key L;
  wl_height : ∀ e, e ∈ L → 1 ≤ eht e;
  wl_chain : ∀ i, 0 ≤ i < top → chain h i hd (level i L)
}.

Lemma last_or_snoc x l e : last_or x (l ++ [e]) = e.
Proof. unfold last_or. by rewrite last_snoc. Qed.

(** A level below an entry that is on it. *)
Lemma chain_at L1 L2 i : wf_levels (L1 ++ L2) → 0 ≤ i < top → i < eht (last_or hd L1) →
  chain h i (last_or hd L1) (level i L2).
Proof.
  intros Hw Hi He. pose proof (wl_chain _ Hw i Hi) as Hc.
  destruct L1 as [|x L1 _] using rev_ind; [done|]. rewrite last_or_snoc in *.
  rewrite <-(assoc_L (++)), level_app in Hc. cbn [app] in Hc. rewrite level_cons in Hc by done.
  by eapply chain_app.
Qed.

Lemma ent_key L e : wf_levels L → e ∈ hd :: L → ∃ nd, h !! eid e = Some nd ∧ key nd = ekey e.
Proof. intros Hw He. destruct (wl_holds _ Hw e He) as (nd & E & Hk & _). by exists nd. Qed.

Lemma after_ent L e k : wf_levels L → e ∈ hd :: L →
  KeyIsAfterNode h k (Some (eid e)) = Some (compare_ (ekey e) k <? 0).
Proof. intros Hw He. destruct (ent_key L e Hw He) as (nd & E & Hk). simpl. by rewrite E; simpl; rewrite Hk. Qed.

Lemma eid_inj L e e' : wf_levels L → e ∈ hd :: L → e' ∈ hd :: L → eid e = eid e' → e = e'.
Proof.
  intros Hw He He' E. apply list_elem_of_lookup in He as [i Hi]. apply list_elem_of_lookup in He' as [j Hj].
  assert (i = j) as ->; [|congruence].
  eapply (NoDup_lookup (eid <$> hd :: L)); [by eapply wl_nodup|by rewrite list_lookup_fmap, Hi|].
  rewrite list_lookup_fmap, Hj. simpl. by rewrite E.
Qed.

Lemma last_or_elem L1 L2 : last_or hd L1 ∈ hd :: L1 ++ L2.
Proof.
  destruct L1 as [|x L1 _] using rev_ind; [by left|]. rewrite last_or_snoc. right.
  apply elem_of_app. left. apply elem_of_app. right. by left.
Qed.

Lemma sorted_before L1 x L2 y : StronglySorted lt_key (L1 ++ x :: L2) → y ∈ L2 → lt_key x y.
Proof.
  intros Hs Hy. induction L1 as [|z L1 IH]; inversion Hs as [|? ? Hs' Hall]; subst.
  - rewrite Forall_forall in Hall. by apply Hall.
  - by apply IH.
Qed.

Lemma last_level A1 A2 i : i < eht (last_or hd A1) → level i A2 = [] →
  last_or hd (level i (A1 ++ A2)) = last_or hd A1.
Proof.
  intros Hi E. rewrite level_app, E, app_nil_r. destruct A1 as [|x A1 _] using rev_ind; [done|].
  rewrite last_or_snoc in *. rewrite level_app, level_cons by done. by rewrite last_or_snoc.
Qed.

Context (A B : list ent) (k : K) (Hw : wf_levels (A ++ B)).
Context (HA : ∀ e, e ∈ A → compare_ (ekey e) k < 0) (HB : ∀ e, e ∈ B → 0 ≤ compare_ (ekey e) k).

(** What the search finds behind the entry at the end of [A1]: an entry of [A], to go on with,
    or the first entry of [B] on this level. *)
Lemma search_next A1 A2 i : A = A1 ++ A2 → 0 ≤ i < top → i < eht (last_or hd A1) →
  ∃ next, Next h (eid (last_or hd A1)) i = Some next ∧
    search_asserts h k (eid (last_or hd A1)) next = Some true ∧
    ((∃ C y A2', A2 = C ++ y :: A2' ∧ i < eht y ∧ next = Some (eid y) ∧ y ∈ A) ∨
     (level i A2 = [] ∧ next = first (level i B))).
Proof.
  intros EA Hi Hx. pose proof Hw as Hw'. rewrite EA, <-(assoc_L (++)) in Hw'.
  pose proof (chain_next _ _ _ _ (chain_at _ _ _ Hw' Hi Hx)) as En.
  exists (first (level i (A2 ++ B))). split; [done|]. split.
  - unfold search_asserts. case_bool_decide as Hh; [done|].
    assert (∃ A0 x, A1 = A0 ++ [x]) as (A0 & x & ->).
    { destruct A1 as [|x A0 _] using rev_ind; [|by exists A0, x]. destruct Hh. apply Hw. }
    rewrite last_or_snoc in *. clear En Hh.
    assert (x ∈ A) as Hxa by (rewrite EA; apply elem_of_app; left; apply elem_of_app; right; by left).
    assert (x ∈ hd :: A ++ B) as Hxe by (right; apply elem_of_app; by left).
    rewrite !(after_ent _ x _ Hw Hxe). specialize (HA x Hxa). rewrite (proj2 (Z.ltb_lt _ _) HA).
    destruct (level i (A2 ++ B)) as [|y r] eqn:El; [done|]. simpl.
    assert (y ∈ A2 ++ B) as Hy by (eapply elem_of_level; rewrite El; by left).
    destruct (ent_key _ y Hw) as (nd & -> & Hk).
    { right. rewrite EA, <-!(assoc_L (++)). apply elem_of_app. right. by right. }
    simpl. pose proof (after_ent _ x (key nd) Hw Hxe) as E. simpl in E. rewrite E. simpl.
    assert (lt_key x y) as Hlt.
    { eapply (sorted_before A0 x (A2 ++ B)); [|done]. pose proof (wl_sorted _ Hw') as Hs.
      by rewrite <-(assoc_L (++)) in Hs. }
    unfold lt_key in Hlt. rewrite Hk, (proj2 (Z.ltb_lt _ _) Hlt). done.
  - rewrite level_app. destruct (level i A2) as [|y r] eqn:E; [by right|]. left.
    destruct (level_first _ _ _ _ E) as (C & A2' & -> & _ & Hy & _). exists C, y, A2'. split_and!; try done.
    rewrite EA. apply elem_of_app. right. apply elem_of_app. right. by left.
Qed.

(** The entry on which a higher level ended is not before the key. *)
Definition seen (o : option nat) : Prop := o = None ∨ ∃ b, b ∈ B ∧ o = Some (eid b).

Lemma seen_first i : seen (first (level i B)).
Proof.
  destruct (level i B) as [|b r] eqn:E; [by left|]. right. exists b. split; [|done].
  eapply elem_of_level. rewrite E. by left.
Qed.

Lemma seen_not_before o e : seen o → e ∈ A → Some (eid e) ≠ o.
Proof.
  intros [->|(b & Hb & ->)] He; [done|]. intros [= E].
  assert (e = b) as -> by (eapply eid_inj; [exact Hw|right; apply elem_of_app; by left|right; apply elem_of_app; by right|done]).
  specialize (HA b He). specialize (HB b Hb). lia.
Qed.

Lemma after_first i : KeyIsAfterNode h k (first (level i B)) = Some false.
Proof.
  destruct (level i B) as [|b r] eqn:E; [done|].
  assert (b ∈ B) as Hb by (eapply elem_of_level; rewrite E; by left).
  cbn [first]. rewrite (after_ent _ b _ Hw) by (right; apply elem_of_app; by right).
  by rewrite (proj2 (Z.ltb_ge _ _) (HB b Hb)).
Qed.

Lemma after_before e : e ∈ A → KeyIsAfterNode h k (Some (eid e)) = Some true.
Proof.
  intros He. rewrite (after_ent _ e _ Hw) by (right; apply elem_of_app; by left).
  by rewrite (proj2 (Z.ltb_lt _ _) (HA e He)).
Qed.

Lemma below_nil A1 A2 : A = A1 ++ A2 → level 0 A2 = [] → A2 = [].
Proof.
  intros EA E. rewrite level_0 in E; [done|]. intros e He. eapply (wl_height _ Hw).
  rewrite EA. apply elem_of_app. left. apply elem_of_app. by right.
Qed.

(** The array [prev] from level [from] on. *)
Definition prev_from (from : Z) (a : list nat) : Prop :=
  top ≤ Z.of_nat (length a) ∧ ∀ j, from ≤ j < top → aget a j = Some (eid (last_or hd (level j A))).
Definition prev_rel (prev prev' : option (list nat)) : Prop :=
  match prev, prev' with
  | None, None => True
  | Some a, Some a' => length a' = length a ∧ prev_from 0 a'
  | _, _ => False
  end.

Lemma FindLessThan_loop fuel A1 A2 lv prev lna : A = A1 ++ A2 → 0 ≤ lv < top →
  lv < eht (last_or hd A1) → seen lna → (length A2 + Z.to_nat lv < fuel)%nat →
  match prev with None => True | Some a => prev_from (lv + 1) a end →
  ∃ prev', FindLessThan_from fuel h k prev (eid (last_or hd A1)) lv lna =
    Some (eid (last_or hd A), prev') ∧ prev_rel prev prev'.
Proof.
  revert A1 A2 lv prev lna. induction fuel as [|fuel IH]; intros A1 A2 lv prev lna EA Hlv Hx Hlna Hf Hp; [lia|].
  cbn [FindLessThan_from].
  destruct (search_next A1 A2 lv EA Hlv Hx) as (next & -> & Has & [(C & y & A2' & -> & Hy & -> & Hya)|[Hnil ->]]);
    bind_simpl; rewrite Has; bind_simpl; cbn [negb].
  - rewrite bool_decide_eq_false_2 by (by apply seen_not_before). rewrite after_before by done. bind_simpl.
    rewrite <-(last_or_snoc hd (A1 ++ C) y). apply (IH _ A2'); rewrite ?last_or_snoc; try done.
    + rewrite EA, <-!(assoc_L (++)). done.
    + rewrite length_app in Hf. simpl in Hf. lia.
  - assert ((if bool_decide (first (level lv B) = lna) then Some false
             else KeyIsAfterNode h k (first (level lv B))) = Some false) as ->
      by (case_bool_decide; [done|apply after_first]).
    bind_simpl. pose proof (last_level A1 A2 lv Hx Hnil) as El. rewrite <-EA in El.
    assert (∃ prev1, match prev with None => Some None | Some a => a ← aset a lv (eid (last_or hd A1)); Some (Some a) end = Some prev1 ∧
      match prev, prev1 with None, None => True | Some a, Some a' => length a' = length a ∧ prev_from lv a' | _, _ => False end)
      as (prev1 & -> & Hp1).
    { destruct prev as [a|]; [|by exists None]. destruct Hp as [Hlen Hp].
      destruct (aset a lv (eid (last_or hd A1))) as [a'|] eqn:Ea.
      2: { unfold aset in Ea. rewrite (proj2 (Z.leb_le _ _)), (proj2 (Z.ltb_lt _ _)) in Ea by lia. done. }
      exists (Some a'). split; [done|]. split; [by eapply aset_length|]. split; [by erewrite aset_length|].
      intros j Hj. rewrite (aget_aset _ _ _ _ j Ea). case_decide as Hd; [by rewrite <-Hd, El|]. apply Hp. lia. }
    bind_simpl. destruct (Z.eqb_spec lv 0) as [->|Hne].
    + rewrite (below_nil A1 A2 EA Hnil), app_nil_r in EA. rewrite EA. exists prev1. split; [done|].
      unfold prev_rel. by destruct prev, prev1.
    + destruct (IH A1 A2 (lv - 1) prev1 (first (level lv B))) as (prev' & -> & Hr); try done;
        [lia|lia|apply seen_first|lia|destruct prev, prev1; try done; by replace (lv - 1 + 1) with lv by lia; destruct Hp1|].
      exists prev'. split; [done|]. unfold prev_rel in *. destruct prev, prev1, prev'; try done.
      destruct Hr, Hp1. split; [congruence|done].
Qed.

Lemma equal_is_first b : b ∈ B → compare_ (ekey b) k = 0 → first B = Some (eid b).
Proof.
  intros Hb E. pose proof (wl_sorted _ Hw) as Hs. destruct B as [|b0 B']; [by apply not_elem_of_nil in Hb|].
  apply elem_of_cons in Hb as [->|Hb]; [done|]. exfalso.
  pose proof (sorted_before _ _ _ _ Hs Hb) as Hlt. unfold lt_key in Hlt.
  specialize (HB b0 ltac:(by left)). apply (proj1 (compare_flip _ _)) in Hlt.
  assert (compare_ k (ekey b0) ≤ 0) as Hk.
  { apply Z.nlt_ge. intros Hgt%compare_flip. lia. }
  assert (compare_ (ekey b) k ≤ 0) as Hbk by lia. pose proof (compare_trans _ _ _ Hbk Hk). lia.
Qed.

Lemma FindGreaterOrEqual_loop fuel A1 A2 lv lb : A = A1 ++ A2 → 0 ≤ lv < top →
  lv < eht (last_or hd A1) → seen lb → (length A2 + Z.to_nat lv < fuel)%nat →
  FindGreaterOrEqual_from fuel h k (eid (last_or hd A1)) lv lb = Some (first B).
Proof.
  revert A1 A2 lv lb. induction fuel as [|fuel IH]; intros A1 A2 lv lb EA Hlv Hx Hlb Hf; [lia|].
  cbn [FindGreaterOrEqual_from].
  destruct (search_next A1 A2 lv EA Hlv Hx) as (next & -> & Has & [(C & y & A2' & -> & Hy & -> & Hya)|[Hnil ->]]);
    bind_simpl; rewrite Has; bind_simpl; cbn [negb].
  - rewrite bool_decide_eq_false_2 by (by apply seen_not_before).
    destruct (ent_key _ y Hw) as (nd & E & Hk); [right; apply elem_of_app; by left|].
    rewrite E. bind_simpl. rewrite Hk.
    specialize (HA y Hya). rewrite (proj2 (Z.eqb_neq _ _)), (proj2 (Z.ltb_ge _ _)), (proj2 (Z.ltb_lt _ _)) by lia.
    simpl. rewrite <-(last_or_snoc hd (A1 ++ C) y). apply (IH _ A2'); rewrite ?last_or_snoc; try done.
    + rewrite EA, <-!(assoc_L (++)). done.
    + rewrite length_app in Hf. simpl in Hf. lia.
  - assert (∃ c, match first (level lv B) with
        | None => Some 1
        | Some n => if bool_decide (first (level lv B) = lb) then Some 1
                    else nd ← h !! n; Some (compare_ (key nd) k)
        end = Some c ∧ 0 ≤ c ∧ (c = 0 → first (level lv B) = first B)) as (c & -> & Hc & Hc0).
    { destruct (level lv B) as [|b r] eqn:E; [by exists 1|].
      change (first (b :: r)) with (Some (eid b)).
      assert (b ∈ B) as Hb by (eapply elem_of_level; rewrite E; by left).
      case_bool_decide; [by exists 1|].
      destruct (ent_key _ b Hw) as (nd & E' & Hk); [right; apply elem_of_app; by right|].
      exists (compare_ (ekey b) k). rewrite E'. bind_simpl. rewrite Hk. split; [done|]. split; [by apply HB|]. intros Hz. symmetry. by apply equal_is_first. }
    bind_simpl. rewrite (proj2 (Z.ltb_ge c 0)) by lia. destruct (Z.eqb_spec c 0) as [->|Hc1]; [by rewrite Hc0|].
    rewrite (proj2 (Z.ltb_lt 0 c)) by lia. simpl. destruct (Z.eqb_spec lv 0) as [->|Hne].
    + rewrite level_0; [done|]. intros e He. eapply (wl_height _ Hw). apply elem_of_app. by right.
    + apply (IH A1 A2); try done; [lia|lia|apply seen_first|lia].
Qed.

Lemma EstimateCount_loop fuel br A1 A2 lv count : A = A1 ++ A2 → 0 ≤ lv < top →
  lv < eht (last_or hd A1) → (length A2 + Z.to_nat lv < fuel)%nat →
  is_Some (EstimateCount_from fuel h br k (eid (last_or hd A1)) lv count).
Proof.
  revert A1 A2 lv count. induction fuel as [|fuel IH]; intros A1 A2 lv count EA Hlv Hx Hf; [lia|].
  cbn [EstimateCount_from].
  assert ((if bool_decide (eid (last_or hd A1) = head_) then Some true
    else KeyIsAfterNode h k (Some (eid (last_or hd A1)))) = Some true) as ->.
  { case_bool_decide as Hh; [done|]. destruct A1 as [|x A0 _] using rev_ind; [destruct Hh; apply Hw|].
    rewrite last_or_snoc. apply after_before. rewrite EA. apply elem_of_app. left. apply elem_of_app. right. by left. }
  bind_simpl. cbn [negb].
  destruct (search_next A1 A2 lv EA Hlv Hx) as (next & -> & Has & [(C & y & A2' & -> & Hy & -> & Hya)|[Hnil ->]]);
    bind_simpl.
  - rewrite after_before by done. bind_simpl. rewrite <-(last_or_snoc hd (A1 ++ C) y).
    apply (IH _ A2'); rewrite ?last_or_snoc; try done.
    + rewrite EA, <-!(assoc_L (++)). done.
    + rewrite length_app in Hf. simpl in Hf. lia.
  - rewrite after_first. bind_simpl. destruct (Z.eqb_spec lv 0); [done|]. apply (IH A1 A2); try done; lia.
Qed.
End search.

Lemma FindLast_loop h hd top L fuel A1 A2 lv : wf_levels h hd top L → L = A1 ++ A2 → 0 ≤ lv < top →
  lv < eht (last_or hd A1) → (length A2 + Z.to_nat lv < fuel)%nat →
  FindLast_from fuel h (eid (last_or hd A1)) lv = Some (eid (last_or hd L)).
Proof.
  intros Hw. revert A1 A2 lv. induction fuel as [|fuel IH]; intros A1 A2 lv EL Hlv Hx Hf; [lia|].
  pose proof Hw as Hw'. rewrite EL in Hw'. cbn [FindLast_from].
  rewrite (chain_next _ _ _ _ (chain_at _ _ _ _ _ _ Hw' Hlv Hx)). bind_simpl.
  destruct (level lv A2) as [|y r] eqn:E.
  - change (first []) with (@None nat). cbv iota. destruct (Z.eqb_spec lv 0) as [->|Hne].
    + rewrite level_0 in E; [by rewrite EL, E, app_nil_r|]. intros e He. eapply (wl_height _ _ _ _ Hw').
      apply elem_of_app. by right.
    + apply (IH A1 A2); try done; lia.
  - change (first (y :: r)) with (Some (eid y)).
    destruct (level_first _ _ _ _ E) as (C & A2' & -> & _ & Hy & _).
    rewrite <-(last_or_snoc hd (A1 ++ C) y). apply (IH _ A2'); rewrite ?last_or_snoc; try done.
    + rewrite EL, <-!(assoc_L (++)). done.
    + rewrite length_app in Hf. simpl in Hf. lia.
Qed.

(** ** Linking a node in *)

Lemma SetNext_Next h x i v h' y j : SetNext h x i v = Some h' →
  Next h' y j = if decide (y = x ∧ j = i) then Some v else Next h y j.
Proof.
  unfold SetNext, Next. destruct (h !! x) as [nd|] eqn:E; [|done]. simpl.
  destruct (aset (next_ nd) i v) as [a|] eqn:Ea; [|done]. simpl. intros [= <-].
  destruct (decide (y = x)) as [->|Hne].
  - rewrite list_lookup_insert_eq by (by eapply lookup_lt_Some). simpl. rewrite E. simpl.
    rewrite (aget_aset _ _ _ _ j Ea). repeat case_decide; naive_solver.
  - rewrite list_lookup_insert_ne by done. rewrite decide_False by tauto. done.
Qed.

Lemma SetNext_holds h x i v h' e : SetNext h x i v = Some h' → holds h e → holds h' e.
Proof.
  unfold SetNext. destruct (h !! x) as [nd|] eqn:E; [|done]. simpl.
  destruct (aset (next_ nd) i v) as [a|] eqn:Ea; [|done]. simpl. intros [= <-] (nd' & Ee & Hk & Hl).
  destruct (decide (eid e = x)) as [<-|Hne].
  - exists (mkNode (key nd) a). rewrite list_lookup_insert_eq by (by eapply lookup_lt_Some).
    simplify_eq. simpl. by rewrite (aset_length _ _ _ _ Ea).
  - exists nd'. by rewrite list_lookup_insert_ne.
Qed.

Lemma SetNext_length h x i v h' : SetNext h x i v = Some h' → length h' = length h.
Proof.
  unfold SetNext. destruct (h !! x) as [nd|] eqn:E; [|done]. simpl.
  destruct (aset (next_ nd) i v) as [a|]; [|done]. simpl. intros [= <-]. apply length_insert.
Qed.

Lemma SetNext_ok h e i v : holds h e → 0 ≤ i < eht e → is_Some (SetNext h (eid e) i v).
Proof.
  intros (nd & E & _ & Hl) Hi. unfold SetNext. rewrite E. simpl. rewrite aset_Some by lia. by eexists.
Qed.

Lemma chain_ext h h' i x l : (∀ y, y ∈ x :: l → Next h' (eid y) i = Next h (eid y) i) →
  chain h i x l → chain h' i x l.
Proof.
  revert x. induction l as [|y l IH]; intros x Hext; simpl; intros [Hn Hc].
  - split; [|done]. by rewrite Hext by (by left).
  - split; [by rewrite Hext by (by left)|]. apply IH; [|done]. intros z Hz. apply Hext. by right.
Qed.

Lemma last_or_cons x y l : last_or x (y :: l) = last_or y l.
Proof.
  destruct l as [|z l _] using rev_ind; [done|]. rewrite last_or_snoc. rewrite app_comm_cons.
  by rewrite last_or_snoc.
Qed.

Lemma chain_cut h i x l1 l2 : chain h i x (l1 ++ l2) → chain h i (last_or x l1) l2.
Proof.
  revert x. induction l1 as [|y l1 IH]; intros x; [done|]. rewrite last_or_cons. simpl. intros [_ Hc]. by apply IH.
Qed.

(** The chain with [x] behind the last entry of [l1]. *)
Lemma chain_link h h' i a l1 x l2 : chain h i a (l1 ++ l2) → NoDup (eid <$> a :: l1) →
  (∀ y, y ∈ a :: l1 → eid y ≠ eid (last_or a l1) → Next h' (eid y) i = Next h (eid y) i) →
  Next h' (eid (last_or a l1)) i = Some (Some (eid x)) → chain h' i x l2 → chain h' i a (l1 ++ x :: l2).
Proof.
  revert a. induction l1 as [|b l1 IH]; intros a Hc Hnd Hext Hp Hx; [done|].
  rewrite last_or_cons in *. destruct Hc as [Hn Hc]. rewrite fmap_cons in Hnd. apply NoDup_cons in Hnd as [Ha Hnd]. split.
  - rewrite Hext; [done|by left|]. intros E. apply Ha. apply list_elem_of_fmap. exists (last_or b l1).
    split; [done|]. pose proof (last_or_elem b l1 []) as Hin. by rewrite app_nil_r in Hin.
  - apply IH; try done. intros y Hy. apply Hext. by right.
Qed.

Section link.
Context (h0 : list Node) (hd x : ent) (A B : list ent) (top : Z) (prev : list nat).
Context (Hw : wf_levels h0 hd top (A ++ B)) (Hx : eid x = length h0) (Hxt : 1 ≤ eht x ≤ top).
Context (Hprev : ∀ j, 0 ≤ j < eht x → aget prev j = Some (eid (last_or hd (level j A)))).

(** The heap after [i] iterations of the loop. *)
Record linked (i : Z) (h : list Node) : Prop := {
  lk_length : length h = S (length h0);
  lk_holds : ∀ e, e ∈ hd :: x :: A ++ B → holds h e;
  lk_below : ∀ j, 0 ≤ j < i → chain h j hd (level j (A ++ x :: B));
  lk_above : ∀ j, i ≤ j < top → chain h j hd (level j (A ++ B))
}.

Lemma old_id e : e ∈ hd :: A ++ B → (eid e < length h0)%nat.
Proof. intros He. destruct (wl_holds _ _ _ _ Hw e He) as (nd & E & _). by eapply lookup_lt_Some. Qed.

Lemma NewNode_linked : linked 0 (NewNode h0 (ekey x) (eht x)).1.
Proof.
  unfold NewNode. split; simpl.
  - rewrite length_app. simpl. lia.
  - intros e [->|[->|He]%elem_of_cons]%elem_of_cons.
    + destruct (wl_holds _ _ _ _ Hw hd ltac:(by left)) as (nd & E & Hk). exists nd.
      split; [by apply lookup_app_l_Some|done].
    + eexists. rewrite Hx, list_lookup_middle by done. split; [done|]. split; [done|]. simpl.
      rewrite length_replicate. lia.
    + destruct (wl_holds _ _ _ _ Hw e ltac:(by right)) as (nd & E & Hk). exists nd.
      split; [by apply lookup_app_l_Some|done].
  - lia.
  - intros j Hj. eapply chain_ext; [|by apply (wl_chain _ _ _ _ Hw)]. intros y Hy. unfold Next.
    rewrite lookup_app_l; [done|]. apply old_id. apply elem_of_cons in Hy as [->|[_ Hy]%elem_of_level]; [by left|by right].
Qed.

Lemma level_nodup i : NoDup (eid <$> hd :: level i (A ++ B)).
Proof.
  pose proof (wl_nodup _ _ _ _ Hw) as Hnd. rewrite fmap_cons in *. apply NoDup_cons in Hnd as [H1 H2].
  apply NoDup_cons. split.
  - intros (e & Ee & He%elem_of_level)%list_elem_of_fmap. apply H1. apply list_elem_of_fmap. exists e. naive_solver.
  - by apply nodup_level.
Qed.

Lemma link_step i h : 0 ≤ i < eht x → linked i h → ∃ h', link prev (eid x) i h = Some h' ∧ linked (i + 1) h'.
Proof.
  intros Hi [Hlen Hh Hb Ha]. set (p := last_or hd (level i A)).
  pose proof (Ha i ltac:(lia)) as Hc. rewrite level_app in Hc.
  pose proof (chain_next _ _ _ _ (chain_cut _ _ _ _ _ Hc)) as En. fold p in En.
  assert (p ∈ hd :: level i A) as Hpl by (pose proof (last_or_elem hd (level i A) []) as Hin; by rewrite app_nil_r in Hin).
  assert (p ∈ hd :: A ++ B) as Hpe.
  { apply elem_of_cons in Hpl as [->|[_ Hp]%elem_of_level]; [by left|right; apply elem_of_app; by left]. }
  assert (i < eht p) as Hpt.
  { apply elem_of_cons in Hpl as [->|[Hp _]%elem_of_level]; [|done]. pose proof (wl_head _ _ _ _ Hw). lia. }
  assert (eid x ≠ eid p) as Hxp by (pose proof (old_id p Hpe); lia).
  destruct (SetNext_ok h x i (first (level i B))) as [h1 E1]; [apply Hh; right; by left|done|].
  destruct (SetNext_ok h1 p i (Some (eid x))) as [h2 E2];
    [eapply SetNext_holds; [exact E1|]; apply Hh; apply elem_of_cons in Hpe as [->|]; [by left|by do 2 right]|lia|].
  unfold link. rewrite Hprev by done. fold p. bind_simpl. rewrite En. bind_simpl. rewrite E1. bind_simpl.
  exists h2. split; [done|].
  assert (HN : ∀ y j, Next h2 y j = if decide (y = eid p ∧ j = i) then Some (Some (eid x))
    else if decide (y = eid x ∧ j = i) then Some (first (level i B)) else Next h y j).
  { intros y j. rewrite (SetNext_Next _ _ _ _ _ y j E2). case_decide; [done|]. by apply SetNext_Next. }
  assert (Hext : ∀ j, j ≠ i → ∀ a l, chain h j a l → chain h2 j a l).
  { intros j Hj a l. apply chain_ext. intros y _. rewrite HN, !decide_False by tauto. done. }
  split.
  - by rewrite (SetNext_length _ _ _ _ _ E2), (SetNext_length _ _ _ _ _ E1).
  - intros e He. eapply SetNext_holds; [exact E2|]. eapply SetNext_holds; [exact E1|]. by apply Hh.
  - intros j Hj. destruct (decide (j = i)) as [->|Hne]; [|apply Hext; [done|apply Hb; lia]].
    rewrite level_app, level_cons by lia. pose proof (level_nodup i) as Hnd.
    rewrite level_app, app_comm_cons, fmap_app in Hnd. apply NoDup_app in Hnd as (Hn1 & Hn2 & Hn3).
    apply (chain_link h h2 i hd (level i A) x (level i B) Hc); [done| | |].
    + intros y Hy Hne. rewrite HN, !decide_False; [done| |tauto].
      assert (eid y < length h0)%nat; [|lia]. apply old_id.
      apply elem_of_cons in Hy as [->|[_ Hy]%elem_of_level]; [by left|right; apply elem_of_app; by left].
    + by rewrite HN, decide_True.
    + apply chain_cut in Hc. fold p in Hc. destruct (level i B) as [|y r] eqn:El;
        (split; [by rewrite HN, decide_False, decide_True by tauto|]); [done|].
      destruct Hc as [_ Hc]. eapply chain_ext; [|exact Hc]. intros z Hz. rewrite <-El in Hz, Hn2.
      assert (eid z < length h0)%nat by (apply old_id; right; apply elem_of_app; right; by eapply elem_of_level).
      rewrite HN, !decide_False; [done|lia|]. intros [E _]. apply (Hn2 (eid p)).
      * by apply list_elem_of_fmap_2.
      * rewrite <-E. by apply list_elem_of_fmap_2.
  - intros j Hj. apply Hext; [lia|]. apply Ha. lia.
Qed.

Lemma link_loop i n h : 0 ≤ i → i + Z.of_nat n = eht x → linked i h →
  ∃ h', for_up n i (link prev (eid x)) h = Some h' ∧ linked (eht x) h'.
Proof.
  revert i h. induction n as [|n IH]; intros i h Hi Hn Hl; simpl.
  - exists h. split; [done|]. by replace (eht x) with i by lia.
  - destruct (link_step i h) as (h' & -> & Hl'); [lia|done|]. simpl. apply IH; [lia|lia|done].
Qed.

Lemma linked_levels h : linked (eht x) h → StronglySorted lt_key (A ++ x :: B) →
  wf_levels h hd top (A ++ x :: B).
Proof.
  intros [Hlen Hh Hb Ha] Hs. split.
  - by destruct (wl_head _ _ _ _ Hw).
  - intros e [->|[He|[->|He]%elem_of_cons]%elem_of_app]%elem_of_cons; apply Hh; [by left| |right; by left|];
      do 2 right; apply elem_of_app; tauto.
  - pose proof (wl_nodup _ _ _ _ Hw) as Hnd. assert (x :: hd :: A ++ B ≡ₚ hd :: A ++ x :: B) as <-.
    { rewrite perm_swap. by rewrite Permutation_middle. }
    rewrite fmap_cons. apply NoDup_cons. split; [|done].
    intros (e & Ee & He)%list_elem_of_fmap. pose proof (old_id e He). lia.
  - done.
  - intros e [He|[->|He]%elem_of_cons]%elem_of_app; [|lia|]; eapply (wl_height _ _ _ _ Hw); apply elem_of_app; tauto.
  - intros i Hi. destruct (decide (i < eht x)); [apply Hb; lia|].
    rewrite level_app, level_skip, <-level_app by done. apply Ha. lia.
Qed.
End link.

(** Filling a part of an array. *)
Lemma for_up_fill {T} (v : T) n i a : 0 ≤ i → i + Z.of_nat n ≤ Z.of_nat (length a) →
  ∃ a', for_up n i (λ i a, aset a i v) a = Some a' ∧ length a' = length a ∧
    ∀ j, aget a' j = if decide (i ≤ j < i + Z.of_nat n) then Some v else aget a j.
Proof.
  revert i a. induction n as [|n IH]; intros i a Hi Hn; simpl.
  { exists a. split_and!; try done. intros j. rewrite decide_False by lia. done. }
  destruct (aset a i v) as [a1|] eqn:E; [|by rewrite aset_Some in E by lia]. simpl.
  pose proof (aset_length _ _ _ _ E) as Hl. destruct (IH (i + 1) a1) as (a' & -> & Hl' & Ha'); [lia|lia|].
  exists a'. split_and!; [done|congruence|]. intros j. rewrite Ha', (aget_aset _ _ _ _ j E).
  repeat case_decide; try done; lia.
Qed.

Lemma fill_from_first n i a (v : nat) : 1 ≤ i → aget a 0 = Some v →
  for_up n i (λ i prev, p0 ← aget prev 0; aset prev i p0) a = for_up n i (λ i a, aset a i v) a.
Proof.
  revert i a. induction n as [|n IH]; intros i a Hi Ha; simpl; [done|]. rewrite Ha. simpl.
  destruct (aset a i v) as [a'|] eqn:E; simpl; [|done]. apply IH; [lia|].
  rewrite (aget_aset _ _ _ _ 0 E), decide_False by lia. done.
Qed.

(** ** The invariant *)

(** [prev_] holds the predecessors of the entry inserted last, from its height on. *)
Definition prev_inv (s : SkipList) (hd : ent) (L : list ent) : Prop :=
  (L = [] ∧ aget (prev_ s) 0 = Some head_ ∧ prev_height_ s = 1 ∧ max_height_ s = 1) ∨
  ∃ A x B, L = A ++ x :: B ∧ aget (prev_ s) 0 = Some (eid x) ∧ prev_height_ s = eht x ∧
    ∀ i, eht x ≤ i < max_height_ s → aget (prev_ s) i = Some (eid (last_or hd (level i A))).

Record inv (s : SkipList) (hd : ent) (L : list ent) : Prop := {
  iv_levels : wf_levels (nodes s) hd (kMaxHeight_ s) L;
  iv_size : length (nodes s) = S (length L);
  iv_max : 1 ≤ max_height_ s ≤ kMaxHeight_ s;
  iv_heights : ∀ e, e ∈ L → eht e ≤ max_height_ s;
  iv_prev_len : Z.of_nat (length (prev_ s)) = kMaxHeight_ s;
  iv_prev : prev_inv s hd L
}.

Lemma wf_levels_mono h hd top top' L : top' ≤ top → wf_levels h hd top L → wf_levels h hd top' L.
Proof. intros Ht [[H1 H2] H3 H4 H5 H6 H7]. split; try done; [split; [done|lia]|]. intros i Hi. apply H7. lia. Qed.

(** The entries before a key, and the others. *)
Definition cut_by (k : K) (L A B : list ent) : Prop := L = A ++ B ∧
  (∀ e, e ∈ A → compare_ (ekey e) k < 0) ∧ (∀ e, e ∈ B → 0 ≤ compare_ (ekey e) k).

Section laws.
Context (Hlaws : ComparatorLaws K).

Lemma compare_lt_le a b c : compare_ a b < 0 → compare_ b c ≤ 0 → compare_ a c < 0.
Proof.
  intros Hab Hbc. apply Z.nle_gt. intros Hac. apply compare_flip in Hab.
  assert (compare_ c a ≤ 0) as Hca by (apply Z.nlt_ge; intros Hgt%compare_flip; lia).
  pose proof (compare_trans _ _ _ Hbc Hca). lia.
Qed.

Lemma compare_swap a b : 0 ≤ compare_ a b → compare_ b a ≤ 0.
Proof. intros Hab. apply Z.nlt_ge. intros Hgt%compare_flip. lia. Qed.

Lemma cut_ex k L : StronglySorted lt_key L → ∃ A B, cut_by k L A B.
Proof.
  induction 1 as [|e L Hs (A & B & -> & HA & HB) Hall].
  { exists [], []. split_and!; [done|by intros ? ?%not_elem_of_nil..]. }
  destruct (Z.lt_ge_cases (compare_ (ekey e) k) 0) as [Hlt|Hge].
  - exists (e :: A), B. split_and!; [done| |done]. intros e' [->|He]%elem_of_cons; auto.
  - exists [], (e :: A ++ B). split_and!; [done|by intros ? ?%not_elem_of_nil|].
    intros e' [->|He]%elem_of_cons; [done|]. rewrite Forall_forall in Hall. specialize (Hall e' He).
    apply Z.nlt_ge. intros Hlt'. pose proof (compare_lt_le _ _ _ Hall (Z.lt_le_incl _ _ Hlt')). lia.
Qed.

Lemma cut_unique k L A B A' B' : cut_by k L A B → cut_by k L A' B' → A = A' ∧ B = B'.
Proof.
  revert L A'. induction A as [|a A IH]; intros L A' (-> & HA & HB) (E & HA' & HB').
  - destruct A' as [|a' A']; [done|]. simpl in E. subst B.
    specialize (HB a' ltac:(by left)). specialize (HA' a' ltac:(by left)). lia.
  - destruct A' as [|a' A']; simpl in E.
    + subst B'. specialize (HA a ltac:(by left)). specialize (HB' a ltac:(by left)). lia.
    + injection E as <- E. destruct (IH (A ++ B) A') as [<- <-]; [| |done].
      * split_and!; [done| |done]. intros e He. apply HA. by right.
      * split_and!; [done| |done]. intros e He. apply HA'. by right.
Qed.

Lemma cut_at_ent k A x B : StronglySorted lt_key (A ++ x :: B) → compare_ (ekey x) k < 0 →
  (∀ e, head B = Some e → 0 ≤ compare_ (ekey e) k) → cut_by k (A ++ x :: B) (A ++ [x]) B.
Proof.
  intros Hs Hx Hb. split_and!; [by rewrite <-(assoc_L (++))| |].
  - intros e [He|He%list_elem_of_singleton]%elem_of_app; [|by rewrite He].
    apply list_elem_of_split in He as (A1 & A2 & ->). rewrite <-(assoc_L (++)) in Hs. cbn [app] in Hs.
    eapply compare_lt_le; [|apply Z.lt_le_incl, Hx].
    eapply (sorted_before A1 e (A2 ++ x :: B)); [done|]. apply elem_of_app. right. by left.
  - intros e He. destruct B as [|b B]; [by apply not_elem_of_nil in He|]. specialize (Hb b eq_refl).
    apply elem_of_cons in He as [->|He]; [done|]. apply Z.nlt_ge. intros Hlt.
    assert (lt_key b e) as Hbe by (eapply (sorted_before (A ++ [x]) b B); [by rewrite <-(assoc_L (++))|done]).
    pose proof (compare_lt_le _ _ _ Hbe (Z.lt_le_incl _ _ Hlt)). lia.
Qed.

(** ** The operations *)

Section operations.
Context (s : SkipList) (hd : ent) (L : list ent) (Hinv : inv s hd L).

Lemma levels_max : wf_levels (nodes s) hd (max_height_ s) L.
Proof. destruct Hinv as [Hw _ Hm _ _ _]. eapply wf_levels_mono; [|exact Hw]. lia. Qed.

(** A search starts at the head, on the highest level, with enough fuel. *)
Lemma start_facts A B : L = A ++ B → 0 ≤ max_height_ s - 1 < max_height_ s ∧
  max_height_ s - 1 < eht (last_or hd []) ∧ (length A + Z.to_nat (max_height_ s - 1) < steps s)%nat ∧
  eid hd = head_.
Proof.
  intros E. destruct Hinv as [Hw Hsz Hm _ _ _]. destruct (wl_head _ _ _ _ Hw) as [H1 H2].
  unfold steps. rewrite Hsz, E, length_app. change (last_or hd []) with hd. split_and!; try done; lia.
Qed.

Context (k : K) (A B : list ent) (Hcut : cut_by k L A B).

Lemma FindGreaterOrEqual_spec : FindGreaterOrEqual s k = Some (first B).
Proof.
  destruct Hcut as (E & HA & HB). pose proof levels_max as Hw. rewrite E in Hw.
  destruct (start_facts A B E) as (H1 & H2 & H3 & H4). unfold FindGreaterOrEqual. rewrite <-H4.
  apply (FindGreaterOrEqual_loop _ _ hd _ A B k Hw HA HB (steps s) [] A); try done. by left.
Qed.

Lemma FindLessThan_spec prev : match prev with None => True | Some a => max_height_ s ≤ Z.of_nat (length a) end →
  ∃ prev', FindLessThan s k prev = Some (eid (last_or hd A), prev') ∧ prev_rel hd (max_height_ s) A prev prev'.
Proof.
  intros Hp. destruct Hcut as (E & HA & HB). pose proof levels_max as Hw. rewrite E in Hw.
  destruct (start_facts A B E) as (H1 & H2 & H3 & H4). unfold FindLessThan. rewrite <-H4.
  apply (FindLessThan_loop _ hd _ A B k Hw HA HB (steps s) [] A); try done; [by left|].
  destruct prev as [a|]; [|done]. split; [done|]. intros j Hj. lia.
Qed.

Lemma FindLast_spec : FindLast s = Some (eid (last_or hd L)).
Proof.
  destruct (start_facts L []) as (H1 & H2 & H3 & H4); [by rewrite app_nil_r|]. unfold FindLast. rewrite <-H4.
  apply (FindLast_loop _ hd (max_height_ s) L (steps s) [] L); try done. apply levels_max.
Qed.

Lemma EstimateCount_total : is_Some (EstimateCount s k).
Proof.
  destruct Hcut as (E & HA & HB). pose proof levels_max as Hw. rewrite E in Hw.
  destruct (start_facts A B E) as (H1 & H2 & H3 & H4). unfold EstimateCount. rewrite <-H4.
  by apply (EstimateCount_loop _ hd _ A B k Hw HA HB (steps s) _ [] A).
Qed.

Lemma node_ent e : e ∈ L → ∃ nd, nodes s !! eid e = Some nd ∧ key nd = ekey e.
Proof. intros He. eapply ent_key; [apply levels_max|by right]. Qed.

Lemma first_elem l y : first l = Some y → ∃ e r, l = e :: r ∧ eid e = y.
Proof. destruct l as [|e r]; [done|]. intros [= <-]. by exists e, r. Qed.

Lemma Contains_spec : Contains s k = Some (existsb (λ e, Equal k (ekey e)) L).
Proof.
  unfold Contains. rewrite FindGreaterOrEqual_spec. bind_simpl. pose proof levels_max as Hw.
  destruct Hcut as (E & HA & HB).
  assert (existsb (λ e, Equal k (ekey e)) L = existsb (λ e, Equal k (ekey e)) B) as ->.
  { rewrite E, existsb_app. replace (existsb _ A) with false; [done|]. symmetry. apply not_true_is_false.
    intros (e & He & Heq)%existsb_exists. apply list_elem_of_In in He. specialize (HA e He).
    apply Z.eqb_eq in Heq. apply compare_flip in HA. lia. }
  destruct B as [|b B']; [done|]. change (first (b :: B')) with (Some (eid b)). cbv iota.
  destruct (node_ent b) as (nd & -> & Hk); [rewrite E; apply elem_of_app; right; by left|]. bind_simpl. rewrite Hk.
  f_equal. simpl. destruct (Equal k (ekey b)) eqn:Eb; [done|]. simpl. symmetry. apply not_true_is_false.
  intros (e & He & Heq)%existsb_exists. apply list_elem_of_In in He. apply Z.eqb_eq in Heq. apply Z.eqb_neq in Eb.
  pose proof (wl_sorted _ _ _ _ Hw) as Hs. rewrite E in Hs. pose proof (sorted_before _ _ _ _ Hs He) as Hlt.
  pose proof (compare_swap _ _ (HB b ltac:(by left))) as Hkb.
  assert (compare_ k (ekey b) < 0) as Hkb' by lia.
  pose proof (compare_lt_le _ _ _ Hkb' (Z.lt_le_incl _ _ Hlt)). lia.
Qed.

(** [find_prev] without its last assertion. *)
Definition preds (prev : list nat) : Prop := length prev = length (prev_ s) ∧
  ∀ j, 0 ≤ j < max_height_ s → aget prev j = Some (eid (last_or hd (level j A))).

Lemma next_0 A1 A2 : L = A1 ++ A2 → Next (nodes s) (eid (last_or hd A1)) 0 = Some (first A2).
Proof.
  intros E. pose proof levels_max as Hw. rewrite E in Hw. destruct Hinv as [_ _ Hm _ _ _].
  assert (0 < eht (last_or hd A1)) as He.
  { pose proof (last_or_elem hd A1 A2) as [->|Hin]%elem_of_cons.
    - pose proof (wl_head _ _ _ _ Hw). lia.
    - pose proof (wl_height _ _ _ _ Hw _ Hin). lia. }
  rewrite (chain_next _ _ _ _ (chain_at _ _ _ _ _ 0 Hw ltac:(lia) He)). rewrite level_0; [done|].
  intros e Hin. eapply (wl_height _ _ _ _ Hw). apply elem_of_app. by right.
Qed.

Lemma FindLessThan_preds : ∃ prev, (res ← FindLessThan s k (Some (prev_ s)); res.2) = Some prev ∧ preds prev.
Proof.
  destruct (FindLessThan_spec (Some (prev_ s))) as (prev' & -> & Hr).
  { destruct Hinv as [_ _ Hm _ Hl _]. lia. }
  bind_simpl. simpl. destruct prev' as [a|]; [|done]. destruct Hr as [Hl [_ Ha]]. exists a. split; [done|].
  split; [done|]. done.
Qed.

(** The fast path: the key belongs behind the entry [x] that was inserted last. *)
Lemma fast_preds A0 x B0 : L = A0 ++ x :: B0 → aget (prev_ s) 0 = Some (eid x) → prev_height_ s = eht x →
  (∀ i, eht x ≤ i < max_height_ s → aget (prev_ s) i = Some (eid (last_or hd (level i A0)))) →
  A = A0 ++ [x] →
  ∃ prev, for_up (Z.to_nat (prev_height_ s - 1)) 1 (λ i prev, p0 ← aget prev 0; aset prev i p0) (prev_ s) =
    Some prev ∧ preds prev.
Proof.
  intros E Hp0 Hph Hp EA. destruct Hinv as [Hw _ Hm Hh Hl _].
  assert (x ∈ L) as Hx by (rewrite E; apply elem_of_app; right; by left).
  pose proof (wl_height _ _ _ _ Hw x Hx). specialize (Hh x Hx). rewrite (fill_from_first _ _ _ (eid x)) by (done || lia).
  destruct (for_up_fill (eid x) (Z.to_nat (prev_height_ s - 1)) 1 (prev_ s)) as (a & -> & Hla & Ha); [lia|lia|].
  exists a. split; [done|]. split; [done|]. intros j Hj. rewrite Ha, EA, level_app.
  destruct (decide (j < eht x)) as [Hlt|Hge].
  - rewrite level_cons by done. rewrite last_or_snoc. case_decide; [done|]. by replace j with 0 by lia.
  - rewrite level_skip by done. change (level j []) with (@nil ent). rewrite app_nil_r, decide_False by lia.
    apply Hp. lia.
Qed.

(** The assertion that the key is new. *)
Definition check_new (prev : list nat) : option (list nat) :=
  p0 ← aget prev 0; n0 ← Next (nodes s) p0 0;
  match n0 with
  | None => Some prev
  | Some n => nd ← nodes s !! n; if Equal k (key nd) then None else Some prev
  end.

Context (Hnew : ∀ e, e ∈ L → compare_ k (ekey e) ≠ 0).

Lemma check_new_ok prev : preds prev → check_new prev = Some prev.
Proof.
  intros [_ Hp]. unfold check_new. destruct Hinv as [_ _ Hm _ _ _]. rewrite Hp by lia. bind_simpl.
  destruct Hcut as (E & _ & _). pose proof levels_max as Hw.
  rewrite level_0 by (intros e He; apply (wl_height _ _ _ _ Hw); rewrite E; apply elem_of_app; by left).
  rewrite (next_0 A B E). bind_simpl. destruct B as [|b B']; [done|].
  change (first (b :: B')) with (Some (eid b)). cbv iota.
  assert (b ∈ L) as Hb by (rewrite E; apply elem_of_app; right; by left).
  destruct (node_ent b Hb) as (nd & -> & Hk). bind_simpl. rewrite Hk. unfold Equal.
  by rewrite (proj2 (Z.eqb_neq _ _) (Hnew b Hb)).
Qed.

Lemma find_prev_ok : ∃ prev, find_prev s k = Some prev ∧ preds prev.
Proof.
  unfold find_prev. pose proof check_new_ok as Htail. fold check_new.
  assert (Hslow : ∃ prev, (prev ← (res ← FindLessThan s k (Some (prev_ s)); res.2); check_new prev) = Some prev ∧ preds prev).
  { destruct FindLessThan_preds as (prev & -> & Hp). bind_simpl. exists prev. split; [by apply Htail|done]. }
  destruct (iv_prev _ _ _ Hinv) as [(E & Hp0 & Hph & Hmh)|(A0 & x & B0 & E & Hp0 & Hph & Hp)].
  - rewrite Hp0. bind_simpl. pose proof levels_max as Hw. destruct (wl_head _ _ _ _ Hw) as [Hhd _].
    pose proof (next_0 [] L eq_refl) as En. change (last_or hd []) with hd in En. rewrite Hhd, E in En.
    rewrite En. bind_simpl. change (KeyIsAfterNode (nodes s) k (first [])) with (Some false). bind_simpl.
    rewrite (bool_decide_eq_true_2 (head_ = head_)) by done. bind_simpl. rewrite Hph, Hmh. cbn [Z.eqb Pos.eqb andb].
    rewrite orb_true_r. cbn [negb]. simpl (for_up _ _ _ _). bind_simpl.
    assert (preds (prev_ s)) as Hp; [|exists (prev_ s); split; [by apply Htail|done]].
    split; [done|]. intros j Hj. rewrite Hmh in Hj. replace j with 0 by lia. rewrite Hp0.
    destruct Hcut as (Ec & _ & _). rewrite E in Ec. symmetry in Ec. apply app_nil in Ec as [-> _].
    change (last_or hd (level 0 [])) with hd. by rewrite Hhd.
  - rewrite Hp0. bind_simpl. pose proof levels_max as Hw.
    pose proof (next_0 (A0 ++ [x]) B0) as En. rewrite last_or_snoc in En. rewrite En by (by rewrite E, <-(assoc_L (++))).
    bind_simpl.
    assert (x ∈ L) as Hx by (rewrite E; apply elem_of_app; right; by left).
    assert (eid x ≠ head_) as Hne.
    { destruct (wl_head _ _ _ _ Hw) as [<- _]. intros Ex.
      pose proof (wl_nodup _ _ _ _ Hw) as Hnd. rewrite fmap_cons in Hnd. apply NoDup_cons in Hnd as [Hnd _].
      apply Hnd. rewrite <-Ex. by apply list_elem_of_fmap_2. }
    rewrite (bool_decide_eq_false_2 (eid x = head_)), (bool_decide_eq_true_2 (eid x ≠ head_)) by done.
    cbn [orb negb]. rewrite (after_ent _ _ _ _ x k Hw) by (by right).
    assert (∃ b : bool, KeyIsAfterNode (nodes s) k (first B0) = Some b ∧
      (b = false → ∀ e, head B0 = Some e → 0 ≤ compare_ (ekey e) k)) as (b & -> & Hb).
    { destruct B0 as [|b0 B0]; [by exists false|]. change (first (b0 :: B0)) with (Some (eid b0)).
      rewrite (after_ent _ _ _ _ b0 k Hw) by (right; rewrite E; apply elem_of_app; right; right; by left).
      eexists. split; [done|]. intros Hge%Z.ltb_ge e [= <-]. done. }
    bind_simpl. destruct b; bind_simpl; [done|].
    destruct (Z.ltb_spec (compare_ (ekey x) k) 0) as [Hlt|_]; bind_simpl; [|done].
    destruct (fast_preds A0 x B0 E Hp0 Hph Hp) as (prev & -> & Hpr).
    { eapply (cut_unique k L A B); [exact Hcut|]. rewrite E. apply cut_at_ent; [|done|by apply Hb].
      pose proof (wl_sorted _ _ _ _ Hw) as Hs. by rewrite E in Hs. }
    bind_simpl. exists prev. split; [by apply Htail|done].
Qed.

Lemma RandomHeight_range r height : RandomHeight s r = Some height → 1 ≤ height < kMaxHeight_ s.
Proof.
  unfold RandomHeight. destruct (_ && _) eqn:E; [|done]. intros [= <-].
  apply andb_true_iff in E as [E1%Z.ltb_lt E2%Z.ltb_lt]. lia.
Qed.

(** The levels that are new with this node have the head as predecessor. *)
Lemma raise_ok prev height : preds prev → 1 ≤ height < kMaxHeight_ s →
  let mh := Z.max height (max_height_ s) in
  ∃ prev', (if max_height_ s <? height then
      prev ← for_up (Z.to_nat (height - max_height_ s)) (max_height_ s) (λ i prev, aset prev i head_) prev;
      Some (prev, height)
    else Some (prev, max_height_ s)) = Some (prev', mh) ∧ length prev' = length (prev_ s) ∧
    ∀ j, 0 ≤ j < mh → aget prev' j = Some (eid (last_or hd (level j A))).
Proof.
  intros [Hl Hp] Hh mh. unfold mh. destruct Hinv as [Hw _ Hm Hhs Hpl _].
  destruct (Z.ltb_spec (max_height_ s) height).
  - destruct (for_up_fill head_ (Z.to_nat (height - max_height_ s)) (max_height_ s) prev) as (a & -> & Hla & Ha);
      [lia|lia|].
    bind_simpl. exists a. rewrite Z.max_l by lia. split_and!; [done|congruence|].
    intros j Hj. rewrite Ha. case_decide; [|apply Hp; lia].
    destruct (wl_head _ _ _ _ Hw) as [<- _]. do 2 f_equal. symmetry.
    rewrite level_nil; [done|]. intros e He. destruct Hcut as (E & _ & _). specialize (Hhs e ltac:(rewrite E; apply elem_of_app; by left)). lia.
  - exists prev. rewrite Z.max_r by lia. done.
Qed.

Lemma inserted_sorted x : ekey x = k → StronglySorted lt_key (A ++ x :: B).
Proof.
  intros Hk. destruct Hcut as (E & HA & HB). pose proof levels_max as Hw. pose proof (wl_sorted _ _ _ _ Hw) as Hs.
  rewrite E in Hs. apply StronglySorted_app in Hs as (H1 & H2 & H3). apply StronglySorted_app_2.
  - intros a b Ha [->|Hb]%elem_of_cons; [|by apply H1]. unfold lt_key. rewrite Hk. by apply HA.
  - done.
  - constructor; [done|]. apply Forall_forall. intros b Hb. unfold lt_key. rewrite Hk.
    pose proof (compare_swap _ _ (HB b Hb)). enough (compare_ k (ekey b) ≠ 0) by lia.
    apply Hnew. rewrite E. apply elem_of_app. by right.
Qed.

Lemma skip_Insert_spec r height : RandomHeight s r = Some height →
  ∃ s' x, Insert s r k = Some s' ∧ ekey x = k ∧ inv s' hd (A ++ x :: B) ∧
    kMaxHeight_ s' = kMaxHeight_ s ∧ kScaledInverseBranching_ s' = kScaledInverseBranching_ s.
Proof.
  intros Er. pose proof (RandomHeight_range _ _ Er) as Hr. unfold Insert.
  destruct find_prev_ok as (prev & -> & Hp). bind_simpl. rewrite Er. bind_simpl.
  destruct (raise_ok prev height Hp Hr) as (prev' & -> & Hpl & Hp'). bind_simpl.
  destruct Hcut as (E & _). set (x := Ent (length (nodes s)) k height).
  pose proof (iv_levels _ _ _ Hinv) as Hw. rewrite E in Hw.
  pose proof (NewNode_linked (nodes s) hd x A B (kMaxHeight_ s) Hw eq_refl) as Hl0. cbn [eht ekey x] in Hl0.
  specialize (Hl0 ltac:(lia)). unfold NewNode in *. cbn [fst] in Hl0.
  destruct (link_loop (nodes s) hd x A B (kMaxHeight_ s) prev' Hw eq_refl) with
    (i := 0) (n := Z.to_nat height) (h := nodes s ++ [mkNode k (replicate (Z.to_nat height) None)]) as (h' & Eh & Hl');
    [cbn [eht x]; lia|cbn [eht x]; intros j Hj; apply Hp'; lia|lia|cbn [eht x]; lia|done|].
  cbn [eid x] in Eh. rewrite Eh. bind_simpl.
  pose proof (iv_max _ _ _ Hinv) as Hm. pose proof (iv_prev_len _ _ _ Hinv) as Hpl0.
  destruct (aset prev' 0 (length (nodes s))) as [a|] eqn:Ea; [|by rewrite aset_Some in Ea by lia].
  bind_simpl. eexists _, x. split; [done|]. split; [done|]. split; [|done].
  pose proof (aset_length _ _ _ _ Ea) as Hla. split; cbn [nodes kMaxHeight_ max_height_ prev_].
  - eapply linked_levels; try done; [cbn [eht x]; lia|by apply inserted_sorted].
  - rewrite (lk_length _ _ _ _ _ _ _ _ Hl'), (iv_size _ _ _ Hinv), E, !length_app. simpl. lia.
  - lia.
  - intros e [He|[->|He]%elem_of_cons]%elem_of_app; [|cbn [eht x]; lia|];
      (pose proof (iv_heights _ _ _ Hinv e) as Hhe; rewrite E in Hhe; specialize (Hhe ltac:(apply elem_of_app; tauto)); lia).
  - lia.
  - right. exists A, x, B. cbn [prev_ max_height_]. split_and!; [done| |done|].
    + rewrite (aget_aset _ _ _ _ 0 Ea), decide_True by done. done.
    + intros i Hi. cbn [eht x] in Hi. rewrite (aget_aset _ _ _ _ i Ea), decide_False by lia. apply Hp'. lia.
Qed.
End operations.

(** ** Iterators *)

Section iterator.
Context (s : SkipList) (hd : ent) (L : list ent) (Hinv : inv s hd L).

Lemma iter_key_ent e : e ∈ L → iter_key s (Some (eid e)) = Some (ekey e).
Proof.
  intros He. destruct (node_ent s hd L Hinv e He) as (nd & E & Hk). unfold iter_key. simpl. rewrite E. simpl.
  by rewrite Hk.
Qed.

Lemma iter_key_first l : (∀ e, e ∈ l → e ∈ L) → iter_key s (first l) = head (ekey <$> l).
Proof. destruct l as [|e l]; intros Hl; [done|]. change (first (e :: l)) with (Some (eid e)).
  rewrite iter_key_ent by (apply Hl; by left). done. Qed.

Lemma not_head_last A B : L = A ++ B → not_head (eid (last_or hd A)) = eid <$> last A.
Proof.
  intros E. pose proof (levels_max s hd L Hinv) as Hw. destruct (wl_head _ _ _ _ Hw) as [Hhd _]. unfold not_head.
  destruct A as [|x A _] using rev_ind; [change (last_or hd []) with hd; by rewrite bool_decide_eq_true_2|].
  rewrite last_or_snoc, last_snoc. simpl. rewrite bool_decide_eq_false_2; [done|]. rewrite <-Hhd. intros Ex.
  pose proof (wl_nodup _ _ _ _ Hw) as Hnd. rewrite fmap_cons in Hnd. apply NoDup_cons in Hnd as [Hnd _].
  apply Hnd. rewrite <-Ex. apply list_elem_of_fmap_2. rewrite E. apply elem_of_app. left. apply elem_of_app. right. by left.
Qed.

(** [SeekToFirst] and [Next] go through the keys in order. *)
Fixpoint walk (fuel : nat) (node_ : option nat) : option (list K) :=
  match fuel with
  | O => None
  | S fuel =>
      if Valid node_ then
        k ← iter_key s node_; node_ ← iter_Next s node_; ks ← walk fuel node_; Some (k :: ks)
      else Some []
  end.

Lemma walk_from A B fuel : L = A ++ B → (length B < fuel)%nat → walk fuel (first B) = Some (ekey <$> B).
Proof.
  revert A fuel. induction B as [|b B IH]; intros A [|fuel] E Hf; simpl in Hf; [lia|done|lia|].
  change (first (b :: B)) with (Some (eid b)). cbn [walk].
  change (Valid (Some (eid b))) with true. cbv iota.
  rewrite iter_key_ent by (rewrite E; apply elem_of_app; right; by left). bind_simpl.
  cbn [iter_Next]. unfold iter_Next. bind_simpl.
  pose proof (next_0 s hd L Hinv (A ++ [b]) B) as En. rewrite last_or_snoc in En.
  rewrite En by (by rewrite E, <-(assoc_L (++))). bind_simpl.
  rewrite (IH (A ++ [b])) by (rewrite ?E, <-?(assoc_L (++)); done || lia). done.
Qed.

Lemma walk_all : (n ← SeekToFirst s; walk (length (nodes s)) n) = Some (ekey <$> L).
Proof.
  unfold SeekToFirst. pose proof (levels_max s hd L Hinv) as Hw. destruct (wl_head _ _ _ _ Hw) as [<- _].
  pose proof (next_0 s hd L Hinv [] L eq_refl) as En. change (last_or hd []) with hd in En. rewrite En. bind_simpl. apply (walk_from []); [done|].
  rewrite (iv_size _ _ _ Hinv). lia.
Qed.

Context (k : K) (A B : list ent) (Hcut : cut_by k L A B).

Lemma Seek_spec : Seek s k = Some (first B).
Proof. by eapply FindGreaterOrEqual_spec. Qed.

Lemma back_to_before fuel : back_to (S fuel) s k (eid <$> last A) = Some (eid <$> last A).
Proof.
  destruct Hcut as (E & HA & _). cbn [back_to]. destruct (last A) as [a|] eqn:Ea; [|done].
  apply last_Some_elem_of in Ea. change (Valid (eid <$> Some a)) with true. cbv iota.
  change (eid <$> Some a) with (Some (eid a)). rewrite iter_key_ent by (rewrite E; apply elem_of_app; by left).
  bind_simpl. unfold LessThan. specialize (HA a Ea). apply compare_flip in HA.
  by rewrite (proj2 (Z.ltb_ge _ _)) by lia.
Qed.

Lemma SeekForPrev_spec : SeekForPrev s k =
  Some (match B with b :: _ => if Equal k (ekey b) then Some (eid b) else eid <$> last A | [] => eid <$> last A end).
Proof.
  unfold SeekForPrev. rewrite Seek_spec. bind_simpl. pose proof Hcut as (E & HA & HB).
  pose proof back_to_before as Hback.
  destruct B as [|b B'].
  - change (Valid (first [])) with false. cbv iota. unfold SeekToLast.
    rewrite (FindLast_spec s hd L Hinv). bind_simpl. rewrite (not_head_last L []) by (by rewrite app_nil_r).
    rewrite app_nil_r in E. rewrite E. apply Hback.
  - change (first (b :: B')) with (Some (eid b)). change (Valid (Some (eid b))) with true. cbv iota. bind_simpl.
    assert (b ∈ L) as Hb by (rewrite E; apply elem_of_app; right; by left).
    remember (length (nodes s)) as n eqn:En. rewrite (iv_size _ _ _ Hinv) in En. subst n. cbn [back_to].
    change (Valid (Some (eid b))) with true. cbv iota. rewrite iter_key_ent by done. bind_simpl.
    pose proof (compare_swap _ _ (HB b ltac:(by left))) as Hle. unfold LessThan, Equal.
    destruct (Z.ltb_spec (compare_ k (ekey b)) 0) as [Hlt|Hge].
    + rewrite (proj2 (Z.eqb_neq _ _)) by lia. unfold iter_Prev. rewrite iter_key_ent by done. bind_simpl.
      destruct (FindLessThan_spec s hd L Hinv (ekey b) A (b :: B')) with (prev := @None (list nat)) as (prev' & -> & _).
      { split_and!; [done| |].
        - intros e He. eapply compare_lt_le; [by apply HA|lia].
        - intros e [->|He]%elem_of_cons.
          + apply Z.nlt_ge. intros Hbb. pose proof (proj1 (compare_flip _ _) Hbb). lia.
          + pose proof (wl_sorted _ _ _ _ (levels_max s hd L Hinv)) as Hs. rewrite E in Hs.
            pose proof (sorted_before _ _ _ _ Hs He) as Hbe. apply (proj1 (compare_flip _ _)) in Hbe. lia. }
      { done. }
      bind_simpl. cbn [fst]. rewrite (not_head_last A (b :: B') E). apply Hback.
    + by rewrite (proj2 (Z.eqb_eq _ _)) by lia.
Qed.
End iterator.

(** ** From the constructor on *)

Lemma for_up_fix {S} (f : Z → S → option S) n i t :
  (∀ j, i ≤ j < i + Z.of_nat n → f j t = Some t) → for_up n i f t = Some t.
Proof.
  revert i. induction n as [|n IH]; intros i Hf; [done|]. simpl. rewrite Hf by lia. simpl. apply IH.
  intros j Hj. apply Hf. lia.
Qed.

Lemma aset_replicate {T} (v : T) n i : 0 ≤ i < Z.of_nat n → aset (replicate n v) i v = Some (replicate n v).
Proof.
  intros Hi. rewrite aset_Some by (rewrite length_replicate; lia). by rewrite insert_replicate.
Qed.

Lemma SkipList_new_inv zero mh br s : mh < 2 ^ 31 → SkipList_new zero mh br = Some s →
  inv s (Ent head_ zero mh) [].
Proof.
  intros Hmh. unfold SkipList_new.
  destruct (_ =? 0); [done|]. destruct (negb _) eqn:E1; [done|].
  apply negb_false_iff, andb_true_iff in E1 as [E1%Z.ltb_lt E2%Z.eqb_eq].
  destruct (negb _); [done|]. destruct (negb _); [done|]. unfold NewNode. cbn [app length].
  assert (u32 mh = mh) as E3 by (apply Z.mod_small; lia). rewrite E2, E3.
  rewrite (for_up_pair (λ i h, SetNext h 0 i None) (λ i prev, aset prev i 0%nat)).
  rewrite (for_up_fix (λ i h, SetNext h 0 i None))
    by (intros j Hj; unfold SetNext; simpl; by rewrite aset_replicate by lia).
  bind_simpl. rewrite for_up_fix by (intros j Hj; apply aset_replicate; lia). bind_simpl.
  intros [= <-]. split; cbn [nodes kMaxHeight_ max_height_ prev_].
  - split; try done.
    + intros e [->|He%not_elem_of_nil]%elem_of_cons; [|done]. eexists. split; [done|]. simpl. rewrite length_replicate.
      split; [done|lia].
    + apply NoDup_singleton.
    + constructor.
    + by intros e He%not_elem_of_nil.
    + intros i Hi. split; [|done]. unfold Next. simpl. rewrite <-(Z2Nat.id i) by lia. rewrite aget_nat.
      apply lookup_replicate_2. lia.
  - done.
  - lia.
  - by intros e He%not_elem_of_nil.
  - rewrite length_replicate. lia.
  - left. split_and!; try done. cbn [prev_]. rewrite <-(Z2Nat.id 0) by lia. rewrite aget_nat. apply lookup_replicate_2. lia.
Qed.

(** Insertions one after the other, each with the values [rand()] gives it. *)
Fixpoint inserts (s : SkipList) (ops : list (K * (nat → Z))) : option SkipList :=
  match ops with [] => Some s | (k, r) :: ops => s ← Insert s r k; inserts s ops end.

Lemma climb_ext s s' r n height : kMaxHeight_ s' = kMaxHeight_ s →
  kScaledInverseBranching_ s' = kScaledInverseBranching_ s → climb s' r n height = climb s r n height.
Proof. intros H1 H2. revert height. induction n as [|n IH]; intros height; simpl; [done|]. by rewrite H1, H2, IH. Qed.

Lemma RandomHeight_ext s s' r : kMaxHeight_ s' = kMaxHeight_ s →
  kScaledInverseBranching_ s' = kScaledInverseBranching_ s → RandomHeight s' r = RandomHeight s r.
Proof. intros H1 H2. unfold RandomHeight. by rewrite (climb_ext s s'), H1 by done. Qed.

Lemma inserts_inv s hd L ops : inv s hd L → (∀ k r, (k, r) ∈ ops → is_Some (RandomHeight s r)) →
  (∀ k e, k ∈ ops.*1 → e ∈ L → compare_ k (ekey e) ≠ 0) →
  ForallOrdPairs (λ a b, compare_ b a ≠ 0) (ops.*1) →
  ∃ s' L', inserts s ops = Some s' ∧ inv s' hd L' ∧ ekey <$> L' ≡ₚ (ekey <$> L) ++ ops.*1.
Proof.
  revert s L. induction ops as [|[k r] ops IH]; intros s L Hinv Hr Hnew Hord; simpl.
  { exists s, L. split_and!; [done|done|]. by rewrite app_nil_r. }
  destruct (cut_ex k L) as (A & B & Hcut); [by eapply wl_sorted, iv_levels|].
  destruct (Hr k r ltac:(by left)) as [height Eh].
  destruct (skip_Insert_spec s hd L Hinv k A B Hcut) with (r := r) (height := height) as (s1 & x & -> & Hk & Hinv1 & H1 & H2);
    [intros e; apply Hnew; by left|done|].
  bind_simpl. simpl in Hord. inversion Hord as [|? ? Hk' Hord']; subst. destruct Hcut as (-> & _).
  destruct (IH s1 (A ++ x :: B) Hinv1) as (s' & L' & -> & Hinv' & Hp); try done.
  - intros k' r' Hin. rewrite (RandomHeight_ext s s1) by done. apply (Hr k'). by right.
  - intros k' e Hk1 [He|[->|He]%elem_of_cons]%elem_of_app.
    + apply Hnew; [by right|apply elem_of_app; by left].
    + rewrite Forall_forall in Hk'. by apply Hk'.
    + apply Hnew; [by right|apply elem_of_app; by right].
  - exists s', L'. split_and!; try done. rewrite Hp, !fmap_app, fmap_cons, <-!(assoc_L (++)). cbn [app].
    rewrite <-!Permutation_middle. solve_Permutation.
Qed.
End laws.
End skiplist.
Arguments Node : clear implicits.
Arguments SkipList : clear implicits.

Section spec.
Context {K : Type} `{Comparator K} (Hlaws : ComparatorLaws K).

Lemma seek_keys (L A B : list ent) (k : K) : cut_by k L A B →
  head (filter (λ y, 0 ≤ compare_ y k) (ekey <$> L)) = head (ekey <$> B).
Proof.
  intros (-> & HA & HB). rewrite fmap_app, filter_app.
  assert (filter (λ y, 0 ≤ compare_ y k) (ekey <$> A) = []) as ->.
  { clear HB B. induction A as [|a A IH]; [done|]. rewrite fmap_cons, filter_cons_False.
    - apply IH. intros e He. apply HA. by right.
    - specialize (HA a ltac:(by left)). lia. }
  destruct B as [|b B]; [done|]. rewrite fmap_cons. cbn [app]. rewrite filter_cons_True; [done|]. apply HB. by left.
Qed.

Lemma seek_prev_keys (L A B : list ent) (k : K) : cut_by k L A B → StronglySorted lt_key L →
  last (filter (λ y, compare_ y k ≤ 0) (ekey <$> L)) =
  match B with b :: _ => if Equal k (ekey b) then Some (ekey b) else ekey <$> last A | [] => ekey <$> last A end.
Proof.
  intros (-> & HA & HB) Hs. rewrite fmap_app, filter_app.
  assert (filter (λ y, compare_ y k ≤ 0) (ekey <$> A) = ekey <$> A) as ->.
  { clear HB Hs B. induction A as [|a A IH]; [done|]. rewrite fmap_cons, filter_cons_True.
    - rewrite IH; [done|]. intros e He. apply HA. by right.
    - specialize (HA a ltac:(by left)). lia. }
  destruct B as [|b B]; [by rewrite app_nil_r, fmap_last|]. rewrite fmap_cons.
  assert (filter (λ y, compare_ y k ≤ 0) (ekey <$> B) = []) as HB0.
  { assert (∀ e, e ∈ B → 0 < compare_ (ekey e) k) as Hgt.
    { intros e He. pose proof (sorted_before _ _ _ _ Hs He) as Hbe. apply compare_flip.
      pose proof (compare_swap Hlaws _ _ (HB b ltac:(by left))) as Hkb. apply Z.nle_gt. intros Hle.
      assert (compare_ (ekey e) k ≤ 0) as Hek by (apply Z.nlt_ge; intros Hc%compare_flip; lia).
      pose proof (compare_trans _ _ _ Hek Hkb). apply compare_flip in Hbe. lia. }
    clear HB Hs. induction B as [|e B IH]; [done|]. rewrite fmap_cons, filter_cons_False.
    - apply IH. intros e' He'. apply Hgt. by right.
    - specialize (Hgt e ltac:(by left)). lia. }
  pose proof (HB b ltac:(by left)) as Hb. unfold Equal. destruct (Z.eqb_spec (compare_ k (ekey b)) 0) as [Eb|Nb].
  - rewrite filter_cons_True, HB0, last_snoc; [done|]. apply Z.nlt_ge. intros Hc%compare_flip. lia.
  - rewrite filter_cons_False, HB0, app_nil_r, fmap_last; [done|]. pose proof (compare_swap Hlaws _ _ Hb).
    intros Hle. assert (compare_ k (ekey b) < 0) as Hlt%compare_flip by lia. lia.
Qed.

(** C3 [refinement]. The skip list behaves as a sorted list of keys, whatever heights [rand()] leads to:
    after insertions of keys that are pairwise different, from a new list, no assertion fails (as long
    as no height reaches [kMaxHeight_]) and every search ends. The iterator goes through all keys in
    order, [Contains] tells whether a key was inserted, [Seek] finds the first key that is not before the
    target, [SeekForPrev] the last one that is not behind it. *)
Theorem skiplist_refines_sorted_list (zero : K) mh br s0 ops : mh < 2 ^ 31 →
  SkipList_new zero mh br = Some s0 → (∀ k r, (k, r) ∈ ops → is_Some (RandomHeight s0 r)) →
  ForallOrdPairs (λ a b, compare_ b a ≠ 0) (ops.*1) →
  ∃ s S, inserts s0 ops = Some s ∧ S ≡ₚ ops.*1 ∧ StronglySorted (λ a b, compare_ a b < 0) S ∧
    (n ← SeekToFirst s; walk s (length (nodes s)) n) = Some S ∧
    ∀ k, Contains s k = Some (existsb (Equal k) S) ∧
      (n ← Seek s k; Some (iter_key s n)) = Some (head (filter (λ y, 0 ≤ compare_ y k) S)) ∧
      (n ← SeekForPrev s k; Some (iter_key s n)) = Some (last (filter (λ y, compare_ y k ≤ 0) S)) ∧
      is_Some (EstimateCount s k).
Proof.
  intros Hmh E0 Hr Hord. pose proof (SkipList_new_inv _ _ _ _ Hmh E0) as Hinv0.
  destruct (inserts_inv Hlaws s0 _ [] ops Hinv0 Hr) as (s & L & Es & Hinv & Hp);
    [by intros ? ? _ ?%not_elem_of_nil|done|].
  pose proof (wl_sorted _ _ _ _ (levels_max _ _ _ Hinv)) as Hs.
  exists s, (ekey <$> L). split_and!; [done|done| |by eapply walk_all|].
  - clear -Hs. induction Hs as [|e L Hs IH Hall]; [constructor|]. rewrite fmap_cons. constructor; [done|].
    by apply Forall_fmap.
  - intros k. destruct (cut_ex Hlaws k L Hs) as (A & B & Hcut). pose proof Hcut as (EL & _). split_and!.
    + rewrite (Contains_spec Hlaws s _ L Hinv k A B Hcut). f_equal. clear. induction L as [|e L IH]; [done|]. simpl. by rewrite IH.
    + rewrite (Seek_spec Hlaws s _ L Hinv k A B Hcut). bind_simpl. rewrite (seek_keys L A B k Hcut). f_equal.
      eapply iter_key_first; [done|]. intros e He. rewrite EL. apply elem_of_app. by right.
    + rewrite (SeekForPrev_spec Hlaws s _ L Hinv k A B Hcut). bind_simpl. rewrite (seek_prev_keys L A B k Hcut Hs). f_equal.
      assert (iter_key s (eid <$> last A) = ekey <$> last A) as HlA.
      { destruct (last A) as [a|] eqn:Ea; [|done]. eapply iter_key_ent; [done|]. rewrite EL. apply elem_of_app. left. by apply last_Some_elem_of. }
      destruct B as [|b B]; [done|]. destruct (Equal k (ekey b)); [|done]. eapply iter_key_ent; [done|].
      rewrite EL. apply elem_of_app. right. by left.
    + by eapply EstimateCount_total.
Qed.
End spec.

(** Integers with the usual three-way comparison. *)
#[global] Instance Z_comparator : Comparator Z := λ a b, if a <? b then -1 else if b <? a then 1 else 0.
#[global] Instance Z_comparator_laws : ComparatorLaws Z.
Proof.
  split; unfold compare_, Z_comparator; intros a b; [|intros c];
    destruct (Z.ltb_spec a b), (Z.ltb_spec b a); try lia; destruct (Z.ltb_spec b c), (Z.ltb_spec c b),
    (Z.ltb_spec a c), (Z.ltb_spec c a); lia.
Qed.

Definition low : nat → Z := λ _, 2147483647.
Definition high : nat → Z := λ n, if (n <? 3)%nat then 0 else 2147483647.
Definition sample_inserts : list (Z * (nat → Z)) := [(5, low); (3, high); (4, low); (9, high); (1, low)].

Lemma skiplist_refines_sorted_list_witness : ∃ s0 s S, SkipList_new 0 12 4 = Some s0 ∧
  inserts s0 sample_inserts = Some s ∧ S ≡ₚ sample_inserts.*1 ∧
  StronglySorted (λ a b, compare_ a b < 0) S ∧
  (n ← SeekToFirst s; walk s (length (nodes s)) n) = Some S ∧
  ∀ k, Contains s k = Some (existsb (Equal k) S) ∧
    (n ← Seek s k; Some (iter_key s n)) = Some (head (filter (λ y, 0 ≤ compare_ y k) S)) ∧
    (n ← SeekForPrev s k; Some (iter_key s n)) = Some (last (filter (λ y, compare_ y k ≤ 0) S)) ∧
    is_Some (EstimateCount s k).
Proof.
  destruct (SkipList_new 0 12 4) as [s0|] eqn:E0; [|discriminate].
  destruct (skiplist_refines_sorted_list Z_comparator_laws 0 12 4 s0 sample_inserts) as (s & S & HS);
    [reflexivity|exact E0| | |exists s0, s, S; split; [reflexivity|exact HS]].
  - vm_compute in E0. injection E0 as <-. intros k r Hin.
    repeat (apply elem_of_cons in Hin as [[= -> ->]|Hin]; [vm_compute; by eexists|]).
    by apply not_elem_of_nil in Hin.
  - repeat constructor; by intros [=].
Defined.
