(* ===== verification/Arena.v ===== *)
(** * Arenas (src/cpp-util/arena.h)

    An address is an integer, the null pointer is 0, a region of memory is its first
    address with its size. [malloc] is a parameter; the arena keeps, for the model only, the
    regions that [malloc] has given out so far ([mem_]).  A failing [assert] is [None]. *)

From S2P Require Import Prelude.

(** Regions that do not overlap, and regions inside of others. *)
Definition disj (r q : Z * Z) : Prop := r.1 + r.2 ≤ q.1 ∨ q.1 + q.2 ≤ r.1.
Definition inside (r b : Z * Z) : Prop := b.1 ≤ r.1 ∧ r.1 + r.2 ≤ b.1 + b.2.

(** [malloc], when [mem] is in use: null, or a region of its own that is aligned for
    every type. *)
Class Malloc := malloc : list (Z * Z) → Z → Z.
Class MallocLaws `{Malloc} := malloc_fresh mem n : 0 < n → malloc mem n ≠ 0 →
  0 < malloc mem n ∧ malloc mem n + n < 2 ^ 64 ∧ malloc mem n mod 16 = 0 ∧
  ∀ b, b ∈ mem → disj b (malloc mem n, n).

Section arena.
Context `{Malloc}.

(** src/cpp-util/arena.h:97-104, [Arena members]. *)
Record Arena := mkArena {
  alloc_ptr_ : Z;
  alloc_bytes_remaining_ : Z;
  blocks_ : list Z;
  memory_usage_ : Z;
  mem_ : list (Z * Z)
}.

(** src/cpp-util/arena.h:24-26, [Arena::Arena]. *)
Definition kBlockSize : Z := 4096.
Definition Arena_new (mem : list (Z * Z)) : Arena := mkArena 0 0 [] 0 mem.

(** src/cpp-util/arena.h:31-35, [Arena::~Arena]. The calls of [free]. *)
Definition Arena_free (a : Arena) : list Z := blocks_ a.

(** src/cpp-util/arena.h:88-95, [Arena::AllocateNewBlock]. *)
Definition AllocateNewBlock (a : Arena) (block_bytes : Z) : option (Z * Arena) :=
  let ptr := malloc (mem_ a) block_bytes in
  if ptr =? 0 then None else
  Some (ptr, mkArena (alloc_ptr_ a) (alloc_bytes_remaining_ a) (blocks_ a ++ [ptr])
    (u64 (memory_usage_ a + u64 (block_bytes + 8))) ((ptr, block_bytes) :: mem_ a)).

(** src/cpp-util/arena.h:72-87, [Arena::AllocateFallback]. *)
Definition AllocateFallback (a : Arena) (bytes : Z) : option (Z * Arena) :=
  if kBlockSize / 4 <? bytes then AllocateNewBlock a bytes
  else
    res ← AllocateNewBlock a kBlockSize;
    let '(ptr, a) := res : Z * Arena in
    Some (ptr, mkArena (ptr + bytes) (u64 (kBlockSize - bytes)) (blocks_ a) (memory_usage_ a) (mem_ a)).

(** src/cpp-util/arena.h:37-46, [Arena::Allocate]. *)
Definition Allocate (a : Arena) (bytes : Z) : option (Z * Arena) :=
  if negb (0 <? bytes) then None else
  if bytes <? alloc_bytes_remaining_ a then
    Some (alloc_ptr_ a, mkArena (alloc_ptr_ a + bytes) (u64 (alloc_bytes_remaining_ a - bytes))
      (blocks_ a) (memory_usage_ a) (mem_ a))
  else AllocateFallback a bytes.

(** src/cpp-util/arena.h:48-65, [Arena::AllocateAligned]. *)
Definition AllocateAligned (a : Arena) (bytes : Z) : option (Z * Arena) :=
  let align := 8 in
  let md := Z.land (alloc_ptr_ a) (align - 1) in
  let padding := if md =? 0 then 0 else align - md in
  let needed := u64 (padding + bytes) in
  res ← (if needed <=? alloc_bytes_remaining_ a then
           Some (alloc_ptr_ a + padding,
             mkArena (alloc_ptr_ a + needed) (u64 (alloc_bytes_remaining_ a - needed))
               (blocks_ a) (memory_usage_ a) (mem_ a))
         else AllocateFallback a bytes);
  let '(ptr, a) := res : Z * Arena in
  if Z.land ptr (align - 1) =? 0 then Some (ptr, a) else None.

(** src/cpp-util/arena.h:67-69, [Arena::MemoryUsage]. *)
Definition MemoryUsage (a : Arena) : Z := memory_usage_ a.

(** src/cpp-util/arena.h:107-126, [FixedArena]. *)
Record FixedArena := mkFixed { arena : Arena; free_list_ : list Z; fixed_size_ : Z }.
Definition FixedArena_new (mem : list (Z * Z)) (item_size : Z) : FixedArena :=
  mkFixed (Arena_new mem) [] item_size.
Definition FreeFixed (f : FixedArena) (ptr : Z) : FixedArena :=
  mkFixed (arena f) (free_list_ f ++ [ptr]) (fixed_size_ f).
Definition AllocateFixed (f : FixedArena) (bytes : Z) : option (Z * FixedArena) :=
  if negb (bytes =? fixed_size_ f) then None else
  match free_list_ f with
  | ret :: free_list => Some (ret, mkFixed (arena f) free_list (fixed_size_ f))
  | [] =>
      res ← AllocateAligned (arena f) (u64 bytes);
      let '(ptr, a) := res : Z * Arena in Some (ptr, mkFixed a [] (fixed_size_ f))
  end.

(** ** The regions in use *)

Context (Hmalloc : MallocLaws).

(** Every block counts with the pointer to it. *)
Definition footprint (own : list (Z * Z)) : Z := foldr (λ b n, b.2 + 8 + n) 0 own.

(** The blocks [own], the last one first: each is what [malloc] returned for its size when [mem] and the
    blocks before it were in use. *)
Fixpoint granted (mem own : list (Z * Z)) : Prop :=
  match own with
  | [] => True
  | b :: own => b.1 = malloc (own ++ mem) b.2 ∧ b.1 ≠ 0 ∧ 0 < b.2 ∧ granted mem own
  end.

(** The regions [rs] are given out; [mem] was in use before. *)
Record wf (mem : list (Z * Z)) (a : Arena) (rs : list (Z * Z)) : Prop := {
  wf_free : 0 ≤ alloc_bytes_remaining_ a < 2 ^ 64 ∧
    (alloc_bytes_remaining_ a = 0 ∨ ∃ b, b ∈ mem_ a ∧ inside (alloc_ptr_ a, alloc_bytes_remaining_ a) b);
  wf_inside : ∀ r, r ∈ rs → 0 < r.2 ∧ ∃ b, b ∈ mem_ a ∧ inside r b;
  wf_disj : ForallOrdPairs disj rs;
  wf_apart : ∀ r, r ∈ rs → alloc_bytes_remaining_ a = 0 ∨ disj r (alloc_ptr_ a, alloc_bytes_remaining_ a);
  wf_others : ∀ b, b ∈ mem → (∀ r, r ∈ rs → disj b r) ∧
    (alloc_bytes_remaining_ a = 0 ∨ disj b (alloc_ptr_ a, alloc_bytes_remaining_ a));
  wf_blocks : ∃ own, mem_ a = own ++ mem ∧ granted mem own ∧ blocks_ a = reverse own.*1 ∧
    memory_usage_ a = u64 (footprint own)
}.

Lemma disj_sym r q : disj r q → disj q r.
Proof. unfold disj. lia. Qed.

Lemma disj_inside r b q c : disj b c → inside r b → inside q c → 0 < r.2 → 0 < q.2 → disj r q.
Proof. unfold disj, inside. lia. Qed.

Lemma wf_new mem : wf mem (Arena_new mem) [].
Proof.
  split; simpl; try (by intros r Hr%not_elem_of_nil).
  - split; [lia|by left].
  - constructor.
  - intros b _. split; [by intros r Hr%not_elem_of_nil|by left].
  - by exists [].
Qed.

(** A new block, before anything in it is given out. *)
Lemma NewBlock_spec mem a rs n : wf mem a rs → 0 < n → malloc (mem_ a) n ≠ 0 → ∃ ptr a',
  AllocateNewBlock a n = Some (ptr, a') ∧ 0 < ptr ∧ ptr mod 16 = 0 ∧ wf mem a' rs ∧
  (ptr, n) ∈ mem_ a' ∧ alloc_ptr_ a' = alloc_ptr_ a ∧ alloc_bytes_remaining_ a' = alloc_bytes_remaining_ a ∧
  (∀ r q, r ∈ rs → 0 < q.2 → inside q (ptr, n) → disj r q) ∧
  (∀ q, 0 < q.2 → inside q (ptr, n) → alloc_bytes_remaining_ a = 0 ∨ disj q (alloc_ptr_ a, alloc_bytes_remaining_ a)) ∧
  (∀ b, b ∈ mem → disj b (ptr, n)).
Proof.
  intros [[Hf Hfb] Hin Hd Ha Hot (own & Em & Eg & Eb & Eu)] Hn Hok.
  destruct (malloc_fresh (mem_ a) n Hn Hok) as (Hpos & Hend & Hal & Hfresh). unfold AllocateNewBlock.
  rewrite (proj2 (Z.eqb_neq _ _) Hok). eexists _, _. split; [done|]. cbn [mem_ alloc_ptr_ alloc_bytes_remaining_].
  split_and!; try done.
  - split; cbn; try done.
    + split; [done|]. destruct Hfb as [|(b & Hb & Hi)]; [by left|]. right. exists b. split; [by right|done].
    + intros r Hr. destruct (Hin r Hr) as (H0 & b & Hb & Hi). split; [done|]. exists b. split; [by right|done].
    + exists ((malloc (mem_ a) n, n) :: own). cbn [fmap list_fmap footprint foldr]. split_and!.
      * by rewrite Em.
      * cbn [granted fst snd]. by rewrite <-Em.
      * rewrite Eb. simpl. by rewrite reverse_cons.
      * rewrite Eu. unfold uwrap. simpl. rewrite Zplus_mod_idemp_l, Zplus_mod_idemp_r. f_equal.
        change (foldr _ 0 own) with (footprint own). lia.
  - by left.
  - intros r q Hr Hq Hi. destruct (Hin r Hr) as (H0 & b & Hb & Hib). eapply (disj_inside r b q); try done. by apply Hfresh.
  - intros q Hq Hi. destruct Hfb as [|(b & Hb & Hib)]; [by left|].
    destruct (decide (alloc_bytes_remaining_ a = 0)); [by left|]. right. apply disj_sym.
    eapply (disj_inside _ b q); try done; [by apply Hfresh|]. simpl. lia.
  - intros b Hb. apply Hfresh. rewrite Em. apply elem_of_app. by right.
Qed.

Lemma wf_cons mem a rs r : wf mem a rs → 0 < r.2 → (∃ b, b ∈ mem_ a ∧ inside r b) →
  (∀ q, q ∈ rs → disj r q) → (∀ b, b ∈ mem → disj b r) →
  (alloc_bytes_remaining_ a = 0 ∨ disj r (alloc_ptr_ a, alloc_bytes_remaining_ a)) → wf mem a (r :: rs).
Proof.
  intros [Hf Hin Hd Ha Hot Hb] Hr Hri Hrd Hro Hrf. split; try done.
  - intros q [->|Hq]%elem_of_cons; auto.
  - constructor; [by apply Forall_forall|done].
  - intros q [->|Hq]%elem_of_cons; auto.
  - intros b Hbm. destruct (Hot b Hbm) as [H1 H2]. split; [|done]. intros q [->|Hq]%elem_of_cons; auto.
Qed.

(** Giving out the front of the free part, after [pad] bytes. *)
Lemma bump mem a rs pad n : wf mem a rs → 0 < n → 0 ≤ pad → pad + n ≤ alloc_bytes_remaining_ a →
  wf mem (mkArena (alloc_ptr_ a + (pad + n)) (u64 (alloc_bytes_remaining_ a - (pad + n))) (blocks_ a)
    (memory_usage_ a) (mem_ a)) ((alloc_ptr_ a + pad, n) :: rs).
Proof.
  intros [[Hf [Hf0|(b & Hb & Hib)]] Hin Hd Ha Hot Hbl] Hn Hp Hle; [lia|].
  assert (u64 (alloc_bytes_remaining_ a - (pad + n)) = alloc_bytes_remaining_ a - (pad + n)) as ->
    by (apply Z.mod_small; lia).
  apply wf_cons; [split; cbn; try done|done| | | |]; cbn.
  - split; [lia|]. right. exists b. split; [done|]. unfold inside in *. simpl in *. lia.
  - intros r Hr. destruct (Ha r Hr) as [|Hdr]; [lia|]. unfold disj in *. simpl in *. lia.
  - intros c Hc. destruct (Hot c Hc) as [H1 [|H2]]; [lia|]. split; [done|]. unfold disj in *. simpl in *. lia.
  - exists b. split; [done|]. unfold inside in *. simpl in *. lia.
  - intros q Hq. destruct (Ha q Hq) as [|Hdr]; [lia|]. unfold disj in *. simpl in *. lia.
  - intros c Hc. destruct (Hot c Hc) as [H1 [|H2]]; [lia|]. unfold disj in *. simpl in *. lia.
  - right. unfold disj. simpl. lia.
Qed.

(** [malloc] gives the block that a request of [n] bytes may need. *)
Definition malloc_works (a : Arena) (n : Z) : Prop :=
  malloc (mem_ a) (if kBlockSize / 4 <? n then n else kBlockSize) ≠ 0.

Lemma AllocateFallback_spec mem a rs n : wf mem a rs → 0 < n → malloc_works a n → ∃ p a', AllocateFallback a n = Some (p, a') ∧
    wf mem a' ((p, n) :: rs) ∧ p mod 16 = 0.
Proof.
  intros Hw Hn Hok. unfold AllocateFallback, malloc_works, kBlockSize in *. destruct (Z.ltb_spec (4096 / 4) n) as [Hbig|Hsmall].
  - destruct (NewBlock_spec mem a rs n Hw Hn Hok) as (p & a' & -> & Hp & Hal & Hw' & Hin & Ep & Er & Hd & Hfr & Ho).
    exists p, a'. split_and!; try done. apply wf_cons; try done.
    + exists (p, n). split; [done|]. unfold inside. simpl. lia.
    + intros q Hq. apply disj_sym. apply Hd; [done|simpl; lia|unfold inside; simpl; lia].
    + rewrite Ep, Er. apply Hfr; [done|unfold inside; simpl; lia].
  - destruct (NewBlock_spec mem a rs 4096 Hw ltac:(lia) Hok) as (p & a' & -> & Hp & Hal & Hw' & Hin & _ & _ & Hd & Hfr & Ho).
    simpl. exists p. eexists. split; [done|]. split; [|done].
    pose proof (bump mem (mkArena p 4096 (blocks_ a') (memory_usage_ a') (mem_ a')) rs 0 n) as Hb. simpl in Hb.
    rewrite Z.add_0_r in Hb. change (4096 / 4) with 1024 in Hsmall. apply Hb; [|done|lia|lia]. clear Hb. destruct Hw' as [_ Hin' Hd' _ Hot Hbl]. split; cbn; try done.
    + split; [lia|]. right. exists (p, 4096). split; [done|]. unfold inside. simpl. lia.
    + intros r Hr. right. apply Hd; [done|simpl; lia|unfold inside; simpl; lia].
    + intros c Hc. destruct (Hot c Hc) as [H1 _]. split; [done|]. right. by apply Ho.
Qed.

Lemma AllocateFallback_inv a n r : AllocateFallback a n = Some r → malloc_works a n.
Proof.
  unfold AllocateFallback, malloc_works, AllocateNewBlock. destruct (_ <? n); case_match eqn:E; try done; intros _; by apply Z.eqb_neq.
Qed.

Lemma Allocate_total a n : 0 < n → malloc_works a n → ∀ mem rs, wf mem a rs → is_Some (Allocate a n).
Proof.
  intros Hn Hok mem rs Hw. unfold Allocate. rewrite (proj2 (Z.ltb_lt _ _) Hn). cbn [negb].
  destruct (n <? alloc_bytes_remaining_ a); [by eexists|].
  destruct (AllocateFallback_spec mem a rs n Hw Hn Hok) as (p & a' & -> & _). by eexists.
Qed.

Lemma Allocate_wf mem a rs n p a' : wf mem a rs → Allocate a n = Some (p, a') → wf mem a' ((p, n) :: rs).
Proof.
  intros Hw. unfold Allocate. destruct (Z.ltb_spec 0 n) as [Hn|]; [|done]. cbn [negb].
  destruct (Z.ltb_spec n (alloc_bytes_remaining_ a)).
  - intros [= <- <-]. pose proof (bump mem a rs 0 n Hw Hn) as Hb. simpl in Hb.
    rewrite Z.add_0_r in Hb. apply Hb; lia.
  - intros E. destruct (AllocateFallback_spec mem a rs n Hw Hn (AllocateFallback_inv _ _ _ E)) as (p' & a'' & E' & Hw' & _).
    naive_solver.
Qed.

Lemma land_7 z : Z.land z 7 = z mod 8.
Proof. change 7 with (Z.ones 3). by rewrite Z.land_ones. Qed.

(** The padding makes an address aligned. *)
Definition padding (a : Arena) : Z :=
  if alloc_ptr_ a mod 8 =? 0 then 0 else 8 - alloc_ptr_ a mod 8.

Lemma padding_aligns a : 0 ≤ padding a < 8 ∧ (alloc_ptr_ a + padding a) mod 8 = 0.
Proof.
  unfold padding. pose proof (Z.mod_pos_bound (alloc_ptr_ a) 8 ltac:(lia)) as Hm.
  destruct (Z.eqb_spec (alloc_ptr_ a mod 8) 0); [by rewrite Z.add_0_r|]. split; [lia|].
  rewrite (Z.div_mod (alloc_ptr_ a) 8) at 1 by lia.
  replace (8 * (alloc_ptr_ a / 8) + alloc_ptr_ a mod 8 + (8 - alloc_ptr_ a mod 8)) with
    ((alloc_ptr_ a / 8 + 1) * 8) by lia. apply Z.mod_mul. lia.
Qed.

(** Both results of a request, aligned: the free part was large enough, or not. *)
Lemma AllocateAligned_cases mem a rs n : wf mem a rs → 0 < n < 2 ^ 63 →
  (∃ p a', AllocateAligned a n = Some (p, a') ∧ wf mem a' ((p, n) :: rs) ∧ p mod 8 = 0) ∨
  (AllocateAligned a n = None ∧ ¬ malloc_works a n).
Proof.
  intros Hw Hn. unfold AllocateAligned. change (8 - 1) with 7. rewrite land_7. fold (padding a).
  destruct (padding_aligns a) as [Hpad Hal].
  assert (u64 (padding a + n) = padding a + n) as -> by (apply Z.mod_small; lia).
  destruct (Z.leb_spec (padding a + n) (alloc_bytes_remaining_ a)); simpl.
  - left. rewrite land_7, Hal. eexists _, _. split; [done|]. split; [|done]. apply bump; try done; lia.
  - destruct (AllocateFallback a n) as [[p0 a0]|] eqn:E; simpl.
    2: { right. split; [done|]. intros Hok. destruct (AllocateFallback_spec mem a rs n Hw ltac:(lia) Hok) as (? & ? & ? & _). congruence. }
    left. destruct (AllocateFallback_spec mem a rs n Hw ltac:(lia) (AllocateFallback_inv _ _ _ E)) as (p & a' & E' & Hw' & Hp).
    assert (p mod 8 = 0) as Hp8.
    { rewrite (Z.div_mod p 16), Hp by lia. replace (16 * (p / 16) + 0) with (p / 16 * 2 * 8) by lia.
      apply Z.mod_mul. lia. }
    rewrite E in E'. simplify_eq. rewrite land_7, Hp8. by exists p, a'.
Qed.

Lemma AllocateAligned_wf mem a rs n p a' : wf mem a rs → 0 < n < 2 ^ 63 →
  AllocateAligned a n = Some (p, a') → wf mem a' ((p, n) :: rs) ∧ p mod 8 = 0.
Proof. intros Hw Hn E. destruct (AllocateAligned_cases mem a rs n Hw Hn) as [(p' & a'' & E' & Hr)|[E' _]]; naive_solver. Qed.

(** ** A client of the arena

    The regions the client holds: what it was given and has not handed back. *)
Inductive holds (mem : list (Z * Z)) (size : Z) : FixedArena → list (Z * Z) → Prop :=
  | holds_new : holds mem size (FixedArena_new mem size) []
  | holds_alloc f live n p a : holds mem size f live → 0 < n < 2 ^ 63 →
      Allocate (arena f) n = Some (p, a) →
      holds mem size (mkFixed a (free_list_ f) (fixed_size_ f)) ((p, n) :: live)
  | holds_aligned f live n p a : holds mem size f live → 0 < n < 2 ^ 63 →
      AllocateAligned (arena f) n = Some (p, a) →
      holds mem size (mkFixed a (free_list_ f) (fixed_size_ f)) ((p, n) :: live)
  | holds_fixed f live p f' : holds mem size f live →
      AllocateFixed f size = Some (p, f') → holds mem size f' ((p, size) :: live)
  | holds_free f live1 p live2 : holds mem size f (live1 ++ (p, size) :: live2) →
      holds mem size (FreeFixed f p) (live1 ++ live2).

#[export] Instance disj_symmetric : Symmetric disj.
Proof. intros r q. apply disj_sym. Qed.

Lemma pairs_perm rs rs' : rs ≡ₚ rs' → ForallOrdPairs disj rs → ForallOrdPairs disj rs'.
Proof.
  induction 1 as [|r rs rs' Hp IH|r q rs|rs1 rs2 rs3 _ IH1 _ IH2]; intros Ho; auto.
  - inversion Ho; subst. constructor; [by rewrite <-Hp|auto].
  - inversion Ho as [|? ? H1 Ho']; subst. inversion Ho' as [|? ? H2 Ho'']; subst.
    inversion H1; subst. constructor; [|by constructor]. constructor; [by apply disj_sym|done].
Qed.

Lemma wf_perm mem a rs rs' : rs ≡ₚ rs' → wf mem a rs → wf mem a rs'.
Proof.
  intros Hp [Hf Hin Hd Ha Ho Hb]. split; try done.
  - intros r. rewrite <-Hp. apply Hin.
  - by eapply pairs_perm.
  - intros r. rewrite <-Hp. apply Ha.
  - intros b Hbm. destruct (Ho b Hbm) as [H1 H2]. split; [|done]. intros r. rewrite <-Hp. apply H1.
Qed.

Lemma holds_wf mem size f live : 0 < size < 2 ^ 31 → holds mem size f live →
  fixed_size_ f = size ∧ wf mem (arena f) (live ++ ((λ p, (p, size)) <$> free_list_ f)).
Proof.
  intros Hs. induction 1 as [|f live n p a _ [IHs IH] Hn E|f live n p a _ [IHs IH] Hn E
    |f live p f' _ [IHs IH] E|f live1 p live2 _ [IHs IH]]; simpl.
  - split; [done|]. apply wf_new.
  - split; [done|]. by eapply Allocate_wf in E.
  - split; [done|]. by eapply AllocateAligned_wf in E as [? _].
  - unfold AllocateFixed in E. rewrite IHs, Z.eqb_refl in E. cbn [negb] in E. destruct (free_list_ f) as [|q fl] eqn:Ef.
    + assert (u64 size = size) as Eu by (apply Z.mod_small; lia). rewrite Eu in E.
      destruct (AllocateAligned (arena f) size) as [[p' a']|] eqn:E'; [|done]. simplify_eq/=.
      eapply AllocateAligned_wf in E' as [Hw _]; [by split|exact IH|lia].
    + simplify_eq/=. split; [done|]. eapply wf_perm; [|exact IH]. by rewrite <-Permutation_middle.
  - split; [done|]. eapply wf_perm; [|exact IH]. rewrite fmap_app. simpl.
    rewrite <-!(assoc_L (++)). apply Permutation_app_head. cbn [app]. rewrite Permutation_cons_append. by rewrite <-!(assoc_L (++)).
Qed.

(** C32 [safety]. Memory an arena gives out is the client's alone: after any sequence of [Allocate],
    [AllocateAligned], [AllocateFixed] and [FreeFixed], the regions the client holds do not overlap each
    other, what was in use before, or the items on the free list. What is in use now is what was in use
    before and the blocks that [malloc] returned to the arena, each with the size that was asked for; every
    region of the client is inside of one of these blocks, the destructor frees exactly these blocks, each
    once, and [MemoryUsage] is the sum of their sizes with 8 bytes each, modulo [2^64]. As long as [malloc]
    does not fail, the next request succeeds, and its result is aligned when that is asked for. *)
Theorem arena_regions_disjoint mem size f live : 0 < size < 2 ^ 31 → holds mem size f live →
  ForallOrdPairs disj (live ++ ((λ p, (p, size)) <$> free_list_ f)) ∧
  (∀ r b, r ∈ live → b ∈ mem → disj b r) ∧
  (∃ own, mem_ (arena f) = own ++ mem ∧ granted mem own ∧ Arena_free (arena f) = reverse own.*1 ∧
    MemoryUsage (arena f) = u64 (footprint own) ∧ ∀ r, r ∈ live → ∃ b, b ∈ own ∧ inside r b) ∧
  (malloc_works (arena f) size → is_Some (AllocateFixed f size)) ∧
  (∀ n, 0 < n < 2 ^ 63 → malloc_works (arena f) n → is_Some (Allocate (arena f) n) ∧
    ∃ p a, AllocateAligned (arena f) n = Some (p, a) ∧ p mod 8 = 0).
Proof.
  intros Hs Hh. destruct (holds_wf mem size f live Hs Hh) as [Efs Hw].
  pose proof Hw as [_ Hin Hd _ Ho (own & Em & Eg & Eb & Eu)]. split_and!; [done| | | |].
  - intros r b Hr Hb. apply (Ho b Hb). apply elem_of_app. by left.
  - exists own. split_and!; [done..|]. intros r Hr.
    assert (r ∈ live ++ ((λ p, (p, size)) <$> free_list_ f)) as Hr' by (apply elem_of_app; by left).
    destruct (Hin r Hr') as (Hpos & b & Hb & Hi). rewrite Em in Hb. apply elem_of_app in Hb as [Hb|Hb]; [by exists b|].
    destruct (Ho b Hb) as [Hd' _]. specialize (Hd' r Hr'). unfold disj, inside in *. lia.
  - intros Hok. unfold AllocateFixed. rewrite Efs, Z.eqb_refl. cbn [negb]. destruct (free_list_ f) eqn:Ef; [|by eexists].
    assert (u64 size = size) as -> by (apply Z.mod_small; lia).
    destruct (AllocateAligned_cases mem (arena f) _ size Hw ltac:(lia)) as [(p & a & -> & _)|[_ Hno]]; [by eexists|done].
  - intros n Hn Hok. split; [eapply Allocate_total; [lia|done|exact Hw]|].
    destruct (AllocateAligned_cases mem (arena f) _ n Hw Hn) as [(p & a & -> & _ & Hal)|[_ Hno]]; [by exists p, a|done].
Qed.
End arena.

(** An allocator that gives out what is behind all regions in use. *)
Definition next_16 (mem : list (Z * Z)) : Z :=
  foldr (λ b n, Z.max n (((Z.max 0 (b.1 + b.2)) / 16 + 1) * 16)) 16 mem.
Definition bump_malloc : Malloc := λ mem n,
  if next_16 mem + n <? 2 ^ 64 then next_16 mem else 0.

Lemma next_16_spec mem : 0 < next_16 mem ∧ next_16 mem mod 16 = 0 ∧
  ∀ b, b ∈ mem → b.1 + b.2 ≤ next_16 mem.
Proof.
  induction mem as [|c mem (H1 & H2 & H3)]; simpl; [split_and!; [done|done|by intros b Hb%not_elem_of_nil]|].
  fold (next_16 mem). set (e := (Z.max 0 (c.1 + c.2) / 16 + 1) * 16).
  assert (c.1 + c.2 ≤ e ∧ 0 < e).
  { unfold e. pose proof (Z.div_mod (Z.max 0 (c.1 + c.2)) 16 ltac:(lia)).
    pose proof (Z.mod_pos_bound (Z.max 0 (c.1 + c.2)) 16 ltac:(lia)). lia. }
  split_and!; [lia| |].
  - destruct (Z.max_spec (next_16 mem) e) as [[_ ->]|[_ ->]]; [|done]. apply Z.mod_mul. lia.
  - intros b [->|Hb]%elem_of_cons; [lia|]. specialize (H3 b Hb). lia.
Qed.

Lemma bump_malloc_laws : @MallocLaws bump_malloc.
Proof.
  intros mem n Hn. unfold malloc, bump_malloc. destruct (Z.ltb_spec (next_16 mem + n) (2 ^ 64)); [|done].
  intros _. destruct (next_16_spec mem) as (H1 & H2 & H3). split_and!; try done.
  intros b Hb. left. simpl. by apply H3.
Qed.

#[local] Existing Instance bump_malloc.

(** A client that holds regions of three kinds, one of them handed out a second time. *)
Definition client : option (FixedArena * list (Z * Z)) :=
  '(p1, a) ← Allocate (arena (FixedArena_new [(16, 100)] 24)) 5;
  let f := mkFixed a [] 24 in
  '(p2, f) ← AllocateFixed f 24;
  '(p3, a) ← AllocateAligned (arena (FreeFixed f p2)) 2000;
  let f := mkFixed a (free_list_ (FreeFixed f p2)) 24 in
  '(p4, f) ← AllocateFixed f 24;
  Some (f, [(p4, 24); (p3, 2000); (p1, 5)]).

Lemma arena_regions_disjoint_witness : ∃ f live, client = Some (f, live) ∧
  ForallOrdPairs disj (live ++ ((λ p, (p, 24)) <$> free_list_ f)) ∧
  (∀ r b, r ∈ live → b ∈ [(16, 100)] → disj b r) ∧
  (∃ own, mem_ (arena f) = own ++ [(16, 100)] ∧ granted [(16, 100)] own ∧ Arena_free (arena f) = reverse own.*1 ∧
    MemoryUsage (arena f) = u64 (footprint own) ∧ ∀ r, r ∈ live → ∃ b, b ∈ own ∧ inside r b) ∧
  (malloc_works (arena f) 24 → is_Some (AllocateFixed f 24)) ∧
  (∀ n, 0 < n < 2 ^ 63 → malloc_works (arena f) n → is_Some (Allocate (arena f) n) ∧
    ∃ p a, AllocateAligned (arena f) n = Some (p, a) ∧ p mod 8 = 0).
Proof.
  unfold client.
  destruct (Allocate _ 5) as [[p1 a1]|] eqn:E1; [|discriminate].
  pose proof (holds_alloc [(16, 100)] 24 _ _ 5 p1 a1 (holds_new _ _) ltac:(lia) E1) as H1.
  vm_compute in E1. injection E1 as <- <-. cbn [mbind option_bind].
  destruct (AllocateFixed _ 24) as [[p2 f2]|] eqn:E2; [|discriminate].
  pose proof (holds_free _ _ _ [] p2 _ (holds_fixed _ _ _ _ p2 f2 H1 E2)) as H2.
  vm_compute in E2. injection E2 as <- <-. cbn [mbind option_bind].
  destruct (AllocateAligned _ 2000) as [[p3 a3]|] eqn:E3; [|discriminate].
  pose proof (holds_aligned _ _ _ _ 2000 p3 a3 H2 ltac:(lia) E3) as H3.
  vm_compute in E3. injection E3 as <- <-. cbn [mbind option_bind].
  destruct (AllocateFixed _ 24) as [[p4 f4]|] eqn:E4; [|discriminate].
  pose proof (holds_fixed _ _ _ _ p4 f4 H3 E4) as H4.
  cbn [mbind option_bind]. eexists _, _. split; [reflexivity|].
  apply (arena_regions_disjoint bump_malloc_laws [(16, 100)] 24); [lia|exact H4].
Defined.
