(* ===== verification/Cache.v ===== *)
(** * Caches with replacement policies (src/cpp-util/cache)

    A [std::list] is the list of its nodes, each with an identity, so that an iterator is the
    identity of a node; moving a node keeps the iterators to it valid.  An [std::unordered_map]
    is a finite map; where the code depends on its order of iteration, the order is an
    argument.  Using an iterator that does not point to a node is [None].

    The policy is the template parameter of the cache: the cache is verified against what a
    policy promises, the policies are verified to keep the promise. *)

From S2P Require Import Prelude.

(** ** Lists with iterators *)

Section nodes.
Context {I A : Type} `{EqDecision I}.
Implicit Types l : list (I * A).

(** [erase], and [splice] of one node to the front. *)
Definition list_node l (it : I) : option A :=
  r ← list_find (λ n, n.1 = it) l; Some r.2.2.
Definition list_erase l (it : I) : option (list (I * A)) :=
  _ ← list_node l it; Some (filter (λ n, n.1 ≠ it) l).
Definition list_splice l (it : I) : option (list (I * A)) :=
  x ← list_node l it; Some ((it, x) :: filter (λ n, n.1 ≠ it) l).

(** Nodes have different identities. *)
Lemma list_node_in l it x : NoDup l.*1 → (it, x) ∈ l → list_node l it = Some x.
Proof.
  intros Hnd Hin. unfold list_node. destruct (list_find _ l) as [[i [it' x']]|] eqn:E.
  - apply list_find_Some in E as (Hi & Hit & _). simpl in Hit. subst it'. simpl. f_equal.
    apply list_elem_of_lookup in Hin as [j Hj].
    assert (i = j) as ->; [|congruence].
    eapply NoDup_lookup; [exact Hnd|by rewrite list_lookup_fmap, Hi|by rewrite list_lookup_fmap, Hj].
  - rewrite list_find_None in E. rewrite Forall_forall in E. by destruct (E (it, x) Hin).
Qed.

Lemma list_erase_in l it x : NoDup l.*1 → (it, x) ∈ l → list_erase l it = Some (filter (λ n, n.1 ≠ it) l).
Proof. intros Hnd Hin. unfold list_erase. by rewrite (list_node_in l it x). Qed.

Lemma list_splice_in l it x : NoDup l.*1 → (it, x) ∈ l →
  list_splice l it = Some ((it, x) :: filter (λ n, n.1 ≠ it) l).
Proof. intros Hnd Hin. unfold list_splice. by rewrite (list_node_in l it x). Qed.

(** Erasing a node: the list around it. *)
Lemma filter_around l1 it x l2 : NoDup (l1 ++ (it, x) :: l2).*1 →
  filter (λ n, n.1 ≠ it) (l1 ++ (it, x) :: l2) = l1 ++ l2.
Proof.
  intros Hnd. rewrite fmap_app, fmap_cons in Hnd. apply NoDup_app in Hnd as (H1 & H2 & H3).
  apply NoDup_cons in H3 as [H3 _]. simpl in *.
  assert (∀ l, (it ∉ l.*1) → filter (λ n, n.1 ≠ it) l = l) as Hk.
  { induction l as [|n l IH]; intros Hn; [done|]. rewrite fmap_cons in Hn. apply not_elem_of_cons in Hn as [Hn Hl].
    by rewrite filter_cons_True, IH. }
  rewrite filter_app, filter_cons_False by (simpl; tauto). rewrite !Hk; [done|done|].
  intros Hin. apply (H2 it Hin). by left.
Qed.
End nodes.

(** ** Policies *)

(** src/cpp-util/cache/cache_policy.hh:7-23, [ICachePolicy]. *)
Class CachePolicy (K P : Type) := {
  Insert : P → K → option P;
  Touch : P → K → option P;
  Erase : P → K → option P;
  ReplCandidate : P → option K
}.

(** What a cache relies on: the policy keeps track of the keys [X] in the cache. *)
Class CachePolicyLaws (K P : Type) `{Countable K, !CachePolicy K P} (fresh_policy : P) (tracks : P → gset K → Prop) := {
  tracks_new : tracks fresh_policy ∅;
  tracks_Insert p X k : tracks p X → (k ∉ X) → ∃ p', Insert p k = Some p' ∧ tracks p' ({[k]} ∪ X);
  tracks_Touch p X k : tracks p X → k ∈ X → ∃ p', Touch p k = Some p' ∧ tracks p' X;
  tracks_Erase p X k : tracks p X → k ∈ X → ∃ p', Erase p k = Some p' ∧ tracks p' (X ∖ {[k]});
  tracks_Repl p X : tracks p X → X ≠ ∅ → ∃ k, ReplCandidate p = Some k ∧ k ∈ X
}.

Section policies.
Context {K : Type} `{Countable K}.

(** src/cpp-util/cache/cache_policy.hh:25-54, [NoCachePolicy]. [cbegin] is the first key in the
    order of the set. *)
Record NoCachePolicy := mkNo { key_storage : gset K }.
Definition NoCachePolicy_ops (cbegin : gset K → option K) : CachePolicy K NoCachePolicy := {|
  Insert p k := Some (mkNo ({[k]} ∪ key_storage p));
  Touch p k := Some p;
  Erase p k := Some (mkNo (key_storage p ∖ {[k]}));
  ReplCandidate p := cbegin (key_storage p)
|}.

(** src/cpp-util/cache/lru_cache_policy.hh:43-45, [LRUCachePolicy members]. [fresh] is the identity of the
    next list node. *)
Record LRUCachePolicy := mkLRU { lru_queue : list (nat * K); key_finder : gmap K nat; fresh : nat }.
Definition LRUCachePolicy_new : LRUCachePolicy := mkLRU [] ∅ 0.

(** src/cpp-util/cache/lru_cache_policy.hh:18-22, [LRUCachePolicy::Insert]. *)
Definition LRU_Insert (p : LRUCachePolicy) (k : K) : option LRUCachePolicy :=
  Some (mkLRU ((fresh p, k) :: lru_queue p) (<[k := fresh p]> (key_finder p)) (S (fresh p))).

(** src/cpp-util/cache/lru_cache_policy.hh:24-28, [LRUCachePolicy::Touch]. [key_finder[key]] of an unknown
    key is an iterator that points nowhere. *)
Definition LRU_Touch (p : LRUCachePolicy) (k : K) : option LRUCachePolicy :=
  it ← key_finder p !! k; q ← list_splice (lru_queue p) it; Some (mkLRU q (key_finder p) (fresh p)).

(** src/cpp-util/cache/lru_cache_policy.hh:31-35, [LRUCachePolicy::Erase]. *)
Definition LRU_Erase (p : LRUCachePolicy) (k : K) : option LRUCachePolicy :=
  it ← key_finder p !! k; q ← list_erase (lru_queue p) it;
  Some (mkLRU q (delete k (key_finder p)) (fresh p)).

(** src/cpp-util/cache/lru_cache_policy.hh:37-41, [LRUCachePolicy::ReplCandidate]. *)
Definition LRU_ReplCandidate (p : LRUCachePolicy) : option K := snd <$> last (lru_queue p).

#[export] Instance LRUCachePolicy_ops : CachePolicy K LRUCachePolicy := {|
  Insert := LRU_Insert; Touch := LRU_Touch; Erase := LRU_Erase; ReplCandidate := LRU_ReplCandidate
|}.
End policies.
Arguments NoCachePolicy K {_ _}.
Arguments LRUCachePolicy K {_ _}.

(** ** What the policies promise *)

Section policy_laws.
Context {K : Type} `{Countable K}.

#[export] Instance NoCachePolicy_laws (cbegin : gset K → option K) :
  (∀ X, X ≠ ∅ → ∃ k, cbegin X = Some k ∧ k ∈ X) →
  @CachePolicyLaws K (NoCachePolicy K) _ _ (NoCachePolicy_ops cbegin) (mkNo ∅) (λ p X, key_storage p = X).
Proof.
  intros Hbegin. split; simpl; try done.
  - intros p X k <- _. by eexists.
  - intros p X k <- _. by eexists.
  - intros p X k <- _. by eexists.
  - intros p X <- HX. by apply Hbegin.
Qed.

(** The queue has the keys [ks], most recent first, and [key_finder] their nodes. *)
Record lru_order (p : LRUCachePolicy K) (ks : list K) : Prop := {
  lo_keys : (lru_queue p).*2 = ks;
  lo_nodup : NoDup ks;
  lo_ids : NoDup (lru_queue p).*1;
  lo_fresh : ∀ n, n ∈ (lru_queue p).*1 → (n < fresh p)%nat;
  lo_finder : ∀ k i, key_finder p !! k = Some i ↔ (i, k) ∈ lru_queue p
}.

Lemma lru_order_new : lru_order LRUCachePolicy_new [].
Proof.
  split; simpl; try constructor; try (by intros ? ?%not_elem_of_nil).
  - by rewrite lookup_empty.
  - by intros ?%not_elem_of_nil.
Qed.

Lemma LRU_Insert_order p ks k : lru_order p ks → (k ∉ ks) →
  ∃ p', LRU_Insert p k = Some p' ∧ lru_order p' (k :: ks).
Proof.
  intros [Hk Hnd Hid Hfr Hf] Hnew. eexists. split; [done|].
  split; cbn [lru_queue key_finder fresh]; rewrite ?fmap_cons; simpl fst; simpl snd.
  - by rewrite Hk.
  - by constructor.
  - constructor; [|done]. intros Hin%Hfr. lia.
  - intros n [->|Hn]%elem_of_cons; [lia|]. specialize (Hfr n Hn). lia.
  - intros k' i. rewrite elem_of_cons. destruct (decide (k = k')) as [<-|Hne].
    + rewrite lookup_insert_eq. split; [intros [= <-]; by left|]. intros [[= ->]|Hin]; [done|].
      destruct Hnew. rewrite <-Hk. apply list_elem_of_fmap. by exists (i, k).
    + rewrite lookup_insert_ne by done. rewrite Hf. naive_solver.
Qed.

(** The node of a key, and the queue around it. *)
Lemma lru_split p ks k : lru_order p ks → k ∈ ks → ∃ i q1 q2, key_finder p !! k = Some i ∧
  lru_queue p = q1 ++ (i, k) :: q2 ∧ filter (λ n, n.1 ≠ i) (lru_queue p) = q1 ++ q2 ∧ ks = q1.*2 ++ k :: q2.*2.
Proof.
  intros [Hk Hnd Hid Hfr Hf] Hin. rewrite <-Hk in Hin. apply list_elem_of_fmap in Hin as ([i k'] & -> & Hin).
  pose proof (proj2 (Hf _ _) Hin) as Ei. apply list_elem_of_split in Hin as (q1 & q2 & Eq).
  exists i, q1, q2. split_and!; [done|done| |].
  - rewrite Eq in *. by apply filter_around.
  - by rewrite <-Hk, Eq, fmap_app, fmap_cons.
Qed.

(** Reordering the nodes. *)
Lemma lru_order_perm q q' m n : q ≡ₚ q' → lru_order (mkLRU q m n) q.*2 → lru_order (mkLRU q' m n) q'.*2.
Proof.
  intros Hp [_ Hnd Hid Hfr Hf]. simpl in *. split; simpl; [done|by rewrite <-Hp..| |].
  - intros i. rewrite <-Hp. apply Hfr.
  - intros k i. rewrite <-Hp. apply Hf.
Qed.

Lemma LRU_Touch_order p ks k : lru_order p ks → k ∈ ks →
  ∃ p' ks1 ks2, LRU_Touch p k = Some p' ∧ ks = ks1 ++ k :: ks2 ∧ lru_order p' (k :: ks1 ++ ks2).
Proof.
  intros Ho Hin. destruct (lru_split p ks k Ho Hin) as (i & q1 & q2 & Ei & Eq & Ef & ->).
  unfold LRU_Touch. rewrite Ei. bind_simpl.
  rewrite (list_splice_in _ i k), Ef; [|apply Ho|rewrite Eq; apply elem_of_app; right; by left].
  bind_simpl. eexists _, _, _. split; [done|]. split; [done|]. destruct p as [q m n]. simpl in *. subst q.
  assert (k :: q1.*2 ++ q2.*2 = ((i, k) :: q1 ++ q2).*2) as -> by (by rewrite fmap_cons, fmap_app).
  eapply lru_order_perm; [by rewrite Permutation_middle|]. by rewrite fmap_app, fmap_cons.
Qed.

(** Dropping the first node, and its key. *)
Lemma lru_order_tail i k q m n : lru_order (mkLRU ((i, k) :: q) m n) (k :: q.*2) →
  lru_order (mkLRU q (delete k m) n) q.*2.
Proof.
  intros [Hk Hnd Hid Hfr Hf]. simpl in *. apply NoDup_cons in Hnd as [Hn1 Hn2]. apply NoDup_cons in Hid as [Hi1 Hi2].
  split; simpl; try done.
  - intros j Hj. apply Hfr. by right.
  - intros k' j. destruct (decide (k = k')) as [<-|Hne].
    + rewrite lookup_delete_eq. split; [done|]. intros Hin. destruct Hn1. apply list_elem_of_fmap. by exists (j, k).
    + rewrite lookup_delete_ne, Hf, elem_of_cons by done. naive_solver.
Qed.

Lemma LRU_Erase_order p ks k : lru_order p ks → k ∈ ks →
  ∃ p' ks1 ks2, LRU_Erase p k = Some p' ∧ ks = ks1 ++ k :: ks2 ∧ lru_order p' (ks1 ++ ks2).
Proof.
  intros Ho Hin. destruct (lru_split p ks k Ho Hin) as (i & q1 & q2 & Ei & Eq & Ef & ->).
  unfold LRU_Erase. rewrite Ei. bind_simpl.
  rewrite (list_erase_in _ i k), Ef; [|apply Ho|rewrite Eq; apply elem_of_app; right; by left].
  bind_simpl. eexists _, _, _. split; [done|]. split; [done|]. destruct p as [q m n]. simpl in *. subst q.
  rewrite <-fmap_app. apply (lru_order_tail i). rewrite <-(fmap_cons snd (i, k)).
  eapply lru_order_perm; [by rewrite Permutation_middle|]. by rewrite fmap_app, fmap_cons.
Qed.

Lemma LRU_Repl_order p ks : lru_order p ks → LRU_ReplCandidate p = last ks.
Proof. intros [<- _ _ _ _]. unfold LRU_ReplCandidate. by rewrite fmap_last. Qed.

#[export] Instance LRUCachePolicy_laws : CachePolicyLaws K (LRUCachePolicy K) LRUCachePolicy_new
  (λ p X, ∃ ks, lru_order p ks ∧ list_to_set ks = X).
Proof.
  split; simpl.
  - exists []. split; [apply lru_order_new|done].
  - intros p X k (ks & Ho & <-) Hk. destruct (LRU_Insert_order p ks k Ho) as (p' & E & Ho');
      [by rewrite elem_of_list_to_set in Hk|].
    exists p'. split; [done|]. by exists (k :: ks).
  - intros p X k (ks & Ho & <-) Hk%elem_of_list_to_set.
    destruct (LRU_Touch_order p ks k Ho Hk) as (p' & ks1 & ks2 & E & -> & Ho').
    exists p'. split; [done|]. eexists. split; [exact Ho'|]. apply list_to_set_perm_L. apply Permutation_middle.
  - intros p X k (ks & Ho & <-) Hk%elem_of_list_to_set.
    destruct (LRU_Erase_order p ks k Ho Hk) as (p' & ks1 & ks2 & E & -> & Ho').
    exists p'. split; [done|]. eexists. split; [exact Ho'|].
    pose proof (lo_nodup _ _ Ho) as Hnd. rewrite <-Permutation_middle in Hnd. apply NoDup_cons in Hnd as [Hnd _].
    rewrite <-Permutation_middle. rewrite list_to_set_cons. set_solver.
  - intros p X (ks & Ho & <-) HX. rewrite (LRU_Repl_order p ks Ho).
    destruct ks as [|k ks _] using rev_ind; [done|]. exists k. rewrite last_snoc. split; [done|].
    apply elem_of_list_to_set, elem_of_app. right. by left.
Qed.
End policy_laws.

(** ** The cache *)

Section cache.
Context {K V P : Type} `{Countable K, !CachePolicy K P}.

(** src/cpp-util/cache/cache.hh:161-166, [fixed_sized_cache members]. *)
Record cache := mkCache { cache_items_map : gmap K V; cache_policy : P; max_cache_size : Z }.

(** src/cpp-util/cache/cache.hh:22-31, [fixed_sized_cache::fixed_sized_cache]. *)
Definition cache_new (max_size : Z) (policy : P) : cache :=
  mkCache ∅ policy (if max_size =? 0 then 2 ^ 64 - 1 else max_size).

(** src/cpp-util/cache/cache.hh:133-137, [fixed_sized_cache::Insert]. [emplace] keeps an entry that is there. *)
Definition cache_Insert (c : cache) (k : K) (v : V) : option cache :=
  p ← Insert (cache_policy c) k;
  Some (mkCache (match cache_items_map c !! k with Some _ => cache_items_map c
                 | None => <[k := v]> (cache_items_map c) end) p (max_cache_size c)).

(** src/cpp-util/cache/cache.hh:139-147, [fixed_sized_cache::Erase]. Erasing at [end()] is undefined; the
    iterator that is returned points to the erased element. *)
Definition cache_Erase (c : cache) (k : K) : option cache :=
  p ← Erase (cache_policy c) k;
  _ ← cache_items_map c !! k;
  Some (mkCache (delete k (cache_items_map c)) p (max_cache_size c)).

(** src/cpp-util/cache/cache.hh:149-154, [fixed_sized_cache::Update]. *)
Definition cache_Update (c : cache) (k : K) (v : V) : cache :=
  mkCache (<[k := v]> (cache_items_map c)) (cache_policy c) (max_cache_size c).

(** src/cpp-util/cache/cache.hh:68-78, [fixed_sized_cache::Cached, Size]. *)
Definition Cached (c : cache) (k : K) : bool := bool_decide (cache_items_map c !! k ≠ None).
Definition Size (c : cache) : Z := Z.of_nat (size (cache_items_map c)).

(** src/cpp-util/cache/cache.hh:38-52, [fixed_sized_cache::Put]. *)
Definition Put (c : cache) (k : K) (v : V) : option cache :=
  match cache_items_map c !! k with
  | None =>
      c ← (if max_cache_size c <? u64 (Size c + 1) then
             disp_candidate_key ← ReplCandidate (cache_policy c); cache_Erase c disp_candidate_key
           else Some c);
      cache_Insert c k v
  | Some _ => Some (cache_Update c k v)
  end.

(** src/cpp-util/cache/cache.hh:54-66, [fixed_sized_cache::Get]. *)
Definition Get (c : cache) (k : K) : option (cache * option V) :=
  match cache_items_map c !! k with
  | None => Some (c, None)
  | Some v =>
      p ← Touch (cache_policy c) k;
      Some (mkCache (cache_items_map c) p (max_cache_size c), Some v)
  end.

(** src/cpp-util/cache/cache.hh:80-97, [fixed_sized_cache::Remove, Evict]. After [Erase] the value is read
    through an iterator to the erased element. *)
Definition read_erased (c : cache) : option (cache * V) := None.
Definition Remove (null : V) (c : cache) (k : K) : option (cache * V) :=
  match cache_items_map c !! k with
  | None => Some (c, null)
  | Some _ => c ← cache_Erase c k; read_erased c
  end.
Definition Evict (c : cache) : option (cache * V) :=
  k ← ReplCandidate (cache_policy c); c ← cache_Erase c k; read_erased c.

(** src/cpp-util/cache/cache.hh:110-119, [fixed_sized_cache::Clear]. [order] is the order of iteration; the
    result has the calls of [OnEraseCallback]. *)
Fixpoint erase_all (p : P) (order : list (K * V)) : option P :=
  match order with [] => Some p | (k, _) :: order => p ← Erase p k; erase_all p order end.
Definition Clear (c : cache) (order : list (K * V)) : option (cache * list (K * V)) :=
  p ← erase_all (cache_policy c) order; Some (mkCache ∅ p (max_cache_size c), order).
End cache.
Arguments cache K V P {_ _}.

(** ** The cache as a bounded map *)

Section cache_correct.
Context {K V P : Type} `{Countable K, !CachePolicy K P} (policy : P) (tracks : P → gset K → Prop).
Context (Hlaws : CachePolicyLaws K P policy tracks).
Context (order : gmap K V → list (K * V)) (Horder : ∀ m, order m ≡ₚ map_to_list m).

Record cache_wf (c : cache K V P) : Prop := {
  cw_tracks : tracks (cache_policy c) (dom (cache_items_map c));
  cw_size : Size c ≤ max_cache_size c;
  cw_max : 1 ≤ max_cache_size c < 2 ^ 64
}.

(** The calls of a client, and what they may do to the contents of the cache: a new key
    displaces some other one when the cache is full. *)
Inductive cache_op := OPut (k : K) (v : V) | OGet (k : K) | OClear.

Inductive cache_spec (max : Z) (m : gmap K V) : cache_op → gmap K V → list (option V) → Prop :=
  | spec_update k v : is_Some (m !! k) → cache_spec max m (OPut k v) (<[k := v]> m) []
  | spec_room k v : m !! k = None → Z.of_nat (size m) < max →
      cache_spec max m (OPut k v) (<[k := v]> m) []
  | spec_displace k v d : m !! k = None → Z.of_nat (size m) = max → is_Some (m !! d) →
      cache_spec max m (OPut k v) (<[k := v]> (delete d m)) []
  | spec_get k : cache_spec max m (OGet k) m [m !! k]
  | spec_clear : cache_spec max m OClear ∅ [].

Definition cache_step (c : cache K V P) (o : cache_op) : option (cache K V P * list (option V)) :=
  match o with
  | OPut k v => c ← Put c k v; Some (c, [])
  | OGet k => res ← Get c k; Some (res.1, [res.2])
  | OClear => res ← Clear c (order (cache_items_map c)); Some (res.1, [])
  end.

Fixpoint cache_run (c : cache K V P) (ops : list cache_op) : option (cache K V P * list (option V)) :=
  match ops with
  | [] => Some (c, [])
  | o :: ops => '(c, r) ← cache_step c o; '(c, rs) ← cache_run c ops; Some (c, r ++ rs)
  end.

Inductive spec_run (max : Z) : gmap K V → list cache_op → gmap K V → list (option V) → Prop :=
  | spec_done m : spec_run max m [] m []
  | spec_next m o m1 r ops m2 rs : cache_spec max m o m1 r → spec_run max m1 ops m2 rs →
      spec_run max m (o :: ops) m2 (r ++ rs).

Lemma cache_Erase_ok c d : cache_wf c → is_Some (cache_items_map c !! d) →
  ∃ p, cache_Erase c d = Some (mkCache (delete d (cache_items_map c)) p (max_cache_size c)) ∧
    tracks p (dom (delete d (cache_items_map c))).
Proof.
  intros [Ht _ _] [v Hv]. destruct (tracks_Erase (cache_policy c) _ d Ht) as (p & E & Ht'); [by apply elem_of_dom|].
  exists p. unfold cache_Erase. rewrite E. bind_simpl. rewrite Hv. bind_simpl. split; [done|]. by rewrite dom_delete_L.
Qed.

Lemma cache_Insert_ok (m : gmap K V) p max k v : tracks p (dom m) → m !! k = None →
  ∃ p', cache_Insert (mkCache m p max) k v = Some (mkCache (<[k := v]> m) p' max) ∧ tracks p' (dom (<[k := v]> m)).
Proof.
  intros Ht Hk. destruct (tracks_Insert p _ k Ht) as (p' & E & Ht'); [by apply not_elem_of_dom|].
  exists p'. unfold cache_Insert. simpl. rewrite E. simpl. rewrite Hk. split; [done|]. by rewrite dom_insert_L.
Qed.

Lemma Put_ok c k v : cache_wf c → Size c < 2 ^ 64 - 1 → ∃ c', Put c k v = Some c' ∧ cache_wf c' ∧
  max_cache_size c' = max_cache_size c ∧
  cache_spec (max_cache_size c) (cache_items_map c) (OPut k v) (cache_items_map c') [].
Proof.
  intros Hw Hbound. pose proof Hw as [Ht Hs Hm]. unfold Size in Hs, Hbound. unfold Put.
  destruct (cache_items_map c !! k) as [v0|] eqn:Ek.
  - eexists. split; [done|]. split; [|split; [done|by apply spec_update]]. split; cbn [cache_items_map cache_policy max_cache_size cache_Update]; try done.
    + rewrite dom_insert_lookup_L; [done|by eexists].
    + unfold Size. cbn [cache_items_map cache_Update]. rewrite map_size_insert_Some; [done|by eexists].
  - unfold Size. assert (u64 (Z.of_nat (size (cache_items_map c)) + 1) = Z.of_nat (size (cache_items_map c)) + 1) as Eu
      by (apply Z.mod_small; lia).
    rewrite Eu. destruct (Z.ltb_spec (max_cache_size c) (Z.of_nat (size (cache_items_map c)) + 1)) as [Hfull|Hroom].
    + destruct (tracks_Repl _ _ Ht) as (d & -> & Hd%elem_of_dom).
      { intros E%dom_empty_iff_L. rewrite E, map_size_empty in Hfull. lia. }
      bind_simpl. destruct (cache_Erase_ok c d Hw Hd) as (p & -> & Htp). bind_simpl.
      destruct (cache_Insert_ok _ p (max_cache_size c) k v Htp) as (p' & -> & Htp').
      { apply lookup_delete_None. by right. }
      eexists. split; [done|]. split; [|split; [done|apply spec_displace; [done|lia|done]]].
      split; cbn [cache_items_map cache_policy max_cache_size cache_Update]; try done. unfold Size. cbn [cache_items_map cache_Update].
      rewrite map_size_insert_None by (apply lookup_delete_None; by right).
      rewrite map_size_delete_Some by done.
      assert (size (cache_items_map c) ≠ 0)%nat by (intros E%map_size_empty_iff; destruct Hd as [vd Hd]; by rewrite E in Hd). lia.
    + destruct c as [m p max]. simpl in *. bind_simpl. destruct (cache_Insert_ok m p max k v Ht Ek) as (p' & -> & Htp').
      eexists. split; [done|]. split; [|split; [done|apply spec_room; [done|lia]]].
      split; cbn [cache_items_map cache_policy max_cache_size cache_Update]; try done. unfold Size. cbn [cache_items_map cache_Update]. rewrite map_size_insert_None by done. lia.
Qed.

Lemma Get_ok c k : cache_wf c → ∃ c', Get c k = Some (c', cache_items_map c !! k) ∧ cache_wf c' ∧
  max_cache_size c' = max_cache_size c ∧ cache_items_map c' = cache_items_map c.
Proof.
  intros [Ht Hs Hm]. unfold Get. destruct (cache_items_map c !! k) as [v|] eqn:Ek; [|by exists c].
  destruct (tracks_Touch _ _ k Ht) as (p & -> & Htp); [apply elem_of_dom; by eexists|].
  bind_simpl. eexists. split; [done|]. split; [|done]. split; done.
Qed.

Lemma erase_all_ok p (l : list (K * V)) X : NoDup l.*1 → tracks p (list_to_set l.*1 ∪ X) → list_to_set l.*1 ## X →
  ∃ p', erase_all p l = Some p' ∧ tracks p' X.
Proof.
  revert p. induction l as [|[k v] l IH]; intros p Hnd Ht Hd; simpl.
  { exists p. split; [done|]. by replace (list_to_set [].*1 ∪ X) with X in Ht by set_solver. }
  rewrite fmap_cons in Hnd. apply NoDup_cons in Hnd as [Hk Hnd]. simpl in *.
  destruct (tracks_Erase p _ k Ht) as (p1 & -> & Ht1); [set_solver|]. simpl. apply IH; [done| |set_solver].
  replace (list_to_set l.*1 ∪ X) with (({[k]} ∪ list_to_set l.*1 ∪ X) ∖ {[k]}); [done|].
  assert (k ∉ (list_to_set l.*1 : gset K)) by (by rewrite elem_of_list_to_set). set_solver.
Qed.

Lemma keys_dom (m : gmap K V) : list_to_set (map_to_list m).*1 = dom m.
Proof.
  apply set_eq. intros k. rewrite elem_of_list_to_set, list_elem_of_fmap, elem_of_dom. split.
  - intros ([k' v] & -> & Hin%elem_of_map_to_list). by exists v.
  - intros [v Hv]. exists (k, v). split; [done|]. by apply elem_of_map_to_list.
Qed.

Lemma Clear_ok c : cache_wf c → ∃ c', Clear c (order (cache_items_map c)) = Some (c', order (cache_items_map c)) ∧
  cache_wf c' ∧ max_cache_size c' = max_cache_size c ∧ cache_items_map c' = ∅.
Proof.
  intros [Ht Hs Hm]. unfold Clear. destruct (erase_all_ok (cache_policy c) (order (cache_items_map c)) ∅) as (p & -> & Htp).
  - rewrite Horder. apply NoDup_fst_map_to_list.
  - by rewrite (right_id_L ∅ (∪)), Horder, keys_dom.
  - set_solver.
  - bind_simpl. eexists. split; [done|]. split; [|done]. split; cbn.
    + by rewrite dom_empty_L.
    + unfold Size. cbn. rewrite map_size_empty. lia.
    + done.
Qed.

Lemma step_ok c o : cache_wf c → Size c < 2 ^ 64 - 1 → ∃ c' r, cache_step c o = Some (c', r) ∧ cache_wf c' ∧
  max_cache_size c' = max_cache_size c ∧ Size c' ≤ Size c + 1 ∧
  cache_spec (max_cache_size c) (cache_items_map c) o (cache_items_map c') r.
Proof.
  intros Hw Hb. destruct o as [k v|k|]; simpl.
  - destruct (Put_ok c k v Hw Hb) as (c' & -> & Hw' & Hm & Hs). bind_simpl. exists c', []. split_and!; try done.
    unfold Size. inversion Hs as [? ? Hk E1 E2|? ? Hk ? E1 E2|? ? d Hk Hf Hd E1 E2| |]; subst.
    + rewrite map_size_insert_Some by done. lia.
    + rewrite map_size_insert_None by done. lia.
    + rewrite map_size_insert_None by (apply lookup_delete_None; by right). rewrite map_size_delete_Some by done. lia.
  - destruct (Get_ok c k Hw) as (c' & -> & Hw' & Hm & Hs). bind_simpl. exists c'. eexists. split; [done|].
    split_and!; try done; [unfold Size; simpl; rewrite Hs; lia|]. simpl. rewrite Hs. apply spec_get.
  - destruct (Clear_ok c Hw) as (c' & -> & Hw' & Hm & Hs). bind_simpl. exists c', []. split; [done|].
    split_and!; try done; [unfold Size; rewrite Hs, map_size_empty; lia|]. rewrite Hs. apply spec_clear.
Qed.

Lemma run_ok c ops : cache_wf c → Size c + Z.of_nat (length ops) < 2 ^ 64 →
  ∃ c' rs, cache_run c ops = Some (c', rs) ∧ cache_wf c' ∧ max_cache_size c' = max_cache_size c ∧
    spec_run (max_cache_size c) (cache_items_map c) ops (cache_items_map c') rs.
Proof.
  revert c. induction ops as [|o ops IH]; intros c Hw Hb; simpl.
  { exists c, []. split_and!; try done. constructor. }
  simpl in Hb. destruct (step_ok c o Hw) as (c1 & r & -> & Hw1 & Hm1 & Hs1 & Hspec); [lia|]. simpl.
  destruct (IH c1 Hw1) as (c2 & rs & -> & Hw2 & Hm2 & Hrun); [lia|]. simpl. rewrite Hm1 in *.
  eexists _, _. split; [done|]. split_and!; [done|congruence|]. by econstructor.
Qed.
End cache_correct.

(** C31 [invariant]. A cache with any policy that keeps its promises, driven by any calls of [Put], [Get] and
    [Clear], never uses an invalid iterator, never holds more than [max_size] entries, and behaves as a map:
    [Put] stores the value, [Get] returns what was stored last, and the only other change is that one
    entry makes room for a new key when the cache is full. *)
Theorem cache_is_bounded_map {K V P : Type} `{Countable K, !CachePolicy K P} (policy : P)
    (tracks : P → gset K → Prop) (Hlaws : CachePolicyLaws K P policy tracks)
    (order : gmap K V → list (K * V)) (Horder : ∀ m, order m ≡ₚ map_to_list m) max ops :
  1 ≤ max < 2 ^ 64 → Z.of_nat (length ops) < 2 ^ 64 →
  ∃ c rs, cache_run order (cache_new max policy) ops = Some (c, rs) ∧ Size c ≤ max ∧
    tracks (cache_policy c) (dom (cache_items_map c)) ∧
    spec_run max ∅ ops (cache_items_map c) rs.
Proof.
  intros Hmax Hops. assert (cache_new max policy = mkCache (∅ : gmap K V) policy max) as E.
  { unfold cache_new. by rewrite (proj2 (Z.eqb_neq _ _)) by lia. }
  destruct (run_ok policy tracks Hlaws order Horder (cache_new max policy) ops) as (c & rs & Er & [Ht Hs Hm] & Em & Hspec).
  - rewrite E. split; simpl; [rewrite dom_empty_L; apply tracks_new|unfold Size; simpl; rewrite map_size_empty; lia|done].
  - rewrite E. unfold Size. cbn [cache_items_map cache_Update]. rewrite map_size_empty. lia.
  - rewrite E in Em, Hspec. simpl in *. exists c, rs. split_and!; try done. lia.
Qed.

Lemma cache_is_bounded_map_witness : let ops := [OPut 1 10; OPut 2 20; OGet 1; OPut 3 30; OGet 2; OGet 1; OClear; OGet 3] in
  ∃ (c : cache Z Z (LRUCachePolicy Z)) rs, cache_run map_to_list (cache_new 2 LRUCachePolicy_new) ops = Some (c, rs) ∧
    Size c ≤ 2 ∧ (∃ ks, lru_order (cache_policy c) ks ∧ list_to_set ks = dom (cache_items_map c)) ∧
    spec_run 2 ∅ ops (cache_items_map c) rs.
Proof.
  intros ops. apply (cache_is_bounded_map LRUCachePolicy_new _ LRUCachePolicy_laws map_to_list (λ m, reflexivity _) 2 ops);
    [lia|simpl; lia].
Defined.

(** ** The cache without policy classes *)

Section lru_stl.
Context {K V : Type} `{Countable K}.

(** src/cpp-util/cache/lrucache_stl.hh:54-57, [lru_cache members]. *)
Record lru_cache := mkStl {
  _cache_items_list : list (nat * (K * V)); _cache_items_map : gmap K nat; _max_size : Z; _fresh : nat
}.

(** src/cpp-util/cache/lrucache_stl.hh:15-17, [lru_cache::lru_cache]. *)
Definition lru_new (max_size : Z) : lru_cache := mkStl [] ∅ max_size 0.

(** src/cpp-util/cache/lrucache_stl.hh:19-34, [lru_cache::put]. *)
Definition put (c : lru_cache) (k : K) (v : V) : option lru_cache :=
  let it := _cache_items_map c !! k in
  let l := (_fresh c, (k, v)) :: _cache_items_list c in
  res ← match it with
        | Some i => l ← list_erase l i; Some (l, delete k (_cache_items_map c))
        | None => Some (l, _cache_items_map c)
        end;
  let '(l, m) := res : list (nat * (K * V)) * gmap K nat in
  let m := <[k := _fresh c]> m in
  if _max_size c <? Z.of_nat (size m) then
    lst ← last l;
    Some (mkStl (take (length l - 1) l) (delete lst.2.1 m) (_max_size c) (S (_fresh c)))
  else Some (mkStl l m (_max_size c) (S (_fresh c))).

(** src/cpp-util/cache/lrucache_stl.hh:36-44, [lru_cache::get]. [inr] is the exception. *)
Definition get (c : lru_cache) (k : K) : option (lru_cache * (V + unit)) :=
  match _cache_items_map c !! k with
  | None => Some (c, inr tt)
  | Some i =>
      l ← list_splice (_cache_items_list c) i;
      kv ← list_node l i;
      Some (mkStl l (_cache_items_map c) (_max_size c) (_fresh c), inl kv.2)
  end.

(** src/cpp-util/cache/lrucache_stl.hh:46-52, [lru_cache::exists, size]. *)
Definition lru_exists (c : lru_cache) (k : K) : bool := bool_decide (_cache_items_map c !! k ≠ None).
Definition lru_size (c : lru_cache) : Z := Z.of_nat (size (_cache_items_map c)).

(** *** The contract: the entries, most recently used first *)

Definition others (k : K) (l : list (K * V)) : list (K * V) := filter (λ e, e.1 ≠ k) l.
Definition spec_put (max : Z) (l : list (K * V)) (k : K) (v : V) : list (K * V) :=
  take (Z.to_nat max) ((k, v) :: others k l).
Definition spec_get_stl (l : list (K * V)) (k : K) : list (K * V) * (V + unit) :=
  match list_node l k with Some v => ((k, v) :: others k l, inl v) | None => (l, inr tt) end.

Record lru_rep (c : lru_cache) (l : list (K * V)) : Prop := {
  lr_list : (_cache_items_list c).*2 = l;
  lr_keys : NoDup l.*1;
  lr_ids : NoDup (_cache_items_list c).*1;
  lr_fresh : ∀ n, n ∈ (_cache_items_list c).*1 → (n < _fresh c)%nat;
  lr_map : ∀ k i, _cache_items_map c !! k = Some i ↔ ∃ v, (i, (k, v)) ∈ _cache_items_list c
}.

Lemma lru_rep_new max : lru_rep (lru_new max) [].
Proof.
  split; cbn; try constructor; try (by intros ? ?%not_elem_of_nil).
  - by rewrite lookup_empty.
  - by intros (v & ?%not_elem_of_nil).
Qed.

(** The node of a key. *)
Lemma stl_split c l k i : lru_rep c l → _cache_items_map c !! k = Some i → ∃ v q1 q2,
  _cache_items_list c = q1 ++ (i, (k, v)) :: q2 ∧ l = q1.*2 ++ (k, v) :: q2.*2 ∧
  others k l = q1.*2 ++ q2.*2 ∧ list_node l k = Some v.
Proof.
  intros [Hl Hk Hid Hfr Hm] Ei. apply Hm in Ei as [v Hin]. apply list_elem_of_split in Hin as (q1 & q2 & E).
  exists v, q1, q2. rewrite E, fmap_app, fmap_cons in Hl. simpl in Hl. subst l. split_and!; [done|done| |].
  - by apply (filter_around q1.*2 k v q2.*2).
  - apply list_node_in; [done|]. apply elem_of_app. right. by left.
Qed.

Lemma stl_absent c l k : lru_rep c l → _cache_items_map c !! k = None →
  (k ∉ l.*1) ∧ others k l = l ∧ list_node l k = None.
Proof.
  intros [Hl Hk Hid Hfr Hm] Ei. assert (k ∉ l.*1) as Hn.
  { intros ([k' v] & Ek & Hin)%list_elem_of_fmap. simpl in Ek. subst k'. rewrite <-Hl in Hin.
    apply list_elem_of_fmap in Hin as ([i e] & Ee & Hin). simpl in Ee. subst e.
    assert (_cache_items_map c !! k = Some i) by (apply Hm; by exists v). congruence. }
  assert (∀ e, e ∈ l → e.1 ≠ k) as Hne by (intros e He <-; apply Hn; by apply list_elem_of_fmap_2).
  split_and!; [done| |].
  - clear -Hne. induction l as [|e l IH]; [done|]. unfold others. rewrite filter_cons_True by (apply Hne; by left).
    f_equal. apply IH. intros e' He'. apply Hne. by right.
  - unfold list_node. replace (list_find _ l) with (@None (nat * (K * V))); [done|]. symmetry. apply list_find_None.
    apply Forall_forall. done.
Qed.

Lemma stl_push q m max n l k v : lru_rep (mkStl q m max n) l → (k ∉ l.*1) →
  lru_rep (mkStl ((n, (k, v)) :: q) (<[k := n]> m) max (S n)) ((k, v) :: l).
Proof.
  intros [Hl Hk Hid Hfr Hm] Hn. cbn in *. split; cbn [_cache_items_list _cache_items_map _fresh];
    rewrite ?fmap_cons; simpl fst; simpl snd.
  - by rewrite Hl.
  - by constructor.
  - constructor; [|done]. intros Hin%Hfr. lia.
  - intros i [->|Hi]%elem_of_cons; [lia|]. specialize (Hfr i Hi). lia.
  - intros k' i. destruct (decide (k = k')) as [<-|Hne].
    + rewrite lookup_insert_eq. split; [intros [= <-]; exists v; by left|].
      intros (v' & [[= -> _]|Hin]%elem_of_cons); [done|]. destruct Hn. rewrite <-Hl.
      apply list_elem_of_fmap. exists (k, v'). split; [done|]. apply list_elem_of_fmap. by exists (i, (k, v')).
    + rewrite lookup_insert_ne, Hm by done. split; intros (v' & Hin); exists v'; [by right|].
      apply elem_of_cons in Hin as [[= _ ? _]|Hin]; [congruence|done].
Qed.

Lemma stl_perm q q' m max n : q ≡ₚ q' → lru_rep (mkStl q m max n) q.*2 → lru_rep (mkStl q' m max n) q'.*2.
Proof.
  intros Hp [_ Hk Hid Hfr Hm]. cbn in *. split; cbn; [done|by rewrite <-Hp..| |].
  - intros i. rewrite <-Hp. apply Hfr.
  - intros k i. rewrite Hm. by setoid_rewrite Hp.
Qed.

Lemma stl_drop q1 i k v q2 m max n : lru_rep (mkStl (q1 ++ (i, (k, v)) :: q2) m max n) (q1.*2 ++ (k, v) :: q2.*2) →
  lru_rep (mkStl (q1 ++ q2) (delete k m) max n) (q1.*2 ++ q2.*2).
Proof.
  intros Hr. assert (lru_rep (mkStl ((i, (k, v)) :: q1 ++ q2) m max n) ((i, (k, v)) :: q1 ++ q2).*2) as [_ Hk Hid Hfr Hm].
  { eapply stl_perm; [by rewrite Permutation_middle|]. by rewrite fmap_app, fmap_cons. }
  cbn in *. rewrite <-fmap_app. apply NoDup_cons in Hk as [Hk1 Hk2]. apply NoDup_cons in Hid as [Hi1 Hi2].
  split; cbn; try done.
  - intros j Hj. apply Hfr. by right.
  - intros k' j. destruct (decide (k = k')) as [<-|Hne].
    + rewrite lookup_delete_eq. split; [done|]. intros (v' & Hin). destruct Hk1.
      apply list_elem_of_fmap. exists (k, v'). split; [done|]. apply list_elem_of_fmap. by exists (j, (k, v')).
    + rewrite lookup_delete_ne, Hm by done. split; intros (v' & Hin); exists v'; [|by right].
      apply elem_of_cons in Hin as [[= _ ? _]|Hin]; [congruence|done].
Qed.

Lemma stl_size c l : lru_rep c l → size (_cache_items_map c) = length l.
Proof.
  intros [Hl Hk Hid Hfr Hm]. rewrite <-size_dom. rewrite <-(length_fmap fst l), <-(size_list_to_set (C := gset K) l.*1) by done.
  f_equal. apply set_eq. intros k. rewrite elem_of_dom, elem_of_list_to_set. split.
  - intros [i [v Hin]%Hm]. rewrite <-Hl. apply list_elem_of_fmap. exists (k, v). split; [done|].
    apply list_elem_of_fmap. by exists (i, (k, v)).
  - intros ([k' v] & -> & Hin)%list_elem_of_fmap. rewrite <-Hl in Hin.
    apply list_elem_of_fmap in Hin as ([i e] & Ee & Hin). simpl in Ee. subst e. exists i. apply Hm. by exists v.
Qed.

(** Dropping the entry at the end. *)
Lemma stl_pop q m max n l : lru_rep (mkStl q m max n) l → l ≠ [] →
  ∃ lst, last q = Some lst ∧
    lru_rep (mkStl (take (length q - 1) q) (delete lst.2.1 m) max n) (take (length l - 1) l).
Proof.
  intros Hr Hne. pose proof (lr_list _ _ Hr) as Hl. cbn [_cache_items_list] in Hl. subst l.
  destruct q as [|[i [k v]] q _] using rev_ind; [done|]. exists (i, (k, v)). rewrite last_snoc. split; [done|].
  rewrite length_fmap, length_app. cbn [length]. replace (length q + 1 - 1)%nat with (length q) by lia.
  rewrite fmap_app in *. rewrite take_app_length. rewrite <-(length_fmap snd q), take_app_length.
  pose proof (stl_drop q i k v [] m max n) as Hd. rewrite !app_nil_r in Hd. by apply Hd.
Qed.

Lemma put_refines c l k v : lru_rep c l → 0 ≤ _max_size c → Z.of_nat (length l) ≤ _max_size c →
  ∃ c', put c k v = Some c' ∧ lru_rep c' (spec_put (_max_size c) l k v) ∧ _max_size c' = _max_size c.
Proof.
  destruct c as [q m max n]. intros Hr H0 Hlen. cbn [_max_size] in *.
  assert (∃ q' m', match m !! k with
      | Some i => l ← list_erase ((n, (k, v)) :: q) i; Some (l, delete k m)
      | None => Some ((n, (k, v)) :: q, m)
      end = Some ((n, (k, v)) :: q', m') ∧ lru_rep (mkStl q' m' max n) (others k l) ∧
      (k ∉ (others k l).*1) ∧ (length (others k l) ≤ length l)%nat) as (q' & m' & Eq & Hr' & Hn & Hol).
  { destruct (m !! k) as [i|] eqn:Ei.
    - destruct (stl_split _ l k i Hr Ei) as (v0 & q1 & q2 & E & El & Eo & _). cbn in E. subst q.
      exists (q1 ++ q2), (delete k m). pose proof (lr_ids _ _ Hr) as Hid. cbn in Hid.
      assert (n ∉ (q1 ++ (i, (k, v0)) :: q2).*1) as Hnn by (intros Hin%(lr_fresh _ _ Hr); cbn in Hin; lia).
      assert (NoDup ((n, (k, v)) :: q1 ++ (i, (k, v0)) :: q2).*1) as Hnd by (rewrite fmap_cons; by constructor).
      rewrite (list_erase_in _ i (k, v0) Hnd) by (right; apply elem_of_app; right; by left). bind_simpl.
      rewrite (filter_around ((n, (k, v)) :: q1) i (k, v0) q2 Hnd). split; [done|]. rewrite Eo. subst l.
      split; [by eapply stl_drop|]. pose proof (lr_keys _ _ Hr) as Hk.
      rewrite fmap_app, fmap_cons, NoDup_app, NoDup_cons in Hk. destruct Hk as (_ & Hk1 & Hk2 & _). split.
      + rewrite fmap_app. intros [Hin|Hin]%elem_of_app; [|done]. apply (Hk1 _ Hin). by left.
      + rewrite !length_app. simpl. lia.
    - destruct (stl_absent _ l k Hr Ei) as (Hn & -> & _). by exists q, m. }
  unfold put. cbn [_cache_items_map _cache_items_list _fresh _max_size]. rewrite Eq. bind_simpl.
  pose proof (stl_push _ _ _ _ _ _ v Hr' Hn) as Hp. pose proof (stl_size _ _ Hp) as Hsz. cbn [_cache_items_map] in Hsz.
  rewrite Hsz. unfold spec_put. destruct (Z.ltb_spec max (Z.of_nat (length ((k, v) :: others k l)))) as [Hgt|Hle].
  - destruct (stl_pop _ _ _ _ _ Hp) as (lst & -> & Hpop); [done|]. bind_simpl. eexists. split; [done|]. split; [|done].
    replace (Z.to_nat max) with (length ((k, v) :: others k l) - 1)%nat by (simpl in *; lia). done.
  - eexists. split; [done|]. split; [|done]. by rewrite take_ge by lia.
Qed.

Lemma get_refines c l k : lru_rep c l →
  ∃ c', get c k = Some (c', (spec_get_stl l k).2) ∧ lru_rep c' (spec_get_stl l k).1 ∧ _max_size c' = _max_size c.
Proof.
  intros Hr. unfold get, spec_get_stl. destruct (_cache_items_map c !! k) as [i|] eqn:Ei.
  - destruct (stl_split c l k i Hr Ei) as (v & q1 & q2 & E & El & Eo & ->).
    pose proof (lr_ids _ _ Hr) as Hid. destruct c as [q m max n]. cbn [_cache_items_list _cache_items_map _fresh _max_size] in *. subst q.
    rewrite (list_splice_in _ i (k, v)) by (done || (apply elem_of_app; right; by left)).
    rewrite (filter_around q1 i (k, v) q2 Hid). bind_simpl.
    assert ((i, (k, v)) :: q1 ++ q2 ≡ₚ q1 ++ (i, (k, v)) :: q2) as Hp by apply Permutation_middle.
    rewrite (list_node_in _ i (k, v)); [|by rewrite Hp|by left]. bind_simpl. eexists. split; [done|]. split; [|done].
    rewrite Eo. assert ((k, v) :: q1.*2 ++ q2.*2 = ((i, (k, v)) :: q1 ++ q2).*2) as -> by (by rewrite fmap_cons, fmap_app).
    apply (stl_perm (q1 ++ (i, (k, v)) :: q2)); [by rewrite Hp|]. rewrite fmap_app, fmap_cons. simpl snd. by rewrite <-El.
  - destruct (stl_absent c l k Hr Ei) as (_ & _ & ->). by exists c.
Qed.

(** Programs over the cache. *)
Inductive stl_op := StlPut (k : K) (v : V) | StlGet (k : K) | StlExists (k : K).

Definition stl_step (c : lru_cache) (o : stl_op) : option (lru_cache * list (V + unit + bool)) :=
  match o with
  | StlPut k v => c ← put c k v; Some (c, [])
  | StlGet k => res ← get c k; Some (res.1, [inl res.2])
  | StlExists k => Some (c, [inr (lru_exists c k)])
  end.
Definition recency_step (max : Z) (l : list (K * V)) (o : stl_op) : list (K * V) * list (V + unit + bool) :=
  match o with
  | StlPut k v => (spec_put max l k v, [])
  | StlGet k => ((spec_get_stl l k).1, [inl (spec_get_stl l k).2])
  | StlExists k => (l, [inr (bool_decide (k ∈ l.*1))])
  end.

Fixpoint stl_run (c : lru_cache) (ops : list stl_op) : option (lru_cache * list (V + unit + bool)) :=
  match ops with
  | [] => Some (c, [])
  | o :: ops => '(c, r) ← stl_step c o; '(c, rs) ← stl_run c ops; Some (c, r ++ rs)
  end.
Fixpoint recency_run (max : Z) (l : list (K * V)) (ops : list stl_op) : list (K * V) * list (V + unit + bool) :=
  match ops with
  | [] => (l, [])
  | o :: ops => let '(l, r) := recency_step max l o in let '(l, rs) := recency_run max l ops in (l, r ++ rs)
  end.

Lemma exists_refines c l k : lru_rep c l → lru_exists c k = bool_decide (k ∈ l.*1).
Proof.
  intros Hr. unfold lru_exists. apply bool_decide_ext. destruct (_cache_items_map c !! k) as [i|] eqn:Ei.
  - destruct (stl_split c l k i Hr Ei) as (v & q1 & q2 & _ & -> & _). split; [|done]. intros _.
    rewrite fmap_app. apply elem_of_app. right. by left.
  - destruct (stl_absent c l k Hr Ei) as (Hn & _ & _). split; [done|]. by intros ?%Hn.
Qed.

Lemma others_length k l : (length (others k l) ≤ length l)%nat.
Proof. apply length_filter. Qed.

Lemma list_node_others k v l : list_node l k = Some v → (length (others k l) < length l)%nat.
Proof.
  unfold list_node. destruct (list_find _ l) as [[i e]|] eqn:E; [|done]. intros _.
  apply list_find_Some in E as (Hi & He & _). apply list_elem_of_lookup_2 in Hi.
  apply list_elem_of_split in Hi as (l1 & l2 & ->). unfold others. rewrite filter_app, filter_cons_False by tauto.
  rewrite !length_app. pose proof (others_length k l1). pose proof (others_length k l2). unfold others in *. simpl. lia.
Qed.

Lemma recency_length max l o : 0 ≤ max → Z.of_nat (length l) ≤ max →
  Z.of_nat (length (recency_step max l o).1) ≤ max.
Proof.
  intros H0 Hl. destruct o as [k v|k|k]; cbn [recency_step fst]; [|unfold spec_get_stl|done].
  - unfold spec_put. rewrite length_take. lia.
  - destruct (list_node l k) as [v|] eqn:E; [|done]. apply list_node_others in E. simpl. lia.
Qed.

Lemma stl_run_refines c l ops : lru_rep c l → 0 ≤ _max_size c → Z.of_nat (length l) ≤ _max_size c →
  ∃ c', stl_run c ops = Some (c', (recency_run (_max_size c) l ops).2) ∧
    lru_rep c' (recency_run (_max_size c) l ops).1 ∧ _max_size c' = _max_size c ∧
    Z.of_nat (length (recency_run (_max_size c) l ops).1) ≤ _max_size c.
Proof.
  revert c l. induction ops as [|o ops IH]; intros c l Hr H0 Hl; [by exists c|].
  assert (∃ c1, stl_step c o = Some (c1, (recency_step (_max_size c) l o).2) ∧
    lru_rep c1 (recency_step (_max_size c) l o).1 ∧ _max_size c1 = _max_size c) as (c1 & E1 & Hr1 & Hm1).
  { destruct o as [k v|k|k]; cbn [stl_step recency_step fst snd].
    - destruct (put_refines c l k v Hr H0 Hl) as (c1 & -> & Hr1 & Hm1). by exists c1.
    - destruct (get_refines c l k Hr) as (c1 & -> & Hr1 & Hm1). by exists c1.
    - rewrite (exists_refines c l k Hr). by exists c. }
  pose proof (recency_length (_max_size c) l o H0 Hl) as Hl1. cbn [stl_run recency_run]. rewrite E1. bind_simpl.
  destruct (recency_step (_max_size c) l o) as [l1 r]. cbn [fst snd] in *. rewrite <-Hm1 in *.
  destruct (IH c1 l1 Hr1) as (c2 & -> & Hr2 & Hm2 & Hl2); [lia|lia|]. bind_simpl.
  destruct (recency_run (_max_size c1) l1 ops) as [l2 rs]. by exists c2.
Qed.
End lru_stl.
Arguments lru_cache K V {_ _}.

(** C37 [refinement]. [lru_cache] is the list of its entries, most recently used first: for every sequence
    of calls, [put] moves or adds an entry to the front and drops what exceeds [max_size] at the end, [get]
    moves the entry to the front and returns its value, or throws when there is none, and [exists] does not
    change the order. No call uses an invalid iterator, and the size is at most [max_size]. *)
Theorem lru_stl_refines {K V : Type} `{Countable K} max (ops : list (stl_op (K := K) (V := V))) : 0 ≤ max →
  ∃ c, stl_run (lru_new max) ops = Some (c, (recency_run max [] ops).2) ∧
    (_cache_items_list c).*2 = (recency_run max [] ops).1 ∧
    lru_size c = Z.of_nat (length (recency_run max [] ops).1) ∧ lru_size c ≤ max.
Proof.
  intros H0. destruct (stl_run_refines (lru_new max) [] ops (lru_rep_new max)) as (c & E & Hr & Hm & Hl); [done|done|].
  exists c. split; [done|]. split; [by apply lr_list|]. unfold lru_size. rewrite (stl_size _ _ Hr). done.
Qed.

Lemma lru_stl_refines_witness :
  let ops := [StlPut 1 10; StlPut 2 20; StlGet 1; StlPut 3 30; StlGet 2; StlExists 1; StlPut 1 11] in
  recency_run 2 [] ops = ([(1, 11); (3, 30)], [inl (inl 10); inl (inr tt); inr true]) ∧
  ∃ c : lru_cache Z Z, stl_run (lru_new 2) ops = Some (c, (recency_run 2 [] ops).2) ∧
    (_cache_items_list c).*2 = (recency_run 2 [] ops).1 ∧
    lru_size c = Z.of_nat (length (recency_run 2 [] ops).1) ∧ lru_size c ≤ 2.
Proof. intros ops. split; [vm_compute; reflexivity|]. apply (lru_stl_refines 2 ops). lia. Defined.
