(* ===== verification/Trie.v ===== *)
(** * The trie (src/cpp-util/trie.h)

    A key is a sequence of characters, a character is a [Z] with its order, as the
    [std::map] of the children compares them.  Values have any type; a value that was
    never assigned is [None].  The reference that [insert] returns is the path of the node
    to which it refers, that is the key.  The trie refines a finite map from keys to values,
    and lists its keys in lexicographic order. *)

From stdpp Require Import sorting.
From S2P Require Import Prelude.

(** ** Lexicographic order *)

Fixpoint lexb (k l : list Z) : bool :=
  match k, l with
  | [], _ => true
  | _, [] => false
  | a :: k, b :: l => (a <? b) || ((a =? b) && lexb k l)
  end.
Definition lexle (k l : list Z) : Prop := lexb k l = true.

#[global] Instance lexle_dec : RelDecision lexle.
Proof. intros k l. unfold lexle. apply _. Defined.

Lemma lexle_cons a k b l : lexle (a :: k) (b :: l) ↔ a < b ∨ a = b ∧ lexle k l.
Proof. unfold lexle. simpl. rewrite orb_true_iff, andb_true_iff, Z.ltb_lt, Z.eqb_eq. done. Qed.

Lemma lexle_refl k : lexle k k.
Proof. induction k as [|a k IH]; [done|]. apply lexle_cons. by right. Qed.

#[global] Instance lexle_trans : Transitive lexle.
Proof.
  intros k. induction k as [|a k IH]; intros [|b l] [|c n]; try done. rewrite !lexle_cons.
  intros [?|[-> ?]] [?|[-> ?]]; [left; lia|by left|by left|right; split; [done|by apply (IH l)]].
Qed.

#[global] Instance lexle_total : Total lexle.
Proof.
  intros k. induction k as [|a k IH]; intros [|b l]; [by left|by left|by right|]. rewrite !lexle_cons.
  destruct (Z.lt_total a b) as [?|[->|?]]; [by left; left| |by right; left]. destruct (IH l); auto.
Qed.

#[global] Instance lexle_antisymm : AntiSymm (=) lexle.
Proof.
  intros k. induction k as [|a k IH]; intros [|b l]; try done. rewrite !lexle_cons.
  intros [?|[-> ?]] [?|[? ?]]; try lia. f_equal. by apply IH.
Qed.

Lemma lexle_app p k l : lexle k l → lexle (p ++ k) (p ++ l).
Proof. intros H. induction p as [|a p IH]; [done|]. apply lexle_cons. by right. Qed.

(** Strictly before. *)
Definition lexlt (k l : list Z) : Prop := lexle k l ∧ k ≠ l.

Lemma lexlt_app p k l : lexlt k l → lexlt (p ++ k) (p ++ l).
Proof. intros [? Hne]. split; [by apply lexle_app|]. by intros ?%app_inv_head. Qed.

Lemma sorted_lexlt (ks : list (list Z)) : StronglySorted lexlt ks → Sorted lexle ks ∧ NoDup ks.
Proof.
  intros Hs. split.
  - apply StronglySorted_Sorted. induction Hs as [|k ks Hs IH Hk]; constructor; [done|].
    eapply Forall_impl; [done|]. by intros l [? _].
  - induction Hs as [|k ks Hs IH Hk]; constructor; [|done]. rewrite Forall_forall in Hk. by intros [_ ?]%Hk.
Qed.

Section trie.
Context {V : Type}.
Abbreviation key := (list Z).
Implicit Types (k p : list Z) (c : Z).

(** src/cpp-util/trie.h:87-90, [Trie members]. *)
Inductive Trie :=
  | Node (prefix_ : key) (value_ : option V) (end_ : bool) (child_ : list (Z * Trie)).
Implicit Types (t : Trie) (m : list (Z * Trie)).

Definition prefix_ t : key := match t with Node p _ _ _ => p end.
Definition value_ t : option V := match t with Node _ v _ _ => v end.
Definition end_ t : bool := match t with Node _ _ e _ => e end.
Definition child_ t : list (Z * Trie) := match t with Node _ _ _ m => m end.

(** [std::map::find] and [operator[]] on the left of an assignment: a list that is sorted by
    the characters. *)
Fixpoint map_find c m : option Trie :=
  match m with
  | [] => None
  | (c', t) :: m => if c =? c' then Some t else map_find c m
  end.

Fixpoint map_set c t m : list (Z * Trie) :=
  match m with
  | [] => [(c, t)]
  | (c', t') :: m' =>
      if c <? c' then (c, t) :: m
      else if c =? c' then (c, t) :: m'
      else (c', t') :: map_set c t m'
  end.

(** src/cpp-util/trie.h:9-9, [Trie::Trie()]. *)
Definition Trie_new : Trie := Node [] None false [].

(** src/cpp-util/trie.h:86-86, [Trie::Trie(const K &pref)]. *)
Definition Trie_pref (pref : key) : Trie := Node pref None false [].

(** src/cpp-util/trie.h:10-27, [Trie::insert]. The trie afterwards; the reference is [k]. *)
Fixpoint insert k t : Trie :=
  match k with
  | [] => Node (prefix_ t) (value_ t) true (child_ t)
  | c :: k =>
      let child := match map_find c (child_ t) with
                   | Some n => n
                   | None => Trie_pref (prefix_ t ++ [c])
                   end in
      Node (prefix_ t) (value_ t) (end_ t) (map_set c (insert k child) (child_ t))
  end.

(** The node at the end of a path. *)
Fixpoint walk k t : option Trie :=
  match k with
  | [] => Some t
  | c :: k => n ← map_find c (child_ t); walk k n
  end.

(** Reading and assigning through the reference to the value at [k]. *)
Definition deref k t : option V := n ← walk k t; value_ n.

Fixpoint assign k (v : V) t : Trie :=
  match k with
  | [] => Node (prefix_ t) (Some v) (end_ t) (child_ t)
  | c :: k =>
      match map_find c (child_ t) with
      | Some n => Node (prefix_ t) (value_ t) (end_ t) (map_set c (assign k v n) (child_ t))
      | None => t
      end
  end.

(** src/cpp-util/trie.h:28-31, [Trie::operator[]]. Used as [v = t[k]] and as [t[k] = v]. *)
Definition index_get k t : option V * Trie := let t := insert k t in (deref k t, t).
Definition index_set k (v : V) t : Trie := assign k v (insert k t).

(** src/cpp-util/trie.h:32-45, [Trie::find]. *)
Fixpoint find k t : bool :=
  match k with
  | [] => end_ t
  | c :: k => match map_find c (child_ t) with None => false | Some n => find k n end
  end.

(** src/cpp-util/trie.h:46-62, [Trie::list_keys]. *)
Fixpoint list_keys t : list key :=
  match t with
  | Node pref _ e m =>
      (if e then [pref] else []) ++
      (fix loop (m : list (Z * Trie)) : list key :=
         match m with [] => [] | (_, n) :: m => list_keys n ++ loop m end) m
  end.

(** src/cpp-util/trie.h:64-67, [Trie::size]. The [size_t] of the vector is converted to [unsigned int]. *)
Definition size t : Z := u32 (Z.of_nat (length (list_keys t))).

(** src/cpp-util/trie.h:69-83, [Trie::complete]. *)
Fixpoint complete k t : list key :=
  match k with
  | [] => list_keys t
  | c :: k => match map_find c (child_ t) with None => [] | Some n => complete k n end
  end.

(** ** The map of the children *)

Definition child_keys m : list key := m ≫= λ x, list_keys x.2.

Lemma list_keys_eq p v e m : list_keys (Node p v e m) = (if e then [p] else []) ++ child_keys m.
Proof. simpl. f_equal. induction m as [|[c n] m IH]; simpl; [done|]. by rewrite IH. Qed.

Definition sorted m : Prop := StronglySorted Z.lt m.*1.

Lemma map_find_set c c' t m : map_find c' (map_set c t m) = if c' =? c then Some t else map_find c' m.
Proof.
  induction m as [|[d n] m IH]; simpl; [done|].
  destruct (Z.ltb_spec c d), (Z.eqb_spec c d); simpl; try done; repeat (case_match || lia || done);
    rewrite ?Z.eqb_eq, ?Z.eqb_neq in *; subst; congruence || lia || done.
Qed.

Lemma map_set_fst c t m d : d ∈ (map_set c t m).*1 ↔ d = c ∨ d ∈ m.*1.
Proof.
  induction m as [|[d' n] m IH]; simpl; [set_solver|].
  destruct (Z.ltb_spec c d'), (Z.eqb_spec c d'); simpl; subst; set_solver.
Qed.

Lemma map_set_sorted c t m : sorted m → sorted (map_set c t m).
Proof.
  unfold sorted. induction m as [|[d n] m IH]; intros Hs; simpl in *; [by repeat constructor|].
  apply StronglySorted_inv in Hs as [Hs Hd]. rewrite Forall_forall in Hd.
  destruct (Z.ltb_spec c d), (Z.eqb_spec c d); simpl; subst; try lia.
  - constructor; [by constructor; [|apply Forall_forall]|]. constructor; [done|]. apply Forall_forall.
    intros x Hx%Hd. lia.
  - by constructor; [|apply Forall_forall].
  - constructor; [by apply IH|]. apply Forall_forall. intros x [->|Hx]%map_set_fst; [lia|by apply Hd].
Qed.

Lemma map_find_elem c t m : sorted m → map_find c m = Some t ↔ (c, t) ∈ m.
Proof.
  unfold sorted. induction m as [|[d n] m IH]; intros Hs; simpl in *; [set_solver|].
  apply StronglySorted_inv in Hs as [Hs Hd]. rewrite Forall_forall in Hd. rewrite elem_of_cons.
  destruct (Z.eqb_spec c d) as [->|].
  - split; [intros [= ->]; by left|]. intros [[= ->]|Hin]; [done|].
    assert (d ∈ m.*1) as H%Hd by (apply list_elem_of_fmap; by exists (d, t)). lia.
  - rewrite IH by done. split; [by right|]. by intros [[= ]|?].
Qed.

(** ** Well-formed tries *)

(** Below [p]: the prefixes are the paths, the children are sorted, and only nodes of keys
    have values. *)
Inductive wf : list Z → Trie → Prop :=
  | wf_node p v e m : sorted m → (e = false → v = None) → (∀ c t, (c, t) ∈ m → wf (p ++ [c]) t) →
      wf p (Node p v e m).

Lemma wf_prefix p t : wf p t → prefix_ t = p.
Proof. by destruct 1. Qed.

Lemma wf_child p t c n : wf p t → map_find c (child_ t) = Some n → wf (p ++ [c]) n.
Proof. destruct 1 as [p v e m Hs _ Hc]. simpl. intros ?%map_find_elem; [|done]. by apply Hc. Qed.

Lemma wf_pref p : wf p (Trie_pref p).
Proof. constructor; [constructor|done|set_solver]. Qed.

(** The children after an update. *)
Lemma wf_set p v e m c n : wf p (Node p v e m) → wf (p ++ [c]) n → wf p (Node p v e (map_set c n m)).
Proof.
  inversion_clear 1 as [? ? ? ? Hs Hv Hc]. intros Hn. constructor; [by apply map_set_sorted|done|].
  intros d t Hd. apply map_find_elem in Hd; [|by apply map_set_sorted]. rewrite map_find_set in Hd.
  destruct (Z.eqb_spec d c) as [->|]; [by simplify_eq|]. apply map_find_elem in Hd; [|done]. by apply Hc.
Qed.

Lemma insert_wf k p t : wf p t → wf p (insert k t).
Proof.
  revert p t. induction k as [|c k IH]; intros p t Ht; destruct (Ht) as [p v e m Hs Hv Hc]; simpl; [by constructor|].
  apply wf_set; [done|]. apply IH. destruct (map_find c m) as [n|] eqn:E; [|apply wf_pref].
  by apply (wf_child p (Node p v e m) c n).
Qed.

Lemma assign_wf k v p t : wf p t → find k t = true → wf p (assign k v t).
Proof.
  revert p t. induction k as [|c k IH]; intros p t Ht Hf; destruct (Ht) as [p v' e m Hs Hv Hc]; simpl in *.
  { constructor; [done|congruence|done]. }
  destruct (map_find c m) as [n|] eqn:E; [|done].
  apply wf_set; [done|]. apply IH; [|done]. by apply (wf_child p (Node p v' e m) c n).
Qed.

(** ** The trie as a map *)

Lemma find_insert k k' t : find k' (insert k t) = bool_decide (k' = k) || find k' t.
Proof.
  revert k' t. induction k as [|c k IH]; intros [|c' k'] t; simpl; try done.
  rewrite map_find_set. destruct (Z.eqb_spec c' c) as [->|].
  - rewrite IH. destruct (map_find c (child_ t)) as [n|].
    + f_equal. apply bool_decide_ext. naive_solver.
    + destruct k'; simpl; rewrite ?orb_false_r; apply bool_decide_ext; naive_solver.
  - by rewrite bool_decide_eq_false_2 by congruence.
Qed.

Lemma deref_insert k k' t : deref k' (insert k t) = deref k' t.
Proof.
  unfold deref. revert k' t. induction k as [|c k IH]; intros [|c' k'] t; simpl; try done.
  rewrite map_find_set. destruct (Z.eqb_spec c' c) as [->|]; [|done].
  simpl. rewrite IH. destruct (map_find c (child_ t)) as [n|]; simpl; [done|]. by destruct k'.
Qed.

Lemma find_assign k v k' t : find k' (assign k v t) = find k' t.
Proof.
  revert k' t. induction k as [|c k IH]; intros k' t; simpl; [by destruct k'|].
  destruct (map_find c (child_ t)) as [n|] eqn:E; [|done]. destruct k' as [|c' k']; simpl; [done|].
  rewrite map_find_set. destruct (Z.eqb_spec c' c) as [->|]; [by rewrite E, IH|done].
Qed.

Lemma deref_assign k v k' t : find k t = true → deref k' (assign k v t) = if decide (k' = k) then Some v else deref k' t.
Proof.
  unfold deref. revert k' t. induction k as [|c k IH]; intros k' t Hf; simpl in *.
  { by destruct k'. }
  destruct (map_find c (child_ t)) as [n|] eqn:E; [|done].
  destruct k' as [|c' k']; [done|]. simpl walk. rewrite map_find_set.
  destruct (Z.eqb_spec c' c) as [->|].
  - simpl. rewrite IH, E by done. simpl. by destruct (decide (k' = k)), (decide (c :: k' = c :: k)); naive_solver.
  - by rewrite decide_False by congruence.
Qed.

(** Only keys have values. *)
Lemma deref_no_key k p t : wf p t → find k t = false → deref k t = None.
Proof.
  unfold deref. revert p t. induction k as [|c k IH]; intros p t Ht Hf; simpl in *.
  { destruct Ht; simpl in *; by auto. }
  destruct (map_find c (child_ t)) as [n|] eqn:E; simpl; [|done]. eapply IH; [|done]. by eapply wf_child.
Qed.

(** ** Listing *)

Lemma child_keys_elem m k : k ∈ child_keys m ↔ ∃ c n, (c, n) ∈ m ∧ k ∈ list_keys n.
Proof.
  unfold child_keys. rewrite list_elem_of_bind. split.
  - intros ([c n] & ? & ?). by exists c, n.
  - intros (c & n & ? & ?). by exists (c, n).
Qed.

Lemma list_keys_elem p t : wf p t → ∀ k, k ∈ list_keys t ↔ ∃ k', k = p ++ k' ∧ find k' t = true.
Proof.
  induction 1 as [p v e m Hs Hv Hc IH]. intros k. rewrite list_keys_eq, elem_of_app, child_keys_elem. split.
  - intros [Hk|(c & n & Hin & Hk)].
    + destruct e; [|by apply elem_of_nil in Hk]. apply list_elem_of_singleton in Hk as ->.
      exists []. by rewrite app_nil_r.
    + apply (IH c n Hin) in Hk as (k' & -> & Hf). exists (c :: k'). rewrite <-app_assoc. split; [done|].
      simpl. by rewrite (proj2 (map_find_elem c n m Hs) Hin).
  - intros ([|c k'] & -> & Hf); simpl in Hf.
    + left. rewrite Hf, app_nil_r. by apply list_elem_of_singleton.
    + right. destruct (map_find c m) as [n|] eqn:E; [|done]. apply map_find_elem in E; [|done].
      exists c, n. split; [done|]. apply (IH c n E). exists k'. by rewrite <-app_assoc.
Qed.

Lemma child_keys_sorted p m : sorted m → (∀ c n, (c, n) ∈ m → StronglySorted lexlt (list_keys n)) →
  (∀ c n k, (c, n) ∈ m → k ∈ list_keys n → ∃ k', k = p ++ c :: k') → StronglySorted lexlt (child_keys m).
Proof.
  unfold sorted. induction m as [|[c n] m IH]; intros Hs Hn Hel; [constructor|]. simpl in Hs.
  apply StronglySorted_inv in Hs as [Hs Hd]. rewrite Forall_forall in Hd.
  change (child_keys ((c, n) :: m)) with (list_keys n ++ child_keys m). apply StronglySorted_app_2.
  - intros k1 k2 Hk1 (d & n' & Hin & Hk2)%child_keys_elem.
    destruct (Hel c n k1) as [k1' ->]; [left|done|]. destruct (Hel d n' k2) as [k2' ->]; [by right|done|].
    assert (c < d) by (apply Hd, list_elem_of_fmap; by exists (d, n')).
    apply lexlt_app. split; [apply lexle_cons; by left|]. intros [= ->]. lia.
  - apply (Hn c n). left.
  - apply IH; [done|intros d n' ?; apply (Hn d); by right|]. intros d n' k ?. apply Hel. by right.
Qed.

Lemma list_keys_sorted p t : wf p t → StronglySorted lexlt (list_keys t).
Proof.
  induction 1 as [p v e m Hs Hv Hc IH]. rewrite list_keys_eq.
  assert (Hel : ∀ c n k, (c, n) ∈ m → k ∈ list_keys n → ∃ k', k = p ++ c :: k').
  { intros c n k Hin (k' & -> & _)%(list_keys_elem _ _ (Hc c n Hin)). exists k'. by rewrite <-app_assoc. }
  apply StronglySorted_app_2.
  - intros k1 k2 Hk1 (c & n & Hin & Hk2)%child_keys_elem. destruct e; [|by apply elem_of_nil in Hk1].
    apply list_elem_of_singleton in Hk1 as ->. destruct (Hel _ _ _ Hin Hk2) as [k' ->].
    rewrite <-(app_nil_r p) at 1. by apply lexlt_app.
  - destruct e; repeat constructor.
  - by apply (child_keys_sorted p).
Qed.

Lemma complete_walk k t : complete k t = match walk k t with Some n => list_keys n | None => [] end.
Proof. revert t. induction k as [|c k IH]; intros t; simpl; [done|]. by destruct (map_find c (child_ t)). Qed.

Lemma walk_wf k p t n : wf p t → walk k t = Some n → wf (p ++ k) n.
Proof.
  revert p t. induction k as [|c k IH]; intros p t Ht E; simpl in E; [simplify_eq; by rewrite app_nil_r|].
  destruct (map_find c (child_ t)) as [n'|] eqn:E'; simpl in E; [|done].
  rewrite (app_assoc p [c] k : p ++ c :: k = _). eapply IH; [|done]. by eapply wf_child.
Qed.

Lemma find_walk k l t : find (k ++ l) t = match walk k t with Some n => find l n | None => false end.
Proof. revert t. induction k as [|c k IH]; intros t; simpl; [done|]. by destruct (map_find c (child_ t)). Qed.

(** The keys that [complete] lists. *)
Lemma complete_spec k t : wf [] t → StronglySorted lexlt (complete k t) ∧
  ∀ l, l ∈ complete k t ↔ k `prefix_of` l ∧ find l t = true.
Proof.
  intros Ht. rewrite complete_walk. destruct (walk k t) as [n|] eqn:E.
  - pose proof (walk_wf _ _ _ _ Ht E) as Hn. simpl in Hn. split; [by eapply list_keys_sorted|].
    intros l. rewrite (list_keys_elem _ _ Hn). split.
    + intros (l' & -> & Hf). split; [by apply prefix_app_r|]. by rewrite find_walk, E.
    + intros [[l' ->] Hf]. exists l'. split; [done|]. by rewrite find_walk, E in Hf.
  - split; [constructor|]. intros l. split; [by intros ?%elem_of_nil|].
    intros [[l' ->] Hf]. by rewrite find_walk, E in Hf.
Qed.

(** ** Refinement *)

(** The calls of a client and what it sees. *)
Inductive call :=
  | CInsert k
  | CGet k
  | CSet k (v : V)
  | CFind k
  | CList
  | CSize
  | CComplete k.
Inductive answer :=
  | AVoid
  | AValue (v : option V)
  | ABool (b : bool)
  | ASize (n : Z)
  | AKeys (ks : list (list Z)).

Definition trie_call (x : call) t : answer * Trie :=
  match x with
  | CInsert k => (AVoid, insert k t)
  | CGet k => let '(v, t) := index_get k t in (AValue v, t)
  | CSet k v => (AVoid, index_set k v t)
  | CFind k => (ABool (find k t), t)
  | CList => (AKeys (list_keys t), t)
  | CSize => (ASize (size t), t)
  | CComplete k => (AKeys (complete k t), t)
  end.

(** The specification: a finite map from the keys to their values, listed in order. *)
Definition in_order (X : gset (list Z)) : list (list Z) := merge_sort lexle (elements X).

Definition map_call (x : call) (M : gmap (list Z) (option V)) : answer * gmap (list Z) (option V) :=
  match x with
  | CInsert k => (AVoid, <[k := mjoin (M !! k)]> M)
  | CGet k => (AValue (mjoin (M !! k)), <[k := mjoin (M !! k)]> M)
  | CSet k v => (AVoid, <[k := Some v]> M)
  | CFind k => (ABool (bool_decide (k ∈ dom M)), M)
  | CList => (AKeys (in_order (dom M)), M)
  | CSize => (ASize (u32 (Z.of_nat (base.size M))), M)
  | CComplete k => (AKeys (in_order (filter (λ l, k `prefix_of` l) (dom M))), M)
  end.

Fixpoint run {S} (step : call → S → answer * S) (xs : list call) (s : S) : list answer :=
  match xs with
  | [] => []
  | x :: xs => let '(a, s) := step x s in a :: run step xs s
  end.

Record refines t (M : gmap (list Z) (option V)) : Prop := {
  ref_wf : wf [] t;
  ref_find k : find k t = bool_decide (k ∈ dom M);
  ref_value k : deref k t = mjoin (M !! k)
}.

Lemma in_order_unique ks X : StronglySorted lexlt ks → (∀ k, k ∈ ks ↔ k ∈ X) → ks = in_order X.
Proof.
  intros [Hs Hn]%sorted_lexlt He. apply (Sorted_unique lexle); [done|by apply Sorted_merge_sort, _|].
  unfold in_order. rewrite merge_sort_Permutation. apply NoDup_Permutation; [done|apply NoDup_elements|].
  intros k. by rewrite He, elem_of_elements.
Qed.

Lemma refines_list t M : refines t M → list_keys t = in_order (dom M).
Proof.
  intros [Hw Hf _]. apply in_order_unique; [by eapply list_keys_sorted|]. intros k.
  rewrite (list_keys_elem _ _ Hw). simpl. rewrite <-(bool_decide_eq_true (k ∈ dom M)), <-Hf. naive_solver.
Qed.

Lemma refines_insert k t M : refines t M → refines (insert k t) (<[k := mjoin (M !! k)]> M).
Proof.
  intros [Hw Hf Hv]. split; [by apply insert_wf| |].
  - intros k'. rewrite find_insert, Hf, dom_insert_L. destruct (decide (k' = k)) as [->|Hne].
    + rewrite (bool_decide_eq_true_2 (k = k)) by done. symmetry. apply bool_decide_eq_true_2. set_solver.
    + rewrite (bool_decide_eq_false_2 (k' = k)) by done. apply bool_decide_ext. set_solver.
  - intros k'. rewrite deref_insert, Hv. destruct (decide (k' = k)) as [->|Hne].
    + by rewrite lookup_insert_eq.
    + by rewrite lookup_insert_ne.
Qed.

Lemma refines_assign k v t M : refines t M → k ∈ dom M → refines (assign k v t) (<[k := Some v]> M).
Proof.
  intros [Hw Hf Hv] Hk. assert (Hkf : find k t = true) by (by rewrite Hf, bool_decide_eq_true_2). split; [by apply assign_wf| |].
  - intros k'. rewrite find_assign, Hf. apply bool_decide_ext. set_solver.
  - intros k'. rewrite deref_assign, Hv by done. case_decide; [subst; by rewrite lookup_insert_eq|by rewrite lookup_insert_ne].
Qed.

Lemma refines_call x t M : refines t M →
  (trie_call x t).1 = (map_call x M).1 ∧ refines (trie_call x t).2 (map_call x M).2.
Proof.
  intros HR. destruct x as [k|k|k v|k| | |k]; simpl; (split; [|try done]).
  - done.
  - by apply refines_insert.
  - f_equal. rewrite (ref_value _ _ (refines_insert k _ _ HR)). by rewrite lookup_insert_eq.
  - by apply refines_insert.
  - done.
  - rewrite <-(insert_insert_eq M k (Some v) (mjoin (M !! k))). apply refines_assign; [by apply refines_insert|set_solver].
  - f_equal. apply HR.
  - f_equal. by apply refines_list.
  - unfold size. do 2 f_equal. rewrite (refines_list _ _ HR). unfold in_order. rewrite merge_sort_Permutation.
    by rewrite <-size_dom.
  - f_equal. destruct (complete_spec k t (ref_wf _ _ HR)) as [Hs He]. apply in_order_unique; [done|].
    intros l. rewrite He, elem_of_filter, (ref_find _ _ HR), bool_decide_eq_true. done.
Qed.

(** C11 [refinement]. The trie behaves as a finite map: for every sequence of calls of [insert],
    [operator[]] (reading and assigning), [find], [list_keys], [size] and [complete] on a new
    trie, the answers are those of a map from the inserted keys to the values last assigned.
    [size], an [unsigned int], is the number of keys modulo [2^32].
    [list_keys] and [complete] list each key once, in lexicographic order. *)
Theorem trie_refines_map (xs : list call) : run trie_call xs Trie_new = run map_call xs ∅.
Proof.
  assert (H : ∀ xs t M, refines t M → run trie_call xs t = run map_call xs M).
  { clear xs. induction xs as [|x xs IH]; intros t M HR; [done|]. cbn [run].
    destruct (refines_call x t M HR) as [Ha HR']. destruct (trie_call x t), (map_call x M). simpl in *.
    subst. f_equal. by apply IH. }
  apply H. split; [apply wf_pref|by intros []|by intros []].
Qed.
End trie.
