(* ===== verification/CasTable.v ===== *)
(** * The hash table with compare-and-swap insertion (src/cpp-util/cas_hashtable.h)

    Threads share the array of list heads and the buckets, which live at addresses of a heap;
    the null pointer is 0.  Every access to shared memory is a step of a thread, and the
    threads take steps in any order.  The hash function of the xxHash library is a parameter,
    and the address of a new bucket is any address that is not in use, as the arena of each
    thread promises.  The table is linearizable: an insertion takes effect when its
    compare-and-swap succeeds, a lookup when it reads the head of its list. *)

From S2P Require Import Prelude.

Section table.
Context (XXH3_64bits : Z → Z).

(** src/cpp-util/cas_hashtable.h:15-21, [Bucket]. *)
Record Bucket := mkBucket { key : Z; value : Z; next_bucket : Z }.

(** src/cpp-util/cas_hashtable.h:73-76, [HashTable members]. *)
Record HashTable := mkTable {
  capacity_ : Z;
  size_ : Z;
  list_ : list Z;
  heap_ : gmap Z Bucket
}.

Definition set_list T l : HashTable := mkTable (capacity_ T) (size_ T) l (heap_ T).
Definition set_heap T H : HashTable := mkTable (capacity_ T) (size_ T) (list_ T) H.

(** src/cpp-util/commom.h:23-30, [nextPowerOf2]. *)
Definition nextPowerOf2 (x : Z) : Z :=
  let x := Z.lor x (x ≫ 1) in
  let x := Z.lor x (x ≫ 2) in
  let x := Z.lor x (x ≫ 4) in
  let x := Z.lor x (x ≫ 8) in
  let x := Z.lor x (x ≫ 16) in
  u32 (x + 1).

(** src/cpp-util/cas_hashtable.h:31-35, [HashTable::HashTable]. *)
Definition HashTable_new (capacity : Z) : HashTable :=
  let cap := nextPowerOf2 capacity in
  mkTable cap 0 (replicate (Z.to_nat cap) 0) ∅.

(** [bucket_no = hash & (capacity_ - 1)]. *)
Definition bucket_no T (k : Z) : Z := u32 (Z.land (XXH3_64bits k) (u32 (capacity_ T - 1))).

(** The points at which a thread can be in [Put] and [Get]. *)
Inductive pc :=
  | Idle
  | PutNew (k v : Z)
  | PutHead (k v newbucket : Z)
  | PutNext (k v newbucket old_head : Z)
  | PutCas (k v newbucket old_head : Z)
  | PutDone (k v newbucket : Z)
  | GetHead (k : Z)
  | GetKey (k p : Z)
  | GetNext (k p : Z)
  | GetValue (k p : Z)
  | GetDone (k : Z) (r : option Z).

(** src/cpp-util/cas_hashtable.h:40-54, [HashTable::Put]. [fresh] is the address of the new
    bucket. *)
Definition put_step T (fresh : Z) (c : pc) : option (HashTable * pc) :=
  match c with
  | PutNew k v =>
      if (fresh =? 0) || bool_decide (is_Some (heap_ T !! fresh)) then None
      else Some (set_heap T (<[fresh := mkBucket k v 0]> (heap_ T)), PutHead k v fresh)
  | PutHead k v nb => old ← aget (list_ T) (bucket_no T k); Some (T, PutNext k v nb old)
  | PutNext k v nb old =>
      nx ← aget (list_ T) (bucket_no T k);
      b ← heap_ T !! nb;
      Some (set_heap T (<[nb := mkBucket (key b) (value b) nx]> (heap_ T)), PutCas k v nb old)
  | PutCas k v nb old =>
      cur ← aget (list_ T) (bucket_no T k);
      if cur =? old then
        l ← aset (list_ T) (bucket_no T k) nb; Some (set_list T l, PutDone k v nb)
      else Some (T, PutHead k v nb)
  | _ => None
  end.

(** src/cpp-util/cas_hashtable.h:56-69, [HashTable::Get]. *)
Definition get_step T (c : pc) : option (HashTable * pc) :=
  match c with
  | GetHead k => p ← aget (list_ T) (bucket_no T k); Some (T, GetKey k p)
  | GetKey k p =>
      if p =? 0 then Some (T, GetDone k None)
      else b ← heap_ T !! p; Some (T, if key b =? k then GetValue k p else GetNext k p)
  | GetNext k p => b ← heap_ T !! p; Some (T, GetKey k (next_bucket b))
  | GetValue k p => b ← heap_ T !! p; Some (T, GetDone k (Some (value b)))
  | _ => None
  end.

(** src/cpp-util/cas_hashtable.h:71-71, [HashTable::Size]. *)
Definition Size T : Z := size_ T.

(** ** The capacity *)

(** The bits of [y] below bit [j] are set from bit [j - w + 1] on. *)
Definition smeared (j w y : Z) : Prop :=
  0 ≤ y ∧ (∀ i, j < i → Z.testbit y i = false) ∧ ∀ i, 0 ≤ i → j - w < i ≤ j → Z.testbit y i = true.

Lemma smear_step j w w' y : 0 ≤ w → w' = 2 * w → smeared j w y → smeared j w' (Z.lor y (y ≫ w)).
Proof.
  intros Hw -> (H0 & Hhi & Hlo). split_and!.
  - apply Z.lor_nonneg. split; [done|]. by apply Z.shiftr_nonneg.
  - intros i Hi. destruct (decide (0 ≤ i)); [|apply Z.testbit_neg_r; lia].
    rewrite Z.lor_spec, Z.shiftr_spec by lia. by rewrite !Hhi by lia.
  - intros i Hi0 Hi. rewrite Z.lor_spec, Z.shiftr_spec by lia. destruct (decide (j - w < i)).
    + by rewrite Hlo by lia.
    + by rewrite (Hlo (i + w)), orb_true_r by lia.
Qed.

Lemma smeared_ones j y : 0 ≤ j < 32 → smeared j 32 y → y = Z.ones (j + 1).
Proof.
  intros Hj (H0 & Hhi & Hlo). apply Z.bits_inj'. intros i Hi. destruct (decide (i ≤ j)).
  - rewrite Hlo, Z.ones_spec_low by lia. done.
  - rewrite Hhi, Z.ones_spec_high by lia. done.
Qed.

Lemma nextPowerOf2_spec x : 0 ≤ x < 2 ^ 31 → ∃ m, 0 ≤ m ≤ 31 ∧ nextPowerOf2 x = 2 ^ m ∧ x < 2 ^ m.
Proof.
  intros Hx. destruct (decide (x = 0)) as [->|Hnz]; [by exists 0|].
  set (j := Z.log2 x). assert (Hj : 2 ^ j ≤ x < 2 ^ (j + 1)) by (apply Z.log2_spec; lia).
  assert (0 ≤ j < 31) by (split; [apply Z.log2_nonneg|apply Z.log2_lt_pow2; lia]).
  assert (H1 : smeared j 1 x).
  { split_and!; [lia|intros i Hi; apply Z.bits_above_log2; lia|].
    intros i Hi0 Hi. assert (i = j) as -> by lia. apply Z.bit_log2. lia. }
  exists (j + 1). split; [lia|]. split; [|lia]. unfold nextPowerOf2. cbv zeta.
  apply (smear_step j 1 2) in H1; [|lia..]. apply (smear_step j 2 4) in H1; [|lia..].
  apply (smear_step j 4 8) in H1; [|lia..]. apply (smear_step j 8 16) in H1; [|lia..].
  apply (smear_step j 16 32) in H1; [|lia..]. apply smeared_ones in H1; [|lia]. rewrite H1.
  rewrite Z.ones_equiv. pose proof (Z.pow_le_mono_r 2 (j + 1) 31 ltac:(lia) ltac:(lia)).
  replace (Z.pred (2 ^ (j + 1)) + 1) with (2 ^ (j + 1)) by lia. apply uwrap_small. lia.
Qed.

(** ** Threads *)

Record sys := mkSys { table : HashTable; threads : list pc }.

(** A thread between two calls begins one; a thread in a call takes a step. *)
Inductive event :=
  | BeginPut (i : nat) (k v : Z)
  | BeginGet (i : nat) (k : Z)
  | Run (i : nat) (fresh : Z).

Definition between (c : pc) : bool := match c with Idle | PutDone _ _ _ | GetDone _ _ => true | _ => false end.

Definition run_step T (fresh : Z) (c : pc) : option (HashTable * pc) :=
  match c with
  | PutNew _ _ | PutHead _ _ _ | PutNext _ _ _ _ | PutCas _ _ _ _ => put_step T fresh c
  | _ => get_step T c
  end.

Definition step (s : sys) (e : event) : option sys :=
  match e with
  | BeginPut i k v =>
      c ← threads s !! i; if between c then Some (mkSys (table s) (<[i := PutNew k v]> (threads s))) else None
  | BeginGet i k =>
      c ← threads s !! i; if between c then Some (mkSys (table s) (<[i := GetHead k]> (threads s))) else None
  | Run i fresh =>
      c ← threads s !! i; x ← run_step (table s) fresh c; Some (mkSys x.1 (<[i := x.2]> (threads s)))
  end.

(** The history: the insertions, by bucket, key and value, in the order in which their
    compare-and-swap succeeded, and for every thread how many there were when its call began. *)
Abbreviation entry := (Z * (Z * Z))%type.
Record hist := mkHist { log : list entry; begins : list nat }.

Definition hist_step (s : sys) (e : event) (h : hist) : hist :=
  match e with
  | BeginPut i _ _ | BeginGet i _ => mkHist (log h) (<[i := length (log h)]> (begins h))
  | Run i _ =>
      match threads s !! i with
      | Some (PutCas k v nb old) =>
          if bool_decide (aget (list_ (table s)) (bucket_no (table s) k) = Some old)
          then mkHist (log h ++ [(nb, (k, v))]) (begins h) else h
      | _ => h
      end
  end.

Inductive reach (capacity : Z) (n : nat) : sys → hist → Prop :=
  | reach_start : reach capacity n (mkSys (HashTable_new capacity) (replicate n Idle)) (mkHist [] (replicate n 0%nat))
  | reach_step s h e s' : reach capacity n s h → step s e = Some s' → reach capacity n s' (hist_step s e h).

(** The value that a sequence of insertions leaves at a key. *)
Definition latest (k : Z) (l : list entry) : option Z :=
  match filter (λ e : entry, e.2.1 = k) (reverse l) with e :: _ => Some e.2.2 | [] => None end.

(** ** The lists *)

Section lists.
Context (bno : Z → Z).

(** The insertions into list [b], the last one first. *)
Definition content (b : Z) (l : list entry) : list entry := filter (λ e : entry, bno e.2.1 = b) (reverse l).
Definition head_of (l : list entry) : Z := match l with e :: _ => e.1 | [] => 0 end.

Fixpoint chain (H : gmap Z Bucket) (p : Z) (l : list entry) : Prop :=
  match l with
  | [] => p = 0
  | e :: l => p = e.1 ∧ p ≠ 0 ∧ ∃ nx, H !! p = Some (mkBucket e.2.1 e.2.2 nx) ∧ chain H nx l
  end.

Lemma list_chain_head H p l : chain H p l → head_of l = p.
Proof. by destruct l as [|e l]; simpl; [|intros (? & _)]. Qed.

Lemma list_chain_frame H H' p l : (∀ a, a ∈ l.*1 → H' !! a = H !! a) → chain H p l → chain H' p l.
Proof.
  revert p. induction l as [|e l IH]; intros p HH; simpl; [done|].
  intros (-> & ? & nx & Hp & Hc). split; [done|]. split; [done|]. exists nx. rewrite HH by left. split; [done|].
  apply IH; [|done]. intros a Ha. apply HH. by right.
Qed.

Lemma content_app b l l' : content b (l ++ l') = content b l' ++ content b l.
Proof. unfold content. by rewrite reverse_app, filter_app. Qed.

Lemma content_one b e : content b [e] = if decide (bno e.2.1 = b) then [e] else [].
Proof. unfold content. simpl. rewrite reverse_singleton, filter_cons. by case_decide. Qed.

Lemma content_elem b l e : e ∈ content b l → e ∈ l.
Proof. unfold content. rewrite list_elem_of_filter, elem_of_reverse. naive_solver. Qed.

Lemma content_take b l n : ∃ D, content b l = D ++ content b (take n l) ∧ D = content b (drop n l).
Proof. exists (content b (drop n l)). by rewrite <-content_app, take_drop. Qed.

(** The head of a list tells all of it: addresses do not come twice. *)
Lemma head_stable b l n : NoDup l.*1 → (∀ a, a ∈ l.*1 → a ≠ 0) →
  head_of (content b (take n l)) = head_of (content b l) → content b (drop n l) = [].
Proof.
  intros Hnd Hnz. destruct (content_take b l n) as (D & E & ED). rewrite <-ED, E.
  destruct D as [|e D]; [done|]. simpl. intros Hh. exfalso.
  assert (He : e ∈ drop n l) by (apply (content_elem b); rewrite <-ED; left).
  destruct (content b (take n l)) as [|e' l'] eqn:Et; simpl in Hh.
  - apply (Hnz e.1); [|done]. apply list_elem_of_fmap_2. rewrite <-(take_drop n l). apply elem_of_app. by right.
  - assert (He' : e' ∈ take n l) by (apply (content_elem b); rewrite Et; left).
    rewrite <-(take_drop n l), fmap_app in Hnd. apply NoDup_app in Hnd as (_ & Hd & _).
    apply (Hd e'.1); [by apply list_elem_of_fmap_2|]. rewrite Hh. by apply list_elem_of_fmap_2.
Qed.

Lemma head_between b l n n' : NoDup l.*1 → (∀ a, a ∈ l.*1 → a ≠ 0) → (n ≤ n')%nat →
  head_of (content b (take n l)) = head_of (content b l) → content b (take n' l) = content b l.
Proof.
  intros Hnd Hnz Hn Hh. apply head_stable in Hh; [|done..].
  assert (Hd : content b (drop n' l) = []).
  { replace n' with (n + (n' - n))%nat in * by lia. rewrite <-drop_drop.
    rewrite <-(take_drop (n' - n) (drop n l)), content_app in Hh. by apply app_eq_nil in Hh as [? _]. }
  destruct (content_take b l n') as (D & -> & ->). by rewrite Hd.
Qed.

Lemma latest_content k l : latest k l =
  match filter (λ e : entry, e.2.1 = k) (content (bno k) l) with e :: _ => Some e.2.2 | [] => None end.
Proof.
  unfold latest, content. rewrite list_filter_filter.
  by rewrite (list_filter_iff (λ e : entry, e.2.1 = k) (λ e : entry, e.2.1 = k ∧ bno e.2.1 = bno k)) by naive_solver.
Qed.
End lists.

(** ** The invariant *)

Section inv.
Context (cap m : Z) (Hcap : cap = 2 ^ m) (Hm : 0 ≤ m ≤ 31).

Definition bno (k : Z) : Z := Z.land (XXH3_64bits k) (cap - 1).

(** The bucket that a thread has not published yet. *)
Definition own (c : pc) : option entry :=
  match c with
  | PutHead k v nb | PutNext k v nb _ | PutCas k v nb _ => Some (nb, (k, v))
  | _ => None
  end.

(** What a thread knows of a list after [n] insertions, at most as old as its call. *)
Definition seen (l : list entry) (n0 n : nat) : Prop := (n0 ≤ n ≤ length l)%nat.

(** A lookup of [k] that has passed [pre] and has [suf] ahead. *)
Definition walking (l : list entry) (n0 : nat) (k : Z) (suf : list entry) : Prop :=
  ∃ n pre, seen l n0 n ∧ content bno (bno k) (take n l) = pre ++ suf ∧ Forall (λ e : entry, e.2.1 ≠ k) pre.

Definition tinv (H : gmap Z Bucket) (l : list entry) (n0 : nat) (c : pc) : Prop :=
  match c with
  | Idle | PutNew _ _ | PutHead _ _ _ | GetHead _ => True
  | PutNext k v nb old => ∃ n, seen l n0 n ∧ old = head_of (content bno (bno k) (take n l))
  | PutCas k v nb old =>
      ∃ n n', seen l n0 n ∧ seen l n n' ∧ old = head_of (content bno (bno k) (take n l)) ∧
        H !! nb = Some (mkBucket k v (head_of (content bno (bno k) (take n' l))))
  | PutDone k v nb => ∃ j, (n0 ≤ j)%nat ∧ l !! j = Some (nb, (k, v))
  | GetKey k p => ∃ suf, walking l n0 k suf ∧ chain H p suf
  | GetNext k p => ∃ e suf, walking l n0 k (e :: suf) ∧ chain H p (e :: suf) ∧ e.2.1 ≠ k
  | GetValue k p => ∃ e suf, walking l n0 k (e :: suf) ∧ chain H p (e :: suf) ∧ e.2.1 = k
  | GetDone k r => ∃ n, seen l n0 n ∧ r = latest k (take n l)
  end.

Record inv (s : sys) (h : hist) : Prop := {
  iv_cap : capacity_ (table s) = cap;
  iv_len : Z.of_nat (length (list_ (table s))) = cap;
  iv_list b : 0 ≤ b < cap → ∃ p, aget (list_ (table s)) b = Some p ∧ chain (heap_ (table s)) p (content bno b (log h));
  iv_nodup : NoDup (log h).*1;
  iv_addr a : a ∈ (log h).*1 → a ≠ 0 ∧ is_Some (heap_ (table s) !! a);
  iv_own i c e : threads s !! i = Some c → own c = Some e → (e.1 ∉ (log h).*1) ∧ e.1 ≠ 0 ∧
    ∃ nx, heap_ (table s) !! e.1 = Some (mkBucket e.2.1 e.2.2 nx);
  iv_sep i j c d e f : threads s !! i = Some c → threads s !! j = Some d → own c = Some e → own d = Some f →
    e.1 = f.1 → i = j;
  iv_begins : length (begins h) = length (threads s);
  iv_thread i c n0 : threads s !! i = Some c → begins h !! i = Some n0 → (n0 ≤ length (log h))%nat ∧
    tinv (heap_ (table s)) (log h) n0 c
}.

Lemma bno_range k : 0 ≤ bno k < cap.
Proof using Hcap Hm.
  unfold bno. rewrite Hcap. replace (2 ^ m - 1) with (Z.ones m) by (rewrite Z.ones_equiv; lia).
  rewrite Z.land_ones by lia. apply Z.mod_pos_bound. lia.
Qed.

Lemma bucket_no_bno T k : capacity_ T = cap → bucket_no T k = bno k.
Proof using Hcap Hm.
  intros E. unfold bucket_no. rewrite E. pose proof (Z.pow_le_mono_r 2 m 31 ltac:(lia) ltac:(lia)).
  rewrite (uwrap_small 32 (cap - 1)) by lia. fold (bno k). pose proof (bno_range k). apply uwrap_small. lia.
Qed.

Lemma seen_mono l l' n0 n : l `prefix_of` l' → seen l n0 n → seen l' n0 n ∧ take n l' = take n l.
Proof.
  intros [d ->] [? ?]. unfold seen. rewrite length_app. split; [lia|]. by rewrite take_app_le by lia.
Qed.

Lemma walking_mono l l' n0 k suf : l `prefix_of` l' → walking l n0 k suf → walking l' n0 k suf.
Proof.
  intros Hp (n & pre & Hn & E & Hpre). destruct (seen_mono _ _ _ _ Hp Hn) as [? Et].
  exists n, pre. by rewrite Et.
Qed.

Lemma walking_addr l n0 k suf e : walking l n0 k suf → e ∈ suf → e ∈ l.
Proof.
  intros (n & pre & _ & E & _) He. assert (Hc : e ∈ content bno (bno k) (take n l)) by (rewrite E; apply elem_of_app; by right).
  apply content_elem in Hc. by apply (subseteq_take n l).
Qed.

Lemma walking_frame H H' l l' n0 k p suf : l `prefix_of` l' → (∀ a, a ∈ l.*1 → H' !! a = H !! a) →
  walking l n0 k suf → chain H p suf → walking l' n0 k suf ∧ chain H' p suf.
Proof.
  intros Hp HH Hw Hc. split; [by eapply walking_mono|]. eapply list_chain_frame; [|done].
  intros a (e & -> & He)%list_elem_of_fmap. apply HH, list_elem_of_fmap_2. by eapply walking_addr.
Qed.

Lemma tinv_frame H H' l l' n0 c : l `prefix_of` l' → (∀ a, a ∈ l.*1 → H' !! a = H !! a) →
  (∀ e, own c = Some e → H' !! e.1 = H !! e.1) → tinv H l n0 c → tinv H' l' n0 c.
Proof.
  intros Hp HH Ho. destruct c as [|k v|k v nb|k v nb old|k v nb old|k v nb|k|k p|k p|k p|k r]; simpl; try done.
  - intros (n & Hn & ->). destruct (seen_mono _ _ _ _ Hp Hn) as [? Et]. exists n. by rewrite Et.
  - intros (n & n' & Hn & Hn' & -> & Hb). destruct (seen_mono _ _ _ _ Hp Hn) as [? Et], (seen_mono _ _ _ _ Hp Hn') as [? Et'].
    exists n, n'. rewrite Et, Et'. split_and!; [done..|]. rewrite <-Hb. apply (Ho (nb, (k, v))). done.
  - intros (j & Hj & E). exists j. split; [done|]. by eapply prefix_lookup_Some.
  - intros (suf & Hw & Hc). exists suf. by eapply walking_frame.
  - intros (e & suf & Hw & Hc & ?). exists e, suf. destruct (walking_frame H H' l l' n0 k p (e :: suf)) as [? ?]; try done.
  - intros (e & suf & Hw & Hc & ?). exists e, suf. destruct (walking_frame H H' l l' n0 k p (e :: suf)) as [? ?]; try done.
  - intros (n & Hn & ->). destruct (seen_mono _ _ _ _ Hp Hn) as [? Et]. exists n. by rewrite Et.
Qed.

(** One thread moves from [c] to [c']; it may write its own bucket and publish it. *)
Record moves s h (i : nat) (c c' : pc) T' l' : Prop := {
  mv_cap : capacity_ T' = cap;
  mv_len : length (list_ T') = length (list_ (table s));
  mv_list b : 0 ≤ b < cap → ∃ p, aget (list_ T') b = Some p ∧ chain (heap_ T') p (content bno b l');
  mv_log : log h `prefix_of` l';
  mv_heap a : is_Some (heap_ (table s) !! a) → (∀ e, own c = Some e → e.1 ≠ a) → heap_ T' !! a = heap_ (table s) !! a;
  mv_nodup : NoDup l'.*1;
  mv_addr a : a ∈ l'.*1 → a ∈ (log h).*1 ∨ ∃ e, own c = Some e ∧ e.1 = a ∧ is_Some (heap_ T' !! a);
  mv_own e : own c' = Some e → (e.1 ∉ l'.*1) ∧ e.1 ≠ 0 ∧ (∃ nx, heap_ T' !! e.1 = Some (mkBucket e.2.1 e.2.2 nx)) ∧
    (own c = Some e ∨ heap_ (table s) !! e.1 = None);
  mv_thread n0 : begins h !! i = Some n0 → tinv (heap_ T') l' n0 c'
}.

Lemma inv_moves s h i c c' T' l' : inv s h → threads s !! i = Some c → moves s h i c c' T' l' →
  inv (mkSys T' (<[i := c']> (threads s))) (mkHist l' (begins h)).
Proof.
  intros HI Hi HM.
  assert (Hframe : ∀ a, a ∈ (log h).*1 → heap_ T' !! a = heap_ (table s) !! a).
  { intros a Ha. apply (mv_heap _ _ _ _ _ _ _ HM); [by apply (iv_addr _ _ HI)|].
    intros e He <-. by destruct (iv_own _ _ HI i c e Hi He) as [? _]. }
  assert (Hother : ∀ j d f, j ≠ i → threads s !! j = Some d → own d = Some f → heap_ T' !! f.1 = heap_ (table s) !! f.1).
  { intros j d f Hne Hj Hf. destruct (iv_own _ _ HI j d f Hj Hf) as (_ & _ & nx & E).
    apply (mv_heap _ _ _ _ _ _ _ HM); [by rewrite E|]. intros e He Hef. apply Hne. symmetry.
    by apply (iv_sep _ _ HI i j c d e f). }
  split; simpl.
  - apply HM.
  - rewrite (mv_len _ _ _ _ _ _ _ HM). apply (iv_len _ _ HI).
  - apply HM.
  - apply HM.
  - intros a [Ha|(e & He & <- & Hs)]%(mv_addr _ _ _ _ _ _ _ HM).
    + rewrite Hframe by done. by apply (iv_addr _ _ HI).
    + split; [|done]. by destruct (iv_own _ _ HI i c e Hi He) as (_ & ? & _).
  - intros j d f Hj Hf. apply list_lookup_insert_Some in Hj as [(<- & <- & _)|[Hne Hj]].
    { destruct (mv_own _ _ _ _ _ _ _ HM f Hf) as (? & ? & ? & _). done. }
    destruct (iv_own _ _ HI j d f Hj Hf) as (Hnl & H0 & nx & E). split; [|split; [done|]].
    + intros [Ha|(e & He & Hef & _)]%(mv_addr _ _ _ _ _ _ _ HM); [done|]. apply Hne. by apply (iv_sep _ _ HI i j c d e f).
    + exists nx. by rewrite (Hother j d f) by done.
  - assert (Hnew : ∀ j d e f, j ≠ i → threads s !! j = Some d → own c' = Some e → own d = Some f → e.1 ≠ f.1).
    { intros j d e f Hne Hj He Hf Hef. destruct (mv_own _ _ _ _ _ _ _ HM e He) as (_ & _ & _ & [Hc|Hn]).
      - apply Hne. symmetry. by apply (iv_sep _ _ HI i j c d e f).
      - destruct (iv_own _ _ HI j d f Hj Hf) as (_ & _ & nx & E). congruence. }
    intros j1 j2 d1 d2 e f H1 H2 He Hf Hef.
    apply list_lookup_insert_Some in H1 as [(<- & <- & _)|[Hne1 H1]]; apply list_lookup_insert_Some in H2 as [(E2 & E2' & _)|[Hne2 H2]]; subst;
      [done|by destruct (Hnew j2 d2 e f)|by destruct (Hnew j1 d1 f e)|by apply (iv_sep _ _ HI j1 j2 d1 d2 e f)].
  - rewrite length_insert. apply (iv_begins _ _ HI).
  - intros j d n0 Hj Hn0. assert (Hlen : (length (log h) ≤ length l')%nat) by (apply prefix_length, HM).
    apply list_lookup_insert_Some in Hj as [(<- & <- & _)|[Hne Hj]].
    + destruct (iv_thread _ _ HI i c n0 Hi Hn0) as [? _]. split; [lia|]. by apply (mv_thread _ _ _ _ _ _ _ HM).
    + destruct (iv_thread _ _ HI j d n0 Hj Hn0) as [? Ht]. split; [lia|].
      eapply tinv_frame; [apply HM|done| |done]. intros e He. by apply (Hother j d).
Qed.

Lemma hist_eta h : h = mkHist (log h) (begins h).
Proof. by destruct h. Qed.

Lemma inv_local s h i c c' : inv s h → threads s !! i = Some c → own c' = own c ∨ own c' = None →
  (∀ n0, (n0 ≤ length (log h))%nat → tinv (heap_ (table s)) (log h) n0 c → tinv (heap_ (table s)) (log h) n0 c') →
  inv (mkSys (table s) (<[i := c']> (threads s))) h.
Proof.
  intros HI Hi Ho Ht. rewrite (hist_eta h). eapply inv_moves; [done..|].
  split; try done.
  - apply HI.
  - apply HI.
  - apply HI.
  - by left.
  - intros e He. assert (Hc : own c = Some e) by (destruct Ho; congruence).
    destruct (iv_own _ _ HI i c e Hi Hc) as (? & ? & ?). split_and!; [done..|by left].
  - intros n0 Hn0. destruct (iv_thread _ _ HI i c n0 Hi Hn0). by apply Ht.
Qed.

Lemma inv_begin s h i c c' : inv s h → threads s !! i = Some c → own c' = None → (∀ H l n0, tinv H l n0 c') →
  inv (mkSys (table s) (<[i := c']> (threads s))) (mkHist (log h) (<[i := length (log h)]> (begins h))).
Proof.
  intros HI Hi Ho Ht. destruct (inv_local s h i c c' HI Hi) as [J1 J2 J3 J4 J5 J6 J7 J8 J9]; [by right|done|].
  split; try done; simpl in *.
  - by rewrite length_insert.
  - intros j d n0 Hj Hn0. apply list_lookup_insert_Some in Hn0 as [(<- & <- & _)|[Hne Hn0]].
    + split; [lia|]. apply list_lookup_insert_Some in Hj as [(_ & <- & _)|[? _]]; [apply Ht|done].
    + by apply (J9 j).
Qed.

(** The state of list [b], as a thread sees it now. *)
Lemma inv_get s h k : inv s h → ∃ p, aget (list_ (table s)) (bucket_no (table s) k) = Some p ∧
  chain (heap_ (table s)) p (content bno (bno k) (log h)) ∧ p = head_of (content bno (bno k) (log h)).
Proof using Hcap Hm.
  intros HI. rewrite bucket_no_bno by apply HI. destruct (iv_list _ _ HI (bno k) (bno_range k)) as (p & E & Hc).
  exists p. split; [done|]. split; [done|]. by apply list_chain_head in Hc.
Qed.

Lemma seen_now l n0 : (n0 ≤ length l)%nat → seen l n0 (length l) ∧ take (length l) l = l.
Proof. unfold seen. split; [lia|]. by apply take_ge. Qed.

(** Writing a bucket that nobody else knows. *)
Lemma inv_write s h i c c' e nx : inv s h → threads s !! i = Some c →
  (own c = Some e ∨ own c = None ∧ e.1 ≠ 0 ∧ heap_ (table s) !! e.1 = None) → own c' = Some e →
  (∀ n0, (n0 ≤ length (log h))%nat → tinv (heap_ (table s)) (log h) n0 c →
    tinv (<[e.1 := mkBucket e.2.1 e.2.2 nx]> (heap_ (table s))) (log h) n0 c') →
  inv (mkSys (set_heap (table s) (<[e.1 := mkBucket e.2.1 e.2.2 nx]> (heap_ (table s)))) (<[i := c']> (threads s))) h.
Proof.
  intros HI Hi Ho Ho' Ht. rewrite (hist_eta h).
  assert (He : (e.1 ∉ (log h).*1) ∧ e.1 ≠ 0).
  { destruct Ho as [Ho|(_ & ? & Hn)]; [by destruct (iv_own _ _ HI i c e Hi Ho) as (? & ? & _)|].
    split; [|done]. intros [_ [? ?]]%(iv_addr _ _ HI). congruence. }
  eapply inv_moves; [done..|]. split; simpl; try done.
  - apply HI.
  - intros b Hb. destruct (iv_list _ _ HI b Hb) as (p & E & Hc). exists p. split; [done|].
    eapply list_chain_frame; [|done]. intros a (f & -> & Hf)%list_elem_of_fmap.
    apply lookup_insert_ne. intros Ea. apply (proj1 He). rewrite Ea. apply list_elem_of_fmap_2. by eapply content_elem.
  - intros a [b Hb] Hne. apply lookup_insert_ne. destruct Ho as [Ho|(_ & _ & Hn)]; [by apply Hne|congruence].
  - apply HI.
  - by left.
  - intros f Hf. rewrite Ho' in Hf. injection Hf as <-. split_and!; [apply He..| |].
    + exists nx. by rewrite lookup_insert_eq.
    + destruct Ho as [?|(_ & _ & ?)]; [by left|by right].
  - intros n0 Hn0. destruct (iv_thread _ _ HI i c n0 Hi Hn0). by apply Ht.
Qed.

Lemma inv_begins s h i c : inv s h → threads s !! i = Some c → ∃ n0, begins h !! i = Some n0 ∧
  (n0 ≤ length (log h))%nat ∧ tinv (heap_ (table s)) (log h) n0 c.
Proof.
  intros HI Hi. destruct (lookup_lt_is_Some_2 (begins h) i) as [n0 Hn0].
  { rewrite (iv_begins _ _ HI). by eapply lookup_lt_Some. }
  exists n0. split; [done|]. by apply (iv_thread _ _ HI i).
Qed.

(** A compare-and-swap that succeeds finds the list as it was when the thread linked its bucket. *)
Lemma cas_linked s h i k v nb old : inv s h → threads s !! i = Some (PutCas k v nb old) →
  aget (list_ (table s)) (bno k) = Some old → chain (heap_ (table s)) nb ((nb, (k, v)) :: content bno (bno k) (log h)).
Proof using Hcap Hm.
  intros HI Hi E. destruct (iv_list _ _ HI (bno k) (bno_range k)) as (p & E' & Hc). simplify_eq.
  destruct (inv_begins _ _ _ _ HI Hi) as (n0 & _ & Hn0 & n & n' & Hn & Hn' & Ho & Hb).
  destruct (iv_own _ _ HI i _ (nb, (k, v)) Hi eq_refl) as (_ & H0 & _). simpl in H0.
  simpl. split; [done|]. split; [done|]. exists old. split; [|done]. rewrite Hb. repeat f_equal.
  rewrite (head_between bno (bno k) (log h) n n').
  - by apply list_chain_head in Hc.
  - apply HI.
  - intros a Ha. by apply (iv_addr _ _ HI).
  - apply Hn'.
  - rewrite <-Ho. by apply list_chain_head in Hc.
Qed.

Lemma inv_publish s h i k v nb old : inv s h → threads s !! i = Some (PutCas k v nb old) →
  aget (list_ (table s)) (bno k) = Some old → ∃ l, aset (list_ (table s)) (bno k) nb = Some l ∧
    inv (mkSys (set_list (table s) l) (<[i := PutDone k v nb]> (threads s))) (mkHist (log h ++ [(nb, (k, v))]) (begins h)).
Proof using Hcap Hm.
  intros HI Hi E. pose proof (cas_linked _ _ _ _ _ _ _ HI Hi E) as Hch. pose proof (bno_range k) as Hr.
  pose proof (iv_len _ _ HI) as Hlen. destruct (iv_own _ _ HI i _ (nb, (k, v)) Hi eq_refl) as (Hnl & H0 & nx & Hnb). simpl in Hnl, H0, Hnb.
  exists (<[Z.to_nat (bno k) := nb]> (list_ (table s))). split.
  { unfold aset. by rewrite (proj2 (Z.leb_le _ _)), (proj2 (Z.ltb_lt _ _)) by lia. }
  eapply inv_moves; [done..|]. split; simpl; try done.
  - apply HI.
  - by rewrite length_insert.
  - intros b Hb. rewrite content_app, content_one. simpl. unfold aget. rewrite (proj2 (Z.leb_le _ _)) by lia.
    destruct (decide (bno k = b)) as [<-|Hne].
    + exists nb. split; [|done]. apply list_lookup_insert_eq. lia.
    + destruct (iv_list _ _ HI b Hb) as (p & Ep & Hc). exists p. split; [|done].
      unfold aget in Ep. rewrite (proj2 (Z.leb_le _ _)) in Ep by lia. rewrite list_lookup_insert_ne by lia. done.
  - by apply prefix_app_r.
  - rewrite fmap_app. apply NoDup_app. split_and!; [apply HI| |apply NoDup_singleton].
    intros a Ha ->%list_elem_of_singleton. done.
  - intros a. rewrite fmap_app, elem_of_app. intros [?| ->%list_elem_of_singleton]; [by left|right].
    eexists. split; [done|]. split; [done|]. simpl. by rewrite Hnb.
  - intros n0 Hn0. destruct (iv_thread _ _ HI i _ n0 Hi Hn0) as [? _]. exists (length (log h)). split; [done|].
    by rewrite lookup_app_r, Nat.sub_diag.
Qed.

(** The end of a lookup. *)
Lemma walking_found l n0 k e suf : walking l n0 k (e :: suf) → e.2.1 = k → ∃ n, seen l n0 n ∧ latest k (take n l) = Some e.2.2.
Proof.
  intros (n & pre & Hn & E & Hpre) He. exists n. split; [done|]. rewrite (latest_content bno), E, filter_app.
  assert (filter (λ e : entry, e.2.1 = k) pre = []) as ->.
  { clear -Hpre. induction Hpre; [done|]. rewrite filter_cons. by rewrite decide_False. }
  simpl. rewrite filter_cons. by rewrite decide_True.
Qed.

Lemma walking_absent l n0 k : walking l n0 k [] → ∃ n, seen l n0 n ∧ latest k (take n l) = None.
Proof.
  intros (n & pre & Hn & E & Hpre). exists n. split; [done|]. rewrite (latest_content bno), E, app_nil_r.
  assert (filter (λ e : entry, e.2.1 = k) pre = []) as ->; [|done].
  clear -Hpre. induction Hpre; [done|]. rewrite filter_cons. by rewrite decide_False.
Qed.

Lemma walking_next l n0 k e suf : walking l n0 k (e :: suf) → e.2.1 ≠ k → walking l n0 k suf.
Proof.
  intros (n & pre & Hn & E & Hpre) He. exists n, (pre ++ [e]). split; [done|]. rewrite <-app_assoc. split; [done|].
  apply Forall_app. split; [done|]. by constructor.
Qed.

(** An address for the new bucket, where the thread needs one. *)
Definition fresh_ok (s : sys) (c : pc) (fresh : Z) : Prop :=
  match c with PutNew _ _ => fresh ≠ 0 ∧ heap_ (table s) !! fresh = None | _ => True end.

Lemma put_run s h i c fresh : inv s h → threads s !! i = Some c → is_Some (own c) →
  ∃ s', step s (Run i fresh) = Some s' ∧ inv s' (hist_step s (Run i fresh) h).
Proof using Hcap Hm.
  intros HI Hi Ho. unfold step, hist_step. rewrite Hi. bind_simpl.
  destruct c as [|k v|k v nb|k v nb old|k v nb old|k v nb|k|k p|k p|k p|k r]; try by destruct Ho.
  - destruct (inv_get s h k HI) as (p & E & _ & Hp). simpl. rewrite E. bind_simpl. eexists. split; [done|].
    eapply inv_local; [done..|by left|]. intros n0 Hn0 _. destruct (seen_now _ _ Hn0) as [? Et].
    exists (length (log h)). by rewrite Et.
  - destruct (inv_get s h k HI) as (p & E & _ & Hp). destruct (iv_own _ _ HI i _ (nb, (k, v)) Hi eq_refl) as (_ & _ & nx & Hnb).
    simpl in Hnb |- *. rewrite E. bind_simpl. rewrite Hnb. bind_simpl. eexists. split; [done|].
    apply (inv_write s h i (PutNext k v nb old) _ (nb, (k, v)) p); [done..|by left|done|].
    intros n0 Hn0 (n & Hn & ->). exists n, (length (log h)). rewrite (take_ge (log h) (length (log h))) by lia. split_and!; [done| |done|].
    + unfold seen in *. lia.
    + simpl. rewrite lookup_insert_eq. by rewrite Hp.
  - destruct (inv_get s h k HI) as (p & E & _ & _). simpl. rewrite E. bind_simpl.
    rewrite bucket_no_bno in E |- * by apply HI. destruct (Z.eqb_spec p old) as [->|Hne].
    + destruct (inv_publish _ _ _ _ _ _ _ HI Hi E) as (l & El & HI'). rewrite El. bind_simpl.
      eexists. split; [done|]. by rewrite bool_decide_eq_true_2.
    + eexists. split; [done|]. rewrite bool_decide_eq_false_2 by congruence. eapply inv_local; [done..|by left|done].
Qed.

Lemma get_run s h i c fresh : inv s h → threads s !! i = Some c → own c = None → between c = false → fresh_ok s c fresh →
  ∃ s', step s (Run i fresh) = Some s' ∧ inv s' (hist_step s (Run i fresh) h).
Proof using Hcap Hm.
  intros HI Hi Ho Hb Hf. unfold step, hist_step. rewrite Hi. bind_simpl.
  destruct (inv_begins _ _ _ _ HI Hi) as (n0 & _ & _ & Ht).
  destruct c as [|k v|k v nb|k v nb old|k v nb old|k v nb|k|k p|k p|k p|k r]; try done.
  - destruct Hf as [Hf0 Hf]. simpl. rewrite (proj2 (Z.eqb_neq fresh 0)), Hf by done. simpl. eexists. split; [done|].
    apply (inv_write s h i (PutNew k v) _ (fresh, (k, v)) 0); [done..|by right|done|done].
  - destruct (inv_get s h k HI) as (p & E & Hc & _). simpl. rewrite E. bind_simpl. eexists. split; [done|].
    eapply inv_local; [done..|by left|]. intros n1 Hn1 _. destruct (seen_now _ _ Hn1) as [? Et].
    exists (content bno (bno k) (log h)). split; [|done]. exists (length (log h)), []. by rewrite Et.
  - simpl. destruct Ht as (suf & Hw & Hc). destruct suf as [|e suf].
    + simpl in Hc. subst p. eexists. split; [done|]. eapply inv_local; [done..|by left|].
      intros n1 _ (suf & Hw1 & Hc1). destruct suf; [|by destruct Hc1 as (_ & ? & _)].
      destruct (walking_absent _ _ _ Hw1) as (n & ? & ?). by exists n.
    + pose proof Hc as (-> & Hnz & nx & Hl & _). rewrite (proj2 (Z.eqb_neq e.1 0)), Hl by done. bind_simpl.
      eexists. split; [done|]. eapply inv_local; [done..|left; by destruct (_ =? _)|].
      intros n1 _ (suf1 & Hw1 & Hc1). destruct suf1 as [|e1 suf1]; [done|].
      pose proof Hc1 as (_ & _ & nx1 & Hl1 & _). rewrite Hl in Hl1. injection Hl1 as Hk Hv Hnx. simpl.
      destruct (Z.eqb_spec e.2.1 k); exists e1, suf1; split_and!; try done; congruence.
  - destruct Ht as (e & suf & Hw & Hc & Hk). pose proof Hc as (-> & Hnz & nx & Hl & _). simpl. rewrite Hl. bind_simpl.
    eexists. split; [done|]. eapply inv_local; [done..|by left|].
    intros n1 _ (e1 & suf1 & Hw1 & (_ & _ & nx1 & Hl1 & Hc1) & Hk1). rewrite Hl in Hl1. injection Hl1 as _ _ ->.
    exists suf1. split; [|done]. by eapply walking_next.
  - destruct Ht as (e & suf & Hw & Hc & Hk). pose proof Hc as (-> & Hnz & nx & Hl & _). simpl. rewrite Hl. bind_simpl.
    eexists. split; [done|]. eapply inv_local; [done..|by left|].
    intros n1 _ (e1 & suf1 & Hw1 & (_ & _ & nx1 & Hl1 & Hc1) & Hk1). rewrite Hl in Hl1. injection Hl1 as _ Hv _.
    destruct (walking_found _ _ _ _ _ Hw1 Hk1) as (n & ? & E). exists n. split; [done|]. simpl. by rewrite E, Hv.
Qed.

Lemma inv_step s h e s' : inv s h → step s e = Some s' → inv s' (hist_step s e h).
Proof using Hcap Hm.
  intros HI. destruct e as [i k v|i k|i fresh].
  - simpl. destruct (threads s !! i) as [c|] eqn:Hi; simpl; [|done]. destruct (between c); [|done]. intros [= <-]. by eapply inv_begin.
  - simpl. destruct (threads s !! i) as [c|] eqn:Hi; simpl; [|done]. destruct (between c); [|done]. intros [= <-]. by eapply inv_begin.
  - intros E. pose proof E as E'. unfold step in E'. destruct (threads s !! i) as [c|] eqn:Hi; simpl in E'; [|done].
    destruct (own c) as [e|] eqn:Ho.
    + destruct (put_run s h i c fresh HI Hi) as (s1 & E1 & ?); [by eexists|]. by simplify_eq.
    + destruct (between c) eqn:Hb; [by destruct c|].
      destruct (get_run s h i c fresh HI Hi Ho Hb) as (s1 & E1 & ?); [|by simplify_eq].
      destruct c; simpl in *; try done. case_match eqn:Hd; [done|]. apply orb_false_iff in Hd as [Hd1 Hd2].
      apply Z.eqb_neq in Hd1. split; [done|]. apply bool_decide_eq_false in Hd2. by apply eq_None_not_Some.
Qed.
End inv.

Section results.
Context (capacity : Z) (n : nat) (Hcapacity : 0 ≤ capacity < 2 ^ 31).

Lemma inv_reach s h : reach capacity n s h → ∃ cap m, cap = 2 ^ m ∧ 0 ≤ m ≤ 31 ∧ inv cap s h.
Proof using Hcapacity.
  destruct (nextPowerOf2_spec capacity Hcapacity) as (m & Hm & Em & _). intros Hr. exists (2 ^ m), m. split; [done|].
  split; [done|]. induction Hr as [|s h e s' Hr IH E]; [|by eapply inv_step].
  split; simpl; try done.
  - rewrite length_replicate. rewrite Em. lia.
  - intros b Hb. exists 0. split; [|done]. unfold aget. rewrite (proj2 (Z.leb_le _ _)) by lia.
    apply lookup_replicate_2. rewrite Em. lia.
  - constructor.
  - by intros a ?%elem_of_nil.
  - intros i c e [-> _]%lookup_replicate. done.
  - intros i j c d e f [-> _]%lookup_replicate. done.
  - by rewrite !length_replicate.
  - intros i c n0 [-> _]%lookup_replicate [-> _]%lookup_replicate. split; [lia|done].
Qed.

(** C10 [safety]. The table is linearizable under every interleaving of [Put] and [Get] calls of any
    number of threads. The insertions take effect in one order, [log], once each, while
    their calls run ([begins] is the length of [log] at the begin of a thread's call). A lookup
    returns the value that the insertions up to some point of its call leave at its key, or
    fails if they contain no such key. And no thread ever follows a null or dangling pointer:
    each call can always go on. *)
Theorem cas_table_linearizable s h : reach capacity n s h →
  NoDup (log h).*1 ∧
  (∀ i k v nb, threads s !! i = Some (PutDone k v nb) →
    ∃ n0 j, begins h !! i = Some n0 ∧ (n0 ≤ j)%nat ∧ log h !! j = Some (nb, (k, v))) ∧
  (∀ i k r, threads s !! i = Some (GetDone k r) →
    ∃ n0 j, begins h !! i = Some n0 ∧ (n0 ≤ j ≤ length (log h))%nat ∧ r = latest k (take j (log h))) ∧
  (∀ i c fresh, threads s !! i = Some c → between c = false → fresh_ok s c fresh → is_Some (step s (Run i fresh))).
Proof using Hcapacity.
  intros Hr. destruct (inv_reach s h Hr) as (cap & m & Hcap & Hm & HI). split_and!.
  - apply HI.
  - intros i k v nb Hi. destruct (inv_begins _ _ _ _ _ HI Hi) as (n0 & ? & _ & j & ? & ?). by exists n0, j.
  - intros i k r Hi. destruct (inv_begins _ _ _ _ _ HI Hi) as (n0 & ? & _ & j & ? & ?). by exists n0, j.
  - intros i c fresh Hi Hb Hf. destruct (own c) as [e|] eqn:Ho.
    + destruct (put_run cap m Hcap Hm s h i c fresh HI Hi) as (s' & -> & _); by eexists.
    + destruct (get_run cap m Hcap Hm s h i c fresh HI Hi Ho Hb Hf) as (s' & -> & _); by eexists.
Qed.
End results.

(** Executing a sequence of events. *)
Fixpoint exec (s : sys) (h : hist) (es : list event) : option (sys * hist) :=
  match es with
  | [] => Some (s, h)
  | e :: es => s' ← step s e; exec s' (hist_step s e h) es
  end.

Lemma exec_reaches capacity n s h es s' h' : reach capacity n s h → exec s h es = Some (s', h') → reach capacity n s' h'.
Proof.
  revert s h. induction es as [|e es IH]; intros s h Hr E; simpl in E; [by simplify_eq|].
  destruct (step s e) as [s1|] eqn:Es; simpl in E; [|done]. eapply IH; [|done]. by econstructor.
Qed.
End table.

(** Thread 0 puts 7 at key 5, thread 1 looks for it. *)
Definition demo_events : list event :=
  [BeginPut 0 5 7; BeginGet 1 5; Run 0 100; Run 0 0; Run 0 0; Run 0 0; Run 1 0; Run 1 0; Run 1 0].
Definition demo_run : option (sys * hist) :=
  exec (λ k, k) (mkSys (HashTable_new 2) (replicate 2 Idle)) (mkHist [] (replicate 2 0%nat)) demo_events.

Lemma cas_table_linearizable_witness : ∃ j, Some 7 = latest 5 (take j [(100, (5, 7))]).
Proof.
  assert (∃ s h, demo_run = Some (s, h) ∧ threads s !! 1%nat = Some (GetDone 5 (Some 7)) ∧ log h = [(100, (5, 7))])
    as (s & h & E & Hg & Hl) by (vm_compute; eauto).
  destruct (cas_table_linearizable (λ k, k) 2 2 ltac:(lia) s h) as (_ & _ & H & _).
  - eapply exec_reaches; [constructor|exact E].
  - destruct (H _ _ _ Hg) as (_ & j & _ & _ & Hj). exists j. by rewrite <-Hl.
Defined.
