(* ===== verification/StringUtil.v ===== *)
(** * String utilities (src/cpp-util/string_util.h)

    A string is the list of its characters.  [replace] searches in a buffer that it changes;
    [split] calls [strtok_r], which overwrites the characters of its argument: the model
    has the buffer, with the terminating null character, and positions in it. *)

From S2P Require Import Prelude.

Abbreviation str := (list Z).
Implicit Types (s t sStr : list Z) (c : Z).

(** [s.find_first_of(c) != npos]. *)
Definition has s c : bool := existsb (Z.eqb c) s.

(** src/cpp-util/string_util.h:38-46, [while (pos != 0)]. *)
Fixpoint right_pos sStr s (pos : nat) : option nat :=
  match pos with
  | O => Some O
  | S p => c ← sStr !! p; if has s c then right_pos sStr s p else Some pos
  end.

(** src/cpp-util/string_util.h:9-52, [trimright]. *)
Definition trimright sStr s (bChar : bool) : option str :=
  if bool_decide (sStr = []) then Some sStr else
  if negb bChar then
    if (length sStr <? length s)%nat then Some sStr
    else if bool_decide (drop (length sStr - length s) sStr = s)
    then Some (take (length sStr - length s) sStr) else Some sStr
  else
    pos ← right_pos sStr s (length sStr);
    if (pos =? length sStr)%nat then Some sStr else Some (take pos sStr).

(** src/cpp-util/string_util.h:83-91, [while (pos < sStr.length())]. *)
Fixpoint left_pos sStr s (fuel pos : nat) : option nat :=
  match fuel with
  | O => None
  | S fuel =>
      if (pos <? length sStr)%nat then
        c ← sStr !! pos; if has s c then left_pos sStr s fuel (S pos) else Some pos
      else Some pos
  end.

(** src/cpp-util/string_util.h:54-97, [trimleft]. *)
Definition trimleft sStr s (bChar : bool) : option str :=
  if bool_decide (sStr = []) then Some sStr else
  if negb bChar then
    if (length sStr <? length s)%nat then Some sStr
    else if bool_decide (take (length s) sStr = s) then Some (drop (length s) sStr) else Some sStr
  else
    pos ← left_pos sStr s (S (length sStr)) 0;
    if (pos =? 0)%nat then Some sStr else Some (drop pos sStr).

(** src/cpp-util/string_util.h:109-125, [trim]. *)
Definition trim sStr s (bChar : bool) : option str :=
  if bool_decide (sStr = []) then Some sStr else
  if negb bChar then t ← trimleft sStr s false; trimright t s false
  else t ← trimleft sStr s true; trimright t s true.

(** [sBuf.find(sSrc, pos)]. *)
Fixpoint search sSrc (s : str) : option nat :=
  if bool_decide (sSrc `prefix_of` s) then Some 0%nat
  else match s with [] => None | _ :: s => S <$> search sSrc s end.
Definition find_at (sBuf sSrc : str) (pos : nat) : option nat :=
  if (pos <=? length sBuf)%nat then (λ i, pos + i)%nat <$> search sSrc (drop pos sBuf) else None.

(** src/cpp-util/string_util.h:138-142, [while ((pos = sBuf.find(sSrc, pos)) != string::npos)]. *)
Fixpoint replace_loop (fuel : nat) (sSrc sDest sBuf : str) (pos : nat) : option str :=
  match fuel with
  | O => None
  | S fuel =>
      match find_at sBuf sSrc pos with
      | None => Some sBuf
      | Some pos =>
          let sBuf := take pos sBuf ++ sDest ++ drop (pos + length sSrc) sBuf in
          replace_loop fuel sSrc sDest sBuf (pos + length sDest)
      end
  end.

(** src/cpp-util/string_util.h:127-145, [replace]. *)
Definition replace (sString sSrc sDest : str) : option str :=
  if bool_decide (sSrc = []) then Some sString
  else replace_loop (S (length sString)) sSrc sDest sString 0.

(** ** [strtok_r] *)

(** The length of the longest prefix of characters that satisfy [P]. *)
Fixpoint span (P : Z → bool) s : nat :=
  match s with
  | c :: s => if P c then S (span P s) else 0%nat
  | [] => 0%nat
  end.

(** The characters of a C string: those before the first null character. *)
Definition cstr s : str := take (span (λ c, negb (c =? 0)) s) s.

Definition strspn (buf : str) (i : nat) (delim : str) : nat := span (has (cstr delim)) (drop i buf).
Definition strcspn (buf : str) (i : nat) (delim : str) : nat :=
  span (λ c, negb (has (cstr delim) c) && negb (c =? 0)) (drop i buf).

(** [strtok_r(s, delim, save)]: the position of the token, the buffer and [save] afterwards. *)
Definition strtok_r (buf : str) (i : nat) (delim : str) : option (option nat * str * nat) :=
  c ← buf !! i;
  if c =? 0 then Some (None, buf, i) else
  let i := (i + strspn buf i delim)%nat in
  c ← buf !! i;
  if c =? 0 then Some (None, buf, i) else
  let e := (i + strcspn buf i delim)%nat in
  c ← buf !! e;
  if c =? 0 then Some (Some i, buf, e) else Some (Some i, <[e := 0]> buf, S e).

(** src/cpp-util/string_util.h:152-156, [while (token != nullptr)]. *)
Fixpoint split_loop (fuel : nat) (buf : str) (save : nat) (token : option nat) (delim : str) (result : list str) :
    option (list str * str) :=
  match fuel with
  | O => None
  | S fuel =>
      match token with
      | None => Some (result, buf)
      | Some i =>
          let result := result ++ [cstr (drop i buf)] in
          x ← strtok_r buf save delim;
          let '(token, buf, save) := x in split_loop fuel buf save token delim result
      end
  end.

(** src/cpp-util/string_util.h:147-158, [split]. The tokens, and what is left of the argument. *)
Definition split (s delimiter : str) : option (list str * str) :=
  x ← strtok_r (s ++ [0]) 0 delimiter;
  let '(token, buf, save) := x in
  r ← split_loop (S (length s)) buf save token delimiter [];
  Some (r.1, take (length s) r.2).

(** ** Trimming *)

Lemma has_spec s c : has s c = true ↔ c ∈ s.
Proof.
  unfold has. rewrite existsb_exists. setoid_rewrite Z.eqb_eq. split.
  - intros (x & Hx & ->). by apply list_elem_of_In.
  - intros H. exists c. split; [by apply list_elem_of_In|done].
Qed.

Lemma has_false s c : has s c = false ↔ c ∉ s.
Proof. rewrite <-has_spec. by destruct (has s c). Qed.

Lemma left_pos_spec s fuel pos sStr : (length sStr - pos < fuel)%nat → (pos ≤ length sStr)%nat →
  ∃ n, left_pos sStr s fuel pos = Some n ∧ (pos ≤ n ≤ length sStr)%nat ∧
    (∀ i c, (pos ≤ i < n)%nat → sStr !! i = Some c → c ∈ s) ∧ (∀ c, sStr !! n = Some c → c ∉ s).
Proof.
  revert pos. induction fuel as [|fuel IH]; intros pos Hf Hp; [lia|]. cbn [left_pos].
  destruct (Nat.ltb_spec pos (length sStr)) as [Hlt|Hge].
  - destruct (lookup_lt_is_Some_2 sStr pos Hlt) as [c Hc]. rewrite Hc. bind_simpl. destruct (has s c) eqn:Hh.
    + destruct (IH (S pos)) as (n & E & Hn & Hin & Hout); [lia..|]. exists n. split_and!; [done|lia|lia| |done].
      intros i d Hi Hd. destruct (decide (i = pos)) as [->|]; [|apply (Hin i); [lia|done]].
      simplify_eq. by apply has_spec.
    + exists pos. split_and!; [done|lia|lia|intros; lia|]. intros d Hd. simplify_eq. by apply has_false.
  - exists pos. split_and!; [done|lia|lia|intros; lia|]. intros d Hd%lookup_lt_Some. lia.
Qed.

Lemma right_pos_spec s sStr pos : (pos ≤ length sStr)%nat → ∃ n, right_pos sStr s pos = Some n ∧ (n ≤ pos)%nat ∧
  (∀ i c, (n ≤ i < pos)%nat → sStr !! i = Some c → c ∈ s) ∧ (∀ c, n ≠ 0%nat → sStr !! pred n = Some c → c ∉ s).
Proof.
  induction pos as [|p IH]; intros Hp; cbn [right_pos]; [exists 0%nat; split_and!; [done|lia|intros; lia|done]|].
  destruct (lookup_lt_is_Some_2 sStr p) as [c Hc]; [lia|]. rewrite Hc. bind_simpl. destruct (has s c) eqn:Hh.
  - destruct IH as (n & E & Hn & Hin & Hout); [lia|]. exists n. split_and!; [done|lia| |done].
    intros i d Hi Hd. destruct (decide (i = p)) as [->|]; [|apply (Hin i); [lia|done]].
    simplify_eq. by apply has_spec.
  - exists (S p). split_and!; [done|lia|intros; lia|]. intros d _ Hd. simpl in Hd. simplify_eq. by apply has_false.
Qed.

Lemma trimleft_spec sStr s : ∃ a r, trimleft sStr s true = Some r ∧ sStr = a ++ r ∧ Forall (.∈ s) a ∧
  (∀ c, head r = Some c → c ∉ s).
Proof.
  unfold trimleft. destruct (bool_decide_reflect (sStr = [])) as [->|_]; [by exists [], []|].
  destruct (left_pos_spec s (S (length sStr)) 0 sStr) as (n & E & Hn & Hin & Hout); [lia..|]. simpl negb. cbv iota.
  rewrite E. bind_simpl. exists (take n sStr), (drop n sStr). split_and!.
  - by destruct (Nat.eqb_spec n 0) as [->|].
  - by rewrite take_drop.
  - apply Forall_lookup. intros i c [Hc Hi]%lookup_take_Some. apply (Hin i); [lia|done].
  - intros c Hc. apply Hout. rewrite head_lookup, lookup_drop in Hc. by rewrite Nat.add_0_r in Hc.
Qed.

Lemma trimright_spec sStr s : ∃ r b, trimright sStr s true = Some r ∧ sStr = r ++ b ∧ Forall (.∈ s) b ∧
  (∀ c, last r = Some c → c ∉ s).
Proof.
  unfold trimright. destruct (bool_decide_reflect (sStr = [])) as [->|_]; [by exists [], []|].
  destruct (right_pos_spec s sStr (length sStr)) as (n & E & Hn & Hin & Hout); [lia|]. simpl negb. cbv iota.
  rewrite E. bind_simpl. exists (take n sStr), (drop n sStr). split_and!.
  - destruct (Nat.eqb_spec n (length sStr)) as [->|]; [|done]. by rewrite take_ge.
  - by rewrite take_drop.
  - apply Forall_lookup. intros i c Hc. rewrite lookup_drop in Hc. apply (Hin (n + i)%nat); [|done].
    apply lookup_lt_Some in Hc. lia.
  - intros c Hc. rewrite last_lookup, length_take, Nat.min_l in Hc by lia. apply lookup_take_Some in Hc as [Hc ?].
    apply Hout; [lia|done].
Qed.

(** [trim] with [bChar] removes the characters of [s] from both ends, and no other. *)
Theorem trim_spec sStr s : ∃ a r b, trim sStr s true = Some r ∧ sStr = a ++ r ++ b ∧
  Forall (.∈ s) a ∧ Forall (.∈ s) b ∧ ∀ c, head r = Some c ∨ last r = Some c → c ∉ s.
Proof.
  unfold trim. destruct (bool_decide_reflect (sStr = [])) as [->|_].
  { exists [], [], []. split_and!; try done. by intros c [|]. }
  destruct (trimleft_spec sStr s) as (a & t & -> & -> & Ha & Hh).
  destruct (trimright_spec t s) as (r & b & E & -> & Hb & Hl). exists a, r, b. simpl. split_and!; [done..|].
  intros c [Hc|Hc]; [|by apply Hl]. apply Hh. destruct r; [done|]. done.
Qed.

(** ** Replacing *)

Section subst.
Context (sSrc sDest : str).

(** Every occurrence from the left that does not overlap an earlier one is replaced. *)
Inductive Subst : str → str → Prop :=
  | subst_nil : Subst [] []
  | subst_hit s t : Subst s t → Subst (sSrc ++ s) (sDest ++ t)
  | subst_miss c s t : ¬ sSrc `prefix_of` c :: s → Subst s t → Subst (c :: s) (c :: t).

Lemma search_None s : search sSrc s = None → Subst s s.
Proof.
  induction s as [|c s IH]; simpl; case_bool_decide as Hp; try done; [constructor|].
  destruct (search sSrc s) eqn:E; [done|]. intros _. constructor; auto.
Qed.

Lemma search_Some s i : sSrc ≠ [] → search sSrc s = Some i → (i + length sSrc ≤ length s)%nat ∧
  ∀ t, Subst (drop (i + length sSrc) s) t → Subst s (take i s ++ sDest ++ t).
Proof.
  intros Hsrc. revert i. induction s as [|c s IH]; intros i; cbn [search]; case_bool_decide as Hp.
  - by apply prefix_nil_inv in Hp.
  - done.
  - intros [= <-]. destruct Hp as [s' Hs]. rewrite Hs. split; [rewrite length_app; lia|].
    intros t. rewrite Nat.add_0_l, drop_app_length. intros Ht. by apply subst_hit.
  - destruct (search sSrc s) as [j|]; [|done]. intros [= <-]. destruct (IH j eq_refl) as [Hl Ht]. simpl. split; [lia|].
    intros t Hs. apply subst_miss; [done|]. by apply Ht.
Qed.

Lemma replace_loop_spec fuel (done rest : str) : sSrc ≠ [] → (length rest < fuel)%nat →
  ∃ t, replace_loop fuel sSrc sDest (done ++ rest) (length done) = Some (done ++ t) ∧ Subst rest t.
Proof.
  intros Hsrc. revert done rest. induction fuel as [|fuel IH]; intros done rest Hf; [lia|]. cbn [replace_loop].
  unfold find_at. rewrite length_app, drop_app_length. rewrite (proj2 (Nat.leb_le _ _)) by lia.
  destruct (search sSrc rest) as [i|] eqn:E; simpl.
  - destruct (search_Some _ _ Hsrc E) as [Hl Hs]. assert (0 < length sSrc)%nat by (by destruct sSrc; [|simpl; lia]).
    rewrite take_app_add, <-(Nat.add_assoc _ i), drop_app_add.
    destruct (IH (done ++ take i rest ++ sDest) (drop (i + length sSrc) rest)) as (t & Et & Ht).
    { rewrite length_drop. lia. }
    exists (take i rest ++ sDest ++ t). split; [|by apply Hs].
    replace (length done + i + length sDest)%nat with (length (done ++ take i rest ++ sDest)) by
      (rewrite !length_app, length_take; lia).
    rewrite <-!app_assoc in Et. by rewrite <-app_assoc.
  - exists rest. split; [done|]. by apply search_None.
Qed.
End subst.

(** [replace] returns for every string, even where the replacement contains
    the pattern: the loop searches behind what it has inserted, and one iteration for each
    character is enough. The result has every occurrence of the pattern, from the left and
    without overlaps, replaced, and the rest unchanged. *)
Theorem replace_terminates sString sSrc sDest :
  ∃ t, replace sString sSrc sDest = Some t ∧ if decide (sSrc = []) then t = sString else Subst sSrc sDest sString t.
Proof.
  unfold replace. destruct (decide (sSrc = [])) as [->|Hne]; [by exists sString|].
  rewrite bool_decide_eq_false_2 by done.
  destruct (replace_loop_spec sSrc sDest (S (length sString)) [] sString Hne) as (t & E & Ht); [lia|]. by exists t.
Qed.

(** ** Splitting *)

(** The maximal runs of characters that are not delimiters. [cur] is the run so far. *)
Definition flush (cur : str) : list str := match cur with [] => [] | _ => [cur] end.
Fixpoint words (delim cur s : str) : list str :=
  match s with
  | [] => flush cur
  | c :: s => if has delim c then flush cur ++ words delim [] s else words delim (cur ++ [c]) s
  end.

Lemma span_app P s t : (∀ c, c ∈ s → P c = true) → (∀ c, head t = Some c → P c = false) → span P (s ++ t) = length s.
Proof.
  intros Hs Ht. induction s as [|c s IH]; simpl.
  - destruct t as [|c t]; [done|]. simpl. by rewrite (Ht c).
  - rewrite (Hs c) by left. f_equal. apply IH. intros d Hd. apply Hs. by right.
Qed.

Lemma span_split P s : ∃ a b, s = a ++ b ∧ (∀ c, c ∈ a → P c = true) ∧ (∀ c, head b = Some c → P c = false).
Proof.
  induction s as [|c s (a & b & -> & Ha & Hb)];
    [exists [], []; split_and!; [done|by intros ? ?%elem_of_nil|done]|]. destruct (P c) eqn:E.
  - exists (c :: a), b. split; [done|]. split; [|done]. intros d [->|Hd]%elem_of_cons; [done|by apply Ha].
  - exists [], (c :: a ++ b). split; [done|]. split; [by intros ? ?%elem_of_nil|]. by intros d [= <-].
Qed.

Lemma cstr_app s t : (0 ∉ s) → cstr (s ++ 0 :: t) = s.
Proof.
  intros H0. unfold cstr. rewrite span_app; [by rewrite take_app_length| |by intros c [= <-]].
  intros c Hc. apply negb_true_iff, Z.eqb_neq. by intros ->.
Qed.

Lemma cstr_split s : ∃ t, s ++ [0] = cstr s ++ 0 :: t ∧ (0 ∉ cstr s).
Proof.
  destruct (span_split (λ c, negb (c =? 0)) s) as (a & b & -> & Ha & Hb). unfold cstr. rewrite span_app by done.
  rewrite take_app_length. assert (H0 : 0 ∉ a) by (by intros ?%Ha). destruct b as [|c b].
  - exists []. split; [by rewrite app_nil_r|done].
  - exists (b ++ [0]). specialize (Hb c eq_refl). apply negb_false_iff, Z.eqb_eq in Hb as ->. by rewrite <-app_assoc.
Qed.

Lemma words_skip delim a s : (∀ c, c ∈ a → has delim c = true) → words delim [] (a ++ s) = words delim [] s.
Proof.
  induction a as [|c a IH]; intros Ha; simpl; [done|]. rewrite (Ha c) by left. apply IH. intros d Hd. apply Ha. by right.
Qed.

Lemma words_run delim cur w s : (∀ c, c ∈ w → has delim c = false) → words delim cur (w ++ s) = words delim (cur ++ w) s.
Proof.
  revert cur. induction w as [|c w IH]; intros cur Hw; simpl; [by rewrite app_nil_r|]. rewrite (Hw c) by left.
  rewrite IH by (intros d Hd; apply Hw; by right). by rewrite <-app_assoc.
Qed.

Section tokens.
Context (delimiter : str).
Abbreviation delim := (cstr delimiter).

Lemma delim_null : has delim 0 = false.
Proof. apply has_false. by destruct (cstr_split delimiter) as (_ & _ & ?). Qed.

(** [buf] holds the rest [r] of the string behind [pre]. *)
Definition holds (buf pre r : str) : Prop := (0 ∉ r) ∧ ∃ junk, buf = pre ++ r ++ 0 :: junk.

Lemma holds_at buf pre r s : holds buf pre (r ++ s) → buf !! (length pre + length r)%nat = head (s ++ [0]).
Proof.
  intros (_ & junk & ->). rewrite lookup_app_r, Nat.add_comm, Nat.add_sub by lia.
  rewrite <-app_assoc, lookup_app_r, Nat.sub_diag by lia. by destruct s.
Qed.

(** Skipping delimiters. *)
Lemma holds_spn buf pre r : holds buf pre r → ∃ a s, r = a ++ s ∧ strspn buf (length pre) delimiter = length a ∧
  (∀ c, c ∈ a → has delim c = true) ∧ (∀ c, head s = Some c → has delim c = false).
Proof.
  intros (H0 & junk & ->). destruct (span_split (has delim) r) as (a & s & -> & Ha & Hs).
  exists a, s. split_and!; try done. unfold strspn. rewrite drop_app_length, <-app_assoc. apply span_app; [done|].
  intros c Hc. destruct s as [|d s]; [|by apply Hs]. injection Hc as <-. apply delim_null.
Qed.

(** The end of a token. *)
Lemma holds_cspn buf pre r : holds buf pre r → ∃ w s, r = w ++ s ∧ strcspn buf (length pre) delimiter = length w ∧
  (∀ c, c ∈ w → has delim c = false) ∧ (∀ c, head s = Some c → has delim c = true).
Proof.
  intros (H0 & junk & ->). destruct (span_split (λ c, negb (has delim c)) r) as (w & s & -> & Hw & Hs).
  exists w, s. split_and!; try done.
  - unfold strcspn. rewrite drop_app_length, <-app_assoc. apply span_app.
    + intros c Hc. rewrite (Hw c Hc). apply negb_true_iff, Z.eqb_neq. intros ->. set_solver.
    + intros c Hc. destruct s as [|d s]; [injection Hc as <-; apply andb_false_r|].
      injection Hc as <-. by rewrite (Hs d).
  - intros c Hc%Hw. by apply negb_true_iff in Hc.
  - intros c Hc%Hs. by apply negb_false_iff in Hc.
Qed.

(** Cutting the token [w] off. *)
Lemma token_end buf pre w s : holds buf pre (w ++ s) → w ≠ [] → (∀ c, head s = Some c → has delim c = true) →
  ∃ c buf' pre' rest, buf !! (length pre + length w)%nat = Some c ∧
    (if c =? 0 then (buf, length pre + length w)%nat
     else (<[(length pre + length w)%nat := 0]> buf, S (length pre + length w))) = (buf', length pre') ∧
    holds buf' pre' rest ∧ (length rest ≤ length s)%nat ∧ cstr (drop (length pre) buf') = w ∧
    words delim w s = w :: words delim [] rest.
Proof.
  intros HB Hw Hs. rewrite (holds_at _ _ _ _ HB). destruct HB as (H0 & junk & ->).
  assert (Hf : flush w = [w]) by (by destruct w). assert (Hw0 : 0 ∉ w) by set_solver.
  destruct s as [|x s]; cbn [app head].
  - exists 0, (pre ++ w ++ 0 :: junk), (pre ++ w), []. rewrite app_nil_r. split_and!; [done|by rewrite length_app|..|simpl; lia| |done].
    + split; [set_solver|]. exists junk. by rewrite <-app_assoc.
    + rewrite drop_app_length. by apply cstr_app.
  - assert (Hx : has delim x = true) by (by apply Hs). assert (Hx0 : x ≠ 0) by (intros ->; by rewrite delim_null in Hx).
    exists x, (pre ++ w ++ 0 :: s ++ 0 :: junk), (pre ++ w ++ [0]), s. rewrite (proj2 (Z.eqb_neq x 0)) by done.
    split_and!; [done| | |simpl; lia| |].
    + f_equal; [|rewrite !length_app; simpl; lia]. rewrite insert_app_r, <-app_assoc. f_equal.
      by rewrite <-(Nat.add_0_r (length w)), insert_app_r.
    + split; [set_solver|]. exists junk. by rewrite <-!app_assoc.
    + rewrite drop_app_length. by apply cstr_app.
    + simpl. by rewrite Hx, Hf.
Qed.

(** One call of [strtok_r]: no token is left, or it finds the next one. *)
Lemma strtok_spec buf pre r : holds buf pre r →
  (∃ buf' i, strtok_r buf (length pre) delimiter = Some (None, buf', i) ∧ words delim [] r = []) ∨
  ∃ i buf' pre' rest w, strtok_r buf (length pre) delimiter = Some (Some i, buf', length pre') ∧ holds buf' pre' rest ∧
    (length rest < length r)%nat ∧ cstr (drop i buf') = w ∧ words delim [] r = w :: words delim [] rest.
Proof.
  intros HB. destruct (holds_spn _ _ _ HB) as (a & s & -> & Esp & Ha & Hs).
  pose proof HB as (H0 & junk & Ebuf). unfold strtok_r.
  pose proof (holds_at buf pre [] (a ++ s) HB) as E0. simpl in E0. rewrite Nat.add_0_r in E0. rewrite E0.
  rewrite words_skip by done. destruct s as [|d s].
  { left. destruct a as [|c a]; simpl; [by eexists _, _|]. bind_simpl. assert (c ≠ 0) by set_solver.
    rewrite (proj2 (Z.eqb_neq c 0)), Esp by done. rewrite (holds_at buf pre (c :: a) []) by done. by eexists _, _. }
  right. assert (∃ c, head ((a ++ d :: s) ++ [0]) = Some c ∧ c ≠ 0) as (c & -> & Hc) by (destruct a; simpl; eexists; split; try done; set_solver).
  bind_simpl. rewrite (proj2 (Z.eqb_neq c 0)), Esp by done.
  rewrite (holds_at buf pre a (d :: s)) by done. cbn [app head]. bind_simpl. rewrite (proj2 (Z.eqb_neq d 0)) by set_solver.
  assert (HB1 : holds buf (pre ++ a) (d :: s)).
  { split; [set_solver|]. exists junk. by rewrite Ebuf, <-!app_assoc. }
  destruct (holds_cspn _ _ _ HB1) as (w & s' & E1 & Ecsp & Hw & Hs'). rewrite <-length_app, Ecsp.
  assert (Hne : w ≠ []).
  { intros ->. simpl in E1. subst s'. specialize (Hs d eq_refl). specialize (Hs' d eq_refl). congruence. }
  rewrite E1 in HB1 |- *. rewrite words_run by done.
  destruct (token_end _ _ _ _ HB1 Hne Hs') as (x & buf' & pre' & rest & -> & E & HB' & Hl & Hc' & Hwd). bind_simpl.
  exists (length (pre ++ a)), buf', pre', rest, w. split_and!; [|done| |done|done].
  - destruct (x =? 0); injection E as Eb El; by rewrite Eb, El.
  - assert (0 < length w)%nat by (destruct w; [done|simpl; lia]). rewrite !length_app. lia.
Qed.

Lemma split_loop_spec fuel buf pre r result : holds buf pre r → (length r < fuel)%nat →
  ∃ buf', (x ← strtok_r buf (length pre) delimiter;
    let '(token, buf, save) := x in split_loop fuel buf save token delimiter result) =
  Some (result ++ words delim [] r, buf').
Proof.
  revert buf pre r result. induction fuel as [|fuel IH]; intros buf pre r result HB Hf; [lia|].
  destruct (strtok_spec _ _ _ HB) as [(buf' & i & -> & ->)|(i & buf' & pre' & rest & w & -> & HB' & Hl & Hw & ->)]; bind_simpl;
    cbn [split_loop].
  - exists buf'. by rewrite app_nil_r.
  - rewrite Hw. destruct (IH buf' pre' rest (result ++ [w]) HB') as (buf'' & E); [lia|]. exists buf''.
    rewrite E. by rewrite <-app_assoc.
Qed.
End tokens.

(** [split] returns the words of its argument, that is the maximal runs of characters
    that are not delimiters, in order and none of them empty; like [strtok_r] it takes
    both strings only up to their first null character. *)
Theorem split_words s delimiter : ∃ s', split s delimiter = Some (words (cstr delimiter) [] (cstr s), s').
Proof.
  destruct (cstr_split s) as (t & E & H0). unfold split.
  destruct (split_loop_spec delimiter (S (length s)) (s ++ [0]) [] (cstr s) []) as (buf' & El).
  - split; [done|]. by exists t.
  - unfold cstr. rewrite length_take. lia.
  - simpl length in El. destruct (strtok_r (s ++ [0]) 0 delimiter) as [[[token buf] save]|]; [|done]. simpl in El |- *.
    cbn [split_loop] in El. rewrite El. by eexists.
Qed.

(** [split] destroys its argument, although it takes it by reference to [const]: the second
    call on the string [a b] finds only [a]. *)
Theorem split_twice : ∃ s', split [97; 32; 98] [32] = Some ([[97]; [98]], s') ∧ split s' [32] = Some ([[97]], s').
Proof. by eexists. Qed.
