(* ===== verification/ExtHash.v ===== *)
(** * Extendible hashing (src/cpp-util/extendible_hashing.h)

    The directory holds pointers to buckets, and several entries can point to the same
    bucket: the buckets live in a store, and the directory is a list of positions in it.
    [insert] and [split] call each other and have fuel.  The directory behaves as a map as
    long as no bucket overflows.  A split that doubles the directory loses keys. *)

From stdpp Require Import sorting.
From S2P Require Import Prelude.

Abbreviation str := (list Z).

(** src/cpp-util/extendible_hashing.h:6-7, [Bucket members]. *)
Record Bucket := mkBucket { depth : Z; size : Z; values : gmap Z str }.

(** src/cpp-util/extendible_hashing.h:10-14, [Bucket::Bucket]. *)
Definition Bucket_new (depth size : Z) : Bucket := mkBucket depth size ∅.

Definition set_values b m : Bucket := mkBucket (depth b) (size b) m.

(** src/cpp-util/extendible_hashing.h:15-21, [Bucket::isFull]. *)
Definition isFull b : bool := Z.of_nat (base.size (values b)) =? u64 (size b).

(** src/cpp-util/extendible_hashing.h:22-32, [Bucket::insert]. *)
Definition Bucket_insert b (key : Z) (value : str) : Z * Bucket :=
  match values b !! key with
  | Some _ => (-1, b)
  | None => if isFull b then (1, b) else (0, set_values b (<[key := value]> (values b)))
  end.

(** src/cpp-util/extendible_hashing.h:33-43, [Bucket::remove]. *)
Definition Bucket_remove b (key : Z) : Z * Bucket :=
  match values b !! key with
  | Some _ => (0, set_values b (delete key (values b)))
  | None => (-1, b)
  end.

(** src/cpp-util/extendible_hashing.h:44-54, [Bucket::update]. *)
Definition Bucket_update b (key : Z) (value : str) : Z * Bucket :=
  match values b !! key with
  | Some _ => (0, set_values b (<[key := value]> (values b)))
  | None => (-1, b)
  end.

(** src/cpp-util/extendible_hashing.h:55-65, [Bucket::search]. *)
Definition Bucket_search b (key : Z) (ret : str) : Z * str :=
  match values b !! key with
  | Some v => (0, v)
  | None => (-1, ret)
  end.

(** src/cpp-util/extendible_hashing.h:66-72, [Bucket::isEmpty]. *)
Definition isEmpty b : bool := Z.of_nat (base.size (values b)) =? 0.

(** src/cpp-util/extendible_hashing.h:77-81, [Bucket::increaseDepth]. *)
Definition increaseDepth b : Z * Bucket := let d := swrap 32 (depth b + 1) in (d, mkBucket d (size b) (values b)).

(** src/cpp-util/extendible_hashing.h:82-85, [Bucket::clear]. *)
Definition clear b : Bucket := set_values b ∅.

(** The order of a [std::map]. *)
Definition key_le : relation (Z * str) := λ x y, x.1 ≤ y.1.
#[global] Instance key_le_dec : RelDecision key_le := λ x y, Z_le_dec x.1 y.1.

(** src/cpp-util/extendible_hashing.h:86-90, [Bucket::copy]. In the order of the keys. *)
Definition copy b : list (Z * str) := merge_sort key_le (map_to_list (values b)).

(** src/cpp-util/extendible_hashing.h:95-96, [Directory members]. *)
Record Directory := mkDir {
  global_depth : Z;
  bucket_size : Z;
  buckets : list nat;
  store : list Bucket
}.
Implicit Types (D : Directory) (b : Bucket).

Definition set_buckets D l : Directory := mkDir (global_depth D) (bucket_size D) l (store D).
Definition set_bucket D (p : nat) b : Directory := mkDir (global_depth D) (bucket_size D) (buckets D) (<[p := b]> (store D)).
Definition new_bucket D b : nat * Directory :=
  (length (store D), mkDir (global_depth D) (bucket_size D) (buckets D) (store D ++ [b])).

(** [1 << depth]. *)
Definition shl_one (d : Z) : option Z := if (0 <=? d) && (d <? 31) then Some (1 ≪ d) else None.

(** src/cpp-util/extendible_hashing.h:99-107, [Directory::Directory]. *)
Definition Directory_new (depth bucket_size : Z) : option Directory :=
  n ← shl_one depth;
  Some (mkDir depth bucket_size (seq 0 (Z.to_nat n)) (replicate (Z.to_nat n) (Bucket_new depth bucket_size))).

(** src/cpp-util/extendible_hashing.h:113-116, [Directory::bucketIndex]. *)
Definition bucketIndex (bucket_no depth : Z) : option Z := n ← shl_one depth; Some (Z.land bucket_no (n - 1)).

(** src/cpp-util/extendible_hashing.h:108-111, [Directory::hash]. *)
Definition hash D (key : Z) : option Z := n ← shl_one (global_depth D); Some (Z.land key (n - 1)).

(** src/cpp-util/extendible_hashing.h:117-123, [Directory::grow]. *)
Definition grow D : option Directory :=
  n ← shl_one (global_depth D);
  if n <=? Z.of_nat (length (buckets D)) then
    Some (mkDir (global_depth D + 1) (bucket_size D) (buckets D ++ take (Z.to_nat n) (buckets D)) (store D))
  else None.

(** The bucket behind an entry of the directory. *)
Definition bucket_at D (i : Z) : option (nat * Bucket) :=
  p ← aget (buckets D) i; b ← store D !! p; Some (p, b).

(** src/cpp-util/extendible_hashing.h:144-147, [buckets[i] = buckets[pair_index]]. *)
Fixpoint redirect (cnt : nat) (l : list nat) (i step lo hi : Z) (p : nat) : option (list nat) :=
  match cnt with
  | O => Some l
  | S cnt =>
      if (lo <=? i) && (i <? hi) then l ← aset l i p; redirect cnt l (i + step) step lo hi p else Some l
  end.

(** src/cpp-util/extendible_hashing.h:149-150, [for (it = temp.begin(); it != temp.end(); it++)]. *)
Fixpoint reinsert (insert : Directory → Z → str → option Directory) (temp : list (Z * str)) D : option Directory :=
  match temp with
  | [] => Some D
  | (key, value) :: temp => D ← insert D key value; reinsert insert temp D
  end.

(** src/cpp-util/extendible_hashing.h:125-151, [Directory::split]. *)
Definition split (insert : Directory → Z → str → option Directory) D (bucket_no : Z) : option Directory :=
  x ← bucket_at D bucket_no;
  let '(local_depth, b) := increaseDepth x.2 in
  let D := set_bucket D x.1 b in
  D ← (if global_depth D <? local_depth then grow D else Some D);
  pair_index ← bucketIndex bucket_no local_depth;
  let '(p, D) := new_bucket D (Bucket_new local_depth (bucket_size D)) in
  l ← aset (buckets D) pair_index p;
  let D := set_buckets D l in
  x ← bucket_at D bucket_no;
  let temp := copy x.2 in
  let D := set_bucket D x.1 (clear x.2) in
  index_diff ← shl_one local_depth;
  dir_size ← shl_one (global_depth D);
  l ← redirect (Z.to_nat dir_size) (buckets D) (pair_index - index_diff) (- index_diff) 0 (pair_index + 1) p;
  l ← redirect (Z.to_nat dir_size) l (pair_index + index_diff) index_diff 0 dir_size p;
  reinsert insert temp (set_buckets D l).

(** src/cpp-util/extendible_hashing.h:152-161, [Directory::insert]. *)
Fixpoint insert (fuel : nat) D (key : Z) (value : str) : option Directory :=
  match fuel with
  | O => None
  | S fuel =>
      bucket_no ← hash D key;
      x ← bucket_at D bucket_no;
      let '(status, b) := Bucket_insert x.2 key value in
      let D := set_bucket D x.1 b in
      if status =? 1 then D ← split (insert fuel) D bucket_no; insert fuel D key value else Some D
  end.

(** src/cpp-util/extendible_hashing.h:162-166, [Directory::remove]. *)
Definition remove D (key : Z) : option Directory :=
  bucket_no ← hash D key; x ← bucket_at D bucket_no; Some (set_bucket D x.1 (Bucket_remove x.2 key).2).

(** src/cpp-util/extendible_hashing.h:167-171, [Directory::update]. *)
Definition update D (key : Z) (value : str) : option Directory :=
  bucket_no ← hash D key; x ← bucket_at D bucket_no; Some (set_bucket D x.1 (Bucket_update x.2 key value).2).

(** src/cpp-util/extendible_hashing.h:172-176, [Directory::search]. *)
Definition search D (key : Z) (val : str) : option str :=
  bucket_no ← hash D key; x ← bucket_at D bucket_no; Some (Bucket_search x.2 key val).2.

(** ** As long as no bucket overflows *)

Inductive call :=
  | CInsert (key : Z) (value : str)
  | CRemove (key : Z)
  | CUpdate (key : Z) (value : str)
  | CSearch (key : Z) (val : str).

(** The directory after a call, and what a search leaves in its argument. *)
Definition dir_call (fuel : nat) (x : call) D : option (Directory * str) :=
  match x with
  | CInsert k v => D ← insert fuel D k v; Some (D, [])
  | CRemove k => D ← remove D k; Some (D, [])
  | CUpdate k v => D ← update D k v; Some (D, [])
  | CSearch k r => v ← search D k r; Some (D, v)
  end.

(** The specification: [insert] does not change a key that is there, [update] only such a key. *)
Definition map_call (x : call) (M : gmap Z str) : gmap Z str * str :=
  match x with
  | CInsert k v => (match M !! k with Some _ => M | None => <[k := v]> M end, [])
  | CRemove k => (delete k M, [])
  | CUpdate k v => (match M !! k with Some _ => <[k := v]> M | None => M end, [])
  | CSearch k r => (M, default r (M !! k))
  end.

Fixpoint dir_run (fuel : nat) (xs : list call) D : option (list str) :=
  match xs with
  | [] => Some []
  | x :: xs => r ← dir_call fuel x D; l ← dir_run fuel xs r.1; Some (r.2 :: l)
  end.
Fixpoint map_run (xs : list call) (M : gmap Z str) : list str :=
  match xs with
  | [] => []
  | x :: xs => (map_call x M).2 :: map_run xs (map_call x M).1
  end.

(** Every entry has its own bucket, which holds the keys of [M] with its hash value; [n] bounds
    the sizes. *)
Record holds (g bs : Z) (n : nat) D (M : gmap Z str) : Prop := {
  h_depth : global_depth D = g;
  h_buckets : buckets D = seq 0 (Z.to_nat (2 ^ g));
  h_store i : (i < Z.to_nat (2 ^ g))%nat → ∃ b, store D !! i = Some b ∧ size b = bs ∧
    (base.size (values b) ≤ n)%nat ∧ ∀ k, Z.land k (2 ^ g - 1) = Z.of_nat i → values b !! k = M !! k
}.

Section no_overflow.
Context (g bs : Z) (Hg : 0 ≤ g < 31) (Hbs : 0 ≤ bs < 2 ^ 31).

Lemma shl_one_spec : shl_one g = Some (2 ^ g).
Proof using Hg.
  unfold shl_one. rewrite (proj2 (Z.leb_le _ _)), (proj2 (Z.ltb_lt _ _)) by lia. simpl. by rewrite Z.shiftl_1_l.
Qed.

Lemma hash_range k : 0 ≤ Z.land k (2 ^ g - 1) < 2 ^ g.
Proof using Hg.
  replace (2 ^ g - 1) with (Z.ones g) by (rewrite Z.ones_equiv; lia). rewrite Z.land_ones by lia.
  apply Z.mod_pos_bound. lia.
Qed.

(** The bucket of a key. *)
Lemma holds_bucket n D M k : holds g bs n D M → ∃ i b, hash D k = Some (Z.of_nat i) ∧
  bucket_at D (Z.of_nat i) = Some (i, b) ∧ size b = bs ∧ (base.size (values b) ≤ n)%nat ∧
  values b !! k = M !! k ∧ (i < Z.to_nat (2 ^ g))%nat ∧ Z.land k (2 ^ g - 1) = Z.of_nat i ∧ store D !! i = Some b.
Proof using Hg.
  intros [H1 H2 H3]. pose proof (hash_range k) as Hr. set (i := Z.to_nat (Z.land k (2 ^ g - 1))).
  assert (Hi : (i < Z.to_nat (2 ^ g))%nat) by lia. assert (Ei : Z.land k (2 ^ g - 1) = Z.of_nat i) by lia.
  destruct (H3 i Hi) as (b & Hb & ? & ? & Hv). exists i, b. split_and!; try done.
  - unfold hash. rewrite H1, shl_one_spec. simpl. by rewrite Ei.
  - unfold bucket_at, aget. rewrite (proj2 (Z.leb_le _ _)), Nat2Z.id, H2, lookup_seq_lt by lia. simpl. by rewrite Hb.
  - by apply Hv.
Qed.

(** Changing the bucket of [k] at [k]. *)
Lemma holds_change n n' D M M' k i b m : holds g bs n D M → (n ≤ n')%nat → (i < Z.to_nat (2 ^ g))%nat →
  Z.land k (2 ^ g - 1) = Z.of_nat i → store D !! i = Some b → (base.size m ≤ n')%nat → m !! k = M' !! k →
  (∀ j, j ≠ k → m !! j = values b !! j ∧ M' !! j = M !! j) → holds g bs n' (set_bucket D i (set_values b m)) M'.
Proof.
  intros [H1 H2 H3] Hn Hi Hk Hb Hm Hmk Hj. split; [done|done|]. intros i' Hi'. simpl.
  destruct (H3 i' Hi') as (b' & Hb' & Hsz & Hsm & Hv). destruct (decide (i' = i)) as [->|Hne].
  - simplify_eq. exists (set_values b m). rewrite list_lookup_insert_eq by (by eapply lookup_lt_Some). split_and!; try done.
    intros j Hjh. simpl. destruct (decide (j = k)) as [->|Hjk]; [done|]. destruct (Hj j Hjk) as [-> ->]. by apply Hv.
  - exists b'. rewrite list_lookup_insert_ne by done. split_and!; try done; [lia|]. intros j Hjh. rewrite Hv by done.
    destruct (decide (j = k)) as [->|Hjk]; [|by destruct (Hj j Hjk) as [_ ->]]. exfalso. apply Hne. lia.
Qed.

Lemma holds_same n D M i b : holds g bs n D M → store D !! i = Some b → holds g bs (S n) (set_bucket D i b) M.
Proof.
  intros [H1 H2 H3] Hb. split; [done|done|]. intros i' Hi'. simpl. rewrite list_insert_id by done.
  destruct (H3 i' Hi') as (b' & ? & ? & ? & ?). exists b'. split_and!; try done. lia.
Qed.

Lemma holds_call fuel n D M x : holds g bs n D M → Z.of_nat n < bs →
  ∃ D', dir_call (S fuel) x D = Some (D', (map_call x M).2) ∧ holds g bs (S n) D' (map_call x M).1.
Proof using Hg Hbs.
  intros HD Hn. destruct x as [k v|k|k v|k r]; simpl; destruct (holds_bucket n D M k HD) as (i & b & Eh & Eb & Hs & Hsz & Hv & Hi & Hk & Hst).
  - rewrite Eh. bind_simpl. rewrite Eb. bind_simpl. simpl. unfold Bucket_insert. rewrite Hv. destruct (M !! k) as [w|] eqn:EM; simpl.
    + eexists. split; [done|]. by apply holds_same.
    + unfold isFull. rewrite Hs, uwrap_small, (proj2 (Z.eqb_neq _ _)) by lia. simpl. eexists. split; [done|].
      eapply holds_change; try done; [lia| |by rewrite !lookup_insert_eq|].
      * rewrite map_size_insert_None by (by rewrite Hv). lia.
      * intros j Hj. by rewrite !lookup_insert_ne.
  - unfold remove. rewrite Eh. bind_simpl. rewrite Eb. bind_simpl. simpl. unfold Bucket_remove. rewrite Hv.
    destruct (M !! k) as [w|] eqn:EM; simpl; (eexists; split; [done|]).
    + eapply holds_change; try done; [lia| |by rewrite !lookup_delete_eq|].
      * rewrite map_size_delete, Hv. simpl. lia.
      * intros j Hj. by rewrite !lookup_delete_ne.
    + rewrite delete_id by done. by apply holds_same.
  - unfold update. rewrite Eh. bind_simpl. rewrite Eb. bind_simpl. simpl. unfold Bucket_update. rewrite Hv.
    destruct (M !! k) as [w|] eqn:EM; simpl; (eexists; split; [done|]); [|by apply holds_same].
    eapply holds_change; try done; [lia| |by rewrite !lookup_insert_eq|].
    + rewrite map_size_insert, Hv. simpl. lia.
    + intros j Hj. by rewrite !lookup_insert_ne.
  - unfold search. rewrite Eh. bind_simpl. rewrite Eb. bind_simpl. simpl. unfold Bucket_search. rewrite Hv. exists D.
    split; [by destruct (M !! k)|]. destruct HD as [H1 H2 H3]. split; [done|done|]. intros i' Hi'.
    destruct (H3 i' Hi') as (b' & ? & ? & ? & ?). exists b'. split_and!; try done. lia.
Qed.

Lemma holds_run fuel xs n D M : holds g bs n D M → Z.of_nat (n + length xs) ≤ bs →
  dir_run (S fuel) xs D = Some (map_run xs M).
Proof using Hg Hbs.
  revert n D M. induction xs as [|x xs IH]; intros n D M HD Hn; [done|]. cbn [dir_run map_run]. simpl in Hn.
  destruct (holds_call fuel n D M x HD) as (D' & -> & HD'); [lia|]. bind_simpl. cbn [fst snd].
  rewrite (IH (S n) D' _ HD') by lia. done.
Qed.
End no_overflow.

(** A new directory behaves as a map, as long as its client makes no more calls than a bucket
    has room for entries. *)
Theorem exthash_map_without_overflow fuel depth bs xs : 0 ≤ depth < 31 → Z.of_nat (length xs) ≤ bs < 2 ^ 31 →
  ∃ D, Directory_new depth bs = Some D ∧ dir_run (S fuel) xs D = Some (map_run xs ∅).
Proof.
  intros Hd Hbs. unfold Directory_new. rewrite shl_one_spec by done. bind_simpl. eexists. split; [done|].
  apply (holds_run depth bs Hd) with (n := 0%nat); [lia| |lia]. split; [done|done|].
  intros i Hi. exists (Bucket_new depth bs). simpl. rewrite lookup_replicate_2 by done. split_and!; try done.
Qed.

(** ** Splitting *)

(** A split that doubles the directory loses the keys of the bucket whose hash value stays the
    same: the entry is overwritten by an empty bucket before the keys are copied, because
    [pair_index] is the entry itself. *)
Theorem exthash_split_loses_keys ins D bno p b : 0 ≤ global_depth D < 30 →
  Z.of_nat (length (buckets D)) = 2 ^ global_depth D → 0 ≤ bno < 2 ^ global_depth D →
  bucket_at D bno = Some (p, b) → depth b = global_depth D →
  ∃ D', split ins D bno = Some D' ∧ global_depth D' = global_depth D + 1 ∧
    ∀ key ret, hash D' key = Some bno → search D' key ret = Some ret.
Proof.
  intros Hg Hlen Hb Hbk Hdep. set (g := global_depth D) in *.
  assert (Hp : 2 ^ (g + 1) = 2 * 2 ^ g) by (rewrite Z.pow_add_r; lia).
  unfold split. rewrite Hbk. bind_simpl. unfold increaseDepth. cbn [fst snd]. rewrite Hdep.
  rewrite swrap_small by lia. cbn [global_depth set_bucket]. fold g. rewrite (proj2 (Z.ltb_lt g (g + 1))) by lia.
  unfold grow. cbn [global_depth buckets set_bucket]. fold g. rewrite (shl_one_spec g) by lia. bind_simpl.
  rewrite (proj2 (Z.leb_le _ _)) by lia. bind_simpl. unfold bucketIndex. rewrite (shl_one_spec (g + 1)) by lia. bind_simpl.
  assert (Hpair : Z.land bno (2 ^ (g + 1) - 1) = bno).
  { replace (2 ^ (g + 1) - 1) with (Z.ones (g + 1)) by (rewrite Z.ones_equiv; lia).
    rewrite Z.land_ones by lia. apply Z.mod_small. lia. }
  rewrite Hpair. unfold new_bucket. cbn [buckets store global_depth bucket_size set_bucket].
  set (l := buckets D ++ take (Z.to_nat (2 ^ g)) (buckets D)). set (st := <[p := _]> (store D)).
  assert (Hl : (Z.to_nat bno < length l)%nat) by (unfold l; rewrite length_app, length_take; lia).
  unfold aset. rewrite (proj2 (Z.leb_le 0 bno)), (proj2 (Z.ltb_lt bno _)) by lia. simpl andb. bind_simpl.
  set (nb := Bucket_new (g + 1) (bucket_size D)).
  assert (Hat : ∀ gd, bucket_at (mkDir gd (bucket_size D) (<[Z.to_nat bno := length st]> l) (st ++ [nb])) bno = Some (length st, nb)).
  { intros gd. unfold bucket_at, aget. cbn [buckets store]. rewrite (proj2 (Z.leb_le 0 bno)) by lia.
    rewrite list_lookup_insert_eq by done. simpl. rewrite lookup_app_r, Nat.sub_diag by lia. done. }
  unfold set_buckets. cbn [buckets store global_depth bucket_size]. rewrite Hat. bind_simpl. cbn [fst snd].
  assert (Hst : <[length st := clear nb]> (st ++ [nb]) = st ++ [nb]).
  { by rewrite <-(Nat.add_0_r (length st)), insert_app_r. }
  unfold set_bucket. cbn [buckets store global_depth bucket_size]. rewrite Hst. bind_simpl.
  assert (Hno : ∀ cnt l' i step lo hi q, i < lo ∨ hi ≤ i → redirect cnt l' i step lo hi q = Some l').
  { intros [|cnt] l' i step lo hi q Hi; [done|]. cbn [redirect].
    destruct (Z.leb_spec lo i), (Z.ltb_spec i hi); simpl; done || lia. }
  rewrite (shl_one_spec (g + 1)) by lia. bind_simpl. rewrite Hno by lia. bind_simpl. rewrite Hno by lia. bind_simpl. eexists. split; [done|]. split; [done|].
  intros key ret Hh. unfold search. rewrite Hh. bind_simpl. rewrite Hat. done.
Qed.

(** A directory of two buckets with one entry each: the second insertion loses the first. *)
Theorem exthash_insert_loses_key :
  (D ← Directory_new 1 1; D0 ← insert 5 D 0 [97]; v0 ← search D0 0 [];
   D1 ← insert 5 D0 2 [98]; v1 ← search D1 0 []; Some (v0, v1)) = Some ([97], []).
Proof. by vm_compute. Qed.
