(* ===== verification/Ae.v ===== *)
(** * The event loop (src/c-util/ae.cc)

    File events are callbacks on file descriptors, watched with epoll; time events are callbacks
    at points in time, in a linked list.  The kernel (epoll, the clock, malloc) is an
    interface [Kernel] with the documented laws [KernelLaws]: [interest] is what an epoll
    instance watches.  A callback is a number, and the interface [Handlers] says what it does
    to the loop; the laws [HandlerLaws] are that it only calls functions of the loop, rounds of events included.
    Adding and removing descriptors may fail; the theorems on what is watched say what then still holds.

    A list of time events stands for the linked list, and an event's identifier for its
    address: using an event that is no longer in the list is [None], like an access outside
    of an array or a call of a callback that was never set. *)

From S2P Require Import Prelude.

(** src/c-util/ae.h:16-43, [AE_OK]. *)
Definition AE_OK : Z := 0.
Definition AE_ERR : Z := -1.
Definition AE_NONE : Z := 0.
Definition AE_READABLE : Z := 1.
Definition AE_WRITABLE : Z := 2.
Definition AE_FILE_EVENTS : Z := 1.
Definition AE_TIME_EVENTS : Z := 2.
Definition AE_ALL_EVENTS : Z := 3.
Definition AE_DONT_WAIT : Z := 4.
Definition AE_NOMORE : Z := -1.

(** Constants of the kernel. *)
Definition EPOLLIN : Z := 1.
Definition EPOLLOUT : Z := 4.
Definition EPOLLERR : Z := 8.
Definition EPOLLHUP : Z := 16.
Definition EPOLLET : Z := 2 ^ 31.
Inductive epoll_op := EPOLL_CTL_ADD | EPOLL_CTL_MOD | EPOLL_CTL_DEL.

(** ** The kernel *)

Class Kernel := {
  kst : Type;
  interest : kst → gmap Z Z;
  epoll_ctl : kst → epoll_op → Z → Z → Z * kst;
  epoll_wait : kst → Z → Z → list (Z * Z) * kst;
  gettimeofday : kst → Z * Z * kst;
  time : kst → Z * kst;
  malloc_ok : kst → bool * kst
}.

(** Every operation of [epoll_ctl] may fail (for want of memory, say), and then changes nothing. *)
Class KernelLaws `{Kernel} := {
  ctl_add k fd ev : let '(r, k') := epoll_ctl k EPOLL_CTL_ADD fd ev in
    (r = 0 ∧ interest k !! fd = None ∧ interest k' = <[fd := ev]> (interest k)) ∨ (r = -1 ∧ interest k' = interest k);
  ctl_mod k fd ev : let '(r, k') := epoll_ctl k EPOLL_CTL_MOD fd ev in
    (r = 0 ∧ is_Some (interest k !! fd) ∧ interest k' = <[fd := ev]> (interest k)) ∨ (r = -1 ∧ interest k' = interest k);
  ctl_del k fd ev : let '(r, k') := epoll_ctl k EPOLL_CTL_DEL fd ev in
    (r = 0 ∧ is_Some (interest k !! fd) ∧ interest k' = delete fd (interest k)) ∨ (r = -1 ∧ interest k' = interest k);
  wait_law k n t : let '(l, k') := epoll_wait k n t in
    Z.of_nat (length l) ≤ Z.max 0 n ∧ (∀ fd ev, (fd, ev) ∈ l → is_Some (interest k !! fd)) ∧ interest k' = interest k;
  gettimeofday_law k : interest (gettimeofday k).2 = interest k ∧ 0 ≤ (gettimeofday k).1.2 < 1000000;
  time_law k : interest (time k).2 = interest k;
  malloc_law k : interest (malloc_ok k).2 = interest k
}.

(** No change or removal of a descriptor that is watched fails. *)
Definition removals_succeed `{Kernel} : Prop := ∀ k fd ev, is_Some (interest k !! fd) →
  (epoll_ctl k EPOLL_CTL_MOD fd ev).1 = 0 ∧ (epoll_ctl k EPOLL_CTL_DEL fd ev).1 = 0.

Section loop.
Context `{Kernel}.

(** ** Data *)

(** src/c-util/ae.h:50-66, [aeFileEvent]. *)
Record aeFileEvent := mkFile { mask : Z; rfileProc : option Z; wfileProc : option Z; clientData : Z }.

(** src/c-util/ae.h:72-93, [aeTimeEvent]. *)
Record aeTimeEvent := mkTime {
  id : Z; when_sec : Z; when_ms : Z; timeProc : Z; finalizerProc : option Z; tclientData : Z
}.

(** src/c-util/ae.h:96-106, [aeFiredEvent]. *)
Record aeFiredEvent := mkFired { fired_fd : Z; fired_mask : Z }.

(** src/c-util/ae.h:108-131, [aeEventLoop]. *)
Record aeEventLoop := mkLoop {
  maxfd : Z; setsize : Z; lastTime : Z;
  events : list aeFileEvent; fired : list aeFiredEvent;
  stop : Z;
  timeEventNextId : Z; timeEvents : list aeTimeEvent;
  kernel : kst
}.
Implicit Types (L : aeEventLoop) (fe : aeFileEvent) (te : aeTimeEvent).

Definition set_kernel L k := mkLoop (maxfd L) (setsize L) (lastTime L) (events L) (fired L) (stop L) (timeEventNextId L) (timeEvents L) k.
Definition set_events L evs := mkLoop (maxfd L) (setsize L) (lastTime L) evs (fired L) (stop L) (timeEventNextId L) (timeEvents L) (kernel L).
Definition set_fired L fs := mkLoop (maxfd L) (setsize L) (lastTime L) (events L) fs (stop L) (timeEventNextId L) (timeEvents L) (kernel L).
Definition set_maxfd L m := mkLoop m (setsize L) (lastTime L) (events L) (fired L) (stop L) (timeEventNextId L) (timeEvents L) (kernel L).
Definition set_stop L b := mkLoop (maxfd L) (setsize L) (lastTime L) (events L) (fired L) b (timeEventNextId L) (timeEvents L) (kernel L).
Definition set_timers L n l := mkLoop (maxfd L) (setsize L) (lastTime L) (events L) (fired L) (stop L) n l (kernel L).
Definition set_last L t := mkLoop (maxfd L) (setsize L) t (events L) (fired L) (stop L) (timeEventNextId L) (timeEvents L) (kernel L).

Definition has_bit (x m : Z) : bool := negb (Z.land x m =? 0).

(** ** File events *)

(** src/c-util/ae.cc:60-65, [ee.events]. *)
Definition epoll_bits (m : Z) : Z :=
  Z.lor (if has_bit m AE_READABLE then Z.lor EPOLLIN EPOLLET else 0)
        (if has_bit m AE_WRITABLE then Z.lor EPOLLOUT EPOLLET else 0).

(** src/c-util/ae.cc:45-73, [aeEpollAddEvent]. *)
Definition aeEpollAddEvent L (fd m : Z) : option (Z * aeEventLoop) :=
  fe ← aget (events L) fd;
  let op := if mask fe =? AE_NONE then EPOLL_CTL_ADD else EPOLL_CTL_MOD in
  let m := Z.lor m (mask fe) in
  let '(r, k) := epoll_ctl (kernel L) op fd (epoll_bits m) in
  Some (if r =? -1 then -1 else 0, set_kernel L k).

(** src/c-util/ae.cc:78-102, [aeApiDelEvent]. *)
Definition aeApiDelEvent L (fd delmask : Z) : option aeEventLoop :=
  fe ← aget (events L) fd;
  let m := Z.land (mask fe) (Z.lnot delmask) in
  let op := if negb (m =? AE_NONE) then EPOLL_CTL_MOD else EPOLL_CTL_DEL in
  Some (set_kernel L (epoll_ctl (kernel L) op fd (epoll_bits m)).2).

(** src/c-util/ae.cc:126-136, [mask |= AE_READABLE]. *)
Definition fired_bits (ev : Z) : Z :=
  let m := 0 in
  let m := if has_bit ev EPOLLIN then Z.lor m AE_READABLE else m in
  let m := if has_bit ev EPOLLOUT then Z.lor m AE_WRITABLE else m in
  let m := if has_bit ev EPOLLERR then Z.lor m AE_WRITABLE else m in
  if has_bit ev EPOLLHUP then Z.lor m AE_WRITABLE else m.

(** src/c-util/ae.cc:124-140, [for (j = 0; j < numevents; j++)]. *)
Fixpoint store_fired (l : list (Z * Z)) (j : Z) (fs : list aeFiredEvent) : option (list aeFiredEvent) :=
  match l with
  | [] => Some fs
  | (fd, ev) :: l => fs ← aset fs j (mkFired fd (fired_bits ev)); store_fired l (j + 1) fs
  end.

(** src/c-util/ae.cc:107-145, [aeEpoll]. The timeout is in milliseconds, -1 for none; [epoll_wait] takes an [int]. *)
Definition aeEpoll L (timeout : Z) : option (Z * aeEventLoop) :=
  let '(l, k) := epoll_wait (kernel L) (setsize L) (s32 timeout) in
  fs ← store_fired l 0 (fired L);
  Some (Z.of_nat (length l), set_fired (set_kernel L k) fs).

(** src/c-util/ae.cc:157-198, [aeCreateEventLoop]. The parts of the arrays that [malloc] leaves
    undefined are not set here either. *)
Definition aeCreateEventLoop (size : Z) (k : kst) : option aeEventLoop :=
  if 0 <=? size then
    let '(ok, k) := malloc_ok k in
    if ok : bool then
      let '(now, k) := time k in
      Some (mkLoop (-1) size now (replicate (Z.to_nat size) (mkFile AE_NONE None None 0))
        (replicate (Z.to_nat size) (mkFired 0 0)) 0 0 [] k)
    else None
  else None.

(** src/c-util/ae.cc:214-248, [aeCreateFileEvent]. *)
Definition aeCreateFileEvent L (fd m proc data : Z) : option (Z * aeEventLoop) :=
  if setsize L <=? fd then Some (AE_ERR, L) else
  x ← aeEpollAddEvent L fd m;
  let '(r, L) := x in
  if r =? -1 then Some (AE_ERR, L) else
  fe ← aget (events L) fd;
  let fe := mkFile (Z.lor (mask fe) m)
    (if has_bit m AE_READABLE then Some proc else rfileProc fe)
    (if has_bit m AE_WRITABLE then Some proc else wfileProc fe) data in
  evs ← aset (events L) fd fe;
  let L := set_events L evs in
  Some (AE_OK, if maxfd L <? fd then set_maxfd L fd else L).

(** src/c-util/ae.cc:272-275, [for (j = eventLoop->maxfd - 1; j >= 0; j--)]. *)
Fixpoint last_set (evs : list aeFileEvent) (j : nat) : option Z :=
  match j with
  | O => Some (-1)
  | S j => fe ← evs !! j; if negb (mask fe =? AE_NONE) then Some (Z.of_nat j) else last_set evs j
  end.

(** src/c-util/ae.cc:253-280, [aeDeleteFileEvent]. *)
Definition aeDeleteFileEvent L (fd m : Z) : option aeEventLoop :=
  if setsize L <=? fd then Some L else
  fe ← aget (events L) fd;
  if mask fe =? AE_NONE then Some L else
  let fe := mkFile (Z.land (mask fe) (Z.lnot m)) (rfileProc fe) (wfileProc fe) (clientData fe) in
  evs ← aset (events L) fd fe;
  let L := set_events L evs in
  L ← (if (fd =? maxfd L) && (mask fe =? AE_NONE)
       then j ← last_set (events L) (Z.to_nat (maxfd L)); Some (set_maxfd L j) else Some L);
  aeApiDelEvent L fd m.

(** src/c-util/ae.cc:285-292, [aeGetFileEvents]. *)
Definition aeGetFileEvents L (fd : Z) : option Z :=
  if setsize L <=? fd then Some 0 else fe ← aget (events L) fd; Some (mask fe).

(** src/c-util/ae.cc:579-582, [aeStop]. *)
Definition aeStop L : aeEventLoop := set_stop L 1.

(** ** Time events *)

(** src/c-util/ae.cc:298-305, [aeGetTime]. *)
Definition aeGetTime L : Z * Z * aeEventLoop :=
  let '(sec, usec, k) := gettimeofday (kernel L) in (sec, Z.quot usec 1000, set_kernel L k).

(** src/c-util/ae.cc:311-334, [aeAddMillisecondsToNow]. *)
Definition aeAddMillisecondsToNow L (milliseconds : Z) : Z * Z * aeEventLoop :=
  let '(cur_sec, cur_ms, L) := aeGetTime L in
  let sec := cur_sec + Z.quot milliseconds 1000 in
  let ms := cur_ms + Z.rem milliseconds 1000 in
  if 1000 <=? ms then (sec + 1, ms - 1000, L) else (sec, ms, L).

(** src/c-util/ae.cc:588-618, [aeCreateTimeEvent]. *)
Definition aeCreateTimeEvent L (milliseconds proc data : Z) (finalizer : option Z) : Z * aeEventLoop :=
  let i := timeEventNextId L in
  let L := set_timers L (i + 1) (timeEvents L) in
  let '(ok, k) := malloc_ok (kernel L) in
  let L := set_kernel L k in
  if negb ok then (AE_ERR, L) else
  let '(sec, ms, L) := aeAddMillisecondsToNow L milliseconds in
  (i, set_timers L (timeEventNextId L) (mkTime i sec ms proc finalizer data :: timeEvents L)).

(** src/c-util/ae.cc:417-431, [aeSearchNearestTimer]. *)
Definition earlier te te' : bool :=
  (when_sec te <? when_sec te') || ((when_sec te =? when_sec te') && (when_ms te <? when_ms te')).
Fixpoint nearest_from (l : list aeTimeEvent) (nearest : option aeTimeEvent) : option aeTimeEvent :=
  match l with
  | [] => nearest
  | te :: l =>
      nearest_from l (match nearest with
                      | None => Some te
                      | Some n => if earlier te n then Some te else nearest
                      end)
  end.
Definition aeSearchNearestTimer L : option aeTimeEvent := nearest_from (timeEvents L) None.

(** src/c-util/ae.cc:491-506, [tvp->tv_sec = shortest->when_sec - now_sec]. In milliseconds, as
    [aeEpoll] computes them. *)
Definition wait_time te (now_sec now_ms : Z) : Z :=
  let tv_sec := when_sec te - now_sec in
  let '(tv_sec, tv_usec) :=
    if when_ms te <? now_ms then (tv_sec - 1, (when_ms te + 1000 - now_ms) * 1000)
    else (tv_sec, (when_ms te - now_ms) * 1000) in
  let tv_sec := if tv_sec <? 0 then 0 else tv_sec in
  let tv_usec := if tv_usec <? 0 then 0 else tv_usec in
  tv_sec * 1000 + Z.quot tv_usec 1000.
End loop.
Arguments aeEventLoop {_}.

(** ** Callbacks *)

Class Handlers `{Kernel} := {
  call_file : Z → aeEventLoop → Z → Z → Z → aeEventLoop;
  call_time : Z → aeEventLoop → Z → Z → Z * aeEventLoop;
  call_final : Z → aeEventLoop → Z → aeEventLoop
}.

Section process.
Context `{Handlers}.
Implicit Types (L : aeEventLoop) (te : aeTimeEvent).

(** src/c-util/ae.cc:629-652, [while (te)]. The event with identifier [i], and the others. *)
Fixpoint unlink (l : list aeTimeEvent) (i : Z) : option (aeTimeEvent * list aeTimeEvent) :=
  match l with
  | [] => None
  | te :: l => if id te =? i then Some (te, l) else r ← unlink l i; Some (r.1, te :: r.2)
  end.

(** src/c-util/ae.cc:623-655, [aeDeleteTimeEvent]. *)
Definition aeDeleteTimeEvent L (i : Z) : Z * aeEventLoop :=
  match unlink (timeEvents L) i with
  | Some (te, l) =>
      let L := set_timers L (timeEventNextId L) l in
      (AE_OK, match finalizerProc te with Some f => call_final f L (tclientData te) | None => L end)
  | None => (AE_ERR, L)
  end.

(** [te->when_sec] and [te->when_ms] of the event with identifier [i]. *)
Fixpoint set_when (l : list aeTimeEvent) (i sec ms : Z) : option (list aeTimeEvent) :=
  match l with
  | [] => None
  | te :: l =>
      if id te =? i then Some (mkTime i sec ms (timeProc te) (finalizerProc te) (tclientData te) :: l)
      else l ← set_when l i sec ms; Some (te :: l)
  end.

(** src/c-util/ae.cc:392-401, [if (retval != AE_NOMORE)]. *)
Definition after_call L (i retval : Z) : option aeEventLoop :=
  if negb (retval =? AE_NOMORE) then
    let '(sec, ms, L) := aeAddMillisecondsToNow L retval in
    l ← set_when (timeEvents L) i sec ms; Some (set_timers L (timeEventNextId L) l)
  else Some (aeDeleteTimeEvent L i).2.

Definition due te (sec ms : Z) : bool := (when_sec te <? sec) || ((sec =? when_sec te) && (when_ms te <=? ms)).

(** src/c-util/ae.cc:365-411, [while (te)]. [l] is the list from [te] on. *)
Fixpoint time_loop (fuel : nat) L (l : list aeTimeEvent) (maxId processed : Z) : option (Z * aeEventLoop) :=
  match fuel with
  | O => None
  | S fuel =>
      match l with
      | [] => Some (processed, L)
      | te :: l =>
          if maxId <? id te then time_loop fuel L l maxId processed else
          let '(now_sec, now_ms, L) := aeGetTime L in
          if due te now_sec now_ms then
            let '(retval, L) := call_time (timeProc te) L (id te) (tclientData te) in
            L ← after_call L (id te) retval;
            time_loop fuel L (timeEvents L) maxId (processed + 1)
          else time_loop fuel L l maxId processed
      end
  end.

(** src/c-util/ae.cc:345-362, [time_t now = time(NULL)]. When the clock was set back, all events are made due. *)
Definition round_start L : aeEventLoop :=
  let '(now, k) := time (kernel L) in
  let L := set_kernel L k in
  let L := if now <? lastTime L then
             set_timers L (timeEventNextId L)
               ((λ te, mkTime (id te) 0 (when_ms te) (timeProc te) (finalizerProc te) (tclientData te)) <$> timeEvents L)
           else L in
  set_last L now.

(** src/c-util/ae.cc:340-413, [processTimeEvents]. *)
Definition processTimeEvents (fuel : nat) L : option (Z * aeEventLoop) :=
  let L := round_start L in
  time_loop fuel L (timeEvents L) (timeEventNextId L - 1) 0.

(** src/c-util/ae.cc:524-551, [for (j = 0; j < numevents; j++)]. *)
Definition fire_one L (j : Z) : option aeEventLoop :=
  ev ← aget (fired L) j;
  let m := fired_mask ev in
  let fd := fired_fd ev in
  fe ← aget (events L) fd;
  let r := has_bit (Z.land (mask fe) m) AE_READABLE in
  L ← (if r then p ← rfileProc fe; Some (call_file p L fd (clientData fe) m) else Some L);
  fe ← aget (events L) fd;
  if has_bit (Z.land (mask fe) m) AE_WRITABLE then
    if negb r || negb (bool_decide (wfileProc fe = rfileProc fe)) then
      p ← wfileProc fe; Some (call_file p L fd (clientData fe) m)
    else Some L
  else Some L.

Fixpoint fire_all (n : nat) L (j : Z) : option aeEventLoop :=
  match n with
  | O => Some L
  | S n => L ← fire_one L j; fire_all n L (j + 1)
  end.

(** src/c-util/ae.cc:476-520, [shortest = aeSearchNearestTimer(eventLoop)]. How long to wait. *)
Definition poll_timeout L (flags : Z) : Z * aeEventLoop :=
  let shortest := if has_bit flags AE_TIME_EVENTS && negb (has_bit flags AE_DONT_WAIT)
                  then aeSearchNearestTimer L else None in
  match shortest with
  | Some te => let '(now_sec, now_ms, L) := aeGetTime L in (wait_time te now_sec now_ms, L)
  | None => (if has_bit flags AE_DONT_WAIT then 0 else -1, L)
  end.

(** src/c-util/ae.cc:464-559, [aeProcessEvents]. *)
Definition aeProcessEvents (fuel : nat) L (flags : Z) : option (Z * aeEventLoop) :=
  if negb (has_bit flags AE_TIME_EVENTS) && negb (has_bit flags AE_FILE_EVENTS) then Some (0, L) else
  x ← (if negb (maxfd L =? -1) || (has_bit flags AE_TIME_EVENTS && negb (has_bit flags AE_DONT_WAIT)) then
         let '(timeout, L) := poll_timeout L flags in
         x ← aeEpoll L timeout;
         L ← fire_all (Z.to_nat x.1) x.2 0;
         Some (x.1, L)
       else Some (0, L));
  let '(processed, L) := x in
  if has_bit flags AE_TIME_EVENTS then
    y ← processTimeEvents fuel L; Some (processed + y.1, y.2)
  else Some (processed, L).

(** src/c-util/ae.cc:564-574, [aeMain]. Up to [rounds] iterations. *)
Fixpoint main_loop (rounds fuel : nat) L : option aeEventLoop :=
  if negb (stop L =? 0) then Some L else
  match rounds with
  | O => None
  | S rounds => x ← aeProcessEvents fuel L AE_ALL_EVENTS; main_loop rounds fuel x.2
  end.
Definition aeMain (rounds fuel : nat) L : option aeEventLoop := main_loop rounds fuel (set_stop L 0).

(** ** What callbacks may do

    They call functions of the loop.  [aeDeleteTimeEvent] takes an event out of the list, and
    then runs its finalizer, which takes steps of its own. *)

Inductive plain : aeEventLoop → aeEventLoop → Prop :=
  | api_create_file L fd m proc data r L' : 0 ≤ fd → 1 ≤ m ≤ 3 → aeCreateFileEvent L fd m proc data = Some (r, L') → plain L L'
  | api_delete_file L fd m L' : 0 ≤ fd → 0 ≤ m ≤ 3 → aeDeleteFileEvent L fd m = Some L' → plain L L'
  | api_create_time L ms proc data f : 0 ≤ ms → plain L (aeCreateTimeEvent L ms proc data f).2
  | api_unlink L i te l : unlink (timeEvents L) i = Some (te, l) → plain L (set_timers L (timeEventNextId L) l)
  | api_stop L : plain L (aeStop L).

(** They may also call [aeProcessEvents]: a round inside of a round reads the clock, polls, starts a round of time
    events, sets the time of an event, and runs callbacks, which take such steps again. *)
Inductive api : aeEventLoop → aeEventLoop → Prop :=
  | api_plain L L' : plain L L' → api L L'
  | api_clock L : api L (aeGetTime L).2
  | api_poll L t n L' : aeEpoll L t = Some (n, L') → api L L'
  | api_round L : api L (round_start L)
  | api_when L i sec ms l : set_when (timeEvents L) i sec ms = Some l → api L (set_timers L (timeEventNextId L) l).
End process.

Class HandlerLaws `{Handlers} := {
  call_file_law p L fd data m : rtc api L (call_file p L fd data m);
  call_time_law p L i data : rtc api L (call_time p L i data).2;
  call_final_law p L data : rtc api L (call_final p L data)
}.

(** ** The invariant *)

(** What the kernel watches for a mask: at least its events, and exactly these if [exact]. *)
Definition watch_ok (exact : Prop) (watched : option Z) (m : Z) : Prop :=
  (watched = None ∧ m = AE_NONE) ∨
  ∃ m0, 1 ≤ m0 ≤ 3 ∧ watched = Some (epoll_bits m0) ∧ Z.land m m0 = m ∧ (exact → m0 = m).

(** An entry, and what the kernel watches for it. *)
Definition entry_ok (exact : Prop) (watched : option Z) (fe : aeFileEvent) : Prop :=
  0 ≤ mask fe ≤ 3 ∧ (has_bit (mask fe) AE_READABLE = true → is_Some (rfileProc fe)) ∧
  (has_bit (mask fe) AE_WRITABLE = true → is_Some (wfileProc fe)) ∧ watch_ok exact watched (mask fe).

Definition registered (evs : list aeFileEvent) (fd : Z) : Prop := ∃ fe, aget evs fd = Some fe ∧ mask fe ≠ AE_NONE.

Record ae_inv `{Kernel} (L : aeEventLoop) : Prop := {
  inv_events : Z.of_nat (length (events L)) = setsize L;
  inv_fired : Z.of_nat (length (fired L)) = setsize L;
  inv_entry fd fe : aget (events L) fd = Some fe → entry_ok removals_succeed (interest (kernel L) !! fd) fe;
  inv_interest fd : is_Some (interest (kernel L) !! fd) → 0 ≤ fd < setsize L;
  inv_maxfd : -1 ≤ maxfd L < setsize L ∧ (maxfd L ≠ -1 → registered (events L) (maxfd L)) ∧
    ∀ fd, registered (events L) fd → fd ≤ maxfd L;
  inv_ids : NoDup (id <$> timeEvents L);
  inv_next te : te ∈ timeEvents L → id te < timeEventNextId L
}.

Section inv.
Context `{KernelLaws}.
Implicit Types (L : aeEventLoop) (fe : aeFileEvent) (te : aeTimeEvent).

(** The file events, and the time events, as far as the invariant speaks of them. *)
Definition same_files L L' : Prop :=
  events L' = events L ∧ length (fired L') = length (fired L) ∧ setsize L' = setsize L ∧ maxfd L' = maxfd L ∧
  interest (kernel L') = interest (kernel L).

Lemma inv_files L L' : ae_inv L → same_files L L' → NoDup (id <$> timeEvents L') →
  (∀ te, te ∈ timeEvents L' → id te < timeEventNextId L') → ae_inv L'.
Proof.
  intros [I1 I2 I3 I4 I5 I6 I7] (E1 & E2 & E3 & E4 & E5) Hn Ht. split; rewrite ?E1, ?E2, ?E3, ?E4, ?E5; done.
Qed.

Lemma inv_same L L' : ae_inv L → same_files L L' → timeEvents L' = timeEvents L → timeEventNextId L' = timeEventNextId L →
  ae_inv L'.
Proof. intros HI HS Et En. apply (inv_files L); [done..| |]; rewrite Et, ?En; apply HI. Qed.

Lemma get_entry L fd : ae_inv L → 0 ≤ fd < setsize L → ∃ fe, aget (events L) fd = Some fe ∧
  entry_ok removals_succeed (interest (kernel L) !! fd) fe.
Proof.
  intros HI Hfd. pose proof (inv_events _ HI). destruct (lookup_lt_is_Some_2 (events L) (Z.to_nat fd)) as [fe E]; [lia|].
  assert (Ea : aget (events L) fd = Some fe) by (unfold aget; by rewrite (proj2 (Z.leb_le _ _)) by lia).
  exists fe. split; [done|]. by apply (inv_entry _ HI).
Qed.

Lemma aset_entry (evs : list aeFileEvent) fd fe : 0 ≤ fd < Z.of_nat (length evs) → ∃ evs', aset evs fd fe = Some evs' ∧
  length evs' = length evs ∧ aget evs' fd = Some fe ∧ ∀ j, j ≠ fd → aget evs' j = aget evs j.
Proof.
  intros Hfd. exists (<[Z.to_nat fd := fe]> evs). unfold aset, aget.
  rewrite !(proj2 (Z.leb_le 0 fd)), (proj2 (Z.ltb_lt _ _)) by lia. split_and!; [done|by rewrite length_insert| |].
  - apply list_lookup_insert_eq. lia.
  - intros j Hj. destruct (Z.leb_spec 0 j); [|done]. apply list_lookup_insert_ne. lia.
Qed.

(** Changing the entry of [fd], in the loop and in the kernel. *)
Lemma inv_change L L' fd fe : ae_inv L → 0 ≤ fd < setsize L → length (events L') = length (events L) →
  aget (events L') fd = Some fe → (∀ j, j ≠ fd → aget (events L') j = aget (events L) j) →
  length (fired L') = length (fired L) → setsize L' = setsize L →
  entry_ok removals_succeed (interest (kernel L') !! fd) fe → (∀ j, j ≠ fd → interest (kernel L') !! j = interest (kernel L) !! j) →
  (-1 ≤ maxfd L' < setsize L ∧ (maxfd L' ≠ -1 → registered (events L') (maxfd L')) ∧
    ∀ j, registered (events L') j → j ≤ maxfd L') →
  timeEvents L' = timeEvents L → timeEventNextId L' = timeEventNextId L → ae_inv L'.
Proof.
  intros HI Hfd El Ef Eo Efi Es He Hi Hm Et En. split; rewrite ?El, ?Efi, ?Es, ?Et, ?En; try apply HI; [| |done].
  - intros j fj Hj. destruct (decide (j = fd)) as [->|Hne]; [by simplify_eq|]. rewrite Hi by done.
    rewrite Eo in Hj by done. by apply (inv_entry _ HI).
  - intros j Hj. destruct (decide (j = fd)) as [->|Hne]; [done|]. rewrite Hi in Hj by done. by apply (inv_interest _ HI).
Qed.

Lemma mask_cases (m : Z) : 0 ≤ m ≤ 3 → m = 0 ∨ m = 1 ∨ m = 2 ∨ m = 3.
Proof. lia. Qed.

(** The masks of an entry that gains or loses events. *)
Lemma entry_add exact fe m proc data : (∀ x, entry_ok exact x fe → 1 ≤ m ≤ 3 → let fe' := mkFile (Z.lor (mask fe) m)
    (if has_bit m AE_READABLE then Some proc else rfileProc fe)
    (if has_bit m AE_WRITABLE then Some proc else wfileProc fe) data in
  mask fe' ≠ AE_NONE ∧ entry_ok exact (Some (epoll_bits (Z.lor m (mask fe)))) fe').
Proof.
  intros x (Hm0 & Hr & Hw & _) Hm. destruct fe as [m0 r w d]. simpl in *.
  destruct (mask_cases m0 Hm0) as [->|[->|[->| ->]]]; assert (m = 1 ∨ m = 2 ∨ m = 3) as [->|[->| ->]] by lia;
    (split; [done|]); unfold entry_ok; simpl; split_and!; try done; auto; right; eexists; (split; [|split; [reflexivity|done]]); done.
Qed.

Lemma watch_remove exact x m m' : watch_ok exact x m → m ≠ AE_NONE → Z.land m' m = m' → ¬ exact → watch_ok exact x m'.
Proof.
  intros [[_ ?]|(m0 & H1 & H2 & H3 & _)] Hm Hsub Hex; [done|]. right. exists m0. split; [done|]. split; [done|]. split; [|tauto].
  by rewrite <-Hsub, <-Z.land_assoc, H3.
Qed.

Lemma watch_exact exact m : 0 ≤ m ≤ 3 → watch_ok exact (if m =? AE_NONE then None else Some (epoll_bits m)) m.
Proof.
  intros Hm. destruct (Z.eqb_spec m AE_NONE) as [->|Hne]; [by left|right]. exists m. split_and!; try done; [unfold AE_NONE in Hne; lia|lia|].
  apply Z.land_diag.
Qed.

(** Removing events: the kernel follows, or not. *)
Lemma entry_remove exact fe m x : entry_ok exact x fe → mask fe ≠ AE_NONE → 0 ≤ m ≤ 3 → let m' := Z.land (mask fe) (Z.lnot m) in
  let fe' := mkFile m' (rfileProc fe) (wfileProc fe) (clientData fe) in
  Z.land m' (Z.lnot m) = m' ∧ entry_ok exact (if m' =? AE_NONE then None else Some (epoll_bits m')) fe' ∧
  (¬ exact → entry_ok exact x fe').
Proof.
  intros (Hm0 & Hr & Hw & Hx) Hnz Hm m' fe'.
  assert (Hm' : 0 ≤ m' ≤ 3 ∧ Z.land m' (Z.lnot m) = m' ∧ Z.land m' (mask fe) = m' ∧
    (has_bit m' AE_READABLE = true → has_bit (mask fe) AE_READABLE = true) ∧
    (has_bit m' AE_WRITABLE = true → has_bit (mask fe) AE_WRITABLE = true)).
  { subst m'. destruct (mask_cases (mask fe) Hm0) as [->|[->|[->| ->]]], (mask_cases m Hm) as [->|[->|[->| ->]]]; vm_compute; intuition congruence. }
  destruct Hm' as (H1 & H2 & H3 & H4 & H5). split; [done|]. split.
  - split; [done|]. do 2 (split; [simpl; auto|]). by apply watch_exact.
  - intros Hex. split; [done|]. do 2 (split; [simpl; auto|]). by eapply watch_remove.
Qed.

Lemma create_file_ok L fd m proc data : ae_inv L → 0 ≤ fd → 1 ≤ m ≤ 3 →
  ∃ r L', aeCreateFileEvent L fd m proc data = Some (r, L') ∧ ae_inv L' ∧
    (r = AE_OK ∧ (∃ fe, aget (events L') fd = Some fe ∧ Z.land (mask fe) m = m) ∨ r = AE_ERR ∧ events L' = events L).
Proof.
  intros HI Hfd Hm. unfold aeCreateFileEvent. destruct (Z.leb_spec (setsize L) fd) as [Hge|Hlt].
  { exists AE_ERR, L. split; [done|]. split; [done|]. by right. }
  destruct (get_entry L fd HI) as (fe & Efe & Hok); [lia|]. unfold aeEpollAddEvent. rewrite Efe. bind_simpl.
  destruct (entry_add _ fe m proc data _ Hok Hm) as [Hnz Hok']. cbv zeta in Hnz, Hok'.
  set (fe' := mkFile (Z.lor (mask fe) m) _ _ data) in *. set (ev := epoll_bits (Z.lor m (mask fe))) in *.
  set (op := if mask fe =? AE_NONE then EPOLL_CTL_ADD else EPOLL_CTL_MOD).
  destruct (epoll_ctl (kernel L) op fd ev) as [r k] eqn:Ek.
  assert (Hk : (r = 0 ∧ interest k = <[fd := ev]> (interest (kernel L))) ∨ (r = -1 ∧ interest k = interest (kernel L))).
  { subst op. destruct (mask fe =? AE_NONE).
    - pose proof (ctl_add (kernel L) fd ev) as Hc. rewrite Ek in Hc. naive_solver.
    - pose proof (ctl_mod (kernel L) fd ev) as Hc. rewrite Ek in Hc. naive_solver. }
  destruct Hk as [[-> Hk]|[-> Hk]].
  2: { bind_simpl. simpl. exists AE_ERR. eexists. split; [done|]. split; [|by right].
       by apply (inv_same L). }
  bind_simpl. simpl. rewrite Efe. bind_simpl. fold fe'.
  destruct (aset_entry (events L) fd fe') as (evs & Es & El & Eg & Eo); [rewrite (inv_events _ HI); lia|].
  rewrite Es. bind_simpl. exists AE_OK. eexists. split; [done|].
  destruct (inv_maxfd _ HI) as (Hmx1 & Hmx2 & Hmx3).
  assert (Hreg : ∀ j, registered evs j ↔ j = fd ∨ registered (events L) j).
  { intros j. unfold registered. destruct (decide (j = fd)) as [->|Hne].
    - split; [by left|]. intros _. by exists fe'.
    - rewrite Eo by done. naive_solver. }
  split.
  - eapply (inv_change L _ fd fe'); try done; try (by destruct (_ <? _)); try lia.
    + destruct (_ <? _); simpl; rewrite Hk, lookup_insert_eq; done.
    + intros j Hj. destruct (_ <? _); simpl; by rewrite Hk, lookup_insert_ne.
    + simpl. destruct (Z.ltb_spec (maxfd L) fd); simpl; split_and!; try lia; setoid_rewrite Hreg.
      * by left.
      * intros j [->|Hj%Hmx3]; lia.
      * intros Hn. right. by apply Hmx2.
      * intros j [->|Hj%Hmx3]; lia.
  - left. split; [done|]. exists fe'. split; [by destruct (_ <? _)|]. simpl. bits.
    by destruct (Z.testbit (mask fe) i), (Z.testbit m i).
Qed.

Lemma last_set_spec (evs : list aeFileEvent) n : (n ≤ length evs)%nat → ∃ j, last_set evs n = Some j ∧ -1 ≤ j < Z.of_nat n ∧
  (j ≠ -1 → registered evs j) ∧ ∀ i, registered evs i → i < Z.of_nat n → i ≤ j.
Proof.
  induction n as [|n IH]; intros Hn; cbn [last_set].
  { exists (-1). split_and!; [done|lia|lia|done|]. intros i (fe & [? _]%aget_Some & _). lia. }
  destruct (lookup_lt_is_Some_2 evs n) as [fe E]; [lia|]. rewrite E. bind_simpl.
  assert (Ea : aget evs (Z.of_nat n) = Some fe) by (unfold aget; by rewrite (proj2 (Z.leb_le _ _)), Nat2Z.id by lia).
  destruct (Z.eqb_spec (mask fe) AE_NONE) as [Hz|Hz]; simpl.
  - destruct IH as (j & -> & ? & ? & Hmax); [lia|]. exists j. split_and!; [done|lia|lia|done|].
    intros i Hi Hlt. destruct (decide (i = Z.of_nat n)) as [->|]; [|apply Hmax; [done|lia]].
    destruct Hi as (fe' & E' & Hnz). congruence.
  - exists (Z.of_nat n). split_and!; [done|lia|lia| |lia]. intros _. by exists fe.
Qed.

(** The new [maxfd] when the entry of [fd] gets the mask [m']. *)
Lemma maxfd_after L fd fe' evs : ae_inv L → 0 ≤ fd < setsize L → registered (events L) fd → length evs = length (events L) →
  aget evs fd = Some fe' → (∀ j, j ≠ fd → aget evs j = aget (events L) j) →
  ∃ mx, (if (fd =? maxfd L) && (mask fe' =? AE_NONE)
       then j ← last_set evs (Z.to_nat (maxfd L)); Some (set_maxfd (set_events L evs) j)
       else Some (set_events L evs)) = Some (set_maxfd (set_events L evs) mx) ∧
     -1 ≤ mx < setsize L ∧ (mx ≠ -1 → registered evs mx) ∧ ∀ j, registered evs j → j ≤ mx.
Proof.
  intros HI Hfd Hold El Eg Eo. destruct (inv_maxfd _ HI) as (Hmx1 & Hmx2 & Hmx3). pose proof (inv_events _ HI).
  assert (Hother : ∀ j, j ≠ fd → registered evs j ↔ registered (events L) j).
  { intros j Hne. unfold registered. by rewrite Eo. }
  destruct (Z.eqb_spec fd (maxfd L)) as [E1|E1].
  - destruct (Z.eqb_spec (mask fe') AE_NONE) as [E2|E2]; simpl.
    + destruct (last_set_spec evs (Z.to_nat (maxfd L))) as (j & -> & ? & ? & Hj); [lia|]. bind_simpl. exists j.
      split; [done|]. split_and!; [lia..|done|]. intros i Hi. apply Hj; [done|].
      destruct (decide (i = fd)) as [->|Hne]; [|apply (Hother i Hne), Hmx3 in Hi; lia].
      destruct Hi as (fe2 & E & Hnz). congruence.
    + exists (maxfd L). split; [by destruct L|]. split_and!; [lia..|intros _; rewrite <-E1; by exists fe'|].
      intros j Hj. destruct (decide (j = fd)) as [->|Hne]; [lia|]. by apply Hmx3, (Hother j Hne).
  - exists (maxfd L). split; [by destruct L|]. pose proof (Hmx3 fd Hold). split_and!; [lia..| |].
    + intros Hn. apply Hother; [done|]. by apply Hmx2.
    + intros j Hj. destruct (decide (j = fd)) as [->|Hne]; [lia|]. by apply Hmx3, (Hother j Hne).
Qed.

Lemma delete_file_ok L fd m : ae_inv L → 0 ≤ fd → 0 ≤ m ≤ 3 → ∃ L', aeDeleteFileEvent L fd m = Some L' ∧ ae_inv L'.
Proof.
  intros HI Hfd Hm. unfold aeDeleteFileEvent. destruct (Z.leb_spec (setsize L) fd) as [Hge|Hlt]; [by exists L|].
  destruct (get_entry L fd HI) as (fe & Efe & Hok); [lia|]. rewrite Efe. bind_simpl.
  destruct (Z.eqb_spec (mask fe) AE_NONE) as [Hz|Hz]; [by exists L|].
  destruct (entry_remove _ fe m _ Hok Hz Hm) as (Hidem & Hok' & Hold). cbv zeta in Hidem, Hok', Hold.
  set (m' := Z.land (mask fe) (Z.lnot m)) in *. set (fe' := mkFile m' _ _ _) in *.
  destruct (aset_entry (events L) fd fe') as (evs & Es & El & Eg & Eo); [rewrite (inv_events _ HI); lia|].
  rewrite Es. bind_simpl. change (maxfd (set_events L evs)) with (maxfd L). change (events (set_events L evs)) with evs.
  destruct (maxfd_after L fd fe' evs) as (mx & -> & Hmx); [done|lia|by exists fe|done..|]. bind_simpl.
  unfold aeApiDelEvent. change (events (set_maxfd (set_events L evs) mx)) with evs. rewrite Eg. bind_simpl.
  change (mask fe') with m'. rewrite Hidem. eexists. split; [done|]. simpl kernel.
  assert (Hw : is_Some (interest (kernel L) !! fd)).
  { destruct Hok as (_ & _ & _ & [[_ ?]|(m0 & _ & -> & _)]); [done|by eexists]. }
  set (op := if negb (m' =? AE_NONE) then EPOLL_CTL_MOD else EPOLL_CTL_DEL).
  assert (Hk : interest (epoll_ctl (kernel L) op fd (epoll_bits m')).2 =
      (if m' =? AE_NONE then delete fd (interest (kernel L)) else <[fd := epoll_bits m']> (interest (kernel L))) ∨
    interest (epoll_ctl (kernel L) op fd (epoll_bits m')).2 = interest (kernel L) ∧ ¬ removals_succeed).
  { subst op. destruct (m' =? AE_NONE); simpl.
    - pose proof (ctl_del (kernel L) fd (epoll_bits m')) as Hc. destruct (epoll_ctl _ _ _ _) as [r k] eqn:Ek.
      destruct Hc as [(_ & _ & Hc)|[Hr Hc]]; [by left|right]. split; [done|]. intros HR.
      destruct (HR (kernel L) fd (epoll_bits m') Hw) as [_ HR']. rewrite Ek in HR'. simpl in HR'. lia.
    - pose proof (ctl_mod (kernel L) fd (epoll_bits m')) as Hc. destruct (epoll_ctl _ _ _ _) as [r k] eqn:Ek.
      destruct Hc as [(_ & _ & Hc)|[Hr Hc]]; [by left|right]. split; [done|]. intros HR.
      destruct (HR (kernel L) fd (epoll_bits m') Hw) as [HR' _]. rewrite Ek in HR'. simpl in HR'. lia. }
  eapply (inv_change L _ fd fe'); try done; simpl.
  - destruct Hk as [->|[-> Hex]]; [|by apply Hold]. destruct (m' =? AE_NONE); [by rewrite lookup_delete_eq|by rewrite lookup_insert_eq].
  - intros j Hj. destruct Hk as [->|[-> _]]; [|done].
    destruct (m' =? AE_NONE); [by rewrite lookup_delete_ne|by rewrite lookup_insert_ne].
Qed.

(** Reading the clock. *)
Lemma get_time_ok L : let L' := (aeGetTime L).2 in
  same_files L L' ∧ timeEvents L' = timeEvents L ∧ timeEventNextId L' = timeEventNextId L ∧ 0 ≤ (aeGetTime L).1.2 < 1000.
Proof.
  unfold aeGetTime. destruct (gettimeofday_law (kernel L)) as [Hi Hu]. destruct (gettimeofday (kernel L)) as [[sec usec] k].
  simpl in *. rewrite Z.quot_div_nonneg by lia. split_and!; try done; [apply Z.div_pos; lia|apply Z.div_lt_upper_bound; lia].
Qed.

Lemma add_ms_ok L ms : let L' := (aeAddMillisecondsToNow L ms).2 in
  same_files L L' ∧ timeEvents L' = timeEvents L ∧ timeEventNextId L' = timeEventNextId L.
Proof.
  unfold aeAddMillisecondsToNow. destruct (get_time_ok L) as (? & ? & ? & _).
  destruct (aeGetTime L) as [[sec m] L1]. simpl in *. by destruct (1000 <=? _).
Qed.

Lemma same_files_trans L L' L'' : same_files L L' → same_files L' L'' → same_files L L''.
Proof. intros (? & ? & ? & ? & ?) (? & ? & ? & ? & ?). split_and!; congruence. Qed.

Lemma create_time_ok L ms proc data f : ae_inv L → ae_inv (aeCreateTimeEvent L ms proc data f).2.
Proof.
  intros HI. unfold aeCreateTimeEvent. simpl kernel. pose proof (malloc_law (kernel L)) as Hm.
  destruct (malloc_ok (kernel L)) as [ok k]. simpl in Hm. set (L1 := set_kernel _ k).
  assert (H1 : same_files L L1) by done.
  assert (Hid : ∀ te, te ∈ timeEvents L → id te < timeEventNextId L1).
  { intros te Hte%(inv_next _ HI). simpl. lia. }
  destruct ok; simpl.
  - destruct (add_ms_ok L1 ms) as (H2 & Et & En). destruct (aeAddMillisecondsToNow L1 ms) as [[sec m] L2].
    simpl in H2, Et, En. apply (inv_files L); [done|by apply (same_files_trans _ L1), H2|..]; simpl; rewrite Et; simpl.
    + apply NoDup_cons. split; [|apply HI]. intros (te & Ei & Hte)%list_elem_of_fmap. apply (inv_next _ HI) in Hte. lia.
    + rewrite En. intros te [->|Hte]%elem_of_cons; simpl; [lia|by apply Hid].
  - apply (inv_files L); [done|done|apply HI|done].
Qed.

Lemma unlink_perm (l : list aeTimeEvent) i te l' : unlink l i = Some (te, l') → l ≡ₚ te :: l' ∧ id te = i.
Proof.
  revert l'. induction l as [|te0 l IH]; intros l'; simpl; [done|]. destruct (Z.eqb_spec (id te0) i) as [E|E].
  - intros [= -> ->]. done.
  - destruct (unlink l i) as [[te1 l1]|]; simpl; [|done]. intros [= -> <-]. destruct (IH l1 eq_refl) as [-> ?].
    split; [|done]. apply Permutation_swap.
Qed.

Lemma unlink_inv L i te l : ae_inv L → unlink (timeEvents L) i = Some (te, l) → ae_inv (set_timers L (timeEventNextId L) l).
Proof.
  intros HI [Hp _]%unlink_perm. apply (inv_files L); [done|done|..]; simpl.
  - pose proof (inv_ids _ HI) as Hn. rewrite Hp in Hn. by apply NoDup_cons in Hn as [_ ?].
  - intros te' Hte. apply (inv_next _ HI). rewrite Hp. by right.
Qed.
End inv.

Section handlers.
Context `{HL : HandlerLaws} {KL : KernelLaws}.
Implicit Types (L : aeEventLoop) (te : aeTimeEvent).

Lemma plain_inv L L' : plain L L' → ae_inv L → ae_inv L'.
Proof using KL.
  intros [L1 fd m proc data r L2 Hfd Hm E|L1 fd m L2 Hfd Hm E|L1 ms proc data f Hms|L1 i te l E|L1] HI.
  - destruct (create_file_ok L1 fd m proc data HI Hfd Hm) as (r' & L3 & E' & ? & _). by simplify_eq.
  - destruct (delete_file_ok L1 fd m HI Hfd Hm) as (L3 & E' & ?). by simplify_eq.
  - by apply create_time_ok.
  - by eapply unlink_inv.
  - by apply (inv_same L1).
Qed.

Lemma plain_frame L L' : plain L L' → setsize L' = setsize L ∧ fired L' = fired L.
Proof.
  intros [L1 fd m proc data r L2 Hfd Hm E|L1 fd m L2 Hfd Hm E|L1 ms proc data f Hms|L1 i te l E|L1]; [..|done|done].
  - unfold aeCreateFileEvent in E. case_match; [by simplify_eq|]. unfold aeEpollAddEvent in E.
    destruct (aget (events L1) fd) as [fe|]; [|done]. simpl in E. destruct (epoll_ctl _ _ _ _) as [r0 k]. simpl in E.
    destruct (r0 =? -1); simpl in E; [by simplify_eq|]. destruct (aget (events L1) fd) as [fe1|]; [|done]. simpl in E.
    destruct (aset _ _ _); [|done]. simpl in E. simplify_eq. by case_match.
  - unfold aeDeleteFileEvent in E. case_match; [by simplify_eq|]. destruct (aget (events L1) fd) as [fe|]; [|done]. simpl in E.
    case_match; [by simplify_eq|]. destruct (aset _ _ _) as [evs|]; [|done]. simpl in E. unfold aeApiDelEvent in E.
    case_match; simpl in E.
    + destruct (last_set _ _); [|done]. simpl in E. destruct (aget evs fd); [|done]. simpl in E. by simplify_eq.
    + destruct (aget evs fd); [|done]. simpl in E. by simplify_eq.
  - unfold aeCreateTimeEvent, aeAddMillisecondsToNow, aeGetTime. simpl. destruct (malloc_ok _) as [ok k]. destruct ok; simpl; [|done].
    destruct (gettimeofday k) as [[sec us] k']. by repeat (case_match || simplify_eq).
Qed.

(** The fired events are entries of the loop. *)
Definition fired_ok L (n : Z) : Prop := ∀ j, 0 ≤ j < n → ∃ ev, aget (fired L) j = Some ev ∧ 0 ≤ fired_fd ev < setsize L.

Lemma store_fired_ok (l : list (Z * Z)) j fs : 0 ≤ j → j + Z.of_nat (length l) ≤ Z.of_nat (length fs) →
  ∃ fs', store_fired l j fs = Some fs' ∧ length fs' = length fs ∧
    (∀ i, i < j ∨ j + Z.of_nat (length l) ≤ i → aget fs' i = aget fs i) ∧
    ∀ i fd ev, l !! i = Some (fd, ev) → aget fs' (j + Z.of_nat i) = Some (mkFired fd (fired_bits ev)).
Proof.
  revert j fs. induction l as [|[fd ev] l IH]; intros j fs Hj Hl; cbn [store_fired].
  { exists fs. by split_and!. }
  simpl in Hl. set (x := mkFired fd (fired_bits ev)).
  assert (Ea : aset fs j x = Some (<[Z.to_nat j := x]> fs)).
  { unfold aset. by rewrite (proj2 (Z.leb_le _ _)), (proj2 (Z.ltb_lt _ _)) by lia. }
  rewrite Ea. bind_simpl. destruct (IH (j + 1) (<[Z.to_nat j := x]> fs)) as (fs' & -> & El & Hlo & Hhi); [lia|rewrite length_insert; lia|].
  rewrite length_insert in El. exists fs'. split_and!; [done|done| |].
  - intros i Hi. simpl in Hi. rewrite Hlo by lia. unfold aget. destruct (Z.leb_spec 0 i); [|done]. apply list_lookup_insert_ne. lia.
  - intros [|i] fd' ev' Hi; simpl in Hi.
    + simplify_eq. rewrite Z.add_0_r, Hlo by lia. unfold aget. rewrite (proj2 (Z.leb_le _ _)) by lia. apply list_lookup_insert_eq. lia.
    + replace (j + Z.of_nat (S i)) with (j + 1 + Z.of_nat i) by lia. by apply Hhi.
Qed.

Lemma epoll_ok L t : ae_inv L → ∃ n L', aeEpoll L t = Some (n, L') ∧ 0 ≤ n ∧ ae_inv L' ∧ fired_ok L' n ∧
  setsize L' = setsize L ∧ ∀ m, fired_ok L m → fired_ok L' m.
Proof using KL.
  intros HI. unfold aeEpoll. pose proof (wait_law (kernel L) (setsize L) (s32 t)) as Hw.
  destruct (epoll_wait (kernel L) (setsize L) (s32 t)) as [l k]. destruct Hw as (Hn & Hfd & Hk).
  pose proof (inv_fired _ HI) as Hf. destruct (store_fired_ok l 0 (fired L)) as (fs & -> & El & Hold & Hget); [lia|lia|]. bind_simpl.
  assert (Hnew : ∀ j, 0 ≤ j < Z.of_nat (length l) → ∃ ev, aget fs j = Some ev ∧ 0 ≤ fired_fd ev < setsize L).
  { intros j Hj. destruct (lookup_lt_is_Some_2 l (Z.to_nat j)) as [[fd ev] E]; [lia|]. pose proof (Hget _ _ _ E) as Hg.
    replace (0 + Z.of_nat (Z.to_nat j)) with j in Hg by lia. exists (mkFired fd (fired_bits ev)). split; [done|]. simpl.
    apply (inv_interest _ HI), (Hfd fd ev). by eapply list_elem_of_lookup_2. }
  eexists _, _. split; [done|]. split; [lia|]. split; [by apply (inv_same L)|]. split; [exact Hnew|]. split; [done|].
  intros m Hm j Hj. destruct (decide (j < Z.of_nat (length l))); [apply Hnew; lia|]. simpl. rewrite Hold by lia. by apply Hm.
Qed.

Lemma set_when_ids (l : list aeTimeEvent) i sec ms l' : set_when l i sec ms = Some l' → id <$> l' = id <$> l.
Proof.
  revert l'. induction l as [|te l IH]; intros l'; simpl; [done|]. destruct (Z.eqb_spec (id te) i) as [E|E].
  - intros [= <-]. simpl. by rewrite E.
  - destruct (set_when l i sec ms) as [l1|]; simpl; [|done]. intros [= <-]. simpl. f_equal. by apply IH.
Qed.

Lemma ids_inv L L' l : ae_inv L → same_files L L' → timeEventNextId L' = timeEventNextId L → id <$> l = id <$> timeEvents L →
  timeEvents L' = l → ae_inv L'.
Proof using KL.
  intros HI HS En Hids Et. apply (inv_files L); [done|done| |]; rewrite Et.
  - rewrite Hids. apply HI.
  - intros te Hte. rewrite En. assert (Hi : id te ∈ (id <$> timeEvents L)) by (rewrite <-Hids; by apply list_elem_of_fmap_2).
    apply list_elem_of_fmap in Hi as (te' & -> & Hte'). by apply (inv_next _ HI).
Qed.

(** A step of a callback keeps the invariant, the size and the fired events. *)
Definition keeps L L' : Prop := ae_inv L → ae_inv L' ∧ setsize L' = setsize L ∧ ∀ n, fired_ok L n → fired_ok L' n.

Lemma keeps_trans L L' L'' : keeps L L' → keeps L' L'' → keeps L L''.
Proof. intros H1 H2 HI. destruct (H1 HI) as (HI1 & E1 & F1). destruct (H2 HI1) as (HI2 & E2 & F2). split_and!; [done|congruence|auto]. Qed.

Lemma keeps_frame L L' : (ae_inv L → ae_inv L') → setsize L' = setsize L → fired L' = fired L → keeps L L'.
Proof. intros Hstep Es Ef HI. split_and!; [by apply Hstep|done|]. unfold fired_ok. by rewrite Es, Ef. Qed.

Lemma round_start_inv L : ae_inv L → ae_inv (round_start L).
Proof using KL.
  intros HI. unfold round_start. pose proof (time_law (kernel L)) as Hk. destruct (time (kernel L)) as [now k]. simpl in Hk.
  destruct (now <? lastTime (set_kernel L k)).
  - eapply (ids_inv L); [done|done|done| |done]. simpl. rewrite <-list_fmap_compose. by apply list_fmap_ext.
  - by apply (inv_same L).
Qed.

Lemma api_keeps L L' : api L L' → keeps L L'.
Proof using KL.
  intros [L1 L2 Hp|L1|L1 t n L2 E|L1|L1 i sec ms l E].
  - destruct (plain_frame _ _ Hp). apply keeps_frame; [by apply plain_inv|done..].
  - apply keeps_frame; [|unfold aeGetTime; by destruct (gettimeofday (kernel L1)) as [[? ?] ?]..].
    intros HI. destruct (get_time_ok L1) as (Hs & Et & En & _). by apply (inv_same L1).
  - intros HI. destruct (epoll_ok L1 t HI) as (n' & L3 & E' & _ & ? & _ & ? & ?). by simplify_eq.
  - apply keeps_frame; [by apply round_start_inv|unfold round_start; destruct (time (kernel L1)); by destruct (_ <? _)..].
  - apply keeps_frame; [|done..]. intros HI. apply (ids_inv L1 _ l); try done. by eapply set_when_ids.
Qed.

Lemma apis_keep L L' : rtc api L L' → keeps L L'.
Proof using KL. induction 1 as [|L1 L2 L3 Ha _ IH]; [done|]. eapply keeps_trans; [by apply api_keeps|done]. Qed.

Lemma apis_inv L L' : rtc api L L' → ae_inv L → ae_inv L'.
Proof using KL. intros Ha HI. by apply (apis_keep L L'). Qed.

Lemma bit_and (x m b : Z) : b = 1 ∨ b = 2 → has_bit (Z.land x m) b = true → has_bit x b = true.
Proof.
  unfold has_bit. intros Hb. rewrite !negb_true_iff, !Z.eqb_neq. intros Hz E. apply Hz.
  by rewrite (Z.land_comm x m), <-Z.land_assoc, E, Z.land_0_r.
Qed.

Lemma fire_one_ok L n j : ae_inv L → fired_ok L n → 0 ≤ j < n → ∃ L', fire_one L j = Some L' ∧ ae_inv L' ∧
  fired_ok L' n.
Proof using HL KL.
  intros HI Hf Hj. destruct (Hf j Hj) as (ev & E & Hfd). unfold fire_one. rewrite E. bind_simpl.
  destruct (get_entry L (fired_fd ev) HI Hfd) as (fe & Efe & _ & Hr & _). rewrite Efe. bind_simpl.
  set (r := has_bit (Z.land (mask fe) (fired_mask ev)) AE_READABLE).
  assert (∃ L1, (if r then p ← rfileProc fe; Some (call_file p L (fired_fd ev) (clientData fe) (fired_mask ev)) else Some L) = Some L1 ∧
    ae_inv L1 ∧ setsize L1 = setsize L ∧ fired_ok L1 n) as (L1 & -> & HI1 & Hs1 & Hf1).
  { destruct r eqn:Er; [|by exists L]. destruct Hr as [p ->]; [by eapply bit_and; [left|]|]. bind_simpl.
    eexists. split; [done|]. destruct (apis_keep _ _ (call_file_law p L (fired_fd ev) (clientData fe) (fired_mask ev)) HI) as (? & ? & ?). auto. }
  bind_simpl. destruct (get_entry L1 (fired_fd ev) HI1) as (fe1 & Efe1 & _ & _ & Hw & _); [lia|]. rewrite Efe1. bind_simpl.
  destruct (has_bit (Z.land (mask fe1) (fired_mask ev)) AE_WRITABLE) eqn:Ew; [|by exists L1].
  destruct (negb r || _); [|by exists L1]. destruct Hw as [p ->]; [by eapply bit_and; [right|]|]. bind_simpl.
  destruct (apis_keep _ _ (call_file_law p L1 (fired_fd ev) (clientData fe1) (fired_mask ev)) HI1) as (? & ? & ?).
  eexists. split; [done|]. auto.
Qed.

Lemma fire_all_ok n L j : ae_inv L → fired_ok L (j + Z.of_nat n) → 0 ≤ j → ∃ L', fire_all n L j = Some L' ∧ ae_inv L'.
Proof using HL KL.
  revert L j. induction n as [|n IH]; intros L j HI Hf Hj; cbn [fire_all]; [by exists L|].
  destruct (fire_one_ok L (j + Z.of_nat (S n)) j HI Hf) as (L1 & -> & HI1 & Hf1); [lia|]. bind_simpl.
  apply IH; [done| |lia]. by replace (j + 1 + Z.of_nat n) with (j + Z.of_nat (S n)) by lia.
Qed.

Lemma poll_timeout_ok L flags : ae_inv L → ae_inv (poll_timeout L flags).2.
Proof using KL.
  intros HI. unfold poll_timeout. destruct (if _ : bool then _ else _) as [te|]; [|done].
  destruct (get_time_ok L) as (Hs & Et & En & _). destruct (aeGetTime L) as [[sec ms] L1]. by apply (inv_same L).
Qed.

(** The part of [aeProcessEvents] on file events. *)
Lemma process_files_ok fuel L flags : ae_inv L → has_bit flags AE_TIME_EVENTS = false →
  ∃ n L', aeProcessEvents fuel L flags = Some (n, L') ∧ ae_inv L'.
Proof using HL KL.
  intros HI Ht. unfold aeProcessEvents. rewrite Ht. simpl. destruct (has_bit flags AE_FILE_EVENTS); simpl; [|by exists 0, L].
  destruct (maxfd L =? -1); simpl; [by exists 0, L|]. pose proof (poll_timeout_ok L flags HI) as HI1.
  destruct (poll_timeout L flags) as [t L1]. simpl in HI1. destruct (epoll_ok L1 t HI1) as (n & L2 & -> & Hn & HI2 & Hf & _).
  bind_simpl. cbn [fst snd]. destruct (fire_all_ok (Z.to_nat n) L2 0 HI2) as (L3 & -> & HI3); [|lia|].
  - by replace (0 + Z.of_nat (Z.to_nat n)) with n by lia.
  - by exists n, L3.
Qed.

(** ** Time events *)

Lemma delete_time_inv L i : ae_inv L → ae_inv (aeDeleteTimeEvent L i).2.
Proof using HL KL.
  intros HI. unfold aeDeleteTimeEvent. destruct (unlink (timeEvents L) i) as [[te l]|] eqn:E; [|done]. simpl.
  pose proof (unlink_inv _ _ _ _ HI E) as HI1. destruct (finalizerProc te) as [f|]; [|done].
  eapply apis_inv; [apply call_final_law|done].
Qed.

Lemma after_call_inv L i retval L' : ae_inv L → after_call L i retval = Some L' → ae_inv L'.
Proof using HL KL.
  intros HI. unfold after_call. destruct (negb (retval =? AE_NOMORE)); [|intros [= <-]; by apply delete_time_inv].
  destruct (add_ms_ok L retval) as (Hs & Et & En). destruct (aeAddMillisecondsToNow L retval) as [[sec ms] L1]. simpl in Hs, Et, En.
  destruct (set_when (timeEvents L1) i sec ms) as [l|] eqn:E; simpl; [|done]. intros [= <-].
  apply (ids_inv L _ l); [done|done|done| |done]. rewrite (set_when_ids _ _ _ _ _ E). by rewrite Et.
Qed.

Lemma time_loop_inv fuel L l maxId n r L' : ae_inv L → time_loop fuel L l maxId n = Some (r, L') → ae_inv L'.
Proof using HL KL.
  revert L l n. induction fuel as [|fuel IH]; intros L l n HI; cbn [time_loop]; [done|].
  destruct l as [|te l]; [by intros [= _ <-]|]. destruct (maxId <? id te); [by apply IH|].
  destruct (get_time_ok L) as (Hs & Et & En & _). destruct (aeGetTime L) as [[sec ms] L1]. simpl in Hs, Et, En.
  assert (HI1 : ae_inv L1) by (by apply (inv_same L)). destruct (due te sec ms); [|by apply IH].
  pose proof (apis_inv _ _ (call_time_law (timeProc te) L1 (id te) (tclientData te)) HI1) as HI2.
  destruct (call_time _ _ _ _) as [retval L2]. simpl in HI2. destruct (after_call L2 (id te) retval) as [L3|] eqn:Ea; simpl; [|done].
  apply IH. by eapply after_call_inv.
Qed.

Lemma process_times_inv fuel L n L' : ae_inv L → processTimeEvents fuel L = Some (n, L') → ae_inv L'.
Proof using HL KL. intros HI E. eapply time_loop_inv; [|exact E]. by apply round_start_inv. Qed.

Lemma process_inv fuel L flags n L' : ae_inv L → aeProcessEvents fuel L flags = Some (n, L') → ae_inv L'.
Proof using HL KL.
  intros HI E. destruct (has_bit flags AE_TIME_EVENTS) eqn:Ht.
  2: { destruct (process_files_ok fuel L flags HI Ht) as (n' & L1 & E' & ?). by simplify_eq. }
  unfold aeProcessEvents in E. rewrite Ht in E. simpl in E.
  destruct (negb (maxfd L =? -1) || negb (has_bit flags AE_DONT_WAIT)).
  - pose proof (poll_timeout_ok L flags HI) as HI1. destruct (poll_timeout L flags) as [t L1]. simpl in HI1.
    destruct (epoll_ok L1 t HI1) as (m & L2 & E2 & Hm & HI2 & Hf & _). rewrite E2 in E. simpl in E.
    destruct (fire_all_ok (Z.to_nat m) L2 0 HI2) as (L3 & E3 & HI3); [by replace (0 + Z.of_nat (Z.to_nat m)) with m by lia|lia|].
    rewrite E3 in E. simpl in E. destruct (processTimeEvents fuel L3) as [[n2 L4]|] eqn:E4; simpl in E; [|done]. simplify_eq.
    by eapply process_times_inv.
  - simpl in E. destruct (processTimeEvents fuel L) as [[n2 L4]|] eqn:E4; simpl in E; [|done]. simplify_eq.
    by eapply process_times_inv.
Qed.
End handlers.

(** ** Runs of a loop *)

Section runs.
Context `{HL : HandlerLaws} {KL : KernelLaws}.
Implicit Types (L : aeEventLoop) (te : aeTimeEvent).

Inductive ae_step : aeEventLoop → aeEventLoop → Prop :=
  | step_api L L' : api L L' → ae_step L L'
  | step_process L fuel flags n L' : aeProcessEvents fuel L flags = Some (n, L') → ae_step L L'.

Definition ae_reach (size : Z) (k : kst) L : Prop :=
  interest k = ∅ ∧ ∃ L0, aeCreateEventLoop size k = Some L0 ∧ rtc ae_step L0 L.

Lemma create_inv size k L : interest k = ∅ → aeCreateEventLoop size k = Some L → ae_inv L.
Proof using KL.
  intros Hk. unfold aeCreateEventLoop. destruct (Z.leb_spec 0 size); [|done]. pose proof (malloc_law k) as Hm1.
  destruct (malloc_ok k) as [ok k1]. destruct ok; [|done]. pose proof (time_law k1) as Hm2. destruct (time k1) as [now k2].
  simpl in Hm1, Hm2. intros [= <-]. assert (Hi : interest k2 = ∅) by congruence.
  assert (Hr : ∀ fd fe, aget (replicate (Z.to_nat size) (mkFile AE_NONE None None 0)) fd = Some fe → fe = mkFile AE_NONE None None 0).
  { intros fd fe [_ [-> _]%lookup_replicate]%aget_Some. done. }
  split; simpl; rewrite ?Hi.
  - rewrite length_replicate. lia.
  - rewrite length_replicate. lia.
  - intros fd fe ->%Hr. split; [done|]. split; [done|]. split; [done|]. by left.
  - by intros fd [? ?].
  - split_and!; [lia..|done|]. intros fd (fe & ->%Hr & Hn). done.
  - constructor.
  - by intros te ?%elem_of_nil.
Qed.

Lemma reach_ae_inv size k L : ae_reach size k L → ae_inv L.
Proof using HL KL.
  intros [Hk (L0 & E & Hr)]. pose proof (create_inv size k L0 Hk E) as HI. clear E.
  induction Hr as [|L1 L2 L3 [L1' L2' Ha|]]; [done| |]; eauto using apis_inv, rtc_once, process_inv.
Qed.

(** A round takes steps that callbacks may take, so that they may call it. *)
Lemma fire_one_api L j L' : fire_one L j = Some L' → rtc api L L'.
Proof using HL.
  unfold fire_one. destruct (aget (fired L) j) as [ev|]; [|done]. simpl. destruct (aget (events L) (fired_fd ev)) as [fe|]; [|done]. simpl.
  set (r := has_bit _ AE_READABLE). intros E.
  assert (∃ L1, (if r then p ← rfileProc fe; Some (call_file p L (fired_fd ev) (clientData fe) (fired_mask ev)) else Some L) = Some L1 ∧
    rtc api L L1) as (L1 & E1 & H1).
  { destruct r; [|by exists L]. destruct (rfileProc fe) as [p|]; [|done]. simpl. eexists. split; [done|]. apply call_file_law. }
  rewrite E1 in E. simpl in E. destruct (aget (events L1) (fired_fd ev)) as [fe1|]; [|done]. simpl in E.
  destruct (has_bit _ AE_WRITABLE); [|by simplify_eq]. destruct (_ || _); [|by simplify_eq].
  destruct (wfileProc fe1) as [p|]; [|done]. simpl in E. simplify_eq. etrans; [done|]. apply call_file_law.
Qed.

Lemma fire_all_api n L j L' : fire_all n L j = Some L' → rtc api L L'.
Proof using HL.
  revert L j. induction n as [|n IH]; intros L j; cbn [fire_all]; [by intros [= <-]|].
  destruct (fire_one L j) as [L1|] eqn:E; simpl; [|done]. intros E'. etrans; [by eapply fire_one_api|by eapply IH].
Qed.

Lemma get_time_api L : api L (aeGetTime L).2.
Proof. apply api_clock. Qed.

Lemma after_call_api L i retval L' : after_call L i retval = Some L' → rtc api L L'.
Proof using HL.
  unfold after_call, aeAddMillisecondsToNow, aeDeleteTimeEvent. destruct (negb (retval =? AE_NOMORE)).
  - pose proof (get_time_api L) as Hg. destruct (aeGetTime L) as [[sec ms] L1]. simpl in Hg.
    destruct (1000 <=? _); simpl; (destruct (set_when _ _ _ _) as [l|] eqn:Es; simpl; [|done]); intros [= <-];
      (eapply rtc_l; [exact Hg|]); apply rtc_once; by eapply api_when.
  - intros [= <-]. destruct (unlink (timeEvents L) i) as [[te l]|] eqn:E; simpl; [|done].
    eapply rtc_l; [by eapply api_plain, api_unlink|]. destruct (finalizerProc te); [apply call_final_law|done].
Qed.

Lemma time_loop_api fuel L l maxId n r L' : time_loop fuel L l maxId n = Some (r, L') → rtc api L L'.
Proof using HL.
  revert L l n. induction fuel as [|fuel IH]; intros L l n; cbn [time_loop]; [done|].
  destruct l as [|te l]; [by intros [= _ <-]|]. destruct (maxId <? id te); [by apply IH|].
  pose proof (get_time_api L) as Hg. destruct (aeGetTime L) as [[sec ms] L1]. simpl in Hg.
  destruct (due te sec ms); [|intros E; eapply rtc_l; [exact Hg|by eapply IH]].
  pose proof (call_time_law (timeProc te) L1 (id te) (tclientData te)) as Hc.
  destruct (call_time _ _ _ _) as [retval L2]. simpl in Hc. destruct (after_call L2 (id te) retval) as [L3|] eqn:Ea; simpl; [|done].
  intros E. eapply rtc_l; [exact Hg|]. etrans; [exact Hc|]. etrans; [by eapply after_call_api|by eapply IH].
Qed.

Lemma process_api fuel L flags n L' : aeProcessEvents fuel L flags = Some (n, L') → rtc api L L'.
Proof using HL.
  unfold aeProcessEvents. destruct (negb _ && negb _); [by intros [= _ <-]|]. intros E.
  match type of E with ?b ≫= _ = _ => destruct b as [[m L3]|] eqn:E3; [|done] end. simpl in E.
  assert (Hf : rtc api L L3).
  { destruct (negb (maxfd L =? -1) || _); [|by simplify_eq]. destruct (poll_timeout L flags) as [t L1] eqn:Ep.
    assert (H1 : rtc api L L1).
    { unfold poll_timeout in Ep. destruct (if _ : bool then _ else _) as [te|]; [|by simplify_eq].
      pose proof (get_time_api L) as Hg. destruct (aeGetTime L) as [[sec ms] L0]. simplify_eq. by apply rtc_once. }
    destruct (aeEpoll L1 t) as [[c L2]|] eqn:E2; simpl in E3; [|done].
    destruct (fire_all (Z.to_nat c) L2 0) as [L4|] eqn:E4; simpl in E3; [|done]. simplify_eq.
    etrans; [exact H1|]. eapply rtc_l; [by eapply api_poll|by eapply fire_all_api]. }
  etrans; [exact Hf|]. destruct (has_bit flags AE_TIME_EVENTS); [|by simplify_eq].
  destruct (processTimeEvents fuel L3) as [[n2 L4]|] eqn:E4; simpl in E; [|done]. simplify_eq.
  eapply rtc_l; [apply api_round|]. by eapply time_loop_api.
Qed.

(** C19 [invariant]. The loop and the kernel agree after any sequence of calls, rounds of [aeProcessEvents] and
    callbacks that call functions of the loop (nested rounds included; [process_api] shows that a round is made of
    the steps that callbacks may take): epoll watches every descriptor with a mask at least for these events, and, when no change or
    removal of a watched descriptor fails (the code ignores such failures), exactly the descriptors with a mask for exactly
    these events; it watches only descriptors of the loop; [maxfd] is the largest with a mask; the identifiers of time
    events are distinct. And a round on file events always returns: it never calls a callback that was not set nor leaves
    an array. *)
Theorem ae_kernel_agrees size k L : ae_reach size k L →
  (∀ fd fe, aget (events L) fd = Some fe → mask fe ≠ AE_NONE →
    ∃ m, 1 ≤ m ≤ 3 ∧ Z.land (mask fe) m = mask fe ∧ interest (kernel L) !! fd = Some (epoll_bits m)) ∧
  (removals_succeed → ∀ fd ev, interest (kernel L) !! fd = Some ev ↔
    ∃ fe, aget (events L) fd = Some fe ∧ mask fe ≠ AE_NONE ∧ ev = epoll_bits (mask fe)) ∧
  (∀ fd, is_Some (interest (kernel L) !! fd) → 0 ≤ fd < setsize L) ∧
  (maxfd L = -1 ∨ registered (events L) (maxfd L)) ∧ (∀ fd, registered (events L) fd → fd ≤ maxfd L) ∧
  NoDup (id <$> timeEvents L) ∧
  ∀ fuel flags, has_bit flags AE_TIME_EVENTS = false → is_Some (aeProcessEvents fuel L flags).
Proof using HL KL.
  intros HI%reach_ae_inv. split_and!.
  - intros fd fe Efe Hnz. destruct (inv_entry _ HI _ _ Efe) as (_ & _ & _ & [[_ ?]|(m & ? & ? & ? & _)]); [done|]. by exists m.
  - intros HR fd ev. split.
    + intros E. destruct (get_entry L fd HI) as (fe & Efe & _ & _ & _ & Hw); [apply (inv_interest _ HI); by rewrite E|].
      destruct Hw as [[? _]|(m & Hm & Ew & _ & Ex)]; [congruence|].
      exists fe. rewrite E in Ew. injection Ew as ->. rewrite <-(Ex HR). split_and!; try done. unfold AE_NONE. lia.
    + intros (fe & Efe & Hnz & ->). destruct (inv_entry _ HI _ _ Efe) as (_ & _ & _ & [[_ ?]|(m & _ & -> & _ & Ex)]); [done|]. by rewrite (Ex HR).
  - apply (inv_interest _ HI).
  - destruct (inv_maxfd _ HI) as (_ & Hm & _). destruct (decide (maxfd L = -1)); auto.
  - apply (inv_maxfd _ HI).
  - apply HI.
  - intros fuel flags Hf. destruct (process_files_ok fuel L flags HI Hf) as (n & L' & -> & _). by eexists.
Qed.

(** ** Waiting *)

(** Points in time in milliseconds. *)
Definition at_ms te : Z := 1000 * when_sec te + when_ms te.

Lemma earlier_at te te' : 0 ≤ when_ms te < 1000 → 0 ≤ when_ms te' < 1000 → earlier te te' = true ↔ at_ms te < at_ms te'.
Proof. unfold earlier, at_ms. rewrite orb_true_iff, andb_true_iff, !Z.ltb_lt, Z.eqb_eq. lia. Qed.

Lemma nearest_from_spec (l : list aeTimeEvent) n : (∀ te, te ∈ l ∨ n = Some te → 0 ≤ when_ms te < 1000) →
  match nearest_from l n with
  | Some te => (te ∈ l ∨ n = Some te) ∧ ∀ te', te' ∈ l ∨ n = Some te' → at_ms te ≤ at_ms te'
  | None => l = [] ∧ n = None
  end.
Proof.
  revert n. induction l as [|te0 l IH]; intros n Hms; cbn [nearest_from].
  { destruct n as [te|]; [|done]. split; [by right|]. intros te' [?%elem_of_nil|[= ->]]; [done|lia]. }
  set (n' := match n with Some m => if earlier te0 m then Some te0 else n | None => Some te0 end).
  assert (Hn' : ∀ te, n' = Some te → te = te0 ∨ n = Some te) by (subst n'; intros te; destruct n; [case_match|]; naive_solver).
  assert (Hle : ∃ te1, n' = Some te1 ∧ at_ms te1 ≤ at_ms te0 ∧ ∀ te, n = Some te → at_ms te1 ≤ at_ms te).
  { subst n'. destruct n as [m|]; [|exists te0; split_and!; [done|lia|done]].
    assert (Hm0 : 0 ≤ when_ms te0 < 1000) by (apply Hms; left; by left).
    assert (Hm1 : 0 ≤ when_ms m < 1000) by (apply Hms; by right).
    destruct (earlier te0 m) eqn:E.
    - apply earlier_at in E; [|done..]. exists te0. split_and!; [done|lia|]. intros te [= ->]. lia.
    - exists m. assert (¬ at_ms te0 < at_ms m) by (by rewrite <-earlier_at, E). split_and!; [done|lia|]. intros te [= ->]. lia. }
  destruct Hle as (te1 & E1 & Hle0 & Hle1). specialize (IH n'). destruct (nearest_from l n') as [te|].
  - destruct IH as [Hin Hmin].
    { intros te' [?|[->|?]%Hn']; apply Hms; [left; by right|left; by left|by right]. }
    split; [destruct Hin as [?|[->|?]%Hn']; [left; by right|left; by left|by right]|].
    intros te' [[->|?]%elem_of_cons|Hte]; [|apply Hmin; by left|]; pose proof (Hmin te1 (or_intror E1)); [lia|].
    specialize (Hle1 te' Hte). lia.
  - destruct IH as [_ Hc]; [|congruence]. intros te' [?|[->|?]%Hn']; apply Hms; [left; by right|left; by left|by right].
Qed.

Lemma wait_time_exact te sec ms : 0 ≤ when_ms te < 1000 → 0 ≤ ms < 1000 → 1000 * sec + ms ≤ at_ms te →
  wait_time te sec ms = at_ms te - (1000 * sec + ms).
Proof.
  intros H1 H2 H3. unfold wait_time, at_ms in *. destruct (Z.ltb_spec (when_ms te) ms).
  - rewrite !(proj2 (Z.ltb_ge _ _)) by lia. rewrite Z.quot_mul by lia. lia.
  - rewrite !(proj2 (Z.ltb_ge _ _)) by lia. rewrite Z.quot_mul by lia. lia.
Qed.

(** A round that waits for time events waits for as many milliseconds as are left
    until the earliest of them, if none is overdue, and without a limit if there is none. *)
Theorem ae_waits_for_nearest L flags : has_bit flags AE_TIME_EVENTS = true → has_bit flags AE_DONT_WAIT = false →
  let '(now_sec, now_ms, _) := aeGetTime L in
  (∀ te, te ∈ timeEvents L → 0 ≤ when_ms te < 1000 ∧ 1000 * now_sec + now_ms ≤ at_ms te) →
  if decide (timeEvents L = []) then (poll_timeout L flags).1 = -1
  else ∃ te, te ∈ timeEvents L ∧ (∀ te', te' ∈ timeEvents L → at_ms te ≤ at_ms te') ∧
    (poll_timeout L flags).1 = at_ms te - (1000 * now_sec + now_ms).
Proof using KL.
  intros Hf1 Hf2. unfold poll_timeout. rewrite Hf1, Hf2. simpl. destruct (get_time_ok L) as (_ & _ & _ & Hms).
  destruct (aeGetTime L) as [[sec ms] L1] eqn:Et. simpl in Hms. intros Hte.
  pose proof (nearest_from_spec (timeEvents L) None) as Hn. unfold aeSearchNearestTimer.
  destruct (nearest_from (timeEvents L) None) as [te|].
  - destruct Hn as [[Hin|?] Hmin]; [intros te' [?|?]; [by apply Hte|done]| |done].
    rewrite decide_False by (intros E; rewrite E in Hin; by apply elem_of_nil in Hin).
    exists te. split; [done|]. split; [intros te' ?; apply Hmin; by left|]. destruct (Hte te Hin).
    by apply wait_time_exact.
  - destruct Hn as [E _]; [intros te' [?|?]; [by apply Hte|done]|]. by rewrite decide_True.
Qed.

(** An event that is overdue by a millisecond makes the loop wait for 999 of them: the seconds are
    set to zero when the difference is negative, the milliseconds are not. *)
Theorem ae_overdue_waits te sec ms : when_sec te = sec → when_ms te = ms - 1 → wait_time te sec ms = 999.
Proof.
  intros E1 E2. unfold wait_time. rewrite E1, E2, Z.sub_diag. rewrite (proj2 (Z.ltb_lt (ms - 1) ms)) by lia.
  replace (ms - 1 + 1000 - ms) with 999 by lia. done.
Qed.
End runs.

(** ** A round of time events *)

#[export] Instance aeTimeEvent_eq_dec : EqDecision aeTimeEvent.
Proof. solve_decision. Defined.

Section round.
Context `{HL : HandlerLaws} {KL : KernelLaws}.
Implicit Types (L : aeEventLoop) (te : aeTimeEvent).

(** The time of day that a state of the kernel shows, in seconds and milliseconds. *)
Definition clock (k : kst) : Z * Z := let '(sec, usec, _) := gettimeofday k in (sec, Z.quot usec 1000).
Definition not_after (t t' : Z * Z) : Prop := t.1 < t'.1 ∨ (t.1 = t'.1 ∧ t.2 ≤ t'.2).
Definition due_at (t : Z * Z) te : Prop := not_after (when_sec te, when_ms te) t.

(** The clock is not set back. *)
Record clock_forward : Prop := {
  fwd_ctl k op fd ev : not_after (clock k) (clock (epoll_ctl k op fd ev).2);
  fwd_day k : not_after (clock k) (clock (gettimeofday k).2);
  fwd_time k : not_after (clock k) (clock (time k).2);
  fwd_malloc k : not_after (clock k) (clock (malloc_ok k).2)
}.

(** Callbacks that call functions of the loop, but not [aeProcessEvents]. *)
Record plain_callbacks : Prop := {
  plain_time p L i d : rtc plain L (call_time p L i d).2;
  plain_final p L d : rtc plain L (call_final p L d)
}.

(** Callbacks that remove no time events. *)
Record callbacks_keep : Prop := {
  keep_time p L i d te : te ∈ timeEvents L → te ∈ timeEvents (call_time p L i d).2;
  keep_final p L d te : te ∈ timeEvents L → te ∈ timeEvents (call_final p L d)
}.

(** An event whose callback asks not to be called again. *)
Definition one_shot te : Prop := ∀ L, (call_time (timeProc te) L (id te) (tclientData te)).1 = AE_NOMORE.

(** The round, recording the events whose callbacks are called, with the time of the call. *)
Fixpoint time_calls (fuel : nat) L (l : list aeTimeEvent) (maxId : Z) : option (list (aeTimeEvent * (Z * Z)) * aeEventLoop) :=
  match fuel with
  | O => None
  | S fuel =>
      match l with
      | [] => Some ([], L)
      | te :: l =>
          if maxId <? id te then time_calls fuel L l maxId else
          let '(now_sec, now_ms, L) := aeGetTime L in
          if due te now_sec now_ms then
            let '(retval, L) := call_time (timeProc te) L (id te) (tclientData te) in
            L ← after_call L (id te) retval;
            r ← time_calls fuel L (timeEvents L) maxId;
            Some ((te, (now_sec, now_ms)) :: r.1, r.2)
          else time_calls fuel L l maxId
      end
  end.

Definition round_calls (fuel : nat) L : option (list (aeTimeEvent * (Z * Z)) * aeEventLoop) :=
  let L := round_start L in time_calls fuel L (timeEvents L) (timeEventNextId L - 1).

Lemma time_loop_calls fuel L l maxId n : time_loop fuel L l maxId n =
  r ← time_calls fuel L l maxId; Some (n + Z.of_nat (length r.1), r.2).
Proof.
  revert L l n. induction fuel as [|fuel IH]; intros L l n; cbn [time_loop time_calls]; [done|].
  destruct l as [|te l]; [simpl; by rewrite Z.add_0_r|]. destruct (maxId <? id te); [apply IH|].
  destruct (aeGetTime L) as [[sec ms] L1]. destruct (due te sec ms); [|apply IH].
  destruct (call_time _ _ _ _) as [retval L2]. destruct (after_call L2 (id te) retval) as [L3|]; [|done]. bind_simpl.
  rewrite IH. destruct (time_calls fuel L3 (timeEvents L3) maxId) as [[cs L']|]; [|done]. bind_simpl. cbn [fst snd length].
  f_equal. f_equal. lia.
Qed.

Lemma not_after_trans t1 t2 t3 : not_after t1 t2 → not_after t2 t3 → not_after t1 t3.
Proof. unfold not_after. lia. Qed.

Lemma due_spec te sec ms : due te sec ms = true ↔ due_at (sec, ms) te.
Proof. unfold due, due_at, not_after. simpl. rewrite orb_true_iff, andb_true_iff, !Z.ltb_lt, Z.eqb_eq, Z.leb_le. lia. Qed.

(** How a loop changes under plain calls: new events have new identifiers, and time goes on. *)
Record evolves L L' : Prop := {
  ev_times te : te ∈ timeEvents L' → te ∈ timeEvents L ∨ timeEventNextId L ≤ id te;
  ev_next : timeEventNextId L ≤ timeEventNextId L';
  ev_clock : not_after (clock (kernel L)) (clock (kernel L'));
  ev_inv : ae_inv L → ae_inv L'
}.

Lemma evolves_refl L : evolves L L.
Proof. split; [by left|done| |done]. unfold not_after. lia. Qed.

Lemma evolves_trans L L' L'' : evolves L L' → evolves L' L'' → evolves L L''.
Proof.
  intros [A1 A2 A3 A4] [B1 B2 B3 B4]. split; [|lia|by eapply not_after_trans|auto].
  intros te [[?|?]%A1|?]%B1; [by left|right; lia..].
Qed.

Lemma get_time_evolves L : clock_forward → let '(sec, ms, L1) := aeGetTime L in
  (sec, ms) = clock (kernel L) ∧ evolves L L1 ∧ timeEvents L1 = timeEvents L ∧ timeEventNextId L1 = timeEventNextId L.
Proof using KL.
  intros HF. pose proof (fwd_day HF (kernel L)) as Hd. destruct (get_time_ok L) as (Hs & Et & En & _).
  unfold aeGetTime, clock in *. destruct (gettimeofday (kernel L)) as [[sec usec] k] eqn:E. simpl in *. split_and!; try done.
  split; simpl; [by left|done| |by intros HI; apply (inv_same L)]. unfold clock. by rewrite E.
Qed.

Lemma create_file_evolves L fd m proc data r L' : clock_forward → aeCreateFileEvent L fd m proc data = Some (r, L') →
  timeEvents L' = timeEvents L ∧ timeEventNextId L' = timeEventNextId L ∧ not_after (clock (kernel L)) (clock (kernel L')).
Proof.
  intros HF E. assert (Hr : not_after (clock (kernel L)) (clock (kernel L))) by (unfold not_after; lia).
  unfold aeCreateFileEvent in E. case_match; [by simplify_eq|]. unfold aeEpollAddEvent in E.
  destruct (aget (events L) fd) as [fe|]; [|done]. simpl in E.
  match type of E with context [epoll_ctl ?k ?op ?f ?e] => pose proof (fwd_ctl HF k op f e) as Hc; destruct (epoll_ctl k op f e) as [r0 k'] end.
  simpl in Hc, E. destruct (r0 =? -1); simpl in E; [by simplify_eq|]. destruct (aget (events L) fd) as [fe1|]; [|done]. simpl in E.
  destruct (aset _ _ _); [|done]. simpl in E. simplify_eq. by case_match.
Qed.

Lemma delete_file_evolves L fd m L' : clock_forward → aeDeleteFileEvent L fd m = Some L' →
  timeEvents L' = timeEvents L ∧ timeEventNextId L' = timeEventNextId L ∧ not_after (clock (kernel L)) (clock (kernel L')).
Proof.
  intros HF E. assert (Hr : not_after (clock (kernel L)) (clock (kernel L))) by (unfold not_after; lia).
  unfold aeDeleteFileEvent in E. case_match; [by simplify_eq|]. destruct (aget (events L) fd) as [fe|]; [|done]. simpl in E.
  case_match; [by simplify_eq|]. destruct (aset _ _ _) as [evs|]; [|done]. simpl in E. unfold aeApiDelEvent in E.
  case_match; simpl in E.
  - destruct (last_set _ _); [|done]. simpl in E. destruct (aget evs fd); [|done]. simpl in E. simplify_eq.
    split_and!; [done..|]. apply (fwd_ctl HF).
  - destruct (aget evs fd); [|done]. simpl in E. simplify_eq. split_and!; [done..|]. apply (fwd_ctl HF).
Qed.

Lemma create_time_evolves L ms proc data f : clock_forward → evolves L (aeCreateTimeEvent L ms proc data f).2.
Proof using KL.
  intros HF. split; [| | |apply create_time_ok]; unfold aeCreateTimeEvent, aeAddMillisecondsToNow; simpl kernel;
    pose proof (fwd_malloc HF (kernel L)) as Hm; destruct (malloc_ok (kernel L)) as [ok k]; simpl in Hm.
  1, 2: destruct ok; simpl; [|auto with lia]; set (L1 := set_kernel _ k); pose proof (get_time_evolves L1 HF) as Hg;
    destruct (aeGetTime L1) as [[sec cm] L2]; destruct Hg as (_ & _ & Et & En).
  - destruct (1000 <=? _); simpl; intros te; rewrite Et; (intros [->|?]%elem_of_cons; [right; simpl; lia|by left]).
  - destruct (1000 <=? _); simpl; rewrite En; simpl; lia.
  - destruct ok; simpl; [|done]. set (L1 := set_kernel _ k). pose proof (get_time_evolves L1 HF) as Hg.
    destruct (aeGetTime L1) as [[sec cm] L2]. destruct Hg as (_ & [_ _ Hc _] & _).
    destruct (1000 <=? _); simpl; by eapply not_after_trans.
Qed.

Lemma plain_evolves L L' : clock_forward → plain L L' → evolves L L'.
Proof using KL.
  intros HF Hp. assert (HI : ae_inv L → ae_inv L') by (by apply plain_inv).
  destruct Hp as [L1 fd m proc data r L2 Hfd Hm E|L1 fd m L2 Hfd Hm E|L1 ms proc data f Hms|L1 i te l E|L1].
  - destruct (create_file_evolves _ _ _ _ _ _ _ HF E) as (Et & En & Hc). split; rewrite ?Et, ?En; auto with lia.
  - destruct (delete_file_evolves _ _ _ _ HF E) as (Et & En & Hc). split; rewrite ?Et, ?En; auto with lia.
  - by apply create_time_evolves.
  - apply unlink_perm in E as [Hp _]. split; simpl; [|done|unfold not_after; lia|done].
    intros te' Hte. left. rewrite Hp. by right.
  - split; simpl; [by left|done|unfold not_after; lia|done].
Qed.

Lemma plains_evolve L L' : clock_forward → rtc plain L L' → evolves L L'.
Proof using KL.
  intros HF. induction 1 as [|L1 L2 L3 Hp _ IH]; [apply evolves_refl|]. eapply evolves_trans; [by apply plain_evolves|done].
Qed.

Lemma unlink_none (l : list aeTimeEvent) i : unlink l i = None → i ∉ (id <$> l).
Proof.
  induction l as [|te l IH]; simpl; [set_solver|]. destruct (Z.eqb_spec (id te) i) as [E|E]; [done|].
  destruct (unlink l i); simpl; [done|]. intros _. specialize (IH eq_refl). set_solver.
Qed.

(** Removing the event that was called. *)
Lemma delete_called L te : clock_forward → plain_callbacks → ae_inv L → id te < timeEventNextId L →
  let L' := (aeDeleteTimeEvent L (id te)).2 in
  evolves L L' ∧ (id te ∉ (id <$> timeEvents L')) ∧
  (callbacks_keep → ∀ te', te' ∈ timeEvents L → id te' ≠ id te → te' ∈ timeEvents L').
Proof using HL KL.
  intros HF HP HI Hid L'. subst L'. unfold aeDeleteTimeEvent. destruct (unlink (timeEvents L) (id te)) as [[te0 l]|] eqn:E.
  2: { simpl. split_and!; [apply evolves_refl|by apply unlink_none|done]. }
  simpl. set (L1 := set_timers L (timeEventNextId L) l).
  assert (He : evolves L L1) by (apply plain_evolves; [done|by eapply api_unlink]).
  apply unlink_perm in E as [Hp E0]. pose proof (inv_ids _ HI) as Hnd. rewrite Hp in Hnd. cbn [fmap list_fmap] in Hnd. apply NoDup_cons in Hnd as [Hni _].
  rewrite E0 in Hni.
  assert (Hk : ∀ te', te' ∈ timeEvents L → id te' ≠ id te → te' ∈ l).
  { intros te'. rewrite Hp. intros [->|?]%elem_of_cons; [congruence|done]. }
  destruct (finalizerProc te0) as [f|]; [|by split_and!; eauto].
  pose proof (plains_evolve _ _ HF (plain_final HP f L1 (tclientData te0))) as He2. split_and!.
  - by eapply evolves_trans.
  - intros (te' & Ei & [Hte|Hge]%(ev_times _ _ He2))%list_elem_of_fmap; [|simpl in Hge; lia].
    apply Hni. rewrite Ei. by apply list_elem_of_fmap_2.
  - intros HK te' Hte Hne. apply (keep_final HK). simpl. by apply Hk.
Qed.

Lemma ids_inj (l : list aeTimeEvent) te te' : NoDup (id <$> l) → te ∈ l → te' ∈ l → id te = id te' → te = te'.
Proof.
  induction l as [|te0 l IH]; cbn [fmap list_fmap]; [set_solver|]. intros [Hni Hnd]%NoDup_cons Hte Hte' E.
  assert (Hin : ∀ x, x ∈ l → id x ∈ (id <$> l)) by (intros; by apply list_elem_of_fmap_2).
  apply elem_of_cons in Hte as [->|Hte], Hte' as [->|Hte']; [done| | |by apply IH]; destruct Hni; [rewrite E|rewrite <-E]; by apply Hin.
Qed.

(** The events that the round looks at. *)
Definition old (maxId : Z) (l : list aeTimeEvent) : list aeTimeEvent := filter (λ te, id te ≤ maxId) l.

Lemma old_fewer maxId (l l' : list aeTimeEvent) te : NoDup (id <$> l') → te ∈ l → id te ≤ maxId → id te ∉ (id <$> l') →
  (∀ te', te' ∈ l' → id te' ≤ maxId → te' ∈ l) → (length (old maxId l') < length (old maxId l))%nat.
Proof.
  intros Hnd Hte Hid Hni Hsub. assert (Hn : NoDup (old maxId l')) by (apply NoDup_filter; by eapply NoDup_fmap_1).
  change (length (te :: old maxId l') ≤ length (old maxId l))%nat. apply submseteq_length, NoDup_submseteq.
  - apply NoDup_cons. split; [|done]. intros [_ Hin]%list_elem_of_filter. apply Hni. by apply list_elem_of_fmap_2.
  - intros te' [->|[Hle Hin]%list_elem_of_filter]%elem_of_cons; apply list_elem_of_filter; auto.
Qed.

(** What a round that starts in [L] at time [t0] does. *)
Record round_ok (maxId : Z) (t0 : Z * Z) L (calls : list (aeTimeEvent * (Z * Z))) L' : Prop := {
  ro_once : NoDup (id <$> calls.*1);
  ro_calls te t : (te, t) ∈ calls → te ∈ timeEvents L ∧ id te ≤ maxId ∧ due_at t te;
  ro_left te : te ∈ timeEvents L' → id te ≤ maxId → te ∈ timeEvents L ∧ (te ∉ calls.*1) ∧ ¬ due_at t0 te;
  ro_keep : callbacks_keep → ∀ te, te ∈ timeEvents L → te ∈ calls.*1 ∨ te ∈ timeEvents L'
}.

(** One call, and the rest of the round. *)
Lemma round_call maxId t0 L te t L3 calls L' : te ∈ timeEvents L → id te ≤ maxId → due_at t te → maxId < timeEventNextId L →
  evolves L L3 → id te ∉ (id <$> timeEvents L3) → (callbacks_keep → ∀ te', te' ∈ timeEvents L → te' ≠ te → te' ∈ timeEvents L3) →
  round_ok maxId t0 L3 calls L' → round_ok maxId t0 L ((te, t) :: calls) L'.
Proof.
  intros Hte Hid Hdue Hmax He Hni Hkeep [R1 R2 R3 R4].
  assert (Hback : ∀ te', te' ∈ timeEvents L3 → id te' ≤ maxId → te' ∈ timeEvents L ∧ te' ≠ te).
  { intros te' Hin Hle. split; [destruct (ev_times _ _ He te' Hin); [done|lia]|]. intros ->. apply Hni. by apply list_elem_of_fmap_2. }
  split.
  - cbn [fmap list_fmap fst]. apply NoDup_cons. split; [|done]. intros (te' & Ei & ((te1 & t1) & -> & Hin)%list_elem_of_fmap)%list_elem_of_fmap.
    simpl in Ei. apply R2 in Hin as (Hin & _). apply Hni. rewrite Ei. by apply list_elem_of_fmap_2.
  - intros te' t' [[= -> ->]|Hin]%elem_of_cons; [done|]. apply R2 in Hin as (Hin & Hle & ?). split_and!; [by apply Hback|done..].
  - intros te' Hin Hle. destruct (R3 te' Hin Hle) as (Hin3 & Hnc & Hnd). destruct (Hback te' Hin3 Hle). split_and!; [done| |done].
    cbn [fmap list_fmap fst]. intros [?|?]%elem_of_cons; done.
  - intros HK te' Hin. cbn [fmap list_fmap fst]. destruct (decide (te' = te)) as [->|Hne]; [left; by left|].
    destruct (R4 HK te') as [?|?]; [by apply Hkeep|left; by right|by right].
Qed.

Lemma calls_ok maxId t0 : clock_forward → plain_callbacks → ∀ n L pre l, (length (old maxId (timeEvents L)) ≤ n)%nat →
  ae_inv L → maxId < timeEventNextId L → not_after t0 (clock (kernel L)) → (∀ te, te ∈ timeEvents L → id te ≤ maxId → one_shot te) →
  timeEvents L = pre ++ l → (∀ te, te ∈ pre → id te ≤ maxId → ¬ due_at t0 te) →
  ∃ F calls L', (∀ fuel, (F ≤ fuel)%nat → time_calls fuel L l maxId = Some (calls, L')) ∧ round_ok maxId t0 L calls L'.
Proof using HL KL.
  intros HF HP n. induction (lt_wf n) as [n _ IHn]. intros L pre l. revert L pre.
  induction l as [|te l IHl]; intros L pre Hn HI Hmax Ht0 Hone Et Hpre.
  { exists 1%nat, [], L. split; [intros [|fuel] Hf; [lia|done]|]. rewrite app_nil_r in Et. split; simpl; [constructor|set_solver| |by right].
    intros te Hin Hle. split_and!; [done|set_solver|]. apply Hpre; [by rewrite <-Et|done]. }
  assert (Hin : te ∈ timeEvents L) by (rewrite Et; set_solver).
  destruct (decide (maxId < id te)) as [Hskip|Hid].
  { destruct (IHl L (pre ++ [te])) as (F & calls & L' & HF' & HR); [done..|by rewrite <-(assoc_L app)| |].
    { intros te' [?|Hs%list_elem_of_singleton]%elem_of_app; [by apply Hpre|subst; lia]. }
    exists (S F), calls, L'. split; [|done]. intros [|fuel] Hf; [lia|]. cbn [time_calls]. rewrite (proj2 (Z.ltb_lt _ _) Hskip). apply HF'. lia. }
  pose proof (get_time_evolves L HF) as Hg. destruct (aeGetTime L) as [[sec ms] L1] eqn:Eg. destruct Hg as (Ec & He1 & Et1 & En1).
  assert (HI1 : ae_inv L1) by (by apply (ev_inv _ _ He1)).
  destruct (due te sec ms) eqn:Edue.
  - apply due_spec in Edue as Hdue. pose proof (plains_evolve _ _ HF (plain_time HP (timeProc te) L1 (id te) (tclientData te))) as He2.
    pose proof (Hone te Hin ltac:(lia) L1) as Hret. destruct (call_time (timeProc te) L1 (id te) (tclientData te)) as [retval L2] eqn:Ecall.
    simpl in He2, Hret. subst retval. assert (HI2 : ae_inv L2) by (by apply (ev_inv _ _ He2)).
    assert (Hid2 : id te < timeEventNextId L2) by (pose proof (ev_next _ _ He2); pose proof (inv_next _ HI te Hin); lia).
    destruct (delete_called L2 te HF HP HI2 Hid2) as (He3 & Hni & Hk). set (L3 := (aeDeleteTimeEvent L2 (id te)).2) in *.
    assert (He : evolves L L3) by (eapply evolves_trans; [done|by eapply evolves_trans]).
    assert (Hsub : ∀ te', te' ∈ timeEvents L3 → id te' ≤ maxId → te' ∈ timeEvents L).
    { intros te' Hin' Hle. destruct (ev_times _ _ He te' Hin'); [done|lia]. }
    assert (HI3 : ae_inv L3) by (by apply (ev_inv _ _ He)).
    pose proof (old_fewer maxId (timeEvents L) (timeEvents L3) te (inv_ids _ HI3) Hin ltac:(lia) Hni Hsub) as Hlt.
    destruct (IHn (length (old maxId (timeEvents L3))) ltac:(lia) L3 [] (timeEvents L3)) as (F & calls & L' & HF' & HR); try done.
    { pose proof (ev_next _ _ He). lia. }
    { eapply not_after_trans; [done|]. apply (ev_clock _ _ He). }
    { intros te' Hin' Hle. by apply Hone; [apply Hsub|]. }
    { set_solver. }
    exists (S F), ((te, (sec, ms)) :: calls), L'. split.
    + intros [|fuel] Hf; [lia|]. cbn [time_calls]. rewrite (proj2 (Z.ltb_ge _ _)), Eg, Edue, Ecall by lia.
      unfold after_call. rewrite Z.eqb_refl. cbn [negb]. fold L3. bind_simpl. rewrite HF' by lia. done.
    + eapply (round_call maxId t0 L te (sec, ms) L3); try done; [lia|]. intros HK te' Hin' Hne. apply Hk; [done|..].
      * pose proof (keep_time HK (timeProc te) L1 (id te) (tclientData te) te') as Hkt. rewrite Ecall in Hkt. apply Hkt. by rewrite Et1.
      * intros Ei. apply Hne. by apply (ids_inj (timeEvents L)); [apply HI|..].
  - destruct (IHl L1 (pre ++ [te])) as (F & calls & L' & HF' & HR).
    + by rewrite Et1.
    + done.
    + by rewrite En1.
    + eapply not_after_trans; [done|]. apply (ev_clock _ _ He1).
    + by rewrite Et1.
    + by rewrite Et1, <-(assoc_L app).
    + intros te' [?|Hs%list_elem_of_singleton]%elem_of_app; [by apply Hpre|]. subst te'. intros _ Hd.
      assert (due te sec ms = true); [|congruence]. apply due_spec. rewrite Ec. by eapply not_after_trans.
    + exists (S F), calls, L'. split.
      * intros [|fuel] Hf; [lia|]. cbn [time_calls]. rewrite (proj2 (Z.ltb_ge _ _)), Eg, Edue by lia. apply HF'. lia.
      * destruct HR as [R1 R2 R3 R4]. split; rewrite ?Et1 in *; auto; intros; rewrite <-?Et1; auto.
Qed.

(** C20 [liveness]. A round of [processTimeEvents] on events whose callbacks return [AE_NOMORE], when the clock is not set
    back during the round (if it was set back before, the events are those that the round has made due) and the callbacks
    call any functions of the loop but [aeProcessEvents]: the round returns, however many events callbacks add; it counts
    the callbacks it calls; it calls no event twice, only events from before the round, and only when their time has come;
    no event that was due at the start is left in the list; and when callbacks remove no events, each event from before the
    round was called or is still in the list, so that those due at the start were all called. *)
Theorem ae_round_fires_due size k L : clock_forward → plain_callbacks → ae_reach size k L → Forall one_shot (timeEvents L) →
  let L0 := round_start L in
  ∃ calls L', (∃ F, ∀ fuel, (F ≤ fuel)%nat → processTimeEvents fuel L = Some (Z.of_nat (length calls), L') ∧
      round_calls fuel L = Some (calls, L')) ∧
    NoDup (id <$> calls.*1) ∧
    (∀ te t, (te, t) ∈ calls → te ∈ timeEvents L0 ∧ due_at t te) ∧
    (∀ te, te ∈ timeEvents L0 → due_at (clock (kernel L0)) te → te ∉ timeEvents L') ∧
    (callbacks_keep → ∀ te, te ∈ timeEvents L0 → te ∈ calls.*1 ∨ te ∈ timeEvents L').
Proof using HL KL.
  intros HF HP HI%reach_ae_inv Hone L0. pose proof (round_start_inv L HI) as HI0. fold L0 in HI0.
  assert (Hone0 : ∀ te, te ∈ timeEvents L0 → one_shot te).
  { rewrite Forall_forall in Hone. subst L0. unfold round_start. destruct (time (kernel L)) as [now k']. destruct (_ <? _); simpl; [|done].
    intros te (te' & -> & Hin)%list_elem_of_fmap. exact (Hone te' Hin). }
  destruct (calls_ok (timeEventNextId L0 - 1) (clock (kernel L0)) HF HP (length (old (timeEventNextId L0 - 1) (timeEvents L0))) L0 [] (timeEvents L0))
    as (F & calls & L' & HF' & [R1 R2 R3 R4]); try done.
  { lia. } { unfold not_after. lia. } { intros te Hin _. by apply Hone0. } { set_solver. }
  exists calls, L'. split_and!; [|done| | |done].
  - exists F. intros fuel Hf. unfold processTimeEvents, round_calls. fold L0. cbv zeta. rewrite time_loop_calls, HF' by done. done.
  - intros te t Hin. destruct (R2 te t Hin) as (? & _ & ?). done.
  - intros te Hin Hd Hin'. pose proof (inv_next _ HI0 te Hin). destruct (R3 te Hin' ltac:(lia)) as (_ & _ & ?). done.
Qed.
End round.

(** ** Events that do not end *)

Section errors.
Context `{HL : HandlerLaws} {KL : KernelLaws}.
Implicit Types (L : aeEventLoop) (te : aeTimeEvent).

(** The clock stands still, and the callbacks neither set nor remove time events. *)
Record quiet_round (sec usec : Z) : Prop := {
  quiet_clock k : (gettimeofday k).1 = (sec, usec);
  quiet_time p L i d : timeEvents (call_time p L i d).2 = timeEvents L;
  quiet_final p L d : timeEvents (call_final p L d) = timeEvents L
}.

(** A callback that asks to be called again in zero milliseconds is called again at once while the
    clock stands still: the round does not return. *)
Theorem ae_zero_interval_hangs sec usec fuel L te l n maxId : quiet_round sec usec → 0 ≤ usec < 1000000 →
  timeEvents L = te :: l → id te ≤ maxId → due te sec (Z.quot usec 1000) = true →
  (∀ L, (call_time (timeProc te) L (id te) (tclientData te)).1 = 0) →
  time_loop fuel L (timeEvents L) maxId n = None.
Proof.
  intros HQ Hu. revert L te n. induction fuel as [|fuel IH]; intros L te n Et Hid Hdue Hz; [done|].
  rewrite Et. cbn [time_loop]. rewrite (proj2 (Z.ltb_ge _ _) Hid). unfold aeGetTime.
  pose proof (quiet_clock _ _ HQ (kernel L)) as Hc. destruct (gettimeofday (kernel L)) as [[sec' usec'] k].
  simpl in Hc. injection Hc as -> ->. rewrite Hdue. set (L1 := set_kernel L k). specialize (Hz L1) as Hz1.
  pose proof (quiet_time _ _ HQ (timeProc te) L1 (id te) (tclientData te)) as Ht.
  destruct (call_time (timeProc te) L1 (id te) (tclientData te)) as [retval L2]. simpl in Hz1, Ht. subst retval.
  unfold after_call, aeAddMillisecondsToNow, aeGetTime. cbn [Z.eqb AE_NOMORE negb].
  pose proof (quiet_clock _ _ HQ (kernel L2)) as Hc. destruct (gettimeofday (kernel L2)) as [[sec' usec'] k2].
  simpl in Hc. injection Hc as -> ->. assert (Hms : Z.quot usec 1000 + Z.rem 0 1000 < 1000).
  { rewrite Z.quot_div_nonneg by lia. pose proof (Z.div_lt_upper_bound usec 1000 1000). change (Z.rem 0 1000) with 0. lia. }
  rewrite (proj2 (Z.leb_gt _ _) Hms). cbn [timeEvents set_kernel]. rewrite Ht, Et. cbn [set_when]. rewrite Z.eqb_refl.
  bind_simpl. eapply IH; simpl; try done. unfold due; simpl.
  rewrite (proj2 (Z.eqb_eq sec _)) by (change (Z.quot 0 1000) with 0; lia).
  rewrite (proj2 (Z.leb_le _ _)) by (change (Z.rem 0 1000) with 0; lia). by rewrite orb_true_r.
Qed.

(** A callback that deletes its own event and asks to be called again makes the loop write to the
    event after its memory was freed. *)
Theorem ae_self_delete L i retval : retval ≠ AE_NOMORE → (∀ te, te ∈ timeEvents L → id te ≠ i) → after_call L i retval = None.
Proof.
  intros Hr Hi. unfold after_call. rewrite (proj2 (Z.eqb_neq _ _) Hr). simpl.
  destruct (add_ms_ok L retval) as (_ & Et & _). destruct (aeAddMillisecondsToNow L retval) as [[sec ms] L1]. simpl in Et. rewrite Et.
  assert (set_when (timeEvents L) i sec ms = None) as ->; [|done]. clear Et.
  induction (timeEvents L) as [|te l IH]; [done|]. cbn [set_when].
  rewrite (proj2 (Z.eqb_neq _ _)) by (apply Hi; by left). rewrite IH; [done|]. intros te' ?. apply Hi. by right.
Qed.

(** A descriptor that epoll still watches, after a removal that failed, cannot be set again. *)
Theorem ae_failed_removal_blocks L fd m proc data fe : 0 ≤ fd < setsize L → aget (events L) fd = Some fe → mask fe = AE_NONE →
  is_Some (interest (kernel L) !! fd) → fst <$> aeCreateFileEvent L fd m proc data = Some AE_ERR.
Proof using KL.
  intros Hfd Efe Hm [ev Hw]. unfold aeCreateFileEvent, aeEpollAddEvent. rewrite (proj2 (Z.leb_gt _ _)), Efe by lia. bind_simpl.
  rewrite Hm. cbn [Z.eqb AE_NONE]. pose proof (ctl_add (kernel L) fd (epoll_bits (Z.lor m AE_NONE))) as Hc. unfold AE_NONE in *.
  destruct (epoll_ctl _ _ _ _) as [r k]. destruct Hc as [(_ & ? & _)|[-> _]]; [congruence|]. done.
Qed.
End errors.

(** ** A small kernel

    It watches any descriptor and finds each of them ready. Every reading of the clock, which counts milliseconds, takes a
    millisecond, and a poll with a timeout takes that time. *)

#[export] Instance demo_kernel : Kernel := {
  kst := gmap Z Z * Z;
  interest k := k.1;
  epoll_ctl k op fd ev :=
    match op, k.1 !! fd with
    | EPOLL_CTL_ADD, None => (0, (<[fd := ev]> k.1, k.2))
    | EPOLL_CTL_MOD, Some _ => (0, (<[fd := ev]> k.1, k.2))
    | EPOLL_CTL_DEL, Some _ => (0, (delete fd k.1, k.2))
    | _, _ => (-1, k)
    end;
  epoll_wait k n t := (take (Z.to_nat n) (map_to_list k.1), (k.1, k.2 + Z.max 0 t));
  gettimeofday k := (k.2 / 1000, k.2 mod 1000 * 1000, (k.1, k.2 + 1));
  time k := (k.2 / 1000, k);
  malloc_ok k := (true, k)
}.

#[export] Instance demo_kernel_laws : KernelLaws.
Proof.
  split.
  - intros [k c] fd ev. cbn. destruct (k !! fd) eqn:E; [by right|by left].
  - intros [k c] fd ev. cbn. destruct (k !! fd) eqn:E; [by left|by right].
  - intros [k c] fd ev. cbn. destruct (k !! fd) eqn:E; [by left|by right].
  - intros [k c] n t. cbn. rewrite length_take. split_and!; [lia| |done].
    intros fd ev Hin%elem_of_take. destruct Hin as (i & Hi & _). apply list_elem_of_lookup_2, elem_of_map_to_list in Hi. by eexists.
  - intros [k c]. cbn. split; [done|]. pose proof (Z.mod_pos_bound c 1000 ltac:(lia)). lia.
  - done.
  - done.
Qed.

Lemma demo_removals : removals_succeed.
Proof. intros [k c] fd ev [x Hx]. cbn in *. by rewrite Hx. Qed.

Lemma demo_forward : clock_forward.
Proof.
  assert (Hr : ∀ t, not_after t t) by (unfold not_after; lia). split.
  - intros [k c] op fd ev. cbn. destruct op, (k !! fd); apply Hr.
  - intros [k c]. unfold clock. cbn. rewrite !Z.quot_mul by lia. unfold not_after. cbn [fst snd].
    pose proof (Z.div_mod c 1000 ltac:(lia)). pose proof (Z.mod_pos_bound c 1000 ltac:(lia)).
    pose proof (Z.div_mod (c + 1) 1000 ltac:(lia)). pose proof (Z.mod_pos_bound (c + 1) 1000 ltac:(lia)). lia.
  - intros k. apply Hr.
  - intros k. apply Hr.
Qed.

(** Callbacks that only return: the first is done, the others want to be called again. *)
#[export] Instance demo_handlers : Handlers := {
  call_file p L fd data m := L;
  call_time p L i data := (if p =? 1 then AE_NOMORE else 100, L);
  call_final p L data := L
}.

#[export] Instance demo_handler_laws : HandlerLaws.
Proof. by split. Qed.

(** At 10.5 seconds: a descriptor that is read and written, an event in a millisecond and one in 700. *)
Definition demo_loop : option aeEventLoop :=
  L ← aeCreateEventLoop 4 ((∅, 10500) : @kst demo_kernel);
  x ← aeCreateFileEvent L 2 3 5 0;
  Some (aeCreateTimeEvent (aeCreateTimeEvent x.2 1 1 0 None).2 700 1 0 None).2.

Definition demo_L : aeEventLoop := default (mkLoop 0 0 0 [] [] 0 0 [] (∅ : gmap Z Z, 0)) demo_loop.

Lemma demo_ae_reach : @ae_reach demo_kernel demo_handlers 4 (∅, 10500) demo_L.
Proof.
  split; [done|]. eexists. split; [reflexivity|].
  let v := eval vm_compute in demo_L in replace demo_L with v by (vm_compute; reflexivity). norm_start.
  eapply rtc_l; [apply step_api, api_plain; by eapply (api_create_file _ 2 3 5 0)|]. norm_start.
  eapply rtc_l; [apply step_api, api_plain; by apply (api_create_time _ 1 1 0 None)|]. norm_start.
  eapply rtc_l; [apply step_api, api_plain; by apply (api_create_time _ 700 1 0 None)|]. norm_start.
  apply rtc_refl.
Qed.

Lemma ae_kernel_agrees_witness : interest (kernel demo_L) !! 2 = Some (epoll_bits 3) ∧ is_Some (aeProcessEvents 0 demo_L AE_FILE_EVENTS).
Proof.
  destruct (ae_kernel_agrees 4 _ demo_L demo_ae_reach) as (_ & Hex & _ & _ & _ & _ & Hround). split.
  - apply (Hex demo_removals). exists (mkFile 3 (Some 5) (Some 5) 0). by vm_compute.
  - by apply Hround.
Defined.

(** The event of 10.501 seconds. *)
Definition demo_event : aeTimeEvent := mkTime 0 10 501 1 None 0.

Lemma demo_event_due : demo_event ∈ timeEvents demo_L ∧ demo_event ∈ timeEvents (round_start demo_L) ∧
  due_at (clock (kernel (round_start demo_L))) demo_event.
Proof. split_and!; [vm_compute; right; by left..|right]. vm_compute. done. Qed.

Lemma demo_one_shot : Forall one_shot (timeEvents demo_L).
Proof.
  let v := eval vm_compute in (timeEvents demo_L) in replace (timeEvents demo_L) with v by (vm_compute; reflexivity).
  by repeat constructor.
Qed.

(** It is called and removed. *)
Lemma ae_round_fires_due_witness : ∃ F (calls : list (aeTimeEvent * (Z * Z))) L',
  processTimeEvents F demo_L = Some (Z.of_nat (length calls), L') ∧
  demo_event ∈ timeEvents demo_L ∧ demo_event ∈ calls.*1 ∧ (demo_event ∉ timeEvents L').
Proof.
  assert (HP : plain_callbacks) by (by split). assert (HK : callbacks_keep) by (by split).
  destruct (ae_round_fires_due 4 _ demo_L demo_forward HP demo_ae_reach demo_one_shot) as (calls & L' & (F & HF) & _ & _ & Hdue & Hkeep).
  destruct demo_event_due as (Hin & Hin0 & Hd). pose proof (Hdue _ Hin0 Hd) as Hno.
  exists F, calls, L'. split; [exact (proj1 (HF F (le_n F)))|]. split; [exact Hin|]. split; [|exact Hno].
  destruct (Hkeep HK _ Hin0) as [Hc|Hc]; [exact Hc|destruct (Hno Hc)].
Defined.
