(* ===== verification/Coroutine.v ===== *)
(** * Coroutines on a shared stack (src/c-util/coroutine.c)

    A schedule runs its coroutines on one stack.  A coroutine that yields has its part of the
    stack copied to a buffer of its own, and copied back when it is resumed.

    A machine context ([ucontext_t]) is either the entry of [mainfunc] or what [swapcontext]
    saved, of which the model keeps the registers as an opaque number.  [coroutine_resume]
    and [coroutine_yield] return the context that [swapcontext] activates.  The positions on the
    stack that a call of [coroutine_yield] sees, of its local variable [C] and of [dummy] in
    [_save_stack], depend on what the coroutine does and are arguments.  [malloc] is taken
    to succeed, as the code takes it.

    The code that runs is a client: the main program and the functions of the coroutines.
    [co_step] lets the main program call [coroutine_new] and [coroutine_resume] at any time, and a
    running coroutine call [coroutine_new], write to the stack, yield at any depth, and return. *)

From S2P Require Import Prelude.

(** src/c-util/coroutine.h:9-14, [DEFAULT_COROUTINE]. *)
Definition DEFAULT_COROUTINE : Z := 16.
Definition COROUTINE_DEAD : Z := 0.
Definition COROUTINE_READY : Z := 1.
Definition COROUTINE_RUNNING : Z := 2.
Definition COROUTINE_SUSPEND : Z := 3.

Inductive context := Mainfunc | Saved (regs : Z).

(** src/c-util/coroutine.h:28-37, [coroutine]. *)
Record coroutine := mkCo {
  func : Z; ud : Z; ctx : context; cap : Z; size : Z; status : Z; co_stack : list Z
}.

(** src/c-util/coroutine.h:19-26, [schedule]. *)
Record schedule := mkSch {
  stack : list Z; main : context; nco : Z; s_cap : Z; running : Z; co : list (option coroutine)
}.

Definition with_co (S : schedule) cs := mkSch (stack S) (main S) (nco S) (s_cap S) (running S) cs.
Definition with_stack (S : schedule) st := mkSch st (main S) (nco S) (s_cap S) (running S) (co S).
Definition with_main (S : schedule) m := mkSch (stack S) m (nco S) (s_cap S) (running S) (co S).
Definition with_running (S : schedule) r := mkSch (stack S) (main S) (nco S) (s_cap S) r (co S).
Definition with_nco (S : schedule) n := mkSch (stack S) (main S) n (s_cap S) (running S) (co S).
Definition with_ctx (C : coroutine) c := mkCo (func C) (ud C) c (cap C) (size C) (status C) (co_stack C).
Definition with_status (C : coroutine) s := mkCo (func C) (ud C) (ctx C) (cap C) (size C) s (co_stack C).

(** [memcpy(dst + off, src, |src|)] inside of one array. *)
Definition memcpy (dst : list Z) (off : Z) (src : list Z) : option (list Z) :=
  if (0 <=? off) && (off + Z.of_nat (length src) <=? Z.of_nat (length dst))
  then Some (take (Z.to_nat off) dst ++ src ++ drop (Z.to_nat off + length src) dst) else None.

(** The first [n] bytes from an offset on. *)
Definition bytes (src : list Z) (off n : Z) : option (list Z) :=
  if (0 <=? off) && (0 <=? n) && (off + n <=? Z.of_nat (length src))
  then Some (take (Z.to_nat n) (drop (Z.to_nat off) src)) else None.

Section coroutine.
(** The size of the shared stack, 1 MiB in coroutine.h. *)
Context (STACK_SIZE : Z).
Implicit Types (S : schedule) (C : coroutine).

(** src/c-util/coroutine.c:8-18, [_co_new]. *)
Definition _co_new (f d : Z) : coroutine := mkCo f d Mainfunc 0 0 COROUTINE_READY [].

(** src/c-util/coroutine.c:25-34, [coroutine_open]. *)
Definition coroutine_open : schedule :=
  mkSch (replicate (Z.to_nat STACK_SIZE) 0) Mainfunc 0 DEFAULT_COROUTINE (-1) (replicate (Z.to_nat DEFAULT_COROUTINE) None).

(** src/c-util/coroutine.c:70-77, [for (i=0;i<S->cap;i++)]. *)
Fixpoint place (k : nat) S (i : Z) (C : coroutine) : option (Z * schedule) :=
  match k with
  | O => None
  | Datatypes.S k =>
      let id := Z.rem (i + nco S) (s_cap S) in
      slot ← aget (co S) id;
      match slot with
      | None => cs ← aset (co S) id (Some C); Some (id, with_nco (with_co S cs) (nco S + 1))
      | Some _ => place k S (i + 1) C
      end
  end.

(** src/c-util/coroutine.c:56-81, [coroutine_new]. *)
Definition coroutine_new S (f d : Z) : option (Z * schedule) :=
  let C := _co_new f d in
  if s_cap S <=? nco S then
    if 2 ^ 31 <=? s_cap S * 2 then None else
    let id := s_cap S in
    cs ← aset (co S ++ replicate (Z.to_nat (s_cap S)) None) (s_cap S) (Some C);
    Some (id, mkSch (stack S) (main S) (nco S + 1) (s_cap S * 2) (running S) cs)
  else place (Z.to_nat (s_cap S)) S 0 C.

(** src/c-util/coroutine.c:84-95, [mainfunc]. What it does when the function of the coroutine
    returns; [uc_link] then activates the main context. *)
Definition mainfunc_return S : option (context * schedule) :=
  let id := running S in
  slot ← aget (co S) id;
  match slot with
  | Some _ => cs ← aset (co S) id None; Some (main S, with_running (with_nco (with_co S cs) (nco S - 1)) (-1))
  | None => None
  end.

(** src/c-util/coroutine.c:102-133, [coroutine_resume]. *)
Definition coroutine_resume S (regs id : Z) : option (option context * schedule) :=
  if negb (running S =? -1) then None else
  if negb ((0 <=? id) && (id <? s_cap S)) then None else
  slot ← aget (co S) id;
  match slot with
  | None => Some (None, S)
  | Some C =>
      if status C =? COROUTINE_READY then
        cs ← aset (co S) id (Some (with_status (with_ctx C Mainfunc) COROUTINE_RUNNING));
        Some (Some Mainfunc, with_main (with_running (with_co S cs) id) (Saved regs))
      else if status C =? COROUTINE_SUSPEND then
        src ← bytes (co_stack C) 0 (size C);
        st ← memcpy (stack S) (STACK_SIZE - size C) src;
        cs ← aset (co S) id (Some (with_status C COROUTINE_RUNNING));
        Some (Some (ctx C), with_main (with_running (with_co (with_stack S st) cs) id) (Saved regs))
      else None
  end.

(** src/c-util/coroutine.c:135-145, [_save_stack]. [n] is [top - &dummy]; the stack ends at [top]. *)
Definition _save_stack C (st : list Z) (n : Z) : option coroutine :=
  if negb (n <=? STACK_SIZE) then None else
  let '(cap', buf) := if cap C <? n then (n, replicate (Z.to_nat n) 0) else (cap C, co_stack C) in
  src ← bytes st (STACK_SIZE - n) n;
  buf ← memcpy buf 0 src;
  Some (mkCo (func C) (ud C) (ctx C) cap' n (status C) buf).

(** src/c-util/coroutine.c:151-161, [coroutine_yield]. [at_C] is [(char * )&C - S->stack]. *)
Definition coroutine_yield S (regs at_C n : Z) : option (context * schedule) :=
  let id := running S in
  if negb (0 <=? id) then None else
  slot ← aget (co S) id;
  C ← slot;
  if negb (0 <? at_C) then None else
  C ← _save_stack C (stack S) n;
  cs ← aset (co S) id (Some (with_ctx (with_status C COROUTINE_SUSPEND) (Saved regs)));
  Some (main S, with_running (with_co S cs) (-1)).

(** src/c-util/coroutine.c:164-170, [coroutine_status]. *)
Definition coroutine_status S (id : Z) : option Z :=
  if negb ((0 <=? id) && (id <? s_cap S)) then None else
  slot ← aget (co S) id;
  match slot with None => Some COROUTINE_DEAD | Some C => Some (status C) end.

(** src/c-util/coroutine.c:172-174, [coroutine_running]. *)
Definition coroutine_running S : Z := running S.

(** ** Runs

    Next to the schedule, the machine remembers for each coroutine that has yielded its
    registers and the part of the stack above its stack pointer, and the registers of the main program. *)

Record machine := mkM { sch : schedule; frames : gmap Z (Z * list Z); caller : Z }.

Inductive co_step : machine → machine → Prop :=
  | step_new M f d id S' : coroutine_new (sch M) f d = Some (id, S') → co_step M (mkM S' (frames M) (caller M))
  | step_resume M regs id c S' : coroutine_resume (sch M) regs id = Some (c, S') →
      co_step M (mkM S' (delete id (frames M)) (match c with Some _ => regs | None => caller M end))
  | step_write M st : running (sch M) ≠ -1 → length st = length (stack (sch M)) →
      co_step M (mkM (with_stack (sch M) st) (frames M) (caller M))
  | step_yield M regs at_C n c S' : 0 < n → coroutine_yield (sch M) regs at_C n = Some (c, S') →
      co_step M (mkM S' (<[running (sch M) := (regs, drop (Z.to_nat (STACK_SIZE - n)) (stack (sch M)))]> (frames M)) (caller M))
  | step_return M c S' : running (sch M) ≠ -1 → mainfunc_return (sch M) = Some (c, S') →
      co_step M (mkM S' (frames M) (caller M)).

Definition co_reach (M : machine) : Prop := rtc co_step (mkM coroutine_open ∅ 0) M.

(** ** The invariant *)

(** The number of coroutines in the array. *)
Definition live (cs : list (option coroutine)) : Z := Z.of_nat (length (filter is_Some cs)).
Definition count (o : option coroutine) : Z := match o with Some _ => 1 | None => 0 end.

Definition suspended (frame : option (Z * list Z)) C : Prop :=
  ∃ regs fr, frame = Some (regs, fr) ∧ status C = COROUTINE_SUSPEND ∧ ctx C = Saved regs ∧
    size C = Z.of_nat (length fr) ∧ size C ≤ STACK_SIZE ∧ take (length fr) (co_stack C) = fr.

Definition slot_ok (frame : option (Z * list Z)) (is_running : bool) C : Prop :=
  Z.of_nat (length (co_stack C)) = cap C ∧
  if is_running then status C = COROUTINE_RUNNING ∧ frame = None
  else (status C = COROUTINE_READY ∧ frame = None) ∨ suspended frame C.

Record co_inv (M : machine) : Prop := {
  inv_stack : Z.of_nat (length (stack (sch M))) = STACK_SIZE;
  inv_cap : Z.of_nat (length (co (sch M))) = s_cap (sch M) ∧ 1 ≤ s_cap (sch M);
  inv_nco : nco (sch M) = live (co (sch M));
  inv_running : running (sch M) = -1 ∨ ∃ C, aget (co (sch M)) (running (sch M)) = Some (Some C);
  inv_slot id C : aget (co (sch M)) id = Some (Some C) → slot_ok (frames M !! id) (bool_decide (id = running (sch M))) C;
  inv_frames id : is_Some (frames M !! id) → ∃ C, aget (co (sch M)) id = Some (Some C);
  inv_main : running (sch M) ≠ -1 → main (sch M) = Saved (caller M)
}.

Lemma live_app cs cs' : live (cs ++ cs') = live cs + live cs'.
Proof. unfold live. rewrite filter_app, length_app. lia. Qed.

Lemma live_dead n : live (replicate n None) = 0.
Proof. unfold live. induction n as [|n IH]; [done|]. simpl. rewrite filter_cons_False; [done|]. by intros [? ?]. Qed.

Lemma live_cons o cs : live (o :: cs) = count o + live cs.
Proof.
  unfold live. destruct o; [rewrite filter_cons_True by done|rewrite filter_cons_False by (by intros [? ?])]; simpl; lia.
Qed.

Lemma live_aset cs i o o' cs' : aget cs i = Some o → aset cs i o' = Some cs' → live cs' = live cs - count o + count o'.
Proof.
  intros [Hi Hl]%aget_Some [_ ->]%aset_inv. rewrite insert_take_drop by lia.
  rewrite <-(take_drop_middle _ _ _ Hl) at 3. rewrite !live_app, !live_cons. lia.
Qed.

(** There is a free slot unless the array is full. *)
Lemma live_free cs : live cs < Z.of_nat (length cs) → ∃ j, 0 ≤ j < Z.of_nat (length cs) ∧ aget cs j = Some None.
Proof.
  induction cs as [|o cs IH]; [unfold live; simpl; lia|]. rewrite live_cons. simpl. intros Hl. destruct o as [C|].
  - destruct IH as (j & Hj & E); [simpl in Hl; lia|]. exists (j + 1). split; [lia|].
    apply aget_Some in E as [_ E]. rewrite <-(Z2Nat.id (j + 1)), aget_nat by lia. by rewrite Z2Nat.inj_add, Nat.add_comm by lia.
  - exists 0. split; [lia|done].
Qed.

(** *** One slot changes *)

Lemma inv_set M id o o' st' m' n' r' cs G' k' : co_inv M → aget (co (sch M)) id = Some o → aset (co (sch M)) id o' = Some cs →
  length st' = length (stack (sch M)) → n' = nco (sch M) - count o + count o' →
  (∀ j, j ≠ id → G' !! j = frames M !! j) → (∀ j, 0 ≤ j → j ≠ id → j = r' ↔ j = running (sch M)) →
  r' = -1 ∨ r' = id ∨ r' = running (sch M) → (r' ≠ -1 → m' = Saved k') →
  match o' with Some C => slot_ok (G' !! id) (bool_decide (id = r')) C | None => G' !! id = None ∧ r' ≠ id end →
  co_inv (mkM (mkSch st' m' n' (s_cap (sch M)) r' cs) G' k').
Proof.
  intros HI Eo Ecs Hst Hn HG Hr Hr' Hm Ho. pose proof (aget_aset _ _ _ _ id Ecs) as Hid. rewrite decide_True in Hid by done.
  assert (Hget : ∀ j, j ≠ id → aget cs j = aget (co (sch M)) j) by (intros j Hj; by rewrite (aget_aset _ _ _ _ j Ecs), decide_False).
  split; simpl.
  - rewrite Hst. apply HI.
  - rewrite (aset_length _ _ _ _ Ecs). apply HI.
  - by rewrite Hn, (inv_nco _ HI), (live_aset _ _ _ _ _ Eo Ecs).
  - destruct Hr' as [?|Hr']; [by left|]. destruct (decide (r' = -1)) as [?|Hne]; [by left|right].
    destruct (decide (r' = id)) as [->|Hne']; [destruct o'; [eauto|tauto]|]. rewrite Hget by done.
    destruct Hr' as [?| ->]; [done|]. by destruct (inv_running _ HI).
  - intros j C Hj. destruct (decide (j = id)) as [->|Hne]; [rewrite Hid in Hj; by simplify_eq|]. rewrite Hget in Hj by done.
    pose proof (inv_slot _ HI j C Hj) as Hs. rewrite HG by done. apply aget_Some in Hj as [Hj _].
    by rewrite (bool_decide_ext (j = r') (j = running (sch M))) by (apply Hr; lia).
  - intros j Hj. destruct (decide (j = id)) as [->|Hne].
    + destruct o'; [eauto|]. destruct Ho as [Ho _]. rewrite Ho in Hj. by destruct Hj.
    + rewrite Hget by done. apply HI. by rewrite <-HG.
  - done.
Qed.

Lemma inv_grow M : co_inv M →
  co_inv (mkM (mkSch (stack (sch M)) (main (sch M)) (nco (sch M)) (s_cap (sch M) * 2) (running (sch M))
    (co (sch M) ++ replicate (Z.to_nat (s_cap (sch M))) None)) (frames M) (caller M)).
Proof.
  intros HI. destruct (inv_cap _ HI) as [Hlen Hpos].
  assert (Hget : ∀ j C, aget (co (sch M) ++ replicate (Z.to_nat (s_cap (sch M))) None) j = Some (Some C) ↔ aget (co (sch M)) j = Some (Some C)).
  { intros j C. unfold aget. destruct (0 <=? j); [|done]. rewrite lookup_app. destruct (co (sch M) !! Z.to_nat j) eqn:E; [done|].
    split; [|done]. by intros [? _]%lookup_replicate. }
  split; simpl; try apply HI.
  - rewrite length_app, length_replicate. lia.
  - rewrite live_app, live_dead, Z.add_0_r. apply HI.
  - destruct (inv_running _ HI) as [?|[C HC]]; [by left|right]. exists C. by apply Hget.
  - intros j C Hj%Hget. by apply HI.
  - intros j Hj. destruct (inv_frames _ HI j Hj) as [C HC]. exists C. by apply Hget.
Qed.

(** ** The status of a coroutine *)

Definition stat S (id : Z) : Z := default COROUTINE_DEAD (coroutine_status S id).

Definition slot_status (slot : option (option coroutine)) : Z :=
  match slot with Some (Some C) => status C | _ => COROUTINE_DEAD end.

Lemma stat_slot S id : Z.of_nat (length (co S)) = s_cap S → stat S id = slot_status (aget (co S) id).
Proof.
  intros Hlen. unfold stat, coroutine_status. destruct (Z.leb_spec 0 id), (Z.ltb_spec id (s_cap S)); simpl.
  2-4: (destruct (aget (co S) id) eqn:E; [apply aget_Some in E as [? _]; lia|done]).
  by destruct (aget (co S) id) as [[?|]|].
Qed.

Lemma stat_aset S S' id o' : Z.of_nat (length (co S)) = s_cap S → s_cap S' = s_cap S → aset (co S) id o' = Some (co S') →
  ∀ j, stat S' j = if decide (j = id) then slot_status (Some o') else stat S j.
Proof.
  intros Hlen Hc E j. rewrite !stat_slot by (rewrite ?(aset_length _ _ _ _ E); lia). rewrite (aget_aset _ _ _ _ j E).
  destruct (decide (id = j)), (decide (j = id)); congruence.
Qed.

(** ** The operations *)

Lemma memcpy_ok dst off src : 0 ≤ off → off + Z.of_nat (length src) ≤ Z.of_nat (length dst) →
  ∃ r, memcpy dst off src = Some r ∧ length r = length dst ∧ take (length src) (drop (Z.to_nat off) r) = src.
Proof.
  intros H1 H2. unfold memcpy. rewrite (proj2 (Z.leb_le _ _) H1), (proj2 (Z.leb_le _ _) H2). simpl.
  eexists. split; [done|]. split.
  - rewrite !length_app, length_take, length_drop. lia.
  - rewrite drop_app_length' by (rewrite length_take; lia). by rewrite take_app_length.
Qed.

Lemma bytes_ok src off n : 0 ≤ off → 0 ≤ n → off + n ≤ Z.of_nat (length src) →
  bytes src off n = Some (take (Z.to_nat n) (drop (Z.to_nat off) src)).
Proof. intros. unfold bytes. by rewrite !(proj2 (Z.leb_le _ _)) by lia. Qed.

Lemma place_ok k S i C : 0 ≤ i → (∃ t, i ≤ t < i + Z.of_nat k ∧ aget (co S) (Z.rem (t + nco S) (s_cap S)) = Some None) →
  1 ≤ s_cap S → 0 ≤ nco S → Z.of_nat (length (co S)) = s_cap S →
  ∃ id cs, place k S i C = Some (id, with_nco (with_co S cs) (nco S + 1)) ∧
    aget (co S) id = Some None ∧ aset (co S) id (Some C) = Some cs.
Proof.
  intros Hi Ht Hcap Hnco Hlen. revert i Hi Ht. induction k as [|k IH]; intros i Hi (t & Ht & Et); [lia|]. cbn [place].
  set (id := Z.rem (i + nco S) (s_cap S)). assert (Hid : 0 ≤ id < Z.of_nat (length (co S))).
  { rewrite Hlen. apply Z.rem_bound_pos; lia. }
  destruct (aget_is_Some _ _ Hid) as [slot Eslot]. rewrite Eslot. bind_simpl. destruct slot as [C'|].
  - apply IH; [lia|]. exists t. split; [|done]. destruct (decide (t = i)) as [->|]; [|lia]. fold id in Et. congruence.
  - exists id. rewrite (aset_Some _ _ _ Hid). bind_simpl. eauto.
Qed.

Lemma free_slot_fresh M id : co_inv M → aget (co (sch M)) id = Some None → frames M !! id = None ∧ id ≠ running (sch M).
Proof.
  intros HI E. split.
  - destruct (frames M !! id) eqn:EG; [|done]. destruct (inv_frames _ HI id) as [C HC]; [by eexists|congruence].
  - intros ->. destruct (inv_running _ HI) as [Hr|[C HC]]; [rewrite Hr in E; done|congruence].
Qed.

Lemma inv_new f d M id cs : co_inv M → aget (co (sch M)) id = Some None → aset (co (sch M)) id (Some (_co_new f d)) = Some cs →
  co_inv (mkM (mkSch (stack (sch M)) (main (sch M)) (nco (sch M) + 1) (s_cap (sch M)) (running (sch M)) cs) (frames M) (caller M)).
Proof.
  intros HI Eid Ecs. destruct (free_slot_fresh M id HI Eid) as [HG Hr]. apply (inv_set M id None (Some (_co_new f d))); try done.
  - simpl. lia.
  - by right; right.
  - apply HI.
  - split; [done|]. rewrite bool_decide_false by done. by left.
Qed.

Lemma new_ok M f d : co_inv M → nco (sch M) < s_cap (sch M) ∨ s_cap (sch M) * 2 < 2 ^ 31 →
  ∃ id S', coroutine_new (sch M) f d = Some (id, S') ∧ co_inv (mkM S' (frames M) (caller M)) ∧
    0 ≤ id ∧ stat (sch M) id = COROUTINE_DEAD ∧ running S' = running (sch M) ∧
    ∀ j, stat S' j = if decide (j = id) then COROUTINE_READY else stat (sch M) j.
Proof.
  intros HI Hb. destruct (inv_cap _ HI) as [Hlen Hpos]. unfold coroutine_new.
  destruct (Z.leb_spec (s_cap (sch M)) (nco (sch M))).
  - rewrite (proj2 (Z.leb_gt _ _)) by lia. pose proof (inv_grow _ HI) as HI'. set (cs0 := co (sch M) ++ _) in *.
    assert (Hl0 : Z.of_nat (length cs0) = s_cap (sch M) * 2) by apply HI'.
    assert (Eid : aget cs0 (s_cap (sch M)) = Some None).
    { unfold aget, cs0. rewrite (proj2 (Z.leb_le _ _)) by lia. rewrite lookup_app_r by lia. apply lookup_replicate_2. lia. }
    rewrite aset_Some by lia. bind_simpl. eexists _, _. split; [done|].
    split; [apply (inv_new f d _ _ _ HI' Eid); apply aset_Some; simpl; lia|].
    split; [lia|]. split; [rewrite stat_slot by done; unfold aget; rewrite (proj2 (Z.leb_le 0 _)) by lia; by rewrite lookup_ge_None_2 by lia|].
    split; [done|]. intros j. rewrite (stat_aset (mkSch (stack (sch M)) (main (sch M)) (nco (sch M)) (s_cap (sch M) * 2) (running (sch M)) cs0) _
      (s_cap (sch M)) (Some (_co_new f d))); [|done|done|apply aset_Some; simpl; lia].
    case_decide; [done|]. rewrite !stat_slot by done. simpl. unfold aget, cs0. destruct (0 <=? j); [|done].
    rewrite lookup_app. destruct (co (sch M) !! Z.to_nat j); [done|].
    destruct (replicate _ None !! _) eqn:E; [|done]. by apply lookup_replicate in E as [-> _].
  - destruct (live_free (co (sch M))) as (j & Hj & Ej); [rewrite <-(inv_nco _ HI); lia|].
    assert (Hn : 0 ≤ nco (sch M)) by (rewrite (inv_nco _ HI); unfold live; lia).
    destruct (place_ok (Z.to_nat (s_cap (sch M))) (sch M) 0 (_co_new f d)) as (id & cs & -> & Eid & Ecs); [lia| |lia..|].
    + exists ((j - nco (sch M)) mod s_cap (sch M)). pose proof (Z.mod_pos_bound (j - nco (sch M)) (s_cap (sch M))). split; [lia|].
      rewrite Z.rem_mod_nonneg by lia. rewrite Zplus_mod_idemp_l. replace (j - nco (sch M) + nco (sch M)) with j by lia.
      by rewrite Z.mod_small by lia.
    + eexists id, _. split; [done|]. split; [by apply (inv_new f d M id)|]. apply aget_Some in Eid as Hid. split; [lia|].
      split; [by rewrite stat_slot, Eid|]. split; [done|]. by apply (stat_aset _ _ _ (Some (_co_new f d))).
Qed.

Lemma resume_dead M regs id : co_inv M → running (sch M) = -1 → aget (co (sch M)) id = Some None →
  coroutine_resume (sch M) regs id = Some (None, sch M).
Proof.
  intros HI Hr E. unfold coroutine_resume. rewrite Hr. cbn [Z.eqb negb]. apply aget_Some in E as Hid.
  rewrite (proj2 (Z.leb_le 0 id)), (proj2 (Z.ltb_lt id _)) by (destruct (inv_cap _ HI); lia). simpl. by rewrite E.
Qed.

Lemma resume_ok M regs id C : co_inv M → running (sch M) = -1 → aget (co (sch M)) id = Some (Some C) →
  ∃ c S', coroutine_resume (sch M) regs id = Some (Some c, S') ∧ co_inv (mkM S' (delete id (frames M)) regs) ∧
    running S' = id ∧ (∀ j, stat S' j = if decide (j = id) then COROUTINE_RUNNING else stat (sch M) j) ∧
    match frames M !! id with
    | Some (r, fr) => c = Saved r ∧ drop (Z.to_nat (STACK_SIZE - Z.of_nat (length fr))) (stack S') = fr
    | None => c = Mainfunc
    end.
Proof.
  intros HI Hr E. unfold coroutine_resume. rewrite Hr. cbn [Z.eqb negb]. apply aget_Some in E as Hid. destruct Hid as [Hid _].
  destruct (inv_cap _ HI) as [Hlen _]. rewrite (proj2 (Z.leb_le 0 id)), (proj2 (Z.ltb_lt id _)) by lia. simpl. rewrite E. bind_simpl.
  destruct (inv_slot _ HI id C E) as [Hcap Hs]. rewrite bool_decide_false in Hs by lia.
  assert (Hset : ∀ st C' cs, length st = length (stack (sch M)) → aset (co (sch M)) id (Some C') = Some cs →
    status C' = COROUTINE_RUNNING → Z.of_nat (length (co_stack C')) = cap C' →
    co_inv (mkM (mkSch st (Saved regs) (nco (sch M)) (s_cap (sch M)) id cs) (delete id (frames M)) regs)).
  { intros st C' cs Hst Ecs HC' Hcap'. apply (inv_set M id (Some C) (Some C')); try done.
    - simpl. lia.
    - intros j Hj. by rewrite lookup_delete_ne.
    - intros j Hj ?. rewrite Hr. lia.
    - by right; left.
    - rewrite bool_decide_true by done. split; [done|]. by rewrite lookup_delete_eq. }
  destruct Hs as [[Hs HG]|(r & fr & HG & Hs & Hctx & Hsize & Hle & Hfr)]; rewrite Hs, HG; cbn [Z.eqb COROUTINE_READY COROUTINE_SUSPEND Pos.eqb].
  - rewrite (aset_Some _ _ _ Hid). bind_simpl. eexists _, _. split; [done|].
    split; [apply (Hset _ _ _ eq_refl (aset_Some _ _ _ Hid)); done|]. split; [done|]. split; [|done].
    by apply (stat_aset _ _ _ (Some (with_status (with_ctx C Mainfunc) COROUTINE_RUNNING))); [..|apply aset_Some].
  - assert (Hfl : (length fr ≤ length (co_stack C))%nat) by (rewrite <-Hfr, length_take; lia).
    rewrite (bytes_ok _ 0) by lia. bind_simpl. rewrite Hsize, Nat2Z.id. change (Z.to_nat 0) with O. rewrite drop_0, Hfr.
    destruct (memcpy_ok (stack (sch M)) (STACK_SIZE - Z.of_nat (length fr)) fr) as (st & -> & Hst & Hdrop); [lia|rewrite (inv_stack _ HI); lia|].
    bind_simpl. rewrite (aset_Some _ _ _ Hid). bind_simpl. eexists _, _. split; [done|].
    split; [apply (Hset _ _ _ Hst (aset_Some _ _ _ Hid)); done|]. split; [done|]. split.
    + by apply (stat_aset _ _ _ (Some (with_status C COROUTINE_RUNNING))); [..|apply aset_Some].
    + split; [done|]. simpl. rewrite <-Hdrop at 2. symmetry. apply take_ge. rewrite length_drop, Hst.
      pose proof (inv_stack _ HI). lia.
Qed.

Lemma running_slot M : co_inv M → running (sch M) ≠ -1 → ∃ C, aget (co (sch M)) (running (sch M)) = Some (Some C) ∧
  0 ≤ running (sch M) < Z.of_nat (length (co (sch M))) ∧ Z.of_nat (length (co_stack C)) = cap C ∧ frames M !! running (sch M) = None.
Proof.
  intros HI Hr. destruct (inv_running _ HI) as [?|[C E]]; [done|]. exists C. apply aget_Some in E as Hid.
  destruct (inv_slot _ HI _ C E) as [Hcap Hs]. rewrite bool_decide_true in Hs by done. tauto.
Qed.

Lemma save_ok C st n : Z.of_nat (length (co_stack C)) = cap C → Z.of_nat (length st) = STACK_SIZE → 0 < n ≤ STACK_SIZE →
  ∃ C', _save_stack C st n = Some C' ∧ Z.of_nat (length (co_stack C')) = cap C' ∧ size C' = n ∧
    take (Z.to_nat n) (co_stack C') = drop (Z.to_nat (STACK_SIZE - n)) st.
Proof.
  intros Hcap Hst Hn. unfold _save_stack. rewrite (proj2 (Z.leb_le _ _)) by lia. cbn [negb].
  rewrite bytes_ok by lia. bind_simpl. set (src := take _ _).
  assert (Hsrc : src = drop (Z.to_nat (STACK_SIZE - n)) st) by (apply take_ge; rewrite length_drop; lia).
  assert (Hlen : length src = Z.to_nat n) by (rewrite Hsrc, length_drop; lia).
  set (p := if cap C <? n then _ else _). assert (Hp : Z.of_nat (length p.2) = p.1 ∧ n ≤ p.1).
  { subst p. destruct (Z.ltb_spec (cap C) n); simpl; rewrite ?length_replicate; lia. }
  destruct p as [cap' buf]. simpl in Hp. destruct (memcpy_ok buf 0 src) as (buf' & -> & Hbl & Htake); [lia..|].
  bind_simpl. eexists. split; [done|]. simpl. split_and!; [lia|done|]. rewrite <-Hsrc, <-Htake, Hlen at 1. by rewrite drop_0.
Qed.

Lemma yield_ok M regs at_C n : co_inv M → running (sch M) ≠ -1 → 0 < at_C → 0 < n ≤ STACK_SIZE →
  ∃ S', coroutine_yield (sch M) regs at_C n = Some (Saved (caller M), S') ∧
    co_inv (mkM S' (<[running (sch M) := (regs, drop (Z.to_nat (STACK_SIZE - n)) (stack (sch M)))]> (frames M)) (caller M)) ∧
    running S' = -1 ∧ ∀ j, stat S' j = if decide (j = running (sch M)) then COROUTINE_SUSPEND else stat (sch M) j.
Proof.
  intros HI Hr Ha Hn. destruct (running_slot M HI Hr) as (C & E & Hid & Hcap & HG). pose proof (inv_stack _ HI) as Hst.
  unfold coroutine_yield. rewrite (proj2 (Z.leb_le 0 _)) by lia. cbn [negb]. rewrite E. bind_simpl.
  rewrite (proj2 (Z.ltb_lt _ _) Ha). cbn [negb]. destruct (save_ok C (stack (sch M)) n Hcap Hst Hn) as (C' & -> & Hcap' & Hsize & Hfr).
  bind_simpl. rewrite (aset_Some _ _ _ Hid). bind_simpl. rewrite (inv_main _ HI Hr). eexists. split; [done|].
  set (C'' := with_ctx _ _). split; [|split; [done|]].
  - apply (inv_set M (running (sch M)) (Some C) (Some C'')); try done.
    + by apply aset_Some.
    + simpl. lia.
    + intros j Hj. by rewrite lookup_insert_ne.
    + simpl. intros j Hj Hne. lia.
    + by left.
    + rewrite lookup_insert_eq, bool_decide_false by (simpl; lia). split; [done|]. right. eexists _, _. split; [done|].
      assert (Z.of_nat (length (drop (Z.to_nat (STACK_SIZE - n)) (stack (sch M)))) = n) as Hfl by (rewrite length_drop; lia).
      split_and!; try done; simpl; [lia|lia|]. rewrite <-Hfr at 2. f_equal. lia.
  - apply (stat_aset _ _ _ (Some C'')); [apply HI|done|by apply aset_Some].
Qed.

Lemma return_ok M : co_inv M → running (sch M) ≠ -1 →
  ∃ S', mainfunc_return (sch M) = Some (Saved (caller M), S') ∧ co_inv (mkM S' (frames M) (caller M)) ∧
    running S' = -1 ∧ ∀ j, stat S' j = if decide (j = running (sch M)) then COROUTINE_DEAD else stat (sch M) j.
Proof.
  intros HI Hr. destruct (running_slot M HI Hr) as (C & E & Hid & Hcap & HG).
  unfold mainfunc_return. rewrite E. bind_simpl. rewrite (aset_Some _ _ _ Hid). bind_simpl. rewrite (inv_main _ HI Hr).
  eexists. split; [done|]. split; [|split; [done|]].
  - apply (inv_set M (running (sch M)) (Some C) None); try done.
    + by apply aset_Some.
    + simpl. lia.
    + simpl. intros j Hj Hne. lia.
    + by left.
  - apply (stat_aset _ _ _ None); [apply HI|done|by apply aset_Some].
Qed.

(** ** Every run *)

Lemma open_inv : 0 ≤ STACK_SIZE → co_inv (mkM coroutine_open ∅ 0).
Proof.
  intros Hs. split; simpl; try done.
  - rewrite length_replicate. lia.
  - by left.
  - intros id C [_ E]%aget_Some. change (replicate (Z.to_nat DEFAULT_COROUTINE) None !! Z.to_nat id = Some (Some C)) in E.
    by apply lookup_replicate in E as [? _].
  - intros id [? E]. by rewrite lookup_empty in E.
Qed.

Lemma step_inv M M' : co_inv M → co_step M M' → co_inv M'.
Proof.
  intros HI Hstep. revert HI. destruct Hstep as [M f d id S' E|M regs id c S' E|M st Hr Hst|M regs at_C n c S' Hn E|M c S' Hr E]; intros HI.
  - destruct (new_ok M f d HI) as (id' & S'' & E' & HI' & _); [|by simplify_eq].
    revert E. unfold coroutine_new. destruct (Z.leb_spec (s_cap (sch M)) (nco (sch M))); [|by left].
    destruct (Z.leb_spec (2 ^ 31) (s_cap (sch M) * 2)); [done|by right].
  - assert (running (sch M) = -1 ∧ ∃ slot, aget (co (sch M)) id = Some slot) as [Hr [slot Es]].
    { revert E. unfold coroutine_resume. destruct (Z.eqb_spec (running (sch M)) (-1)); [|done]. simpl. case_match; [done|].
      destruct (aget (co (sch M)) id) as [slot|]; [eauto|done]. }
    destruct slot as [C|].
    + destruct (resume_ok M regs id C HI Hr Es) as (c' & S'' & E' & HI' & _). by simplify_eq.
    + rewrite (resume_dead M regs id HI Hr Es) in E. simplify_eq.
      rewrite delete_id by (by apply (free_slot_fresh M)). by destruct M.
  - split; simpl; try apply HI. rewrite Hst. apply HI.
  - assert (running (sch M) ≠ -1 ∧ 0 < at_C ∧ n ≤ STACK_SIZE) as (Hr & Ha & Hle).
    { revert E. unfold coroutine_yield, _save_stack. destruct (Z.leb_spec 0 (running (sch M))); [|done]. simpl.
      destruct (aget _ _) as [[C|]|]; [|done..]. simpl. destruct (Z.ltb_spec 0 at_C); [|done]. simpl.
      destruct (Z.leb_spec n STACK_SIZE); [lia|done]. }
    destruct (yield_ok M regs at_C n HI Hr Ha) as (S'' & E' & HI' & _); [lia|]. by simplify_eq.
  - destruct (return_ok M HI Hr) as (S'' & E' & HI' & _). by simplify_eq.
Qed.

Lemma co_reach_inv M : 0 ≤ STACK_SIZE → co_reach M → co_inv M.
Proof.
  intros Hs Hr. unfold co_reach in Hr. revert Hr. generalize (open_inv Hs). generalize (mkM coroutine_open ∅ 0). intros M0 HI Hr.
  induction Hr; eauto using step_inv.
Qed.

(** C21 [safety]. A coroutine that yielded is resumed with its own registers and stack: whatever
    ran on the shared stack in between, the part of the stack above its stack pointer holds
    again the bytes it held when the coroutine yielded. *)
Theorem coroutine_stack_restored M regs id r fr : 0 ≤ STACK_SIZE → co_reach M → frames M !! id = Some (r, fr) → running (sch M) = -1 →
  ∃ S', coroutine_resume (sch M) regs id = Some (Some (Saved r), S') ∧ running S' = id ∧
    drop (Z.to_nat (STACK_SIZE - Z.of_nat (length fr))) (stack S') = fr.
Proof.
  intros Hs HI%co_reach_inv HG Hr; [|done]. destruct (inv_frames _ HI id) as [C E]; [by rewrite HG|].
  destruct (resume_ok M regs id C HI Hr E) as (c & S' & E' & _ & Hrun & _ & Hc). rewrite HG in Hc. destruct Hc as [-> Hst]. eauto.
Qed.

(** C22 [refinement]. The schedule is a map from identifiers to states, with at most one
    running coroutine: in every run, [coroutine_new] gives a dead identifier the state ready and finds one
    unless the array cannot grow; from the main program [coroutine_resume] makes a coroutine that is
    not dead the running one and ignores a dead one; [coroutine_yield] suspends the running
    one and its return makes it dead, both with the registers of the main program; nothing
    else changes, no assertion fails and no copy leaves its array. *)
Theorem coroutine_schedule_refines M : 0 ≤ STACK_SIZE → co_reach M →
  let S := sch M in
  (∀ id, 0 ≤ id → stat S id = COROUTINE_RUNNING ↔ coroutine_running S = id) ∧
  (∀ f d, s_cap S * 2 < 2 ^ 31 → ∃ id S', coroutine_new S f d = Some (id, S') ∧ stat S id = COROUTINE_DEAD ∧
    coroutine_running S' = coroutine_running S ∧ ∀ j, stat S' j = if decide (j = id) then COROUTINE_READY else stat S j) ∧
  (∀ regs id, coroutine_running S = -1 → 0 ≤ id < s_cap S →
    if decide (stat S id = COROUTINE_DEAD) then coroutine_resume S regs id = Some (None, S)
    else ∃ c S', coroutine_resume S regs id = Some (Some c, S') ∧ coroutine_running S' = id ∧
      ∀ j, stat S' j = if decide (j = id) then COROUTINE_RUNNING else stat S j) ∧
  (coroutine_running S ≠ -1 → ∃ S', mainfunc_return S = Some (Saved (caller M), S') ∧ coroutine_running S' = -1 ∧
    ∀ j, stat S' j = if decide (j = coroutine_running S) then COROUTINE_DEAD else stat S j) ∧
  (∀ regs at_C n, coroutine_running S ≠ -1 → 0 < at_C → 0 < n ≤ STACK_SIZE →
    ∃ S', coroutine_yield S regs at_C n = Some (Saved (caller M), S') ∧ coroutine_running S' = -1 ∧
      ∀ j, stat S' j = if decide (j = coroutine_running S) then COROUTINE_SUSPEND else stat S j).
Proof.
  intros Hs HI%co_reach_inv; [|done]. simpl. unfold coroutine_running. destruct (inv_cap _ HI) as [Hlen _].
  assert (Hslot : ∀ id C, aget (co (sch M)) id = Some (Some C) → status C ≠ COROUTINE_DEAD ∧ (status C = COROUTINE_RUNNING ↔ running (sch M) = id)).
  { intros id C E. destruct (inv_slot _ HI id C E) as [_ Hk]. case_bool_decide; [|destruct Hk as [[Hk _]|(?&?&_&Hk&_)]];
      [destruct Hk as [Hk _]|..]; rewrite Hk; split; try done; split; congruence. }
  split_and!.
  - intros id Hid. rewrite stat_slot by done. unfold slot_status. destruct (aget (co (sch M)) id) as [[C|]|] eqn:E; [by apply Hslot|..];
      (split; [done|]); intros <-; destruct (inv_running _ HI) as [?|[C HC]]; congruence || lia.
  - intros f d Hb. destruct (new_ok M f d HI (or_intror Hb)) as (id & S' & E & _ & _ & Hd & Hr & Hst). eauto 10.
  - intros regs id Hr Hid. rewrite stat_slot by done. destruct (aget_is_Some (co (sch M)) id) as [[C|] E]; [lia|..]; rewrite E; simpl.
    + rewrite decide_False by (by apply (Hslot id)).
      destruct (resume_ok M regs id C HI Hr E) as (c & S' & E' & _ & Hrun & Hst & _). eauto 10.
    + by apply resume_dead.
  - intros Hr. destruct (return_ok M HI Hr) as (S' & E & _ & Hrun & Hst). eauto.
  - intros regs at_C n Hr Ha Hn. destruct (yield_ok M regs at_C n HI Hr Ha Hn) as (S' & E & _ & Hrun & Hst). eauto.
Qed.
End coroutine.

(** Two coroutines that interleave on a stack of eight bytes: the first writes and yields, the
    second overwrites the stack and yields. *)
Definition demo_run : option schedule :=
  x ← coroutine_new (coroutine_open 8) 1 0;
  x ← coroutine_new x.2 2 0;
  x ← coroutine_resume 8 x.2 100 0;
  x ← coroutine_yield 8 (with_stack x.2 [0; 0; 1; 2; 3; 4; 5; 6]) 7 3 4;
  x ← coroutine_resume 8 x.2 101 1;
  x ← coroutine_yield 8 (with_stack x.2 [9; 9; 9; 9; 9; 9; 9; 9]) 8 3 6;
  Some x.2.

Definition demo_machine : machine :=
  mkM (default (coroutine_open 8) demo_run) {[ 0 := (7, [3; 4; 5; 6]); 1 := (8, [9; 9; 9; 9; 9; 9]) ]} 101.

Lemma demo_co_reach : co_reach 8 demo_machine.
Proof.
  eapply rtc_l; [by eapply (step_new _ _ 1 0)|]. norm_start. eapply rtc_l; [by eapply (step_new _ _ 2 0)|]. norm_start.
  eapply rtc_l; [by eapply (step_resume _ _ 100 0)|]. norm_start.
  eapply rtc_l; [by eapply (step_write _ _ [0; 0; 1; 2; 3; 4; 5; 6])|]. norm_start.
  eapply rtc_l; [by eapply (step_yield _ _ 7 3 4)|]. norm_start. eapply rtc_l; [by eapply (step_resume _ _ 101 1)|]. norm_start.
  eapply rtc_l; [by eapply (step_write _ _ [9; 9; 9; 9; 9; 9; 9; 9])|]. norm_start.
  eapply rtc_l; [by eapply (step_yield _ _ 8 3 6)|]. norm_start.
  match goal with |- rtc _ ?M ?M' => replace M' with M by (vm_compute; reflexivity) end. apply rtc_refl.
Qed.

Lemma coroutine_stack_restored_witness : ∃ S', coroutine_resume 8 (sch demo_machine) 102 0 = Some (Some (Saved 7), S') ∧
  drop 4 (stack S') = [3; 4; 5; 6].
Proof.
  destruct (coroutine_stack_restored 8 demo_machine 102 0 7 [3; 4; 5; 6]) as (S' & E & _ & Hst); [lia|apply demo_co_reach|by vm_compute..|].
  by exists S'.
Defined.

Lemma coroutine_schedule_refines_witness : ∃ id S', coroutine_new (sch demo_machine) 3 0 = Some (id, S') ∧ stat S' id = COROUTINE_READY.
Proof.
  destruct (coroutine_schedule_refines 8 demo_machine) as (_ & Hnew & _); [lia|apply demo_co_reach|].
  destruct (Hnew 3 0) as (id & S' & E & _ & _ & Hst); [by vm_compute|]. exists id, S'. split; [done|]. by rewrite Hst, decide_True.
Defined.
