(* ===== verification/ThreadPool.v ===== *)
(** * The thread pool (src/cpp-util/threadpool.h)

    Workers, clients that call [enqueue] and the thread that runs the destructor are step
    machines over the members of the pool.  The mutex is the thread that holds it; a step
    that locks it is not enabled while it is held.  [condition.wait] with a predicate is a loop: test the
    predicate, and if it is false release the mutex and sleep in one step, and lock the mutex again after waking up, which may
    happen without a notification.  A task is a number; running it is one step of its worker.
    A task that calls [enqueue] is a client.

    Next to the members, a pool records the tasks that were pushed, taken from the queue and finished, each in order.
    A client that calls [enqueue] after the destructor has returned uses freed memory; the model has it throw. *)

From S2P Require Import Prelude.

(** ** Threads *)

Inductive tid := Worker (i : nat) | Client (i : nat) | Destructor.

#[export] Instance tid_eq_dec : EqDecision tid.
Proof. solve_decision. Qed.

(** Program points of a worker: at the constructor of [lock], before the predicate, behind it when it was false, asleep, before
    locking again, behind [condition.wait], at [task()], returned. *)
Inductive wpc := WLock | WCheck | WWait | WSleep | WRelock | WTake | WRun (t : Z) | WDone.

(** Program points of a client: outside, at the constructor of [lock], behind it, at
    [notify_one]; and behind an exception. *)
Inductive epc := EIdle | ELock (t : Z) | EPush (t : Z) | ENotify | EThrown.

(** Program points of the destructor. [DJoin i] waits for worker [i]. *)
Inductive dpc := DNone | DLock | DSet | DNotify | DJoin (i : nat) | DDone.

#[export] Instance wpc_eq_dec : EqDecision wpc.
Proof. solve_decision. Qed.

(** src/cpp-util/threadpool.h:23-33, [ThreadPool]. With the threads that use it, and the history. *)
Record pool := mkPool {
  workers : list wpc; tasks : list Z; queue_mutex : option tid; stop : bool;
  clients : list epc; dtor : dpc;
  pushed : list Z; taken : list Z; finished : list Z
}.

Definition set_worker (p : pool) i pc := mkPool (<[i := pc]> (workers p)) (tasks p) (queue_mutex p) (stop p) (clients p) (dtor p) (pushed p) (taken p) (finished p).
Definition set_workers (p : pool) ws := mkPool ws (tasks p) (queue_mutex p) (stop p) (clients p) (dtor p) (pushed p) (taken p) (finished p).
Definition set_mutex (p : pool) o := mkPool (workers p) (tasks p) o (stop p) (clients p) (dtor p) (pushed p) (taken p) (finished p).
Definition set_tasks (p : pool) ts := mkPool (workers p) ts (queue_mutex p) (stop p) (clients p) (dtor p) (pushed p) (taken p) (finished p).
Definition set_client (p : pool) i pc := mkPool (workers p) (tasks p) (queue_mutex p) (stop p) (<[i := pc]> (clients p)) (dtor p) (pushed p) (taken p) (finished p).
Definition set_dtor (p : pool) d := mkPool (workers p) (tasks p) (queue_mutex p) (stop p) (clients p) d (pushed p) (taken p) (finished p).
Definition set_stop (p : pool) := mkPool (workers p) (tasks p) (queue_mutex p) true (clients p) (dtor p) (pushed p) (taken p) (finished p).
Definition log_push (p : pool) t := mkPool (workers p) (tasks p) (queue_mutex p) (stop p) (clients p) (dtor p) (pushed p ++ [t]) (taken p) (finished p).
Definition log_take (p : pool) t := mkPool (workers p) (tasks p) (queue_mutex p) (stop p) (clients p) (dtor p) (pushed p) (taken p ++ [t]) (finished p).
Definition log_finish (p : pool) t := mkPool (workers p) (tasks p) (queue_mutex p) (stop p) (clients p) (dtor p) (pushed p) (taken p) (finished p ++ [t]).

(** src/cpp-util/threadpool.h:36-40, [ThreadPool::ThreadPool]. With [m] threads around that may call [enqueue]. *)
Definition ThreadPool_new (threads m : nat) : pool :=
  mkPool (replicate threads WLock) [] None false (replicate m EIdle) DNone [] [] [].

Definition lock (p : pool) (t : tid) : option pool :=
  match queue_mutex p with None => Some (set_mutex p (Some t)) | Some _ => None end.

(** src/cpp-util/threadpool.h:41-58, [for (;;)]. *)
Definition worker_step (p : pool) (i : nat) : option pool :=
  pc ← workers p !! i;
  match pc with
  | WLock | WRelock => p ← lock p (Worker i); Some (set_worker p i WCheck)
  | WCheck =>
      if stop p || negb (bool_decide (tasks p = [])) then Some (set_worker p i WTake)
      else Some (set_worker p i WWait)
  | WWait => Some (set_worker (set_mutex p None) i WSleep)
  | WSleep => None
  | WTake =>
      if stop p && bool_decide (tasks p = []) then Some (set_worker (set_mutex p None) i WDone)
      else match tasks p with
           | t :: ts => Some (set_worker (set_mutex (log_take (set_tasks p ts) t) None) i (WRun t))
           | [] => None
           end
  | WRun t => Some (set_worker (log_finish p t) i WLock)
  | WDone => None
  end.

(** [notify_one] wakes some worker [j] that sleeps, if there is one; [notify_all] wakes all. *)
Definition notify_one (ws : list wpc) (j : nat) : option (list wpc) :=
  if decide (ws !! j = Some WSleep) then Some (<[j := WRelock]> ws)
  else if decide (WSleep ∈ ws) then None else Some ws.
Definition wake (pc : wpc) : wpc := match pc with WSleep => WRelock | pc => pc end.
Definition notify_all (ws : list wpc) : list wpc := wake <$> ws.

(** src/cpp-util/threadpool.h:62-84, [ThreadPool::enqueue]. [j] is the choice of [notify_one]. *)
Definition enqueue_step (p : pool) (i j : nat) : option pool :=
  pc ← clients p !! i;
  match pc with
  | EIdle | EThrown => None
  | ELock t => p ← lock p (Client i); Some (set_client p i (EPush t))
  | EPush t =>
      if stop p then Some (set_client (set_mutex p None) i EThrown)
      else Some (set_client (set_mutex (log_push (set_tasks p (tasks p ++ [t])) t) None) i ENotify)
  | ENotify => ws ← notify_one (workers p) j; Some (set_client (set_workers p ws) i EIdle)
  end.

(** src/cpp-util/threadpool.h:87-96, [ThreadPool::~ThreadPool]. *)
Definition dtor_step (p : pool) : option pool :=
  match dtor p with
  | DNone | DDone => None
  | DLock => p ← lock p Destructor; Some (set_dtor p DSet)
  | DSet => Some (set_dtor (set_mutex (set_stop p) None) DNotify)
  | DNotify => Some (set_dtor (set_workers p (notify_all (workers p))) (DJoin 0))
  | DJoin i =>
      match workers p !! i with
      | None => Some (set_dtor p DDone)
      | Some pc => if decide (pc = WDone) then Some (set_dtor p (DJoin (S i))) else None
      end
  end.

(** ** Executions *)

(** A step of a call that has begun. *)
Inductive run_step : pool → pool → Prop :=
  | run_worker p i p' : worker_step p i = Some p' → run_step p p'
  | run_client p i j p' : enqueue_step p i j = Some p' → run_step p p'
  | run_dtor p p' : dtor_step p = Some p' → run_step p p'.

(** Any step: also a call begins, or a worker wakes up without a notification. *)
Inductive pool_step : pool → pool → Prop :=
  | step_run p p' : run_step p p' → pool_step p p'
  | step_enqueue p i pc t : clients p !! i = Some pc → pc = EIdle ∨ pc = EThrown → pool_step p (set_client p i (ELock t))
  | step_destroy p : dtor p = DNone → pool_step p (set_dtor p DLock)
  | step_spurious p i : workers p !! i = Some WSleep → pool_step p (set_worker p i WRelock).

Definition pool_reach (n m : nat) (p : pool) : Prop := rtc pool_step (ThreadPool_new n m) p.

(** ** The invariant *)

Definition holds (p : pool) (t : tid) : Prop :=
  match t with
  | Worker i => workers p !! i = Some WCheck ∨ workers p !! i = Some WWait ∨ workers p !! i = Some WTake
  | Client i => ∃ t, clients p !! i = Some (EPush t)
  | Destructor => dtor p = DSet
  end.

Definition running (pc : wpc) : option Z := match pc with WRun t => Some t | _ => None end.

(** Awake and not returned. *)
Definition active (pc : wpc) : Prop := pc ≠ WSleep ∧ pc ≠ WDone.

Definition joined (d : dpc) : nat := match d with DJoin i => i | _ => O end.

Record pool_inv (n : nat) (p : pool) : Prop := {
  inv_workers : length (workers p) = n;
  inv_mutex t : holds p t ↔ queue_mutex p = Some t;
  inv_take i : workers p !! i = Some WTake → stop p = true ∨ tasks p ≠ [];
  inv_wait i : workers p !! i = Some WWait → stop p = false ∧ tasks p = [];
  inv_stop : stop p = true ↔ dtor p ≠ DNone ∧ dtor p ≠ DLock ∧ dtor p ≠ DSet;
  inv_done : WDone ∈ workers p → stop p = true ∧ tasks p = [];
  inv_fifo : pushed p = taken p ++ tasks p;
  inv_taken : taken p ≡ₚ finished p ++ omap running (workers p);
  inv_wake : tasks p ≠ [] → (∃ i pc, workers p !! i = Some pc ∧ active pc) ∨ (∃ i, clients p !! i = Some ENotify) ∨ workers p = [];
  inv_wake_all : stop p = true → dtor p = DNotify ∨ WSleep ∉ workers p;
  inv_join i : (i < joined (dtor p))%nat → workers p !! i = Some WDone;
  inv_end : dtor p = DDone → Forall (.= WDone) (workers p)
}.

Lemma mutex_free p t : queue_mutex p = None → queue_mutex p ≠ Some t.
Proof. by intros ->. Qed.

Lemma omap_insert_same (ws : list wpc) (i : nat) pc pc' : ws !! i = Some pc → running pc = running pc' → omap running (<[i := pc']> ws) = omap running ws.
Proof.
  revert i. induction ws as [|w ws IH]; intros [|i] E Hr; simplify_eq/=; [by rewrite Hr|]. by rewrite (IH i).
Qed.

Lemma omap_insert_start (ws : list wpc) (i : nat) pc t : ws !! i = Some pc → running pc = None → omap running (<[i := WRun t]> ws) ≡ₚ t :: omap running ws.
Proof.
  revert i. induction ws as [|w ws IH]; intros [|i] E Hr; simplify_eq/=; [by rewrite Hr|].
  destruct (running w); [|by apply IH]. rewrite (IH i E Hr). apply Permutation_swap.
Qed.

Lemma omap_insert_end (ws : list wpc) (i : nat) pc t : ws !! i = Some (WRun t) → running pc = None → t :: omap running (<[i := pc]> ws) ≡ₚ omap running ws.
Proof.
  revert i. induction ws as [|w ws IH]; intros [|i] E Hr; simplify_eq/=; [by rewrite Hr|].
  destruct (running w); [|by apply IH]. rewrite Permutation_swap. by rewrite (IH i E Hr).
Qed.

Lemma omap_wake (ws : list wpc) : omap running (notify_all ws) = omap running ws.
Proof. unfold notify_all. induction ws as [|w ws IH]; [done|]. destruct w; csimpl; by rewrite ?IH. Qed.

Lemma elem_insert (ws : list wpc) (i : nat) pc x : x ∈ <[i := pc]> ws → x = pc ∨ x ∈ ws.
Proof. intros [j Hj]%list_elem_of_lookup. apply list_lookup_insert_Some in Hj as [[_ [-> _]]|[_ Hj]]; [by left|right]. by eapply list_elem_of_lookup_2. Qed.

(** ** Workers *)

(** Side conditions of the next lemmas. *)
Ltac pool_side :=
  lazymatch goal with
  | |- _ ≡ₚ _ => try done
  | |- ∀ j, j ≠ _ → _ !! j = Some WTake → _ => first [solve [eauto using inv_take] | try naive_solver]
  | |- (_ ∧ _) ∨ (_ ∧ _) => idtac
  | |- _ => try naive_solver
  end.

(** One worker moves; the mutex changes hands as the program points say. *)
Lemma inv_set_worker n p i pc pc' ts o tk fin : pool_inv n p → workers p !! i = Some pc →
  (∀ t, t ≠ Worker i → o = Some t ↔ queue_mutex p = Some t) →
  (o = Some (Worker i) ↔ pc' = WCheck ∨ pc' = WWait ∨ pc' = WTake) →
  (pc' = WTake → stop p = true ∨ ts ≠ []) → (∀ j, j ≠ i → workers p !! j = Some WTake → stop p = true ∨ ts ≠ []) →
  (pc' = WWait → stop p = false ∧ ts = []) →
  (pc' = WDone → stop p = true ∧ ts = []) → (tasks p = [] → ts = []) →
  (pc' = WSleep → stop p = false ∧ ts = []) → pc ≠ WDone →
  pushed p = tk ++ ts → tk ≡ₚ fin ++ omap running (<[i := pc']> (workers p)) →
  pool_inv n (mkPool (<[i := pc']> (workers p)) ts o (stop p) (clients p) (dtor p) (pushed p) tk fin).
Proof.
  intros HI E Ho Hown Htake Htake' Hwait Hdone Hts Hsleep Hpc Hp Htk. pose proof (lookup_lt_Some _ _ _ E) as Hi.
  split; simpl; try done.
  - rewrite length_insert. apply HI.
  - intros t. destruct (decide (t = Worker i)) as [->|Hne].
    + simpl. rewrite !list_lookup_insert_eq, Hown by done. naive_solver.
    + rewrite Ho by done. rewrite <-(inv_mutex _ _ HI t). destruct t as [j| |]; simpl; [|done..].
      by rewrite !list_lookup_insert_ne by congruence.
  - intros j Hj. apply list_lookup_insert_Some in Hj as [(<- & Hj & _)|[Hne Hj]]; [by apply Htake|by eapply Htake'].
  - intros j Hj. apply list_lookup_insert_Some in Hj as [(<- & Hj & _)|[Hne Hj]]; [by apply Hwait|].
    destruct (inv_wait _ _ HI j Hj). auto.
  - apply HI.
  - intros [Hd|Hd]%elem_insert; [by apply Hdone|]. destruct (inv_done _ _ HI Hd). auto.
  - intros Hne. destruct (decide (active pc')) as [Ha|Ha]; [left; exists i, pc'; by rewrite list_lookup_insert_eq|].
    unfold active in Ha. destruct pc'; try (destruct Ha; done); [by destruct Hsleep|by destruct Hdone].
  - intros Hst. destruct (inv_wake_all _ _ HI Hst) as [?|Hns]; [by left|right]. intros [Hd|Hd]%elem_insert; [|done].
    destruct Hsleep; congruence.
  - intros j Hj. pose proof (inv_join _ _ HI j Hj). rewrite list_lookup_insert_ne; [done|congruence].
  - intros Hd. pose proof (inv_end _ _ HI Hd) as Hall. rewrite Forall_forall in Hall. destruct Hpc. apply Hall. by eapply list_elem_of_lookup_2.
Qed.

(** Who holds the mutex is alone with the queue. *)
Lemma holder_alone n p t j : pool_inv n p → queue_mutex p = Some t → t ≠ Worker j →
  workers p !! j ≠ Some WTake ∧ workers p !! j ≠ Some WWait.
Proof.
  intros HI Em Hne. split; intros Hj; (assert (queue_mutex p = Some (Worker j)); [|congruence]);
    apply (inv_mutex _ _ HI); simpl; auto.
Qed.

Lemma worker_inv n p i p' : pool_inv n p → worker_step p i = Some p' → pool_inv n p'.
Proof.
  intros HI. unfold worker_step. destruct (workers p !! i) as [pc|] eqn:E; [|done]. bind_simpl.
  pose proof (inv_fifo _ _ HI) as Hf. pose proof (inv_taken _ _ HI) as Ht.
  assert (Hsame : ∀ pc', running pc = running pc' → taken p ≡ₚ finished p ++ omap running (<[i := pc']> (workers p)))
    by (intros pc' Hr; by rewrite (omap_insert_same _ i pc)).
  assert (Hown : pc = WCheck ∨ pc = WWait ∨ pc = WTake → queue_mutex p = Some (Worker i))
    by (intros Hpc; apply (inv_mutex _ _ HI); simpl; rewrite E; naive_solver).
  assert (Hfree : ¬ (pc = WCheck ∨ pc = WWait ∨ pc = WTake) → queue_mutex p ≠ Some (Worker i)).
  { intros Hpc Em. destruct Hpc. apply (inv_mutex _ _ HI) in Em. simpl in Em. rewrite E in Em. naive_solver. }
  destruct pc as [| | | | | |t|]; unfold lock; try done.
  1,4: destruct (queue_mutex p) eqn:Em; [done|]; intros [= <-]; eapply (inv_set_worker n p i); eauto; simpl; pool_side.
  - specialize (Hown (or_introl eq_refl)). pose proof (λ j, holder_alone n p (Worker i) j HI Hown) as Ha. destruct (stop p) eqn:Es; simpl.
    + intros [= <-]. eapply (inv_set_worker n p i); eauto; simpl; pool_side.
    + case_bool_decide as Ets; simpl; intros [= <-]; (eapply (inv_set_worker n p i); eauto; simpl; pool_side).
  - specialize (Hown (or_intror (or_introl eq_refl))). pose proof (λ j, holder_alone n p (Worker i) j HI Hown) as Ha.
    destruct (inv_wait _ _ HI i E). intros [= <-]. eapply (inv_set_worker n p i); eauto; simpl; naive_solver.
  - specialize (Hown (or_intror (or_intror eq_refl))). pose proof (λ j, holder_alone n p (Worker i) j HI Hown) as Ha.
    destruct (tasks p) as [|t ts] eqn:Ets.
    + destruct (stop p) eqn:Es; simpl; [|done]. rewrite ?bool_decide_true by done. intros [= <-].
      eapply (inv_set_worker n p i); eauto; simpl; rewrite ?Ets; naive_solver.
    + rewrite bool_decide_false, andb_false_r by done. intros [= <-]. eapply (inv_set_worker n p i); eauto; simpl; pool_side.
      * by rewrite Ets.
      * by rewrite Hf, <-(assoc_L app).
      * rewrite Ht, (omap_insert_start _ i WTake) by done. by rewrite <-(assoc_L app), (Permutation_app_comm (omap _ _)).
  - intros [= <-]. eapply (inv_set_worker n p i); eauto; simpl; pool_side.
    + rewrite Ht, <-(omap_insert_end _ i WLock t) by done. by rewrite <-(assoc_L app).
Qed.

(** ** Sleeping workers that are woken up *)

(** [ws] with some sleeping workers before the lock again. *)
Definition woken (ws ws' : list wpc) : Prop := Forall2 (λ pc pc', pc' = pc ∨ (pc = WSleep ∧ pc' = WRelock)) ws ws'.

Lemma woken_refl ws : woken ws ws.
Proof. unfold woken. induction ws; constructor; auto. Qed.

Lemma woken_one ws i : ws !! i = Some WSleep → woken ws (<[i := WRelock]> ws).
Proof.
  intros E. apply Forall2_same_length_lookup. split; [by rewrite length_insert|]. intros j pc pc' Hj Hj'.
  apply list_lookup_insert_Some in Hj' as [(<- & <- & _)|[_ Hj']]; simplify_eq; auto.
Qed.

Lemma woken_all ws : woken ws (notify_all ws).
Proof. unfold woken, notify_all. induction ws as [|[] ws IH]; csimpl; constructor; auto. Qed.

Lemma woken_lookup ws ws' i pc : woken ws ws' → pc ≠ WSleep → pc ≠ WRelock → ws' !! i = Some pc ↔ ws !! i = Some pc.
Proof.
  intros Hw H1 H2. split; intros E.
  - destruct (Forall2_lookup_r _ _ _ _ _ Hw E) as (pc' & E' & [<-|[_ ?]]); done.
  - destruct (Forall2_lookup_l _ _ _ _ _ Hw E) as (pc' & E' & [->|[? _]]); done.
Qed.

Lemma woken_active ws ws' : woken ws ws' → (∃ i pc, ws !! i = Some pc ∧ active pc) → ∃ i pc, ws' !! i = Some pc ∧ active pc.
Proof.
  intros Hw (i & pc & E & Ha). destruct (Forall2_lookup_l _ _ _ _ _ Hw E) as (pc' & E' & [->|[-> ->]]); eauto. by destruct Ha.
Qed.

Lemma woken_running ws ws' : woken ws ws' → omap running ws' = omap running ws.
Proof. induction 1 as [|pc pc' ws ws' [->|[-> ->]] _ IH]; csimpl; rewrite ?IH; done. Qed.

Lemma woken_elem ws ws' pc : woken ws ws' → pc ≠ WRelock → pc ∈ ws' → pc ∈ ws.
Proof.
  intros Hw H2 [i E]%list_elem_of_lookup. destruct (Forall2_lookup_r _ _ _ _ _ Hw E) as (pc' & E' & [<-|[_ ?]]); [|done].
  by eapply list_elem_of_lookup_2.
Qed.

Lemma woken_inv n p ws : pool_inv n p → woken (workers p) ws → pool_inv n (set_workers p ws).
Proof.
  intros HI Hw. split; simpl; try apply HI.
  - rewrite <-(Forall2_length _ _ _ Hw). apply HI.
  - intros t. rewrite <-(inv_mutex _ _ HI t). destruct t as [i| |]; simpl; [|done..]. by rewrite !(woken_lookup _ _ i _ Hw) by done.
  - intros i. rewrite (woken_lookup _ _ i _ Hw) by done. apply HI.
  - intros i. rewrite (woken_lookup _ _ i _ Hw) by done. apply HI.
  - intros Hd. apply (inv_done _ _ HI). by apply (woken_elem _ ws).
  - rewrite (woken_running _ _ Hw). apply HI.
  - intros Hts. destruct (inv_wake _ _ HI Hts) as [?|[?|E]]; [left; by eapply woken_active|by right; left|right; right].
    unfold woken in Hw. rewrite E in Hw. by apply Forall2_nil_inv_l in Hw.
  - intros Hst. destruct (inv_wake_all _ _ HI Hst) as [?|Hn]; [by left|right]. contradict Hn. by apply (woken_elem _ ws).
  - intros i Hi. apply (woken_lookup _ _ i _ Hw); [done..|]. by apply HI.
  - intros Hd. pose proof (inv_end _ _ HI Hd) as Hall. rewrite Forall_forall in Hall |- *. intros pc [i E]%list_elem_of_lookup.
    destruct (Forall2_lookup_r _ _ _ _ _ Hw E) as (pc' & E' & Hpc). assert (pc' = WDone) by (apply Hall; by eapply list_elem_of_lookup_2).
    naive_solver.
Qed.

(** ** Clients and the destructor *)

Lemma inv_set_client n p i pc pc' ts o pu : pool_inv n p → clients p !! i = Some pc →
  (∀ t, t ≠ Client i → o = Some t ↔ queue_mutex p = Some t) →
  (o = Some (Client i) ↔ ∃ t, pc' = EPush t) →
  (ts = tasks p ∧ (pc = ENotify → tasks p ≠ [] → (∃ i pc, workers p !! i = Some pc ∧ active pc) ∨ workers p = []) ∨
   ts ≠ [] ∧ stop p = false ∧ pc' = ENotify ∧ ∀ j, workers p !! j ≠ Some WWait) →
  pu = taken p ++ ts →
  pool_inv n (mkPool (workers p) ts o (stop p) (<[i := pc']> (clients p)) (dtor p) pu (taken p) (finished p)).
Proof.
  intros HI E Ho Hown Hts ->. pose proof (lookup_lt_Some _ _ _ E) as Hi. split; simpl; try apply HI; try done.
  - intros t. destruct (decide (t = Client i)) as [->|Hne].
    + simpl. rewrite list_lookup_insert_eq, Hown by done. naive_solver.
    + rewrite Ho by done. rewrite <-(inv_mutex _ _ HI t). destruct t as [|j|]; simpl; [done| |done]. by rewrite list_lookup_insert_ne by congruence.
  - intros j Hj. destruct Hts as [[-> _]|[? _]]; [by apply (inv_take _ _ HI j)|by right].
  - intros j Hj. destruct Hts as [[-> _]|(_ & _ & _ & Hw)]; [by apply (inv_wait _ _ HI j)|by destruct (Hw j)].
  - intros Hd. destruct (inv_done _ _ HI Hd) as [Hs Hn]. destruct Hts as [[-> _]|(_ & ? & _)]; [done|congruence].
  - intros Hne. destruct Hts as [[-> Hw]|(_ & _ & -> & _)].
    + destruct (inv_wake _ _ HI Hne) as [?|[[j Hj]|?]]; [by left| |by right; right].
      destruct (decide (j = i)) as [->|Hji]; [destruct Hw as [?|?]; [congruence|done|by left|by right; right]|].
      right. left. exists j. by rewrite list_lookup_insert_ne.
    + right. left. exists i. by rewrite list_lookup_insert_eq.
Qed.

Lemma client_inv n p i j p' : pool_inv n p → enqueue_step p i j = Some p' → pool_inv n p'.
Proof.
  intros HI. unfold enqueue_step. destruct (clients p !! i) as [pc|] eqn:E; [|done]. bind_simpl. pose proof (inv_fifo _ _ HI) as Hf.
  assert (Hown : (∃ t, pc = EPush t) → queue_mutex p = Some (Client i)).
  { intros [t ->]. apply (inv_mutex _ _ HI). by exists t. }
  destruct pc as [|t|t| |]; unfold lock; try done.
  - destruct (queue_mutex p) eqn:Em; [done|]. intros [= <-]. eapply (inv_set_client n p i); eauto; simpl; naive_solver.
  - specialize (Hown (ex_intro _ t eq_refl)). destruct (stop p) eqn:Es; intros [= <-].
    + eapply (inv_set_client n p i); eauto; simpl; naive_solver.
    + eapply (inv_set_client n p i); eauto; simpl; [naive_solver..| |].
      * right. split; [by destruct (tasks p)|]. split_and!; [done..|]. intros k. by apply (holder_alone n p (Client i)).
      * by rewrite Hf, (assoc_L app).
  - unfold notify_one. assert (Hfree : queue_mutex p ≠ Some (Client i)).
    { intros Em. apply (inv_mutex _ _ HI) in Em as [t Et]. congruence. }
    case_decide as Hj; [|case_decide as Hs; [done|]]; bind_simpl; intros [= <-].
    + pose proof (woken_inv n p _ HI (woken_one _ _ Hj)) as HI'. eapply (inv_set_client n _ i); eauto; simpl; pool_side.
      left. split; [done|]. intros _ _. left. exists j, WRelock. split; [|by split]. apply list_lookup_insert_eq. by eapply lookup_lt_Some.
    + eapply (inv_set_client n _ i _ _ _ _ _ HI); eauto; simpl; pool_side. left. split; [done|]. intros _ Hts.
      destruct (workers p) as [|pc ws] eqn:Ew; [by right|left]. exists O, pc. split; [done|].
      split; [intros ->; apply Hs; by left|]. intros ->. assert (WDone ∈ workers p) as Hd%(inv_done _ _ HI) by (rewrite Ew; by left). by destruct Hd.
Qed.

Lemma dtor_inv n p p' : pool_inv n p → dtor_step p = Some p' → pool_inv n p'.
Proof.
  intros HI. unfold dtor_step, lock. pose proof (inv_stop _ _ HI) as Hst. pose proof (inv_mutex _ _ HI) as Hm.
  destruct (dtor p) as [| | | |i|] eqn:Ed; try done.
  - destruct (queue_mutex p) eqn:Em; [done|]. intros [= <-]. split; simpl; try apply HI; try done.
    + intros t. specialize (Hm t). destruct t; simpl in *; rewrite ?Ed in *; naive_solver.
    + naive_solver.
    + intros Hs. destruct (inv_wake_all _ _ HI Hs); [congruence|by right].
    + intros i Hi. lia.
  - assert (Hown : queue_mutex p = Some Destructor) by (by apply Hm). intros [= <-]. split; simpl; try apply HI; try done.
    + intros t. specialize (Hm t). rewrite Hown in Hm. destruct t; simpl in *; naive_solver.
    + auto.
    + intros j Hj. by destruct (holder_alone n p _ j HI Hown).
    + intros Hd. destruct (inv_done _ _ HI Hd). naive_solver.
    + by left.
    + intros i Hi. lia.
  - assert (Hs : stop p = true) by (by apply Hst). intros [= <-]. pose proof (woken_inv n p _ HI (woken_all _)) as HI'.
    split; simpl; try apply HI'; try done.
    + intros t. specialize (inv_mutex _ _ HI' t) as Hm'. destruct t; simpl in *; rewrite ?Ed in *; naive_solver.
    + intros _. right. unfold notify_all. intros ([] & ? & ?)%list_elem_of_fmap; done.
    + intros i Hi. lia.
  - assert (Hs : stop p = true) by (by apply Hst). assert (Hmx : ∀ d, d ≠ DSet → ∀ t, holds (set_dtor p d) t ↔ queue_mutex p = Some t).
    { intros d Hd t. specialize (Hm t). destruct t; simpl in *; rewrite ?Ed in *; naive_solver. }
    pose proof (inv_join _ _ HI) as Hj. rewrite Ed in Hj. simpl in Hj.
    assert (Hns : WSleep ∉ workers p) by (destruct (inv_wake_all _ _ HI Hs); [congruence|done]).
    destruct (workers p !! i) as [pc|] eqn:Ei.
    + case_decide as Hpc; [|done]. intros [= <-]. split; simpl; try apply HI; try done.
      * by apply Hmx.
      * by right.
      * intros k Hk. destruct (decide (k = i)) as [->|]; [congruence|]. apply Hj. lia.
    + intros [= <-]. split; simpl; try apply HI; try done.
      * by apply Hmx.
      * by right.
      * intros k Hk. lia.
      * intros _. apply Forall_lookup. intros k pc Hk. apply lookup_ge_None in Ei. apply lookup_lt_Some in Hk as Hlt.
        rewrite Hj in Hk by lia. congruence.
Qed.

Lemma run_inv n p p' : pool_inv n p → run_step p p' → pool_inv n p'.
Proof. intros HI Hs. destruct Hs; eauto using worker_inv, client_inv, dtor_inv. Qed.

Lemma pool_step_inv n p p' : pool_inv n p → pool_step p p' → pool_inv n p'.
Proof.
  intros HI Hs. revert HI. destruct Hs as [p p' Hs|p i pc t E Hpc|p Ed|p i E]; intros HI.
  - by eapply run_inv.
  - assert (Hfree : queue_mutex p ≠ Some (Client i)).
    { intros Em. apply (inv_mutex _ _ HI) in Em as [u Eu]. naive_solver. }
    apply (inv_set_client n p i pc); try done; simpl; [naive_solver|left; split; [done|naive_solver]|apply HI].
  - pose proof (inv_stop _ _ HI) as Hst. rewrite Ed in Hst. split; simpl; try apply HI; try done.
    + intros t. rewrite <-(inv_mutex _ _ HI t). destruct t; simpl; [done..|]. by rewrite Ed.
    + naive_solver.
    + naive_solver.
    + intros i Hi. lia.
  - by apply woken_inv, woken_one.
Qed.

Lemma new_pool_inv n m : pool_inv n (ThreadPool_new n m).
Proof.
  split; simpl; try done.
  - apply length_replicate.
  - intros [i|i|]; simpl; (split; [|done]); [intros [[? _]%lookup_replicate|[[? _]%lookup_replicate|[? _]%lookup_replicate]]|intros [t [? _]%lookup_replicate]|]; done.
  - by intros i [? _]%lookup_replicate.
  - naive_solver.
  - intros [? ?]%elem_of_replicate. done.
  - by induction n.
  - intros i Hi. lia.
Qed.

Lemma pool_reach_inv n m p : pool_reach n m p → pool_inv n p.
Proof. unfold pool_reach. generalize (new_pool_inv n m). intros HI Hr. induction Hr; eauto using pool_step_inv. Qed.

(** ** Every call ends *)

Definition w_weight (pc : wpc) : nat :=
  match pc with WSleep | WDone => 0 | WWait | WTake => 1 | WCheck => 2 | WLock | WRelock => 3 | WRun _ => 4 end.
Definition e_weight (pc : epc) : nat :=
  match pc with EIdle | EThrown => 0 | ENotify => 4 | EPush _ => 10 | ELock _ => 11 end.
Definition d_weight (n : nat) (d : dpc) : nat :=
  match d with DNone | DDone => 0 | DJoin i => S n - i | DNotify => 4 * n + 2 | DSet => 4 * n + 3 | DLock => 4 * n + 4 end.
Definition weight (p : pool) : nat :=
  sum_list (w_weight <$> workers p) + 5 * length (tasks p) + sum_list (e_weight <$> clients p) + d_weight (length (workers p)) (dtor p).

Lemma sum_insert {A} (f : A → nat) l i x y : l !! i = Some x → (sum_list (f <$> <[i := y]> l) + f x = sum_list (f <$> l) + f y)%nat.
Proof. revert i. induction l as [|z l IH]; intros [|i] E; simplify_eq/=; [lia|]. specialize (IH i E). lia. Qed.

Lemma sum_wake ws : (sum_list (w_weight <$> notify_all ws) ≤ sum_list (w_weight <$> ws) + 3 * length ws)%nat.
Proof. unfold notify_all. induction ws as [|[] ws IH]; csimpl; lia. Qed.

Lemma run_weight n p p' : pool_inv n p → run_step p p' → (weight p' < weight p)%nat.
Proof.
  intros HI Hs. revert HI. destruct Hs as [p i p' E|p i j p' E|p p' E]; intros HI; revert E; unfold weight.
  - unfold worker_step, lock. destruct (workers p !! i) as [pc|] eqn:Ei; [|done]. bind_simpl.
    pose proof (λ y, sum_insert w_weight _ i _ y Ei) as Hsum. specialize (Hsum) as Hs.
    destruct pc as [| | | | | |t|]; try done.
    1,4: destruct (queue_mutex p); [done|]; intros [= <-]; simpl; rewrite length_insert; specialize (Hs WCheck); simpl in Hs; lia.
    + case_match; intros [= <-]; simpl; rewrite length_insert; [specialize (Hs WTake)|specialize (Hs WWait)]; simpl in Hs; lia.
    + intros [= <-]. simpl. rewrite length_insert. specialize (Hs WSleep). simpl in Hs. lia.
    + case_match; [|destruct (tasks p) as [|t ts]; [done|]]; intros [= <-]; simpl; rewrite length_insert;
        [specialize (Hs WDone)|specialize (Hs (WRun t))]; simpl in Hs; lia.
    + intros [= <-]. simpl. rewrite length_insert. specialize (Hs WLock). simpl in Hs. lia.
  - unfold enqueue_step, lock. destruct (clients p !! i) as [pc|] eqn:Ei; [|done]. bind_simpl.
    pose proof (λ y, sum_insert e_weight _ i _ y Ei) as Hs. destruct pc as [|t|t| |]; try done.
    + destruct (queue_mutex p); [done|]. intros [= <-]. simpl. specialize (Hs (EPush t)). simpl in Hs. lia.
    + case_match; intros [= <-]; simpl; rewrite ?length_app; [specialize (Hs EThrown)|specialize (Hs ENotify)]; simpl in *; lia.
    + specialize (Hs EIdle). unfold notify_one. case_decide as Hj; [|case_decide; [done|]]; bind_simpl; intros [= <-]; simpl in *; [|lia].
      pose proof (sum_insert w_weight _ j _ WRelock Hj). simpl in *. rewrite length_insert. lia.
  - unfold dtor_step, lock. destruct (dtor p) as [| | | |i|] eqn:Ed; try done.
    + destruct (queue_mutex p); [done|]. intros [= <-]. simpl. lia.
    + intros [= <-]. simpl. lia.
    + intros [= <-]. simpl. pose proof (sum_wake (workers p)). unfold notify_all in *. rewrite length_fmap. lia.
    + destruct (workers p !! i) eqn:Ei; [apply lookup_lt_Some in Ei; case_decide; [|done]|apply lookup_ge_None in Ei]; intros [= <-]; simpl.
      * lia.
      * destruct (decide (i = length (workers p))) as [->|Hne]; [lia|]. pose proof (inv_join _ _ HI (length (workers p))) as Hj.
        rewrite Ed in Hj. simpl in Hj. specialize (Hj ltac:(lia)). apply lookup_lt_Some in Hj. lia.
Qed.

Lemma run_terminates n p : pool_inv n p → sn run_step p.
Proof.
  intros HI. remember (weight p) as w eqn:Ew. revert p HI Ew. induction w as [w IH] using lt_wf_ind. intros p HI ->.
  constructor. intros p' Hs. eapply IH; [|by eapply run_inv|done]. by eapply run_weight.
Qed.

(** ** States in which nothing moves *)

Section stuck.
Context (n : nat) (p : pool) (HI : pool_inv n p) (Hnf : nf run_step p).

Lemma stuck_worker i : worker_step p i = None.
Proof. destruct (worker_step p i) as [p'|] eqn:E; [|done]. destruct Hnf. exists p'. by eapply run_worker. Qed.

Lemma stuck_client i j : enqueue_step p i j = None.
Proof. destruct (enqueue_step p i j) as [p'|] eqn:E; [|done]. destruct Hnf. exists p'. by eapply run_client. Qed.

Lemma stuck_dtor : dtor_step p = None.
Proof. destruct (dtor_step p) as [p'|] eqn:E; [|done]. destruct Hnf. exists p'. by apply run_dtor. Qed.

Lemma stuck_mutex : queue_mutex p = None.
Proof.
  destruct (queue_mutex p) as [t|] eqn:Em; [|done]. exfalso. apply (inv_mutex _ _ HI) in Em. destruct t as [i|i|]; simpl in Em.
  - pose proof (stuck_worker i) as Hw. unfold worker_step in Hw. destruct Em as [E|[E|E]]; rewrite E in Hw; simpl in Hw; [by case_match|done|].
    case_match; [done|]. destruct (inv_take _ _ HI i E) as [Hs|Ht]; [|by destruct (tasks p)].
    rewrite Hs in *. destruct (tasks p); [by rewrite bool_decide_true in *|done].
  - destruct Em as [t E]. pose proof (stuck_client i 0) as Hc. unfold enqueue_step in Hc. rewrite E in Hc. simpl in Hc. by case_match.
  - pose proof stuck_dtor as Hd. unfold dtor_step in Hd. by rewrite Em in Hd.
Qed.

Lemma stuck_workers i pc : workers p !! i = Some pc → pc = WSleep ∨ pc = WDone.
Proof.
  intros E. pose proof (stuck_worker i) as Hw. unfold worker_step, lock in Hw. rewrite E, stuck_mutex in Hw. simpl in Hw.
  assert (Hh : ¬ (pc = WCheck ∨ pc = WWait ∨ pc = WTake)).
  { intros Hpc. assert (holds p (Worker i)) as Hm%(inv_mutex _ _ HI) by (simpl; rewrite E; naive_solver). by rewrite stuck_mutex in Hm. }
  destruct pc; naive_solver.
Qed.

Lemma stuck_clients i pc : clients p !! i = Some pc → pc = EIdle ∨ pc = EThrown.
Proof.
  intros E. destruct pc as [|t|t| |]; auto; exfalso.
  - pose proof (stuck_client i 0) as Hc. unfold enqueue_step, lock in Hc. by rewrite E, stuck_mutex in Hc.
  - assert (holds p (Client i)) as Hm%(inv_mutex _ _ HI) by (by exists t). by rewrite stuck_mutex in Hm.
  - destruct (decide (WSleep ∈ workers p)) as [[j Hj]%list_elem_of_lookup|Hn].
    + pose proof (stuck_client i j) as Hc. unfold enqueue_step, notify_one in Hc. rewrite E in Hc. simpl in Hc. by rewrite decide_True in Hc.
    + pose proof (stuck_client i 0) as Hc. unfold enqueue_step, notify_one in Hc. rewrite E in Hc. simpl in Hc.
      rewrite decide_False in Hc; [by rewrite decide_False in Hc|]. intros Hj. apply Hn. by eapply list_elem_of_lookup_2.
Qed.

Lemma stuck_tasks : (1 ≤ n)%nat → tasks p = [].
Proof.
  intros Hn. destruct (decide (tasks p = [])) as [|Hne]; [done|exfalso].
  destruct (inv_wake _ _ HI Hne) as [(i & pc & E & Ha)|[[i E]|E]].
  - destruct Ha, (stuck_workers i pc E); done.
  - by destruct (stuck_clients i _ E).
  - pose proof (inv_workers _ _ HI) as Hl. rewrite E in Hl. simpl in Hl. lia.
Qed.

Lemma stuck_destructor : dtor p = DNone ∨ dtor p = DDone.
Proof.
  pose proof stuck_dtor as Hd. unfold dtor_step, lock in Hd. rewrite stuck_mutex in Hd. pose proof (inv_stop _ _ HI) as Hst.
  destruct (dtor p) as [| | | |i|] eqn:Ed; auto; [done..|]. destruct (workers p !! i) as [pc|] eqn:E; [|done].
  case_decide as Hpc; [done|]. destruct (stuck_workers i pc E) as [->|]; [|done].
  destruct (inv_wake_all _ _ HI) as [?|Hn]; [by apply Hst|congruence|]. destruct Hn. by eapply list_elem_of_lookup_2.
Qed.

Lemma stuck_finished : (1 ≤ n)%nat → finished p ≡ₚ pushed p.
Proof.
  intros Hn. rewrite (inv_fifo _ _ HI), (inv_taken _ _ HI), stuck_tasks, app_nil_r by done.
  assert (omap running (workers p) = []) as ->; [|by rewrite app_nil_r].
  assert (Hw : ∀ pc, pc ∈ workers p → running pc = None).
  { intros pc [i E]%list_elem_of_lookup. by destruct (stuck_workers i pc E) as [-> | ->]. }
  clear -Hw. induction (workers p) as [|pc ws IH]; [done|]. csimpl. rewrite Hw by (by left). apply IH. intros pc' ?. apply Hw. by right.
Qed.
End stuck.

(** C24 [safety]. Under every schedule, with any number of workers, callers and spurious wake-ups, the
    mutex has at most one holder, tasks are taken from the queue in the order in which they were pushed, and
    each task that was taken is finished or run by one worker; when the destructor of a
    pool with at least one worker has returned, every task that was ever accepted is finished. *)
Theorem pool_runs_each_task_once n m p : pool_reach n m p →
  (∀ t u, holds p t → holds p u → t = u) ∧
  pushed p = taken p ++ tasks p ∧ taken p ≡ₚ finished p ++ omap running (workers p) ∧
  ((1 ≤ n)%nat → dtor p = DDone → tasks p = [] ∧ finished p ≡ₚ pushed p).
Proof.
  intros HI%pool_reach_inv. split_and!; try apply HI.
  - intros t u Ht%(inv_mutex _ _ HI) Hu%(inv_mutex _ _ HI). congruence.
  - intros Hn Hd. pose proof (inv_end _ _ HI Hd) as Hall. pose proof (inv_workers _ _ HI) as Hl.
    assert (Ht : tasks p = []).
    { apply (inv_done _ _ HI). destruct (workers p) as [|pc ws]; [simpl in Hl; lia|]. apply Forall_cons in Hall as [-> _]. by left. }
    split; [done|]. rewrite (inv_fifo _ _ HI), (inv_taken _ _ HI), Ht, app_nil_r.
    assert (omap running (workers p) = []) as ->; [|by rewrite app_nil_r].
    clear -Hall. induction Hall as [|pc ws -> _ IH]; [done|]. done.
Qed.

(** C23 [liveness]. No wake-up is lost: in a pool with a worker, calls that have begun come to an end after
    finitely many steps, whatever the schedule, unless workers keep waking up by themselves; and when nothing moves any more, every
    accepted task is finished, no caller is inside of [enqueue], and the destructor has returned if it was called. *)
Theorem pool_completes n m p : (1 ≤ n)%nat → pool_reach n m p →
  sn run_step p ∧
  ∀ p', rtc run_step p p' → nf run_step p' →
    tasks p' = [] ∧ finished p' ≡ₚ pushed p' ∧ (∀ i pc, clients p' !! i = Some pc → pc = EIdle ∨ pc = EThrown) ∧
    (dtor p' = DNone ∨ dtor p' = DDone).
Proof.
  intros Hn HI%pool_reach_inv. split; [by eapply run_terminates|]. intros p' Hr Hnf.
  assert (HI' : pool_inv n p') by (clear Hnf; induction Hr; eauto using run_inv).
  split_and!; [by eapply stuck_tasks|by eapply stuck_finished|by eapply stuck_clients|by eapply stuck_destructor].
Qed.

(** A worker, a call of [enqueue] with task 7 up to its notification, and the destructor begins. *)
Definition demo_pool : pool := mkPool [WSleep] [7] None false [ENotify] DLock [7] [] [].

Lemma demo_pool_reach : pool_reach 1 1 demo_pool.
Proof.
  do 3 (eapply rtc_l; [by eapply step_run, (run_worker _ 0)|]; norm_start).
  eapply rtc_l; [by eapply (step_enqueue _ 0 _ 7); [|left]|]. norm_start.
  do 2 (eapply rtc_l; [by eapply step_run, (run_client _ 0 0)|]; norm_start).
  apply rtc_once. by apply (step_destroy (mkPool [WSleep] [7] None false [ENotify] DNone [7] [] [])).
Qed.

Lemma pool_runs_each_task_once_witness : pushed demo_pool = taken demo_pool ++ [7].
Proof. exact (proj1 (proj2 (pool_runs_each_task_once 1 1 demo_pool demo_pool_reach))). Defined.

Lemma pool_completes_witness : sn run_step demo_pool.
Proof. apply (pool_completes 1 1 demo_pool); [lia|apply demo_pool_reach]. Defined.
