(* ===== verification/WaitGroup.v ===== *)
(** * Wait groups (src/cpp-util/waitgroup.h)

    [Add], [Done] and [Wait] as steps of threads over the members of a wait group.  [cond.wait] with a
    predicate is a loop: test, and if the test fails release the mutex and sleep in one step, and
    lock the mutex again after waking up.  [Done] changes the counter and notifies without
    holding the mutex. *)

From S2P Require Import Prelude Locks.

(** Program points of a thread inside of [Add] and [Done]. *)
Inductive upc := UIdle | UAssert (incr : Z) | UAdd (incr : Z) | UAborted | UFlag | UDec | UNotify | UDone.

(** Program points of a thread inside of [Wait]. *)
Inductive vpc := VIdle | VLock | VCheck | VWait | VSleep | VRelock | VRet.

(** src/cpp-util/waitgroup.h:31-34, [WaitGroup]. [mutex] is the waiting thread that holds it. *)
Record WaitGroup := mkWG { mutex : option nat; counter : Z; done_flag : bool }.

(** src/cpp-util/waitgroup.h:11-11, [WaitGroup::WaitGroup]. *)
Definition WaitGroup_new (init : Z) : WaitGroup := mkWG None init false.

(** src/cpp-util/waitgroup.h:13-16, [WaitGroup::Add]. *)
Definition add_step (g : WaitGroup) (pc : upc) : WaitGroup * upc :=
  match pc with
  | UAssert incr => (g, if done_flag g then UAborted else UAdd incr)
  | UAdd incr => (mkWG (mutex g) (s32 (counter g + incr)) (done_flag g), UIdle)
  | _ => (g, pc)
  end.

Definition wake_waiter (pc : vpc) : vpc := match pc with VSleep => VRelock | _ => pc end.

(** src/cpp-util/waitgroup.h:18-21, [WaitGroup::Done]. The last component says whether the step is
    [notify_all]. *)
Definition done_step (g : WaitGroup) (pc : upc) : WaitGroup * upc * bool :=
  match pc with
  | UFlag => (mkWG (mutex g) (counter g) true, UDec, false)
  | UDec =>
      let c := s32 (counter g - 1) in
      (mkWG (mutex g) c (done_flag g), if c <=? 0 then UNotify else UDone, false)
  | UNotify => (g, UDone, true)
  | _ => (g, pc, false)
  end.

(** src/cpp-util/waitgroup.h:23-26, [WaitGroup::Wait]. *)
Definition wait_step (g : WaitGroup) (i : nat) (pc : vpc) : option (WaitGroup * vpc) :=
  match pc with
  | VLock | VRelock => if decide (mutex g = None) then Some (mkWG (Some i) (counter g) (done_flag g), VCheck) else None
  | VCheck =>
      if counter g <=? 0 then Some (mkWG None (counter g) (done_flag g), VRet) else Some (g, VWait)
  | VWait => Some (mkWG None (counter g) (done_flag g), VSleep)
  | VIdle | VSleep | VRet => None
  end.

(** src/cpp-util/waitgroup.h:28-28, [WaitGroup::Cnt]. *)
Definition Cnt (g : WaitGroup) : Z := counter g.

(** ** Executions

    A group that was created for [n] threads, each of which calls [Done] once, while other
    threads wait for them. *)

Record group := mkG { wg : WaitGroup; users : list upc; waiters : list vpc }.

Inductive group_step : group → group → Prop :=
  | step_done G u pc g' pc' b : users G !! u = Some pc → pc = UFlag ∨ pc = UDec ∨ pc = UNotify → done_step (wg G) pc = (g', pc', b) →
      group_step G (mkG g' (<[u := pc']> (users G)) (if b then wake_waiter <$> waiters G else waiters G))
  | step_wait G i pc g' pc' : waiters G !! i = Some pc → wait_step (wg G) i pc = Some (g', pc') →
      group_step G (mkG g' (users G) (<[i := pc']> (waiters G))).

Inductive group_any : group → group → Prop :=
  | any_step G G' : group_step G G' → group_any G G'
  | any_call_done G u : users G !! u = Some UIdle → group_any G (mkG (wg G) (<[u := UFlag]> (users G)) (waiters G))
  | any_call_wait G i : waiters G !! i = Some VIdle → group_any G (mkG (wg G) (users G) (<[i := VLock]> (waiters G)))
  | any_spurious G i : waiters G !! i = Some VSleep → group_any G (mkG (wg G) (users G) (<[i := VRelock]> (waiters G))).

Definition group_reach (n m : nat) (G : group) : Prop :=
  rtc group_any (mkG (WaitGroup_new (Z.of_nat n)) (replicate n UIdle) (replicate m VIdle)) G.

(** The thread has not yet decremented the counter. *)
Definition owes (pc : upc) : bool := match pc with UNotify | UDone => false | _ => true end.

Definition group_inv (n : nat) (G : group) : Prop :=
  length (users G) = n ∧ counter (wg G) = cnt owes (users G) ∧ (VRet ∈ waiters G → counter (wg G) ≤ 0).

Lemma elem_of_insert_cases (l : list vpc) (i : nat) x y : y ∈ <[i := x]> l → y = x ∨ y ∈ l.
Proof.
  intros [j Hj]%list_elem_of_lookup. apply list_lookup_insert_Some in Hj as [(_ & <- & _)|[_ Hj]]; [by left|right].
  by eapply list_elem_of_lookup_2.
Qed.

Lemma group_any_inv n G G' : Z.of_nat n < 2 ^ 31 → group_inv n G → group_any G G' → group_inv n G'.
Proof.
  intros Hn HI Hs. revert HI. destruct Hs as [G G' Hs|G u E|G i E|G i E]; [destruct Hs as [G u pc g' pc' b E Hpc Hd|G i pc g' pc' E Hw]|..];
    intros (Hl & Hc & Hr); simpl in *.
  - pose proof (cnt_insert owes _ u pc pc' E) as Hins. pose proof (cnt_range owes (users G)) as Hrange.
    assert (Hret : VRet ∈ (if b then wake_waiter <$> waiters G else waiters G) → VRet ∈ waiters G).
    { destruct b; [|done]. by intros ([] & ? & ?)%list_elem_of_fmap. }
    unfold group_inv; simpl. rewrite length_insert, Hins. destruct Hpc as [->|[->| ->]]; simplify_eq/=.
    + split; [done|]. split; [lia|]. auto.
    + pose proof (cnt_elem owes _ u _ E eq_refl) as Hpos. assert (Hs : s32 (counter (wg G) - 1) = counter (wg G) - 1).
     { unfold swrap. rewrite Z.mod_small by lia. by rewrite (proj2 (Z.ltb_lt _ _)) by lia. }
     rewrite Hs. split; [done|]. split; [destruct (counter (wg G) - 1 <=? 0); simpl; lia|]. intros H. specialize (Hr (Hret H)). lia.
    + split; [done|]. split; [lia|]. auto.
  - unfold group_inv; simpl. destruct pc; simpl in Hw; try case_match; simplify_eq/=; split_and!; try done;
     intros [?|?]%elem_of_insert_cases; auto; try done. by apply Z.leb_le.
  - unfold group_inv; simpl. rewrite length_insert, (cnt_insert owes _ u _ _ E). split_and!; [done|simpl; lia|done].
  - unfold group_inv; simpl. split_and!; [done..|]. intros [?|?]%elem_of_insert_cases; [done|auto].
  - unfold group_inv; simpl. split_and!; [done..|]. intros [?|?]%elem_of_insert_cases; [done|auto].
Qed.

Lemma cnt_all {A} (f : A → bool) n x : f x = true → cnt f (replicate n x) = Z.of_nat n.
Proof. intros E. induction n as [|n IH]; [done|]. cbn [replicate cnt]. rewrite E, IH. simpl. lia. Qed.

(** When a call of [Wait] has returned, every thread that the group waits for has called [Done]. *)
Theorem wait_returns_after_done n m G : Z.of_nat n < 2 ^ 31 → group_reach n m G →
  VRet ∈ waiters G → ∀ u pc, users G !! u = Some pc → pc = UNotify ∨ pc = UDone.
Proof.
  intros Hn Hreach. assert (HI : group_inv n G).
  { unfold group_reach in Hreach. revert Hreach. set (G0 := mkG _ _ _). assert (H0 : group_inv n G0).
    { split; [apply length_replicate|]. simpl. split; [by rewrite cnt_all|]. intros [? _]%elem_of_replicate. done. }
    clearbody G0. intros Hreach. induction Hreach; eauto using group_any_inv. }
  destruct HI as (_ & Hc & Hr). intros Hret u pc E. specialize (Hr Hret). destruct (owes pc) eqn:Ho; [|destruct pc; naive_solver].
  pose proof (cnt_elem owes _ u pc E Ho). lia.
Qed.

(** The thread that waits tests the counter, another one calls [Done] and notifies nobody, and the first goes to
    sleep: nothing will wake it up. *)
Theorem waitgroup_lost_wakeup : ∃ G, group_reach 1 1 G ∧ users G = [UDone] ∧ Cnt (wg G) = 0 ∧ waiters G = [VSleep] ∧ nf group_step G.
Proof.
  exists (mkG (mkWG None 0 true) [UDone] [VSleep]). split_and!; try done.
  - eapply rtc_l; [by apply (any_call_wait _ 0)|]. eapply rtc_l; [by eapply any_step, (step_wait _ 0)|].
    eapply rtc_l; [by eapply any_step, (step_wait _ 0)|]. eapply rtc_l; [by apply (any_call_done _ 0)|].
    do 3 (eapply rtc_l; [eapply any_step, (step_done _ 0); [done|by auto|done]|]).
    apply rtc_once, any_step. exact (step_wait (mkG (mkWG (Some O) 0 true) [UDone] [VWait]) 0 VWait (mkWG None 0 true) VSleep eq_refl eq_refl).
  - intros [G' Hs]. inversion Hs as [? u pc ? ? ? E Hpc|? i pc ? ? E Hw]; subst; simpl in *.
    + apply list_lookup_singleton_Some in E as [-> <-]. naive_solver.
    + apply list_lookup_singleton_Some in E as [-> <-]. done.
Qed.
