(* ===== verification/Disk.v ===== *)
(** * The disk manager (src/cpp-util/disk_manager.h and disk_manager.cc)

    A file is the list of its bytes.  An [fstream] has a position and remembers a failure
    ([failbit]): a read that meets the end of the file sets it, and a failed stream ignores
    seeks, reads and writes until [clear].  The file system itself does not fail ([badbit] is
    never set), and a write behind the end fills the gap with zeros. *)

From S2P Require Import Prelude.

(** src/cpp-util/page.h:6-6, [PAGE_SIZE]. *)
Definition PAGE_SIZE : Z := 4096.

Definition flen (l : list Z) : Z := Z.of_nat (length l).

(** ** Streams *)

Record fstream := mkStream { content : list Z; pos : Z; failed : bool; gcount : Z }.

(** [l] with the bytes [d] from offset [o] on. *)
Definition overwrite (l : list Z) (o : Z) (d : list Z) : list Z :=
  take (Z.to_nat o) (l ++ replicate (Z.to_nat (o - flen l)) 0) ++ d ++ drop (Z.to_nat o + length d) l.

Definition seekp (f : fstream) (o : Z) : fstream :=
  if failed f then f else
  if o <? 0 then mkStream (content f) (pos f) true (gcount f) else mkStream (content f) o false (gcount f).
Definition write (f : fstream) (d : list Z) : fstream :=
  if failed f then f else mkStream (overwrite (content f) (pos f) d) (pos f + flen d) false (gcount f).

(** [read(buf, n)]: the bytes that were read. *)
Definition read (f : fstream) (n : Z) : list Z * fstream :=
  if failed f then ([], mkStream (content f) (pos f) true 0) else
  let d := take (Z.to_nat n) (drop (Z.to_nat (pos f)) (content f)) in
  (d, mkStream (content f) (pos f + flen d) (flen d <? n) (flen d)).
Definition clear (f : fstream) : fstream := mkStream (content f) (pos f) false (gcount f).

(** [read] into a buffer; what is not read keeps its bytes. *)
Definition into (buf d : list Z) : list Z := d ++ drop (length d) buf.

(** ** The manager *)

(** src/cpp-util/disk_manager.h:79-87, [DiskManager]. [flush_log_f_] is a future that is ready or not;
    [buffer_used] is the address of a buffer. *)
Record DiskManager := mkDM {
  log_io : fstream; db_io : fstream; next_page_id : Z; num_flushes : Z; num_writes : Z;
  flush_log : bool; flush_log_f : option bool; buffer_used : Z
}.

Definition set_db (m : DiskManager) f := mkDM (log_io m) f (next_page_id m) (num_flushes m) (num_writes m) (flush_log m) (flush_log_f m) (buffer_used m).
Definition set_next (m : DiskManager) n := mkDM (log_io m) (db_io m) n (num_flushes m) (num_writes m) (flush_log m) (flush_log_f m) (buffer_used m).
Definition count_write (m : DiskManager) := mkDM (log_io m) (db_io m) (next_page_id m) (num_flushes m) (num_writes m + 1) (flush_log m) (flush_log_f m) (buffer_used m).

Definition open_stream (l : list Z) : fstream := mkStream l 0 false 0.

(** src/cpp-util/disk_manager.cc:12-48, [DiskManager::DiskManager]. The name of the database has a dot;
    a file that does not exist is created and empty. *)
Definition DiskManager_new (db log : list Z) : DiskManager :=
  mkDM (open_stream log) (open_stream db) 0 0 0 false None 0.

(** src/cpp-util/disk_manager.h:72-76, [DiskManager::GetFileSize]. *)
Definition GetFileSize (f : fstream) : Z := s32 (flen (content f)).

(** src/cpp-util/disk_manager.h:52-55, [DiskManager::AllocatePage]. *)
Definition AllocatePage (m : DiskManager) : Z * DiskManager := (next_page_id m, set_next m (u32 (next_page_id m + 1))).
Definition MaxPageId (m : DiskManager) : Z := u32 (next_page_id m - 1).
Definition NextPageId (m : DiskManager) : Z := next_page_id m.
Definition SetNextPageId (m : DiskManager) (i : Z) : DiskManager := set_next m i.

(** src/cpp-util/disk_manager.cc:51-63, [DiskManager::WritePage]. *)
Definition WritePage (m : DiskManager) (page_id : Z) (page_data : list Z) : DiskManager :=
  let m := count_write m in
  set_db m (write (seekp (db_io m) (page_id * PAGE_SIZE)) page_data).

(** src/cpp-util/disk_manager.cc:65-76, [DiskManager::Append]. *)
Definition Append (m : DiskManager) (buf : list Z) : DiskManager :=
  let m := count_write m in
  set_db m (write (seekp (db_io m) (GetFileSize (db_io m))) buf).

(** src/cpp-util/disk_manager.cc:78-103, [DiskManager::ReadPage]. The new contents of [page_data]. *)
Definition ReadPage (m : DiskManager) (page_id : Z) (page_data : list Z) : list Z * DiskManager :=
  let offset := s32 (u32 (page_id * PAGE_SIZE)) in
  if GetFileSize (db_io m) <? offset then (page_data, m) else
  let '(d, f) := read (seekp (db_io m) offset) PAGE_SIZE in
  let page_data := into page_data d in
  let read_count := gcount f in
  if read_count <? PAGE_SIZE
  then (take (Z.to_nat read_count) page_data ++ replicate (Z.to_nat (PAGE_SIZE - read_count)) 0, set_db m (clear f))
  else (page_data, set_db m f).

(** src/cpp-util/disk_manager.cc:105-121, [DiskManager::Read]. *)
Definition Read (m : DiskManager) (buf : list Z) (offset size : Z) : list Z * DiskManager :=
  if GetFileSize (db_io m) <? offset then (buf, m) else
  let '(d, f) := read (seekp (db_io m) offset) size in (into buf d, set_db m f).

(** src/cpp-util/disk_manager.cc:123-152, [DiskManager::WriteLog]. [addr] is the address of the buffer;
    the log is opened for appending. *)
Definition WriteLog (m : DiskManager) (addr : Z) (log_data : list Z) : option DiskManager :=
  if addr =? buffer_used m then None else
  let m := mkDM (log_io m) (db_io m) (next_page_id m) (num_flushes m) (num_writes m) (flush_log m) (flush_log_f m) addr in
  if flen log_data =? 0 then Some m else
  match flush_log_f m with
  | Some false => None
  | _ => Some (mkDM (write (seekp (log_io m) (flen (content (log_io m)))) log_data) (db_io m) (next_page_id m)
           (num_flushes m + 1) (num_writes m) false (flush_log_f m) (buffer_used m))
  end.

(** src/cpp-util/disk_manager.cc:157-179, [DiskManager::ReadLog]. *)
Definition ReadLog (m : DiskManager) (log_data : list Z) (size offset : Z) : bool * list Z * DiskManager :=
  let with_log f := mkDM f (db_io m) (next_page_id m) (num_flushes m) (num_writes m) (flush_log m) (flush_log_f m) (buffer_used m) in
  if GetFileSize (log_io m) <=? offset then (false, log_data, m) else
  let '(d, f) := read (seekp (log_io m) offset) size in
  let log_data := into log_data d in
  let read_count := gcount f in
  if read_count <? size
  then (true, take (Z.to_nat read_count) log_data ++ replicate (Z.to_nat (size - read_count)) 0 ++ drop (Z.to_nat size) log_data, with_log (clear f))
  else (true, log_data, with_log f).

(** ** What the operations do *)

(** The bytes of a page that lies inside of the file. *)
Definition region (l : list Z) (pid : Z) : list Z := take (Z.to_nat PAGE_SIZE) (drop (Z.to_nat (pid * PAGE_SIZE)) l).
Definition on_disk (l : list Z) (pid : Z) : Prop := 0 ≤ pid ∧ (pid + 1) * PAGE_SIZE ≤ flen l.

Lemma flen_nonneg l : 0 ≤ flen l.
Proof. unfold flen. lia. Qed.

Lemma flen_overwrite l o d : 0 ≤ o → flen (overwrite l o d) = Z.max (flen l) (o + flen d).
Proof.
  intros Ho. unfold overwrite, flen. rewrite !length_app, length_take, length_app, length_replicate, length_drop. lia.
Qed.

Lemma overwrite_lookup l o d i : 0 ≤ o → overwrite l o d !! i =
  if decide (i < Z.to_nat o)%nat then (l ++ replicate (Z.to_nat (o - flen l)) 0) !! i
  else if decide (i < Z.to_nat o + length d)%nat then d !! (i - Z.to_nat o)%nat else l !! i.
Proof.
  intros Ho. unfold overwrite. set (t := take _ _).
  assert (Ht : length t = Z.to_nat o) by (unfold t, flen; rewrite length_take, length_app, length_replicate; lia).
  case_decide as H1; [rewrite lookup_app_l by lia; by apply lookup_take_lt|]. rewrite lookup_app_r, Ht by lia.
  case_decide as H2; [by rewrite lookup_app_l by lia|]. rewrite lookup_app_r, lookup_drop by lia. f_equal. lia.
Qed.

Lemma region_lookup l pid i : 0 ≤ pid → (i < Z.to_nat PAGE_SIZE)%nat → region l pid !! i = l !! (Z.to_nat (pid * PAGE_SIZE) + i)%nat.
Proof. intros Hp Hi. unfold region. by rewrite lookup_take_lt, lookup_drop. Qed.

Lemma region_length l pid : on_disk l pid → length (region l pid) = Z.to_nat PAGE_SIZE.
Proof. intros [H0 H1]. unfold region, flen, PAGE_SIZE in *. rewrite length_take, length_drop. lia. Qed.

Lemma region_ext l l' pid : on_disk l pid → on_disk l' pid →
  (∀ i, (i < Z.to_nat PAGE_SIZE)%nat → l' !! (Z.to_nat (pid * PAGE_SIZE) + i)%nat = l !! (Z.to_nat (pid * PAGE_SIZE) + i)%nat) →
  region l' pid = region l pid.
Proof.
  intros H H' Hi. apply list_eq. intros i. destruct (decide (i < Z.to_nat PAGE_SIZE)%nat) as [Hlt|Hge].
  - destruct H. by rewrite !region_lookup, Hi.
  - rewrite !lookup_ge_None_2; rewrite ?region_length by done; [done|lia..].
Qed.

(** Writing a page, and appending. *)
Lemma overwrite_page l pid d : 0 ≤ pid → flen d = PAGE_SIZE →
  on_disk (overwrite l (pid * PAGE_SIZE) d) pid ∧ region (overwrite l (pid * PAGE_SIZE) d) pid = d ∧
  ∀ q, q ≠ pid → on_disk l q → on_disk (overwrite l (pid * PAGE_SIZE) d) q ∧ region (overwrite l (pid * PAGE_SIZE) d) q = region l q.
Proof.
  intros Hp Hd. assert (Ho : 0 ≤ pid * PAGE_SIZE) by (unfold PAGE_SIZE; lia). pose proof (flen_overwrite l _ d Ho) as Hl.
  assert (Hlen : length d = Z.to_nat PAGE_SIZE) by (unfold flen in Hd; lia).
  assert (Hon : on_disk (overwrite l (pid * PAGE_SIZE) d) pid) by (split; [done|]; rewrite Hl; lia). split; [done|]. split.
  - apply list_eq. intros i. destruct (decide (i < Z.to_nat PAGE_SIZE)%nat) as [Hlt|Hge].
    + rewrite region_lookup, overwrite_lookup by done. rewrite decide_False, decide_True by lia. f_equal. lia.
    + rewrite !lookup_ge_None_2; rewrite ?region_length by done; [done|lia..].
  - intros q Hne [Hq0 Hq1]. assert (Hon' : on_disk (overwrite l (pid * PAGE_SIZE) d) q) by (split; [done|]; rewrite Hl; lia).
    split; [done|]. apply region_ext; [done..|]. intros i Hi. rewrite overwrite_lookup by done. unfold flen, PAGE_SIZE in *.
    case_decide; [rewrite lookup_app_l by lia; done|]. rewrite decide_False by lia. done.
Qed.

Lemma overwrite_end l d : overwrite l (flen l) d = l ++ d.
Proof.
  unfold overwrite, flen. rewrite Z.sub_diag. simpl. rewrite app_nil_r, Nat2Z.id, take_ge, drop_ge by lia. by rewrite app_nil_r.
Qed.

Lemma region_app l d pid : on_disk l pid → on_disk (l ++ d) pid ∧ region (l ++ d) pid = region l pid.
Proof.
  intros H. assert (H' : on_disk (l ++ d) pid) by (destruct H; split; [done|]; unfold flen in *; rewrite length_app; lia).
  split; [done|]. apply region_ext; [done..|]. intros i Hi. destruct H as [H0 H1]. unfold flen, PAGE_SIZE in *. by rewrite lookup_app_l by lia.
Qed.

Lemma file_size_small f : flen (content f) < 2 ^ 31 → GetFileSize f = flen (content f).
Proof.
  intros H. unfold GetFileSize, swrap. pose proof (flen_nonneg (content f)). rewrite Z.mod_small by lia.
  by rewrite (proj2 (Z.ltb_lt _ _)) by lia.
Qed.

Lemma page_offset pid : 0 ≤ pid → pid * PAGE_SIZE < 2 ^ 31 → s32 (u32 (pid * PAGE_SIZE)) = pid * PAGE_SIZE.
Proof.
  intros H0 H1. unfold PAGE_SIZE in *. rewrite uwrap_small by lia. unfold swrap. rewrite Z.mod_small by lia.
  by rewrite (proj2 (Z.ltb_lt _ _)) by lia.
Qed.

(** What [GetPage] and [ReadPage] find for a page in a file: its bytes, and zeros behind the end. *)
Definition disk_page (l : list Z) (pid : Z) : list Z :=
  region l pid ++ replicate (Z.to_nat PAGE_SIZE - length (region l pid)) 0.

Lemma disk_page_on l pid : on_disk l pid → disk_page l pid = region l pid.
Proof. intros H. unfold disk_page. rewrite region_length by done. by rewrite Nat.sub_diag, app_nil_r. Qed.

Lemma disk_page_length l pid : length (disk_page l pid) = Z.to_nat PAGE_SIZE.
Proof. unfold disk_page, region. rewrite length_app, length_replicate, length_take. lia. Qed.

Lemma disk_page_off l pid : flen l ≤ pid * PAGE_SIZE → disk_page l pid = replicate (Z.to_nat PAGE_SIZE) 0.
Proof. intros H. unfold disk_page, region, flen in *. rewrite drop_ge by lia. by rewrite take_nil, Nat.sub_0_r. Qed.

(** Reading from a file of less than 2 GiB. *)
Lemma ReadPage_spec m pid buf : failed (db_io m) = false → flen (content (db_io m)) < 2 ^ 31 → 0 ≤ pid → pid * PAGE_SIZE ≤ flen (content (db_io m)) →
  flen buf = PAGE_SIZE →
  ∃ m', ReadPage m pid buf = (disk_page (content (db_io m)) pid, m') ∧ content (db_io m') = content (db_io m) ∧ failed (db_io m') = false ∧
    next_page_id m' = next_page_id m.
Proof.
  intros Hf Hs H0 Hle Hb. unfold ReadPage. rewrite page_offset, file_size_small by lia. rewrite (proj2 (Z.ltb_ge _ _) Hle). unfold seekp. rewrite Hf.
  rewrite (proj2 (Z.ltb_ge _ _)) by (unfold PAGE_SIZE; lia). unfold read; cbn [failed pos content gcount].
  fold (region (content (db_io m)) pid). set (d := region (content (db_io m)) pid).
  assert (Hd : (length d ≤ Z.to_nat PAGE_SIZE)%nat) by (unfold d, region; rewrite length_take; lia).
  unfold into, disk_page. fold d. destruct (Z.ltb_spec (flen d) PAGE_SIZE) as [Hlt|Hge]; cbn [gcount].
  - eexists. split; [f_equal|done]. unfold flen. rewrite Nat2Z.id, take_app_length. f_equal. f_equal. lia.
  - eexists. split; [f_equal|done]. unfold flen in *. rewrite drop_ge by lia.
    by replace (Z.to_nat PAGE_SIZE - length d)%nat with O by lia.
Qed.

Lemma ReadPage_on_disk m pid buf : failed (db_io m) = false → flen (content (db_io m)) < 2 ^ 31 → on_disk (content (db_io m)) pid → flen buf = PAGE_SIZE →
  (ReadPage m pid buf).1 = region (content (db_io m)) pid.
Proof.
  intros Hf Hs Hon Hb. pose proof Hon as [H0 H1]. destruct (ReadPage_spec m pid buf) as (m' & -> & _); [done..|unfold PAGE_SIZE in *; lia|done|].
  by apply disk_page_on.
Qed.

Lemma WritePage_spec m pid d : failed (db_io m) = false → 0 ≤ pid →
  content (db_io (WritePage m pid d)) = overwrite (content (db_io m)) (pid * PAGE_SIZE) d ∧ failed (db_io (WritePage m pid d)) = false ∧
  next_page_id (WritePage m pid d) = next_page_id m.
Proof.
  intros Hf Hp. unfold WritePage, write, seekp. simpl. rewrite Hf. by rewrite (proj2 (Z.ltb_ge _ _)) by (unfold PAGE_SIZE; lia).
Qed.

Lemma Append_spec m d : failed (db_io m) = false → flen (content (db_io m)) < 2 ^ 31 →
  content (db_io (Append m d)) = content (db_io m) ++ d ∧ failed (db_io (Append m d)) = false ∧ next_page_id (Append m d) = next_page_id m.
Proof.
  intros Hf Hs. unfold Append, write, seekp. simpl. rewrite Hf, file_size_small by done. pose proof (flen_nonneg (content (db_io m))).
  rewrite (proj2 (Z.ltb_ge _ _)) by lia. simpl. by rewrite overwrite_end.
Qed.

Lemma ReadPage_unfailed m pid buf : failed (db_io m) = false →
  content (db_io (ReadPage m pid buf).2) = content (db_io m) ∧ failed (db_io (ReadPage m pid buf).2) = false.
Proof.
  intros Hf. unfold ReadPage. destruct (_ <? _); [done|]. unfold seekp. rewrite Hf. destruct (_ <? 0); cbn [read failed]; [done|].
  unfold read; cbn [failed gcount content pos]. by destruct (flen _ <? PAGE_SIZE) eqn:E.
Qed.

Lemma Read_unfailed m buf o n : failed (db_io m) = false → flen (content (db_io m)) < 2 ^ 31 → 0 ≤ n →
  flen (content (db_io m)) < o ∨ 0 ≤ o ∧ o + n ≤ flen (content (db_io m)) →
  content (db_io (Read m buf o n).2) = content (db_io m) ∧ failed (db_io (Read m buf o n).2) = false.
Proof.
  intros Hf Hs Hn Ho. unfold Read. rewrite file_size_small by done. destruct (Z.ltb_spec (flen (content (db_io m))) o) as [|Hle]; [done|].
  destruct Ho as [?|[Ho1 Ho2]]; [lia|]. unfold seekp. rewrite Hf, (proj2 (Z.ltb_ge _ _)) by lia.
  unfold read; cbn [failed content pos]. split; [done|]. cbn [snd db_io set_db failed].
  apply Z.ltb_ge. unfold flen in *. rewrite length_take, length_drop. lia.
Qed.

(** ** Clients *)

(** What a client does with the files while the database is smaller than 2 GiB. Its reads with [Read] do not
    cross the end of the file; [ReadPage] may. *)
Inductive disk_step : DiskManager → DiskManager → Prop :=
  | step_write m pid d : 0 ≤ pid → (pid + 1) * PAGE_SIZE < 2 ^ 31 → flen d = PAGE_SIZE → disk_step m (WritePage m pid d)
  | step_append m d : flen (content (db_io m)) + flen d < 2 ^ 31 → disk_step m (Append m d)
  | step_read_page m pid buf : disk_step m (ReadPage m pid buf).2
  | step_read m buf o n : 0 ≤ n → flen (content (db_io m)) < o ∨ 0 ≤ o ∧ o + n ≤ flen (content (db_io m)) →
      disk_step m (Read m buf o n).2
  | step_allocate m : disk_step m (AllocatePage m).2
  | step_set_next m i : disk_step m (SetNextPageId m i)
  | step_write_log m addr d m' : WriteLog m addr d = Some m' → disk_step m m'
  | step_read_log m buf n o : disk_step m (ReadLog m buf n o).2.

Definition disk_reach (db log : list Z) (m : DiskManager) : Prop :=
  flen db < 2 ^ 31 ∧ rtc disk_step (DiskManager_new db log) m.

(** The stream of the database is usable and the file small. *)
Definition disk_inv (m : DiskManager) : Prop := failed (db_io m) = false ∧ flen (content (db_io m)) < 2 ^ 31.

Lemma disk_step_inv m m' : disk_step m m' → disk_inv m → disk_inv m'.
Proof.
  unfold disk_inv. intros Hst [Hf Hs].
  destruct Hst as [m pid d H1 H2 H3|m d H1|m pid buf|m buf o n H1 H2|m|m i|m addr d m' E|m buf n o].
  - destruct (WritePage_spec m pid d Hf H1) as (-> & -> & _). split; [done|].
    rewrite flen_overwrite by (unfold PAGE_SIZE; lia). unfold PAGE_SIZE in *. lia.
  - destruct (Append_spec m d Hf Hs) as (-> & -> & _). split; [done|]. unfold flen in *. rewrite length_app. lia.
  - by destruct (ReadPage_unfailed m pid buf Hf) as [-> ->].
  - by destruct (Read_unfailed m buf o n Hf Hs H1 H2) as [-> ->].
  - done.
  - done.
  - unfold WriteLog in E. destruct (_ =? _); [done|]. destruct (_ =? 0); [by injection E as <-|].
    by destruct (flush_log_f _) as [[]|]; simplify_eq.
  - unfold ReadLog. destruct (_ <=? _); [done|]. destruct (read _ _) as [d f]. by destruct (_ <? _).
Qed.

Lemma disk_reach_inv db log m : disk_reach db log m → disk_inv m.
Proof.
  intros [Hdb Hr]. assert (H0 : disk_inv (DiskManager_new db log)) by done. revert H0.
  induction Hr as [|m1 m2 m3 Hst _ IH]; [done|]. intros H0. by apply IH, (disk_step_inv m1).
Qed.

(** C40 [functional]. Whatever pages were written, appended, read and allocated since the files were opened
    (the database smaller than 2 GiB, no [Read] of a range that crosses the end of the file, which would leave
    the stream failed), a page that is written is read back, and every other page that is in the file reads as
    before. *)
Theorem disk_read_after_write db log m pid d buf : disk_reach db log m → 0 ≤ pid → (pid + 1) * PAGE_SIZE < 2 ^ 31 →
  flen d = PAGE_SIZE → flen buf = PAGE_SIZE →
  let m' := WritePage m pid d in
  (ReadPage m' pid buf).1 = d ∧
  ∀ q, q ≠ pid → on_disk (content (db_io m)) q → (ReadPage m' q buf).1 = (ReadPage m q buf).1.
Proof.
  intros [Hf Hs]%disk_reach_inv Hp Hp' Hd Hb m'. destruct (WritePage_spec m pid d Hf Hp) as (Hc & Hf' & _). fold m' in Hc, Hf'.
  destruct (overwrite_page (content (db_io m)) pid d Hp Hd) as (Hon & Hr & Hother).
  assert (Hs' : flen (content (db_io m')) < 2 ^ 31) by (rewrite Hc, flen_overwrite by (unfold PAGE_SIZE; lia); unfold PAGE_SIZE in *; lia).
  split; [rewrite ReadPage_on_disk; [by rewrite Hc|done..|by rewrite Hc|done]|].
  intros q Hne Hq. destruct (Hother q Hne Hq) as [Hq' Hrq]. rewrite !ReadPage_on_disk; try done; by rewrite Hc.
Qed.

Lemma disk_read_after_write_witness :
  (ReadPage (WritePage (Append (DiskManager_new [1; 2; 3] []) [4]) 1 (replicate 4096 7)) 1 (replicate 4096 0)).1 = replicate 4096 7.
Proof.
  refine (proj1 (disk_read_after_write [1; 2; 3] [] (Append (DiskManager_new [1; 2; 3] []) [4]) 1 (replicate 4096 7) (replicate 4096 0) _ _ _ _ _)); [|done..].
  split; [done|]. apply rtc_once, step_append. done.
Defined.

(** [Read] that meets the end of the file leaves the stream failed: a page that is written afterwards is
    not in the file. *)
Theorem disk_read_past_end_loses_write :
  let m := (Read (DiskManager_new [1; 2; 3] []) (replicate 8 0) 0 8).2 in
  content (db_io (WritePage m 0 (replicate 4096 7))) = [1; 2; 3].
Proof. by vm_compute. Qed.
