(* ===== verification/SimpleDb.v ===== *)
(** * SimpleDB: a B-tree of integers over pages of a file (src/app/simpleDB)

    A page in memory is a list of bytes, at the key of its identifier; a pointer to a node is the
    identifier of its page.  [load_node] and [store_node] are the layout of [struct btree_nodes] on a
    little-endian machine with 4-byte integers: keys, children, number of keys, leaf flag with
    three bytes of padding, identifier.  [None] is an access outside of an array, through
    a null pointer or to a page that was freed, an overflow of [int], or too little fuel for the height of the tree. *)

From S2P Require Import Prelude Coding Arrays Disk.

(** src/app/simpleDB/btree.h:9-9, [M]. *)
Definition M : Z := 4.

(** src/app/simpleDB/btree.h:10-17, [btree_node]. *)
Record btree_node := Node { k : list Z; childs : list Z; key_num : Z; is_leaf : bool; page_id : Z }.

(** ** The layout of a node *)

Definition word (data : list Z) (i : Z) : option Z := DecodeFixed32 (drop (Z.to_nat (4 * i)) data).
Fixpoint words (data : list Z) (i : Z) (n : nat) : option (list Z) :=
  match n with O => Some [] | S n => x ← word data i; l ← words data (i + 1) n; Some (x :: l) end.

Definition load_node (data : list Z) : option btree_node :=
  ks ← words data 0 (Z.to_nat (2 * M - 1));
  cs ← words data (2 * M - 1) (Z.to_nat (2 * M));
  n ← word data (4 * M - 1);
  leaf ← aget data (16 * M);
  i ← word data (4 * M + 1);
  Some (Node (s32 <$> ks) cs (s32 n) (negb (leaf =? 0)) (s32 i)).

Definition store_node (data : list Z) (n : btree_node) : list Z :=
  concat (EncodeFixed32 <$> k n) ++ concat (EncodeFixed32 <$> childs n) ++ EncodeFixed32 (key_num n) ++
  [if is_leaf n then 1 else 0] ++ take 3 (drop (Z.to_nat (16 * M + 1)) data) ++ EncodeFixed32 (page_id n) ++
  drop (Z.to_nat (16 * M + 8)) data.

(** ** The buffer pool *)

(** src/app/simpleDB/buffer_pool.h:6-6, [kMaxPages]. *)
Definition kMaxPages : Z := 2 ^ 20.

(** src/app/simpleDB/buffer_pool.h:8-11, [BufferPool]. *)
Record BufferPool := mkPool { pages_inmem : gmap Z (list Z); disk_manager : DiskManager }.

(** src/app/simpleDB/buffer_pool.cc:30-31, [BufferPool::BufferPool]. *)
Definition BufferPool_new (db log : list Z) : BufferPool := mkPool ∅ (DiskManager_new db log).

(** src/app/simpleDB/buffer_pool.cc:2-19, [BufferPool::GetPage]. Afterwards the page is in memory. Every
    caller dereferences the result, so that the null pointer is [None]. *)
Definition GetPage (b : BufferPool) (pid : Z) : option BufferPool :=
  if (pid <? 0) || (kMaxPages <=? pid) then None else
  match pages_inmem b !! pid with
  | Some _ => Some b
  | None =>
      let page := replicate (Z.to_nat PAGE_SIZE) 0 in
      if 2 ^ 31 <=? pid * PAGE_SIZE then None else
      let '(page, m) :=
        if pid * PAGE_SIZE <? GetFileSize (db_io (disk_manager b)) then ReadPage (disk_manager b) pid page
        else (page, disk_manager b) in
      Some (mkPool (<[pid := page]> (pages_inmem b)) m)
  end.

(** src/app/simpleDB/buffer_pool.cc:20-28, [BufferPool::FlushPage]. *)
Definition FlushPage (b : BufferPool) (pid : Z) : BufferPool :=
  match pages_inmem b !! pid with
  | None => b
  | Some page => mkPool (pages_inmem b) (WritePage (disk_manager b) pid page)
  end.

(** src/app/simpleDB/buffer_pool.cc:42-48, [BufferPool::FlushAll]. [order] is the order in which
    the hash map is traversed. *)
Definition FlushAll (order : list Z) (b : BufferPool) : BufferPool := foldl FlushPage b order.

(** src/app/simpleDB/buffer_pool.cc:49-55, [BufferPool::NewPage]. *)
Definition NewPage (b : BufferPool) : option (Z * BufferPool) :=
  let '(pid, m) := AllocatePage (disk_manager b) in
  b ← GetPage (mkPool (pages_inmem b) m) (s32 pid);
  Some (s32 pid, b).

(** src/app/simpleDB/buffer_pool.cc:57-61, [BufferPool::FreePage]. *)
Definition FreePage (b : BufferPool) (pid : Z) : BufferPool := mkPool (delete pid (pages_inmem b)) (disk_manager b).

(** Reading and writing a node through a pointer. *)
Definition deref (b : BufferPool) (pid : Z) : option btree_node := d ← pages_inmem b !! pid; load_node d.
Definition put (b : BufferPool) (pid : Z) (n : btree_node) : option BufferPool :=
  d ← pages_inmem b !! pid; Some (mkPool (<[pid := store_node d n]> (pages_inmem b)) (disk_manager b)).

(** src/app/simpleDB/btree.h:26-29, [BTREE_NODE]. *)
Definition BTREE_NODE (b : BufferPool) (pid : Z) : option (option Z * BufferPool) :=
  if s32 pid <? 0 then Some (None, b) else b ← GetPage b (s32 pid); Some (Some (s32 pid), b).

(** A child that the caller dereferences. *)
Definition child_node (b : BufferPool) (node : Z) (i : Z) : option (Z * BufferPool) :=
  n ← deref b node; c ← aget (childs n) i;
  x ← BTREE_NODE b c; p ← x.1; Some (p, x.2).

Definition with_num (n : btree_node) x := Node (k n) (childs n) x (is_leaf n) (page_id n).
Definition with_keys (n : btree_node) l := Node l (childs n) (key_num n) (is_leaf n) (page_id n).
Definition with_childs (n : btree_node) l := Node (k n) l (key_num n) (is_leaf n) (page_id n).
Definition with_leaf (n : btree_node) x := Node (k n) (childs n) (key_num n) x (page_id n).

(** ** Insertion *)

(** src/app/simpleDB/btree.cc:7-22, [BTree::btree_node_new]. *)
Definition btree_node_new (b : BufferPool) : option (Z * BufferPool) :=
  x ← NewPage b;
  let '(pid, b) := x in
  b ← put b pid (Node (replicate (Z.to_nat (2 * M - 1)) 0) (replicate (Z.to_nat (2 * M)) (2 ^ 32 - 1)) 0 true pid);
  Some (pid, b).

(** src/app/simpleDB/btree.cc:24-67, [BTree::btree_split_child]. *)
Definition btree_split_child (b : BufferPool) (parent pos child : Z) : option BufferPool :=
  x ← btree_node_new b;
  let '(nw, b) := x in
  n ← deref b nw; c ← deref b child;
  nk ← for_up (Z.to_nat (M - 1)) 0 (copy_from (k c) M) (k n);
  nc ← (if is_leaf c then Some (childs n) else for_up (Z.to_nat M) 0 (copy_from (childs c) M) (childs n));
  b ← put b nw (Node nk nc (M - 1) (is_leaf c) (page_id n));
  c ← deref b child;
  b ← put b child (with_num c (M - 1));
  p ← deref b parent; n ← deref b nw;
  q ← for_down (Z.to_nat (key_num p - pos)) (key_num p) move_up (childs p);
  q ← aset q (pos + 1) (u32 (page_id n));
  l ← for_down (Z.to_nat (key_num p - pos)) (key_num p - 1) move_up (k p);
  c ← deref b child;
  x ← aget (k c) (M - 1);
  l ← aset l pos x;
  put b parent (Node l q (key_num p + 1) (is_leaf p) (page_id p)).

(** src/app/simpleDB/btree.cc:75-80, [BTree::btree_insert_nonfull (leaf loop)]. *)
Fixpoint leaf_shift (pos : nat) (l : list Z) (target : Z) : option (list Z * nat) :=
  match pos with
  | O => Some (l, O)
  | S q =>
      x ← aget l (Z.of_nat q);
      if target <? x then l ← aset l (Z.of_nat pos) x; leaf_shift q l target
      else Some (l, pos)
  end.

(** src/app/simpleDB/btree.cc:89-93, [BTree::btree_insert_nonfull (search loop)]. *)
Fixpoint descend (pos : nat) (l : list Z) (target : Z) : option nat :=
  match pos with
  | O => Some O
  | S q => x ← aget l (Z.of_nat q); if target <? x then descend q l target else Some pos
  end.

(** src/app/simpleDB/btree.cc:70-108, [BTree::btree_insert_nonfull]. [pos++] after a split has no effect:
    the recursion goes on with the same child. *)
Fixpoint btree_insert_nonfull (fuel : nat) (b : BufferPool) (node target : Z) : option BufferPool :=
  match fuel with
  | O => None
  | S fuel =>
      n ← deref b node;
      if is_leaf n then
        res ← leaf_shift (Z.to_nat (key_num n)) (k n) target;
        let '(l, pos) := res : list Z * nat in
        l ← aset l (Z.of_nat pos) target;
        put b node (Node l (childs n) (key_num n + 1) (is_leaf n) (page_id n))
      else
        pos ← descend (Z.to_nat (key_num n)) (k n) target;
        c ← aget (childs n) (Z.of_nat pos);
        b ← GetPage b (s32 c);
        let childnode := s32 c in
        c ← deref b childnode;
        b ← (if 2 * M - 1 =? key_num c then btree_split_child b node (Z.of_nat pos) childnode else Some b);
        btree_insert_nonfull fuel b childnode target
  end.

(** src/app/simpleDB/btree.cc:110-137, [BTree::btree_insert]. *)
Definition btree_insert (fuel : nat) (b : BufferPool) (root target : Z) : option (Z * BufferPool) :=
  r ← deref b root;
  if 2 * M - 1 =? key_num r then
    x ← btree_node_new b;
    let '(node, b) := x in
    n ← deref b node;
    cs ← aset (childs n) 0 (u32 (page_id r));
    b ← put b node (with_childs (with_leaf n false) cs);
    b ← btree_split_child b node 0 root;
    b ← btree_insert_nonfull fuel b node target;
    Some (node, b)
  else
    b ← btree_insert_nonfull fuel b root target;
    Some (root, b).

(** ** Deletion *)

(** src/app/simpleDB/btree.cc:140-168, [BTree::btree_merge_child]. *)
Definition btree_merge_child (b : BufferPool) (root pos y z : Z) : option BufferPool :=
  yn ← deref b y; zn ← deref b z; r ← deref b root;
  yk ← for_up (Z.to_nat (M - 1)) M (copy_from (k zn) (- M)) (k yn);
  x ← aget (k r) pos;
  yk ← aset yk (M - 1) x;
  yc ← (if is_leaf zn then Some (childs yn) else for_up (Z.to_nat M) M (copy_from (childs zn) (- M)) (childs yn));
  b ← put b y (Node yk yc (2 * M - 1) (is_leaf yn) (page_id yn));
  r ← deref b root;
  res ← for_up (Z.to_nat (key_num r - (pos + 1))) (pos + 1)
    (λ j s, let '(l, q) := s : list Z * list Z in l ← move_down j l; q ← copy_from q 1 j q; Some (l, q)) (k r, childs r);
  let '(l, q) := res : list Z * list Z in
  b ← put b root (Node l q (key_num r - 1) (is_leaf r) (page_id r));
  zn ← deref b z;
  Some (FreePage b (page_id zn)).

(** src/app/simpleDB/btree.cc:321-329, [BTree::btree_search_predecessor]. *)
Fixpoint btree_search_predecessor (fuel : nat) (b : BufferPool) (y : Z) : option (Z * BufferPool) :=
  match fuel with
  | O => None
  | S fuel =>
      n ← deref b y;
      if is_leaf n then x ← aget (k n) (key_num n - 1); Some (x, b)
      else x ← child_node b y (key_num n); btree_search_predecessor fuel x.2 x.1
  end.

(** src/app/simpleDB/btree.cc:332-340, [BTree::btree_search_successor]. *)
Fixpoint btree_search_successor (fuel : nat) (b : BufferPool) (z : Z) : option (Z * BufferPool) :=
  match fuel with
  | O => None
  | S fuel =>
      n ← deref b z;
      if is_leaf n then x ← aget (k n) 0; Some (x, b)
      else x ← child_node b z 0; btree_search_successor fuel x.2 x.1
  end.

(** src/app/simpleDB/btree.cc:343-364, [BTree::btree_shift_to_right_child]. *)
Definition btree_shift_to_right_child (b : BufferPool) (root pos y z : Z) : option BufferPool :=
  zn ← deref b z; r ← deref b root; yn ← deref b y;
  let zn1 := key_num zn + 1 in
  zk ← for_down (Z.to_nat (zn1 - 1)) (zn1 - 1) pull_up (k zn);
  x ← aget (k r) pos;
  zk ← aset zk 0 x;
  up ← aget (k yn) (key_num yn - 1);
  rk ← aset (k r) pos up;
  zc ← (if is_leaf zn then Some (childs zn) else
          q ← for_down (Z.to_nat zn1) zn1 pull_up (childs zn);
          c ← aget (childs yn) (key_num yn);
          aset q 0 c);
  b ← put b z (Node zk zc zn1 (is_leaf zn) (page_id zn));
  b ← put b root (with_keys r rk);
  put b y (with_num yn (key_num yn - 1)).

(** src/app/simpleDB/btree.cc:367-389, [BTree::btree_shift_to_left_child]. *)
Definition btree_shift_to_left_child (b : BufferPool) (root pos y z : Z) : option BufferPool :=
  yn ← deref b y; r ← deref b root; zn ← deref b z;
  let yn1 := key_num yn + 1 in
  x ← aget (k r) pos;
  yk ← aset (k yn) (yn1 - 1) x;
  up ← aget (k zn) 0;
  rk ← aset (k r) pos up;
  zk ← for_up (Z.to_nat (key_num zn - 1)) 1 move_down (k zn);
  res ← (if is_leaf zn then Some (childs yn, childs zn) else
           c ← aget (childs zn) 0;
           yc ← aset (childs yn) yn1 c;
           zc ← for_up (Z.to_nat (key_num zn)) 1 move_down (childs zn);
           Some (yc, zc));
  let '(yc, zc) := res : list Z * list Z in
  b ← put b y (Node yk yc yn1 (is_leaf yn) (page_id yn));
  b ← put b root (with_keys r rk);
  put b z (Node zk zc (key_num zn - 1) (is_leaf zn) (page_id zn)).

(** src/app/simpleDB/btree.cc:185-211, [BTree::btree_delete]. [rec] is [btree_delete_nonone]; the flag says
    that a key was removed. *)
Definition btree_delete (rec : BufferPool → Z → Z → option (bool * BufferPool)) (b : BufferPool) (root target : Z) :
    option (Z * bool * BufferPool) :=
  let plain b := x ← rec b root target; Some (root, x.1, x.2) in
  r ← deref b root;
  if 1 =? key_num r then
    c0 ← aget (childs r) 0; x ← BTREE_NODE b c0;
    let '(y, b) := x in
    c1 ← aget (childs r) 1; x ← BTREE_NODE b c1;
    let '(z, b) := x in
    match y, z with
    | Some y, Some z =>
        yn ← deref b y; zn ← deref b z;
        if (M - 1 =? key_num yn) && (M - 1 =? key_num zn) then
          b ← btree_merge_child b root 0 y z;
          r ← deref b root;
          let b := FreePage b (page_id r) in
          x ← rec b y target; Some (y, x.1, x.2)
        else plain b
    | _, _ => plain b
    end
  else plain b.

(** src/app/simpleDB/btree.cc:219-221, [BTree::btree_delete_nonone (search loop)], here and for
    branch nodes. *)
Fixpoint first_ge (fuel : nat) (i : Z) (n : Z) (l : list Z) (target : Z) : option Z :=
  match fuel with
  | O => None
  | S fuel =>
      if i <? n then x ← aget l i; if x <? target then first_ge fuel (i + 1) n l target else Some i
      else Some i
  end.

(** src/app/simpleDB/btree.cc:216-237, [BTree::btree_delete_nonone (leaf)]. *)
Definition delete_leaf (b : BufferPool) (root target : Z) : option (bool * BufferPool) :=
  r ← deref b root;
  i ← first_ge (S (length (k r))) 0 (key_num r) (k r) target;
  x ← aget (k r) i;
  if target =? x then
    l ← for_up (Z.to_nat (2 * M - 1 - (i + 1))) (i + 1) move_down (k r);
    b ← put b root (Node l (childs r) (key_num r - 1) (is_leaf r) (page_id r));
    Some (true, b)
  else Some (false, b).

(** src/app/simpleDB/btree.cc:274-310, [BTree::btree_delete_nonone (not in this node)]. The child to go on
    with. *)
Definition refill_child (b : BufferPool) (root i : Z) : option (Z * BufferPool) :=
  r ← deref b root;
  x ← child_node b root i;
  let '(y, b) := x in
  x ← (if i <? key_num r then x ← child_node b root (i + 1); Some (Some x.1, x.2) else Some (None, b));
  let '(z, b) := x in
  x ← (if 0 <? i then x ← child_node b root (i - 1); Some (Some x.1, x.2) else Some (None, b));
  let '(p, b) := x in
  yn ← deref b y;
  if negb (key_num yn =? M - 1) then Some (y, b) else
  left_rich ← (match p with Some p => pn ← deref b p; Some (M - 1 <? key_num pn) | None => Some false end);
  if left_rich : bool then p ← p; b ← btree_shift_to_right_child b root (i - 1) p y; Some (y, b) else
  right_rich ← (match z with Some z => zn ← deref b z; Some (M - 1 <? key_num zn) | None => Some false end);
  if right_rich : bool then z ← z; b ← btree_shift_to_left_child b root i y z; Some (y, b) else
  match p with
  | Some p => b ← btree_merge_child b root (i - 1) p y; Some (p, b)
  | None => z ← z; b ← btree_merge_child b root i y z; Some (y, b)
  end.

(** src/app/simpleDB/btree.cc:214-318, [BTree::btree_delete_nonone]. *)
Fixpoint btree_delete_nonone (fuel : nat) (b : BufferPool) (root target : Z) : option (bool * BufferPool) :=
  match fuel with
  | O => None
  | S fuel =>
      r ← deref b root;
      if is_leaf r then delete_leaf b root target else
      i ← first_ge (S (length (k r))) 0 (key_num r) (k r) target;
      here ← (if i <? key_num r then x ← aget (k r) i; Some (target =? x) else Some false);
      if here : bool then
        x ← child_node b root i;
        let '(y, b) := x in
        x ← child_node b root (i + 1);
        let '(z, b) := x in
        yn ← deref b y; zn ← deref b z;
        if M - 1 <? key_num yn then
          x ← btree_search_predecessor fuel b y;
          let '(pre, b) := x in
          r ← deref b root; l ← aset (k r) i pre; b ← put b root (with_keys r l);
          btree_delete_nonone fuel b y pre
        else if M - 1 <? key_num zn then
          x ← btree_search_successor fuel b z;
          let '(next, b) := x in
          r ← deref b root; l ← aset (k r) i next; b ← put b root (with_keys r l);
          btree_delete_nonone fuel b z next
        else
          b ← btree_merge_child b root i y z;
          x ← btree_delete (btree_delete_nonone fuel) b y target;
          Some (x.1.2, x.2)
      else
        x ← refill_child b root i;
        btree_delete_nonone fuel x.2 x.1 target
  end.

(** ** The database *)

(** src/app/simpleDB/btree.h:22-25, [BTree]. [DB] has the pool and the tree. *)
Record DB := mkDB { pool : BufferPool; roots : Z; btree_node_num : Z }.

(** src/app/simpleDB/btree.cc:392-410, [BTree::BTree]. *)
Definition BTree_new (b : BufferPool) : option DB :=
  let file_size := GetFileSize (db_io (disk_manager b)) in
  if file_size <=? 0 then x ← btree_node_new b; Some (mkDB x.2 x.1 0)
  else
    let '(buf, m) := Read (disk_manager b) [] (file_size - 8) 4 in
    root_id ← DecodeFixed32 buf;
    let '(buf, m) := Read m [] (file_size - 4) 4 in
    next_page_id ← DecodeFixed32 buf;
    let b := mkPool (pages_inmem b) (SetNextPageId m next_page_id) in
    x ← BTREE_NODE b root_id;
    r ← x.1;
    Some (mkDB x.2 r 0).

(** src/app/simpleDB/db.h:7-7, [DB::DB]. The files have the contents [db] and [log]. *)
Definition DB_open (db log : list Z) : option DB := BTree_new (BufferPool_new db log).

(** src/app/simpleDB/btree.h:58-61, [BTree::insert]. *)
Definition Insert (fuel : nat) (d : DB) (data : Z) : option DB :=
  x ← btree_insert fuel (pool d) (roots d) data;
  num ← int_res (btree_node_num d + 1);
  Some (mkDB x.2 x.1 num).

(** src/app/simpleDB/btree.h:63-66, [BTree::del]. *)
Definition Delete (fuel : nat) (d : DB) (data : Z) : option DB :=
  x ← btree_delete (btree_delete_nonone fuel) (pool d) (roots d) data;
  let '(r, removed, b) := x : Z * bool * BufferPool in
  num ← (if removed then int_res (btree_node_num d - 1) else Some (btree_node_num d));
  Some (mkDB b r num).

(** src/app/simpleDB/btree.h:80-81, [BTree::find (search loop)]. *)
Fixpoint last_le (fuel : nat) (i n : Z) (l : list Z) (key : Z) : option Z :=
  match fuel with
  | O => None
  | S fuel =>
      if i <? n then x ← aget l i; if x <=? key then last_le fuel (i + 1) n l key else Some i
      else Some i
  end.

(** src/app/simpleDB/btree.h:73-87, [BTree::find]. *)
Fixpoint find_from (fuel : nat) (b : BufferPool) (p : option Z) (key : Z) : option (bool * BufferPool) :=
  match p with
  | None => Some (false, b)
  | Some pid =>
      match fuel with
      | O => None
      | S fuel =>
          n ← deref b pid;
          x ← aget (k n) 0;
          if key <? x then c ← aget (childs n) 0; x ← BTREE_NODE b c; find_from fuel x.2 x.1 key
          else
            i ← last_le (S (length (k n))) 0 (key_num n) (k n) key;
            hit ← (if 0 <? i then x ← aget (k n) (i - 1); Some (x =? key) else Some false);
            if hit : bool then Some (true, b)
            else c ← aget (childs n) i; x ← BTREE_NODE b c; find_from fuel x.2 x.1 key
      end
  end.

(** src/app/simpleDB/db.h:15-17, [DB::Find]. *)
Definition Find (fuel : nat) (d : DB) (key : Z) : option (bool * DB) :=
  x ← find_from fuel (pool d) (Some (roots d)) key; Some (x.1, mkDB x.2 (roots d) (btree_node_num d)).

(** src/app/simpleDB/db.h:21-29, [DB::Flush]. *)
Definition Flush (order : list Z) (d : DB) : option DB :=
  let b := FlushAll order (pool d) in
  r ← deref b (roots d);
  let m := Append (disk_manager b) (EncodeFixed32 (page_id r)) in
  let m := Append m (EncodeFixed32 (NextPageId m)) in
  Some (mkDB (mkPool (pages_inmem b) m) (roots d) (btree_node_num d)).

(** src/app/simpleDB/buffer_pool.cc:32-41, [BufferPool::~BufferPool]. The file that is left behind. *)
Definition DB_close (order : list Z) (d : DB) : list Z := content (db_io (disk_manager (FlushAll order (pool d)))).

Definition inserts (fuel : nat) (d : DB) (l : list Z) : option DB := foldl (λ d x, d ← d; Insert fuel d x) (Some d) l.
Definition deletes (fuel : nat) (d : DB) (l : list Z) : option DB := foldl (λ d x, d ← d; Delete fuel d x) (Some d) l.
Definition found (fuel : nat) (d : DB) (x : Z) : option bool := fst <$> Find fuel d x.
