(* ===== verification/SimpleDbProofs.v ===== *)
(** * SimpleDB: layout of nodes, well-formed pages, recovery

    What the pool shows of a page ([view]) does not depend on whether the page is in memory or on
    disk.  Databases made by insertions keep every allocated page a well-formed node whose children
    are allocated pages; flushing such a database and opening the file again gives a database with the same
    answers. *)

From S2P Require Import Prelude Coding Arrays Disk SimpleDb.

(** ** The layout *)

Definition int_ok (x : Z) : Prop := - 2 ^ 31 ≤ x < 2 ^ 31.

Lemma encode_wrap x : EncodeFixed32 x = EncodeFixed32 (u32 x).
Proof.
  assert (H0 : u8 x = u8 (u32 x)) by bits. assert (H1 : u8 (x ≫ 8) = u8 (u32 x ≫ 8)) by bits.
  assert (H2 : u8 (x ≫ 16) = u8 (u32 x ≫ 16)) by bits. assert (H3 : u8 (x ≫ 24) = u8 (u32 x ≫ 24)) by bits.
  unfold EncodeFixed32. by rewrite H0, H1, H2, H3.
Qed.

Lemma decode_wrapped x rest : DecodeFixed32 (EncodeFixed32 x ++ rest) = Some (u32 x).
Proof. rewrite encode_wrap. apply decode_encode32. apply uwrap_range. lia. Qed.

Lemma word_encoded x rest : word (EncodeFixed32 x ++ rest) 0 = Some (u32 x).
Proof. apply decode_wrapped. Qed.

Lemma s32_u32 x : int_ok x → s32 (u32 x) = x.
Proof. intros H. unfold int_ok in H. unfold swrap, uwrap. rewrite Zmod_mod. change (s32 x = x). apply swrap_small; [lia|done]. Qed.

Lemma encoded_length l : length (concat (EncodeFixed32 <$> l)) = (4 * length l)%nat.
Proof. induction l as [|x l IH]; [done|]. csimpl. rewrite IH. lia. Qed.

Lemma word_app pre d i j : Z.of_nat (length pre) = 4 * j → 0 ≤ i → word (pre ++ d) (j + i) = word d i.
Proof.
  intros Hl Hi. unfold word. replace (Z.to_nat (4 * (j + i))) with (length pre + Z.to_nat (4 * i))%nat by lia. by rewrite drop_app_add.
Qed.

Lemma words_app pre d i j n : Z.of_nat (length pre) = 4 * j → 0 ≤ i → words (pre ++ d) (j + i) n = words d i n.
Proof.
  intros Hl. revert i. induction n as [|n IH]; intros i Hi; [done|]. cbn [words]. rewrite word_app by done.
  replace (j + i + 1) with (j + (i + 1)) by lia. by rewrite IH by lia.
Qed.

Lemma words_encoded l d : words (concat (EncodeFixed32 <$> l) ++ d) 0 (length l) = Some (u32 <$> l).
Proof.
  induction l as [|x l IH]; [done|]. cbn [length words].
  change (concat (EncodeFixed32 <$> (x :: l))) with (EncodeFixed32 x ++ concat (EncodeFixed32 <$> l)). rewrite <-(assoc_L app).
  rewrite word_encoded. bind_simpl. rewrite (words_app (EncodeFixed32 x) _ 0 1) by done. by rewrite IH.
Qed.

(** A node that [struct btree_nodes] can hold. *)
Record node_ok (n : btree_node) : Prop := {
  ok_k : length (k n) = Z.to_nat (2 * M - 1);
  ok_keys : Forall int_ok (k n);
  ok_childs : length (childs n) = Z.to_nat (2 * M);
  ok_ids : Forall (λ c, 0 ≤ c < 2 ^ 32) (childs n);
  ok_num : 0 ≤ key_num n ≤ 2 * M - 1;
  ok_id : int_ok (page_id n)
}.

(** A node that is written into a page is read back, and the page keeps its length and
    all its bytes behind the node. *)
Theorem node_roundtrip n data : node_ok n → Z.of_nat (length data) = PAGE_SIZE →
  load_node (store_node data n) = Some n ∧ length (store_node data n) = length data ∧
  drop (Z.to_nat (16 * M + 8)) (store_node data n) = drop (Z.to_nat (16 * M + 8)) data.
Proof.
  intros Hn Hd. destruct Hn as [Hk Hks Hc Hcs Hnum Hid]. unfold PAGE_SIZE in Hd.
  pose proof (encoded_length (k n)) as Lk. pose proof (encoded_length (childs n)) as Lc. rewrite Hk in Lk. rewrite Hc in Lc.
  change (Z.to_nat (2 * M - 1)) with 7%nat in *. change (Z.to_nat (2 * M)) with 8%nat in *. change (Z.to_nat (16 * M + 1)) with 65%nat in *.
  change (Z.to_nat (16 * M + 8)) with 72%nat in *.
  set (ks := concat (EncodeFixed32 <$> k n)) in *. set (cs := concat (EncodeFixed32 <$> childs n)) in *.
  assert (Wk : ∀ d, words (ks ++ d) 0 7 = Some (u32 <$> k n)) by (intros d; pose proof (words_encoded (k n) d) as W; by rewrite Hk in W).
  assert (Wc : ∀ d, words (cs ++ d) 0 8 = Some (u32 <$> childs n)) by (intros d; pose proof (words_encoded (childs n) d) as W; by rewrite Hc in W).
  set (pad := take 3 (drop 65 data)). assert (Hpad : length pad = 3%nat) by (unfold pad; rewrite length_take, length_drop; lia).
  set (tail := drop 72 data). set (leaf := if is_leaf n then 1 else 0).
  assert (Es : store_node data n = ks ++ cs ++ EncodeFixed32 (key_num n) ++ [leaf] ++ pad ++ EncodeFixed32 (page_id n) ++ tail) by done.
  split_and!.
  - rewrite Es. unfold load_node. change (Z.to_nat (2 * M - 1)) with 7%nat. change (Z.to_nat (2 * M)) with 8%nat.
    rewrite Wk. bind_simpl. change (2 * M - 1) with (7 + 0). rewrite words_app by lia.
    rewrite Wc. bind_simpl.
    change (4 * M - 1) with (7 + (8 + 0)). rewrite (word_app ks _ (8 + 0) 7), (word_app cs _ 0 8) by lia.
    rewrite word_encoded. bind_simpl.
    assert (Hleaf : aget (ks ++ cs ++ EncodeFixed32 (key_num n) ++ [leaf] ++ pad ++ EncodeFixed32 (page_id n) ++ tail) (16 * M) = Some leaf).
    { rewrite (assoc_L app cs), (assoc_L app ks). apply aget_app_at. rewrite !length_app, Lk, Lc. done. }
    rewrite Hleaf. bind_simpl.
    assert (Hpid : word (ks ++ cs ++ EncodeFixed32 (key_num n) ++ [leaf] ++ pad ++ EncodeFixed32 (page_id n) ++ tail) (4 * M + 1) = Some (u32 (page_id n))).
    { rewrite (assoc_L app [leaf]), (assoc_L app (EncodeFixed32 (key_num n))), (assoc_L app cs), (assoc_L app ks).
      change (4 * M + 1) with (17 + 0). rewrite word_app; [|rewrite !length_app, Lk, Lc, Hpad; done|done].
      apply word_encoded. }
    rewrite Hpid. bind_simpl. unfold int_ok in *. rewrite s32_u32 by (unfold int_ok; unfold M in *; lia). rewrite s32_u32 by done.
    assert (Ek : s32 <$> (u32 <$> k n) = k n).
    { clear -Hks. induction Hks as [|x l Hx _ IH]; [done|]. csimpl. by rewrite IH, s32_u32. }
    assert (Ec : u32 <$> childs n = childs n).
    { clear -Hcs. induction Hcs as [|x l Hx _ IH]; [done|]. csimpl. by rewrite IH, uwrap_small. }
    rewrite Ek, Ec. unfold leaf. by destruct n as [? ? ? [] ?].
  - rewrite Es, !length_app, Lk, Lc, Hpad. unfold tail. rewrite length_drop. simpl. lia.
  - rewrite Es. do 5 rewrite (assoc_L app). apply drop_app_length'. rewrite !length_app, Lk, Lc, Hpad. done.
Qed.

(** ** What the pool shows of a page *)

Definition file (b : BufferPool) : list Z := content (db_io (disk_manager b)).
Definition next (b : BufferPool) : Z := next_page_id (disk_manager b).

Definition view (b : BufferPool) (q : Z) : list Z := default (disk_page (file b) q) (pages_inmem b !! q).

(** The number of pages that fit into a file whose size is an [int]. *)
Definition page_limit : Z := 2 ^ 19 - 1.

Record pool_ok (b : BufferPool) : Prop := {
  po_stream : failed (db_io (disk_manager b)) = false;
  po_size : flen (file b) < 2 ^ 31;
  po_pages q d : pages_inmem b !! q = Some d → 0 ≤ q < 2 ^ 19 ∧ flen d = PAGE_SIZE
}.

(** The pool [b'] shows the same pages as [b], and has at least the same pages in memory. *)
Record same_pool (b b' : BufferPool) : Prop := {
  sp_ok : pool_ok b';
  sp_view q : view b' q = view b q;
  sp_mem q : is_Some (pages_inmem b !! q) → is_Some (pages_inmem b' !! q);
  sp_dom q : is_Some (pages_inmem b' !! q) → is_Some (pages_inmem b !! q) ∨ 0 ≤ q;
  sp_file : file b' = file b;
  sp_next : next b' = next b
}.

Lemma same_pool_refl b : pool_ok b → same_pool b b.
Proof. intros H. split; auto. Qed.

Lemma flen_view b q : pool_ok b → flen (view b q) = PAGE_SIZE.
Proof.
  intros H. unfold view. destruct (pages_inmem b !! q) eqn:E; simpl; [by apply (po_pages _ H q)|]. unfold flen. by rewrite disk_page_length.
Qed.

Lemma GetPage_spec b q : pool_ok b → 0 ≤ q < 2 ^ 19 →
  ∃ b', GetPage b q = Some b' ∧ pages_inmem b' !! q = Some (view b q) ∧ same_pool b b' ∧ ∀ p, p ≠ q → pages_inmem b' !! p = pages_inmem b !! p.
Proof.
  intros H Hq. unfold GetPage, kMaxPages. rewrite (proj2 (Z.ltb_ge q 0)), (proj2 (Z.leb_gt _ q)) by lia. cbn [orb].
  destruct (pages_inmem b !! q) as [d|] eqn:E.
  { exists b. unfold view. rewrite E. split_and!; [done..|by apply same_pool_refl|done]. }
  rewrite (proj2 (Z.leb_gt _ _)) by (unfold PAGE_SIZE; lia). rewrite file_size_small by apply H. fold (file b).
  set (x := if q * PAGE_SIZE <? flen (file b) then _ else _).
  assert (Hx : ∃ m, x = (disk_page (file b) q, m) ∧ content (db_io m) = file b ∧ failed (db_io m) = false ∧ next_page_id m = next b).
  { subst x. destruct (Z.ltb_spec (q * PAGE_SIZE) (flen (file b))) as [Hlt|Hge].
    - apply ReadPage_spec; [apply H|apply H|lia|unfold file in Hlt; lia|]. unfold flen. by rewrite length_replicate.
    - exists (disk_manager b). rewrite disk_page_off by done. split_and!; [done..|apply H|done]. }
  destruct Hx as (m & -> & Hc & Hf & Hn). eexists. split; [done|]. simpl.
  assert (Hv : view b q = disk_page (file b) q) by (unfold view; by rewrite E).
  split; [by rewrite lookup_insert_eq, Hv|]. split; [|intros p Hp; by rewrite lookup_insert_ne].
  split; unfold file, next; simpl; try done.
  - split; unfold file; simpl; [done|rewrite Hc; apply H|]. intros p d.
    rewrite lookup_insert_Some. intros [[<- <-]|[_ Hp]]; [|by apply H]. split; [lia|]. unfold flen. by rewrite disk_page_length.
  - intros p. unfold view, file. simpl. rewrite Hc. destruct (decide (p = q)) as [->|Hne]; [rewrite lookup_insert_eq, E; done|].
    by rewrite lookup_insert_ne.
  - intros p Hp. rewrite lookup_insert_is_Some'. auto.
  - intros p Hp. apply lookup_insert_is_Some' in Hp as [<-|Hp]; [right; lia|by left].
Qed.

Lemma GetPage_range b q b' : pool_ok b → GetPage b q = Some b' → 0 ≤ q < 2 ^ 19.
Proof.
  intros H. unfold GetPage. destruct (Z.ltb_spec q 0); [done|]. destruct (Z.leb_spec kMaxPages q); [done|]. simpl.
  destruct (pages_inmem b !! q) as [d|] eqn:E; [intros _; by apply (po_pages _ H q d)|].
  unfold PAGE_SIZE. destruct (Z.leb_spec (2 ^ 31) (q * 4096)); [done|]. intros _. lia.
Qed.

(** ** Searches

    A search depends only on what the pool shows of a set of pages that is closed under children. *)

Definition closed (P : Z → Prop) (b : BufferPool) : Prop :=
  ∀ q, P q → 0 ≤ q < 2 ^ 19 ∧ ∃ n, load_node (view b q) = Some n ∧ ∀ c, c ∈ childs n → 0 ≤ s32 c → P (s32 c).

Lemma deref_view b q : is_Some (pages_inmem b !! q) → deref b q = load_node (view b q).
Proof. intros [d E]. unfold deref, view. by rewrite E. Qed.

Lemma closed_same P b b' : (∀ q, P q → view b' q = view b q) → closed P b → closed P b'.
Proof. intros Hv HP q Hq. rewrite Hv by done. by apply HP. Qed.

Definition in_memory (P : Z → Prop) (b : BufferPool) (p : option Z) : Prop :=
  ∀ q, p = Some q → P q ∧ is_Some (pages_inmem b !! q).

Lemma find_same P fuel : ∀ b b' p key, pool_ok b → pool_ok b' → closed P b → (∀ q, P q → view b' q = view b q) →
  in_memory P b p → in_memory P b' p → fst <$> find_from fuel b p key = fst <$> find_from fuel b' p key.
Proof.
  induction fuel as [|fuel IH]; intros b b' [q|] key Hb Hb' HP Hv Hp Hp'; [done..| |done].
  destruct (Hp q eq_refl) as [Hq Hm]. destruct (Hp' q eq_refl) as [_ Hm']. cbn [find_from].
  rewrite (deref_view b q Hm), (deref_view b' q Hm'), Hv by done. destruct (HP q Hq) as (_ & n & En & Hcs). rewrite En. bind_simpl.
  assert (Hnode : ∀ i, (fst <$> (c ← aget (childs n) i; x ← BTREE_NODE b c; find_from fuel x.2 x.1 key)) =
    (fst <$> (c ← aget (childs n) i; x ← BTREE_NODE b' c; find_from fuel x.2 x.1 key))).
  { intros i. destruct (aget (childs n) i) as [c|] eqn:Ec; [|done]. bind_simpl. unfold BTREE_NODE.
    destruct (Z.ltb_spec (s32 c) 0) as [|Hc]; [by destruct fuel|].
    assert (Hpc : P (s32 c)) by (apply Hcs; [apply aget_Some in Ec as [_ Ec]; by eapply list_elem_of_lookup_2|done]).
    destruct (HP _ Hpc) as [Hr _]. destruct (GetPage_spec b (s32 c) Hb Hr) as (b1 & -> & E1 & S1 & _).
    destruct (GetPage_spec b' (s32 c) Hb' Hr) as (b2 & -> & E2 & S2 & _). bind_simpl. cbn [fst snd].
    apply IH; [apply S1|apply S2| | | |].
    - apply (closed_same P b); [|done]. intros p _. apply S1.
    - intros p Hpp. rewrite (sp_view _ _ S2), (sp_view _ _ S1). by apply Hv.
    - intros p [= <-]. split; [done|]. by rewrite E1.
    - intros p [= <-]. split; [done|]. by rewrite E2. }
  destruct (aget (k n) 0) as [x|]; [|done]. bind_simpl. destruct (key <? x); [apply Hnode|].
  destruct (last_le _ 0 _ _ _) as [i|]; [|done]. bind_simpl.
  destruct (0 <? i); [|apply Hnode]. destruct (aget (k n) (i - 1)) as [y|]; [|done]. bind_simpl. destruct (y =? key); [done|apply Hnode].
Qed.

(** ** Flushing *)

Definition flushes (b b' : BufferPool) (done_ : list Z) : Prop :=
  pages_inmem b' = pages_inmem b ∧ failed (db_io (disk_manager b')) = false ∧ next b' = next b ∧
  flen (file b) ≤ flen (file b') ≤ Z.max (flen (file b)) (page_limit * PAGE_SIZE) ∧
  (∀ q d, q ∈ done_ → pages_inmem b !! q = Some d → on_disk (file b') q ∧ region (file b') q = d) ∧
  (∀ q, q ∉ done_ ∨ pages_inmem b !! q = None → on_disk (file b) q → on_disk (file b') q ∧ region (file b') q = region (file b) q).

Lemma FlushAll_spec order : ∀ b, pool_ok b → (∀ q d, pages_inmem b !! q = Some d → q < page_limit) →
  flushes b (FlushAll order b) order.
Proof.
  induction order as [|q order IH] using rev_ind; intros b H Hlim.
  { split; [done|]. split; [apply H|]. split; [done|]. split; [simpl; lia|]. split; [by intros q d ?%elem_of_nil|done]. }
  destruct (IH b H Hlim) as (Hm & Hf & Hn & Hl & Hdone & Hother). unfold FlushAll. rewrite foldl_app. simpl. fold (FlushAll order b).
  set (b1 := FlushAll order b) in *. unfold FlushPage. rewrite Hm. destruct (pages_inmem b !! q) as [d|] eqn:E.
  2: { split_and!; try done; [lia..| |].
       - intros p d' [?| ->%list_elem_of_singleton]%elem_of_app E'; [by apply Hdone|congruence].
       - intros p Hp. apply Hother. destruct Hp; [left; set_solver|by right]. }
  destruct (po_pages _ H q d E) as [Hq Hd]. pose proof (Hlim q d E) as Hql.
  destruct (WritePage_spec (disk_manager b1) q d Hf (proj1 Hq)) as (Hc & Hf' & Hn').
  destruct (overwrite_page (file b1) q d (proj1 Hq) Hd) as (Hon & Hr & Hoth).
  set (b2 := mkPool _ _).
  assert (H2 : pages_inmem b2 = pages_inmem b ∧ failed (db_io (disk_manager b2)) = false ∧ next b2 = next b) by (split_and!; [done..|unfold next in *; simpl; congruence]).
  assert (Hc2 : file b2 = overwrite (file b1) (q * PAGE_SIZE) d) by done. clearbody b2. destruct H2 as (Hm2 & Hf2 & Hn2).
  split_and!; try done; rewrite ?Hc2.
  - rewrite flen_overwrite by (unfold PAGE_SIZE; lia). lia.
  - rewrite flen_overwrite by (unfold PAGE_SIZE; lia). unfold page_limit, PAGE_SIZE in *. lia.
  - intros p d' Hp E'. destruct (decide (p = q)) as [->|Hne]; [by simplify_eq|].
    destruct (Hdone p d') as [H1 H2]; [set_solver|done|]. destruct (Hoth p Hne H1) as [H3 ->]. done.
  - intros p Hp Hpo. destruct (Hother p) as [H1 H2]; [destruct Hp; [left; set_solver|by right]|done|].
    destruct (Hoth p) as [H3 ->]; [|done|done]. intros ->. destruct Hp as [Hp|Hp]; [set_solver|congruence].
Qed.

(** A page that is on disk already. *)
Lemma overwrite_same l q d : on_disk l q → region l q = d → overwrite l (q * PAGE_SIZE) d = l.
Proof.
  intros Hon <-. pose proof (region_length l q Hon) as Hl. destruct Hon as [H0 H1]. apply list_eq. intros i.
  rewrite overwrite_lookup by (unfold PAGE_SIZE; lia). rewrite Hl. unfold flen, PAGE_SIZE in *. case_decide as Hi; [by rewrite lookup_app_l by lia|].
  case_decide as Hi'; [|done]. rewrite region_lookup by (unfold PAGE_SIZE; lia). f_equal. unfold PAGE_SIZE. lia.
Qed.

Lemma FlushAll_again order : ∀ b, failed (db_io (disk_manager b)) = false →
  (∀ q d, pages_inmem b !! q = Some d → on_disk (file b) q ∧ region (file b) q = d) → file (FlushAll order b) = file b.
Proof.
  unfold FlushAll. induction order as [|q order IH]; intros b Hf Hon; [done|]. simpl. unfold FlushPage at 2.
  destruct (pages_inmem b !! q) as [d|] eqn:E; [|by apply IH]. destruct (Hon q d E) as [Hq Hr].
  destruct (WritePage_spec (disk_manager b) q d Hf (proj1 Hq)) as (Hc & Hf' & _). set (b' := mkPool _ _).
  assert (Hfile : file b' = file b) by (unfold file at 1, b'; cbn [disk_manager]; rewrite Hc; by apply overwrite_same).
  rewrite IH; rewrite ?Hfile; done.
Qed.

Lemma Read_spec m o n : failed (db_io m) = false → flen (content (db_io m)) < 2 ^ 31 → 0 ≤ o → 0 ≤ n → o + n ≤ flen (content (db_io m)) →
  ∃ m', Read m [] o n = (take (Z.to_nat n) (drop (Z.to_nat o) (content (db_io m))), m') ∧
    content (db_io m') = content (db_io m) ∧ failed (db_io m') = false ∧ next_page_id m' = next_page_id m.
Proof.
  intros Hf Hs Ho Hn Hle. unfold Read. rewrite file_size_small by done. rewrite (proj2 (Z.ltb_ge _ _)) by lia.
  unfold seekp. rewrite Hf, (proj2 (Z.ltb_ge _ _)) by lia. unfold read. cbn [failed pos content]. set (d := take _ _).
  assert (Hd : flen d = n) by (unfold d, flen in *; rewrite length_take, length_drop; lia).
  eexists. split; [unfold into; by rewrite drop_nil, app_nil_r|]. simpl. split_and!; [done| |done]. rewrite Hd. apply Z.ltb_irrefl.
Qed.

(** The last eight bytes of a file. *)
Lemma trailer_read l x y : let f := l ++ EncodeFixed32 x ++ EncodeFixed32 y in
  take 4 (drop (Z.to_nat (flen f - 8)) f) = EncodeFixed32 x ∧ take 4 (drop (Z.to_nat (flen f - 4)) f) = EncodeFixed32 y.
Proof.
  intros f. assert (Hf : flen f = flen l + 8) by (unfold f, flen; rewrite !length_app; simpl; lia). unfold flen in *. split.
  - replace (Z.to_nat (Z.of_nat (length f) - 8)) with (length l) by lia. unfold f. rewrite drop_app_length. done.
  - replace (Z.to_nat (Z.of_nat (length f) - 4)) with (length (l ++ EncodeFixed32 x)) by (rewrite length_app; simpl; lia).
    unfold f. rewrite (assoc_L app), drop_app_length. done.
Qed.

(** ** Recovery *)

Record db_ok (P : Z → Prop) (d : DB) : Prop := {
  do_pool : pool_ok (pool d);
  do_closed : closed P (pool d);
  do_root : P (roots d) ∧ is_Some (pages_inmem (pool d) !! roots d);
  do_root_id : ∃ n, load_node (view (pool d) (roots d)) = Some n ∧ page_id n = roots d;
  do_live q : P q → is_Some (pages_inmem (pool d) !! q) ∨ on_disk (file (pool d)) q;
  do_limit q : is_Some (pages_inmem (pool d) !! q) → q < page_limit;
  do_next : 0 ≤ next (pool d) < 2 ^ 32
}.

Lemma Flush_spec P d order : db_ok P d → flen (file (pool d)) + 8 < 2 ^ 31 → (∀ q, is_Some (pages_inmem (pool d) !! q) → q ∈ order) →
  ∃ d' l, Flush order d = Some d' ∧ file (pool d') = l ++ EncodeFixed32 (roots d) ++ EncodeFixed32 (next (pool d)) ∧
    flen (file (pool d')) < 2 ^ 31 ∧ pages_inmem (pool d') = pages_inmem (pool d) ∧ failed (db_io (disk_manager (pool d'))) = false ∧
    next (pool d') = next (pool d) ∧ roots d' = roots d ∧
    ∀ q, P q ∨ is_Some (pages_inmem (pool d) !! q) → on_disk (file (pool d')) q ∧ region (file (pool d')) q = view (pool d) q.
Proof.
  intros H Hs Hall. destruct (FlushAll_spec order (pool d) (do_pool _ _ H)) as (Hm & Hf & Hn & Hl & Hdone & Hother).
  { intros q dd E. apply (do_limit _ _ H). by rewrite E. }
  unfold Flush. set (b := FlushAll order (pool d)) in *. destruct (do_root_id _ _ H) as (n & En & Hid). destruct (do_root _ _ H) as [HPr Hr].
  assert (Ed : deref b (roots d) = Some n).
  { unfold deref. rewrite Hm. rewrite <-En, <-deref_view by done. done. }
  rewrite Ed. bind_simpl. rewrite Hid. assert (Hsize : flen (file b) + 8 < 2 ^ 31) by (unfold page_limit, PAGE_SIZE in *; lia).
  destruct (Append_spec (disk_manager b) (EncodeFixed32 (roots d))) as (A1 & A2 & A3); [done|unfold file in *; lia|]. set (m1 := Append _ _) in *.
  destruct (Append_spec m1 (EncodeFixed32 (NextPageId m1))) as (B1 & B2 & B3); [done|unfold file, flen in *; rewrite A1, length_app; simpl; lia|].
  set (m2 := Append m1 _) in *. unfold NextPageId in B1. rewrite A3 in B1. fold (next b) in B1. rewrite Hn in B1. rewrite A1 in B1.
  exists (mkDB (mkPool (pages_inmem b) m2) (roots d) (btree_node_num d)), (file b). split; [done|].
  assert (Hfile : file (mkPool (pages_inmem b) m2) = file b ++ EncodeFixed32 (roots d) ++ EncodeFixed32 (next (pool d)))
    by (unfold file in *; cbn [disk_manager]; by rewrite B1, <-(assoc_L app)).
  cbn [pool roots]. split; [done|]. rewrite Hfile. split; [unfold flen in *; rewrite !length_app; simpl; lia|]. split; [done|]. split; [done|].
  split; [unfold next in *; cbn [disk_manager]; congruence|]. split; [done|]. intros q Hq.
  assert (Hq' : on_disk (file b) q ∧ region (file b) q = view (pool d) q).
  { unfold view. destruct (pages_inmem (pool d) !! q) as [dd|] eqn:E; simpl; [apply Hdone; [apply Hall; by rewrite E|done]|].
    destruct Hq as [Hq|[? ?]]; [|done]. destruct (do_live _ _ H q Hq) as [[? ?]|Hon]; [congruence|].
    destruct (Hother q (or_intror E) Hon) as [? ->]. split; [done|]. by rewrite disk_page_on. }
  destruct Hq' as [Hon <-]. by apply region_app.
Qed.

Lemma recovers P d order order' log : db_ok P d → flen (file (pool d)) + 8 < 2 ^ 31 →
  (∀ q, is_Some (pages_inmem (pool d) !! q) → q ∈ order) →
  ∃ d1 d2, Flush order d = Some d1 ∧ DB_open (DB_close order' d1) log = Some d2 ∧ roots d2 = roots d ∧ next (pool d2) = next (pool d) ∧
    db_ok P d2 ∧ (∀ q, P q → view (pool d2) q = view (pool d) q) ∧ (∀ q, is_Some (pages_inmem (pool d2) !! q) → q = roots d).
Proof.
  intros H Hs Hall. destruct (Flush_spec P d order H Hs Hall) as (d1 & l & E1 & Hfile & Hsz & Hm & Hf & Hn & Hr & Hon). exists d1.
  assert (Hclose : DB_close order' d1 = file (pool d1)).
  { unfold DB_close. apply FlushAll_again; [done|]. intros q dd E. rewrite Hm in E.
    destruct (Hon q) as [Ho Hv]; [right; by rewrite E|]. split; [done|]. rewrite Hv. unfold view. by rewrite E. }
  rewrite Hclose. unfold DB_open, BTree_new, BufferPool_new. cbn [disk_manager]. set (m0 := DiskManager_new _ _).
  assert (Hc0 : content (db_io m0) = file (pool d1)) by done. assert (Hf0 : failed (db_io m0) = false) by done. clearbody m0.
  pose proof (trailer_read l (roots d) (next (pool d))) as Ht. rewrite <-Hfile in Ht. destruct Ht as [Ht1 Ht2].
  assert (H8 : 8 ≤ flen (file (pool d1))) by (rewrite Hfile; unfold flen; rewrite !length_app; simpl; lia).
  rewrite file_size_small, Hc0 by (by rewrite Hc0). rewrite (proj2 (Z.leb_gt _ _)) by lia.
  destruct (Read_spec m0 (flen (file (pool d1)) - 8) 4) as (m1 & -> & C1 & F1 & N1); [done|rewrite ?Hc0; lia..|]. rewrite Hc0 in C1 |- *.
  change (Z.to_nat 4) with 4%nat. rewrite Ht1. rewrite <-(app_nil_r (EncodeFixed32 (roots d))), decode_wrapped. bind_simpl.
  destruct (Read_spec m1 (flen (file (pool d1)) - 4) 4) as (m2 & -> & C2 & F2 & N2); [done|rewrite ?C1; lia..|]. rewrite C1 in C2 |- *.
  change (Z.to_nat 4) with 4%nat. rewrite Ht2. rewrite <-(app_nil_r (EncodeFixed32 (next (pool d)))), decode_wrapped. bind_simpl.
  rewrite (uwrap_small 32 (next (pool d))) by apply H. set (b0 := mkPool _ _).
  assert (Hb0 : file b0 = file (pool d1)) by done. assert (Hn0 : next b0 = next (pool d)) by done. assert (Hm0 : pages_inmem b0 = ∅) by done.
  assert (Hok0 : pool_ok b0). { split; [done|by rewrite Hb0|]. intros q dd. by rewrite Hm0, lookup_empty. } clearbody b0.
  destruct (do_root _ _ H) as [HPr Hrm]. destruct (do_closed _ _ H _ HPr) as [Hrange _].
  unfold BTREE_NODE. rewrite s32_u32 by (unfold int_ok; lia). rewrite (proj2 (Z.ltb_ge _ _)) by lia.
  destruct (GetPage_spec b0 (roots d) Hok0 Hrange) as (b1 & -> & Eb1 & S1 & Hother). bind_simpl. cbn [fst snd].
  assert (Hv : ∀ q, P q → view b1 q = view (pool d) q).
  { intros q Hq. rewrite (sp_view _ _ S1). unfold view at 1. rewrite Hm0, lookup_empty. simpl. rewrite Hb0.
    destruct (Hon q (or_introl Hq)) as [Ho <-]. by apply disk_page_on. }
  eexists. split; [done|]. split; [done|]. cbn [roots pool]. split; [done|]. split; [by rewrite (sp_next _ _ S1)|].
  assert (Honly : ∀ q, is_Some (pages_inmem b1 !! q) → q = roots d).
  { intros q Hq. destruct (decide (q = roots d)) as [|Hne]; [done|]. rewrite Hother, Hm0, lookup_empty in Hq by done. by destruct Hq. }
  split; [|done].
  split; cbn [roots pool].
  - apply S1.
  - by apply (closed_same P (pool d)), H.
  - split; [done|]. by rewrite Eb1.
  - rewrite Hv by done. apply H.
  - intros q Hq. right. rewrite (sp_file _ _ S1), Hb0. by apply Hon; left.
  - intros q ->%Honly. by apply (do_limit _ _ H).
  - rewrite (sp_next _ _ S1), Hn0. apply H.
Qed.

(** ** Arrays of fixed length *)

Definition arr (N : nat) (Q : Z → Prop) (l : list Z) : Prop := length l = N ∧ Forall Q l.

Lemma arr_aget N Q l i x : arr N Q l → aget l i = Some x → Q x ∧ 0 ≤ i < Z.of_nat N.
Proof. intros [<- HQ] [Hi E]%aget_Some. split; [|lia]. rewrite Forall_forall in HQ. apply HQ. by eapply list_elem_of_lookup_2. Qed.

Lemma arr_aset N Q l i x l' : arr N Q l → Q x → aset l i x = Some l' → arr N Q l' ∧ 0 ≤ i < Z.of_nat N.
Proof.
  intros [<- HQ] Hx E. pose proof (aset_length _ _ _ _ E). apply aset_inv in E as [Hi ->]. split; [|lia]. split; [done|]. by apply Forall_insert.
Qed.

Lemma for_up_inv {S} (I : S → Prop) (f : Z → S → option S) : (∀ i s s', I s → f i s = Some s' → I s') →
  ∀ n i s s', I s → for_up n i f s = Some s' → I s'.
Proof.
  intros Hf n. induction n as [|n IH]; intros i s s' HI; simpl; [by intros [= <-]|]. destruct (f i s) as [s1|] eqn:E; [|done].
  simpl. apply IH. by eapply Hf.
Qed.

Lemma for_down_inv {S} (I : S → Prop) (f : Z → S → option S) : (∀ i s s', I s → f i s = Some s' → I s') →
  ∀ n i s s', I s → for_down n i f s = Some s' → I s'.
Proof.
  intros Hf n. induction n as [|n IH]; intros i s s' HI; simpl; [by intros [= <-]|]. destruct (f i s) as [s1|] eqn:E; [|done].
  simpl. apply IH. by eapply Hf.
Qed.

Lemma arr_copy N N' Q b d i a a' : arr N' Q b → arr N Q a → copy_from b d i a = Some a' → arr N Q a'.
Proof.
  intros Hb Ha. unfold copy_from. destruct (aget b (i + d)) as [x|] eqn:E; [|done]. simpl. intros E'.
  eapply arr_aset; [done| |done]. by apply (arr_aget _ _ _ _ _ Hb E).
Qed.

Lemma arr_move_up N Q i a a' : arr N Q a → move_up i a = Some a' → arr N Q a'.
Proof.
  intros Ha. unfold move_up. destruct (aget a i) as [x|] eqn:E; [|done]. simpl. intros E'.
  eapply arr_aset; [done| |done]. by apply (arr_aget _ _ _ _ _ Ha E).
Qed.

Lemma arr_leaf_shift N Q target : ∀ pos l l' pos', arr N Q l → leaf_shift pos l target = Some (l', pos') → arr N Q l' ∧ (pos' ≤ pos)%nat ∧
  (pos' = pos ∨ (pos < N)%nat).
Proof.
  induction pos as [|pos IH]; intros l l' pos' Hl; cbn [leaf_shift]; [intros [= <- <-]; auto|].
  destruct (aget l (Z.of_nat pos)) as [x|] eqn:E; [|done]. bind_simpl. destruct (target <? x); [|intros [= <- <-]; auto].
  destruct (aset l _ x) as [l1|] eqn:E1; [|done]. bind_simpl. intros E2.
  destruct (arr_aset N Q l (Z.of_nat (S pos)) x l1 Hl) as [Hl1 Hb]; [by apply (arr_aget _ _ _ _ _ Hl E)|done|].
  destruct (IH l1 l' pos' Hl1 E2) as (H1 & H2 & _). split; [done|]. split; [lia|]. right. lia.
Qed.

(** ** Well-formed pages *)

(** The node of page [q], when the pages below [N] are allocated. *)
Record page_ok (N q : Z) (n : btree_node) : Prop := {
  pk_keys : arr 7 int_ok (k n);
  pk_childs : arr 8 (λ c, c = 2 ^ 32 - 1 ∨ 0 ≤ c < N) (childs n);
  pk_num : 0 ≤ key_num n ≤ 7;
  pk_id : page_id n = q
}.

Record pages_ok (b : BufferPool) : Prop := {
  ps_pool : pool_ok b;
  ps_next : 0 ≤ next b ≤ 2 ^ 19;
  ps_mem q : is_Some (pages_inmem b !! q) → 0 ≤ q < next b;
  ps_live q : 0 ≤ q < next b → is_Some (pages_inmem b !! q) ∨ on_disk (file b) q;
  ps_node q : 0 ≤ q < next b → ∃ n, load_node (view b q) = Some n ∧ page_ok (next b) q n
}.

Lemma page_ok_mono N N' q n : page_ok N q n → N ≤ N' → page_ok N' q n.
Proof.
  intros [H1 [H2 H3] H4 H5] Hle. split; [done| |done..]. split; [done|]. eapply Forall_impl; [done|]. simpl. intros c [?|?]; [by left|right; lia].
Qed.

Lemma page_node_ok N q n : N ≤ 2 ^ 19 → 0 ≤ q < 2 ^ 19 → page_ok N q n → node_ok n.
Proof.
  intros HN Hq [[H1 H2] [H3 H4] H5 H6]. split; try done; [|unfold int_ok; lia].
  eapply Forall_impl; [done|]. simpl. intros c Hc. lia.
Qed.

(** What one step of an insertion keeps. *)
Record grows (b b' : BufferPool) : Prop := {
  gr_ok : pages_ok b';
  gr_next : next b ≤ next b';
  gr_mem q : is_Some (pages_inmem b !! q) → is_Some (pages_inmem b' !! q);
  gr_file : file b' = file b
}.

Lemma grows_refl b : pages_ok b → grows b b.
Proof. intros H. split; [done|lia|done..]. Qed.

Lemma grows_trans b1 b2 b3 : grows b1 b2 → grows b2 b3 → grows b1 b3.
Proof. intros H1 H2. split; [apply H2|pose proof (gr_next _ _ H1); pose proof (gr_next _ _ H2); lia|intros q ?; by apply H2, H1|]. by rewrite (gr_file _ _ H2), (gr_file _ _ H1). Qed.

Lemma deref_ok b q n : pages_ok b → deref b q = Some n → page_ok (next b) q n ∧ is_Some (pages_inmem b !! q).
Proof.
  intros H E. assert (Hm : is_Some (pages_inmem b !! q)) by (unfold deref in E; destruct (pages_inmem b !! q); [by eexists|done]).
  split; [|done]. rewrite deref_view in E by done. destruct (ps_node _ H q (ps_mem _ H q Hm)) as (n' & E' & Hn). congruence.
Qed.

Lemma put_ok b q n b' : pages_ok b → page_ok (next b) q n → put b q n = Some b' → grows b b' ∧ next b' = next b.
Proof.
  intros H Hn. unfold put. destruct (pages_inmem b !! q) as [d|] eqn:E; [|done]. bind_simpl. intros [= <-].
  assert (Hq : 0 ≤ q < next b) by (apply (ps_mem _ H); by rewrite E). pose proof (ps_next _ H) as Hnext.
  destruct (po_pages _ (ps_pool _ H) q d E) as [Hq' Hd].
  destruct (node_roundtrip n d) as (Hload & Hlen & _); [eapply page_node_ok; [| |done]; lia|done|].
  split; [|done]. split; [|unfold next; simpl; lia| |done].
  2: { intros p Hp. apply lookup_insert_is_Some'. by right. }
  split; unfold next, file in *; simpl.
  - split; [apply H|apply H|]. intros p dd. simpl. rewrite lookup_insert_Some. intros [[<- <-]|[_ Ep]]; [|by apply (po_pages _ (ps_pool _ H))].
    split; [lia|]. unfold flen in *. lia.
  - apply H.
  - intros p Hp. apply lookup_insert_is_Some' in Hp as [<-|Hp]; [done|by apply H].
  - intros p Hp. destruct (ps_live _ H p Hp) as [?|?]; [left; apply lookup_insert_is_Some'; by right|by right].
  - intros p Hp. unfold view; simpl. destruct (decide (p = q)) as [->|Hne].
    + rewrite lookup_insert_eq. simpl. eauto.
    + rewrite lookup_insert_ne by done. by apply (ps_node _ H).
Qed.

Lemma GetPage_ok b q b' : pages_ok b → 0 ≤ q < next b → GetPage b q = Some b' → grows b b' ∧ next b' = next b.
Proof.
  intros H Hq E. pose proof (ps_next _ H). destruct (GetPage_spec b q (ps_pool _ H)) as (b1 & E1 & Em & Hs & Hother); [lia|]. simplify_eq.
  pose proof (sp_next _ _ Hs) as Hn. split; [|done]. split; [|lia|apply Hs|apply Hs].
  split; rewrite ?Hn; try apply H; [apply Hs| | |].
  - intros p Hp. destruct (decide (p = q)) as [->|Hne]; [done|]. apply H. by rewrite <-(Hother p Hne).
  - intros p Hp. destruct (ps_live _ H p Hp) as [?|?]; [left; by apply Hs|right]. by rewrite (sp_file _ _ Hs).
  - intros p Hp. rewrite (sp_view _ _ Hs). by apply (ps_node _ H).
Qed.

Lemma child_range N c : N ≤ 2 ^ 19 → c = 2 ^ 32 - 1 ∨ 0 ≤ c < N → 0 ≤ s32 c → 0 ≤ s32 c < N.
Proof. intros HN [->|Hc] H0; [done|]. rewrite swrap_small in *; lia. Qed.

Lemma node_new_ok b pid b' : pages_ok b → btree_node_new b = Some (pid, b') → grows b b' ∧ pid = next b ∧ next b' = next b + 1 ∧
  is_Some (pages_inmem b' !! pid).
Proof.
  intros H. pose proof (ps_next _ H) as Hnext. unfold btree_node_new, NewPage, AllocatePage. fold (next b). rewrite uwrap_small by lia.
  rewrite (swrap_small 32 (next b)) by lia. set (b0 := mkPool _ _).
  assert (Hb0 : pool_ok b0) by (split; apply (ps_pool _ H)).
  destruct (GetPage b0 (next b)) as [b1|] eqn:E1; [|done]. bind_simpl. pose proof (GetPage_range b0 _ b1 Hb0 E1) as Hr.
  destruct (GetPage_spec b0 (next b) Hb0 Hr) as (b1' & E1' & Em & Hs & Hother). rewrite E1 in E1'. injection E1' as <-.
  set (n := Node _ _ _ _ _). destruct (put b1 (next b) n) as [b2|] eqn:E2; [|done]. bind_simpl. intros [= <- <-].
  unfold put in E2. rewrite Em in E2. simpl in E2. injection E2 as <-.
  assert (Hn : page_ok (next b + 1) (next b) n).
  { split; [|..|simpl; lia|done]; (split; [done|]); simpl; repeat constructor; unfold int_ok; lia. }
  assert (Hlen : flen (view b0 (next b)) = PAGE_SIZE) by (by apply flen_view).
  destruct (node_roundtrip n (view b0 (next b))) as (Hload & Hsl & _); [eapply page_node_ok; [| |done]; lia|done|].
  assert (Hn1 : next b1 = next b + 1) by (rewrite (sp_next _ _ Hs); done). assert (Hf1 : file b1 = file b) by (rewrite (sp_file _ _ Hs); done).
  set (b2 := mkPool _ _). assert (Hn2 : next b2 = next b + 1) by (rewrite <-Hn1; done). assert (Hf2 : file b2 = file b) by (rewrite <-Hf1; done).
  assert (Hm2 : pages_inmem b2 = <[next b := store_node (view b0 (next b)) n]> (pages_inmem b1)) by done.
  assert (Hpo : failed (db_io (disk_manager b2)) = false) by apply (sp_ok _ _ Hs). clearbody b2.
  assert (Hmem : ∀ q, q ≠ next b → pages_inmem b2 !! q = pages_inmem b !! q) by (intros q Hq; rewrite Hm2, lookup_insert_ne, Hother by done; done).
  assert (Heq : pages_inmem b2 !! next b = Some (store_node (view b0 (next b)) n)) by (by rewrite Hm2, lookup_insert_eq).
  split_and!; [|done..|by rewrite Heq]. split; [|lia| |done].
  2: { intros q Hq. pose proof (ps_mem _ H q Hq). rewrite Hmem by lia. done. }
  split.
  - split; [done|rewrite Hf2; apply H|]. intros q d E. destruct (decide (q = next b)) as [->|Hne].
    + rewrite Heq in E. simplify_eq. split; [lia|]. unfold flen in *. lia.
    + rewrite Hmem in E by done. by apply (po_pages _ (ps_pool _ H)).
  - lia.
  - intros q Hq. destruct (decide (q = next b)) as [->|Hne]; [lia|]. rewrite Hmem in Hq by done. pose proof (ps_mem _ H q Hq). lia.
  - intros q Hq. destruct (decide (q = next b)) as [->|Hne]; [left; by rewrite Heq|]. rewrite Hmem, Hf2 by done. apply H. lia.
  - intros q Hq. rewrite Hn2. unfold view. destruct (decide (q = next b)) as [->|Hne]; [rewrite Heq; simpl; eauto|].
    rewrite Hmem, Hf2 by done. destruct (ps_node _ H q) as (n' & E' & Hn'); [lia|]. exists n'. split; [done|]. eapply page_ok_mono; [done|lia].
Qed.

(** ** Insertions keep pages well-formed *)

(** The next call of [deref], [put] and the like in the hypothesis that an operation returned. *)
Ltac next_step E :=
  match type of E with
  | (?e ≫= _) = Some _ => let H := fresh "E" in destruct e eqn:H; [|done]; bind_simpl; cbn [mbind option_bind] in E
  end.

Lemma split_child_ok b parent pos child b' : pages_ok b → btree_split_child b parent pos child = Some b' → grows b b'.
Proof.
  intros H E. unfold btree_split_child in E. next_step E. destruct p as [nw b1].
  destruct (node_new_ok b nw b1 H E0) as (G1 & _ & Hn1 & _). pose proof (gr_ok _ _ G1) as H1.
  next_step E. rename b0 into n. destruct (deref_ok _ _ _ H1 E1) as [Pn _]. next_step E. rename b0 into c. destruct (deref_ok _ _ _ H1 E2) as [Pc _].
  next_step E. rename l into nk. assert (Ank : arr 7 int_ok nk).
  { eapply (for_up_inv (arr 7 int_ok)); [|apply Pn|apply E3]. intros i s s'. eapply arr_copy. apply Pc. }
  next_step E. rename l into nc. assert (Anc : arr 8 (λ x, x = 2 ^ 32 - 1 ∨ 0 ≤ x < next b1) nc).
  { destruct (is_leaf c); [simplify_eq; apply Pn|]. eapply (for_up_inv (arr 8 _)); [|apply Pn|apply E4]. intros i s s'. eapply arr_copy. apply Pc. }
  next_step E. rename b0 into b2. destruct (put_ok b1 nw (Node nk nc (M - 1) (is_leaf c) (page_id n)) b2 H1) as [G2 Hn2]; [|done|].
  { split; [done..|simpl; unfold M; lia|apply Pn]. }
  pose proof (gr_ok _ _ G2) as H2. next_step E. rename b0 into c2. destruct (deref_ok _ _ _ H2 E6) as [Pc2 _].
  next_step E. rename b0 into b3. destruct (put_ok b2 child (with_num c2 (M - 1)) b3 H2) as [G3 Hn3]; [|done|].
  { split; [apply Pc2..|simpl; unfold M; lia|apply Pc2]. }
  pose proof (gr_ok _ _ G3) as H3. next_step E. rename b0 into p. destruct (deref_ok _ _ _ H3 E8) as [Pp _].
  next_step E. rename b0 into n3. destruct (deref_ok _ _ _ H3 E9) as [Pn3 Hmn]. pose proof (ps_mem _ H3 _ Hmn) as Hnw. pose proof (ps_next _ H3).
  next_step E. rename l into q. assert (Aq : arr 8 (λ x, x = 2 ^ 32 - 1 ∨ 0 ≤ x < next b3) q).
  { eapply (for_down_inv (arr 8 _)); [|apply Pp|apply E10]. intros i s s'. apply arr_move_up. }
  next_step E. rename l into q1. destruct (arr_aset 8 _ q (pos + 1) (u32 (page_id n3)) q1 Aq) as [Aq1 Hpos]; [|done|].
  { right. rewrite (pk_id _ _ _ Pn3). rewrite uwrap_small by lia. done. }
  next_step E. rename l into l1. assert (Al1 : arr 7 int_ok l1).
  { eapply (for_down_inv (arr 7 _)); [|apply Pp|apply E12]. intros i s s'. apply arr_move_up. }
  next_step E. rename b0 into c3. destruct (deref_ok _ _ _ H3 E13) as [Pc3 _]. next_step E. rename z into x.
  destruct (arr_aget _ _ _ _ _ (pk_keys _ _ _ Pc3) E14) as [Hx _]. next_step E. rename l into l2.
  destruct (arr_aset 7 int_ok l1 pos x l2 Al1 Hx E15) as [Al2 Hpos2].
  destruct (put_ok b3 parent (Node l2 q1 (key_num p + 1) (is_leaf p) (page_id p)) b' H3) as [G4 _]; [|done|].
  - split; [done..| |apply Pp]. simpl. pose proof (pk_num _ _ _ Pp). destruct (decide (key_num p ≤ 6)) as [|Hbig]; [lia|exfalso].
    assert (Hk : key_num p = 7) by lia. rewrite Hk in E10. destruct (Z.to_nat (7 - pos)) as [|m] eqn:Em; [lia|]. cbn [for_down] in E10.
    destruct (move_up 7 (childs p)) as [z|] eqn:Ez; [|done]. unfold move_up in Ez. destruct (aget (childs p) 7) as [y|]; [|done].
    cbn [mbind option_bind] in Ez. apply aset_inv in Ez as [Hz _]. destruct (pk_childs _ _ _ Pp) as [Hl _]. lia.
  - eapply grows_trans; [done|]. eapply grows_trans; [done|]. by eapply grows_trans.
Qed.

Lemma insert_nonfull_ok fuel : ∀ b node target b', int_ok target → pages_ok b → btree_insert_nonfull fuel b node target = Some b' → grows b b'.
Proof.
  induction fuel as [|fuel IH]; intros b node target b' Ht H E; [done|]. cbn [btree_insert_nonfull] in E. next_step E. rename b0 into n.
  destruct (deref_ok _ _ _ H E0) as [Pn _]. destruct (is_leaf n).
  - next_step E. destruct p as [l pos]. destruct (arr_leaf_shift 7 int_ok target _ _ _ _ (pk_keys _ _ _ Pn) E1) as (Al & Hle & Hpos).
    next_step E. rename l0 into l1. destruct (arr_aset 7 int_ok l _ target l1 Al Ht E2) as [Al1 Hp].
    eapply put_ok; [done| |done]. pose proof (pk_num _ _ _ Pn). split; [done|apply Pn|simpl; lia|apply Pn].
  - next_step E. next_step E. rename z into c. destruct (arr_aget _ _ _ _ _ (pk_childs _ _ _ Pn) E2) as [Hc _].
    next_step E. rename b0 into b1. pose proof (ps_next _ H). pose proof (GetPage_range _ _ _ (ps_pool _ H) E3) as Hr.
    destruct (GetPage_ok b (s32 c) b1 H) as [G1 _]; [apply child_range; [lia|done|lia]|done|]. pose proof (gr_ok _ _ G1) as H1.
    next_step E. rename b0 into cn. next_step E. rename b0 into b2. assert (G2 : grows b1 b2).
    { destruct (2 * M - 1 =? key_num cn); [by eapply split_child_ok|]. simplify_eq. by apply grows_refl. }
    eapply grows_trans; [done|]. eapply grows_trans; [done|]. eapply IH; [done| |done]. apply G2.
Qed.

Lemma insert_ok fuel b root target r b' : int_ok target → pages_ok b → btree_insert fuel b root target = Some (r, b') →
  grows b b' ∧ is_Some (pages_inmem b' !! r).
Proof.
  intros Ht H E. unfold btree_insert in E. next_step E. rename b0 into rn. destruct (deref_ok _ _ _ H E0) as [Pr Hm]. destruct (2 * M - 1 =? key_num rn).
  - next_step E. destruct p as [node b1]. destruct (node_new_ok b node b1 H E1) as (G1 & _ & Hn1 & Hnm). pose proof (gr_ok _ _ G1) as H1.
    next_step E. rename b0 into n. destruct (deref_ok _ _ _ H1 E2) as [Pn _]. pose proof (ps_next _ H1). pose proof (ps_mem _ H _ Hm) as Hroot.
    next_step E. rename l into cs. destruct (arr_aset 8 _ (childs n) 0 (u32 (page_id rn)) cs (pk_childs _ _ _ Pn)) as [Acs _]; [|done|].
    { right. rewrite (pk_id _ _ _ Pr), uwrap_small by lia. lia. }
    next_step E. rename b0 into b2. destruct (put_ok b1 node (with_childs (with_leaf n false) cs) b2 H1) as [G2 _]; [split; [apply Pn|done|apply Pn|apply Pn]|done|].
    next_step E. rename b0 into b3. pose proof (split_child_ok _ _ _ _ _ (gr_ok _ _ G2) E5) as G3.
    next_step E. rename b0 into b4. pose proof (insert_nonfull_ok _ _ _ _ _ Ht (gr_ok _ _ G3) E6) as G4. simplify_eq.
    split; [|by apply G4, G3, G2]. eapply grows_trans; [done|]. eapply grows_trans; [done|]. by eapply grows_trans.
  - next_step E. rename b0 into b1. pose proof (insert_nonfull_ok _ _ _ _ _ Ht H E1) as G. simplify_eq. split; [done|by apply G].
Qed.

(** ** Histories *)

(** What a program does with a database: inserting, searching, flushing, and flushing before the database is
    closed and opened again. (Deleting is not part of it: see [simpledb_delete_breaks_node].) *)
Inductive op := OInsert (x : Z) | OFind (x : Z) | OFlush (order : list Z) | OReopen (order order' : list Z) (log : list Z).

Definition exec (fuel : nat) (d : DB) (o : op) : option DB :=
  match o with
  | OInsert x => Insert fuel d x
  | OFind x => snd <$> Find fuel d x
  | OFlush order => Flush order d
  | OReopen order order' log => d ← Flush order d; DB_open (DB_close order' d) log
  end.

(** Keys are integers, flushing covers all pages in memory, and the file stays below 2 GiB. *)
Definition op_ok (d : DB) (o : op) : Prop :=
  match o with
  | OInsert x => int_ok x
  | OFind _ => True
  | OFlush order | OReopen order _ _ =>
      (∀ q, is_Some (pages_inmem (pool d) !! q) → q ∈ order) ∧ flen (file (pool d)) + 8 < 2 ^ 31 ∧ next (pool d) ≤ page_limit
  end.

Inductive history (fuel : nat) : DB → Prop :=
  | history_new log d : DB_open [] log = Some d → history fuel d
  | history_step d o d' : history fuel d → op_ok d o → exec fuel d o = Some d' → history fuel d'.

Definition well_formed (d : DB) : Prop := pages_ok (pool d) ∧ is_Some (pages_inmem (pool d) !! roots d).

Lemma well_formed_db_ok d : well_formed d → next (pool d) ≤ page_limit → db_ok (λ q, 0 ≤ q < next (pool d)) d.
Proof.
  intros [H Hr] Hl. pose proof (ps_next _ H) as Hn. pose proof (ps_mem _ H _ Hr) as Hroot. unfold page_limit in *. split.
  - apply H.
  - intros q Hq. split; [lia|]. destruct (ps_node _ H q Hq) as (n & E & Pn). exists n. split; [done|]. intros c Hc H0.
    destruct (pk_childs _ _ _ Pn) as [_ Hall]. rewrite Forall_forall in Hall. apply child_range; [lia|by apply Hall|done].
  - done.
  - destruct (ps_node _ H _ Hroot) as (n & E & Pn). exists n. split; [done|apply Pn].
  - apply H.
  - intros q Hq. pose proof (ps_mem _ H q Hq). unfold page_limit. lia.
  - lia.
Qed.

Lemma find_grows fuel : ∀ b p key r b', pages_ok b → (∀ q, p = Some q → is_Some (pages_inmem b !! q)) →
  find_from fuel b p key = Some (r, b') → grows b b'.
Proof.
  induction fuel as [|fuel IH]; intros b [q|] key r b' H Hp E; [done|..|].
  1,3: by injection E as <- <-; apply grows_refl.
  cbn [find_from] in E. next_step E. rename b0 into n. destruct (deref_ok _ _ _ H E0) as [Pn _].
  assert (Hnode : ∀ i, (c ← aget (childs n) i; x ← BTREE_NODE b c; find_from fuel x.2 x.1 key) = Some (r, b') → grows b b').
  { intros i Ei. next_step Ei. rename z into c. destruct (arr_aget _ _ _ _ _ (pk_childs _ _ _ Pn) E1) as [Hc _].
    unfold BTREE_NODE in Ei. destruct (Z.ltb_spec (s32 c) 0) as [|H0]; [eapply IH; [done| |done]; done|].
    destruct (GetPage b (s32 c)) as [b1|] eqn:E2; [|done]. cbn [mbind option_bind fst snd] in Ei. pose proof (ps_next _ H).
    assert (Hr : 0 ≤ s32 c < next b) by (apply child_range; [lia|done|lia]). destruct (GetPage_ok b (s32 c) b1 H Hr E2) as [G1 _].
    eapply grows_trans; [done|]. eapply IH; [apply G1| |done]. intros p [= <-]. pose proof (ps_pool _ H) as Hpo.
    destruct (GetPage_spec b (s32 c) Hpo) as (b2 & E3 & Em & _); [lia|]. simplify_eq. by rewrite Em. }
  next_step E. destruct (key <? z); [by eapply Hnode|]. next_step E. next_step E. destruct b0; [|by eapply Hnode].
  injection E as <- <-. by apply grows_refl.
Qed.

Lemma exec_well_formed fuel d o d' : well_formed d → op_ok d o → exec fuel d o = Some d' → well_formed d'.
Proof.
  intros Hwf Ho E. pose proof Hwf as [H Hr]. destruct o as [x|x|order|order order' log]; simpl in *.
  - unfold Insert in E. next_step E. destruct p as [r b']. next_step E. simplify_eq. destruct (insert_ok _ _ _ _ _ _ Ho H E0) as [G Hm]. split; [apply G|done].
  - unfold Find in E. destruct (find_from fuel (pool d) (Some (roots d)) x) as [[r b']|] eqn:E0; [|done]. simpl in E. simplify_eq.
    assert (G : grows (pool d) b') by (eapply find_grows; [done| |done]; by intros q [= <-]). split; [apply G|by apply G].
  - destruct Ho as (Hall & Hs & Hl). destruct (Flush_spec _ d order (well_formed_db_ok d Hwf Hl) Hs Hall)
      as (d1 & l & E1 & _ & Hsz & Hm & Hf & Hn & Hroot & Hon). simplify_eq. split; [|by rewrite Hm, Hroot].
    assert (Hv : ∀ q, 0 ≤ q < next (pool d) → view (pool d') q = view (pool d) q).
    { intros q Hq. destruct (Hon q (or_introl Hq)) as [Ho Hr']. unfold view at 1. rewrite Hm.
      destruct (pages_inmem (pool d) !! q) as [dd|] eqn:Eq; simpl; [unfold view; by rewrite Eq|]. by rewrite disk_page_on. }
    split; rewrite ?Hn, ?Hm; try apply H.
    + split; [done|done|]. rewrite Hm. apply (ps_pool _ H).
    + intros q Hq. right. by apply Hon; left.
    + intros q Hq. rewrite Hv by done. by apply (ps_node _ H).
  - destruct Ho as (Hall & Hs & Hl). destruct (recovers _ d order order' log (well_formed_db_ok d Hwf Hl) Hs Hall)
      as (d1 & d2 & E1 & E2 & Hroot & Hn & H2 & Hv & Hmem). rewrite E1 in E. simpl in E. rewrite E2 in E. simplify_eq.
    pose proof (ps_next _ H). split; [|apply H2]. split; rewrite ?Hn; [apply H2|done| | |].
    + intros q ->%Hmem. by apply (ps_mem _ H).
    + intros q Hq. by apply (do_live _ _ H2).
    + intros q Hq. rewrite Hv by done. by apply (ps_node _ H).
Qed.

Lemma history_well_formed fuel d : history fuel d → well_formed d.
Proof.
  induction 1 as [log d E|d o d' _ IH Ho E]; [|by eapply exec_well_formed].
  unfold DB_open, BTree_new in E. change (GetFileSize _) with 0 in E. cbn [Z.leb Z.compare] in E. next_step E. destruct p as [r b]. simplify_eq.
  destruct (node_new_ok (BufferPool_new [] log) r b) as (G & _ & _ & Hm); [|done|split; [apply G|done]].
  split.
  - split; [done..|]. intros q d. cbn [pages_inmem BufferPool_new]. by rewrite lookup_empty.
  - change (next (BufferPool_new [] log)) with 0. lia.
  - intros q. simpl. rewrite lookup_empty. by intros [? ?].
  - change (next (BufferPool_new [] log)) with 0. lia.
  - change (next (BufferPool_new [] log)) with 0. lia.
Qed.

(** C26 [type]. Through any history of insertions, searches, flushes, and closings and reopenings right after a flush, from an
    empty file, every allocated page, in memory or on disk, is a node with seven keys that are integers and eight children, each of
    which is absent or an allocated page, with at most seven keys in use and with its own identifier; the root is one of these
    pages. A flush writes all pages in memory, in any order, and happens below [2^19] pages and 2 GiB. Not covered, because it does
    not hold: deletions (one of an absent key can make the number of keys negative) and closing without a flush (the root is lost). *)
Theorem simpledb_pages_well_formed fuel d : history fuel d →
  0 ≤ roots d < next (pool d) ∧
  ∀ q, 0 ≤ q < next (pool d) → ∃ n, load_node (view (pool d) q) = Some n ∧ page_id n = q ∧ 0 ≤ key_num n ≤ 2 * M - 1 ∧
    length (k n) = 7%nat ∧ Forall int_ok (k n) ∧ length (childs n) = 8%nat ∧ Forall (λ c, c = 2 ^ 32 - 1 ∨ 0 ≤ c < next (pool d)) (childs n).
Proof.
  intros [H Hr]%history_well_formed. split; [by apply (ps_mem _ H)|]. intros q Hq. destruct (ps_node _ H q Hq) as (n & E & [[? ?] [? ?] ? ?]).
  exists n. split_and!; try done; unfold M; lia.
Qed.

(** C25 [roundtrip]. A database that was made from an empty file by insertions, searches, flushes, and closings and reopenings right
    after a flush (no deletions), and is flushed, closed and opened again, gives the same answer to every search as before, and
    allocates the same pages next, whatever the order in which the pages are written, as long as it has fewer than [2^19] pages and
    its file is smaller than 2 GiB. *)
Theorem simpledb_recovers fuel d order order' log : history fuel d → op_ok d (OReopen order order' log) →
  ∃ d', exec fuel d (OReopen order order' log) = Some d' ∧ NextPageId (disk_manager (pool d')) = NextPageId (disk_manager (pool d)) ∧
    ∀ fuel' key, found fuel' d' key = found fuel' d key.
Proof.
  intros Hwf%history_well_formed (Hall & Hs & Hl). pose proof (well_formed_db_ok d Hwf Hl) as Hok.
  destruct (recovers _ d order order' log Hok Hs Hall) as (d1 & d2 & E1 & E2 & Hroot & Hn & H2 & Hv & _).
  exists d2. simpl. rewrite E1. simpl. split; [done|]. split; [done|]. intros fuel' key. unfold found, Find.
  pose proof (find_same (λ q, 0 ≤ q < next (pool d)) fuel' (pool d) (pool d2) (Some (roots d)) key (do_pool _ _ Hok) (do_pool _ _ H2) (do_closed _ _ Hok) Hv) as Hf.
  rewrite Hroot. destruct (do_root _ _ Hok) as [HP Hm]. destruct (do_root _ _ H2) as [_ Hm2]. rewrite Hroot in Hm2.
  specialize (Hf ltac:(by intros q [= <-]) ltac:(by intros q [= <-])).
  destruct (find_from fuel' (pool d) _ key) as [[? ?]|], (find_from fuel' (pool d2) _ key) as [[? ?]|]; simpl in *; congruence.
Qed.

(** The test of src/app/simpleDB/db_test.cc, with its deletions, before and after the recovery. *)
Theorem simpledb_test_recovers :
  (d ← DB_open [] []; d ← inserts 10 d [18; 31; 12; 10; 15; 48; 45; 47; 50; 52; 23; 30; 20];
   d ← deletes 10 d [15; 18; 23; 30; 31; 52; 50]; d ← Flush (seqZ 0 10) d; d' ← DB_open (DB_close (seqZ 0 10) d) [];
   Some (found 10 d <$> [15; 30; 50], found 10 d' <$> [20; 12; 10; 47; 48; 15; 30; 50])) =
  Some (Some <$> [false; false; false], Some <$> [true; true; true; true; true; false; false; false]).
Proof. vm_compute. reflexivity. Qed.

(** A deletion of a key that is not there compares it with a stale cell: in an empty database, deleting 0 makes the
    number of keys of the root negative. *)
Theorem simpledb_delete_breaks_node :
  (d ← DB_open [] []; d ← Delete 9 d 0; n ← deref (pool d) (roots d); Some (key_num n)) = Some (-1).
Proof. vm_compute. reflexivity. Qed.

(** A database that is closed without a flush has its pages in the file, but not its root: after 9 insertions it is opened
    with the page 0 as its root and as the next page to allocate, and the key 9 is lost. *)
Theorem simpledb_close_without_flush :
  (d ← DB_open [] []; d ← inserts 10 d (seqZ 1 9); d' ← DB_open (DB_close (seqZ 0 3) d) [];
   Some (found 10 d 9, roots d', NextPageId (disk_manager (pool d')), found 10 d' 9)) = Some (Some true, 0, 0, Some false).
Proof. vm_compute. reflexivity. Qed.

(** Keys get lost: after the numbers from 1 to 16 are inserted, a search does not find 12,
    because it was put into the left half of a child that had been split. *)
Theorem simpledb_insert_loses_key :
  (d ← DB_open [] []; d ← inserts 10 d (seqZ 1 16); Some (found 10 d 11, found 10 d 12)) = Some (Some true, Some false).
Proof. vm_compute. reflexivity. Qed.

(** ** An example *)

Definition demo_db : option DB := d ← DB_open [] []; inserts 10 d (seqZ 1 9).

Definition demo_d : DB := default (mkDB (BufferPool_new [] []) 0 0) demo_db.

Lemma inserts_history fuel l : ∀ d d', Forall int_ok l → history fuel d → inserts fuel d l = Some d' → history fuel d'.
Proof.
  unfold inserts. induction l as [|x l IH] using rev_ind; intros d d' Hl Hd E; [by simplify_eq/=|].
  apply Forall_app in Hl as [Hl [Hx _]%Forall_cons]. rewrite foldl_app in E. simpl in E.
  destruct (foldl _ _ l) as [d1|] eqn:E1; [|done]. eapply (history_step _ d1 (OInsert x)); [by eapply IH|done|done].
Qed.

Lemma demo_db_some : demo_db = Some demo_d.
Proof.
  assert (H : (if demo_db is Some _ then true else false) = true) by (vm_compute; reflexivity).
  unfold demo_d. by destruct demo_db.
Qed.

Lemma demo_history : history 10 demo_d.
Proof.
  pose proof demo_db_some as E. unfold demo_db in E. destruct (DB_open [] []) as [d|] eqn:E0; [|done].
  eapply (inserts_history 10 (seqZ 1 9)); [|by eapply (history_new 10 [])|exact E].
  apply Forall_forall. intros x Hx%elem_of_seqZ. unfold int_ok. lia.
Qed.

Lemma node_roundtrip_witness : load_node (store_node (replicate 4096 9) (Node [1; -2; 3; 4; 5; 6; 7] [0; 1; 2; 3; 4; 5; 6; 7] 3 false 8)) =
  Some (Node [1; -2; 3; 4; 5; 6; 7] [0; 1; 2; 3; 4; 5; 6; 7] 3 false 8).
Proof.
  apply (node_roundtrip (Node [1; -2; 3; 4; 5; 6; 7] [0; 1; 2; 3; 4; 5; 6; 7] 3 false 8)); [|done].
  split; simpl; try done; unfold int_ok, M; repeat constructor; lia.
Defined.

Lemma simpledb_pages_well_formed_witness : 0 ≤ roots demo_d < next (pool demo_d) ∧ next (pool demo_d) = 3.
Proof. split; [exact (proj1 (simpledb_pages_well_formed 10 demo_d demo_history))|vm_compute; reflexivity]. Defined.

Lemma simpledb_recovers_witness : ∃ d', exec 10 demo_d (OReopen [2; 0; 1] [0; 1; 2] []) = Some d' ∧ found 10 d' 5 = Some true.
Proof.
  destruct (simpledb_recovers 10 demo_d [2; 0; 1] [0; 1; 2] [] demo_history) as (d' & E & _ & Hf).
  - split; [|split; vm_compute; done]. intros q Hq. apply elem_of_dom in Hq.
    assert (Hd : bool_decide (dom (pages_inmem (pool demo_d)) = {[0; 1; 2]}) = true) by (vm_compute; reflexivity).
    apply bool_decide_eq_true in Hd. rewrite Hd in Hq. clear -Hq. set_solver.
  - exists d'. split; [exact E|]. rewrite Hf. vm_compute. reflexivity.
Defined.
