(* ===== verification/PageCache.v ===== *)
(** * The page cache (src/cpp-util/page_cache.h)

    Pages of a file in memory, found through the sharded LRU cache (LruCache) and loaded and written through
    the disk manager (Disk).  A pointer to a page is a number: below [total_pages] an element of
    [pages_], else memory from the arena, whose contents before the first use are [junk_page].  The LRU
    cache records the calls of its deleter; [callbacks] runs them when the operation that made
    them returns, in their order.  A handle is the shard and the address of an entry. *)

From S2P Require Import Prelude Coding LruTable LruCache Disk.

(** src/cpp-util/page.h:42-44, [Page]. *)
Record Page := mkPage { data_ : list Z; page_id_ : Z; is_dirty_ : bool }.

(** src/cpp-util/page_cache.h:116-124, [PageCache]. [arena_next] and [entry_next] are the pages and the entries that will
    be allocated next. *)
Record PageCache := mkPC {
  total_pages_ : Z; pages_ : gmap Z Page; disk_manager_ : DiskManager; cache_ : list LRUCache;
  free_list_ : list Z; arena_next : Z; entry_next : Z
}.

Definition set_page (c : PageCache) p pg := mkPC (total_pages_ c) (<[p := pg]> (pages_ c)) (disk_manager_ c) (cache_ c) (free_list_ c) (arena_next c) (entry_next c).
Definition set_disk (c : PageCache) m := mkPC (total_pages_ c) (pages_ c) m (cache_ c) (free_list_ c) (arena_next c) (entry_next c).
Definition set_cache (c : PageCache) s := mkPC (total_pages_ c) (pages_ c) (disk_manager_ c) s (free_list_ c) (arena_next c) (entry_next c).
Definition set_free (c : PageCache) l := mkPC (total_pages_ c) (pages_ c) (disk_manager_ c) (cache_ c) l (arena_next c) (entry_next c).
Definition set_arena (c : PageCache) n := mkPC (total_pages_ c) (pages_ c) (disk_manager_ c) (cache_ c) (free_list_ c) n (entry_next c).
Definition set_entry (c : PageCache) n := mkPC (total_pages_ c) (pages_ c) (disk_manager_ c) (cache_ c) (free_list_ c) (arena_next c) n.

Section cache.
Context (junk_page : Page) (junk_entry : LRUEntry).

(** src/cpp-util/page.h:16-16, [Page::Page]. *)
Definition Page_new : Page := mkPage (replicate (Z.to_nat PAGE_SIZE) 0) (2 ^ 32 - 1) false.

(** src/cpp-util/page_cache.h:15-26, [PageCache::PageCache]. *)
Definition PageCache_new (total_pages : Z) (m : DiskManager) : option PageCache :=
  s ← Sharded_new total_pages;
  let ids := seqZ 0 total_pages in
  Some (mkPC total_pages (list_to_map ((λ p, (p, Page_new)) <$> ids)) m s ids total_pages 3).

(** src/cpp-util/page_cache.h:105-115, [PageCache::DeletePageCallBack]. *)
Definition DeletePageCallBack (c : PageCache) (val : Z) : option PageCache :=
  pg ← pages_ c !! val;
  let c := if is_dirty_ pg then set_disk c (WritePage (disk_manager_ c) (page_id_ pg) (data_ pg)) else c in
  let c := set_page c val (mkPage (replicate (Z.to_nat PAGE_SIZE) 0) (page_id_ pg) (is_dirty_ pg)) in
  Some (set_free c (free_list_ c ++ [val])).

(** The calls of the deleter that an operation on the shards added. *)
Definition new_deletes (s s' : list LRUCache) : list Z :=
  concat (zip_with (λ x x', snd <$> drop (length (deleted x)) (deleted x')) s s').
Definition callbacks (c : PageCache) (s' : list LRUCache) : option PageCache :=
  foldl (λ c v, c ← c; DeletePageCallBack c v) (Some (set_cache c s')) (new_deletes (cache_ c) s').

(** [Slice((char * )&page_id, 4)]. *)
Definition page_key (page_id : Z) : Slice.Slice := EncodeFixed32 page_id.

(** src/cpp-util/page_cache.h:51-77, [PageCache::FetchPage]. *)
Definition FetchPage (c : PageCache) (page_id : Z) : option (Z * ptr * PageCache) :=
  let key := page_key page_id in
  hs ← HashSlice key;
  r ← sharded_Lookup (cache_ c) key;
  let '(ent, s) := r : ptr * list LRUCache in
  c ← callbacks c s;
  if negb (ent =? nullptr) then Some (Shard hs, ent, c) else
  let '(pg, c) :=
    match free_list_ c with
    | p :: l => (p, set_free c l)
    | [] => (arena_next c, set_arena (set_page c (arena_next c) junk_page) (arena_next c + 1))
    end in
  page ← pages_ c !! pg;
  let '(d, m) := ReadPage (disk_manager_ c) page_id (data_ page) in
  let c := set_disk (set_page c pg (mkPage d page_id (is_dirty_ page))) m in
  r ← sharded_Insert junk_entry (cache_ c) key pg (entry_next c);
  let '(ent, s) := r : ptr * list LRUCache in
  c ← callbacks (set_entry c (entry_next c + 1)) s;
  Some (Shard hs, ent, c).

(** [ent->value]. *)
Definition entry_page (c : PageCache) (h : Z * ptr) : option Z :=
  x ← aget (cache_ c) h.1; e ← hp x !! h.2; Some (value e).

(** src/cpp-util/page_cache.h:78-83, [PageCache::ReleasePage]. *)
Definition ReleasePage (c : PageCache) (h : Z * ptr) (is_dirty : bool) : option PageCache :=
  p ← entry_page c h; pg ← pages_ c !! p;
  let c := set_page c p (mkPage (data_ pg) (page_id_ pg) is_dirty) in
  s ← sharded_Release (cache_ c) h.1 h.2;
  callbacks c s.

(** [memcpy] into a page, inside of it. *)
Definition splice (d : list Z) (off : Z) (x : list Z) : list Z :=
  take (Z.to_nat off) d ++ x ++ drop (Z.to_nat off + length x) d.

(** src/cpp-util/page_cache.h:31-39, [PageCache::WritePage]. *)
Definition cache_WritePage (c : PageCache) (lba off : Z) (data : list Z) : option (bool * PageCache) :=
  r ← FetchPage c lba;
  let '(h, c) := r : (Z * ptr) * PageCache in
  p ← entry_page c h; pg ← pages_ c !! p;
  if PAGE_SIZE <=? u64 (off + flen data) then Some (false, c) else
  let c := set_page c p (mkPage (splice (data_ pg) off data) (page_id_ pg) (is_dirty_ pg)) in
  c ← ReleasePage c h true;
  Some (true, c).

(** src/cpp-util/page_cache.h:40-48, [PageCache::ReadPage]. The result is a pointer into a page; [bytes_at] is what
    it points at. *)
Definition cache_ReadPage (c : PageCache) (lba off : Z) : option (option (Z * Z) * PageCache) :=
  r ← FetchPage c lba;
  let '(h, c) := r : (Z * ptr) * PageCache in
  p ← entry_page c h;
  if PAGE_SIZE <=? off then Some (None, c) else
  c ← ReleasePage c h false;
  Some (Some (p, off), c).
Definition bytes_at (c : PageCache) (ptr : Z * Z) (n : nat) : option (list Z) :=
  pg ← pages_ c !! ptr.1; Some (take n (drop (Z.to_nat ptr.2) (data_ pg))).

(** src/cpp-util/page_cache.h:84-91, [PageCache::FlushPage]. *)
Definition FlushPage (c : PageCache) (p : Z) : option (bool * PageCache) :=
  pg ← pages_ c !! p;
  if is_dirty_ pg then
    let c := set_disk c (WritePage (disk_manager_ c) (page_id_ pg) (data_ pg)) in
    Some (true, set_page c p (mkPage (data_ pg) (page_id_ pg) false))
  else Some (false, c).

(** src/cpp-util/page_cache.h:93-96, [PageCache::DeletePage]. *)
Definition DeletePage (c : PageCache) (page_id : Z) : option PageCache :=
  s ← sharded_Erase (cache_ c) (page_key page_id); callbacks c s.

(** src/cpp-util/page_cache.h:97-101, [PageCache::FlushAllPages]. *)
Definition FlushAllPages (c : PageCache) : option PageCache :=
  foldl (λ c i, c ← c; x ← FlushPage c i; Some x.2) (Some c) (seqZ 0 (total_pages_ c)).

(** src/cpp-util/page_cache.h:103-103, [PageCache::PageInCacheNum]. *)
Definition PageInCacheNum (c : PageCache) : Z := sharded_TotalElem (cache_ c).

(** ** What reaches the disk *)

(** Deleting a page of the cache brings its contents to disk when it is marked dirty, and its memory back to the free list; other
    pages on disk stay as they are. *)
Theorem delete_callback_writes c p pg : pages_ c !! p = Some pg → failed (db_io (disk_manager_ c)) = false → flen (data_ pg) = PAGE_SIZE → 0 ≤ page_id_ pg →
  ∃ c', DeletePageCallBack c p = Some c' ∧ free_list_ c' = free_list_ c ++ [p] ∧
    let l := content (db_io (disk_manager_ c)) in let l' := content (db_io (disk_manager_ c')) in
    (if is_dirty_ pg then on_disk l' (page_id_ pg) ∧ region l' (page_id_ pg) = data_ pg else l' = l) ∧
    ∀ q, q ≠ page_id_ pg → on_disk l q → on_disk l' q ∧ region l' q = region l q.
Proof.
  intros E Hf Hd Hp. unfold DeletePageCallBack. rewrite E. bind_simpl. eexists. split; [done|].
  destruct (WritePage_spec (disk_manager_ c) (page_id_ pg) (data_ pg) Hf Hp) as (Hc & _).
  destruct (overwrite_page (content (db_io (disk_manager_ c))) (page_id_ pg) (data_ pg) Hp Hd) as (H1 & H2 & H3).
  destruct (is_dirty_ pg); cbn [free_list_ disk_manager_ set_free set_page set_disk]; rewrite ?Hc; auto.
Qed.
End cache.

(** ** Writes that are lost *)

Definition demo_junk : Page := mkPage (replicate 4096 0) 0 false.
Definition demo_entry : LRUEntry := mkEntry 0 0 0 0 0 0 false [].

(** The byte at the beginning of page [lba]. *)
Definition read_byte (c : PageCache) (lba : Z) : option (list Z * PageCache) :=
  r ← cache_ReadPage demo_junk demo_entry c lba 0;
  p ← r.1; x ← bytes_at r.2 p 1; Some (x, r.2).

(** The pages [l] are looked at one after the other. *)
Definition touch (c : PageCache) (l : list Z) : option PageCache :=
  foldl (λ c i, c ← c; x ← read_byte c i; Some x.2) (Some c) l.

(** A cache of 16 pages over a file of 6 pages of zeros; pages 1 and 5 are in the same shard, which
    has room for one page. *)
Definition demo_start : option PageCache :=
  PageCache_new 16 (DiskManager_new (replicate (6 * 4096) 0) []).

(** A write is lost when the page is read before it is evicted: releasing a page that was only read
    marks it clean, although it holds bytes that are not on disk. Without the read the bytes are
    written when the page is evicted, and are read back. *)
Theorem pagecache_read_loses_write :
  (c ← demo_start;
   x ← cache_WritePage demo_junk demo_entry c 1 0 [7];
   kept ← (c ← touch x.2 [5]; r ← read_byte c 1; Some r.1);
   r ← read_byte x.2 1;
   lost ← (c ← touch r.2 [5]; r ← read_byte c 1; Some r.1);
   Some (x.1, kept, r.1, lost)) = Some (true, [7], [7], [0]).
Proof. vm_compute. reflexivity. Qed.
