(* ===== verification/SimpleKv.v ===== *)
(** * SimpleKV: a server for keys and values, and its client (src/app/simpleKV)

    Strings are lists of bytes.  RocksDB is a class [RocksDB] with the documented behaviour of its three operations, each of which may fail.
    The server keeps every pair it has seen in a hash map in front of it.  [handle_req] is modelled twice: as a
    function, for requests that come one after the other, and as steps of the threads of the pool, where a
    critical section of [store_lock] and a call of RocksDB are one step each. *)

From S2P Require Import Prelude.

Abbreviation bytes := (list Z).

(** ** RocksDB *)

Class RocksDB := {
  rdb : Type;
  contents : rdb → gmap bytes bytes;
  db_Put : rdb → bytes → bytes → bool * rdb;
  db_Get : rdb → bytes → bool * bytes;
  db_Delete : rdb → bytes → bool * rdb
}.

(** A call that reports success has its effect; a call that fails has none. [Get] fails for keys that are not there. *)
Class RocksDBLaws `{RocksDB} := {
  put_law d k v : let '(ok, d') := db_Put d k v in contents d' = if ok : bool then <[k := v]> (contents d) else contents d;
  delete_law d k : let '(ok, d') := db_Delete d k in contents d' = if ok : bool then delete k (contents d) else contents d;
  get_law d k : let '(ok, v) := db_Get d k in if ok : bool then contents d !! k = Some v else True;
  get_absent d k : contents d !! k = None → (db_Get d k).1 = false
}.

(** src/app/simpleKV/simplekv_server.cc:32-32, [MAX_LINE]. *)
Definition MAX_LINE : Z := 2048.

Definition blen (l : bytes) : Z := Z.of_nat (length l).

(** ** [sscanf] with [%s]

    White space is skipped, and the characters up to the next white space are a word. The string ends at its
    first zero byte. *)

Definition is_space (c : Z) : bool := (c =? 32) || ((9 <=? c) && (c <=? 13)).

Fixpoint skip_space (s : bytes) : bytes :=
  match s with c :: s' => if is_space c then skip_space s' else s | [] => [] end.
Fixpoint span_word (s : bytes) : bytes * bytes :=
  match s with
  | c :: s' => if is_space c then ([], s) else let '(w, r) := span_word s' in (c :: w, r)
  | [] => ([], [])
  end.
Fixpoint c_str (s : bytes) : bytes :=
  match s with c :: s' => if c =? 0 then [] else c :: c_str s' | [] => [] end.

(** At most [n] words. *)
Fixpoint scan (n : nat) (s : bytes) : list bytes :=
  match n with
  | O => []
  | S n =>
      match skip_space s with
      | [] => []
      | s => let '(w, r) := span_word s in w :: scan n r
      end
  end.

Definition str_PUT : bytes := [80; 85; 84].
Definition str_put : bytes := [112; 117; 116].
Definition str_GET : bytes := [71; 69; 84].
Definition str_get : bytes := [103; 101; 116].
Definition str_DEL : bytes := [68; 69; 76].
Definition str_del : bytes := [100; 101; 108].
Definition INVALID : bytes := [73; 78; 86; 65; 76; 73; 68].
Definition SUCCESS : bytes := [83; 85; 67; 67; 69; 83; 83].
Definition FAIL : bytes := [70; 65; 73; 76].

(** A request, after the comparisons and scans at the head of each branch. *)
Inductive request := Put (key value : bytes) | Get (key : bytes) | Del (key : bytes) | Invalid.

(** src/app/simpleKV/simplekv_server.cc:97-107, [handle_req (format)]. And the scans of the other
    branches. *)
Definition parse (recvbuf : bytes) : request :=
  let s := c_str recvbuf in
  match scan 1 s with
  | op :: _ =>
      if bool_decide (op = str_PUT) || bool_decide (op = str_put) then
        match scan 3 s with [_; key; value] => Put key value | _ => Invalid end
      else if bool_decide (op = str_GET) || bool_decide (op = str_get) then
        match scan 2 s with [_; key] => Get key | _ => Invalid end
      else if bool_decide (op = str_DEL) || bool_decide (op = str_del) then
        match scan 2 s with [_; key] => Del key | _ => Invalid end
      else Invalid
  | [] => Invalid
  end.

Section server.
Context `{RocksDB}.

(** src/app/simpleKV/simplekv_server.cc:55-60, [server]. The members that requests use. *)
Record server := mkServer { store : gmap bytes bytes; db : rdb }.

(** [sprintf(res, "%s", v)] into an array of [MAX_LINE] characters. *)
Definition print (v : bytes) : option bytes := if blen v <? MAX_LINE then Some v else None.

(** src/app/simpleKV/simplekv_server.cc:95-161, [handle_req]. The text in [sendbuf]. *)
Definition handle_req (s : server) (recvbuf : bytes) : option (bytes * server) :=
  match parse recvbuf with
  | Put key value =>
      let '(ok, d) := db_Put (db s) key value in
      Some (if ok then SUCCESS else FAIL, mkServer (<[key := value]> (store s)) d)
  | Get key =>
      match store s !! key with
      | Some v => r ← print v; Some (r, s)
      | None =>
          let '(ok, v) := db_Get (db s) key in
          if ok : bool then r ← print v; Some (r, mkServer (<[key := v]> (store s)) (db s)) else Some (FAIL, s)
      end
  | Del key =>
      let '(ok, d) := db_Delete (db s) key in
      Some (if ok then SUCCESS else FAIL, mkServer (delete key (store s)) d)
  | Invalid => Some (INVALID, s)
  end.

(** src/app/simpleKV/simplekv_server.cc:163-181, [process_read]. [data] is what [read] returns; the result is what
    is sent back, if anything. [recvbuf] has [MAX_LINE] characters. *)
Definition process_read (s : server) (data : bytes) : option (option bytes * server) :=
  if blen data <=? 0 then Some (None, s) else
  if MAX_LINE <=? blen data then None else
  r ← handle_req s data; Some (Some r.1, r.2).
End server.

(** ** Requests one after the other *)

(** The contract when calls of RocksDB may fail, on the map [m] that clients see and the map [d] that RocksDB
    holds. A [Put] shows even when it is answered with [FAIL]; after a [Del] that fails clients see what RocksDB still
    holds; a [Get] of a key that is only in RocksDB may fail, and changes nothing. *)
Inductive kv_answer : gmap bytes bytes * gmap bytes bytes → request → bytes → gmap bytes bytes * gmap bytes bytes → Prop :=
  | put_done m d k v : kv_answer (m, d) (Put k v) SUCCESS (<[k := v]> m, <[k := v]> d)
  | put_failed m d k v : kv_answer (m, d) (Put k v) FAIL (<[k := v]> m, d)
  | get_found m d k v : m !! k = Some v → kv_answer (m, d) (Get k) v (m, d)
  | get_missing m d k : m !! k = None → kv_answer (m, d) (Get k) FAIL (m, d)
  | get_failed m d k : is_Some (d !! k) → m !! k = d !! k → kv_answer (m, d) (Get k) FAIL (m, d)
  | del_done m d k : kv_answer (m, d) (Del k) SUCCESS (delete k m, delete k d)
  | del_failed m d k : kv_answer (m, d) (Del k) FAIL (partial_alter (λ _, d !! k) k m, d)
  | not_understood m d : kv_answer (m, d) Invalid INVALID (m, d).




Fixpoint serve `{RocksDB} (s : server) (l : list bytes) : option (list bytes) :=
  match l with
  | [] => Some []
  | x :: l => r ← process_read s x; reply ← r.1; rs ← serve r.2 l; Some (reply :: rs)
  end.

(** Words, and values that are words of requests. *)
Definition word_ok (w : bytes) : Prop := blen w < MAX_LINE ∧ Forall (λ c, is_space c = false) w.

Lemma span_word_ok s w r : span_word s = (w, r) → s = w ++ r ∧ Forall (λ c, is_space c = false) w.
Proof.
  revert w r. induction s as [|c s IH]; simpl; intros w r; [by intros [= <- <-]|].
  destruct (is_space c) eqn:Ec; [by intros [= <- <-]|]. destruct (span_word s) as [w' r'] eqn:E. intros [= <- <-].
  destruct (IH w' r' eq_refl) as [-> Hw]. by split; [|constructor].
Qed.

Lemma skip_space_len s : (length (skip_space s) ≤ length s)%nat.
Proof. induction s as [|c s IH]; simpl; [lia|]. destruct (is_space c); simpl; lia. Qed.

Lemma c_str_len s : (length (c_str s) ≤ length s)%nat.
Proof. induction s as [|c s IH]; simpl; [lia|]. destruct (c =? 0); simpl; lia. Qed.

Lemma scan_words n : ∀ s, blen s < MAX_LINE → Forall word_ok (scan n s).
Proof.
  induction n as [|n IH]; intros s Hs; cbn [scan]; [constructor|]. pose proof (skip_space_len s) as Hl. unfold blen in *.
  destruct (skip_space s) as [|c s'] eqn:Es; [constructor|]. destruct (span_word (c :: s')) as [w r] eqn:Ew.
  destruct (span_word_ok _ _ _ Ew) as [E Hw]. assert (Hlen : length (c :: s') = (length w + length r)%nat) by (rewrite E, length_app; done).
  constructor; [split; [unfold blen; lia|done]|]. apply IH. lia.
Qed.

Lemma parse_words x : blen x < MAX_LINE →
  match parse x with Put k v => word_ok k ∧ word_ok v | Get k | Del k => word_ok k | Invalid => True end.
Proof.
  intros Hx. assert (Hc : blen (c_str x) < MAX_LINE) by (pose proof (c_str_len x); unfold blen in *; lia).
  pose proof (scan_words 2 _ Hc) as H2. pose proof (scan_words 3 _ Hc) as H3. unfold parse.
  destruct (scan 1 (c_str x)) as [|op ?]; [done|]. repeat case_match; try done; rewrite Forall_forall in *.
  - split; apply H3; set_solver.
  - apply H2. set_solver.
  - apply H2. set_solver.
Qed.

Section refines.
Context `{RocksDBLaws}.





(** What a client sees: the pairs in memory, and in RocksDB those of the other keys. *)
Definition visible (s : server) : gmap bytes bytes := store s ∪ contents (db s).

(** All values can be printed. *)
Definition printable (s : server) : Prop :=
  (∀ k v, store s !! k = Some v → word_ok v) ∧ ∀ k v, contents (db s) !! k = Some v → word_ok v.

Lemma print_word v : word_ok v → print v = Some v.
Proof. intros [Hl _]. unfold print. by rewrite (proj2 (Z.ltb_lt _ _) Hl). Qed.

Lemma insert_printable (m : gmap bytes bytes) k v : (∀ k v, m !! k = Some v → word_ok v) → word_ok v →
  ∀ k' v', <[k := v]> m !! k' = Some v' → word_ok v'.
Proof. intros Hm Hv k' v' [[_ <-]|[_ E]]%lookup_insert_Some; [done|by eapply Hm]. Qed.

Lemma delete_printable (m : gmap bytes bytes) k : (∀ k v, m !! k = Some v → word_ok v) →
  ∀ k' v', delete k m !! k' = Some v' → word_ok v'.
Proof. intros Hm k' v' [_ E]%lookup_delete_Some. by eapply Hm. Qed.

Lemma union_insert_both (m d : gmap bytes bytes) k v : <[k := v]> m ∪ <[k := v]> d = <[k := v]> (m ∪ d).
Proof.
  apply map_eq. intros i. rewrite lookup_union. destruct (decide (i = k)) as [->|Hne].
  - by rewrite !lookup_insert_eq.
  - by rewrite !lookup_insert_ne, lookup_union.
Qed.

Lemma union_insert_keep (m d : gmap bytes bytes) k v : m !! k = None → d !! k = Some v → <[k := v]> m ∪ d = m ∪ d.
Proof.
  intros Hm Hd. apply map_eq. intros i. rewrite !lookup_union. destruct (decide (i = k)) as [->|Hne].
  - by rewrite lookup_insert_eq, Hm, Hd.
  - by rewrite lookup_insert_ne.
Qed.

Lemma union_delete_l (m d : gmap bytes bytes) k : delete k m ∪ d = partial_alter (λ _, d !! k) k (m ∪ d).
Proof.
  apply map_eq. intros i. destruct (decide (i = k)) as [->|Hne].
  - by rewrite lookup_partial_alter_eq, lookup_union, lookup_delete_eq; destruct (d !! k).
  - by rewrite lookup_partial_alter_ne, !lookup_union, lookup_delete_ne.
Qed.

Lemma handle_req_spec s x : printable s → blen x < MAX_LINE → ∃ r s', handle_req s x = Some (r, s') ∧ printable s' ∧
  kv_answer (visible s, contents (db s)) (parse x) r (visible s', contents (db s')).
Proof.
  intros [Ps Pd] Hx. pose proof (parse_words x Hx) as Hw. unfold handle_req, visible. destruct (parse x) as [k v|k|k|]; simpl.
  - pose proof (put_law (db s) k v) as Hp. destruct (db_Put (db s) k v) as [ok d]. destruct Hw as [_ Hv].
    eexists _, _. split; [done|]. cbn [store db]. rewrite Hp. split.
    + split; cbn [store db]; rewrite ?Hp; [by apply insert_printable|]. destruct ok; [by apply insert_printable|done].
    + destruct ok; [rewrite union_insert_both|rewrite <-insert_union_l]; constructor.
  - destruct (store s !! k) as [v|] eqn:E.
    { rewrite print_word by eauto. bind_simpl. eexists _, _. split; [done|]. split; [done|]. constructor. by apply lookup_union_Some_l. }
    pose proof (get_law (db s) k) as Hg. pose proof (get_absent (db s) k) as Ha. destruct (db_Get (db s) k) as [[] v]; simpl in *.
    + rewrite print_word by eauto. bind_simpl. eexists _, _. split; [done|]. cbn [store db]. rewrite union_insert_keep by done. split.
      * split; [|done]. apply insert_printable; eauto.
      * constructor. by rewrite lookup_union, E, Hg.
    + eexists _, _. split; [done|]. split; [done|]. destruct (contents (db s) !! k) as [v'|] eqn:Ev.
      * apply get_failed; [by rewrite Ev|]. by rewrite lookup_union, E, Ev.
      * apply get_missing. by rewrite lookup_union, E, Ev.
  - pose proof (delete_law (db s) k) as Hd. destruct (db_Delete (db s) k) as [ok d]. eexists _, _. split; [done|]. cbn [store db]. rewrite Hd. split.
    + split; cbn [store db]; rewrite ?Hd; [by apply delete_printable|]. destruct ok; [by apply delete_printable|done].
    + destruct ok; [rewrite <-delete_union|rewrite union_delete_l]; constructor.
  - eexists _, _. split; [done|]. split; [done|]. constructor.
Qed.


(** A request of 2048 bytes makes the server write behind its buffer. *)
Theorem simplekv_long_request s x : blen x = MAX_LINE → process_read s x = None.
Proof. intros Hx. unfold process_read. rewrite Hx. done. Qed.
End refines.

(** ** Requests at the same time *)

Section threads.
Context `{RocksDB}.

(** Program points of a thread of the pool inside of [handle_req]. *)
Inductive kpc :=
  | Start (r : request) | PutDb (key value : bytes) | GetDb (key : bytes) | GetFill (key value : bytes) | DelDb (key : bytes)
  | Reply (text : bytes).

(** src/app/simpleKV/simplekv_server.cc:103-156, [handle_req (steps)]. *)
Definition req_step (s : server) (pc : kpc) : option (server * kpc) :=
  match pc with
  | Start (Put key value) => Some (mkServer (<[key := value]> (store s)) (db s), PutDb key value)
  | PutDb key value => let '(ok, d) := db_Put (db s) key value in Some (mkServer (store s) d, Reply (if ok then SUCCESS else FAIL))
  | Start (Get key) =>
      match store s !! key with
      | Some v => r ← print v; Some (s, Reply r)
      | None => Some (s, GetDb key)
      end
  | GetDb key => let '(ok, v) := db_Get (db s) key in Some (s, if ok then GetFill key v else Reply FAIL)
  | GetFill key v => r ← print v; Some (mkServer (<[key := v]> (store s)) (db s), Reply r)
  | Start (Del key) => Some (mkServer (delete key (store s)) (db s), DelDb key)
  | DelDb key => let '(ok, d) := db_Delete (db s) key in Some (mkServer (store s) d, Reply (if ok then SUCCESS else FAIL))
  | Start Invalid => Some (s, Reply INVALID)
  | Reply _ => None
  end.

Inductive kv_step : server * list kpc → server * list kpc → Prop :=
  | kv_req s pcs t pc s' pc' : pcs !! t = Some pc → req_step s pc = Some (s', pc') → kv_step (s, pcs) (s', <[t := pc']> pcs).

Fixpoint alone (n : nat) (s : server) (pc : kpc) : option (bytes * server) :=
  match n with
  | O => None
  | S n => match pc with Reply r => Some (r, s) | _ => x ← req_step s pc; alone n x.1 x.2 end
  end.

(** A thread that is alone does what [handle_req] does. *)
Theorem steps_of_handle_req s x : alone 4 s (Start (parse x)) = handle_req s x.
Proof.
  unfold handle_req. destruct (parse x) as [k v|k|k|]; simpl.
  - by destruct (db_Put (db s) k v).
  - destruct (store s !! k) as [v|]; [destruct (print v); done|]. bind_simpl. cbn [req_step fst snd alone].
    destruct (db_Get (db s) k) as [[] v]; bind_simpl; [|done]. cbn [req_step fst snd]. by destruct (print v).
  - by destruct (db_Delete (db s) k).
  - done.
Qed.
End threads.

(** A database that is a map. *)
#[export] Instance map_db : RocksDB := {
  rdb := gmap bytes bytes;
  contents d := d;
  db_Put d k v := (true, <[k := v]> d);
  db_Get d k := match d !! k with Some v => (true, v) | None => (false, []) end;
  db_Delete d k := (true, delete k d)
}.

#[export] Instance map_db_laws : RocksDBLaws.
Proof.
  split; intros d k; change (gmap bytes bytes) in d; cbn; try done.
  - by destruct (d !! k).
  - by intros ->.
Qed.

(** A server with these pairs in memory and in the database. *)
Definition kv (m d : gmap bytes bytes) : server := @mkServer map_db m d.


(** A deletion can be undone by a request that only reads: a GET that found the value in RocksDB
    writes it to the hash map after a DEL of the key has been answered, and every later GET finds it there. *)
Theorem simplekv_stale_read : ∃ s pcs,
  rtc kv_step (kv ∅ {[ [1] := [2] ]}, [Start (Get [1]); Start (Del [1])]) (s, pcs) ∧
  pcs = [Reply [2]; Reply SUCCESS] ∧ contents (db s) = ∅ ∧ alone 4 s (Start (Get [1])) = Some ([2], s).
Proof.
  exists (kv {[ [1] := [2] ]} ∅), [Reply [2]; Reply SUCCESS]. split; [|done].
  do 2 (eapply rtc_l; [by eapply (kv_req _ _ 0)|]). do 2 (eapply rtc_l; [by eapply (kv_req _ _ 1)|]).
  apply rtc_once. exact (kv_req (kv ∅ ∅) [GetFill [1] [2]; Reply SUCCESS] 0 (GetFill [1] [2])
    (kv {[ [1] := [2] ]} ∅) (Reply [2]) eq_refl eq_refl).
Qed.


Lemma demo_printable : printable (kv ∅ ∅).
Proof. split; intros k v; cbn; by rewrite lookup_empty. Qed.

(** "put a b", "GET a", "get c". *)
Definition demo_requests : list bytes := [[112; 117; 116; 32; 97; 32; 98]; [71; 69; 84; 32; 97]; [103; 101; 116; 32; 99]].


(** A database whose writes fail. *)
Definition full_disk_db : RocksDB := {|
  rdb := gmap bytes bytes;
  contents d := d;
  db_Put d k v := (false, d);
  db_Get d k := match d !! k with Some v => (true, v) | None => (false, []) end;
  db_Delete d k := (false, d)
|}.

(** A PUT that is answered with FAIL changes what clients read, although RocksDB has refused the value. *)
Theorem simplekv_failed_put_shows :
  @serve full_disk_db (@mkServer full_disk_db ∅ ∅) demo_requests = Some [FAIL; [98]; FAIL].
Proof. by vm_compute. Qed.

(** ** The client *)

(** A line, or the client waits for more: the connection stays open. *)
Inductive line := Line (n : Z) (text : bytes) | Waiting.

(** src/app/simpleKV/simplekv_client.h:19-44, [readline]. [room] is [maxlen - n]; [input] is what the server has sent. *)
Fixpoint readline (room : nat) (n : Z) (input acc : bytes) : line :=
  match room with
  | O => Line n acc
  | S room =>
      match input with
      | c :: input => if c =? 10 then Line n (acc ++ [c]) else readline room (n + 1) input (acc ++ [c])
      | [] => Waiting
      end
  end.

Lemma readline_waits room : ∀ n input acc, (length input < room)%nat → 10 ∉ input → readline room n input acc = Waiting.
Proof.
  induction room as [|room IH]; intros n input acc Hl Hn; [lia|]. destruct input as [|c input]; [done|]. simpl in *.
  rewrite (proj2 (Z.eqb_neq c 10)) by set_solver. apply IH; [lia|set_solver].
Qed.

(** The client never gets an answer: replies of the server have no newline at their end, and the client reads
    until it meets one. *)
Theorem simplekv_client_waits `{RocksDBLaws} s x r s' : printable s → blen x < MAX_LINE →
  handle_req s x = Some (r, s') → blen r < MAX_LINE - 1 → readline (Z.to_nat (MAX_LINE - 1)) 1 r [] = Waiting.
Proof.
  intros Hs Hx E Hr. apply readline_waits; [unfold blen in Hr; lia|].
  assert (Hno : ∀ v, word_ok v → 10 ∉ v) by (intros v [_ Hw] Hin; rewrite Forall_forall in Hw; by specialize (Hw 10 Hin)).
  destruct (handle_req_spec s x Hs Hx) as (r1 & s1 & E1 & _ & Ha). rewrite E in E1. injection E1 as -> ->.
  assert (Hv : ∀ k v, visible s !! k = Some v → word_ok v).
  { intros k v. unfold visible. rewrite lookup_union_Some_raw. destruct Hs as [Ps Pd]. naive_solver. }
  inversion Ha; subst; try (unfold SUCCESS, FAIL, INVALID; set_solver).
Qed.

Lemma simplekv_client_waits_witness : readline (Z.to_nat (MAX_LINE - 1)) 1 FAIL [] = Waiting.
Proof.
  apply (simplekv_client_waits (kv ∅ ∅) [71; 69; 84; 32; 97] FAIL (kv ∅ ∅)); [apply demo_printable|done..].
Defined.
