(* ===== verification/XxHash.v ===== *)
(** * XXH32 and XXH64 (src/cpp-util/xxhash.h)

    The two classic hash functions, in one call and as streams, with their canonical
    representations.  [None] is an access outside of a buffer.  The machine is little-endian, as
    the ones the repository is built for.  The theorems show that a stream gives
    the hash of the concatenation of its pieces, however the input is cut, that the two variants of
    the last step of XXH32 agree and that a canonical representation gives back its hash. *)

From S2P Require Import Prelude Slice Murmur.

(** ** Constants and loads *)

(** src/cpp-util/xxhash.h:2196-2200, [XXH_PRIME32_1 ... XXH_PRIME32_5]. *)
Definition XXH_PRIME32_1 : Z := 0x9E3779B1.
Definition XXH_PRIME32_2 : Z := 0x85EBCA77.
Definition XXH_PRIME32_3 : Z := 0xC2B2AE3D.
Definition XXH_PRIME32_4 : Z := 0x27D4EB2F.
Definition XXH_PRIME32_5 : Z := 0x165667B1.

(** src/cpp-util/xxhash.h:2726-2730, [XXH_PRIME64_1 ... XXH_PRIME64_5]. *)
Definition XXH_PRIME64_1 : Z := 0x9E3779B185EBCA87.
Definition XXH_PRIME64_2 : Z := 0xC2B2AE3D27D4EB4F.
Definition XXH_PRIME64_3 : Z := 0x165667B19E3779F9.
Definition XXH_PRIME64_4 : Z := 0x85EBCA77C2B2AE63.
Definition XXH_PRIME64_5 : Z := 0x27D4EB2F165667C5.

(** src/cpp-util/xxhash.h:2089-2090, [XXH_rotl32, XXH_rotl64]. *)
Definition XXH_rotl32 (x r : Z) : Z := rotl 32 x r.
Definition XXH_rotl64 (x r : Z) : Z := rotl 64 x r.

(** src/cpp-util/xxhash.h:2106-2112, [XXH_swap32]. *)
Definition XXH_swap32 (x : Z) : Z :=
  Z.lor (Z.lor (Z.lor (Z.land (u32 (x ≪ 24)) 0xff000000) (Z.land (u32 (x ≪ 8)) 0x00ff0000))
               (Z.land (x ≫ 8) 0x0000ff00))
        (Z.land (x ≫ 24) 0x000000ff).

(** src/cpp-util/xxhash.h:2651-2661, [XXH_swap64]. *)
Definition XXH_swap64 (x : Z) : Z :=
  Z.lor (Z.lor (Z.lor (Z.lor (Z.lor (Z.lor (Z.lor
    (Z.land (u64 (x ≪ 56)) 0xff00000000000000) (Z.land (u64 (x ≪ 40)) 0x00ff000000000000))
    (Z.land (u64 (x ≪ 24)) 0x0000ff0000000000)) (Z.land (u64 (x ≪ 8)) 0x000000ff00000000))
    (Z.land (x ≫ 8) 0x00000000ff000000)) (Z.land (x ≫ 24) 0x0000000000ff0000))
    (Z.land (x ≫ 40) 0x000000000000ff00)) (Z.land (x ≫ 56) 0x00000000000000ff).

(** src/cpp-util/xxhash.h:2155-2158, [XXH_readLE32]. *)
Definition XXH_readLE32 (data : list Z) (p : Z) : option Z := getblock 4 data p.

(** src/cpp-util/xxhash.h:2695-2698, [XXH_readLE64]. *)
Definition XXH_readLE64 (data : list Z) (p : Z) : option Z := getblock 8 data p.

(** src/cpp-util/xxhash.h:2160-2163, [XXH_readBE32]. *)
Definition XXH_readBE32 (data : list Z) (p : Z) : option Z :=
  x ← getblock 4 data p; Some (XXH_swap32 x).

(** src/cpp-util/xxhash.h:2700-2703, [XXH_readBE64]. *)
Definition XXH_readBE64 (data : list Z) (p : Z) : option Z :=
  x ← getblock 8 data p; Some (XXH_swap64 x).

(** The bytes of an integer in memory. *)
Fixpoint le_bytes (n : nat) (x : Z) : list Z :=
  match n with O => [] | S n => x mod 256 :: le_bytes n (x / 256) end.

(** [memcpy(dst + doff, src + soff, n)] between two buffers. *)
Definition XXH_memcpy (dst : list Z) (doff : Z) (src : list Z) (soff n : Z) : option (list Z) :=
  if (0 <=? n) && (0 <=? doff) && (doff + n <=? Z.of_nat (length dst)) &&
     (0 <=? soff) && (soff + n <=? Z.of_nat (length src))
  then Some (take (Z.to_nat doff) dst ++ take (Z.to_nat n) (drop (Z.to_nat soff) src) ++
             drop (Z.to_nat (doff + n)) dst)
  else None.

(** ** Loops that the two functions share *)

(** The loop [do { stripe } while (again(p))] over stripes of [W] bytes. *)
Fixpoint do_stripes {V} (fuel : nat) (stripe : Z → V → option V) (W : Z) (again : Z → bool)
    (p : Z) (v : V) : option (V * Z) :=
  match fuel with
  | O => None
  | S fuel =>
      v ← stripe p v;
      let p := p + W in
      if again p then do_stripes fuel stripe W again p v else Some (v, p)
  end.

(** The loop [while (len >= n) { process n bytes }] of the last step. *)
Fixpoint process (fuel n : nat) (step : Z → Z → Z) (data : list Z) (hash ptr len : Z) :
    option (Z * Z * Z) :=
  if Z.of_nat n <=? len then
    match fuel with
    | O => None
    | S fuel =>
        k ← getblock n data ptr;
        process fuel n step data (step hash k) (ptr + Z.of_nat n) (len - Z.of_nat n)
    end
  else Some (hash, ptr, len).

(** src/cpp-util/xxhash.h:2948-2964, [XXH64_update]. The part of the two [update] functions from the
    position [p] of the input on, when the buffer is empty: the stripes, and the rest of the input
    into the buffer. *)
Definition ingest_rest {V} (W : Z) (stripe : list Z → Z → V → option V)
    (v : V) (mem : list Z) (input : list Z) (p len : Z) : option (V * list Z * Z) :=
  '(v, p) ←
    (if p <=? len - W then
       do_stripes (S (Z.to_nat len)) (stripe input) W (λ p, p <=? len - W) p v
     else Some (v, p));
  if p <? len then
    mem ← XXH_memcpy mem 0 input p (len - p);
    Some (v, mem, u32 (len - p))
  else Some (v, mem, 0).

(** src/cpp-util/xxhash.h:2932-2946, [XXH64_update]. The part of the two [update] functions behind the
    count of the length: the accumulators, the buffer of [W] bytes and the number of bytes in it. *)
Definition ingest {V} (W : Z) (stripe : list Z → Z → V → option V)
    (v : V) (mem : list Z) (memsize : Z) (input : list Z) (len : Z) : option (V * list Z * Z) :=
  if u64 (memsize + len) <? W then
    mem ← XXH_memcpy mem memsize input 0 len;
    Some (v, mem, u32 (memsize + u32 len))
  else if negb (memsize =? 0) then
    mem ← XXH_memcpy mem memsize input 0 (W - memsize);
    v ← stripe mem 0 v;
    ingest_rest W stripe v mem input (W - memsize) len
  else ingest_rest W stripe v mem input 0 len.

Definition lanes : Type := Z * Z * Z * Z.

(** ** XXH32 *)

(** src/cpp-util/xxhash.h:2221-2225, [XXH32_round]. *)
Definition XXH32_round (acc input : Z) : Z :=
  let acc := u32 (acc + u32 (input * XXH_PRIME32_2)) in
  let acc := XXH_rotl32 acc 13 in
  u32 (acc * XXH_PRIME32_1).

(** src/cpp-util/xxhash.h:2275-2283, [XXH32_avalanche]. *)
Definition XXH32_avalanche (hash : Z) : Z :=
  let hash := Z.lxor hash (hash ≫ 15) in
  let hash := u32 (hash * XXH_PRIME32_2) in
  let hash := Z.lxor hash (hash ≫ 13) in
  let hash := u32 (hash * XXH_PRIME32_3) in
  Z.lxor hash (hash ≫ 16).

(** src/cpp-util/xxhash.h:2305-2308, [XXH_PROCESS1]. *)
Definition XXH32_PROCESS1 (hash k : Z) : Z :=
  let hash := u32 (hash + u32 (k * XXH_PRIME32_5)) in
  u32 (XXH_rotl32 hash 11 * XXH_PRIME32_1).

(** src/cpp-util/xxhash.h:2310-2314, [XXH_PROCESS4]. *)
Definition XXH32_PROCESS4 (hash k : Z) : Z :=
  let hash := u32 (hash + u32 (k * XXH_PRIME32_3)) in
  u32 (XXH_rotl32 hash 17 * XXH_PRIME32_4).

(** src/cpp-util/xxhash.h:2302-2329, [XXH32_finalize]. The loops, chosen unless XXH32_ENDJMP is set. *)
Definition XXH32_finalize (hash : Z) (data : list Z) (ptr len : Z) : option Z :=
  let len := Z.land len 15 in
  '(hash, ptr, len) ← process 4 4 XXH32_PROCESS4 data hash ptr len;
  '(hash, ptr, len) ← process 4 1 XXH32_PROCESS1 data hash ptr len;
  Some (XXH32_avalanche hash).

(** src/cpp-util/xxhash.h:2305-2314, [XXH_PROCESS1, XXH_PROCESS4]. The macros with the moving pointer. *)
Definition P1 (data : list Z) (r : option (Z * Z)) : option (Z * Z) :=
  '(hash, ptr) ← r; k ← aget data ptr; Some (XXH32_PROCESS1 hash k, ptr + 1).
Definition P4 (data : list Z) (r : option (Z * Z)) : option (Z * Z) :=
  '(hash, ptr) ← r; k ← XXH_readLE32 data ptr; Some (XXH32_PROCESS4 hash k, ptr + 4).

(** src/cpp-util/xxhash.h:2330-2372, [XXH32_finalize]. The [switch] with its cases, chosen when
    XXH32_ENDJMP is set. *)
Definition XXH32_finalize_endjmp (hash : Z) (data : list Z) (ptr len : Z) : option Z :=
  let P1 := P1 data in
  let P4 := P4 data in
  let st := Some (hash, ptr) in
  '(hash, _) ←
    match Z.land len 15 with
    | 12 => P4 (P4 (P4 st))
    | 8 => P4 (P4 st)
    | 4 => P4 st
    | 13 => P1 (P4 (P4 (P4 st)))
    | 9 => P1 (P4 (P4 st))
    | 5 => P1 (P4 st)
    | 14 => P1 (P1 (P4 (P4 (P4 st))))
    | 10 => P1 (P1 (P4 (P4 st)))
    | 6 => P1 (P1 (P4 st))
    | 15 => P1 (P1 (P1 (P4 (P4 (P4 st)))))
    | 11 => P1 (P1 (P1 (P4 (P4 st))))
    | 7 => P1 (P1 (P1 (P4 st)))
    | 3 => P1 (P1 (P1 st))
    | 2 => P1 (P1 st)
    | 1 => P1 st
    | 0 => st
    | _ => None
    end;
  Some (XXH32_avalanche hash).

(** src/cpp-util/xxhash.h:2401-2404, [XXH32_endian_align]. The first values of the accumulators. *)
Definition XXH32_init (seed : Z) : lanes :=
  (u32 (seed + XXH_PRIME32_1 + XXH_PRIME32_2), u32 (seed + XXH_PRIME32_2), u32 (seed + 0),
   u32 (seed - XXH_PRIME32_1)).

(** src/cpp-util/xxhash.h:2407-2410, [XXH32_endian_align]. One stripe of 16 bytes. *)
Definition XXH32_stripe (data : list Z) (p : Z) (v : lanes) : option lanes :=
  let '(v1, v2, v3, v4) := v in
  k1 ← XXH_readLE32 data p; k2 ← XXH_readLE32 data (p + 4);
  k3 ← XXH_readLE32 data (p + 8); k4 ← XXH_readLE32 data (p + 12);
  Some (XXH32_round v1 k1, XXH32_round v2 k2, XXH32_round v3 k3, XXH32_round v4 k4).

(** src/cpp-util/xxhash.h:2413-2414, [XXH32_endian_align]. *)
Definition XXH32_merge (v : lanes) : Z :=
  let '(v1, v2, v3, v4) := v in
  u32 (XXH_rotl32 v1 1 + XXH_rotl32 v2 7 + XXH_rotl32 v3 12 + XXH_rotl32 v4 18).

(** src/cpp-util/xxhash.h:2391-2422, [XXH32_endian_align]. *)
Definition XXH32_endian_align (input : list Z) (len seed : Z) : option Z :=
  '(h32, p) ←
    (if 16 <=? len then
       let limit := len - 15 in
       '(v, p) ← do_stripes (S (Z.to_nat len)) (XXH32_stripe input) 16 (λ p, p <? limit) 0 (XXH32_init seed);
       Some (XXH32_merge v, p)
     else Some (u32 (seed + XXH_PRIME32_5), 0));
  let h32 := u32 (h32 + u32 len) in
  XXH32_finalize h32 input p (Z.land len 15).

(** src/cpp-util/xxhash.h:2425-2441, [XXH32]. *)
Definition XXH32 (input : list Z) (len seed : Z) : option Z := XXH32_endian_align input len seed.

(** src/cpp-util/xxhash.h:1142-1149, [XXH32_state_s]. *)
Record XXH32_state := mkS32 {
  total_len_32 : Z; large_len : Z; v32 : lanes; mem32 : list Z; memsize32 : Z
}.

(** src/cpp-util/xxhash.h:2466-2475, [XXH32_reset]. *)
Definition XXH32_reset (seed : Z) : XXH32_state :=
  mkS32 0 0 (XXH32_init seed) (replicate 16 0) 0.

(** src/cpp-util/xxhash.h:2479-2530, [XXH32_update]. *)
Definition XXH32_update (s : XXH32_state) (input : list Z) (len : Z) : option XXH32_state :=
  let total := u32 (total_len_32 s + u32 len) in
  let large := Z.lor (large_len s) (Z.b2z ((16 <=? len) || (16 <=? total))) in
  '(v, mem, memsize) ← ingest 16 XXH32_stripe (v32 s) (mem32 s) (memsize32 s) input len;
  Some (mkS32 total large v mem memsize).

(** src/cpp-util/xxhash.h:2534-2550, [XXH32_digest]. *)
Definition XXH32_digest (s : XXH32_state) : option Z :=
  let '(_, _, v3, _) := v32 s in
  let h32 := if negb (large_len s =? 0) then XXH32_merge (v32 s)
             else u32 (v3 + XXH_PRIME32_5) in
  let h32 := u32 (h32 + total_len_32 s) in
  XXH32_finalize h32 (mem32 s) 0 (memsize32 s).

(** src/cpp-util/xxhash.h:2569-2574, [XXH32_canonicalFromHash]. *)
Definition XXH32_canonicalFromHash (hash : Z) : list Z := le_bytes 4 (XXH_swap32 hash).

(** src/cpp-util/xxhash.h:2576-2579, [XXH32_hashFromCanonical]. *)
Definition XXH32_hashFromCanonical (src : list Z) : option Z := XXH_readBE32 src 0.

(** ** XXH64 *)

(** src/cpp-util/xxhash.h:2741-2747, [XXH64_round]. *)
Definition XXH64_round (acc input : Z) : Z :=
  let acc := u64 (acc + u64 (input * XXH_PRIME64_2)) in
  let acc := XXH_rotl64 acc 31 in
  u64 (acc * XXH_PRIME64_1).

(** src/cpp-util/xxhash.h:2749-2755, [XXH64_mergeRound]. *)
Definition XXH64_mergeRound (acc val : Z) : Z :=
  let val := XXH64_round 0 val in
  let acc := Z.lxor acc val in
  u64 (u64 (acc * XXH_PRIME64_1) + XXH_PRIME64_4).

(** src/cpp-util/xxhash.h:2758-2766, [XXH64_avalanche]. *)
Definition XXH64_avalanche (hash : Z) : Z :=
  let hash := Z.lxor hash (hash ≫ 33) in
  let hash := u64 (hash * XXH_PRIME64_2) in
  let hash := Z.lxor hash (hash ≫ 29) in
  let hash := u64 (hash * XXH_PRIME64_3) in
  Z.lxor hash (hash ≫ 32).

(** src/cpp-util/xxhash.h:2791-2795, [XXH64_finalize]. Eight bytes of the last step. *)
Definition XXH64_PROCESS8 (hash k : Z) : Z :=
  let k1 := XXH64_round 0 k in
  let hash := Z.lxor hash k1 in
  u64 (u64 (XXH_rotl64 hash 27 * XXH_PRIME64_1) + XXH_PRIME64_4).

(** src/cpp-util/xxhash.h:2799-2801, [XXH64_finalize]. Four bytes of the last step. *)
Definition XXH64_PROCESS4 (hash k : Z) : Z :=
  let hash := Z.lxor hash (u64 (k * XXH_PRIME64_1)) in
  u64 (u64 (XXH_rotl64 hash 23 * XXH_PRIME64_2) + XXH_PRIME64_3).

(** src/cpp-util/xxhash.h:2805-2806, [XXH64_finalize]. One byte of the last step. *)
Definition XXH64_PROCESS1 (hash k : Z) : Z :=
  let hash := Z.lxor hash (u64 (k * XXH_PRIME64_5)) in
  u64 (XXH_rotl64 hash 11 * XXH_PRIME64_1).

(** src/cpp-util/xxhash.h:2786-2811, [XXH64_finalize]. *)
Definition XXH64_finalize (hash : Z) (data : list Z) (ptr len : Z) : option Z :=
  let len := Z.land len 31 in
  '(hash, ptr, len) ← process 4 8 XXH64_PROCESS8 data hash ptr len;
  '(hash, ptr, len) ←
    (if 4 <=? len then
       k ← XXH_readLE32 data ptr; Some (XXH64_PROCESS4 hash k, ptr + 4, len - 4)
     else Some (hash, ptr, len));
  '(hash, ptr, len) ← process 4 1 XXH64_PROCESS1 data hash ptr len;
  Some (XXH64_avalanche hash).

(** src/cpp-util/xxhash.h:2839-2842, [XXH64_endian_align]. The first values of the accumulators. *)
Definition XXH64_init (seed : Z) : lanes :=
  (u64 (seed + XXH_PRIME64_1 + XXH_PRIME64_2), u64 (seed + XXH_PRIME64_2), u64 (seed + 0),
   u64 (seed - XXH_PRIME64_1)).

(** src/cpp-util/xxhash.h:2845-2848, [XXH64_endian_align]. One stripe of 32 bytes. *)
Definition XXH64_stripe (data : list Z) (p : Z) (v : lanes) : option lanes :=
  let '(v1, v2, v3, v4) := v in
  k1 ← XXH_readLE64 data p; k2 ← XXH_readLE64 data (p + 8);
  k3 ← XXH_readLE64 data (p + 16); k4 ← XXH_readLE64 data (p + 24);
  Some (XXH64_round v1 k1, XXH64_round v2 k2, XXH64_round v3 k3, XXH64_round v4 k4).

(** src/cpp-util/xxhash.h:2851-2855, [XXH64_endian_align]. *)
Definition XXH64_merge (v : lanes) : Z :=
  let '(v1, v2, v3, v4) := v in
  let h64 := u64 (XXH_rotl64 v1 1 + XXH_rotl64 v2 7 + XXH_rotl64 v3 12 + XXH_rotl64 v4 18) in
  let h64 := XXH64_mergeRound h64 v1 in
  let h64 := XXH64_mergeRound h64 v2 in
  let h64 := XXH64_mergeRound h64 v3 in
  XXH64_mergeRound h64 v4.

(** src/cpp-util/xxhash.h:2830-2864, [XXH64_endian_align]. *)
Definition XXH64_endian_align (input : list Z) (len seed : Z) : option Z :=
  '(h64, p) ←
    (if 32 <=? len then
       let limit := len - 31 in
       '(v, p) ← do_stripes (S (Z.to_nat len)) (XXH64_stripe input) 32 (λ p, p <? limit) 0 (XXH64_init seed);
       Some (XXH64_merge v, p)
     else Some (u64 (seed + XXH_PRIME64_5), 0));
  let h64 := u64 (h64 + len) in
  XXH64_finalize h64 input p len.

(** src/cpp-util/xxhash.h:2868-2885, [XXH64]. *)
Definition XXH64 (input : list Z) (len seed : Z) : option Z := XXH64_endian_align input len seed.

(** src/cpp-util/xxhash.h:1166-1173, [XXH64_state_s]. *)
Record XXH64_state := mkS64 { total_len : Z; v64 : lanes; mem64 : list Z; memsize64 : Z }.

(** src/cpp-util/xxhash.h:2908-2917, [XXH64_reset]. *)
Definition XXH64_reset (seed : Z) : XXH64_state := mkS64 0 (XXH64_init seed) (replicate 32 0) 0.

(** src/cpp-util/xxhash.h:2920-2968, [XXH64_update]. *)
Definition XXH64_update (s : XXH64_state) (input : list Z) (len : Z) : option XXH64_state :=
  let total := u64 (total_len s + len) in
  '(v, mem, memsize) ← ingest 32 XXH64_stripe (v64 s) (mem64 s) (memsize64 s) input len;
  Some (mkS64 total v mem memsize).

(** src/cpp-util/xxhash.h:2972-2989, [XXH64_digest]. *)
Definition XXH64_digest (s : XXH64_state) : option Z :=
  let '(_, _, v3, _) := v64 s in
  let h64 := if 32 <=? total_len s then XXH64_merge (v64 s) else u64 (v3 + XXH_PRIME64_5) in
  let h64 := u64 (h64 + total_len s) in
  XXH64_finalize h64 (mem64 s) 0 (total_len s).

(** src/cpp-util/xxhash.h:2995-3000, [XXH64_canonicalFromHash]. *)
Definition XXH64_canonicalFromHash (hash : Z) : list Z := le_bytes 8 (XXH_swap64 hash).

(** src/cpp-util/xxhash.h:3003-3006, [XXH64_hashFromCanonical]. *)
Definition XXH64_hashFromCanonical (src : list Z) : option Z := XXH_readBE64 src 0.

(** ** Lemmas: loads and the last step *)

(** Two ranges of [n] bytes have the same contents. *)
Definition agree (X : list Z) (p : Z) (Y : list Z) (q n : Z) : Prop :=
  ∀ i, 0 ≤ i < n → aget X (p + i) = aget Y (q + i).

Lemma agree_shift X p Y q n k : 0 ≤ k → agree X p Y q n → agree X (p + k) Y (q + k) (n - k).
Proof. intros Hk H i Hi. rewrite <-!Z.add_assoc. apply H. lia. Qed.

Lemma getblock_agree n X p Y q m :
  agree X p Y q m → Z.of_nat n ≤ m → getblock n X p = getblock n Y q.
Proof.
  revert p q m. induction n as [|n IH]; intros p q m H Hn; [done|]. cbn [getblock].
  pose proof (H 0 ltac:(lia)) as H0. rewrite !Z.add_0_r in H0. rewrite H0.
  by rewrite (IH (p + 1) (q + 1) (m - 1)) by (try (by apply agree_shift); lia).
Qed.

Lemma getblock_total n X p : bytes_ok X → 0 ≤ p → p + Z.of_nat n ≤ Z.of_nat (length X) →
  ∃ k, getblock n X p = Some k ∧ uint_ok (8 * Z.of_nat n) k.
Proof.
  intros HX Hp Hn. pose proof (getblock_in n [] X [] (Z.to_nat p) ltac:(lia)) as H.
  rewrite app_nil_r in H. simpl in H. rewrite Z2Nat.id in H by lia.
  exists (word_at n (Z.to_nat p) X). split; [done|]. apply word_at_ok; [done|lia].
Qed.

Lemma process_agree fuel n step X Y h p q len : agree X p Y q len →
  process fuel n step X h p len =
    ('(h, q', l) ← process fuel n step Y h q len; Some (h, q' - q + p, l)).
Proof.
  revert h p q len. induction fuel as [|fuel IH]; intros h p q len H; cbn [process];
    destruct (Z.leb_spec (Z.of_nat n) len); try done.
  - bind_simpl. do 3 f_equal. lia.
  - rewrite (getblock_agree n X p Y q len) by done.
    destruct (getblock n Y q) as [k|]; [|done]. bind_simpl.
    rewrite (IH _ _ (q + Z.of_nat n)) by (apply agree_shift; [lia|done]).
    destruct (process _ _ _ _ _ _ _) as [[[h' q'] l]|]; [|done]. bind_simpl. do 3 f_equal. lia.
  - bind_simpl. do 3 f_equal. lia.
Qed.

Lemma process_total fuel n step X h p len : (0 < n)%nat → bytes_ok X →
  0 ≤ p → 0 ≤ len → p + len ≤ Z.of_nat (length X) → len < (Z.of_nat fuel + 1) * Z.of_nat n →
  ∃ h' l, process fuel n step X h p len = Some (h', p + len - l, l) ∧ 0 ≤ l < Z.of_nat n ∧ l ≤ len.
Proof.
  intros Hn HX. revert h p len. induction fuel as [|fuel IH]; intros h p len Hp Hl Hin Hf;
    cbn [process]; destruct (Z.leb_spec (Z.of_nat n) len); try nia.
  - eexists _, len. split; [do 2 f_equal; f_equal; lia|lia].
  - destruct (getblock_total n X p) as (k & -> & _); [done|lia..|]. bind_simpl.
    destruct (IH (step h k) (p + Z.of_nat n) (len - Z.of_nat n)) as (h' & l & -> & Hl' & Hle); [lia..|nia|].
    exists h', l. split; [do 2 f_equal; f_equal; lia|lia].
  - eexists _, len. split; [do 2 f_equal; f_equal; lia|lia].
Qed.

Lemma process_pos fuel n step X h p len h' p' l :
  process fuel n step X h p len = Some (h', p', l) → p' + l = p + len ∧ p ≤ p'.
Proof.
  revert h p len. induction fuel as [|fuel IH]; intros h p len; cbn [process];
    destruct (Z.leb_spec (Z.of_nat n) len); try done; try (intros [= <- <- <-]; lia).
  destruct (getblock n X p) as [k|]; [|done]. bind_simpl. intros H'%IH. lia.
Qed.

(** The rest of two equal ranges after a loop. *)
Lemma agree_rest X Y p q len q' l : agree X p Y q len → q' + l = q + len → q ≤ q' →
  agree X (q' - q + p) Y q' l.
Proof. intros H E Hle i Hi. rewrite <-(Z.sub_add q q') at 2. replace (q' - q + p + i) with (p + (q' - q + i)) by lia.
  replace (q' - q + q + i) with (q + (q' - q + i)) by lia. apply H. lia. Qed.

Lemma XXH32_finalize_agree X Y h p q len : agree X p Y q (Z.land len 15) →
  XXH32_finalize h X p len = XXH32_finalize h Y q len.
Proof.
  intros H. unfold XXH32_finalize. cbv zeta. rewrite (process_agree _ _ _ X Y _ _ q) by done.
  destruct (process 4 4 _ Y _ _ _) as [[[h' q'] l]|] eqn:E; [|done]. bind_simpl.
  apply process_pos in E as [E Hle].
  rewrite (process_agree _ _ _ X Y _ _ q') by (by eapply agree_rest).
  by destruct (process _ _ _ _ _ _ _) as [[[? ?] ?]|].
Qed.

Lemma XXH64_finalize_agree X Y h p q len : agree X p Y q (Z.land len 31) →
  XXH64_finalize h X p len = XXH64_finalize h Y q len.
Proof.
  intros H. unfold XXH64_finalize. cbv zeta. rewrite (process_agree _ _ _ X Y _ _ q) by done.
  destruct (process 4 8 _ Y _ _ _) as [[[h' q'] l]|] eqn:E; [|done]. bind_simpl.
  apply process_pos in E as [E Hle]. pose proof (agree_rest _ _ _ _ _ _ _ H E Hle) as H'.
  destruct (Z.leb_spec 4 l).
  - unfold XXH_readLE32. rewrite (getblock_agree 4 X _ Y q' l) by done.
    destruct (getblock 4 Y q') as [k|]; [|done]. bind_simpl.
    rewrite (process_agree _ _ _ X Y _ _ (q' + 4)) by (by apply agree_shift; [lia|]).
    by destruct (process _ _ _ _ _ _ _) as [[[? ?] ?]|].
  - bind_simpl. rewrite (process_agree _ _ _ X Y _ _ q') by done.
    by destruct (process _ _ _ _ _ _ _) as [[[? ?] ?]|].
Qed.

Lemma land_15 x : Z.land x 15 = x mod 16.
Proof. change 15 with (Z.ones 4). by rewrite Z.land_ones. Qed.

Lemma land_31 x : Z.land x 31 = x mod 32.
Proof. change 31 with (Z.ones 5). by rewrite Z.land_ones. Qed.

Lemma XXH32_finalize_total X h p len : bytes_ok X → 0 ≤ p →
  p + Z.land len 15 ≤ Z.of_nat (length X) → ∃ r, XXH32_finalize h X p len = Some r.
Proof.
  intros HX Hp Hl. rewrite land_15 in Hl.
  pose proof (Z.mod_pos_bound len 16 ltac:(lia)).
  unfold XXH32_finalize. rewrite land_15.
  destruct (process_total 4 4 XXH32_PROCESS4 X h p (len mod 16)) as (h' & l & -> & ? & ?); [done || lia..|].
  bind_simpl.
  destruct (process_total 4 1 XXH32_PROCESS1 X h' (p + len mod 16 - l) l) as (h2 & l2 & -> & ? & ?); [done || lia..|].
  by eexists.
Qed.

Lemma XXH64_finalize_total X h p len : bytes_ok X → 0 ≤ p →
  p + Z.land len 31 ≤ Z.of_nat (length X) → ∃ r, XXH64_finalize h X p len = Some r.
Proof.
  intros HX Hp Hl. rewrite land_31 in Hl.
  pose proof (Z.mod_pos_bound len 32 ltac:(lia)).
  unfold XXH64_finalize. rewrite land_31.
  destruct (process_total 4 8 XXH64_PROCESS8 X h p (len mod 32)) as (h' & l & -> & ? & ?); [done || lia..|].
  bind_simpl. destruct (Z.leb_spec 4 l).
  - unfold XXH_readLE32. destruct (getblock_total 4 X (p + len mod 32 - l)) as (k & -> & _); [done || lia..|].
    bind_simpl.
    destruct (process_total 4 1 XXH64_PROCESS1 X (XXH64_PROCESS4 h' k) (p + len mod 32 - l + 4) (l - 4))
      as (h2 & l2 & -> & ? & ?); [done || lia..|]. by eexists.
  - bind_simpl.
    destruct (process_total 4 1 XXH64_PROCESS1 X h' (p + len mod 32 - l) l) as (h2 & l2 & -> & ? & ?); [done || lia..|].
    by eexists.
Qed.

(** ** Lemmas: stripes *)

Section stripes.
Context {V : Type} (W : nat) (stripe : list Z → Z → V → option V) (step : V → list Z → V).
Context (W_small : (0 < W ≤ 32)%nat).
Context (stripe_spec : ∀ pre b post v, length b = W →
  stripe (pre ++ b ++ post) (Z.of_nat (length pre)) v = Some (step v b)).

Lemma do_stripes_fold bs : ∀ fuel b pre t again v, Forall (λ b, length b = W) (b :: bs) →
  (length t < W)%nat → (length bs < fuel)%nat →
  (∀ p, again p = (p + Z.of_nat W <=? Z.of_nat (length (pre ++ concat (b :: bs) ++ t)))) →
  do_stripes fuel (stripe (pre ++ concat (b :: bs) ++ t)) (Z.of_nat W) again (Z.of_nat (length pre)) v =
  Some (foldl step v (b :: bs), Z.of_nat (length (pre ++ concat (b :: bs)))).
Proof.
  induction bs as [|b' bs IH]; intros fuel b pre t again v Hb Ht Hf Ha;
    apply Forall_cons in Hb as [Hb Hbs]; (destruct fuel; [lia|]); cbn [do_stripes].
  - cbn [concat]. rewrite app_nil_r, stripe_spec by done. bind_simpl. rewrite Ha. cbn [concat].
    rewrite !length_app. cbn [length]. rewrite (proj2 (Z.leb_gt _ _)) by lia. cbn [foldl]. do 2 f_equal. lia.
  - cbn [concat]. rewrite <-(app_assoc b), stripe_spec by done. bind_simpl. rewrite Ha. cbn [concat].
    rewrite !length_app. assert (length b' = W) by (by apply Forall_cons in Hbs as [? ?]).
    rewrite (proj2 (Z.leb_le _ _)) by lia.
    specialize (IH fuel b' (pre ++ b) t again (step v b) Hbs Ht ltac:(simpl in Hf; lia)).
    cbn [concat] in IH. rewrite <-!app_assoc in IH.
    replace (Z.of_nat (length pre) + Z.of_nat W) with (Z.of_nat (length (pre ++ b)))
      by (rewrite length_app; lia).
    rewrite <-!app_assoc. rewrite IH by (intros p; rewrite Ha; cbn [concat]; by rewrite <-!app_assoc).
    cbn [foldl]. do 2 f_equal. rewrite !length_app. lia.
Qed.

(** What a stream has taken in: whole stripes and a tail, which is in the buffer. *)
Definition holds (v0 : V) (d : list Z) (v : V) (mem : list Z) (memsize : Z) : Prop :=
  ∃ bs t, d = concat bs ++ t ∧ Forall (λ b, length b = W) bs ∧ (length t < W)%nat ∧
    v = foldl step v0 bs ∧ length mem = W ∧ memsize = Z.of_nat (length t) ∧ take (length t) mem = t.

Lemma XXH_memcpy_app dst src a b c x y z doff soff n :
  dst = x ++ y ++ z → src = a ++ b ++ c → length y = length b →
  doff = Z.of_nat (length x) → soff = Z.of_nat (length a) → n = Z.of_nat (length b) →
  XXH_memcpy dst doff src soff n = Some (x ++ b ++ z).
Proof.
  intros -> -> Hl -> -> ->. unfold XXH_memcpy.
  rewrite !(proj2 (Z.leb_le _ _)) by (rewrite ?length_app; lia). cbn [andb].
  rewrite <-Nat2Z.inj_add, !Nat2Z.id, take_app_length, drop_app_length, take_app_length.
  do 3 f_equal. rewrite app_assoc, <-Hl. apply drop_app_length'. by rewrite length_app.
Qed.

(** Cutting a list into stripes and a tail. *)
Lemma split_stripes (d : list Z) :
  ∃ bs t, d = concat bs ++ t ∧ Forall (λ b, length b = W) bs ∧ (length t < W)%nat.
Proof.
  induction d as [d IH] using (induction_ltof1 _ (@length Z)).
  destruct (decide (length d < W)%nat) as [Hlt|Hge]; [by exists [], d|].
  destruct (IH (drop W d)) as (bs & t & E & Hbs & Ht); [unfold ltof; rewrite length_drop; lia|].
  exists (take W d :: bs), t. split; [|split; [|done]].
  - cbn [concat]. by rewrite <-app_assoc, <-E, take_drop.
  - constructor; [rewrite length_take; lia|done].
Qed.

Lemma ingest_rest_ok v mem pre bs t :
  Forall (λ b, length b = W) bs → (length t < W)%nat → length mem = W →
  ingest_rest (Z.of_nat W) stripe v mem (pre ++ concat bs ++ t) (Z.of_nat (length pre))
    (Z.of_nat (length (pre ++ concat bs ++ t))) =
  Some (foldl step v bs, t ++ drop (length t) mem, Z.of_nat (length t)).
Proof.
  intros Hbs Ht Hm. unfold ingest_rest. set (X := pre ++ concat bs ++ t).
  assert (HX : length X = (length (pre ++ concat bs) + length t)%nat)
    by (unfold X; rewrite !length_app; lia).
  assert (E : (if Z.of_nat (length pre) <=? Z.of_nat (length X) - Z.of_nat W then
      do_stripes (S (Z.to_nat (Z.of_nat (length X)))) (stripe X) (Z.of_nat W)
        (λ p, p <=? Z.of_nat (length X) - Z.of_nat W) (Z.of_nat (length pre)) v
     else Some (v, Z.of_nat (length pre))) = Some (foldl step v bs, Z.of_nat (length (pre ++ concat bs)))).
  { destruct bs as [|b bs].
    - rewrite (proj2 (Z.leb_gt _ _)). 2: { rewrite HX, length_app. simpl. lia. }
      simpl. by rewrite app_nil_r.
    - assert (length b = W) by (by apply Forall_cons in Hbs as [? ?]).
      assert (length bs ≤ length (concat bs))%nat.
      { apply Forall_cons in Hbs as [_ Hbs]. rewrite (concat_blocks_length W bs Hbs). nia. }
      rewrite (proj2 (Z.leb_le _ _)). 2: { rewrite HX, length_app. simpl. rewrite length_app. lia. }
      apply do_stripes_fold; [done..| |].
      + rewrite Nat2Z.id, HX, length_app. simpl. rewrite length_app. lia.
      + intros p. fold X. apply eq_bool_prop_intro. rewrite !Is_true_true, !Z.leb_le. lia. }
  rewrite E. bind_simpl. rewrite HX.
  destruct (Z.ltb_spec (Z.of_nat (length (pre ++ concat bs))) (Z.of_nat (length (pre ++ concat bs) + length t))).
  - replace (Z.of_nat (length (pre ++ concat bs) + length t) - Z.of_nat (length (pre ++ concat bs)))
      with (Z.of_nat (length t)) by lia.
    rewrite (XXH_memcpy_app mem X (pre ++ concat bs) t [] [] (take (length t) mem) (drop (length t) mem)).
    + bind_simpl. simpl. do 2 f_equal. unfold u32, uwrap. rewrite Z.mod_small; [done|].
      change (2 ^ 32) with 4294967296. lia.
    + simpl. by rewrite take_drop.
    + unfold X. by rewrite app_nil_r, <-app_assoc.
    + rewrite length_take. lia.
    + done.
    + done.
    + done.
  - destruct t; [|simpl in *; lia]. done.
Qed.

Lemma ingest_ok v0 d v mem ms input : holds v0 d v mem ms → Z.of_nat (length input) < 2 ^ 63 →
  ∃ v' mem' ms', ingest (Z.of_nat W) stripe v mem ms input (Z.of_nat (length input)) = Some (v', mem', ms') ∧
    holds v0 (d ++ input) v' mem' ms'.
Proof.
  intros (bs & t & -> & Hbs & Ht & -> & Hm & -> & Htk) Hi. unfold ingest.
  assert (Hmem : mem = t ++ drop (length t) mem) by (by rewrite <-Htk at 1; rewrite take_drop).
  assert (Hdl : length (drop (length t) mem) = (W - length t)%nat) by (rewrite length_drop; lia).
  rewrite (uwrap_small 64 (Z.of_nat (length t) + _)) by (change (2 ^ 64) with (2 * 2 ^ 63); lia).
  destruct (Z.ltb_spec (Z.of_nat (length t) + Z.of_nat (length input)) (Z.of_nat W)).
  - rewrite (XXH_memcpy_app mem input [] input [] t (take (length input) (drop (length t) mem))
      (drop (length input) (drop (length t) mem))).
    + bind_simpl. eexists _, _, _. split; [done|]. exists bs, (t ++ input).
      rewrite <-app_assoc. split; [done|]. split; [done|]. rewrite length_app. split; [lia|]. split; [done|].
      split; [rewrite !length_app, length_drop; lia|]. split.
      * unfold u32, uwrap. rewrite Zplus_mod_idemp_r, Z.mod_small; [lia|]. change (2 ^ 32) with 4294967296. lia.
      * rewrite app_assoc. apply take_app_length'. by rewrite length_app.
    + by rewrite take_drop.
    + simpl. by rewrite app_nil_r.
    + rewrite length_take. lia.
    + done.
    + done.
    + done.
  - destruct (Z.eqb_spec (Z.of_nat (length t)) 0) as [Ht0|Ht0]; cbn [negb].
    + destruct t; [|simpl in Ht0; lia]. destruct (split_stripes input) as (bs2 & t2 & -> & Hbs2 & Ht2).
      rewrite (ingest_rest_ok _ mem [] bs2 t2) by done. eexists _, _, _. split; [done|].
      exists (bs ++ bs2), t2. rewrite concat_app, app_nil_r, <-app_assoc. split; [done|].
      split; [by apply Forall_app|]. split; [done|]. split; [by rewrite foldl_app|].
      split; [rewrite length_app, length_drop; lia|]. split; [done|]. apply take_app_length.
    + set (a := take (W - length t) input). set (r := drop (W - length t) input).
      assert (Ha : length a = (W - length t)%nat) by (unfold a; rewrite length_take; lia).
      assert (Hin : input = a ++ r) by (unfold a, r; by rewrite take_drop).
      destruct (split_stripes r) as (bs2 & t2 & Hr & Hbs2 & Ht2).
      replace (Z.of_nat W - Z.of_nat (length t)) with (Z.of_nat (length a)) by lia.
      rewrite (XXH_memcpy_app mem input [] a r t (drop (length t) mem) []);
        [|by rewrite app_nil_r|done|lia|done..]. rewrite app_nil_r. bind_simpl.
      pose proof (stripe_spec [] (t ++ a) [] (foldl step v0 bs) ltac:(rewrite length_app; lia)) as Hs.
      rewrite app_nil_r in Hs. change (Z.of_nat (length [])) with 0 in Hs. rewrite app_nil_l in Hs. rewrite Hs. bind_simpl. rewrite Hin, Hr.
      rewrite ingest_rest_ok; [|done..|rewrite length_app; lia]. eexists _, _, _. split; [done|].
      exists (bs ++ (t ++ a) :: bs2), t2. rewrite concat_app. cbn [concat]. rewrite <-!app_assoc.
      split; [done|]. split. { apply Forall_app. split; [done|]. constructor; [rewrite length_app; lia|done]. }
      split; [done|]. split; [by rewrite foldl_app|].
      split; [rewrite !length_app, length_drop, length_app; lia|]. split; [done|]. apply take_app_length.
Qed.
End stripes.

(** One stripe as a function of its bytes. *)
Definition step32 (v : lanes) (b : list Z) : lanes :=
  let '(v1, v2, v3, v4) := v in
  (XXH32_round v1 (word_at 4 0 b), XXH32_round v2 (word_at 4 4 b),
   XXH32_round v3 (word_at 4 8 b), XXH32_round v4 (word_at 4 12 b)).
Definition step64 (v : lanes) (b : list Z) : lanes :=
  let '(v1, v2, v3, v4) := v in
  (XXH64_round v1 (word_at 8 0 b), XXH64_round v2 (word_at 8 8 b),
   XXH64_round v3 (word_at 8 16 b), XXH64_round v4 (word_at 8 24 b)).

Lemma getblock_at n pre b post off p : (off + n ≤ length b)%nat →
  p = Z.of_nat (length pre) + Z.of_nat off → getblock n (pre ++ b ++ post) p = Some (word_at n off b).
Proof. intros H ->. by apply getblock_in. Qed.

Lemma XXH32_stripe_spec pre b post v : length b = 16%nat →
  XXH32_stripe (pre ++ b ++ post) (Z.of_nat (length pre)) v = Some (step32 v b).
Proof.
  intros Hb. destruct v as [[[v1 v2] v3] v4]. unfold XXH32_stripe, XXH_readLE32.
  rewrite (getblock_at 4 pre b post 0 (Z.of_nat _)), (getblock_at 4 pre b post 4 (_ + 4)),
    (getblock_at 4 pre b post 8 (_ + 8)), (getblock_at 4 pre b post 12 (_ + 12)) by lia. done.
Qed.

Lemma XXH64_stripe_spec pre b post v : length b = 32%nat →
  XXH64_stripe (pre ++ b ++ post) (Z.of_nat (length pre)) v = Some (step64 v b).
Proof.
  intros Hb. destruct v as [[[v1 v2] v3] v4]. unfold XXH64_stripe, XXH_readLE64.
  rewrite (getblock_at 8 pre b post 0 (Z.of_nat _)), (getblock_at 8 pre b post 8 (_ + 8)),
    (getblock_at 8 pre b post 16 (_ + 16)), (getblock_at 8 pre b post 24 (_ + 24)) by lia. done.
Qed.

(** The stripes of a whole input. *)
Lemma oneshot_stripes {V} (W : nat) stripe (step : V → list Z → V) again bs t v :
  (∀ pre b post v, length b = W → stripe (pre ++ b ++ post) (Z.of_nat (length pre)) v = Some (step v b)) →
  (0 < W ≤ 32)%nat → Forall (λ b, length b = W) bs → (length t < W)%nat → bs ≠ [] →
  (∀ p, again p = (p + Z.of_nat W <=? Z.of_nat (length (concat bs ++ t)))) →
  do_stripes (S (Z.to_nat (Z.of_nat (length (concat bs ++ t))))) (stripe (concat bs ++ t)) (Z.of_nat W) again 0 v =
  Some (foldl step v bs, Z.of_nat (length (concat bs))).
Proof.
  intros Hs HW Hbs Ht Hne Ha. destruct bs as [|b bs]; [done|].
  apply (do_stripes_fold W stripe step HW Hs bs _ b [] t); [done..| |done].
  rewrite Nat2Z.id. apply Forall_cons in Hbs as [? Hbs]. cbn [concat].
  rewrite !length_app, (concat_blocks_length W bs Hbs). nia.
Qed.

Lemma tail_agree (bs : list (list Z)) t mem :
  (length t ≤ length mem)%nat → take (length t) mem = t →
  agree (concat bs ++ t) (Z.of_nat (length (concat bs))) mem 0 (Z.of_nat (length t)).
Proof.
  intros Hl Ht i Hi. replace i with (Z.of_nat (Z.to_nat i)) by lia.
  rewrite <-Nat2Z.inj_add, !aget_nat, lookup_app_r by lia.
  replace (length (concat bs) + Z.to_nat i - length (concat bs))%nat with (Z.to_nat i) by lia.
  rewrite Z.add_0_l, aget_nat. rewrite <-Ht at 1. apply lookup_take_lt. lia.
Qed.

Lemma tail_mod (W : nat) (bs : list (list Z)) (t : list Z) :
  Forall (λ b, length b = W) bs → (length t < W)%nat →
  Z.of_nat (length (concat bs ++ t)) mod Z.of_nat W = Z.of_nat (length t).
Proof.
  intros Hbs Ht. rewrite length_app, (concat_blocks_length W bs Hbs), Nat2Z.inj_add, Nat2Z.inj_mul.
  rewrite Z.add_comm, Z.mod_add by lia. apply Z.mod_small. lia.
Qed.

Lemma short_no_stripes (W : nat) (bs : list (list Z)) (t : list Z) :
  Forall (λ b, length b = W) bs → (length t < W)%nat →
  (Z.of_nat W <=? Z.of_nat (length (concat bs ++ t))) = negb (bool_decide (bs = [])).
Proof.
  intros Hbs Ht. destruct bs as [|b bs].
  - simpl. apply Z.leb_gt. lia.
  - apply Forall_cons in Hbs as [Hb _]. cbn [concat]. rewrite (bool_decide_eq_false_2 (_ = [])) by done.
    apply Z.leb_le. rewrite !length_app. lia.
Qed.

Lemma XXH64_blocks bs t seed : Forall (λ b, length b = 32%nat) bs → (length t < 32)%nat →
  XXH64 (concat bs ++ t) (Z.of_nat (length (concat bs ++ t))) seed =
  XXH64_finalize (u64 ((if negb (bool_decide (bs = [])) then XXH64_merge (foldl step64 (XXH64_init seed) bs)
                        else u64 (seed + XXH_PRIME64_5)) + Z.of_nat (length (concat bs ++ t))))
    (concat bs ++ t) (Z.of_nat (length (concat bs))) (Z.of_nat (length (concat bs ++ t))).
Proof.
  intros Hbs Ht. unfold XXH64, XXH64_endian_align.
  change 32 with (Z.of_nat 32) at 1. rewrite (short_no_stripes 32) by done. case_bool_decide; cbn [negb].
  - by subst.
  - rewrite (oneshot_stripes 32 XXH64_stripe step64); [by bind_simpl|by apply XXH64_stripe_spec|lia|done..|].
    intros p. apply eq_bool_prop_intro. rewrite !Is_true_true, Z.leb_le, Z.ltb_lt. lia.
Qed.

Lemma XXH32_blocks bs t seed : Forall (λ b, length b = 16%nat) bs → (length t < 16)%nat →
  XXH32 (concat bs ++ t) (Z.of_nat (length (concat bs ++ t))) seed =
  XXH32_finalize (u32 ((if negb (bool_decide (bs = [])) then XXH32_merge (foldl step32 (XXH32_init seed) bs)
                        else u32 (seed + XXH_PRIME32_5)) + u32 (Z.of_nat (length (concat bs ++ t)))))
    (concat bs ++ t) (Z.of_nat (length (concat bs))) (Z.of_nat (length t)).
Proof.
  intros Hbs Ht. unfold XXH32, XXH32_endian_align.
  rewrite land_15. change 16 with (Z.of_nat 16) at 2.
  rewrite (tail_mod 16) by done.
  change (16 <=? ?x) with (Z.of_nat 16 <=? x). rewrite (short_no_stripes 16) by done. case_bool_decide; cbn [negb].
  - by subst.
  - rewrite (oneshot_stripes 16 XXH32_stripe step32); [by bind_simpl|by apply XXH32_stripe_spec|lia|done..|].
    intros p. apply eq_bool_prop_intro. rewrite !Is_true_true, Z.leb_le, Z.ltb_lt. lia.
Qed.

(** ** Streams *)

(** Calls of [update] with one piece after the other. *)
Fixpoint XXH64_updates (s : XXH64_state) (cs : list (list Z)) : option XXH64_state :=
  match cs with
  | [] => Some s
  | c :: cs => s ← XXH64_update s c (Z.of_nat (length c)); XXH64_updates s cs
  end.
Fixpoint XXH32_updates (s : XXH32_state) (cs : list (list Z)) : option XXH32_state :=
  match cs with
  | [] => Some s
  | c :: cs => s ← XXH32_update s c (Z.of_nat (length c)); XXH32_updates s cs
  end.

Definition inv64 (seed : Z) (d : list Z) (s : XXH64_state) : Prop :=
  total_len s = Z.of_nat (length d) ∧
  holds 32 step64 (XXH64_init seed) d (v64 s) (mem64 s) (memsize64 s).

Definition inv32 (seed : Z) (d : list Z) (s : XXH32_state) : Prop :=
  total_len_32 s = u32 (Z.of_nat (length d)) ∧
  large_len s = Z.b2z (16 <=? Z.of_nat (length d)) ∧
  holds 16 step32 (XXH32_init seed) d (v32 s) (mem32 s) (memsize32 s).

Lemma holds_nil {V} W step (v0 : V) : (0 < W)%nat → holds W step v0 [] v0 (replicate W 0) 0.
Proof. intros HW. exists [], []. rewrite length_replicate. by repeat split. Qed.

Lemma inv64_update seed d s c : inv64 seed d s → Z.of_nat (length (d ++ c)) < 2 ^ 63 →
  ∃ s', XXH64_update s c (Z.of_nat (length c)) = Some s' ∧ inv64 seed (d ++ c) s'.
Proof.
  intros [Ht Hh] Hl. rewrite length_app in Hl. unfold XXH64_update.
  destruct (ingest_ok 32 XXH64_stripe step64 ltac:(lia)
    XXH64_stripe_spec _ _ _ _ _ c Hh) as (v' & mem' & ms' & E & Hh'); [lia|].
  change (Z.of_nat 32) with 32 in E. rewrite E. bind_simpl. eexists. split; [done|].
  split; [|done]. simpl. rewrite Ht, length_app. rewrite uwrap_small; [lia|]. change (2 ^ 64) with (2 * 2 ^ 63). lia.
Qed.

Lemma inv32_update seed d s c : inv32 seed d s → Z.of_nat (length (d ++ c)) < 2 ^ 63 →
  ∃ s', XXH32_update s c (Z.of_nat (length c)) = Some s' ∧ inv32 seed (d ++ c) s'.
Proof.
  intros (Ht & Hlarge & Hh) Hl. rewrite length_app in Hl. unfold XXH32_update.
  destruct (ingest_ok 16 XXH32_stripe step32 ltac:(lia)
    XXH32_stripe_spec _ _ _ _ _ c Hh) as (v' & mem' & ms' & E & Hh'); [lia|].
  change (Z.of_nat 16) with 16 in E. rewrite E. bind_simpl. eexists. split; [done|].
  assert (Hsum : u32 (total_len_32 s + u32 (Z.of_nat (length c))) = u32 (Z.of_nat (length (d ++ c)))).
  { rewrite Ht, length_app, Nat2Z.inj_add. unfold u32, uwrap. by rewrite <-Zplus_mod. }
  split; [exact Hsum|]. split; [|done]. cbn [large_len]. rewrite Hsum, Hlarge, length_app.
  destruct (Z.leb_spec 16 (Z.of_nat (length d))).
  - rewrite (proj2 (Z.leb_le 16 (Z.of_nat (length d + length c)))) by lia. by destruct (_ || _).
  - rewrite Z.lor_0_l. destruct (Z.leb_spec 16 (Z.of_nat (length c))); cbn [orb].
    + by rewrite (proj2 (Z.leb_le 16 (Z.of_nat (length d + length c)))) by lia.
    + rewrite uwrap_small; [done|]. change (2 ^ 32) with 4294967296. lia.
Qed.

Lemma XXH64_updates_ok seed cs : ∀ d s, inv64 seed d s → Z.of_nat (length (d ++ concat cs)) < 2 ^ 63 →
  ∃ s', XXH64_updates s cs = Some s' ∧ inv64 seed (d ++ concat cs) s'.
Proof.
  induction cs as [|c cs IH]; intros d s HI Hl; cbn [XXH64_updates concat].
  - rewrite app_nil_r. by eexists.
  - cbn [concat] in Hl. rewrite app_assoc in *.
    destruct (inv64_update seed d s c HI) as (s' & -> & HI'); [rewrite !length_app in *; lia|].
    bind_simpl. by apply IH.
Qed.

Lemma XXH32_updates_ok seed cs : ∀ d s, inv32 seed d s → Z.of_nat (length (d ++ concat cs)) < 2 ^ 63 →
  ∃ s', XXH32_updates s cs = Some s' ∧ inv32 seed (d ++ concat cs) s'.
Proof.
  induction cs as [|c cs IH]; intros d s HI Hl; cbn [XXH32_updates concat].
  - rewrite app_nil_r. by eexists.
  - cbn [concat] in Hl. rewrite app_assoc in *.
    destruct (inv32_update seed d s c HI) as (s' & -> & HI'); [rewrite !length_app in *; lia|].
    bind_simpl. by apply IH.
Qed.

Lemma XXH64_digest_ok seed d s : inv64 seed d s → uint_ok 64 seed →
  XXH64_digest s = XXH64 d (Z.of_nat (length d)) seed.
Proof.
  intros [Ht (bs & t & -> & Hbs & Htl & Hv & Hm & Hms & Htk)] Hseed.
  rewrite XXH64_blocks by done. unfold XXH64_digest. rewrite Ht, Hv.
  change 32 with (Z.of_nat 32) at 1. rewrite (short_no_stripes 32) by done.
  rewrite (XXH64_finalize_agree (concat bs ++ t) (mem64 s) _ _ 0).
  - destruct (foldl step64 (XXH64_init seed) bs) as [[[v1 v2] v3] v4] eqn:E.
    case_bool_decide as Hb; cbn [negb]; [|done]. subst bs. cbn [foldl] in E. unfold XXH64_init in E.
    injection E as <- <- <- <-. rewrite Z.add_0_r, (uwrap_small 64 seed) by done. done.
  - rewrite land_31. change 32 with (Z.of_nat 32).
    rewrite (tail_mod 32) by done. apply tail_agree; [lia|done].
Qed.

Lemma XXH32_digest_ok seed d s : inv32 seed d s → uint_ok 32 seed →
  XXH32_digest s = XXH32 d (Z.of_nat (length d)) seed.
Proof.
  intros (Ht & Hlarge & (bs & t & -> & Hbs & Htl & Hv & Hm & Hms & Htk)) Hseed.
  rewrite XXH32_blocks by done. unfold XXH32_digest. rewrite Ht, Hv, Hlarge, Hms.
  change 16 with (Z.of_nat 16) at 1. rewrite (short_no_stripes 16) by done.
  rewrite (XXH32_finalize_agree (concat bs ++ t) (mem32 s) _ _ 0).
  - destruct (foldl step32 (XXH32_init seed) bs) as [[[v1 v2] v3] v4] eqn:E.
    case_bool_decide as Hb; cbn [negb]; [|done]. subst bs. cbn [foldl] in E. unfold XXH32_init in E.
    injection E as <- <- <- <-. rewrite Z.add_0_r, (uwrap_small 32 seed) by done. done.
  - rewrite land_15. rewrite Z.mod_small by lia.
    apply tail_agree; [lia|done].
Qed.

Lemma XXH64_total d seed : bytes_ok d → ∃ h, XXH64 d (Z.of_nat (length d)) seed = Some h.
Proof.
  intros Hd. destruct (split_stripes 32 ltac:(lia) d)
    as (bs & t & -> & Hbs & Ht).
  rewrite XXH64_blocks by done. apply XXH64_finalize_total; [done|lia|].
  rewrite land_31. change 32 with (Z.of_nat 32).
  rewrite (tail_mod 32), length_app by done. lia.
Qed.

Lemma XXH32_total d seed : bytes_ok d → ∃ h, XXH32 d (Z.of_nat (length d)) seed = Some h.
Proof.
  intros Hd. destruct (split_stripes 16 ltac:(lia) d)
    as (bs & t & -> & Hbs & Ht).
  rewrite XXH32_blocks by done. apply XXH32_finalize_total; [done|lia|].
  rewrite land_15.
  rewrite Z.mod_small by lia. rewrite length_app. lia.
Qed.

(** C28 [equivalence]. A stream gives the hash of all of its input: for both functions, any seed and
    any way to cut the input into pieces (empty ones included), calls of [update] with the pieces
    succeed, and [digest] returns what one call on the concatenation returns. All accesses stay
    inside of the input and of the buffer of the stream. *)
Theorem xxhash_stream_equals_oneshot (cs : list (list Z)) (seed32 seed64 : Z)
    (Hcs : bytes_ok (concat cs)) (Hl : Z.of_nat (length (concat cs)) < 2 ^ 63)
    (H32 : uint_ok 32 seed32) (H64 : uint_ok 64 seed64) :
  let d := concat cs in
  (∃ s h, XXH32_updates (XXH32_reset seed32) cs = Some s ∧ XXH32_digest s = Some h ∧
     XXH32 d (Z.of_nat (length d)) seed32 = Some h) ∧
  (∃ s h, XXH64_updates (XXH64_reset seed64) cs = Some s ∧ XXH64_digest s = Some h ∧
     XXH64 d (Z.of_nat (length d)) seed64 = Some h).
Proof.
  split.
  - destruct (XXH32_updates_ok seed32 cs [] (XXH32_reset seed32)) as (s & E & HI);
      [split; [done|split; [done|by apply (holds_nil 16); lia]]|done|].
    destruct (XXH32_total _ seed32 Hcs) as [h Hh]. exists s, h. split; [done|]. split; [|done].
    by rewrite (XXH32_digest_ok seed32 (concat cs)).
  - destruct (XXH64_updates_ok seed64 cs [] (XXH64_reset seed64)) as (s & E & HI);
      [split; [done|by apply (holds_nil 32); lia]|done|].
    destruct (XXH64_total _ seed64 Hcs) as [h Hh]. exists s, h. split; [done|]. split; [|done].
    by rewrite (XXH64_digest_ok seed64 (concat cs)).
Qed.

Definition demo_pieces : list (list Z) := [[1; 2; 3]; []; replicate 40 7; [200; 255]].

Lemma xxhash_stream_equals_oneshot_witness :
  (∃ s h, XXH32_updates (XXH32_reset 5) demo_pieces = Some s ∧ XXH32_digest s = Some h ∧
     XXH32 (concat demo_pieces) 45 5 = Some h) ∧
  (∃ s h, XXH64_updates (XXH64_reset 6) demo_pieces = Some s ∧ XXH64_digest s = Some h ∧
     XXH64 (concat demo_pieces) 45 6 = Some h).
Proof.
  apply (xxhash_stream_equals_oneshot demo_pieces 5 6).
  - repeat constructor; unfold byte_ok; lia.
  - vm_compute. reflexivity.
  - split; vm_compute; [discriminate|reflexivity].
  - split; vm_compute; [discriminate|reflexivity].
Defined.

(** ** The two variants of the last step *)

Lemma below_cases (n : nat) m : 0 ≤ m < Z.of_nat n → In m (map Z.of_nat (seq 0 n)).
Proof. intros Hm. apply in_map_iff. exists (Z.to_nat m). split; [lia|]. apply in_seq. lia. Qed.

(** All cases of a number below a bound. *)
Ltac below n m H :=
  let Hc := fresh in
  let l := eval vm_compute in (map Z.of_nat (seq 0 n)) in
  assert (Hc : In m l) by exact (below_cases n m H); cbn [In] in Hc;
  repeat destruct Hc as [<-|Hc]; [..|done].

Lemma getblock_1 X p : getblock 1 X p = aget X p.
Proof. cbn [getblock]. destruct (aget X p) as [b|]; [|done]. bind_simpl. f_equal. lia. Qed.

(** One step of both variants: a decided comparison, or a load. *)
Ltac run_process :=
  match goal with
  | |- ?x = ?x => reflexivity
  | |- context [if ?b then _ else _] => let v := eval vm_compute in b in change b with v; cbv iota
  | |- context [getblock 1 ?X ?p] => rewrite (getblock_1 X p)
  | H : aget ?X ?p = _ |- context [aget ?X ?p] => rewrite H
  | H : getblock 4 ?X ?p = _ |- context [getblock 4 ?X ?p] => rewrite H
  | |- context [getblock 4 ?X ?p] => destruct (getblock 4 X p) eqn:?
  | |- context [aget ?X ?p] => destruct (aget X p) eqn:?
  end; cbn [mbind option_bind].

(** The rerolled loops of [XXH32_finalize] and its [switch] compute the same hash and read the
    same bytes. *)
Theorem XXH32_finalize_variants hash data ptr len :
  XXH32_finalize hash data ptr len = XXH32_finalize_endjmp hash data ptr len.
Proof.
  unfold XXH32_finalize, XXH32_finalize_endjmp. rewrite land_15.
  pose proof (Z.mod_pos_bound len 16 ltac:(lia)) as Hm. revert Hm. generalize (len mod 16). intros m Hm.
  unfold P1, P4, XXH_readLE32.
  below 16%nat m Hm.
  all: cbn [process]; change (Z.of_nat 4) with 4; change (Z.of_nat 1) with 1.
  all: repeat run_process.
Qed.

(** ** Canonical representations *)

Lemma getblock_le_bytes n x post pre : 0 ≤ x < 256 ^ Z.of_nat n →
  getblock n (pre ++ le_bytes n x ++ post) (Z.of_nat (length pre)) = Some x.
Proof.
  revert x pre. induction n as [|n IH]; intros x pre Hx; [simpl in *; f_equal; lia|].
  cbn [getblock le_bytes]. rewrite aget_nat. rewrite lookup_app_r, Nat.sub_diag by lia. cbn. bind_simpl.
  rewrite Nat2Z.inj_succ, Z.pow_succ_r in Hx by lia.
  specialize (IH (x / 256) (pre ++ [x mod 256])). rewrite length_app, <-app_assoc in IH. cbn [app length] in IH.
  rewrite Nat2Z.inj_add in IH. change (Z.of_nat 1) with 1 in IH. rewrite IH.
  - bind_simpl. f_equal. pose proof (Z_div_mod_eq_full x 256). lia.
  - split; [apply Z.div_pos; lia|]. apply Z.div_lt_upper_bound; lia.
Qed.

Lemma swap_bits w (f : Z → Z) (Hok : ∀ x, uint_ok w (f x)) (g : Z → Z) :
  0 ≤ w → (∀ i, 0 ≤ i < w → 0 ≤ g i < w ∧ g (g i) = i) →
  (∀ x i, 0 ≤ i < w → Z.testbit (f x) i = Z.testbit x (g i)) →
  ∀ x, uint_ok w x → f (f x) = x.
Proof.
  intros Hw Hg Hf x Hx. apply Z.bits_inj'. intros i Hi. destruct (Z.ltb_spec i w).
  - destruct (Hg i) as [? E]; [lia|]. by rewrite !Hf, E by lia.
  - rewrite (testbit_small (f (f x)) w), (testbit_small x w) by (done || lia || apply Hok). done.
Qed.

(** The position that a byte swap of [n] bytes takes a bit from. *)
Definition swap_pos (n i : Z) : Z := 8 * (n - 1 - i / 8) + i mod 8.


(** Bits of constant masks. *)
Ltac masks :=
  repeat match goal with |- context [Z.testbit (Zpos ?a) ?b] =>
    let v := eval vm_compute in (Z.testbit (Zpos a) b) in change (Z.testbit (Zpos a) b) with v end;
  rewrite ?andb_false_r, ?andb_true_r, ?orb_false_l, ?orb_false_r; reflexivity.

Lemma XXH_swap32_bits x i : 0 ≤ i < 32 → Z.testbit (XXH_swap32 x) i = Z.testbit x (swap_pos 4 i).
Proof.
  intros Hi. unfold XXH_swap32.
  rewrite !Z.lor_spec, !Z.land_spec, !testbit_uwrap, !Z.shiftl_spec, !Z.shiftr_spec by lia.
  below 32%nat i Hi.
  all: masks.
Qed.

Lemma XXH_swap64_bits x i : 0 ≤ i < 64 → Z.testbit (XXH_swap64 x) i = Z.testbit x (swap_pos 8 i).
Proof.
  intros Hi. unfold XXH_swap64.
  rewrite !Z.lor_spec, !Z.land_spec, !testbit_uwrap, !Z.shiftl_spec, !Z.shiftr_spec by lia.
  below 64%nat i Hi.
  all: masks.
Qed.

Lemma land_mask_ok w a m : 0 ≤ w → 0 ≤ m < 2 ^ w → uint_ok w (Z.land a m).
Proof. intros Hw Hm. rewrite Z.land_comm. by apply land_range_l. Qed.

Lemma XXH_swap32_ok x : uint_ok 32 (XXH_swap32 x).
Proof. unfold XXH_swap32. repeat apply lor_range; try lia; apply land_mask_ok; lia. Qed.

Lemma XXH_swap64_ok x : uint_ok 64 (XXH_swap64 x).
Proof. unfold XXH_swap64. repeat apply lor_range; try lia; apply land_mask_ok; lia. Qed.

Lemma swap_pos_invol n i : 0 < n → 0 ≤ i < 8 * n →
  0 ≤ swap_pos n i < 8 * n ∧ swap_pos n (swap_pos n i) = i.
Proof.
  intros Hn Hi. unfold swap_pos. pose proof (Z.mod_pos_bound i 8 ltac:(lia)).
  pose proof (Z_div_mod_eq_full i 8). split; [nia|].
  rewrite (Z.add_comm (8 * (n - 1 - i / 8))), (Z.mul_comm 8 (n - 1 - i / 8)), Z.div_add, Z.mod_add by lia.
  rewrite Z.div_small, Z.mod_small by lia. lia.
Qed.

Lemma XXH_swap32_invol x : uint_ok 32 x → XXH_swap32 (XXH_swap32 x) = x.
Proof.
  apply (swap_bits 32 _ XXH_swap32_ok (swap_pos 4)); [lia|intros; by apply swap_pos_invol|].
  intros. by apply XXH_swap32_bits.
Qed.

Lemma XXH_swap64_invol x : uint_ok 64 x → XXH_swap64 (XXH_swap64 x) = x.
Proof.
  apply (swap_bits 64 _ XXH_swap64_ok (swap_pos 8)); [lia|intros; by apply swap_pos_invol|].
  intros. by apply XXH_swap64_bits.
Qed.

Lemma le_bytes_length n x : length (le_bytes n x) = n.
Proof. revert x. induction n; intros x; simpl; auto. Qed.

Lemma getblock_le_bytes_0 n x : 0 ≤ x < 256 ^ Z.of_nat n → getblock n (le_bytes n x) 0 = Some x.
Proof. intros Hx. pose proof (getblock_le_bytes n x [] [] Hx) as H. by rewrite app_nil_r in H. Qed.

(** The canonical representation of a hash, 4 or 8 bytes long, gives back the hash. *)
Theorem xxhash_canonical_roundtrip h32 h64 : uint_ok 32 h32 → uint_ok 64 h64 →
  (length (XXH32_canonicalFromHash h32) = 4%nat ∧
   XXH32_hashFromCanonical (XXH32_canonicalFromHash h32) = Some h32) ∧
  (length (XXH64_canonicalFromHash h64) = 8%nat ∧
   XXH64_hashFromCanonical (XXH64_canonicalFromHash h64) = Some h64).
Proof.
  intros H32 H64. unfold XXH32_canonicalFromHash, XXH64_canonicalFromHash. rewrite !le_bytes_length.
  unfold XXH32_hashFromCanonical, XXH64_hashFromCanonical, XXH_readBE32, XXH_readBE64.
  rewrite (getblock_le_bytes_0 4) by apply XXH_swap32_ok.
  rewrite (getblock_le_bytes_0 8) by apply XXH_swap64_ok. bind_simpl.
  by rewrite XXH_swap32_invol, XXH_swap64_invol.
Qed.
