(* ===== verification/Xxh3.v ===== *)
(** * XXH3_64bits in one call (src/cpp-util/xxhash.h)

    The hash that the CAS hash table uses, for inputs of every length, with the default secret, a
    seed or a secret of the caller.  Long inputs go through functions that the header
    has in several variants; the class [Vector] is their interface, and the scalar and the SSE2 variant are
    instances.  [None] is an access outside of a buffer or a failed [XXH_ASSERT].

    The theorems: every length is hashed without leaving the input and the secret; both variants give the
    same hash; two different keys of eight bytes never collide; the portable 64-bit multiplication
    is exact. *)

From S2P Require Import Prelude Slice Murmur Arrays XxHash.

(** ** Constants *)

(** src/cpp-util/xxhash.h:3628-3641, [XXH3_kSecret]. *)
Definition XXH3_kSecret : list Z :=
  [0xb8; 0xfe; 0x6c; 0x39; 0x23; 0xa4; 0x4b; 0xbe; 0x7c; 0x01; 0x81; 0x2c; 0xf7; 0x21; 0xad; 0x1c;
   0xde; 0xd4; 0x6d; 0xe9; 0x83; 0x90; 0x97; 0xdb; 0x72; 0x40; 0xa4; 0xa4; 0xb7; 0xb3; 0x67; 0x1f;
   0xcb; 0x79; 0xe6; 0x4e; 0xcc; 0xc0; 0xe5; 0x78; 0x82; 0x5a; 0xd0; 0x7d; 0xcc; 0xff; 0x72; 0x21;
   0xb8; 0x08; 0x46; 0x74; 0xf7; 0x43; 0x24; 0x8e; 0xe0; 0x35; 0x90; 0xe6; 0x81; 0x3a; 0x26; 0x4c;
   0x3c; 0x28; 0x52; 0xbb; 0x91; 0xc3; 0x00; 0xcb; 0x88; 0xd0; 0x65; 0x8b; 0x1b; 0x53; 0x2e; 0xa3;
   0x71; 0x64; 0x48; 0x97; 0xa2; 0x0d; 0xf9; 0x4e; 0x38; 0x19; 0xef; 0x46; 0xa9; 0xde; 0xac; 0xd8;
   0xa8; 0xfa; 0x76; 0x3f; 0xe3; 0x9c; 0x34; 0x3f; 0xf9; 0xdc; 0xbb; 0xc7; 0xc7; 0x0b; 0x4f; 0x1d;
   0x8a; 0x51; 0xe0; 0x4b; 0xcd; 0xb4; 0x59; 0x31; 0xc8; 0x9f; 0x7e; 0xc9; 0xd9; 0x78; 0x73; 0x64;
   0xea; 0xc5; 0xac; 0x83; 0x34; 0xd3; 0xeb; 0xc3; 0xc5; 0x81; 0xa0; 0xff; 0xfa; 0x13; 0x63; 0xeb;
   0x17; 0x0d; 0xdd; 0x51; 0xb7; 0xf0; 0xda; 0x49; 0xd3; 0x16; 0x55; 0x26; 0x29; 0xd4; 0x68; 0x9e;
   0x2b; 0x16; 0xbe; 0x58; 0x7d; 0x47; 0xa1; 0xfc; 0x8f; 0xf8; 0xb8; 0xd1; 0x7a; 0xd0; 0x31; 0xce;
   0x45; 0xcb; 0x3a; 0x8f; 0x95; 0x16; 0x04; 0x28; 0xaf; 0xd7; 0xfb; 0xca; 0xbb; 0x4b; 0x40; 0x7e].

Definition XXH_SECRET_DEFAULT_SIZE : Z := 192.
Definition XXH3_SECRET_SIZE_MIN : Z := 136.
Definition XXH3_MIDSIZE_MAX : Z := 240.
Definition XXH_STRIPE_LEN : Z := 64.
Definition XXH_SECRET_CONSUME_RATE : Z := 8.
Definition XXH_SECRET_LASTACC_START : Z := 7.
Definition XXH_SECRET_MERGEACCS_START : Z := 11.

(** [XXH_ASSERT]. *)
Definition XXH_ASSERT (b : bool) : option unit := if b then Some tt else None.

(** ** Arithmetic *)

(** src/cpp-util/xxhash.h:3680, [XXH_mult32to64]. *)
Definition XXH_mult32to64 (x y : Z) : Z := u64 (u32 x * u32 y).

(** src/cpp-util/xxhash.h:3714-3718, [XXH_mult64to128]. The low and the high half of the product. *)
Definition XXH_mult64to128 (lhs rhs : Z) : Z * Z :=
  let product := lhs * rhs in
  (u64 product, u64 (product ≫ 64)).

(** src/cpp-util/xxhash.h:3799-3812, [XXH_mult64to128]. The variant without 128-bit integers. *)
Definition XXH_mult64to128_portable (lhs rhs : Z) : Z * Z :=
  let lo_lo := XXH_mult32to64 (Z.land lhs 0xFFFFFFFF) (Z.land rhs 0xFFFFFFFF) in
  let hi_lo := XXH_mult32to64 (lhs ≫ 32) (Z.land rhs 0xFFFFFFFF) in
  let lo_hi := XXH_mult32to64 (Z.land lhs 0xFFFFFFFF) (rhs ≫ 32) in
  let hi_hi := XXH_mult32to64 (lhs ≫ 32) (rhs ≫ 32) in
  let cross := u64 (u64 ((lo_lo ≫ 32) + Z.land hi_lo 0xFFFFFFFF) + lo_hi) in
  let upper := u64 (u64 ((hi_lo ≫ 32) + (cross ≫ 32)) + hi_hi) in
  let lower := Z.lor (u64 (cross ≪ 32)) (Z.land lo_lo 0xFFFFFFFF) in
  (lower, upper).

(** src/cpp-util/xxhash.h:3826-3831, [XXH3_mul128_fold64]. *)
Definition XXH3_mul128_fold64 (lhs rhs : Z) : Z :=
  let '(low64, high64) := XXH_mult64to128 lhs rhs in Z.lxor low64 high64.

(** src/cpp-util/xxhash.h:3834-3838, [XXH_xorshift64]. *)
Definition XXH_xorshift64 (v64 shift : Z) : Z := Z.lxor v64 (v64 ≫ shift).

(** src/cpp-util/xxhash.h:3844-3850, [XXH3_avalanche]. *)
Definition XXH3_avalanche (h64 : Z) : Z :=
  let h64 := XXH_xorshift64 h64 37 in
  let h64 := u64 (h64 * 0x165667919E3779F9) in
  XXH_xorshift64 h64 32.

(** src/cpp-util/xxhash.h:3857-3865, [XXH3_rrmxmx]. *)
Definition XXH3_rrmxmx (h64 len : Z) : Z :=
  let h64 := Z.lxor h64 (Z.lxor (XXH_rotl64 h64 49) (XXH_rotl64 h64 24)) in
  let h64 := u64 (h64 * 0x9FB21C651E98DF25) in
  let h64 := Z.lxor h64 (u64 ((h64 ≫ 35) + len)) in
  let h64 := u64 (h64 * 0x9FB21C651E98DF25) in
  XXH_xorshift64 h64 28.

(** ** Short inputs *)

(** src/cpp-util/xxhash.h:3901-3920, [XXH3_len_1to3_64b]. *)
Definition XXH3_len_1to3_64b (input : list Z) (len : Z) (secret : list Z) (seed : Z) : option Z :=
  _ ← XXH_ASSERT ((1 <=? len) && (len <=? 3));
  c1 ← aget input 0;
  c2 ← aget input (len ≫ 1);
  c3 ← aget input (len - 1);
  let combined := Z.lor (Z.lor (Z.lor (u32 (c1 ≪ 16)) (u32 (c2 ≪ 24))) c3) (u32 (len ≪ 8)) in
  s0 ← XXH_readLE32 secret 0; s4 ← XXH_readLE32 secret 4;
  let bitflip := u64 (Z.lxor s0 s4 + seed) in
  let keyed := Z.lxor combined bitflip in
  Some (XXH64_avalanche keyed).

(** src/cpp-util/xxhash.h:3923-3936, [XXH3_len_4to8_64b]. *)
Definition XXH3_len_4to8_64b (input : list Z) (len : Z) (secret : list Z) (seed : Z) : option Z :=
  _ ← XXH_ASSERT ((4 <=? len) && (len <=? 8));
  let seed := Z.lxor seed (u64 (XXH_swap32 (u32 seed) ≪ 32)) in
  input1 ← XXH_readLE32 input 0;
  input2 ← XXH_readLE32 input (len - 4);
  s8 ← XXH_readLE64 secret 8; s16 ← XXH_readLE64 secret 16;
  let bitflip := u64 (Z.lxor s8 s16 - seed) in
  let input64 := u64 (input2 + u64 (input1 ≪ 32)) in
  let keyed := Z.lxor input64 bitflip in
  Some (XXH3_rrmxmx keyed len).

(** src/cpp-util/xxhash.h:3939-3954, [XXH3_len_9to16_64b]. *)
Definition XXH3_len_9to16_64b (input : list Z) (len : Z) (secret : list Z) (seed : Z) : option Z :=
  _ ← XXH_ASSERT ((9 <=? len) && (len <=? 16));
  s24 ← XXH_readLE64 secret 24; s32 ← XXH_readLE64 secret 32;
  s40 ← XXH_readLE64 secret 40; s48 ← XXH_readLE64 secret 48;
  let bitflip1 := u64 (Z.lxor s24 s32 + seed) in
  let bitflip2 := u64 (Z.lxor s40 s48 - seed) in
  i0 ← XXH_readLE64 input 0; i1 ← XXH_readLE64 input (len - 8);
  let input_lo := Z.lxor i0 bitflip1 in
  let input_hi := Z.lxor i1 bitflip2 in
  let acc := u64 (len + XXH_swap64 input_lo + input_hi + XXH3_mul128_fold64 input_lo input_hi) in
  Some (XXH3_avalanche acc).

(** src/cpp-util/xxhash.h:3956-3965, [XXH3_len_0to16_64b]. *)
Definition XXH3_len_0to16_64b (input : list Z) (len : Z) (secret : list Z) (seed : Z) : option Z :=
  _ ← XXH_ASSERT (len <=? 16);
  if 8 <? len then XXH3_len_9to16_64b input len secret seed
  else if 4 <=? len then XXH3_len_4to8_64b input len secret seed
  else if negb (len =? 0) then XXH3_len_1to3_64b input len secret seed
  else s56 ← XXH_readLE64 secret 56; s64 ← XXH_readLE64 secret 64;
       Some (XXH64_avalanche (Z.lxor seed (Z.lxor s56 s64))).

(** ** Inputs of medium length *)

(** src/cpp-util/xxhash.h:3993-4023, [XXH3_mix16B]. The pointers are an array and an offset. *)
Definition XXH3_mix16B (input : list Z) (i : Z) (secret : list Z) (s : Z) (seed64 : Z) : option Z :=
  input_lo ← XXH_readLE64 input i; input_hi ← XXH_readLE64 input (i + 8);
  s_lo ← XXH_readLE64 secret s; s_hi ← XXH_readLE64 secret (s + 8);
  Some (XXH3_mul128_fold64 (Z.lxor input_lo (u64 (s_lo + seed64))) (Z.lxor input_hi (u64 (s_hi - seed64)))).

(** src/cpp-util/xxhash.h:4026-4062, [XXH3_len_17to128_64b]. *)
Definition XXH3_len_17to128_64b (input : list Z) (len : Z) (secret : list Z) (secretSize seed : Z) :
    option Z :=
  _ ← XXH_ASSERT (XXH3_SECRET_SIZE_MIN <=? secretSize);
  _ ← XXH_ASSERT ((16 <? len) && (len <=? 128));
  let mix i s := XXH3_mix16B input i secret s seed in
  let acc := u64 (len * XXH_PRIME64_1) in
  m ← mix 0 0; let acc := u64 (acc + m) in
  acc_end ← mix (len - 16) 16;
  '(acc, acc_end) ←
    (if 32 <? len then
       m ← mix 16 32; let acc := u64 (acc + m) in
       m ← mix (len - 32) 48; let acc_end := u64 (acc_end + m) in
       if 64 <? len then
         m ← mix 32 64; let acc := u64 (acc + m) in
         m ← mix (len - 48) 80; let acc_end := u64 (acc_end + m) in
         if 96 <? len then
           m ← mix 48 96; let acc := u64 (acc + m) in
           m ← mix (len - 64) 112; let acc_end := u64 (acc_end + m) in
           Some (acc, acc_end)
         else Some (acc, acc_end)
       else Some (acc, acc_end)
     else Some (acc, acc_end));
  Some (XXH3_avalanche (u64 (acc + acc_end))).

(** src/cpp-util/xxhash.h:4066-4123, [XXH3_len_129to240_64b]. *)
Definition XXH3_len_129to240_64b (input : list Z) (len : Z) (secret : list Z) (secretSize seed : Z) :
    option Z :=
  _ ← XXH_ASSERT (XXH3_SECRET_SIZE_MIN <=? secretSize);
  _ ← XXH_ASSERT ((128 <? len) && (len <=? XXH3_MIDSIZE_MAX));
  let acc := u64 (len * XXH_PRIME64_1) in
  let nbRounds := u32 len / 16 in
  acc ← for_up 8 0 (λ i acc, m ← XXH3_mix16B input (16 * i) secret (16 * i) seed; Some (u64 (acc + m))) acc;
  acc_end ← XXH3_mix16B input (len - 16) secret (XXH3_SECRET_SIZE_MIN - 17) seed;
  _ ← XXH_ASSERT (8 <=? nbRounds);
  let acc := XXH3_avalanche acc in
  acc_end ← for_up (Z.to_nat (nbRounds - 8)) 8
    (λ i acc_end, m ← XXH3_mix16B input (16 * i) secret (16 * (i - 8) + 3) seed; Some (u64 (acc_end + m)))
    acc_end;
  Some (XXH3_avalanche (u64 (acc + acc_end))).

(** ** Long inputs: the scalar variant *)

(** src/cpp-util/xxhash.h:4896-4913, [XXH3_scalarRound]. *)
Definition XXH3_scalarRound (acc : list Z) (input : list Z) (p : Z) (secret : list Z) (s lane : Z) :
    option (list Z) :=
  data_val ← XXH_readLE64 input (p + lane * 8);
  k ← XXH_readLE64 secret (s + lane * 8);
  let data_key := Z.lxor data_val k in
  a ← aget acc (Z.lxor lane 1);
  acc ← aset acc (Z.lxor lane 1) (u64 (a + data_val));
  a ← aget acc lane;
  aset acc lane (u64 (a + XXH_mult32to64 (Z.land data_key 0xFFFFFFFF) (data_key ≫ 32))).

(** src/cpp-util/xxhash.h:4919-4935, [XXH3_accumulate_512_scalar]. *)
Definition XXH3_accumulate_512_scalar (acc : list Z) (input : list Z) (p : Z) (secret : list Z) (s : Z) :
    option (list Z) :=
  for_up 8 0 (λ i acc, XXH3_scalarRound acc input p secret s i) acc.

(** src/cpp-util/xxhash.h:4945-4961, [XXH3_scalarScrambleRound]. *)
Definition XXH3_scalarScrambleRound (acc : list Z) (secret : list Z) (s lane : Z) : option (list Z) :=
  key64 ← XXH_readLE64 secret (s + lane * 8);
  acc64 ← aget acc lane;
  let acc64 := XXH_xorshift64 acc64 47 in
  let acc64 := Z.lxor acc64 key64 in
  let acc64 := u64 (acc64 * XXH_PRIME32_1) in
  aset acc lane acc64.

(** src/cpp-util/xxhash.h:4968-4975, [XXH3_scrambleAcc_scalar]. *)
Definition XXH3_scrambleAcc_scalar (acc : list Z) (secret : list Z) (s : Z) : option (list Z) :=
  for_up 8 0 (λ i acc, XXH3_scalarScrambleRound acc secret s i) acc.

(** src/cpp-util/xxhash.h:4178-4182, [XXH_writeLE64]. *)
Definition XXH_writeLE64 (dst : list Z) (p v64 : Z) : option (list Z) :=
  XXH_memcpy dst p (le_bytes 8 v64) 0 8.

(** src/cpp-util/xxhash.h:4977-5043, [XXH3_initCustomSecret_scalar]. *)
Definition XXH3_initCustomSecret_scalar (customSecret : list Z) (seed64 : Z) : option (list Z) :=
  for_up (Z.to_nat (XXH_SECRET_DEFAULT_SIZE / 16)) 0 (λ i dst,
    s_lo ← XXH_readLE64 XXH3_kSecret (16 * i);
    s_hi ← XXH_readLE64 XXH3_kSecret (16 * i + 8);
    let lo := u64 (s_lo + seed64) in
    let hi := u64 (s_hi - seed64) in
    dst ← XXH_writeLE64 dst (16 * i) lo;
    XXH_writeLE64 dst (16 * i + 8) hi) customSecret.

(** ** Long inputs: the SSE2 variant *)

(** A 128-bit register as its low and its high 64 bits, and the intrinsics that the code uses. *)
Definition m128i : Type := Z * Z.
Definition mm_loadu_si128 (X : list Z) (p : Z) : option m128i :=
  lo ← getblock 8 X p; hi ← getblock 8 X (p + 8); Some (lo, hi).
Definition mm_xor_si128 (a b : m128i) : m128i := (Z.lxor a.1 b.1, Z.lxor a.2 b.2).
Definition mm_add_epi64 (a b : m128i) : m128i := (u64 (a.1 + b.1), u64 (a.2 + b.2)).
Definition mm_mul_epu32 (a b : m128i) : m128i := (u32 a.1 * u32 b.1, u32 a.2 * u32 b.2).
Definition mm_srli_epi64 (a : m128i) (n : Z) : m128i := (a.1 ≫ n, a.2 ≫ n).
Definition mm_slli_epi64 (a : m128i) (n : Z) : m128i := (u64 (a.1 ≪ n), u64 (a.2 ≪ n)).
Definition mm_set1_epi32 (x : Z) : m128i := (x + x ≪ 32, x + x ≪ 32).
Definition mm_set_epi64x (hi lo : Z) : m128i := (lo, hi).

(** The 32-bit lane [i] of a register, and [_mm_shuffle_epi32(a, _MM_SHUFFLE(z, y, x, w))]. *)
Definition lane32 (a : m128i) (i : Z) : Z :=
  match i with 0 => u32 a.1 | 1 => a.1 ≫ 32 | 2 => u32 a.2 | _ => a.2 ≫ 32 end.
Definition mm_shuffle_epi32 (a : m128i) (z y x w : Z) : m128i :=
  (lane32 a w + lane32 a x ≪ 32, lane32 a y + lane32 a z ≪ 32).

(** The register at [xacc + i]. *)
Definition xacc_get (acc : list Z) (i : Z) : option m128i :=
  lo ← aget acc (2 * i); hi ← aget acc (2 * i + 1); Some (lo, hi).
Definition xacc_set (acc : list Z) (i : Z) (v : m128i) : option (list Z) :=
  acc ← aset acc (2 * i) v.1; aset acc (2 * i + 1) v.2.

(** src/cpp-util/xxhash.h:4454-4470, [XXH3_accumulate_512_sse2]. One pass of the loop. *)
Definition sse2_accumulate_round (acc : list Z) (input : list Z) (p : Z) (secret : list Z) (s i : Z) :
    option (list Z) :=
  data_vec ← mm_loadu_si128 input (p + 16 * i);
  key_vec ← mm_loadu_si128 secret (s + 16 * i);
  let data_key := mm_xor_si128 data_vec key_vec in
  let data_key_lo := mm_shuffle_epi32 data_key 0 3 0 1 in
  let product := mm_mul_epu32 data_key data_key_lo in
  let data_swap := mm_shuffle_epi32 data_vec 1 0 3 2 in
  xacc ← xacc_get acc i;
  let sum := mm_add_epi64 xacc data_swap in
  xacc_set acc i (mm_add_epi64 product sum).

(** src/cpp-util/xxhash.h:4438-4471, [XXH3_accumulate_512_sse2]. The addresses of buffers are not modelled, and
    so not the assertions that [acc], here and in [XXH3_scrambleAcc_sse2], and the secrets of
    [XXH3_initCustomSecret_sse2] are aligned to 16 bytes: [acc] and the custom secret are arrays that their
    callers declare with that alignment. *)
Definition XXH3_accumulate_512_sse2 (acc : list Z) (input : list Z) (p : Z) (secret : list Z) (s : Z) :
    option (list Z) :=
  for_up 4 0 (λ i acc, sse2_accumulate_round acc input p secret s i) acc.

(** src/cpp-util/xxhash.h:4485-4498, [XXH3_scrambleAcc_sse2]. One pass of the loop. *)
Definition sse2_scramble_round (acc : list Z) (secret : list Z) (s i : Z) : option (list Z) :=
  let prime32 := mm_set1_epi32 XXH_PRIME32_1 in
  acc_vec ← xacc_get acc i;
  let shifted := mm_srli_epi64 acc_vec 47 in
  let data_vec := mm_xor_si128 acc_vec shifted in
  key_vec ← mm_loadu_si128 secret (s + 16 * i);
  let data_key := mm_xor_si128 data_vec key_vec in
  let data_key_hi := mm_shuffle_epi32 data_key 0 3 0 1 in
  let prod_lo := mm_mul_epu32 data_key prime32 in
  let prod_hi := mm_mul_epu32 data_key_hi prime32 in
  xacc_set acc i (mm_add_epi64 prod_lo (mm_slli_epi64 prod_hi 32)).

(** src/cpp-util/xxhash.h:4474-4501, [XXH3_scrambleAcc_sse2]. *)
Definition XXH3_scrambleAcc_sse2 (acc : list Z) (secret : list Z) (s : Z) : option (list Z) :=
  for_up 4 0 (λ i acc, sse2_scramble_round acc secret s i) acc.

(** src/cpp-util/xxhash.h:4503-4534, [XXH3_initCustomSecret_sse2]. *)
Definition XXH3_initCustomSecret_sse2 (customSecret : list Z) (seed64 : Z) : option (list Z) :=
  let nbRounds := XXH_SECRET_DEFAULT_SIZE / 16 in
  let seed := mm_set_epi64x (u64 (0 - seed64)) seed64 in
  for_up (Z.to_nat nbRounds) 0 (λ i dst,
    v ← mm_loadu_si128 XXH3_kSecret (16 * i);
    let v := mm_add_epi64 v seed in
    dst ← XXH_memcpy dst (16 * i) (le_bytes 8 v.1) 0 8;
    XXH_memcpy dst (16 * i + 8) (le_bytes 8 v.2) 0 8) customSecret.

(** src/cpp-util/xxhash.h:5046-5048, [XXH3_f_accumulate, XXH3_f_scrambleAcc, XXH3_f_initCustomSecret].
    The interface of the variants. *)
Class Vector := {
  XXH3_accumulate_512 : list Z → list Z → Z → list Z → Z → option (list Z);
  XXH3_scrambleAcc : list Z → list Z → Z → option (list Z);
  XXH3_initCustomSecret : list Z → Z → option (list Z)
}.

(** src/cpp-util/xxhash.h:5094-5097, [XXH3_accumulate_512, XXH3_scrambleAcc, XXH3_initCustomSecret]. *)
Definition scalar : Vector :=
  Build_Vector XXH3_accumulate_512_scalar XXH3_scrambleAcc_scalar XXH3_initCustomSecret_scalar.

(** src/cpp-util/xxhash.h:5067-5070, [XXH3_accumulate_512, XXH3_scrambleAcc, XXH3_initCustomSecret]. *)
Definition sse2 : Vector :=
  Build_Vector XXH3_accumulate_512_sse2 XXH3_scrambleAcc_sse2 XXH3_initCustomSecret_sse2.

Section xxh3.
Context `{Vector}.

(** src/cpp-util/xxhash.h:4159-4175, [XXH3_ACCUMULATE_TEMPLATE]. *)
Definition XXH3_accumulate (acc : list Z) (input : list Z) (p : Z) (secret : list Z) (s nbStripes : Z) :
    option (list Z) :=
  for_up (Z.to_nat nbStripes) 0 (λ n acc,
    XXH3_accumulate_512 acc input (p + n * XXH_STRIPE_LEN) secret (s + n * XXH_SECRET_CONSUME_RATE)) acc.

(** src/cpp-util/xxhash.h:5106-5136, [XXH3_hashLong_internal_loop]. *)
Definition XXH3_hashLong_internal_loop (acc : list Z) (input : list Z) (len : Z) (secret : list Z)
    (secretSize : Z) : option (list Z) :=
  let nbStripesPerBlock := (secretSize - XXH_STRIPE_LEN) / XXH_SECRET_CONSUME_RATE in
  let block_len := XXH_STRIPE_LEN * nbStripesPerBlock in
  let nb_blocks := (len - 1) / block_len in
  _ ← XXH_ASSERT (XXH3_SECRET_SIZE_MIN <=? secretSize);
  acc ← for_up (Z.to_nat nb_blocks) 0 (λ n acc,
    acc ← XXH3_accumulate acc input (n * block_len) secret 0 nbStripesPerBlock;
    XXH3_scrambleAcc acc secret (secretSize - XXH_STRIPE_LEN)) acc;
  _ ← XXH_ASSERT (XXH_STRIPE_LEN <? len);
  let nbStripes := ((len - 1) - (block_len * nb_blocks)) / XXH_STRIPE_LEN in
  _ ← XXH_ASSERT (nbStripes <=? secretSize / XXH_SECRET_CONSUME_RATE);
  acc ← XXH3_accumulate acc input (nb_blocks * block_len) secret 0 nbStripes;
  let p := len - XXH_STRIPE_LEN in
  XXH3_accumulate_512 acc input p secret (secretSize - XXH_STRIPE_LEN - XXH_SECRET_LASTACC_START).

(** src/cpp-util/xxhash.h:5139-5145, [XXH3_mix2Accs]. The accumulators from index [i] on. *)
Definition XXH3_mix2Accs (acc : list Z) (i : Z) (secret : list Z) (s : Z) : option Z :=
  a0 ← aget acc i; a1 ← aget acc (i + 1);
  s0 ← XXH_readLE64 secret s; s1 ← XXH_readLE64 secret (s + 8);
  Some (XXH3_mul128_fold64 (Z.lxor a0 s0) (Z.lxor a1 s1)).

(** src/cpp-util/xxhash.h:5147-5172, [XXH3_mergeAccs]. *)
Definition XXH3_mergeAccs (acc : list Z) (secret : list Z) (s start : Z) : option Z :=
  result64 ← for_up 4 0 (λ i r, m ← XXH3_mix2Accs acc (2 * i) secret (s + 16 * i); Some (u64 (r + m))) start;
  Some (XXH3_avalanche result64).

(** src/cpp-util/xxhash.h:5174-5175, [XXH3_INIT_ACC]. *)
Definition XXH3_INIT_ACC : list Z :=
  [XXH_PRIME32_3; XXH_PRIME64_1; XXH_PRIME64_2; XXH_PRIME64_3;
   XXH_PRIME64_4; XXH_PRIME32_2; XXH_PRIME64_5; XXH_PRIME32_1].

(** src/cpp-util/xxhash.h:5177-5193, [XXH3_hashLong_64b_internal]. *)
Definition XXH3_hashLong_64b_internal (input : list Z) (len : Z) (secret : list Z) (secretSize : Z) :
    option Z :=
  acc ← XXH3_hashLong_internal_loop XXH3_INIT_ACC input len secret secretSize;
  _ ← XXH_ASSERT (64 + XXH_SECRET_MERGEACCS_START <=? secretSize);
  XXH3_mergeAccs acc secret XXH_SECRET_MERGEACCS_START (u64 (len * XXH_PRIME64_1)).

(** src/cpp-util/xxhash.h:5200-5206, [XXH3_hashLong_64b_withSecret]. *)
Definition XXH3_hashLong_64b_withSecret (input : list Z) (len seed64 : Z) (secret : list Z) (secretLen : Z) :
    option Z :=
  XXH3_hashLong_64b_internal input len secret secretLen.

(** src/cpp-util/xxhash.h:5214-5220, [XXH3_hashLong_64b_default]. *)
Definition XXH3_hashLong_64b_default (input : list Z) (len seed64 : Z) (secret : list Z) (secretLen : Z) :
    option Z :=
  XXH3_hashLong_64b_internal input len XXH3_kSecret XXH_SECRET_DEFAULT_SIZE.

(** src/cpp-util/xxhash.h:5233-5251, [XXH3_hashLong_64b_withSeed_internal]. *)
Definition XXH3_hashLong_64b_withSeed_internal (input : list Z) (len seed : Z) : option Z :=
  if seed =? 0 then XXH3_hashLong_64b_internal input len XXH3_kSecret XXH_SECRET_DEFAULT_SIZE
  else
    secret ← XXH3_initCustomSecret (replicate 192 0) seed;
    XXH3_hashLong_64b_internal input len secret XXH_SECRET_DEFAULT_SIZE.

(** src/cpp-util/xxhash.h:5256-5263, [XXH3_hashLong_64b_withSeed]. *)
Definition XXH3_hashLong_64b_withSeed (input : list Z) (len seed : Z) (secret : list Z) (secretLen : Z) :
    option Z :=
  XXH3_hashLong_64b_withSeed_internal input len seed.

(** src/cpp-util/xxhash.h:5269-5289, [XXH3_64bits_internal]. *)
Definition XXH3_64bits_internal (input : list Z) (len seed64 : Z) (secret : list Z) (secretLen : Z)
    (f_hashLong : list Z → Z → Z → list Z → Z → option Z) : option Z :=
  _ ← XXH_ASSERT (XXH3_SECRET_SIZE_MIN <=? secretLen);
  if len <=? 16 then XXH3_len_0to16_64b input len secret seed64
  else if len <=? 128 then XXH3_len_17to128_64b input len secret secretLen seed64
  else if len <=? XXH3_MIDSIZE_MAX then XXH3_len_129to240_64b input len secret secretLen seed64
  else f_hashLong input len seed64 secret secretLen.

(** src/cpp-util/xxhash.h:5295-5298, [XXH3_64bits]. *)
Definition XXH3_64bits (input : list Z) (length : Z) : option Z :=
  XXH3_64bits_internal input length 0 XXH3_kSecret XXH_SECRET_DEFAULT_SIZE XXH3_hashLong_64b_default.

(** src/cpp-util/xxhash.h:5301-5305, [XXH3_64bits_withSecret]. *)
Definition XXH3_64bits_withSecret (input : list Z) (length : Z) (secret : list Z) (secretSize : Z) : option Z :=
  XXH3_64bits_internal input length 0 secret secretSize XXH3_hashLong_64b_withSecret.

(** src/cpp-util/xxhash.h:5308-5312, [XXH3_64bits_withSeed]. *)
Definition XXH3_64bits_withSeed (input : list Z) (length seed : Z) : option Z :=
  XXH3_64bits_internal input length seed XXH3_kSecret XXH_SECRET_DEFAULT_SIZE XXH3_hashLong_64b_withSeed.

(** src/cpp-util/xxhash.h:5314-5320, [XXH3_64bits_withSecretandSeed]. *)
Definition XXH3_64bits_withSecretandSeed (input : list Z) (length : Z) (secret : list Z)
    (secretSize seed : Z) : option Z :=
  if length <=? XXH3_MIDSIZE_MAX then
    XXH3_64bits_internal input length seed XXH3_kSecret XXH_SECRET_DEFAULT_SIZE (λ _ _ _ _ _, None)
  else XXH3_hashLong_64b_withSecret input length seed secret secretSize.
End xxh3.

(** ** The variants agree *)

Lemma for_up_ext {T} (f g : Z → T → option T) n i s :
  (∀ j s, i ≤ j < i + Z.of_nat n → f j s = g j s) → for_up n i f s = for_up n i g s.
Proof.
  revert i s. induction n as [|n IH]; intros i s Hfg; [done|]. cbn [for_up]. rewrite Hfg by lia.
  destruct (g i s) as [s'|]; [|done]. bind_simpl. apply IH. intros j t Hj. apply Hfg. lia.
Qed.

Lemma for_up_double {T} (f : Z → T → option T) n i s :
  for_up (2 * n) (2 * i) f s = for_up n i (λ i s, s ← f (2 * i) s; f (2 * i + 1) s) s.
Proof.
  revert i s. induction n as [|n IH]; intros i s; [done|].
  replace (2 * S n)%nat with (S (S (2 * n))) by lia. cbn [for_up].
  destruct (f (2 * i) s) as [s1|]; [|done]. bind_simpl.
  destruct (f (2 * i + 1) s1) as [s2|]; [|done]. bind_simpl.
  replace (2 * i + 1 + 1) with (2 * (i + 1)) by lia. apply IH.
Qed.

Lemma lxor_even_1 i : 0 ≤ i → Z.lxor (2 * i) 1 = 2 * i + 1.
Proof.
  intros Hi. by destruct i.
Qed.

Lemma lxor_odd_1 i : 0 ≤ i → Z.lxor (2 * i + 1) 1 = 2 * i.
Proof. intros Hi. rewrite <-(lxor_even_1 i Hi), Z.lxor_assoc, Z.lxor_nilpotent. apply Z.lxor_0_r. Qed.

(** A register is read where both of its halves are. *)
Lemma xacc_rw acc i (f : m128i → m128i) : 0 ≤ i →
  (x ← xacc_get acc i; xacc_set acc i (f x)) =
  (lo ← aget acc (2 * i); hi ← aget acc (2 * i + 1);
   Some (<[Z.to_nat (2 * i + 1) := (f (lo, hi)).2]> (<[Z.to_nat (2 * i) := (f (lo, hi)).1]> acc))).
Proof.
  intros Hi. unfold xacc_get, xacc_set.
  destruct (aget acc (2 * i)) as [lo|] eqn:E0; [|done]. bind_simpl.
  destruct (aget acc (2 * i + 1)) as [hi|] eqn:E1; [|done]. bind_simpl.
  apply aget_Some in E0 as [H0 _]. apply aget_Some in E1 as [H1 _].
  rewrite aset_Some by lia. bind_simpl. by rewrite aset_Some by (rewrite length_insert; lia).
Qed.

Lemma aget_insert_ne (l : list Z) i j x : 0 ≤ j → i ≠ j → aget (<[Z.to_nat j := x]> l) i = aget l i.
Proof. intros. unfold aget. case_match; [|done]. rewrite list_lookup_insert_ne; [done|lia]. Qed.

Lemma aget_insert_eq (l : list Z) i x : 0 ≤ i < Z.of_nat (length l) → aget (<[Z.to_nat i := x]> l) i = Some x.
Proof. intros. unfold aget. rewrite (proj2 (Z.leb_le _ _)) by lia. apply list_lookup_insert_eq. lia. Qed.

(** The two lanes of a register in the scalar variant. *)
Lemma scalar_pair acc input p secret s i : 0 ≤ i →
  (acc ← XXH3_scalarRound acc input p secret s (2 * i); XXH3_scalarRound acc input p secret s (2 * i + 1)) =
  (d0 ← XXH_readLE64 input (p + 16 * i); d1 ← XXH_readLE64 input (p + 16 * i + 8);
   k0 ← XXH_readLE64 secret (s + 16 * i); k1 ← XXH_readLE64 secret (s + 16 * i + 8);
   a0 ← aget acc (2 * i); a1 ← aget acc (2 * i + 1);
   let m d k := XXH_mult32to64 (Z.land (Z.lxor d k) 0xFFFFFFFF) (Z.lxor d k ≫ 32) in
   Some (<[Z.to_nat (2 * i + 1) := u64 (u64 (a1 + d0) + m d1 k1)]>
        (<[Z.to_nat (2 * i) := u64 (u64 (a0 + m d0 k0) + d1)]> acc))).
Proof.
  intros Hi. unfold XXH3_scalarRound. rewrite lxor_even_1, lxor_odd_1 by done.
  replace (2 * i * 8) with (16 * i) by lia.
  replace (p + (2 * i + 1) * 8) with (p + 16 * i + 8) by lia.
  replace (s + (2 * i + 1) * 8) with (s + 16 * i + 8) by lia.
  destruct (XXH_readLE64 input (p + 16 * i)) as [d0|], (XXH_readLE64 input (p + 16 * i + 8)) as [d1|],
    (XXH_readLE64 secret (s + 16 * i)) as [k0|], (XXH_readLE64 secret (s + 16 * i + 8)) as [k1|];
    bind_simpl; try done.
  all: destruct (aget acc (2 * i + 1)) as [a1|] eqn:E1; bind_simpl; try done.
  all: try (by destruct (aget acc (2 * i))).
  all: rewrite (aset_Some acc (2 * i + 1)) by (by apply aget_Some in E1 as [? _]); bind_simpl.
  all: rewrite aget_insert_ne by lia.
  all: destruct (aget acc (2 * i)) as [a0|] eqn:E0; bind_simpl; try done.
  all: apply aget_Some in E0 as [H0 E0]; apply aget_Some in E1 as [H1 E1].
  all: rewrite aset_Some by (rewrite length_insert; lia); bind_simpl; try done.
  rewrite aget_insert_eq by (rewrite length_insert; lia). bind_simpl.
  rewrite aset_Some by (rewrite !length_insert; lia). bind_simpl.
  rewrite !aget_insert_ne, aget_insert_eq by lia. bind_simpl.
  rewrite aset_Some by (rewrite !length_insert; lia). f_equal.
  rewrite list_insert_insert_eq, (list_insert_insert_ne acc) by lia. by rewrite list_insert_insert_eq.
Qed.

Lemma u64_add_l a b : u64 (u64 a + b) = u64 (a + b).
Proof. unfold uwrap. apply Zplus_mod_idemp_l. Qed.

Lemma u64_add_r a b : u64 (a + u64 b) = u64 (a + b).
Proof. unfold uwrap. apply Zplus_mod_idemp_r. Qed.

Lemma land_u32 x : Z.land x 0xFFFFFFFF = u32 x.
Proof. change 0xFFFFFFFF with (Z.ones 32). by rewrite Z.land_ones. Qed.

(** The two halves of a 64-bit lane. *)
Lemma lane_halves x : u32 x + (x ≫ 32) ≪ 32 = x.
Proof.
  rewrite Z.shiftr_div_pow2, Z.shiftl_mul_pow2 by lia. unfold uwrap.
  pose proof (Z_div_mod_eq_full x (2 ^ 32)). lia.
Qed.

Lemma u32_low x y : u32 (x + y ≪ 32) = u32 x.
Proof. rewrite Z.shiftl_mul_pow2 by lia. unfold uwrap. apply Z_mod_plus_full. Qed.

Lemma u64_prod x y : u64 (u32 x * u32 y) = u32 x * u32 y.
Proof.
  apply uwrap_small. pose proof (uwrap_range 32 x ltac:(lia)). pose proof (uwrap_range 32 y ltac:(lia)).
  change (2 ^ 64) with (2 ^ 32 * 2 ^ 32). nia.
Qed.

Lemma sse2_accumulate_spec acc input p secret s i : 0 ≤ i →
  sse2_accumulate_round acc input p secret s i =
  (acc ← XXH3_scalarRound acc input p secret s (2 * i); XXH3_scalarRound acc input p secret s (2 * i + 1)).
Proof.
  intros Hi. rewrite scalar_pair by done. unfold sse2_accumulate_round, mm_loadu_si128, XXH_readLE64.
  destruct (getblock 8 input (p + 16 * i)) as [d0|]; [|done]. bind_simpl.
  destruct (getblock 8 input (p + 16 * i + 8)) as [d1|]; [|done]. bind_simpl.
  destruct (getblock 8 secret (s + 16 * i)) as [k0|]; [|done]. bind_simpl.
  destruct (getblock 8 secret (s + 16 * i + 8)) as [k1|]; [|done]. bind_simpl.
  rewrite (xacc_rw acc i (λ x, mm_add_epi64 _ (mm_add_epi64 x _))) by done.
  destruct (aget acc (2 * i)) as [a0|]; [|done]. bind_simpl.
  destruct (aget acc (2 * i + 1)) as [a1|]; [|done]. bind_simpl. cbv zeta.
  unfold mm_add_epi64, mm_mul_epu32, mm_xor_si128, mm_shuffle_epi32, XXH_mult32to64. cbn [fst snd lane32].
  rewrite !lane_halves, !u32_low, !land_u32, !uwrap_idemp, !u64_prod, !u64_add_l, !u64_add_r.
  f_equal. f_equal; [f_equal; ring|f_equal; f_equal; ring].
Qed.

Lemma scalar_scramble_pair acc secret s i : 0 ≤ i →
  (acc ← XXH3_scalarScrambleRound acc secret s (2 * i); XXH3_scalarScrambleRound acc secret s (2 * i + 1)) =
  (a0 ← aget acc (2 * i); a1 ← aget acc (2 * i + 1);
   k0 ← XXH_readLE64 secret (s + 16 * i); k1 ← XXH_readLE64 secret (s + 16 * i + 8);
   let m a k := u64 (Z.lxor (XXH_xorshift64 a 47) k * XXH_PRIME32_1) in
   Some (<[Z.to_nat (2 * i + 1) := m a1 k1]> (<[Z.to_nat (2 * i) := m a0 k0]> acc))).
Proof.
  intros Hi. unfold XXH3_scalarScrambleRound. replace (2 * i * 8) with (16 * i) by lia.
  replace (s + (2 * i + 1) * 8) with (s + 16 * i + 8) by lia.
  destruct (XXH_readLE64 secret (s + 16 * i)) as [k0|], (XXH_readLE64 secret (s + 16 * i + 8)) as [k1|],
    (aget acc (2 * i)) as [a0|] eqn:E0; bind_simpl; try done.
  all: try (by destruct (aget acc (2 * i + 1))).
  all: pose proof E0 as [H0 _]%aget_Some; rewrite aset_Some by lia; bind_simpl.
  all: try rewrite aget_insert_ne by lia.
  all: destruct (aget acc (2 * i + 1)) as [a1|] eqn:E1; bind_simpl; try done.
  apply aget_Some in E1 as [H1 _]. by rewrite aset_Some by (rewrite length_insert; lia).
Qed.

(** The product with a 32-bit constant from the products of the halves. *)
Lemma lane_halves_mul x c : 0 ≤ c < 2 ^ 32 →
  u64 (u32 x * c + u64 ((u32 (x ≫ 32) * c) ≪ 32)) = u64 (x * c).
Proof.
  intros Hc. rewrite u64_add_r, Z.shiftr_div_pow2, Z.shiftl_mul_pow2 by lia. unfold uwrap.
  pose proof (Z_div_mod_eq_full x (2 ^ 32)) as E1.
  pose proof (Z_div_mod_eq_full (x / 2 ^ 32) (2 ^ 32)) as E2.
  replace (x * c) with (x mod 2 ^ 32 * c + (x / 2 ^ 32) mod 2 ^ 32 * c * 2 ^ 32 +
    (x / 2 ^ 32 / 2 ^ 32 * c) * 2 ^ 64).
  - symmetry. apply Z_mod_plus_full.
  - change (2 ^ 64) with (2 ^ 32 * 2 ^ 32). rewrite E1 at 4. rewrite E2 at 3. ring.
Qed.

Lemma sse2_scramble_spec acc secret s i : 0 ≤ i →
  sse2_scramble_round acc secret s i =
  (acc ← XXH3_scalarScrambleRound acc secret s (2 * i); XXH3_scalarScrambleRound acc secret s (2 * i + 1)).
Proof.
  intros Hi. rewrite scalar_scramble_pair by done. unfold sse2_scramble_round, mm_loadu_si128, XXH_readLE64.
  destruct (getblock 8 secret (s + 16 * i)) as [k0|]; bind_simpl.
  2: { unfold xacc_get. by destruct (aget acc (2 * i)), (aget acc (2 * i + 1)). }
  destruct (getblock 8 secret (s + 16 * i + 8)) as [k1|]; bind_simpl.
  2: { unfold xacc_get. by destruct (aget acc (2 * i)), (aget acc (2 * i + 1)). }
  rewrite (xacc_rw acc i (λ x, mm_add_epi64 (mm_mul_epu32 (mm_xor_si128 (mm_xor_si128 x _) _) _) _)) by done.
  destruct (aget acc (2 * i)) as [a0|]; [|done]. bind_simpl.
  destruct (aget acc (2 * i + 1)) as [a1|]; [|done]. bind_simpl. cbv zeta.
  unfold mm_add_epi64, mm_mul_epu32, mm_xor_si128, mm_shuffle_epi32, mm_srli_epi64, mm_slli_epi64, mm_set1_epi32.
  cbn [fst snd lane32]. rewrite !u32_low. change (u32 XXH_PRIME32_1) with XXH_PRIME32_1.
  rewrite !lane_halves_mul by (unfold XXH_PRIME32_1; lia). done.
Qed.

(** What the rest of the code relies on: every variant does what the scalar one does. *)
Class VectorLaws (V : Vector) : Prop := {
  accumulate_512_law acc input p secret s :
    @XXH3_accumulate_512 V acc input p secret s = XXH3_accumulate_512_scalar acc input p secret s;
  scrambleAcc_law acc secret s : @XXH3_scrambleAcc V acc secret s = XXH3_scrambleAcc_scalar acc secret s;
  initCustomSecret_law dst seed : @XXH3_initCustomSecret V dst seed = XXH3_initCustomSecret_scalar dst seed
}.

#[export] Instance scalar_laws : VectorLaws scalar.
Proof. by split. Qed.

#[export] Instance sse2_laws : VectorLaws sse2.
Proof.
  split; intros; cbn [XXH3_accumulate_512 XXH3_scrambleAcc XXH3_initCustomSecret sse2].
  - unfold XXH3_accumulate_512_sse2, XXH3_accumulate_512_scalar.
    etrans; [|symmetry; apply (for_up_double _ 4 0)]. apply for_up_ext. intros. apply sse2_accumulate_spec. lia.
  - unfold XXH3_scrambleAcc_sse2, XXH3_scrambleAcc_scalar.
    etrans; [|symmetry; apply (for_up_double _ 4 0)]. apply for_up_ext. intros. apply sse2_scramble_spec. lia.
  - unfold XXH3_initCustomSecret_sse2, XXH3_initCustomSecret_scalar. apply for_up_ext. intros j t _.
    unfold mm_loadu_si128, XXH_readLE64, XXH_writeLE64.
    destruct (getblock 8 XXH3_kSecret (16 * j)) as [lo|]; [|done]. bind_simpl.
    destruct (getblock 8 XXH3_kSecret (16 * j + 8)) as [hi|]; [|done]. bind_simpl.
    unfold mm_add_epi64, mm_set_epi64x. cbn [fst snd]. by rewrite u64_add_r.
Qed.

Section laws.
Context (V : Vector) `{!VectorLaws V}.

Lemma accumulate_scalar acc input p secret s n :
  @XXH3_accumulate V acc input p secret s n = @XXH3_accumulate scalar acc input p secret s n.
Proof. apply for_up_ext. intros. apply accumulate_512_law. Qed.

Lemma hashLong_loop_scalar acc input len secret size :
  @XXH3_hashLong_internal_loop V acc input len secret size =
  @XXH3_hashLong_internal_loop scalar acc input len secret size.
Proof.
  unfold XXH3_hashLong_internal_loop. cbv zeta. apply option_bind_ext_fun. intros _.
  match goal with |- for_up ?n ?i ?f ?a ≫= _ = for_up _ _ ?g _ ≫= _ =>
    rewrite (for_up_ext f g n i a) end.
  2: { intros j t _. rewrite accumulate_scalar. apply option_bind_ext_fun. intros ?. apply scrambleAcc_law. }
  apply option_bind_ext_fun. intros a. apply option_bind_ext_fun. intros _.
  apply option_bind_ext_fun. intros _.
  rewrite accumulate_scalar. apply option_bind_ext_fun. intros ?. apply accumulate_512_law.
Qed.

Lemma hashLong_scalar input len secret size :
  @XXH3_hashLong_64b_internal V input len secret size = @XXH3_hashLong_64b_internal scalar input len secret size.
Proof. unfold XXH3_hashLong_64b_internal. by rewrite hashLong_loop_scalar. Qed.

Lemma withSeed_scalar input len seed :
  @XXH3_hashLong_64b_withSeed_internal V input len seed = @XXH3_hashLong_64b_withSeed_internal scalar input len seed.
Proof.
  unfold XXH3_hashLong_64b_withSeed_internal. rewrite initCustomSecret_law. cbn [XXH3_initCustomSecret scalar].
  case_match; [apply hashLong_scalar|]. destruct (XXH3_initCustomSecret_scalar _ _); [|done].
  apply hashLong_scalar.
Qed.

Lemma entry_points_scalar (input : list Z) (len : Z) (secret : list Z) (size seed : Z) :
  @XXH3_64bits V input len = @XXH3_64bits scalar input len ∧
  @XXH3_64bits_withSeed V input len seed = @XXH3_64bits_withSeed scalar input len seed ∧
  @XXH3_64bits_withSecret V input len secret size = @XXH3_64bits_withSecret scalar input len secret size ∧
  @XXH3_64bits_withSecretandSeed V input len secret size seed =
    @XXH3_64bits_withSecretandSeed scalar input len secret size seed.
Proof.
  unfold XXH3_64bits, XXH3_64bits_withSeed, XXH3_64bits_withSecret, XXH3_64bits_withSecretandSeed.
  unfold XXH3_64bits_internal, XXH3_hashLong_64b_default, XXH3_hashLong_64b_withSeed,
    XXH3_hashLong_64b_withSecret.
  rewrite !hashLong_scalar, withSeed_scalar. done.
Qed.
End laws.

(** C29 [equivalence]. The SSE2 code, the default on x86-64, gives the hash of the scalar code, for each
    entry point, input, length, seed and secret; also when an access leaves a buffer, both do. (The other
    vectorised variants are not modelled.) *)
Theorem xxh3_variants_agree (input : list Z) (len : Z) (secret : list Z) (size seed : Z) :
  @XXH3_64bits sse2 input len = @XXH3_64bits scalar input len ∧
  @XXH3_64bits_withSeed sse2 input len seed = @XXH3_64bits_withSeed scalar input len seed ∧
  @XXH3_64bits_withSecret sse2 input len secret size = @XXH3_64bits_withSecret scalar input len secret size ∧
  @XXH3_64bits_withSecretandSeed sse2 input len secret size seed =
    @XXH3_64bits_withSecretandSeed scalar input len secret size seed.
Proof. apply entry_points_scalar, sse2_laws. Qed.

(** ** Short keys do not collide *)

Lemma testbit_rotl64 x r i : 0 ≤ r < 64 → uint_ok 64 x → 0 ≤ i < 64 →
  Z.testbit (XXH_rotl64 x r) i = Z.testbit x ((i - r) mod 64).
Proof.
  intros Hr Hx Hi. destruct (Z.eq_dec r 0) as [->|Hr0].
  - unfold XXH_rotl64, rotl, ushl. rewrite Z.lor_spec, testbit_uwrap, Z.shiftl_spec, Z.shiftr_spec by lia.
    rewrite (proj2 (Z.ltb_lt i 64)), andb_true_l by lia.
    rewrite (testbit_small x 64 (i + (64 - 0)) Hx), orb_false_r by lia.
    by rewrite Z.mod_small by lia.
  - unfold XXH_rotl64. rewrite testbit_rotl by (done || lia). f_equal.
    destruct (Z.leb_spec r i); [by rewrite Z.mod_small by lia|].
    replace (i - r) with (i + 64 - r + -1 * 64) by lia. rewrite Z.mod_add by lia.
    by rewrite Z.mod_small by lia.
Qed.

(** A value xored with two of its rotations. *)
Definition rr (a b x : Z) : Z := Z.lxor x (Z.lxor (XXH_rotl64 x a) (XXH_rotl64 x b)).

Lemma rr_ok a b x : 0 ≤ a < 64 → 0 ≤ b < 64 → uint_ok 64 x → uint_ok 64 (rr a b x).
Proof. intros. unfold rr, XXH_rotl64. repeat (apply lxor_ok || apply rotl_ok); try done; lia. Qed.

Lemma testbit_rr a b x i : 0 ≤ a < 64 → 0 ≤ b < 64 → uint_ok 64 x → 0 ≤ i < 64 →
  Z.testbit (rr a b x) i =
    xorb (Z.testbit x i) (xorb (Z.testbit x ((i - a) mod 64)) (Z.testbit x ((i - b) mod 64))).
Proof. intros. unfold rr. by rewrite !Z.lxor_spec, !testbit_rotl64. Qed.

(** Over the field with two elements squaring is additive: applied twice, the rotations double. *)
Lemma rr_square a b x : 0 ≤ a < 64 → 0 ≤ b < 64 → uint_ok 64 x →
  rr a b (rr a b x) = rr ((2 * a) mod 64) ((2 * b) mod 64) x.
Proof.
  intros Ha Hb Hx. pose proof (rr_ok a b x Ha Hb Hx).
  assert (Hm : ∀ y, 0 ≤ y mod 64 < 64) by (intros; apply Z.mod_pos_bound; lia).
  apply Z.bits_inj'. intros i Hi. destruct (Z.ltb_spec i 64).
  2: { rewrite !(testbit_small _ 64 i) by (try lia; apply rr_ok; auto). done. }
  rewrite !testbit_rr by (auto || lia). rewrite !Zminus_mod_idemp_l, !Zminus_mod_idemp_r.
  replace (i - a - b) with (i - b - a) by lia. replace (i - a - a) with (i - 2 * a) by lia.
  replace (i - b - b) with (i - 2 * b) by lia.
  destruct (Z.testbit x i), (Z.testbit x ((i - a) mod 64)), (Z.testbit x ((i - b) mod 64)),
    (Z.testbit x ((i - b - a) mod 64)), (Z.testbit x ((i - 2 * a) mod 64)), (Z.testbit x ((i - 2 * b) mod 64)); done.
Qed.

Lemma rr_inj : inj_on 64 (rr 49 24).
Proof.
  intros x y Hx Hy H.
  assert (E : ∀ z, uint_ok 64 z → rr 8 0 z = rr 4 32 (rr 4 32 z) ∧ rr 4 32 z = rr 34 48 (rr 34 48 z) ∧
    rr 34 48 z = rr 49 24 (rr 49 24 z)).
  { intros z Hz. rewrite !rr_square by (done || lia). done. }
  assert (H1 : rr 34 48 x = rr 34 48 y) by (destruct (E x Hx) as (_ & _ & ->), (E y Hy) as (_ & _ & ->); by rewrite H).
  assert (H2 : rr 4 32 x = rr 4 32 y) by (destruct (E x Hx) as (_ & -> & _), (E y Hy) as (_ & -> & _); by rewrite H1).
  assert (H3 : rr 8 0 x = rr 8 0 y) by (destruct (E x Hx) as (-> & _), (E y Hy) as (-> & _); by rewrite H2).
  apply (rotl_inj 64 8); [lia|done..|]. apply Z.bits_inj'. intros i Hi. destruct (Z.ltb_spec i 64).
  2: { rewrite !(testbit_small _ 64 i) by (try lia; apply rotl_ok; lia || done). done. }
  apply (f_equal (λ z, Z.testbit z i)) in H3. rewrite !testbit_rr in H3 by (done || lia).
  change (rotl 64 x 8) with (XXH_rotl64 x 8). change (rotl 64 y 8) with (XXH_rotl64 y 8).
  rewrite !testbit_rotl64 by (done || lia). rewrite !Z.sub_0_r, !(Z.mod_small i) in H3 by lia.
  by destruct (Z.testbit x i), (Z.testbit y i), (Z.testbit x ((i - 8) mod 64)), (Z.testbit y ((i - 8) mod 64)).
Qed.

Lemma xor_shift_add_inj len : 0 ≤ len ≤ 8 → inj_on 64 (λ h, Z.lxor h (u64 ((h ≫ 35) + len))).
Proof.
  intros Hlen x y Hx Hy H. cbv beta in H.
  assert (Hs : ∀ z, uint_ok 64 z → 0 ≤ (z ≫ 35) < 2 ^ 29).
  { intros z [Hz1 Hz2]. rewrite Z.shiftr_div_pow2 by lia. split; [apply Z.div_pos; lia|].
    apply Z.div_lt_upper_bound; [lia|]. exact Hz2. }
  assert (Hw : ∀ z, uint_ok 64 z → Z.lxor z (u64 ((z ≫ 35) + len)) ≫ 35 = z ≫ 35).
  { intros z Hz. specialize (Hs z Hz). rewrite uwrap_small by lia. rewrite Z.shiftr_lxor.
    rewrite (Z.shiftr_div_pow2 ((z ≫ 35) + len)), Z.div_small, Z.lxor_0_r by lia. done. }
  assert (E : x ≫ 35 = y ≫ 35) by (rewrite <-(Hw x), <-(Hw y) by done; by rewrite H).
  rewrite E in H. by apply lxor_inj_l in H.
Qed.

Lemma XXH3_rrmxmx_inj len : 0 ≤ len ≤ 8 → inj_on 64 (λ h, XXH3_rrmxmx h len).
Proof.
  intros Hlen x y Hx Hy H. unfold XXH3_rrmxmx in H. cbv zeta in H.
  fold (rr 49 24 x) (rr 49 24 y) in H.
  apply xorshift_inj with (w := 64) in H; [|lia|by apply uwrap_ok..].
  apply mul_inj with (w := 64) in H; [|lia|done|by apply lxor_ok; try apply uwrap_ok..].
  apply (xor_shift_add_inj len Hlen) in H; [|by apply uwrap_ok..].
  apply mul_inj with (w := 64) in H; [|lia|done|by apply rr_ok..].
  by apply rr_inj in H.
Qed.

Lemma XXH64_avalanche_inj : inj_on 64 XXH64_avalanche.
Proof.
  intros x y Hx Hy H. unfold XXH64_avalanche in H. cbv zeta in H.
  apply xorshift_inj with (w := 64) in H; [|lia|by apply uwrap_ok..].
  apply mul_inj with (w := 64) in H; [|lia|done|by apply xorshift_ok; try apply uwrap_ok..].
  apply xorshift_inj with (w := 64) in H; [|lia|by apply uwrap_ok..].
  apply mul_inj with (w := 64) in H; [|lia|done|by apply xorshift_ok..].
  by apply xorshift_inj with (w := 64) in H.
Qed.

(** The word that [XXH3_len_1to3_64b] makes of three bytes and the length. *)
Definition combine (c1 c2 c3 len : Z) : Z :=
  Z.lor (Z.lor (Z.lor (u32 (c1 ≪ 16)) (u32 (c2 ≪ 24))) c3) (u32 (len ≪ 8)).

Lemma combine_bits c1 c2 c3 len i : byte_ok c1 → byte_ok c2 → byte_ok c3 → 0 ≤ len < 256 → 0 ≤ i < 8 →
  Z.testbit (combine c1 c2 c3 len) (i + 16) = Z.testbit c1 i ∧
  Z.testbit (combine c1 c2 c3 len) (i + 24) = Z.testbit c2 i ∧
  Z.testbit (combine c1 c2 c3 len) i = Z.testbit c3 i.
Proof.
  unfold byte_ok. change 256 with (2 ^ 8). intros H1 H2 H3 Hl Hi. unfold combine.
  rewrite !Z.lor_spec, !testbit_uwrap, !Z.shiftl_spec by lia.
  rewrite !(proj2 (Z.ltb_lt _ 32)), !andb_true_l by lia.
  split; [|split].
  - rewrite Z.add_simpl_r, (Z.testbit_neg_r c2), (testbit_small c3 8), (testbit_small len 8) by (done || lia).
    by rewrite !orb_false_r.
  - rewrite Z.add_simpl_r, (testbit_small c1 8), (testbit_small c3 8), (testbit_small len 8) by (done || lia).
    by rewrite !orb_false_r.
  - rewrite (Z.testbit_neg_r c1), (Z.testbit_neg_r c2), (Z.testbit_neg_r len) by lia. by rewrite !orb_false_r.
Qed.

Lemma byte_bits_inj a b : byte_ok a → byte_ok b → (∀ i, 0 ≤ i < 8 → Z.testbit a i = Z.testbit b i) → a = b.
Proof.
  unfold byte_ok. change 256 with (2 ^ 8). intros Ha Hb H. apply Z.bits_inj'. intros i Hi.
  destruct (Z.ltb_spec i 8); [apply H; lia|]. by rewrite (testbit_small a 8), (testbit_small b 8) by (done || lia).
Qed.

Lemma combine_inj c1 c2 c3 d1 d2 d3 len : 0 ≤ len < 256 →
  byte_ok c1 → byte_ok c2 → byte_ok c3 → byte_ok d1 → byte_ok d2 → byte_ok d3 →
  combine c1 c2 c3 len = combine d1 d2 d3 len → c1 = d1 ∧ c2 = d2 ∧ c3 = d3.
Proof.
  intros Hl ?????? E.
  assert (Hb : ∀ i, 0 ≤ i < 8 → Z.testbit c1 i = Z.testbit d1 i ∧ Z.testbit c2 i = Z.testbit d2 i ∧
    Z.testbit c3 i = Z.testbit d3 i).
  { intros i Hi. destruct (combine_bits c1 c2 c3 len i) as (<- & <- & <-); try done.
    destruct (combine_bits d1 d2 d3 len i) as (<- & <- & <-); try done. by rewrite E. }
  split_and!; apply byte_bits_inj; try done; intros i Hi; destruct (Hb i Hi) as (? & ? & ?); done.
Qed.

Lemma combine_ok c1 c2 c3 len : byte_ok c3 → uint_ok 64 (combine c1 c2 c3 len).
Proof.
  intros Hc. unfold combine. assert (Hu : ∀ x, uint_ok 64 (u32 x)).
  { intros x. pose proof (uwrap_range 32 x ltac:(lia)). unfold uint_ok. change (2 ^ 64) with (2 ^ 32 * 2 ^ 32). lia. }
  repeat apply lor_range; try lia; try apply Hu. unfold byte_ok in Hc. lia.
Qed.

Lemma len_1to3_val k n secret seed s0 s4 c1 c2 c3 :
  1 ≤ n ≤ 3 → aget k 0 = Some c1 → aget k (n ≫ 1) = Some c2 → aget k (n - 1) = Some c3 →
  XXH_readLE32 secret 0 = Some s0 → XXH_readLE32 secret 4 = Some s4 →
  XXH3_len_1to3_64b k n secret seed =
    Some (XXH64_avalanche (Z.lxor (combine c1 c2 c3 n) (u64 (Z.lxor s0 s4 + seed)))).
Proof.
  intros Hn E1 E2 E3 Es0 Es4. unfold XXH3_len_1to3_64b.
  rewrite !(proj2 (Z.leb_le _ _)) by lia. cbn [andb XXH_ASSERT]. bind_simpl.
  rewrite E1, E2, E3, Es0, Es4. done.
Qed.

Lemma short_bytes k : bytes_ok k → (1 ≤ length k ≤ 3)%nat →
  ∃ c1 c2 c3, aget k 0 = Some c1 ∧ aget k (Z.of_nat (length k) ≫ 1) = Some c2 ∧
    aget k (Z.of_nat (length k) - 1) = Some c3 ∧ byte_ok c1 ∧ byte_ok c2 ∧ byte_ok c3 ∧
    k = match length k with 1%nat => [c1] | 2%nat => [c1; c2] | _ => [c1; c2; c3] end.
Proof.
  intros Hk Hn. unfold bytes_ok in Hk.
  destruct k as [|a [|b [|c [|]]]]; simpl in Hn; try lia; rewrite !Forall_cons in Hk;
    eexists _, _, _; (split; [reflexivity|]); (split; [reflexivity|]); (split; [reflexivity|]); naive_solver.
Qed.

Lemma len_1to3_inj k k' secret seed s0 s4 : bytes_ok k → bytes_ok k' → length k' = length k →
  (1 ≤ length k ≤ 3)%nat → XXH_readLE32 secret 0 = Some s0 → XXH_readLE32 secret 4 = Some s4 →
  XXH3_len_1to3_64b k (Z.of_nat (length k)) secret seed =
  XXH3_len_1to3_64b k' (Z.of_nat (length k)) secret seed → k = k'.
Proof.
  intros Hk Hk' Hl Hn Es0 Es4 H.
  destruct (short_bytes k Hk Hn) as (c1 & c2 & c3 & E1 & E2 & E3 & ? & ? & ? & Ek).
  destruct (short_bytes k' Hk' ltac:(lia)) as (d1 & d2 & d3 & F1 & F2 & F3 & ? & ? & ? & Ek').
  rewrite Hl in F2, F3, Ek'.
  rewrite (len_1to3_val k _ secret seed s0 s4 c1 c2 c3), (len_1to3_val k' _ secret seed s0 s4 d1 d2 d3) in H
    by (done || lia).
  injection H as H. apply XXH64_avalanche_inj in H; [|by apply lxor_ok, uwrap_ok; try apply combine_ok..].
  apply lxor_inj_l in H. apply combine_inj in H as (<- & <- & <-); [|done || lia..].
  by rewrite Ek, Ek'.
Qed.

Lemma word_at_tail n k : (n ≤ length k)%nat → word_at n (length k - n) k = le_val (drop (length k - n) k).
Proof. intros Hn. unfold word_at. by rewrite take_ge by (rewrite length_drop; lia). Qed.

Lemma len_4to8_val k secret seed s8 s16 : bytes_ok k → (4 ≤ length k ≤ 8)%nat →
  XXH_readLE64 secret 8 = Some s8 → XXH_readLE64 secret 16 = Some s16 →
  XXH3_len_4to8_64b k (Z.of_nat (length k)) secret seed =
    Some (XXH3_rrmxmx (Z.lxor (word_at 4 (length k - 4) k + word_at 4 0 k * 2 ^ 32)
      (u64 (Z.lxor s8 s16 - Z.lxor seed (u64 (XXH_swap32 (u32 seed) ≪ 32))))) (Z.of_nat (length k))).
Proof.
  intros Hk Hn E8 E16. unfold XXH3_len_4to8_64b.
  rewrite !(proj2 (Z.leb_le _ _)) by lia. cbn [andb XXH_ASSERT]. bind_simpl. rewrite E8, E16.
  unfold XXH_readLE32.
  pose proof (getblock_at 4 [] k [] 0 0 ltac:(lia) ltac:(simpl; lia)) as G1.
  pose proof (getblock_at 4 [] k [] (length k - 4) (Z.of_nat (length k) - 4) ltac:(lia) ltac:(simpl; lia)) as G2.
  rewrite app_nil_l, app_nil_r in G1, G2. rewrite G1, G2. bind_simpl.
  pose proof (word_at_ok 4 0 k Hk ltac:(lia)) as W1. pose proof (word_at_ok 4 (length k - 4) k Hk ltac:(lia)) as W2.
  unfold uint_ok in W1, W2. change (8 * Z.of_nat 4) with 32 in W1, W2.
  assert (u64 (word_at 4 (length k - 4) k + u64 (word_at 4 0 k ≪ 32)) =
    word_at 4 (length k - 4) k + word_at 4 0 k * 2 ^ 32) as ->; [|done].
  rewrite Z.shiftl_mul_pow2, u64_add_r by lia. apply uwrap_small. change (2 ^ 64) with (2 ^ 32 * 2 ^ 32). nia.
Qed.

Lemma take_drop_cover (k k' : list Z) n m : (m ≤ n)%nat →
  take n k = take n k' → drop m k = drop m k' → k = k'.
Proof.
  intros Hm Ht Hd. rewrite <-(take_drop m k), <-(take_drop m k'), Hd. f_equal.
  apply (f_equal (take m)) in Ht. rewrite !take_take in Ht. by rewrite !(Nat.min_l m n) in Ht by lia.
Qed.

Lemma len_4to8_inj k k' secret seed s8 s16 : bytes_ok k → bytes_ok k' → length k' = length k →
  (4 ≤ length k ≤ 8)%nat → XXH_readLE64 secret 8 = Some s8 → XXH_readLE64 secret 16 = Some s16 →
  XXH3_len_4to8_64b k (Z.of_nat (length k)) secret seed =
  XXH3_len_4to8_64b k' (Z.of_nat (length k)) secret seed → k = k'.
Proof.
  intros Hk Hk' Hl Hn E8 E16 H.
  pose proof (len_4to8_val k' secret seed s8 s16 Hk' ltac:(lia) E8 E16) as V'. rewrite Hl in V'.
  rewrite (len_4to8_val k secret seed s8 s16), V' in H by done. injection H as H.
  assert (Hw : ∀ x, bytes_ok x → length x = length k → uint_ok 32 (word_at 4 0 x) ∧ uint_ok 32 (word_at 4 (length k - 4) x)).
  { intros x Hx Hxl. split; apply (word_at_ok 4); (done || lia). }
  destruct (Hw k Hk eq_refl) as [A1 A2], (Hw k' Hk' Hl) as [B1 B2]. unfold uint_ok in *.
  apply (XXH3_rrmxmx_inj (Z.of_nat (length k))) in H; [|lia|..].
  2-3: apply lxor_ok; [lia| |by apply uwrap_ok]; split; [nia|]; change (2 ^ 64) with (2 ^ 32 * 2 ^ 32); nia.
  apply lxor_inj_l in H.
  assert (word_at 4 0 k = word_at 4 0 k' ∧ word_at 4 (length k - 4) k = word_at 4 (length k - 4) k') as [W1 W2] by lia.
  apply word_at_inj in W1; [|done..]. rewrite !drop_0 in W1.
  pose proof (word_at_tail 4 k' ltac:(lia)) as T'. rewrite Hl in T'. rewrite word_at_tail, T' in W2 by lia.
  apply le_val_inj in W2; [|by apply Forall_drop..|by rewrite !length_drop, Hl].
  apply (take_drop_cover _ _ 4 (length k - 4)); [lia|done..].
Qed.

(** C30 [functional]. Keys of up to eight bytes are hashed without collisions: whatever the seed,
    two different keys of the same length from one to eight bytes have different hashes. The keys
    of the CAS hash table are of this kind; its lists thus mix only keys that the
    size of the table, not the hash, brings together. *)
Theorem xxh3_short_keys_distinct (V : Vector) (k k' : list Z) (seed : Z)
    (Hk : bytes_ok k) (Hk' : bytes_ok k') (Hl : length k' = length k) (Hn : (1 ≤ length k ≤ 8)%nat) :
  XXH3_64bits_withSeed k (Z.of_nat (length k)) seed = XXH3_64bits_withSeed k' (Z.of_nat (length k)) seed ↔ k = k'.
Proof.
  split; [|by intros ->]. unfold XXH3_64bits_withSeed, XXH3_64bits_internal.
  change (XXH_ASSERT (XXH3_SECRET_SIZE_MIN <=? XXH_SECRET_DEFAULT_SIZE)) with (Some tt). bind_simpl.
  rewrite (proj2 (Z.leb_le _ 16)) by lia. unfold XXH3_len_0to16_64b.
  rewrite (proj2 (Z.leb_le _ 16)) by lia. cbn [XXH_ASSERT]. bind_simpl.
  rewrite (proj2 (Z.ltb_ge _ _)) by lia.
  destruct (Z.leb_spec 4 (Z.of_nat (length k))).
  - apply (len_4to8_inj k k' _ _ 0x1cad21f72c81017c 0xdb979083e96dd4de); (done || lia || by vm_compute).
  - rewrite (proj2 (Z.eqb_neq _ _)) by lia. cbn [negb].
    apply (len_1to3_inj k k' _ _ 0x396cfeb8 0xbe4ba423); (done || lia || by vm_compute).
Qed.

Lemma xxh3_short_keys_distinct_witness :
  @XXH3_64bits_withSeed sse2 [1; 2; 3; 4; 5; 6; 7; 8] 8 0 ≠ @XXH3_64bits_withSeed sse2 [8; 2; 3; 4; 5; 6; 7; 1] 8 0.
Proof.
  intros H. apply (xxh3_short_keys_distinct sse2 [1; 2; 3; 4; 5; 6; 7; 8] [8; 2; 3; 4; 5; 6; 7; 1] 0) in H;
    [discriminate|repeat constructor; unfold byte_ok; lia..|reflexivity|simpl; lia].
Defined.

(** ** The multiplication without 128-bit integers *)

Lemma lor_low x r : 0 ≤ r < 2 ^ 32 → Z.lor (x * 2 ^ 32) r = x * 2 ^ 32 + r.
Proof.
  intros Hr. rewrite <-(Z.add_lor_land (x * 2 ^ 32) r). rewrite <-Z.shiftl_mul_pow2 by lia.
  assert (Z.land (x ≪ 32) r = 0) as ->; [|lia]. apply Z.bits_inj'. intros i Hi.
  rewrite Z.land_spec, Z.shiftl_spec, Z.testbit_0_l by lia. destruct (Z.ltb_spec i 32).
  - by rewrite Z.testbit_neg_r by lia.
  - by rewrite (testbit_small r 32 i Hr), andb_false_r by lia.
Qed.

(** The four partial products add up to the 128-bit product, without overflow. *)
Theorem XXH_mult64to128_variants lhs rhs : uint_ok 64 lhs → uint_ok 64 rhs →
  XXH_mult64to128_portable lhs rhs = XXH_mult64to128 lhs rhs.
Proof.
  unfold uint_ok. change (2 ^ 64) with (2 ^ 32 * 2 ^ 32). intros Hl Hr.
  unfold XXH_mult64to128_portable, XXH_mult64to128, XXH_mult32to64. cbv zeta.
  rewrite !land_u32, !uwrap_idemp, !u64_prod.
  assert (Hs : ∀ z, 0 ≤ z < 2 ^ 32 * 2 ^ 32 → u32 (z ≫ 32) = z / 2 ^ 32).
  { intros z Hz. rewrite Z.shiftr_div_pow2 by lia. apply uwrap_small. split; [apply Z.div_pos; lia|].
    apply Z.div_lt_upper_bound; lia. }
  rewrite (Hs lhs Hl), (Hs rhs Hr).
  pose proof (Z_div_mod_eq_full lhs (2 ^ 32)) as El. pose proof (Z_div_mod_eq_full rhs (2 ^ 32)) as Er.
  change (lhs mod 2 ^ 32) with (u32 lhs) in El. change (rhs mod 2 ^ 32) with (u32 rhs) in Er.
  pose proof (uwrap_range 32 lhs ltac:(lia)) as Al. pose proof (uwrap_range 32 rhs ltac:(lia)) as Ar.
  assert (Bl : 0 ≤ lhs / 2 ^ 32 < 2 ^ 32) by (split; [apply Z.div_pos; lia|apply Z.div_lt_upper_bound; lia]).
  assert (Br : 0 ≤ rhs / 2 ^ 32 < 2 ^ 32) by (split; [apply Z.div_pos; lia|apply Z.div_lt_upper_bound; lia]).
  set (a := u32 lhs) in *. set (b := lhs / 2 ^ 32) in *. set (c := u32 rhs) in *. set (d := rhs / 2 ^ 32) in *.
  clearbody a b c d. subst lhs rhs. rewrite !Z.shiftr_div_pow2, Z.shiftl_mul_pow2 by lia.
  set (M := 2 ^ 32) in *.
  assert (HM : 0 < M) by (unfold M; lia).
  assert (P1 : 0 ≤ a * c ≤ (M - 1) * (M - 1)) by nia. assert (P2 : 0 ≤ b * c ≤ (M - 1) * (M - 1)) by nia.
  assert (P3 : 0 ≤ a * d ≤ (M - 1) * (M - 1)) by nia. assert (P4 : 0 ≤ b * d ≤ (M - 1) * (M - 1)) by nia.
  set (q := a * c / M). set (r := u32 (a * c)). set (h := b * c / M). set (g := u32 (b * c)).
  assert (Eac : a * c = M * q + r) by apply Z_div_mod_eq_full.
  assert (Ebc : b * c = M * h + g) by apply Z_div_mod_eq_full.
  assert (Hr' : 0 ≤ r < M) by (apply uwrap_range; lia). assert (Hg : 0 ≤ g < M) by (apply uwrap_range; lia).
  assert (Hq : 0 ≤ q ≤ M - 2) by nia. assert (Hh : 0 ≤ h ≤ M - 2) by nia.
  rewrite u64_add_l. rewrite (uwrap_small 64 (q + g + a * d)) by (change (2 ^ 64) with (M * M); nia).
  set (x := q + g + a * d). assert (Hx : 0 ≤ x < M * M) by (unfold x; nia).
  pose proof (Z_div_mod_eq_full x M) as Ex. set (xq := x / M) in *. set (xr := x mod M) in *.
  assert (Hxr : 0 ≤ xr < M) by (apply Z.mod_pos_bound; lia).
  assert (Hxq : 0 ≤ xq < M) by nia.
  assert (EP : (M * b + a) * (M * d + c) = (xr * M + r) + (h + xq + b * d) * (M * M)).
  { transitivity (a * c + M * (b * c + a * d) + M * M * (b * d)); [ring|].
    rewrite Eac, Ebc. replace (M * q + r + M * (M * h + g + a * d) + M * M * (b * d))
      with (r + M * x + M * M * (h + b * d)) by (unfold x; ring). rewrite Ex. ring. }
  assert (Hlow : 0 ≤ xr * M + r < M * M) by nia.
  rewrite EP. change (2 ^ 64) with (M * M). f_equal.
  - unfold uwrap at 2. change (2 ^ 64) with (M * M). rewrite Z.mod_add, (Z.mod_small _ _ Hlow) by lia.
    assert (u64 (x * M) = xr * M) as ->.
    { unfold uwrap. change (2 ^ 64) with (M * M). rewrite Ex.
      replace ((M * xq + xr) * M) with (xr * M + xq * (M * M)) by ring.
      rewrite Z.mod_add by lia. apply Z.mod_small. nia. }
    apply lor_low; lia.
  - rewrite u64_add_l, Z.div_add, (Z.div_small _ _ Hlow), Z.add_0_l by lia. done.
Qed.

(** ** Every length is hashed inside of the buffers *)

Lemma for_up_total {T} (I : T → Prop) (f : Z → T → option T) n i s :
  (∀ j s, i ≤ j < i + Z.of_nat n → I s → ∃ s', f j s = Some s' ∧ I s') → I s →
  ∃ s', for_up n i f s = Some s' ∧ I s'.
Proof.
  revert i s. induction n as [|n IH]; intros i s Hf HI; [by exists s|]. cbn [for_up].
  destruct (Hf i s) as (s1 & -> & H1); [lia|done|]. bind_simpl. apply IH; [|done].
  intros j t Hj. apply Hf. lia.
Qed.

(** A load of eight bytes inside of a buffer. *)
Definition inside (X : list Z) (p n : Z) : Prop := bytes_ok X ∧ 0 ≤ p ∧ p + n ≤ Z.of_nat (length X).

Lemma read64_total X p : inside X p 8 → ∃ k, XXH_readLE64 X p = Some k ∧ uint_ok 64 k.
Proof. intros (HX & ? & ?). by apply (getblock_total 8). Qed.

Lemma read32_total X p : inside X p 4 → ∃ k, XXH_readLE32 X p = Some k ∧ uint_ok 32 k.
Proof. intros (HX & ? & ?). by apply (getblock_total 4). Qed.

Lemma inside_sub X p n q m : inside X p n → p ≤ q → q + m ≤ p + n → inside X q m.
Proof. intros (? & ? & ?) ? ?. split; [done|lia]. Qed.

(** The next load of the goal has a result. *)
Ltac load :=
  match goal with
  | |- context [XXH_readLE64 ?X ?p] =>
      let k := fresh "k" in let E := fresh "E" in
      destruct (read64_total X p) as (k & E & ?); [first [done | split; [assumption|lia]]|];
      rewrite E; clear E
  | |- context [XXH_readLE32 ?X ?p] =>
      let k := fresh "k" in let E := fresh "E" in
      destruct (read32_total X p) as (k & E & ?); [first [done | split; [assumption|lia]]|];
      rewrite E; clear E
  end; cbn [mbind option_bind].

Lemma mix16B_total X i S s seed : inside X i 16 → inside S s 16 → ∃ m, XXH3_mix16B X i S s seed = Some m.
Proof.
  intros (HX & ? & ?) (HS & ? & ?). unfold XXH3_mix16B. repeat load. by eexists.
Qed.

Ltac mix :=
  match goal with |- context [XXH3_mix16B ?X ?i ?S ?s ?seed] =>
    let m := fresh "m" in let E := fresh "E" in
    destruct (mix16B_total X i S s seed) as (m & E); [split; [assumption|lia]..|]; rewrite E; clear E
  end; cbn [mbind option_bind].

Section total.
Context (input secret : list Z) (size : Z).
Context (Hin : bytes_ok input) (Hsec : bytes_ok secret).
Context (Hsize : Z.of_nat (length secret) = size) (Hmin : 136 ≤ size).

Lemma len_0to16_total seed : Z.of_nat (length input) ≤ 16 →
  ∃ h, XXH3_len_0to16_64b input (Z.of_nat (length input)) secret seed = Some h.
Proof.
  intros Hl. unfold XXH3_len_0to16_64b. rewrite (proj2 (Z.leb_le _ 16)) by lia. cbn [XXH_ASSERT]. bind_simpl.
  destruct (Z.ltb_spec 8 (Z.of_nat (length input))).
  { unfold XXH3_len_9to16_64b. rewrite !(proj2 (Z.leb_le _ _)) by lia. cbn [andb XXH_ASSERT]. bind_simpl.
    repeat load. by eexists. }
  destruct (Z.leb_spec 4 (Z.of_nat (length input))).
  { unfold XXH3_len_4to8_64b. rewrite !(proj2 (Z.leb_le _ _)) by lia. cbn [andb XXH_ASSERT]. bind_simpl.
    repeat load. by eexists. }
  destruct (Z.eqb_spec (Z.of_nat (length input)) 0); cbn [negb].
  { repeat load. by eexists. }
  destruct (short_bytes input Hin) as (c1 & c2 & c3 & E1 & E2 & E3 & _); [lia|].
  unfold XXH3_len_1to3_64b. rewrite !(proj2 (Z.leb_le _ _)) by lia. cbn [andb XXH_ASSERT]. bind_simpl.
  rewrite E1, E2, E3. bind_simpl. repeat load. by eexists.
Qed.

Lemma len_17to128_total seed : 16 < Z.of_nat (length input) ≤ 128 →
  ∃ h, XXH3_len_17to128_64b input (Z.of_nat (length input)) secret size seed = Some h.
Proof.
  intros Hl. unfold XXH3_len_17to128_64b, XXH3_SECRET_SIZE_MIN. rewrite !(proj2 (Z.leb_le _ _)) by lia.
  rewrite (proj2 (Z.ltb_lt 16 _)) by lia. cbn [andb XXH_ASSERT]. bind_simpl.
  destruct (Z.ltb_spec 32 (Z.of_nat (length input))), (Z.ltb_spec 64 (Z.of_nat (length input))),
    (Z.ltb_spec 96 (Z.of_nat (length input))); try lia; repeat mix; by eexists.
Qed.

Lemma len_129to240_total seed : 128 < Z.of_nat (length input) ≤ 240 →
  ∃ h, XXH3_len_129to240_64b input (Z.of_nat (length input)) secret size seed = Some h.
Proof.
  intros Hl. unfold XXH3_len_129to240_64b, XXH3_SECRET_SIZE_MIN, XXH3_MIDSIZE_MAX.
  rewrite (proj2 (Z.leb_le 136 size)), (proj2 (Z.leb_le _ 240)) by lia. rewrite (proj2 (Z.ltb_lt 128 _)) by lia. cbn [andb XXH_ASSERT]. bind_simpl.
  rewrite (uwrap_small 32 (Z.of_nat (length input))) by lia.
  assert (Hr : 8 ≤ Z.of_nat (length input) / 16 ≤ 15 ∧ 16 * (Z.of_nat (length input) / 16) ≤ Z.of_nat (length input))
    by (Z.to_euclidean_division_equations; lia).
  set (n := Z.of_nat (length input) / 16) in *.
  match goal with |- context [for_up 8 0 ?f ?a] =>
    destruct (for_up_total (λ _, True) f 8 0 a) as (acc & -> & _); [|done|] end.
  { intros j t Hj _. mix. by eexists. }
  bind_simpl. mix. rewrite (proj2 (Z.leb_le 8 n)) by lia. cbn [XXH_ASSERT]. bind_simpl.
  match goal with |- context [for_up ?k 8 ?f ?a] =>
    destruct (for_up_total (λ _, True) f k 8 a) as (acc' & -> & _); [|done|] end.
  { intros j t Hj _. mix. by eexists. }
  by eexists.
Qed.

Lemma scalarRound_total acc p s lane : length acc = 8%nat → 0 ≤ lane < 8 →
  inside input p 64 → inside secret s 64 →
  ∃ acc', XXH3_scalarRound acc input p secret s lane = Some acc' ∧ length acc' = 8%nat.
Proof.
  intros Hacc Hlane (_ & ? & ?) (_ & ? & ?). unfold XXH3_scalarRound. repeat load.
  assert (0 ≤ Z.lxor lane 1 < 8) by (apply (lxor_range 3); lia).
  destruct (aget_is_Some acc (Z.lxor lane 1)) as [a ->]; [lia|]. bind_simpl.
  rewrite aset_Some by lia. bind_simpl.
  match goal with |- context [aget ?l lane] =>
    destruct (aget_is_Some l lane) as [b ->]; [rewrite length_insert; lia|] end.
  bind_simpl. rewrite aset_Some by (rewrite length_insert; lia). eexists. split; [done|]. by rewrite !length_insert.
Qed.

Lemma accumulate_512_total acc p s : length acc = 8%nat → inside input p 64 → inside secret s 64 →
  ∃ acc', XXH3_accumulate_512_scalar acc input p secret s = Some acc' ∧ length acc' = 8%nat.
Proof.
  intros Hacc Hp Hs. apply (for_up_total (λ a, length a = 8%nat)); [|done].
  intros j t Hj Ht. by apply scalarRound_total.
Qed.

Lemma accumulate_total acc p s n : length acc = 8%nat → 0 ≤ n → 0 ≤ p → p + n * 64 ≤ Z.of_nat (length input) →
  0 ≤ s → (0 < n → s + (n - 1) * 8 + 64 ≤ size) →
  ∃ acc', @XXH3_accumulate scalar acc input p secret s n = Some acc' ∧ length acc' = 8%nat.
Proof.
  intros Hacc Hn Hp Hpn Hs Hsn. apply (for_up_total (λ a, length a = 8%nat)); [|done].
  intros j t Hj Ht. unfold XXH_STRIPE_LEN, XXH_SECRET_CONSUME_RATE.
  apply accumulate_512_total; [done|split; [done|lia]..].
Qed.

Lemma scramble_total acc s : length acc = 8%nat → inside secret s 64 →
  ∃ acc', XXH3_scrambleAcc_scalar acc secret s = Some acc' ∧ length acc' = 8%nat.
Proof.
  intros Hacc (_ & ? & ?). apply (for_up_total (λ a, length a = 8%nat)); [|done].
  intros j t Hj Ht. unfold XXH3_scalarScrambleRound. load.
  destruct (aget_is_Some t j) as [a ->]; [lia|]. bind_simpl. rewrite aset_Some by lia.
  eexists. split; [done|]. by rewrite length_insert.
Qed.

Lemma mergeAccs_total acc start : length acc = 8%nat →
  ∃ h, XXH3_mergeAccs acc secret XXH_SECRET_MERGEACCS_START start = Some h.
Proof.
  intros Hacc. unfold XXH3_mergeAccs, XXH_SECRET_MERGEACCS_START.
  match goal with |- context [for_up 4 0 ?f ?a] =>
    destruct (for_up_total (λ _, True) f 4 0 a) as (acc' & -> & _); [|done|] end.
  { intros j t Hj _. unfold XXH3_mix2Accs.
    destruct (aget_is_Some acc (2 * j)) as [a ->]; [lia|]. bind_simpl.
    destruct (aget_is_Some acc (2 * j + 1)) as [b ->]; [lia|]. bind_simpl. repeat load. by eexists. }
  by eexists.
Qed.

Lemma hashLong_total : 240 < Z.of_nat (length input) →
  ∃ h, @XXH3_hashLong_64b_internal scalar input (Z.of_nat (length input)) secret size = Some h.
Proof.
  intros Hl. unfold XXH3_hashLong_64b_internal, XXH3_hashLong_internal_loop.
  unfold XXH_STRIPE_LEN, XXH_SECRET_CONSUME_RATE, XXH3_SECRET_SIZE_MIN. cbv zeta.
  rewrite (proj2 (Z.leb_le 136 size)), (proj2 (Z.ltb_lt 64 _)) by lia. cbn [XXH_ASSERT]. bind_simpl.
  set (L := Z.of_nat (length input)) in *. set (per := (size - 64) / 8).
  assert (Hper : 9 ≤ per ∧ per * 8 ≤ size - 64) by (unfold per; Z.to_euclidean_division_equations; lia).
  set (nb := (L - 1) / (64 * per)).
  assert (Hnb : 0 ≤ nb ∧ 64 * per * nb ≤ L - 1 ∧ L - 1 < 64 * per * nb + 64 * per).
  { pose proof (Z_div_mod_eq_full (L - 1) (64 * per)). pose proof (Z.mod_pos_bound (L - 1) (64 * per) ltac:(lia)).
    fold nb in H. split; [apply Z.div_pos; lia|lia]. }
  match goal with |- context [for_up (Z.to_nat nb) 0 ?f ?a] =>
    destruct (for_up_total (λ l, length l = 8%nat) f (Z.to_nat nb) 0 a) as (acc & -> & Hacc); [|done|] end.
  { intros j t Hj Ht. destruct (accumulate_total t (j * (64 * per)) 0 per) as (t' & -> & Ht'); [done|lia|nia|fold L; nia|lia..|].
    bind_simpl. apply scramble_total; [done|split; [done|lia]]. }
  bind_simpl. set (n := (L - 1 - 64 * per * nb) / 64).
  assert (Hn : 0 ≤ n ∧ 64 * n ≤ L - 1 - 64 * per * nb ∧ n < per).
  { unfold n. split; [apply Z.div_pos; lia|]. split; [apply Z.mul_div_le; lia|]. apply Z.div_lt_upper_bound; lia. }
  rewrite (proj2 (Z.leb_le n _)) by (apply Z.div_le_lower_bound; lia). cbn [XXH_ASSERT]. bind_simpl.
  destruct (accumulate_total acc (nb * (64 * per)) 0 n) as (acc1 & -> & Hacc1); [done|lia|nia|fold L; nia|lia..|].
  bind_simpl. unfold XXH_SECRET_LASTACC_START.
  destruct (accumulate_512_total acc1 (L - 64) (size - 64 - 7)) as (acc2 & E & Hacc2); [done|split; [done|fold L; lia]..|].
  cbn [XXH3_accumulate_512 scalar]. rewrite E. bind_simpl.
  change (64 + XXH_SECRET_MERGEACCS_START) with 75. rewrite (proj2 (Z.leb_le 75 _)) by lia. cbn [XXH_ASSERT]. bind_simpl.
  by apply mergeAccs_total.
Qed.

Lemma internal_total seed f : (240 < Z.of_nat (length input) → ∃ h, f input (Z.of_nat (length input)) seed secret size = Some h) →
  ∃ h, XXH3_64bits_internal input (Z.of_nat (length input)) seed secret size f = Some h.
Proof.
  intros Hf. unfold XXH3_64bits_internal, XXH3_SECRET_SIZE_MIN, XXH3_MIDSIZE_MAX.
  rewrite (proj2 (Z.leb_le 136 size)) by lia. cbn [XXH_ASSERT]. bind_simpl.
  destruct (Z.leb_spec (Z.of_nat (length input)) 16); [by apply len_0to16_total|].
  destruct (Z.leb_spec (Z.of_nat (length input)) 128); [by apply len_17to128_total|].
  destruct (Z.leb_spec (Z.of_nat (length input)) 240); [by apply len_129to240_total|]. by apply Hf.
Qed.
End total.

Lemma le_bytes_ok n x : bytes_ok (le_bytes n x).
Proof.
  revert x. induction n as [|n IH]; intros x; constructor; [|apply IH].
  unfold byte_ok. apply Z.mod_pos_bound. lia.
Qed.

Lemma writeLE64_total dst p v : bytes_ok dst → length dst = 192%nat → 0 ≤ p → p + 8 ≤ 192 →
  ∃ dst', XXH_writeLE64 dst p v = Some dst' ∧ bytes_ok dst' ∧ length dst' = 192%nat.
Proof.
  intros Hd Hl Hp Hp8. unfold XXH_writeLE64, XXH_memcpy. rewrite le_bytes_length.
  rewrite !(proj2 (Z.leb_le _ _)) by lia. cbn [andb]. eexists. split; [done|]. split.
  - apply Forall_app. split; [by apply Forall_take|]. apply Forall_app.
    split; [apply Forall_take, Forall_drop, le_bytes_ok|by apply Forall_drop].
  - rewrite !length_app, !length_take, !length_drop, le_bytes_length. lia.
Qed.

Lemma kSecret_ok : bytes_ok XXH3_kSecret.
Proof. unfold XXH3_kSecret. repeat constructor; unfold byte_ok; lia. Qed.

Lemma initCustomSecret_total dst seed : bytes_ok dst → length dst = 192%nat →
  ∃ secret, XXH3_initCustomSecret_scalar dst seed = Some secret ∧ bytes_ok secret ∧ length secret = 192%nat.
Proof.
  intros Hd Hl. apply (for_up_total (λ l, bytes_ok l ∧ length l = 192%nat)); [|done].
  change (Z.to_nat (XXH_SECRET_DEFAULT_SIZE / 16)) with 12%nat. intros j t Hj [Ht Htl].
  pose proof kSecret_ok. assert (Z.of_nat (length XXH3_kSecret) = 192) as Hk by reflexivity. repeat load.
  destruct (writeLE64_total t (16 * j) (u64 (k0 + seed))) as (t1 & -> & ? & ?); [done|done|lia..|]. bind_simpl.
  by apply writeLE64_total; [done|done|lia..].
Qed.

(** C36 [safety]. An input of any length is hashed, and no load or assertion fails: for every
    variant and entry point the code reads inside of the input and of the secret (of at least
    136 bytes) and returns a hash. *)
Theorem xxh3_reads_in_bounds (V : Vector) (HV : VectorLaws V) (input secret : list Z) (seed : Z)
    (Hin : bytes_ok input) (Hsec : bytes_ok secret) (Hmin : (136 ≤ length secret)%nat) :
  let len := Z.of_nat (length input) in
  let size := Z.of_nat (length secret) in
  is_Some (XXH3_64bits input len) ∧
  is_Some (XXH3_64bits_withSeed input len seed) ∧
  is_Some (XXH3_64bits_withSecret input len secret size) ∧
  is_Some (XXH3_64bits_withSecretandSeed input len secret size seed).
Proof.
  pose proof kSecret_ok as Hk. pose proof (eq_refl : Z.of_nat (length XXH3_kSecret) = 192) as Hkl.
  unfold is_Some. split_and!.
  - apply internal_total; [done..|unfold XXH_SECRET_DEFAULT_SIZE; lia|]. intros Hlen.
    unfold XXH3_hashLong_64b_default. rewrite (hashLong_scalar V). by apply hashLong_total.
  - apply internal_total; [done..|unfold XXH_SECRET_DEFAULT_SIZE; lia|]. intros Hlen.
    unfold XXH3_hashLong_64b_withSeed. rewrite (withSeed_scalar V).
    unfold XXH3_hashLong_64b_withSeed_internal. case_match; [by apply hashLong_total|].
    destruct (initCustomSecret_total (replicate 192 0) seed) as (s & E & Hs & Hsl);
      [by apply Forall_replicate|done|].
    cbn [XXH3_initCustomSecret scalar]. rewrite E. bind_simpl.
    apply hashLong_total; [done|done|by rewrite Hsl|done..].
  - apply internal_total; [done..|lia|]. intros Hlen.
    unfold XXH3_hashLong_64b_withSecret. rewrite (hashLong_scalar V). by apply hashLong_total; [..|lia|].
  - unfold XXH3_64bits_withSecretandSeed, XXH3_MIDSIZE_MAX. case_match eqn:E.
    + apply internal_total; [done..|unfold XXH_SECRET_DEFAULT_SIZE; lia|]. apply Z.leb_le in E. lia.
    + apply Z.leb_gt in E. unfold XXH3_hashLong_64b_withSecret. rewrite (hashLong_scalar V).
      by apply hashLong_total; [..|lia|].
Qed.

Lemma xxh3_reads_in_bounds_witness :
  is_Some (@XXH3_64bits sse2 (replicate 300 7) 300).
Proof.
  apply (xxh3_reads_in_bounds sse2 sse2_laws (replicate 300 7) XXH3_kSecret 0).
  - apply Forall_replicate. unfold byte_ok. lia.
  - apply kSecret_ok.
  - vm_compute. lia.
Defined.

(** The hash of the empty input. *)
Example XXH3_64bits_empty : @XXH3_64bits scalar [] 0 = Some 0x2D06800538D394C2.
Proof. vm_compute. reflexivity. Qed.
