(* ===== verification/Slab.v ===== *)
(** * The slab allocator (src/c-util/slab.c): the model

    A pool is one block of shared memory: the pool header, the slot heads, the page
    descriptors and then the pages.  A descriptor is found through a pointer [pptr]: the
    list head [pool->free], [slots[i]] or [pool->pages[i]].  Descriptors are 8-aligned, so
    the two low bits of [prev] hold the kind of the page; [prev] is the pair of the pointer
    and those two bits.  Everything from [pool->start] on is memory in 64-bit words, by
    byte address: the bitmaps of the pages with small chunks are words of those pages, next
    to the chunks of the clients.  Dereferencing NULL, leaving the arrays and running on
    forever are [None].

    [log_ctx], [zero] and [log_nomem] only serve logging, [data] and [addr] are the
    caller's: they are left out. *)

From S2P Require Import Prelude.

(** ** Data *)

Inductive pptr := AtFree | AtSlot (i : Z) | AtPage (i : Z).

#[global] Instance pptr_eq : EqDecision pptr.
Proof. solve_decision. Defined.
#[global] Program Instance pptr_countable : Countable pptr :=
  inj_countable' (λ p, match p with AtFree => inl () | AtSlot i => inr (inl i) | AtPage i => inr (inr i) end)
    (λ s : () + (Z + Z), match s with inl _ => AtFree | inr (inl i) => AtSlot i | inr (inr i) => AtPage i end) _.
Next Obligation. by intros []. Qed.

(** src/c-util/slab.h:24-32, [ngx_slab_page_s]. *)
Record ngx_slab_page_t := mkPage { slab : Z; next : option pptr; prev : option pptr * Z }.

(** src/c-util/slab.h:44-63, [ngx_slab_pool_t]. The pages of the pool are [nodes] at
    [AtPage 0], [AtPage 1], ...; [last] is the index of the first descriptor past them. *)
Record ngx_slab_pool_t := mkPool {
  min_size : Z; min_shift : Z; last : Z; start : Z; end_ : Z;
  nodes : gmap pptr ngx_slab_page_t;
  mem : gmap Z Z
}.

(** src/c-util/slab.c:3-4, [ngx_pagesize]. *)
Definition ngx_pagesize : Z := 4096.
Definition ngx_pagesize_shift : Z := 12.

(** src/c-util/slab.c:12-26, [NGX_SLAB_*]. *)
Definition NGX_SLAB_PAGE : Z := 0.
Definition NGX_SLAB_BIG : Z := 1.
Definition NGX_SLAB_EXACT : Z := 2.
Definition NGX_SLAB_SMALL : Z := 3.
Definition NGX_SLAB_PAGE_FREE : Z := 0.
Definition NGX_SLAB_PAGE_BUSY : Z := 0xffffffffffffffff.
Definition NGX_SLAB_PAGE_START : Z := 0x8000000000000000.
Definition NGX_SLAB_SHIFT_MASK : Z := 0xf.
Definition NGX_SLAB_MAP_MASK : Z := 0xffffffff00000000.
Definition NGX_SLAB_MAP_SHIFT : Z := 32.
Definition NGX_SLAB_BUSY : Z := 0xffffffffffffffff.

(** src/c-util/slab.c:153-155, [for (s = size - 1; s >>= 1; shift++)]. A 64-bit [s] is 0
    after 64 shifts. *)
Fixpoint count_shift (fuel : nat) (s shift : Z) : Z :=
  match fuel with
  | O => shift
  | S f => let s := s ≫ 1 in if s =? 0 then shift else count_shift f s (shift + 1)
  end.

(** src/c-util/slab.c:45-53, [ngx_slab_init]. The limits, set when the first pool is. *)
Definition ngx_slab_max_size : Z := ngx_pagesize / 2.
Definition ngx_slab_exact_size : Z := ngx_pagesize / (8 * 8).
Definition ngx_slab_exact_shift : Z := count_shift 64 ngx_slab_exact_size 0.

(** ** Memory accesses *)

Implicit Types (q : ngx_slab_pool_t) (x y : pptr).

Definition set_nodes q (N : gmap pptr ngx_slab_page_t) : ngx_slab_pool_t :=
  mkPool (min_size q) (min_shift q) (last q) (start q) (end_ q) N (mem q).
Definition set_mem q (M : gmap Z Z) : ngx_slab_pool_t :=
  mkPool (min_size q) (min_shift q) (last q) (start q) (end_ q) (nodes q) M.

Definition set_slab (s : Z) (pg : ngx_slab_page_t) : ngx_slab_page_t := mkPage s (next pg) (prev pg).
Definition set_next (n : option pptr) (pg : ngx_slab_page_t) : ngx_slab_page_t := mkPage (slab pg) n (prev pg).
Definition set_prev (p : option pptr * Z) (pg : ngx_slab_page_t) : ngx_slab_page_t := mkPage (slab pg) (next pg) p.

Definition get q x : option ngx_slab_page_t := nodes q !! x.
Definition upd q x (f : ngx_slab_page_t → ngx_slab_page_t) : option ngx_slab_pool_t :=
  pg ← get q x; Some (set_nodes q (<[x := f pg]> (nodes q))).

(** A word of the pages: the access stays between [start] and [end]. *)
Definition word_at q (a : Z) : bool :=
  (start q <=? a) && (a + 8 <=? end_ q) && (a mod 8 =? 0).
Definition rdw q (a : Z) : option Z := if word_at q a then Some (default 0 (mem q !! a)) else None.
Definition wrw q (a v : Z) : option ngx_slab_pool_t :=
  if word_at q a then Some (set_mem q (<[a := v]> (mem q))) else None.

(** [page - pool->pages], and [&page[k]]. *)
Definition page_index x : option Z := match x with AtPage i => Some i | _ => None end.
Definition page_plus x (k : Z) : option pptr := match x with AtPage i => Some (AtPage (i + k)) | _ => None end.

(** src/c-util/slab.c:214-218, [prev = page->prev & ~NGX_SLAB_PAGE_MASK; prev->next = page->next;
    page->next->prev = page->prev;]. *)
Definition unlink q x : option ngx_slab_pool_t :=
  pg ← get q x;
  prv ← (prev pg).1;
  q ← upd q prv (set_next (next pg));
  pg ← get q x;
  nx ← next pg;
  upd q nx (set_prev (prev pg)).

(** src/c-util/slab.c:214-222, [if (bitmap[n] == NGX_SLAB_BUSY)]. A page without free
    chunks leaves the list of its slot. *)
Definition unlink_full q x (type : Z) : option ngx_slab_pool_t :=
  q ← unlink q x; upd q x (λ pg, mkPage (slab pg) None (None, type)).

(** ** Pages *)

(** src/c-util/slab.c:717-725, [for (p = page + 1; pages; pages--)]. *)
Fixpoint mark_busy (n : nat) q x : option ngx_slab_pool_t :=
  match n with
  | O => Some q
  | S n =>
      q ← upd q x (λ _, mkPage NGX_SLAB_PAGE_BUSY None (None, NGX_SLAB_PAGE));
      y ← page_plus x 1; mark_busy n q y
  end.

(** src/c-util/slab.c:685-697, [if (page->slab > pages)]. The rest of the run, from
    [page[pages]] on, takes the place of the run in the list; [(ngx_slab_page_t * ) page->prev]
    is a pointer when its low bits are 0. *)
Definition split_run q x (pages : Z) : option ngx_slab_pool_t :=
  pg ← get q x;
  y ← page_plus x pages;
  l ← page_plus x (slab pg - 1);
  q ← upd q l (set_prev (Some y, 0));
  q ← upd q y (λ _, mkPage (slab pg - pages) (next pg) (prev pg));
  p ← (if (prev pg).2 =? 0 then (prev pg).1 else None);
  q ← upd q p (set_next (Some y));
  nx ← next pg;
  upd q nx (set_prev (Some y, 0)).

(** src/c-util/slab.c:698-704, [p->next = page->next]. *)
Definition take_run q x : option ngx_slab_pool_t :=
  pg ← get q x;
  p ← (if (prev pg).2 =? 0 then (prev pg).1 else None);
  q ← upd q p (set_next (next pg));
  nx ← next pg;
  upd q nx (set_prev (prev pg)).

(** src/c-util/slab.c:683-728, [if (page->slab >= pages)]. The first pages of the run go to
    the caller. *)
Definition claim_run q x (pages : Z) : option (option pptr * ngx_slab_pool_t) :=
  pg ← get q x;
  q ← (if pages <? slab pg then split_run q x pages else take_run q x);
  q ← upd q x (λ _, mkPage (Z.lor pages NGX_SLAB_PAGE_START) None (None, NGX_SLAB_PAGE));
  let rest := u64 (pages - 1) in
  if rest =? 0 then Some (Some x, q) else
  y ← page_plus x 1;
  q ← mark_busy (Z.to_nat rest) q y;
  Some (Some x, q).

(** src/c-util/slab.c:675-729, [ngx_slab_alloc_pages]. The loop over the free runs. *)
Fixpoint alloc_pages_loop (fuel : nat) q x (pages : Z) : option (option pptr * ngx_slab_pool_t) :=
  match fuel with
  | O => None
  | S f =>
      if decide (x = AtFree) then Some (None, q) else
      pg ← get q x;
      if pages <=? slab pg then claim_run q x pages
      else nx ← next pg; alloc_pages_loop f q nx pages
  end.

(** src/c-util/slab.c:668-738, [ngx_slab_alloc_pages]. A list of descriptors is not longer
    than their number. *)
Definition ngx_slab_alloc_pages q (pages : Z) : option (option pptr * ngx_slab_pool_t) :=
  fr ← get q AtFree; x ← next fr;
  alloc_pages_loop (S (size (nodes q))) q x pages.

(** src/c-util/slab.c:751-754, [memset(&page[1], 0, pages * sizeof(ngx_slab_page_t))]. *)
Fixpoint zero_pages (n : nat) q x : option ngx_slab_pool_t :=
  match n with
  | O => Some q
  | S n =>
      q ← upd q x (λ _, mkPage 0 None (None, 0));
      y ← page_plus x 1; zero_pages n q y
  end.

(** src/c-util/slab.c:764-788, [if (join < pool->last)]. The run after the pages, if it is
    free, becomes a part of them. *)
Definition join_next q x (pages : Z) : option (ngx_slab_pool_t * Z) :=
  pg ← get q x;
  i ← page_index x;
  let join := i + slab pg in
  if join <? last q then
    jg ← get q (AtPage join);
    if (prev jg).2 =? NGX_SLAB_PAGE then
      match next jg with
      | Some _ =>
          q ← upd q x (set_slab (u64 (slab pg + slab jg)));
          q ← unlink q (AtPage join);
          q ← upd q (AtPage join) (λ _, mkPage NGX_SLAB_PAGE_FREE None (None, NGX_SLAB_PAGE));
          Some (q, u64 (pages + slab jg))
      | None => Some (q, pages)
      end
    else Some (q, pages)
  else Some (q, pages).

(** src/c-util/slab.c:790-819, [if (page > pool->pages)]. The pages become a part of the
    run before them, if it is free. *)
Definition join_prev q x (pages : Z) : option (ngx_slab_pool_t * Z * pptr) :=
  i ← page_index x;
  if 0 <? i then
    jg ← get q (AtPage (i - 1));
    if (prev jg).2 =? NGX_SLAB_PAGE then
      join ← (if slab jg =? NGX_SLAB_PAGE_FREE then (prev jg).1 else Some (AtPage (i - 1)));
      jg ← get q join;
      match next jg with
      | Some _ =>
          pg ← get q x;
          q ← upd q join (set_slab (u64 (slab jg + slab pg)));
          q ← unlink q join;
          q ← upd q x (λ _, mkPage NGX_SLAB_PAGE_FREE None (None, NGX_SLAB_PAGE));
          Some (q, u64 (pages + slab jg), join)
      | None => Some (q, pages, x)
      end
    else Some (q, pages, x)
  else Some (q, pages, x).

(** src/c-util/slab.c:821-832, [page->prev = (uintptr_t)&pool->free]. *)
Definition push_free q x (pages : Z) : option ngx_slab_pool_t :=
  q ← (if pages =? 0 then Some q else
       y ← page_plus x pages; upd q y (set_prev (Some x, 0)));
  q ← upd q x (set_prev (Some AtFree, 0));
  fr ← get q AtFree;
  q ← upd q x (set_next (next fr));
  nx ← next fr;
  q ← upd q nx (set_prev (Some x, 0));
  upd q AtFree (set_next (Some x)).

(** src/c-util/slab.c:742-833, [ngx_slab_free_pages]. *)
Definition ngx_slab_free_pages q x (pages : Z) : option ngx_slab_pool_t :=
  q ← upd q x (set_slab pages);
  let pages := u64 (pages - 1) in
  q ← (if pages =? 0 then Some q else y ← page_plus x 1; zero_pages (Z.to_nat pages) q y);
  pg ← get q x;
  q ← (match next pg with Some _ => unlink q x | None => Some q end);
  r ← join_next q x pages;
  r ← join_prev r.1 x r.2;
  push_free r.1.1 r.2 r.1.2.

(** ** Allocating chunks *)

(** src/c-util/slab.c:189-194, [for (m = 1, i = 0; m; m <<= 1, i++)]. The first clear bit of
    [w] from [m] on, with its number; 64 shifts make [m] 0. *)
Fixpoint scan_bit (fuel : nat) (go : Z → bool) (w m i : Z) : option (Z * Z) :=
  match fuel with
  | O => None
  | S f =>
      if go m then
        if Z.land w m =? 0 then Some (m, i) else scan_bit f go w (ushl 64 m 1) (i + 1)
      else None
  end.

(** src/c-util/slab.c:180, [map]. The words of the bitmap. *)
Definition small_map (shift : Z) : Z := (1 ≪ (ngx_pagesize_shift - shift)) / (8 * 8).

(** src/c-util/slab.c:336-342, [n]. The chunks that the bitmap occupies. *)
Definition small_reserved (shift : Z) : Z :=
  let n := (1 ≪ (ngx_pagesize_shift - shift)) / 8 / (1 ≪ shift) in if n =? 0 then 1 else n.

(** src/c-util/slab.c:203-211, [for (n = n + 1; n < map; n++)]. *)
Fixpoint all_busy (cnt : nat) q (bitmap n : Z) : option bool :=
  match cnt with
  | O => Some true
  | S c =>
      w ← rdw q (bitmap + 8 * n);
      if negb (w =? NGX_SLAB_BUSY) then Some false else all_busy c q bitmap (n + 1)
  end.

(** src/c-util/slab.c:182-228, [for (n = 0; n < map; n++)]. [Some None] when the page has no
    free chunk; [cnt] is [map - n]. *)
Fixpoint alloc_small_page (cnt : nat) q x (bitmap shift n : Z) : option (option (Z * ngx_slab_pool_t)) :=
  match cnt with
  | O => Some None
  | S c =>
      w ← rdw q (bitmap + 8 * n);
      if negb (w =? NGX_SLAB_BUSY) then
        match scan_bit 65 (λ m, negb (m =? 0)) w 1 0 with
        | Some (m, i) =>
            let w := Z.lor w m in
            q ← wrw q (bitmap + 8 * n) w;
            let i := u64 (ushl 64 (u64 (n * 8 * 8)) shift + ushl 64 i shift) in
            q ← (if w =? NGX_SLAB_BUSY then
                   busy ← all_busy c q bitmap (n + 1);
                   if busy : bool then unlink_full q x NGX_SLAB_SMALL else Some q
                 else Some q);
            Some (Some (u64 (bitmap + i), q))
        | None => alloc_small_page c q x bitmap shift (n + 1)
        end
      else alloc_small_page c q x bitmap shift (n + 1)
  end.

(** src/c-util/slab.c:171-233, [if (shift < ngx_slab_exact_shift)]. *)
Fixpoint alloc_small (fuel : nat) q x (shift : Z) : option (option (Z * ngx_slab_pool_t)) :=
  match fuel with
  | O => None
  | S f =>
      k ← page_index x;
      r ← alloc_small_page (Z.to_nat (small_map shift)) q x
            (start q + (k ≪ ngx_pagesize_shift)) shift 0;
      match r with
      | Some res => Some (Some res)
      | None =>
          pg ← get q x;
          match next pg with Some nx => alloc_small f q nx shift | None => Some None end
      end
  end.

(** A loop over pages with the bitmap in [slab]: [go] is the condition of the inner loop,
    [m0] the first bit, [full] tests for a page without free chunks. *)
Fixpoint alloc_in_slab (fuel : nat) (go full : Z → bool) (m0 type : Z) q x (shift : Z) :
    option (option (Z * ngx_slab_pool_t)) :=
  match fuel with
  | O => None
  | S f =>
      pg ← get q x;
      match (if full (slab pg) then None else scan_bit 65 go (slab pg) m0 0) with
      | Some (m, i) =>
          let s := Z.lor (slab pg) m in
          q ← upd q x (set_slab s);
          q ← (if full s then unlink_full q x type else Some q);
          k ← page_index x;
          Some (Some (u64 ((k ≪ ngx_pagesize_shift) + (i ≪ shift) + start q), q))
      | None => match next pg with Some nx => alloc_in_slab f go full m0 type q nx shift | None => Some None end
      end
  end.

(** src/c-util/slab.c:234-276, [else if (shift == ngx_slab_exact_shift)]. *)
Definition alloc_exact (fuel : nat) q x (shift : Z) : option (option (Z * ngx_slab_pool_t)) :=
  alloc_in_slab fuel (λ m, negb (m =? 0)) (λ s, s =? NGX_SLAB_BUSY) 1 NGX_SLAB_EXACT q x shift.

(** src/c-util/slab.c:280-283, [mask]. The bits of all the chunks of a page. *)
Definition big_mask (shift : Z) : Z :=
  let n := ngx_pagesize_shift - shift in
  let n := 1 ≪ n in
  let n := u64 (ushl 64 1 n - 1) in
  ushl 64 n NGX_SLAB_MAP_SHIFT.

(** src/c-util/slab.c:277-323, [size > 128B]. *)
Definition alloc_big (fuel : nat) q x (shift : Z) : option (option (Z * ngx_slab_pool_t)) :=
  pg ← get q x;
  let mask := big_mask (Z.land (slab pg) NGX_SLAB_SHIFT_MASK) in
  alloc_in_slab fuel (λ m, negb (Z.land m mask =? 0)) (λ s, Z.land s NGX_SLAB_MAP_MASK =? mask)
    (ushl 64 1 NGX_SLAB_MAP_SHIFT) NGX_SLAB_BIG q x shift.

(** src/c-util/slab.c:351-354, [bitmap[i] = 0]. [cnt] is [map - i]. *)
Fixpoint clear_words (cnt : nat) q (bitmap i : Z) : option ngx_slab_pool_t :=
  match cnt with
  | O => Some q
  | S c => q ← wrw q (bitmap + 8 * i) 0; clear_words c q bitmap (i + 1)
  end.

(** src/c-util/slab.c:356-360, [page->slab = shift; page->next = &slots[slot]]. The new page is
    the list of its slot. *)
Definition link_slot q x (s slot type : Z) : option ngx_slab_pool_t :=
  q ← upd q x (λ _, mkPage s (Some (AtSlot slot)) (Some (AtSlot slot), type));
  upd q (AtSlot slot) (set_next (Some x)).

(** src/c-util/slab.c:331-367, [if (shift < ngx_slab_exact_shift)]. *)
Definition new_small q x (shift slot : Z) : option (Z * ngx_slab_pool_t) :=
  k ← page_index x;
  let bitmap := start q + (k ≪ ngx_pagesize_shift) in
  let s := 1 ≪ shift in
  let n := small_reserved shift in
  q ← wrw q bitmap ((2 ≪ n) - 1);
  q ← clear_words (Z.to_nat (small_map shift - 1)) q bitmap 1;
  q ← link_slot q x shift slot NGX_SLAB_SMALL;
  Some (u64 ((k ≪ ngx_pagesize_shift) + s * n + start q), q).

(** src/c-util/slab.c:368-382, [else if (shift == ngx_slab_exact_shift)]. *)
Definition new_exact q x (slot : Z) : option (Z * ngx_slab_pool_t) :=
  q ← link_slot q x 1 slot NGX_SLAB_EXACT;
  k ← page_index x;
  Some (u64 ((k ≪ ngx_pagesize_shift) + start q), q).

(** src/c-util/slab.c:383-396, [page->slab = ((uintptr_t)1 << NGX_SLAB_MAP_SHIFT) | shift]. *)
Definition new_big q x (shift slot : Z) : option (Z * ngx_slab_pool_t) :=
  q ← link_slot q x (Z.lor (ushl 64 1 NGX_SLAB_MAP_SHIFT) shift) slot NGX_SLAB_BIG;
  k ← page_index x;
  Some (u64 ((k ≪ ngx_pagesize_shift) + start q), q).

(** src/c-util/slab.c:150-163, [if (size > pool->min_size)]. *)
Definition size_shift q (size : Z) : Z :=
  if min_size q <? size then count_shift 64 (size - 1) 1 else min_shift q.

(** src/c-util/slab.c:325-402, [page = ngx_slab_alloc_pages(pool, 1)]. *)
Definition alloc_new q (shift slot : Z) : option (Z * ngx_slab_pool_t) :=
  r ← ngx_slab_alloc_pages q 1;
  match r with
  | (Some x, q) =>
      if shift <? ngx_slab_exact_shift then new_small q x shift slot
      else if shift =? ngx_slab_exact_shift then new_exact q x slot
      else new_big q x shift slot
  | (None, q) => Some (0, q)
  end.

(** src/c-util/slab.c:126-403, [ngx_slab_alloc]. *)
Definition ngx_slab_alloc q (size : Z) : option (Z * ngx_slab_pool_t) :=
  if ngx_slab_max_size <? size then
    r ← ngx_slab_alloc_pages q ((size ≫ ngx_pagesize_shift) + (if size mod ngx_pagesize =? 0 then 0 else 1));
    match r with
    | (Some x, q) => k ← page_index x; Some (u64 ((k ≪ ngx_pagesize_shift) + start q), q)
    | (None, q) => Some (0, q)
    end
  else
    let shift := size_shift q size in
    let slot := shift - min_shift q in
    sl ← get q (AtSlot slot);
    x ← next sl;
    pg ← get q x;
    let fuel := S (stdpp.base.size (nodes q)) in
    r ← (if decide (next pg = Some x) then Some None
         else if shift <? ngx_slab_exact_shift then alloc_small fuel q x shift
         else if shift =? ngx_slab_exact_shift then alloc_exact fuel q x shift
         else alloc_big fuel q x shift);
    match r with
    | Some res => Some res
    | None => alloc_new q shift slot
    end.

(** [memset(p, 0, n)] on little-endian words, [p] being 8-aligned. *)
Fixpoint zero_words_at (cnt : nat) q (p n : Z) : option ngx_slab_pool_t :=
  match cnt with
  | O => Some q
  | S c =>
      if n <=? 0 then Some q else
      w ← rdw q p;
      q ← wrw q p (if 8 <=? n then 0 else (w ≫ (8 * n)) ≪ (8 * n));
      zero_words_at c q (p + 8) (n - 8)
  end.

(** src/c-util/slab.c:405-417, [ngx_slab_calloc]. *)
Definition ngx_slab_calloc q (size : Z) : option (Z * ngx_slab_pool_t) :=
  r ← ngx_slab_alloc q size;
  let '(p, q) := r : Z * ngx_slab_pool_t in
  if p =? 0 then Some (p, q)
  else q ← zero_words_at (Z.to_nat (size / 8 + 1)) q p size; Some (p, q).

(** ** Freeing *)

(** src/c-util/slab.c:484-490, [page->next = slots[slot].next]. A page that was full goes back
    to the list of its slot. *)
Definition relink q x (slot type : Z) : option ngx_slab_pool_t :=
  sl ← get q (AtSlot slot);
  q ← upd q x (set_next (next sl));
  q ← upd q (AtSlot slot) (set_next (Some x));
  q ← upd q x (set_prev (Some (AtSlot slot), type));
  pg ← get q x;
  nx ← next pg;
  upd q nx (set_prev (Some x, type)).

(** src/c-util/slab.c:513-519, [for (n = 1; n < map; n++)]. *)
Fixpoint all_clear (cnt : nat) q (bitmap n : Z) : option bool :=
  match cnt with
  | O => Some true
  | S c =>
      w ← rdw q (bitmap + 8 * n);
      if negb (w =? 0) then Some false else all_clear c q bitmap (n + 1)
  end.

(** src/c-util/slab.c:459-526, [case NGX_SLAB_SMALL]. *)
Definition free_small q x (p : Z) : option ngx_slab_pool_t :=
  pg ← get q x;
  let shift := Z.land (slab pg) NGX_SLAB_SHIFT_MASK in
  let size := 1 ≪ shift in
  if negb (Z.land p (size - 1) =? 0) then Some q else
  let n := Z.land p (ngx_pagesize - 1) ≫ shift in
  let m := ushl 64 1 (Z.land n (8 * 8 - 1)) in
  let n := n / (8 * 8) in
  let bitmap := Z.land p (unot 64 (ngx_pagesize - 1)) in
  w ← rdw q (bitmap + 8 * n);
  if negb (Z.land w m =? 0) then
    q ← (match next pg with
         | None => relink q x (shift - min_shift q) NGX_SLAB_SMALL
         | Some _ => Some q
         end);
    q ← wrw q (bitmap + 8 * n) (Z.land w (unot 64 m));
    let n := small_reserved shift in
    w0 ← rdw q bitmap;
    if negb (Z.land w0 (unot 64 (ushl 64 1 n - 1)) =? 0) then Some q else
    clear ← all_clear (Z.to_nat (small_map shift - 1)) q bitmap 1;
    if clear : bool then ngx_slab_free_pages q x 1 else Some q
  else Some q.

(** src/c-util/slab.c:528-564, [case NGX_SLAB_EXACT]. *)
Definition free_exact q x (p : Z) : option ngx_slab_pool_t :=
  pg ← get q x;
  let m := ushl 64 1 (Z.land p (ngx_pagesize - 1) ≫ ngx_slab_exact_shift) in
  let size := ngx_slab_exact_size in
  if negb (Z.land p (size - 1) =? 0) then Some q else
  if negb (Z.land (slab pg) m =? 0) then
    q ← (if slab pg =? NGX_SLAB_BUSY
         then relink q x (ngx_slab_exact_shift - min_shift q) NGX_SLAB_EXACT else Some q);
    let s := Z.land (slab pg) (unot 64 m) in
    q ← upd q x (set_slab s);
    if negb (s =? 0) then Some q else ngx_slab_free_pages q x 1
  else Some q.

(** src/c-util/slab.c:566-609, [case NGX_SLAB_BIG]. *)
Definition free_big q x (p : Z) : option ngx_slab_pool_t :=
  pg ← get q x;
  let shift := Z.land (slab pg) NGX_SLAB_SHIFT_MASK in
  let size := 1 ≪ shift in
  if negb (Z.land p (size - 1) =? 0) then Some q else
  let m := ushl 64 1 ((Z.land p (ngx_pagesize - 1) ≫ shift) + NGX_SLAB_MAP_SHIFT) in
  if negb (Z.land (slab pg) m =? 0) then
    q ← (match next pg with
         | None => relink q x (shift - min_shift q) NGX_SLAB_BIG
         | Some _ => Some q
         end);
    let s := Z.land (slab pg) (unot 64 m) in
    q ← upd q x (set_slab s);
    if negb (Z.land s NGX_SLAB_MAP_MASK =? 0) then Some q else ngx_slab_free_pages q x 1
  else Some q.

(** src/c-util/slab.c:611-639, [case NGX_SLAB_PAGE]. *)
Definition free_page q x (p : Z) : option ngx_slab_pool_t :=
  pg ← get q x;
  if negb (Z.land p (ngx_pagesize - 1) =? 0) then Some q else
  if slab pg =? NGX_SLAB_PAGE_FREE then Some q else
  if slab pg =? NGX_SLAB_PAGE_BUSY then Some q else
  ngx_slab_free_pages q x (Z.land (slab pg) (unot 64 NGX_SLAB_PAGE_START)).

(** src/c-util/slab.c:436-662, [ngx_slab_free]. *)
Definition ngx_slab_free q (p : Z) : option ngx_slab_pool_t :=
  if (p <? start q) || (end_ q <? p) then Some q else
  let x := AtPage ((p - start q) ≫ ngx_pagesize_shift) in
  pg ← get q x;
  let type := (prev pg).2 in
  if type =? NGX_SLAB_SMALL then free_small q x p
  else if type =? NGX_SLAB_EXACT then free_exact q x p
  else if type =? NGX_SLAB_BIG then free_big q x p
  else free_page q x p.

(** ** Initialisation *)

(** The layout of the x86-64 ABI. *)
Definition sizeof_slab_pool : Z := 104.
Definition sizeof_slab_page : Z := 24.

(** src/c-util/slab.h:21-22, [ngx_align_ptr]. *)
Definition ngx_align_ptr (p a : Z) : Z := Z.land (p + (a - 1)) (unot 64 (a - 1)).

(** [n] descriptors from [mk i] on. *)
Fixpoint add_nodes (n : nat) (mk : Z → pptr) (pg : Z → ngx_slab_page_t) (i : Z)
    (N : gmap pptr ngx_slab_page_t) : gmap pptr ngx_slab_page_t :=
  match n with
  | O => N
  | S n => add_nodes n mk pg (i + 1) (<[mk i := pg i]> N)
  end.

(** src/c-util/slab.c:37-109, [ngx_slab_init]. The pool at address [base] with [min_shift]
    and [end] filled in by the caller, and the memory as it was. *)
Definition ngx_slab_init (base : Z) (minshift endp : Z) (M : gmap Z Z) : ngx_slab_pool_t :=
  let p := base + sizeof_slab_pool in
  let size := endp - p in
  let n := ngx_pagesize_shift - minshift in
  let N := add_nodes (Z.to_nat n) AtSlot (λ i, mkPage 0 (Some (AtSlot i)) (None, 0)) 0 ∅ in
  let p := p + n * sizeof_slab_page in
  let pages := size / (ngx_pagesize + sizeof_slab_page) in
  let N := add_nodes (Z.to_nat pages) AtPage (λ _, mkPage 0 None (None, 0)) 0 N in
  let start := ngx_align_ptr (p + pages * sizeof_slab_page) ngx_pagesize in
  let m := s64 (pages - u64 (endp - start) / ngx_pagesize) in
  let pages := if 0 <? m then pages - m else pages in
  let N := <[AtFree := mkPage 0 (Some (AtPage 0)) (None, 0)]> N in
  let N := <[AtPage 0 := mkPage pages (Some AtFree) (Some AtFree, 0)]> N in
  mkPool (1 ≪ minshift) minshift pages start endp N M.
