(* ===== verification/SlabList.v ===== *)
(** * The slab allocator: the doubly linked lists of descriptors

    [pool->free] and every [slots[i]] head a circular list.  [ring N t h l] says that the
    list of head [h] is [l] and that the back pointers carry the low bits [t]; each list
    operation of slab.c is shown to change one ring and only the links of its members. *)

From S2P Require Import Prelude Slab.

Implicit Types (q : ngx_slab_pool_t) (x y h a b : pptr) (l : list pptr).
Implicit Types (N : gmap pptr ngx_slab_page_t).

Definition null_page : ngx_slab_page_t := mkPage 0 None (None, 0).
Definition nd N x : ngx_slab_page_t := default null_page (N !! x).

Fixpoint lseg N (t : Z) a l b : Prop :=
  match l with
  | [] => next (nd N a) = Some b
  | x :: l => next (nd N a) = Some x ∧ prev (nd N x) = (Some a, t) ∧ lseg N t x l b
  end.

Record ring N (t : Z) h l : Prop := {
  ring_lseg : lseg N t h l h;
  ring_nodup : NoDup (h :: l);
  ring_there : ∀ x, x ∈ h :: l → is_Some (N !! x)
}.

(** Only the links of the members of [l] change. *)
Record links_only N N' l : Prop := {
  links_slab : ∀ x, slab (nd N' x) = slab (nd N x);
  links_other : ∀ x, x ∉ l → nd N' x = nd N x;
  links_dom : ∀ x, is_Some (N' !! x) ↔ is_Some (N !! x)
}.

(** ** Descriptors *)

Lemma nd_insert N x pg : nd (<[x := pg]> N) x = pg.
Proof. unfold nd. by rewrite lookup_insert_eq. Qed.
Lemma nd_insert_ne N x y pg : x ≠ y → nd (<[x := pg]> N) y = nd N y.
Proof. intros. unfold nd. by rewrite lookup_insert_ne. Qed.
Lemma nd_lookup N x : is_Some (N !! x) → N !! x = Some (nd N x).
Proof. intros [pg E]. unfold nd. by rewrite E. Qed.

Lemma is_Some_insert N x y pg : is_Some (N !! x) → is_Some (<[x := pg]> N !! y) ↔ is_Some (N !! y).
Proof.
  intros Hx. destruct (decide (x = y)) as [->|]; [rewrite lookup_insert_eq|by rewrite lookup_insert_ne].
  split; [done|by eexists].
Qed.

Lemma there_insert N x y pg : is_Some (N !! y) → is_Some (<[x := pg]> N !! y).
Proof. intros Hy. apply lookup_insert_is_Some'. by right. Qed.

(** A descriptor that was there still is after some stores. *)
Ltac there := cbn [nodes set_nodes]; repeat apply there_insert; first [done | eauto].

Lemma get_nd q x : is_Some (nodes q !! x) → get q x = Some (nd (nodes q) x).
Proof. apply nd_lookup. Qed.

Lemma upd_nd q x f : is_Some (nodes q !! x) →
  upd q x f = Some (set_nodes q (<[x := f (nd (nodes q) x)]> (nodes q))).
Proof. intros Hx. unfold upd. by rewrite get_nd. Qed.

Lemma links_refl N l : links_only N N l.
Proof. by split. Qed.

Lemma links_trans N N' N'' l : links_only N N' l → links_only N' N'' l → links_only N N'' l.
Proof.
  intros [S1 O1 D1] [S2 O2 D2]. split.
  - intros x. by rewrite S2.
  - intros x Hx. by rewrite O2, O1.
  - intros x. by rewrite D2.
Qed.

Lemma links_mono N N' l l' : links_only N N' l → l ⊆ l' → links_only N N' l'.
Proof. intros [S O D] Hl. split; [done| |done]. intros x Hx. apply O. set_solver. Qed.

Lemma links_insert N l x pg : x ∈ l → is_Some (N !! x) → slab pg = slab (nd N x) →
  links_only N (<[x := pg]> N) l.
Proof.
  intros Hl Hx Hs. split.
  - intros y. destruct (decide (x = y)) as [->|]; [by rewrite nd_insert|by rewrite nd_insert_ne].
  - intros y Hy. rewrite nd_insert_ne; [done|set_solver].
  - intros y. by apply is_Some_insert.
Qed.

(** ** Segments of a list *)

Lemma lseg_frame N N' t a l b :
  (∀ x, x ∈ a :: l → next (nd N' x) = next (nd N x)) →
  (∀ x, x ∈ l → prev (nd N' x) = prev (nd N x)) → lseg N t a l b → lseg N' t a l b.
Proof.
  revert a. induction l as [|x l IH]; intros a Hn Hp; simpl.
  - by rewrite Hn by set_solver.
  - intros (H1 & H2 & H3). rewrite Hn, Hp by set_solver. split_and!; [done..|].
    apply IH; [|intros; apply Hp; set_solver|done]. intros; apply Hn; set_solver.
Qed.

Lemma lseg_app N t a l1 x l2 b :
  lseg N t a (l1 ++ x :: l2) b ↔
  lseg N t a l1 x ∧ prev (nd N x) = (Some (List.last l1 a), t) ∧ lseg N t x l2 b.
Proof.
  revert a. induction l1 as [|y l1 IH]; intros a; cbn [app lseg].
  - simpl. tauto.
  - rewrite IH. assert (List.last (y :: l1) a = List.last l1 y) as ->.
    { clear. destruct l1 as [|z l1]; [done|]. revert z.
      induction l1 as [|w l1 IH]; intros z; [done|]. apply (IH w). }
    tauto.
Qed.

Lemma last_in a l : List.last l a ∈ a :: l.
Proof.
  induction l as [|y l IH]; [set_solver|]. destruct l as [|z l]; [set_solver|].
  simpl List.last in *. set_solver.
Qed.

(** A ring does not depend on descriptors outside of it, nor on [slab]. *)
Lemma ring_frame N N' t h l :
  (∀ x, x ∈ h :: l → next (nd N' x) = next (nd N x)) →
  (∀ x, x ∈ l → prev (nd N' x) = prev (nd N x)) →
  (∀ x, is_Some (N !! x) → is_Some (N' !! x)) → ring N t h l → ring N' t h l.
Proof. intros Hn Hp Hd [H1 H2 H3]. split; [by eapply lseg_frame|done|auto]. Qed.

Lemma ring_links N N' t h l l' : links_only N N' l' → (∀ x, x ∈ h :: l → x ∉ l') →
  ring N t h l → ring N' t h l.
Proof.
  intros [S O D] Hl. apply ring_frame; [..|by intros; apply D]; intros x Hx; rewrite O; set_solver.
Qed.

(** ** Removing a member *)

(** The next member, after [x] when [l2] follows. *)
Definition succ h l : pptr := match l with [] => h | y :: _ => y end.

Lemma lseg_next N t a l b : lseg N t a l b → next (nd N a) = Some (succ b l).
Proof. destruct l; simpl; tauto. Qed.

(** The store after [prev->next = page->next; page->next->prev = page->prev]. *)
Definition bridge N (t : Z) a b : gmap pptr ngx_slab_page_t :=
  let N := <[a := set_next (Some b) (nd N a)]> N in <[b := set_prev (Some a, t) (nd N b)]> N.

Lemma bridge_next N t a b x :
  next (nd (bridge N t a b) x) = if decide (x = a) then Some b else next (nd N x).
Proof.
  unfold bridge. destruct (decide (b = x)) as [->|]; destruct (decide (x = a)) as [->|];
    rewrite ?nd_insert, ?nd_insert_ne by done; simpl; rewrite ?nd_insert, ?nd_insert_ne by done; done.
Qed.

Lemma bridge_prev N t a b x :
  prev (nd (bridge N t a b) x) = if decide (x = b) then (Some a, t) else prev (nd N x).
Proof.
  unfold bridge. destruct (decide (x = b)) as [->|]; [by rewrite nd_insert|].
  rewrite nd_insert_ne by done. destruct (decide (a = x)) as [->|]; [by rewrite nd_insert|by rewrite nd_insert_ne].
Qed.

Lemma bridge_links N t a b l : a ∈ l → b ∈ l → is_Some (N !! a) → is_Some (N !! b) →
  links_only N (bridge N t a b) l.
Proof.
  intros Ha Hb Sa Sb. unfold bridge.
  apply (links_trans _ (<[a := set_next (Some b) (nd N a)]> N)); [by apply links_insert|].
  apply links_insert; [done| |done]. by apply is_Some_insert.
Qed.

Lemma bridge_tail N t a x l b : NoDup l → a ∉ l → b ∉ l →
  lseg N t x l b → lseg (bridge N t a (succ b l)) t a l b.
Proof.
  intros Hnd Ha Hb. destruct l as [|y l]; simpl.
  - intros _. rewrite bridge_next. by rewrite decide_True.
  - intros (_ & _ & Hl). rewrite bridge_next, bridge_prev, !decide_True by done.
    split_and!; [done..|]. apply NoDup_cons in Hnd as [Hy Hnd].
    eapply lseg_frame; [..|done]; intros z Hz; rewrite ?bridge_next, ?bridge_prev.
    + rewrite decide_False; [done|]. intros ->. set_solver.
    + rewrite decide_False; [done|]. intros ->. set_solver.
Qed.

Lemma bridge_front N t h l a x b : a ∉ h :: l → b ∉ a :: l →
  lseg N t h (l ++ [a]) x → prev (nd (bridge N t a b) a) = prev (nd N a) ∧
  lseg (bridge N t a b) t h l a.
Proof.
  intros Ha Hb (L & Hp & _)%lseg_app. split.
  - rewrite bridge_prev, decide_False; [done|]. set_solver.
  - eapply lseg_frame; [..|done]; intros z Hz; rewrite ?bridge_next, ?bridge_prev;
      (rewrite decide_False; [done|set_solver]).
Qed.

Lemma succ_in h l : succ h l ∈ h :: l.
Proof. destruct l; set_solver. Qed.

Lemma ring_bridge N t h l1 x l2 : ring N t h (l1 ++ x :: l2) →
  ring (bridge N t (List.last l1 h) (succ h l2)) t h (l1 ++ l2).
Proof.
  intros [HL Hnd Hd]. pose proof (last_in h l1). pose proof (succ_in h l2).
  assert (Hlk : links_only N (bridge N t (List.last l1 h) (succ h l2)) (h :: l1 ++ x :: l2)).
  { apply bridge_links; [set_solver..| |]; apply Hd; set_solver. }
  split.
  - apply lseg_app in HL as (L1 & Hp & L2). destruct l1 as [|a l1 _] using rev_ind.
    + simpl. apply NoDup_cons in Hnd as [Hh Hnd]. apply NoDup_cons in Hnd as [Hx Hnd].
      eapply bridge_tail; [done|set_solver..|done].
    + rewrite last_last in *. clear Hp. rewrite <-app_assoc in Hnd |- *. simpl in Hnd |- *.
      apply NoDup_cons in Hnd as [Hh Hnd]. apply NoDup_app in Hnd as (N1 & Hdj & N2).
      apply NoDup_cons in N2 as [Ha N2]. apply NoDup_cons in N2 as [Hx N2].
      assert (Ha' : a ∉ l1) by (intros Hi; specialize (Hdj a Hi); set_solver).
      assert (Hs : succ h l2 ∉ a :: l1).
      { destruct l2 as [|y l2]; simpl; [set_solver|]. intros [->|Hi]%elem_of_cons; [set_solver|].
        specialize (Hdj y Hi). set_solver. }
      apply lseg_app. pose proof L1 as L1'. apply lseg_app in L1' as (_ & Hp & _).
      destruct (bridge_front N t h l1 a x (succ h l2)) as [E F]; [set_solver|done..|].
      rewrite E. split_and!; [done..|]. eapply bridge_tail; [done|set_solver..|done].
  - eapply sublist_NoDup; [done|]. by apply sublist_skip, sublist_app, sublist_cons.
  - intros y Hy. apply Hlk, Hd. set_solver.
Qed.

(** ** Adding a member *)

(** The store with [y] between [a] and [c]. *)
Definition between N (t : Z) a y b : gmap pptr ngx_slab_page_t := bridge (bridge N t a y) t y b.

Lemma between_next N t a y b x : next (nd (between N t a y b) x) =
  if decide (x = y) then Some b else if decide (x = a) then Some y else next (nd N x).
Proof. unfold between. by rewrite !bridge_next. Qed.

Lemma between_prev N t a y b x : prev (nd (between N t a y b) x) =
  if decide (x = b) then (Some y, t) else if decide (x = y) then (Some a, t) else prev (nd N x).
Proof. unfold between. by rewrite !bridge_prev. Qed.

Lemma between_links N t a y b l : a ∈ l → y ∈ l → b ∈ l →
  is_Some (N !! a) → is_Some (N !! y) → is_Some (N !! b) → links_only N (between N t a y b) l.
Proof.
  intros Ha Hy Hb Sa Sy Sb. unfold between.
  pose proof (bridge_links N t a y l Ha Hy Sa Sy) as L1.
  eapply links_trans; [exact L1|]. apply bridge_links; [done..| |]; by apply L1.
Qed.

Lemma lseg_between_tail N t a y l b x : y ∉ l → NoDup l → b ∉ l → a ∉ l → a ≠ y →
  lseg N t x l b → lseg (between N t a y (succ b l)) t y l b.
Proof.
  intros Hy Hnd Hb Ha Hay. destruct l as [|z l]; simpl.
  - intros _. by rewrite between_next, decide_True.
  - intros (_ & _ & Hl). rewrite between_next, between_prev, !decide_True by done.
    split_and!; [done..|]. apply NoDup_cons in Hnd as [Hz Hnd].
    eapply lseg_frame; [..|done]; intros w Hw; rewrite ?between_next, ?between_prev;
      rewrite !decide_False by (intros ->; set_solver); done.
Qed.

Lemma lseg_between_front N t h l a y b x : NoDup (h :: l) → y ∉ h :: l → b ∉ l →
  lseg N t h l x → a = List.last l h → lseg (between N t a y b) t h l y.
Proof.
  intros Hnd Hy Hb HL ->. destruct l as [|a l _] using rev_ind.
  - simpl. rewrite between_next. rewrite decide_False, decide_True by set_solver. done.
  - rewrite last_last. apply lseg_app in HL as (L1 & Hp & _). apply lseg_app.
    apply NoDup_cons in Hnd as [Hh Hnd]. apply NoDup_app in Hnd as (Hnd & Hdj & _).
    assert (Ha : a ∉ l) by (intros Hi; specialize (Hdj a Hi); set_solver).
    split_and!.
    + eapply lseg_frame; [..|done]; intros w Hw; rewrite ?between_next, ?between_prev;
        rewrite !decide_False by (intros ->; set_solver); done.
    + rewrite between_prev, !decide_False; [done|..]; intros ->; set_solver.
    + simpl. rewrite between_next. rewrite decide_False, decide_True by set_solver. done.
Qed.

Lemma ring_between N t h l1 y l2 : ring N t h (l1 ++ l2) → y ∉ (h :: l1 ++ l2) → is_Some (N !! y) →
  ring (between N t (List.last l1 h) y (succ h l2)) t h (l1 ++ y :: l2).
Proof.
  intros [HL Hnd Hd] Hy Sy. pose proof (last_in h l1). pose proof (succ_in h l2).
  assert (Hlk : links_only N (between N t (List.last l1 h) y (succ h l2)) (h :: l1 ++ y :: l2)).
  { apply between_links; [set_solver..| | |]; [apply Hd; set_solver|done|apply Hd; set_solver]. }
  pose proof Hnd as Hnd'. rewrite app_comm_cons in Hnd'.
  apply NoDup_app in Hnd' as (N1 & Hdj & N2).
  assert (Hs : succ h l2 ∉ l1).
  { apply NoDup_cons in N1 as [Hh N1]. destruct l2 as [|z l2]; [done|]. simpl.
    intros Hi. apply (Hdj z); set_solver. }
  assert (Ha : List.last l1 h ∉ l2) by (by apply Hdj).
  assert (Hh : h ∉ l2) by (apply Hdj; set_solver).
  split.
  - assert (∃ x, lseg N t h l1 x) as [x1 HL1].
    { destruct l2 as [|z l2]; [rewrite app_nil_r in HL; by eexists|].
      apply lseg_app in HL as (? & _). by eexists. }
    assert (∃ x, lseg N t x l2 h) as [x2 HL2].
    { destruct l1 as [|z l1 _] using rev_ind; [by eexists|].
      rewrite <-app_assoc in HL. apply lseg_app in HL as (_ & _ & HL). by eexists. }
    apply lseg_app. split_and!.
    + eapply lseg_between_front; [done|set_solver|done|done|done].
    + rewrite between_prev. rewrite decide_False by set_solver. by rewrite decide_True.
    + eapply lseg_between_tail; [set_solver|done|done|done|set_solver|done].
  - rewrite app_comm_cons. apply NoDup_app. split_and!; [done| |].
    + intros z Hz. specialize (Hdj z Hz). set_solver.
    + apply NoDup_cons. split; [set_solver|done].
  - intros z Hz. apply Hlk. destruct (decide (z = y)) as [->|]; [done|]. apply Hd. set_solver.
Qed.

Lemma store_eq N N' : (∀ x, is_Some (N !! x) ↔ is_Some (N' !! x)) → (∀ x, nd N x = nd N' x) → N = N'.
Proof.
  intros Hd He. apply map_eq. intros x. specialize (Hd x). specialize (He x). unfold nd in He.
  destruct (N !! x), (N' !! x); simpl in He; [by subst|..|done].
  - by destruct (proj1 Hd ltac:(by eexists)).
  - by destruct (proj2 Hd ltac:(by eexists)).
Qed.

Lemma page_eq pg pg' : slab pg = slab pg' → next pg = next pg' → prev pg = prev pg' → pg = pg'.
Proof. destruct pg, pg'. simpl. by intros -> -> ->. Qed.

Lemma bridge_slab N t a b x : slab (nd (bridge N t a b) x) = slab (nd N x).
Proof.
  unfold bridge. destruct (decide (b = x)) as [->|]; rewrite ?nd_insert, ?nd_insert_ne by done; simpl;
    (destruct (decide (a = x)) as [->|]; rewrite ?nd_insert, ?nd_insert_ne by done; done).
Qed.

Lemma between_slab N t a y b x : slab (nd (between N t a y b) x) = slab (nd N x).
Proof. unfold between. by rewrite !bridge_slab. Qed.

Lemma between_bridge N t a y b : a ≠ y → b ≠ y →
  between (bridge N t a b) t a y b = between N t a y b.
Proof.
  intros Ha Hb. apply store_eq; intros x.
  - unfold between, bridge. rewrite !lookup_insert_is_Some'. naive_solver.
  - apply page_eq.
    + by rewrite !between_slab, bridge_slab.
    + rewrite !between_next, bridge_next. repeat case_decide; done.
    + rewrite !between_prev, bridge_prev. repeat case_decide; done.
Qed.

(** [y] takes the place of [x]. *)
Lemma ring_replace N t h l1 x l2 y : ring N t h (l1 ++ x :: l2) → (y ∉ h :: l1 ++ l2) →
  is_Some (N !! y) → ring (between N t (List.last l1 h) y (succ h l2)) t h (l1 ++ y :: l2).
Proof.
  intros HR Hy Sy. pose proof (last_in h l1). pose proof (succ_in h l2).
  assert (Hout : ∀ z, z ∈ h :: l1 ++ l2 → z ≠ y) by (intros z Hz ->; done).
  rewrite <-between_bridge by (apply Hout; clear -H H0; set_solver).
  apply ring_between; [by eapply ring_bridge|done|]. unfold bridge. by repeat apply there_insert.
Qed.

(** ** The list operations of slab.c *)

Lemma nd_insert_if N x y pg : nd (<[x := pg]> N) y = if decide (x = y) then pg else nd N y.
Proof. case_decide; [subst; apply nd_insert|by apply nd_insert_ne]. Qed.

(** Putting in [y], whose links do not matter. *)
Lemma between_insert N t a y b pg : a ≠ y → y ≠ b → between (<[y := pg]> N) t a y b =
  let N := <[a := set_next (Some y) (nd N a)]> (<[y := mkPage (slab pg) (Some b) (Some a, t)]> N) in
  <[b := set_prev (Some y, t) (nd N b)]> N.
Proof.
  intros Ha Hb. unfold between, bridge. cbv zeta.
  rewrite (nd_insert_ne (<[y := pg]> N) a y), nd_insert by done.
  rewrite nd_insert. cbn [set_prev set_next slab next prev].
  rewrite insert_insert_eq. rewrite !(insert_insert_ne _ y a) by done.
  by rewrite insert_insert_eq, (nd_insert_ne N y a) by done.
Qed.

Lemma between_there N t a y b : is_Some (N !! y) → between N t a y b = between (<[y := nd N y]> N) t a y b.
Proof. intros Hy. rewrite (insert_id N y (nd N y)); [done|by apply nd_lookup]. Qed.

Lemma set_nodes_nodes q N N' : set_nodes (set_nodes q N) N' = set_nodes q N'.
Proof. done. Qed.

Lemma ring_member N t h l1 x l2 : ring N t h (l1 ++ x :: l2) →
  prev (nd N x) = (Some (List.last l1 h), t) ∧ next (nd N x) = Some (succ h l2) ∧
  is_Some (N !! x) ∧ is_Some (N !! List.last l1 h) ∧ is_Some (N !! succ h l2) ∧
  List.last l1 h ≠ x ∧ succ h l2 ≠ x.
Proof.
  intros [HL Hnd Hd]. pose proof (last_in h l1). pose proof (succ_in h l2).
  apply lseg_app in HL as (_ & Hp & L2). split_and!; [done|by apply lseg_next in L2|..].
  1-3: apply Hd; set_solver.
  - intros E. rewrite app_comm_cons in Hnd. apply NoDup_app in Hnd as (_ & Hdj & _).
    apply (Hdj x); set_solver.
  - intros E. apply NoDup_cons in Hnd as [Hh Hnd]. apply NoDup_app in Hnd as (_ & _ & Hnd).
    apply NoDup_cons in Hnd as [? _]. set_solver.
Qed.

Lemma unlink_spec q t h l1 x l2 : ring (nodes q) t h (l1 ++ x :: l2) →
  unlink q x = Some (set_nodes q (bridge (nodes q) t (List.last l1 h) (succ h l2))).
Proof.
  intros HR. destruct (ring_member _ _ _ _ _ _ HR) as (Hp & Hn & Sx & Sa & Sc & Ha & Hc).
  unfold unlink. rewrite get_nd by done. bind_simpl. rewrite Hp. cbn [fst]. bind_simpl.
  rewrite upd_nd by done. bind_simpl. rewrite get_nd by there. bind_simpl.
  simpl nodes. rewrite nd_insert_ne by done. rewrite Hn, Hp. bind_simpl.
  rewrite upd_nd by there. done.
Qed.

Lemma take_run_spec q h l1 x l2 : ring (nodes q) 0 h (l1 ++ x :: l2) →
  take_run q x = Some (set_nodes q (bridge (nodes q) 0 (List.last l1 h) (succ h l2))).
Proof.
  intros HR. destruct (ring_member _ _ _ _ _ _ HR) as (Hp & Hn & Sx & Sa & Sc & Ha & Hc).
  unfold take_run. rewrite get_nd by done. bind_simpl. rewrite Hp, Hn. simpl. bind_simpl.
  rewrite upd_nd by done. bind_simpl. by rewrite upd_nd by there.
Qed.

Lemma ring_head N t h l : ring N t h l →
  next (nd N h) = Some (succ h l) ∧ is_Some (N !! h) ∧ is_Some (N !! succ h l).
Proof.
  intros [HL Hnd Hd]. pose proof (succ_in h l). split_and!; [by eapply lseg_next|apply Hd; set_solver..].
Qed.

Lemma relink_spec q t slot x l : ring (nodes q) t (AtSlot slot) l → x ∉ AtSlot slot :: l →
  is_Some (nodes q !! x) → relink q x slot t =
    Some (set_nodes q (between (nodes q) t (AtSlot slot) x (succ (AtSlot slot) l))).
Proof.
  intros HR Hx Sx. destruct (ring_head _ _ _ _ HR) as (Hn & Sh & Sc).
  pose proof (succ_in (AtSlot slot) l) as Hc. unfold relink.
  rewrite get_nd by done. bind_simpl. rewrite Hn. rewrite upd_nd by done. bind_simpl.
  rewrite upd_nd by there. bind_simpl.
  rewrite upd_nd by there. bind_simpl.
  rewrite get_nd by there. bind_simpl.
  cbn [nodes set_nodes]. rewrite nd_insert. cbn [set_prev next].
  rewrite (nd_insert_ne _ (AtSlot slot) x), nd_insert by set_solver. cbn [set_next next]. bind_simpl.
  rewrite upd_nd by there.
  f_equal. rewrite !set_nodes_nodes. f_equal. cbn [nodes set_nodes].
  assert (x ≠ AtSlot slot) by set_solver. assert (x ≠ succ (AtSlot slot) l) by set_solver.
  rewrite between_there, between_insert by done. cbv zeta.
  rewrite !(insert_insert_ne _ x (AtSlot slot)), !insert_insert_eq by done.
  by rewrite (nd_insert_ne _ x (AtSlot slot)) by done.
Qed.

Lemma ring_insert N t h l x pg : x ∉ h :: l → ring N t h l → ring (<[x := pg]> N) t h l.
Proof.
  intros Hx. apply ring_frame; [..|by intros; apply there_insert];
    intros y Hy; rewrite nd_insert_ne; set_solver.
Qed.

(** The store in which the last page of a run of [m] points to its new head. *)
Definition run_end N (i m : Z) y : gmap pptr ngx_slab_page_t :=
  <[AtPage (i + m - 1) := set_prev (Some y, 0) (nd N (AtPage (i + m - 1)))]> N.

Lemma split_run_spec q l1 i l2 n m :
  ring (nodes q) 0 AtFree (l1 ++ AtPage i :: l2) → slab (nd (nodes q) (AtPage i)) = m → 0 < n < m →
  (∀ k, 0 < k < m → (AtPage (i + k) ∉ l1 ++ l2) ∧ is_Some (nodes q !! AtPage (i + k))) →
  split_run q (AtPage i) n = Some (set_nodes q
    (between (<[AtPage (i + n) := mkPage (m - n) None (None, 0)]> (run_end (nodes q) i m (AtPage (i + n)))) 0
       (List.last l1 AtFree) (AtPage (i + n)) (succ AtFree l2))).
Proof.
  intros HR Hm Hn Hin. destruct (ring_member _ _ _ _ _ _ HR) as (Hp & Hx & Sx & Sa & Sc & Ha & Hc).
  destruct (Hin n) as [Hy Sy]; [lia|]. destruct (Hin (m - 1)) as [Hl Sl]; [lia|].
  pose proof (last_in AtFree l1). pose proof (succ_in AtFree l2).
  unfold split_run. rewrite get_nd by done. bind_simpl. cbn [page_plus]. bind_simpl.
  rewrite Hm, Hx, Hp. cbn [fst snd]. rewrite Z.eqb_refl. bind_simpl.
  replace (i + (m - 1)) with (i + m - 1) in * by lia.
  rewrite upd_nd by done. bind_simpl. rewrite upd_nd by there. bind_simpl.
  rewrite upd_nd by there. bind_simpl. rewrite upd_nd by there.
  f_equal. rewrite !set_nodes_nodes. f_equal. cbn [nodes set_nodes]. unfold run_end.
  assert (Hout : ∀ z, z ∈ AtFree :: l1 ++ l2 → AtPage (i + n) ≠ z).
  { intros z Hz <-. apply elem_of_cons in Hz as [?|?]; [done|by apply Hy]. }
  assert (AtPage (i + n) ≠ List.last l1 AtFree) by (apply Hout; clear -H; set_solver).
  assert (AtPage (i + n) ≠ succ AtFree l2) by (apply Hout; clear -H0; set_solver).
  rewrite between_insert by done. cbn [slab]. cbv zeta. by rewrite (nd_insert_ne _ (AtPage (i + n))) by done.
Qed.

Lemma push_free_spec q i k l :
  ring (nodes q) 0 AtFree l → AtPage i ∉ l → is_Some (nodes q !! AtPage i) → 0 ≤ k →
  (0 < k → (AtPage (i + k) ∉ l) ∧ is_Some (nodes q !! AtPage (i + k))) →
  push_free q (AtPage i) k = Some (set_nodes q
    (between (if k =? 0 then nodes q else run_end (nodes q) i (k + 1) (AtPage i)) 0
       AtFree (AtPage i) (succ AtFree l))).
Proof.
  intros HR Hi Si Hk Hin. destruct (ring_head _ _ _ _ HR) as (Hn & Sh & Sc).
  pose proof (succ_in AtFree l). unfold push_free.
  set (N := if k =? 0 then nodes q else run_end (nodes q) i (k + 1) (AtPage i)).
  assert (HN : (if k =? 0 then Some q else
    (y ← page_plus (AtPage i) k; upd q y (set_prev (Some (AtPage i), 0)))) = Some (set_nodes q N)).
  { subst N. destruct (Z.eqb_spec k 0); [by destruct q|]. cbn [page_plus]. bind_simpl.
    unfold run_end. replace (i + (k + 1) - 1) with (i + k) by lia. apply upd_nd, Hin. lia. }
  rewrite HN. bind_simpl.
  assert (Hd : ∀ x, is_Some (nodes q !! x) → is_Some (N !! x)).
  { intros x Hx. subst N. destruct (k =? 0); [done|by apply there_insert]. }
  assert (HnN : next (nd N AtFree) = Some (succ AtFree l)).
  { subst N. destruct (k =? 0); [done|]. unfold run_end. by rewrite nd_insert_ne. }
  clearbody N. clear HN. rewrite upd_nd by there. bind_simpl. rewrite get_nd by there. bind_simpl.
  cbn [nodes set_nodes]. rewrite nd_insert_ne, HnN by done.
  rewrite upd_nd by there. bind_simpl. rewrite upd_nd by there. bind_simpl. rewrite upd_nd by there.
  f_equal. rewrite !set_nodes_nodes. f_equal. cbn [nodes set_nodes].
  assert (AtPage i ≠ succ AtFree l) by (destruct l; set_solver).
  rewrite between_there, between_insert by (done || by apply Hd). cbv zeta.
  rewrite nd_insert. cbn [set_next set_prev slab next prev]. rewrite insert_insert_eq.
  destruct (decide (succ AtFree l = AtFree)) as [->|].
  - rewrite !nd_insert, !insert_insert_eq, nd_insert_ne by done. done.
  - rewrite (nd_insert_ne _ (succ AtFree l)), (nd_insert_ne _ (AtPage i) AtFree) by done.
    rewrite !(nd_insert_ne _ _ (succ AtFree l)) by done. by rewrite (insert_insert_ne _ AtFree) by done.
Qed.

Lemma link_slot_spec q x s slot t : is_Some (nodes q !! x) → is_Some (nodes q !! AtSlot slot) →
  x ≠ AtSlot slot → ∃ N, link_slot q x s slot t = Some (set_nodes q N) ∧
    ring N t (AtSlot slot) [x] ∧ slab (nd N x) = s ∧
    (∀ y, y ≠ x → slab (nd N y) = slab (nd (nodes q) y)) ∧
    (∀ y, y ∉ [AtSlot slot; x] → nd N y = nd (nodes q) y) ∧
    (∀ y, is_Some (N !! y) ↔ is_Some (nodes q !! y)).
Proof.
  intros Sx Ss Hx. unfold link_slot. rewrite upd_nd by done. bind_simpl.
  rewrite upd_nd by there. eexists. split; [done|]. cbn [nodes set_nodes]. rewrite nd_insert_ne by done.
  split_and!.
  - split.
    + simpl. rewrite nd_insert. rewrite !nd_insert_ne, !nd_insert by done. done.
    + apply NoDup_cons. split; [set_solver|]. apply NoDup_singleton.
    + intros y [->|[->|?%elem_of_nil]%elem_of_cons]%elem_of_cons; [there..|done].
  - by rewrite nd_insert_ne, nd_insert by done.
  - intros y Hy. rewrite !nd_insert_if. repeat case_decide; simplify_eq; done.
  - intros y Hy. rewrite !nd_insert_ne by set_solver. done.
  - intros y. rewrite !lookup_insert_is_Some'. naive_solver.
Qed.
