(* ===== verification/SlabPages.v ===== *)
(** * The slab allocator: the pages of a pool

    A layout divides the pages of a pool into segments: free runs, runs of pages that a
    client holds, pages divided into chunks of one size, and, while pages are being freed,
    a loose run.  [pool_ok] relates the descriptors, the lists and the bitmaps to a layout;
    [ngx_slab_alloc_pages] and [ngx_slab_free_pages] are shown to carve, return and join
    segments. *)

From stdpp Require Import functions.
From S2P Require Import Prelude Slab SlabList.

Implicit Types (q : ngx_slab_pool_t) (s i n m : Z).

Inductive seg :=
  | SFree (n : Z)
  | SUser (n : Z)
  | SSlot (shift : Z) (C : gset Z)
  | SLoose (n : Z).
Abbreviation layout := (gmap Z seg).
Implicit Types (A : layout) (g : seg).

Definition seg_len g : Z := match g with SFree n | SUser n | SLoose n => n | SSlot _ _ => 1 end.

(** The segments are not empty, do not overlap and cover the pages. *)
Record tiles (np : Z) A : Prop := {
  tile_in s g : A !! s = Some g → 0 ≤ s ∧ 1 ≤ seg_len g ∧ s + seg_len g ≤ np;
  tile_apart s g s' g' : A !! s = Some g → A !! s' = Some g' → s < s' → s + seg_len g ≤ s';
  tile_cover i : 0 ≤ i < np → ∃ s g, A !! s = Some g ∧ s ≤ i < s + seg_len g
}.

(** ** Changing a layout *)

Lemma tile_inner np A s g i : tiles np A → A !! s = Some g → s < i < s + seg_len g → A !! i = None.
Proof.
  intros HT Hs Hi. destruct (A !! i) as [g'|] eqn:E; [|done].
  pose proof (tile_apart _ _ HT _ _ _ _ Hs E). lia.
Qed.

Lemma tile_next np A s g : tiles np A → A !! s = Some g → s + seg_len g < np →
  is_Some (A !! (s + seg_len g)).
Proof.
  intros HT Hs Hn. destruct (tile_in _ _ HT _ _ Hs) as (? & ? & ?).
  destruct (tile_cover _ _ HT (s + seg_len g)) as (s' & g' & Hs' & Hc); [lia|].
  destruct (Z.lt_total s' (s + seg_len g)) as [Hl|[<-|Hl]]; [|by eexists|lia].
  destruct (Z.lt_total s s') as [Hl'|[<-|Hl']]; [|simplify_eq; lia|].
  - pose proof (tile_apart _ _ HT _ _ _ _ Hs Hs'). lia.
  - pose proof (tile_apart _ _ HT _ _ _ _ Hs' Hs). lia.
Qed.

Lemma tile_prev np A s g : tiles np A → A !! s = Some g → 0 < s →
  ∃ s' g', A !! s' = Some g' ∧ s' + seg_len g' = s.
Proof.
  intros HT Hs H0. destruct (tile_in _ _ HT _ _ Hs) as (? & ? & ?).
  destruct (tile_cover _ _ HT (s - 1)) as (s' & g' & Hs' & Hc); [lia|].
  exists s', g'. split; [done|]. pose proof (tile_apart _ _ HT _ _ _ _ Hs' Hs). lia.
Qed.

Lemma tile_prev_unique np A s g s' g' : tiles np A → A !! s = Some g → A !! s' = Some g' →
  s + seg_len g = s' + seg_len g' → s = s' ∧ g' = g.
Proof.
  intros HT Hs Hs' He. destruct (tile_in _ _ HT _ _ Hs) as (_ & ? & _), (tile_in _ _ HT _ _ Hs') as (_ & ? & _).
  destruct (Z.lt_total s s') as [Hc|[->|Hc]]; [|split; congruence|].
  - pose proof (tile_apart _ _ HT _ _ _ _ Hs Hs' Hc). lia.
  - pose proof (tile_apart _ _ HT _ _ _ _ Hs' Hs Hc). lia.
Qed.

Lemma tile_other np A s g s' g' : tiles np A → A !! s = Some g → A !! s' = Some g' → s' ≠ s →
  s' + seg_len g' ≤ s ∨ s + seg_len g ≤ s'.
Proof.
  intros HT Hs Hs' Hne. destruct (Z.lt_total s' s) as [Hl|[?|Hl]]; [left|done|right].
  - by apply (tile_apart _ _ HT _ _ _ _ Hs' Hs).
  - by apply (tile_apart _ _ HT _ _ _ _ Hs Hs').
Qed.

(** Other segments lie on one side of two neighbours. *)
Lemma tile_pair_out np A a g1 b g2 s g : tiles np A → A !! a = Some g1 → A !! b = Some g2 → b = a + seg_len g1 →
  A !! s = Some g → s ≠ a → s ≠ b → s + seg_len g ≤ a ∨ a + (seg_len g1 + seg_len g2) ≤ s.
Proof.
  intros HT Ha Hb Hab Hs Hsa Hsb. destruct (Z.lt_total s a) as [?|[?|?]]; [left; by eapply (tile_apart _ _ HT)|done|right].
  pose proof (tile_apart _ _ HT _ _ _ _ Ha Hs ltac:(done)).
  pose proof (tile_apart _ _ HT _ _ _ _ Hb Hs ltac:(lia)). lia.
Qed.

Lemma tiles_update np A s g g' : tiles np A → A !! s = Some g → seg_len g' = seg_len g →
  tiles np (<[s := g']> A).
Proof.
  intros HT Hs Hl. destruct (tile_in _ _ HT _ _ Hs) as (? & ? & ?). split.
  - intros s1 g1 [[-> <-]|[? E1]]%lookup_insert_Some; [lia|by eapply HT].
  - intros s1 g1 s2 g2 [[-> <-]|[? E1]]%lookup_insert_Some [[-> <-]|[? E2]]%lookup_insert_Some Hlt;
      rewrite ?Hl; [lia|by eapply HT..].
  - intros i Hi. destruct (tile_cover _ _ HT i Hi) as (s1 & g1 & E1 & Hc).
    destruct (decide (s = s1)) as [->|].
    + exists s1, g'. rewrite lookup_insert_eq. simplify_eq. split; [done|lia].
    + exists s1, g1. by rewrite lookup_insert_ne.
Qed.

Lemma tiles_split np A s g g1 g2 : tiles np A → A !! s = Some g →
  seg_len g1 + seg_len g2 = seg_len g → 1 ≤ seg_len g1 → 1 ≤ seg_len g2 →
  tiles np (<[s + seg_len g1 := g2]> (<[s := g1]> A)).
Proof.
  intros HT Hs Hl H1 H2. destruct (tile_in _ _ HT _ _ Hs) as (? & ? & ?).
  assert (Hne : ∀ s1 g1, s ≠ s1 → A !! s1 = Some g1 →
    1 ≤ seg_len g1 ∧ (s1 + seg_len g1 ≤ s ∨ s + seg_len g ≤ s1)).
  { intros s1 g1' Hn E1'. split; [by eapply HT|]. destruct (Z.lt_total s s1) as [?|[?|?]]; [right|lia|left]; by eapply HT. }
  split.
  - intros s1 g1' [[<- <-]|[? [[<- <-]|[? E1']]%lookup_insert_Some]]%lookup_insert_Some; [lia..|by eapply HT].
  - intros s1 g1' s2 g2' [[<- <-]|[? [[<- <-]|[? E1']]%lookup_insert_Some]]%lookup_insert_Some
      [[<- <-]|[? [[<- <-]|[? E2']]%lookup_insert_Some]]%lookup_insert_Some Hlt; try lia.
    + destruct (Hne s2 g2' ltac:(lia) E2'); lia.
    + destruct (Hne s2 g2' ltac:(lia) E2'); lia.
    + destruct (Hne s1 g1' ltac:(lia) E1'); lia.
    + destruct (Hne s1 g1' ltac:(lia) E1'); lia.
    + by eapply HT.
  - intros i Hi. destruct (tile_cover _ _ HT i Hi) as (s1 & g1' & E1' & Hc).
    destruct (decide (s = s1)) as [->|].
    + simplify_eq. destruct (decide (i < s1 + seg_len g1)).
      * exists s1, g1. rewrite lookup_insert_ne, lookup_insert_eq by lia. split; [done|lia].
      * exists (s1 + seg_len g1), g2. rewrite lookup_insert_eq. split; [done|lia].
    + exists s1, g1'. destruct (Hne s1 g1' ltac:(lia) E1'); rewrite !lookup_insert_ne by lia; done.
Qed.

Lemma tiles_join np A s g g2 g' : tiles np A → A !! s = Some g → A !! (s + seg_len g) = Some g2 →
  seg_len g' = seg_len g + seg_len g2 → tiles np (<[s := g']> (delete (s + seg_len g) A)).
Proof.
  intros HT Hs Hs2 Hl. destruct (tile_in _ _ HT _ _ Hs) as (? & ? & ?).
  destruct (tile_in _ _ HT _ _ Hs2) as (? & ? & ?).
  assert (Hne : ∀ s1 g1, s ≠ s1 → s + seg_len g ≠ s1 → A !! s1 = Some g1 →
    1 ≤ seg_len g1 ∧ (s1 + seg_len g1 ≤ s ∨ s + seg_len g' ≤ s1)).
  { intros s1 g1' Hn Hn2 H1'. split; [by eapply HT|]. destruct (Z.lt_total s s1) as [?|[?|?]]; [right|lia|left; by eapply HT].
    pose proof (tile_apart _ _ HT _ _ _ _ Hs H1'). rewrite Hl, Z.add_assoc. eapply HT; [done..|lia]. }
  split.
  - intros s1 g1 [[<- <-]|[? [? E1]%lookup_delete_Some]]%lookup_insert_Some; [lia|by eapply HT].
  - intros s1 g1 s2 g2' [[<- <-]|[? [? E1]%lookup_delete_Some]]%lookup_insert_Some
      [[<- <-]|[? [? E2]%lookup_delete_Some]]%lookup_insert_Some Hlt; [lia|..].
    + destruct (Hne s2 g2' ltac:(lia) ltac:(lia) E2); lia.
    + destruct (Hne s1 g1 ltac:(lia) ltac:(lia) E1); lia.
    + by eapply HT.
  - intros i Hi. destruct (tile_cover _ _ HT i Hi) as (s1 & g1 & E1 & Hc).
    destruct (decide (s = s1)) as [->|]; [|destruct (decide (s + seg_len g = s1)) as [<-|]].
    + exists s1, g'. rewrite lookup_insert_eq. simplify_eq. split; [done|lia].
    + exists s, g'. rewrite lookup_insert_eq. simplify_eq. split; [done|lia].
    + exists s1, g1. by rewrite lookup_insert_ne, lookup_delete_ne.
Qed.

(** ** What a pool stores for a layout *)

Definition word q (a : Z) : Z := default 0 (mem q !! a).

(** The chunks of a page, those that its own bitmap occupies, its kind. *)
Definition nchunks (shift : Z) : Z := 2 ^ (12 - shift).
Definition reserved (shift : Z) : Z := if shift <? 6 then small_reserved shift else 0.
Definition slot_type (shift : Z) : Z :=
  if shift <? 6 then NGX_SLAB_SMALL else if shift =? 6 then NGX_SLAB_EXACT else NGX_SLAB_BIG.
Definition slot_of q (shift : Z) : pptr := AtSlot (shift - min_shift q).
Definition page_addr q s : Z := start q + 4096 * s.

(** The bit for chunk [c]: of the bitmap in the page, or of the descriptor. *)
Definition chunk_bit q s shift (c : Z) : bool :=
  if shift <? 6 then Z.testbit (word q (page_addr q s + 8 * (c / 64))) (c mod 64)
  else Z.testbit (slab (nd (nodes q) (AtPage s))) (if shift =? 6 then c else 32 + c).

(** No chunk is left. *)
Definition full (shift : Z) (C : gset Z) : bool :=
  forallb (λ c, bool_decide (c ∈ C)) (seqZ (reserved shift) (nchunks shift - reserved shift)).

(** The rest of [slab], and of the words of the bitmap. *)
Definition slab_form q s shift : Prop :=
  let w := slab (nd (nodes q) (AtPage s)) in
  if shift <? 6 then
    w = shift ∧ ∀ k, 0 ≤ k < small_map shift → 0 ≤ word q (page_addr q s + 8 * k) < 2 ^ 64
  else if shift =? 6 then 0 ≤ w < 2 ^ 64
  else 0 ≤ w < 2 ^ (32 + nchunks shift) ∧ w mod 2 ^ 32 = shift.

Record slot_ok q s shift (C : gset Z) : Prop := {
  slot_shift : min_shift q ≤ shift ≤ 11;
  slot_form : slab_form q s shift;
  slot_bits c : 0 ≤ c < nchunks shift →
    chunk_bit q s shift c = (c <? reserved shift) || bool_decide (c ∈ C);
  slot_chunks c : c ∈ C → reserved shift ≤ c < nchunks shift;
  slot_full : full shift C = true →
    next (nd (nodes q) (AtPage s)) = None ∧ prev (nd (nodes q) (AtPage s)) = (None, slot_type shift)
}.

(** The pages of a run after the first, when nobody holds them. *)
Definition blank (pg : ngx_slab_page_t) : Prop := slab pg = 0 ∧ next pg = None ∧ (prev pg).2 = 0.

Definition seg_ok q s g : Prop :=
  let pg i := nd (nodes q) (AtPage i) in
  match g with
  | SFree n =>
      slab (pg s) = n ∧ (∀ i, s < i < s + n → blank (pg i)) ∧
      (1 < n → s + n < last q → prev (pg (s + n - 1)) = (Some (AtPage s), 0))
  | SUser n =>
      pg s = mkPage (Z.lor n NGX_SLAB_PAGE_START) None (None, NGX_SLAB_PAGE) ∧
      ∀ i, s < i < s + n → pg i = mkPage NGX_SLAB_PAGE_BUSY None (None, NGX_SLAB_PAGE)
  | SSlot shift C => slot_ok q s shift C
  | SLoose n => slab (pg s) = n ∧ ∀ i, s < i < s + n → blank (pg i)
  end.

Record params_ok q : Prop := {
  par_shift : 3 ≤ min_shift q ≤ 11;
  par_size : min_size q = 2 ^ min_shift q;
  par_start : 0 < start q ∧ start q mod 4096 = 0;
  par_end : start q + 4096 * last q ≤ end_ q < 2 ^ 64;
  par_last : 0 ≤ last q
}.

(** The descriptors that a pool has. *)
Definition node_in q (x : pptr) : Prop :=
  match x with
  | AtFree => True
  | AtSlot i => 0 ≤ i < 12 - min_shift q
  | AtPage i => 0 ≤ i < last q
  end.

Record pool_ok q A (FL : list Z) (SL : Z → list Z) : Prop := {
  ok_params : params_ok q;
  ok_nodes x : node_in q x → is_Some (nodes q !! x);
  ok_tiles : tiles (last q) A;
  ok_segs s g : A !! s = Some g → seg_ok q s g;
  ok_free : ring (nodes q) 0 AtFree (AtPage <$> FL);
  ok_FL i : i ∈ FL ↔ ∃ n, A !! i = Some (SFree n);
  ok_slots shift : min_shift q ≤ shift ≤ 11 →
    ring (nodes q) (slot_type shift) (slot_of q shift) (AtPage <$> SL shift);
  ok_SL shift i : min_shift q ≤ shift ≤ 11 →
    i ∈ SL shift ↔ ∃ C, A !! i = Some (SSlot shift C) ∧ full shift C = false
}.

(** ** What a change leaves alone *)

(** Segments whose first page is, or may be, in a list. *)
Definition linked g : bool :=
  match g with SFree _ | SLoose _ => true | SUser _ => false | SSlot shift C => negb (full shift C) end.

Definition page_out (lo hi : Z) (x : pptr) : Prop :=
  match x with AtPage i => i < lo ∨ hi ≤ i | _ => True end.

(** The fields that never change after [ngx_slab_init]. *)
Definition same_params q q' : Prop :=
  min_size q' = min_size q ∧ min_shift q' = min_shift q ∧ last q' = last q ∧
  start q' = start q ∧ end_ q' = end_ q.

(** [q'] differs from [q] in the pages from [lo] to [hi] and in the links of [L]. *)
Record touches q q' (lo hi : Z) (L : list pptr) : Prop := {
  touch_par : same_params q q';
  touch_slab x : page_out lo hi x → slab (nd (nodes q') x) = slab (nd (nodes q) x);
  touch_node x : page_out lo hi x → x ∉ L → nd (nodes q') x = nd (nodes q) x;
  touch_mem a : page_addr q lo ≤ a < page_addr q hi ∨ word q' a = word q a;
  touch_dom x : is_Some (nodes q !! x) → is_Some (nodes q' !! x)
}.

Lemma page_addr_touch q q' lo hi L s : touches q q' lo hi L → page_addr q' s = page_addr q s.
Proof. intros [(? & ? & ? & Hst & ?) _ _ _ _]. unfold page_addr. by rewrite Hst. Qed.

(** The words of the bitmap of a page of small chunks lie in its first 64 bytes. *)
Lemma small_cases shift : 3 ≤ shift < 6 → shift = 3 ∨ shift = 4 ∨ shift = 5.
Proof. lia. Qed.

Lemma small_map_range shift : 3 ≤ shift < 6 → 2 ≤ small_map shift ≤ 8 ∧ nchunks shift = 64 * small_map shift.
Proof. intros [->|[->| ->]]%small_cases; by vm_compute. Qed.

Lemma small_reserved_range shift : 3 ≤ shift < 6 →
  1 ≤ small_reserved shift ≤ 8 ∧ 8 * small_map shift ≤ small_reserved shift * 2 ^ shift.
Proof. intros [->|[->| ->]]%small_cases; by vm_compute. Qed.

Lemma slot_ok_frame q q' lo hi L s shift C : touches q q' lo hi L → 3 ≤ min_shift q →
  s < lo ∨ hi ≤ s → (full shift C = true → AtPage s ∉ L) → slot_ok q s shift C → slot_ok q' s shift C.
Proof.
  intros HT H3 Hs HL [S1 S2 S3 S4 S5]. pose proof (page_addr_touch _ _ _ _ _ s HT) as Ha.
  destruct HT as [(Hms & Hmsh & Hl & Hst & He) Tsl Tn Tm Td].
  assert (Hw : ∀ k, 0 ≤ k < 8 → word q' (page_addr q s + 8 * k) = word q (page_addr q s + 8 * k)).
  { intros k Hk. destruct (Tm (page_addr q s + 8 * k)) as [Hi|]; [|done].
    unfold page_addr in Hi. lia. }
  assert (Hsl : slab (nd (nodes q') (AtPage s)) = slab (nd (nodes q) (AtPage s))) by (by apply Tsl).
  split.
  - by rewrite Hmsh.
  - revert S2. unfold slab_form. rewrite Hsl. destruct (Z.ltb_spec shift 6); [|done].
    pose proof (small_map_range shift ltac:(lia)). rewrite Ha.
    intros [-> Hk]. split; [done|]. intros k Hkk. rewrite Hw by lia. by apply Hk.
  - intros c Hc. rewrite <-S3 by done. unfold chunk_bit. rewrite Hsl, Ha.
    destruct (Z.ltb_spec shift 6); [|done]. pose proof (small_map_range shift ltac:(lia)).
    rewrite Hw; [done|]. split; [apply Z.div_pos; lia|apply Z.div_lt_upper_bound; lia].
  - done.
  - intros Hf. rewrite Tn by auto. by apply S5.
Qed.

Lemma seg_ok_frame q q' lo hi L A s g : touches q q' lo hi L → 3 ≤ min_shift q →
  tiles (last q) A → A !! s = Some g → (∀ i, AtPage i ∈ L → ∃ g, A !! i = Some g ∧ linked g = true) →
  s + seg_len g ≤ lo ∨ hi ≤ s → seg_ok q s g → seg_ok q' s g.
Proof.
  intros HT H3 Htl Hs HL Hout. pose proof HT as HT'.
  destruct HT' as [(Hms & Hmsh & Hl & Hst & He) Tsl Tn Tm Td].
  destruct (tile_in _ _ Htl _ _ Hs) as (Hs0 & Hlen & Hsl).
  assert (Hin : ∀ i, s < i < s + seg_len g → nd (nodes q') (AtPage i) = nd (nodes q) (AtPage i)).
  { intros i Hi. apply Tn; [simpl; lia|]. intros (g' & Hg & _)%HL.
    by rewrite (tile_inner _ _ _ _ _ Htl Hs Hi) in Hg. }
  assert (Hhd : linked g = false → AtPage s ∉ L).
  { intros Hf (g' & Hg & Ht)%HL. simplify_eq. congruence. }
  assert (Hslab : slab (nd (nodes q') (AtPage s)) = slab (nd (nodes q) (AtPage s))) by (apply Tsl; simpl; lia).
  destruct g as [n|n|shift C|n]; simpl in Hin, Hlen, Hout |- *.
  - rewrite Hslab, Hl. intros (-> & Hb & Hp). split_and!; [done|..].
    + intros i Hi. rewrite Hin by lia. auto.
    + intros H1 H2. rewrite Hin by lia. auto.
  - intros [E Hb]. rewrite Tn by (simpl; auto; lia). split; [done|].
    intros i Hi. rewrite Hin by lia. auto.
  - eapply slot_ok_frame; [done..|lia|]. intros Hf. apply Hhd. simpl. by rewrite Hf.
  - rewrite Hslab. intros (-> & Hb). split; [done|]. intros i Hi. rewrite Hin by lia. auto.
Qed.

(** The same for the descriptors alone. *)
Record ntouch (N N' : gmap pptr ngx_slab_page_t) (lo hi : Z) (L : list pptr) : Prop := {
  nt_slab x : page_out lo hi x → slab (nd N' x) = slab (nd N x);
  nt_node x : page_out lo hi x → x ∉ L → nd N' x = nd N x;
  nt_dom x : is_Some (N !! x) → is_Some (N' !! x)
}.

Lemma touches_nodes q N lo hi L : ntouch (nodes q) N lo hi L → touches q (set_nodes q N) lo hi L.
Proof. intros [H1 H2 H3]. split; [done..| |done]. intros a. by right. Qed.

Lemma ntouch_refl N lo hi L : ntouch N N lo hi L.
Proof. by split. Qed.

Lemma ntouch_trans N N' N'' lo hi L : ntouch N N' lo hi L → ntouch N' N'' lo hi L → ntouch N N'' lo hi L.
Proof.
  intros [S1 O1 D1] [S2 O2 D2]. split; [|..|auto].
  - intros x Hx. by rewrite S2, S1.
  - intros x Hx Hl. by rewrite O2, O1.
Qed.

Lemma ntouch_mono N N' lo hi lo' hi' L L' : ntouch N N' lo hi L → lo' ≤ lo → hi ≤ hi' → L ⊆ L' →
  ntouch N N' lo' hi' L'.
Proof.
  intros [S O D] Hl Hh HL.
  assert (Ho : ∀ x, page_out lo' hi' x → page_out lo hi x) by (intros [| |i]; simpl; lia || done).
  split; [auto| |done]. intros x Hx Hn. apply O; [by apply Ho|]. intros Hi. by apply Hn, HL.
Qed.

(** A member of [L], or a page of the range. *)
Definition may_touch (lo hi : Z) (L : list pptr) (x : pptr) : Prop := x ∈ L ∨ ¬ page_out lo hi x.

Lemma ntouch_insert N lo hi L x pg : ¬ page_out lo hi x → ntouch N (<[x := pg]> N) lo hi L.
Proof.
  intros Hx. split; [..|intros; by apply there_insert];
    intros y Hy; try intros _; rewrite nd_insert_ne; [done|congruence|done|congruence].
Qed.

Lemma ntouch_link N lo hi L x pg : may_touch lo hi L x → slab pg = slab (nd N x) →
  ntouch N (<[x := pg]> N) lo hi L.
Proof.
  intros [Hx|Hx] Hs; [|by apply ntouch_insert]. split; [..|intros; by apply there_insert].
  - intros y _. rewrite nd_insert_if. case_decide; by subst.
  - intros y _ Hy. rewrite nd_insert_ne; [done|congruence].
Qed.

Lemma ntouch_bridge N t a b lo hi L : may_touch lo hi L a → may_touch lo hi L b →
  ntouch N (bridge N t a b) lo hi L.
Proof. intros Ha Hb. eapply ntouch_trans; by apply ntouch_link. Qed.

Lemma ntouch_between N t a y b lo hi L : may_touch lo hi L a → may_touch lo hi L y →
  may_touch lo hi L b → ntouch N (between N t a y b) lo hi L.
Proof. intros Ha Hy Hb. eapply ntouch_trans; by apply ntouch_bridge. Qed.

Lemma ring_ntouch N N' t h l lo hi L : ntouch N N' lo hi L →
  (∀ x, x ∈ h :: l → page_out lo hi x ∧ x ∉ L) → ring N t h l → ring N' t h l.
Proof.
  intros [S O D] Hl. apply ring_frame; [..|done]; intros x Hx;
    destruct (Hl x) as [H1 H2]; rewrite ?O by done; try done; set_solver.
Qed.

(** Filling [k] descriptors from [i] on with [pg]. *)
Fixpoint fill (pg : ngx_slab_page_t) (k : nat) (i : Z) (N : gmap pptr ngx_slab_page_t) :=
  match k with O => N | S k => fill pg k (i + 1) (<[AtPage i := pg]> N) end.

Lemma fill_spec pg k i N :
  (∀ j, i ≤ j < i + Z.of_nat k → nd (fill pg k i N) (AtPage j) = pg) ∧
  ntouch N (fill pg k i N) i (i + Z.of_nat k) [].
Proof.
  revert i N. induction k as [|k IH]; intros i N; cbn [fill].
  - split; [intros; lia|]. apply ntouch_refl.
  - destruct (IH (i + 1) (<[AtPage i := pg]> N)) as [H1 H2]. split.
    + intros j Hj. destruct (decide (i = j)) as [->|]; [|apply H1; lia].
      rewrite (nt_node _ _ _ _ _ H2) by (simpl; auto with lia; set_solver). apply nd_insert.
    + apply (ntouch_trans _ (<[AtPage i := pg]> N)); [apply ntouch_insert; simpl; lia|].
      eapply ntouch_mono; [done|lia..|done].
Qed.

Lemma mark_busy_fill k q i : (∀ j, i ≤ j < i + Z.of_nat k → is_Some (nodes q !! AtPage j)) →
  mark_busy k q (AtPage i) =
    Some (set_nodes q (fill (mkPage NGX_SLAB_PAGE_BUSY None (None, NGX_SLAB_PAGE)) k i (nodes q))).
Proof.
  revert q i. induction k as [|k IH]; intros q i Hd; cbn [mark_busy fill]; [by destruct q|].
  rewrite upd_nd by (apply Hd; lia). bind_simpl. cbn [page_plus]. bind_simpl. rewrite IH; [done|].
  intros j Hj. apply there_insert, Hd. lia.
Qed.

Lemma zero_pages_fill k q i : (∀ j, i ≤ j < i + Z.of_nat k → is_Some (nodes q !! AtPage j)) →
  zero_pages k q (AtPage i) = Some (set_nodes q (fill null_page k i (nodes q))).
Proof.
  revert q i. induction k as [|k IH]; intros q i Hd; cbn [zero_pages fill]; [by destruct q|].
  rewrite upd_nd by (apply Hd; lia). bind_simpl. cbn [page_plus]. bind_simpl. rewrite IH; [done|].
  intros j Hj. apply there_insert, Hd. lia.
Qed.

Lemma pool_ok_step q q' A A' FL FL' SL SL' lo hi L :
  pool_ok q A FL SL → touches q q' lo hi L →
  (∀ i, AtPage i ∈ L → ∃ g, A !! i = Some g ∧ linked g = true) → tiles (last q) A' →
  (∀ s g, A' !! s = Some g → A !! s = Some g ∧ (s + seg_len g ≤ lo ∨ hi ≤ s) ∨ seg_ok q' s g) →
  ring (nodes q') 0 AtFree (AtPage <$> FL') → (∀ i, i ∈ FL' ↔ ∃ n, A' !! i = Some (SFree n)) →
  (∀ shift, min_shift q ≤ shift ≤ 11 →
    ring (nodes q') (slot_type shift) (slot_of q shift) (AtPage <$> SL' shift)) →
  (∀ shift i, min_shift q ≤ shift ≤ 11 →
    i ∈ SL' shift ↔ ∃ C, A' !! i = Some (SSlot shift C) ∧ full shift C = false) →
  pool_ok q' A' FL' SL'.
Proof.
  intros [[P1 P2 P3 P4 P5] H2 H3 H4 H5 H6 H7 H8] HT HL Htl Hsegs Hfr HFL Hsl HSL.
  pose proof HT as [(Hms & Hmsh & Hla & Hst & He) _ _ _ Hd].
  assert (Hso : ∀ shift, slot_of q' shift = slot_of q shift) by (intros; unfold slot_of; by rewrite Hmsh).
  split; rewrite ?Hmsh, ?Hla; try done.
  - split; rewrite ?Hmsh, ?Hla, ?Hms, ?Hst, ?He; done.
  - intros x Hx. apply Hd, H2. destruct x; simpl in *; rewrite ?Hmsh, ?Hla in Hx; done.
  - intros s g Hs. destruct (Hsegs s g Hs) as [[HA Hout]|]; [|done].
    eapply (seg_ok_frame _ _ _ _ _ A); [done|lia|done..|by apply H4].
  - intros. rewrite Hso. auto.
Qed.

(** The lists of the slots when only free pages and pages of clients change. *)
Lemma slots_step q q' A FL SL lo hi L shift : pool_ok q A FL SL → touches q q' lo hi L →
  (∀ x, x ∈ L → match x with AtSlot _ => False | AtFree => True | AtPage i => ∀ sh C, A !! i ≠ Some (SSlot sh C) end) →
  (∀ s sh C, A !! s = Some (SSlot sh C) → s < lo ∨ hi ≤ s) → min_shift q ≤ shift ≤ 11 →
  ring (nodes q') (slot_type shift) (slot_of q shift) (AtPage <$> SL shift).
Proof.
  intros HP HT HL Hout Hsh. pose proof (ok_slots _ _ _ _ HP shift Hsh) as HR.
  destruct HT as [_ H1 H2 _ H3]. eapply (ring_ntouch _ _ _ _ _ lo hi L); [by split| |done].
  intros x [->|Hx]%elem_of_cons.
  - split; [done|]. intros Hi. by apply HL in Hi.
  - apply list_elem_of_fmap in Hx as (i & -> & Hi).
    apply (ok_SL _ _ _ _ HP) in Hi as (C & HC & _); [|done].
    split; [simpl; by eapply Hout|]. intros Hi. by apply (HL _ Hi shift C).
Qed.

(** ** Allocating pages *)

Definition carve A s n m : layout :=
  if n <? m then <[s + n := SFree (m - n)]> (<[s := SUser n]> A) else <[s := SUser n]> A.

Definition free_ring (FL : list Z) : list pptr := AtFree :: (AtPage <$> FL).

Lemma free_ring_pages q A FL SL i : pool_ok q A FL SL → AtPage i ∈ free_ring FL →
  ∃ n, A !! i = Some (SFree n).
Proof.
  intros HP [|Hx]%elem_of_cons; [done|]. apply list_elem_of_fmap in Hx as (j & [= ->] & Hj).
  by apply (ok_FL _ _ _ _ HP).
Qed.

Lemma run_pages q A FL SL s g : pool_ok q A FL SL → A !! s = Some g →
  0 ≤ s ∧ 1 ≤ seg_len g ∧ s + seg_len g ≤ last q ∧
  (∀ i, s ≤ i < s + seg_len g → is_Some (nodes q !! AtPage i)) ∧
  (∀ i, s < i < s + seg_len g → AtPage i ∉ free_ring FL).
Proof.
  intros HP Hs. pose proof (ok_tiles _ _ _ _ HP) as HT. destruct (tile_in _ _ HT _ _ Hs) as (? & ? & ?).
  split_and!; [done..| |].
  - intros i Hi. apply (ok_nodes _ _ _ _ HP). simpl. lia.
  - intros i Hi [n Hn]%(free_ring_pages _ _ _ _ _ HP). by rewrite (tile_inner _ _ _ _ _ HT Hs Hi) in Hn.
Qed.

Lemma last_fmap_in (l1 l2 : list Z) : List.last (AtPage <$> l1) AtFree ∈ free_ring (l1 ++ l2).
Proof. pose proof (last_in AtFree (AtPage <$> l1)). unfold free_ring. rewrite fmap_app. set_solver. Qed.
Lemma succ_fmap_in (l1 l2 : list Z) : succ AtFree (AtPage <$> l2) ∈ free_ring (l1 ++ l2).
Proof. pose proof (succ_in AtFree (AtPage <$> l2)). unfold free_ring. rewrite fmap_app. set_solver. Qed.

(** The rest of a run of [m] pages whose first [n] are split off. *)
Lemma rest_seg q l1 l2 s n m : seg_ok q s (SFree m) → 0 < n < m →
  (∀ i, s < i < s + m → AtPage i ∉ free_ring (l1 ++ l2)) →
  seg_ok (set_nodes q (between (<[AtPage (s + n) := mkPage (m - n) None (None, 0)]> (run_end (nodes q) s m (AtPage (s + n)))) 0
    (List.last (AtPage <$> l1) AtFree) (AtPage (s + n)) (succ AtFree (AtPage <$> l2)))) (s + n) (SFree (m - n)).
Proof.
  intros (Hm & Hbl & _) Hn Hno.
  assert (HiN : ∀ i z, s < i < s + m → z ∈ free_ring (l1 ++ l2) → AtPage i ≠ z) by (intros i z Hi Hz <-; by apply (Hno i)).
  split_and!; cbn [nodes set_nodes].
  - rewrite between_slab. by rewrite nd_insert.
  - intros i Hi. assert (Hi' : AtPage i ≠ AtPage (s + n)) by (intros [=]; lia).
    pose proof (HiN i _ ltac:(lia) (last_fmap_in l1 l2)). pose proof (HiN i _ ltac:(lia) (succ_fmap_in l1 l2)).
    destruct (Hbl i) as (B1 & B2 & B3); [lia|]. unfold blank.
    rewrite between_slab, between_next, between_prev, !decide_False by done.
    rewrite !nd_insert_ne by done. unfold run_end. rewrite nd_insert_if. case_decide as E; [|done].
    rewrite E. by split_and!.
  - intros Hm1 Hend. replace (s + n + (m - n) - 1) with (s + m - 1) by lia.
    assert (AtPage (s + m - 1) ≠ AtPage (s + n)) by (intros [=]; lia).
    pose proof (HiN (s + m - 1) _ ltac:(lia) (succ_fmap_in l1 l2)).
    rewrite between_prev, !decide_False by done. rewrite nd_insert_ne by done.
    unfold run_end. by rewrite nd_insert.
Qed.

Lemma detach_spec q A l1 s l2 SL n m : pool_ok q A (l1 ++ s :: l2) SL → A !! s = Some (SFree m) →
  1 ≤ n ≤ m → ∃ N,
  (if n <? m then split_run q (AtPage s) n else take_run q (AtPage s)) = Some (set_nodes q N) ∧
  ntouch (nodes q) N s (s + m) (free_ring (l1 ++ s :: l2)) ∧
  ring N 0 AtFree (AtPage <$> (if n <? m then l1 ++ (s + n) :: l2 else l1 ++ l2)) ∧
  (n < m → seg_ok (set_nodes q N) (s + n) (SFree (m - n))).
Proof.
  intros HP Hs Hn. destruct (run_pages _ _ _ _ _ _ HP Hs) as (H0 & H1 & Hla & Hd & Hno).
  destruct (ok_segs _ _ _ _ HP _ _ Hs) as (Hm & Hbl & _). simpl in H1, Hla, Hd, Hno.
  pose proof (ok_free _ _ _ _ HP) as HR. rewrite fmap_app, fmap_cons in HR.
  assert (Hmt : ∀ x, x ∈ free_ring (l1 ++ l2) → may_touch s (s + m) (free_ring (l1 ++ s :: l2)) x).
  { intros x Hx. left. revert Hx. unfold free_ring. rewrite !fmap_app. set_solver. }
  pose proof (Hmt _ (last_fmap_in l1 l2)) as Ma. pose proof (Hmt _ (succ_fmap_in l1 l2)) as Mc.
  destruct (Z.ltb_spec n m) as [Hlt|Hge].
  - assert (Hout : ∀ k, 0 < k < m → (AtPage (s + k) ∉ AtFree :: (AtPage <$> l1) ++ (AtPage <$> l2))).
    { intros k Hk Hi. apply (Hno (s + k)); [lia|]. unfold free_ring. rewrite fmap_app. set_solver. }
    rewrite (split_run_spec _ _ _ _ _ m HR Hm);
      [|lia|intros k Hk; split; [specialize (Hout k Hk); set_solver|apply Hd; lia]].
    eexists. split; [done|]. set (y := AtPage (s + n)).
    assert (Hy : ¬ page_out s (s + m) y) by (simpl; lia).
    assert (Hl : ¬ page_out s (s + m) (AtPage (s + m - 1))) by (simpl; lia).
    assert (Hy' : y ∉ AtFree :: (AtPage <$> l1) ++ (AtPage <$> l2)) by (apply Hout; lia).
    assert (Hl' : AtPage (s + m - 1) ∉ AtFree :: (AtPage <$> l1) ++ (AtPage <$> l2)).
    { replace (s + m - 1) with (s + (m - 1)) by lia. apply Hout. lia. }
    assert (Hdj : ∀ x, x ∈ free_ring (l1 ++ l2) → x ≠ y ∧ x ≠ AtPage (s + m - 1)).
    { unfold free_ring. rewrite fmap_app. intros x Hx. split; intros ->; done. }
    destruct (Hdj _ (last_fmap_in l1 l2)) as [Ha1 Ha2]. destruct (Hdj _ (succ_fmap_in l1 l2)) as [Hc1 Hc2].
    split_and!.
    + eapply ntouch_trans; [|apply ntouch_between; [done|by right|done]].
      eapply ntouch_trans; [unfold run_end; by apply ntouch_insert|by apply ntouch_insert].
    + rewrite fmap_app, fmap_cons. apply ring_replace with (x := AtPage s); [|done|].
      * assert (Hs' : AtPage (s + m - 1) ≠ AtPage s ∧ y ≠ AtPage s) by (split; intros [=]; lia).
        unfold run_end. apply ring_insert; [set_solver|]. apply ring_insert; [set_solver|done].
      * rewrite lookup_insert_eq. by eexists.
    + intros _. apply (rest_seg q l1 l2); [by apply (ok_segs _ _ _ _ HP _ _ Hs)|lia|].
      intros i Hi Hx. apply (Hno i); [lia|]. revert Hx. unfold free_ring. rewrite !fmap_app. set_solver.
  - rewrite (take_run_spec _ _ _ _ _ HR). eexists. split; [done|]. split_and!.
    + by apply ntouch_bridge.
    + rewrite fmap_app. by eapply ring_bridge.
    + lia.
Qed.

Lemma carve_lookup A s n m i g : 1 ≤ n ≤ m → carve A s n m !! i = Some g →
  (i = s ∧ g = SUser n) ∨ (n < m ∧ i = s + n ∧ g = SFree (m - n)) ∨
  (i ≠ s ∧ (n < m → i ≠ s + n) ∧ A !! i = Some g).
Proof.
  intros Hn. unfold carve. destruct (Z.ltb_spec n m).
  - intros [[<- <-]|[? [[<- <-]|[? Hi]]%lookup_insert_Some]]%lookup_insert_Some; auto.
  - intros [[<- <-]|[? Hi]]%lookup_insert_Some; [auto|]. right. right. split_and!; [done|lia|done].
Qed.

Lemma carve_slot A s n m i sh C : A !! s = Some (SFree m) → A !! (s + n) = None ∨ n = m →
  1 ≤ n ≤ m → carve A s n m !! i = Some (SSlot sh C) ↔ A !! i = Some (SSlot sh C).
Proof.
  intros Hs Hn Hnm. split.
  - intros [[_ ?]|[(_ & _ & ?)|(_ & _ & ?)]]%carve_lookup; done.
  - intros Hi. assert (i ≠ s) by (intros ->; congruence). unfold carve.
    destruct (Z.ltb_spec n m); [rewrite lookup_insert_ne by (intros ?; destruct Hn; [congruence|lia])|];
      by rewrite lookup_insert_ne by done.
Qed.

Lemma carve_tiles np A s n m : tiles np A → A !! s = Some (SFree m) → 1 ≤ n ≤ m → tiles np (carve A s n m).
Proof.
  intros HT Hs Hn. unfold carve. destruct (Z.ltb_spec n m).
  - apply (tiles_split _ _ _ (SFree m) (SUser n)); simpl; [done..|lia|lia|lia].
  - apply (tiles_update _ _ _ (SFree m)); simpl; [done..|lia].
Qed.

Lemma carve_FL A s n m l1 l2 i : NoDup (l1 ++ s :: l2) → A !! s = Some (SFree m) → 1 ≤ n ≤ m →
  (A !! (s + n) = None ∨ n = m) → (∀ i, i ∈ l1 ++ s :: l2 ↔ ∃ n, A !! i = Some (SFree n)) →
  i ∈ (if n <? m then l1 ++ (s + n) :: l2 else l1 ++ l2) ↔ ∃ k, carve A s n m !! i = Some (SFree k).
Proof.
  intros Hnd Hs Hn Hin HFL.
  assert (Hl : s ∉ l1 ++ l2).
  { apply NoDup_app in Hnd as (_ & Hdj & Hnd). apply NoDup_cons in Hnd as [? _].
    intros [Hx|Hx]%elem_of_app; [|done]. apply (Hdj s Hx). set_solver. }
  split.
  - intros Hi. destruct (decide (n < m ∧ i = s + n)) as [[Hlt ->]|Hne].
    { exists (m - n). unfold carve. rewrite (proj2 (Z.ltb_lt _ _)) by done. by rewrite lookup_insert_eq. }
    assert (Hi' : i ∈ l1 ++ l2) by (destruct (Z.ltb_spec n m); set_solver by lia).
    destruct (proj1 (HFL i)) as [k Hk]; [set_solver|]. exists k.
    assert (s ≠ i) by (by intros ->). unfold carve.
    destruct (Z.ltb_spec n m); rewrite ?lookup_insert_ne by (done || lia); done.
  - intros [k [[_ ?]|[(Hlt & -> & _)|(H1 & H2 & Hk)]]%carve_lookup]; [done| | |].
    + rewrite (proj2 (Z.ltb_lt _ _)) by done. set_solver.
    + assert (Hi : i ∈ l1 ++ s :: l2) by (apply HFL; by eexists).
      destruct (n <? m); set_solver.
    + done.
Qed.

Lemma FL_nodup q A FL SL : pool_ok q A FL SL → NoDup FL.
Proof.
  intros HP. pose proof (ring_nodup _ _ _ _ (ok_free _ _ _ _ HP)) as Hnd.
  apply NoDup_cons in Hnd as [_ Hnd]. by apply NoDup_fmap_1 in Hnd.
Qed.

(** No page of chunks changes, so the lists of the slots stay. *)
Lemma free_step q q' A A' FL FL' SL lo hi : pool_ok q A FL SL → touches q q' lo hi (free_ring FL) →
  (∀ s shift C, A !! s = Some (SSlot shift C) → s + 1 ≤ lo ∨ hi ≤ s) →
  (∀ s shift C, A' !! s = Some (SSlot shift C) ↔ A !! s = Some (SSlot shift C)) → tiles (last q) A' →
  (∀ s g, A' !! s = Some g → A !! s = Some g ∧ (s + seg_len g ≤ lo ∨ hi ≤ s) ∨ seg_ok q' s g) →
  ring (nodes q') 0 AtFree (AtPage <$> FL') → (∀ i, i ∈ FL' ↔ ∃ n, A' !! i = Some (SFree n)) →
  pool_ok q' A' FL' SL.
Proof.
  intros HP HT Hout Hb Htl Hsegs HR HFL.
  apply (pool_ok_step q _ A _ FL _ SL _ lo hi (free_ring FL)); try done.
  - intros i Hi. apply (free_ring_pages _ _ _ _ _ HP) in Hi as [k Hk]. by eexists.
  - intros shift Hsh. eapply slots_step; [done..| | |done].
    + intros [| |i] Hx; [done| |].
      * unfold free_ring in Hx. set_solver.
      * apply (free_ring_pages _ _ _ _ _ HP) in Hx as [k Hk]. intros ??. congruence.
    + intros i sh C Hi. pose proof (Hout i _ _ Hi) as Ho. lia.
  - intros shift i Hsh. rewrite (ok_SL _ _ _ _ HP) by done.
    split; intros (C & HC & Hf); exists C; (split; [|done]); by apply Hb.
Qed.

(** The stores of [claim_run] after the run has left the list. *)
Lemma claim_stores q N1 s n m : 1 ≤ n ≤ m → m < 2 ^ 63 → slab (nd (nodes q) (AtPage s)) = m → is_Some (nodes q !! AtPage s) →
  (if n <? m then split_run q (AtPage s) n else take_run q (AtPage s)) = Some (set_nodes q N1) →
  (∀ i, s ≤ i < s + m → is_Some (N1 !! AtPage i)) →
  ∃ N, claim_run q (AtPage s) n = Some (Some (AtPage s), set_nodes q N) ∧ ntouch N1 N s (s + n) [] ∧
    seg_ok (set_nodes q N) s (SUser n).
Proof.
  intros Hn Hm63 Hm Hsx E1 Hd1.
  set (N2 := <[AtPage s := mkPage (Z.lor n NGX_SLAB_PAGE_START) None (None, NGX_SLAB_PAGE)]> N1).
  set (busy := mkPage NGX_SLAB_PAGE_BUSY None (None, NGX_SLAB_PAGE)).
  set (N3 := fill busy (Z.to_nat (n - 1)) (s + 1) N2).
  destruct (fill_spec busy (Z.to_nat (n - 1)) (s + 1) N2) as [F1 F2]. fold N3 in F1, F2.
  exists N3. split_and!.
  - unfold claim_run. rewrite get_nd by done. bind_simpl. rewrite Hm, E1. bind_simpl.
    rewrite upd_nd by (cbn [nodes set_nodes]; apply Hd1; lia). bind_simpl.
    rewrite uwrap_small by lia. destruct (Z.eqb_spec (n - 1) 0) as [Hz|Hz].
    + subst N3. rewrite Hz. done.
    + cbn [page_plus]. bind_simpl. rewrite mark_busy_fill; [done|].
      intros j Hj. cbn [nodes set_nodes]. apply there_insert, Hd1. lia.
  - apply (ntouch_trans _ N2); [apply ntouch_insert; simpl; lia|]. eapply ntouch_mono; [done|lia..|done].
  - split; cbn [nodes set_nodes].
    + rewrite (nt_node _ _ _ _ _ F2) by (simpl; lia || set_solver). apply nd_insert.
    + intros j Hj. apply F1. lia.
Qed.

Lemma claim_run_spec q A l1 s l2 SL n m : pool_ok q A (l1 ++ s :: l2) SL → A !! s = Some (SFree m) →
  1 ≤ n ≤ m → ∃ N, claim_run q (AtPage s) n = Some (Some (AtPage s), set_nodes q N) ∧
  pool_ok (set_nodes q N) (carve A s n m) (if n <? m then l1 ++ (s + n) :: l2 else l1 ++ l2) SL.
Proof.
  intros HP Hs Hn. destruct (run_pages _ _ _ _ _ _ HP Hs) as (H0 & H1 & Hla & Hd & Hno).
  destruct (ok_segs _ _ _ _ HP _ _ Hs) as (Hm & _ & _). simpl in H1, Hla, Hd, Hno.
  destruct (detach_spec _ _ _ _ _ _ _ _ HP Hs Hn) as (N1 & E1 & T1 & R1 & S1).
  pose proof (par_end _ (ok_params _ _ _ _ HP)). pose proof (par_start _ (ok_params _ _ _ _ HP)).
  destruct (claim_stores q N1 s n m) as (N & E & T2 & S2); [lia..|done|apply Hd; lia|done|intros; by apply T1, Hd|].
  exists N. split; [done|].
  assert (T : touches q (set_nodes q N) s (s + m) (free_ring (l1 ++ s :: l2))).
  { apply touches_nodes. eapply ntouch_trans; [done|]. eapply ntouch_mono; [done|lia..|set_solver]. }
  pose proof (ok_tiles _ _ _ _ HP) as HT. pose proof (carve_tiles _ _ _ _ _ HT Hs Hn) as HT'.
  assert (Hin : A !! (s + n) = None ∨ n = m).
  { destruct (decide (n = m)); [by right|left]. eapply tile_inner; [done..|simpl; lia]. }
  assert (Hout : ∀ i g, A !! i = Some g → i ≠ s → i + seg_len g ≤ s ∨ s + m ≤ i) by
    (intros i g Hi Hne; by apply (tile_other _ _ _ _ _ _ HT Hs)).
  pose proof (FL_nodup _ _ _ _ HP) as Hnd.
  eapply (free_step q _ A _ (l1 ++ s :: l2) _ SL s (s + m)); [done..| | |done| | |].
  - intros i shift C Hi. apply (Hout i _ Hi). intros ->. congruence.
  - intros i shift C. by apply carve_slot.
  - intros i g [[-> ->]|[(Hlt & -> & ->)|(Hi1 & Hi2 & Hi)]]%carve_lookup; [by right|right|left; auto|done].
    unfold carve in HT'. rewrite (proj2 (Z.ltb_lt _ _)) in HT' by done.
    eapply (seg_ok_frame (set_nodes q N1) _ s (s + n) [] (<[s + n := SFree (m - n)]> (<[s := SUser n]> A)));
      [by apply (touches_nodes (set_nodes q N1))|apply (ok_params _ _ _ _ HP)|done|by rewrite lookup_insert_eq|set_solver|lia|auto].
  - eapply ring_ntouch; [done| |done]. intros x [->|Hx]%elem_of_cons; [split; [done|set_solver]|].
    split; [|set_solver]. apply list_elem_of_fmap in Hx as (i & -> & Hi).
    apply (carve_FL A s n m l1 l2) in Hi as [k Hk]; [|done..|apply (ok_FL _ _ _ _ HP)].
    apply carve_lookup in Hk as [[_ ?]|[(? & -> & _)|(Hi1 & Hi2 & Hi)]]; [done|simpl; lia| |done].
    pose proof (Hout i _ Hi Hi1). pose proof (tile_in _ _ HT _ _ Hi). simpl in *. lia.
  - intros i. apply carve_FL; [done..|apply (ok_FL _ _ _ _ HP)].
Qed.

Lemma alloc_pages_loop_spec q A FL SL n l2 : pool_ok q A FL SL → ∀ l1 fuel,
  FL = l1 ++ l2 → (length l2 < fuel)%nat →
  (alloc_pages_loop fuel q (succ AtFree (AtPage <$> l2)) n = Some (None, q) ∧
    ∀ i m, i ∈ l2 → A !! i = Some (SFree m) → m < n) ∨
  ∃ la i lb m, l2 = la ++ i :: lb ∧ A !! i = Some (SFree m) ∧ n ≤ m ∧
    alloc_pages_loop fuel q (succ AtFree (AtPage <$> l2)) n = claim_run q (AtPage i) n.
Proof.
  intros HP. induction l2 as [|i l2 IH]; intros l1 fuel HFL Hf; destruct fuel as [|fuel]; simpl in Hf; try lia.
  { left. split; [done|]. by intros ?? ?%elem_of_nil. }
  destruct (proj1 (ok_FL _ _ _ _ HP i)) as [m Hm]; [rewrite HFL; set_solver|].
  destruct (ok_segs _ _ _ _ HP _ _ Hm) as (Hsl & _ & _).
  assert (Hd : is_Some (nodes q !! AtPage i)).
  { apply (ring_there _ _ _ _ (ok_free _ _ _ _ HP)). rewrite HFL. set_solver. }
  cbn [fmap list_fmap succ alloc_pages_loop]. rewrite decide_False by done. rewrite get_nd by done. bind_simpl.
  rewrite Hsl. destruct (Z.leb_spec n m) as [Hle|Hlt].
  - right. by exists [], i, l2, m.
  - pose proof (ring_lseg _ _ _ _ (ok_free _ _ _ _ HP)) as HL.
    rewrite HFL, fmap_app, fmap_cons in HL. apply lseg_app in HL as (_ & _ & HL%lseg_next).
    rewrite HL. bind_simpl. destruct (IH (l1 ++ [i]) fuel) as [[E Ha]|(la & j & lb & k & -> & Hk & Hn & E)].
    + by rewrite <-app_assoc.
    + lia.
    + left. split; [done|]. intros j k [->|Hj]%elem_of_cons Hk; [simplify_eq; lia|by eapply Ha].
    + right. by exists (i :: la), j, lb, k.
Qed.

Lemma free_list_short q A FL SL : pool_ok q A FL SL → (length FL < S (size (nodes q)))%nat.
Proof.
  intros HP. pose proof (ok_free _ _ _ _ HP) as [_ Hnd Hd].
  apply Nat.lt_succ_r. transitivity (size (list_to_set (AtPage <$> FL) : gset pptr)).
  - apply NoDup_cons in Hnd as [_ Hnd]. rewrite size_list_to_set by done. by rewrite length_fmap.
  - rewrite <-size_dom. apply subseteq_size. intros x Hx%elem_of_list_to_set.
    apply elem_of_dom, Hd. by right.
Qed.

(** Pages come from the first run in the list that is long enough; without one, nothing
    changes. *)
Lemma alloc_pages_spec q A FL SL n : pool_ok q A FL SL → 1 ≤ n →
  (ngx_slab_alloc_pages q n = Some (None, q) ∧ ∀ i m, A !! i = Some (SFree m) → m < n) ∨
  ∃ s m N FL', A !! s = Some (SFree m) ∧ n ≤ m ∧
    ngx_slab_alloc_pages q n = Some (Some (AtPage s), set_nodes q N) ∧
    pool_ok (set_nodes q N) (carve A s n m) FL' SL.
Proof.
  intros HP Hn. unfold ngx_slab_alloc_pages.
  destruct (ring_head _ _ _ _ (ok_free _ _ _ _ HP)) as (Hx & Hd & _).
  rewrite get_nd by done. bind_simpl. rewrite Hx. bind_simpl.
  destruct (alloc_pages_loop_spec q A FL SL n FL HP [] (S (size (nodes q))))
    as [[E Ha]|(la & i & lb & m & -> & Hm & Hle & E)]; [done|by eapply free_list_short|..]; rewrite E.
  - left. split; [done|]. intros i m Hi. apply (Ha i); [|done]. apply (ok_FL _ _ _ _ HP). by eexists.
  - right. destruct (claim_run_spec _ _ _ _ _ _ _ _ HP Hm (conj Hn Hle)) as (N & -> & HP').
    eexists i, m, N, _. by split_and!.
Qed.

(** ** Freeing pages *)

(** Segments that clients use. *)
Definition busy g : bool := match g with SUser _ | SSlot _ _ => true | _ => false end.

Lemma linked_ring q A FL SL l1 s l2 : pool_ok q A FL SL → FL = l1 ++ s :: l2 →
  ring (nodes q) 0 AtFree ((AtPage <$> l1) ++ AtPage s :: (AtPage <$> l2)).
Proof. intros HP ->. pose proof (ok_free _ _ _ _ HP) as HR. by rewrite fmap_app, fmap_cons in HR. Qed.

(** The stores that join two neighbours, one of them loose and the other, [f], free. *)
Definition join_runs q (a f b k : Z) : option ngx_slab_pool_t :=
  q ← upd q (AtPage a) (set_slab k);
  q ← unlink q (AtPage f);
  upd q (AtPage b) (λ _, mkPage NGX_SLAB_PAGE_FREE None (None, NGX_SLAB_PAGE)).

Definition idle g : Prop := match g with SFree _ | SLoose _ => True | _ => False end.

Lemma idle_blank q s g i : idle g → seg_ok q s g → s < i < s + seg_len g → blank (nd (nodes q) (AtPage i)).
Proof. destruct g; simpl; try done; [intros _ (_ & H & _)|intros _ (_ & H)]; auto. Qed.

(** The descriptors after these stores. *)
Definition joined_nodes N (l1 l2 : list Z) (a b k : Z) : gmap pptr ngx_slab_page_t :=
  <[AtPage b := null_page]> (bridge (<[AtPage a := set_slab k (nd N (AtPage a))]> N) 0
    (List.last (AtPage <$> l1) AtFree) (succ AtFree (AtPage <$> l2))).

Lemma free_ring_mid l1 f l2 x : x ∈ free_ring (l1 ++ l2) → x ∈ free_ring (l1 ++ f :: l2).
Proof. unfold free_ring. rewrite !fmap_app. set_solver. Qed.

Lemma joined_ntouch N l1 f l2 a b k : a ≤ b < a + k →
  ntouch N (joined_nodes N l1 l2 a b k) a (a + k) (free_ring (l1 ++ f :: l2)).
Proof.
  intros Hb. unfold joined_nodes. eapply ntouch_trans; [|apply ntouch_insert; simpl; lia].
  apply (ntouch_trans _ (<[AtPage a := set_slab k (nd N (AtPage a))]> N)); [apply ntouch_insert; simpl; lia|].
  apply ntouch_bridge; left; apply free_ring_mid; [apply last_fmap_in|apply succ_fmap_in].
Qed.

(** The pages of the joined run. *)
Lemma joined_seg q A l1 f l2 SL a g1 b g2 : pool_ok q A (l1 ++ f :: l2) SL →
  A !! a = Some g1 → A !! b = Some g2 → b = a + seg_len g1 → idle g1 → idle g2 →
  let k := seg_len g1 + seg_len g2 in
  seg_ok (set_nodes q (joined_nodes (nodes q) l1 l2 a b k)) a (SLoose k).
Proof.
  intros HP Ha Hb Hab I1 I2 k.
  destruct (run_pages _ _ _ _ _ _ HP Ha) as (P1 & P2 & P3 & _ & Hno1).
  destruct (run_pages _ _ _ _ _ _ HP Hb) as (Q1 & Q2 & Q3 & _ & Hno2).
  split; cbn [nodes set_nodes]; unfold joined_nodes.
  - rewrite nd_insert_ne by (intros [=]; lia). rewrite bridge_slab. by rewrite nd_insert.
  - intros i Hi. destruct (decide (i = b)) as [->|Hib]; [by rewrite nd_insert|].
    assert (HiN : ∀ z, z ∈ free_ring (l1 ++ l2) → AtPage i ≠ z).
    { intros z Hz%(free_ring_mid _ f) <-. revert Hz. destruct (decide (i < b)); [apply Hno1|apply Hno2]; lia. }
    pose proof (HiN _ (last_fmap_in l1 l2)). pose proof (HiN _ (succ_fmap_in l1 l2)).
    assert (AtPage b ≠ AtPage i ∧ AtPage a ≠ AtPage i) as [? ?] by (split; intros [=]; lia).
    rewrite nd_insert_ne by done. unfold bridge. rewrite !nd_insert_ne by congruence. destruct (decide (i < b)).
    + eapply (idle_blank q a g1); [done|by apply (ok_segs _ _ _ _ HP)|lia].
    + eapply (idle_blank q b g2); [done|by apply (ok_segs _ _ _ _ HP)|lia].
Qed.

Lemma join_runs_spec q A l1 f l2 SL a g1 b g2 m : pool_ok q A (l1 ++ f :: l2) SL →
  A !! a = Some g1 → A !! b = Some g2 → b = a + seg_len g1 → idle g1 → idle g2 →
  f = a ∧ g1 = SFree m ∧ (∃ n, g2 = SLoose n) ∨ f = b ∧ g2 = SFree m ∧ (∃ n, g1 = SLoose n) →
  let k := seg_len g1 + seg_len g2 in
  ∃ N, join_runs q a f b k = Some (set_nodes q N) ∧
    pool_ok (set_nodes q N) (<[a := SLoose k]> (delete b A)) (l1 ++ l2) SL.
Proof.
  intros HP Ha Hb Hab I1 I2 Hf k. pose proof (ok_tiles _ _ _ _ HP) as HT.
  destruct (run_pages _ _ _ _ _ _ HP Ha) as (P1 & P2 & P3 & Hd1 & Hno1).
  destruct (run_pages _ _ _ _ _ _ HP Hb) as (Q1 & Q2 & Q3 & Hd2 & Hno2).
  pose proof (linked_ring _ _ _ _ l1 f l2 HP eq_refl) as HR.
  pose proof (FL_nodup _ _ _ _ HP) as Hnd.
  set (N1 := <[AtPage a := set_slab k (nd (nodes q) (AtPage a))]> (nodes q)).
  assert (HR1 : ring N1 0 AtFree ((AtPage <$> l1) ++ AtPage f :: (AtPage <$> l2))).
  { eapply ring_frame; [..|done]; try (intros; by apply there_insert);
      intros x _; subst N1; rewrite nd_insert_if; case_decide as E; by rewrite <-?E. }
  exists (joined_nodes (nodes q) l1 l2 a b k). split.
  { unfold join_runs. rewrite upd_nd by (apply Hd1; lia). bind_simpl. fold N1.
    rewrite (unlink_spec (set_nodes q N1) _ _ _ _ _ HR1). bind_simpl.
    rewrite upd_nd; [done|]. cbn [nodes set_nodes]. unfold bridge. repeat apply there_insert. apply Hd2. lia. }
  assert (Hfree : ∀ j n, A !! j = Some (SFree n) → j ≠ f → j ≠ a ∧ j ≠ b).
  { intros j n Hj Hjf. destruct Hf as [(-> & -> & n' & ->)|(-> & -> & n' & ->)]; split; congruence. }
  assert (Hl : ∀ i, i ∈ l1 ++ l2 ↔ i ≠ f ∧ ∃ n, A !! i = Some (SFree n)).
  { intros i. rewrite <-(ok_FL _ _ _ _ HP). apply NoDup_app in Hnd as (_ & Hdj & Hnd).
    apply NoDup_cons in Hnd as [Hfl _]. specialize (Hdj f). rewrite !elem_of_app, elem_of_cons.
    split; [|naive_solver]. intros Hi. split; [|naive_solver]. intros ->. set_solver. }
  eapply (free_step q _ A _ (l1 ++ f :: l2) _ SL a (a + k)); [done|by apply touches_nodes, joined_ntouch; lia|..].
  - intros s shift C Hs. assert (s ≠ a ∧ s ≠ b) as [Hsa Hsb].
    { split; intros ->; simplify_eq; [by destruct I1|by destruct I2]. }
    by apply (tile_pair_out _ _ _ _ _ _ _ _ HT Ha Hb Hab Hs).
  - intros s shift C. rewrite lookup_insert_Some, lookup_delete_Some. split.
    + intros [[_ ?]|(_ & _ & ?)]; done.
    + intros Hs. right. split_and!; [intros <-|intros <-|done]; simplify_eq; [by destruct I1|by destruct I2].
  - rewrite Hab. eapply tiles_join; [done..|by rewrite <-Hab|done].
  - intros s g [[<- <-]|[Hsa [Hsb Hs]%lookup_delete_Some]]%lookup_insert_Some; [right|left].
    + by eapply joined_seg.
    + split; [done|]. by eapply tile_pair_out.
  - cbn [nodes set_nodes]. rewrite fmap_app. unfold joined_nodes. apply ring_insert; [|by eapply ring_bridge].
    rewrite <-fmap_app. intros [?|Hx]%elem_of_cons; [done|].
    apply list_elem_of_fmap in Hx as (j & [= ->] & Hj). apply Hl in Hj as [Hjf [n Hn]].
    by destruct (Hfree _ _ Hn Hjf).
  - intros i. rewrite Hl. split.
    + intros [Hif [n Hn]]. destruct (Hfree _ _ Hn Hif). exists n.
      by rewrite lookup_insert_ne, lookup_delete_ne.
    + intros [n [[_ ?]|[Hia [Hib Hi]%lookup_delete_Some]]%lookup_insert_Some]; [done|].
      split; [|by eexists]. intros ->. destruct Hf as [(-> & _)|(-> & _)]; done.
Qed.

(** The only loose run is the one at [s]. *)
Definition one_loose A s n : Prop := A !! s = Some (SLoose n) ∧ ∀ i m, A !! i = Some (SLoose m) → i = s.

Definition coalesced A : Prop := ∀ s n m, A !! s = Some (SFree n) → A !! (s + n) ≠ Some (SFree m).

Definition same_busy A A' : Prop := ∀ i g, busy g = true → A' !! i = Some g ↔ A !! i = Some g.

Lemma slot_type_pos shift : slot_type shift ≠ 0.
Proof. unfold slot_type. by repeat case_match. Qed.

(** What the first descriptor of a segment tells about it. *)
Lemma head_page q A FL SL s g : pool_ok q A FL SL → A !! s = Some g →
  match g with
  | SFree n => (prev (nd (nodes q) (AtPage s))).2 = 0 ∧ is_Some (next (nd (nodes q) (AtPage s)))
  | SUser n => next (nd (nodes q) (AtPage s)) = None ∧ (prev (nd (nodes q) (AtPage s))).2 = 0
  | SSlot shift C => (prev (nd (nodes q) (AtPage s))).2 = slot_type shift
  | SLoose _ => True
  end.
Proof.
  intros HP Hs. pose proof (ok_segs _ _ _ _ HP _ _ Hs) as HS. destruct g as [n|n|shift C|n]; simpl in HS.
  - assert (s ∈ FL) as (l1 & l2 & ->)%list_elem_of_split by (apply (ok_FL _ _ _ _ HP); by eexists).
    destruct (ring_member _ _ _ _ _ _ (linked_ring _ _ _ _ l1 s l2 HP eq_refl)) as (-> & -> & _).
    split; [done|by eexists].
  - destruct HS as [-> _]. done.
  - destruct (full shift C) eqn:Hf.
    + by rewrite (proj2 (slot_full _ _ _ _ HS Hf)).
    + pose proof (slot_shift _ _ _ _ HS) as Hsh.
      assert (s ∈ SL shift) as (l1 & l2 & E)%list_elem_of_split by (apply (ok_SL _ _ _ _ HP); eauto).
      pose proof (ok_slots _ _ _ _ HP shift Hsh) as HR. rewrite E, fmap_app, fmap_cons in HR.
      by destruct (ring_member _ _ _ _ _ _ HR) as (-> & _).
  - done.
Qed.

Lemma last_small q : params_ok q → last q < 2 ^ 52.
Proof. intros [_ _ P3 P4 P5]. lia. Qed.

(** The layout after joining two idle neighbours. *)
Lemma joined_layout A a g1 b g2 k : A !! a = Some g1 → A !! b = Some g2 → idle g1 → idle g2 → coalesced A →
  (∀ i m, A !! i = Some (SLoose m) → i = a ∨ i = b) →
  one_loose (<[a := SLoose k]> (delete b A)) a k ∧ coalesced (<[a := SLoose k]> (delete b A)) ∧
  same_busy A (<[a := SLoose k]> (delete b A)).
Proof.
  intros Ha Hb I1 I2 Hco H1. split_and!.
  - split; [by rewrite lookup_insert_eq|].
    intros i m [[-> _]|[? [? Hi]%lookup_delete_Some]]%lookup_insert_Some; [done|]. apply H1 in Hi as [?|?]; congruence.
  - intros i m m' [[_ ?]|[_ [_ Hi]%lookup_delete_Some]]%lookup_insert_Some
      [[_ ?]|[_ [_ Hi']%lookup_delete_Some]]%lookup_insert_Some; [done..|]. by apply (Hco _ _ _ Hi Hi').
  - intros i g Hg. rewrite lookup_insert_Some, lookup_delete_Some. split.
    + intros [[_ <-]|(_ & _ & ?)]; done.
    + intros Hi. right. split_and!; [intros <-|intros <-|done]; simplify_eq; [by destruct g1|by destruct g2].
Qed.

Lemma join_next_spec q A FL SL s n : pool_ok q A FL SL → one_loose A s n → coalesced A →
  ∃ N A' FL' n', join_next q (AtPage s) (n - 1) = Some (set_nodes q N, n' - 1) ∧
    pool_ok (set_nodes q N) A' FL' SL ∧ one_loose A' s n' ∧ coalesced A' ∧ same_busy A A' ∧
    ∀ m, A' !! (s + n') ≠ Some (SFree m).
Proof.
  intros HP [Hs H1] Hco. destruct (run_pages _ _ _ _ _ _ HP Hs) as (S0 & S1 & S2 & Hd & _).
  destruct (ok_segs _ _ _ _ HP _ _ Hs) as (Hsl & _). simpl in S1, S2, Hd.
  pose proof (last_small _ (ok_params _ _ _ _ HP)). pose proof (ok_tiles _ _ _ _ HP) as HT.
  assert (Hstay : (∀ m, A !! (s + n) ≠ Some (SFree m)) →
    join_next q (AtPage s) (n - 1) = Some (q, n - 1) → ∃ N A' FL' n',
    join_next q (AtPage s) (n - 1) = Some (set_nodes q N, n' - 1) ∧
    pool_ok (set_nodes q N) A' FL' SL ∧ one_loose A' s n' ∧ coalesced A' ∧ same_busy A A' ∧
    ∀ m, A' !! (s + n') ≠ Some (SFree m)).
  { intros Hn E. exists (nodes q), A, FL, n. rewrite E. by destruct q. }
  unfold join_next in *. rewrite get_nd in * by (apply Hd; lia). cbn [page_index] in *.
  revert Hstay. bind_simpl. rewrite Hsl. destruct (Z.ltb_spec (s + n) (last q)) as [Hl|Hl].
  2: { intros Hstay. apply Hstay; [|done]. intros m Hm. pose proof (tile_in _ _ HT _ _ Hm). simpl in *. lia. }
  destruct (tile_next _ _ _ _ HT Hs Hl) as [g Hg]. simpl in Hg.
  pose proof (head_page _ _ _ _ _ _ HP Hg) as Hh.
  rewrite get_nd by (apply (ok_nodes _ _ _ _ HP); simpl; lia). bind_simpl.
  destruct g as [m|m|shift C|m].
  - intros _. destruct Hh as [-> [nx ->]]. cbn [Z.eqb NGX_SLAB_PAGE].
    destruct (ok_segs _ _ _ _ HP _ _ Hg) as (-> & _).
    assert (s + n ∈ FL) as (l1 & l2 & ->)%list_elem_of_split by (apply (ok_FL _ _ _ _ HP); by eexists).
    destruct (tile_in _ _ HT _ _ Hg) as (_ & Hm & Hm2). simpl in Hm, Hm2.
    rewrite !uwrap_small by lia.
    destruct (join_runs_spec _ _ _ _ _ _ s (SLoose n) (s + n) (SFree m) m HP) as (N & E & HP');
      [done..|right; split_and!; [done..|by eexists]|]. simpl in E, HP'. unfold join_runs in E.
    destruct (upd q (AtPage s) (set_slab (n + m))) as [q1|]; [|done]. revert E. bind_simpl.
    destruct (unlink q1 (AtPage (s + n))) as [q2|]; [|done]. bind_simpl. intros ->. bind_simpl.
    exists N, (<[s := SLoose (n + m)]> (delete (s + n) A)), (l1 ++ l2), (n + m).
    destruct (joined_layout A s (SLoose n) (s + n) (SFree m) (n + m)) as (J1 & J2 & J3); [done..|by left; eapply H1|].
    replace (n - 1 + m) with (n + m - 1) by lia. split_and!; [done..|].
    intros k [[? _]|[_ [_ Hi]%lookup_delete_Some]]%lookup_insert_Some; [lia|].
    rewrite Z.add_assoc in Hi. by apply (Hco _ _ _ Hg Hi).
  - destruct Hh as [-> ->]. intros Hstay. apply Hstay; [congruence|done].
  - rewrite Hh. intros Hstay. apply Hstay; [congruence|].
    destruct (Z.eqb_spec (slot_type shift) NGX_SLAB_PAGE) as [E|]; [|done]. by apply slot_type_pos in E.
  - apply H1 in Hg. lia.
Qed.

Lemma user_slab n : 1 ≤ n → Z.lor n NGX_SLAB_PAGE_START ≠ 0.
Proof. intros Hn [? _]%Z.lor_eq_0_iff. lia. Qed.

(** What the last descriptor of a segment before a page tells about it. *)
Lemma last_page q A FL SL s g : pool_ok q A FL SL → A !! s = Some g → s + seg_len g < last q →
  let pg := nd (nodes q) (AtPage (s + seg_len g - 1)) in
  match g with
  | SFree n => (prev pg).2 = 0 ∧
      (if slab pg =? NGX_SLAB_PAGE_FREE then (prev pg).1 else Some (AtPage (s + n - 1))) = Some (AtPage s)
  | SUser n => (prev pg).2 = 0 ∧ slab pg ≠ 0 ∧ next pg = None
  | SSlot shift C => (prev pg).2 = slot_type shift
  | SLoose _ => True
  end.
Proof.
  intros HP Hs Hl. pose proof (head_page _ _ _ _ _ _ HP Hs) as Hh.
  pose proof (ok_segs _ _ _ _ HP _ _ Hs) as HS.
  destruct (tile_in _ _ (ok_tiles _ _ _ _ HP) _ _ Hs) as (_ & Hn & _).
  destruct g as [n|n|shift C|n]; cbn [seg_len] in *.
  - destruct HS as (Hsl & Hb & Hp). destruct (decide (n = 1)) as [->|].
    + replace (s + 1 - 1) with s by lia. rewrite Hsl. destruct Hh as [-> _]. done.
    + destruct (Hb (s + n - 1)) as (-> & _ & ->); [lia|]. by rewrite Hp by lia.
  - destruct HS as [Hu Hb]. destruct (decide (n = 1)) as [->|].
    + replace (s + 1 - 1) with s by lia. rewrite Hu. done.
    + rewrite Hb by lia. done.
  - by replace (s + 1 - 1) with s by lia.
  - done.
Qed.

Lemma join_prev_spec q A FL SL s n : pool_ok q A FL SL → one_loose A s n → coalesced A →
  (∀ m, A !! (s + n) ≠ Some (SFree m)) →
  ∃ N A' FL' s' n', join_prev q (AtPage s) (n - 1) = Some (set_nodes q N, n' - 1, AtPage s') ∧
    pool_ok (set_nodes q N) A' FL' SL ∧ one_loose A' s' n' ∧ coalesced A' ∧ same_busy A A' ∧
    (∀ m, A' !! (s' + n') ≠ Some (SFree m)) ∧ (∀ i m, A' !! i = Some (SFree m) → i + m ≠ s').
Proof.
  intros HP [Hs H1] Hco Hnx. destruct (run_pages _ _ _ _ _ _ HP Hs) as (S0 & S1 & S2 & Hd & _).
  destruct (ok_segs _ _ _ _ HP _ _ Hs) as (Hsl & _). simpl in S1, S2, Hd.
  pose proof (last_small _ (ok_params _ _ _ _ HP)). pose proof (ok_tiles _ _ _ _ HP) as HT.
  assert (Hstay : (∀ i m, A !! i = Some (SFree m) → i + m ≠ s) →
    join_prev q (AtPage s) (n - 1) = Some (q, n - 1, AtPage s) → ∃ N A' FL' s' n',
    join_prev q (AtPage s) (n - 1) = Some (set_nodes q N, n' - 1, AtPage s') ∧
    pool_ok (set_nodes q N) A' FL' SL ∧ one_loose A' s' n' ∧ coalesced A' ∧ same_busy A A' ∧
    (∀ m, A' !! (s' + n') ≠ Some (SFree m)) ∧ (∀ i m, A' !! i = Some (SFree m) → i + m ≠ s')).
  { intros Hn E. exists (nodes q), A, FL, s, n. rewrite E. by destruct q. }
  unfold join_prev in *. cbn [page_index] in *. revert Hstay. bind_simpl.
  destruct (Z.ltb_spec 0 s) as [Hl|Hl].
  2: { intros Hstay. apply Hstay; [|done]. intros i m Hi Him. pose proof (tile_in _ _ HT _ _ Hi). simpl in *. lia. }
  destruct (tile_prev _ _ _ _ HT Hs Hl) as (a & g & Ha & Hag).
  assert (Hother : ∀ i m, A !! i = Some (SFree m) → i + m = s → i = a ∧ g = SFree m).
  { intros i m Hi Him. by eapply (tile_prev_unique _ A i (SFree m)); [..|rewrite Hag]. }
  pose proof (last_page _ _ _ _ _ _ HP Ha ltac:(lia)) as Hh. cbv zeta in Hh. rewrite Hag in Hh.
  rewrite (get_nd q (AtPage (s - 1))) by (apply (ok_nodes _ _ _ _ HP); simpl; lia). bind_simpl.
  destruct g as [m|m|shift C|m]; simpl in Hag.
  - intros _. destruct Hh as [-> Hh]. cbn [Z.eqb NGX_SLAB_PAGE]. rewrite Hag in Hh. rewrite Hh. bind_simpl.
    destruct (head_page _ _ _ _ _ _ HP Ha) as [_ [nx Hnext]].
    destruct (tile_in _ _ HT _ _ Ha) as (Hm0 & Hm & Hm2). simpl in Hm, Hm2.
    rewrite (get_nd q (AtPage a)) by (apply (ok_nodes _ _ _ _ HP); simpl; lia). bind_simpl. rewrite Hnext.
    rewrite get_nd by (apply Hd; lia). bind_simpl. rewrite Hsl.
    destruct (ok_segs _ _ _ _ HP _ _ Ha) as (-> & _).
    assert (a ∈ FL) as (l1 & l2 & ->)%list_elem_of_split by (apply (ok_FL _ _ _ _ HP); by eexists).
    rewrite !uwrap_small by lia.
    destruct (join_runs_spec _ _ _ _ _ _ a (SFree m) s (SLoose n) m HP) as (N & E & HP');
      [done..|left; split_and!; [done..|by eexists]|]. simpl in E, HP'. unfold join_runs in E.
    destruct (upd q (AtPage a) (set_slab (m + n))) as [q1|]; [|done]. revert E. bind_simpl.
    destruct (unlink q1 (AtPage a)) as [q2|]; [|done]. bind_simpl. intros ->. bind_simpl.
    exists N, (<[a := SLoose (m + n)]> (delete s A)), (l1 ++ l2), a, (m + n).
    destruct (joined_layout A a (SFree m) s (SLoose n) (m + n)) as (J1 & J2 & J3); [done..|by right; eapply H1|].
    replace (n - 1 + m) with (m + n - 1) by lia. split_and!; [done..| |].
    + intros k [[? _]|[_ [_ Hi]%lookup_delete_Some]]%lookup_insert_Some; [lia|].
      apply (Hnx k). by rewrite <-Hag, <-Z.add_assoc.
    + intros i k [[_ ?]|[_ [_ Hi]%lookup_delete_Some]]%lookup_insert_Some; [done|].
      intros <-. by apply (Hco _ _ _ Hi Ha).
  - destruct Hh as (-> & Hne & Hnn). cbn [Z.eqb NGX_SLAB_PAGE].
    destruct (Z.eqb_spec (slab (nd (nodes q) (AtPage (s - 1)))) NGX_SLAB_PAGE_FREE); [done|]. bind_simpl.
    rewrite (get_nd q (AtPage (s - 1))) by (apply (ok_nodes _ _ _ _ HP); simpl; lia). bind_simpl. rewrite Hnn.
    intros Hstay. apply Hstay; [|done]. intros i k Hi Hk. by destruct (Hother _ _ Hi Hk).
  - rewrite Hh. intros Hstay. apply Hstay; [intros i k Hi Hk; by destruct (Hother _ _ Hi Hk)|].
    destruct (Z.eqb_spec (slot_type shift) NGX_SLAB_PAGE) as [E|]; [|done]. by apply slot_type_pos in E.
  - destruct (tile_in _ _ HT _ _ Ha) as (_ & Hm & _). apply H1 in Ha. simpl in Hm. lia.
Qed.

(** The descriptors after [push_free]. *)
Definition ended_nodes N s n : gmap pptr ngx_slab_page_t :=
  if n - 1 =? 0 then N else run_end N s (n - 1 + 1) (AtPage s).
Definition pushed_nodes N (FL : list Z) s n : gmap pptr ngx_slab_page_t :=
  between (ended_nodes N s n) 0 AtFree (AtPage s) (succ AtFree (AtPage <$> FL)).

Lemma pushed_seg q FL s n : seg_ok q s (SLoose n) → 1 ≤ n → (∀ i, s ≤ i < s + n → AtPage i ∉ free_ring FL) →
  seg_ok (set_nodes q (pushed_nodes (nodes q) FL s n)) s (SFree n).
Proof.
  intros (Hsl & Hbl) Hn1 Hin. set (N1 := ended_nodes (nodes q) s n).
  assert (HN : ∀ i, s < i < s + n → nd (pushed_nodes (nodes q) FL s n) (AtPage i) = nd N1 (AtPage i)).
  { intros i Hi. assert (AtPage i ≠ succ AtFree (AtPage <$> FL)).
    { intros E. apply (Hin i); [lia|]. rewrite E. apply succ_in. }
    assert (AtPage i ≠ AtPage s) by (intros [=]; lia).
    apply page_eq; unfold pushed_nodes; rewrite ?between_slab, ?between_next, ?between_prev, ?decide_False by done; done. }
  split_and!; cbn [nodes set_nodes].
  - unfold pushed_nodes. rewrite between_slab. unfold ended_nodes. destruct (Z.eqb_spec (n - 1) 0); [done|]. unfold run_end.
    rewrite nd_insert_ne; [done|]. intros [=]. lia.
  - intros i Hi. rewrite HN by done. destruct (Hbl i Hi) as (B1 & B2 & B3). unfold N1, ended_nodes.
    destruct (n - 1 =? 0); [done|]. unfold run_end. rewrite nd_insert_if. case_decide as Ei; [|done].
    rewrite Ei. by split_and!.
  - intros Hn _. rewrite HN by lia. unfold N1, ended_nodes. destruct (Z.eqb_spec (n - 1) 0); [lia|].
    replace (n - 1 + 1) with n by lia. unfold run_end. by rewrite nd_insert.
Qed.

Lemma push_loose q A FL SL s n : pool_ok q A FL SL → one_loose A s n →
  ∃ N, push_free q (AtPage s) (n - 1) = Some (set_nodes q N) ∧
    pool_ok (set_nodes q N) (<[s := SFree n]> A) (s :: FL) SL.
Proof.
  intros HP [Hs H1]. destruct (run_pages _ _ _ _ _ _ HP Hs) as (S0 & S1 & S2 & Hd & Hno).
  destruct (ok_segs _ _ _ _ HP _ _ Hs) as (Hsl & Hbl). simpl in S1, S2, Hd, Hno.
  pose proof (ok_tiles _ _ _ _ HP) as HT. pose proof (ok_free _ _ _ _ HP) as HR.
  assert (HsF : AtPage s ∉ free_ring FL).
  { intros [k Hk]%(free_ring_pages _ _ _ _ _ HP). congruence. }
  assert (Hin : ∀ i, s ≤ i < s + n → AtPage i ∉ free_ring FL).
  { intros i Hi. destruct (decide (i = s)) as [->|]; [done|]. apply Hno. lia. }
  set (N1 := ended_nodes (nodes q) s n). set (N := pushed_nodes (nodes q) FL s n).
  exists N. assert (E : push_free q (AtPage s) (n - 1) = Some (set_nodes q N)).
  { apply push_free_spec; [done|set_solver|apply Hd; lia|lia|]. intros Hn.
    split; [|apply Hd; lia]. intros Hx. apply (Hno (s + (n - 1))); [lia|]. by right. }
  split; [done|].
  assert (Ha : AtFree ∈ free_ring FL) by (by left).
  assert (Hc : succ AtFree (AtPage <$> FL) ∈ free_ring FL) by apply succ_in.
  assert (T1 : ntouch (nodes q) N1 s (s + n) (free_ring FL)).
  { subst N1. unfold ended_nodes. destruct (n - 1 =? 0); [apply ntouch_refl|]. apply ntouch_insert. simpl. lia. }
  assert (T : ntouch (nodes q) N s (s + n) (free_ring FL)).
  { eapply (ntouch_trans _ N1); [done|]. apply ntouch_between; [by left|right; simpl; lia|by left]. }
  assert (Hold : ∀ s' g, A !! s' = Some g → s' ≠ s → s' + seg_len g ≤ s ∨ s + n ≤ s').
  { intros s' g Hg Hne. destruct (Z.lt_total s' s) as [?|[?|?]]; [left|done|right]; by eapply (tile_apart _ _ HT _ _ _ _ Hg Hs) || by eapply (tile_apart _ _ HT _ _ _ _ Hs Hg). }
  eapply (free_step q _ A _ FL _ SL s (s + n)); [done|by apply touches_nodes|..].
  - intros s' shift C Hg. apply (Hold _ _ Hg). intros ->. by simplify_eq.
  - intros s' shift C. destruct (decide (s = s')) as [->|]; [|by rewrite lookup_insert_ne].
    rewrite lookup_insert_eq. split; intros; by simplify_eq.
  - by eapply tiles_update.
  - intros s' g [[<- <-]|[Hne Hg]]%lookup_insert_Some; [right|left; auto]. apply pushed_seg; [by split|done..].
  - cbn [nodes set_nodes]. rewrite fmap_cons. subst N. apply (ring_between N1 0 AtFree [] (AtPage s) (AtPage <$> FL)).
    + eapply (ring_ntouch (nodes q) N1 _ _ _ s (s + n) []); [| |done].
      * subst N1. unfold ended_nodes. destruct (n - 1 =? 0); [apply ntouch_refl|]. apply ntouch_insert. simpl. lia.
      * intros [| |i] Hx; (split; [|set_solver]); try done. simpl.
        destruct (decide (i < s ∨ s + n ≤ i)); [done|]. exfalso. apply (Hin i); [lia|done].
    + done.
    + apply T1, Hd. lia.
  - intros i. rewrite elem_of_cons, (ok_FL _ _ _ _ HP). split.
    + intros [->|[k Hk]]; [exists n; by rewrite lookup_insert_eq|]. exists k.
      rewrite lookup_insert_ne; [done|]. intros ->. congruence.
    + intros [k [[<- _]|[_ Hk]]%lookup_insert_Some]; [by left|right; by eexists].
Qed.

Definition freed A s A' : Prop :=
  (∀ i g, busy g = true → A' !! i = Some g ↔ i ≠ s ∧ A !! i = Some g) ∧
  coalesced A' ∧ ∀ i n, A' !! i ≠ Some (SLoose n).

(** [join_next], [join_prev] and [push_free] return a loose run to the free ones. *)
Lemma release_loose q A FL SL s n : pool_ok q A FL SL → one_loose A s n → coalesced A →
  ∃ N A' FL', (r ← join_next q (AtPage s) (n - 1); r ← join_prev r.1 (AtPage s) r.2;
      push_free r.1.1 r.2 r.1.2) = Some (set_nodes q N) ∧
    pool_ok (set_nodes q N) A' FL' SL ∧ same_busy A A' ∧ coalesced A' ∧
    ∀ i m, A' !! i ≠ Some (SLoose m).
Proof.
  intros HP H1 Hco.
  destruct (join_next_spec _ _ _ _ _ _ HP H1 Hco) as (N1 & A1 & FL1 & n1 & -> & HP1 & H1' & Hco1 & Hb1 & Hx1).
  bind_simpl. cbn [fst snd].
  destruct (join_prev_spec _ _ _ _ _ _ HP1 H1' Hco1 Hx1)
    as (N2 & A2 & FL2 & s2 & n2 & -> & HP2 & H2 & Hco2 & Hb2 & Hx2 & Hp2).
  bind_simpl. cbn [fst snd]. destruct (push_loose _ _ _ _ _ _ HP2 H2) as (N3 & -> & HP3).
  exists N3, (<[s2 := SFree n2]> A2), (s2 :: FL2). destruct H2 as [Hs2 Hu2]. split_and!; [done..| | |].
  - intros i g Hg. rewrite <-(Hb1 i g Hg), <-(Hb2 i g Hg). destruct (decide (s2 = i)) as [->|].
    + rewrite lookup_insert_eq. split; intros; by simplify_eq.
    + by rewrite lookup_insert_ne.
  - intros i k k' [[<- [= <-]]|[Hi1 Hi]]%lookup_insert_Some [[E [= <-]]|[Hj1 Hj]]%lookup_insert_Some.
    + pose proof (tile_in _ _ (ok_tiles _ _ _ _ HP2) _ _ Hs2). simpl in *. lia.
    + by eapply Hx2.
    + by eapply (Hp2 i k).
    + by apply (Hco2 _ _ _ Hi Hj).
  - intros i k [[_ ?]|[Hne Hi]]%lookup_insert_Some; [done|]. by apply Hu2 in Hi.
Qed.

Lemma loose_after A s g n : A !! s = Some g → busy g = true → coalesced A → (∀ i m, A !! i ≠ Some (SLoose m)) →
  one_loose (<[s := SLoose n]> A) s n ∧ coalesced (<[s := SLoose n]> A) ∧
  ∀ i g', busy g' = true → <[s := SLoose n]> A !! i = Some g' ↔ i ≠ s ∧ A !! i = Some g'.
Proof.
  intros Hs Hb Hco Hnl. split_and!.
  - split; [by rewrite lookup_insert_eq|]. intros i m [[? _]|[_ Hi]]%lookup_insert_Some; [done|by apply Hnl in Hi].
  - intros i k k' [[_ ?]|[_ Hi]]%lookup_insert_Some [[_ ?]|[_ Hj]]%lookup_insert_Some; [done..|].
    by apply (Hco _ _ _ Hi Hj).
  - intros i g' Hg'. rewrite lookup_insert_Some. split; [|naive_solver]. intros [[_ <-]|[? ?]]; [done|auto].
Qed.

(** Segments other than the one at [s] keep clear of it. *)
Lemma free_pages_user q A FL SL s n : pool_ok q A FL SL → A !! s = Some (SUser n) → coalesced A →
  (∀ i m, A !! i ≠ Some (SLoose m)) → ∃ N A' FL', ngx_slab_free_pages q (AtPage s) n = Some (set_nodes q N) ∧
    pool_ok (set_nodes q N) A' FL' SL ∧ freed A s A'.
Proof.
  intros HP Hs Hco Hnl. destruct (run_pages _ _ _ _ _ _ HP Hs) as (S0 & S1 & S2 & Hd & _).
  destruct (ok_segs _ _ _ _ HP _ _ Hs) as (Hu & Hbu). simpl in S1, S2, Hd, Hu, Hbu.
  pose proof (last_small _ (ok_params _ _ _ _ HP)). pose proof (ok_tiles _ _ _ _ HP) as HT.
  set (N1 := <[AtPage s := mkPage n None (None, NGX_SLAB_PAGE)]> (nodes q)).
  set (N2 := fill null_page (Z.to_nat (n - 1)) (s + 1) N1).
  destruct (fill_spec null_page (Z.to_nat (n - 1)) (s + 1) N1) as [F1 F2]. fold N2 in F1, F2.
  assert (T : ntouch (nodes q) N2 s (s + n) []).
  { apply (ntouch_trans _ N1); [apply ntouch_insert; simpl; lia|]. eapply ntouch_mono; [done|lia..|done]. }
  assert (Hhd : nd N2 (AtPage s) = mkPage n None (None, NGX_SLAB_PAGE)).
  { rewrite (nt_node _ _ _ _ _ F2) by (simpl; lia || set_solver). apply nd_insert. }
  destruct (loose_after _ _ _ n Hs eq_refl Hco Hnl) as (H1 & Hco1 & Hb1).
  assert (HP1 : pool_ok (set_nodes q N2) (<[s := SLoose n]> A) FL SL).
  { apply (pool_ok_step q _ A _ FL _ SL _ s (s + n) []); [done|by apply touches_nodes|set_solver|..].
    - by eapply tiles_update.
    - intros s' g [[<- <-]|[Hne Hg]]%lookup_insert_Some; [right|left].
      + split; cbn [nodes set_nodes]; [by rewrite Hhd|]. intros i Hi. rewrite F1 by lia. done.
      + split; [done|]. by apply (tile_other _ _ _ _ _ _ HT Hs Hg).
    - eapply ring_ntouch; [done| |apply (ok_free _ _ _ _ HP)]. intros x Hx. split; [|set_solver].
      destruct x as [| |i]; [done..|]. apply (free_ring_pages _ _ _ _ _ HP) in Hx as [k Hk]. simpl.
      destruct (tile_in _ _ HT _ _ Hk) as (_ & ? & _). simpl in *.
      destruct (tile_other _ _ _ _ _ _ HT Hs Hk) as [?|?]; [congruence|simpl in *; lia..].
    - intros i. rewrite (ok_FL _ _ _ _ HP). split; intros [k Hk]; exists k.
      + rewrite lookup_insert_ne; [done|congruence].
      + by apply lookup_insert_Some in Hk as [[_ ?]|[_ ?]].
    - intros shift Hsh. eapply slots_step; [done|by apply touches_nodes|set_solver| |done].
      intros i sh C Hi. destruct (tile_other _ _ _ _ _ _ HT Hs Hi) as [?|?]; [congruence|simpl in *; lia..].
    - intros shift i Hsh. rewrite (ok_SL _ _ _ _ HP) by done. split; intros (C & HC & Hf); exists C; (split; [|done]).
      + rewrite lookup_insert_ne; [done|congruence].
      + by apply lookup_insert_Some in HC as [[_ ?]|[_ ?]]. }
  destruct (release_loose _ _ _ _ _ _ HP1 H1 Hco1) as (N & A' & FL' & E & HP' & Hb' & Hco' & Hnl').
  exists N, A', FL'. split_and!; [|done|].
  - unfold ngx_slab_free_pages. rewrite upd_nd by (apply Hd; lia). bind_simpl. cbv zeta.
    rewrite uwrap_small by lia. rewrite Hu. unfold set_slab. cbn [next prev]. fold N1.
    assert ((if n - 1 =? 0 then Some (set_nodes q N1) else
      (y ← page_plus (AtPage s) 1; zero_pages (Z.to_nat (n - 1)) (set_nodes q N1) y)) = Some (set_nodes q N2)) as ->.
    { destruct (Z.eqb_spec (n - 1) 0) as [Hz|]; [subst N2; by rewrite Hz|].
      cbn [page_plus]. bind_simpl. rewrite zero_pages_fill; [done|].
      intros j Hj. apply there_insert, Hd. lia. }
    bind_simpl. rewrite get_nd by (apply T, Hd; lia). bind_simpl. cbn [nodes set_nodes]. rewrite Hhd. cbn [next].
    bind_simpl. exact E.
  - split_and!; [|done..]. intros i g Hg. by rewrite (Hb' i g Hg), Hb1.
Qed.

Definition slot_ring q (SL : Z → list Z) (shift : Z) : list pptr := slot_of q shift :: (AtPage <$> SL shift).

Lemma slot_ring_pages q A FL SL shift i : pool_ok q A FL SL → min_shift q ≤ shift ≤ 11 →
  AtPage i ∈ slot_ring q SL shift → ∃ C, A !! i = Some (SSlot shift C) ∧ full shift C = false.
Proof.
  intros HP Hsh [|Hx]%elem_of_cons; [done|]. apply list_elem_of_fmap in Hx as (j & [= ->] & Hj).
  by apply (ok_SL _ _ _ _ HP).
Qed.

(** A page of one slot size and the list of that size change: the other lists do not. *)
Lemma other_rings q A FL SL N s g shift L : pool_ok q A FL SL → A !! s = Some g →
  (match g with SUser _ => seg_len g = 1 | SSlot sh _ => sh = shift | _ => False end) →
  min_shift q ≤ shift ≤ 11 → ntouch (nodes q) N s (s + 1) L → (∀ x, x ∈ L → x ∈ slot_ring q SL shift) →
  ring N 0 AtFree (AtPage <$> FL) ∧
  ∀ sh, min_shift q ≤ sh ≤ 11 → sh ≠ shift → ring N (slot_type sh) (slot_of q sh) (AtPage <$> SL sh).
Proof.
  intros HP Hs Hg Hsh HT HL. split.
  - eapply ring_ntouch; [done| |apply (ok_free _ _ _ _ HP)]. intros [| |i] Hx.
    + split; [done|]. intros [|(? & ? & _)%list_elem_of_fmap]%HL%elem_of_cons; done.
    + set_solver.
    + apply (free_ring_pages _ _ _ _ _ HP) in Hx as [n Hn]. split.
      * simpl. destruct (decide (i = s)) as [->|]; [|lia]. by simplify_eq.
      * intros (C & HC & _)%HL%(slot_ring_pages _ _ _ _ _ _ HP Hsh). congruence.
  - intros sh Hsh' Hne. eapply ring_ntouch; [done| |by apply (ok_slots _ _ _ _ HP)].
    intros [|k|i] Hx.
    + set_solver.
    + apply elem_of_cons in Hx as [Hk|(? & ? & _)%list_elem_of_fmap]; [|done].
      split; [done|]. intros [Hk'|(? & ? & _)%list_elem_of_fmap]%HL%elem_of_cons; [|done].
      unfold slot_of in *. rewrite Hk in Hk'. injection Hk'. lia.
    + apply (slot_ring_pages _ _ _ _ _ _ HP Hsh') in Hx as (C & HC & _). split.
      * simpl. destruct (decide (i = s)) as [->|]; [|lia]. by simplify_eq.
      * intros (C' & HC' & _)%HL%(slot_ring_pages _ _ _ _ _ _ HP Hsh). congruence.
Qed.

Lemma SL_split q A FL SL s shift C : pool_ok q A FL SL → A !! s = Some (SSlot shift C) →
  full shift C = false → min_shift q ≤ shift ≤ 11 ∧ ∃ l1 l2, SL shift = l1 ++ s :: l2 ∧ NoDup (l1 ++ s :: l2) ∧
    ring (nodes q) (slot_type shift) (slot_of q shift) ((AtPage <$> l1) ++ AtPage s :: (AtPage <$> l2)).
Proof.
  intros HP Hs Hf. pose proof (slot_shift _ _ _ _ (ok_segs _ _ _ _ HP _ _ Hs)) as Hsh. split; [done|].
  assert (s ∈ SL shift) as (l1 & l2 & E)%list_elem_of_split by (apply (ok_SL _ _ _ _ HP); eauto).
  pose proof (ok_slots _ _ _ _ HP shift Hsh) as HR. rewrite E in HR. exists l1, l2. split_and!; [done| |].
  - pose proof (ring_nodup _ _ _ _ HR) as Hnd. apply NoDup_cons in Hnd as [_ Hnd]. by apply NoDup_fmap_1 in Hnd.
  - by rewrite fmap_app, fmap_cons in HR.
Qed.

(** A page leaves the list of its slot. *)
Lemma slot_unlink q SL shift s l1 l2 : SL shift = l1 ++ s :: l2 →
  ring (nodes q) (slot_type shift) (slot_of q shift) ((AtPage <$> l1) ++ AtPage s :: (AtPage <$> l2)) →
  ∃ N, unlink q (AtPage s) = Some (set_nodes q N) ∧
    ring N (slot_type shift) (slot_of q shift) (AtPage <$> (l1 ++ l2)) ∧
    (∀ lo hi, ntouch (nodes q) N lo hi (slot_ring q SL shift)) ∧ nd N (AtPage s) = nd (nodes q) (AtPage s).
Proof.
  intros E HR. destruct (ring_member _ _ _ _ _ _ HR) as (_ & _ & _ & _ & _ & Ha & Hc).
  rewrite (unlink_spec _ _ _ _ _ _ HR). eexists. split; [done|]. split_and!.
  - rewrite fmap_app. by eapply ring_bridge.
  - intros lo hi. pose proof (last_in (slot_of q shift) (AtPage <$> l1)).
    pose proof (succ_in (slot_of q shift) (AtPage <$> l2)).
    apply ntouch_bridge; left; unfold slot_ring; rewrite E, fmap_app, fmap_cons; set_solver.
  - unfold bridge. by rewrite !nd_insert_ne by done.
Qed.

Lemma nodup_mid_out (l1 l2 : list Z) s : NoDup (l1 ++ s :: l2) → ∀ i, i ∈ l1 ++ l2 ↔ i ≠ s ∧ i ∈ l1 ++ s :: l2.
Proof.
  intros (_ & Hdj & Hnd)%NoDup_app i. apply NoDup_cons in Hnd as [Hs _]. specialize (Hdj s).
  rewrite !elem_of_app, elem_of_cons. split; [|naive_solver]. intros Hi. split; [|naive_solver].
  intros ->. set_solver.
Qed.

Lemma free_pages_slot q A FL SL s shift C : pool_ok q A FL SL → A !! s = Some (SSlot shift C) →
  full shift C = false → coalesced A → (∀ i m, A !! i ≠ Some (SLoose m)) →
  ∃ N A' FL' SL', ngx_slab_free_pages q (AtPage s) 1 = Some (set_nodes q N) ∧
    pool_ok (set_nodes q N) A' FL' SL' ∧ freed A s A'.
Proof.
  intros HP Hs Hf Hco Hnl. destruct (run_pages _ _ _ _ _ _ HP Hs) as (S0 & S1 & S2 & Hd & _). simpl in S1, S2, Hd.
  pose proof (ok_tiles _ _ _ _ HP) as HT.
  destruct (SL_split _ _ _ _ _ _ _ HP Hs Hf) as (Hsh & l1 & l2 & E & Hnd & HR).
  set (N1 := <[AtPage s := set_slab 1 (nd (nodes q) (AtPage s))]> (nodes q)).
  assert (HR1 : ring N1 (slot_type shift) (slot_of q shift) ((AtPage <$> l1) ++ AtPage s :: (AtPage <$> l2))).
  { eapply ring_frame; [..|done]; try (intros; by apply there_insert);
      intros x _; subst N1; rewrite nd_insert_if; case_decide as Ex; by rewrite <-?Ex. }
  destruct (slot_unlink (set_nodes q N1) SL shift s l1 l2 E HR1) as (N2 & U & R2 & T2 & Hn2).
  assert (T : ntouch (nodes q) N2 s (s + 1) (slot_ring q SL shift)).
  { apply (ntouch_trans _ N1); [apply ntouch_insert; simpl; lia|]. apply T2. }
  destruct (other_rings _ _ _ _ _ _ _ shift _ HP Hs eq_refl Hsh T) as [RF RS]; [done|].
  destruct (loose_after _ _ _ 1 Hs eq_refl Hco Hnl) as (H1 & Hco1 & Hb1).
  set (SL' := <[shift := l1 ++ l2]> SL).
  assert (HP1 : pool_ok (set_nodes q N2) (<[s := SLoose 1]> A) FL SL').
  { apply (pool_ok_step q _ A _ FL _ SL _ s (s + 1) (slot_ring q SL shift)); [done|by apply touches_nodes|..].
    - intros i (C' & HC & Hf')%(slot_ring_pages _ _ _ _ _ _ HP Hsh). eexists. split; [done|]. simpl. by rewrite Hf'.
    - by eapply tiles_update.
    - intros s' g [[<- <-]|[Hne Hg]]%lookup_insert_Some; [right|left].
      + split; cbn [nodes set_nodes]; [|lia]. rewrite Hn2. cbn [nodes set_nodes]. subst N1. by rewrite nd_insert.
      + split; [done|]. by apply (tile_other _ _ _ _ _ _ HT Hs Hg).
    - done.
    - intros i. rewrite (ok_FL _ _ _ _ HP). split; intros [k Hk]; exists k.
      + rewrite lookup_insert_ne; [done|congruence].
      + by apply lookup_insert_Some in Hk as [[_ ?]|[_ ?]].
    - intros sh Hsh'. subst SL'. destruct (decide (sh = shift)) as [->|]; [by rewrite fn_lookup_insert|].
      rewrite fn_lookup_insert_ne by done. by apply RS.
    - intros sh i Hsh'. subst SL'. destruct (decide (sh = shift)) as [->|].
      + rewrite fn_lookup_insert, (nodup_mid_out _ _ _ Hnd), <-E, (ok_SL _ _ _ _ HP) by done. split.
        * intros [Hi (C' & HC & Hf')]. exists C'. by rewrite lookup_insert_ne.
        * intros (C' & [[_ ?]|[Hi HC]]%lookup_insert_Some & Hf'); [done|]. eauto.
      + rewrite fn_lookup_insert_ne, (ok_SL _ _ _ _ HP) by done. split.
        * intros (C' & HC & Hf'). exists C'. rewrite lookup_insert_ne; [done|congruence].
        * intros (C' & [[_ ?]|[Hi HC]]%lookup_insert_Some & Hf'); [done|]. eauto. }
  destruct (release_loose _ _ _ _ _ _ HP1 H1 Hco1) as (N & A' & FL' & Er & HP' & Hb' & Hco' & Hnl').
  exists N, A', FL', SL'. split_and!; [|done|].
  - unfold ngx_slab_free_pages. rewrite upd_nd by (apply Hd; lia). bind_simpl. fold N1.
    change (u64 (1 - 1)) with 0. cbv zeta. rewrite Z.eqb_refl. bind_simpl.
    destruct (ring_member _ _ _ _ _ _ HR1) as (_ & Hnx & S & _).
    rewrite get_nd by done. bind_simpl. cbn [nodes set_nodes]. rewrite Hnx. rewrite U. bind_simpl. exact Er.
  - split_and!; [|done..]. intros i g Hg. by rewrite (Hb' i g Hg), Hb1.
Qed.
