(* ===== verification/SlabChunks.v ===== *)
(** * The slab allocator: the chunks of a page

    Taking and returning a chunk of a page: the bitmaps in the pages and in the
    descriptors, the scans for a free chunk, and the lists of pages with free chunks. *)

From stdpp Require Import functions.
From S2P Require Import Prelude Words Slab SlabList SlabPages.

Implicit Types (q : ngx_slab_pool_t) (s i n m c : Z) (A : layout) (C : gset Z).

(** ** Sizes *)

Lemma exact_shift_6 : ngx_slab_exact_shift = 6.
Proof. done. Qed.

Lemma shift_cases shift : 3 ≤ shift ≤ 11 →
  shift = 3 ∨ shift = 4 ∨ shift = 5 ∨ shift = 6 ∨ shift = 7 ∨ shift = 8 ∨ shift = 9 ∨ shift = 10 ∨ shift = 11.
Proof. lia. Qed.

(** The chunks fill the page, and the bitmap does not fill it. *)
Lemma chunk_sizes shift : 3 ≤ shift ≤ 11 → nchunks shift * 2 ^ shift = 4096 ∧
  0 ≤ reserved shift ∧ reserved shift + 1 < nchunks shift ∧
  2 ≤ nchunks shift ≤ 512 ∧ 8 ≤ 2 ^ shift ≤ 2048.
Proof. intros [->|[->|[->|[->|[->|[->|[->|[->| ->]]]]]]]]%shift_cases; by vm_compute. Qed.

Lemma big_chunks shift : 7 ≤ shift ≤ 11 → nchunks shift ≤ 32 ∧ reserved shift = 0 ∧
  big_mask shift = Z.ones (nchunks shift) ≪ 32.
Proof.
  intros Hs. assert (3 ≤ shift ≤ 11) as H3 by lia. revert Hs.
  destruct (shift_cases _ H3) as [->|[->|[->|[->|[->|[->|[->|[->| ->]]]]]]]]; intros; try lia; by vm_compute.
Qed.

Lemma full_true shift C : full shift C = true ↔ ∀ c, reserved shift ≤ c < nchunks shift → c ∈ C.
Proof.
  unfold full. rewrite List.forallb_forall. split.
  - intros H c Hc. specialize (H c). rewrite <-list_elem_of_In, elem_of_seqZ in H.
    specialize (H ltac:(lia)). by apply bool_decide_eq_true in H.
  - intros H c Hc%list_elem_of_In%elem_of_seqZ. apply bool_decide_eq_true, H. lia.
Qed.

Lemma full_false shift C : full shift C = false ↔ ∃ c, reserved shift ≤ c < nchunks shift ∧ c ∉ C.
Proof.
  split.
  - intros Hf. destruct (decide (Exists (λ c, c ∉ C) (seqZ (reserved shift) (nchunks shift - reserved shift)))) as [He|He].
    + apply Exists_exists in He as (c & Hc%elem_of_seqZ & Hn). exists c. split; [lia|done].
    + apply not_true_iff_false in Hf as []. apply full_true. intros c Hc.
      destruct (decide (c ∈ C)); [done|]. destruct He. apply Exists_exists. exists c.
      split; [apply elem_of_seqZ; lia|done].
  - intros (c & Hc & Hn). apply not_true_iff_false. rewrite full_true. intros H. by apply Hn, H.
Qed.

(** ** Setting and clearing the bit of a chunk *)

Definition put_bit (v : bool) (w i : Z) : Z := if v then Z.setbit w i else Z.clearbit w i.

Lemma put_bit_test v w i j : 0 ≤ i → 0 ≤ j → Z.testbit (put_bit v w i) j = if i =? j then v else Z.testbit w j.
Proof.
  intros Hi Hj. destruct v; simpl.
  - rewrite Z.setbit_eqb by done. by destruct (i =? j).
  - rewrite Z.clearbit_eqb. destruct (i =? j); [by rewrite andb_false_r|by rewrite andb_true_r].
Qed.

Lemma put_bit_range v w i b : 0 ≤ i < b → 0 ≤ w < 2 ^ b → 0 ≤ put_bit v w i < 2 ^ b.
Proof.
  intros Hi Hw. assert (put_bit v w i = uwrap b (put_bit v w i)) as ->; [|apply uwrap_range; lia].
  apply Z.bits_inj'. intros j Hj. rewrite testbit_uwrap, put_bit_test by lia.
  destruct (Z.ltb_spec j b); [done|]. destruct (Z.eqb_spec i j); [lia|]. by apply (testbit_small w b).
Qed.

(** The store of a bit by slab.c. *)
Lemma lor_put w i : 0 ≤ i < 64 → Z.lor w (1 ≪ i) = put_bit true w i.
Proof. done. Qed.

Lemma land_put w i : 0 ≤ i < 64 → 0 ≤ w < 2 ^ 64 → Z.land w (unot 64 (1 ≪ i)) = put_bit false w i.
Proof.
  intros Hi Hw. apply Z.bits_inj'. intros j Hj. rewrite (testbit_clear 64), put_bit_test by lia.
  destruct (i =? j); simpl; [by rewrite andb_false_r|by rewrite andb_true_r].
Qed.

(** The pool with the bit of chunk [c] of page [s] set to [v]. *)
Definition put_chunk q s shift c (v : bool) : ngx_slab_pool_t :=
  if shift <? 6 then
    let a := page_addr q s + 8 * (c / 64) in set_mem q (<[a := put_bit v (word q a) (c mod 64)]> (mem q))
  else
    set_nodes q (<[AtPage s := set_slab (put_bit v (slab (nd (nodes q) (AtPage s))) (if shift =? 6 then c else 32 + c))
      (nd (nodes q) (AtPage s))]> (nodes q)).

(** [slot_ok] without the links. *)
Record bits_ok q s shift C : Prop := {
  bits_shift : min_shift q ≤ shift ≤ 11;
  bits_form : slab_form q s shift;
  bits_bits c : 0 ≤ c < nchunks shift → chunk_bit q s shift c = (c <? reserved shift) || bool_decide (c ∈ C);
  bits_chunks c : c ∈ C → reserved shift ≤ c < nchunks shift
}.

Lemma slot_bits_ok q s shift C : slot_ok q s shift C → bits_ok q s shift C.
Proof. intros []. by split. Qed.

Lemma bits_slot_ok q s shift C : bits_ok q s shift C → (full shift C = true →
  next (nd (nodes q) (AtPage s)) = None ∧ prev (nd (nodes q) (AtPage s)) = (None, slot_type shift)) → slot_ok q s shift C.
Proof. intros []. by split. Qed.

Lemma word_set_mem q a b v : word (set_mem q (<[a := v]> (mem q))) b = if decide (a = b) then v else word q b.
Proof. unfold word. simpl. case_decide; [subst; by rewrite lookup_insert_eq|by rewrite lookup_insert_ne]. Qed.

Lemma put_chunk_word q s shift c v a : word (put_chunk q s shift c v) a =
  if (shift <? 6) && bool_decide (a = page_addr q s + 8 * (c / 64)) then put_bit v (word q a) (c mod 64) else word q a.
Proof.
  unfold put_chunk. destruct (shift <? 6); [|done]. cbv zeta. rewrite word_set_mem. simpl.
  case_decide as E; case_bool_decide as E'; subst; done.
Qed.

Lemma put_chunk_touches q s shift c v : 3 ≤ shift → 0 ≤ c < nchunks shift → touches q (put_chunk q s shift c v) s (s + 1) [].
Proof.
  intros H3 Hc. assert (shift < 6 → 0 ≤ c / 64 < 8) as Hd.
  { intros. pose proof (small_map_range shift ltac:(lia)).
    split; [apply Z.div_pos; lia|apply Z.div_lt_upper_bound; lia]. }
  destruct (Z.ltb_spec shift 6) as [Hs|Hs]; unfold put_chunk;
    [rewrite (proj2 (Z.ltb_lt _ _)) by done|rewrite (proj2 (Z.ltb_ge _ _)) by done].
  - split; try done. intros a. cbv zeta. rewrite word_set_mem. case_decide; [|by right].
    left. unfold page_addr in *. lia.
  - apply touches_nodes, ntouch_insert. simpl. lia.
Qed.

Lemma put_chunk_links q s shift c v x : next (nd (nodes (put_chunk q s shift c v)) x) = next (nd (nodes q) x) ∧
  prev (nd (nodes (put_chunk q s shift c v)) x) = prev (nd (nodes q) x).
Proof.
  unfold put_chunk. destruct (shift <? 6); [done|]. cbn [nodes set_nodes]. rewrite nd_insert_if.
  case_decide as E; [|done]. by rewrite <-E.
Qed.

Lemma same_bit c d : c / 64 = d / 64 → c mod 64 = d mod 64 → c = d.
Proof. intros H1 H2. rewrite (Z.div_mod c 64), (Z.div_mod d 64) by lia. lia. Qed.

Lemma put_chunk_bit q s shift c v d : 3 ≤ shift ≤ 11 → 0 ≤ c → 0 ≤ d →
  chunk_bit (put_chunk q s shift c v) s shift d = if c =? d then v else chunk_bit q s shift d.
Proof.
  intros Hsh Hc Hd. unfold chunk_bit. destruct (Z.ltb_spec shift 6) as [Hs|Hs].
  - assert (Hp : page_addr (put_chunk q s shift c v) s = page_addr q s).
    { unfold put_chunk. by rewrite (proj2 (Z.ltb_lt _ _)) by done. }
    rewrite Hp, put_chunk_word, (proj2 (Z.ltb_lt _ _)) by done. simpl.
    pose proof (Z.mod_pos_bound c 64). pose proof (Z.mod_pos_bound d 64).
    case_bool_decide as E.
    + rewrite put_bit_test by lia. destruct (Z.eqb_spec c d) as [->|Hne]; [by rewrite Z.eqb_refl|].
      destruct (Z.eqb_spec (c mod 64) (d mod 64)) as [E'|]; [|done]. destruct Hne. apply same_bit; lia.
    + destruct (Z.eqb_spec c d) as [->|Hne]; [lia|done].
  - unfold put_chunk. rewrite (proj2 (Z.ltb_ge _ _)) by done. cbn [nodes set_nodes].
    rewrite nd_insert. cbn [slab set_slab]. rewrite put_bit_test by (destruct (shift =? 6); lia).
    destruct (shift =? 6), (Z.eqb_spec c d) as [->|]; rewrite ?Z.eqb_refl; try done;
      (destruct (Z.eqb_spec (32 + c) (32 + d)); [lia|done]).
Qed.

Lemma put_chunk_form q s shift c v : 3 ≤ shift ≤ 11 → 0 ≤ c < nchunks shift →
  slab_form q s shift → slab_form (put_chunk q s shift c v) s shift.
Proof.
  intros Hsh Hc. unfold slab_form.
  assert (Hp : page_addr (put_chunk q s shift c v) s = page_addr q s).
  { unfold put_chunk. by destruct (shift <? 6). }
  rewrite Hp. destruct (Z.ltb_spec shift 6) as [Hs|Hs].
  - assert (Hn : nodes (put_chunk q s shift c v) = nodes q).
    { unfold put_chunk. by rewrite (proj2 (Z.ltb_lt _ _)) by done. }
    rewrite Hn. intros [-> Hw]. split; [done|]. intros k Hk. rewrite put_chunk_word.
    destruct ((shift <? 6) && _); [|by apply Hw].
    apply put_bit_range; [|by apply Hw]. apply Z.mod_pos_bound. lia.
  - unfold put_chunk. rewrite (proj2 (Z.ltb_ge _ _)) by done. cbn [nodes set_nodes].
    rewrite nd_insert. cbn [slab set_slab]. destruct (Z.eqb_spec shift 6) as [->|Hne].
    + change (nchunks 6) with 64 in Hc. by apply put_bit_range.
    + intros [Hr Hm]. split; [apply put_bit_range; lia|]. rewrite <-Hm.
      apply Z.bits_inj'. intros j Hj. rewrite !Z.testbit_mod_pow2 by lia.
      destruct (Z.ltb_spec j 32); [|done]. rewrite put_bit_test by lia.
      by destruct (Z.eqb_spec (32 + c) j); [lia|].
Qed.

Lemma put_chunk_ok q s shift C c (v : bool) : 3 ≤ min_shift q → bits_ok q s shift C → reserved shift ≤ c < nchunks shift →
  bits_ok (put_chunk q s shift c v) s shift (if v then {[c]} ∪ C else C ∖ {[c]}).
Proof.
  intros H3 [Hsh Hf Hb Hr] Hc. destruct (chunk_sizes shift) as (_ & Hres & _); [lia|].
  assert (Hmin : min_shift (put_chunk q s shift c v) = min_shift q).
  { unfold put_chunk. by destruct (shift <? 6). }
  split.
  - by rewrite Hmin.
  - apply put_chunk_form; [lia|lia|done].
  - intros d Hd. rewrite put_chunk_bit, Hb by lia. destruct (Z.eqb_spec c d) as [->|Hne].
    + rewrite (proj2 (Z.ltb_ge _ _)) by lia. destruct v; symmetry; simpl; [apply bool_decide_eq_true|apply bool_decide_eq_false]; set_solver.
    + f_equal. apply bool_decide_ext. destruct v; set_solver.
  - intros d Hd. destruct v; [|apply Hr; set_solver].
    apply elem_of_union in Hd as [->%elem_of_singleton|Hd]; [done|by apply Hr].
Qed.

(** ** A page and the list of its slot *)

(** The page [s] gets the chunks [C'] in use, and [l'] becomes the list of its slot. *)
Lemma slot_change q q' A FL SL s g shift C' l' L : pool_ok q A FL SL → A !! s = Some g →
  (match g with SUser _ => seg_len g = 1 | SSlot sh _ => sh = shift | _ => False end) →
  min_shift q ≤ shift ≤ 11 → touches q q' s (s + 1) L → (∀ x, x ∈ L → x ∈ slot_ring q SL shift) →
  slot_ok q' s shift C' → ring (nodes q') (slot_type shift) (slot_of q shift) (AtPage <$> l') →
  (∀ i, i ∈ l' ↔ (i = s ∧ full shift C' = false) ∨ (i ≠ s ∧ i ∈ SL shift)) →
  pool_ok q' (<[s := SSlot shift C']> A) FL (<[shift := l']> SL).
Proof.
  intros HP Hs Hg Hsh HT HL Hok HR Hl. pose proof (ok_tiles _ _ _ _ HP) as Htl.
  assert (HN : ntouch (nodes q) (nodes q') s (s + 1) L) by (destruct HT; by split).
  destruct (other_rings _ _ _ _ _ _ _ shift _ HP Hs Hg Hsh HN HL) as [RF RS].
  assert (Hlen : seg_len g = 1) by (by destruct g).
  apply (pool_ok_step q _ A _ FL _ SL _ s (s + 1) L); [done..| | | | | | |].
  - intros i (C & HC & Hf)%HL%(slot_ring_pages _ _ _ _ _ _ HP Hsh). eexists. split; [done|]. simpl. by rewrite Hf.
  - by eapply tiles_update.
  - intros i g' [[<- <-]|[Hne Hi]]%lookup_insert_Some; [by right|left]. split; [done|].
    pose proof (tile_other _ _ _ _ _ _ Htl Hs Hi) as Ho. rewrite Hlen in Ho. by apply Ho.
  - done.
  - intros i. rewrite (ok_FL _ _ _ _ HP). split; intros [k Hk]; exists k.
    + rewrite lookup_insert_ne; [done|]. intros <-. simplify_eq. done.
    + by apply lookup_insert_Some in Hk as [[_ ?]|[_ ?]].
  - intros sh Hsh'. destruct (decide (sh = shift)) as [->|]; [by rewrite fn_lookup_insert|].
    rewrite fn_lookup_insert_ne by done. by apply RS.
  - intros sh i Hsh'. destruct (decide (sh = shift)) as [->|Hne].
    + rewrite fn_lookup_insert, Hl, (ok_SL _ _ _ _ HP) by done. split.
      * intros [[-> Hf]|[Hi (C & HC & Hf)]]; [exists C'; by rewrite lookup_insert_eq|].
        exists C. by rewrite lookup_insert_ne.
      * intros (C & [[<- [= <-]]|[Hi HC]]%lookup_insert_Some & Hf); [by left|right; eauto].
    + rewrite fn_lookup_insert_ne, (ok_SL _ _ _ _ HP) by done. split.
      * intros (C & HC & Hf). exists C. rewrite lookup_insert_ne; [done|]. intros <-. by simplify_eq.
      * intros (C & [[_ [= ? _]]|[Hi HC]]%lookup_insert_Some & Hf); [by subst|eauto].
Qed.

Lemma same_params_trans q q1 q2 : same_params q q1 → same_params q1 q2 → same_params q q2.
Proof. unfold same_params. intros (? & ? & ? & ? & ?) (? & ? & ? & ? & ?). split_and!; congruence. Qed.

Lemma touches_trans q q1 q2 lo hi L : touches q q1 lo hi L → touches q1 q2 lo hi L → touches q q2 lo hi L.
Proof.
  intros HT1 HT2. pose proof (page_addr_touch _ _ _ _ _ lo HT1) as Plo.
  pose proof (page_addr_touch _ _ _ _ _ hi HT1) as Phi. destruct HT1 as [P1 S1 O1 M1 D1], HT2 as [P2 S2 O2 M2 D2]. split.
  - by eapply same_params_trans.
  - intros x Hx. by rewrite S2, S1.
  - intros x Hx Hn. by rewrite O2, O1.
  - intros a. destruct (M2 a) as [H|H]; [left; by rewrite <-Plo, <-Phi|]. rewrite H. apply M1.
  - auto.
Qed.

Lemma touches_mono q q' lo hi L L' : touches q q' lo hi L → L ⊆ L' → touches q q' lo hi L'.
Proof. intros [P S O M D] HL. split; [done..| |done|done]. intros x Hx Hn. apply O; [done|]. intros Hi. by apply Hn, HL. Qed.

(** A chunk is taken from a page. *)
Lemma take_chunk q A FL SL s shift C c : pool_ok q A FL SL → A !! s = Some (SSlot shift C) →
  full shift C = false → reserved shift ≤ c < nchunks shift → c ∉ C →
  let q1 := put_chunk q s shift c true in let C' := {[c]} ∪ C in
  ∃ q2 SL', (if full shift C' then unlink_full q1 (AtPage s) (slot_type shift) else Some q1) = Some q2 ∧
    pool_ok q2 (<[s := SSlot shift C']> A) FL SL' ∧ mem q2 = mem q1 ∧ same_params q q2.
Proof.
  intros HP Hs Hf Hc HcC q1 C'. destruct (SL_split _ _ _ _ _ _ _ HP Hs Hf) as (Hsh & l1 & l2 & E & Hnd & HR).
  pose proof (par_shift _ (ok_params _ _ _ _ HP)) as H3. destruct (chunk_sizes shift) as (_ & Hres & _); [lia|].
  pose proof (slot_bits_ok _ _ _ _ (ok_segs _ _ _ _ HP _ _ Hs)) as HB.
  assert (HB1 : bits_ok q1 s shift C') by (apply (put_chunk_ok _ _ _ _ _ true); [lia|done..]).
  assert (HT1 : touches q q1 s (s + 1) []) by (apply put_chunk_touches; lia).
  assert (HR1 : ring (nodes q1) (slot_type shift) (slot_of q1 shift) ((AtPage <$> l1) ++ AtPage s :: (AtPage <$> l2))).
  { assert (slot_of q1 shift = slot_of q shift) as -> by (unfold slot_of; by rewrite (proj1 (proj2 (touch_par _ _ _ _ _ HT1)))).
    eapply ring_frame; [..|apply HR]; [intros x _; apply put_chunk_links..|apply HT1]. }
  assert (slot_of q1 shift = slot_of q shift) as Hso by (unfold slot_of; by rewrite (proj1 (proj2 (touch_par _ _ _ _ _ HT1)))).
  destruct (full shift C') eqn:Hf'.
  - unfold unlink_full. destruct (slot_unlink q1 SL shift s l1 l2 E HR1) as (N & U & RN & TN & HnN).
    rewrite U. bind_simpl. rewrite upd_nd by (apply (TN s (s + 1)), HT1, (ok_nodes _ _ _ _ HP);
      simpl; pose proof (tile_in _ _ (ok_tiles _ _ _ _ HP) _ _ Hs); simpl in *; lia).
    eexists _, _. split; [done|]. split; [|split; [done|apply HT1]].
    eapply (slot_change q _ A FL SL s _ shift C' (l1 ++ l2) (slot_ring q SL shift)); [done..|exact Hsh| |done| | |].
    + apply (touches_trans _ q1); [eapply touches_mono; [done|set_solver]|].
      apply (touches_nodes q1). eapply ntouch_trans; [|apply ntouch_insert; simpl; lia].
      specialize (TN s (s + 1)). unfold slot_ring in *. by rewrite Hso in TN.
    + apply bits_slot_ok.
      * destruct HB1 as [B1 B2 B3 B4]. split; [done| |intros d Hd; rewrite <-B3 by done|done].
        -- unfold slab_form in *. cbn [nodes set_nodes]. rewrite nd_insert. cbn [slab]. by rewrite HnN.
        -- unfold chunk_bit. cbn [nodes set_nodes]. rewrite nd_insert. cbn [slab]. by rewrite HnN.
      * intros _. cbn [nodes set_nodes]. by rewrite nd_insert.
    + cbn [nodes set_nodes]. apply ring_insert; [|by rewrite <-Hso].
      intros [?|(j & [= <-] & Hj)%list_elem_of_fmap]%elem_of_cons; [done|].
      by apply (nodup_mid_out _ _ _ Hnd) in Hj as [? _].
    + intros i. rewrite (nodup_mid_out _ _ _ Hnd), E. rewrite Hf'. naive_solver.
  - eexists q1, _. split; [done|]. split; [|split; [done|apply HT1]].
    eapply (slot_change q _ A FL SL s _ shift C' (SL shift) []); [done..|exact Hsh|done|set_solver| | |].
    + apply bits_slot_ok; [done|]. congruence.
    + rewrite <-Hso, E, fmap_app, fmap_cons. done.
    + intros i. rewrite Hf', E. destruct (decide (i = s)) as [->|]; [|naive_solver]. set_solver.
Qed.

(** A chunk goes back to its page. *)
Lemma return_chunk q A FL SL s shift C c : pool_ok q A FL SL → A !! s = Some (SSlot shift C) → c ∈ C →
  ∃ q1 SL', (if full shift C then relink q (AtPage s) (shift - min_shift q) (slot_type shift) else Some q) = Some q1 ∧
    pool_ok (put_chunk q1 s shift c false) (<[s := SSlot shift (C ∖ {[c]})]> A) FL SL' ∧
    mem q1 = mem q ∧ touches q q1 s (s + 1) (slot_ring q SL shift) ∧
    slab (nd (nodes q1) (AtPage s)) = slab (nd (nodes q) (AtPage s)).
Proof.
  intros HP Hs HcC. pose proof (ok_segs _ _ _ _ HP _ _ Hs) as Hok. simpl in Hok.
  destruct Hok as [Hsh Hform Hbits Hch Hfull]. pose proof (Hch c HcC) as Hc.
  pose proof (par_shift _ (ok_params _ _ _ _ HP)) as H3. destruct (chunk_sizes shift) as (_ & Hres & _); [lia|].
  assert (Hf' : full shift (C ∖ {[c]}) = false) by (apply full_false; exists c; set_solver).
  assert (HB : bits_ok q s shift C) by (by split).
  pose proof (tile_in _ _ (ok_tiles _ _ _ _ HP) _ _ Hs) as Hin. simpl in Hin.
  assert (Sx : is_Some (nodes q !! AtPage s)) by (apply (ok_nodes _ _ _ _ HP); simpl; lia).
  destruct (full shift C) eqn:Hf.
  - pose proof (ok_slots _ _ _ _ HP shift Hsh) as HR.
    assert (Hx : AtPage s ∉ slot_ring q SL shift).
    { intros (C0 & HC0 & Hf0)%(slot_ring_pages _ _ _ _ _ _ HP Hsh). congruence. }
    rewrite (relink_spec _ _ _ _ _ HR Hx Sx).
    set (N := between (nodes q) (slot_type shift) (AtSlot (shift - min_shift q)) (AtPage s) _).
    assert (HT : ntouch (nodes q) N s (s + 1) (slot_ring q SL shift)).
    { pose proof (succ_in (slot_of q shift) (AtPage <$> SL shift)).
      apply ntouch_between; [left; by left|right; simpl; lia|by left]. }
    assert (Hsl : slab (nd N (AtPage s)) = slab (nd (nodes q) (AtPage s))) by apply between_slab.
    assert (HB1 : bits_ok (set_nodes q N) s shift C).
    { split; [done| |intros d Hd; rewrite <-Hbits by done|done].
      - unfold slab_form in *. cbn [nodes set_nodes]. by rewrite Hsl.
      - unfold chunk_bit. cbn [nodes set_nodes]. by rewrite Hsl. }
    eexists _, _. split; [done|]. split; [|split; [done|split; [by apply touches_nodes|done]]].
    eapply (slot_change q _ A FL SL s _ shift _ (s :: SL shift) (slot_ring q SL shift)); [done..|exact Hsh| |done| | |].
    + eapply touches_trans; [by apply touches_nodes|]. eapply touches_mono; [apply put_chunk_touches; lia|set_solver].
    + apply bits_slot_ok; [|congruence]. apply (put_chunk_ok _ _ _ _ _ false); [simpl; lia|done..].
    + eapply ring_frame with (N := N); [intros x _; apply (put_chunk_links (set_nodes q N))..| |].
      * eapply (touch_dom (set_nodes q N)), put_chunk_touches; lia.
      * rewrite fmap_cons. apply (ring_between _ _ _ [] (AtPage s) (AtPage <$> SL shift)); done.
    + intros i. rewrite Hf', elem_of_cons. destruct (decide (i = s)) as [->|]; naive_solver.
  - eexists q, _. split; [done|]. split; [|split; [done|split; [by split; auto|done]]].
    eapply (slot_change q _ A FL SL s _ shift _ (SL shift) []); [done..|exact Hsh| |set_solver| | |].
    + apply put_chunk_touches; lia.
    + apply bits_slot_ok; [|congruence]. apply (put_chunk_ok _ _ _ _ _ false); [lia|done..].
    + eapply ring_frame; [intros x _; apply put_chunk_links..| |by apply (ok_slots _ _ _ _ HP)].
      eapply touch_dom, put_chunk_touches; lia.
    + intros i. rewrite Hf'. destruct (decide (i = s)) as [->|]; [|naive_solver].
      split; [by left|]. intros _. apply (ok_SL _ _ _ _ HP); eauto.
Qed.

(** ** Finding a chunk *)

Lemma ushl_one k : 0 ≤ k < 64 → ushl 64 1 k = 1 ≪ k.
Proof. intros Hk. unfold ushl. apply uwrap_small, pow2_lt. lia. Qed.

Lemma scan_bit_spec go w b lim j0 : 0 ≤ b → b + lim ≤ 64 → (∀ j, 0 ≤ j < lim → go (1 ≪ (b + j)) = true) →
  Z.testbit w (b + j0) = false → ∀ fuel i, 0 ≤ i ≤ j0 → j0 < lim → lim - i < Z.of_nat fuel →
  ∃ j, scan_bit fuel go w (1 ≪ (b + i)) i = Some (1 ≪ (b + j), j) ∧ i ≤ j < lim ∧ Z.testbit w (b + j) = false.
Proof.
  intros Hb Hlim Hgo Hj0. induction fuel as [|fuel IH]; intros i Hi Hl Hf; [lia|].
  cbn [scan_bit]. rewrite Hgo, land_pow2_zero by lia.
  destruct (Z.testbit w (b + i)) eqn:E; simpl; [|exists i; split_and!; [done|lia|lia|done]].
  assert (i ≠ j0) by congruence.
  assert (ushl 64 (1 ≪ (b + i)) 1 = 1 ≪ (b + (i + 1))) as ->.
  { unfold ushl. rewrite Z.shiftl_shiftl by lia. replace (b + i + 1) with (b + (i + 1)) by lia.
    apply uwrap_small, pow2_lt. lia. }
  destruct (IH (i + 1)) as (j & Ej & Hj & Hjw); [lia..|]. exists j. split_and!; [done|lia|lia|done].
Qed.

(** A word of all ones. *)
Lemma busy_word w : 0 ≤ w < 2 ^ 64 → (w =? NGX_SLAB_BUSY) = true ↔ ∀ i, 0 ≤ i < 64 → Z.testbit w i = true.
Proof.
  intros Hw. rewrite Z.eqb_eq. change NGX_SLAB_BUSY with (Z.ones 64). split.
  - intros -> i Hi. rewrite Z.testbit_ones by lia. by bool_cases.
  - intros H. apply Z.bits_inj'. intros i Hi. rewrite Z.testbit_ones by lia.
    destruct (Z.ltb_spec i 64); [rewrite H by lia|rewrite (testbit_small w 64) by lia; by rewrite andb_false_r].
    by rewrite (proj2 (Z.leb_le _ _)) by lia.
Qed.

Lemma bits_full q s shift C : bits_ok q s shift C → 3 ≤ shift ≤ 11 →
  full shift C = true ↔ ∀ c, 0 ≤ c < nchunks shift → chunk_bit q s shift c = true.
Proof.
  intros [Hsh Hf Hb Hr] H3. destruct (chunk_sizes shift H3) as (_ & Hres & _). rewrite full_true. split.
  - intros H c Hc. rewrite Hb by done. destruct (Z.ltb_spec c (reserved shift)); [done|].
    simpl. apply bool_decide_eq_true, H. lia.
  - intros H c Hc. specialize (H c ltac:(lia)). rewrite Hb in H by lia.
    rewrite (proj2 (Z.ltb_ge _ _)) in H by lia. by apply bool_decide_eq_true in H.
Qed.

Lemma bits_clear q s shift C c : bits_ok q s shift C → 0 ≤ c < nchunks shift → chunk_bit q s shift c = false →
  reserved shift ≤ c < nchunks shift ∧ c ∉ C.
Proof.
  intros [Hsh Hf Hb Hr] Hc. rewrite Hb by done. destruct (Z.ltb_spec c (reserved shift)); [done|]. simpl.
  intros H1%bool_decide_eq_false. split; [lia|done].
Qed.

Lemma bits_room q s shift C : bits_ok q s shift C → 3 ≤ shift ≤ 11 → full shift C = false →
  ∃ c, 0 ≤ c < nchunks shift ∧ chunk_bit q s shift c = false.
Proof.
  intros [Hsh Hf Hb Hr] H3 (c & Hc & HcC)%full_false. destruct (chunk_sizes shift H3) as (_ & Hres & _).
  exists c. split; [lia|]. rewrite Hb by lia. rewrite (proj2 (Z.ltb_ge _ _)) by lia. by apply bool_decide_eq_false.
Qed.

Lemma bool_eq_iff (a b : bool) : (a = true ↔ b = true) → a = b.
Proof. destruct a, b; naive_solver. Qed.

Lemma exact_full q s C : bits_ok q s 6 C → (slab (nd (nodes q) (AtPage s)) =? NGX_SLAB_BUSY) = full 6 C.
Proof.
  intros HB. apply bool_eq_iff. rewrite (bits_full _ _ _ _ HB) by lia. apply busy_word, (bits_form _ _ _ _ HB).
Qed.

Lemma testbit_mask n i : 0 ≤ n → 0 ≤ i → Z.testbit (Z.ones n ≪ 32) i = (32 <=? i) && (i <? 32 + n).
Proof.
  intros Hn Hi. rewrite Z.shiftl_spec by lia. destruct (Z.leb_spec 32 i).
  - rewrite Z.testbit_ones by lia. by bool_cases.
  - by rewrite Z.testbit_neg_r by lia.
Qed.

Lemma big_shift w shift : w mod 2 ^ 32 = shift → shift < 16 → Z.land w NGX_SLAB_SHIFT_MASK = shift.
Proof.
  intros Hw Hs. change NGX_SLAB_SHIFT_MASK with (Z.ones 4). rewrite Z.land_ones by lia.
  rewrite <-(Z.mod_mod_divide w (2 ^ 32)) by (by exists (2 ^ 28)). rewrite Hw. apply Z.mod_small.
  subst shift. pose proof (Z.mod_pos_bound w (2 ^ 32)). lia.
Qed.

Lemma big_full q s shift C : bits_ok q s shift C → 7 ≤ shift ≤ 11 →
  (Z.land (slab (nd (nodes q) (AtPage s))) NGX_SLAB_MAP_MASK =? big_mask shift) = full shift C.
Proof.
  intros HB Hsh. destruct (big_chunks shift Hsh) as (H32 & _ & ->). destruct (chunk_sizes shift) as (_ & _ & _ & Hn & _); [lia|].
  pose proof (bits_form _ _ _ _ HB) as Hf. unfold slab_form in Hf.
  rewrite (proj2 (Z.ltb_ge _ _)), (proj2 (Z.eqb_neq _ _)) in Hf by lia. destruct Hf as [Hr _].
  set (w := slab (nd (nodes q) (AtPage s))) in *.
  apply bool_eq_iff. rewrite (bits_full _ _ _ _ HB), Z.eqb_eq by lia.
  assert (Hbit : ∀ c, chunk_bit q s shift c = Z.testbit w (32 + c)).
  { intros c. unfold chunk_bit. by rewrite (proj2 (Z.ltb_ge _ _)), (proj2 (Z.eqb_neq _ _)) by lia. }
  change NGX_SLAB_MAP_MASK with (Z.ones 32 ≪ 32). split.
  - intros E c Hc. rewrite Hbit. apply (f_equal (λ z, Z.testbit z (32 + c))) in E.
    rewrite Z.land_spec, !testbit_mask in E by lia.
    rewrite (proj2 (Z.leb_le 32 _)), !(proj2 (Z.ltb_lt _ _)) in E by lia. by rewrite andb_true_r in E.
  - intros H. apply Z.bits_inj'. intros i Hi. rewrite Z.land_spec, !testbit_mask by lia.
    destruct (Z.leb_spec 32 i); simpl; [|by rewrite andb_false_r].
    destruct (Z.ltb_spec i (32 + nchunks shift)).
    + specialize (H (i - 32) ltac:(lia)). rewrite Hbit in H. replace (32 + (i - 32)) with i in H by lia.
      rewrite H. by rewrite (proj2 (Z.ltb_lt _ _)) by lia.
    + by rewrite (testbit_small w (32 + nchunks shift)) by lia.
Qed.

(** ** Allocating from a page with the bitmap in the descriptor *)

(** The block of chunk [c]. *)
Definition chunk_addr q s shift c : Z := page_addr q s + c * 2 ^ shift.

(** The result [r] of allocating is a chunk of page [s] that was not in use. *)
Definition chunk_taken q A FL s shift C (r : option (option (Z * ngx_slab_pool_t))) : Prop :=
  ∃ c q' SL', r = Some (Some (chunk_addr q s shift c, q')) ∧ reserved shift ≤ c < nchunks shift ∧ (c ∉ C) ∧
    pool_ok q' (<[s := SSlot shift ({[c]} ∪ C)]> A) FL SL' ∧ mem q' = mem (put_chunk q s shift c true) ∧
    same_params q q'.

Lemma chunk_addr_range q A FL SL s g shift c : pool_ok q A FL SL → A !! s = Some g → 3 ≤ shift ≤ 11 →
  0 ≤ c < nchunks shift → 0 < page_addr q s ∧ page_addr q s mod 8 = 0 ∧
    page_addr q s ≤ chunk_addr q s shift c ∧ chunk_addr q s shift c + 2 ^ shift ≤ page_addr q s + 4096 ∧
    page_addr q s + 4096 ≤ end_ q < 2 ^ 64.
Proof.
  intros HP Hs Hsh Hc. destruct (tile_in _ _ (ok_tiles _ _ _ _ HP) _ _ Hs) as (? & ? & ?).
  destruct (ok_params _ _ _ _ HP) as [_ _ [P0 P1] P2 P3]. destruct (chunk_sizes shift Hsh) as (Hm & _ & _ & _ & Hp).
  unfold chunk_addr, page_addr. split_and!; try nia.
  pose proof (Z.div_mod (start q) 4096 ltac:(lia)) as E. rewrite P1 in E.
  replace (start q + 4096 * s) with ((512 * (start q / 4096 + s)) * 8) by lia. by apply Z.mod_mul.
Qed.

Lemma alloc_in_slab_spec q A FL SL s shift C fuel go fullb b : pool_ok q A FL SL →
  A !! s = Some (SSlot shift C) → full shift C = false → 6 ≤ shift → b = (if shift =? 6 then 0 else 32) →
  (∀ j, 0 ≤ j < nchunks shift → go (1 ≪ (b + j)) = true) →
  (∀ q C, bits_ok q s shift C → fullb (slab (nd (nodes q) (AtPage s))) = full shift C) →
  chunk_taken q A FL s shift C (alloc_in_slab (S fuel) go fullb (1 ≪ b) (slot_type shift) q (AtPage s) shift).
Proof.
  intros HP Hs Hf H6 Hb Hgo Hfb. pose proof (slot_bits_ok _ _ _ _ (ok_segs _ _ _ _ HP _ _ Hs)) as HB.
  pose proof (bits_shift _ _ _ _ HB) as Hsh. pose proof (par_shift _ (ok_params _ _ _ _ HP)) as H3.
  destruct (chunk_sizes shift) as (_ & Hres & _ & Hn & _); [lia|].
  assert (Hb0 : 0 ≤ b) by (subst b; destruct (shift =? 6); lia).
  assert (Hlim : b + nchunks shift ≤ 64).
  { subst b. destruct (Z.eqb_spec shift 6) as [->|]; [done|]. pose proof (big_chunks shift). lia. }
  assert (Hbit : ∀ c, chunk_bit q s shift c = Z.testbit (slab (nd (nodes q) (AtPage s))) (b + c)).
  { intros c. unfold chunk_bit. rewrite (proj2 (Z.ltb_ge _ _)) by lia. subst b. by destruct (shift =? 6). }
  destruct (tile_in _ _ (ok_tiles _ _ _ _ HP) _ _ Hs) as (Hs0 & _ & Hs1). simpl in Hs1.
  assert (Sx : is_Some (nodes q !! AtPage s)) by (apply (ok_nodes _ _ _ _ HP); simpl; lia).
  destruct (bits_room _ _ _ _ HB ltac:(lia) Hf) as (c0 & Hc0 & Hc0b). rewrite Hbit in Hc0b.
  destruct (scan_bit_spec go (slab (nd (nodes q) (AtPage s))) b (nchunks shift) c0
    Hb0 Hlim Hgo Hc0b 65 0) as (c & Esc & Hc & Hcb); [lia..|].
  rewrite <-Hbit in Hcb. destruct (bits_clear _ _ _ _ _ HB Hc Hcb) as [Hcr HcC].
  destruct (take_chunk _ _ _ _ _ _ _ _ HP Hs Hf Hcr HcC) as (q2 & SL' & E2 & HP2 & Hm2 & Hst2).
  exists c, q2, SL'. rewrite Z.add_0_r in Esc.
  split; [|split_and!; [lia..|done|done|done|done]].
  cbn [alloc_in_slab]. rewrite get_nd by done. bind_simpl. rewrite (Hfb _ _ HB), Hf, Esc.
  rewrite upd_nd by done. bind_simpl.
  assert (Hput : set_nodes q (<[AtPage s := set_slab (Z.lor (slab (nd (nodes q) (AtPage s))) (1 ≪ (b + c)))
    (nd (nodes q) (AtPage s))]> (nodes q)) = put_chunk q s shift c true).
  { unfold put_chunk. rewrite (proj2 (Z.ltb_ge _ _)) by lia. do 3 f_equal. rewrite lor_put by lia.
    f_equal. subst b. by destruct (shift =? 6). }
  rewrite Hput.
  assert (fullb (Z.lor (slab (nd (nodes q) (AtPage s))) (1 ≪ (b + c))) = full shift ({[c]} ∪ C)) as ->.
  { rewrite <-(Hfb (put_chunk q s shift c true)); [|apply (put_chunk_ok _ _ _ _ _ true); [lia|done..]].
    rewrite <-Hput. cbn [nodes set_nodes]. by rewrite nd_insert. }
  rewrite E2. bind_simpl. cbn [page_index]. bind_simpl. do 3 f_equal.
  destruct (chunk_addr_range _ _ _ _ _ _ shift c HP Hs) as (? & _ & ? & ? & ?); [lia..|].
  assert (start q2 = start q) as -> by apply Hst2.
  rewrite !Z.shiftl_mul_pow2 by (unfold ngx_pagesize_shift; lia). change (2 ^ ngx_pagesize_shift) with 4096.
  unfold chunk_addr, page_addr in *. rewrite uwrap_small; lia.
Qed.

(** ** Allocating from a page with the bitmap in the page *)

(** The words of the bitmap can be read and written. *)
Record readable q s : Prop := {
  rd_word k : 0 ≤ k < 512 → rdw q (page_addr q s + 8 * k) = Some (word q (page_addr q s + 8 * k));
  wr_word k v : 0 ≤ k < 512 → wrw q (page_addr q s + 8 * k) v =
    Some (set_mem q (<[page_addr q s + 8 * k := v]> (mem q)))
}.

Lemma pool_readable q A FL SL s g : pool_ok q A FL SL → A !! s = Some g → readable q s.
Proof.
  intros HP Hs. destruct (chunk_addr_range _ _ _ _ _ _ 11 0 HP Hs) as (H0 & Hm & _ & _ & He); [lia|by vm_compute|].
  destruct (tile_in _ _ (ok_tiles _ _ _ _ HP) _ _ Hs) as (Hs0 & _ & _).
  assert (Hw : ∀ k, 0 ≤ k < 512 → word_at q (page_addr q s + 8 * k) = true).
  { intros k Hk. unfold word_at. rewrite !(proj2 (Z.leb_le _ _)) by (unfold page_addr in *; lia). simpl.
    apply Z.eqb_eq. rewrite (Z.mul_comm 8 k), Z.mod_add; [done|lia]. }
  split; intros k *; [intros Hk|intros Hk]; unfold rdw, wrw; by rewrite Hw.
Qed.

Lemma readable_same q q' s : start q' = start q → end_ q' = end_ q → readable q s → readable q' s.
Proof.
  intros Hst He [R W].
  split; intros k; [intros Hk; specialize (R k Hk)|intros v Hk; specialize (W k v Hk)];
    unfold rdw, wrw, word_at, page_addr in *; rewrite Hst, He; destruct ((start q <=? _) && _ && _); done.
Qed.

Lemma small_bit q s shift n j : shift < 6 → 0 ≤ j < 64 →
  chunk_bit q s shift (64 * n + j) = Z.testbit (word q (page_addr q s + 8 * n)) j.
Proof.
  intros Hsh Hj. unfold chunk_bit. rewrite (proj2 (Z.ltb_lt _ _)) by done.
  destruct (word_positions n (64 * n + j)) as [-> ->]; [lia|]. by replace (64 * n + j - 64 * n) with j by lia.
Qed.

Lemma small_word q s shift C n : bits_ok q s shift C → shift < 6 → 0 ≤ n < small_map shift →
  0 ≤ word q (page_addr q s + 8 * n) < 2 ^ 64 ∧
  ((word q (page_addr q s + 8 * n) =? NGX_SLAB_BUSY) = true ↔
    ∀ c, 64 * n ≤ c < 64 * (n + 1) → chunk_bit q s shift c = true).
Proof.
  intros HB Hsh Hn. pose proof (bits_form _ _ _ _ HB) as Hf. unfold slab_form in Hf.
  rewrite (proj2 (Z.ltb_lt _ _)) in Hf by done. destruct Hf as [_ Hw]. specialize (Hw n Hn). split; [done|].
  rewrite busy_word by done. split.
  - intros H c Hc. replace c with (64 * n + (c - 64 * n)) by lia. rewrite small_bit by lia. apply H. lia.
  - intros H j Hj. rewrite <-(small_bit _ _ shift) by lia. apply H. lia.
Qed.

Lemma all_busy_spec q s shift C cnt n : readable q s → bits_ok q s shift C → 3 ≤ shift < 6 → 0 ≤ n →
  n + Z.of_nat cnt = small_map shift → ∃ b, all_busy cnt q (page_addr q s) n = Some b ∧
    (b = true ↔ ∀ c, 64 * n ≤ c < nchunks shift → chunk_bit q s shift c = true).
Proof.
  intros HR HB Hsh. pose proof (small_map_range shift Hsh) as [Hm Hnc].
  revert n. induction cnt as [|cnt IH]; intros n Hn Hcnt; cbn [all_busy].
  { exists true. split; [done|]. split; [intros _ c Hc; lia|done]. }
  rewrite (rd_word _ _ HR) by lia. bind_simpl.
  destruct (small_word _ _ _ _ n HB) as [_ Hbusy]; [lia..|].
  destruct (word q (page_addr q s + 8 * n) =? NGX_SLAB_BUSY) eqn:E; simpl.
  - destruct (IH (n + 1)) as (b & Eb & Hb); [lia..|]. exists b. split; [done|]. rewrite Hb. split.
    + intros H c Hc. destruct (decide (c < 64 * (n + 1))); [apply Hbusy; [done|lia]|apply H; lia].
    + intros H c Hc. apply H. lia.
  - exists false. split; [done|]. split; [done|]. intros H. apply Hbusy. intros c Hc. apply H. nia.
Qed.

Lemma put_small q s shift n j : readable q s → 3 ≤ shift < 6 → 0 ≤ j < 64 → 0 ≤ n < small_map shift →
  wrw q (page_addr q s + 8 * n) (Z.lor (word q (page_addr q s + 8 * n)) (1 ≪ j)) =
    Some (put_chunk q s shift (64 * n + j) true).
Proof.
  intros HR Hsh Hj Hn. pose proof (small_map_range shift Hsh). rewrite (wr_word _ _ HR) by lia.
  unfold put_chunk. rewrite (proj2 (Z.ltb_lt _ _)) by lia. cbv zeta.
  destruct (word_positions n (64 * n + j)) as [-> ->]; [lia|]. by replace (64 * n + j - 64 * n) with j by lia.
Qed.

(** After the write, the page leaves the list exactly when it is full. *)
Lemma small_settle q s shift C cnt n : readable q s → bits_ok q s shift C → 3 ≤ shift < 6 → 0 ≤ n →
  n + 1 + Z.of_nat cnt = small_map shift → (∀ c, 0 ≤ c < 64 * n → chunk_bit q s shift c = true) →
  (if word q (page_addr q s + 8 * n) =? NGX_SLAB_BUSY then
     (busy ← all_busy cnt q (page_addr q s) (n + 1);
      if busy : bool then unlink_full q (AtPage s) NGX_SLAB_SMALL else Some q)
   else Some q) = if full shift C then unlink_full q (AtPage s) (slot_type shift) else Some q.
Proof.
  intros HR HB Hsh Hn Hcnt Hbelow. assert (slot_type shift = NGX_SLAB_SMALL) as ->.
  { unfold slot_type. by rewrite (proj2 (Z.ltb_lt _ _)) by lia. }
  pose proof (small_map_range shift Hsh) as [Hm Hnc].
  pose proof (bits_full _ _ _ _ HB ltac:(lia)) as Hfull.
  destruct (small_word _ _ _ _ n HB) as [_ Hbusy]; [lia..|].
  destruct (all_busy_spec q s shift _ cnt (n + 1) HR HB Hsh) as (b & Eb & Hb); [lia..|].
  destruct (word q (page_addr q s + 8 * n) =? NGX_SLAB_BUSY) eqn:Ew.
  - rewrite Eb. bind_simpl. assert (full shift C = b) as ->; [|done].
    apply bool_eq_iff. rewrite Hfull, Hb. split; [intros H d Hd; apply H; lia|].
    intros H d Hd. destruct (decide (d < 64 * n)); [apply Hbelow; lia|].
    destruct (decide (d < 64 * (n + 1))); [apply Hbusy; [done|lia]|apply H; lia].
  - destruct (full shift C); [|done]. exfalso. assert (false = true) by (apply Hbusy; intros; apply Hfull; [done|lia]). done.
Qed.

(** A word that is not all ones has a clear bit. *)
Lemma clear_bit w : 0 ≤ w < 2 ^ 64 → (w =? NGX_SLAB_BUSY) = false → ∃ j, 0 ≤ j < 64 ∧ Z.testbit w j = false.
Proof.
  intros Hw Ew. destruct (decide (Exists (λ j, Z.testbit w j = false) (seqZ 0 64))) as [He|He].
  - apply Exists_exists in He as (j & Hj%elem_of_seqZ & Hb). exists j. split; [lia|done].
  - apply not_true_iff_false in Ew as []. apply busy_word; [done|]. intros j Hj.
    apply not_false_iff_true. intros Hb. apply He, Exists_exists. exists j. rewrite elem_of_seqZ. split; [lia|done].
Qed.

Lemma alloc_small_page_spec q A FL SL s shift C : pool_ok q A FL SL → A !! s = Some (SSlot shift C) →
  full shift C = false → 3 ≤ shift < 6 → ∀ cnt n, 0 ≤ n → n + Z.of_nat cnt = small_map shift →
  (∀ c, 0 ≤ c < 64 * n → chunk_bit q s shift c = true) →
  chunk_taken q A FL s shift C (alloc_small_page cnt q (AtPage s) (page_addr q s) shift n).
Proof.
  intros HP Hs Hf Hsh. pose proof (slot_bits_ok _ _ _ _ (ok_segs _ _ _ _ HP _ _ Hs)) as HB.
  pose proof (pool_readable _ _ _ _ _ _ HP Hs) as HR. destruct (small_map_range shift Hsh) as [Hm Hnc].
  pose proof (par_shift _ (ok_params _ _ _ _ HP)) as H3.
  induction cnt as [|cnt IH]; intros n Hn Hcnt Hbelow; cbn [alloc_small_page].
  { destruct (bits_room _ _ _ _ HB ltac:(lia) Hf) as (c & Hc & Hcb). rewrite Hbelow in Hcb; [done|lia]. }
  rewrite (rd_word _ _ HR) by lia. bind_simpl. set (w := word q (page_addr q s + 8 * n)).
  destruct (small_word _ _ _ _ n HB) as [Hw Hbusy]; [lia..|]. fold w in Hw, Hbusy.
  destruct (w =? NGX_SLAB_BUSY) eqn:Ew; simpl negb; cbv iota.
  { apply IH; [lia|lia|]. intros c Hc.
    destruct (decide (c < 64 * n)); [apply Hbelow; lia|]. apply Hbusy; [done|lia]. }
  destruct (clear_bit w Hw Ew) as (j0 & Hj0 & Hj0b).
  destruct (scan_bit_spec (λ m, negb (m =? 0)) w 0 64 j0 ltac:(lia) ltac:(lia)) with (fuel := 65%nat) (i := 0)
    as (j & Esc & Hj & Hjb); [|done|lia..|].
  { intros j Hj. apply negb_true_iff, Z.eqb_neq. rewrite Z.shiftl_1_l. pose proof (pow2_pos (0 + j)). lia. }
  change (1 ≪ (0 + 0)) with 1 in Esc. change (0 + j) with j in Esc, Hjb. rewrite Esc. clear Esc j0 Hj0 Hj0b.
  set (c := 64 * n + j). subst w. rewrite <-(small_bit _ _ shift) in Hjb by lia. fold c in Hjb.
  destruct (bits_clear _ _ _ _ c HB ltac:(lia) Hjb) as [Hcr HcC].
  destruct (take_chunk _ _ _ _ _ _ _ _ HP Hs Hf Hcr HcC) as (q2 & SL' & E2 & HP2 & Hm2 & Hst2).
  rewrite (put_small _ _ shift) by (done || lia). bind_simpl. fold c.
  set (q1 := put_chunk q s shift c true) in *.
  assert (Hst1 : start q1 = start q ∧ end_ q1 = end_ q) by (subst q1; unfold put_chunk; by destruct (shift <? 6)).
  assert (HB1 : bits_ok q1 s shift ({[c]} ∪ C)) by (apply (put_chunk_ok _ _ _ _ _ true); [lia|done..]).
  assert (HR1 : readable q1 s) by (eapply readable_same; [apply Hst1..|done]).
  assert (Hpa : page_addr q1 s = page_addr q s) by (unfold page_addr; by rewrite (proj1 Hst1)).
  assert (Hw1 : word q1 (page_addr q s + 8 * n) = Z.lor (word q (page_addr q s + 8 * n)) (1 ≪ j)).
  { pose proof (put_small q s shift n j HR Hsh Hj ltac:(lia)) as Hp. rewrite (wr_word _ _ HR) in Hp by lia.
    fold c in Hp. fold q1 in Hp. injection Hp as <-. rewrite word_set_mem. by rewrite decide_True. }
  assert (Hbelow1 : ∀ d, 0 ≤ d < 64 * n → chunk_bit q1 s shift d = true).
  { intros d Hd. subst q1. rewrite put_chunk_bit by lia. destruct (c =? d); [done|]. by apply Hbelow. }
  pose proof (small_settle q1 s shift _ cnt n HR1 HB1 Hsh Hn ltac:(lia) Hbelow1) as Hrest.
  rewrite Hpa, Hw1, E2 in Hrest.
  rewrite Hrest. bind_simpl. exists c, q2, SL'.
  split; [|split_and!; [lia..|done|done|done|done]]. do 3 f_equal.
  destruct (chunk_addr_range _ _ _ _ _ _ shift c HP Hs) as (? & _ & ? & ? & ?); [lia..|].
  assert (Hoff : ushl 64 (u64 (n * 8 * 8)) shift + ushl 64 j shift = c * 2 ^ shift).
  { destruct (chunk_sizes shift) as (Hsz & _ & _ & _ & Hp); [lia|].
    assert (c * 2 ^ shift < 4096) by nia. unfold ushl. rewrite !Z.shiftl_mul_pow2 by lia.
    assert (0 ≤ j * 2 ^ shift ∧ 0 ≤ n * 8 * 8 * 2 ^ shift ∧
      n * 8 * 8 * 2 ^ shift + j * 2 ^ shift = c * 2 ^ shift) as (? & ? & ?) by (unfold c; split_and!; nia).
    rewrite (uwrap_small 64 (n * 8 * 8)), !uwrap_small by lia. done. }
  unfold chunk_addr in *. rewrite Hoff, (uwrap_small 64 (c * 2 ^ shift)), uwrap_small by lia. done.
Qed.
