(* ===== verification/SlabAlloc.v ===== *)
(** * The slab allocator: allocation

    [ngx_slab_alloc] on every path: whole pages, a chunk of a page in the list of its slot,
    a chunk of a new page, and no memory. *)

From stdpp Require Import functions.
From S2P Require Import Prelude Words Slab SlabList SlabPages SlabChunks.

Implicit Types (q : ngx_slab_pool_t) (s i n m c : Z) (A : layout) (C : gset Z).

(** ** A chunk of a page that has some *)

Lemma slot_head q A FL SL shift s l : pool_ok q A FL SL → min_shift q ≤ shift ≤ 11 → SL shift = s :: l →
  ∃ C, A !! s = Some (SSlot shift C) ∧ full shift C = false.
Proof. intros HP Hsh E. apply (ok_SL _ _ _ _ HP shift); [done|]. rewrite E. by left. Qed.

Lemma alloc_small_spec q A FL SL s shift C fuel : pool_ok q A FL SL → A !! s = Some (SSlot shift C) →
  full shift C = false → 3 ≤ shift < 6 → chunk_taken q A FL s shift C (alloc_small (S fuel) q (AtPage s) shift).
Proof.
  intros HP Hs Hf Hsh. destruct (small_map_range shift Hsh) as [Hm _].
  destruct (alloc_small_page_spec q A FL SL s shift C HP Hs Hf Hsh (Z.to_nat (small_map shift)) 0)
    as (c & q' & SL' & E & H); [lia..|intros; lia|].
  exists c, q', SL'. split; [|done]. cbn [alloc_small page_index]. bind_simpl.
  unfold page_addr in E. rewrite Z.shiftl_mul_pow2 by (unfold ngx_pagesize_shift; lia).
  change (2 ^ ngx_pagesize_shift) with 4096. rewrite (Z.mul_comm s), E. done.
Qed.

Lemma alloc_exact_spec q A FL SL s C fuel : pool_ok q A FL SL → A !! s = Some (SSlot 6 C) →
  full 6 C = false → chunk_taken q A FL s 6 C (alloc_exact (S fuel) q (AtPage s) 6).
Proof.
  intros HP Hs Hf. unfold alloc_exact.
  eapply (alloc_in_slab_spec q A FL SL s 6 C fuel _ _ 0 HP Hs Hf); [done|done| |].
  - intros j Hj. apply negb_true_iff, Z.eqb_neq. rewrite Z.shiftl_1_l. pose proof (pow2_pos (0 + j)). lia.
  - intros q' C' HB. by apply exact_full.
Qed.

Lemma alloc_big_spec q A FL SL s shift C fuel : pool_ok q A FL SL → A !! s = Some (SSlot shift C) →
  full shift C = false → 7 ≤ shift ≤ 11 → chunk_taken q A FL s shift C (alloc_big (S fuel) q (AtPage s) shift).
Proof.
  intros HP Hs Hf Hsh. unfold alloc_big. destruct (tile_in _ _ (ok_tiles _ _ _ _ HP) _ _ Hs) as (? & ? & ?).
  rewrite get_nd by (apply (ok_nodes _ _ _ _ HP); simpl in *; lia). bind_simpl.
  pose proof (slot_form _ _ _ _ (ok_segs _ _ _ _ HP _ _ Hs)) as Hform. unfold slab_form in Hform.
  rewrite (proj2 (Z.ltb_ge _ _)), (proj2 (Z.eqb_neq _ _)) in Hform by lia. destruct Hform as [Hr Hmod].
  assert (Z.land (slab (nd (nodes q) (AtPage s))) NGX_SLAB_SHIFT_MASK = shift) as -> by (apply big_shift; [done|lia]).
  assert (slot_type shift = NGX_SLAB_BIG) as Hty.
  { unfold slot_type. by rewrite (proj2 (Z.ltb_ge _ _)), (proj2 (Z.eqb_neq _ _)) by lia. }
  rewrite <-Hty, ushl_one by (unfold NGX_SLAB_MAP_SHIFT; lia).
  destruct (big_chunks shift Hsh) as (H32 & _ & Hmask).
  eapply (alloc_in_slab_spec q A FL SL s shift C fuel _ _ 32 HP Hs Hf); [lia|by rewrite (proj2 (Z.eqb_neq _ _)) by lia| |].
  - intros j Hj. apply negb_true_iff, Z.eqb_neq. rewrite Hmask. intros E.
    apply (f_equal (λ z, Z.testbit z (32 + j))) in E.
    rewrite Z.land_spec, Z.shiftl_1_l, testbit_pow2, Z.eqb_refl, testbit_mask, Z.testbit_0_l in E by lia.
    rewrite (proj2 (Z.leb_le _ _)), (proj2 (Z.ltb_lt _ _)) in E by lia. done.
  - intros q' C' HB. by apply big_full.
Qed.

(** ** A chunk of a new page *)

Lemma first_chunk shift : 3 ≤ shift ≤ 11 → full shift {[reserved shift]} = false.
Proof.
  intros Hsh. destruct (chunk_sizes shift Hsh) as (_ & Hr & Hr1 & _). apply full_false.
  exists (reserved shift + 1). split; [lia|]. intros ?%elem_of_singleton. lia.
Qed.

(** A new page, with its first chunk in use: the bitmap and [slab] are [w] and [M]. *)
Lemma new_page_ok q A FL SL s shift (w : Z) (M : gmap Z Z) : pool_ok q A FL SL → A !! s = Some (SUser 1) →
  min_shift q ≤ shift ≤ 11 → SL shift = [] →
  (∀ a, page_addr q s ≤ a < page_addr q (s + 1) ∨ word (set_mem q M) a = word q a) →
  (∀ N, slab (nd N (AtPage s)) = w → bits_ok (set_nodes (set_mem q M) N) s shift {[reserved shift]}) →
  ∃ N SL', link_slot (set_mem q M) (AtPage s) w (shift - min_shift q) (slot_type shift) =
      Some (set_nodes (set_mem q M) N) ∧
    pool_ok (set_nodes (set_mem q M) N) (<[s := SSlot shift {[reserved shift]}]> A) FL SL'.
Proof.
  intros HP Hs Hsh HSL HM HB. destruct (tile_in _ _ (ok_tiles _ _ _ _ HP) _ _ Hs) as (Hs0 & _ & Hs1). simpl in Hs1.
  pose proof (par_shift _ (ok_params _ _ _ _ HP)) as H3.
  destruct (link_slot_spec (set_mem q M) (AtPage s) w (shift - min_shift q) (slot_type shift))
    as (N & E & HR & Hw & Hsl & Hnd & Hd); [apply (ok_nodes _ _ _ _ HP); simpl; lia..|done|].
  exists N. eexists. split; [done|].
  eapply (slot_change q _ A FL SL s _ shift _ [s] [slot_of q shift]); [done..|exact Hsh| | | | |].
  - split; try done.
    + intros x Hx. cbn [nodes set_nodes]. apply Hsl. intros ->. simpl in Hx. lia.
    + intros x Hx Hn. cbn [nodes set_nodes]. apply Hnd.
      intros [->|[->|?%elem_of_nil]%elem_of_cons]%elem_of_cons; [set_solver|simpl in Hx; lia|done].
    + intros x Hx. by apply Hd.
  - intros x ->%list_elem_of_singleton. by left.
  - apply bits_slot_ok; [by apply HB|]. rewrite first_chunk by lia. done.
  - done.
  - intros i. rewrite HSL, first_chunk by lia. rewrite list_elem_of_singleton. set_solver.
Qed.

Lemma clear_words_spec q s cnt i : readable q s → 0 ≤ i → i + Z.of_nat cnt ≤ 512 →
  ∃ M, clear_words cnt q (page_addr q s) i = Some (set_mem q M) ∧
    (∀ k, i ≤ k < i + Z.of_nat cnt → word (set_mem q M) (page_addr q s + 8 * k) = 0) ∧
    (∀ a, (∀ k, i ≤ k < i + Z.of_nat cnt → a ≠ page_addr q s + 8 * k) → word (set_mem q M) a = word q a).
Proof.
  revert q i. induction cnt as [|cnt IH]; intros q i HR Hi Hc; cbn [clear_words].
  { exists (mem q). split; [by destruct q|]. split; [lia|done]. }
  rewrite (wr_word _ _ HR) by lia. bind_simpl.
  set (q1 := set_mem q (<[page_addr q s + 8 * i := 0]> (mem q))).
  destruct (IH q1 (i + 1)) as (M & E & H1 & H2); [by apply (readable_same q)|lia..|].
  change (page_addr q1 s) with (page_addr q s) in *. exists M. split; [done|].
  change (set_mem q1 M) with (set_mem q M) in *. split.
  - intros k Hk. destruct (decide (k = i)) as [->|]; [|apply H1; lia].
    rewrite H2 by (intros; lia). subst q1. by rewrite word_set_mem, decide_True.
  - intros a Ha. rewrite H2 by (intros; apply Ha; lia). subst q1.
    rewrite word_set_mem, decide_False; [done|]. intros <-. by apply (Ha i); [lia|].
Qed.

Lemma testbit_first n i : 0 ≤ n → 0 ≤ i → Z.testbit ((2 ≪ n) - 1) i = (i <=? n).
Proof.
  intros Hn Hi. replace ((2 ≪ n) - 1) with (Z.ones (n + 1)).
  - rewrite Z.testbit_ones by lia. bool_cases; done.
  - rewrite Z.ones_equiv, Z.shiftl_mul_pow2, Z.pow_add_r by lia. lia.
Qed.

(** What [new_small], [new_exact] and [new_big] do with the page [s]. *)
Definition page_started q A FL s shift (r : option (Z * ngx_slab_pool_t)) : Prop :=
  ∃ q' SL', r = Some (chunk_addr q s shift (reserved shift), q') ∧
    pool_ok q' (<[s := SSlot shift {[reserved shift]}]> A) FL SL' ∧ same_params q q' ∧
    ∀ a, page_addr q s ≤ a < page_addr q s + reserved shift * 2 ^ shift ∨ word q' a = word q a.

(** The bitmap of a new page: its own chunks and the first one are in use. *)
Lemma first_words q s shift : readable q s → 3 ≤ shift < 6 → ∃ q1 M,
  wrw q (page_addr q s) ((2 ≪ small_reserved shift) - 1) = Some q1 ∧
  clear_words (Z.to_nat (small_map shift - 1)) q1 (page_addr q s) 1 = Some (set_mem q M) ∧
  (∀ a, (∀ k, 0 ≤ k < small_map shift → a ≠ page_addr q s + 8 * k) → word (set_mem q M) a = word q a) ∧
  (∀ k, 0 ≤ k < small_map shift → 0 ≤ word (set_mem q M) (page_addr q s + 8 * k) < 2 ^ 64) ∧
  (∀ c, 0 ≤ c < nchunks shift →
    Z.testbit (word (set_mem q M) (page_addr q s + 8 * (c / 64))) (c mod 64) = (c <=? small_reserved shift)).
Proof.
  intros HR Hsh. destruct (small_map_range shift Hsh) as [Hm Hnc], (small_reserved_range shift Hsh) as [Hres Hres8].
  pose proof (wr_word _ _ HR 0 ((2 ≪ small_reserved shift) - 1)) as Hw0. rewrite Z.add_0_r in Hw0. rewrite Hw0 by lia.
  set (q1 := set_mem q (<[page_addr q s := (2 ≪ small_reserved shift) - 1]> (mem q))).
  destruct (clear_words_spec q1 s (Z.to_nat (small_map shift - 1)) 1) as (M & E & Hz & Hk);
    [by apply (readable_same q)|lia..|].
  change (page_addr q1 s) with (page_addr q s) in *. change (set_mem q1 M) with (set_mem q M) in *.
  assert (Hword0 : word (set_mem q M) (page_addr q s) = (2 ≪ small_reserved shift) - 1).
  { rewrite Hk by (intros; lia). subst q1. by rewrite word_set_mem, decide_True. }
  exists q1, M. split_and!; [done..| | |].
  - intros a Ha. rewrite Hk by (intros k Hkk; apply Ha; lia). subst q1. rewrite word_set_mem, decide_False; [done|].
    intros <-. apply (Ha 0); lia.
  - intros k Hkk. destruct (decide (k = 0)) as [->|]; [|rewrite Hz by lia; lia].
    rewrite Z.mul_0_r, Z.add_0_r, Hword0, Z.shiftl_mul_pow2 by lia.
    pose proof (pow2_pos (small_reserved shift) ltac:(lia)).
    pose proof (Z.pow_le_mono_r 2 (small_reserved shift) 8 ltac:(lia) ltac:(lia)). lia.
  - intros c Hc. pose proof (Z.mod_pos_bound c 64). destruct (decide (c < 64)).
    + rewrite (Z.div_small c 64), (Z.mod_small c 64), Z.mul_0_r, Z.add_0_r, Hword0 by lia. apply testbit_first; lia.
    + rewrite Hz, Z.testbit_0_l; [bool_cases; done|].
      pose proof (Z.div_le_lower_bound c 64 1). pose proof (Z.div_lt_upper_bound c 64 (small_map shift)). lia.
Qed.

Lemma new_small_spec q A FL SL s shift : pool_ok q A FL SL → A !! s = Some (SUser 1) →
  min_shift q ≤ shift < 6 → SL shift = [] →
  page_started q A FL s shift (new_small q (AtPage s) shift (shift - min_shift q)).
Proof.
  intros HP Hs Hsh HSL. pose proof (par_shift _ (ok_params _ _ _ _ HP)) as H3.
  destruct (small_map_range shift) as [Hm Hnc]; [lia|]. destruct (small_reserved_range shift) as [Hres Hres8]; [lia|].
  assert (Hreq : reserved shift = small_reserved shift) by (unfold reserved; by rewrite (proj2 (Z.ltb_lt _ _)) by lia).
  unfold new_small. cbn [page_index]. bind_simpl.
  assert (start q + (s ≪ ngx_pagesize_shift) = page_addr q s) as Hpa.
  { rewrite Z.shiftl_mul_pow2 by (unfold ngx_pagesize_shift; lia). change (2 ^ ngx_pagesize_shift) with 4096.
    unfold page_addr. lia. }
  destruct (first_words q s shift) as (q1 & M & E1 & E2 & Hword & Hrange & Hbits); [by eapply pool_readable|lia|].
  rewrite Hpa, E1. bind_simpl. rewrite E2. bind_simpl.
  destruct (new_page_ok q A FL SL s shift shift M HP Hs) as (N & SL' & EL & HP'); [lia|done|..].
  - intros a. destruct (decide (page_addr q s ≤ a < page_addr q (s + 1))) as [|Ho]; [by left|right].
    apply Hword. intros k Hkk ->. apply Ho. unfold page_addr. lia.
  - intros N HN. split; cbn [nodes set_nodes set_mem min_shift].
    + lia.
    + unfold slab_form. rewrite (proj2 (Z.ltb_lt _ _)) by lia. by split; [|apply Hrange].
    + intros c Hc. unfold chunk_bit. rewrite (proj2 (Z.ltb_lt shift 6)) by lia.
      change (page_addr (set_nodes (set_mem q M) N) s) with (page_addr q s).
      change (word (set_nodes (set_mem q M) N)) with (word (set_mem q M)). rewrite Hbits, Hreq by done.
      destruct (Z.leb_spec c (small_reserved shift)), (Z.ltb_spec c (small_reserved shift)); simpl; try lia;
        symmetry; [apply bool_decide_eq_true|apply bool_decide_eq_false]; rewrite elem_of_singleton; lia.
    + intros c ->%elem_of_singleton. destruct (chunk_sizes shift) as (_ & ? & ? & _); lia.
  - assert (slot_type shift = NGX_SLAB_SMALL) as Hty by (unfold slot_type; by rewrite (proj2 (Z.ltb_lt _ _)) by lia).
    rewrite Hty in EL. rewrite EL. bind_simpl. eexists _, SL'. split; [|split; [exact HP'|split; [done|]]].
    + do 2 f_equal. destruct (chunk_sizes shift) as (? & ? & ? & _); [lia|].
      destruct (chunk_addr_range _ _ _ _ _ _ shift (reserved shift) HP Hs) as (? & _ & ? & ? & ?); [lia..|].
      cbn [start set_nodes set_mem]. rewrite Z.shiftl_1_l, <-Hreq. unfold chunk_addr in *.
      replace ((s ≪ ngx_pagesize_shift) + 2 ^ shift * reserved shift + start q)
        with (page_addr q s + reserved shift * 2 ^ shift) by lia.
      rewrite uwrap_small by lia. done.
    + intros a. destruct (decide (page_addr q s ≤ a < page_addr q s + reserved shift * 2 ^ shift)) as [|Ho]; [by left|right].
      apply Hword. intros k Hkk ->. apply Ho. rewrite Hreq. lia.
Qed.

(** The same for a page with the bitmap in the descriptor. *)
Lemma new_in_slab_spec q A FL SL s shift w : pool_ok q A FL SL → A !! s = Some (SUser 1) →
  min_shift q ≤ shift ≤ 11 → 6 ≤ shift → SL shift = [] → slab_form (set_nodes q (<[AtPage s := mkPage w None (None, 0)]> (nodes q))) s shift →
  (∀ c, 0 ≤ c < nchunks shift → Z.testbit w (if shift =? 6 then c else 32 + c) = (c =? 0)) →
  page_started q A FL s shift (
    q ← link_slot q (AtPage s) w (shift - min_shift q) (slot_type shift);
    k ← page_index (AtPage s);
    Some (u64 ((k ≪ ngx_pagesize_shift) + start q), q)).
Proof.
  intros HP Hs Hsh H6 HSL Hform Hbits.
  assert (Hr : reserved shift = 0) by (unfold reserved; by rewrite (proj2 (Z.ltb_ge _ _)) by lia).
  assert (Hq : set_mem q (mem q) = q) by (by destruct q).
  pose proof (par_shift _ (ok_params _ _ _ _ HP)) as H3.
  destruct (new_page_ok q A FL SL s shift w (mem q) HP Hs Hsh HSL) as (N & SL' & EL & HP').
  - intros a. right. by rewrite Hq.
  - intros N HN. rewrite Hq. split; [done| | |].
    + unfold slab_form in *. rewrite (proj2 (Z.ltb_ge shift 6)) in * by lia. cbn [nodes set_nodes] in *.
      rewrite nd_insert in Hform. cbn [slab] in Hform. by rewrite HN.
    + intros c Hc. unfold chunk_bit. rewrite (proj2 (Z.ltb_ge shift 6)) by lia. cbn [nodes set_nodes].
      rewrite HN, Hbits, Hr by done. rewrite (proj2 (Z.ltb_ge c 0)) by lia. simpl.
      destruct (Z.eqb_spec c 0) as [->|]; symmetry; [apply bool_decide_eq_true|apply bool_decide_eq_false]; set_solver.
    + intros c ->%elem_of_singleton. destruct (chunk_sizes shift) as (_ & ? & ? & _); lia.
  - rewrite Hq in EL, HP'. rewrite EL. bind_simpl. cbn [page_index]. bind_simpl.
    eexists _, SL'. split; [|split; [exact HP'|split; [done|intros a; by right]]]. do 2 f_equal.
    destruct (chunk_sizes shift) as (? & ? & ? & _); [lia|].
    destruct (chunk_addr_range _ _ _ _ _ _ shift (reserved shift) HP Hs) as (? & _ & ? & ? & ?); [lia..|].
    cbn [start set_nodes]. rewrite Z.shiftl_mul_pow2 by (unfold ngx_pagesize_shift; lia).
    change (2 ^ ngx_pagesize_shift) with 4096. unfold chunk_addr, page_addr in *. rewrite Hr in *. rewrite uwrap_small; lia.
Qed.

Lemma new_exact_spec q A FL SL s : pool_ok q A FL SL → A !! s = Some (SUser 1) → min_shift q ≤ 6 → SL 6 = [] →
  page_started q A FL s 6 (new_exact q (AtPage s) (6 - min_shift q)).
Proof.
  intros HP Hs Hsh HSL. apply (new_in_slab_spec q A FL SL s 6 1); [done..|lia|lia|done| |].
  - unfold slab_form. cbn [nodes set_nodes]. rewrite nd_insert. cbn. lia.
  - intros c Hc. change (6 =? 6) with true. cbv iota. rewrite <-(Z.pow_0_r 2), testbit_pow2 by lia. apply Z.eqb_sym.
Qed.

Lemma new_big_spec q A FL SL s shift : pool_ok q A FL SL → A !! s = Some (SUser 1) →
  min_shift q ≤ shift ≤ 11 → 7 ≤ shift → SL shift = [] →
  page_started q A FL s shift (new_big q (AtPage s) shift (shift - min_shift q)).
Proof.
  intros HP Hs Hsh H7 HSL. destruct (chunk_sizes shift) as (_ & _ & _ & Hn & _); [lia|].
  destruct (big_chunks shift) as (H32 & _ & _); [lia|].
  assert (slot_type shift = NGX_SLAB_BIG) as Hty.
  { unfold slot_type. by rewrite (proj2 (Z.ltb_ge _ _)), (proj2 (Z.eqb_neq _ _)) by lia. }
  assert (Hw : ∀ i, 0 ≤ i → Z.testbit (Z.lor (ushl 64 1 NGX_SLAB_MAP_SHIFT) shift) i = (i =? 32) || Z.testbit shift i).
  { intros i Hi. rewrite Z.lor_spec, ushl_one by (unfold NGX_SLAB_MAP_SHIFT; lia).
    by rewrite Z.shiftl_1_l, testbit_pow2, Z.eqb_sym by (unfold NGX_SLAB_MAP_SHIFT; lia). }
  unfold new_big. rewrite <-Hty. apply (new_in_slab_spec q A FL SL); [done..|lia|done| |].
  - unfold slab_form. rewrite (proj2 (Z.ltb_ge _ _)), (proj2 (Z.eqb_neq _ _)) by lia. cbn [nodes set_nodes].
    rewrite nd_insert. cbn [slab]. split.
    + pose proof (lor_range 33 (ushl 64 1 NGX_SLAB_MAP_SHIFT) shift ltac:(lia)) as Hlr.
      pose proof (Z.pow_le_mono_r 2 33 (32 + nchunks shift) ltac:(lia) ltac:(lia)).
      specialize (Hlr ltac:(by vm_compute) ltac:(lia)). lia.
    + apply Z.bits_inj'. intros i Hi. rewrite Z.testbit_mod_pow2, Hw by lia.
      destruct (Z.ltb_spec i 32); [by rewrite (proj2 (Z.eqb_neq _ _)) by lia|].
      by rewrite (testbit_small shift 32) by lia.
  - intros c Hc. rewrite (proj2 (Z.eqb_neq shift 6)), Hw by lia. rewrite (testbit_small shift 32), orb_false_r by lia.
    bool_cases; done.
Qed.

(** ** The blocks of the clients *)

(** The block at [a] of [sz] bytes is a part of the segment [g] at [s], and in use. *)
Definition block_in q s (g : seg) (a sz : Z) : Prop :=
  match g with
  | SUser n => a = page_addr q s ∧ sz = 4096 * n
  | SSlot shift C => ∃ c, c ∈ C ∧ a = chunk_addr q s shift c ∧ sz = 2 ^ shift
  | _ => False
  end.
Definition block q A (a sz : Z) : Prop := ∃ s g, A !! s = Some g ∧ block_in q s g a sz.

(** Between two operations nothing is loose, neighbouring free runs are joined, and pages
    with no chunk in use are free. *)
Record settled A : Prop := {
  set_coalesced : coalesced A;
  set_tight i m : A !! i ≠ Some (SLoose m);
  set_used s shift C : A !! s = Some (SSlot shift C) → C ≠ ∅
}.

(** A block lies in its segment, behind the bitmap. *)
Lemma block_range q A FL SL s g a sz : pool_ok q A FL SL → A !! s = Some g → block_in q s g a sz →
  page_addr q s ≤ a ∧ a + sz ≤ page_addr q (s + seg_len g) ∧ 8 ≤ sz ∧ a mod 8 = 0 ∧
  match g with SSlot shift _ => page_addr q s + reserved shift * 2 ^ shift ≤ a | _ => True end.
Proof.
  intros HP Hs Hb. destruct (tile_in _ _ (ok_tiles _ _ _ _ HP) _ _ Hs) as (? & Hn & ?).
  pose proof (par_shift _ (ok_params _ _ _ _ HP)).
  destruct g as [n|n|shift C|n]; simpl in Hb, Hn |- *; [done| | |done].
  - destruct Hb as [-> ->]. destruct (chunk_addr_range _ _ _ _ _ _ 11 0 HP Hs) as (? & ? & _); [lia|by vm_compute|].
    unfold page_addr in *. split_and!; lia.
  - destruct Hb as (c & Hc & -> & ->). pose proof (ok_segs _ _ _ _ HP _ _ Hs) as Hok. simpl in Hok.
    pose proof (slot_chunks _ _ _ _ Hok c Hc). pose proof (slot_shift _ _ _ _ Hok).
    destruct (chunk_sizes shift) as (Hsz & ? & _ & _ & ?); [lia|].
    destruct (chunk_addr_range _ _ _ _ _ _ shift c HP Hs) as (? & Hm & ? & ? & ?); [lia..|].
    split_and!; [done|unfold page_addr in *; lia|lia| |unfold chunk_addr; nia].
    unfold chunk_addr. rewrite Z.add_mod, Hm by lia.
    replace (c * 2 ^ shift) with (c * 2 ^ (shift - 3) * 8); [by rewrite Z.mod_mul|].
    replace shift with (shift - 3 + 3) at 2 by lia. rewrite Z.pow_add_r by lia. lia.
Qed.

(** Blocks do not overlap. *)
Lemma blocks_apart q A FL SL a sz b sz' : pool_ok q A FL SL → block q A a sz → block q A b sz' →
  (a = b ∧ sz = sz') ∨ a + sz ≤ b ∨ b + sz' ≤ a.
Proof.
  intros HP (s & g & Hs & Ha) (s' & g' & Hs' & Hb). pose proof (ok_tiles _ _ _ _ HP) as HT.
  destruct (decide (s' = s)) as [->|Hne].
  - simplify_eq. destruct g as [n|n|shift C|n]; simpl in Ha, Hb; [done| | |done].
    + left. destruct Ha, Hb. split; congruence.
    + destruct Ha as (c & Hc & -> & ->), Hb as (c' & Hc' & -> & ->). unfold chunk_addr.
      destruct (Z.lt_total c c') as [?|[->|?]]; [right; left; nia|by left|right; right; nia].
  - destruct (block_range _ _ _ _ _ _ _ _ HP Hs Ha) as (? & ? & _).
    destruct (block_range _ _ _ _ _ _ _ _ HP Hs' Hb) as (? & ? & _).
    right. destruct (tile_other _ _ _ _ _ _ HT Hs Hs' Hne); unfold page_addr in *; lia.
Qed.

Lemma block_in_busy q s g a sz : block_in q s g a sz → busy g = true.
Proof. by destruct g. Qed.

Lemma carve_busy A s n m i g : A !! s = Some (SFree m) → (A !! (s + n) = None ∨ n = m) → 1 ≤ n ≤ m →
  busy g = true → carve A s n m !! i = Some g ↔ (i = s ∧ g = SUser n) ∨ A !! i = Some g.
Proof.
  intros Hs Hn Hnm Hg. split.
  - intros [[-> ->]|[(_ & _ & ->)|(_ & _ & ?)]]%carve_lookup; auto. done.
  - intros [[-> ->]|Hi]; unfold carve.
    + destruct (Z.ltb_spec n m); [rewrite lookup_insert_ne by lia|]; by rewrite lookup_insert_eq.
    + assert (s ≠ i) by (intros ->; by simplify_eq).
      destruct (Z.ltb_spec n m); [rewrite lookup_insert_ne by (intros ?; destruct Hn; [congruence|lia])|];
        by rewrite lookup_insert_ne.
Qed.

Lemma carve_settled np A s n m : tiles np A → settled A → A !! s = Some (SFree m) → 1 ≤ n ≤ m →
  settled (carve A s n m).
Proof.
  intros HT [S1 S2 S3] Hs Hn. split.
  - intros i k k' Hi Hj. apply carve_lookup in Hi as [[_ ?]|[(Hlt & -> & [= ->])|(Hi1 & Hi2 & Hi)]]; [done| | |done];
      apply carve_lookup in Hj as [[_ ?]|[(_ & E & _)|(_ & _ & Hj)]]; try done; [lia| | |].
    + replace (s + n + (m - n)) with (s + m) in Hj by lia. by apply (S1 _ _ _ Hs Hj).
    + destruct (tile_in _ _ HT _ _ Hi) as (_ & ? & _). simpl in *.
      destruct (tile_other _ _ _ _ _ _ HT Hs Hi Hi1); simpl in *; lia.
    + by apply (S1 _ _ _ Hi Hj).
  - intros i k [[_ ?]|[(_ & _ & ?)|(_ & _ & ?%S2)]]%carve_lookup; done.
  - intros i sh C [[_ ?]|[(_ & _ & ?)|(_ & _ & ?%S3)]]%carve_lookup; done.
Qed.

Lemma carve_inner np A s n m : tiles np A → A !! s = Some (SFree m) → 1 ≤ n ≤ m → A !! (s + n) = None ∨ n = m.
Proof.
  intros HT Hs Hn. destruct (decide (n = m)); [by right|left]. eapply tile_inner; [done..|simpl; lia].
Qed.

Lemma carve_blocks q np A s n m a sz : tiles np A → A !! s = Some (SFree m) → 1 ≤ n ≤ m →
  block q (carve A s n m) a sz ↔ (a = page_addr q s ∧ sz = 4096 * n) ∨ block q A a sz.
Proof.
  intros HT Hs Hn. pose proof (carve_inner _ _ _ _ _ HT Hs Hn) as Hin. split.
  - intros (i & g & Hi & Hb). pose proof (block_in_busy _ _ _ _ _ Hb) as Hg.
    apply (carve_busy _ _ _ _ _ _ Hs Hin Hn Hg) in Hi as [[-> ->]|Hi]; [by left|right; by exists i, g].
  - intros [[-> ->]|(i & g & Hi & Hb)].
    + exists s, (SUser n). split; [|done]. apply carve_busy; auto.
    + exists i, g. split; [|done]. apply carve_busy; eauto using block_in_busy.
Qed.

(** ** Choosing the slot *)

Lemma count_shift_log2 fuel s0 shift : 0 < s0 < 2 ^ Z.of_nat fuel → count_shift fuel s0 shift = shift + Z.log2 s0.
Proof.
  revert s0 shift. induction fuel as [|fuel IH]; intros s0 shift Hs; [change (2 ^ Z.of_nat 0) with 1 in Hs; lia|].
  cbn [count_shift]. destruct (decide (s0 = 1)) as [->|Hne]; [simpl; lia|].
  assert (Hh : 0 < s0 ≫ 1 < 2 ^ Z.of_nat fuel).
  { rewrite Z.shiftr_div_pow2 by lia. change (2 ^ 1) with 2. split; [apply Z.div_str_pos; lia|].
    apply Z.div_lt_upper_bound; [lia|]. rewrite Nat2Z.inj_succ, Z.pow_succ_r in Hs by lia. lia. }
  rewrite (proj2 (Z.eqb_neq _ _)), IH, Z.log2_shiftr by lia.
  assert (1 ≤ Z.log2 s0) by (apply Z.log2_le_pow2; lia). lia.
Qed.

(** The slot holds chunks of at least [size] bytes. *)
Lemma size_shift_spec q size : params_ok q → 0 ≤ size ≤ 2048 →
  min_shift q ≤ size_shift q size ≤ 11 ∧ size ≤ 2 ^ size_shift q size.
Proof.
  intros [P1 P2 _ _ _] Hs. unfold size_shift. destruct (Z.ltb_spec (min_size q) size) as [Hlt|Hge]; [|lia].
  pose proof (pow2_pos (min_shift q) ltac:(lia)).
  assert (2 ^ 3 ≤ 2 ^ min_shift q) by (apply Z.pow_le_mono_r; lia).
  rewrite count_shift_log2 by (change (2 ^ Z.of_nat 64) with (2 ^ 64); lia).
  destruct (Z.log2_spec (size - 1)) as [L1 L2]; [lia|]. split.
  - split.
    + apply Z.lt_succ_r. replace (Z.succ (1 + Z.log2 (size - 1))) with (Z.succ (Z.succ (Z.log2 (size - 1)))) by lia.
      destruct (Z.lt_ge_cases (min_shift q) (Z.succ (Z.succ (Z.log2 (size - 1))))) as [|Hc]; [done|].
      pose proof (Z.pow_le_mono_r 2 (Z.succ (Z.log2 (size - 1))) (min_shift q)). lia.
    + assert (Z.log2 (size - 1) ≤ Z.log2 2047) as Hl by (apply Z.log2_le_mono; lia).
      change (Z.log2 2047) with 10 in Hl. lia.
  - replace (1 + Z.log2 (size - 1)) with (Z.succ (Z.log2 (size - 1))) by lia. lia.
Qed.

(** ** [ngx_slab_alloc] *)

(** The pages that [size] bytes need when no page of their slot has room. *)
Definition npages (size : Z) : Z :=
  if ngx_slab_max_size <? size then (size ≫ 12) + (if size mod 4096 =? 0 then 0 else 1) else 1.

(** [p] is a new block of [cap] bytes; the others keep their contents. *)
Record allocated q A (size p : Z) q' (cap : Z) A' : Prop := {
  al_size : size ≤ cap ∧ (cap ≤ 2048 ∨ cap < size + 4096) ∧ (size ≤ 2048 → cap = 2 ^ size_shift q size);
  al_settled : settled A';
  al_params : same_params q q';
  al_blocks a sz : block q A' a sz ↔ (a = p ∧ sz = cap) ∨ block q A a sz;
  al_fresh sz : ¬ block q A p sz;
  al_mem b sz a : block q A b sz → b ≤ a < b + sz → word q' a = word q a
}.

Lemma npages_size size : 0 ≤ size → 1 ≤ npages size ∧ size ≤ 4096 * npages size ∧
  (2048 < size → 4096 * npages size < size + 4096).
Proof.
  intros Hs. unfold npages. change ngx_slab_max_size with 2048. destruct (Z.ltb_spec 2048 size); [|lia].
  rewrite Z.shiftr_div_pow2 by lia. change (2 ^ 12) with 4096.
  pose proof (Z.div_mod size 4096 ltac:(lia)). pose proof (Z.mod_pos_bound size 4096 ltac:(lia)).
  destruct (Z.eqb_spec (size mod 4096) 0); split_and!; try lia.
Qed.

(** No block lies in a free run. *)
Lemma free_run_empty q A FL SL s m a sz : pool_ok q A FL SL → A !! s = Some (SFree m) → block q A a sz →
  a + sz ≤ page_addr q s ∨ page_addr q (s + m) ≤ a.
Proof.
  intros HP Hs (s' & g & Hs' & Hb). destruct (block_range _ _ _ _ _ _ _ _ HP Hs' Hb) as (? & ? & _).
  assert (s' ≠ s) by (intros ->; by simplify_eq).
  destruct (tile_other _ _ _ _ _ _ (ok_tiles _ _ _ _ HP) Hs Hs') as [?|?]; [done|..]; unfold page_addr in *; simpl in *; lia.
Qed.

Lemma slot_update_idle A s shift C : coalesced A → (∀ i m, A !! i ≠ Some (SLoose m)) →
  coalesced (<[s := SSlot shift C]> A) ∧ ∀ i m, <[s := SSlot shift C]> A !! i ≠ Some (SLoose m).
Proof.
  intros S1 S2. split.
  - intros i k k' [[_ ?]|[_ Hi]]%lookup_insert_Some [[_ ?]|[_ Hj]]%lookup_insert_Some; [done..|].
    by apply (S1 _ _ _ Hi Hj).
  - intros i k [[_ ?]|[_ Hi]]%lookup_insert_Some; [done|by apply S2 in Hi].
Qed.

Lemma settled_slot A s shift C : settled A → C ≠ ∅ → settled (<[s := SSlot shift C]> A).
Proof.
  intros [S1 S2 S3] HC. destruct (slot_update_idle A s shift C S1 S2). split; [done..|].
  intros i sh C' [[_ [= _ <-]]|[_ Hi]]%lookup_insert_Some; [done|by eapply S3].
Qed.

(** The words of a bitmap are in no block. *)
Lemma bitmap_apart q A FL SL s shift C c b sz a : pool_ok q A FL SL → A !! s = Some (SSlot shift C) → 3 ≤ shift < 6 →
  0 ≤ c < nchunks shift → block q A b sz → b ≤ a < b + sz → a ≠ page_addr q s + 8 * (c / 64).
Proof.
  intros HP Hs Hsh Hc (i & g & Hi & Hb) Ha ->. destruct (block_range _ _ _ _ _ _ _ _ HP Hi Hb) as (? & ? & _ & _ & Hbit).
  destruct (small_map_range shift) as [? ?]; [lia|]. destruct (small_reserved_range shift) as [? ?]; [lia|].
  assert (Hres : reserved shift = small_reserved shift) by (unfold reserved; by rewrite (proj2 (Z.ltb_lt _ _)) by lia).
  assert (0 ≤ c / 64 < small_map shift) by (split; [apply Z.div_pos; lia|apply Z.div_lt_upper_bound; lia]).
  destruct (decide (i = s)) as [->|Hne]; [simplify_eq; lia|].
  destruct (tile_other _ _ _ _ _ _ (ok_tiles _ _ _ _ HP) Hs Hi Hne) as [?|?]; unfold page_addr in *; simpl in *; lia.
Qed.

(** A chunk of a page that was in use already. *)
Lemma taken_allocated q A FL SL s shift C size r : pool_ok q A FL SL → settled A → A !! s = Some (SSlot shift C) →
  size ≤ 2 ^ shift → 2 ^ shift = 2 ^ size_shift q size → chunk_taken q A FL s shift C r →
  ∃ p q' A' FL' SL', r = Some (Some (p, q')) ∧ 0 < p ∧ pool_ok q' A' FL' SL' ∧ allocated q A size p q' (2 ^ shift) A'.
Proof.
  intros HP HS Hs Hsz Hsize (c & q' & SL' & -> & Hc & HcC & HP' & Hm & Hpar).
  pose proof (ok_segs _ _ _ _ HP _ _ Hs) as Hok. pose proof (slot_shift _ _ _ _ Hok) as Hsh.
  pose proof (par_shift _ (ok_params _ _ _ _ HP)). destruct (chunk_sizes shift) as (_ & Hr & _); [lia|].
  destruct (chunk_addr_range _ _ _ _ _ _ shift c HP Hs) as (? & _ & ? & _); [lia..|].
  eexists _, q', _, FL, SL'. split; [done|]. split; [lia|]. split; [done|]. split; [split_and!; [done|left; apply chunk_sizes; lia|by rewrite Hsize]| |done| | |].
  - apply settled_slot; [done|set_solver].
  - intros a sz. split.
    + intros (i & g & [[<- <-]|[Hne Hi]]%lookup_insert_Some & Hb); [|right; by exists i, g].
      destruct Hb as (d & [->%elem_of_singleton|Hd]%elem_of_union & -> & ->); [by left|right].
      exists s, (SSlot shift C). split; [done|]. by exists d.
    + intros [[-> ->]|(i & g & Hi & Hb)].
      * exists s, (SSlot shift ({[c]} ∪ C)). rewrite lookup_insert_eq. split; [done|]. exists c. set_solver.
      * destruct (decide (s = i)) as [->|]; [|exists i, g; by rewrite lookup_insert_ne].
        simplify_eq. destruct Hb as (d & Hd & -> & ->). exists i, (SSlot shift ({[c]} ∪ C)).
        rewrite lookup_insert_eq. split; [done|]. exists d. set_solver.
  - intros sz (i & g & Hi & Hb). destruct (decide (i = s)) as [->|Hne].
    + simplify_eq. destruct Hb as (d & Hd & E & _). unfold chunk_addr in E. assert (d = c) by nia. by subst.
    + destruct (block_range _ _ _ _ _ _ _ _ HP Hi Hb) as (? & ? & ? & _).
      destruct (chunk_addr_range _ _ _ _ _ _ shift c HP Hs) as (_ & _ & _ & ? & _); [lia..|].
      destruct (chunk_sizes shift) as (_ & _ & _ & _ & ?); [lia|].
      destruct (tile_other _ _ _ _ _ _ (ok_tiles _ _ _ _ HP) Hs Hi Hne) as [?|?]; unfold page_addr in *; simpl in *; lia.
  - intros b sz a Hb Ha. unfold word. rewrite Hm.
    change (word (put_chunk q s shift c true) a = word q a). rewrite put_chunk_word.
    destruct (Z.ltb_spec shift 6) as [H6|]; [|done]. simpl. case_bool_decide as E; [|done]. exfalso.
    by eapply (bitmap_apart q A FL SL s shift C c b sz a); [done|done|lia|lia|done|done|].
Qed.

Lemma carve_head A s n m : 1 ≤ n ≤ m → carve A s n m !! s = Some (SUser n).
Proof.
  intros Hn. unfold carve. destruct (Z.ltb_spec n m); [rewrite lookup_insert_ne by lia|]; by rewrite lookup_insert_eq.
Qed.

Lemma page_addr_pos q A FL SL s g : pool_ok q A FL SL → A !! s = Some g → 0 < page_addr q s.
Proof.
  intros HP Hs. destruct (tile_in _ _ (ok_tiles _ _ _ _ HP) _ _ Hs) as (? & _).
  pose proof (par_start _ (ok_params _ _ _ _ HP)). unfold page_addr. lia.
Qed.

(** Whole pages. *)
Lemma pages_allocated q A FL SL s n m N FL' size : pool_ok q A FL SL → settled A → A !! s = Some (SFree m) →
  1 ≤ n ≤ m → 2048 < size ≤ 4096 * n → 4096 * n < size + 4096 → pool_ok (set_nodes q N) (carve A s n m) FL' SL →
  allocated q A size (page_addr q s) (set_nodes q N) (4096 * n) (carve A s n m).
Proof.
  intros HP HS Hs Hn Hsz Hsz' HP'. pose proof (ok_tiles _ _ _ _ HP) as HT. split; [lia| |done| | |done].
  - by eapply carve_settled.
  - intros a sz. by eapply carve_blocks.
  - intros sz Hb. destruct (free_run_empty _ _ _ _ _ _ _ _ HP Hs Hb);
      destruct Hb as (i & g & Hi & Hb); destruct (block_range _ _ _ _ _ _ _ _ HP Hi Hb) as (_ & _ & ? & _);
      unfold page_addr in *; lia.
Qed.

(** A chunk of a new page. *)
Lemma started_allocated q A FL SL s m N FL' shift size r : pool_ok q A FL SL → settled A →
  A !! s = Some (SFree m) → 1 ≤ m → pool_ok (set_nodes q N) (carve A s 1 m) FL' SL → min_shift q ≤ shift ≤ 11 →
  size ≤ 2 ^ shift → 2 ^ shift = 2 ^ size_shift q size → page_started (set_nodes q N) (carve A s 1 m) FL' s shift r →
  ∃ p q' A' FL'' SL'', r = Some (p, q') ∧ 0 < p ∧ pool_ok q' A' FL'' SL'' ∧ allocated q A size p q' (2 ^ shift) A'.
Proof.
  intros HP HS Hs Hm HP1 Hsh Hsz Hsize (q' & SL'' & -> & HP2 & Hpar & Hmem).
  pose proof (ok_tiles _ _ _ _ HP) as HT. pose proof (carve_settled _ _ _ 1 _ HT HS Hs ltac:(lia)) as HS1.
  pose proof (par_shift _ (ok_params _ _ _ _ HP)). pose proof (carve_head A s 1 m ltac:(lia)) as Hhd.
  destruct (chunk_sizes shift) as (Hcs & Hr & Hr1 & _ & Hp); [lia|].
  destruct (chunk_addr_range _ _ _ _ _ _ shift (reserved shift) HP1 Hhd) as (? & _ & ? & ? & _); [lia..|].
  change (chunk_addr (set_nodes q N)) with (chunk_addr q) in *. change (page_addr (set_nodes q N)) with (page_addr q) in *.
  assert (Hout : ∀ a sz, block q A a sz → a + sz ≤ page_addr q s ∨ page_addr q s + 4096 ≤ a).
  { intros a sz Hb. pose proof (free_run_empty _ _ _ _ _ _ _ _ HP Hs Hb). unfold page_addr in *. lia. }
  eexists _, q', _, FL', SL''. split; [done|]. split; [lia|]. split; [done|]. split; [split_and!; [done|left; lia|by rewrite Hsize]| |done| | |].
  - apply settled_slot; [done|set_solver].
  - intros a sz. split.
    + intros (i & g & [[<- <-]|[Hne Hi]]%lookup_insert_Some & Hb).
      * destruct Hb as (d & ->%elem_of_singleton & -> & ->). by left.
      * assert (Hb' : block q (carve A s 1 m) a sz) by (by exists i, g). right.
        apply (carve_blocks q (last q) A s 1 m _ _ HT Hs ltac:(lia)) in Hb' as [[-> _]|?]; [|done].
        destruct (block_range _ _ _ _ _ _ _ _ HP1 Hi Hb) as (? & ? & ? & _).
        destruct (tile_other _ _ _ _ _ _ (ok_tiles _ _ _ _ HP1) Hhd Hi (not_eq_sym Hne)) as [?|?];
          unfold page_addr in *; simpl in *; lia.
    + intros [[-> ->]|Hb].
      * exists s, (SSlot shift {[reserved shift]}). rewrite lookup_insert_eq. split; [done|]. exists (reserved shift). set_solver.
      * assert (Hb' : block q (carve A s 1 m) a sz) by (apply (carve_blocks q (last q) A s 1 m _ _ HT Hs ltac:(lia)); by right).
        destruct Hb' as (i & g & Hi & Hbi). exists i, g. destruct (decide (s = i)) as [->|]; [|by rewrite lookup_insert_ne].
        simplify_eq. destruct Hbi as [-> ->]. destruct (Hout _ _ Hb); lia.
  - intros sz Hb. destruct (Hout _ _ Hb); [|lia]. destruct Hb as (i & g & Hi & Hb).
    destruct (block_range _ _ _ _ _ _ _ _ HP Hi Hb) as (_ & _ & ? & _). lia.
  - intros b sz a Hb Ha. destruct (Hmem a) as [?|Hw]; [|by rewrite Hw].
    destruct (Hout _ _ Hb); nia.
Qed.

(** The call returns; a null pointer means that there is no free run of enough pages. *)
(** Requests of more than half a page. *)
Lemma alloc_large_spec q A FL SL size : pool_ok q A FL SL → settled A → 2048 < size →
  (ngx_slab_alloc q size = Some (0, q) ∧ ∀ i m, A !! i = Some (SFree m) → m < npages size) ∨
  ∃ p q' cap A' FL' SL', ngx_slab_alloc q size = Some (p, q') ∧ 0 < p ∧ pool_ok q' A' FL' SL' ∧
    allocated q A size p q' cap A'.
Proof.
  intros HP HS Hsz. destruct (npages_size size) as (Hn1 & Hn2 & Hn3); [lia|]. unfold ngx_slab_alloc, npages in *.
  change ngx_slab_max_size with 2048 in *. change ngx_pagesize with 4096 in *. change ngx_pagesize_shift with 12 in *.
  rewrite (proj2 (Z.ltb_lt _ _) Hsz) in *.
  destruct (alloc_pages_spec q A FL SL _ HP Hn1) as [[-> Hno]|(s & m & N & FL' & Hs & Hnm & -> & HP')]; [by left|].
  right. bind_simpl. cbn [page_index]. bind_simpl.
  destruct (tile_in _ _ (ok_tiles _ _ _ _ HP) _ _ Hs) as (? & ? & ?). simpl in *.
  destruct (ok_params _ _ _ _ HP) as [_ _ P3 P4 P5].
  assert (u64 ((s ≪ 12) + start q) = page_addr q s) as ->.
  { rewrite Z.shiftl_mul_pow2 by lia. change (2 ^ 12) with 4096. unfold page_addr. rewrite uwrap_small; lia. }
  eexists _, _, _, _, FL', SL. split; [done|]. split; [by eapply page_addr_pos|]. split; [done|].
  eapply pages_allocated; try done. by apply Hn3.
Qed.

Lemma alloc_spec q A FL SL size : pool_ok q A FL SL → settled A → 0 ≤ size →
  (ngx_slab_alloc q size = Some (0, q) ∧ ∀ i m, A !! i = Some (SFree m) → m < npages size) ∨
  ∃ p q' cap A' FL' SL', ngx_slab_alloc q size = Some (p, q') ∧ 0 < p ∧ pool_ok q' A' FL' SL' ∧
    allocated q A size p q' cap A'.
Proof.
  intros HP HS Hsz. destruct (decide (2048 < size)) as [Hbig|Hsmall]; [by eapply alloc_large_spec|].
  pose proof (par_shift _ (ok_params _ _ _ _ HP)) as H3. unfold ngx_slab_alloc, npages.
  change ngx_slab_max_size with 2048. rewrite (proj2 (Z.ltb_ge _ _)) by lia.
  destruct (size_shift_spec q size (ok_params _ _ _ _ HP)) as [Hsh Hcap]; [lia|].
  set (shift := size_shift q size) in *.
  pose proof (ok_slots _ _ _ _ HP shift Hsh) as HR. destruct (ring_head _ _ _ _ HR) as (Hnx & Sh & Sc).
  unfold slot_of in Hnx, Sh, Sc. rewrite (get_nd q (AtSlot (shift - min_shift q))) by done. bind_simpl.
  rewrite Hnx. bind_simpl. rewrite get_nd by done. bind_simpl.
  destruct (SL shift) as [|s l] eqn:ESL.
  - cbn [fmap list_fmap succ] in *. rewrite Hnx, decide_True by done. bind_simpl. unfold alloc_new.
    destruct (alloc_pages_spec q A FL SL 1 HP) as [[-> Hno]|(s & m & N & FL' & Hs & Hnm & -> & HP')]; [lia|by left|].
    right. bind_simpl. pose proof (carve_head A s 1 m ltac:(lia)) as Hhd. change ngx_slab_exact_shift with 6.
    destruct (started_allocated q A FL SL s m N FL' shift size
      (if shift <? 6 then new_small (set_nodes q N) (AtPage s) shift (shift - min_shift q)
       else if shift =? 6 then new_exact (set_nodes q N) (AtPage s) (shift - min_shift q)
       else new_big (set_nodes q N) (AtPage s) shift (shift - min_shift q)))
      as (p & q' & A' & FL'' & SL'' & -> & Hp & HP'' & Hal); [done..| |eauto 20].
    destruct (Z.ltb_spec shift 6); [apply (new_small_spec (set_nodes q N) _ _ SL); simpl; done || lia|].
    destruct (Z.eqb_spec shift 6) as [E6|]; [rewrite E6 in *; apply (new_exact_spec (set_nodes q N) _ _ SL); simpl; done || lia|].
    apply (new_big_spec (set_nodes q N) _ _ SL); simpl; done || lia.
  - right. destruct (slot_head q A FL SL shift s l HP Hsh ESL) as (C & Hs & Hf).
    cbn [fmap list_fmap succ] in *.
    assert (HRm : ring (nodes q) (slot_type shift) (slot_of q shift) ([] ++ AtPage s :: (AtPage <$> l))) by done.
    destruct (ring_member _ _ _ _ _ _ HRm) as (_ & Hns & _ & _ & _ & _ & Hne).
    rewrite decide_False by (rewrite Hns; congruence). change ngx_slab_exact_shift with 6.
    set (fuel := base.size (nodes q)).
    destruct (taken_allocated q A FL SL s shift C size
      (if shift <? 6 then alloc_small (S fuel) q (AtPage s) shift
       else if shift =? 6 then alloc_exact (S fuel) q (AtPage s) shift
       else alloc_big (S fuel) q (AtPage s) shift))
      as (p & q' & A' & FL'' & SL'' & -> & Hp & HP'' & Hal); [done..| |bind_simpl; eauto 20].
    destruct (Z.ltb_spec shift 6); [eapply alloc_small_spec; try done; lia|].
    destruct (Z.eqb_spec shift 6) as [E6|]; [rewrite E6 in *; by eapply alloc_exact_spec|].
    eapply alloc_big_spec; try done; lia.
Qed.
