(* ===== verification/SlabFree.v ===== *)
(** * The slab allocator: freeing

    [ngx_slab_free] on a block in use, for every kind of page, and on other pointers. *)

From stdpp Require Import functions.
From S2P Require Import Prelude Words Slab SlabList SlabPages SlabChunks SlabAlloc.

Implicit Types (q : ngx_slab_pool_t) (s i n m c : Z) (A : layout) (C : gset Z).

(** ** From an address to its page and chunk *)

Lemma land_low p k : 0 ≤ k → Z.land p ((1 ≪ k) - 1) = p mod 2 ^ k.
Proof.
  intros Hk. rewrite Z.shiftl_1_l. replace (2 ^ k - 1) with (Z.ones k) by (rewrite Z.ones_equiv; lia).
  by rewrite Z.land_ones.
Qed.

Lemma land_page p : Z.land p (ngx_pagesize - 1) = p mod 4096.
Proof. apply (land_low p 12). lia. Qed.

Lemma land_base p : 0 ≤ p < 2 ^ 64 → Z.land p (unot 64 (ngx_pagesize - 1)) = p - p mod 4096.
Proof.
  intros Hp. replace (p - p mod 4096) with ((p ≫ 12) ≪ 12).
  - change (ngx_pagesize - 1) with (Z.ones 12). bits.
  - rewrite Z.shiftl_mul_pow2, Z.shiftr_div_pow2 by lia. change (2 ^ 12) with 4096.
    pose proof (Z.div_mod p 4096). lia.
Qed.

Lemma page_addr_mod q s : params_ok q → page_addr q s mod 4096 = 0.
Proof.
  intros [_ _ [_ P1] _ _]. unfold page_addr. by rewrite Z.mul_comm, Z.mod_add.
Qed.

(** Byte [o] of page [s]. *)
Lemma page_decode q s o : params_ok q → 0 ≤ o < 4096 →
  (page_addr q s + o - start q) ≫ ngx_pagesize_shift = s ∧ (page_addr q s + o) mod 4096 = o.
Proof.
  intros HP Ho. pose proof (page_addr_mod q s HP) as Hm. split.
  - rewrite Z.shiftr_div_pow2 by (unfold ngx_pagesize_shift; lia). change (2 ^ ngx_pagesize_shift) with 4096.
    unfold page_addr. replace (start q + 4096 * s + o - start q) with (o + s * 4096) by lia.
    rewrite Z.div_add, Z.div_small by lia. lia.
  - rewrite Z.add_mod, Hm, Z.add_0_l, Zmod_mod by lia. by apply Z.mod_small.
Qed.

Lemma chunk_decode q s shift c : params_ok q → 3 ≤ shift ≤ 11 → 0 ≤ c < nchunks shift →
  0 ≤ chunk_addr q s shift c < 2 ^ 64 → let p := chunk_addr q s shift c in
  (p - start q) ≫ ngx_pagesize_shift = s ∧ Z.land p ((1 ≪ shift) - 1) = 0 ∧
  Z.land p (ngx_pagesize - 1) ≫ shift = c ∧ Z.land p (unot 64 (ngx_pagesize - 1)) = page_addr q s.
Proof.
  intros HP Hsh Hc Hp p. destruct (chunk_sizes shift Hsh) as (Hn & _ & _ & _ & H8).
  destruct (page_decode q s (c * 2 ^ shift) HP) as [E1 E2]; [nia|]. fold (chunk_addr q s shift c) in E1, E2. fold p in E1, E2.
  split_and!; [done| | |].
  - rewrite land_low by lia. rewrite <-(Z.mod_mod_divide p 4096) by (exists (nchunks shift); lia).
    rewrite E2. by apply Z.mod_mul; lia.
  - rewrite land_page, E2, Z.shiftr_div_pow2 by lia. apply Z.div_mul. lia.
  - rewrite land_base, E2 by done. subst p. unfold chunk_addr. lia.
Qed.

(** ** What remains of a page *)

(** The result of freeing the block at [p]: the other blocks stay, with their contents. *)
Record released q A p q' A' : Prop := {
  rel_settled : settled A';
  rel_params : same_params q q';
  rel_blocks a sz : block q A' a sz ↔ a ≠ p ∧ block q A a sz;
  rel_mem b sz a : block q A b sz → b ≤ a < b + sz → word q' a = word q a
}.

(** A block is in the segment at [s] or in another one. *)
Lemma block_split q A s g a sz : A !! s = Some g →
  block q A a sz ↔ block_in q s g a sz ∨ ∃ i g', i ≠ s ∧ A !! i = Some g' ∧ block_in q i g' a sz.
Proof.
  intros Hs. split.
  - intros (i & g' & Hi & Hb). destruct (decide (i = s)) as [->|]; [left; by simplify_eq|right; by exists i, g'].
  - intros [Hb|(i & g' & _ & Hi & Hb)]; [by exists s, g|by exists i, g'].
Qed.

Lemma other_block q A FL SL s shift C c i g sz : pool_ok q A FL SL → A !! s = Some (SSlot shift C) → c ∈ C →
  i ≠ s → A !! i = Some g → ¬ block_in q i g (chunk_addr q s shift c) sz.
Proof.
  intros HP Hs Hc Hne Hi Hb. destruct (block_range _ _ _ _ _ _ _ _ HP Hi Hb) as (? & ? & ? & _).
  assert (Hb' : block_in q s (SSlot shift C) (chunk_addr q s shift c) (2 ^ shift)) by (by exists c).
  destruct (block_range _ _ _ _ _ _ _ _ HP Hs Hb') as (? & ? & ? & _).
  destruct (tile_other _ _ _ _ _ _ (ok_tiles _ _ _ _ HP) Hs Hi Hne); unfold page_addr in *; simpl in *; lia.
Qed.

(** A page without chunks in use is freed, another one is kept. *)
Lemma settle_slot q A FL SL s shift C c q1 : pool_ok q A FL SL → settled A → A !! s = Some (SSlot shift C) → c ∈ C →
  (∃ SL', pool_ok (put_chunk q1 s shift c false) (<[s := SSlot shift (C ∖ {[c]})]> A) FL SL') → mem q1 = mem q →
  same_params q q1 → ∃ q' A' FL' SL',
    (if decide (C ∖ {[c]} = ∅) then ngx_slab_free_pages (put_chunk q1 s shift c false) (AtPage s) 1
     else Some (put_chunk q1 s shift c false)) = Some q' ∧
    pool_ok q' A' FL' SL' ∧ released q A (chunk_addr q s shift c) q' A'.
Proof.
  intros HP HS Hs Hc [SL' HP2] Hmem Hpar. set (q2 := put_chunk q1 s shift c false) in *.
  pose proof (ok_segs _ _ _ _ HP _ _ Hs) as Hok. simpl in Hok. pose proof (slot_shift _ _ _ _ Hok) as Hsh.
  pose proof (slot_chunks _ _ _ _ Hok c Hc) as Hcr.
  pose proof (par_shift _ (ok_params _ _ _ _ HP)) as H3. destruct (chunk_sizes shift) as (Hcs & Hr & _ & _ & H8); [lia|].
  assert (Hpar2 : same_params q q2).
  { eapply same_params_trans; [done|]. unfold q2, put_chunk. by destruct (shift <? 6). }
  assert (Hmem2 : ∀ b sz a, block q A b sz → b ≤ a < b + sz → word q2 a = word q a).
  { intros b sz a Hb Ha. subst q2. rewrite put_chunk_word. unfold word. rewrite Hmem.
    destruct (Z.ltb_spec shift 6) as [H6|]; [|done]. simpl. case_bool_decide as E; [|done]. exfalso.
    assert (page_addr q1 s = page_addr q s) as Hpa by (unfold page_addr; by rewrite (proj1 (proj2 (proj2 (proj2 Hpar))))).
    rewrite Hpa in E. by eapply (bitmap_apart q A FL SL s shift C c b sz a); [done|done|lia|lia|done|done|]. }
  destruct (slot_update_idle A s shift (C ∖ {[c]}) (set_coalesced _ HS) (set_tight _ HS)) as [Hco1 Hnl1].
  destruct (decide (C ∖ {[c]} = ∅)) as [He|He].
  - destruct (free_pages_slot q2 _ FL SL' s shift (C ∖ {[c]}) HP2) as (N & A' & FL' & SL'' & E & HP' & Hfr & Hco & Hnl);
      [by rewrite lookup_insert_eq|apply full_false; exists c; set_solver|done..|].
    assert (HA' : ∀ i g, busy g = true → A' !! i = Some g ↔ i ≠ s ∧ A !! i = Some g).
    { intros i g Hg. rewrite Hfr by done. split; intros [Hi Hl]; (split; [done|]);
        [by rewrite lookup_insert_ne in Hl|by rewrite lookup_insert_ne]. }
    eexists _, A', FL', SL''. split; [done|]. split; [done|]. split; [|done| |done].
    + split; [done..|]. intros i sh D Hi. apply (set_used _ HS i sh). by apply HA' in Hi as [_ Hi].
    + intros a sz. rewrite (block_split q A s _ a sz Hs). split.
      * intros (i & g & Hi & Hb). apply HA' in Hi as [Hi1 Hi]; [|by eapply block_in_busy].
        split; [|right; by exists i, g]. intros ->. by eapply (other_block q A FL SL s shift C c i g).
      * intros [Hne [(d & Hd & -> & ->)|(i & g & Hi & Hl & Hb)]].
        -- assert (d = c) by set_solver. by subst.
        -- exists i, g. split; [|done]. apply HA'; [by eapply block_in_busy|done].
  - eexists q2, _, FL, SL'. split; [done|]. split; [done|]. split; [by apply settled_slot|done| |done].
    intros a sz. rewrite (block_split q A s _ a sz Hs), (block_split q _ s (SSlot shift (C ∖ {[c]})) a sz)
      by (by rewrite lookup_insert_eq). split.
    + intros [(d & Hd & -> & ->)|(i & g & Hi & Hl & Hb)].
      * split; [|left; exists d; set_solver]. intros E. unfold chunk_addr in E. assert (d = c) by nia. set_solver.
      * rewrite lookup_insert_ne in Hl by done. split; [|right; by exists i, g].
        intros ->. by eapply (other_block q A FL SL s shift C c i g).
    + intros [Hne [(d & Hd & -> & ->)|(i & g & Hi & Hl & Hb)]].
      * left. exists d. split; [|done]. assert (d ≠ c) by (by intros ->). set_solver.
      * right. exists i, g. by rewrite lookup_insert_ne.
Qed.

Lemma next_full q A FL SL s shift C : pool_ok q A FL SL → A !! s = Some (SSlot shift C) →
  next (nd (nodes q) (AtPage s)) = None ↔ full shift C = true.
Proof.
  intros HP Hs. destruct (full shift C) eqn:Hf.
  - by destruct (slot_full _ _ _ _ (ok_segs _ _ _ _ HP _ _ Hs) Hf) as [-> _].
  - destruct (SL_split _ _ _ _ _ _ _ HP Hs Hf) as (_ & l1 & l2 & _ & _ & HR).
    by destruct (ring_member _ _ _ _ _ _ HR) as (_ & -> & _).
Qed.

(** ** When the page is empty *)

Lemma bits_empty q s shift C : bits_ok q s shift C → 3 ≤ shift ≤ 11 →
  C = ∅ ↔ ∀ c, reserved shift ≤ c < nchunks shift → chunk_bit q s shift c = false.
Proof.
  intros [Hsh Hf Hb Hr] H3. destruct (chunk_sizes shift H3) as (_ & Hres & _). split.
  - intros -> c Hc. rewrite Hb by lia. rewrite (proj2 (Z.ltb_ge _ _)) by lia. by apply bool_decide_eq_false.
  - intros H. apply set_eq. intros c. split; [|set_solver]. intros Hc. pose proof (Hr c Hc) as Hc'.
    specialize (H c Hc'). rewrite Hb, (proj2 (Z.ltb_ge _ _)) in H by lia.
    simpl in H. by apply bool_decide_eq_false in H.
Qed.

Lemma zero_bits w : 0 ≤ w → (w =? 0) = true ↔ ∀ i, 0 ≤ i → Z.testbit w i = false.
Proof.
  intros Hw. rewrite Z.eqb_eq. split; [intros -> i _; apply Z.testbit_0_l|].
  intros H. apply Z.bits_inj'. intros i Hi. rewrite Z.testbit_0_l. auto.
Qed.

Lemma all_clear_spec q s shift C cnt n : readable q s → bits_ok q s shift C → 3 ≤ shift < 6 → 0 ≤ n →
  n + Z.of_nat cnt = small_map shift → ∃ b, all_clear cnt q (page_addr q s) n = Some b ∧
    (b = true ↔ ∀ c, 64 * n ≤ c < nchunks shift → chunk_bit q s shift c = false).
Proof.
  intros HR HB Hsh. pose proof (small_map_range shift Hsh) as [Hm Hnc].
  revert n. induction cnt as [|cnt IH]; intros n Hn Hcnt; cbn [all_clear].
  { exists true. split; [done|]. split; [intros _ c Hc; lia|done]. }
  rewrite (rd_word _ _ HR) by lia. bind_simpl.
  destruct (small_word _ _ _ _ n HB) as [Hw _]; [lia..|].
  assert (Hz : (word q (page_addr q s + 8 * n) =? 0) = true ↔
    ∀ c, 64 * n ≤ c < 64 * (n + 1) → chunk_bit q s shift c = false).
  { rewrite zero_bits by lia. split.
    - intros H c Hc. replace c with (64 * n + (c - 64 * n)) by lia. rewrite small_bit by lia. apply H. lia.
    - intros H i Hi. destruct (decide (i < 64)); [rewrite <-(small_bit _ _ shift) by lia; apply H; lia|].
      apply (testbit_small _ 64); lia. }
  destruct (word q (page_addr q s + 8 * n) =? 0) eqn:E; simpl.
  - destruct (IH (n + 1)) as (b & Eb & Hb); [lia..|]. exists b. split; [done|]. rewrite Hb. split.
    + intros H c Hc. destruct (decide (c < 64 * (n + 1))); [apply Hz; [done|lia]|apply H; lia].
    + intros H c Hc. apply H. lia.
  - exists false. split; [done|]. split; [done|]. intros H. apply Hz. intros c Hc. apply H. nia.
Qed.

Lemma small_empty q s shift C (X : option ngx_slab_pool_t) : readable q s → bits_ok q s shift C → 3 ≤ shift < 6 →
  (w0 ← rdw q (page_addr q s);
   if negb (Z.land w0 (unot 64 (ushl 64 1 (small_reserved shift) - 1)) =? 0) then Some q else
   clear ← all_clear (Z.to_nat (small_map shift - 1)) q (page_addr q s) 1;
   if clear : bool then X else Some q) = if decide (C = ∅) then X else Some q.
Proof.
  intros HR HB Hsh. destruct (small_map_range shift Hsh) as [Hm Hnc]. destruct (small_reserved_range shift Hsh) as [Hr _].
  pose proof (bits_empty _ _ _ _ HB ltac:(lia)) as He.
  assert (Hreq : reserved shift = small_reserved shift) by (unfold reserved; by rewrite (proj2 (Z.ltb_lt _ _)) by lia).
  pose proof (rd_word _ _ HR 0 ltac:(lia)) as Hw0. rewrite Z.mul_0_r, Z.add_0_r in Hw0. rewrite Hw0. bind_simpl.
  set (w := word q (page_addr q s)).
  destruct (small_word _ _ _ _ 0 HB) as [Hw _]; [lia..|]. rewrite Z.mul_0_r, Z.add_0_r in Hw. fold w in Hw.
  assert (Hbit : ∀ c, 0 ≤ c < 64 → chunk_bit q s shift c = Z.testbit w c).
  { intros c Hc. pose proof (small_bit q s shift 0 c ltac:(lia) Hc) as Hb. rewrite Z.mul_0_r, Z.add_0_r in Hb. exact Hb. }
  assert (Hlow : (Z.land w (unot 64 (ushl 64 1 (small_reserved shift) - 1)) =? 0) = true ↔
    ∀ c, small_reserved shift ≤ c < 64 → chunk_bit q s shift c = false).
  { rewrite zero_bits by (apply Z.land_nonneg; lia). rewrite ushl_one, Z.shiftl_1_l by lia.
    replace (2 ^ small_reserved shift - 1) with (Z.ones (small_reserved shift)) by (rewrite Z.ones_equiv; lia).
    assert (Ht : ∀ i, 0 ≤ i → Z.testbit (Z.land w (unot 64 (Z.ones (small_reserved shift)))) i =
      Z.testbit w i && (small_reserved shift <=? i)).
    { intros i Hi. rewrite Z.land_spec, testbit_unot, Z.testbit_ones by lia.
      destruct (decide (i < 64)); [bool_cases; done|]. by rewrite (testbit_small w 64) by lia. }
    split.
    - intros H c Hc. specialize (H c ltac:(lia)). rewrite Ht, (proj2 (Z.leb_le _ _)), andb_true_r in H by lia.
      by rewrite Hbit by lia.
    - intros H i Hi. rewrite Ht by done. destruct (Z.leb_spec (small_reserved shift) i); [|by rewrite andb_false_r].
      rewrite andb_true_r. destruct (decide (i < 64)); [rewrite <-Hbit by lia; apply H; lia|by apply (testbit_small w 64); lia]. }
  destruct (all_clear_spec q s shift C (Z.to_nat (small_map shift - 1)) 1 HR HB Hsh) as (b & Eb & Hb); [lia..|].
  destruct (Z.land w _ =? 0) eqn:Ew; simpl.
  - rewrite Eb. bind_simpl. destruct b, (decide (C = ∅)) as [Hc|Hc]; try done; exfalso.
    + apply Hc, He. intros c Hcc. destruct (decide (c < 64)); [apply Hlow; [done|lia]|apply Hb; [done|lia]].
    + assert (false = true); [|done]. apply Hb. intros c Hcc. apply (proj1 He Hc). lia.
  - destruct (decide (C = ∅)) as [Hc|Hc]; [|done]. exfalso. assert (false = true); [|done].
    apply Hlow. intros c Hcc. apply (proj1 He Hc). lia.
Qed.

(** ** The three kinds of pages with chunks *)

Lemma put_small_clear q s shift c : readable q s → 3 ≤ shift < 6 → 0 ≤ c < nchunks shift →
  0 ≤ word q (page_addr q s + 8 * (c / 64)) < 2 ^ 64 →
  wrw q (page_addr q s + 8 * (c / 64)) (Z.land (word q (page_addr q s + 8 * (c / 64))) (unot 64 (1 ≪ (c mod 64)))) =
    Some (put_chunk q s shift c false).
Proof.
  intros HR Hsh Hc Hw. pose proof (small_map_range shift Hsh).
  assert (0 ≤ c / 64 < 8) by (split; [apply Z.div_pos; lia|apply Z.div_lt_upper_bound; lia]).
  rewrite (wr_word _ _ HR) by lia. unfold put_chunk. rewrite (proj2 (Z.ltb_lt _ _)) by lia. cbv zeta.
  by rewrite land_put by (done || apply Z.mod_pos_bound; lia).
Qed.

Section free_slot.
Context (q : ngx_slab_pool_t) (A : layout) (FL : list Z) (SL : Z → list Z) (s shift : Z) (C : gset Z) (c : Z).
Context (HP : pool_ok q A FL SL) (HS : settled A) (Hs : A !! s = Some (SSlot shift C)) (Hc : c ∈ C).

Let p : Z := chunk_addr q s shift c.

Lemma free_slot_facts : min_shift q ≤ shift ≤ 11 ∧ 3 ≤ min_shift q ∧ 0 ≤ c ∧ reserved shift ≤ c < nchunks shift ∧
  bits_ok q s shift C ∧ is_Some (nodes q !! AtPage s) ∧ 0 ≤ p < 2 ^ 64 ∧ chunk_bit q s shift c = true.
Proof using HP Hs Hc.
  pose proof (ok_segs _ _ _ _ HP _ _ Hs) as Hok. simpl in Hok. pose proof (slot_shift _ _ _ _ Hok) as Hsh.
  pose proof (slot_chunks _ _ _ _ Hok c Hc) as Hcr. pose proof (par_shift _ (ok_params _ _ _ _ HP)) as H3.
  destruct (chunk_sizes shift) as (_ & Hr & _); [lia|].
  destruct (chunk_addr_range _ _ _ _ _ _ shift c HP Hs) as (? & _ & ? & ? & ?); [lia..|].
  destruct (tile_in _ _ (ok_tiles _ _ _ _ HP) _ _ Hs) as (? & _ & ?). simpl in *.
  pose proof (pow2_pos shift ltac:(lia)).
  split_and!; try lia.
  - by apply slot_bits_ok.
  - apply (ok_nodes _ _ _ _ HP). simpl. lia.
  - rewrite (slot_bits _ _ _ _ Hok) by lia. by rewrite (bool_decide_eq_true_2 _ Hc), orb_true_r.
Qed.

(** The list of the slot and the bit are updated; then the page is freed if it is empty. *)
Lemma free_slot_steps q1 : (if full shift C then relink q (AtPage s) (shift - min_shift q) (slot_type shift) else Some q) = Some q1 →
  ∃ q' A' FL' SL',
    (if decide (C ∖ {[c]} = ∅) then ngx_slab_free_pages (put_chunk q1 s shift c false) (AtPage s) 1
     else Some (put_chunk q1 s shift c false)) = Some q' ∧
    pool_ok q' A' FL' SL' ∧ released q A p q' A'.
Proof using HP HS Hs Hc.
  intros E. destruct (return_chunk q A FL SL s shift C c HP Hs Hc) as (q1' & SL' & E' & HP2 & Hm & HT & _).
  rewrite E in E'. injection E' as <-.
  eapply settle_slot; [done..|by eexists|done|apply HT].
Qed.

Lemma free_slot_relink : ∃ q1 SL',
  (if full shift C then relink q (AtPage s) (shift - min_shift q) (slot_type shift) else Some q) = Some q1 ∧
  pool_ok (put_chunk q1 s shift c false) (<[s := SSlot shift (C ∖ {[c]})]> A) FL SL' ∧
  mem q1 = mem q ∧ same_params q q1 ∧ slab (nd (nodes q1) (AtPage s)) = slab (nd (nodes q) (AtPage s)) ∧
  is_Some (nodes q1 !! AtPage s).
Proof using HP Hs Hc.
  destruct (return_chunk q A FL SL s shift C c HP Hs Hc) as (q1 & SL' & E & HP2 & Hm & HT & Hsl).
  exists q1, SL'. split_and!; [done..|apply HT|done|]. apply HT, free_slot_facts.
Qed.

Lemma relink_match : (match next (nd (nodes q) (AtPage s)) with
    | None => relink q (AtPage s) (shift - min_shift q) (slot_type shift) | Some _ => Some q end) =
  if full shift C then relink q (AtPage s) (shift - min_shift q) (slot_type shift) else Some q.
Proof using HP Hs.
  pose proof (next_full _ _ _ _ _ _ _ HP Hs) as Hn. destruct (next (nd (nodes q) (AtPage s))), (full shift C); try done;
    naive_solver.
Qed.

Lemma free_small_spec : shift < 6 → ∃ q' A' FL' SL', free_small q (AtPage s) p = Some q' ∧
  pool_ok q' A' FL' SL' ∧ released q A p q' A'.
Proof using HP HS Hs Hc.
  intros H6. destruct free_slot_facts as (Hsh & H3 & Hc0 & Hcr & HB & Sx & Hp & Hbit).
  destruct free_slot_relink as (q1 & SL1 & E1 & HP2 & Hm1 & Hpar1 & _ & _).
  destruct (free_slot_steps q1 E1) as (q' & A' & FL' & SL' & E' & HP' & Hrel).
  exists q', A', FL', SL'. split; [|done]. rewrite <-E'. clear E' HP' Hrel.
  destruct (chunk_decode q s shift c (ok_params _ _ _ _ HP)) as (_ & D2 & D3 & D4); [lia..|done|]. fold p in D2, D3, D4.
  pose proof (pool_readable _ _ _ _ _ _ HP Hs) as HR. destruct (small_map_range shift) as [Hm Hnc]; [lia|].
  assert (Hw : 0 ≤ c / 64 < small_map shift) by (split; [apply Z.div_pos; lia|apply Z.div_lt_upper_bound; lia]).
  pose proof (bits_form _ _ _ _ HB) as Hf. unfold slab_form in Hf. rewrite (proj2 (Z.ltb_lt _ _)) in Hf by lia.
  destruct Hf as [Hsl Hwr]. specialize (Hwr _ Hw).
  unfold free_small. rewrite get_nd by done. bind_simpl. rewrite Hsl.
  assert (Z.land shift NGX_SLAB_SHIFT_MASK = shift) as -> by (apply big_shift; [apply Z.mod_small; lia|lia]).
  rewrite D2. simpl negb. cbv iota zeta. rewrite D3, D4. change (8 * 8 - 1) with (Z.ones 6). change (8 * 8) with 64.
  rewrite Z.land_ones by lia. change (2 ^ 6) with 64. rewrite (rd_word _ _ HR) by lia. bind_simpl.
  rewrite ushl_one by (apply Z.mod_pos_bound; lia).
  unfold chunk_bit in Hbit. rewrite (proj2 (Z.ltb_lt _ _)) in Hbit by lia.
  rewrite land_pow2_zero, Hbit by (apply Z.mod_pos_bound; lia). simpl negb. cbv iota.
  assert (Hty : slot_type shift = NGX_SLAB_SMALL) by (unfold slot_type; by rewrite (proj2 (Z.ltb_lt _ _)) by lia).
  rewrite <-Hty, relink_match, E1. bind_simpl.
  assert (Hpa : page_addr q1 s = page_addr q s) by (unfold page_addr; by rewrite (proj1 (proj2 (proj2 (proj2 Hpar1))))).
  assert (Hw1 : ∀ a, word q1 a = word q a) by (intros; unfold word; by rewrite Hm1).
  assert (HR1 : readable q1 s) by (eapply (readable_same q); [apply Hpar1..|done]).
  rewrite <-Hpa, <-Hw1. rewrite (put_small_clear q1 s shift c) by (rewrite ?Hw1, ?Hpa; done || lia). bind_simpl.
  set (q2 := put_chunk q1 s shift c false) in *.
  assert (Hpa2 : page_addr q2 s = page_addr q1 s) by (unfold q2, put_chunk; by destruct (shift <? 6)).
  rewrite <-Hpa2. apply small_empty; [|apply slot_bits_ok|lia].
  - eapply pool_readable; [done|]. by rewrite lookup_insert_eq.
  - apply (ok_segs _ _ _ _ HP2 s (SSlot shift (C ∖ {[c]}))). by rewrite lookup_insert_eq.
Qed.

(** The bit in [slab]. *)
Lemma free_slab_put q1 b : 6 ≤ shift → b = (if shift =? 6 then c else 32 + c) → 0 ≤ b < 64 →
  slab (nd (nodes q1) (AtPage s)) = slab (nd (nodes q) (AtPage s)) → is_Some (nodes q1 !! AtPage s) →
  0 ≤ slab (nd (nodes q) (AtPage s)) < 2 ^ 64 →
  upd q1 (AtPage s) (set_slab (Z.land (slab (nd (nodes q) (AtPage s))) (unot 64 (1 ≪ b)))) =
    Some (put_chunk q1 s shift c false).
Proof.
  intros H6 -> Hb Hsl Sx Hr. rewrite upd_nd by done. unfold put_chunk. rewrite (proj2 (Z.ltb_ge _ _)) by lia.
  by rewrite Hsl, land_put by done.
Qed.

Lemma free_exact_spec : shift = 6 → ∃ q' A' FL' SL', free_exact q (AtPage s) p = Some q' ∧
  pool_ok q' A' FL' SL' ∧ released q A p q' A'.
Proof using HP HS Hs Hc.
  intros H6. destruct free_slot_facts as (Hsh & H3 & Hc0 & Hcr & HB & Sx & Hp & Hbit).
  destruct free_slot_relink as (q1 & SL1 & E1 & HP2 & Hm1 & Hpar1 & Hsl1 & Sx1).
  destruct (free_slot_steps q1 E1) as (q' & A' & FL' & SL' & E' & HP' & Hrel).
  exists q', A', FL', SL'. split; [|done]. rewrite <-E'. clear E' HP' Hrel.
  destruct (chunk_decode q s shift c (ok_params _ _ _ _ HP)) as (_ & D2 & D3 & _); [lia..|done|]. fold p in D2, D3.
  rewrite H6 in D2, D3. pose proof (bits_form _ _ _ _ HB) as Hr. unfold slab_form in Hr.
  rewrite (proj2 (Z.ltb_ge _ _)), (proj2 (Z.eqb_eq _ _)) in Hr by lia.
  assert (Hc64 : c < 64) by (rewrite H6 in Hcr; change (nchunks 6) with 64 in Hcr; lia).
  unfold free_exact. rewrite get_nd by done. bind_simpl. change ngx_slab_exact_shift with 6.
  change (ngx_slab_exact_size - 1) with ((1 ≪ 6) - 1). rewrite D2, D3. simpl negb. cbv iota zeta.
  rewrite ushl_one, land_pow2_zero by lia. unfold chunk_bit in Hbit.
  rewrite (proj2 (Z.ltb_ge _ _)), (proj2 (Z.eqb_eq _ _)) in Hbit by lia. rewrite Hbit. simpl negb. cbv iota.
  rewrite H6 in HB. rewrite (exact_full _ _ _ HB).
  assert (Hty : slot_type shift = NGX_SLAB_EXACT) by (rewrite H6; done).
  rewrite <-Hty. rewrite H6 in E1 |- *. rewrite E1. bind_simpl.
  assert (Hput : upd q1 (AtPage s) (set_slab (Z.land (slab (nd (nodes q) (AtPage s))) (unot 64 (1 ≪ c)))) =
    Some (put_chunk q1 s shift c false)).
  { apply (free_slab_put q1 c); [lia|by rewrite (proj2 (Z.eqb_eq _ _)) by lia|lia|done..]. }
  rewrite Hput. bind_simpl. rewrite H6.
  assert (HB2 : bits_ok (put_chunk q1 s shift c false) s shift (C ∖ {[c]})).
  { apply slot_bits_ok, (ok_segs _ _ _ _ HP2 s (SSlot shift (C ∖ {[c]}))). by rewrite lookup_insert_eq. }
  assert (Hs2 : slab (nd (nodes (put_chunk q1 s shift c false)) (AtPage s)) =
    Z.land (slab (nd (nodes q) (AtPage s))) (unot 64 (1 ≪ c))).
  { rewrite upd_nd in Hput by done. injection Hput as <-. cbn [nodes set_nodes]. by rewrite nd_insert. }
  rewrite <-Hs2, H6. pose proof (bits_empty _ _ _ _ HB2 ltac:(lia)) as He.
  pose proof (bits_form _ _ _ _ HB2) as Hr2. unfold slab_form in Hr2.
  rewrite (proj2 (Z.ltb_ge _ _)), (proj2 (Z.eqb_eq _ _)) in Hr2 by lia. rewrite H6 in *.
  assert (Hz : (slab (nd (nodes (put_chunk q1 s 6 c false)) (AtPage s)) =? 0) = true ↔ C ∖ {[c]} = ∅).
  { rewrite zero_bits, He by lia. change (reserved 6) with 0. change (nchunks 6) with 64. split.
    - intros H d Hd. unfold chunk_bit. simpl. apply H. lia.
    - intros H i Hi. destruct (decide (i < 64)); [by apply (H i)|apply (testbit_small _ 64); lia]. }
  destruct (_ =? 0) eqn:Ez, (decide (C ∖ {[c]} = ∅)); simpl; try done; naive_solver.
Qed.

Lemma free_big_spec : 7 ≤ shift → ∃ q' A' FL' SL', free_big q (AtPage s) p = Some q' ∧
  pool_ok q' A' FL' SL' ∧ released q A p q' A'.
Proof using HP HS Hs Hc.
  intros H7. destruct free_slot_facts as (Hsh & H3 & Hc0 & Hcr & HB & Sx & Hp & Hbit).
  destruct free_slot_relink as (q1 & SL1 & E1 & HP2 & Hm1 & Hpar1 & Hsl1 & Sx1).
  destruct (free_slot_steps q1 E1) as (q' & A' & FL' & SL' & E' & HP' & Hrel).
  exists q', A', FL', SL'. split; [|done]. rewrite <-E'. clear E' HP' Hrel.
  destruct (chunk_decode q s shift c (ok_params _ _ _ _ HP)) as (_ & D2 & D3 & _); [lia..|done|]. fold p in D2, D3.
  destruct (big_chunks shift) as (H32 & Hres & _); [lia|].
  assert (Hform : ∀ q C, bits_ok q s shift C → 0 ≤ slab (nd (nodes q) (AtPage s)) < 2 ^ (32 + nchunks shift) ∧
    slab (nd (nodes q) (AtPage s)) mod 2 ^ 32 = shift).
  { intros q0 C0 HB0. pose proof (bits_form _ _ _ _ HB0) as Hf. unfold slab_form in Hf.
    by rewrite (proj2 (Z.ltb_ge _ _)), (proj2 (Z.eqb_neq _ _)) in Hf by lia. }
  assert (Hcb : ∀ q c, chunk_bit q s shift c = Z.testbit (slab (nd (nodes q) (AtPage s))) (32 + c)).
  { intros q0 c0. unfold chunk_bit. by rewrite (proj2 (Z.ltb_ge _ _)), (proj2 (Z.eqb_neq _ _)) by lia. }
  destruct (Hform _ _ HB) as [Hr Hmod].
  pose proof (Z.pow_le_mono_r 2 (32 + nchunks shift) 64 ltac:(lia) ltac:(lia)).
  unfold free_big. rewrite get_nd by done. bind_simpl. rewrite (big_shift _ shift Hmod) by lia.
  rewrite D2, D3. simpl negb. cbv iota zeta. change NGX_SLAB_MAP_SHIFT with 32. rewrite (Z.add_comm c 32).
  rewrite ushl_one, land_pow2_zero by lia. rewrite Hcb in Hbit. rewrite Hbit. simpl negb. cbv iota.
  assert (Hty : slot_type shift = NGX_SLAB_BIG).
  { unfold slot_type. by rewrite (proj2 (Z.ltb_ge _ _)), (proj2 (Z.eqb_neq _ _)) by lia. }
  rewrite <-Hty, relink_match, E1. bind_simpl.
  assert (Hput : upd q1 (AtPage s) (set_slab (Z.land (slab (nd (nodes q) (AtPage s))) (unot 64 (1 ≪ (32 + c))))) =
    Some (put_chunk q1 s shift c false)).
  { apply (free_slab_put q1 (32 + c)); [lia|by rewrite (proj2 (Z.eqb_neq _ _)) by lia|lia|done|done|lia]. }
  rewrite Hput. bind_simpl.
  assert (HB2 : bits_ok (put_chunk q1 s shift c false) s shift (C ∖ {[c]})).
  { apply slot_bits_ok, (ok_segs _ _ _ _ HP2 s (SSlot shift (C ∖ {[c]}))). by rewrite lookup_insert_eq. }
  assert (Hs2 : slab (nd (nodes (put_chunk q1 s shift c false)) (AtPage s)) =
    Z.land (slab (nd (nodes q) (AtPage s))) (unot 64 (1 ≪ (32 + c)))).
  { rewrite upd_nd in Hput by done. injection Hput as <-. cbn [nodes set_nodes]. by rewrite nd_insert. }
  rewrite <-Hs2. destruct (Hform _ _ HB2) as [Hr2 _].
  set (w := slab (nd (nodes (put_chunk q1 s shift c false)) (AtPage s))) in *.
  assert (Hz : (Z.land w NGX_SLAB_MAP_MASK =? 0) = true ↔ C ∖ {[c]} = ∅).
  { rewrite zero_bits by (apply Z.land_nonneg; lia). rewrite (bits_empty _ _ _ _ HB2) by lia.
    change NGX_SLAB_MAP_MASK with (Z.ones 32 ≪ 32). rewrite Hres. split.
    - intros H0 d Hd. rewrite Hcb. fold w. specialize (H0 (32 + d) ltac:(lia)).
      rewrite Z.land_spec, testbit_mask in H0 by lia.
      by rewrite (proj2 (Z.leb_le _ _)), (proj2 (Z.ltb_lt _ _)), andb_true_r in H0 by lia.
    - intros H0 i Hi. rewrite Z.land_spec, testbit_mask by lia. destruct (Z.leb_spec 32 i); [|by rewrite andb_false_r].
      destruct (decide (i < 32 + nchunks shift)); [|by rewrite (testbit_small w (32 + nchunks shift)) by lia].
      specialize (H0 (i - 32) ltac:(lia)). rewrite Hcb in H0. fold w in H0.
      replace (32 + (i - 32)) with i in H0 by lia. by rewrite H0. }
  destruct (_ =? 0) eqn:Ez, (decide (C ∖ {[c]} = ∅)); simpl; try done; naive_solver.
Qed.
End free_slot.

(** ** [ngx_slab_free] *)

Lemma user_size n : 1 ≤ n < 2 ^ 52 → let w := Z.lor n NGX_SLAB_PAGE_START in
  w ≠ 0 ∧ w ≠ NGX_SLAB_PAGE_BUSY ∧ Z.land w (unot 64 NGX_SLAB_PAGE_START) = n.
Proof.
  intros Hn w. change NGX_SLAB_PAGE_START with (2 ^ 63) in *. change NGX_SLAB_PAGE_BUSY with (Z.ones 64).
  split_and!.
  - apply user_slab. lia.
  - intros E. apply (f_equal (λ z, Z.testbit z 62)) in E. subst w. rewrite Z.lor_spec, testbit_pow2 in E by lia.
    by rewrite (testbit_small n 52) in E by lia.
  - assert (0 ≤ n < 2 ^ 63) by lia. subst w. bits.
Qed.

Lemma free_user_spec q A FL SL s n : pool_ok q A FL SL → settled A → A !! s = Some (SUser n) →
  ∃ q' A' FL' SL', free_page q (AtPage s) (page_addr q s) = Some q' ∧ pool_ok q' A' FL' SL' ∧
    released q A (page_addr q s) q' A'.
Proof.
  intros HP HS Hs. destruct (run_pages _ _ _ _ _ _ HP Hs) as (S0 & S1 & S2 & Hd & _). simpl in S1, S2, Hd.
  destruct (ok_segs _ _ _ _ HP _ _ Hs) as (Hu & _). simpl in Hu. pose proof (last_small _ (ok_params _ _ _ _ HP)).
  destruct (user_size n) as (U1 & U2 & U3); [lia|].
  destruct (free_pages_user q A FL SL s n HP Hs (set_coalesced _ HS) (set_tight _ HS)) as (N & A' & FL' & E & HP' & Hfr & Hco & Hnl).
  exists (set_nodes q N), A', FL', SL. split; [|split; [done|]].
  - unfold free_page. rewrite get_nd by (apply Hd; lia). bind_simpl. rewrite land_page, page_addr_mod by apply HP.
    rewrite Hu. cbn [slab]. simpl negb. cbv iota. change NGX_SLAB_PAGE_FREE with 0.
    by rewrite !(proj2 (Z.eqb_neq _ _)), U3 by done.
  - split; [|done| |done].
    + split; [done..|]. intros i sh C Hi. apply (set_used _ HS i sh). by apply Hfr in Hi as [_ Hi].
    + intros a sz. rewrite (block_split q A s _ a sz Hs). split.
      * intros (i & g & Hi & Hb). apply Hfr in Hi as [Hi1 Hi]; [|by eapply block_in_busy].
        split; [|right; by exists i, g]. intros ->.
        destruct (block_range _ _ _ _ _ _ _ _ HP Hi Hb) as (? & ? & ? & _).
        destruct (tile_other _ _ _ _ _ _ (ok_tiles _ _ _ _ HP) Hs Hi Hi1); unfold page_addr in *; simpl in *; lia.
      * intros [Hne [[-> _]|(i & g & Hi & Hl & Hb)]]; [done|]. exists i, g. split; [|done].
        apply Hfr; [by eapply block_in_busy|done].
Qed.

Lemma free_spec q A FL SL p sz : pool_ok q A FL SL → settled A → block q A p sz →
  ∃ q' A' FL' SL', ngx_slab_free q p = Some q' ∧ pool_ok q' A' FL' SL' ∧ released q A p q' A'.
Proof.
  intros HP HS (s & g & Hs & Hb). destruct (block_range _ _ _ _ _ _ _ _ HP Hs Hb) as (R1 & R2 & R3 & _).
  destruct (tile_in _ _ (ok_tiles _ _ _ _ HP) _ _ Hs) as (T0 & T1 & T2).
  destruct (ok_params _ _ _ _ HP) as [P1 P2 P3 P4 P5] eqn:EP.
  unfold ngx_slab_free. rewrite (proj2 (Z.ltb_ge p (start q))) by (unfold page_addr in *; lia).
  rewrite (proj2 (Z.ltb_ge (end_ q) p)) by (unfold page_addr in *; lia). simpl orb. cbv iota zeta.
  pose proof (head_page _ _ _ _ _ _ HP Hs) as Hh.
  assert (Sx : is_Some (nodes q !! AtPage s)) by (apply (ok_nodes _ _ _ _ HP); simpl; lia).
  destruct g as [n|n|shift C|n]; simpl in Hb; [done| | |done].
  - destruct Hb as [-> _]. destruct (page_decode q s 0 (ok_params _ _ _ _ HP)) as [D _]; [lia|]. rewrite Z.add_0_r in D. rewrite D.
    rewrite get_nd by done. bind_simpl. destruct Hh as [_ ->]. by eapply free_user_spec.
  - destruct Hb as (c & Hc & -> & ->).
    destruct (free_slot_facts q A FL SL s shift C c HP Hs Hc) as (Hsh & H3 & Hc0 & Hcr & _ & _ & Hp & _).
    destruct (chunk_decode q s shift c (ok_params _ _ _ _ HP)) as (D & _); [lia..|done|]. rewrite D.
    rewrite get_nd by done. bind_simpl. rewrite Hh. unfold slot_type.
    destruct (Z.ltb_spec shift 6); [by eapply free_small_spec|].
    destruct (Z.eqb_spec shift 6); [by eapply free_exact_spec|]. eapply free_big_spec; try done. lia.
Qed.

(** ** Pointers that are not blocks *)

(** A byte of a page of chunks is the first of a chunk, or [p & (size - 1)] shows that it is not. *)
Lemma chunk_or_not q s shift o : params_ok q → 3 ≤ shift ≤ 11 → 0 ≤ o < 4096 →
  Z.land (page_addr q s + o) ((1 ≪ shift) - 1) ≠ 0 ∨
  ∃ c, 0 ≤ c < nchunks shift ∧ page_addr q s + o = chunk_addr q s shift c.
Proof.
  intros HP Hsh Ho. destruct (chunk_sizes shift Hsh) as (Hn & _ & _ & _ & H8).
  destruct (page_decode q s o HP Ho) as [_ D]. rewrite land_low by lia.
  rewrite <-(Z.mod_mod_divide _ 4096) by (exists (nchunks shift); lia). rewrite D.
  destruct (decide (o mod 2 ^ shift = 0)) as [E|]; [right|by left].
  exists (o / 2 ^ shift). unfold chunk_addr. pose proof (Z.div_mod o (2 ^ shift) ltac:(lia)).
  split; [|lia]. split; [apply Z.div_pos; lia|]. apply Z.div_lt_upper_bound; lia.
Qed.

(** Chunks that are not in use, and bytes inside chunks, are refused. *)
Lemma free_idle_chunk q A FL SL s shift C o : pool_ok q A FL SL → A !! s = Some (SSlot shift C) →
  0 ≤ o < 4096 → reserved shift * 2 ^ shift ≤ o → (∀ c, c ∈ C → page_addr q s + o ≠ chunk_addr q s shift c) →
  ngx_slab_free q (page_addr q s + o) = Some q.
Proof.
  intros HP Hs Ho Hres HC. pose proof (ok_segs _ _ _ _ HP _ _ Hs) as Hok. simpl in Hok.
  pose proof (slot_shift _ _ _ _ Hok) as Hsh. pose proof (par_shift _ (ok_params _ _ _ _ HP)) as H3.
  pose proof (slot_bits_ok _ _ _ _ Hok) as HB.
  destruct (chunk_addr_range _ _ _ _ _ _ 11 0 HP Hs) as (R0 & _ & _ & _ & R1); [lia|by vm_compute|].
  destruct (tile_in _ _ (ok_tiles _ _ _ _ HP) _ _ Hs) as (T0 & _ & T2). simpl in T2.
  assert (Sx : is_Some (nodes q !! AtPage s)) by (apply (ok_nodes _ _ _ _ HP); simpl; lia).
  assert (Hbit : ∀ c, 0 ≤ c < nchunks shift → page_addr q s + o = chunk_addr q s shift c → chunk_bit q s shift c = false).
  { intros c Hc E. rewrite (slot_bits _ _ _ _ Hok) by done. destruct (chunk_sizes shift) as (_ & _ & _ & _ & ?); [lia|].
    rewrite (proj2 (Z.ltb_ge _ _)) by (unfold chunk_addr in E; nia).
    apply bool_decide_eq_false. intros Hin. by apply (HC c Hin). }
  destruct (page_decode q s o (ok_params _ _ _ _ HP) Ho) as [Dp _].
  unfold ngx_slab_free. rewrite (proj2 (Z.ltb_ge _ (start q))) by (unfold page_addr in *; lia).
  rewrite (proj2 (Z.ltb_ge (end_ q) _)) by lia. simpl orb. cbv iota zeta. rewrite Dp, get_nd by done. bind_simpl.
  rewrite (head_page _ _ _ _ _ _ HP Hs). pose proof (bits_form _ _ _ _ HB) as Hf. unfold slab_form in Hf.
  destruct (chunk_or_not q s shift o (ok_params _ _ _ _ HP)) as [Hno|(c & Hc & Hpc)]; [lia|done| |].
  - apply Z.eqb_neq in Hno. unfold slot_type. destruct (Z.ltb_spec shift 6); [|destruct (Z.eqb_spec shift 6) as [->|]].
    + simpl. unfold free_small. rewrite get_nd by done. bind_simpl. destruct Hf as [-> _].
      rewrite (big_shift shift shift) by (rewrite ?Z.mod_small; lia). by rewrite Hno.
    + simpl. unfold free_exact. rewrite get_nd by done. bind_simpl.
      change (ngx_slab_exact_size - 1) with ((1 ≪ 6) - 1). by rewrite Hno.
    + simpl. unfold free_big. rewrite get_nd by done. bind_simpl. destruct Hf as [_ Hmod].
      rewrite (big_shift _ shift Hmod) by lia. by rewrite Hno.
  - rewrite Hpc. specialize (Hbit c Hc Hpc). unfold chunk_bit in Hbit.
    destruct (chunk_decode q s shift c (ok_params _ _ _ _ HP)) as (_ & D2 & D3 & D4); [lia..| |]; [lia|].
    unfold slot_type. destruct (Z.ltb_spec shift 6); [|destruct (Z.eqb_spec shift 6) as [->|]].
    + simpl. unfold free_small. rewrite get_nd by done. bind_simpl. destruct Hf as [-> _].
      rewrite (big_shift shift shift) by (rewrite ?Z.mod_small; lia). rewrite D2. simpl negb. cbv iota zeta. rewrite D3, D4.
      change (8 * 8 - 1) with (Z.ones 6). change (8 * 8) with 64. rewrite Z.land_ones by lia. change (2 ^ 6) with 64.
      destruct (small_map_range shift) as [Hm Hnc]; [lia|].
      assert (0 ≤ c / 64 < small_map shift) by (split; [apply Z.div_pos; lia|apply Z.div_lt_upper_bound; lia]).
      rewrite (rd_word _ _ (pool_readable _ _ _ _ _ _ HP Hs)) by lia. bind_simpl.
      rewrite ushl_one by (apply Z.mod_pos_bound; lia). by rewrite land_pow2_zero, Hbit by (apply Z.mod_pos_bound; lia).
    + simpl. unfold free_exact. rewrite get_nd by done. bind_simpl. change (nchunks 6) with 64 in Hc.
      change ngx_slab_exact_shift with 6. change (ngx_slab_exact_size - 1) with ((1 ≪ 6) - 1). rewrite D2, D3. simpl negb.
      cbv iota zeta. rewrite ushl_one, land_pow2_zero by lia. by rewrite Hbit.
    + simpl. unfold free_big. rewrite get_nd by done. bind_simpl. destruct Hf as [_ Hmod].
      destruct (big_chunks shift) as (H32 & _); [lia|].
      rewrite (big_shift _ shift Hmod), D2, D3 by lia. simpl negb. cbv iota zeta. change NGX_SLAB_MAP_SHIFT with 32.
      rewrite (Z.add_comm c 32), ushl_one, land_pow2_zero by lia. by rewrite Hbit.
Qed.

(** So are bytes of a run of pages other than the first. *)
Lemma free_inner_page q A FL SL s n p : pool_ok q A FL SL → A !! s = Some (SUser n) →
  page_addr q s < p < page_addr q (s + n) → ngx_slab_free q p = Some q.
Proof.
  intros HP Hs Hp. destruct (run_pages _ _ _ _ _ _ HP Hs) as (S0 & S1 & S2 & Hd & _). simpl in S1, S2, Hd.
  destruct (ok_params _ _ _ _ HP) as [_ _ [P0 _] P2 _].
  set (j := (p - start q) / 4096). set (o := (p - start q) mod 4096).
  pose proof (Z.div_mod (p - start q) 4096 ltac:(lia)) as Hdm. fold j o in Hdm.
  pose proof (Z.mod_pos_bound (p - start q) 4096 ltac:(lia)) as Ho. fold o in Ho. unfold page_addr in Hp.
  assert (E : p = page_addr q j + o) by (unfold page_addr; lia).
  destruct (page_decode q j o (ok_params _ _ _ _ HP) Ho) as [D1 D2].
  unfold ngx_slab_free. rewrite (proj2 (Z.ltb_ge p (start q))), (proj2 (Z.ltb_ge (end_ q) p)) by lia.
  simpl orb. cbv iota zeta. rewrite E, D1, get_nd by (apply Hd; lia). bind_simpl.
  destruct (ok_segs _ _ _ _ HP _ _ Hs) as [Hu Hin]. simpl in Hu.
  destruct (decide (j = s)) as [->|Hj].
  - rewrite Hu. simpl. unfold free_page. rewrite get_nd by (apply Hd; lia). bind_simpl.
    rewrite land_page, D2. by rewrite (proj2 (Z.eqb_neq _ _)) by lia.
  - rewrite Hin by lia. simpl. unfold free_page. rewrite get_nd by (apply Hd; lia). bind_simpl.
    rewrite Hin by lia. simpl. by destruct (Z.land _ _ =? 0).
Qed.

(** A pointer into a block, but not to its first byte. *)
Lemma free_interior q A FL SL b cap p : pool_ok q A FL SL → block q A b cap → b < p < b + cap →
  ngx_slab_free q p = Some q.
Proof.
  intros HP (s & g & Hs & Hb) Hp. destruct g as [n|n|shift C|n]; simpl in Hb; [done| | |done].
  - destruct Hb as [-> ->]. eapply free_inner_page; [done..|unfold page_addr in *; lia].
  - destruct Hb as (c & Hc & -> & ->).
    destruct (free_slot_facts q A FL SL s shift C c HP Hs Hc) as (Hsh & H3 & Hc0 & Hcr & _).
    destruct (chunk_sizes shift) as (Hn & _ & _ & _ & H8); [lia|].
    replace p with (page_addr q s + (p - page_addr q s)) by lia. unfold chunk_addr in *.
    eapply free_idle_chunk; [done..|nia|nia|].
    intros d Hd E. unfold chunk_addr in E. destruct (Z.le_gt_cases d c); [assert (d * 2 ^ shift ≤ c * 2 ^ shift) by nia|
      assert ((c + 1) * 2 ^ shift ≤ d * 2 ^ shift) by nia]; lia.
Qed.
