(* ===== verification/SlabHeap.v ===== *)
(** * The slab allocator as a heap

    What clients of a pool see: the blocks that they hold, with the sizes that they asked
    for.  The pools that calls of [ngx_slab_alloc] and [ngx_slab_free] and stores of the
    clients can lead to keep an invariant, from which the properties of the heap follow. *)

From stdpp Require Import functions.
From S2P Require Import Prelude Words Slab SlabList SlabPages SlabChunks SlabAlloc SlabFree.

Implicit Types (q : ngx_slab_pool_t) (s i n m c : Z) (A : layout) (C : gset Z) (live : gmap Z Z).

(** ** The initial pool *)

Lemma add_nodes_out k mk pg i N x : (∀ j, i ≤ j < i + Z.of_nat k → x ≠ mk j) →
  add_nodes k mk pg i N !! x = N !! x.
Proof.
  revert i N. induction k as [|k IH]; intros i N Hn; cbn [add_nodes]; [done|].
  rewrite IH by (intros; apply Hn; lia). rewrite lookup_insert_ne; [done|]. apply not_eq_sym, Hn. lia.
Qed.

Lemma add_nodes_in k mk pg i N j : (∀ a b, mk a = mk b → a = b) → i ≤ j < i + Z.of_nat k →
  add_nodes k mk pg i N !! mk j = Some (pg j).
Proof.
  intros Hinj. revert i N. induction k as [|k IH]; intros i N Hj; cbn [add_nodes]; [lia|].
  destruct (decide (j = i)) as [->|]; [|apply IH; lia].
  rewrite add_nodes_out by (intros j Hj' E%Hinj; lia). by rewrite lookup_insert_eq.
Qed.

(** A pool in page-aligned memory of at least two pages. *)
Record init_ok (base minshift endp : Z) : Prop := {
  init_base : 0 < base ∧ base mod 4096 = 0;
  init_shift : 3 ≤ minshift ≤ 11;
  init_end : base + 8192 ≤ endp < 2 ^ 63
}.

Lemma align_page p : 0 ≤ p < 2 ^ 63 → ngx_align_ptr p ngx_pagesize = (p + 4095) / 4096 * 4096.
Proof.
  intros Hp. unfold ngx_align_ptr. change (ngx_pagesize - 1) with 4095.
  pose proof (land_base (p + 4095) ltac:(lia)) as E. change (ngx_pagesize - 1) with 4095 in E. rewrite E.
  pose proof (Z.div_mod (p + 4095) 4096 ltac:(lia)). lia.
Qed.

(** The number of pages and the first of them. *)
Lemma init_pages base minshift endp M : init_ok base minshift endp →
  let q := ngx_slab_init base minshift endp M in
  let k := (endp - (base + 104)) / 4120 in
  1 ≤ last q ≤ k ∧ 0 < start q ∧ start q mod 4096 = 0 ∧ start q + 4096 * last q ≤ endp ∧
  base + 104 + (12 - minshift) * 24 + k * 24 ≤ start q.
Proof.
  intros [[B0 B1] Hsh He]. cbv zeta. set (k := (endp - (base + 104)) / 4120).
  assert (Hk : 4120 * k ≤ endp - (base + 104) < 4120 * (k + 1)).
  { pose proof (Z.div_mod (endp - (base + 104)) 4120 ltac:(lia)).
    pose proof (Z.mod_pos_bound (endp - (base + 104)) 4120 ltac:(lia)). unfold k. lia. }
  set (e := base + 104 + (12 - minshift) * 24 + k * 24).
  set (st := (e + 4095) / 4096 * 4096).
  assert (Hst : e ≤ st < e + 4096 ∧ st mod 4096 = 0).
  { pose proof (Z.div_mod (e + 4095) 4096 ltac:(lia)). pose proof (Z.mod_pos_bound (e + 4095) 4096 ltac:(lia)).
    split; [unfold st; lia|]. by apply Z.mod_mul. }
  assert (He63 : 0 ≤ e < 2 ^ 63) by (unfold e; lia).
  assert (Hstart : start (ngx_slab_init base minshift endp M) = st) by (by apply (align_page e)).
  assert (Hb : base = 4096 * (base / 4096)) by (pose proof (Z.div_mod base 4096); lia).
  assert (Hstd : st = 4096 * (st / 4096)) by (pose proof (Z.div_mod st 4096); lia).
  assert (Hroom : 4096 ≤ endp - st).
  { unfold e in Hst. destruct (decide (k < 3)); [|lia]. assert (st / 4096 ≤ base / 4096 + 1) by lia. lia. }
  pose proof (Z.div_mod (endp - st) 4096 ltac:(lia)) as Hd. pose proof (Z.mod_pos_bound (endp - st) 4096 ltac:(lia)).
  assert (Hlast : last (ngx_slab_init base minshift endp M) = Z.min k ((endp - st) / 4096)).
  { unfold ngx_slab_init, last. change ngx_pagesize_shift with 12. change sizeof_slab_pool with 104.
    change sizeof_slab_page with 24. change (ngx_pagesize + 24) with 4120. fold k. fold e.
    rewrite align_page by done. fold st. change ngx_pagesize with 4096.
    rewrite (uwrap_small 64 (endp - st)) by lia. rewrite swrap_small by lia.
    destruct (Z.ltb_spec 0 (k - (endp - st) / 4096)); lia. }
  rewrite Hlast, Hstart. assert (1 ≤ (endp - st) / 4096) by (apply Z.div_le_lower_bound; lia). lia.
Qed.

Lemma init_nodes base minshift endp M : init_ok base minshift endp →
  let q := ngx_slab_init base minshift endp M in
  nodes q !! AtFree = Some (mkPage 0 (Some (AtPage 0)) (None, 0)) ∧
  nodes q !! AtPage 0 = Some (mkPage (last q) (Some AtFree) (Some AtFree, 0)) ∧
  (∀ i, 0 < i < last q → nodes q !! AtPage i = Some (mkPage 0 None (None, 0))) ∧
  (∀ i, 0 ≤ i < 12 - minshift → nodes q !! AtSlot i = Some (mkPage 0 (Some (AtSlot i)) (None, 0))).
Proof.
  intros HI q. pose proof (init_pages base minshift endp M HI) as (Hl & _). fold q in Hl. cbv zeta in Hl.
  destruct HI as [_ Hsh He]. set (k := (endp - (base + 104)) / 4120) in *.
  set (N1 := add_nodes (Z.to_nat (12 - minshift)) AtSlot (λ i, mkPage 0 (Some (AtSlot i)) (None, 0)) 0 ∅).
  set (N2 := add_nodes (Z.to_nat k) AtPage (λ _, mkPage 0 None (None, 0)) 0 N1).
  assert (HN : nodes q = <[AtPage 0 := mkPage (last q) (Some AtFree) (Some AtFree, 0)]>
    (<[AtFree := mkPage 0 (Some (AtPage 0)) (None, 0)]> N2)) by done.
  rewrite HN. clearbody q. split_and!.
  - by rewrite lookup_insert_ne, lookup_insert_eq.
  - by rewrite lookup_insert_eq.
  - intros i Hi. rewrite !lookup_insert_ne by (intros [=]; lia). subst N2. apply add_nodes_in; [by intros ?? [=]|lia].
  - intros i Hi. rewrite !lookup_insert_ne by done. subst N2. rewrite add_nodes_out by done.
    subst N1. apply add_nodes_in; [by intros ?? [=]|lia].
Qed.

Lemma init_pool_ok base minshift endp M : init_ok base minshift endp →
  let q := ngx_slab_init base minshift endp M in
  pool_ok q {[0 := SFree (last q)]} [0] (λ _, []) ∧ settled {[0 := SFree (last q)]}.
Proof.
  intros HI q. pose proof (init_pages base minshift endp M HI) as (Hl & Hst & Hst' & Hend & _).
  destruct (init_nodes base minshift endp M HI) as (NF & N0 & NP & NS). fold q in Hl, Hst, Hst', Hend, NF, N0, NP, NS.
  assert (Hms : min_shift q = minshift) by done. assert (He : end_ q = endp) by done.
  assert (Hmz : min_size q = 2 ^ minshift) by (apply Z.shiftl_1_l).
  destruct HI as [_ Hsh Hend']. cbv zeta in *. clearbody q.
  assert (HdF : nd (nodes q) AtFree = mkPage 0 (Some (AtPage 0)) (None, 0)) by (unfold nd; by rewrite NF).
  assert (Hd0 : nd (nodes q) (AtPage 0) = mkPage (last q) (Some AtFree) (Some AtFree, 0)) by (unfold nd; by rewrite N0).
  split; split.
  - split; rewrite ?Hms, ?He; try done; lia.
  - intros [|i|i] Hx; simpl in Hx; [by rewrite NF|rewrite NS by lia; by eexists|].
    destruct (decide (i = 0)) as [->|]; [by rewrite N0|rewrite NP by lia; by eexists].
  - split.
    + intros s g [<- <-]%lookup_singleton_Some. simpl. lia.
    + intros s g s' g' [<- <-]%lookup_singleton_Some [<- <-]%lookup_singleton_Some. lia.
    + intros i Hi. exists 0, (SFree (last q)). rewrite lookup_singleton_eq. split; [done|]. simpl. lia.
  - intros s g [<- <-]%lookup_singleton_Some. split_and!; [by rewrite Hd0| |lia].
    intros i Hi. unfold nd. by rewrite NP by lia.
  - split.
    + simpl. by rewrite HdF, Hd0.
    + apply NoDup_cons. split; [set_solver|apply NoDup_singleton].
    + intros x [->|[->|?%elem_of_nil]%elem_of_cons]%elem_of_cons; [by rewrite NF|by rewrite N0|done].
  - intros i. rewrite list_elem_of_singleton. split.
    + intros ->. exists (last q). by rewrite lookup_singleton_eq.
    + by intros [n [<- _]%lookup_singleton_Some].
  - intros shift Hs. unfold slot_of. assert (E : nodes q !! AtSlot (shift - min_shift q) =
      Some (mkPage 0 (Some (AtSlot (shift - min_shift q))) (None, 0))) by (apply NS; lia).
    split; [simpl; unfold nd; by rewrite E|apply NoDup_singleton|].
    intros x ->%list_elem_of_singleton. by rewrite E.
  - intros shift i _. split; [by intros ?%elem_of_nil|].
    by intros (C & [_ ?]%lookup_singleton_Some & _).
  - intros s n m [<- [= <-]]%lookup_singleton_Some [? _]%lookup_singleton_Some. lia.
  - by intros i m [_ ?]%lookup_singleton_Some.
  - by intros s shift C [_ ?]%lookup_singleton_Some.
Qed.

(** ** Stores of the clients *)

(** Only the words of the bitmaps matter to the allocator. *)
Lemma pool_ok_mem q M A FL SL : pool_ok q A FL SL →
  (∀ s shift C c, A !! s = Some (SSlot shift C) → 3 ≤ shift < 6 → 0 ≤ c < nchunks shift →
    word (set_mem q M) (page_addr q s + 8 * (c / 64)) = word q (page_addr q s + 8 * (c / 64))) →
  pool_ok (set_mem q M) A FL SL.
Proof.
  intros [P1 P2 P3 P4 P5 P6 P7 P8] HM. split; try done; [by destruct P1|].
  intros s g Hs. pose proof (P4 s g Hs) as Hok. destruct g as [n|n|shift C|n]; try done.
  destruct Hok as [S1 S2 S3 S4 S5]. pose proof (par_shift _ P1) as H3. split; try done.
  - unfold slab_form in *. cbn [nodes set_mem]. destruct (Z.ltb_spec shift 6); [|done].
    destruct S2 as [-> Hw]. split; [done|]. intros k Hk. specialize (Hw k Hk).
    change (page_addr (set_mem q M) s) with (page_addr q s).
    destruct (small_map_range shift) as [_ Hn]; [lia|].
    pose proof (HM s shift C (64 * k) Hs ltac:(lia) ltac:(lia)) as E.
    rewrite (Z.mul_comm 64 k), Z.div_mul in E by lia. by rewrite E.
  - intros c Hc. rewrite <-S3 by done. unfold chunk_bit. destruct (Z.ltb_spec shift 6); [|done].
    change (page_addr (set_mem q M) s) with (page_addr q s). rewrite (HM s shift C c Hs); [done|lia|done].
Qed.

(** ** Bytes *)

(** The byte at address [a]. *)
Definition byte_at q (a : Z) : Z := (word q (a - a mod 8) ≫ (8 * (a mod 8))) mod 256.

Lemma byte_at_same q q' b sz : b mod 8 = 0 → (∀ a, b ≤ a < b + sz → word q' a = word q a) →
  ∀ a, b ≤ a < b + sz → byte_at q' a = byte_at q a.
Proof.
  intros Hb Hw a Ha. unfold byte_at. rewrite Hw; [done|].
  pose proof (Z.div_mod a 8 ltac:(lia)). pose proof (Z.div_mod b 8 ltac:(lia)).
  pose proof (Z.mod_pos_bound a 8 ltac:(lia)). lia.
Qed.

(** What [memset] leaves of the word at [a]. *)
Definition cleared q (hi a : Z) : Z :=
  if 8 <=? hi - a then 0 else (word q a ≫ (8 * (hi - a))) ≪ (8 * (hi - a)).

Lemma zero_words_spec cnt q p n : n < 8 * Z.of_nat cnt → (∀ j, 0 ≤ j → 8 * j < n → word_at q (p + 8 * j) = true) →
  ∃ M, zero_words_at cnt q p n = Some (set_mem q M) ∧
    (∀ j, 0 ≤ j → 8 * j < n → word (set_mem q M) (p + 8 * j) = cleared q (p + n) (p + 8 * j)) ∧
    (∀ a, ¬ p ≤ a < p + n → word (set_mem q M) a = word q a).
Proof.
  revert q p n. induction cnt as [|cnt IH]; intros q p n Hn Hw; cbn [zero_words_at].
  { exists (mem q). split; [by destruct q|]. split; [lia|done]. }
  destruct (Z.leb_spec n 0). { exists (mem q). split; [by destruct q|]. split; [lia|done]. }
  pose proof (Hw 0 ltac:(lia) ltac:(lia)) as H0. rewrite Z.mul_0_r, Z.add_0_r in H0.
  unfold rdw, wrw. rewrite H0. bind_simpl. fold (word q p). set (v := if 8 <=? n then _ else _).
  set (q1 := set_mem q (<[p := v]> (mem q))).
  destruct (IH q1 (p + 8) (n - 8)) as (M & E & Hin & Hout); [lia|..].
  { intros j Hj Hjn. replace (p + 8 + 8 * j) with (p + 8 * (j + 1)) by lia. apply (Hw (j + 1)); lia. }
  exists M. split; [done|]. change (set_mem q1 M) with (set_mem q M) in *.
  assert (Hq1 : ∀ a, a ≠ p → word q1 a = word q a) by (intros a Ha; unfold q1; by rewrite word_set_mem, decide_False).
  split.
  - intros j Hj Hjn. destruct (decide (j = 0)) as [->|].
    + rewrite Z.mul_0_r, Z.add_0_r, Hout by lia. unfold q1. rewrite word_set_mem, decide_True by done.
      unfold v, cleared. by replace (p + n - p) with n by lia.
    + specialize (Hin (j - 1) ltac:(lia) ltac:(lia)). unfold cleared in *.
      replace (p + 8 + 8 * (j - 1)) with (p + 8 * j) in Hin by lia.
      replace (p + 8 + (n - 8)) with (p + n) in Hin by lia. by rewrite Hin, Hq1 by lia.
  - intros a Ha. rewrite Hout by lia. apply Hq1. lia.
Qed.

(** ** Reachable pools *)

(** The blocks of [live], by address, with the sizes that were asked for. *)
Definition live_blocks q A live : Prop :=
  (∀ p size, live !! p = Some size → 0 ≤ size ∧
    ∃ cap, block q A p cap ∧ size ≤ cap ∧ (cap ≤ 2048 ∨ cap < size + 4096) ∧
      (size ≤ 2048 → cap = 2 ^ size_shift q size)) ∧
  (∀ p cap, block q A p cap → is_Some (live !! p)).

Definition slab_inv q live : Prop :=
  ∃ A FL SL, pool_ok q A FL SL ∧ settled A ∧ live_blocks q A live.

(** What a client may do: allocate, with [ngx_slab_alloc] or [ngx_slab_calloc], free a block
    that it holds, write a word of one. *)
Inductive slab_step : ngx_slab_pool_t * gmap Z Z → ngx_slab_pool_t * gmap Z Z → Prop :=
  | step_alloc q live size p q' : 0 ≤ size < 2 ^ 64 → ngx_slab_alloc q size = Some (p, q') → p ≠ 0 →
      slab_step (q, live) (q', <[p := size]> live)
  | step_calloc q live size p q' : 0 ≤ size < 2 ^ 64 → ngx_slab_calloc q size = Some (p, q') → p ≠ 0 →
      slab_step (q, live) (q', <[p := size]> live)
  | step_null q live size q' : 0 ≤ size < 2 ^ 64 → ngx_slab_alloc q size = Some (0, q') →
      slab_step (q, live) (q', live)
  | step_cnull q live size q' : 0 ≤ size < 2 ^ 64 → ngx_slab_calloc q size = Some (0, q') →
      slab_step (q, live) (q', live)
  | step_free q live p size q' : live !! p = Some size → ngx_slab_free q p = Some q' →
      slab_step (q, live) (q', delete p live)
  | step_store q live p size a v q' : live !! p = Some size → p ≤ a → a + 8 ≤ p + size → a mod 8 = 0 →
      0 ≤ v < 2 ^ 64 → wrw q a v = Some q' → slab_step (q, live) (q', live).

(** The pools in the memory from [base] to [endp], and the blocks in use. *)
Definition slab_reach (base minshift endp : Z) (M : gmap Z Z) q live : Prop :=
  init_ok base minshift endp ∧ rtc slab_step (ngx_slab_init base minshift endp M, ∅) (q, live).

Lemma slab_inv_init base minshift endp M : init_ok base minshift endp →
  slab_inv (ngx_slab_init base minshift endp M) ∅.
Proof.
  intros HI. destruct (init_pool_ok base minshift endp M HI) as [HP HS].
  eexists _, _, _. split; [exact HP|]. split; [done|]. split; [done|].
  by intros p cap (s & g & [_ <-]%lookup_singleton_Some & Hb).
Qed.

Lemma block_params q q' A : same_params q q' → ∀ a sz, block q' A a sz ↔ block q A a sz.
Proof.
  intros (_ & _ & _ & Hst & _) a sz.
  assert (Hbq : ∀ s g, block_in q' s g a sz ↔ block_in q s g a sz).
  { intros s g. destruct g; try done; unfold block_in, chunk_addr, page_addr; by rewrite Hst. }
  split; intros (s & g & Hs & Hb); exists s, g; (split; [done|by apply Hbq]).
Qed.

Lemma size_shift_params q q' size : same_params q q' → size_shift q' size = size_shift q size.
Proof. intros (E1 & E2 & _). unfold size_shift. by rewrite E1, E2. Qed.

Lemma slab_inv_alloc q live size : slab_inv q live → 0 ≤ size →
  (ngx_slab_alloc q size = Some (0, q) ∧ ∃ A FL SL, pool_ok q A FL SL ∧ settled A ∧
     live_blocks q A live ∧ ∀ i m, A !! i = Some (SFree m) → m < npages size) ∨
  ∃ p q', ngx_slab_alloc q size = Some (p, q') ∧ 0 < p ∧ live !! p = None ∧ same_params q q' ∧
    slab_inv q' (<[p := size]> live) ∧
    ∀ b sz a, live !! b = Some sz → b ≤ a < b + sz → word q' a = word q a.
Proof.
  intros (A & FL & SL & HP & HS & Hl1 & Hl2) Hsz.
  destruct (alloc_spec q A FL SL size HP HS Hsz) as [[E Hno]|(p & q' & cap & A' & FL' & SL' & E & Hp & HP' & Hal)].
  - left. split; [done|]. exists A, FL, SL. by split_and!.
  - right. exists p, q'. destruct Hal as [H1 H2 H3 H4 H5 H6].
    assert (Hfresh : live !! p = None).
    { destruct (live !! p) as [sz|] eqn:El; [|done]. destruct (Hl1 _ _ El) as (_ & cap' & Hb & _). by apply H5 in Hb. }
    pose proof (block_params q q' A' H3) as Hbl.
    split_and!; try done.
    + exists A', FL', SL'. split_and!; [done..|]. split.
      * intros b sz [[<- <-]|[Hne Hb]]%lookup_insert_Some.
        -- split; [done|]. exists cap. rewrite (size_shift_params q q') by done. split; [|done]. apply Hbl, H4. by left.
        -- destruct (Hl1 _ _ Hb) as (? & cap' & Hb' & ?). split; [done|]. exists cap'.
           rewrite (size_shift_params q q') by done. split; [|done]. apply Hbl, H4. by right.
      * intros b cap' [[-> _]|Hb]%Hbl%H4; [rewrite lookup_insert_eq; by eexists|].
        destruct (decide (p = b)) as [->|]; [by apply H5 in Hb|]. rewrite lookup_insert_ne by done. by eapply Hl2.
    + intros b sz a Hb Ha. destruct (Hl1 _ _ Hb) as (? & cap' & Hb' & ?). eapply H6; [done|lia].
Qed.

Lemma slab_inv_free q live p size : slab_inv q live → live !! p = Some size →
  ∃ q', ngx_slab_free q p = Some q' ∧ same_params q q' ∧ slab_inv q' (delete p live) ∧
    ∀ b sz a, live !! b = Some sz → b ≤ a < b + sz → word q' a = word q a.
Proof.
  intros (A & FL & SL & HP & HS & Hl1 & Hl2) Hlp. destruct (Hl1 _ _ Hlp) as (_ & cap & Hbp & _).
  destruct (free_spec q A FL SL p cap HP HS Hbp) as (q' & A' & FL' & SL' & E & HP' & [H1 H2 H3 H4]).
  exists q'. split; [done|]. split; [done|].
  pose proof (block_params q q' A' H2) as Hbl.
  split.
  - exists A', FL', SL'. split_and!; [done..|]. split.
    + intros b sz [Hne Hb]%lookup_delete_Some. destruct (Hl1 _ _ Hb) as (? & cap' & Hb' & ?).
      split; [done|]. exists cap'. rewrite (size_shift_params q q') by done. split; [|done]. apply Hbl, H3. done.
    + intros b cap' [Hne Hb]%Hbl%H3. rewrite lookup_delete_ne by done. by eapply Hl2.
  - intros b sz a Hb Ha. destruct (Hl1 _ _ Hb) as (? & cap' & Hb' & ?). eapply H4; [done|lia].
Qed.

(** ** Blocks in use *)

Lemma inv_range q live p sz : slab_inv q live → live !! p = Some sz →
  0 ≤ sz ∧ start q ≤ p ∧ p + sz ≤ end_ q ∧ p mod 8 = 0 ∧ ∀ j, 0 ≤ j → 8 * j < sz → word_at q (p + 8 * j) = true.
Proof.
  intros (A & FL & SL & HP & _ & Hl1 & _) Hp. destruct (Hl1 _ _ Hp) as (H0 & cap & (s & g & Hs & Hb) & Hc & _).
  destruct (block_range _ _ _ _ _ _ _ _ HP Hs Hb) as (R1 & R2 & R3 & R4 & R5).
  destruct (tile_in _ _ (ok_tiles _ _ _ _ HP) _ _ Hs) as (? & ? & ?).
  pose proof (page_addr_mod q (s + seg_len g) (ok_params _ _ _ _ HP)) as Hpm.
  pose proof (Z.div_mod (page_addr q (s + seg_len g)) 4096 ltac:(lia)). pose proof (Z.div_mod p 8 ltac:(lia)).
  destruct (ok_params _ _ _ _ HP) as [_ _ _ P2 _]. unfold page_addr in *. split_and!; try lia.
  intros j Hj Hjs. unfold word_at. rewrite !(proj2 (Z.leb_le _ _)); [|lia..]. simpl.
  apply Z.eqb_eq. rewrite (Z.mul_comm 8 j), Z.mod_add; [done|lia].
Qed.

Lemma inv_apart q live p sz p' sz' : slab_inv q live → live !! p = Some sz → live !! p' = Some sz' → p ≠ p' →
  p + sz ≤ p' ∨ p' + sz' ≤ p.
Proof.
  intros (A & FL & SL & HP & _ & Hl1 & _) Hp Hp' Hne.
  destruct (Hl1 _ _ Hp) as (_ & cap & Hb & Hc & _), (Hl1 _ _ Hp') as (_ & cap' & Hb' & Hc' & _).
  destruct (blocks_apart _ _ _ _ _ _ _ _ HP Hb Hb') as [?|[?|?]]; lia.
Qed.

(** Memory may change in the blocks. *)
Lemma slab_inv_mem q live p sz M : slab_inv q live → live !! p = Some sz →
  (∀ a, ¬ p ≤ a < p + sz → word (set_mem q M) a = word q a) → slab_inv (set_mem q M) live.
Proof.
  intros (A & FL & SL & HP & HS & Hl1 & Hl2) Hp HM. destruct (Hl1 _ _ Hp) as (_ & cap & Hb & Hc & _).
  exists A, FL, SL. split; [|by split; [|split]]. apply pool_ok_mem; [done|]. intros s shift C c Hs Hsh Hc'.
  apply HM. intros Ha. eapply (bitmap_apart q A FL SL s shift C c p cap); [done..| |reflexivity]. lia.
Qed.

Lemma cleared_byte w k o : 0 ≤ o < k → k < 8 → (((w ≫ (8 * k)) ≪ (8 * k)) ≫ (8 * o)) mod 256 = 0.
Proof.
  intros Ho Hk. rewrite Z.shiftr_shiftl_l by lia. rewrite Z.shiftl_mul_pow2 by lia.
  replace (8 * k - 8 * o) with (8 + 8 * (k - o - 1)) by lia. rewrite Z.pow_add_r by lia. change (2 ^ 8) with 256.
  rewrite (Z.mul_comm 256), Z.mul_assoc. by apply Z.mod_mul.
Qed.

Lemma slab_inv_calloc q live size : slab_inv q live → 0 ≤ size →
  (ngx_slab_calloc q size = Some (0, q) ∧ ngx_slab_alloc q size = Some (0, q)) ∨
  ∃ p q', ngx_slab_calloc q size = Some (p, q') ∧ 0 < p ∧ live !! p = None ∧ same_params q q' ∧
    slab_inv q' (<[p := size]> live) ∧ (∀ a, p ≤ a < p + size → byte_at q' a = 0) ∧
    ∀ b sz a, live !! b = Some sz → b ≤ a < b + sz → word q' a = word q a.
Proof.
  intros HI Hsz. unfold ngx_slab_calloc.
  destruct (slab_inv_alloc q live size HI Hsz) as [[E _]|(p & q1 & E & Hp & Hf & Hpar & HI1 & Hw)]; rewrite E; bind_simpl.
  { by left. }
  right. rewrite (proj2 (Z.eqb_neq p 0)) by lia.
  assert (Hlp : <[p:=size]> live !! p = Some size) by (by rewrite lookup_insert_eq).
  destruct (inv_range _ _ _ _ HI1 Hlp) as (_ & _ & _ & Hal & Hwd).
  destruct (zero_words_spec (Z.to_nat (size / 8 + 1)) q1 p size) as (M & EM & Hin & Hout); [|done|].
  { pose proof (Z.div_mod size 8 ltac:(lia)). pose proof (Z.mod_pos_bound size 8 ltac:(lia)).
    pose proof (Z.div_pos size 8 ltac:(lia) ltac:(lia)). lia. }
  rewrite EM. bind_simpl. exists p, (set_mem q1 M). split_and!; try done.
  - by eapply slab_inv_mem.
  - intros a Ha. unfold byte_at. pose proof (Z.div_mod a 8 ltac:(lia)) as Ea. pose proof (Z.div_mod p 8 ltac:(lia)) as Ep.
    pose proof (Z.mod_pos_bound a 8 ltac:(lia)) as Ho. set (j := a / 8 - p / 8).
    replace (a - a mod 8) with (p + 8 * j) by lia. rewrite Hin by lia. unfold cleared.
    destruct (Z.leb_spec 8 (p + size - (p + 8 * j))); [by rewrite Z.shiftr_0_l|]. apply cleared_byte; lia.
  - intros b sz a Hb Ha. assert (b ≠ p) by congruence. rewrite Hout; [by eapply Hw|].
    destruct (inv_apart _ _ b sz p size HI1) as [?|?]; [by rewrite lookup_insert_ne|done..|lia|lia].
Qed.

Lemma slab_inv_step x y : slab_step x y → slab_inv x.1 x.2 → slab_inv y.1 y.2 ∧ same_params x.1 y.1.
Proof.
  intros [q live size p q' Hsz E Hp|q live size p q' Hsz E Hp|q live size q' Hsz E|q live size q' Hsz E|q live p size q' Hl E|q live p size a v q' Hl Ha1 Ha2 Ha3 Hv E] HI;
    simpl in *.
  - destruct (slab_inv_alloc q live size HI) as [[E' _]|(p1 & q1 & E' & _ & _ & ? & ? & _)]; [lia|..]; by simplify_eq.
  - destruct (slab_inv_calloc q live size HI) as [[E' _]|(p1 & q1 & E' & _ & _ & ? & ? & _)]; [lia|..]; by simplify_eq.
  - destruct (slab_inv_alloc q live size HI) as [[E' _]|(p1 & q1 & E' & ? & _)]; [lia|..]; simplify_eq; [done|lia].
  - destruct (slab_inv_calloc q live size HI) as [[E' _]|(p1 & q1 & E' & ? & _)]; [lia|..]; simplify_eq; [done|lia].
  - destruct (slab_inv_free q live p size HI Hl) as (q1 & E' & ? & ? & _). by simplify_eq.
  - unfold wrw in E. destruct (word_at q a); [|done]. injection E as <-. split; [|done].
    eapply slab_inv_mem; [done..|]. intros b Hb. rewrite word_set_mem, decide_False; [done|lia].
Qed.

Lemma slab_reach_inv base minshift endp M q live : slab_reach base minshift endp M q live →
  slab_inv q live ∧ same_params (ngx_slab_init base minshift endp M) q.
Proof.
  intros [HI Hr]. pose proof (slab_inv_init base minshift endp M HI) as H0.
  remember (ngx_slab_init base minshift endp M, ∅) as x eqn:Ex. remember (q, live) as y eqn:Ey.
  assert (Hx : slab_inv x.1 x.2) by (by rewrite Ex).
  assert (slab_inv y.1 y.2 ∧ same_params x.1 y.1) as Hy.
  { clear Ex Ey. clear -Hr Hx. induction Hr as [|x y z Hs Hr IH]; [done|].
    destruct (slab_inv_step _ _ Hs Hx) as [Hy Hpar]. destruct (IH Hy). split; [done|]. by eapply same_params_trans. }
  by rewrite Ey, Ex in Hy.
Qed.

(** ** What an allocation that fails tells *)

(** Page [j] holds a byte of the block of [sz] bytes at [p], or its address. *)
Definition meets q (p sz j : Z) : Prop := page_addr q j < p + Z.max 1 sz ∧ p < page_addr q (j + 1).

Lemma block_unique q A FL SL p cap cap' : pool_ok q A FL SL → block q A p cap → block q A p cap' → cap = cap'.
Proof.
  intros HP Hb Hb'. destruct (blocks_apart _ _ _ _ _ _ _ _ HP Hb Hb') as [[_ ?]|Ho]; [done|].
  destruct Hb as (s & g & Hs & Hb), Hb' as (s' & g' & Hs' & Hb').
  destruct (block_range _ _ _ _ _ _ _ _ HP Hs Hb) as (_ & _ & ? & _).
  destruct (block_range _ _ _ _ _ _ _ _ HP Hs' Hb') as (_ & _ & ? & _). lia.
Qed.

Lemma busy_page q A FL SL live s g j : pool_ok q A FL SL → settled A → live_blocks q A live →
  A !! s = Some g → busy g = true → s ≤ j < s + seg_len g → ∃ p sz, live !! p = Some sz ∧ meets q p sz j.
Proof.
  intros HP HS [Hl1 Hl2] Hs Hg Hj. unfold meets.
  destruct g as [n|n|shift C|n]; [done| | |done]; simpl in Hj.
  - assert (Hb : block q A (page_addr q s) (4096 * n)) by (by exists s, (SUser n)).
    destruct (Hl2 _ _ Hb) as [sz Hsz]. exists (page_addr q s), sz. split; [done|].
    destruct (Hl1 _ _ Hsz) as (H0 & cap & Hb' & Hc & Ht).
    destruct (tile_in _ _ (ok_tiles _ _ _ _ HP) _ _ Hs) as (_ & Hn & _). simpl in Hn.
    assert (cap = 4096 * n) as -> by (by eapply block_unique).
    unfold page_addr. lia.
  - destruct (set_choose_L C) as [c Hc]; [by apply (set_used _ HS s shift)|].
    assert (Hb : block q A (chunk_addr q s shift c) (2 ^ shift)) by (exists s, (SSlot shift C); split; [done|by exists c]).
    destruct (Hl2 _ _ Hb) as [sz Hsz]. eexists _, sz. split; [done|].
    assert (Hbi : block_in q s (SSlot shift C) (chunk_addr q s shift c) (2 ^ shift)) by (by exists c).
    destruct (block_range _ _ _ _ _ _ _ _ HP Hs Hbi) as (? & ? & ? & _). simpl in *. unfold page_addr in *. lia.
Qed.

Lemma window_busy q A FL SL live n i : pool_ok q A FL SL → settled A → live_blocks q A live →
  (∀ s m, A !! s = Some (SFree m) → m < n) → 1 ≤ n → 0 ≤ i → i + n ≤ last q →
  ∃ j p sz, i ≤ j < i + n ∧ live !! p = Some sz ∧ meets q p sz j.
Proof.
  intros HP HS HL Hno Hn Hi Hin. pose proof (ok_tiles _ _ _ _ HP) as HT.
  destruct (tile_cover _ _ HT i) as (s & g & Hs & Hc); [lia|].
  destruct (busy g) eqn:Eb.
  { destruct (busy_page _ _ _ _ _ _ _ i HP HS HL Hs Eb Hc) as (p & sz & ?). exists i, p, sz. split; [lia|done]. }
  destruct g as [m|m|shift C|m]; [|done..|by apply (set_tight _ HS) in Hs]. simpl in Hc.
  pose proof (Hno _ _ Hs). destruct (tile_next _ _ _ _ HT Hs) as [g' Hs']; [simpl; lia|]. simpl in Hs'.
  destruct (busy g') eqn:Eb'.
  - destruct (tile_in _ _ HT _ _ Hs') as (_ & ? & _).
    destruct (busy_page _ _ _ _ _ _ _ (s + m) HP HS HL Hs' Eb') as (p & sz & ?); [lia|].
    exists (s + m), p, sz. split; [lia|done].
  - destruct g' as [k|k|shift C|k]; [|done..|by apply (set_tight _ HS) in Hs'].
    by destruct (set_coalesced _ HS s m k Hs).
Qed.

(** The bytes that the bitmap takes at the beginning of a page with chunks for requests of [size]. *)
Definition bitmap_bytes q (size : Z) : Z := reserved (size_shift q size) * 2 ^ size_shift q size.

(** ** The heap *)

Section heap.
Context (base minshift endp : Z) (M : gmap Z Z).

(** C4 [safety]. Whatever sequence of calls of [ngx_slab_alloc], [ngx_slab_calloc] and
    [ngx_slab_free] and of stores into its blocks a client makes after [ngx_slab_init], the
    blocks that it holds are 8-byte aligned, lie between the descriptors of the pool and the
    end of its memory, and do not overlap. *)
Theorem slab_blocks_disjoint q live p sz : slab_reach base minshift endp M q live → live !! p = Some sz →
  base + sizeof_slab_pool + (12 - minshift) * sizeof_slab_page + last q * sizeof_slab_page ≤ p ∧ p + sz ≤ endp ∧
  p mod 8 = 0 ∧ ∀ p' sz', live !! p' = Some sz' → p' ≠ p → p + sz ≤ p' ∨ p' + sz' ≤ p.
Proof.
  intros Hr Hp. pose proof (init_pages _ _ _ M (proj1 Hr)) as (Hl & _ & _ & _ & Hb).
  destruct (slab_reach_inv _ _ _ _ _ _ Hr) as [HI (_ & _ & El & Es & Ee)].
  destruct (inv_range _ _ _ _ HI Hp) as (_ & H1 & H2 & H3 & _). rewrite <-El in Hl. rewrite <-Es in Hb.
  change (end_ (ngx_slab_init base minshift endp M)) with endp in Ee.
  change sizeof_slab_pool with 104. change sizeof_slab_page with 24. rewrite Ee in H2. split_and!; [lia..|].
  intros p' sz' Hp' Hne. by apply (inv_apart _ _ _ _ _ _ HI).
Qed.

(** C5 [functional]. [ngx_slab_alloc] always returns. A pointer that is not null is to a new block
    of the requested size inside the pool, apart from the blocks in use, which keep their
    contents. It returns null only if every run of consecutive pages of the length that the
    request takes holds a block in use, and then the pool is unchanged. A shorter run is never
    handed out, although a comment in [ngx_slab_alloc_pages] says that it is. *)
Theorem slab_alloc_correct q live size : slab_reach base minshift endp M q live → 0 ≤ size < 2 ^ 64 →
  ∃ p q', ngx_slab_alloc q size = Some (p, q') ∧
    if p =? 0 then
      q' = q ∧ ∀ i, 0 ≤ i → i + npages size ≤ last q →
        ∃ j b sz, i ≤ j < i + npages size ∧ live !! b = Some sz ∧ meets q b sz j
    else
      live !! p = None ∧ p mod 8 = 0 ∧ start q ≤ p ∧ p + size ≤ end_ q ∧
      ∀ b sz, live !! b = Some sz → (b + sz ≤ p ∨ p + size ≤ b) ∧
        ∀ a, b ≤ a < b + sz → byte_at q' a = byte_at q a.
Proof.
  intros Hr Hsz. destruct (slab_reach_inv _ _ _ _ _ _ Hr) as [HI _].
  destruct (slab_inv_alloc q live size HI) as [[E (A & FL & SL & HP & HS & HL & Hno)]|
    (p & q' & E & Hp & Hf & (_ & _ & _ & Es & Ee) & HI' & Hw)]; [lia|..].
  - exists 0, q. split; [done|]. split; [done|]. intros i Hi Hin.
    destruct (npages_size size) as [? _]; [lia|]. by eapply window_busy.
  - exists p, q'. split; [done|]. rewrite (proj2 (Z.eqb_neq p 0)) by lia.
    assert (Hlp : <[p:=size]> live !! p = Some size) by (by rewrite lookup_insert_eq).
    destruct (inv_range _ _ _ _ HI' Hlp) as (_ & H1 & H2 & H3 & _). rewrite Es in H1. rewrite Ee in H2.
    split_and!; try done. intros b sz Hb. assert (b ≠ p) by congruence. split.
    + apply (inv_apart _ _ _ _ _ _ HI'); [by rewrite lookup_insert_ne|done..].
    + apply byte_at_same; [by destruct (inv_range _ _ _ _ HI Hb) as (_ & _ & _ & ? & _)|]. intros a. by apply Hw.
Qed.

(** C33 [functional]. [ngx_slab_free] of a block in use returns, and leaves a pool in which the other
    blocks are still in use with the same contents. *)
Theorem slab_free_correct q live p size : slab_reach base minshift endp M q live → live !! p = Some size →
  ∃ q', ngx_slab_free q p = Some q' ∧ slab_reach base minshift endp M q' (delete p live) ∧
    ∀ b sz a, live !! b = Some sz → b ≤ a < b + sz → byte_at q' a = byte_at q a.
Proof.
  intros Hr Hp. destruct (slab_reach_inv _ _ _ _ _ _ Hr) as [HI _].
  destruct (slab_inv_free q live p size HI Hp) as (q' & E & _ & _ & Hw). exists q'. split; [done|]. split.
  - destruct Hr as [Hi Hr]. split; [done|]. eapply rtc_r; [done|]. by eapply step_free.
  - intros b sz a Hb. apply byte_at_same; [by destruct (inv_range _ _ _ _ HI Hb) as (_ & _ & _ & ? & _)|].
    intros a'. by apply Hw.
Qed.

(** C9 [liveness]. Nothing leaks and free pages are always joined: once a client has given back all
    its blocks, in any order, all the pages of the pool can be allocated as one block. *)
Theorem slab_no_leak q : slab_reach base minshift endp M q ∅ →
  ∃ q', ngx_slab_alloc q (4096 * last q) = Some (start q, q').
Proof.
  intros Hr. pose proof (init_pages _ _ _ M (proj1 Hr)) as (Hl & Hst & _).
  destruct (slab_reach_inv _ _ _ _ _ _ Hr) as [HI (_ & _ & El & Es & _)]. rewrite <-El in Hl.
  destruct (slab_inv_alloc q ∅ (4096 * last q) HI) as [[E (A & FL & SL & HP & HS & HL & Hno)]|
    (p & q' & E & Hp & _ & (_ & _ & El' & Es' & _) & HI' & _)]; [lia|..].
  - destruct (window_busy _ _ _ _ _ (last q) 0 HP HS HL) as (j & b & sz & _ & ? & _); [|lia..|done].
    intros s m Hs. pose proof (Hno _ _ Hs) as Hm. destruct (npages_size (4096 * last q)) as (_ & _ & Hn); [lia|].
    destruct (tile_in _ _ (ok_tiles _ _ _ _ HP) _ _ Hs) as (? & ? & ?). simpl in *. lia.
  - exists q'. rewrite E. repeat f_equal. destruct HI' as (A & FL & SL & HP & _ & Hl1 & _).
    destruct (Hl1 p (4096 * last q)) as (_ & cap & (s & g & Hs & Hb) & Hc & _); [by rewrite lookup_insert_eq|].
    destruct (block_range _ _ _ _ _ _ _ _ HP Hs Hb) as (? & ? & _).
    destruct (tile_in _ _ (ok_tiles _ _ _ _ HP) _ _ Hs) as (? & ? & ?). unfold page_addr in *. lia.
Qed.

(** A block that [ngx_slab_calloc] returns is a new block like those of
    [ngx_slab_alloc] and all its bytes are zero; the other blocks keep their contents. *)
Theorem slab_calloc_zeroes q live size : slab_reach base minshift endp M q live → 0 ≤ size < 2 ^ 64 →
  ∃ p q', ngx_slab_calloc q size = Some (p, q') ∧
    if p =? 0 then ngx_slab_alloc q size = Some (0, q) ∧ q' = q
    else live !! p = None ∧ slab_reach base minshift endp M q' (<[p := size]> live) ∧
      (∀ a, p ≤ a < p + size → byte_at q' a = 0) ∧
      ∀ b sz a, live !! b = Some sz → b ≤ a < b + sz → byte_at q' a = byte_at q a.
Proof.
  intros Hr Hsz. destruct (slab_reach_inv _ _ _ _ _ _ Hr) as [HI _].
  destruct (slab_inv_calloc q live size HI) as [[E E']|(p & q' & E & Hp & Hf & _ & _ & Hz & Hw)]; [lia|by exists 0, q|].
  exists p, q'. split; [done|]. rewrite (proj2 (Z.eqb_neq p 0)) by lia. split_and!; [done| |done|].
  - destruct Hr as [Hi Hr]. split; [done|]. eapply rtc_r; [done|]. apply step_calloc; [done..|lia].
  - intros b sz a Hb. apply byte_at_same; [by destruct (inv_range _ _ _ _ HI Hb) as (_ & _ & _ & ? & _)|].
    intros a'. by apply Hw.
Qed.

(** C34 [error]. [ngx_slab_free] refuses, and leaves the pool as it is, every pointer that is not a block
    in use and that lies below the first page, lies above the end of the pool, points into a block in
    use but not to its first byte, or points anywhere into a page that holds a chunk in use, behind the
    bitmap that pages of chunks below 64 bytes have at their beginning (pages of larger chunks have none):
    so a chunk that was already freed, the first one of a page included. *)
Theorem slab_bad_free q live p : slab_reach base minshift endp M q live → live !! p = None →
  p < start q ∨ end_ q < p ∨ (∃ b sz, live !! b = Some sz ∧ b < p < b + sz) ∨
    (∃ b sz, live !! b = Some sz ∧ sz ≤ 2048 ∧ b / 4096 = p / 4096 ∧ bitmap_bytes q sz ≤ p mod 4096) →
  ngx_slab_free q p = Some q.
Proof.
  intros Hr Hn Hp. destruct (slab_reach_inv _ _ _ _ _ _ Hr) as [(A & FL & SL & HP & HS & Hl1 & Hl2) _].
  destruct Hp as [Hp|[Hp|[(b & sz & Hb & Hp)|(b & sz & Hb & Hsz & Hpg & Hp)]]].
  - unfold ngx_slab_free. by rewrite (proj2 (Z.ltb_lt _ _) Hp).
  - unfold ngx_slab_free. by rewrite (proj2 (Z.ltb_lt _ _) Hp), orb_true_r.
  - destruct (Hl1 _ _ Hb) as (_ & cap & Hbl & Hc & _). eapply free_interior; [done..|lia].
  - destruct (Hl1 _ _ Hb) as (H0 & cap & (s & g & Hs & Hbi) & Hc & Ht).
    destruct Ht as [Ht Hcap]. specialize (Hcap Hsz).
    destruct (block_range _ _ _ _ _ _ _ _ HP Hs Hbi) as (R1 & R2 & R3 & _).
    pose proof (Z.div_mod p 4096 ltac:(lia)). pose proof (Z.div_mod b 4096 ltac:(lia)).
    pose proof (Z.mod_pos_bound p 4096 ltac:(lia)). pose proof (Z.mod_pos_bound b 4096 ltac:(lia)).
    pose proof (page_addr_mod q s (ok_params _ _ _ _ HP)). pose proof (Z.div_mod (page_addr q s) 4096 ltac:(lia)).
    assert (p ≠ b) by congruence.
    destruct g as [n|n|shift C|n]; simpl in Hbi, R2; [done| | |done].
    + destruct Hbi as [-> ->]. eapply free_inner_page; [done..|unfold page_addr in *; lia].
    + replace p with (page_addr q s + (p - page_addr q s)) by lia.
      pose proof (slot_shift _ _ _ _ (ok_segs _ _ _ _ HP _ _ Hs)) as Hsh.
      pose proof (par_shift _ (ok_params _ _ _ _ HP)) as Hms.
      eapply free_idle_chunk; [done..|unfold page_addr in *; lia| |].
      * assert (size_shift q sz = shift) as E.
        { destruct (size_shift_spec q sz (ok_params _ _ _ _ HP) ltac:(lia)) as [? _].
          destruct Hbi as (c & _ & _ & ->). symmetry. apply (Z.pow_inj_r 2); [lia..|done]. }
        unfold bitmap_bytes in Hp. rewrite E in Hp. unfold page_addr in *. lia.
      * intros c Hc' E. destruct (Hl2 p (2 ^ shift)) as [? ?]; [|congruence].
        exists s, (SSlot shift C). split; [done|]. exists c. split; [done|]. split; [lia|done].
Qed.
End heap.

(** ** A pool of nine pages *)

Definition demo_pool (sizes : list Z) : ngx_slab_pool_t :=
  foldl (λ q size, match ngx_slab_alloc q size with Some (_, q') => q' | None => q end)
    (ngx_slab_init 65536 3 106496 ∅) sizes.

Lemma demo_init_ok : init_ok 65536 3 106496.
Proof. by split. Qed.

Lemma demo_reach : slab_reach 65536 3 106496 ∅ (demo_pool [100; 5000]) (<[73728 := 5000]> (<[69632 := 100]> ∅)).
Proof.
  split; [apply demo_init_ok|]. eapply rtc_r; [eapply rtc_r; [apply rtc_refl|]|].
  - apply (step_alloc _ _ 100 69632 (demo_pool [100])); [lia|by vm_compute|lia].
  - apply (step_alloc _ _ 5000 73728); [lia|by vm_compute|lia].
Qed.

Lemma slab_blocks_disjoint_witness :
  65536 + 104 + 9 * 24 + 9 * 24 ≤ 69632 ∧ (69632 + 100 ≤ 73728 ∨ 73728 + 5000 ≤ 69632).
Proof.
  destruct (slab_blocks_disjoint 65536 3 106496 ∅ (demo_pool [100; 5000]) _ 69632 100 demo_reach) as (H1 & _ & _ & H2).
  - by vm_compute.
  - split; [exact H1|]. by apply H2.
Defined.

Lemma slab_alloc_correct_witness : ∃ p q', ngx_slab_alloc (demo_pool [100; 5000]) 24 = Some (p, q') ∧ p ≠ 0.
Proof.
  destruct (slab_alloc_correct 65536 3 106496 ∅ (demo_pool [100; 5000]) _ 24 demo_reach ltac:(lia)) as (p & q' & E & H).
  exists p, q'. split; [done|]. intros ->. vm_compute in E. discriminate.
Defined.

Lemma slab_free_correct_witness : ∃ q', ngx_slab_free (demo_pool [100; 5000]) 73728 = Some q' ∧
  ∀ a, 69632 ≤ a < 69632 + 100 → byte_at q' a = byte_at (demo_pool [100; 5000]) a.
Proof.
  destruct (slab_free_correct 65536 3 106496 ∅ (demo_pool [100; 5000]) _ 73728 5000 demo_reach) as (q' & E & _ & H).
  - by vm_compute.
  - exists q'. split; [done|]. intros a. apply (H 69632 100). by vm_compute.
Defined.

Lemma slab_no_leak_witness : ∃ q', ngx_slab_alloc (demo_pool []) (4096 * 9) = Some (69632, q').
Proof. apply (slab_no_leak 65536 3 106496 ∅ (demo_pool [])). split; [apply demo_init_ok|apply rtc_refl]. Defined.

Lemma slab_calloc_zeroes_witness : ∃ p q', ngx_slab_calloc (demo_pool [100; 5000]) 24 = Some (p, q') ∧ byte_at q' (p + 23) = 0.
Proof.
  destruct (slab_calloc_zeroes 65536 3 106496 ∅ (demo_pool [100; 5000]) _ 24 demo_reach ltac:(lia)) as (p & q' & E & H).
  exists p, q'. split; [done|]. destruct (Z.eqb_spec p 0) as [->|_].
  - vm_compute in E. discriminate.
  - destruct H as (_ & _ & H & _). apply H. lia.
Defined.

Lemma slab_bad_free_witness : ngx_slab_free (demo_pool [100; 5000]) 69760 = Some (demo_pool [100; 5000]).
Proof.
  apply (slab_bad_free 65536 3 106496 ∅ (demo_pool [100; 5000]) _ 69760 demo_reach); [by vm_compute|].
  right; right; right. exists 69632, 100. by vm_compute.
Defined.
